(* ===== verification/_CoqProject ===== *)
-Q . S2P
Prelude.v
RustStd.v
SortedVec.v
SortedVectorMap.v
SortedVectorSet.v
MapRefinement.v
SetRefinement.v
Netstring.v
Futures.v
BoundedTree.v
BoundedStream.v
BoundedDag.v
OrderedStream.v
OrderedStreamTheory.v
Duration.v
Streams.v
WeightLimited.v
BufferedWeighted.v
StreamWrappers.v
Retry.v
OnceCell.v
HashMemo.v
RustStr.v
ScubaValue.v
Sampling.v
ScubaSample.v
CachedConfig.v
JustKnobs.v
Futures01.v
Thrift.v
SqlGuard.v
SqlTransaction.v
SqlQuery.v
FacetMacro.v
FacetOrder.v
FacetSync.v
FacetAsync.v
Stats.v
FuturesStats.v
ChromeTrace.v
FacetContainer.v
Futures01Buffered.v
Futures01Wrappers.v
ScubaDerive.v
ScubaBuilder.v
Failure.v
Glog.v
ThriftCompiler.v
Detectors.v
Processes.v
SqlExec.v
Abomonable.v
AsciiExt.v
LetMacros.v
SharedHandles.v
SlogCompat.v
Derives.v
Caches.v
LockExt.v
PanicHandler.v
