(* ===== verification/Prelude.v ===== *)
(** * A verification of rust-shed

    rust-shed is a collection of Rust crates shared by several services.  This library
    models the crates that carry algorithms or protocols of their own and proves what they
    promise; the model of a crate is a file, or a few, and reads like the crate.

    ** Conventions

    - A Rust function that may panic (indexing, slicing, [unwrap], [assert!], an overflow in
      a build with checks, a loop without end) returns [exec A], either [ret a] or [panic].
      Theorems that say "never panics" state that the result is a [ret].
    - [Result] and [Option] are the sums and options of the source.  Integers have the width
      of the source where it matters: lengths and counters of the traversals and of the
      codecs are reduced modulo their width or panic, according to the build mode, which
      is an argument ([overflow_checks]).
    - Code outside the repository (crates from the registry, the kernel, the allocator) is
      an argument of the model: a class with the operations that the code calls, and a second
      class with their documented laws.  Theorems are proved against the classes; every
      such class comes with an instance, on which the witnesses run.
    - A callback that returns a future is what the future resolves to; the time at which
      it resolves is the world's.  A world is whatever the executor and the other tasks do
      between two polls, and the theorems quantify over it.
    - A loop without a structural measure takes fuel.  Running out of fuel is [panic] (or a
      separate outcome), never a silent success.  Where a loop always ends, a theorem gives
      an amount that is enough, as a bound in the size of the input; where it does not, the
      theorems are about every amount ("Bounds and fuel" below).

    ** The files

    _Foundations._
    - [Prelude]: [exec], its notation and tactics, [Permutation] and list lemmas, counting
      arguments, the hint databases.
    - [RustStd]: [Ord] and [Borrow] as classes with laws, the slice searches and sorts, [Vec]
      with its panics, iterators, machine arithmetic.
    - [RustStr]: strings as bytes, decimal printing and parsing, integer casts.
    - [Futures], [Streams], [Duration]: polls, worlds and drivers; [FuturesUnordered],
      [FuturesOrdered], [Fuse]; [std::time::Duration] with its panics, with [time_ext] and
      the duration encoding of [chrome_trace].

    _Sorted containers_ (src/shed/sorted_vector_map/src).
    - [SortedVec]: the theory of vectors sorted by a key, shared by both containers.
    - [SortedVectorMap] (map.rs), [SortedVectorSet] (set.rs): every operation, the invariant,
      and the functional behaviour of each; [extend] by merging is the same as inserting one by
      one, where keys that [Ord] finds equal are equal; the lazy set operators compute the set
      operations and never panic.
    - [MapRefinement], [SetRefinement]: what map.rs and set.rs promise, as a relation on the set of
      entries, or elements, of which there is one for each class of equal keys; any sequence of
      public operations keeps the vector strictly sorted, does that to the set, and answers, or
      panics, as said, the predicates of sets that answer wrongly included.

    _Codecs._
    - [Netstring] (src/shed/netstring/src): the decoder accepts exactly the grammar and is
      independent of how the bytes arrive, encoding followed by decoding is the identity, a
      broken decoder stays broken.
    - [Thrift] (src/shed/fbthrift_ext): [Framed] for framed/lib.rs with its round trip over
      any chunking; [Adapters] for adapters/*.rs with their round trips and saturation;
      [PollWithLock] for util/lib.rs, with the wake-up it loses.

    _Bounded traversals_ (src/shed/bounded_traversal/src).
    - [BoundedTree] (tree.rs), [BoundedDag] (dag.rs), [BoundedStream] (stream.rs with both
      traversals), [OrderedStream] and [OrderedStreamTheory] (ordered_stream.rs).  A run of the
      tree traversal in any order of completions returns the recursive fold of the tree; the
      graph traversal unfolds each value once, detects cycles and returns the memoized fold;
      the streams yield each node once, the ordered one in the order of the tree and within
      the budget.  Each has the bound on the futures in flight as part of its invariant.  The
      graph traversal stops unfolding at its limit; what it returns then is the fold of the
      graph cut where it stopped.

    _Futures and streams_ (src/shed/futures_ext/src, buffered_weighted, futures_retry,
    async_once_cell, futures_01_ext).
    - [WeightLimited], [BufferedWeighted]: at most the permitted weight in flight, outputs in
      order, and a task that is never left without a wake-up.
    - [StreamWrappers]: timeouts, yielding, the remainder of a stream, cancellation hooks.
    - [Retry]: backoffs, attempts, the outcome of a retried future.
    - [OnceCell]: tasks interleaved at the level of atomic actions; a cell is initialised at
      most once, readers see the initial value, some task can always move, but for a closure that
      is waited for.
    - [Futures01]: the adaptors of futures 0.1 ([Forker], [Batch], [Adaptors]);
      [Futures01Buffered], the stream that buffers by weight; [Futures01Wrappers], the rest of
      lib.rs, select_all.rs and collect_to.rs: results looked at or discarded, one of two
      streams, remainders, merging and collecting.

    _Hashing, samples and configuration._
    - [HashMemo] (src/shed/hash_memo): memoized hashes are transparent.
    - [ScubaValue], [ScubaSample], [ScubaBuilder] (src/shed/scuba_sample), [ScubaDerive] (its
      derive macro, from the syntax of a struct to what the generated code does), [Sampling]
      (src/shed/sampling).
    - [CachedConfig] (src/shed/cached_config), [JustKnobs] (src/shed/justknobs_stub), which is a
      client of [CachedConfig].

    _SQL_ (src/shed/sql).
    - [SqlGuard] (common/sqlite.rs): the guard protocol as a step relation over any number of
      threads and databases, with mutual exclusion and progress.
    - [SqlTransaction] (common/transaction.rs and the transaction part of lib.rs): on top of
      the guard; what is committed, rolled back and given back.
    - [SqlQuery] (lib.rs, row_field.rs, to_sql.rs): the text and parameters of a query for the
      two databases denote the same query, when the names of its parameters are distinct.
    - [SqlExec] (lib.rs, common/lib.rs, mysql.rs, ossmysql_wrapper.rs, mysql_stub.rs): what the
      functions of a query run, on a connection and in a transaction; what reading gives on
      SQLite and on MySQL, from what the database answers; an insertion into SQLite is row by row; a transaction
      of MySQL does all of its queries or none.

    _Facets_ (src/shed/facet).
    - [FacetMacro] (proc_macros/factory_impl.rs, util.rs): reading a factory, refusing cyclic
      dependencies with a shortest cycle, the levels of the facets, the generated builders as
      data.  [FacetOrder] is its theory: what becomes of every factory, panics and refusals
      included; of those that are read, exactly the ones whose dependencies have no cycle get a
      builder, in which each future is defined after those it awaits.
    - [FacetSync]: what the generated synchronous builder does.  Methods of the factory answer
      by the history of calls; each facet is built at most once, after what it takes, and the
      container holds what the methods returned.
    - [FacetAsync]: what the generated asynchronous builder does, as a step relation over its
      shared futures, in which a call may also panic; the same container whatever the order in which
      the futures are polled, errors included, and no panic.
    - [FacetContainer] (container_impl.rs, facet_impl.rs, lib.rs of the macros and of facet): the
      container macro, [build_from], and access to facets through delegates.

    _Stats and traces._
    - [Stats] (src/shed/stats, src/shed/perthread): the registry of thread-local values, with its
      raw pointers and its lock, which a callback that panics poisons, as steps that never touch
      freed memory; the managers; the
      dynamic and field stats; the macros [define_stats!] and [define_stats_struct!].
    - [FuturesStats] (src/shed/futures_stats): what the timed futures and streams measure,
      against a stopwatch of the model.
    - [ChromeTrace] (src/shed/chrome_trace): events, traces, their JSON and their files.

    _Errors, logging, processes and tools._
    - [Failure] (src/shed/failure_ext, src/shed/shared_error): chains of causes and how they
      are displayed and logged, contexts of futures and streams, errors shared among clones.
    - [Glog] (src/shed/slog_glog_fmt): a record printed as text, with the
      key-values that go inline and those on lines of their own.
    - [Processes] (the mocks of src/shed/async_process_traits): commands, children and spawners,
      with other tasks between the polls.
    - [Detectors] (src/shed/tokio-detectors): the detectors of blocked workers, with workers,
      signals and the detector's thread interleaved.
    - [ThriftCompiler] (src/shed/thrift_compiler): the compiler's runs, which may fail, the sources
      copied before, the clean-up and renaming of the generated files into the crate, and the
      inputs with which two files overwrite each other.
    - [SlogCompat] (src/shed/tracing_slog_compat): loggers that are slog's or stand for tracing, and the
      macros that log to either, with their keys and values in order.
    - [PanicHandler] (src/shed/panichandler): the report of a panic, of a bounded number of frames.
    - [LockExt] (src/shed/lock_ext): scopes under locks, and what a panic in one does to the next.
    - [SharedHandles] (src/shed/futures_lazy_shared, and try_shared and spawn_controlled of
      src/shed/futures_ext): one value for all who ask, one error for all who share, and a task that
      ends with its last handle, whatever the order of polls and drops.

    _Macros and small crates._
    - [LetMacros] (src/shed/borrowed, src/shed/cloned): all arms of the two macros, run by a model of
      [macro_rules!]; a list of items expands to their [let]s, but for one shape that has no arm.
    - [Derives] (src/shed/quickcheck_arbitrary_derive, src/shed/fbinit): a derive macro and the attributes
      of fbinit, from their input to what the generated code does.
    - [Abomonable] (src/shed/abomonable_string): strings written into a buffer with padding and read
      back in place.
    - [AsciiExt] (src/shed/ascii_ext): random ASCII characters and strings, always valid.
    - [Caches] (src/shed/memcache_stub, src/shed/cachelib_stub): keys from which their parts can be
      read, and caches that lose everything, which a cache may.

    ** Bounds and fuel

    The loops of [BoundedTree], [BoundedDag] and [BoundedStream] take a fuel that their
    termination theorems bound: by twice the number of nodes for a poll of the tree, by twice
    the number of values for all polls of the graph together, by one round for a poll of the
    stream, and by the number of nodes for a poll of the stream limited by key.  The poll loop of
    [OrderedStream] has no such theorem: its results are proved for every fuel with which a poll
    returns, and after an error it can go round for ever ([poll_after_error_spins]); the loops
    inside a round are given a fuel that is proved to be enough.  [Netstring.decode] takes as many
    rounds as there are bytes in the buffer.  The inner loops of [BufferedWeighted],
    [Futures01] and [WeightLimited] take a round for each item of the inner stream plus one.
    [FacetMacro.facet_fuel] bounds the recursion of the builders by the number of facets, and a
    factory without cycles never runs out of it.  [OnceCell], [SqlGuard], [Stats], [FacetAsync],
    [JustKnobs] and the tasks of [CachedConfig] are step relations without fuel; those of [OnceCell],
    [SqlGuard], [FacetAsync] and [JustKnobs] have theorems that give a step or a decreasing measure.

    ** Abstractions

    - Atomics are sequentially consistent in [OnceCell] and passed along as state in
      [HashMemo].  Locks are never poisoned in [SqlGuard], because nothing panics with a lock
      in hand.
    - An iteration of the updater of [CachedConfig] is one step, during which the source does
      not change.
    - Errors carry their kind and not their text in [ScubaValue], and in the others where the
      text is for humans, except in [Failure].  Logging is left out everywhere but in [Glog].
    - Floats, JSON numbers, UUIDs, byte buffers, clocks, timers, random generators, [watch],
      [oneshot] and [ArcSwap] are classes or parameters.
    - [SqlQuery] keeps statements as lists of pieces; how a database parses the
      text is outside.

    ** Not modelled, and why

    - Of the macros over syntax trees, the parsing and printing of tokens; of the facet macros, the
      expressions of users ([init] fields).  Left out altogether are the macros that only emit
      declarations (codegen_includer, hlist_to_tuple, the derive of sql).
    - Bindings to the operating system and to services (hostname, detect_eden, secure_utils,
      sockets, uds-compat, the forwarding of process traits to [tokio]), and what is empty in
      open source builds (scuba_stub, services, ods, hostcaps).
    - The servers and clients behind [sql] (mysql_async, SQLite), its pools and telemetry.
*)
From Stdlib Require Export Sorting.Sorted.
From stdpp Require Export base tactics numbers gmap list.

#[export] Set Default Goal Selector "!".

Declare Scope exec_scope.
Delimit Scope exec_scope with exec.

(** * Executions that may panic

    A Rust function either returns a value or panics.  Every modelled operation
    that indexes, slices, unwraps, asserts or computes with overflow checks
    returns [exec A]; the theorems then show which of them never panic. *)

Inductive exec (A : Type) : Type :=
| ret (a : A)
| panic.
Arguments ret {A} a.
Arguments panic {A}.

Definition exec_bind {A B} (m : exec A) (f : A → exec B) : exec B :=
  match m with ret a => f a | panic => panic end.

Notation "'let!' x ':=' m 'in' k" := (exec_bind m (λ x, k))
  (at level 10, x name, m at level 100, k at level 200,
   format "'let!'  x  ':='  m  'in' '//' k") : exec_scope.
Notation "'let!' ' p ':=' m 'in' k" := (exec_bind m (λ x, match x with p => k end))
  (at level 10, p strict pattern, m at level 100, k at level 200,
   format "'let!'  ' p  ':='  m  'in' '//' k") : exec_scope.
#[global] Open Scope exec_scope.

(** [expect]/[unwrap] on an [Option]: panics on [None]. *)
Definition expect {A} (o : option A) : exec A :=
  match o with Some a => ret a | None => panic end.

(** [assert!]: panics when the condition is false. *)
Definition rust_assert (b : bool) : exec () := if b then ret () else panic.

(** The value of a call that does not panic. *)
Definition returns {A} (m : exec A) : Prop := is_Some (match m with ret a => Some a | panic => None end).

Lemma exec_bind_ret {A B} (a : A) (f : A → exec B) : exec_bind (ret a) f = f a.
Proof. done. Qed.

Lemma exec_bind_inv {A B} (m : exec A) (f : A → exec B) b :
  exec_bind m f = ret b → ∃ a, m = ret a ∧ f a = ret b.
Proof. destruct m as [a|]; [by exists a | done]. Qed.

Lemma expect_Some {A} (o : option A) a : o = Some a → expect o = ret a.
Proof. by intros ->. Qed.

(** * Rust's [Result] *)

Inductive result (A E : Type) : Type :=
| Ok (a : A)
| Err (e : E).
Arguments Ok {A E} a.
Arguments Err {A E} e.

Definition is_ok {A E} (r : result A E) : bool :=
  match r with Ok _ => true | Err _ => false end.
Definition ok {A E} (r : result A E) : option A :=
  match r with Ok a => Some a | Err _ => None end.

(** * Poll results of futures and streams *)

Inductive Poll (A : Type) : Type :=
| Ready (a : A)
| Pending.
Arguments Ready {A} a.
Arguments Pending {A}.

(** * Machine-width integers *)

(** The largest [usize]/[u64] of a 64-bit target. *)
Definition usize_max : Z := (2 ^ 64 - 1)%Z.

(** [usize::checked_add] on counts. *)
Definition checked_add (a b : nat) : option nat :=
  if (Z.of_nat (a + b) <=? usize_max)%Z then Some (a + b) else None.

Lemma checked_add_Some a b c : checked_add a b = Some c → c = a + b.
Proof. unfold checked_add. by case_match; intros; simplify_eq. Qed.

(** * Automation *)

Create HintDb shed discriminated.

(** Splits every [match] of the goal or of a hypothesis, remembering the equation. *)
Ltac case_all := repeat (case_match; simplify_eq/=).

(** Turns a hypothesis [let! x := m in k = ret b] into its two halves. *)
Ltac inv_exec :=
  repeat match goal with
  | H : exec_bind _ _ = ret _ |- _ =>
      let Hl := fresh H in
      apply exec_bind_inv in H as (?&Hl&H)
  | H : ret _ = ret _ |- _ => injection H as H; subst
  | H : panic = ret _ |- _ => discriminate H
  | H : expect _ = ret _ |- _ =>
      let E := fresh "E" in
      unfold expect in H; destruct _ eqn:E in H; [injection H as H; subst|discriminate H]
  end.

(** * Lists *)

Lemma StronglySorted_app_iff {A} (R : A → A → Prop) (l1 l2 : list A) :
  StronglySorted R (l1 ++ l2) ↔
  StronglySorted R l1 ∧ StronglySorted R l2 ∧ (∀ x y, x ∈ l1 → y ∈ l2 → R x y).
Proof.
  induction l1 as [|a l1 IH]; simpl.
  { split; [intros H; split_and!; [constructor|done|set_solver]|by intros (_&?&_)]. }
  split; intros H.
  - inversion H as [|?? Hs Hf]; subst.
    apply IH in Hs as (?&?&Hx). apply Forall_app in Hf as [Hf1 Hf2].
    split_and!; [by constructor|done|].
    intros x y [->|?]%elem_of_cons ?; [|auto].
    rewrite Forall_forall in Hf2. auto.
  - destruct H as (H1&H2&H3). inversion H1 as [|?? Hs Hf]; subst. constructor.
    + apply IH. split_and!; [done..|]. intros; apply H3; [by right|done].
    + apply Forall_app. split; [done|]. apply Forall_forall. intros; apply H3; [by left|done].
Qed.

Lemma StronglySorted_lookup {A} (R : A → A → Prop) (l : list A) i j x y :
  StronglySorted R l → i < j → l !! i = Some x → l !! j = Some y → R x y.
Proof.
  intros H. revert i j. induction H as [|a l Hs IH Hf]; intros i j Hij Hi Hj; [done|].
  destruct i as [|i], j as [|j]; simplify_eq/=; [lia|..|lia|].
  - rewrite Forall_forall in Hf. apply Hf. by apply list_elem_of_lookup_2 in Hj.
  - eapply (IH i j); [lia|done|done].
Qed.

Lemma StronglySorted_sublist {A} (R : A → A → Prop) (l k : list A) :
  l `sublist_of` k → StronglySorted R k → StronglySorted R l.
Proof.
  induction 1 as [|x l1 l2 Hsub IH|x l1 l2 Hsub IH]; intros H; [done|..];
    inversion H as [|?? Hs Hf]; subst; [|by apply IH].
  constructor; [by apply IH|].
  rewrite !Forall_forall in Hf |- *. intros y Hy. apply Hf.
  by eapply elem_of_submseteq, sublist_submseteq.
Qed.

Lemma StronglySorted_impl {A} (R R' : A → A → Prop) (l : list A) :
  (∀ x y, R x y → R' x y) → StronglySorted R l → StronglySorted R' l.
Proof.
  intros HR. induction 1; constructor; [done|].
  eapply Forall_impl; [done|]. auto.
Qed.

Lemma lookup_drop_0 {A} (l : list A) i x :
  l !! i = Some x → drop i l = x :: drop (S i) l.
Proof. intros. by apply drop_S. Qed.

Lemma filter_all {A} (P : A → Prop) `{∀ x, Decision (P x)} (l : list A) : Forall P l → filter P l = l.
Proof. induction 1; [done|]. rewrite filter_cons_True by done. by f_equal. Qed.

Lemma filter_none {A} (P : A → Prop) `{∀ x, Decision (P x)} (l : list A) :
  Forall (λ x, ¬ P x) l → filter P l = [].
Proof. induction 1; [done|]. by rewrite filter_cons_False. Qed.

(** Two ways to cut a list, the first cut not after the second. *)
Lemma app_cut {A} (l1 l2 r1 r2 : list A) :
  l1 ++ l2 = r1 ++ r2 → length l1 ≤ length r1 → ∃ k, r1 = l1 ++ k ∧ l2 = k ++ r2.
Proof.
  intros [(k&->&->)|(k&->&->)]%app_eq_inv Hlen; [|by exists k].
  rewrite length_app in Hlen. destruct k; [|simpl in Hlen; lia]. exists []. by rewrite !app_nil_r.
Qed.

Lemma omap_cons_eq {A B} (f : A → option B) x (l : list A) :
  omap f (x :: l) = match f x with Some y => y :: omap f l | None => omap f l end.
Proof. done. Qed.

(** Permuting one side of a [Forall2] permutes the other. *)
Lemma Forall2_perm {A B} (P : A → B → Prop) (l l' : list A) k :
  l ≡ₚ l' → Forall2 P l k → ∃ k', Forall2 P l' k' ∧ k ≡ₚ k'.
Proof.
  intros Hp. revert k. induction Hp as [|x l l' Hp IH|x y l|l1 l2 l3 Hp1 IH1 Hp2 IH2]; intros k Hk.
  - by exists k.
  - inversion Hk as [|? z ? k' Hx Hk']; subst. destruct (IH k' Hk') as (k2&?&Heq).
    exists (z :: k2). split; [by constructor|by rewrite Heq].
  - inversion Hk as [|? z1 ? k1 H1 Hk1]; subst. inversion Hk1 as [|? z2 ? k2 H2 Hk2]; subst.
    exists (z2 :: z1 :: k2). split; [by repeat constructor|]. apply Permutation_swap.
  - destruct (IH1 k Hk) as (k1&H1&Heq1). destruct (IH2 k1 H1) as (k2&H2&Heq2).
    exists k2. split; [done|]. by rewrite Heq1.
Qed.

Lemma concat_perm {A} (ls ls' : list (list A)) : ls ≡ₚ ls' → concat ls ≡ₚ concat ls'.
Proof.
  induction 1 as [|l ls ls' _ IH|l1 l2 ls|ls1 ls2 ls3 _ IH1 _ IH2]; simpl; [done|by rewrite IH| |by rewrite IH1].
  rewrite !app_assoc. apply Permutation_app_tail, Permutation_app_comm.
Qed.

(** Permutations of lists built with [++] and [::], by bringing the first part of the left
    side to the front of the right side. *)
Class Bring {A} (a l r : list A) : Prop := bring : l ≡ₚ a ++ r.

#[export] Instance bring_app {A} (a l : list A) : Bring a (a ++ l) l | 0.
Proof. by unfold Bring. Qed.
#[export] Instance bring_all {A} (a : list A) : Bring a a [] | 1.
Proof. unfold Bring. by rewrite app_nil_r. Qed.
#[export] Instance bring_head {A} (x : A) (l : list A) : Bring [x] (x :: l) l | 0.
Proof. by unfold Bring. Qed.
#[export] Instance bring_cons {A} (a l r : list A) x : Bring a l r → Bring a (x :: l) (x :: r) | 2.
Proof. unfold Bring. intros ->. apply Permutation_middle. Qed.
#[export] Instance bring_left {A} (a l r k : list A) : Bring a l r → Bring a (l ++ k) (r ++ k) | 2.
Proof. unfold Bring. intros ->. by rewrite app_assoc. Qed.
#[export] Instance bring_right {A} (a l r k : list A) : Bring a l r → Bring a (k ++ l) (k ++ r) | 3.
Proof. unfold Bring. intros ->. by rewrite Permutation_app_swap_app. Qed.

Lemma perm_bring_app {A} (a l r r' : list A) : Bring a r r' → l ≡ₚ r' → a ++ l ≡ₚ r.
Proof. unfold Bring. by intros -> ->. Qed.
Lemma perm_bring_cons {A} (x : A) (l r r' : list A) : Bring [x] r r' → l ≡ₚ r' → x :: l ≡ₚ r.
Proof. unfold Bring. by intros -> ->. Qed.
Lemma perm_bring_last {A} (a r r' : list A) : Bring a r r' → [] ≡ₚ r' → a ≡ₚ r.
Proof. unfold Bring. intros -> <-. by rewrite app_nil_r. Qed.

Ltac norm_app := rewrite <-?app_assoc; cbn [app].
Ltac solve_perm :=
  solve [ norm_app;
    repeat first
      [ reflexivity
      | eapply perm_bring_cons; [apply _|]; norm_app
      | eapply perm_bring_app; [apply _|]; norm_app
      | eapply perm_bring_last; [apply _|]; norm_app ] ].

(** The items a map's values hold, up to order. *)
Section map_items.
Context {K V A : Type} `{Countable K} (f : V → list A).
Implicit Types m : gmap K V.

Definition map_items m : list A := map_to_list m ≫= λ p, f p.2.

Lemma map_items_empty : map_items ∅ = [].
Proof. unfold map_items. by rewrite map_to_list_empty. Qed.
Lemma map_items_insert m k v : m !! k = None → map_items (<[k := v]> m) ≡ₚ f v ++ map_items m.
Proof. intros Hk. unfold map_items. by rewrite map_to_list_insert. Qed.
Lemma map_items_lookup m k v : m !! k = Some v → map_items m ≡ₚ f v ++ map_items (delete k m).
Proof. intros Hk. rewrite <-(insert_delete_id m k v) at 1 by done. by rewrite map_items_insert by apply lookup_delete_eq. Qed.
Lemma map_items_update m k v : map_items (<[k := v]> m) ≡ₚ f v ++ map_items (delete k m).
Proof. rewrite <-insert_delete_eq. by rewrite map_items_insert by apply lookup_delete_eq. Qed.
Lemma map_items_old m k : map_items m ≡ₚ from_option f [] (m !! k) ++ map_items (delete k m).
Proof.
  destruct (m !! k) as [v|] eqn:Hk; [by apply map_items_lookup|]. simpl. by rewrite delete_id.
Qed.
Lemma elem_of_map_items m x : x ∈ map_items m ↔ ∃ k v, m !! k = Some v ∧ x ∈ f v.
Proof.
  unfold map_items. rewrite list_elem_of_bind. split.
  - intros ([k v]&Hx&Hk%elem_of_map_to_list). eauto.
  - intros (k&v&Hk&Hx). exists (k, v). by rewrite elem_of_map_to_list.
Qed.
Lemma map_items_nil m : (∀ k v, m !! k = Some v → f v = []) → map_items m = [].
Proof.
  intros Hm. destruct (map_items m) as [|x l] eqn:Hl; [done|].
  assert (x ∈ map_items m) as Hx by (rewrite Hl; by left).
  apply elem_of_map_items in Hx as (k&v&Hk&Hx). rewrite (Hm _ _ Hk) in Hx. by apply not_elem_of_nil in Hx.
Qed.
End map_items.

(** The sum of a measure over the values of a map. *)
Section map_sum.
Context {K A : Type} `{Countable K} (f : A → nat).
Implicit Types m : gmap K A.

Definition map_sum m : nat := sum_list_with (λ p, f p.2) (map_to_list m).

Lemma map_sum_perm (l l' : list (K * A)) : l ≡ₚ l' → sum_list_with (λ p, f p.2) l = sum_list_with (λ p, f p.2) l'.
Proof. induction 1; simpl; lia. Qed.
Lemma map_sum_empty : map_sum ∅ = 0.
Proof. unfold map_sum. by rewrite map_to_list_empty. Qed.
Lemma map_sum_insert m k v : m !! k = None → map_sum (<[k := v]> m) = f v + map_sum m.
Proof. intros Hk. unfold map_sum. by rewrite (map_sum_perm _ _ (map_to_list_insert _ _ _ Hk)). Qed.
Lemma map_sum_delete m k v : m !! k = Some v → map_sum m = f v + map_sum (delete k m).
Proof. intros Hk. rewrite <-(insert_delete_id m k v) at 1 by done. by rewrite map_sum_insert by apply lookup_delete_eq. Qed.
Lemma map_sum_update m k v v' : m !! k = Some v → map_sum (<[k := v']> m) + f v = map_sum m + f v'.
Proof.
  intros Hk. rewrite (map_sum_delete m k v Hk), <-insert_delete_eq, map_sum_insert by apply lookup_delete_eq. lia.
Qed.
Lemma map_sum_ge m k v : m !! k = Some v → f v ≤ map_sum m.
Proof. intros Hk. rewrite (map_sum_delete m k v Hk). lia. Qed.
End map_sum.
