(* ===== verification/RustStd.v ===== *)
(** Models of the parts of the Rust standard library that the crates use: the
    [Ord] and [Borrow] traits as classes with their documented laws, slice
    binary search, stable sort, the indexing operations of [Vec] with their
    panics, and iterators driven to exhaustion ([collect], [for]). *)
From S2P Require Import Prelude.

(** [Option::is_none]. *)
Definition is_none {A} (o : option A) : bool := match o with None => true | Some _ => false end.

Definition is_nil {A} (l : list A) : bool := match l with [] => true | _ :: _ => false end.

(** [a - b] on counts: an underflow panics with overflow checks; the theorems show that no
    execution reaches it, in any build. *)
Definition count_sub (a b : nat) : exec nat := if b <=? a then ret (a - b) else panic.

Lemma count_sub_le a b : b ≤ a → count_sub a b = ret (a - b).
Proof. intros Hb. unfold count_sub. by rewrite (proj2 (Nat.leb_le b a) Hb). Qed.

(** * The [Ord] trait

    A total preorder: [cmp x y = Eq] is an equivalence, but not Leibniz
    equality (keys may be equal without being identical). *)

Class Ord (K : Type) := {
  cmp : K → K → comparison;
  cmp_opp x y : cmp y x = CompOpp (cmp x y);
  cmp_lt_trans x y z : cmp x y = Lt → cmp y z = Lt → cmp x z = Lt;
  cmp_eq_trans x y z : cmp x y = Eq → cmp x z = cmp y z;
}.

Definition ord_eq `{Ord K} (x y : K) : Prop := cmp x y = Eq.
Definition ord_lt `{Ord K} (x y : K) : Prop := cmp x y = Lt.

Section ord.
Context `{Ord K}.
Implicit Types x y z : K.

Lemma cmp_refl x : cmp x x = Eq.
Proof. pose proof (cmp_opp x x). by destruct (cmp x x). Qed.

#[global] Instance ord_eq_equiv : Equivalence (ord_eq (K:=K)).
Proof.
  unfold ord_eq. split.
  - intros x. apply cmp_refl.
  - intros x y Hxy. by rewrite cmp_opp, Hxy.
  - intros x y z Hxy Hyz. by rewrite (cmp_eq_trans x y z).
Qed.

#[global] Instance cmp_proper : Proper (ord_eq ==> ord_eq ==> eq) (cmp (K:=K)).
Proof.
  intros x x' Hx y y' Hy. unfold ord_eq in *.
  rewrite (cmp_eq_trans x x' y) by done.
  by rewrite (cmp_opp y x'), (cmp_opp y' x'), (cmp_eq_trans y y' x').
Qed.

#[global] Instance ord_lt_proper : Proper (ord_eq ==> ord_eq ==> iff) (ord_lt (K:=K)).
Proof. intros x x' Hx y y' Hy. unfold ord_lt. by rewrite Hx, Hy. Qed.

#[global] Instance ord_lt_dec x y : Decision (ord_lt x y).
Proof. unfold ord_lt. destruct (cmp x y); [right|left|right]; done. Defined.
#[global] Instance ord_eq_dec x y : Decision (ord_eq x y).
Proof. unfold ord_eq. destruct (cmp x y); [left|right|right]; done. Defined.

Lemma cmp_gt x y : cmp x y = Gt ↔ cmp y x = Lt.
Proof. rewrite (cmp_opp x y). destruct (cmp x y); simpl; split; congruence. Qed.

#[global] Instance ord_lt_trans : Transitive (ord_lt (K:=K)).
Proof. intros x y z. apply cmp_lt_trans. Qed.

Lemma ord_lt_irrefl x : ¬ ord_lt x x.
Proof. unfold ord_lt. by rewrite cmp_refl. Qed.

Lemma ord_not_lt_eq x y : ord_lt x y → ¬ ord_eq x y.
Proof. unfold ord_lt, ord_eq. congruence. Qed.

Lemma ord_lt_asym x y : ord_lt x y → ¬ ord_lt y x.
Proof. intros Hxy Hyx. apply (ord_lt_irrefl x). by trans y. Qed.
End ord.

(** The [Borrow] trait: a borrowed form that compares like the owned one. *)
Class Borrow (K Q : Type) `{Ord K, Ord Q} := {
  borrow : K → Q;
  borrow_cmp x y : cmp (borrow x) (borrow y) = cmp x y;
}.

#[export] Instance borrow_refl `{Ord K} : Borrow K K := {| borrow := id; borrow_cmp _ _ := eq_refl |}.

#[export] Program Instance nat_ord : Ord nat := {| cmp := Nat.compare |}.
Next Obligation. intros x y. apply Nat.compare_antisym. Qed.
Next Obligation. intros x y z. rewrite !Nat.compare_lt_iff. lia. Qed.
Next Obligation. intros x y z. by rewrite Nat.compare_eq_iff; intros ->. Qed.

#[export] Program Instance Z_ord : Ord Z := {| cmp := Z.compare |}.
Next Obligation. intros x y. apply Z.compare_antisym. Qed.
Next Obligation. intros x y z. rewrite !Z.compare_lt_iff. lia. Qed.
Next Obligation. intros x y z. by rewrite Z.compare_eq_iff; intros ->. Qed.

(** * [Vec] operations that panic out of range *)

Section vec.
Context {A : Type}.
Implicit Types l : list A.

(** [v[i]]. *)
Definition vec_index l (i : nat) : exec A := expect (l !! i).

(** [&v[a..b]]. *)
Definition vec_slice l (a b : nat) : exec (list A) :=
  if decide (a ≤ b ∧ b ≤ length l) then ret (take (b - a) (drop a l)) else panic.

(** [v.insert(i, x)]. *)
Definition vec_insert (i : nat) (x : A) l : exec (list A) :=
  if decide (i ≤ length l) then ret (take i l ++ x :: drop i l) else panic.

(** [v.remove(i)]: the element and the shortened vector. *)
Definition vec_remove (i : nat) l : exec (A * list A) :=
  match l !! i with Some x => ret (x, delete i l) | None => panic end.

(** [v.split_off(i)]: what stays and what is returned. *)
Definition vec_split_off (i : nat) l : exec (list A * list A) :=
  if decide (i ≤ length l) then ret (take i l, drop i l) else panic.

(** [mem::replace(&mut v[i], x)]. *)
Definition vec_replace (i : nat) (x : A) l : exec (A * list A) :=
  match l !! i with Some y => ret (y, <[i := x]> l) | None => panic end.

(** Each operation at the split point of a vector. *)
Lemma vec_index_middle l1 x l2 : vec_index (l1 ++ x :: l2) (length l1) = ret x.
Proof. unfold vec_index. by rewrite list_lookup_middle. Qed.
Lemma vec_remove_middle l1 x l2 : vec_remove (length l1) (l1 ++ x :: l2) = ret (x, l1 ++ l2).
Proof. unfold vec_remove. by rewrite list_lookup_middle, delete_middle. Qed.
Lemma vec_insert_middle l1 x l2 : vec_insert (length l1) x (l1 ++ l2) = ret (l1 ++ x :: l2).
Proof.
  unfold vec_insert. rewrite decide_True by (rewrite length_app; lia).
  by rewrite take_app_length, drop_app_length.
Qed.
Lemma vec_set_middle l1 x y l2 : <[length l1 := y]> (l1 ++ x :: l2) = l1 ++ y :: l2.
Proof. induction l1 as [|z l1 IH]; simpl; [done|]. by rewrite IH. Qed.
Lemma vec_split_off_middle l1 l2 : vec_split_off (length l1) (l1 ++ l2) = ret (l1, l2).
Proof.
  unfold vec_split_off. rewrite decide_True by (rewrite length_app; lia).
  by rewrite take_app_length, drop_app_length.
Qed.
End vec.

(** * [slice::binary_search_by]

    The loop of the standard library: [base] and [size] bracket the candidates;
    [size] strictly shrinks, so [length l] iterations are enough. *)

Section binary_search.
Context {A : Type} (f : A → comparison).

Fixpoint bs_loop (fuel : nat) (l : list A) (base size : nat) : option nat :=
  match fuel with
  | O => None
  | S fuel =>
      if decide (1 < size) then
        let half := size / 2 in
        let mid := base + half in
        match l !! mid with
        | None => None
        | Some e => bs_loop fuel l (match f e with Gt => base | _ => mid end) (size - half)
        end
      else Some base
  end.

Definition binary_search_by (l : list A) : option (result nat nat) :=
  if decide (length l = 0) then Some (Err 0)
  else
    match bs_loop (S (length l)) l 0 (length l) with
    | None => None
    | Some base =>
        match f <$> l !! base with
        | None => None
        | Some Eq => Some (Ok base)
        | Some Lt => Some (Err (base + 1))
        | Some Gt => Some (Err base)
        end
    end.

(** The precondition of binary search: [Less] elements first, [Greater] last. *)
Definition partitioned (l : list A) : Prop :=
  ∀ i j x y, i < j → l !! i = Some x → l !! j = Some y →
    (f y = Lt → f x = Lt) ∧ (f x = Gt → f y = Gt).

Lemma bs_loop_correct fuel l base size :
  partitioned l → size < fuel → 0 < size → base + size ≤ length l →
  (base = 0 ∨ ∀ x, l !! base = Some x → f x ≠ Gt) →
  (∀ i x, base + size ≤ i → l !! i = Some x → f x = Gt) →
  ∃ b, bs_loop fuel l base size = Some b ∧ b < length l ∧
    (b = 0 ∨ ∀ x, l !! b = Some x → f x ≠ Gt) ∧
    (∀ i x, b < i → l !! i = Some x → f x = Gt).
Proof.
  intros Hp. revert base size. induction fuel as [|fuel IH]; intros base size Hf Hs Hl Hlo Hhi; [lia|].
  cbn [bs_loop]. case_decide as Hd.
  2: { exists base. split_and!; [done|lia|done|]. intros i x ?. apply Hhi. lia. }
  pose proof (Nat.div_lt size 2 ltac:(lia) ltac:(lia)).
  pose proof (Nat.div_str_pos size 2 ltac:(lia)).
  pose proof (Nat.Div0.mul_div_le size 2).
  set (half := size / 2) in *. cbv zeta.
  destruct (lookup_lt_is_Some_2 l (base + half) ltac:(lia)) as [e He]. rewrite He.
  destruct (f e) eqn:Hfe; (apply IH; [lia..| |]).
  1,3: right; intros x ?; congruence.
  1,2: intros i x Hi; apply Hhi; lia.
  - done.
  - intros i x Hi Hx. destruct (decide (i = base + half)) as [->|]; [congruence|].
    by destruct (Hp (base + half) i e x ltac:(lia) He Hx) as (_&Hg'); auto.
Qed.

(** What an answer of the search says about the slice. *)
Definition bs_answer (l : list A) (r : result nat nat) : Prop :=
  match r with
  | Ok i => ∃ x, l !! i = Some x ∧ f x = Eq
  | Err i => i ≤ length l ∧
      (∀ j x, j < i → l !! j = Some x → f x = Lt) ∧
      (∀ j x, i ≤ j → l !! j = Some x → f x = Gt)
  end.

(** On a partitioned slice the search terminates and its answer is exact. *)
Lemma binary_search_by_correct l :
  partitioned l → ∃ r, binary_search_by l = Some r ∧ bs_answer l r.
Proof.
  intros Hp. unfold binary_search_by. case_decide as Hl.
  { exists (Err 0). apply nil_length_inv in Hl as ->. by split_and!. }
  destruct (bs_loop_correct (S (length l)) l 0 (length l)) as (b&->&Hb&Hlo&Hhi);
    [done|lia..|by left|by intros i x ? ?%lookup_lt_Some; lia|].
  destruct (lookup_lt_is_Some_2 l b Hb) as [e He]. rewrite He; simpl.
  destruct (f e) eqn:Hfe; eexists; (split; [done|]); [by exists e|..]; split_and!; [lia|..|lia| |].
  - intros j x Hj Hx. destruct (decide (j = b)) as [->|]; [congruence|].
    destruct (Hp j b x e ltac:(lia) Hx He) as (HLt&_). auto.
  - intros j x Hj. apply Hhi. lia.
  - intros j x Hj. destruct Hlo as [->|Hlo]; [lia|]. by destruct (Hlo e He).
  - intros j x Hj Hx. destruct (decide (j = b)) as [->|]; [congruence|].
    apply (Hhi j); [lia|done].
Qed.
End binary_search.

(** * [slice::sort_by]: a stable sort *)

Section sort.
Context {A : Type} (c : A → A → comparison).

Fixpoint sort_insert (x : A) (l : list A) : list A :=
  match l with
  | [] => [x]
  | y :: l' => match c x y with Gt => y :: sort_insert x l' | _ => x :: l end
  end.

Fixpoint sort_by (l : list A) : list A :=
  match l with [] => [] | x :: l' => sort_insert x (sort_by l') end.

Lemma sort_insert_perm x l : sort_insert x l ≡ₚ x :: l.
Proof. induction l as [|y l IH]; simpl; [done|]. case_match; [done..|]. rewrite IH. constructor. Qed.

Lemma sort_by_perm l : sort_by l ≡ₚ l.
Proof. induction l as [|x l IH]; simpl; [done|]. by rewrite sort_insert_perm, IH. Qed.
End sort.

(** * Iterators

    [next] advances the state; an [Iterator] is finite: every item strictly
    decreases [remaining], so driving it to exhaustion terminates. *)

Class Iterator (St A : Type) := {
  next : St → option A * St;
  remaining : St → nat;
  next_remaining s a s' : next s = (Some a, s') → remaining s' < remaining s;
}.

Section iterator.
Context `{Iterator St A}.

Fixpoint collect_fuel (n : nat) (s : St) : list A :=
  match n with
  | O => []
  | S n => match next s with (Some a, s') => a :: collect_fuel n s' | (None, _) => [] end
  end.

(** [iter.collect()]. *)
Definition collect (s : St) : list A := collect_fuel (S (remaining s)) s.

Lemma collect_fuel_enough n s : remaining s < n → collect_fuel n s = collect s.
Proof.
  unfold collect. remember (S (remaining s)) as m eqn:Hm.
  assert (remaining s < m) as Hlt by lia. clear Hm. revert m s Hlt.
  induction n as [|n IH]; intros [|m] s Hm Hn; [lia..|]. simpl.
  destruct (next s) as [[a|] s'] eqn:E; [|done]. f_equal.
  apply next_remaining in E. apply IH; lia.
Qed.

(** The defining equation of [collect]. *)
Lemma collect_unfold s :
  collect s = match next s with (Some a, s') => a :: collect s' | (None, _) => [] end.
Proof.
  unfold collect at 1. simpl. destruct (next s) as [[a|] s'] eqn:E; [|done].
  f_equal. apply collect_fuel_enough. by eapply next_remaining.
Qed.

Fixpoint find_map_fuel {B} (f : A → option B) (n : nat) (s : St) : option B * St :=
  match n with
  | O => (None, s)
  | S n =>
      match next s with
      | (Some a, s') => match f a with Some b => (Some b, s') | None => find_map_fuel f n s' end
      | (None, s') => (None, s')
      end
  end.

(** [for item in &mut iter { if let Some(b) = f(item) { return Some(b) } } None]. *)
Definition for_return {B} (f : A → option B) (s : St) : option B * St :=
  find_map_fuel f (S (remaining s)) s.

Lemma find_map_fuel_enough {B} (f : A → option B) n m s :
  remaining s < n → remaining s < m → find_map_fuel f n s = find_map_fuel f m s.
Proof.
  revert m s. induction n as [|n IH]; intros [|m] s Hn Hm; [lia..|]. simpl.
  destruct (next s) as [[a|] s'] eqn:E; [|done]. destruct (f a); [done|].
  apply next_remaining in E. apply IH; lia.
Qed.

Lemma for_return_unfold {B} (f : A → option B) s :
  for_return f s =
    match next s with
    | (Some a, s') => match f a with Some b => (Some b, s') | None => for_return f s' end
    | (None, s') => (None, s')
    end.
Proof.
  unfold for_return at 1. simpl. destruct (next s) as [[a|] s'] eqn:E; [|done].
  destruct (f a); [done|]. apply next_remaining in E. apply find_map_fuel_enough; lia.
Qed.

Lemma for_return_remaining {B} (f : A → option B) s b s' :
  for_return f s = (Some b, s') → remaining s' < remaining s.
Proof.
  remember (remaining s) as n eqn:Hn. revert s Hn. induction (lt_wf n) as [n _ IH].
  intros s -> Hs. rewrite for_return_unfold in Hs.
  destruct (next s) as [[a|] s1] eqn:E; [|done]. apply next_remaining in E.
  destruct (f a); simplify_eq; [done|].
  etrans; [|exact E]. by eapply IH.
Qed.
End iterator.

(** An iterator whose [next] is a [for] loop that returns the first accepted item. *)
Definition for_iterator {St A B} (I : Iterator St A) (f : A → option B) : Iterator St B :=
  {| next := for_return f; remaining := remaining; next_remaining := for_return_remaining f |}.

Lemma collect_for_iterator {St A B} (I : Iterator St A) (f : A → option B) (s : St) :
  collect (H:=for_iterator I f) s = omap f (collect (H:=I) s).
Proof.
  remember (remaining s) as n eqn:Hn. revert s Hn. induction (lt_wf n) as [n _ IH]. intros s ->.
  rewrite (collect_unfold (H:=I) s), (collect_unfold (H:=for_iterator I f) s).
  simpl. rewrite for_return_unfold. destruct (next s) as [[a|] s'] eqn:E; [|done].
  apply next_remaining in E. rewrite omap_cons_eq. specialize (IH (remaining s') E s' eq_refl).
  destruct (f a); [by f_equal|]. rewrite <-IH. by rewrite (collect_unfold (H:=for_iterator I f) s').
Qed.

(** The first item is there exactly when the collected list is not empty. *)
Lemma next_None_collect `{Iterator St A} (s : St) : (next s).1 = None ↔ collect s = [].
Proof. rewrite collect_unfold. destruct (next s) as [[a|] s']; simpl; split; congruence. Qed.

(** A size hint [(low, high)] promises [low ≤ items ≤ high]. *)
Definition hint_sound (hint : nat * option nat) (n : nat) : Prop :=
  hint.1 ≤ n ∧ match hint.2 with Some high => n ≤ high | None => True end.

(** [Peekable<vec::IntoIter>] and [Peekable<slice::Iter>]: the items still to come. *)
Definition peek {A} (l : list A) : option A := head l.
Definition list_next {A} (l : list A) : option A * list A :=
  match l with [] => (None, []) | x :: l' => (Some x, l') end.
Definition list_size_hint {A} (l : list A) : nat * option nat := (length l, Some (length l)).

(** * Build modes and [usize] arithmetic

    Overflow checks and debug assertions are on in debug builds and off in release builds;
    the definitions are parametric in both. *)

Class BuildMode := { overflow_checks : bool; debug_assertions : bool }.
Definition debug_build : BuildMode := {| overflow_checks := true; debug_assertions := true |}.
Definition release_build : BuildMode := {| overflow_checks := false; debug_assertions := false |}.

Section arith.
Context `{BuildMode}.
Local Open Scope Z_scope.

(** The outcome of an operation on [usize] whose exact result is [z]. *)
Definition usize_wrap (z : Z) : exec Z :=
  if bool_decide (0 ≤ z ≤ usize_max) then ret z
  else if overflow_checks then panic else ret (z mod (usize_max + 1)).
Definition usize_add (a b : Z) : exec Z := usize_wrap (a + b).
Definition usize_sub (a b : Z) : exec Z := usize_wrap (a - b).
Definition usize_mul (a b : Z) : exec Z := usize_wrap (a * b).

(** [usize] addition of counts. *)
Definition count_add (a b : nat) : exec nat := let! z := usize_add (Z.of_nat a) (Z.of_nat b) in ret (Z.to_nat z).

Definition debug_assert (b : bool) : exec () :=
  if debug_assertions then rust_assert b else ret ().

Lemma debug_assert_true : debug_assert true = ret ().
Proof. unfold debug_assert. by destruct debug_assertions. Qed.
Lemma usize_wrap_exact z : 0 ≤ z ≤ usize_max → usize_wrap z = ret z.
Proof. intros. unfold usize_wrap. by rewrite bool_decide_true. Qed.
Lemma count_add_le a b : Z.of_nat (a + b) ≤ usize_max → count_add a b = ret (a + b)%nat.
Proof. intros Hab. unfold count_add, usize_add. rewrite usize_wrap_exact by lia. simpl. f_equal. lia. Qed.
Lemma usize_wrap_release z : overflow_checks = false → usize_wrap z = ret (z mod (usize_max + 1)).
Proof.
  intros Ho. unfold usize_wrap. rewrite Ho. case_bool_decide as Hz; [|done].
  by rewrite Z.mod_small by lia.
Qed.
Lemma usize_wrap_range z u : usize_wrap z = ret u → 0 ≤ u ≤ usize_max.
Proof.
  unfold usize_wrap. case_bool_decide; [by intros [= <-]|]. destruct overflow_checks; [done|].
  intros [= <-]. pose proof (Z.mod_pos_bound z (usize_max + 1)) as Hm. unfold usize_max in *. lia.
Qed.
End arith.
