(* ===== verification/SortedVec.v ===== *)
(** The theory shared by [SortedVectorMap] and [SortedVectorSet]: vectors whose
    elements have strictly increasing keys.  A map stores pairs ordered by their
    first component, a set stores its elements; both are instances of an
    element type [E] with a key projection.

    The specification of a sorted vector is [hits q l], the elements whose key
    compares equal to [q]: at most one when [l] is sorted.  Two sorted vectors
    with the same hits are the same vector ([sorted_ext]), so every operation is
    specified by the hits of its result. *)
From S2P Require Import Prelude RustStd.

(** The adjacent-pairs adaptor of the [itertools] crate, and what it documents. *)
Class Itertools := {
  tuple_windows : ∀ {A : Type}, list A → list (A * A);
  tuple_windows_adjacent : ∀ {A : Type} (l : list A), tuple_windows l = zip l (tail l);
}.

(** An implementation of it, for concrete runs. *)
Definition zip_itertools : Itertools :=
  {| tuple_windows _ l := zip l (tail l); tuple_windows_adjacent _ _ := eq_refl |}.

Inductive Bound (Q : Type) : Type :=
| Unbounded
| Included (q : Q)
| Excluded (q : Q).
Arguments Unbounded {Q}.
Arguments Included {Q} q.
Arguments Excluded {Q} q.

Section sorted_vec.
Context {E K : Type} `{Ord K} (key : E → K).
Implicit Types (l r : list E) (x y e : E).

(** Strictly increasing keys, the representation invariant. *)
Definition key_lt x y : Prop := ord_lt (key x) (key y).
Definition sorted l : Prop := StronglySorted key_lt l.

(** Non-decreasing keys: a sorted input with duplicates. *)
Definition key_le x y : Prop := cmp (key x) (key y) ≠ Gt.
Definition weakly_sorted l : Prop := StronglySorted key_le l.

(** [find_index]: binary search by key. *)
Definition find_index `{Ord Q, !Borrow K Q} l (q : Q) : exec (result nat nat) :=
  expect (binary_search_by (λ e, cmp (borrow (key e)) q) l).

Definition hits `{Ord Q, !Borrow K Q} (q : Q) l : list E :=
  filter (λ e, ord_eq (borrow (key e)) q) l.

(** [DedupIter::next]: the last element of the leading run of equal keys. *)
Fixpoint dedup_loop (nxt : E) l : option E * list E :=
  match l with
  | [] => (Some nxt, [])
  | after :: l' =>
      match cmp (key after) (key nxt) with Gt => (Some nxt, l) | _ => dedup_loop after l' end
  end.
Definition dedup_next l : option E * list E :=
  match l with [] => (None, []) | x :: l' => dedup_loop x l' end.

(** [MergeIter::next] over the left iterator and the deduplicated right one. *)
Definition merge_next (s : list E * list E) : option E * (list E * list E) :=
  let res :=
    match peek s.1, peek s.2 with
    | Some lx, Some rx => Some (cmp (key lx) (key rx))
    | Some _, None => Some Lt
    | None, Some _ => Some Gt
    | None, None => None
    end in
  match res with
  | None => (None, s)
  | Some Lt => let '(x, l') := list_next s.1 in (x, (l', s.2))
  | Some Gt => let '(y, r') := dedup_next s.2 in (y, (s.1, r'))
  | Some Eq =>
      let '(_, l') := list_next s.1 in
      let '(y, r') := dedup_next s.2 in (y, (l', r'))
  end.

Definition dedup_size_hint l : nat * option nat := (length l `min` 1, Some (length l)).
Definition merge_size_hint (s : list E * list E) : nat * option nat :=
  let left_hint := list_size_hint s.1 in
  let right_hint := dedup_size_hint s.2 in
  (left_hint.1 `max` right_hint.1,
   match left_hint.2, right_hint.2 with
   | Some left_high, Some right_high => checked_add left_high right_high
   | _, _ => None
   end).

(** ** Strict order on keys *)

#[local] Instance key_lt_trans : Transitive key_lt.
Proof. intros x y z. apply ord_lt_trans. Qed.

Lemma key_le_lt x y z : key_le x y → key_lt y z → key_lt x z.
Proof.
  unfold key_le, key_lt, ord_lt. intros Hxy Hyz. destruct (cmp (key x) (key y)) eqn:Hc; [|by eapply cmp_lt_trans|done].
  by rewrite (cmp_eq_trans _ _ _ Hc).
Qed.
Lemma key_lt_le x y z : key_lt x y → key_le y z → key_lt x z.
Proof.
  unfold key_le, key_lt, ord_lt. intros Hxy Hyz. destruct (cmp (key y) (key z)) eqn:Hc; [|by eapply cmp_lt_trans|done].
  by rewrite <-(cmp_proper (key x) (key x) (cmp_refl _) (key y) (key z) Hc).
Qed.
Lemma key_lt_weaken x y : key_lt x y → key_le x y.
Proof. unfold key_lt, key_le, ord_lt. congruence. Qed.

Lemma sorted_weaken l : sorted l → weakly_sorted l.
Proof. apply StronglySorted_impl, key_lt_weaken. Qed.

Lemma sorted_app l r :
  sorted (l ++ r) ↔ sorted l ∧ sorted r ∧ (∀ x y, x ∈ l → y ∈ r → key_lt x y).
Proof. apply StronglySorted_app_iff. Qed.
Lemma sorted_cons x l : sorted (x :: l) ↔ sorted l ∧ ∀ y, y ∈ l → key_lt x y.
Proof.
  change (x :: l) with ([x] ++ l). rewrite sorted_app. split.
  - intros (_&?&Hx). split; [done|]. intros; apply Hx; [by left|done].
  - intros (?&Hx). split_and!; [repeat constructor|done|]. intros ?? ->%list_elem_of_singleton; auto.
Qed.

(** ** Hits *)
Section hits.
Context `{Ord Q, !Borrow K Q}.
Implicit Types q : Q.

Lemma borrow_eq (a b : K) q : ord_eq (borrow a) q → ord_eq (borrow b) q ↔ ord_eq a b.
Proof.
  intros Ha. unfold ord_eq at 2. rewrite <-(borrow_cmp (Q:=Q) a b).
  change (cmp (borrow a) (borrow b) = Eq) with (ord_eq (borrow (Q:=Q) a) (borrow b)).
  rewrite Ha. split; intros; by symmetry.
Qed.

Lemma hits_nil q : hits q [] = [].
Proof. done. Qed.
Lemma hits_app q l r : hits q (l ++ r) = hits q l ++ hits q r.
Proof. apply filter_app. Qed.
Lemma hits_cons_eq q x l : ord_eq (borrow (key x)) q → hits q (x :: l) = x :: hits q l.
Proof. intros. unfold hits. by rewrite filter_cons_True. Qed.
Lemma hits_cons_ne q x l : ¬ ord_eq (borrow (key x)) q → hits q (x :: l) = hits q l.
Proof. intros. unfold hits. by rewrite filter_cons_False. Qed.
Lemma hits_none q l : (∀ x, x ∈ l → ¬ ord_eq (borrow (key x)) q) → hits q l = [].
Proof.
  intros Hl. induction l as [|x l IH]; [done|].
  rewrite hits_cons_ne by (apply Hl; by left). apply IH. intros; apply Hl; by right.
Qed.
Lemma elem_of_hits q x l : x ∈ hits q l ↔ ord_eq (borrow (key x)) q ∧ x ∈ l.
Proof. unfold hits. by rewrite list_elem_of_filter. Qed.

Lemma hits_above q x l :
  (∀ y, y ∈ l → key_lt x y) → ord_eq (borrow (key x)) q → hits q l = [].
Proof.
  intros Hl Hq. apply hits_none. intros y Hy Hyq. apply Hl in Hy.
  apply (borrow_eq (key x) (key y)) in Hyq; [|done]. by apply ord_not_lt_eq in Hy.
Qed.

(** A sorted vector has at most one hit. *)
Lemma hits_sorted q l : sorted l → hits q l = [] ∨ ∃ x, hits q l = [x].
Proof.
  induction l as [|x l IH]; intros Hs; [by left|]. apply sorted_cons in Hs as [Hs Hx].
  destruct (decide (ord_eq (borrow (key x)) q)) as [Hq|Hq].
  - right. exists x. by rewrite hits_cons_eq, (hits_above q x l).
  - rewrite hits_cons_ne by done. auto.
Qed.

Lemma hits_length q l : sorted l → length (hits q l) ≤ 1.
Proof. intros Hs. destruct (hits_sorted q l Hs) as [->|[x ->]]; simpl; lia. Qed.

(** Binary search splits a sorted vector at [q]. *)
Definition below q x : Prop := cmp (borrow (key x)) q = Lt.
Definition above q x : Prop := cmp (borrow (key x)) q = Gt.

Lemma sorted_partitioned q l : sorted l → partitioned (λ e, cmp (borrow (key e)) q) l.
Proof.
  intros Hs i j x y Hij Hx Hy.
  pose proof (StronglySorted_lookup _ _ _ _ _ _ Hs Hij Hx Hy) as Hlt.
  unfold key_lt, ord_lt in Hlt. rewrite <-(borrow_cmp (Q:=Q)) in Hlt. split.
  - intros ?. by eapply cmp_lt_trans.
  - rewrite !cmp_gt. intros ?. by eapply cmp_lt_trans.
Qed.

Lemma find_index_cases q l :
  sorted l →
  (∃ l1 e l2, l = l1 ++ e :: l2 ∧ find_index l q = ret (Ok (length l1)) ∧
     Forall (below q) l1 ∧ ord_eq (borrow (key e)) q ∧ Forall (above q) l2) ∨
  (∃ l1 l2, l = l1 ++ l2 ∧ find_index l q = ret (Err (length l1)) ∧
     Forall (below q) l1 ∧ Forall (above q) l2).
Proof.
  intros Hs. pose proof (sorted_partitioned q l Hs) as Hp.
  destruct (binary_search_by_correct _ l Hp) as (r&Hr&Ha).
  unfold find_index. rewrite Hr; simpl. destruct r as [i|i]; simpl in Ha.
  - destruct Ha as (e&He&Hq). left. exists (take i l), e, (drop (S i) l).
    pose proof (lookup_lt_Some _ _ _ He).
    rewrite length_take_le by lia. split_and!; [by rewrite take_drop_middle|done| |done|].
    + apply Forall_lookup. intros j x [Hx Hj]%lookup_take_Some. unfold below.
      pose proof (StronglySorted_lookup _ _ _ _ _ _ Hs Hj Hx He) as Hlt.
      unfold key_lt, ord_lt in Hlt. rewrite <-(borrow_cmp (Q:=Q)) in Hlt.
      by rewrite <-(cmp_proper _ _ (cmp_refl _) _ _ Hq).
    + apply Forall_lookup. intros j x Hx. rewrite lookup_drop in Hx. unfold above.
      pose proof (StronglySorted_lookup _ _ i (S i + j) _ _ Hs ltac:(lia) He Hx) as Hlt.
      unfold key_lt, ord_lt in Hlt. rewrite <-(borrow_cmp (Q:=Q)) in Hlt.
      rewrite cmp_gt. by rewrite <-(cmp_proper _ _ Hq _ _ (cmp_refl _)).
  - destruct Ha as (Hi&Hlt&Hgt). right. exists (take i l), (drop i l).
    rewrite length_take_le by lia. split_and!; [by rewrite take_drop|done|..]; apply Forall_lookup.
    + intros j x [Hx Hj]%lookup_take_Some. by eapply Hlt.
    + intros j x Hx. rewrite lookup_drop in Hx. eapply (Hgt (i + j)); [lia|done].
Qed.

Lemma hits_below q l : Forall (below q) l → hits q l = [].
Proof.
  rewrite Forall_forall. intros Hl. apply hits_none. intros x Hx Hq. apply Hl in Hx.
  unfold below, ord_eq in *. congruence.
Qed.
Lemma hits_Forall_above q l : Forall (above q) l → hits q l = [].
Proof.
  rewrite Forall_forall. intros Hl. apply hits_none. intros x Hx Hq. apply Hl in Hx.
  unfold above, ord_eq in *. congruence.
Qed.
Lemma hits_middle q l1 e l2 :
  Forall (below q) l1 → ord_eq (borrow (key e)) q → Forall (above q) l2 →
  hits q (l1 ++ e :: l2) = [e].
Proof.
  intros. by rewrite hits_app, hits_below, hits_cons_eq, hits_Forall_above.
Qed.
Lemma hits_split q l1 l2 :
  Forall (below q) l1 → Forall (above q) l2 → hits q (l1 ++ l2) = [].
Proof. intros. by rewrite hits_app, hits_below, hits_Forall_above. Qed.
End hits.

(** ** Deduplication: the last of each run survives *)

Lemma dedup_loop_spec x l :
  weakly_sorted (x :: l) →
  ∃ d y r, dedup_loop x l = (Some y, r) ∧ x :: l = d ++ y :: r ∧
    Forall (λ z, ord_eq (key z) (key y)) d ∧ Forall (key_lt y) r.
Proof.
  revert x. induction l as [|z l IH]; intros x Hs; simpl.
  { by exists [], x, []. }
  inversion Hs as [|?? Hs' Hx]; subst. apply Forall_cons in Hx as [Hxz Hx].
  destruct (cmp (key z) (key x)) eqn:Hc.
  - destruct (IH z Hs') as (d&y&r&->&Hl&Hd&Hr). exists (x :: d), y, r.
    rewrite Hl. split_and!; [done..| |done]. constructor; [|done].
    trans (key z); [by symmetry|]. destruct d as [|z' d]; simplify_eq/=; [done|].
    by apply Forall_cons in Hd as [? _].
  - exfalso. apply Hxz. by rewrite cmp_gt.
  - apply cmp_gt in Hc. exists [], x, (z :: l). split_and!; [done..|].
    constructor; [done|]. inversion Hs' as [|?? _ Hz]; subst.
    eapply Forall_impl; [exact Hz|]. intros w Hw. by eapply key_lt_le.
Qed.

Lemma dedup_next_shorter l x r : dedup_next l = (Some x, r) → length r < length l.
Proof.
  destruct l as [|y l]; [done|]. simpl. revert y.
  induction l as [|z l IH]; intros y Hl; simplify_eq/=; [lia|].
  case_match; simplify_eq/=; [|apply IH in Hl; lia..|lia].
  apply IH in Hl. lia.
Qed.
Definition dedup_iterator : Iterator (list E) E :=
  {| next := dedup_next; remaining := length; next_remaining := dedup_next_shorter |}.

Lemma merge_next_shorter s x s' :
  merge_next s = (Some x, s') → length s'.1 + length s'.2 < length s.1 + length s.2.
Proof.
  destruct s as [[|a l] [|b r]]; cbn [merge_next peek head fst snd list_next dedup_next];
    [done| |by intros [= <- <-]; simpl; lia|].
  - destruct (dedup_loop b r) as [o r'] eqn:Hd. intros [= -> <-].
    by apply (dedup_next_shorter (b :: r)) in Hd.
  - destruct (dedup_loop b r) as [o r'] eqn:Hd.
    destruct (cmp (key a) (key b)); intros [= -> <-]; simpl; [|lia|];
      apply (dedup_next_shorter (b :: r)) in Hd; simpl in Hd; lia.
Qed.
Definition merge_iterator : Iterator (list E * list E) E :=
  {| next := merge_next; remaining s := length s.1 + length s.2; next_remaining := merge_next_shorter |}.

(** Draining the iterators: [DedupIter::new(v).collect()], [MergeIter::new(l, r).collect()]. *)
Definition dedup l : list E := collect (H:=dedup_iterator) l.
Definition merge l r : list E := collect (H:=merge_iterator) (l, r).

Lemma dedup_nil : dedup [] = [].
Proof. done. Qed.

(** The combined effect of one step of [DedupIter] on a sorted input. *)
Lemma dedup_step l :
  weakly_sorted l → l ≠ [] →
  ∃ d y r, dedup_next l = (Some y, r) ∧ dedup l = y :: dedup r ∧ l = d ++ y :: r ∧
    Forall (λ z, ord_eq (key z) (key y)) d ∧ Forall (key_lt y) r ∧ weakly_sorted r.
Proof.
  destruct l as [|x l]; [done|]. intros Hs _.
  destruct (dedup_loop_spec x l Hs) as (d&y&r&Hn&Hl&Hd&Hr). exists d, y, r.
  split_and!; [done| |done..|].
  - unfold dedup. rewrite (collect_unfold (H:=dedup_iterator)). simpl. by rewrite Hn.
  - rewrite Hl in Hs. apply StronglySorted_app_iff in Hs as (_&Hs&_). by inversion Hs.
Qed.

Lemma run_hits `{Ord Q, !Borrow K Q} (q : Q) d y r :
  Forall (λ z, ord_eq (key z) (key y)) d → Forall (key_lt y) r →
  last (hits q (d ++ y :: r)) = if decide (ord_eq (borrow (key y)) q) then Some y else last (hits q r).
Proof.
  intros Hd Hr. rewrite Forall_forall in Hd, Hr. rewrite hits_app. case_decide as Hq.
  - rewrite hits_cons_eq by done. rewrite (hits_above q y r) by done. by rewrite last_snoc.
  - rewrite hits_cons_ne by done. rewrite hits_none; [done|].
    intros x Hx Hxq. apply Hq. apply (borrow_eq (key x) (key y)); [done|]. by apply Hd.
Qed.

Lemma dedup_spec l :
  weakly_sorted l →
  sorted (dedup l) ∧ (∀ x, x ∈ dedup l → x ∈ l) ∧
  ∀ `{Ord Q, !Borrow K Q} (q : Q), hits q (dedup l) = option_list (last (hits q l)).
Proof.
  induction l as [l IH] using (induction_ltof1 _ length). unfold ltof in IH. intros Hs.
  destruct l as [|x0 l0]; [split_and!; [constructor|done|done]|].
  destruct (dedup_step _ Hs ltac:(done)) as (d&y&r&_&->&Hl&Hd&Hr&Hsr).
  destruct (IH r) as (IHs&IHin&IHq); [rewrite Hl, length_app; simpl; lia|done|].
  rewrite Hl. rewrite Forall_forall in Hr. split_and!.
  - apply sorted_cons. auto.
  - intros x [->|Hx]%elem_of_cons; [set_solver|]. apply IHin in Hx. set_solver.
  - intros Q ? ? q. rewrite run_hits by (done || by apply Forall_forall). case_decide as Hq.
    + rewrite hits_cons_eq by done. by rewrite (hits_above q y) by auto.
    + by rewrite hits_cons_ne.
Qed.

Lemma dedup_sorted l : sorted l → dedup l = l.
Proof.
  induction l as [|x l IH]; intros Hs; [done|].
  destruct (dedup_step (x :: l)) as (d&y&r&_&->&Hl&Hd&Hr&_); [by apply sorted_weaken|done|].
  destruct d as [|z d]; simplify_eq/=.
  - f_equal. apply IH. by apply sorted_cons in Hs as [? _].
  - exfalso. apply Forall_cons in Hd as [Hd _]. apply sorted_cons in Hs as [_ Hs].
    apply (ord_not_lt_eq (key z) (key y)); [|done]. apply Hs. set_solver.
Qed.

(** ** Merging: the right-hand entry wins *)

Lemma merge_unfold l r :
  merge l r =
    match merge_next (l, r) with (Some x, s') => x :: merge s'.1 s'.2 | (None, _) => [] end.
Proof.
  unfold merge. rewrite (collect_unfold (H:=merge_iterator)); simpl.
  by destruct (merge_next (l, r)) as [[x|] [l' r']].
Qed.

Definition merged_hits `{Ord Q, !Borrow K Q} (q : Q) l r : list E :=
  match last (hits q r) with Some e => [e] | None => hits q l end.

Definition merge_ok l r : Prop :=
  sorted (merge l r) ∧ (∀ x, x ∈ merge l r → x ∈ l ∨ x ∈ r) ∧
  ∀ Q (OQ : Ord Q) (B : Borrow K Q) (q : Q), hits q (merge l r) = merged_hits q l r.

Lemma merge_ok_left x l r :
  sorted (x :: l) → Forall (key_lt x) r → merge (x :: l) r = x :: merge l r →
  merge_ok l r → merge_ok (x :: l) r.
Proof.
  intros [Hsl Hx]%sorted_cons Hr Hm (Hs&Hin&Hq). rewrite Forall_forall in Hr.
  unfold merge_ok. rewrite Hm. split_and!.
  - apply sorted_cons. split; [done|]. intros y [?|?]%Hin; auto.
  - intros y [->|[?|?]%Hin]%elem_of_cons; set_solver.
  - intros Q OQ B q. unfold merged_hits. destruct (decide (ord_eq (borrow (key x)) q)) as [Hxq|Hxq].
    + rewrite !hits_cons_eq by done. rewrite (hits_above q x r), (hits_above q x l), (hits_above q x) by
        (done || intros y [?|?]%Hin; auto). done.
    + rewrite !hits_cons_ne by done. apply Hq.
Qed.

Lemma merge_ok_right d y r l r' :
  r = d ++ y :: r' → Forall (λ z, ord_eq (key z) (key y)) d → Forall (key_lt y) r' →
  ∀ l0, (l = l0 ∨ ∃ x, l = x :: l0 ∧ ord_eq (key x) (key y)) → Forall (key_lt y) l0 →
  merge l r = y :: merge l0 r' → merge_ok l0 r' → merge_ok l r.
Proof.
  intros -> Hd Hr l0 Hl Hl0 Hm (Hs&Hin&Hq). rewrite Forall_forall in Hl0.
  pose proof Hr as Hr'. rewrite Forall_forall in Hr'.
  unfold merge_ok. rewrite Hm. split_and!.
  - apply sorted_cons. split; [done|]. intros z [?|?]%Hin; auto.
  - intros z [->|[?|?]%Hin]%elem_of_cons; destruct Hl as [->|(?&->&?)]; set_solver.
  - intros Q OQ B q. unfold merged_hits. rewrite run_hits by done.
    case_decide as Hyq.
    + rewrite hits_cons_eq by done. f_equal. apply (hits_above q y); [|done].
      intros z [?|?]%Hin; auto.
    + rewrite hits_cons_ne by done. rewrite Hq. unfold merged_hits. case_match; [done|].
      destruct Hl as [->|(x&->&Hxy)]; [done|]. rewrite hits_cons_ne; [done|].
      intros Hxq. apply Hyq. by apply (borrow_eq (key x) (key y)).
Qed.

Lemma merge_spec l r : sorted l → weakly_sorted r → merge_ok l r.
Proof.
  remember (length l + length r) as n eqn:Hn. revert l r Hn.
  induction (lt_wf n) as [n _ IH]; intros l r -> Hsl Hsr.
  destruct r as [|b r].
  { clear IH. induction l as [|x l IH]; [by split_and!; [constructor|set_solver|]|].
    apply merge_ok_left; [done|constructor|by rewrite merge_unfold|].
    apply IH. by apply sorted_cons in Hsl as [? _]. }
  destruct (dedup_step _ Hsr ltac:(done)) as (d&y&r'&Hnx&_&Hr&Hd&Hr'&Hsr').
  assert (length r' < length (b :: r)) as Hlen by (rewrite Hr, length_app; simpl; lia).
  assert (ord_eq (key b) (key y)) as Hby.
  { destruct d; simplify_eq/=; [done|]. by apply Forall_cons in Hd as [? _]. }
  destruct l as [|x l].
  { apply (merge_ok_right d y _ [] r' Hr Hd Hr' []); [by left|constructor| |].
    - rewrite merge_unfold. cbn [merge_next peek head fst snd]. by rewrite Hnx.
    - eapply IH; [|done|done|done]. simpl in *; lia. }
  pose proof (proj1 (sorted_cons _ _) Hsl) as [Hsl' Hx].
  assert (merge_next (x :: l, b :: r) =
    match cmp (key x) (key b) with
    | Eq => (Some y, (l, r')) | Lt => (Some x, (l, b :: r)) | Gt => (Some y, (x :: l, r'))
    end) as Hnext.
  { cbn [merge_next peek head fst snd list_next]. rewrite Hnx. done. }
  destruct (cmp (key x) (key b)) eqn:Hc.
  - apply (merge_ok_right d y _ (x :: l) r' Hr Hd Hr' l).
    + right. exists x. split; [done|]. by trans (key b).
    + apply Forall_forall. intros z Hz. apply Hx in Hz. unfold key_lt in *.
      by rewrite <-Hby, <-(Hc : ord_eq _ _).
    + by rewrite merge_unfold, Hnext.
    + eapply IH; [|done|done|done]. simpl in *; lia.
  - apply merge_ok_left; [done| |by rewrite merge_unfold, Hnext|].
    + apply Forall_forall. intros z Hz. rewrite Hr in Hz. unfold key_lt.
      assert (ord_lt (key x) (key y)) as Hxy by (unfold ord_lt; by rewrite <-(cmp_proper _ _ (cmp_refl _) _ _ Hby)).
      rewrite Forall_forall in Hd, Hr'.
      apply elem_of_app in Hz as [Hz|[->|Hz]%elem_of_cons]; [|done|].
      * by rewrite (Hd z Hz).
      * trans (key y); [done|]. by apply Hr'.
    + eapply IH; [|done|done|done]. simpl in *; lia.
  - apply cmp_gt in Hc.
    assert (key_lt y x) as Hyx by (unfold key_lt; by rewrite <-Hby).
    apply (merge_ok_right d y _ (x :: l) r' Hr Hd Hr' (x :: l)); [by left| |by rewrite merge_unfold, Hnext|].
    + constructor; [done|]. apply Forall_forall. intros z Hz. trans x; [done|]. by apply Hx.
    + eapply IH; [|done|done|done]. simpl in *; lia.
Qed.

(** ** Walking two sorted vectors in step *)

(** [OperationInner::next]: the smaller head alone, or both heads when equal. *)
Definition op_next (s : list E * list E) : option (option E * option E) * (list E * list E) :=
  let res :=
    match peek s.1, peek s.2 with
    | Some lx, Some rx => Some (cmp (key lx) (key rx))
    | Some _, None => Some Lt
    | None, Some _ => Some Gt
    | None, None => None
    end in
  match res with
  | None => (None, s)
  | Some Lt => let '(x, l') := list_next s.1 in (Some (x, None), (l', s.2))
  | Some Gt => let '(y, r') := list_next s.2 in (Some (None, y), (s.1, r'))
  | Some Eq =>
      let '(x, l') := list_next s.1 in
      let '(y, r') := list_next s.2 in (Some (x, y), (l', r'))
  end.

Lemma op_next_shorter s p s' :
  op_next s = (Some p, s') → length s'.1 + length s'.2 < length s.1 + length s.2.
Proof.
  destruct s as [[|x l] [|y r]]; cbn [op_next peek head fst snd list_next];
    [done|by intros [= <- <-]; simpl; lia..|].
  destruct (cmp (key x) (key y)); intros [= <- <-]; simpl; lia.
Qed.
Definition op_iterator : Iterator (list E * list E) (option E * option E) :=
  {| next := op_next; remaining s := length s.1 + length s.2; next_remaining := op_next_shorter |}.

Definition op_pairs l r : list (option E * option E) := collect (H:=op_iterator) (l, r).

Lemma op_pairs_unfold l r :
  op_pairs l r =
    match l, r with
    | [], [] => []
    | x :: l', [] => (Some x, None) :: op_pairs l' []
    | [], y :: r' => (None, Some y) :: op_pairs [] r'
    | x :: l', y :: r' =>
        match cmp (key x) (key y) with
        | Lt => (Some x, None) :: op_pairs l' r
        | Gt => (None, Some y) :: op_pairs l r'
        | Eq => (Some x, Some y) :: op_pairs l' r'
        end
    end.
Proof.
  unfold op_pairs. rewrite (collect_unfold (H:=op_iterator)). simpl next.
  destruct l as [|x l], r as [|y r]; cbn [op_next peek head fst snd list_next]; [done..|].
  by destruct (cmp (key x) (key y)).
Qed.

(** A selection from the pairs: each pair gives one of its components or nothing. *)
Definition selects (f : option E * option E → option E) : Prop :=
  f (None, None) = None ∧ ∀ p z, f p = Some z → p.1 = Some z ∨ p.2 = Some z.

Definition op_ok (f : option E * option E → option E) l r : Prop :=
  sorted (omap f (op_pairs l r)) ∧ (∀ z, z ∈ omap f (op_pairs l r) → z ∈ l ∨ z ∈ r) ∧
  ∀ Q (OQ : Ord Q) (B : Borrow K Q) (q : Q),
    hits q (omap f (op_pairs l r)) = option_list (f (head (hits q l), head (hits q r))).

(** Extending by a pair whose key is below everything that follows. *)
Lemma op_ok_cons f l r l' r' ox oy (a : E) :
  selects f →
  l = option_list ox ++ l' → r = option_list oy ++ r' →
  op_pairs l r = (ox, oy) :: op_pairs l' r' →
  (∀ x, ox = Some x → ord_eq (key x) (key a)) → (∀ y, oy = Some y → ord_eq (key y) (key a)) →
  (∀ z, z ∈ l' ∨ z ∈ r' → key_lt a z) →
  op_ok f l' r' → op_ok f l r.
Proof.
  intros [Hf0 Hf] -> -> Hp Hox Hoy Hlow (Hs&Hin&Hq). unfold op_ok. rewrite Hp, omap_cons_eq.
  assert (∀ z, f (ox, oy) = Some z → ord_eq (key z) (key a)) as Hza by (intros z [?|?]%Hf; auto).
  assert (∀ z, f (ox, oy) = Some z → z ∈ option_list ox ++ l' ∨ z ∈ option_list oy ++ r') as Hzin.
  { intros z [Hz|Hz]%Hf; simpl in Hz; subst; simpl; set_solver. }
  split_and!.
  - destruct (f (ox, oy)) as [z|] eqn:Hz; [|done]. apply sorted_cons. split; [done|].
    intros w Hw%Hin%Hlow. unfold key_lt. by rewrite (Hza z eq_refl).
  - intros z Hz. destruct (f (ox, oy)) as [w|] eqn:Hw; [apply elem_of_cons in Hz as [->|Hz]; [auto|]|];
      apply Hin in Hz; set_solver.
  - intros Q OQ B q.
    assert (∀ o k, (∀ x, o = Some x → ord_eq (key x) (key a)) → (∀ z, z ∈ k → key_lt a z) →
      head (hits q (option_list o ++ k)) =
        if decide (ord_eq (borrow (key a)) q) then o else head (hits q k)) as Hhead.
    { intros o k Ho Hk. destruct (decide (ord_eq (borrow (key a)) q)) as [Haq|Haq].
      - rewrite hits_app, (hits_above q a k), app_nil_r by done. destruct o as [x|]; [|done]. simpl.
        rewrite hits_cons_eq; [done|]. apply (borrow_eq (key a) (key x)); [done|]. symmetry. by apply Ho.
      - destruct o as [x|]; [|done]. simpl. rewrite hits_cons_ne; [done|].
        intros Hxq. apply Haq. apply (borrow_eq (key x) (key a)); [done|]. by apply Ho. }
    rewrite !Hhead by auto. case_decide as Haq.
    + assert (hits q (omap f (op_pairs l' r')) = []) as Htl.
      { apply (hits_above q a); [|done]. intros z Hz%Hin. auto. }
      destruct (f (ox, oy)) as [z|] eqn:Hz; [|by rewrite Htl].
      rewrite hits_cons_eq; [by rewrite Htl|]. apply (borrow_eq (key a) (key z)); [done|]. symmetry. by apply Hza.
    + destruct (f (ox, oy)) as [z|] eqn:Hz; [|apply Hq].
      rewrite hits_cons_ne; [apply Hq|]. intros Hzq. apply Haq. apply (borrow_eq (key z) (key a)); [done|]. by apply Hza.
Qed.

Lemma op_pairs_spec f l r : selects f → sorted l → sorted r → op_ok f l r.
Proof.
  intros Hf. remember (length l + length r) as n eqn:Hn. revert l r Hn.
  induction (lt_wf n) as [n _ IH]; intros l r -> Hl Hr.
  pose proof (op_pairs_unfold l r) as Hp.
  destruct l as [|x l], r as [|y r].
  - unfold op_ok. rewrite Hp.
    split_and!; [constructor|set_solver|]. intros. destruct Hf as [Hf0 _]. simpl. by rewrite Hf0.
  - apply sorted_cons in Hr as [Hr Hy].
    apply (op_ok_cons f _ _ [] r None (Some y) y); [done..|by intros ? [= <-]|set_solver|].
    eapply IH; [|done|constructor|done]. simpl. lia.
  - apply sorted_cons in Hl as [Hl Hx].
    apply (op_ok_cons f _ _ l [] (Some x) None x); [done..|by intros ? [= <-]|done|set_solver|].
    eapply IH; [|done|done|constructor]. simpl. lia.
  - pose proof Hl as Hl0. pose proof Hr as Hr0.
    apply sorted_cons in Hl as [Hl Hx]. apply sorted_cons in Hr as [Hr Hy].
    destruct (cmp (key x) (key y)) eqn:Hc.
    + apply (op_ok_cons f _ _ l r (Some x) (Some y) y); [done..|by intros ? [= <-]|by intros ? [= <-]| |].
      * intros z [Hz|Hz]; [|by apply Hy]. apply Hx in Hz. unfold key_lt in *. by rewrite <-(Hc : ord_eq _ _).
      * eapply IH; [|done|done|done]. simpl. lia.
    + apply (op_ok_cons f _ _ l (y :: r) (Some x) None x); [done..|by intros ? [= <-]|done| |].
      * intros z [Hz|[->|Hz]%elem_of_cons]; [by apply Hx|done|]. trans y; [done|]. by apply Hy.
      * eapply IH; [|done|done|done]. simpl. lia.
    + apply cmp_gt in Hc.
      apply (op_ok_cons f _ _ (x :: l) r None (Some y) y); [done..|by intros ? [= <-]| |].
      * intros z [[->|Hz]%elem_of_cons|Hz]; [done| |by apply Hy]. trans x; [done|]. by apply Hx.
      * eapply IH; [|done|done|done]. simpl. lia.
Qed.

(** ** Size hints *)

Lemma dedup_next_cons x l : ∃ y r, dedup_next (x :: l) = (Some y, r) ∧ length r ≤ length l.
Proof.
  simpl. revert x. induction l as [|z l IH]; intros x; simpl; [by exists x, []|].
  destruct (cmp (key z) (key x)); [|destruct (IH z) as (y&r&->&?); exists y, r; split; [done|lia]..|].
  - destruct (IH z) as (y&r&->&?). exists y, r. split; [done|lia].
  - by exists x, (z :: l).
Qed.

Lemma dedup_hint_sound l : hint_sound (dedup_size_hint l) (length (dedup l)).
Proof.
  unfold hint_sound, dedup_size_hint. simpl.
  induction l as [l IH] using (induction_ltof1 _ length). unfold ltof in IH.
  destruct l as [|x l]; [done|]. unfold dedup.
  rewrite (collect_unfold (H:=dedup_iterator)). simpl next.
  destruct (dedup_next_cons x l) as (y&r&Hn&Hr). simpl in Hn. rewrite Hn. simpl.
  destruct (IH r) as [_ ?]; [simpl; lia|]. unfold dedup in *. lia.
Qed.

Lemma merge_length l r :
  length l `max` (length r `min` 1) ≤ length (merge l r) ≤ length l + length r.
Proof.
  remember (length l + length r) as n eqn:Hn. revert l r Hn.
  induction (lt_wf n) as [n _ IH]; intros l r ->. rewrite merge_unfold.
  destruct l as [|x l], r as [|b r]; cbn [merge_next peek head fst snd list_next]; [done| | |].
  - destruct (dedup_next_cons b r) as (y&r'&->&?). simpl.
    specialize (IH (length r') ltac:(simpl; lia) [] r' eq_refl). simpl in *. lia.
  - specialize (IH (length l) ltac:(simpl; lia) l [] ltac:(simpl; lia)). simpl in *. lia.
  - destruct (dedup_next_cons b r) as (y&r'&->&?). destruct (cmp (key x) (key b)); simpl.
    + specialize (IH (length l + length r') ltac:(simpl; lia) l r' eq_refl). lia.
    + specialize (IH (length l + length (b :: r)) ltac:(simpl; lia) l (b :: r) eq_refl). simpl in *. lia.
    + specialize (IH (length (x :: l) + length r') ltac:(simpl; lia) (x :: l) r' eq_refl). simpl in *. lia.
Qed.

Lemma merge_hint_sound s : hint_sound (merge_size_hint s) (length (merge s.1 s.2)).
Proof.
  pose proof (merge_length s.1 s.2). unfold hint_sound, merge_size_hint; simpl. split; [lia|].
  destruct (checked_add _ _) as [h|] eqn:Hh; [|done]. apply checked_add_Some in Hh. lia.
Qed.

(** ** Stable sort *)

Definition sort_key l : list E := sort_by (λ a b, cmp (key a) (key b)) l.

Lemma sort_insert_weakly x l :
  weakly_sorted l → weakly_sorted (sort_insert (λ a b, cmp (key a) (key b)) x l).
Proof.
  induction 1 as [|y l Hs IH Hy]; simpl; [by repeat constructor|].
  assert (key_le x y → weakly_sorted (x :: y :: l)) as Hle.
  { intros Hxy. constructor; [by constructor|]. constructor; [done|].
    eapply Forall_impl; [exact Hy|]. intros z Hyz. unfold key_le in *. intros Hg. apply cmp_gt in Hg.
    destruct (cmp (key x) (key y)) eqn:Hc; [|by apply (ord_lt_irrefl (key x)), (cmp_lt_trans _ (key y)), (key_le_lt _ z)|done].
    apply Hyz, cmp_gt. by rewrite <-(cmp_proper _ _ (cmp_refl _) _ _ Hc). }
  destruct (cmp (key x) (key y)) eqn:Hc; [by apply Hle; unfold key_le; rewrite Hc..|].
  constructor; [done|].
  apply Forall_forall. intros z Hz. rewrite (sort_insert_perm _ x l) in Hz.
  apply elem_of_cons in Hz as [->|Hz]; [|by rewrite Forall_forall in Hy; apply Hy].
  apply cmp_gt in Hc. unfold key_le. congruence.
Qed.

Lemma sort_key_weakly l : weakly_sorted (sort_key l).
Proof. induction l; simpl; [constructor|]. by apply sort_insert_weakly. Qed.

Section stable.
Context `{Ord Q, !Borrow K Q}.

(** Stability: elements with equal keys keep their order. *)
Lemma sort_insert_hits (q : Q) x l :
  hits q (sort_insert (λ a b, cmp (key a) (key b)) x l) = hits q (x :: l).
Proof.
  induction l as [|y l IH]; simpl; [done|]. destruct (cmp (key x) (key y)) eqn:Hc; [done..|].
  destruct (decide (ord_eq (borrow (key y)) q)) as [Hy|Hy].
  - rewrite hits_cons_eq by done. rewrite IH. rewrite !(hits_cons_ne q x); [by rewrite hits_cons_eq|..];
      intros Hx; apply (borrow_eq (key x) (key y)) in Hy; (congruence || done).
  - rewrite hits_cons_ne by done. rewrite IH.
    destruct (decide (ord_eq (borrow (key x)) q)) as [Hx|Hx].
    + by rewrite !(hits_cons_eq q x), hits_cons_ne.
    + by rewrite !hits_cons_ne.
Qed.

Lemma sort_key_hits (q : Q) l : hits q (sort_key l) = hits q l.
Proof.
  induction l as [|x l IH]; simpl; [done|]. unfold sort_key in *; simpl.
  rewrite sort_insert_hits. change (x :: ?k) with ([x] ++ k). by rewrite !hits_app, IH.
Qed.
End stable.

(** ** A sorted vector is determined by its hits *)

Lemma sorted_ext l r :
  sorted l → sorted r → (∀ k : K, hits k l = hits k r) → l = r.
Proof.
  revert r. induction l as [|x l IH]; intros r Hl Hr Heq.
  - destruct r as [|y r]; [done|]. specialize (Heq (key y)).
    rewrite hits_cons_eq in Heq; [done|apply cmp_refl].
  - apply sorted_cons in Hl as [Hl Hx].
    assert (∀ k, ord_lt k (key x) → hits k (x :: l) = []) as Hlow.
    { intros k Hk. apply hits_none. intros z [->|Hz]%elem_of_cons Hzk; simpl in Hzk.
      - by apply ord_not_lt_eq in Hk; apply Hk.
      - apply Hx in Hz. unfold key_lt in Hz. apply (ord_lt_irrefl k). trans (key x); [done|]. by rewrite <-Hzk. }
    destruct r as [|y r].
    { specialize (Heq (key x)). rewrite hits_cons_eq in Heq; [done|apply cmp_refl]. }
    apply sorted_cons in Hr as [Hr Hy].
    assert (x = y) as ->.
    { pose proof (Heq (key x)) as Hxx. rewrite hits_cons_eq in Hxx by apply cmp_refl.
      rewrite (hits_above (key x) x l Hx) in Hxx by apply cmp_refl.
      destruct (decide (ord_eq (key y) (key x))) as [Hyx|Hyx].
      { by rewrite hits_cons_eq in Hxx; simplify_eq. }
      assert (x ∈ r) as Hxr.
      { rewrite hits_cons_ne in Hxx by done. eapply (elem_of_hits (key x)). rewrite <-Hxx. by left. }
      apply Hy in Hxr. specialize (Hlow (key y) Hxr). rewrite Heq, hits_cons_eq in Hlow; [done|apply cmp_refl]. }
    f_equal. apply IH; [done..|]. intros k. specialize (Heq k).
    destruct (decide (ord_eq (key y) k)) as [Hyk|Hyk].
    + by rewrite !(hits_above k y) by done.
    + by rewrite !hits_cons_ne in Heq by done.
Qed.

(** A decision procedure for sortedness. *)
Fixpoint sorted_check l : bool :=
  match l with
  | [] => true
  | x :: l' => forallb (λ y, bool_decide (ord_lt (key x) (key y))) l' && sorted_check l'
  end.

Lemma sorted_check_sound l : sorted_check l = true → sorted l.
Proof.
  induction l as [|x l IH]; simpl; [constructor|]. intros [Hx Hl]%andb_true_iff. apply sorted_cons.
  split; [auto|]. intros y Hy. rewrite forallb_forall in Hx.
  specialize (Hx y). rewrite <-list_elem_of_In, bool_decide_eq_true in Hx. by apply Hx.
Qed.

Implicit Types m : list E.

(** ** Ranges of keys *)

Section range_ops.
Context `{Ord Q, !Borrow K Q}.
Definition range_index_start l (b : Bound Q) : exec nat :=
  match b with
  | Unbounded => ret 0
  | Included q =>
      let! r := find_index l q in ret (match r with Ok index => index | Err index => index end)
  | Excluded q =>
      let! r := find_index l q in ret (match r with Ok index => index + 1 | Err index => index end)
  end.
Definition range_index_end l (b : Bound Q) : exec nat :=
  match b with
  | Unbounded => ret (length l)
  | Included q =>
      let! r := find_index l q in ret (match r with Ok index => index + 1 | Err index => index end)
  | Excluded q =>
      let! r := find_index l q in ret (match r with Ok index => index | Err index => index end)
  end.
Definition range l (start_bound end_bound : Bound Q) : exec (list E) :=
  let! start := range_index_start l start_bound in
  let! end_ := range_index_end l end_bound in
  if decide (end_ < start) then panic else vec_slice l start end_.
End range_ops.

Section ranges.
Context `{Ord Q, !Borrow K Q}.

(** A key lies after the start bound, before the end bound. *)
Definition after_start (b : Bound Q) (e : E) : Prop :=
  match b with
  | Unbounded => True
  | Included q => ¬ ord_lt (borrow (key e)) q
  | Excluded q => ord_lt q (borrow (key e))
  end.
Definition before_end (b : Bound Q) (e : E) : Prop :=
  match b with
  | Unbounded => True
  | Included q => ¬ ord_lt q (borrow (key e))
  | Excluded q => ord_lt (borrow (key e)) q
  end.
#[export] Instance after_start_dec b e : Decision (after_start b e).
Proof. destruct b; simpl; apply _. Defined.
#[export] Instance before_end_dec b e : Decision (before_end b e).
Proof. destruct b; simpl; apply _. Defined.

Lemma below_lt (q : Q) (e : E) : below q e → ord_lt (borrow (key e)) q ∧ ¬ ord_lt q (borrow (key e)).
Proof. intros Hb. split; [done|]. by apply ord_lt_asym. Qed.
Lemma above_lt (q : Q) (e : E) : above q e → ord_lt q (borrow (key e)) ∧ ¬ ord_lt (borrow (key e)) q.
Proof. intros Ha%cmp_gt. split; [done|]. by apply ord_lt_asym. Qed.
Lemma eq_lt (q : Q) (e : E) : ord_eq (borrow (key e)) q → ¬ ord_lt (borrow (key e)) q ∧ ¬ ord_lt q (borrow (key e)).
Proof. intros He. split; rewrite He; apply ord_lt_irrefl. Qed.

Lemma range_start_split b m :
  sorted m →
  ∃ l1 l2, m = l1 ++ l2 ∧ range_index_start m b = ret (length l1) ∧
    Forall (λ e, ¬ after_start b e) l1 ∧ Forall (after_start b) l2.
Proof.
  intros Hs. destruct b as [|q|q]; simpl.
  - exists [], m. split_and!; [done..|]. by apply Forall_true.
  - destruct (find_index_cases q m Hs) as [(l1&e&l2&->&->&Hb&He&Ha)|(l1&l2&->&->&Hb&Ha)]; simpl;
      eexists _, _; (split; [done|]); (split; [done|]).
    + split; [|constructor; [by apply eq_lt|]];
        (eapply Forall_impl; [done|]); intros x; [intros ?%below_lt|intros ?%above_lt]; tauto.
    + split; (eapply Forall_impl; [done|]); intros x; [intros ?%below_lt|intros ?%above_lt]; tauto.
  - destruct (find_index_cases q m Hs) as [(l1&e&l2&->&->&Hb&He&Ha)|(l1&l2&->&->&Hb&Ha)]; simpl.
    + exists (l1 ++ [e]), l2. rewrite <-app_assoc, length_app. split_and!; [done..| |].
      * apply Forall_app. split; [|repeat constructor; by apply eq_lt].
        eapply Forall_impl; [done|]. intros x ?%below_lt. tauto.
      * eapply Forall_impl; [done|]. intros x ?%above_lt. tauto.
    + exists l1, l2. split_and!; [done..| |]; (eapply Forall_impl; [done|]); intros x;
        [intros ?%below_lt|intros ?%above_lt]; tauto.
Qed.

Lemma range_end_split b m :
  sorted m →
  ∃ l1 l2, m = l1 ++ l2 ∧ range_index_end m b = ret (length l1) ∧
    Forall (before_end b) l1 ∧ Forall (λ e, ¬ before_end b e) l2.
Proof.
  intros Hs. destruct b as [|q|q]; simpl.
  - exists m, []. rewrite app_nil_r. split_and!; [done..| |constructor]. by apply Forall_true.
  - destruct (find_index_cases q m Hs) as [(l1&e&l2&->&->&Hb&He&Ha)|(l1&l2&->&->&Hb&Ha)]; simpl.
    + exists (l1 ++ [e]), l2. rewrite <-app_assoc, length_app. split_and!; [done..| |].
      * apply Forall_app. split; [|repeat constructor; by apply eq_lt].
        eapply Forall_impl; [done|]. intros x ?%below_lt. tauto.
      * eapply Forall_impl; [done|]. intros x ?%above_lt. tauto.
    + exists l1, l2. split_and!; [done..| |]; (eapply Forall_impl; [done|]); intros x;
        [intros ?%below_lt|intros ?%above_lt]; tauto.
  - destruct (find_index_cases q m Hs) as [(l1&e&l2&->&->&Hb&He&Ha)|(l1&l2&->&->&Hb&Ha)]; simpl;
      eexists _, _; (split; [done|]); (split; [done|]).
    + split; [|constructor; [by apply eq_lt|]];
        (eapply Forall_impl; [done|]); intros x; [intros ?%below_lt|intros ?%above_lt]; tauto.
    + split; (eapply Forall_impl; [done|]); intros x; [intros ?%below_lt|intros ?%above_lt]; tauto.
Qed.

Definition in_range (lo hi : Bound Q) (e : E) : Prop := after_start lo e ∧ before_end hi e.

Lemma range_spec lo hi m :
  sorted m →
  range m lo hi =
    if decide (Exists (λ e, ¬ after_start lo e ∧ ¬ before_end hi e) m) then panic
    else ret (filter (in_range lo hi) m).
Proof.
  intros Hs. unfold range.
  destruct (range_start_split lo m Hs) as (l1&l2&Hm&->&Hl1&Hl2).
  destruct (range_end_split hi m Hs) as (r1&r2&Hm'&->&Hr1&Hr2). simpl.
  rewrite Hm in Hm'.
  rewrite Forall_forall in Hl1, Hl2, Hr1, Hr2.
  destruct (decide (length r1 < length l1)) as [Hlt|Hge].
  - rewrite decide_True; [done|]. destruct (app_cut r1 r2 l1 l2) as (k&->&->); [done|lia|].
    destruct k as [|e k]; [rewrite app_nil_r in Hlt; lia|].
    rewrite Hm. apply Exists_exists. exists e. split; [set_solver|].
    split; [apply Hl1|apply Hr2]; set_solver.
  - destruct (app_cut l1 l2 r1 r2) as (k&->&->); [done|lia|].
    rewrite decide_False.
    + unfold vec_slice. rewrite Hm, decide_True by (rewrite !length_app; lia).
      rewrite drop_app_length, length_app. replace (length l1 + length k - length l1) with (length k) by lia.
      rewrite take_app_length, !filter_app. unfold in_range.
      rewrite (filter_none _ l1), (filter_all _ k), (filter_none _ r2); [by rewrite app_nil_r|..];
        apply Forall_forall; intros x Hx.
      * intros [_ ?]. by apply (Hr2 x).
      * split; [apply Hl2|apply Hr1]; set_solver.
      * intros [? _]. by apply (Hl1 x).
    + rewrite Hm, Exists_exists. intros (e&He&Hna&Hnb).
      apply elem_of_app in He as [He|He]; [apply Hnb, Hr1|apply Hna, Hl2]; set_solver.
Qed.
End ranges.

(** ** The first duplicate of a sorted vector *)

Section dup.
Context `{Itertools}.
Definition first_dup_index l : option nat :=
    fst <$> list_find (λ p : E * E, ord_eq (key p.1) (key p.2)) (tuple_windows l).

Lemma first_dup_index_cons (x y : E) (l : list E) :
  first_dup_index (x :: y :: l) =
    if decide (ord_eq (key x) (key y)) then Some 0 else S <$> first_dup_index (y :: l).
Proof.
  unfold first_dup_index. rewrite !tuple_windows_adjacent. simpl.
  case_decide; [done|]. by destruct (list_find _ _) as [[i z]|].
Qed.

(** Deduplicating from the first duplicate on is deduplicating everything. *)
Lemma dedup_from_first_dup (l : list E) :
  weakly_sorted l →
  match first_dup_index l with
  | Some i => i ≤ length l ∧ take i l ++ dedup (drop i l) = dedup l
  | None => l = dedup l
  end.
Proof.
  induction l as [|x l IH]; intros Hs; [unfold first_dup_index; by rewrite tuple_windows_adjacent|].
  destruct l as [|y l]; [unfold first_dup_index; by rewrite tuple_windows_adjacent|].
  rewrite first_dup_index_cons. case_decide as Hxy; [split; [simpl; lia|done]|].
  inversion Hs as [|?? Hs' Hx]; subst. specialize (IH Hs').
  assert (dedup (x :: y :: l) = x :: dedup (y :: l)) as ->.
  { destruct (dedup_step (x :: y :: l) Hs ltac:(done)) as (d&z&r&_&->&Hl&Hd&Hr&_).
    destruct d as [|x' d]; simplify_eq/=; [done|]. apply Forall_cons in Hd as [Hxz Hd].
    exfalso. apply Hxy. trans (key z); [done|]. symmetry.
    destruct d as [|y' d]; simplify_eq/=; [done|]. by apply Forall_cons in Hd as [? _]. }
  destruct (first_dup_index (y :: l)) as [i|]; simpl.
  - destruct IH as [? IH]. split; [simpl in *; lia|]. by f_equal.
  - by f_equal.
Qed.

Lemma extend_dedup {A} (f : list E → A) (l : list E) :
  weakly_sorted l →
  match first_dup_index l with
  | Some i => let! '(l1, l2) := vec_split_off i l in ret (f (l1 ++ dedup l2))
  | None => ret (f l)
  end = ret (f (dedup l)).
Proof.
  intros Hs. pose proof (dedup_from_first_dup l Hs) as Hd.
  destruct (first_dup_index l) as [i|]; [|by rewrite <-Hd].
  destruct Hd as [Hi Hd]. unfold vec_split_off. rewrite decide_True by done. simpl. by rewrite Hd.
Qed.

(** Bulk insertion of several elements: sort, then append or merge. *)
Definition extend_many l (new_ : list E) : exec (list E) :=
  let new_ := sort_key new_ in
  if match l with [] => true | _ => false end then
    match first_dup_index new_ with
    | Some first_dup_index =>
        let! '(new_, dups) := vec_split_off first_dup_index new_ in
        ret (new_ ++ dedup dups)
    | None => ret new_
    end
  else
    let after_end :=
      match last l, head new_ with
      | Some self_last, Some new_first => bool_decide (ord_lt (key self_last) (key new_first))
      | _, _ => false
      end in
    if after_end then
      match first_dup_index new_ with
      | Some first_dup_index =>
          let! '(new_, dups) := vec_split_off first_dup_index new_ in
          ret (l ++ new_ ++ dedup dups)
      | None => ret (l ++ new_)
      end
    else ret (merge l new_).

Lemma extend_many_spec self (new_ : list E) :
  sorted self →
  ∃ m', extend_many self new_ = ret m' ∧ sorted m' ∧
    ∀ Q (OQ : Ord Q) (B : Borrow K Q) (q : Q), hits q m' = merged_hits q self new_.
Proof.
  intros Hs. unfold extend_many.
  set (l := new_) in *.
  pose proof (sort_key_weakly l) as Hw.
  assert (∀ Q (OQ : Ord Q) (B : Borrow K Q) (q : Q), hits q (sort_key l) = hits q l) as Hsort
    by (intros; apply sort_key_hits).
  destruct (dedup_spec (sort_key l) Hw) as (Hds&Hdin&Hdq).
  destruct (match self with [] => true | _ => false end) eqn:Hemp.
  { destruct self; [|done]. exists (dedup (sort_key l)).
    split_and!; [exact (extend_dedup id _ Hw)|done|]. intros Q OQ B q.
    rewrite Hdq, Hsort. unfold merged_hits. by destruct (last (hits q l)). }
  match goal with |- context [if ?b then _ else _] => destruct b eqn:Hend end.
  - destruct (last self) as [z|] eqn:Hz; [|done]. destruct (head _) as [h|] eqn:Hh in Hend; [|done].
    apply bool_decide_eq_true in Hend.
    exists (self ++ dedup (sort_key l)). split; [exact (extend_dedup (app self) _ Hw)|].
    assert (∀ x y, x ∈ self → y ∈ sort_key l → key_lt x y) as Hlt.
    { intros x y Hx Hy. apply key_lt_le with (y := h).
      - apply last_Some in Hz as [l' ->]. apply sorted_app in Hs as (_&_&Hs).
        apply elem_of_app in Hx as [Hx| ->%list_elem_of_singleton]; [|done].
        unfold key_lt. trans (key z); [|done]. apply (Hs x z); [done|by left].
      - destruct (sort_key l) as [|h' s]; simplify_eq/=. inversion Hw as [|?? _ Hf]; subst.
        apply elem_of_cons in Hy as [->|Hy]; [unfold key_le; by rewrite cmp_refl|].
        rewrite Forall_forall in Hf. by apply Hf. }
    assert (sorted (self ++ dedup (sort_key l))) as Hs'.
    { apply sorted_app. split_and!; [done..|]. intros x y Hx Hy. by apply Hlt, Hdin. }
    split; [done|]. intros Q OQ B q. pose proof (hits_length q _ Hs') as Hl.
    rewrite hits_app in *. rewrite Hdq, Hsort in *. unfold merged_hits.
    destruct (last (hits q l)); simpl in *; [|by rewrite app_nil_r].
    rewrite length_app in Hl. simpl in Hl. destruct (hits q self); simpl in *; [done|lia].
  - destruct (merge_spec self (sort_key l) Hs Hw) as (Hms&_&Hmq).
    eexists. split_and!; [done..|]. intros Q OQ B q. rewrite Hmq. unfold merged_hits. by rewrite Hsort.
Qed.
End dup.
End sorted_vec.
