(* ===== verification/SortedVectorMap.v ===== *)
(** [sorted_vector_map::map]: the ordered map on a sorted vector
    (src/shed/sorted_vector_map/src/map.rs).  A map is its vector of key-value
    pairs; an operation taking [&mut self] returns the new vector.  A [&mut V]
    into the map is the place it designates ([RefMut]).  Operations that index
    return [exec], and the theorems show that they never panic. *)
From S2P Require Import Prelude RustStd SortedVec.

Module SortedVectorMap.
Section map.
Context {K V : Type} `{Ord K}.

#[local] Abbreviation SortedVectorMap := (list (K * V)).
Implicit Types (m self other : SortedVectorMap) (k : K) (v : V).

(** ** Construction and whole-map operations *)

Definition new : SortedVectorMap := [].
Definition with_capacity (capacity : nat) : SortedVectorMap := [].
Definition into_inner self : list (K * V) := self.
Definition clear self : SortedVectorMap := [].
Definition len self : nat := length self.
Definition is_empty self : bool := match self with [] => true | _ => false end.
Definition first_key_value self : option (K * V) := head self.
Definition last_key_value self : option (K * V) := last self.
Definition pop_last self : option (K * V) * SortedVectorMap :=
  match last self with Some e => (Some e, take (length self - 1) self) | None => (None, self) end.
Definition keys self : list K := fst <$> self.
Definition values self : list V := snd <$> self.
Definition into_keys self : list K := fst <$> self.
Definition into_values self : list V := snd <$> self.
Definition get_key_value_at_index self (index : nat) : option (K * V) := self !! index.

(** ** Look-up by a borrowed key *)

Section lookup.
Context {Q : Type} `{Ord Q, !Borrow K Q}.
Implicit Types q : Q.

Definition find_index self q : exec (result nat nat) := SortedVec.find_index fst self q.

Definition get self q : exec (option V) :=
  let! r := find_index self q in
  match r with
  | Ok index => let! e := vec_index self index in ret (Some e.2)
  | Err _ => ret None
  end.

Definition get_key_value self q : exec (option (K * V)) :=
  let! r := find_index self q in
  match r with
  | Ok index => let! e := vec_index self index in ret (Some e)
  | Err _ => ret None
  end.

Definition contains_key self q : exec bool :=
  let! r := find_index self q in ret (is_ok r).
End lookup.

(** ** Mutable references into a map *)

(** A [&mut V] borrowed from a map: the map and the index it points into. *)
Record RefMut := { ref_map : SortedVectorMap; ref_index : nat }.

Definition deref (r : RefMut) : exec V := let! e := vec_index (ref_map r) (ref_index r) in ret e.2.
Definition assign (r : RefMut) v : exec SortedVectorMap :=
  let! e := vec_index (ref_map r) (ref_index r) in
  ret (<[ref_index r := (e.1, v)]> (ref_map r)).

(** Taking [&mut self.0[index].1]: panics when out of range. *)
Definition borrow_mut self (index : nat) : exec RefMut :=
  let! _ := vec_index self index in ret {| ref_map := self; ref_index := index |}.

Section update.
Context {Q : Type} `{Ord Q, !Borrow K Q}.
Implicit Types q : Q.

Definition get_mut self q : exec (option RefMut) :=
  let! r := find_index self q in
  match r with
  | Ok index => let! p := borrow_mut self index in ret (Some p)
  | Err _ => ret None
  end.

Definition remove self q : exec (option V * SortedVectorMap) :=
  let! r := find_index self q in
  match r with
  | Ok index => let! '(e, self') := vec_remove index self in ret (Some e.2, self')
  | Err _ => ret (None, self)
  end.

Definition remove_entry self q : exec (option (K * V) * SortedVectorMap) :=
  let! r := find_index self q in
  match r with
  | Ok index => let! '(e, self') := vec_remove index self in ret (Some e, self')
  | Err _ => ret (None, self)
  end.

(** What stays in [self], and the map that is returned. *)
Definition split_off self q : exec (SortedVectorMap * SortedVectorMap) :=
  let! r := find_index self q in
  let index := match r with Ok index => index | Err index => index end in
  vec_split_off index self.

(** *** Ranges *)

Definition range_index_start self (b : Bound Q) : exec nat :=
  match b with
  | Unbounded => ret 0
  | Included q =>
      let! r := find_index self q in ret (match r with Ok index => index | Err index => index end)
  | Excluded q =>
      let! r := find_index self q in ret (match r with Ok index => index + 1 | Err index => index end)
  end.

Definition range_index_end self (b : Bound Q) : exec nat :=
  match b with
  | Unbounded => ret (length self)
  | Included q =>
      let! r := find_index self q in ret (match r with Ok index => index + 1 | Err index => index end)
  | Excluded q =>
      let! r := find_index self q in ret (match r with Ok index => index | Err index => index end)
  end.

(** The entries the iterator visits; panics when the start index passes the end. *)
Definition range self (start_bound end_bound : Bound Q) : exec (list (K * V)) :=
  let! start := range_index_start self start_bound in
  let! end_ := range_index_end self end_bound in
  if decide (end_ < start) then panic else vec_slice self start end_.

(** The places the mutable iterator visits, in order. *)
Definition range_mut self (start_bound end_bound : Bound Q) : exec (list RefMut) :=
  let! start := range_index_start self start_bound in
  let! end_ := range_index_end self end_bound in
  if decide (end_ < start) then panic
  else
    let! _ := vec_slice self start end_ in
    ret ((λ i, {| ref_map := self; ref_index := i |}) <$> seq start (end_ - start)).

(** *** Indexing *)

(** [map[&q]]: "no entry found for key" when absent. *)
Definition index self q : exec V :=
  let! r := find_index self q in
  let! index := expect (ok r) in
  let! e := vec_index self index in ret e.2.

Definition index_mut self q : exec RefMut :=
  let! r := find_index self q in
  let! index := expect (ok r) in
  borrow_mut self index.
End update.

(** The iterators over the whole map: entries, or places for the mutable ones. *)
Definition iter self : list (K * V) := self.
Definition iter_mut self : list RefMut :=
  (λ i, {| ref_map := self; ref_index := i |}) <$> seq 0 (length self).
Definition values_mut self : list RefMut :=
  (λ i, {| ref_map := self; ref_index := i |}) <$> seq 0 (length self).

(** ** Insertion *)

(** [len == 0 || self.0[len - 1].0 < k]. *)
Definition insert_at_end self k : exec bool :=
  let len := length self in
  if decide (len = 0) then ret true
  else let! e := vec_index self (len - 1) in ret (bool_decide (ord_lt e.1 k)).

Definition insert self k v : exec (option V * SortedVectorMap) :=
  let! push := insert_at_end self k in
  if push : bool then ret (None, self ++ [(k, v)])
  else
    let! r := find_index self k in
    match r with
    | Ok index =>
        let! e := vec_index self index in
        ret (Some e.2, <[index := (e.1, v)]> self)
    | Err index => let! self' := vec_insert index (k, v) self in ret (None, self')
    end.

(** [retain]: the predicate may have state and rewrites the values. *)
Fixpoint retain {St : Type} (f : St → K → V → bool * V * St) (st : St) self : SortedVectorMap * St :=
  match self with
  | [] => ([], st)
  | (k, v) :: self' =>
      let '(keep, v', st1) := f st k v in
      let '(rest, st2) := retain f st1 self' in
      (if keep : bool then (k, v') :: rest else rest, st2)
  end.

(** The iterators [Iter], [Keys], [Values] (and their [mut] forms): the entries still to
    be visited, taken from either end. *)
Definition back_next {A : Type} (l : list A) : option A * list A :=
  match last l with Some x => (Some x, take (length l - 1) l) | None => (None, l) end.
Definition on_item {A B S : Type} (f : A → B) (r : option A * S) : option B * S := (f <$> r.1, r.2).
Definition Iter_next (s : list (K * V)) : option (K * V) * list (K * V) := list_next s.
Definition Iter_next_back (s : list (K * V)) : option (K * V) * list (K * V) := back_next s.
Definition Iter_size_hint (s : list (K * V)) : nat * option nat := list_size_hint s.
Definition Iter_len (s : list (K * V)) : nat := length s.
Definition IterMut_next (s : list RefMut) : option RefMut * list RefMut := list_next s.
Definition IterMut_next_back (s : list RefMut) : option RefMut * list RefMut := back_next s.
Definition IterMut_size_hint (s : list RefMut) : nat * option nat := list_size_hint s.
Definition IterMut_len (s : list RefMut) : nat := length s.
Definition ValuesMut_next (s : list RefMut) : option RefMut * list RefMut := list_next s.
Definition ValuesMut_next_back (s : list RefMut) : option RefMut * list RefMut := back_next s.
Definition ValuesMut_size_hint (s : list RefMut) : nat * option nat := list_size_hint s.
Definition Keys_next (s : list (K * V)) : option K * list (K * V) := on_item fst (list_next s).
Definition Keys_next_back (s : list (K * V)) : option K * list (K * V) := on_item fst (back_next s).
Definition Keys_size_hint (s : list (K * V)) : nat * option nat := list_size_hint s.
Definition Values_next (s : list (K * V)) : option V * list (K * V) := on_item snd (list_next s).
Definition Values_next_back (s : list (K * V)) : option V * list (K * V) := on_item snd (back_next s).
Definition Values_size_hint (s : list (K * V)) : nat * option nat := list_size_hint s.

(** [DedupIter] and [MergeIter] over entries. *)
Definition DedupIter_next (iter : list (K * V)) := dedup_next fst iter.
Definition DedupIter_size_hint (iter : list (K * V)) := dedup_size_hint iter.
Definition DedupIter_collect (iter : list (K * V)) : list (K * V) := dedup fst iter.
Definition MergeIter_next (iter : list (K * V) * list (K * V)) := merge_next fst iter.
Definition MergeIter_size_hint (iter : list (K * V) * list (K * V)) := merge_size_hint iter.
Definition MergeIter_collect (left right : list (K * V)) : list (K * V) := merge fst left right.

(** The new [self] and [other]. *)
Definition append self other : SortedVectorMap * SortedVectorMap :=
  if is_empty other then (self, other)
  else if is_empty self then (other, self)
  else (MergeIter_collect self other, new).

Section extend.
Context `{Itertools}.

(** The first position holding the same key as its successor. *)
Definition first_dup_index (l : list (K * V)) : option nat :=
  fst <$> list_find (λ p : (K * V) * (K * V), ord_eq p.1.1 p.2.1) (tuple_windows l).

Definition extend_with_vec self (new_ : list (K * V)) : exec SortedVectorMap :=
  match new_ with
  | [] => ret self
  | [(k, v)] => let! '(_, self') := insert self k v in ret self'
  | _ =>
      let new_ := sort_key fst new_ in
      if is_empty self then
        match first_dup_index new_ with
        | Some first_dup_index =>
            let! '(new_, dups) := vec_split_off first_dup_index new_ in
            ret (new_ ++ DedupIter_collect dups)
        | None => ret new_
        end
      else
        let after_end :=
          match last self, head new_ with
          | Some self_last, Some new_first => bool_decide (ord_lt self_last.1 new_first.1)
          | _, _ => false
          end in
        if after_end then
          match first_dup_index new_ with
          | Some first_dup_index =>
              let! '(new_, dups) := vec_split_off first_dup_index new_ in
              ret (self ++ new_ ++ DedupIter_collect dups)
          | None => ret (self ++ new_)
          end
        else ret (MergeIter_collect self new_)
  end.

Definition extend self (iter : list (K * V)) : exec SortedVectorMap := extend_with_vec self iter.
Definition from_iter (iter : list (K * V)) : exec SortedVectorMap := extend new iter.
End extend.

(** [From<BTreeMap>]: a [BTreeMap] iterates in key order. *)
Definition from_btreemap (bmap : list (K * V)) : SortedVectorMap := bmap.

(** The [sorted_vector_map!] macro inserts its entries one by one. *)
Fixpoint sorted_vector_map_from self (entries : list (K * V)) : exec SortedVectorMap :=
  match entries with
  | [] => ret self
  | (k, v) :: entries => let! '(_, self') := insert self k v in sorted_vector_map_from self' entries
  end.
Definition sorted_vector_map (entries : list (K * V)) : exec SortedVectorMap :=
  sorted_vector_map_from (with_capacity (length entries)) entries.

(** ** The entry API *)

Record VacantEntry := { ve_key : K; ve_map : SortedVectorMap; ve_index : nat }.
Record OccupiedEntry := { oe_map : SortedVectorMap; oe_index : nat }.
Inductive Entry := Vacant (e : VacantEntry) | Occupied (e : OccupiedEntry).

Definition entry self k : exec Entry :=
  let! r := find_index self k in
  match r with
  | Ok index => ret (Occupied {| oe_map := self; oe_index := index |})
  | Err index => ret (Vacant {| ve_key := k; ve_map := self; ve_index := index |})
  end.

Definition first_entry self : option OccupiedEntry :=
  if is_empty self then None else Some {| oe_map := self; oe_index := 0 |}.
Definition last_entry self : option OccupiedEntry :=
  if is_empty self then None else Some {| oe_map := self; oe_index := length self - 1 |}.

Definition VacantEntry_key (e : VacantEntry) : K := ve_key e.
Definition VacantEntry_into_key (e : VacantEntry) : K := ve_key e.
Definition VacantEntry_insert (e : VacantEntry) v : exec RefMut :=
  let! m := vec_insert (ve_index e) (ve_key e, v) (ve_map e) in
  borrow_mut m (ve_index e).

Definition OccupiedEntry_key (e : OccupiedEntry) : exec K :=
  let! x := vec_index (oe_map e) (oe_index e) in ret x.1.
Definition OccupiedEntry_get (e : OccupiedEntry) : exec V :=
  let! x := vec_index (oe_map e) (oe_index e) in ret x.2.
Definition OccupiedEntry_get_mut (e : OccupiedEntry) : exec RefMut := borrow_mut (oe_map e) (oe_index e).
Definition OccupiedEntry_into_mut (e : OccupiedEntry) : exec RefMut := borrow_mut (oe_map e) (oe_index e).
Definition OccupiedEntry_insert (e : OccupiedEntry) v : exec (V * OccupiedEntry) :=
  let! x := vec_index (oe_map e) (oe_index e) in
  ret (x.2, {| oe_map := <[oe_index e := (x.1, v)]> (oe_map e); oe_index := oe_index e |}).
Definition OccupiedEntry_remove_entry (e : OccupiedEntry) : exec ((K * V) * SortedVectorMap) :=
  vec_remove (oe_index e) (oe_map e).
Definition OccupiedEntry_remove (e : OccupiedEntry) : exec (V * SortedVectorMap) :=
  let! '(x, m) := vec_remove (oe_index e) (oe_map e) in ret (x.2, m).

Definition or_insert (e : Entry) (default : V) : exec RefMut :=
  match e with
  | Occupied entry => OccupiedEntry_into_mut entry
  | Vacant entry => VacantEntry_insert entry default
  end.
Definition or_insert_with (e : Entry) (default : () → V) : exec RefMut :=
  match e with
  | Occupied entry => OccupiedEntry_into_mut entry
  | Vacant entry => VacantEntry_insert entry (default ())
  end.
Definition or_default (default : V) (e : Entry) : exec RefMut :=
  match e with
  | Occupied entry => OccupiedEntry_into_mut entry
  | Vacant entry => VacantEntry_insert entry default
  end.
Definition Entry_key (e : Entry) : exec K :=
  match e with
  | Occupied entry => OccupiedEntry_key entry
  | Vacant entry => ret (VacantEntry_key entry)
  end.
Definition and_modify (e : Entry) (f : V → V) : exec Entry :=
  match e with
  | Occupied entry =>
      let! p := OccupiedEntry_get_mut entry in
      let! v := deref p in
      let! m := assign p (f v) in
      ret (Occupied {| oe_map := m; oe_index := oe_index entry |})
  | Vacant entry => ret (Vacant entry)
  end.
End map.

(** ** The abstract map: at most one entry per key *)
Section theory.
Context {K V : Type} `{Ord K}.
#[local] Abbreviation svm := (list (K * V)).
#[local] Abbreviation sorted := (sorted (E:=K * V) fst).
#[local] Abbreviation hits := (hits (E:=K * V) fst).
Implicit Types (m self other : svm) (k : K) (v : V).

(** The entry a sorted vector holds for [q]. *)
Definition find_entry `{Ord Q, !Borrow K Q} (q : Q) m : option (K * V) := head (hits q m).

Lemma find_entry_hits `{Ord Q, !Borrow K Q} (q : Q) m :
  sorted m → hits q m = option_list (find_entry q m).
Proof. intros Hs. unfold find_entry. by destruct (hits_sorted fst q m Hs) as [->|[x ->]]. Qed.

Lemma find_entry_Some `{Ord Q, !Borrow K Q} (q : Q) m e :
  find_entry q m = Some e → e ∈ m ∧ ord_eq (borrow e.1) q.
Proof.
  unfold find_entry. intros He.
  assert (e ∈ hits q m) as He' by (destruct (hits q m); simplify_eq/=; by left).
  by apply elem_of_hits in He' as [? ?].
Qed.

(** Two sorted vectors denoting the same map are equal. *)
Lemma find_entry_ext m m' :
  sorted m → sorted m' → (∀ k, find_entry k m = find_entry k m') → m = m'.
Proof.
  intros Hm Hm' Heq. apply (sorted_ext fst); [done..|]. intros k.
  by rewrite !find_entry_hits, Heq.
Qed.

Section by_borrowed.
Context {Q : Type} `{Ord Q, !Borrow K Q}.
Implicit Types q : Q.

(** The search result of a sorted map, with the vector split at the key. *)
Lemma map_find_index_split q m :
  sorted m →
  (∃ l1 e l2, m = l1 ++ e :: l2 ∧ find_index m q = ret (Ok (length l1)) ∧
     find_entry q m = Some e ∧ Forall (below fst q) l1 ∧ ord_eq (borrow e.1) q ∧ Forall (above fst q) l2) ∨
  (∃ l1 l2, m = l1 ++ l2 ∧ find_index m q = ret (Err (length l1)) ∧
     find_entry q m = None ∧ Forall (below fst q) l1 ∧ Forall (above fst q) l2).
Proof.
  intros Hs. destruct (find_index_cases fst q m Hs) as [(l1&e&l2&->&Hf&?&?&?)|(l1&l2&->&Hf&?&?)].
  - left. exists l1, e, l2. unfold find_entry. by rewrite hits_middle.
  - right. exists l1, l2. unfold find_entry. by rewrite hits_split.
Qed.

Lemma find_entry_app_below q l1 l2 : Forall (below fst q) l1 → find_entry q (l1 ++ l2) = find_entry q l2.
Proof. intros. unfold find_entry. by rewrite hits_app, hits_below. Qed.

(** [ord_eq] on a borrowed key, seen from another key of the same class. *)
Lemma find_entry_cong q1 q2 m : ord_eq q1 q2 → find_entry q1 m = find_entry q2 m.
Proof.
  intros Hq. unfold find_entry, SortedVec.hits. f_equal. apply list_filter_iff. intros e. by rewrite Hq.
Qed.
End by_borrowed.

Lemma find_entry_middle `{Ord Q, !Borrow K Q} (q : Q) (l1 l2 : svm) e :
  sorted (l1 ++ e :: l2) →
  find_entry q (l1 ++ e :: l2) =
    if decide (ord_eq (borrow e.1) q) then Some e else find_entry q (l1 ++ l2).
Proof.
  intros Hs. unfold find_entry. rewrite !hits_app. case_decide as Hq.
  - assert (hits q l1 = []) as ->; [|by rewrite hits_cons_eq].
    apply hits_none. intros x Hx Hxq. apply StronglySorted_app_iff in Hs as (_&_&Hs).
    pose proof (Hs x e Hx ltac:(by left)) as Hlt. apply ord_not_lt_eq in Hlt. apply Hlt.
    by apply (borrow_eq x.1 e.1) in Hq; [apply Hq|].
  - by rewrite hits_cons_ne.
Qed.

Lemma map_sorted_middle (l1 l2 : svm) e e' :
  ord_eq e.1 e'.1 → sorted (l1 ++ e :: l2) → sorted (l1 ++ e' :: l2).
Proof.
  intros Heq. unfold sorted. rewrite !StronglySorted_app_iff. intros (?&Hs&Hx).
  change (SortedVec.sorted fst (e :: l2)) in Hs. apply sorted_cons in Hs as [Hs He].
  split_and!; [done|apply sorted_cons; split; [done|]|].
  - intros y Hy. apply He in Hy. unfold key_lt in *. by rewrite <-Heq.
  - intros x y Hxl [->|Hy]%elem_of_cons; [|apply Hx; [done|by right]].
    unfold key_lt. rewrite <-Heq. apply Hx; [done|by left].
Qed.

Lemma map_sorted_insert_middle (l1 l2 : svm) k v :
  sorted (l1 ++ l2) → Forall (below fst k) l1 → Forall (above fst k) l2 → sorted (l1 ++ (k, v) :: l2).
Proof.
  unfold sorted. rewrite !StronglySorted_app_iff. intros (?&?&Hx) Hb Ha.
  rewrite Forall_forall in Hb, Ha. split_and!; [done|apply sorted_cons; split; [done|]|].
  - intros y Hy. apply Ha, cmp_gt in Hy. done.
  - intros x y Hxl [->|Hy]%elem_of_cons; [|by apply Hx]. by apply Hb in Hxl.
Qed.

Lemma map_sorted_delete_middle (l1 l2 : svm) e : sorted (l1 ++ e :: l2) → sorted (l1 ++ l2).
Proof.
  apply StronglySorted_sublist. apply sublist_app; [done|]. by constructor.
Qed.

(** ** Theorems *)

Lemma map_get_spec `{Ord Q, !Borrow K Q} (q : Q) m :
  sorted m →
  get m q = ret (snd <$> find_entry q m) ∧
  get_key_value m q = ret (find_entry q m) ∧
  contains_key m q = ret (bool_decide (is_Some (find_entry q m))).
Proof.
  intros Hs. unfold get, get_key_value, contains_key.
  destruct (map_find_index_split q m Hs) as [(l1&e&l2&->&->&->&_)|(l1&l2&->&->&->&_)]; simpl; [|done].
  by rewrite vec_index_middle.
Qed.

(** The fast path of [insert] is taken exactly when every key is smaller. *)
Lemma insert_at_end_spec k m : sorted m → insert_at_end m k = ret (bool_decide (Forall (below fst k) m)).
Proof.
  intros Hs. unfold insert_at_end. cbv zeta. case_decide as Hz.
  { apply nil_length_inv in Hz as ->. rewrite bool_decide_true; [done|constructor]. }
  unfold vec_index. replace (length m - 1) with (pred (length m)) by lia. rewrite <-last_lookup.
  destruct (last m) as [z|] eqn:Hl; [|by apply last_None in Hl as ->]. simpl.
  f_equal. apply bool_decide_ext. apply last_Some in Hl as [m' ->]. split.
  - intros Hlt. apply sorted_app in Hs as (_&_&Hs). apply Forall_app. split; [|by repeat constructor].
    apply Forall_forall. intros x Hx. unfold below. simpl.
    eapply (cmp_lt_trans x.1 z.1); [|done]. apply (Hs x z); [done|by left].
  - rewrite Forall_app, Forall_singleton. by intros [_ ?].
Qed.

(** The entry of a vector in which [e] was put between the smaller and the larger keys. *)
Lemma find_entry_put `{Ord Q, !Borrow K Q} (q : Q) (l1 l2 : svm) k v :
  sorted (l1 ++ l2) → Forall (below fst k) l1 → Forall (above fst k) l2 →
  find_entry q (l1 ++ (k, v) :: l2) =
    if decide (ord_eq (borrow k) q) then Some (k, v) else find_entry q (l1 ++ l2).
Proof. intros. by rewrite find_entry_middle by (by apply map_sorted_insert_middle). Qed.

(** The entry of a vector in which the entry of [k] got a new value. *)
Lemma find_entry_set `{Ord Q, !Borrow K Q} (q : Q) (l1 l2 : svm) e k v :
  sorted (l1 ++ e :: l2) → ord_eq e.1 k →
  find_entry q (l1 ++ (e.1, v) :: l2) =
    if decide (ord_eq (borrow k) q) then Some (e.1, v) else find_entry q (l1 ++ e :: l2).
Proof.
  intros Hs He. rewrite !find_entry_middle by (done || by apply (map_sorted_middle _ _ e)). simpl.
  assert (ord_eq (borrow (Q:=Q) e.1) (borrow k)) as Hek by (unfold ord_eq; by rewrite borrow_cmp).
  assert (ord_eq (borrow e.1) q ↔ ord_eq (borrow k) q) as Heq by (by rewrite Hek).
  case_decide; case_decide; tauto.
Qed.

Lemma map_insert_spec k v m :
  sorted m →
  ∃ m', insert m k v = ret (snd <$> find_entry k m, m') ∧ sorted m' ∧
    ∀ Q (OQ : Ord Q) (B : Borrow K Q) (q : Q), find_entry q m' =
      if decide (ord_eq (borrow k) q) then Some (from_option fst k (find_entry k m), v) else find_entry q m.
Proof.
  intros Hs. unfold insert. rewrite insert_at_end_spec by done. simpl.
  destruct (map_find_index_split k m Hs) as [(l1&e&l2&->&Hf&->&Hb&He&Ha)|(l1&l2&->&Hf&->&Hb&Ha)]; simpl.
  - rewrite bool_decide_false.
    2: { rewrite Forall_app, Forall_cons. intros (_&Hlt&_). unfold below, ord_eq in *; simpl in *. congruence. }
    rewrite Hf. simpl. rewrite vec_index_middle. simpl. rewrite vec_set_middle. eexists. split_and!; [done|..].
    + by apply (map_sorted_middle _ _ e).
    + intros Q ?? q. by apply find_entry_set.
  - case_bool_decide as Hall; [destruct l2 as [|z l2]|].
    + eexists. split_and!; [done|..]; rewrite app_nil_r in *.
      * apply map_sorted_insert_middle; [by rewrite app_nil_r|done..].
      * intros Q ?? q. rewrite find_entry_put by (done || by rewrite app_nil_r). by rewrite app_nil_r.
    + exfalso. apply Forall_app in Hall as [_ [Hlt _]%Forall_cons]. apply Forall_cons in Ha as [Ha _].
      unfold below, above in *. congruence.
    + rewrite Hf. simpl. rewrite vec_insert_middle. eexists. split_and!; [done|..].
      * by apply map_sorted_insert_middle.
      * intros Q ?? q. by apply find_entry_put.
Qed.

Lemma remove_spec `{Ord Q, !Borrow K Q} (q : Q) m :
  sorted m →
  ∃ m', remove m q = ret (snd <$> find_entry q m, m') ∧
    remove_entry m q = ret (find_entry q m, m') ∧ sorted m' ∧
    ∀ q' : Q, find_entry q' m' = if decide (ord_eq q q') then None else find_entry q' m.
Proof.
  intros Hs. unfold remove, remove_entry.
  destruct (map_find_index_split q m Hs) as [(l1&e&l2&->&->&->&Hb&He&Ha)|(l1&l2&->&->&Hf&Hb&Ha)]; simpl.
  - rewrite vec_remove_middle. simpl. eexists. split_and!; [done..|by eapply map_sorted_delete_middle|].
    intros q'. rewrite find_entry_middle by done. case_decide as Hq.
    + rewrite <-(find_entry_cong q q') by done. unfold find_entry. by rewrite hits_split.
    + rewrite decide_False; [done|]. intros Heq. apply Hq. by rewrite <-He.
  - rewrite Hf. eexists. split_and!; [done..|]. intros q'. case_decide as Hq; [|done].
    by rewrite <-(find_entry_cong q q').
Qed.

Lemma map_split_off_spec `{Ord Q, !Borrow K Q} (q : Q) m :
  sorted m →
  ∃ m1 m2, split_off m q = ret (m1, m2) ∧ m = m1 ++ m2 ∧ sorted m1 ∧ sorted m2 ∧
    (∀ e, e ∈ m1 → ord_lt (borrow e.1) q) ∧ (∀ e, e ∈ m2 → ¬ ord_lt (borrow e.1) q).
Proof.
  intros Hs. unfold split_off.
  destruct (map_find_index_split q m Hs) as [(l1&e&l2&->&->&_&Hb&He&Ha)|(l1&l2&->&->&_&Hb&Ha)]; simpl;
    rewrite vec_split_off_middle; eexists _, _; (split; [done|]); (split; [done|]);
    apply sorted_app in Hs as (?&?&_); rewrite Forall_forall in Hb, Ha;
    (split_and!; [done..|by apply Hb|]).
  - intros x [->|Hx]%elem_of_cons Hlt; [by apply ord_not_lt_eq in Hlt|].
    apply Ha in Hx. unfold above, ord_lt in *; simpl in *. congruence.
  - intros x Hx Hlt. apply Ha in Hx. unfold above, ord_lt in *; simpl in *. congruence.
Qed.

(** ** Ranges *)

Section ranges.
Context `{Ord Q, !Borrow K Q}.
#[local] Abbreviation after_start := (after_start (K:=K) (E:=K * V) fst).
#[local] Abbreviation before_end := (before_end (K:=K) (E:=K * V) fst).

Lemma map_range_start_split (b : Bound Q) m :
  sorted m →
  ∃ l1 l2, m = l1 ++ l2 ∧ range_index_start m b = ret (length l1) ∧
    Forall (λ e, ¬ after_start b e) l1 ∧ Forall (after_start b) l2.
Proof. apply (SortedVec.range_start_split fst). Qed.

Lemma map_range_end_split (b : Bound Q) m :
  sorted m →
  ∃ l1 l2, m = l1 ++ l2 ∧ range_index_end m b = ret (length l1) ∧
    Forall (before_end b) l1 ∧ Forall (λ e, ¬ before_end b e) l2.
Proof. apply (SortedVec.range_end_split fst). Qed.

(** A range yields exactly the entries within its bounds, in order; it panics exactly
    when some stored entry is neither after the start nor before the end. *)
Lemma map_range_spec (lo hi : Bound Q) m :
  sorted m →
  range m lo hi =
    if decide (Exists (λ e, ¬ after_start lo e ∧ ¬ before_end hi e) m) then panic
    else ret (filter (in_range fst lo hi) m).
Proof. apply (SortedVec.range_spec fst). Qed.
End ranges.

(** ** Bulk insertion *)

Section extend_theory.
Context `{Itertools}.

(** A bulk insertion of several entries is the merge of the sorted input. *)
Lemma extend_with_vec_merge self (new_ : svm) :
  length new_ ≠ 1 → sorted self →
  ∃ m', extend_with_vec self new_ = ret m' ∧ sorted m' ∧
    ∀ Q (OQ : Ord Q) (B : Borrow K Q) (q : Q), hits q m' = merged_hits fst q self new_.
Proof.
  intros Hlen Hs. destruct new_ as [|[k1 v1] [|e2 new_]]; [by exists self|done|].
  exact (extend_many_spec fst self ((k1, v1) :: e2 :: new_) Hs).
Qed.

(** The value a bulk insertion leaves under [q]: the last one given, else the old one. *)
Definition extended_value `{Ord Q, !Borrow K Q} (q : Q) self (new_ : svm) : option V :=
  match last (hits q new_) with Some e => Some e.2 | None => snd <$> find_entry q self end.

Lemma map_extend_spec self (new_ : svm) :
  sorted self →
  ∃ m', extend_with_vec self new_ = ret m' ∧ sorted m' ∧
    ∀ Q (OQ : Ord Q) (B : Borrow K Q) (q : Q), snd <$> find_entry q m' = extended_value q self new_.
Proof.
  intros Hs. destruct (decide (length new_ = 1)) as [Hlen|Hlen].
  - destruct new_ as [|[k v] [|]]; [done| |done].
    destruct (map_insert_spec k v self Hs) as (m'&Hi&Hs'&Hq). simpl. rewrite Hi. simpl.
    eexists. split_and!; [done..|]. intros Q OQ B q. rewrite Hq. unfold extended_value.
    destruct (decide (ord_eq (borrow k) q)) as [Hkq|Hkq].
    + by rewrite hits_cons_eq.
    + by rewrite hits_cons_ne.
  - destruct (extend_with_vec_merge self new_ Hlen Hs) as (m'&->&Hs'&Hq).
    eexists. split_and!; [done..|]. intros Q OQ B q. unfold find_entry at 1, extended_value. rewrite Hq.
    unfold merged_hits. by destruct (last (hits q new_)).
Qed.

Lemma insert_all_correct self (entries : svm) :
  sorted self →
  ∃ m', sorted_vector_map_from self entries = ret m' ∧ sorted m' ∧
    ∀ Q (OQ : Ord Q) (B : Borrow K Q) (q : Q), snd <$> find_entry q m' = extended_value q self entries.
Proof.
  revert self. induction entries as [|[k v] entries IH]; intros self Hs; [by exists self|].
  destruct (map_insert_spec k v self Hs) as (m1&Hi&Hs1&Hq1).
  destruct (IH m1 Hs1) as (m2&Hm2&Hs2&Hq2). simpl. rewrite Hi. simpl.
  exists m2. split_and!; [done..|]. intros Q OQ B q. rewrite Hq2. unfold extended_value.
  rewrite Hq1. destruct (decide (ord_eq (borrow k) q)) as [Hkq|Hkq].
  - rewrite (hits_cons_eq fst q (k, v)) by done. rewrite last_cons. by destruct (last (hits q entries)).
  - by rewrite hits_cons_ne.
Qed.

(** Two sorted vectors that hold the same values under the same keys. *)
Lemma same_values_entries (m1 m2 : svm) :
  sorted m1 → sorted m2 → (∀ k : K, snd <$> find_entry k m1 = snd <$> find_entry k m2) →
  Forall2 (λ e1 e2, ord_eq e1.1 e2.1 ∧ e1.2 = e2.2) m1 m2.
Proof.
  revert m2. induction m1 as [|e1 m1 IH]; intros m2 Hs1 Hs2 Heq.
  { destruct m2 as [|e2 m2]; [constructor|]. specialize (Heq e2.1). unfold find_entry in Heq.
    by rewrite (hits_cons_eq fst e2.1 e2) in Heq by (unfold ord_eq; apply cmp_refl). }
  destruct m2 as [|e2 m2].
  { specialize (Heq e1.1). unfold find_entry in Heq. by rewrite (hits_cons_eq fst e1.1 e1) in Heq by (unfold ord_eq; apply cmp_refl). }
  pose proof Hs1 as [Hs1' H1]%sorted_cons. pose proof Hs2 as [Hs2' H2]%sorted_cons.
  assert (∀ (e : K * V) l k, (∀ y, y ∈ l → key_lt fst e y) → ord_lt k e.1 → find_entry k (e :: l) = None) as Hbelow.
  { intros e l k Hl Hk. unfold find_entry. rewrite (hits_none fst k); [done|]. intros x Hx Hxk. simpl in Hxk.
    apply elem_of_cons in Hx as [->|Hx]; [by apply ord_not_lt_eq in Hk; apply Hk; symmetry|].
    apply Hl in Hx. apply (ord_lt_irrefl k). etrans; [exact Hk|]. unfold key_lt in Hx. by rewrite (Hxk : ord_eq x.1 k) in Hx. }
  assert (ord_eq e1.1 e2.1) as He.
  { destruct (cmp e1.1 e2.1) eqn:Hc; [done|exfalso|exfalso].
    - specialize (Heq e1.1). rewrite (Hbelow e2 m2) in Heq by done. unfold find_entry in Heq.
      by rewrite (hits_cons_eq fst e1.1 e1) in Heq by (unfold ord_eq; apply cmp_refl).
    - apply cmp_gt in Hc. specialize (Heq e2.1). rewrite (Hbelow e1 m1) in Heq by done. unfold find_entry in Heq.
      by rewrite (hits_cons_eq fst e2.1 e2) in Heq by (unfold ord_eq; apply cmp_refl). }
  constructor.
  - split; [done|]. specialize (Heq e1.1). unfold find_entry in Heq. rewrite (hits_cons_eq fst e1.1 e1) in Heq by (unfold ord_eq; apply cmp_refl).
    rewrite (hits_cons_eq fst e1.1 e2) in Heq by (symmetry; exact He). by injection Heq.
  - apply IH; [done..|]. intros k. specialize (Heq k). unfold find_entry in *.
    destruct (decide (ord_eq e1.1 k)) as [Hk|Hk].
    + rewrite (hits_above fst k e1 m1), (hits_above fst k e2 m2); [done|done|by etrans; [symmetry; exact He|]|done..].
    + rewrite (hits_cons_ne fst k e1), (hits_cons_ne fst k e2) in Heq; [done| |done]. intros Hk2. apply Hk. by etrans; [exact He|].
Qed.

(** C9: bulk insertion is insertion one by one, up to which of several equal keys is stored: neither
    panics, both vectors are sorted, and position by position their keys are equal and their values
    are the same, so that they are the same vector where equal keys are identical. *)
Theorem extend_is_insert_all self (new_ : svm) :
  sorted self →
  ∃ m1 m2, extend_with_vec self new_ = ret m1 ∧ sorted_vector_map_from self new_ = ret m2 ∧ sorted m1 ∧ sorted m2 ∧
    Forall2 (λ e1 e2, ord_eq e1.1 e2.1 ∧ e1.2 = e2.2) m1 m2 ∧ ((∀ x y : K, ord_eq x y → x = y) → m1 = m2).
Proof.
  intros Hs.
  destruct (map_extend_spec self new_ Hs) as (m1&->&Hs1&Hq1).
  destruct (insert_all_correct self new_ Hs) as (m2&->&Hs2&Hq2). exists m1, m2.
  assert (Forall2 (λ e1 e2 : K * V, ord_eq e1.1 e2.1 ∧ e1.2 = e2.2) m1 m2) as Hsame.
  { apply same_values_entries; [done..|]. intros k. by rewrite (Hq1 K _ _ k), (Hq2 K _ _ k). }
  split_and!; [done..|]. intros HK. clear -Hsame HK.
  induction Hsame as [|[k1 v1] [k2 v2] m1 m2 [Hk%HK Hv] _ IH]; [done|]. simpl in *. by subst.
Qed.

(** [from_iter] never panics and collects a sorted map holding the last value given for
    each key. *)
Theorem map_from_iter_correct (iter : svm) :
  ∃ m', from_iter iter = ret m' ∧ sorted m' ∧
    ∀ Q (OQ : Ord Q) (B : Borrow K Q) (q : Q), snd <$> find_entry q m' = snd <$> last (hits q iter).
Proof.
  destruct (map_extend_spec [] iter) as (m'&Hm&Hs&Hq); [constructor|].
  exists m'. split_and!; [done..|]. intros Q OQ B q. rewrite Hq. unfold extended_value.
  by destruct (last (hits q iter)).
Qed.
End extend_theory.

Lemma map_append_spec self other :
  sorted self → sorted other →
  ∃ m', append self other = (m', []) ∧ sorted m' ∧
    ∀ Q (OQ : Ord Q) (B : Borrow K Q) (q : Q), find_entry q m' =
      match find_entry q other with Some e => Some e | None => find_entry q self end.
Proof.
  intros Hs Ho. unfold append. destruct other as [|e other]; [by exists self|].
  destruct self as [|e' self].
  { eexists. split_and!; [done..|]. intros Q OQ B q. by destruct (find_entry q (e :: other)). }
  cbn [is_empty]. destruct (merge_spec fst (e' :: self) (e :: other) Hs) as (Hms&_&Hmq); [by apply sorted_weaken|].
  eexists. split_and!; [done..|]. intros Q OQ B q. unfold find_entry at 1. rewrite Hmq. unfold merged_hits.
  rewrite (find_entry_hits q (e :: other)) by done. by destruct (find_entry q (e :: other)).
Qed.

(** ** In-place updates *)

(** Writing through a reference into a sorted map. *)
Lemma assign_correct (l1 l2 : svm) e v k :
  sorted (l1 ++ e :: l2) → ord_eq e.1 k →
  ∃ m', assign {| ref_map := l1 ++ e :: l2; ref_index := length l1 |} v = ret m' ∧ sorted m' ∧
    ∀ Q (OQ : Ord Q) (B : Borrow K Q) (q : Q), find_entry q m' =
      if decide (ord_eq (borrow k) q) then Some (e.1, v) else find_entry q (l1 ++ e :: l2).
Proof.
  intros Hs He. unfold assign. simpl. rewrite vec_index_middle. simpl. rewrite vec_set_middle.
  eexists. split_and!; [done|by apply (map_sorted_middle _ _ e)|]. intros Q OQ B q. by apply find_entry_set.
Qed.

(** [get_mut] designates the value of the key: reading it is [get], writing it is [insert]. *)
Theorem get_mut_correct k m :
  sorted m →
  ∃ o, get_mut m k = ret o ∧
    match o with
    | None => find_entry k m = None
    | Some p => ∃ e, find_entry k m = Some e ∧ deref p = ret e.2 ∧
        ∀ v, ∃ m', assign p v = ret m' ∧ insert m k v = ret (Some e.2, m')
    end.
Proof.
  intros Hs. unfold get_mut, borrow_mut.
  destruct (map_find_index_split k m Hs) as [(l1&e&l2&->&->&Hf&Hb&He&Ha)|(l1&l2&->&->&Hf&Hb&Ha)]; simpl; [|by eexists].
  rewrite vec_index_middle. simpl. eexists. split; [done|]. exists e.
  split_and!; [done|by unfold deref; simpl; rewrite vec_index_middle|]. intros v.
  destruct (assign_correct l1 l2 e v k Hs He) as (m1&Hm1&Hs1&Hq1).
  destruct (map_insert_spec k v (l1 ++ e :: l2) Hs) as (m2&Hm2&Hs2&Hq2).
  exists m1. split; [done|]. rewrite Hm2, Hf. do 2 f_equal.
  apply find_entry_ext; [done..|]. intros k'. rewrite Hq1, Hq2, Hf. done.
Qed.

(** The mutable range visits the places of the entries the range yields. *)
Theorem range_mut_correct `{Ord Q, !Borrow K Q} (lo hi : Bound Q) m :
  sorted m →
  match range m lo hi, range_mut m lo hi with
  | ret es, ret ps => Forall2 (λ e p, ref_map p = m ∧ m !! ref_index p = Some e) es ps
  | panic, panic => True
  | _, _ => False
  end.
Proof.
  intros Hs. unfold range, range_mut.
  destruct (map_range_start_split lo m Hs) as (l1&l2&_&->&_).
  destruct (map_range_end_split hi m Hs) as (r1&r2&Hm&->&_). simpl.
  case_decide; [done|]. unfold vec_slice. rewrite decide_True by (rewrite Hm, length_app; lia). simpl.
  assert (length r1 ≤ length m) as Hr by (rewrite Hm, length_app; lia).
  apply Forall2_same_length_lookup. split.
  - rewrite length_fmap, length_seq, length_take, length_drop. lia.
  - intros i e p He Hp. rewrite list_lookup_fmap in Hp.
    destruct (seq _ _ !! i) as [j|] eqn:Hj; simplify_eq/=. apply lookup_seq in Hj as [-> ?].
    apply lookup_take_Some in He as [He _]. by rewrite lookup_drop in He.
Qed.

Lemma map_retain_sublist {St} (f : St → K → V → bool * V * St) st m :
  fst <$> (retain f st m).1 `sublist_of` fst <$> m.
Proof.
  revert st. induction m as [|[k v] m IH]; intros st; simpl; [done|].
  destruct (f st k v) as [[[] v'] st1]; specialize (IH st1); destruct (retain f st1 m) as [rest st2];
    simpl in *; by constructor.
Qed.

Lemma sorted_fmap_fst m : sorted m ↔ StronglySorted ord_lt (fst <$> m).
Proof.
  induction m as [|e m IH]; simpl; [split; constructor|]. rewrite sorted_cons. split.
  - intros [Hs He]. constructor; [by apply IH|]. apply Forall_fmap, Forall_forall. apply He.
  - intros Hs. inversion Hs as [|?? Hs' Hf]; subst. split; [by apply IH|].
    rewrite Forall_fmap, Forall_forall in Hf. done.
Qed.

(** [retain] keeps the map sorted; with a stateless predicate it keeps the chosen
    entries with their rewritten values. *)
Lemma map_retain_spec {St} (f : St → K → V → bool * V * St) st m :
  sorted m →
  sorted (retain f st m).1 ∧
  ∀ g : K → V → bool * V, (∀ st k v, f st k v = (g k v, st)) →
    (retain f st m).1 = omap (λ '(k, v), let '(keep, v') := g k v in if keep : bool then Some (k, v') else None) m.
Proof.
  intros Hs. split.
  - apply sorted_fmap_fst. eapply StronglySorted_sublist; [apply map_retain_sublist|by apply sorted_fmap_fst].
  - intros g Hg. revert st. clear Hs. induction m as [|[k v] m IH]; intros st; simpl; [done|].
    rewrite Hg. specialize (IH st). destruct (g k v) as [keep v'].
    destruct (retain f st m) as [rest st2]. simpl in *. subst rest. by destruct keep.
Qed.

(** ** The entry API *)

Lemma entry_cases k m :
  sorted m →
  (∃ l1 e l2, m = l1 ++ e :: l2 ∧ find_entry k m = Some e ∧ ord_eq e.1 k ∧
     entry m k = ret (Occupied {| oe_map := m; oe_index := length l1 |})) ∨
  (∃ l1 l2, m = l1 ++ l2 ∧ find_entry k m = None ∧ Forall (below fst k) l1 ∧ Forall (above fst k) l2 ∧
     entry m k = ret (Vacant {| ve_key := k; ve_map := m; ve_index := length l1 |})).
Proof.
  intros Hs. unfold entry.
  destruct (map_find_index_split k m Hs) as [(l1&e&l2&->&->&Hf&Hb&He&Ha)|(l1&l2&->&->&Hf&Hb&Ha)]; simpl.
  - left. by exists l1, e, l2.
  - right. by exists l1, l2.
Qed.

(** Inserting through a vacant entry is [insert]. *)
Lemma vacant_insert_correct k v (l1 l2 : svm) :
  sorted (l1 ++ l2) → Forall (below fst k) l1 → Forall (above fst k) l2 →
  VacantEntry_insert {| ve_key := k; ve_map := l1 ++ l2; ve_index := length l1 |} v =
    ret {| ref_map := l1 ++ (k, v) :: l2; ref_index := length l1 |} ∧
  insert (l1 ++ l2) k v = ret (None, l1 ++ (k, v) :: l2).
Proof.
  intros Hs Hb Ha. split.
  - unfold VacantEntry_insert, borrow_mut. simpl. rewrite vec_insert_middle. simpl. by rewrite vec_index_middle.
  - destruct (map_insert_spec k v _ Hs) as (m'&->&Hs'&Hq').
    assert (find_entry k (l1 ++ l2) = None) as Hn by (unfold find_entry; by rewrite hits_split).
    rewrite Hn in *. do 2 f_equal. apply find_entry_ext; [done|by apply map_sorted_insert_middle|].
    intros k'. rewrite Hq'. by rewrite find_entry_put.
Qed.

(** [entry(k).and_modify(f).or_insert(d)] leaves the map that inserting the combined
    value leaves, and designates that value. *)
Lemma upsert_spec k (f : V → V) d m :
  sorted m →
  let v := match find_entry k m with Some e => f e.2 | None => d end in
  ∃ e e' r, entry m k = ret e ∧ and_modify e f = ret e' ∧ or_insert e' d = ret r ∧
    deref r = ret v ∧ insert m k v = ret (snd <$> find_entry k m, ref_map r).
Proof.
  intros Hs v. unfold v. clear v.
  destruct (entry_cases k m Hs) as [(l1&e&l2&->&Hf&He&->)|(l1&l2&->&Hf&Hb&Ha&->)]; rewrite Hf; simpl.
  - destruct (assign_correct l1 l2 e (f e.2) k Hs He) as (m1&Hm1&Hs1&Hq1).
    assert (m1 = l1 ++ (e.1, f e.2) :: l2) as ->.
    { unfold assign in Hm1. simpl in Hm1. rewrite vec_index_middle in Hm1. simpl in Hm1.
      rewrite vec_set_middle in Hm1. by injection Hm1. }
    exists (Occupied {| oe_map := l1 ++ e :: l2; oe_index := length l1 |}),
      (Occupied {| oe_map := l1 ++ (e.1, f e.2) :: l2; oe_index := length l1 |}),
      {| ref_map := l1 ++ (e.1, f e.2) :: l2; ref_index := length l1 |}.
    unfold and_modify, or_insert, OccupiedEntry_get_mut, OccupiedEntry_into_mut, borrow_mut, deref. simpl.
    rewrite !vec_index_middle. simpl. rewrite vec_index_middle. simpl. rewrite Hm1. split_and!; [done..|].
    destruct (map_insert_spec k (f e.2) (l1 ++ e :: l2) Hs) as (m2&->&Hs2&Hq2). rewrite Hf. do 2 f_equal.
    apply find_entry_ext; [done..|]. intros k'. by rewrite Hq1, Hq2, Hf.
  - destruct (vacant_insert_correct k d l1 l2 Hs Hb Ha) as [Hv Hi].
    eexists _, _, _. split_and!; [done..|exact Hv| |exact Hi].
    unfold deref. simpl. by rewrite vec_index_middle.
Qed.

(** [or_insert], [or_insert_with] and [or_default] agree, and leave an occupied map alone. *)
Theorem entry_or_insert_correct k d m :
  sorted m →
  ∃ e r, entry m k = ret e ∧ or_insert e d = ret r ∧ or_insert_with e (λ _, d) = ret r ∧ or_default d e = ret r ∧
    Entry_key e = ret (from_option fst k (find_entry k m)) ∧
    deref r = ret (from_option snd d (find_entry k m)) ∧
    match find_entry k m with Some _ => ref_map r = m | None => insert m k d = ret (None, ref_map r) end.
Proof.
  intros Hs. destruct (entry_cases k m Hs) as [(l1&e&l2&->&Hf&He&->)|(l1&l2&->&Hf&Hb&Ha&->)]; rewrite Hf.
  - exists (Occupied {| oe_map := l1 ++ e :: l2; oe_index := length l1 |}),
      {| ref_map := l1 ++ e :: l2; ref_index := length l1 |}. simpl.
    unfold OccupiedEntry_into_mut, OccupiedEntry_key, borrow_mut, deref. simpl. by rewrite !vec_index_middle.
  - destruct (vacant_insert_correct k d l1 l2 Hs Hb Ha) as [Hv Hi].
    eexists _, _. split_and!; [done|exact Hv|exact Hv|exact Hv|done| |exact Hi].
    unfold deref. simpl. by rewrite vec_index_middle.
Qed.

(** Removing or replacing through an occupied entry is [remove_entry] or [insert]. *)
Theorem occupied_entry_correct k v m o :
  sorted m → entry m k = ret (Occupied o) →
  ∃ e m' m'', find_entry k m = Some e ∧
    OccupiedEntry_key o = ret e.1 ∧ OccupiedEntry_get o = ret e.2 ∧
    OccupiedEntry_remove_entry o = ret (e, m') ∧ OccupiedEntry_remove o = ret (e.2, m') ∧
    remove_entry m k = ret (Some e, m') ∧
    OccupiedEntry_insert o v = ret (e.2, {| oe_map := m''; oe_index := oe_index o |}) ∧
    insert m k v = ret (Some e.2, m'').
Proof.
  intros Hs Ho. destruct (entry_cases k m Hs) as [(l1&e&l2&->&Hf&He&Heq)|(l1&l2&->&Hf&Hb&Ha&Heq)];
    rewrite Heq in Ho; simplify_eq/=.
  unfold OccupiedEntry_key, OccupiedEntry_get, OccupiedEntry_remove_entry, OccupiedEntry_remove, OccupiedEntry_insert.
  simpl. rewrite vec_index_middle, vec_remove_middle. simpl. rewrite vec_set_middle.
  exists e, (l1 ++ l2), (l1 ++ (e.1, v) :: l2). split_and!; [done..| |done|].
  - destruct (remove_spec k _ Hs) as (m'&_&->&Hs'&Hq'). rewrite Hf. do 2 f_equal.
    apply find_entry_ext; [done|by eapply map_sorted_delete_middle|]. intros k'. rewrite Hq'.
    rewrite find_entry_middle by done.
    assert (find_entry k (l1 ++ l2) = None) as Hn.
    { unfold entry in Heq. destruct (map_find_index_split k _ Hs) as [(a1&x&a2&Hx&Hfx&Hfe&Hb&Hxk&Ha)|(a1&a2&_&Hfx&Hfe&_)];
        [|congruence]. rewrite Hfx in Heq. simpl in Heq. injection Heq as Hlen.
      apply app_inj_1 in Hx as [Ha1 Ha2]; [|done]. simplify_eq. unfold find_entry. by rewrite hits_split. }
    assert (ord_eq (borrow e.1) k' ↔ ord_eq k k') as Hk by (simpl; by rewrite He).
    case_decide; [|by case_decide; [tauto|]]. rewrite <-Hn. by apply find_entry_cong.
  - destruct (map_insert_spec k v _ Hs) as (m2&->&Hs2&Hq2). rewrite Hf. do 2 f_equal.
    apply find_entry_ext; [done|by apply (map_sorted_middle _ _ e)|]. intros k'. rewrite Hq2, Hf.
    by rewrite (find_entry_set k' l1 l2 e k v).
Qed.

(** The size hints of the merging iterator bound the number of entries it yields. *)
Theorem merge_size_hint_sound (left right : svm) :
  hint_sound (MergeIter_size_hint (left, right)) (length (MergeIter_collect left right)) ∧
  hint_sound (DedupIter_size_hint right) (length (DedupIter_collect right)).
Proof. split; [apply (merge_hint_sound fst (left, right))|apply dedup_hint_sound]. Qed.

(** ** Bulk insertion and iteration *)

Section bulk.
Context `{Itertools}.

(** [extend] (hence [extend_with_vec]) keeps the invariant and leaves, under every
    borrowed form of a key, the last value given for it, or else the old one. *)
Theorem extend_correct self (new_ : svm) :
  sorted self →
  ∃ m', extend self new_ = ret m' ∧ sorted m' ∧
    ∀ Q (OQ : Ord Q) (B : Borrow K Q) (q : Q), snd <$> find_entry q m' = extended_value q self new_.
Proof. apply map_extend_spec. Qed.
End bulk.

(** ** Iteration from both ends *)

(** Runs [next] ([true]) and [next_back] ([false]) calls, collecting what each end yields. *)
Fixpoint drive (calls : list bool) (s : svm) : svm * svm * svm :=
  match calls with
  | [] => ([], s, [])
  | c :: calls =>
      let '(o, s') := if c : bool then Iter_next s else Iter_next_back s in
      let '(fronts, rest, backs) := drive calls s' in
      if c then (option_list o ++ fronts, rest, backs) else (fronts, rest, option_list o ++ backs)
  end.

Lemma back_next_spec {A} (l : list A) : l = (back_next l).2 ++ option_list (back_next l).1.
Proof.
  unfold back_next. destruct (last l) as [x|] eqn:Hl; simpl; [|by rewrite app_nil_r].
  apply last_Some in Hl as [l' ->]. rewrite length_app. simpl.
  replace (length l' + 1 - 1) with (length l') by lia. by rewrite take_app_length.
Qed.

(** However [next] and [next_back] are interleaved, the two ends together yield every
    entry once and in key order, and [size_hint] and [len] tell how many are left. *)
Theorem iter_double_ended (calls : list bool) m :
  let '(fronts, rest, backs) := drive calls (iter m) in
  m = fronts ++ rest ++ reverse backs ∧
  Iter_size_hint rest = (length m - length fronts - length backs, Some (Iter_len rest)).
Proof.
  unfold iter. assert (let '(fronts, rest, backs) := drive calls m in m = fronts ++ rest ++ reverse backs) as Hd.
  { revert m. induction calls as [|c calls IH]; intros m; simpl; [by rewrite app_nil_r|].
    pose proof (back_next_spec m) as Hb. unfold Iter_next, Iter_next_back in *.
    destruct c; [destruct m as [|e m]; simpl|].
    - specialize (IH []). by destruct (drive calls []) as [[? ?] ?].
    - specialize (IH m). destruct (drive calls m) as [[? ?] ?]. simpl. by rewrite IH at 1.
    - destruct (back_next m) as [o m']. simpl in Hb. specialize (IH m').
      destruct (drive calls m') as [[? ?] ?]. rewrite Hb, IH at 1. destruct o; simpl.
      + rewrite reverse_cons. by rewrite <-!app_assoc.
      + by rewrite app_nil_r. }
  destruct (drive calls m) as [[f r] b]. split; [done|]. unfold Iter_size_hint, list_size_hint, Iter_len.
  rewrite Hd, !length_app, length_reverse. f_equal. lia.
Qed.

(** [append] takes the entries of [other] over those of [self], and empties [other]. *)
Theorem append_correct self other :
  sorted self → sorted other →
  ∃ m', append self other = (m', []) ∧ sorted m' ∧
    ∀ Q (OQ : Ord Q) (B : Borrow K Q) (q : Q), find_entry q m' =
      match find_entry q other with Some e => Some e | None => find_entry q self end.
Proof. apply map_append_spec. Qed.

(** [split_off] cuts the vector at the key: what stays is below it, what is returned is not. *)
Theorem split_off_correct `{Ord Q, !Borrow K Q} (q : Q) m :
  sorted m →
  ∃ m1 m2, split_off m q = ret (m1, m2) ∧ m = m1 ++ m2 ∧ sorted m1 ∧ sorted m2 ∧
    (∀ e, e ∈ m1 → ord_lt (borrow e.1) q) ∧ (∀ e, e ∈ m2 → ¬ ord_lt (borrow e.1) q).
Proof. apply map_split_off_spec. Qed.

(** [range] yields exactly the entries within its bounds, in order; it panics exactly
    when some stored entry is neither after the start bound nor before the end bound. *)
Theorem map_range_correct `{Ord Q, !Borrow K Q} (lo hi : Bound Q) m :
  sorted m →
  range m lo hi =
    if decide (Exists (λ e, ¬ after_start fst lo e ∧ ¬ before_end fst hi e) m) then panic
    else ret (filter (in_range fst lo hi) m).
Proof. apply map_range_spec. Qed.
End theory.

(** ** Concrete runs *)
Section witnesses.
#[local] Existing Instance zip_itertools.
#[local] Abbreviation m3 := [(1, true); (4, false); (9, true)].

Ltac sorted_now := apply (sorted_check_sound fst); vm_compute; reflexivity.

Lemma extend_correct_witness :
  ∃ m', extend m3 [(4, true); (2, false); (2, true)] = ret m' ∧
    snd <$> find_entry 2 m' = extended_value 2 m3 [(4, true); (2, false); (2, true)].
Proof.
  destruct (extend_correct m3 [(4, true); (2, false); (2, true)]) as (m'&Hm&_&Hq); [sorted_now|].
  exists m'. split; [exact Hm|]. apply (Hq nat _ _).
Defined.

Lemma extend_is_insert_all_witness :
  extend_with_vec m3 [(4, true); (2, false)] = sorted_vector_map_from m3 [(4, true); (2, false)].
Proof.
  destruct (extend_is_insert_all m3 [(4, true); (2, false)]) as (m1&m2&H1&H2&_&_&_&Heq); [sorted_now|].
  rewrite H1, H2. f_equal. apply Heq. intros x y Hxy. by apply Nat.compare_eq_iff.
Defined.

Lemma append_correct_witness : ∃ m', append m3 [(4, true); (5, true)] = (m', []).
Proof. destruct (append_correct m3 [(4, true); (5, true)]) as (m'&Hm&_); [sorted_now..|]. by exists m'. Defined.

Lemma split_off_correct_witness : ∃ m1 m2, split_off m3 4 = ret (m1, m2) ∧ m3 = m1 ++ m2.
Proof. destruct (split_off_correct 4 m3) as (m1&m2&H1&H2&_); [sorted_now|]. by exists m1, m2. Defined.

Lemma map_range_correct_witness :
  range m3 (Included 5) (Excluded 3) = panic ∧ range [(1, true); (9, true)] (Included 5) (Excluded 3) = ret [] ∧
  range m3 (Included 2) Unbounded = ret (filter (in_range fst (Included 2) Unbounded) m3).
Proof.
  split; [vm_compute; reflexivity|]. split; [vm_compute; reflexivity|].
  rewrite (map_range_correct (Included 2) Unbounded m3); [reflexivity|sorted_now].
Defined.

Lemma range_mut_correct_witness :
  match range m3 (Included 2) Unbounded, range_mut m3 (Included 2) Unbounded with
  | ret es, ret ps => Forall2 (λ e p, ref_map p = m3 ∧ m3 !! ref_index p = Some e) es ps
  | panic, panic => True
  | _, _ => False
  end.
Proof. apply (range_mut_correct (Included 2) Unbounded m3). sorted_now. Defined.

Lemma get_mut_correct_witness : ∃ o, get_mut m3 4 = ret o.
Proof. destruct (get_mut_correct 4 m3) as (o&Ho&_); [sorted_now|]. by exists o. Defined.

Lemma entry_or_insert_correct_witness : ∃ e r, entry m3 5 = ret e ∧ or_insert e true = ret r.
Proof. destruct (entry_or_insert_correct 5 true m3) as (e&r&He&Hr&_); [sorted_now|]. by exists e, r. Defined.

Lemma occupied_entry_correct_witness :
  ∃ e, find_entry 4 m3 = Some e ∧ OccupiedEntry_key {| oe_map := m3; oe_index := 1 |} = ret e.1.
Proof.
  destruct (occupied_entry_correct 4 true m3 {| oe_map := m3; oe_index := 1 |}) as (e&_&_&Hf&Hk&_);
    [sorted_now|vm_compute; reflexivity|]. by exists e.
Defined.
End witnesses.
End SortedVectorMap.
