(* ===== verification/SortedVectorSet.v ===== *)
(** [sorted_vector_map::set]: the ordered set on a sorted vector
    (src/shed/sorted_vector_map/src/set.rs).  A set is its vector of elements; an
    operation taking [&mut self] returns the new vector.  Instance of the theory of
    SortedVec.v at the identity key; elements that compare equal need not be
    identical, so the specifications say which of them is kept. *)
From S2P Require Import Prelude RustStd SortedVec.

Module SortedVectorSet.
Section set.
Context {T : Type} `{Ord T}.

#[local] Abbreviation SortedVectorSet := (list T).
#[local] Abbreviation key := (@id T).
Implicit Types (self other : SortedVectorSet) (value : T).

Definition new : SortedVectorSet := [].
Definition with_capacity (capacity : nat) : SortedVectorSet := [].
Definition into_inner self : list T := self.
Definition clear self : SortedVectorSet := [].
Definition is_empty self : bool := match self with [] => true | _ => false end.
Definition len self : nat := length self.
Definition iter self : list T := self.
Definition first self : option T := head self.
Definition last self : option T := list.last self.
Definition pop_last self : option T * SortedVectorSet :=
  match list.last self with Some e => (Some e, take (length self - 1) self) | None => (None, self) end.

Section lookup.
Context {Q : Type} `{Ord Q, !Borrow T Q}.
Implicit Types q : Q.

Definition find_index self q : exec (result nat nat) := SortedVec.find_index key self q.

Definition contains self q : exec bool := let! r := find_index self q in ret (is_ok r).

Definition get self q : exec (option T) :=
  let! r := find_index self q in
  match ok r with
  | Some index => let! e := vec_index self index in ret (Some e)
  | None => ret None
  end.

Definition range_index_start self (b : Bound Q) : exec nat :=
  match b with
  | Unbounded => ret 0
  | Included q =>
      let! r := find_index self q in ret (match r with Ok index => index | Err index => index end)
  | Excluded q =>
      let! r := find_index self q in ret (match r with Ok index => index + 1 | Err index => index end)
  end.

Definition range_index_end self (b : Bound Q) : exec nat :=
  match b with
  | Unbounded => ret (length self)
  | Included q =>
      let! r := find_index self q in ret (match r with Ok index => index + 1 | Err index => index end)
  | Excluded q =>
      let! r := find_index self q in ret (match r with Ok index => index | Err index => index end)
  end.

Definition range self (start_bound end_bound : Bound Q) : exec (list T) :=
  let! start := range_index_start self start_bound in
  let! end_ := range_index_end self end_bound in
  if decide (end_ < start) then panic else vec_slice self start end_.

Definition take_ self q : exec (option T * SortedVectorSet) :=
  let! r := find_index self q in
  match r with
  | Ok index => let! '(e, self') := vec_remove index self in ret (Some e, self')
  | Err _ => ret (None, self)
  end.

Definition remove self q : exec (bool * SortedVectorSet) :=
  let! '(o, self') := take_ self q in ret (bool_decide (is_Some o), self').

Definition split_off self q : exec (SortedVectorSet * SortedVectorSet) :=
  let! r := find_index self q in
  let index := match r with Ok index => index | Err index => index end in
  vec_split_off index self.
End lookup.

(** ** Insertion *)

(** [len == 0 || self.0[len - 1] < value]. *)
Definition replace_at_end self value : exec bool :=
  let len := length self in
  if decide (len = 0) then ret true
  else let! e := vec_index self (len - 1) in ret (bool_decide (ord_lt e value)).

Definition replace self value : exec (option T * SortedVectorSet) :=
  let! push := replace_at_end self value in
  if push : bool then ret (None, self ++ [value])
  else
    let! r := find_index self value in
    match r with
    | Ok index => let! '(old, self') := vec_replace index value self in ret (Some old, self')
    | Err index => let! self' := vec_insert index value self in ret (None, self')
    end.

Definition insert self value : exec (bool * SortedVectorSet) :=
  let! '(o, self') := replace self value in ret (bool_decide (o = None), self').

(** [retain]: the predicate may have state. *)
Fixpoint retain {St : Type} (f : St → T → bool * St) (st : St) self : SortedVectorSet * St :=
  match self with
  | [] => ([], st)
  | x :: self' =>
      let '(keep, st1) := f st x in
      let '(rest, st2) := retain f st1 self' in
      (if keep : bool then x :: rest else rest, st2)
  end.

Definition DedupIter_next (iter : list T) := dedup_next key iter.
Definition DedupIter_size_hint (iter : list T) := dedup_size_hint iter.
Definition DedupIter_collect (iter : list T) : list T := dedup key iter.
Definition MergeIter_next (iter : list T * list T) := merge_next key iter.
Definition MergeIter_size_hint (iter : list T * list T) := merge_size_hint iter.
Definition MergeIter_collect (left right : list T) : list T := merge key left right.

(** The new [self] and [other]. *)
Definition append self other : SortedVectorSet * SortedVectorSet :=
  if is_empty other then (self, other)
  else if is_empty self then (other, self)
  else (MergeIter_collect self other, new).

Section extend.
Context `{Itertools}.

Definition first_dup_index (l : list T) : option nat :=
  fst <$> list_find (λ p : T * T, ord_eq p.1 p.2) (tuple_windows l).

Definition extend_with_vec self (new_ : list T) : exec SortedVectorSet :=
  match new_ with
  | [] => ret self
  | [item] => let! '(_, self') := insert self item in ret self'
  | _ =>
      let new_ := sort_key key new_ in
      if is_empty self then
        match first_dup_index new_ with
        | Some first_dup_index =>
            let! '(new_, dups) := vec_split_off first_dup_index new_ in
            ret (new_ ++ DedupIter_collect dups)
        | None => ret new_
        end
      else
        let after_end :=
          match list.last self, head new_ with
          | Some self_last, Some new_first => bool_decide (ord_lt self_last new_first)
          | _, _ => false
          end in
        if after_end then
          match first_dup_index new_ with
          | Some first_dup_index =>
              let! '(new_, dups) := vec_split_off first_dup_index new_ in
              ret (self ++ new_ ++ DedupIter_collect dups)
          | None => ret (self ++ new_)
          end
        else ret (MergeIter_collect self new_)
  end.

Definition extend self (iter : list T) : exec SortedVectorSet := extend_with_vec self iter.
Definition from_iter (iter : list T) : exec SortedVectorSet := extend new iter.
End extend.

(** [From<BTreeSet>]: a [BTreeSet] iterates in order. *)
Definition from_btreeset (bset : list T) : SortedVectorSet := bset.

(** The [sorted_vector_set!] macro inserts its values one by one. *)
Fixpoint sorted_vector_set_from self (values : list T) : exec SortedVectorSet :=
  match values with
  | [] => ret self
  | value :: values => let! '(_, self') := insert self value in sorted_vector_set_from self' values
  end.
Definition sorted_vector_set (values : list T) : exec SortedVectorSet :=
  sorted_vector_set_from (with_capacity (length values)) values.

(** ** Set operations: iterators over two sets walked in step *)

(** [OperationInner]: what is left of both sides. *)
Definition OperationInner : Type := list T * list T.
Definition OperationInner_next (s : OperationInner) := op_next key s.
#[local] Abbreviation Inner := (op_iterator key).

Definition difference self other : OperationInner := (self, other).
Definition symmetric_difference self other : OperationInner := (self, other).
Definition intersection self other : OperationInner := (self, other).
Definition union self other : OperationInner := (self, other).

Definition Difference_item (p : option T * option T) : option T :=
  match p with (Some lft, None) => Some lft | _ => None end.
Definition SymmetricDifference_item (p : option T * option T) : option T :=
  match p with (Some lft, None) => Some lft | (None, Some rgt) => Some rgt | _ => None end.
Definition Intersection_item (p : option T * option T) : option T :=
  match p with (Some lft, Some _) => Some lft | _ => None end.
Definition Union_item (p : option T * option T) : option T :=
  match p with (_, Some rgt) => Some rgt | (Some lft, None) => Some lft | _ => None end.

Definition Difference_next (s : OperationInner) := for_return (H:=Inner) Difference_item s.
Definition SymmetricDifference_next (s : OperationInner) := for_return (H:=Inner) SymmetricDifference_item s.
Definition Intersection_next (s : OperationInner) := for_return (H:=Inner) Intersection_item s.
Definition Union_next (s : OperationInner) := for_return (H:=Inner) Union_item s.

Definition Difference_size_hint (s : OperationInner) : nat * option nat :=
  let left_hint := list_size_hint s.1 in
  let right_hint := list_size_hint s.2 in
  (match right_hint.2 with Some right_high => left_hint.1 - right_high | None => 0 end, left_hint.2).
Definition SymmetricDifference_size_hint (s : OperationInner) : nat * option nat :=
  let left_hint := list_size_hint s.1 in
  let right_hint := list_size_hint s.2 in
  (0, match left_hint.2, right_hint.2 with
      | Some left_high, Some right_high => checked_add left_high right_high | _, _ => None end).
Definition Intersection_size_hint (s : OperationInner) : nat * option nat :=
  let left_hint := list_size_hint s.1 in
  let right_hint := list_size_hint s.2 in
  (0, match left_hint.2, right_hint.2 with
      | Some left_high, Some right_high => Some (left_high `min` right_high) | _, _ => None end).
Definition Union_size_hint (s : OperationInner) : nat * option nat :=
  let left_hint := list_size_hint s.1 in
  let right_hint := list_size_hint s.2 in
  (left_hint.1 `max` right_hint.1,
   match left_hint.2, right_hint.2 with
   | Some left_high, Some right_high => checked_add left_high right_high | _, _ => None end).

(** Draining each of them. *)
Definition Difference_collect self other : list T :=
  collect (H:=for_iterator Inner Difference_item) (difference self other).
Definition SymmetricDifference_collect self other : list T :=
  collect (H:=for_iterator Inner SymmetricDifference_item) (symmetric_difference self other).
Definition Intersection_collect self other : list T :=
  collect (H:=for_iterator Inner Intersection_item) (intersection self other).
Definition Union_collect self other : list T :=
  collect (H:=for_iterator Inner Union_item) (union self other).

Definition is_disjoint self other : bool := is_none (Intersection_next (intersection self other)).1.
Definition is_subset self other : bool := is_none (Difference_next (difference other self)).1.
Definition is_superset self other : bool := is_subset other self.

Section operators.
Context `{Itertools}.
Definition bitand self rhs : exec SortedVectorSet := from_iter (Intersection_collect self rhs).
Definition sub self rhs : exec SortedVectorSet := from_iter (Difference_collect self rhs).
Definition bitxor self rhs : exec SortedVectorSet := from_iter (SymmetricDifference_collect self rhs).
Definition bitor self rhs : exec SortedVectorSet := from_iter (Union_collect self rhs).
End operators.
End set.

(** ** The abstract set: at most one representative per class of equal elements *)
Section theory.
Context {T : Type} `{Ord T}.
#[local] Abbreviation sorted := (sorted (E:=T) (@id T)).
#[local] Abbreviation hits := (hits (E:=T) (@id T)).
Implicit Types (self other l r s : list T) (x y value : T).

(** The element of a sorted vector that compares equal to [q]. *)
Definition find_value `{Ord Q, !Borrow T Q} (q : Q) s : option T := head (hits q s).

Lemma find_value_hits `{Ord Q, !Borrow T Q} (q : Q) s : sorted s → hits q s = option_list (find_value q s).
Proof. intros Hs. unfold find_value. by destruct (hits_sorted id q s Hs) as [->|[x ->]]. Qed.

Lemma find_value_Some `{Ord Q, !Borrow T Q} (q : Q) s x :
  sorted s → find_value q s = Some x ↔ x ∈ s ∧ ord_eq (borrow x) q.
Proof.
  intros Hs. transitivity (x ∈ hits q s).
  - rewrite find_value_hits by done. destruct (find_value q s); set_solver.
  - rewrite elem_of_hits. tauto.
Qed.

Lemma find_value_None `{Ord Q, !Borrow T Q} (q : Q) s :
  find_value q s = None ↔ ∀ x, x ∈ s → ¬ ord_eq (borrow x) q.
Proof.
  unfold find_value. rewrite head_None. split.
  - intros He x Hx Hq. assert (x ∈ hits q s) as Hh by by apply elem_of_hits. rewrite He in Hh. set_solver.
  - intros Hn. by apply hits_none.
Qed.

Lemma find_value_ext s s' : sorted s → sorted s' → (∀ x, find_value x s = find_value x s') → s = s'.
Proof. intros ?? Heq. apply (sorted_ext id); [done..|]. intros x. by rewrite !find_value_hits, Heq. Qed.

Lemma set_find_index_split `{Ord Q, !Borrow T Q} (q : Q) s :
  sorted s →
  (∃ l1 e l2, s = l1 ++ e :: l2 ∧ find_index s q = ret (Ok (length l1)) ∧
     find_value q s = Some e ∧ Forall (below id q) l1 ∧ ord_eq (borrow e) q ∧ Forall (above id q) l2) ∨
  (∃ l1 l2, s = l1 ++ l2 ∧ find_index s q = ret (Err (length l1)) ∧
     find_value q s = None ∧ Forall (below id q) l1 ∧ Forall (above id q) l2).
Proof.
  intros Hs. destruct (find_index_cases id q s Hs) as [(l1&e&l2&->&Hf&?&?&?)|(l1&l2&->&Hf&?&?)].
  - left. exists l1, e, l2. unfold find_value. by rewrite hits_middle.
  - right. exists l1, l2. unfold find_value. by rewrite hits_split.
Qed.

Lemma find_value_cong `{Ord Q, !Borrow T Q} (q1 q2 : Q) s : ord_eq q1 q2 → find_value q1 s = find_value q2 s.
Proof. intros Hq. unfold find_value, SortedVec.hits. f_equal. apply list_filter_iff. intros e. by rewrite Hq. Qed.

Lemma find_value_middle `{Ord Q, !Borrow T Q} (q : Q) l1 l2 e :
  sorted (l1 ++ e :: l2) →
  find_value q (l1 ++ e :: l2) = if decide (ord_eq (borrow e) q) then Some e else find_value q (l1 ++ l2).
Proof.
  intros Hs. case_decide as Hq.
  - apply find_value_Some; [done|]. set_solver.
  - unfold find_value. by rewrite !hits_app, hits_cons_ne.
Qed.

Lemma set_sorted_middle l1 l2 e e' : ord_eq e e' → sorted (l1 ++ e :: l2) → sorted (l1 ++ e' :: l2).
Proof.
  intros Heq (?&[Hs He]%sorted_cons&Hx)%sorted_app. apply sorted_app.
  split_and!; [done|apply sorted_cons; split; [done|]|].
  - intros y Hy. apply He in Hy. unfold key_lt in *. simpl in *. by rewrite <-Heq.
  - intros x y Hxl [->|Hy]%elem_of_cons; [|apply Hx; [done|by right]].
    unfold key_lt. simpl. rewrite <-Heq. apply (Hx x e); [done|by left].
Qed.

Lemma set_sorted_insert_middle l1 l2 x :
  sorted (l1 ++ l2) → Forall (below id x) l1 → Forall (above id x) l2 → sorted (l1 ++ x :: l2).
Proof.
  rewrite !sorted_app. intros (?&?&Hx) Hb Ha. rewrite Forall_forall in Hb, Ha.
  split_and!; [done|apply sorted_cons; split; [done|]|].
  - intros y Hy. by apply Ha, cmp_gt in Hy.
  - intros z y Hz [->|Hy]%elem_of_cons; [|by apply Hx]. by apply Hb in Hz.
Qed.

Lemma set_sorted_delete_middle l1 l2 e : sorted (l1 ++ e :: l2) → sorted (l1 ++ l2).
Proof. apply StronglySorted_sublist. apply sublist_app; [done|]. by constructor. Qed.

(** ** Single elements *)

Lemma set_get_spec `{Ord Q, !Borrow T Q} (q : Q) s :
  sorted s → get s q = ret (find_value q s) ∧ contains s q = ret (bool_decide (is_Some (find_value q s))).
Proof.
  intros Hs. unfold get, contains.
  destruct (set_find_index_split q s Hs) as [(l1&e&l2&->&->&->&_)|(l1&l2&->&->&->&_)]; simpl; [|done].
  by rewrite vec_index_middle.
Qed.

Lemma replace_at_end_spec x s : sorted s → replace_at_end s x = ret (bool_decide (Forall (below id x) s)).
Proof.
  intros Hs. unfold replace_at_end. cbv zeta. case_decide as Hz.
  { apply nil_length_inv in Hz as ->. rewrite bool_decide_true; [done|constructor]. }
  unfold vec_index. replace (length s - 1) with (pred (length s)) by lia. rewrite <-last_lookup.
  destruct (list.last s) as [z|] eqn:Hl; [|by apply last_None in Hl as ->]. simpl.
  f_equal. apply bool_decide_ext. apply last_Some in Hl as [s' ->]. split.
  - intros Hlt. apply sorted_app in Hs as (_&_&Hs). apply Forall_app. split; [|by repeat constructor].
    apply Forall_forall. intros y Hy. unfold below. simpl.
    eapply (cmp_lt_trans y z); [|done]. apply (Hs y z); [done|by left].
  - rewrite Forall_app, Forall_singleton. by intros [_ ?].
Qed.

(** [replace] stores the new element and returns the one it displaces. *)
Lemma replace_spec x s :
  sorted s →
  ∃ s', replace s x = ret (find_value x s, s') ∧ sorted s' ∧
    ∀ Q (OQ : Ord Q) (B : Borrow T Q) (q : Q),
      find_value q s' = if decide (ord_eq (borrow x) q) then Some x else find_value q s.
Proof.
  intros Hs. unfold replace. rewrite replace_at_end_spec by done. simpl.
  destruct (set_find_index_split x s Hs) as [(l1&e&l2&->&Hf&->&Hb&He&Ha)|(l1&l2&->&Hf&->&Hb&Ha)]; simpl.
  - rewrite bool_decide_false.
    2: { rewrite Forall_app, Forall_cons. intros (_&Hlt&_). unfold below, ord_eq in *; simpl in *. congruence. }
    rewrite Hf. simpl. unfold vec_replace. rewrite list_lookup_middle, vec_set_middle by done. simpl.
    assert (sorted (l1 ++ x :: l2)) as Hs' by (by eapply set_sorted_middle).
    eexists. split_and!; [done..|]. intros Q ?? q. rewrite !find_value_middle by done.
    assert (ord_eq (borrow (Q:=Q) e) (borrow x)) as Hex by (unfold ord_eq; by rewrite borrow_cmp).
    assert (ord_eq (borrow e) q ↔ ord_eq (borrow x) q) as Heq by (by rewrite Hex).
    repeat case_decide; tauto.
  - assert (sorted (l1 ++ x :: l2)) as Hs' by (by apply set_sorted_insert_middle).
    case_bool_decide as Hall; [destruct l2 as [|z l2]|].
    + rewrite app_nil_r in *. eexists. split_and!; [done..|]. intros Q ?? q.
      by rewrite find_value_middle, app_nil_r.
    + exfalso. apply Forall_app in Hall as [_ [Hlt _]%Forall_cons]. apply Forall_cons in Ha as [Ha _].
      unfold below, above in *. congruence.
    + rewrite Hf. simpl. rewrite vec_insert_middle. eexists. split_and!; [done..|].
      intros Q ?? q. by apply find_value_middle.
Qed.

Lemma take_spec `{Ord Q, !Borrow T Q} (q : Q) s :
  sorted s →
  ∃ s', take_ s q = ret (find_value q s, s') ∧ sorted s' ∧
    ∀ q' : Q, find_value q' s' = if decide (ord_eq q q') then None else find_value q' s.
Proof.
  intros Hs. unfold take_.
  destruct (set_find_index_split q s Hs) as [(l1&e&l2&->&->&->&Hb&He&Ha)|(l1&l2&->&->&Hf&Hb&Ha)]; simpl.
  - rewrite vec_remove_middle. simpl. eexists. split_and!; [done|by eapply set_sorted_delete_middle|].
    intros q'. rewrite find_value_middle by done. case_decide as Hq.
    + rewrite <-(find_value_cong q q') by done. unfold find_value. by rewrite hits_split.
    + rewrite decide_False; [done|]. intros Heq. apply Hq. by rewrite <-He.
  - rewrite Hf. eexists. split_and!; [done..|]. intros q'. case_decide as Hq; [|done].
    by rewrite <-(find_value_cong q q').
Qed.

Lemma set_split_off_spec `{Ord Q, !Borrow T Q} (q : Q) s :
  sorted s →
  ∃ s1 s2, split_off s q = ret (s1, s2) ∧ s = s1 ++ s2 ∧ sorted s1 ∧ sorted s2 ∧
    (∀ e, e ∈ s1 → ord_lt (borrow e) q) ∧ (∀ e, e ∈ s2 → ¬ ord_lt (borrow e) q).
Proof.
  intros Hs. unfold split_off.
  destruct (set_find_index_split q s Hs) as [(l1&e&l2&->&->&_&Hb&He&Ha)|(l1&l2&->&->&_&Hb&Ha)]; simpl;
    rewrite vec_split_off_middle; eexists _, _; (split; [done|]); (split; [done|]);
    apply sorted_app in Hs as (?&?&_); rewrite Forall_forall in Hb, Ha;
    (split_and!; [done..|by apply Hb|]).
  - intros x [->|Hx]%elem_of_cons Hlt; [by apply ord_not_lt_eq in Hlt|].
    apply Ha in Hx. unfold above, ord_lt in *; simpl in *. congruence.
  - intros x Hx Hlt. apply Ha in Hx. unfold above, ord_lt in *; simpl in *. congruence.
Qed.

Lemma set_retain_sublist {St} (f : St → T → bool * St) st s : (retain f st s).1 `sublist_of` s.
Proof.
  revert st. induction s as [|x s IH]; intros st; simpl; [done|].
  destruct (f st x) as [[] st1]; specialize (IH st1); destruct (retain f st1 s); simpl in *; by constructor.
Qed.

Lemma set_retain_spec {St} (f : St → T → bool * St) st s :
  sorted s →
  sorted (retain f st s).1 ∧
  ∀ g : T → bool, (∀ st x, f st x = (g x, st)) → (retain f st s).1 = filter g s.
Proof.
  intros Hs. split; [by eapply StronglySorted_sublist; [apply set_retain_sublist|]|].
  intros g Hg. revert st. clear Hs. induction s as [|x s IH]; intros st; simpl; [done|].
  rewrite Hg. specialize (IH st). destruct (retain f st s) as [rest st2]. simpl in *. subst rest.
  rewrite filter_cons. by destruct (g x).
Qed.

Lemma set_range_spec `{Ord Q, !Borrow T Q} (lo hi : Bound Q) s :
  sorted s →
  range s lo hi =
    if decide (Exists (λ e, ¬ after_start id lo e ∧ ¬ before_end id hi e) s) then panic
    else ret (filter (in_range id lo hi) s).
Proof. apply (SortedVec.range_spec id). Qed.

(** ** Bulk insertion: the last of equal elements wins *)

Section extend_theory.
Context `{Itertools}.

Definition extended `{Ord Q, !Borrow T Q} (q : Q) s (new_ : list T) : option T :=
  match list.last (hits q new_) with Some x => Some x | None => find_value q s end.

Lemma set_insert_spec x s :
  sorted s →
  ∃ s', insert s x = ret (bool_decide (find_value x s = None), s') ∧ sorted s' ∧
    ∀ Q (OQ : Ord Q) (B : Borrow T Q) (q : Q),
      find_value q s' = if decide (ord_eq (borrow x) q) then Some x else find_value q s.
Proof.
  intros Hs. destruct (replace_spec x s Hs) as (s'&Hr&Hs'). unfold insert. rewrite Hr. by exists s'.
Qed.

Lemma set_extend_spec s (new_ : list T) :
  sorted s →
  ∃ s', extend_with_vec s new_ = ret s' ∧ sorted s' ∧
    ∀ Q (OQ : Ord Q) (B : Borrow T Q) (q : Q), find_value q s' = extended q s new_.
Proof.
  intros Hs. unfold extended. destruct new_ as [|x [|y new_]]; [by exists s|..].
  - destruct (set_insert_spec x s Hs) as (s'&Hi&Hs'&Hq). simpl. rewrite Hi. simpl.
    eexists. split_and!; [done..|]. intros Q OQ B q. rewrite Hq. case_decide.
    + by rewrite hits_cons_eq.
    + by rewrite hits_cons_ne.
  - destruct (extend_many_spec id s (x :: y :: new_) Hs) as (s'&Hm&Hs'&Hq).
    exists s'. split_and!; [exact Hm|done|]. intros Q OQ B q. unfold find_value. rewrite Hq.
    unfold merged_hits. by destruct (list.last (hits q (x :: y :: new_))).
Qed.

Lemma insert_all_spec s (values : list T) :
  sorted s →
  ∃ s', sorted_vector_set_from s values = ret s' ∧ sorted s' ∧
    ∀ Q (OQ : Ord Q) (B : Borrow T Q) (q : Q), find_value q s' = extended q s values.
Proof.
  revert s. induction values as [|x values IH]; intros s Hs; [by exists s|].
  destruct (set_insert_spec x s Hs) as (s1&Hi&Hs1&Hq1).
  destruct (IH s1 Hs1) as (s2&Hs2&Hss&Hq2). simpl. rewrite Hi. simpl.
  exists s2. split_and!; [done..|]. intros Q OQ B q. rewrite Hq2. unfold extended. rewrite Hq1.
  destruct (decide (ord_eq (borrow x) q)) as [Hxq|Hxq].
  - rewrite (hits_cons_eq id q x) by done. rewrite last_cons. by destruct (list.last (hits q values)).
  - by rewrite hits_cons_ne.
Qed.

(** Collecting an already sorted vector stores it as it is. *)
Lemma from_iter_sorted l : sorted l → from_iter l = ret l.
Proof.
  intros Hl. destruct (set_extend_spec [] l) as (s'&Hx&Hs&Hq); [constructor|].
  unfold from_iter, extend, new. rewrite Hx. f_equal. apply find_value_ext; [done..|].
  intros x. specialize (Hq T _ _ x). rewrite Hq. unfold extended.
  rewrite (find_value_hits x l) by done. by destruct (find_value x l).
Qed.
End extend_theory.

Lemma set_append_spec self other :
  sorted self → sorted other →
  ∃ s', append self other = (s', []) ∧ sorted s' ∧
    ∀ Q (OQ : Ord Q) (B : Borrow T Q) (q : Q), find_value q s' =
      match find_value q other with Some e => Some e | None => find_value q self end.
Proof.
  intros Hs Ho. unfold append. destruct other as [|e other]; [by exists self|].
  destruct self as [|e' self].
  { eexists. split_and!; [done..|]. intros Q OQ B q. by destruct (find_value q (e :: other)). }
  cbn [is_empty]. destruct (merge_spec id (e' :: self) (e :: other) Hs) as (Hms&_&Hmq); [by apply sorted_weaken|].
  eexists. split_and!; [done..|]. intros Q OQ B q. unfold find_value at 1. rewrite Hmq. unfold merged_hits.
  rewrite (find_value_hits q (e :: other)) by done. by destruct (find_value q (e :: other)).
Qed.

(** ** The set operations *)

(** [x] has an equal element in [s]. *)
Definition has s x : Prop := Exists (ord_eq x) s.
#[export] Instance has_dec s x : Decision (has s x).
Proof. apply Exists_dec. intros y. apply _. Defined.

Lemma has_find s x : has s x ↔ is_Some (find_value x s).
Proof.
  unfold has. rewrite Exists_exists, <-not_eq_None_Some, find_value_None. split.
  - intros (y&Hy&Hxy) Hn. by apply (Hn y Hy).
  - intros Hn. destruct (decide (Exists (ord_eq x) s)) as [(y&Hy&Hxy)%Exists_exists|He]; [by exists y|].
    destruct Hn. intros y Hy Hyx. apply He, Exists_exists. exists y. split; [done|]. by symmetry.
Qed.

Lemma item_selects (f : option T * option T → option T) :
  f = Difference_item ∨ f = SymmetricDifference_item ∨ f = Intersection_item ∨ f = Union_item → selects f.
Proof.
  intros [->|[->|[->| ->]]]; (split; [done|]); intros [[x|] [y|]] z; simpl; intros [= <-]; auto.
Qed.

(** Draining a set operation: sorted, and described element by element. *)
Lemma operation_spec f l r :
  selects f → sorted l → sorted r →
  let s := collect (H:=for_iterator (op_iterator (@id T)) f) (l, r) in
  sorted s ∧ ∀ x, find_value x s = f (find_value x l, find_value x r).
Proof.
  intros Hf Hl Hr s. unfold s. rewrite collect_for_iterator.
  destruct (op_pairs_spec id f l r Hf Hl Hr) as (Hs&_&Hq). split; [done|].
  intros x. unfold find_value at 1. specialize (Hq T _ _ x). unfold op_pairs in Hq. rewrite Hq.
  unfold find_value. by destruct (f _).
Qed.

(** The elements of an operation's result. *)
Lemma operation_elem f l r x :
  selects f → sorted l → sorted r →
  x ∈ collect (H:=for_iterator (op_iterator (@id T)) f) (l, r) ↔ f (find_value x l, find_value x r) = Some x.
Proof.
  intros Hf Hl Hr. destruct (operation_spec f l r Hf Hl Hr) as [Hs Hq]. rewrite <-Hq.
  rewrite find_value_Some by done. split; [intros Hx; split; [done|]; apply cmp_refl|tauto].
Qed.

Lemma find_self s x : sorted s → find_value x s = Some x ↔ x ∈ s.
Proof. intros Hs. rewrite find_value_Some by done. split; [tauto|]. intros; split; [done|]. apply cmp_refl. Qed.

Lemma not_has_None s x : ¬ has s x ↔ find_value x s = None.
Proof. rewrite has_find, <-not_eq_None_Some. destruct (find_value x s); naive_solver. Qed.

Lemma operation_sorted f l r :
  selects f → sorted l → sorted r → sorted (collect (H:=for_iterator (op_iterator (@id T)) f) (l, r)).
Proof. intros. by apply operation_spec. Qed.

Lemma difference_elem l r x :
  sorted l → sorted r → x ∈ Difference_collect l r ↔ x ∈ l ∧ ¬ has r x.
Proof.
  intros Hl Hr. unfold Difference_collect. etrans; [apply operation_elem; auto using item_selects|].
  rewrite not_has_None, <-(find_self l) by done. destruct (find_value x l), (find_value x r); naive_solver.
Qed.
Lemma intersection_elem l r x :
  sorted l → sorted r → x ∈ Intersection_collect l r ↔ x ∈ l ∧ has r x.
Proof.
  intros Hl Hr. unfold Intersection_collect. etrans; [apply operation_elem; auto using item_selects|].
  rewrite has_find, <-(find_self l) by done. destruct (find_value x l), (find_value x r); naive_solver.
Qed.
Lemma symmetric_difference_elem l r x :
  sorted l → sorted r → x ∈ SymmetricDifference_collect l r ↔ (x ∈ l ∧ ¬ has r x) ∨ (x ∈ r ∧ ¬ has l x).
Proof.
  intros Hl Hr. unfold SymmetricDifference_collect. etrans; [apply operation_elem; auto using item_selects|].
  rewrite !not_has_None, <-(find_self l), <-(find_self r) by done.
  destruct (find_value x l), (find_value x r); naive_solver.
Qed.
Lemma union_elem l r x :
  sorted l → sorted r → x ∈ Union_collect l r ↔ x ∈ r ∨ (x ∈ l ∧ ¬ has r x).
Proof.
  intros Hl Hr. unfold Union_collect. etrans; [apply operation_elem; auto 6 using item_selects|].
  rewrite not_has_None, <-(find_self l), <-(find_self r) by done.
  destruct (find_value x l), (find_value x r); naive_solver.
Qed.

(** The operators collect the iterators into sets, without changing their order. *)
Lemma operators_collect `{Itertools} l r :
  sorted l → sorted r →
  bitand l r = ret (Intersection_collect l r) ∧ sub l r = ret (Difference_collect l r) ∧
  bitxor l r = ret (SymmetricDifference_collect l r) ∧ bitor l r = ret (Union_collect l r) ∧
  sorted (Intersection_collect l r) ∧ sorted (Difference_collect l r) ∧
  sorted (SymmetricDifference_collect l r) ∧ sorted (Union_collect l r).
Proof.
  intros Hl Hr.
  assert (sorted (Intersection_collect l r)) by (apply operation_sorted; auto using item_selects).
  assert (sorted (Difference_collect l r)) by (apply operation_sorted; auto using item_selects).
  assert (sorted (SymmetricDifference_collect l r)) by (apply operation_sorted; auto using item_selects).
  assert (sorted (Union_collect l r)) by (apply operation_sorted; auto 6 using item_selects).
  unfold bitand, sub, bitxor, bitor. rewrite !from_iter_sorted by done. by split_and!.
Qed.

Lemma is_none_collect {St} (I : Iterator St T) (st : St) :
  is_none (next (Iterator:=I) st).1 = true ↔ ∀ x, x ∉ collect (H:=I) st.
Proof.
  rewrite collect_unfold. destruct (next st) as [[x|] st']; simpl; split; [done| |set_solver|done].
  intros Hn. destruct (Hn x). by left.
Qed.

(** The four set operations and their
    operators return sorted vectors whose elements are exactly: those of the left set with
    an equal in the right one; without one; those of either without an equal in the other;
    and all of the right set with those of the left that have no equal in it. *)
Theorem set_operations_correct `{Itertools} l r :
  sorted l → sorted r →
  ∃ i d sd u, bitand l r = ret i ∧ sub l r = ret d ∧ bitxor l r = ret sd ∧ bitor l r = ret u ∧
    sorted i ∧ sorted d ∧ sorted sd ∧ sorted u ∧
    (∀ e, e ∈ i ↔ e ∈ l ∧ has r e) ∧ (∀ e, e ∈ d ↔ e ∈ l ∧ ¬ has r e) ∧
    (∀ e, e ∈ sd ↔ (e ∈ l ∧ ¬ has r e) ∨ (e ∈ r ∧ ¬ has l e)) ∧
    (∀ e, e ∈ u ↔ e ∈ r ∨ (e ∈ l ∧ ¬ has r e)).
Proof.
  intros Hl Hr. destruct (operators_collect l r Hl Hr) as (->&->&->&->&?&?&?&?).
  eexists _, _, _, _. split_and!; [done..| | | |]; intros e;
    [by apply intersection_elem|by apply difference_elem|by apply symmetric_difference_elem|by apply union_elem].
Qed.

(** The predicates, as the code computes them: [is_subset] holds when [other] is
    contained in [self], and [is_superset] when [self] is contained in [other]. *)
Theorem set_predicates_correct self other :
  sorted self → sorted other →
  (is_disjoint self other = true ↔ ∀ x, x ∈ self → ¬ has other x) ∧
  (is_subset self other = true ↔ ∀ x, x ∈ other → has self x) ∧
  (is_superset self other = true ↔ ∀ x, x ∈ self → has other x).
Proof.
  intros Hs Ho. unfold is_superset.
  assert (∀ l r, sorted l → sorted r → is_subset l r = true ↔ ∀ x, x ∈ r → has l x) as Hsub.
  { intros l r Hl Hr. unfold is_subset. etrans; [apply (is_none_collect (for_iterator _ Difference_item))|].
    change (collect _) with (Difference_collect r l).
    split; intros Hx x; specialize (Hx x); rewrite (difference_elem r l x) in * by done;
      [intros; apply dec_stable; tauto|tauto]. }
  split_and!; [|by apply Hsub..].
  unfold is_disjoint. etrans; [apply (is_none_collect (for_iterator _ Intersection_item))|].
  change (collect _) with (Intersection_collect self other).
  split; intros Hx x; specialize (Hx x); rewrite (intersection_elem self other x) in * by done; tauto.
Qed.

(** ** Size hints *)

(** Both sides are walked completely, whatever their order. *)
Lemma op_pairs_sides l r :
  omap fst (op_pairs (@id T) l r) = l ∧ omap snd (op_pairs (@id T) l r) = r.
Proof.
  remember (length l + length r) as n eqn:Hn. revert l r Hn.
  induction (lt_wf n) as [n _ IH]; intros l r ->. rewrite op_pairs_unfold.
  destruct l as [|x l], r as [|y r]; [done| | |].
  - destruct (IH (length r) ltac:(simpl; lia) [] r eq_refl) as [H1 H2].
    rewrite !omap_cons_eq. simpl. by rewrite H1, H2.
  - destruct (IH (length l) ltac:(simpl; lia) l [] ltac:(simpl; lia)) as [H1 H2].
    rewrite !omap_cons_eq. simpl. by rewrite H1, H2.
  - destruct (cmp _ _); [destruct (IH (length l + length r) ltac:(simpl; lia) l r eq_refl) as [H1 H2]
      |destruct (IH (length l + length (y :: r)) ltac:(simpl; lia) l (y :: r) eq_refl) as [H1 H2]
      |destruct (IH (length (x :: l) + length r) ltac:(simpl; lia) (x :: l) r eq_refl) as [H1 H2]];
      rewrite !omap_cons_eq; cbn [fst snd]; by rewrite H1, H2.
Qed.

Lemma operation_lengths (p : list (option T * option T)) :
  let nl := length (omap fst p) in let nr := length (omap snd p) in
  nl - nr ≤ length (omap Difference_item p) ≤ nl ∧
  length (omap SymmetricDifference_item p) ≤ nl + nr ∧
  length (omap Intersection_item p) ≤ nl `min` nr ∧
  nl `max` nr ≤ length (omap Union_item p) ≤ nl + nr.
Proof.
  induction p as [|[[x|] [y|]] p IH]; [simpl; lia|..]; rewrite !omap_cons_eq; cbn -[min max] in *; lia.
Qed.

(** At every point of the iteration the size hints bound the items still to come. *)
Theorem set_size_hints_sound (s : OperationInner) :
  hint_sound (Difference_size_hint s) (length (Difference_collect s.1 s.2)) ∧
  hint_sound (SymmetricDifference_size_hint s) (length (SymmetricDifference_collect s.1 s.2)) ∧
  hint_sound (Intersection_size_hint s) (length (Intersection_collect s.1 s.2)) ∧
  hint_sound (Union_size_hint s) (length (Union_collect s.1 s.2)).
Proof.
  destruct s as [l r].
  unfold Difference_collect, SymmetricDifference_collect, Intersection_collect, Union_collect. simpl.
  rewrite !collect_for_iterator. change (collect _) with (op_pairs (@id T) l r).
  pose proof (operation_lengths (op_pairs id l r)) as Hp.
  destruct (op_pairs_sides l r) as [H1 H2]. rewrite H1, H2 in Hp. cbv zeta in Hp.
  unfold hint_sound; simpl. split_and!; try lia;
    destruct (checked_add _ _) as [c|] eqn:Hc; [|done|..]; try apply checked_add_Some in Hc; (lia || done).
Qed.

(** ** Collecting a set *)

Section collecting.
Context `{Itertools}.

(** The last value of a list that compares equal to [x]. *)
Fixpoint last_equal x (values : list T) : option T :=
  match values with
  | [] => None
  | y :: values =>
      match last_equal x values with
      | Some z => Some z
      | None => if decide (ord_eq y x) then Some y else None
      end
  end.

Lemma last_equal_hits x (values : list T) : list.last (hits x values) = last_equal x values.
Proof.
  induction values as [|y values IH]; [done|]. simpl. rewrite <-IH. case_decide as Hy.
  - rewrite (hits_cons_eq id x y) by done. rewrite last_cons. by destruct (list.last (hits x values)).
  - rewrite (hits_cons_ne id x y) by done. by destruct (list.last (hits x values)).
Qed.

Lemma extended_last_equal x s values :
  extended x s values = match last_equal x values with Some y => Some y | None => find_value x s end.
Proof. unfold extended. by rewrite last_equal_hits. Qed.

(** [from_iter] collects a sorted set in which the last of equal values represents them,
    and [sorted_vector_set!], inserting one by one, builds the same vector. *)
Theorem set_from_iter_correct (values : list T) :
  ∃ s, from_iter values = ret s ∧ sorted_vector_set values = ret s ∧ sorted s ∧
    ∀ x, find_value x s = last_equal x values.
Proof.
  destruct (set_extend_spec [] values) as (s&Hx&Hs&Hq); [constructor|].
  destruct (insert_all_spec [] values) as (s'&Hx'&Hs'&Hq'); [constructor|].
  unfold from_iter, extend, new, sorted_vector_set, with_capacity. rewrite Hx, Hx'. exists s. split_and!; [done| |done|].
  - f_equal. symmetry. apply find_value_ext; [done..|]. intros x. by rewrite (Hq T _ _), (Hq' T _ _).
  - intros x. rewrite (Hq T _ _), extended_last_equal.
    by destruct (last_equal x values).
Qed.
End collecting.

(** [range] yields exactly the elements within the bounds, in order; it panics exactly
    when some stored element is neither after the start bound nor before the end bound. *)
Theorem set_range_correct `{Ord Q, !Borrow T Q} (lo hi : Bound Q) s :
  sorted s →
  range s lo hi =
    if decide (Exists (λ e, ¬ after_start id lo e ∧ ¬ before_end id hi e) s) then panic
    else ret (filter (in_range id lo hi) s).
Proof. apply set_range_spec. Qed.
End theory.

(** ** Concrete runs *)
Section witnesses.
#[local] Existing Instance zip_itertools.

Lemma set_operations_correct_witness :
  bitxor [1; 2; 3] [2; 3; 5] = ret [1; 5] ∧
  ∃ i d sd u, bitand [1; 2; 3] [2; 3; 5] = ret i ∧ sub [1; 2; 3] [2; 3; 5] = ret d ∧
    bitxor [1; 2; 3] [2; 3; 5] = ret sd ∧ bitor [1; 2; 3] [2; 3; 5] = ret u.
Proof.
  split; [vm_compute; reflexivity|].
  destruct (set_operations_correct [1; 2; 3] [2; 3; 5]) as (i&d&sd&u&Hi&Hd&Hsd&Hu&_);
    [apply (sorted_check_sound id); vm_compute; reflexivity..|].
  exists i, d, sd, u. auto.
Defined.

(** [{1, 2}] is a subset of [{1, 2, 3}], but the code's [is_subset] denies it. *)
Lemma set_predicates_correct_witness :
  is_subset [1; 2] [1; 2; 3] = false ∧ is_superset [1; 2] [1; 2; 3] = true ∧
  (is_subset [1; 2; 3] [1; 2] = true ↔ ∀ x, x ∈ [1; 2] → has [1; 2; 3] x).
Proof.
  split; [vm_compute; reflexivity|]. split; [vm_compute; reflexivity|].
  apply (set_predicates_correct [1; 2; 3] [1; 2]); apply (sorted_check_sound id); vm_compute; reflexivity.
Defined.

(** An inverted range panics when an element lies between its bounds, and is empty otherwise. *)
Lemma set_range_correct_witness :
  range [1; 4; 9] (Included 5) (Excluded 3) = panic ∧ range [1; 9] (Included 5) (Excluded 3) = ret [] ∧
  range [1; 4; 9] (Included 2) (Excluded 9) = ret (filter (in_range id (Included 2) (Excluded 9)) [1; 4; 9]).
Proof.
  split; [vm_compute; reflexivity|]. split; [vm_compute; reflexivity|].
  rewrite (set_range_correct (Included 2) (Excluded 9) [1; 4; 9]); [reflexivity|].
  apply (sorted_check_sound id); vm_compute; reflexivity.
Defined.
End witnesses.
End SortedVectorSet.
