(* ===== verification/MapRefinement.v ===== *)
(** What [sorted_vector_map::map] promises: a map from keys to values is the set of its entries, and
    every public operation of [SortedVectorMap] (src/shed/sorted_vector_map/src/map.rs) does to that
    set, answers, and panics as said here.  [DedupIter] and [MergeIter], which are private, are under
    [extend] and [append]; iteration from both ends is [SortedVectorMap.iter_double_ended]. *)
From S2P Require Import Prelude RustStd SortedVec SortedVectorMap.
Import SortedVectorMap.

Module MapRefinement.
Section refinement.
Context {K V : Type} `{Ord K} `{Itertools}.
#[local] Abbreviation svm := (list (K * V)).
#[local] Abbreviation RefMut := (RefMut (K:=K) (V:=V)).
#[local] Abbreviation OccupiedEntry := (OccupiedEntry (K:=K) (V:=V)).
#[local] Abbreviation sorted := (sorted (E:=K * V) fst).
#[local] Abbreviation hits := (hits (E:=K * V) fst).
#[local] Abbreviation in_range := (in_range (K:=K) (E:=K * V) fst).
#[local] Abbreviation after_start := (after_start (K:=K) (E:=K * V) fst).
#[local] Abbreviation before_end := (before_end (K:=K) (E:=K * V) fst).

(** ** The operations *)

(** Look-ups take any borrowed form of the key; callbacks may have state, and what is written through
    a mutable reference is a function of what is there. *)
Inductive op : Type :=
| OpClear | OpLen | OpIsEmpty | OpIter | OpKeys | OpValues | OpIntoKeys | OpIntoValues
| OpFirst | OpLast | OpPopLast | OpAtIndex (i : nat)
| OpGet {Q} {OQ : Ord Q} {B : Borrow K Q} (q : Q) | OpGetKeyValue {Q} {OQ : Ord Q} {B : Borrow K Q} (q : Q)
| OpContains {Q} {OQ : Ord Q} {B : Borrow K Q} (q : Q) | OpIndex {Q} {OQ : Ord Q} {B : Borrow K Q} (q : Q)
| OpGetMut {Q} {OQ : Ord Q} {B : Borrow K Q} (q : Q) (f : V → V)
| OpIndexMut {Q} {OQ : Ord Q} {B : Borrow K Q} (q : Q) (f : V → V)
| OpIterMut (f : V → V) | OpValuesMut (f : V → V)
| OpRange {Q} {OQ : Ord Q} {B : Borrow K Q} (lo hi : Bound Q)
| OpRangeMut {Q} {OQ : Ord Q} {B : Borrow K Q} (lo hi : Bound Q) (f : V → V)
| OpInsert (k : K) (v : V)
| OpRemove {Q} {OQ : Ord Q} {B : Borrow K Q} (q : Q) | OpRemoveEntry {Q} {OQ : Ord Q} {B : Borrow K Q} (q : Q)
| OpSplitOff {Q} {OQ : Ord Q} {B : Borrow K Q} (q : Q)
| OpAppend (other : svm) | OpExtend (new_ : svm)
| OpRetain {St : Type} (f : St → K → V → bool * V * St) (st : St)
| OpEntryKey (k : K) | OpEntryOrInsert (k : K) (d : V) | OpEntryOrInsertWith (k : K) (d : () → V) | OpEntryOrDefault (k : K) (d : V)
| OpEntryModify (k : K) (f : V → V) (d : V) | OpEntryInsert (k : K) (v : V) | OpEntryRemove (k : K)
| OpFirstEntryRemove | OpLastEntryRemove.

(** What a caller sees. *)
Inductive obs :=
| ObsUnit | ObsBool (b : bool) | ObsLen (n : nat) | ObsKey (k : K) | ObsValue (o : option V) | ObsEntry (o : option (K * V))
| ObsEntries (l : svm) | ObsKeys (l : list K) | ObsValues (l : list V).

(** A value read and rewritten through a reference. *)
Definition rewrite_ref (f : V → V) (r : RefMut) : exec (V * svm) :=
  let! v := deref r in let! m := assign r (f v) in ret (v, m).

(** The same through all references of a mutable iterator, one after the other, each into the map as
    the ones before left it. *)
Fixpoint rewrite_all (f : V → V) (refs : list RefMut) self : exec svm :=
  match refs with
  | [] => ret self
  | r :: refs =>
      let! '(_, self) := rewrite_ref f {| ref_map := self; ref_index := ref_index r |} in rewrite_all f refs self
  end.

(** [or_insert] and its variants give a reference, which is read. *)
Definition read_ref (r : exec RefMut) : exec (obs * svm) := let! r := r in let! v := deref r in ret (ObsValue (Some v), ref_map r).

Definition remove_occupied (o : option OccupiedEntry) self : exec (obs * svm) :=
  match o with
  | Some o => let! '(e, self) := OccupiedEntry_remove_entry o in ret (ObsEntry (Some e), self)
  | None => ret (ObsEntry None, self)
  end.

Definition run_op (o : op) (self : svm) : exec (obs * svm) :=
  match o with
  | OpClear => ret (ObsUnit, clear self)
  | OpLen => ret (ObsLen (len self), self)
  | OpIsEmpty => ret (ObsBool (is_empty self), self)
  | OpIter => ret (ObsEntries (iter self), self)
  | OpKeys => ret (ObsKeys (keys self), self)
  | OpValues => ret (ObsValues (values self), self)
  | OpIntoKeys => ret (ObsKeys (into_keys self), self)
  | OpIntoValues => ret (ObsValues (into_values self), self)
  | OpFirst => ret (ObsEntry (first_key_value self), self)
  | OpLast => ret (ObsEntry (last_key_value self), self)
  | OpPopLast => let '(r, self) := pop_last self in ret (ObsEntry r, self)
  | OpAtIndex i => ret (ObsEntry (get_key_value_at_index self i), self)
  | OpGet q => let! r := get self q in ret (ObsValue r, self)
  | OpGetKeyValue q => let! r := get_key_value self q in ret (ObsEntry r, self)
  | OpContains q => let! r := contains_key self q in ret (ObsBool r, self)
  | OpIndex q => let! v := index self q in ret (ObsValue (Some v), self)
  | OpGetMut q f =>
      let! r := get_mut self q in
      match r with
      | Some r => let! '(v, self) := rewrite_ref f r in ret (ObsValue (Some v), self)
      | None => ret (ObsValue None, self)
      end
  | OpIndexMut q f => let! r := index_mut self q in let! '(v, self) := rewrite_ref f r in ret (ObsValue (Some v), self)
  | OpIterMut f => let! self := rewrite_all f (iter_mut self) self in ret (ObsUnit, self)
  | OpValuesMut f => let! self := rewrite_all f (values_mut self) self in ret (ObsUnit, self)
  | OpRange lo hi => let! l := range self lo hi in ret (ObsEntries l, self)
  | OpRangeMut lo hi f => let! refs := range_mut self lo hi in let! self := rewrite_all f refs self in ret (ObsUnit, self)
  | OpInsert k v => let! '(r, self) := insert self k v in ret (ObsValue r, self)
  | OpRemove q => let! '(r, self) := remove self q in ret (ObsValue r, self)
  | OpRemoveEntry q => let! '(r, self) := remove_entry self q in ret (ObsEntry r, self)
  | OpSplitOff q => let! '(self, other) := split_off self q in ret (ObsEntries other, self)
  | OpAppend other =>
      let! other := from_iter other in let '(self, other) := append self other in ret (ObsEntries other, self)
  | OpExtend new_ => let! self := extend self new_ in ret (ObsUnit, self)
  | OpRetain f st => ret (ObsUnit, (retain f st self).1)
  | OpEntryKey k => let! e := entry self k in let! k := Entry_key e in ret (ObsKey k, self)
  | OpEntryOrInsert k d => let! e := entry self k in read_ref (or_insert e d)
  | OpEntryOrInsertWith k d => let! e := entry self k in read_ref (or_insert_with e d)
  | OpEntryOrDefault k d => let! e := entry self k in read_ref (or_default d e)
  | OpEntryModify k f d => let! e := entry self k in let! e := and_modify e f in read_ref (or_insert e d)
  | OpEntryInsert k v =>
      let! e := entry self k in
      match e with
      | Occupied o => let! '(old, o) := OccupiedEntry_insert o v in ret (ObsValue (Some old), oe_map o)
      | Vacant e => let! r := VacantEntry_insert e v in ret (ObsValue None, ref_map r)
      end
  | OpEntryRemove k =>
      let! e := entry self k in
      match e with Occupied o => remove_occupied (Some o) self | Vacant _ => remove_occupied None self end
  | OpFirstEntryRemove => remove_occupied (first_entry self) self
  | OpLastEntryRemove => remove_occupied (last_entry self) self
  end.

(** ** What they promise *)

(** A map is the set of its entries. *)
Definition spec_map : Type := K * V → Prop.
Implicit Types (s : spec_map) (e : K * V).
Definition empty_map : spec_map := λ _, False.

(** The entries of [s] in the order of their keys, each key once. *)
Definition lists s (l : svm) : Prop := sorted l ∧ ∀ e, e ∈ l ↔ s e.
Definition same_map s s' : Prop := ∀ e, s e ↔ s' e.

(** [q] is a form of the key of [e]. *)
Definition has_key `{Ord Q, !Borrow K Q} (q : Q) e : Prop := ord_eq (borrow e.1) q.
Definition found `{Ord Q, !Borrow K Q} s (q : Q) (o : option (K * V)) : Prop :=
  match o with Some e => s e ∧ has_key q e | None => ∀ e, s e → ¬ has_key q e end.

Definition least s (o : option (K * V)) : Prop :=
  match o with Some e => s e ∧ ∀ e', s e' → e' = e ∨ ord_lt e.1 e'.1 | None => ∀ e, ¬ s e end.
Definition greatest s (o : option (K * V)) : Prop :=
  match o with Some e => s e ∧ ∀ e', s e' → e' = e ∨ ord_lt e'.1 e.1 | None => ∀ e, ¬ s e end.

(** The entry [e] takes the place of what has its key. *)
Definition put s e : spec_map := λ e', e' = e ∨ s e' ∧ ¬ has_key e.1 e'.
Definition without `{Ord Q, !Borrow K Q} s (q : Q) : spec_map := λ e, s e ∧ ¬ has_key q e.
Definition drop_entry s (o : option (K * V)) : spec_map := match o with Some e => without s e.1 | None => s end.
(** The values for which [P] holds are rewritten. *)
Definition rewritten s (P : K * V → Prop) (f : V → V) : spec_map :=
  λ e, (s e ∧ ¬ P e) ∨ ∃ v, s (e.1, v) ∧ P (e.1, v) ∧ e.2 = f v.

(** The last entry of [l] with its key. *)
Definition last_given (l : svm) e : Prop := last (hits e.1 l) = Some e.
Definition overridden s (l : svm) : spec_map := λ e, last_given l e ∨ s e ∧ hits e.1 l = [].

(** [insert] keeps the key that is there. *)
Definition inserted s k v : spec_map := λ e, ∃ o, found s k o ∧ put s (from_option fst k o, v) e.

(** The state that a callback has when it comes to an entry. *)
Definition state_after {St} (f : St → K → V → bool * V * St) (st : St) (l : svm) : St :=
  foldl (λ st e, (f st e.1 e.2).2) st l.

(** The panics: an absent key that is indexed, and a range in which some entry is neither after the
    start nor before the end. *)
Definition spec_panics (o : op) s : Prop :=
  match o with
  | OpIndex q | OpIndexMut q _ => found s q None
  | OpRange lo hi | OpRangeMut lo hi _ => ∃ e, s e ∧ ¬ after_start lo e ∧ ¬ before_end hi e
  | _ => False
  end.

Definition unchanged s s' (P : Prop) : Prop := P ∧ same_map s' s.

Definition spec_op (o : op) s (b : obs) s' : Prop :=
  match o with
  | OpClear => b = ObsUnit ∧ same_map s' empty_map
  | OpLen => unchanged s s' (∃ l, lists s l ∧ b = ObsLen (length l))
  | OpIsEmpty => unchanged s s' (∃ r, b = ObsBool r ∧ (r = true ↔ same_map s empty_map))
  | OpIter => unchanged s s' (∃ l, lists s l ∧ b = ObsEntries l)
  | OpKeys | OpIntoKeys => unchanged s s' (∃ l, lists s l ∧ b = ObsKeys (fst <$> l))
  | OpValues | OpIntoValues => unchanged s s' (∃ l, lists s l ∧ b = ObsValues (snd <$> l))
  | OpFirst => unchanged s s' (∃ r, least s r ∧ b = ObsEntry r)
  | OpLast => unchanged s s' (∃ r, greatest s r ∧ b = ObsEntry r)
  | OpPopLast | OpLastEntryRemove => ∃ r, greatest s r ∧ b = ObsEntry r ∧ same_map s' (drop_entry s r)
  | OpFirstEntryRemove => ∃ r, least s r ∧ b = ObsEntry r ∧ same_map s' (drop_entry s r)
  | OpAtIndex i => unchanged s s' (∃ l, lists s l ∧ b = ObsEntry (l !! i))
  | OpGet q => unchanged s s' (∃ r, found s q r ∧ b = ObsValue (snd <$> r))
  | OpGetKeyValue q => unchanged s s' (∃ r, found s q r ∧ b = ObsEntry r)
  | OpContains q => unchanged s s' (∃ r, found s q r ∧ b = ObsBool (bool_decide (is_Some r)))
  | OpIndex q => unchanged s s' (∃ e, found s q (Some e) ∧ b = ObsValue (Some e.2))
  | OpGetMut q f => ∃ r, found s q r ∧ b = ObsValue (snd <$> r) ∧ same_map s' (rewritten s (has_key q) f)
  | OpIndexMut q f => ∃ e, found s q (Some e) ∧ b = ObsValue (Some e.2) ∧ same_map s' (rewritten s (has_key q) f)
  | OpIterMut f | OpValuesMut f => b = ObsUnit ∧ same_map s' (rewritten s (λ _, True) f)
  | OpRange lo hi => unchanged s s' (∃ l, lists (λ e, s e ∧ in_range lo hi e) l ∧ b = ObsEntries l)
  | OpRangeMut lo hi f => b = ObsUnit ∧ same_map s' (rewritten s (in_range lo hi) f)
  | OpInsert k v => ∃ r, found s k r ∧ b = ObsValue (snd <$> r) ∧ same_map s' (inserted s k v)
  | OpRemove q => ∃ r, found s q r ∧ b = ObsValue (snd <$> r) ∧ same_map s' (without s q)
  | OpRemoveEntry q => ∃ r, found s q r ∧ b = ObsEntry r ∧ same_map s' (without s q)
  | OpSplitOff q =>
      ∃ l, lists (λ e, s e ∧ ¬ ord_lt (borrow e.1) q) l ∧ b = ObsEntries l ∧ same_map s' (λ e, s e ∧ ord_lt (borrow e.1) q)
  | OpAppend other => b = ObsEntries [] ∧ same_map s' (overridden s other)
  | OpExtend new_ => b = ObsUnit ∧ same_map s' (match new_ with [(k, v)] => inserted s k v | _ => overridden s new_ end)
  | OpRetain f st =>
      b = ObsUnit ∧ ∃ l, lists s l ∧
        same_map s' (λ e, ∃ i v st', l !! i = Some (e.1, v) ∧ f (state_after f st (take i l)) e.1 v = (true, e.2, st'))
  | OpEntryKey k => unchanged s s' (∃ r, found s k r ∧ b = ObsKey (from_option fst k r))
  | OpEntryOrInsert k d | OpEntryOrDefault k d =>
      ∃ r, found s k r ∧ b = ObsValue (Some (from_option snd d r)) ∧ same_map s' (match r with Some _ => s | None => inserted s k d end)
  | OpEntryOrInsertWith k d =>
      ∃ r, found s k r ∧ b = ObsValue (Some (from_option snd (d ()) r)) ∧ same_map s' (match r with Some _ => s | None => inserted s k (d ()) end)
  | OpEntryModify k f d =>
      ∃ r, found s k r ∧ let v := match r with Some e => f e.2 | None => d end in b = ObsValue (Some v) ∧ same_map s' (inserted s k v)
  | OpEntryInsert k v => ∃ r, found s k r ∧ b = ObsValue (snd <$> r) ∧ same_map s' (inserted s k v)
  | OpEntryRemove k => ∃ r, found s k r ∧ b = ObsEntry r ∧ same_map s' (without s k)
  end.

(** A sequence of operations, up to the first that panics. *)
Fixpoint run_ops (os : list op) self : exec (list obs * svm) :=
  match os with
  | [] => ret ([], self)
  | o :: os => let! '(b, self) := run_op o self in let! '(bs, self) := run_ops os self in ret (b :: bs, self)
  end.
Inductive spec_ops : list op → spec_map → list obs → spec_map → Prop :=
| spec_nil s : spec_ops [] s [] s
| spec_cons o os s b s1 bs s2 :
    ¬ spec_panics o s → spec_op o s b s1 → spec_ops os s1 bs s2 → spec_ops (o :: os) s (b :: bs) s2.
Inductive spec_ops_panic : list op → spec_map → Prop :=
| spec_panic_now o os s : spec_panics o s → spec_ops_panic (o :: os) s
| spec_panic_later o os s b s1 :
    ¬ spec_panics o s → spec_op o s b s1 → spec_ops_panic os s1 → spec_ops_panic (o :: os) s.

(** ** Sorted vectors and sets of entries *)

Implicit Types m : svm.

Lemma find_entry_iff `{Ord Q, !Borrow K Q} (q : Q) m e : sorted m → find_entry q m = Some e ↔ e ∈ m ∧ has_key q e.
Proof.
  intros Hs. split; [apply find_entry_Some|]. intros [He Hk].
  assert (e ∈ hits q m) as Hh by by apply elem_of_hits. rewrite find_entry_hits in Hh by done.
  destruct (find_entry q m) as [e'|]; simpl in Hh; [|set_solver]. by apply list_elem_of_singleton in Hh as ->.
Qed.

Lemma find_entry_None_iff `{Ord Q, !Borrow K Q} (q : Q) m : sorted m → find_entry q m = None ↔ ∀ e, e ∈ m → ¬ has_key q e.
Proof.
  intros Hs. split.
  - intros Hn e He Hk. pose proof (proj2 (find_entry_iff q m e Hs) (conj He Hk)). congruence.
  - intros Hno. destruct (find_entry q m) as [e|] eqn:He; [|done]. apply find_entry_iff in He as [He Hk]; [|done]. by destruct (Hno e).
Qed.

Lemma has_own_key e : has_key e.1 e.
Proof. unfold has_key. apply cmp_refl. Qed.

Lemma find_own m e : sorted m → e ∈ m ↔ find_entry e.1 m = Some e.
Proof. intros Hs. rewrite find_entry_iff by done. pose proof (has_own_key e). tauto. Qed.

Lemma lists_found `{Ord Q, !Borrow K Q} (q : Q) s m : lists s m → found s q (find_entry q m).
Proof.
  intros [Hs Hm]. destruct (find_entry q m) as [e|] eqn:He; simpl.
  - apply find_entry_iff in He as [??]; [|done]. split; [by apply Hm|done].
  - intros e Hse. rewrite find_entry_None_iff in He by done. by apply He, Hm.
Qed.

Lemma found_unique `{Ord Q, !Borrow K Q} (q : Q) s m o : lists s m → found s q o → o = find_entry q m.
Proof.
  intros [Hs Hm] Ho. symmetry. destruct o as [e|]; simpl in Ho.
  - apply find_entry_iff; [done|]. rewrite Hm. done.
  - apply find_entry_None_iff; [done|]. intros e He. by apply Ho, Hm.
Qed.

(** [k] and [k'] are forms of the same keys. *)
Lemma has_key_cong `{Ord Q, !Borrow K Q} (q : Q) e e' : ord_eq e.1 e'.1 → has_key q e ↔ has_key q e'.
Proof.
  intros He. unfold has_key. assert (ord_eq (borrow (Q:=Q) e.1) (borrow e'.1)) as -> by (unfold ord_eq; by rewrite borrow_cmp). done.
Qed.

Lemma lists_self m : sorted m → lists (λ e, e ∈ m) m.
Proof. by split. Qed.

(** An update that is known by what is found after it. *)
Lemma insert_lists s m m' k v :
  lists s m →
  sorted m' → (∀ q : K, find_entry q m' = if decide (ord_eq k q) then Some (from_option fst k (find_entry k m), v) else find_entry q m) →
  same_map (λ e, e ∈ m') (inserted s k v).
Proof.
  intros Hl Hs' Hq e. pose proof Hl as [Hs Hm]. rewrite find_own, Hq by done. pose proof (lists_found k s m Hl) as Hf.
  assert (ord_eq (from_option fst k (find_entry k m)) k) as Hk.
  { destruct (find_entry k m) as [e0|]; simpl in *; [apply Hf|apply cmp_refl]. }
  transitivity (put s (from_option fst k (find_entry k m), v) e).
  - unfold put. rewrite <-Hm, (find_own m) by done.
    assert (has_key (from_option fst k (find_entry k m)) e ↔ ord_eq k e.1) as Hke.
    { unfold has_key, borrow, borrow_refl, id. split; intros Heq; [by rewrite Heq|by rewrite <-Heq]. }
    simpl fst. rewrite Hke. case_decide as Hd.
    + split; [intros [= <-]; by left|]. by intros [->|[_ Hn]].
    + split; [by right|]. intros [->|[? _]]; [|done]. by destruct Hd.
  - unfold inserted. split; [by exists (find_entry k m)|]. intros (o&Ho&Hp). by rewrite (found_unique k s m o) in Hp.
Qed.

Lemma without_lists `{Ord Q, !Borrow K Q} s m m' (q : Q) :
  lists s m → sorted m' → (∀ q' : Q, find_entry q' m' = if decide (ord_eq q q') then None else find_entry q' m) →
  same_map (λ e, e ∈ m') (without s q).
Proof.
  intros [Hs Hm] Hs' Hq e. specialize (Hq (borrow e.1)). unfold without. rewrite <-Hm.
  assert (∀ l, sorted l → e ∈ l ↔ find_entry (borrow e.1 : Q) l = Some e) as Hf.
  { intros l Hl. rewrite find_entry_iff by done. unfold has_key. pose proof (cmp_refl (borrow e.1 : Q)). unfold ord_eq. tauto. }
  rewrite (Hf m'), Hq, (Hf m) by done. unfold has_key.
  assert (ord_eq (borrow e.1) q ↔ ord_eq q (borrow e.1)) as Hsym by (split; by intros ->). rewrite Hsym. case_decide; naive_solver.
Qed.

(** *** The order of the entries *)

Lemma head_least s m : lists s m → least s (head m).
Proof.
  intros [Hs Hm]. destruct m as [|e m]; simpl.
  - intros e He%Hm. set_solver.
  - split; [apply Hm; by left|]. apply sorted_cons in Hs as [_ Hlt]. intros e' [->|He']%Hm%elem_of_cons; [by left|right; by apply Hlt].
Qed.

Lemma last_greatest s m : lists s m → greatest s (last m).
Proof.
  intros [Hs Hm]. destruct m as [|e m _] using rev_ind; simpl.
  - intros e He%Hm. set_solver.
  - rewrite last_snoc. split; [apply Hm; set_solver|]. apply sorted_app in Hs as (_&_&Hlt).
    intros e' [He'|He'%list_elem_of_singleton]%Hm%elem_of_app; [right; apply Hlt; set_solver|by left].
Qed.

Lemma lists_nil s : lists s [] ↔ same_map s empty_map.
Proof.
  unfold lists, same_map, empty_map. split.
  - intros [_ Hm] e. rewrite <-Hm. set_solver.
  - intros Hs. split; [constructor|]. intros e. rewrite Hs. set_solver.
Qed.

Lemma sorted_nodup m : sorted m → NoDup m.
Proof.
  induction m as [|e m IH]; [constructor|]. intros [Hs Hlt]%sorted_cons. constructor; [|by apply IH].
  intros He. specialize (Hlt e He). by apply ord_lt_irrefl in Hlt.
Qed.

(** An entry taken from the middle. *)
Lemma delete_lists s (l1 l2 : svm) e :
  lists s (l1 ++ e :: l2) → sorted (l1 ++ l2) ∧ same_map (λ e', e' ∈ l1 ++ l2) (without s e.1).
Proof.
  intros [Hs Hm]. pose proof (map_sorted_delete_middle _ _ _ Hs) as Hs'. split; [done|]. intros e'. unfold without. rewrite <-Hm.
  assert (has_key e.1 e' → e' ∈ l1 ++ e :: l2 → e' = e) as Hu.
  { intros Hk He'. assert (e ∈ l1 ++ e :: l2) as He by set_solver.
    pose proof (proj2 (find_entry_iff e.1 _ e' Hs) (conj He' Hk)) as H1.
    pose proof (proj2 (find_entry_iff e.1 _ e Hs) (conj He (has_own_key e))). congruence. }
  split.
  2: { intros [He' Hk]. apply elem_of_app in He' as [?|[->|?]%elem_of_cons]; [set_solver| |set_solver]. destruct Hk. apply has_own_key. }
  intros He'. split; [set_solver|]. intros Hk. assert (e' = e) as -> by (apply Hu; set_solver).
  apply sorted_app in Hs as (_&Hs2&Hlt). apply sorted_cons in Hs2 as [_ Hlt2]. apply elem_of_app in He' as [He'|He'].
  - specialize (Hlt e e He' ltac:(by left)). by apply ord_lt_irrefl in Hlt.
  - specialize (Hlt2 e He'). by apply ord_lt_irrefl in Hlt2.
Qed.

(** *** References *)

(** The map with the values at the indices from [i] to [i + n] rewritten. *)
Lemma rewrite_all_ok (f : V → V) (l1 l2 l3 : svm) (self0 : svm) :
  rewrite_all f ((λ i, {| ref_map := self0; ref_index := i |}) <$> seq (length l1) (length l2)) (l1 ++ l2 ++ l3) =
  ret (l1 ++ ((λ e, (e.1, f e.2)) <$> l2) ++ l3).
Proof.
  revert l1. induction l2 as [|e l2 IH]; intros l1; csimpl; [done|].
  unfold rewrite_ref, deref, assign. simpl. rewrite !vec_index_middle. simpl. rewrite vec_set_middle.
  specialize (IH (l1 ++ [(e.1, f e.2)])). rewrite length_app in IH. simpl in IH. rewrite Nat.add_1_r, <-!app_assoc in IH. exact IH.
Qed.

(** The rewritten entries are those between two others, where the keys say so. *)
Lemma rewritten_lists s m (P : K * V → Prop) f (l1 l2 l3 : svm) :
  lists s m → m = l1 ++ l2 ++ l3 → (∀ e e', e.1 = e'.1 → P e ↔ P e') →
  (∀ e, e ∈ l1 → ¬ P e) → (∀ e, e ∈ l2 → P e) → (∀ e, e ∈ l3 → ¬ P e) →
  let m' := l1 ++ ((λ e, (e.1, f e.2)) <$> l2) ++ l3 in
  sorted m' ∧ same_map (λ e, e ∈ m') (rewritten s P f).
Proof.
  intros [Hs Hm] -> HP H1 H2 H3 m'. split.
  - apply sorted_fmap_fst. apply sorted_fmap_fst in Hs. unfold m'. rewrite !fmap_app, <-list_fmap_compose in *. exact Hs.
  - intros e. unfold m', rewritten. setoid_rewrite <-Hm. rewrite !elem_of_app, list_elem_of_fmap. split.
    + intros [He|[([k v]&->&He)|He]]; [left; split; [set_solver|by apply H1]| |left; split; [set_solver|by apply H3]].
      right. exists v. simpl. split_and!; [set_solver|by apply H2|done].
    + intros [[He Hn]|(v&He&HPe&Hv)].
      * destruct He as [?|[He|?]]; [auto| |auto]. by apply H2 in He.
      * destruct e as [k v']. simpl in *. rewrite !elem_of_app in He. destruct He as [He|[He|He]]; [by destruct (H1 _ He)| |by destruct (H3 _ He)].
        right. left. exists (k, v). by subst.
Qed.

(** *** Bulk operations *)

Lemma overridden_lists s m m' (l : svm) :
  lists s m → sorted m' → (∀ q : K, find_entry q m' = match last (hits q l) with Some e => Some e | None => find_entry q m end) →
  same_map (λ e, e ∈ m') (overridden s l).
Proof.
  intros [Hs Hm] Hs' Hq e. rewrite find_own, Hq by done. unfold overridden, last_given. rewrite <-Hm, (find_own m) by done.
  destruct (last (hits e.1 l)) as [e'|] eqn:Hl.
  - split; [by left|]. intros [?|[_ Hn]]; [done|]. by rewrite Hn in Hl.
  - apply last_None in Hl. rewrite Hl. naive_solver.
Qed.

(** [from_iter] keeps the last entry given for each key. *)
Lemma from_iter_entries (l : svm) :
  ∃ m', from_iter l = ret m' ∧ sorted m' ∧ ∀ q : K, find_entry q m' = last (hits q l).
Proof.
  unfold from_iter, extend, new. destruct (decide (length l = 1)) as [Hlen|Hlen].
  - destruct l as [|[k v] [|]]; try done. destruct (map_insert_spec k v [] ltac:(constructor)) as (m'&Hi&Hs'&Hq).
    cbn [extend_with_vec]. rewrite Hi. exists m'. split_and!; [done..|]. intros q. rewrite Hq. simpl. case_decide as Hk.
    + by rewrite (hits_cons_eq fst q (k, v)).
    + by rewrite (hits_cons_ne fst q (k, v)).
  - destruct (extend_with_vec_merge [] l Hlen ltac:(constructor)) as (m'&->&Hs'&Hq). exists m'. split_and!; [done..|].
    intros q. unfold find_entry. rewrite Hq. unfold merged_hits. by destruct (last (hits q l)).
Qed.

Lemma extend_lists s m (l : svm) :
  lists s m → ∃ m', extend m l = ret m' ∧ sorted m' ∧
    same_map (λ e, e ∈ m') (match l with [(k, v)] => inserted s k v | _ => overridden s l end).
Proof.
  intros Hm. pose proof Hm as [Hs _]. unfold extend. destruct (decide (length l = 1)) as [Hlen|Hlen].
  - destruct l as [|[k v] [|]]; try done. destruct (map_insert_spec k v m Hs) as (m'&Hi&Hs'&Hq). simpl. rewrite Hi.
    exists m'. split_and!; [done..|]. by apply (insert_lists s m).
  - destruct (extend_with_vec_merge m l Hlen Hs) as (m'&->&Hs'&Hq). exists m'. split_and!; [done..|].
    replace (match l with [(k, v)] => inserted s k v | _ => overridden s l end) with (overridden s l) by (by destruct l as [|[? ?] [|? ?]]).
    apply (overridden_lists s m); [done..|]. intros q. unfold find_entry. rewrite Hq. unfold merged_hits. by destruct (last (hits q l)).
Qed.

Lemma append_lists s m (other : svm) :
  lists s m → ∃ o m', from_iter other = ret o ∧ append m o = (m', []) ∧ sorted m' ∧ same_map (λ e, e ∈ m') (overridden s other).
Proof.
  intros Hm. destruct (from_iter_entries other) as (o&Ho&Hso&Hqo).
  destruct (map_append_spec m o (proj1 Hm) Hso) as (m'&Ha&Hs'&Hq). exists o, m'. split_and!; [done..|].
  apply (overridden_lists s m); [done..|]. intros q. by rewrite Hq, Hqo.
Qed.

Lemma retain_elem {St} (f : St → K → V → bool * V * St) st m e :
  e ∈ (retain f st m).1 ↔ ∃ i v st', m !! i = Some (e.1, v) ∧ f (state_after f st (take i m)) e.1 v = (true, e.2, st').
Proof.
  revert st. induction m as [|[k v] m IH]; intros st; simpl; [split; [set_solver|by intros (?&?&?&?&_)]|].
  destruct (f st k v) as [[keep v'] st1] eqn:Hf. specialize (IH st1). destruct (retain f st1 m) as [rest st2] eqn:Hr. simpl in *.
  transitivity ((keep = true ∧ e = (k, v')) ∨ e ∈ rest); [destruct keep; set_solver|]. rewrite IH. split.
  - intros [[-> ->]|(i&u&st'&Hi&Hu)].
    + exists 0, v, st1. by split.
    + exists (S i), u, st'. split; [done|]. unfold state_after in *. simpl. by rewrite Hf.
  - intros ([|i]&u&st'&Hi&Hu); simpl in *.
    + left. destruct e as [k' w]. simplify_eq/=. unfold state_after in Hu. simpl in Hu. rewrite Hf in Hu. by simplify_eq.
    + right. exists i, u, st'. split; [done|]. unfold state_after in *. simpl in Hu. by rewrite Hf in Hu.
Qed.

(** *** Ranges *)

Lemma range_mut_split `{Ord Q, !Borrow K Q} (lo hi : Bound Q) m :
  sorted m →
  (range_mut m lo hi = panic ∧ ∃ e, e ∈ m ∧ ¬ after_start lo e ∧ ¬ before_end hi e) ∨
  (¬ (∃ e, e ∈ m ∧ ¬ after_start lo e ∧ ¬ before_end hi e) ∧
   ∃ l1 l2 l3, m = l1 ++ l2 ++ l3 ∧ range_mut m lo hi = ret ((λ i, {| ref_map := m; ref_index := i |}) <$> seq (length l1) (length l2)) ∧
     (∀ e, e ∈ l1 → ¬ in_range lo hi e) ∧ (∀ e, e ∈ l2 → in_range lo hi e) ∧ (∀ e, e ∈ l3 → ¬ in_range lo hi e)).
Proof.
  intros Hs. pose proof (map_range_spec lo hi m Hs) as Hr. pose proof (range_mut_correct lo hi m Hs) as Hc. rewrite Hr in Hc.
  case_decide as Hx; [left|right].
  - destruct (range_mut m lo hi); [done|]. split; [done|]. by apply Exists_exists in Hx.
  - split; [by rewrite <-Exists_exists|]. clear Hr Hc.
    destruct (map_range_start_split lo m Hs) as (a1&a2&Ha&Hst&Ha1&Ha2).
    destruct (map_range_end_split hi m Hs) as (b1&b2&Hb&Hen&Hb1&Hb2). rewrite Forall_forall in Ha1, Ha2, Hb1, Hb2.
    assert (length a1 ≤ length b1) as Hle.
    { apply Nat.nlt_ge. intros Hlt. apply Hx, Exists_exists. rewrite Ha in Hb.
      destruct (lookup_lt_is_Some_2 a1 (length b1) Hlt) as [e He]. exists e. assert (e ∈ a1) as Hea by by eapply list_elem_of_lookup_2.
      split_and!; [rewrite Ha; set_solver|by apply Ha1|]. apply Hb2. apply (list_elem_of_lookup_2 _ 0).
      assert ((a1 ++ a2) !! length b1 = Some e) as Hl by (by rewrite lookup_app_l). rewrite Hb in Hl.
      rewrite lookup_app_r in Hl by lia. by rewrite Nat.sub_diag in Hl. }
    assert (b1 = a1 ++ drop (length a1) b1) as Hb1'.
    { rewrite <-(take_drop (length a1) b1) at 1. f_equal. rewrite Ha in Hb. apply (f_equal (take (length a1))) in Hb.
      rewrite take_app_length, take_app_le in Hb by lia. done. }
    exists a1, (drop (length a1) b1), b2. split_and!.
    + rewrite Hb. rewrite Hb1' at 1. by rewrite <-app_assoc.
    + unfold range_mut. rewrite Hst, Hen. simpl. rewrite decide_False by lia. unfold vec_slice.
      rewrite decide_True by (rewrite Hb, length_app; lia). simpl. by rewrite length_drop.
    + intros e He [Hx1 _]. by apply (Ha1 e He).
    + intros e He. split; [|apply Hb1; rewrite Hb1'; set_solver]. apply Ha2.
      assert (a2 = drop (length a1) b1 ++ b2) as ->; [|set_solver].
      rewrite Ha, Hb1', <-app_assoc in Hb. by apply app_inv_head in Hb.
    + intros e He [_ Hx2]. by apply (Hb2 e He).
Qed.

(** ** The operations keep their promises *)

(** An operation on a map that lists [s]. *)
Definition refines (o : op) s (r : exec (obs * svm)) : Prop :=
  match r with
  | panic => spec_panics o s
  | ret (b, m') => ¬ spec_panics o s ∧ sorted m' ∧ spec_op o s b (λ e, e ∈ m')
  end.

Section one.
Context (s : spec_map) (m : svm) (Hl : lists s m).

#[local] Lemma Hs : sorted m.
Proof. apply Hl. Qed.
#[local] Lemma same_self : same_map (λ e, e ∈ m) s.
Proof. intros e. apply Hl. Qed.

(** Operations that leave the map alone. *)
Lemma refines_read o b (P : Prop) : ¬ spec_panics o s → spec_op o s b (λ e, e ∈ m) = unchanged s (λ e, e ∈ m) P → P → refines o s (ret (b, m)).
Proof. intros Hp Heq HP. split; [done|]. split; [apply Hs|]. rewrite Heq. split; [done|apply same_self]. Qed.

Lemma whole_reads o :
  match o with
  | OpClear | OpLen | OpIsEmpty | OpIter | OpKeys | OpValues | OpIntoKeys | OpIntoValues | OpFirst | OpLast | OpPopLast | OpAtIndex _
  | OpFirstEntryRemove | OpLastEntryRemove => refines o s (run_op o m)
  | _ => True
  end.
Proof.
  pose proof Hl as [Hsm Hm].
  destruct o; try exact I; cbn [run_op]; try (eapply refines_read; [by intros []|reflexivity|by exists m]).
  - split; [by intros []|]. split; [constructor|]. split; [done|]. intros e. unfold empty_map. set_solver.
  - eapply refines_read; [by intros []|reflexivity|]. eexists. split; [done|]. unfold is_empty. destruct m as [|e m'] eqn:Hme.
    + split; [intros _; by apply lists_nil|done].
    + split; [done|]. intros Hn. destruct (Hn e) as [[] _]. apply Hm. by left.
  - eapply refines_read; [by intros []|reflexivity|]. exists (head m). split; [by apply head_least|done].
  - eapply refines_read; [by intros []|reflexivity|]. exists (last m). split; [by apply last_greatest|done].
  - pose proof (last_greatest s m Hl) as Hg. unfold pop_last. destruct (last m) as [e|] eqn:Hla.
    + apply last_Some in Hla as [m' ->]. rewrite length_app. simpl. replace (length m' + 1 - 1) with (length m') by lia.
      rewrite take_app_length. destruct (delete_lists s m' [] e Hl) as [Hd1 Hd2]. rewrite app_nil_r in Hd1, Hd2.
      split; [by intros []|]. split; [done|]. by exists (Some e).
    + split; [by intros []|]. split; [done|]. exists None. split; [done|]. split; [done|apply same_self].
  - pose proof (head_least s m Hl) as Hg. unfold first_entry, remove_occupied. destruct m as [|e m'] eqn:Hme; simpl.
    + split; [by intros []|]. split; [done|]. exists None. split_and!; [done..|]. intros e. by rewrite <-Hm.
    + unfold OccupiedEntry_remove_entry. simpl.
      destruct (delete_lists s [] m' e Hl) as [Hd1 Hd2]. split; [by intros []|]. split; [done|]. by exists (Some e).
  - pose proof (last_greatest s m Hl) as Hg. unfold last_entry, remove_occupied. destruct m as [|e m' _] using rev_ind; simpl.
    + split; [by intros []|]. split; [done|]. exists None. split_and!; [done..|]. intros e. by rewrite <-Hm.
    + replace (is_empty (m' ++ [e])) with false by (by destruct m'). rewrite last_snoc in Hg. unfold OccupiedEntry_remove_entry. simpl.
      rewrite length_app. simpl. replace (length m' + 1 - 1) with (length m') by lia. rewrite vec_remove_middle. simpl.
      destruct (delete_lists s m' [] e Hl) as [Hd1 Hd2]. split; [by intros []|]. split; [done|]. by exists (Some e).
Qed.

(** Look-ups. *)
Lemma lookups o :
  match o with
  | OpGet _ | OpGetKeyValue _ | OpContains _ | OpIndex _ | OpRange _ _ => refines o s (run_op o m)
  | _ => True
  end.
Proof.
  pose proof Hl as [Hsm Hm]. destruct o; try exact I; cbn [run_op].
  1-3: pose proof (lists_found q s m Hl) as Hf; destruct (map_get_spec q m Hsm) as (H1&H2&H3);
    first [rewrite H1|rewrite H2|rewrite H3]; (eapply refines_read; [by intros []|reflexivity|by eexists]).
  - pose proof (lists_found q s m Hl) as Hf. unfold index.
    destruct (map_find_index_split q m Hsm) as [(l1&e&l2&Heq&->&He&_)|(l1&l2&_&->&He&_)]; rewrite He in Hf; cbn [exec_bind ok expect]; [|exact Hf].
    replace (vec_index m (length l1)) with (ret e) by (by rewrite Heq, vec_index_middle). cbn [exec_bind]. eapply refines_read; [|reflexivity|by exists e].
    intros Hn. by destruct (Hn e (proj1 Hf) (proj2 Hf)).
  - pose proof (map_range_spec lo hi m Hsm) as ->. case_decide as Hx; cbn [exec_bind].
    + apply Exists_exists in Hx as (e&He&Hx). exists e. by rewrite <-Hm.
    + eapply refines_read; [|reflexivity|].
      * intros (e&He&Hx'). apply Hx, Exists_exists. exists e. by rewrite Hm.
      * eexists. split; [|reflexivity]. split; [eapply StronglySorted_sublist; [apply sublist_filter|done]|].
        intros e. rewrite list_elem_of_filter, Hm. tauto.
Qed.

(** Writing through a reference to the value of a key. *)
Lemma rewrite_ref_ok `{Ord Q, !Borrow K Q} (q : Q) f (l1 l2 : svm) e :
  m = l1 ++ e :: l2 → find_entry q m = Some e →
  let m' := l1 ++ (e.1, f e.2) :: l2 in
  rewrite_ref f {| ref_map := m; ref_index := length l1 |} = ret (e.2, m') ∧
  sorted m' ∧ same_map (λ e, e ∈ m') (rewritten s (has_key q) f).
Proof.
  intros Heq He m'. pose proof Hl as [Hsm Hm]. split.
  - unfold rewrite_ref, deref, assign. simpl. rewrite Heq, !vec_index_middle. simpl. by rewrite vec_set_middle.
  - apply (find_entry_iff q m e Hsm) in He as [Hem Hk].
    assert (∀ e', e' ∈ m → has_key q e' → e' = e) as Hu.
    { intros e' He' Hk'. pose proof (proj2 (find_entry_iff q m e' Hsm) (conj He' Hk')).
      pose proof (proj2 (find_entry_iff q m e Hsm) (conj Hem Hk)). congruence. }
    pose proof (sorted_nodup m Hsm) as Hnd.
    rewrite Heq in Hnd. apply NoDup_app in Hnd as (_&Hd1&[Hd2 _]%NoDup_cons).
    apply (rewritten_lists s m (has_key q) f l1 [e] l2); [done..| | | |].
    + intros e1 e2 H12. apply has_key_cong. rewrite H12. apply cmp_refl.
    + intros e' He' Hk'. assert (e' = e) as -> by (apply Hu; [rewrite Heq; set_solver|done]). apply (Hd1 e He'). by left.
    + by intros e' ->%list_elem_of_singleton.
    + intros e' He' Hk'. assert (e' = e) as -> by (apply Hu; [rewrite Heq; set_solver|done]). done.
Qed.

Lemma rewritten_none `{Ord Q, !Borrow K Q} (q : Q) f : found s q None → same_map (λ e, e ∈ m) (rewritten s (has_key q) f).
Proof.
  intros Hn e. rewrite (same_self e). unfold rewritten. split; [intros He; left; split; [done|by apply Hn]|].
  intros [[? _]|(v&Hv&Hk&_)]; [done|]. by destruct (Hn _ Hv).
Qed.

Lemma references o :
  match o with
  | OpGetMut _ _ | OpIndexMut _ _ | OpIterMut _ | OpValuesMut _ | OpRangeMut _ _ _ => refines o s (run_op o m)
  | _ => True
  end.
Proof.
  pose proof Hl as [Hsm Hm]. destruct o; try exact I; cbn [run_op].
  - pose proof (lists_found q s m Hl) as Hf. unfold get_mut, borrow_mut.
    destruct (map_find_index_split q m Hsm) as [(l1&e&l2&Heq&->&He&_)|(l1&l2&_&->&He&_)]; rewrite He in Hf; simpl.
    + destruct (rewrite_ref_ok q f l1 l2 e Heq He) as (Hr&Hs'&Hsame). replace (vec_index m (length l1)) with (ret e) by (by rewrite Heq, vec_index_middle). simpl. rewrite Hr. simpl.
      split; [by intros []|]. split; [done|]. by exists (Some e).
    + split; [by intros []|]. split; [done|]. exists None. split_and!; [done..|by apply rewritten_none].
  - pose proof (lists_found q s m Hl) as Hf. unfold index_mut, borrow_mut.
    destruct (map_find_index_split q m Hsm) as [(l1&e&l2&Heq&->&He&_)|(l1&l2&_&->&He&_)]; rewrite He in Hf; simpl; [|exact Hf].
    destruct (rewrite_ref_ok q f l1 l2 e Heq He) as (Hr&Hs'&Hsame). replace (vec_index m (length l1)) with (ret e) by (by rewrite Heq, vec_index_middle). simpl. rewrite Hr. simpl.
    split; [intros Hn; by destruct (Hn e (proj1 Hf) (proj2 Hf))|]. split; [done|]. by exists e.
  - pose proof (rewrite_all_ok f [] m [] m) as Hr. rewrite app_nil_r in Hr. simpl in Hr. unfold iter_mut. rewrite Hr. simpl.
    destruct (rewritten_lists s m (λ _, True) f [] m [] Hl) as [H1 H2]; [by rewrite app_nil_r|set_solver..|].
    split; [by intros []|]. by split.
  - pose proof (rewrite_all_ok f [] m [] m) as Hr. rewrite app_nil_r in Hr. simpl in Hr. unfold values_mut. rewrite Hr. simpl.
    destruct (rewritten_lists s m (λ _, True) f [] m [] Hl) as [H1 H2]; [by rewrite app_nil_r|set_solver..|].
    split; [by intros []|]. by split.
  - destruct (range_mut_split lo hi m Hsm) as [(->&e&He&Hx)|(Hx&l1&l2&l3&Heq&->&H1&H2&H3)]; simpl.
    + exists e. by rewrite <-Hm.
    + replace (rewrite_all f _ m) with (ret (l1 ++ ((λ e, (e.1, f e.2)) <$> l2) ++ l3)) by (by rewrite <-(rewrite_all_ok f l1 l2 l3 m), <-Heq). simpl.
      destruct (rewritten_lists s m (in_range lo hi) f l1 l2 l3 Hl Heq) as [Hs1 Hs2]; [|done..|].
      { intros [k v] [k' v'] Hk. simpl in Hk. subst k'. unfold SortedVec.in_range. by destruct lo, hi. }
      split; [|by split]. intros (e&He&Hx'). apply Hx. exists e. by rewrite Hm.
Qed.

Lemma map_insert_ok k v :
  ∃ m', insert m k v = ret (snd <$> find_entry k m, m') ∧ sorted m' ∧ same_map (λ e, e ∈ m') (inserted s k v).
Proof.
  destruct (map_insert_spec k v m (proj1 Hl)) as (m'&Hi&Hs'&Hq). exists m'. split_and!; [done..|]. by apply (insert_lists s m).
Qed.

(** Insertions, removals, and what works on many entries. *)
Lemma updates o :
  match o with
  | OpInsert _ _ | OpRemove _ | OpRemoveEntry _ | OpSplitOff _ | OpAppend _ | OpExtend _ | OpRetain _ _ => refines o s (run_op o m)
  | _ => True
  end.
Proof.
  pose proof Hl as [Hsm Hm]. destruct o; try exact I; cbn [run_op].
  - destruct (map_insert_ok k v) as (m'&->&Hs'&Hsame). split; [by intros []|]. split; [done|]. exists (find_entry k m).
    split_and!; [by apply lists_found|done..].
  - destruct (remove_spec q m Hsm) as (m'&->&_&Hs'&Hq). split; [by intros []|]. split; [done|]. exists (find_entry q m).
    split_and!; [by apply lists_found|done|by apply (without_lists s m)].
  - destruct (remove_spec q m Hsm) as (m'&_&->&Hs'&Hq). split; [by intros []|]. split; [done|]. exists (find_entry q m).
    split_and!; [by apply lists_found|done|by apply (without_lists s m)].
  - destruct (map_split_off_spec q m Hsm) as (m1&m2&->&Heq&Hs1&Hs2&H1&H2). split; [by intros []|]. split; [done|]. exists m2.
    assert (∀ e, s e ↔ e ∈ m1 ∨ e ∈ m2) as Hse by (intros e; by rewrite <-Hm, Heq, elem_of_app).
    split_and!; [split; [done|]|done|]; intros e; rewrite Hse; specialize (H1 e); specialize (H2 e); tauto.
  - destruct (append_lists s m other Hl) as (o&m'&->&Ha&Hs'&Hsame). cbn [exec_bind]. rewrite Ha.
    split; [by intros []|]. split; [done|]. by split.
  - destruct (extend_lists s m new_ Hl) as (m'&->&Hs'&Hsame). split; [by intros []|]. split; [done|]. by split.
  - split; [by intros []|]. split; [by apply map_retain_spec|]. split; [done|]. exists m. split; [done|]. intros e. apply retain_elem.
Qed.

(** The entry of a key. *)
Lemma entry_or_insert_ok o k d :
  ¬ spec_panics o s →
  (∀ b s', spec_op o s b s' =
     ∃ r, found s k r ∧ b = ObsValue (Some (from_option snd d r)) ∧ same_map s' (match r with Some _ => s | None => inserted s k d end)) →
  ∃ en r, entry m k = ret en ∧ or_insert en d = ret r ∧ or_insert_with en (λ _, d) = ret r ∧ or_default d en = ret r ∧
    refines o s (read_ref (ret r)).
Proof.
  intros Hp Ho. destruct (entry_or_insert_correct k d m (proj1 Hl)) as (e&r&He&H1&H2&H3&_&Hd&Hr).
  exists e, r. split_and!; [done..|]. unfold read_ref. cbn [exec_bind]. rewrite Hd. cbn [exec_bind]. split; [done|]. rewrite Ho.
  pose proof (lists_found k s m Hl) as Hf. destruct (find_entry k m) as [e0|] eqn:He0.
  - rewrite Hr. split; [apply Hl|]. exists (Some e0). split_and!; [done..|apply same_self].
  - destruct (map_insert_ok k d) as (m'&Hi&Hs'&Hsame). rewrite Hi, He0 in Hr. injection Hr as ->.
    split; [done|]. exists None. by split_and!.
Qed.

Lemma entries o :
  match o with
  | OpEntryKey _ | OpEntryOrInsert _ _ | OpEntryOrInsertWith _ _ | OpEntryOrDefault _ _ | OpEntryModify _ _ _ => refines o s (run_op o m)
  | _ => True
  end.
Proof.
  pose proof Hl as [Hsm Hm]. destruct o; try exact I; cbn [run_op].
  - destruct (entry_cases k m Hsm) as [(l1&e&l2&Heq&He&_&->)|(l1&l2&_&He&_&_&->)]; cbn [exec_bind Entry_key].
    + unfold OccupiedEntry_key. cbn [oe_map oe_index]. replace (vec_index m (length l1)) with (ret e) by (by rewrite Heq, vec_index_middle).
      eapply refines_read; [by intros []|reflexivity|]. exists (Some e). split; [|done]. rewrite <-He. by apply lists_found.
    + eapply refines_read; [by intros []|reflexivity|]. exists None. split; [|done]. rewrite <-He. by apply lists_found.
  - destruct (entry_or_insert_ok (OpEntryOrInsert k d) k d) as (e&r&->&H1&_&_&Hr); [by intros []|done|]. cbn [exec_bind]. by rewrite H1.
  - destruct (entry_or_insert_ok (OpEntryOrInsertWith k d) k (d ())) as (e&r&->&_&H2&_&Hr); [by intros []|done|]. cbn [exec_bind].
    replace (or_insert_with e d) with (or_insert_with e (λ _, d ())) by (by destruct e). by rewrite H2.
  - destruct (entry_or_insert_ok (OpEntryOrDefault k d) k d) as (e&r&->&_&_&H3&Hr); [by intros []|done|]. cbn [exec_bind]. by rewrite H3.
  - destruct (upsert_spec k f d m Hsm) as (e&e'&r&->&Ha&Hr&Hd&Hi). cbn [exec_bind]. rewrite Ha. cbn [exec_bind]. unfold read_ref.
    rewrite Hr. cbn [exec_bind]. rewrite Hd. cbn [exec_bind].
    destruct (map_insert_ok k (match find_entry k m with Some e => f e.2 | None => d end)) as (m'&Hi'&Hs'&Hsame).
    rewrite Hi in Hi'. injection Hi' as ->. split; [by intros []|]. split; [done|]. exists (find_entry k m). split; [by apply lists_found|by split].
Qed.

Lemma entry_updates o :
  match o with OpEntryInsert _ _ | OpEntryRemove _ => refines o s (run_op o m) | _ => True end.
Proof.
  pose proof Hl as [Hsm Hm]. destruct o; try exact I; cbn [run_op].
  - destruct (map_insert_ok k v) as (m'&Hi&Hs'&Hsame). pose proof (lists_found k s m Hl) as Hf.
    destruct (entry_cases k m Hsm) as [(l1&e&l2&_&_&_&He)|(l1&l2&Heq&Hno&Hb&Ha&->)]; cbn [exec_bind].
    + rewrite He. cbn [exec_bind]. destruct (occupied_entry_correct k v m _ Hsm He) as (e'&_&m2&Hf'&_&_&_&_&_&->&Hi2).
      rewrite Hi, Hf' in Hi2. injection Hi2 as <-. rewrite Hf' in Hf. split; [by intros []|]. split; [done|]. by exists (Some e').
    + rewrite Heq in Hsm |- *. destruct (vacant_insert_correct k v l1 l2 Hsm Hb Ha) as [-> Hi2]. rewrite Heq, Hi2 in Hi. injection Hi as _ <-.
      rewrite Hno in Hf. split; [by intros []|]. split; [done|]. by exists None.
  - pose proof (lists_found k s m Hl) as Hf. destruct (remove_spec k m Hsm) as (m'&_&Hr&Hs'&Hq).
    pose proof (without_lists s m m' k Hl Hs' Hq) as Hsame.
    destruct (entry_cases k m Hsm) as [(l1&e&l2&_&_&_&He)|(l1&l2&_&Hno&_&_&->)]; cbn [exec_bind].
    + rewrite He. cbn [exec_bind]. destruct (occupied_entry_correct k e.2 m _ Hsm He) as (e'&m2&_&Hf'&_&_&Hrm&_&Hr2&_&_).
      unfold remove_occupied. rewrite Hrm. cbn [exec_bind]. rewrite Hr in Hr2. injection Hr2 as _ ->.
      rewrite Hf' in Hf. split; [by intros []|]. split; [done|]. by exists (Some e').
    + rewrite Hno in Hf. split; [by intros []|]. split; [done|]. exists None. split_and!; [done..|]. intros e. rewrite (same_self e).
      unfold without. split; [|by intros [? _]]. intros He. split; [done|by apply Hf].
Qed.

Lemma run_op_refines o : refines o s (run_op o m).
Proof.
  pose proof (whole_reads o); pose proof (lookups o); pose proof (references o); pose proof (updates o); pose proof (entries o);
    pose proof (entry_updates o). by destruct o.
Qed.
End one.

Lemma run_ops_refine os s m :
  lists s m →
  match run_ops os m with
  | ret (bs, m') => ∃ s', spec_ops os s bs s' ∧ lists s' m'
  | panic => spec_ops_panic os s
  end.
Proof.
  revert s m. induction os as [|o os IH]; intros s m Hm; simpl; [exists s; split; [constructor|done]|].
  pose proof (run_op_refines s m Hm o) as Ho. unfold refines in Ho. destruct (run_op o m) as [[b m1]|]; simpl; [|by apply spec_panic_now].
  destruct Ho as (Hp&Hs1&Hb). specialize (IH _ m1 (lists_self m1 Hs1)). destruct (run_ops os m1) as [[bs m2]|]; simpl.
  - destruct IH as (s'&Hrun&Hm2). exists s'. split; [by econstructor|done].
  - by econstructor.
Qed.

(** C6: a map made by [new] behaves under every sequence of its public operations as the set of its
    entries does: whatever the borrowed forms that keys are looked up by, the callbacks with their
    states and the order of keys, each operation answers and changes the set as [spec_op] says; the
    vector stays sorted, with one entry per key, and lists the set; and a sequence panics at an
    operation just where [spec_panics] says: on an absent key that is indexed, and on a range some
    entry of the map is neither after the start nor before the end of. *)
Theorem map_operations_refine (os : list op) :
  match run_ops os new with
  | ret (bs, m') => ∃ s', spec_ops os empty_map bs s' ∧ lists s' m'
  | panic => spec_ops_panic os empty_map
  end.
Proof. apply run_ops_refine. by apply lists_nil. Qed.
End refinement.

(** ** A concrete run *)

Section concrete.
#[local] Existing Instance zip_itertools.

Example map_operations_run :
  run_ops [OpInsert 4 true; OpExtend [(7, true); (4, false); (1, true)]; OpRemove 1; OpGet 4; OpSplitOff 5; OpEntryModify 4 negb false] new =
    ret ([ObsValue None; ObsUnit; ObsValue (Some true); ObsValue (Some false); ObsEntries [(7, true)]; ObsValue (Some true)], [(4, true)]) ∧
  run_ops [OpInsert 4 true; OpIndex 5] new = panic ∧
  run_ops [OpInsert 4 true; OpRange (Included 5) (Excluded 3)] new = panic ∧
  run_ops [OpInsert 6 true; OpRange (Included 5) (Excluded 3)] new = ret ([ObsValue None; ObsEntries []], [(6, true)]).
Proof. vm_compute. done. Qed.
End concrete.
End MapRefinement.
