(* ===== verification/SetRefinement.v ===== *)
(** What [sorted_vector_map::set] promises: a set is a predicate on elements with at most one of each
    class of equal elements, and every public operation of [SortedVectorSet]
    (src/shed/sorted_vector_map/src/set.rs) does to that set, answers, and panics as said here.  The
    operations that take a second set are given the values it is collected from; the lazy set
    operations are drained (their size hints are in SortedVectorSet.v, as are [From] and the macro). *)
From S2P Require Import Prelude RustStd SortedVec SortedVectorSet.
Import SortedVectorSet.

Module SetRefinement.
Section refinement.
Context {T : Type} `{Ord T} `{Itertools}.
#[local] Abbreviation sorted := (sorted (E:=T) id).
#[local] Abbreviation hits := (hits (E:=T) id).
#[local] Abbreviation in_range := (in_range (K:=T) (E:=T) id).
#[local] Abbreviation after_start := (after_start (K:=T) (E:=T) id).
#[local] Abbreviation before_end := (before_end (K:=T) (E:=T) id).

(** ** The operations *)

(** Look-ups take any borrowed form of an element; the predicate of [retain] may have state. *)
Inductive op : Type :=
| OpClear | OpLen | OpIsEmpty | OpIter | OpIntoInner | OpFirst | OpLast | OpPopLast
| OpContains {Q} {OQ : Ord Q} {B : Borrow T Q} (q : Q) | OpGet {Q} {OQ : Ord Q} {B : Borrow T Q} (q : Q)
| OpRange {Q} {OQ : Ord Q} {B : Borrow T Q} (lo hi : Bound Q)
| OpTake {Q} {OQ : Ord Q} {B : Borrow T Q} (q : Q) | OpRemove {Q} {OQ : Ord Q} {B : Borrow T Q} (q : Q)
| OpSplitOff {Q} {OQ : Ord Q} {B : Borrow T Q} (q : Q)
| OpInsert (x : T) | OpReplace (x : T)
| OpRetain {St : Type} (f : St → T → bool * St) (st : St)
| OpAppend (other : list T) | OpExtend (new_ : list T)
| OpIsDisjoint (other : list T) | OpIsSubset (other : list T) | OpIsSuperset (other : list T)
| OpDifference (other : list T) | OpSymmetricDifference (other : list T)
| OpIntersection (other : list T) | OpUnion (other : list T)
| OpSub (other : list T) | OpBitXor (other : list T) | OpBitAnd (other : list T) | OpBitOr (other : list T).

(** What a caller sees. *)
Inductive obs :=
| ObsUnit | ObsBool (b : bool) | ObsLen (n : nat) | ObsElement (o : option T) | ObsElements (l : list T).

(** An answer that is computed from [self] and a second set. *)
Definition with_other (other self : list T) (f : list T → exec obs) : exec (obs * list T) :=
  let! other := from_iter other in let! b := f other in ret (b, self).

Definition run_op (o : op) (self : list T) : exec (obs * list T) :=
  match o with
  | OpClear => ret (ObsUnit, clear self)
  | OpLen => ret (ObsLen (len self), self)
  | OpIsEmpty => ret (ObsBool (is_empty self), self)
  | OpIter => ret (ObsElements (iter self), self)
  | OpIntoInner => ret (ObsElements (into_inner self), self)
  | OpFirst => ret (ObsElement (first self), self)
  | OpLast => ret (ObsElement (last self), self)
  | OpPopLast => let '(r, self) := pop_last self in ret (ObsElement r, self)
  | OpContains q => let! b := contains self q in ret (ObsBool b, self)
  | OpGet q => let! r := get self q in ret (ObsElement r, self)
  | OpRange lo hi => let! l := range self lo hi in ret (ObsElements l, self)
  | OpTake q => let! '(r, self) := take_ self q in ret (ObsElement r, self)
  | OpRemove q => let! '(b, self) := remove self q in ret (ObsBool b, self)
  | OpSplitOff q => let! '(self, other) := split_off self q in ret (ObsElements other, self)
  | OpInsert x => let! '(b, self) := insert self x in ret (ObsBool b, self)
  | OpReplace x => let! '(r, self) := replace self x in ret (ObsElement r, self)
  | OpRetain f st => ret (ObsUnit, (retain f st self).1)
  | OpAppend other =>
      let! other := from_iter other in let '(self, other) := append self other in ret (ObsElements other, self)
  | OpExtend new_ => let! self := extend self new_ in ret (ObsUnit, self)
  | OpIsDisjoint other => with_other other self (λ other, ret (ObsBool (is_disjoint self other)))
  | OpIsSubset other => with_other other self (λ other, ret (ObsBool (is_subset self other)))
  | OpIsSuperset other => with_other other self (λ other, ret (ObsBool (is_superset self other)))
  | OpDifference other => with_other other self (λ other, ret (ObsElements (Difference_collect self other)))
  | OpSymmetricDifference other => with_other other self (λ other, ret (ObsElements (SymmetricDifference_collect self other)))
  | OpIntersection other => with_other other self (λ other, ret (ObsElements (Intersection_collect self other)))
  | OpUnion other => with_other other self (λ other, ret (ObsElements (Union_collect self other)))
  | OpSub other => with_other other self (λ other, let! r := sub self other in ret (ObsElements r))
  | OpBitXor other => with_other other self (λ other, let! r := bitxor self other in ret (ObsElements r))
  | OpBitAnd other => with_other other self (λ other, let! r := bitand self other in ret (ObsElements r))
  | OpBitOr other => with_other other self (λ other, let! r := bitor self other in ret (ObsElements r))
  end.

(** ** What they promise *)

(** A set says which elements are in it. *)
Definition spec_set : Type := T → Prop.
Implicit Types (s : spec_set) (x y z : T) (m l : list T).
Definition empty_set : spec_set := λ _, False.

(** The elements of [s] in order, one of each class. *)
Definition lists s l : Prop := sorted l ∧ ∀ x, x ∈ l ↔ s x.
Definition same_set s s' : Prop := ∀ x, s x ↔ s' x.

(** [q] is a form of [x]. *)
Definition is_form `{Ord Q, !Borrow T Q} (q : Q) x : Prop := ord_eq (borrow x) q.
Definition found `{Ord Q, !Borrow T Q} s (q : Q) (r : option T) : Prop :=
  match r with Some x => s x ∧ is_form q x | None => ∀ x, s x → ¬ is_form q x end.

Definition least s (r : option T) : Prop :=
  match r with Some x => s x ∧ ∀ y, s y → y = x ∨ ord_lt x y | None => ∀ x, ¬ s x end.
Definition greatest s (r : option T) : Prop :=
  match r with Some x => s x ∧ ∀ y, s y → y = x ∨ ord_lt y x | None => ∀ x, ¬ s x end.

(** [x] takes the place of what is equal to it. *)
Definition put s x : spec_set := λ y, y = x ∨ s y ∧ ¬ is_form x y.
Definition without `{Ord Q, !Borrow T Q} s (q : Q) : spec_set := λ x, s x ∧ ¬ is_form q x.
Definition drop_element s (r : option T) : spec_set := match r with Some x => without s x | None => s end.

(** The last of the values of [l] that are equal to it. *)
Definition collected l : spec_set := λ x, list.last (hits x l) = Some x.
Definition overridden s l : spec_set := λ x, collected l x ∨ s x ∧ hits x l = [].

(** [s] has an element that is equal to [x]. *)
Definition covers s x : Prop := ∃ y, s y ∧ ord_eq y x.

(** The state that a callback has when it comes to an element. *)
Definition state_after {St} (f : St → T → bool * St) (st : St) l : St := foldl (λ st x, (f st x).2) st l.

(** The one panic: a range in which some element is neither after the start nor before the end. *)
Definition spec_panics (a : op) s : Prop :=
  match a with
  | OpRange lo hi => ∃ x, s x ∧ ¬ after_start lo x ∧ ¬ before_end hi x
  | _ => False
  end.

Definition unchanged s s' (P : Prop) : Prop := P ∧ same_set s' s.
(** The answer says whether [P] holds. *)
Definition says (b : obs) (P : Prop) : Prop := ∃ r, b = ObsBool r ∧ (r = true ↔ P).

(** [is_subset] and [is_superset] answer as the code does, the one for the other. *)
Definition spec_op (a : op) s (b : obs) s' : Prop :=
  match a with
  | OpClear => b = ObsUnit ∧ same_set s' empty_set
  | OpLen => unchanged s s' (∃ l, lists s l ∧ b = ObsLen (length l))
  | OpIsEmpty => unchanged s s' (says b (same_set s empty_set))
  | OpIter | OpIntoInner => unchanged s s' (∃ l, lists s l ∧ b = ObsElements l)
  | OpFirst => unchanged s s' (∃ r, least s r ∧ b = ObsElement r)
  | OpLast => unchanged s s' (∃ r, greatest s r ∧ b = ObsElement r)
  | OpPopLast => ∃ r, greatest s r ∧ b = ObsElement r ∧ same_set s' (drop_element s r)
  | OpContains q => unchanged s s' (∃ r, found s q r ∧ b = ObsBool (bool_decide (is_Some r)))
  | OpGet q => unchanged s s' (∃ r, found s q r ∧ b = ObsElement r)
  | OpRange lo hi => unchanged s s' (∃ l, lists (λ x, s x ∧ in_range lo hi x) l ∧ b = ObsElements l)
  | OpTake q => ∃ r, found s q r ∧ b = ObsElement r ∧ same_set s' (without s q)
  | OpRemove q => ∃ r, found s q r ∧ b = ObsBool (bool_decide (is_Some r)) ∧ same_set s' (without s q)
  | OpSplitOff q =>
      ∃ l, lists (λ x, s x ∧ ¬ ord_lt (borrow x) q) l ∧ b = ObsElements l ∧ same_set s' (λ x, s x ∧ ord_lt (borrow x) q)
  | OpInsert x => ∃ r, found s x r ∧ b = ObsBool (bool_decide (r = None)) ∧ same_set s' (put s x)
  | OpReplace x => ∃ r, found s x r ∧ b = ObsElement r ∧ same_set s' (put s x)
  | OpRetain f st =>
      b = ObsUnit ∧ ∃ l, lists s l ∧
        same_set s' (λ x, ∃ i st', l !! i = Some x ∧ f (state_after f st (take i l)) x = (true, st'))
  | OpAppend other => b = ObsElements [] ∧ same_set s' (overridden s other)
  | OpExtend new_ => b = ObsUnit ∧ same_set s' (overridden s new_)
  | OpIsDisjoint other => unchanged s s' (says b (∀ x, s x → ¬ covers (collected other) x))
  | OpIsSubset other => unchanged s s' (says b (∀ x, collected other x → covers s x))
  | OpIsSuperset other => unchanged s s' (says b (∀ x, s x → covers (collected other) x))
  | OpDifference other | OpSub other =>
      unchanged s s' (∃ l, lists (λ x, s x ∧ ¬ covers (collected other) x) l ∧ b = ObsElements l)
  | OpSymmetricDifference other | OpBitXor other =>
      unchanged s s' (∃ l,
        lists (λ x, s x ∧ ¬ covers (collected other) x ∨ collected other x ∧ ¬ covers s x) l ∧ b = ObsElements l)
  | OpIntersection other | OpBitAnd other =>
      unchanged s s' (∃ l, lists (λ x, s x ∧ covers (collected other) x) l ∧ b = ObsElements l)
  | OpUnion other | OpBitOr other =>
      unchanged s s' (∃ l,
        lists (λ x, collected other x ∨ s x ∧ ¬ covers (collected other) x) l ∧ b = ObsElements l)
  end.

(** A sequence of operations, up to the first that panics. *)
Fixpoint run_ops (os : list op) (self : list T) : exec (list obs * list T) :=
  match os with
  | [] => ret ([], self)
  | a :: os => let! '(b, self) := run_op a self in let! '(bs, self) := run_ops os self in ret (b :: bs, self)
  end.
Inductive spec_ops : list op → spec_set → list obs → spec_set → Prop :=
| spec_nil s : spec_ops [] s [] s
| spec_cons a os s b s1 bs s2 :
    ¬ spec_panics a s → spec_op a s b s1 → spec_ops os s1 bs s2 → spec_ops (a :: os) s (b :: bs) s2.
Inductive spec_ops_panic : list op → spec_set → Prop :=
| spec_panic_now a os s : spec_panics a s → spec_ops_panic (a :: os) s
| spec_panic_later a os s b s1 :
    ¬ spec_panics a s → spec_op a s b s1 → spec_ops_panic os s1 → spec_ops_panic (a :: os) s.

(** ** Sorted vectors and sets of elements *)

Lemma set_lists_found `{Ord Q, !Borrow T Q} (q : Q) s m : lists s m → found s q (find_value q m).
Proof.
  intros [Hs Hm]. destruct (find_value q m) as [x|] eqn:Hx; simpl.
  - apply find_value_Some in Hx as [??]; [|done]. split; [by apply Hm|done].
  - intros x Hsx. rewrite find_value_None in Hx. by apply Hx, Hm.
Qed.

Lemma set_lists_self m : sorted m → lists (λ x, x ∈ m) m.
Proof. by split. Qed.

Lemma set_lists_nil s : lists s [] ↔ same_set s empty_set.
Proof.
  unfold lists, same_set, empty_set. split.
  - intros [_ Hm] x. rewrite <-Hm. set_solver.
  - intros Hs. split; [constructor|]. intros x. rewrite Hs. set_solver.
Qed.

Lemma is_form_own x : is_form x x.
Proof. apply cmp_refl. Qed.

Lemma covers_has s m x : lists s m → covers s x ↔ has m x.
Proof.
  intros [_ Hm]. unfold has, covers. rewrite Exists_exists. setoid_rewrite <-Hm.
  split; intros (y&Hy&Hxy); exists y; (split; [done|by symmetry]).
Qed.

(** Updates that are known by what is found after them. *)
Lemma put_lists s m m' x :
  lists s m → sorted m' → (∀ y, find_value y m' = if decide (ord_eq x y) then Some x else find_value y m) →
  same_set (λ y, y ∈ m') (put s x).
Proof.
  intros [Hs Hm] Hs' Hq y. rewrite <-find_self, Hq by done. unfold put, is_form. rewrite <-Hm, <-(find_self m) by done.
  assert (ord_eq (borrow y) x ↔ ord_eq x y) as -> by (split; intros Hyx; symmetry; exact Hyx).
  case_decide as Hxy.
  - split; [intros [= ->]; by left|]. by intros [->|[_ Hn]].
  - split; [by right|]. intros [->|[? _]]; [|done]. destruct Hxy. apply cmp_refl.
Qed.

Lemma set_without_lists `{Ord Q, !Borrow T Q} s m m' (q : Q) :
  lists s m → sorted m' → (∀ q' : Q, find_value q' m' = if decide (ord_eq q q') then None else find_value q' m) →
  same_set (λ x, x ∈ m') (without s q).
Proof.
  intros [Hs Hm] Hs' Hq x. specialize (Hq (borrow x)). unfold without, is_form. rewrite <-Hm.
  assert (∀ l, sorted l → x ∈ l ↔ find_value (borrow x : Q) l = Some x) as Hf.
  { intros l Hl. rewrite find_value_Some by done. pose proof (cmp_refl (borrow x : Q)). unfold ord_eq. tauto. }
  rewrite (Hf m'), Hq, (Hf m) by done.
  assert (ord_eq (borrow x) q ↔ ord_eq q (borrow x)) as -> by (split; by intros ->). case_decide; naive_solver.
Qed.

Lemma set_overridden_lists s m m' l :
  lists s m → sorted m' → (∀ x, find_value x m' = extended x m l) → same_set (λ x, x ∈ m') (overridden s l).
Proof.
  intros [Hs Hm] Hs' Hq x. rewrite <-find_self, Hq by done. unfold overridden, collected, extended. rewrite <-Hm, <-(find_self m) by done.
  destruct (list.last (hits x l)) as [y|] eqn:Hl.
  - split; [by left|]. intros [?|[_ Hn]]; [done|]. by rewrite Hn in Hl.
  - apply last_None in Hl. rewrite Hl. naive_solver.
Qed.

(** A set that is collected from values. *)
Lemma from_iter_lists l :
  ∃ o, from_iter l = ret o ∧ lists (collected l) o ∧ ∀ x, find_value x o = list.last (hits x l).
Proof.
  destruct (set_extend_spec [] l) as (o&Ho&Hs&Hq); [constructor|]. exists o.
  assert (∀ x, find_value x o = list.last (hits x l)) as Hf.
  { intros x. specialize (Hq T _ _ x). rewrite Hq. unfold extended. by destruct (list.last (hits x l)). }
  split_and!; [done| |done]. split; [done|]. intros x. by rewrite <-find_self, Hf.
Qed.

Lemma set_head_least s m : lists s m → least s (head m).
Proof.
  intros [Hs Hm]. destruct m as [|x m]; simpl.
  - intros y Hy%Hm. set_solver.
  - split; [apply Hm; by left|]. apply sorted_cons in Hs as [_ Hlt]. intros y [->|Hy]%Hm%elem_of_cons; [by left|right; by apply Hlt].
Qed.

Lemma set_last_greatest s m : lists s m → greatest s (list.last m).
Proof.
  intros [Hs Hm]. destruct m as [|x m _] using rev_ind; simpl.
  - intros y Hy%Hm. set_solver.
  - rewrite last_snoc. split; [apply Hm; set_solver|]. apply sorted_app in Hs as (_&_&Hlt).
    intros y [Hy|Hy%list_elem_of_singleton]%Hm%elem_of_app; [right; apply Hlt; set_solver|by left].
Qed.

(** The greatest element taken off. *)
Lemma pop_lists s l1 x : lists s (l1 ++ [x]) → sorted l1 ∧ same_set (λ y, y ∈ l1) (without s x).
Proof.
  intros [Hs Hm]. apply sorted_app in Hs as (Hs1&_&Hlt). split; [done|]. intros y. unfold without. rewrite <-Hm.
  rewrite elem_of_app, list_elem_of_singleton. split.
  - intros Hy. split; [by left|]. intros Hxy. specialize (Hlt y x Hy ltac:(set_solver)). by apply ord_not_lt_eq in Hxy.
  - intros [[?| ->] Hn]; [done|]. destruct Hn. apply is_form_own.
Qed.

Lemma set_retain_elem {St} (f : St → T → bool * St) st m x :
  x ∈ (retain f st m).1 ↔ ∃ i st', m !! i = Some x ∧ f (state_after f st (take i m)) x = (true, st').
Proof.
  revert st. induction m as [|y m IH]; intros st; simpl; [split; [set_solver|by intros (?&?&?&_)]|].
  destruct (f st y) as [keep st1] eqn:Hf. specialize (IH st1). destruct (retain f st1 m) as [rest st2] eqn:Hr. simpl in *.
  transitivity ((keep = true ∧ x = y) ∨ x ∈ rest); [destruct keep; set_solver|]. rewrite IH. split.
  - intros [[-> ->]|(i&st'&Hi&Hu)].
    + exists 0, st1. by split.
    + exists (S i), st'. split; [done|]. unfold state_after in *. simpl. by rewrite Hf.
  - intros ([|i]&st'&Hi&Hu); simpl in *.
    + left. simplify_eq/=. unfold state_after in Hu. simpl in Hu. rewrite Hf in Hu. by simplify_eq.
    + right. exists i, st'. split; [done|]. unfold state_after in *. simpl in Hu. by rewrite Hf in Hu.
Qed.

(** ** The operations keep their promises *)

(** An operation on a vector that lists [s]. *)
Definition refines (a : op) s (r : exec (obs * list T)) : Prop :=
  match r with
  | panic => spec_panics a s
  | ret (b, m') => ¬ spec_panics a s ∧ sorted m' ∧ spec_op a s b (λ x, x ∈ m')
  end.

Section one.
Context (s : spec_set) (m : list T) (Hl : lists s m).

#[local] Lemma set_same_self : same_set (λ x, x ∈ m) s.
Proof. intros x. apply Hl. Qed.

Lemma set_refines_read a b (P : Prop) : ¬ spec_panics a s → spec_op a s b (λ x, x ∈ m) = unchanged s (λ x, x ∈ m) P → P → refines a s (ret (b, m)).
Proof. intros Hp Heq HP. split; [done|]. split; [apply Hl|]. rewrite Heq. split; [done|apply set_same_self]. Qed.

Lemma set_whole_reads a :
  match a with
  | OpClear | OpLen | OpIsEmpty | OpIter | OpIntoInner | OpFirst | OpLast | OpPopLast => refines a s (run_op a m)
  | _ => True
  end.
Proof.
  destruct a; try exact I; cbn [run_op]; try (eapply set_refines_read; [by intros []|reflexivity|by exists m]).
  - split; [by intros []|]. split; [constructor|]. split; [done|]. intros x. unfold empty_set. set_solver.
  - eapply set_refines_read; [by intros []|reflexivity|]. eexists. split; [done|]. unfold is_empty. destruct m as [|x m'] eqn:Hme.
    + split; [intros _; by apply set_lists_nil|done].
    + split; [done|]. intros Hn. destruct (Hn x) as [[] _]. apply Hl. by left.
  - eapply set_refines_read; [by intros []|reflexivity|]. exists (head m). split; [by apply set_head_least|done].
  - eapply set_refines_read; [by intros []|reflexivity|]. exists (list.last m). split; [by apply set_last_greatest|done].
  - pose proof (set_last_greatest s m Hl) as Hg. unfold pop_last. destruct (list.last m) as [x|] eqn:Hla.
    + apply last_Some in Hla as [m' Hm']. rewrite Hm', length_app. simpl. replace (length m' + 1 - 1) with (length m') by lia.
      rewrite take_app_length. assert (lists s (m' ++ [x])) as Hl' by (rewrite <-Hm'; exact Hl). destruct (pop_lists s m' x Hl') as [Hd1 Hd2].
      split; [by intros []|]. split; [done|]. by exists (Some x).
    + split; [by intros []|]. split; [apply Hl|]. exists None. split; [done|]. split; [done|apply set_same_self].
Qed.

Lemma set_lookups a :
  match a with OpContains _ | OpGet _ | OpRange _ _ => refines a s (run_op a m) | _ => True end.
Proof.
  pose proof Hl as [Hsm Hm]. destruct a; try exact I; cbn [run_op].
  1-2: pose proof (set_lists_found q s m Hl) as Hf; destruct (set_get_spec q m Hsm) as [H1 H2];
    first [rewrite H2|rewrite H1]; (eapply set_refines_read; [by intros []|reflexivity|by eexists]).
  rewrite (set_range_spec lo hi m Hsm). case_decide as Hx; cbn [exec_bind].
  - apply Exists_exists in Hx as (x&Hxm&Hx). exists x. by rewrite <-Hm.
  - eapply set_refines_read; [|reflexivity|].
    + intros (x&Hxm&Hx'). apply Hx, Exists_exists. exists x. by rewrite Hm.
    + eexists. split; [|reflexivity]. split; [eapply StronglySorted_sublist; [apply sublist_filter|done]|].
      intros x. rewrite list_elem_of_filter, Hm. tauto.
Qed.

Lemma set_updates a :
  match a with
  | OpTake _ | OpRemove _ | OpSplitOff _ | OpInsert _ | OpReplace _ | OpRetain _ _ | OpAppend _ | OpExtend _ => refines a s (run_op a m)
  | _ => True
  end.
Proof.
  pose proof Hl as [Hsm Hm]. destruct a; try exact I; cbn [run_op].
  1-2: unfold remove; destruct (take_spec q m Hsm) as (m'&->&Hs'&Hq); (split; [by intros []|]); (split; [done|]); exists (find_value q m);
    (split_and!; [by apply set_lists_found|done|by apply (set_without_lists s m)]).
  - destruct (set_split_off_spec q m Hsm) as (m1&m2&->&Heq&Hs1&Hs2&H1&H2). split; [by intros []|]. split; [done|]. exists m2.
    assert (∀ x, s x ↔ x ∈ m1 ∨ x ∈ m2) as Hse by (intros x; by rewrite <-Hm, Heq, elem_of_app).
    split_and!; [split; [done|]|done|]; intros x; rewrite Hse; specialize (H1 x); specialize (H2 x); tauto.
  - destruct (set_insert_spec x m Hsm) as (m'&->&Hs'&Hq). split; [by intros []|]. split; [done|]. exists (find_value x m).
    split_and!; [by apply set_lists_found|done|]. by apply (put_lists s m); [..|intros y; apply (Hq T)].
  - destruct (replace_spec x m Hsm) as (m'&->&Hs'&Hq). split; [by intros []|]. split; [done|]. exists (find_value x m).
    split_and!; [by apply set_lists_found|done|]. by apply (put_lists s m); [..|intros y; apply (Hq T)].
  - split; [by intros []|]. split; [eapply StronglySorted_sublist; [apply set_retain_sublist|done]|]. split; [done|].
    exists m. split; [done|]. intros x. apply set_retain_elem.
  - destruct (from_iter_lists other) as (o&->&Ho&Hf). cbn [exec_bind].
    destruct (set_append_spec m o Hsm (proj1 Ho)) as (m'&->&Hs'&Hq). split; [by intros []|]. split; [done|]. split; [done|].
    apply (set_overridden_lists s m); [done..|]. intros x. rewrite (Hq T _ _ x), Hf. done.
  - unfold extend. destruct (set_extend_spec m new_ Hsm) as (m'&->&Hs'&Hq). split; [by intros []|]. split; [done|]. split; [done|].
    by apply (set_overridden_lists s m); [..|intros x; apply (Hq T)].
Qed.

(** Answers that are computed from a second set. *)
Lemma refines_other a other (f : list T → exec obs) (P : obs → Prop) :
  run_op a m = with_other other m f →
  ¬ spec_panics a s →
  (∀ b, spec_op a s b (λ x, x ∈ m) = unchanged s (λ x, x ∈ m) (P b)) →
  (∀ o, lists (collected other) o → ∃ b, f o = ret b ∧ P b) →
  refines a s (run_op a m).
Proof.
  intros Hr Hp Hspec Hf. rewrite Hr. unfold with_other. destruct (from_iter_lists other) as (o&->&Ho&_). cbn [exec_bind].
  destruct (Hf o Ho) as (b&->&Hb). by eapply set_refines_read; [|apply Hspec|].
Qed.

Lemma comparisons a :
  match a with OpIsDisjoint _ | OpIsSubset _ | OpIsSuperset _ => refines a s (run_op a m) | _ => True end.
Proof.
  destruct a; try exact I; (eapply refines_other; [reflexivity|by intros []|reflexivity|]); intros o Ho;
    eexists; (split; [reflexivity|]); eexists; (split; [reflexivity|]);
    destruct (set_predicates_correct m o (proj1 Hl) (proj1 Ho)) as (H1&H2&H3); first [rewrite H1|rewrite H2|rewrite H3];
    try setoid_rewrite (λ x, covers_has _ _ x Hl); try setoid_rewrite (λ x, covers_has _ _ x Ho);
    destruct Hl as [_ Hm], Ho as [_ Hmo]; try setoid_rewrite <-Hm; try setoid_rewrite <-Hmo; done.
Qed.

Lemma set_operations a :
  match a with
  | OpDifference _ | OpSymmetricDifference _ | OpIntersection _ | OpUnion _ | OpSub _ | OpBitXor _ | OpBitAnd _ | OpBitOr _ =>
      refines a s (run_op a m)
  | _ => True
  end.
Proof.
  destruct a; try exact I; (eapply refines_other; [reflexivity|by intros []|reflexivity|]); intros o Ho;
    destruct (operators_collect m o (proj1 Hl) (proj1 Ho)) as (E1&E2&E3&E4&S1&S2&S3&S4); rewrite ?E1, ?E2, ?E3, ?E4;
    eexists; (split; [reflexivity|]); eexists; (split; [|reflexivity]); (split; [done|]); intros x;
    rewrite ?difference_elem, ?symmetric_difference_elem, ?intersection_elem, ?union_elem by (apply Hl || apply Ho);
    rewrite ?(covers_has _ _ x Hl), ?(covers_has _ _ x Ho); destruct Hl as [_ Hm], Ho as [_ Hmo]; by rewrite <-?Hm, <-?Hmo.
Qed.

Lemma set_run_op_refines a : refines a s (run_op a m).
Proof.
  pose proof (set_whole_reads a); pose proof (set_lookups a); pose proof (set_updates a); pose proof (comparisons a); pose proof (set_operations a).
  by destruct a.
Qed.
End one.

Lemma set_run_ops_refine os s m :
  lists s m →
  match run_ops os m with
  | ret (bs, m') => ∃ s', spec_ops os s bs s' ∧ lists s' m'
  | panic => spec_ops_panic os s
  end.
Proof.
  revert s m. induction os as [|a os IH]; intros s m Hm; simpl; [exists s; split; [constructor|done]|].
  pose proof (set_run_op_refines s m Hm a) as Ho. unfold refines in Ho. destruct (run_op a m) as [[b m1]|]; simpl; [|by apply spec_panic_now].
  destruct Ho as (Hp&Hs1&Hb). specialize (IH _ m1 (set_lists_self m1 Hs1)). destruct (run_ops os m1) as [[bs m2]|]; simpl.
  - destruct IH as (s'&Hrun&Hm2). exists s'. split; [by econstructor|done].
  - by econstructor.
Qed.

(** C8: a set made by [new] behaves under every sequence of its public operations as a set of
    elements does, whatever the borrowed forms, the callbacks with their states and the second sets:
    each operation answers and changes the set as [spec_op] says, where [is_subset] answers whether
    the other set is contained in this one and [is_superset] whether this one is contained in the
    other (the reverse of their documentation); the vector stays sorted, with one element of each
    class, and lists the set; and a sequence panics at an operation just where [spec_panics] says: on
    a range some element of the set is neither after the start nor before the end of. *)
Theorem set_operations_refine (os : list op) :
  match run_ops os new with
  | ret (bs, m') => ∃ s', spec_ops os empty_set bs s' ∧ lists s' m'
  | panic => spec_ops_panic os empty_set
  end.
Proof. apply set_run_ops_refine. by apply set_lists_nil. Qed.
End refinement.

(** ** A concrete run *)

Section concrete.
#[local] Existing Instance zip_itertools.

Example set_operations_run :
  run_ops [OpExtend [7; 4; 1; 4]; OpInsert 4; OpTake 1; OpIsSubset [4]; OpUnion [5; 4]; OpSplitOff 5; OpAppend [2]; OpIter] new =
    ret ([ObsUnit; ObsBool false; ObsElement (Some 1); ObsBool true; ObsElements [4; 5; 7]; ObsElements [7]; ObsElements [];
          ObsElements [2; 4]], [2; 4]) ∧
  run_ops [OpInsert 4; OpRange (Included 5) (Excluded 3)] new = panic.
Proof. vm_compute. done. Qed.
End concrete.
End SetRefinement.
