(* ===== verification/Netstring.v ===== *)
(** [netstring]: the framing codec (src/shed/netstring/src/{lib,encode,decode}.rs).
    A frame is the decimal length of the payload, a colon, the payload, a comma.
    The buffer type [BytesMut] belongs to the [bytes] crate: it is a class with that
    crate's documented behaviour.  The decoder is its [state] field, [None] once it is
    broken. *)
From Stdlib Require Import Strings.Byte.
From S2P Require Import Prelude RustStd.

#[local] Abbreviation byte := Byte.byte.

#[export] Instance byte_eq_decision : EqDecision byte := Byte.byte_eq_dec.

(** The value of a byte, and the bytes the code names. *)
Definition byte_val (b : byte) : Z := Z.of_N (Byte.to_N b).
Definition is_digit (b : byte) : bool := (48 <=? byte_val b)%Z && (byte_val b <=? 57)%Z.
Definition colon : byte := x3a.
Definition comma : byte := x2c.

(** [bytes::BytesMut], what its documentation says of the operations used. *)
Class BytesMut (B : Type) := {
  as_ref : B → list byte;
  reserve : nat → B → B;
  write_str : list byte → B → result B ();
  put_slice : list byte → B → B;
  put_u8 : byte → B → B;
  split_to : nat → B → exec (B * B);
  as_ref_reserve n b : as_ref (reserve n b) = as_ref b;
  as_ref_write_str s b : (Z.of_nat (length (as_ref b) + length s) ≤ usize_max)%Z →
    ∃ b', write_str s b = Ok b' ∧ as_ref b' = as_ref b ++ s;
  as_ref_put_slice s b : as_ref (put_slice s b) = as_ref b ++ s;
  as_ref_put_u8 x b : as_ref (put_u8 x b) = as_ref b ++ [x];
  split_to_spec at_ b : at_ ≤ length (as_ref b) →
    ∃ front rest, split_to at_ b = ret (front, rest) ∧
      as_ref front = take at_ (as_ref b) ∧ as_ref rest = drop at_ (as_ref b);
  split_to_panic at_ b : length (as_ref b) < at_ → split_to at_ b = panic;
}.

(** A buffer as the list of its bytes, for concrete runs. *)
Program Definition list_bytes : BytesMut (list byte) := {|
  as_ref b := b; reserve _ b := b; write_str s b := Ok (b ++ s);
  put_slice s b := b ++ s; put_u8 x b := b ++ [x];
  split_to at_ b := if decide (at_ ≤ length b) then ret (take at_ b, drop at_ b) else panic;
|}.
Next Obligation. done. Qed.
Next Obligation. intros. by eexists. Qed.
Next Obligation. done. Qed.
Next Obligation. done. Qed.
Next Obligation. intros at_ b Hle. exists (take at_ b), (drop at_ b). by destruct (decide (at_ ≤ length b)). Qed.
Next Obligation. intros at_ b Hlt. cbn beta in *. rewrite decide_False; [done|lia]. Qed.

Module Netstring.

(** [ErrorKind::NetstringDecode] and the messages it carries. *)
Inductive ErrorKind := BadState | BadCharacter | MissingComma.

(** ** Encoder *)

(** [write!("{}", n)]: the decimal digits, most significant first; a [usize] has at most 20. *)
Definition digit_byte (d : Z) : byte :=
  match Byte.of_N (Z.to_N (48 + d)) with Some b => b | None => x30 end.
Fixpoint fmt_loop (fuel : nat) (n : Z) (acc : list byte) : list byte :=
  match fuel with
  | O => acc
  | S fuel =>
      if (n <? 10)%Z then digit_byte n :: acc
      else fmt_loop fuel (n / 10)%Z (digit_byte (n mod 10)%Z :: acc)
  end.
Definition fmt_usize (n : Z) : list byte := fmt_loop 20 n [].

Section codec.
Context `{BytesMut B} `{BuildMode}.

Definition encode (msg : list byte) (buf : B) : exec (result () ErrorKind * B) :=
  let buf := reserve (20 + 1 + length msg + 1) buf in
  let! buf := expect (ok (write_str (fmt_usize (Z.of_nat (length msg)) ++ [colon]) buf)) in
  let buf := put_slice msg buf in
  let buf := put_u8 comma buf in
  ret (Ok (), buf).

(** ** Decoder *)

Inductive State := Num (cur : Z) | Body (len : Z).
Record NetstringDecoder := { state : option State }.
Definition default : NetstringDecoder := {| state := Some (Num 0) |}.

(** [Slice(base, len)]. *)
Record Slice := { slice_base : nat; slice_len : nat }.
Definition slice_start (s : Slice) : nat := slice_base s.
Definition slice_end (s : Slice) : nat := slice_base s + slice_len s.

(** The [for] loop of the [Num] state: the accumulated number, and the bytes eaten with
    the next state when a colon was met. *)
Fixpoint num_loop (cur : Z) (idx : nat) (buf : list byte)
  : exec (result (Z * option (nat * State)) ErrorKind) :=
  match buf with
  | [] => ret (Ok (cur, None))
  | inp :: buf =>
      if is_digit inp then
        let! c := usize_mul cur 10 in
        let! cur := usize_add c (byte_val inp - 48) in
        num_loop cur (S idx) buf
      else if bool_decide (inp = colon) then ret (Ok (cur, Some (idx + 1, Body cur)))
      else ret (Err BadCharacter)
  end.

(** One iteration on the taken state and the unread bytes: the new [consumed], the next
    state and, when the loop is left, what it returns. *)
Definition decode_step (st : State) (buf : list byte) (consumed : nat)
  : exec (result (nat * State * option (option (bool * Slice))) ErrorKind) :=
  match st with
  | Num cur =>
      let! r := num_loop cur 0 buf in
      match r with
      | Err e => ret (Err e)
      | Ok (_, Some (eaten, next)) => ret (Ok (consumed + eaten, next, None))
      | Ok (cur, None) => ret (Ok (consumed + length buf, Num cur, Some None))
      end
  | Body len =>
      if (len <? Z.of_nat (length buf))%Z then
        let v := {| slice_base := consumed; slice_len := Z.to_nat len |} in
        let! x := vec_index buf (Z.to_nat len) in
        if bool_decide (x = comma) then
          ret (Ok (consumed + Z.to_nat len + 1, Num 0, Some (Some (true, v))))
        else ret (Err MissingComma)
      else
        let v := {| slice_base := consumed; slice_len := length buf |} in
        let! rest := usize_sub len (Z.of_nat (slice_len v)) in
        ret (Ok (consumed + slice_len v, Body rest, Some (Some (false, v))))
  end.

(** The loop: the state is taken (left [None]) at the start of every iteration and put back
    only when the iteration succeeds.  A number is followed by a body and a body returns,
    so two iterations are enough; running out of fuel counts as a panic, which the theorems
    exclude. *)
Fixpoint decode_loop (fuel : nat) (self : NetstringDecoder) (buf : list byte) (consumed : nat)
  : exec (NetstringDecoder * result (nat * option (bool * Slice)) ErrorKind) :=
  match fuel with
  | O => panic
  | S fuel =>
      match state self with
      | None => ret ({| state := None |}, Err BadState)
      | Some st =>
          let! unread := vec_slice buf consumed (length buf) in
          let! r := decode_step st unread consumed in
          match r with
          | Err e => ret ({| state := None |}, Err e)
          | Ok (consumed, next, Some r) => ret ({| state := Some next |}, Ok (consumed, r))
          | Ok (consumed, next, None) => decode_loop fuel {| state := Some next |} buf consumed
          end
      end
  end.
Definition decode_buf (self : NetstringDecoder) (buf : list byte) := decode_loop 2 self buf 0.

Definition decode (self : NetstringDecoder) (buf : B)
  : exec (NetstringDecoder * B * result (option B) ErrorKind) :=
  let saved := self in
  let! '(self, r) := decode_buf self (as_ref buf) in
  match r with
  | Err e => ret (self, buf, Err e)
  | Ok (consumed, Some (true, slice)) =>
      let! _ := debug_assert (slice_end slice <=? length (as_ref buf)) in
      let! _ := debug_assert (slice_end slice <=? consumed) in
      let! '(item, buf) := split_to (slice_end slice) buf in
      let! '(_, buf) :=
        if slice_end slice <? consumed then split_to (consumed - slice_end slice) buf else ret (item, buf) in
      let! '(_, item) := split_to (slice_start slice) item in
      ret (self, buf, Ok (Some item))
  | Ok (_, Some (false, _)) | Ok (_, None) => ret (saved, buf, Ok None)
  end.
End codec.

(** ** Decimal numbers *)

Section theory.
Context `{BytesMut B} `{BuildMode}.
Implicit Types (bs ds msg rest : list byte) (buf item : B).

Definition digit_val (b : byte) : Z := byte_val b - 48.
Definition digits ds : Prop := Forall (λ b, is_digit b = true) ds.
(** The exact value of more digits after [cur]. *)
Definition dec_value (cur : Z) ds : Z := foldl (λ c b, c * 10 + digit_val b)%Z cur ds.

(** A frame on the wire. *)
Definition frame msg : list byte := fmt_usize (Z.of_nat (length msg)) ++ colon :: msg ++ [comma].

Lemma digit_byte_spec d : (0 ≤ d < 10)%Z → is_digit (digit_byte d) = true ∧ digit_val (digit_byte d) = d.
Proof.
  intros Hd. assert (∃ n, d = Z.of_nat n ∧ n < 10) as (n&->&Hn) by (exists (Z.to_nat d); lia).
  do 10 (destruct n as [|n]; [done|]). lia.
Qed.

Lemma is_digit_range b : is_digit b = true → (0 ≤ digit_val b < 10)%Z.
Proof. unfold is_digit, digit_val. rewrite andb_true_iff, !Z.leb_le. lia. Qed.

Lemma is_digit_colon : is_digit colon = false.
Proof. done. Qed.

Lemma dec_value_app cur ds ds' : dec_value cur (ds ++ ds') = dec_value (dec_value cur ds) ds'.
Proof. apply foldl_app. Qed.

Lemma dec_value_mono cur ds : (0 ≤ cur)%Z → digits ds → (cur ≤ dec_value cur ds)%Z.
Proof.
  intros Hc Hds. revert cur Hc. induction Hds as [|b ds Hb Hds IH]; intros cur Hc; [done|].
  apply is_digit_range in Hb. etrans; [|apply (IH (cur * 10 + digit_val b)%Z)]; lia.
Qed.

Lemma fmt_loop_spec fuel n acc :
  (0 ≤ n < 10 ^ Z.of_nat fuel)%Z → 0 < fuel →
  ∃ ds, fmt_loop fuel n acc = ds ++ acc ∧ digits ds ∧ dec_value 0 ds = n ∧ 0 < length ds ≤ fuel.
Proof.
  revert n acc. induction fuel as [|fuel IH]; intros n acc Hn Hf; [lia|]. simpl.
  destruct (Z.ltb_spec n 10).
  - destruct (digit_byte_spec n ltac:(lia)) as [Hd Hv]. exists [digit_byte n].
    split_and!; [done|by repeat constructor|by simpl|simpl; lia..].
  - rewrite Nat2Z.inj_succ, Z.pow_succ_r in Hn by lia. destruct fuel as [|fuel]; [simpl in *; lia|].
    pose proof (Z.mod_pos_bound n 10). destruct (digit_byte_spec (n mod 10) ltac:(lia)) as [Hd Hv].
    assert (0 ≤ n / 10 < 10 ^ Z.of_nat (S fuel))%Z as Hq.
    { split; [apply Z.div_pos; lia|]. apply Z.div_lt_upper_bound; lia. }
    destruct (IH (n / 10)%Z (digit_byte (n mod 10) :: acc) Hq ltac:(lia)) as (ds&->&Hds&Hval&Hlen).
    exists (ds ++ [digit_byte (n mod 10)]). rewrite <-app_assoc, length_app. split_and!; [done| | |simpl; lia..].
    + apply Forall_app. split; [done|by repeat constructor].
    + rewrite dec_value_app, Hval. simpl. rewrite Hv. pose proof (Z.div_mod n 10). lia.
Qed.

(** Twenty digits are enough for every [usize]. *)
Lemma fmt_usize_spec n :
  (0 ≤ n ≤ usize_max)%Z → digits (fmt_usize n) ∧ dec_value 0 (fmt_usize n) = n ∧ length (fmt_usize n) ≤ 20.
Proof.
  intros Hn. destruct (fmt_loop_spec 20 n []) as (ds&Hf&Hds&Hval&Hlen); [unfold usize_max in Hn; lia|lia|].
  unfold fmt_usize. rewrite Hf, app_nil_r. split_and!; [done..|lia].
Qed.

(** ** The number loop *)

Lemma num_loop_digits cur idx ds bs :
  (0 ≤ cur)%Z → digits ds → (dec_value cur ds ≤ usize_max)%Z →
  num_loop cur idx (ds ++ bs) = num_loop (dec_value cur ds) (idx + length ds) bs.
Proof.
  intros Hc Hds. revert cur idx Hc. induction Hds as [|b ds Hb Hds IH]; intros cur idx Hc Hv.
  { simpl. by rewrite Nat.add_0_r. }
  pose proof (is_digit_range b Hb) as Hr. change (dec_value cur (b :: ds)) with (dec_value (cur * 10 + digit_val b) ds) in *.
  pose proof (dec_value_mono (cur * 10 + digit_val b) ds ltac:(lia) Hds) as Hm.
  simpl. rewrite Hb. unfold usize_mul, usize_add, digit_val in *.
  rewrite usize_wrap_exact by lia. simpl. rewrite usize_wrap_exact by lia. simpl.
  rewrite IH by (unfold digit_val; lia). f_equal. lia.
Qed.

(** The digits at the front of a buffer, and what follows them. *)
Fixpoint span_digits bs : list byte * list byte :=
  match bs with
  | [] => ([], [])
  | b :: bs' => if is_digit b then let '(ds, rest) := span_digits bs' in (b :: ds, rest) else ([], bs)
  end.

Lemma span_digits_spec bs ds rest :
  span_digits bs = (ds, rest) →
  bs = ds ++ rest ∧ digits ds ∧ match rest with [] => True | b :: _ => is_digit b = false end.
Proof.
  revert ds. induction bs as [|b bs IH]; simpl; intros ds Hs; [simplify_eq; by repeat constructor|].
  destruct (is_digit b) eqn:Hb; [|simplify_eq; by repeat constructor].
  destruct (span_digits bs) as [ds' rest']. simplify_eq. destruct (IH ds' eq_refl) as (->&Hds&Hr).
  split_and!; [done|by constructor|done].
Qed.

Lemma span_digits_app ds rest :
  digits ds → match rest with [] => True | b :: _ => is_digit b = false end → span_digits (ds ++ rest) = (ds, rest).
Proof.
  intros Hds Hr. induction Hds as [|b ds Hb Hds IH]; simpl; [|by rewrite Hb, IH].
  destruct rest as [|b rest]; simpl; [done|]. by rewrite Hr.
Qed.

Lemma num_loop_stop cur idx b bs :
  is_digit b = false →
  num_loop cur idx (b :: bs) =
    if decide (b = colon) then ret (Ok (cur, Some (idx + 1, Body cur))) else ret (Err BadCharacter).
Proof. intros Hb. simpl. rewrite Hb. by case_decide; case_bool_decide. Qed.

(** With overflow checks a number over [usize::MAX] panics; without, it wraps around. *)
Lemma num_loop_overflow cur idx ds bs :
  (0 ≤ cur ≤ usize_max)%Z → digits ds → (usize_max < dec_value cur ds)%Z → overflow_checks = true →
  num_loop cur idx (ds ++ bs) = panic.
Proof.
  intros Hc Hds Hv Ho. revert cur idx Hc Hv. induction Hds as [|b ds Hb Hds IH]; intros cur idx Hc Hv; [simpl in Hv; lia|].
  pose proof (is_digit_range b Hb) as Hr. simpl in *. rewrite Hb. unfold usize_mul, usize_add, usize_wrap.
  rewrite Ho. case_bool_decide as Hm; [|done]. simpl. case_bool_decide as Ha; [|done]. simpl.
  apply IH; unfold digit_val in *; [lia|done].
Qed.

Lemma num_loop_wrap cur idx ds bs :
  digits ds → overflow_checks = false → (0 ≤ cur ≤ usize_max)%Z →
  num_loop cur idx (ds ++ bs) = num_loop (dec_value cur ds mod (usize_max + 1)) (idx + length ds) bs.
Proof.
  intros Hds Ho. revert cur idx. induction Hds as [|b ds Hb Hds IH]; intros cur idx Hc.
  { simpl. by rewrite Nat.add_0_r, Z.mod_small by lia. }
  simpl. rewrite Hb. unfold usize_mul, usize_add. rewrite !usize_wrap_release by done. simpl.
  rewrite usize_wrap_release by done. simpl.
  set (M := (usize_max + 1)%Z) in *. assert (0 < M)%Z by (unfold M, usize_max; lia).
  rewrite IH by (pose proof (Z.mod_pos_bound ((cur * 10) mod M + (byte_val b - 48)) M); unfold M in *; lia).
  f_equal; [|lia]. assert (∀ a c ds, (a mod M = c mod M)%Z → (dec_value a ds mod M = dec_value c ds mod M)%Z) as Hcong.
  { intros a c ds'. revert a c. induction ds' as [|x ds' IHd]; intros a c Hac; simpl; [done|]. apply IHd.
    rewrite Z.add_mod, Z.mul_mod, Hac, <-Z.mul_mod, <-Z.add_mod by lia. done. }
  apply Hcong. rewrite Z.mod_mod by lia. by rewrite Z.add_mod_idemp_l by lia.
Qed.

(** ** What [decode] promises *)

(** The framing, read off the bytes after the length [n]. *)
Definition spec_body (n : Z) rest : result (option (list byte * list byte)) ErrorKind :=
  match rest with
  | [] => Ok None
  | b :: body =>
      if decide (b = colon) then
        match body !! Z.to_nat n with
        | None => Ok None
        | Some c => if decide (c = comma) then Ok (Some (take (Z.to_nat n) body, drop (S (Z.to_nat n)) body)) else Err MissingComma
        end
      else Err BadCharacter
  end.

(** A decoder result matches an abstract one: a frame leaves the decoder ready for the next,
    an incomplete frame leaves decoder and buffer as they were, an error breaks the decoder. *)
Definition decode_matches buf (out : NetstringDecoder * B * result (option B) ErrorKind)
    (r : result (option (list byte * list byte)) ErrorKind) : Prop :=
  match r with
  | Ok None => out = (default, buf, Ok None)
  | Ok (Some (payload, remaining)) =>
      ∃ item buf', out = (default, buf', Ok (Some item)) ∧ as_ref item = payload ∧ as_ref buf' = remaining
  | Err e => out = ({| state := None |}, buf, Err e)
  end.

Lemma vec_slice_from bs i : i ≤ length bs → vec_slice bs i (length bs) = ret (drop i bs).
Proof.
  intros Hi. unfold vec_slice. rewrite decide_True by done.
  by rewrite take_ge by (rewrite length_drop; lia).
Qed.

(** Cutting a complete frame out of the buffer. *)
Lemma decode_split buf pre payload left :
  as_ref buf = pre ++ payload ++ comma :: left →
  ∃ item buf',
    (let! _ := debug_assert (length pre + length payload <=? length (as_ref buf)) in
     let! _ := debug_assert (length pre + length payload <=? length pre + length payload + 1) in
     let! '(item, buf) := split_to (length pre + length payload) buf in
     let! '(_, buf) :=
       if length pre + length payload <? length pre + length payload + 1
       then split_to (length pre + length payload + 1 - (length pre + length payload)) buf else ret (item, buf) in
     let! '(_, item) := split_to (length pre) item in
     ret (default, buf, Ok (A:=option B) (E:=ErrorKind) (Some item))) = ret (default, buf', Ok (Some item)) ∧
    as_ref item = payload ∧ as_ref buf' = left.
Proof.
  intros Hb. assert (length pre + length payload + 1 ≤ length (as_ref buf)) as Hlen
    by (rewrite Hb, !length_app; simpl; lia).
  assert (∀ a b, a ≤ b → debug_assert (a <=? b) = ret ()) as Hda.
  { intros x y Hxy. unfold debug_assert. rewrite (proj2 (Nat.leb_le x y) Hxy). by destruct debug_assertions. }
  rewrite !Hda by lia. simpl.
  destruct (split_to_spec (length pre + length payload) buf) as (item&buf1&->&Hi&Hb1); [lia|]. simpl.
  rewrite (proj2 (Nat.ltb_lt _ _)) by lia.
  rewrite Hb, app_assoc in Hi, Hb1. rewrite take_app_length' in Hi by (by rewrite length_app).
  rewrite drop_app_length' in Hb1 by (by rewrite length_app).
  destruct (split_to_spec (length pre + length payload + 1 - (length pre + length payload)) buf1) as (c&buf2&->&_&Hb2);
    [rewrite Hb1; simpl; lia|]. simpl.
  destruct (split_to_spec (length pre) item) as (h&item'&->&_&Hit); [rewrite Hi, length_app; lia|]. simpl.
  exists item', buf2. split; [done|]. rewrite Hit, Hb2, Hi, Hb1, drop_app_length. split; [done|].
  by replace (length pre + length payload + 1 - (length pre + length payload)) with 1 by lia.
Qed.

Lemma decode_with_number buf ds rest n :
  as_ref buf = ds ++ rest → match rest with [] => True | b :: _ => is_digit b = false end →
  (0 ≤ n ≤ usize_max)%Z → num_loop 0 0 (ds ++ rest) = num_loop n (length ds) rest →
  ∃ out, decode default buf = ret out ∧ decode_matches buf out (spec_body n rest).
Proof.
  intros Hb Hr Hn Hloop. unfold decode, decode_buf. rewrite Hb. cbn [decode_loop state default].
  rewrite vec_slice_from by lia. cbn [exec_bind]. rewrite drop_0. unfold decode_step at 1. rewrite Hloop.
  destruct rest as [|b body]; [by eexists|].
  rewrite num_loop_stop by done. simpl spec_body. destruct (decide (b = colon)) as [->|Hc]; [|by eexists].
  cbn [exec_bind state].
  rewrite vec_slice_from by (rewrite length_app; simpl; lia). cbn [exec_bind].
  replace (drop (0 + (length ds + 1)) (ds ++ colon :: body)) with body.
  2: { rewrite drop_app_ge by lia. by replace (0 + (length ds + 1) - length ds) with 1 by lia. }
  simpl. destruct (Z.ltb_spec n (Z.of_nat (length body))) as [Hlt|Hge].
  - destruct (lookup_lt_is_Some_2 body (Z.to_nat n) ltac:(lia)) as [c Hcm]. unfold vec_index. rewrite Hcm. simpl.
    destruct (decide (c = comma)) as [->|Hne]; [|rewrite bool_decide_false by done; by eexists].
    rewrite bool_decide_true by done. simpl.
    destruct (decode_split buf (ds ++ [colon]) (take (Z.to_nat n) body) (drop (S (Z.to_nat n)) body)) as (item&buf'&Heq&Hi&Hl).
    { rewrite Hb, <-app_assoc. simpl. by rewrite (take_drop_middle _ _ _ Hcm). }
    rewrite length_take_le in Heq by lia. rewrite length_app in Heq. simpl length in Heq.
    rewrite Hb in Heq. eexists. split; [exact Heq|]. by exists item, buf'.
  - rewrite lookup_ge_None_2 by lia. unfold usize_sub.
    rewrite usize_wrap_exact by lia. by eexists.
Qed.

(** [decode] on a fresh decoder, in every case. *)
Lemma decode_spec buf :
  let '(ds, rest) := span_digits (as_ref buf) in
  let n := dec_value 0 ds in
  if overflow_checks && (usize_max <? n)%Z then decode default buf = panic
  else ∃ out, decode default buf = ret out ∧ decode_matches buf out (spec_body (n mod (usize_max + 1)) rest).
Proof.
  destruct (span_digits (as_ref buf)) as [ds rest] eqn:Hs.
  apply span_digits_spec in Hs as (Hb&Hds&Hr). cbv zeta.
  assert (0 ≤ dec_value 0 ds)%Z as Hpos by (by apply dec_value_mono).
  destruct (Z.ltb_spec usize_max (dec_value 0 ds)) as [Hbig|Hok].
  - destruct overflow_checks eqn:Ho; simpl.
    + unfold decode, decode_buf. rewrite Hb. cbn [decode_loop state default]. rewrite vec_slice_from by lia.
      cbn [exec_bind]. rewrite drop_0. unfold decode_step.
      by rewrite num_loop_overflow by (done || unfold usize_max; lia).
    + apply (decode_with_number buf ds rest); [done..| |].
      * pose proof (Z.mod_pos_bound (dec_value 0 ds) (usize_max + 1)). unfold usize_max in *. lia.
      * by rewrite num_loop_wrap by (done || unfold usize_max; lia).
  - rewrite andb_false_r. apply (decode_with_number buf ds rest); [done..| |].
    + rewrite Z.mod_small by lia. lia.
    + rewrite Z.mod_small by lia. by rewrite num_loop_digits by done.
Qed.

(** C7: [decode] on a fresh decoder, on every input and in both build modes: it panics exactly
    when overflow checks are on and the leading digits exceed [usize::MAX]; otherwise it
    returns what the framing specification says for the (possibly wrapped) length, and its
    debug assertions, slices and splits never fail. *)
Theorem decode_correct buf :
  let '(ds, rest) := span_digits (as_ref buf) in
  let n := dec_value 0 ds in
  if overflow_checks && (usize_max <? n)%Z then decode default buf = panic
  else ∃ out, decode default buf = ret out ∧ decode_matches buf out (spec_body (n mod (usize_max + 1)) rest).
Proof. apply decode_spec. Qed.

Lemma encode_spec msg buf :
  (Z.of_nat (length (as_ref buf) + 21 + length msg) ≤ usize_max)%Z →
  ∃ buf', encode msg buf = ret (Ok (), buf') ∧ as_ref buf' = as_ref buf ++ frame msg.
Proof.
  intros Hlen. unfold encode.
  destruct (fmt_usize_spec (Z.of_nat (length msg))) as (_&_&Hd); [lia|].
  set (b0 := reserve _ buf).
  destruct (as_ref_write_str (fmt_usize (Z.of_nat (length msg)) ++ [colon]) b0) as (b1&Hw&Hb1).
  { unfold b0. rewrite as_ref_reserve, length_app. simpl. lia. }
  rewrite Hw. simpl. eexists. split; [done|].
  rewrite as_ref_put_u8, as_ref_put_slice, Hb1. unfold b0, frame. by rewrite as_ref_reserve, <-!app_assoc.
Qed.

(** [encode] appends exactly one frame to the buffer. *)
Theorem encode_correct msg buf :
  (Z.of_nat (length (as_ref buf) + 21 + length msg) ≤ usize_max)%Z →
  ∃ buf', encode msg buf = ret (Ok (), buf') ∧ as_ref buf' = as_ref buf ++ frame msg.
Proof. apply encode_spec. Qed.

(** The number at the front of a frame, or of a prefix of one. *)
Lemma span_frame msg rest :
  span_digits (frame msg ++ rest) =
    (fmt_usize (Z.of_nat (length msg)), colon :: msg ++ comma :: rest) ∨ (usize_max < Z.of_nat (length msg))%Z.
Proof.
  destruct (Z.leb_spec (Z.of_nat (length msg)) usize_max); [left|by right].
  destruct (fmt_usize_spec (Z.of_nat (length msg))) as (Hd&_&_); [lia|].
  unfold frame. rewrite <-app_assoc. simpl. rewrite <-app_assoc. by rewrite span_digits_app.
Qed.

Lemma decode_frame msg rest buf :
  (Z.of_nat (length msg) ≤ usize_max)%Z → as_ref buf = frame msg ++ rest →
  ∃ item buf', decode default buf = ret (default, buf', Ok (Some item)) ∧ as_ref item = msg ∧ as_ref buf' = rest.
Proof.
  intros Hlen Hb. destruct (span_frame msg rest) as [Hs|]; [|lia].
  pose proof (decode_spec buf) as Hd. rewrite Hb, Hs in Hd.
  destruct (fmt_usize_spec (Z.of_nat (length msg))) as (_&Hv&_); [lia|]. cbv zeta in Hd. rewrite Hv in Hd.
  rewrite (proj2 (Z.ltb_ge _ _) Hlen), andb_false_r, Z.mod_small in Hd by lia. simpl in Hd.
  rewrite Nat2Z.id, list_lookup_middle, take_app_length in Hd by done.
  replace (drop (S (length msg)) (msg ++ comma :: rest)) with rest in Hd.
  2: { rewrite drop_app_ge by lia. by replace (S (length msg) - length msg) with 1 by lia. }
  destruct Hd as (out&Ho&item&buf'&->&Hi&Hr). by exists item, buf'.
Qed.

(** A proper prefix of a frame. *)
Definition partial_frame msg bs : Prop := ∃ rest, rest ≠ [] ∧ bs ++ rest = frame msg.

Lemma decode_partial msg buf :
  (Z.of_nat (length msg) ≤ usize_max)%Z → partial_frame msg (as_ref buf) →
  decode default buf = ret (default, buf, Ok None).
Proof.
  intros Hlen (tl&Htl&Hb). pose proof (decode_spec buf) as Hd.
  destruct (fmt_usize_spec (Z.of_nat (length msg))) as (Hdig&Hv&_); [lia|]. unfold frame in Hb.
  set (ds := fmt_usize (Z.of_nat (length msg))) in *.
  destruct (decide (length (as_ref buf) ≤ length ds)) as [Hle|Hgt].
  - destruct (app_cut _ _ _ _ Hb Hle) as (k&Hk&_).
    rewrite Hk in Hdig. apply Forall_app in Hdig as [Hd1 Hd2].
    assert (span_digits (as_ref buf) = (as_ref buf, [])) as Hs.
    { rewrite <-(app_nil_r (as_ref buf)) at 1. by apply span_digits_app. }
    rewrite Hs in Hd. cbv zeta in Hd. rewrite Hk, dec_value_app in Hv.
    assert (0 ≤ dec_value 0 (as_ref buf))%Z by (by apply dec_value_mono).
    pose proof (dec_value_mono (dec_value 0 (as_ref buf)) k ltac:(done) Hd2).
    rewrite (proj2 (Z.ltb_ge _ _)), andb_false_r in Hd by lia. by destruct Hd as (out&->&->).
  - symmetry in Hb. destruct (app_cut _ _ _ _ Hb ltac:(lia)) as (k&Hk&Hk2).
    destruct k as [|c k]; [rewrite app_nil_r in Hk; apply (f_equal length) in Hk; lia|].
    simpl in Hk2. injection Hk2 as <- Hk2.
    rewrite Hk, span_digits_app in Hd by done. cbv zeta in Hd. rewrite Hv in Hd.
    rewrite (proj2 (Z.ltb_ge _ _) Hlen), andb_false_r, Z.mod_small in Hd by lia. simpl in Hd.
    rewrite Nat2Z.id, lookup_ge_None_2 in Hd; [by destruct Hd as (out&->&->)|].
    apply (f_equal length) in Hk2. rewrite !length_app in Hk2. simpl in Hk2.
    destruct tl; [done|]. simpl in Hk2. lia.
Qed.

(** What [encode] wrote, [decode] reads back: the payload is returned, the frame is taken
    off the buffer, whatever follows it stays, and the decoder is ready for the next frame. *)
Theorem encode_decode_roundtrip msg rest buf :
  (Z.of_nat (21 + length msg) ≤ usize_max)%Z → as_ref buf = [] →
  ∃ buf1 item buf2, encode msg buf = ret (Ok (), buf1) ∧
    decode default (put_slice rest buf1) = ret (default, buf2, Ok (Some item)) ∧
    as_ref item = msg ∧ as_ref buf2 = rest.
Proof.
  intros Hlen Hb. destruct (encode_spec msg buf) as (buf1&He&Hb1); [rewrite Hb; done|].
  destruct (decode_frame msg rest (put_slice rest buf1)) as (item&buf2&Hd&Hi&Hr); [lia| |].
  { by rewrite as_ref_put_slice, Hb1, Hb. }
  by exists buf1, item, buf2.
Qed.

(** A decoder given a proper prefix of a frame asks for more and changes nothing. *)
Theorem decode_incomplete msg buf :
  (Z.of_nat (length msg) ≤ usize_max)%Z → partial_frame msg (as_ref buf) →
  decode default buf = ret (default, buf, Ok None).
Proof. apply decode_partial. Qed.

(** An error leaves the buffer alone and the decoder broken for good: every later call
    reports the bad state. *)
Theorem decode_error_permanent buf self' buf' e :
  decode default buf = ret (self', buf', Err e) →
  buf' = buf ∧ ∀ buf2 : B, decode self' buf2 = ret (self', buf2, Err BadState).
Proof.
  intros He. pose proof (decode_spec buf) as Hd. destruct (span_digits _) as [ds rest].
  cbv zeta in Hd. rewrite He in Hd. case_match; [done|].
  destruct Hd as (out&[= <-]&Hm). unfold decode_matches in Hm.
  destruct (spec_body _ _) as [[[p l]|]|e']; [by destruct Hm as (?&?&?&_)|done|].
  by injection Hm as -> -> _.
Qed.

(** ** Reading a stream in chunks *)

(** What a framed transport does: decode until more input is needed. [None] when the decoder
    fails or panics; [fuel] bounds the frames taken. *)
Fixpoint drain (fuel : nat) self buf : option (list (list byte) * NetstringDecoder * B) :=
  match fuel with
  | O => None
  | S fuel =>
      match decode self buf with
      | ret (self, buf, Ok None) => Some ([], self, buf)
      | ret (self, buf, Ok (Some item)) =>
          '(items, self, buf) ← drain fuel self buf; Some (as_ref item :: items, self, buf)
      | _ => None
      end
  end.
Fixpoint feed self buf (chunks : list (list byte)) : option (list (list byte) * NetstringDecoder * B) :=
  match chunks with
  | [] => Some ([], self, buf)
  | chunk :: chunks =>
      let buf := put_slice chunk buf in
      '(items1, self, buf) ← drain (S (length (as_ref buf))) self buf;
      '(items2, self, buf) ← feed self buf chunks;
      Some (items1 ++ items2, self, buf)
  end.

Definition sized (msgs : list (list byte)) : Prop := Forall (λ msg, Z.of_nat (length msg) ≤ usize_max)%Z msgs.
Definition frames (msgs : list (list byte)) : list byte := concat (frame <$> msgs).

Lemma frame_length msg : 2 ≤ length (frame msg).
Proof. unfold frame. rewrite length_app. simpl. rewrite length_app. simpl. lia. Qed.

(** A prefix of a sequence of frames: whole frames, then a proper prefix of the next one. *)
Lemma frames_prefix bs tl msgs :
  bs ++ tl = frames msgs →
  ∃ done_ todo part, msgs = done_ ++ todo ∧ bs = frames done_ ++ part ∧ part ++ tl = frames todo ∧
    match todo with [] => part = [] | msg :: _ => partial_frame msg part end.
Proof.
  revert bs. induction msgs as [|msg msgs IH]; intros bs Hb.
  { apply app_nil in Hb as [-> ->]. by exists [], [], []. }
  unfold frames in Hb. simpl in Hb. destruct (decide (length bs < length (frame msg))) as [Hlt|Hge].
  - destruct (app_cut _ _ _ _ Hb ltac:(lia)) as (k&Hk&Htl).
    exists [], (msg :: msgs), bs. split_and!; [done..|]. exists k. split; [|done].
    intros ->. rewrite Hk, app_nil_r in Hlt. lia.
  - symmetry in Hb. destruct (app_cut _ _ _ _ Hb ltac:(lia)) as (k&->&Hk).
    destruct (IH k) as (d&t&part&->&->&Hp&Ht); [done|].
    exists (msg :: d), t, part. split_and!; [done| |done..]. unfold frames. simpl. by rewrite <-app_assoc.
Qed.

Lemma drain_frames fuel msgs todo part buf :
  sized msgs → sized todo → as_ref buf = frames msgs ++ part →
  match todo with [] => part = [] | msg :: _ => partial_frame msg part end →
  length msgs < fuel →
  ∃ buf', drain fuel default buf = Some (msgs, default, buf') ∧ as_ref buf' = part.
Proof.
  intros Hm Ht Hb Hp. revert buf fuel Hb. induction Hm as [|msg msgs Hmsg Hm IH]; intros buf [|fuel] Hb Hf;
    [simpl in *; lia| |simpl in *; lia|]; simpl.
  - assert (decode default buf = ret (default, buf, Ok None)) as ->; [|by exists buf].
    simpl in Hb. destruct todo as [|msg todo].
    + rewrite Hp in Hb. pose proof (decode_spec buf) as Hd. rewrite Hb in Hd. simpl in Hd.
      rewrite andb_false_r in Hd. by destruct Hd as (out&->&->).
    + apply (decode_partial msg); [by apply Forall_cons in Ht as [? _]|by rewrite Hb].
  - unfold frames in Hb. simpl in Hb. rewrite <-app_assoc in Hb.
    destruct (decode_frame msg _ buf Hmsg Hb) as (item&buf1&->&Hi&Hb1).
    destruct (IH buf1 fuel Hb1) as (buf'&->&Hb'); [simpl in Hf; lia|]. simpl. rewrite Hi. by exists buf'.
Qed.

Lemma frames_length msgs : 2 * length msgs ≤ length (frames msgs).
Proof.
  induction msgs as [|msg msgs IH]; [done|]. unfold frames in *. rewrite fmap_cons. cbn [concat length].
  rewrite length_app. pose proof (frame_length msg). lia.
Qed.

Lemma feed_frames chunks msgs buf part :
  sized msgs → as_ref buf = part → part ++ concat chunks = frames msgs →
  match msgs with [] => part = [] | msg :: _ => partial_frame msg part end →
  ∃ buf', feed default buf chunks = Some (msgs, default, buf') ∧ as_ref buf' = [].
Proof.
  revert msgs buf part. induction chunks as [|chunk chunks IH]; intros msgs buf part Hm Hb Hc Hp; cbn [feed concat] in *.
  { rewrite app_nil_r in Hc. destruct msgs as [|msg msgs]; [exists buf; by subst|].
    exfalso. destruct Hp as (rest&Hrest&Hr). unfold frames in Hc. simpl in Hc.
    rewrite Hc, <-app_assoc in Hr. rewrite <-(app_nil_r (frame msg)) in Hr at 2. apply app_inv_head in Hr.
    by apply app_nil in Hr as [_ ?]. }
  rewrite app_assoc in Hc. destruct (frames_prefix _ _ _ Hc) as (d&todo&part'&->&Hbs&Hc'&Hp').
  apply Forall_app in Hm as [Hd Ht].
  destruct (drain_frames (S (length (as_ref (put_slice chunk buf)))) d todo part' (put_slice chunk buf))
    as (buf1&Hdr&Hb1); [done..|by rewrite as_ref_put_slice, Hb|done| |].
  { rewrite as_ref_put_slice, Hb, Hbs, length_app. pose proof (frames_length d). lia. }
  cbv zeta. rewrite Hdr. cbn [mbind option_bind]. destruct (IH todo buf1 part' Ht Hb1 Hc' Hp') as (buf'&->&Hb').
  by exists buf'.
Qed.

(** C10: however a sequence of encoded messages is cut into chunks, feeding the chunks to the
    decoder yields exactly the messages, in order, and leaves nothing in the buffer. *)
Theorem feed_chunks_correct (msgs chunks : list (list byte)) buf :
  sized msgs → as_ref buf = [] → concat chunks = frames msgs →
  ∃ buf', feed default buf chunks = Some (msgs, default, buf') ∧ as_ref buf' = [].
Proof.
  intros Hm Hb Hc. apply (feed_frames chunks msgs buf []); [done..|].
  destruct msgs as [|msg msgs]; [done|]. exists (frame msg). split; [|done].
  intros Hf. pose proof (frame_length msg) as Hl. rewrite Hf in Hl. simpl in Hl. lia.
Qed.
End theory.

(** ** Concrete runs *)
Section witnesses.
#[local] Existing Instance list_bytes.
#[local] Existing Instance debug_build.

Lemma encode_correct_witness : ∃ buf', encode [x68; x69] [x21] = ret (Ok (), buf') ∧ as_ref buf' = as_ref [x21] ++ frame [x68; x69].
Proof. apply (encode_correct [x68; x69] [x21]). vm_compute. discriminate. Defined.

Lemma encode_decode_roundtrip_witness :
  ∃ buf1 item buf2, encode [x68; x69] [] = ret (Ok (), buf1) ∧
    decode default (put_slice [x31] buf1) = ret (default, buf2, Ok (Some item)) ∧
    as_ref item = [x68; x69] ∧ as_ref buf2 = [x31].
Proof. apply (encode_decode_roundtrip [x68; x69] [x31] []); [vm_compute; discriminate|reflexivity]. Defined.

Lemma decode_incomplete_witness : decode default [x32; x3a; x68] = ret (default, [x32; x3a; x68], Ok None).
Proof.
  apply (decode_incomplete [x68; x69]); [vm_compute; discriminate|].
  exists [x69; x2c]. split; [discriminate|reflexivity].
Defined.

Lemma decode_error_permanent_witness :
  decode {| state := None |} [x31; x3a; x68; x2c] = ret ({| state := None |}, [x31; x3a; x68; x2c], Err BadState).
Proof. apply (decode_error_permanent [x78] {| state := None |} [x78] BadCharacter). reflexivity. Defined.

Lemma feed_chunks_correct_witness :
  ∃ buf', feed default [] [[x32]; [x3a; x68]; [x69; x2c; x30]; [x3a; x2c]] = Some ([[x68; x69]; []], default, buf') ∧ as_ref buf' = [].
Proof.
  apply (feed_chunks_correct [[x68; x69]; []] [[x32]; [x3a; x68]; [x69; x2c; x30]; [x3a; x2c]] []);
    [repeat constructor; vm_compute; discriminate|reflexivity|reflexivity].
Defined.
End witnesses.
End Netstring.
