(* ===== verification/Futures.v ===== *)
(** The asynchronous machinery the crates build on: the [FuturesUnordered] of the [futures]
    crate as a class with its documented behaviour, polling with an explicit world (the
    wake-ups and completions the executor delivers), and the driver that polls a future
    until it is ready.  Also src/shed/bounded_traversal/src/common.rs. *)
From S2P Require Import Prelude RustStd.

(** * [FuturesUnordered]

    A set of jobs in progress.  Polling it either completes one of the jobs (any of them, in
    an order only the world knows), or answers [None] exactly when the set is empty, or is
    pending.  What a completed job evaluates to is the client's business. *)

Class FuturesUnordered (J : Type) := {
  fu : Type;
  world : Type;
  fu_new : fu;
  fu_push : J → fu → fu;
  fu_len : fu → nat;
  fu_poll_next : fu → world → Poll (option J) * fu * world;
  fu_jobs : fu → list J;
  fu_jobs_new : fu_jobs fu_new = [];
  fu_jobs_push j f : fu_jobs (fu_push j f) ≡ₚ j :: fu_jobs f;
  fu_len_jobs f : fu_len f = length (fu_jobs f);
  fu_poll_next_spec f w :
    match fu_poll_next f w with
    | (Ready None, f', _) => fu_jobs f = [] ∧ fu_jobs f' = []
    | (Ready (Some j), f', _) => fu_jobs f ≡ₚ j :: fu_jobs f'
    | (Pending, f', _) => fu_jobs f ≠ [] ∧ fu_jobs f' ≡ₚ fu_jobs f
    end;
}.

(** An implementation for concrete runs: the world is a script that says for every poll of a
    non-empty set whether it is pending or which job completes (the first, once exhausted). *)
Definition script_poll {J} (f : list J) (w : list (option nat)) : Poll (option J) * list J * list (option nat) :=
  match f with
  | [] => (Ready None, [], w)
  | j0 :: f' =>
      match w with
      | [] => (Ready (Some j0), f', [])
      | None :: w => (Pending, f, w)
      | Some i :: w =>
          match f !! i with Some j => (Ready (Some j), delete i f, w) | None => (Ready (Some j0), f', w) end
      end
  end.

#[export] Program Instance scripted (J : Type) : FuturesUnordered J | 100 := {|
  fu := list J; world := list (option nat); fu_new := []; fu_push := cons; fu_len := length;
  fu_poll_next := script_poll; fu_jobs f := f;
|}.
Next Obligation. done. Qed.
Next Obligation. done. Qed.
Next Obligation. done. Qed.
Next Obligation.
  intros J f w. destruct f as [|j f]; [done|]. simpl.
  destruct w as [|[i|] w]; [done| |done]. destruct ((j :: f) !! i) as [x|] eqn:Hx; [|done].
  by rewrite <-(delete_Permutation (j :: f) i x Hx).
Qed.

Section unordered.
Context `{FuturesUnordered J}.
Implicit Types (f : fu) (w : world).

Definition fu_is_empty f : bool := fu_len f =? 0.

Lemma fu_is_empty_jobs f : fu_is_empty f = true ↔ fu_jobs f = [].
Proof. unfold fu_is_empty. rewrite fu_len_jobs, Nat.eqb_eq. apply length_zero_iff_nil. Qed.

Lemma fu_push_length j f : length (fu_jobs (fu_push j f)) = S (length (fu_jobs f)).
Proof. exact (Permutation_length (fu_jobs_push j f)). Qed.

Lemma fu_push_nonempty j f : fu_jobs (fu_push j f) ≠ [].
Proof. intros Hf. pose proof (fu_push_length j f) as Hl. by rewrite Hf in Hl. Qed.

(** [for job in queue.drain(..n) { set.push(job) }]: the set and what stays queued. *)
Definition fu_drain (n : nat) (queue : list J) f : fu * list J :=
  (foldl (λ f j, fu_push j f) f (take n queue), drop n queue).

Lemma fu_drain_jobs n queue f :
  let '(f', queue') := fu_drain n queue f in
  fu_jobs f' ++ queue' ≡ₚ fu_jobs f ++ queue ∧ length (fu_jobs f') = length (fu_jobs f) + length (take n queue).
Proof.
  unfold fu_drain. rewrite <-(take_drop n queue) at 3. generalize (take n queue) (drop n queue). clear queue.
  intros front back. revert f. induction front as [|j front IH]; intros f; simpl; [split; [done|lia]|].
  destruct (IH (fu_push j f)) as [Hp Hl]. rewrite Hp, Hl, fu_jobs_push. simpl. split; [|lia].
  by rewrite <-Permutation_middle.
Qed.
End unordered.

(** * Polling to completion *)

(** One iteration of a poll loop either returns from the poll or goes round again. *)
Inductive control (A : Type) : Type := Return (p : Poll A) | Continue.
Arguments Return {A} p.
Arguments Continue {A}.

Section loops.
Context {A St W : Type} (step : St → W → exec (control A * St * W)).

(** [loop { .. }] inside a poll function; [None] when the fuel runs out. *)
Fixpoint poll_loop (fuel : nat) (s : St) (w : W) : exec (option (Poll A * St * W)) :=
  match fuel with
  | O => ret None
  | S fuel =>
      let! '(c, s, w) := step s w in
      match c with
      | Return p => ret (Some (p, s, w))
      | Continue => poll_loop fuel s w
      end
  end.

(** An executor: polls at most [polls] times, until the future is ready. *)
Fixpoint drive (polls fuel : nat) (s : St) (w : W) : exec (option (Poll A * St * W)) :=
  match polls with
  | O => ret (Some (Pending, s, w))
  | S polls =>
      let! r := poll_loop fuel s w in
      match r with
      | Some (Pending, s, w) => drive polls fuel s w
      | _ => ret r
      end
  end.

(** The same with one pool of rounds for all polls, out of which each takes those that go round the
    loop; what is left of it is returned. *)
Fixpoint poll_loop_pool (pool : nat) (s : St) (w : W) : exec (option (Poll A * St * W * nat)) :=
  let! '(c, s, w) := step s w in
  match c with
  | Return p => ret (Some (p, s, w, pool))
  | Continue => match pool with O => ret None | S pool => poll_loop_pool pool s w end
  end.

Fixpoint drive_pool (polls pool : nat) (s : St) (w : W) : exec (option (Poll A * St * W * nat)) :=
  match polls with
  | O => ret (Some (Pending, s, w, pool))
  | S polls =>
      let! r := poll_loop_pool pool s w in
      match r with
      | Some (Pending, s, w, pool) => drive_pool polls pool s w
      | _ => ret r
      end
  end.

Lemma poll_loop_pool_loop pool fuel s w p s' w' left_ :
  poll_loop_pool pool s w = ret (Some (p, s', w', left_)) → pool < fuel →
  left_ ≤ pool ∧ poll_loop fuel s w = ret (Some (p, s', w')).
Proof.
  revert s w fuel. induction pool as [|pool IH]; intros s w [|fuel] Hr Hf; try lia; simpl in *;
    destruct (step s w) as [[[[q|] s1] w1]|]; simplify_eq/=; try (split; [lia|done]).
  destruct (IH s1 w1 fuel Hr ltac:(lia)) as [? ->]. split; [lia|done].
Qed.

(** A run out of a pool is a run in which every poll has as much fuel. *)
Lemma drive_pool_drive polls pool fuel s w p s' w' left_ :
  drive_pool polls pool s w = ret (Some (p, s', w', left_)) → pool < fuel →
  drive polls fuel s w = ret (Some (p, s', w')).
Proof.
  revert pool s w. induction polls as [|polls IH]; intros pool s w Hr Hf; simpl in *; [congruence|].
  destruct (poll_loop_pool pool s w) as [[[[[q s1] w1] pool1]|]|] eqn:Hp; simplify_eq/=.
  destruct (poll_loop_pool_loop _ fuel _ _ _ _ _ _ Hp Hf) as [Hle ->]. simpl.
  destruct q as [a|]; [congruence|]. apply (IH pool1); [done|lia].
Qed.

(** An invariant of the steps bounds what a poll, and a whole run, can do. *)
Section invariant.
Context (I : St → Prop) (R : A → Prop).
Context (step_ok : ∀ s w, I s →
  ∃ c s' w', step s w = ret (c, s', w') ∧
    match c with Return (Ready a) => R a | Return Pending | Continue => I s' end).

(** What holds when a poll or a run stops. *)
Definition stopped_ok (r : option (Poll A * St * W)) : Prop :=
  match r with Some (Ready a, _, _) => R a | Some (Pending, s, _) => I s | None => True end.

Lemma poll_loop_ok fuel s w : I s → ∃ r, poll_loop fuel s w = ret r ∧ stopped_ok r.
Proof.
  revert s w. induction fuel as [|fuel IH]; intros s w Hs; simpl; [by eexists|].
  destruct (step_ok s w Hs) as (c&s'&w'&->&Hc). simpl. destruct c as [[a|]|]; [by eexists..|]. by apply IH.
Qed.

Lemma drive_ok polls fuel s w : I s → ∃ r, drive polls fuel s w = ret r ∧ stopped_ok r.
Proof.
  revert s w. induction polls as [|polls IH]; intros s w Hs; simpl; [by eexists|].
  destruct (poll_loop_ok fuel s w Hs) as (r&->&Hr). simpl.
  destruct r as [[[[a|] s'] w']|]; [by eexists| |by eexists]. by apply IH.
Qed.

(** A bound [m] on the work left, decreased by every iteration that goes round, bounds the
    number of iterations of all the polls together. *)
Context (m : St → nat → Prop).
Context (step_decreases : ∀ s w n c s' w', I s → m s n → step s w = ret (c, s', w') →
  match c with Return (Ready _) => True | Return Pending => m s' n | Continue => ∃ n', n' < n ∧ m s' n' end).

Lemma poll_loop_terminates fuel s w n :
  I s → m s n → n < fuel →
  ∃ p s' w', poll_loop fuel s w = ret (Some (p, s', w')) ∧
    match p with Ready a => R a | Pending => I s' ∧ ∃ n', n' ≤ n ∧ m s' n' end.
Proof.
  revert s w n. induction fuel as [|fuel IH]; intros s w n Hs Hn Hf; [lia|]. simpl.
  destruct (step_ok s w Hs) as (c&s'&w'&Hst&Hc). pose proof (step_decreases _ _ _ _ _ _ Hs Hn Hst) as Hd.
  rewrite Hst. simpl. destruct c as [[a|]|].
  - by eexists _, _, _.
  - eexists _, _, _. split; [done|]. split; [done|]. by exists n.
  - destruct Hd as (n'&Hlt&Hn'). destruct (IH s' w' n' Hc Hn' ltac:(lia)) as (p&s2&w2&->&Hp).
    eexists _, _, _. split; [done|]. destruct p; [done|]. destruct Hp as (?&n2&?&?). split; [done|]. exists n2. split; [lia|done].
Qed.

Lemma drive_terminates polls fuel s w n :
  I s → m s n → n < fuel →
  ∃ p s' w', drive polls fuel s w = ret (Some (p, s', w')) ∧ match p with Ready a => R a | Pending => I s' end.
Proof.
  revert s w n. induction polls as [|polls IH]; intros s w n Hs Hn Hf; simpl; [by eexists _, _, _|].
  destruct (poll_loop_terminates fuel s w n Hs Hn Hf) as (p&s'&w'&->&Hp). simpl. destruct p as [a|].
  - by eexists _, _, _.
  - destruct Hp as (Hs'&n'&Hle&Hn'). apply (IH s' w' n'); [done..|lia].
Qed.

Lemma poll_loop_pool_terminates pool s w n :
  I s → m s n → n ≤ pool →
  ∃ p s' w' left_, poll_loop_pool pool s w = ret (Some (p, s', w', left_)) ∧
    match p with Ready a => R a | Pending => I s' ∧ ∃ n', n' ≤ left_ ∧ m s' n' end.
Proof.
  revert s w n. induction pool as [|pool IH]; intros s w n Hs Hn Hf; simpl;
    destruct (step_ok s w Hs) as (c&s'&w'&Hst&Hc); pose proof (step_decreases _ _ _ _ _ _ Hs Hn Hst) as Hd;
    rewrite Hst; simpl; (destruct c as [[a|]|]; [by eexists _, _, _, _| |]).
  - eexists _, _, _, _. split; [done|]. split; [done|]. by exists n.
  - destruct Hd as (n'&?&_). lia.
  - eexists _, _, _, _. split; [done|]. split; [done|]. by exists n.
  - destruct Hd as (n'&Hlt&Hn'). apply (IH s' w' n' Hc Hn'). lia.
Qed.

(** The bound on the work is enough for the pool, however many polls take from it. *)
Lemma drive_pool_terminates polls pool s w n :
  I s → m s n → n ≤ pool →
  ∃ p s' w' left_, drive_pool polls pool s w = ret (Some (p, s', w', left_)) ∧
    match p with Ready a => R a | Pending => I s' end.
Proof.
  revert pool s w n. induction polls as [|polls IH]; intros pool s w n Hs Hn Hf; simpl; [by eexists _, _, _, _|].
  destruct (poll_loop_pool_terminates pool s w n Hs Hn Hf) as (p&s'&w'&left_&->&Hp). simpl. destruct p as [a|].
  - by eexists _, _, _, _.
  - destruct Hp as (Hs'&n'&Hle&Hn'). by apply (IH left_ s' w' n').
Qed.
End invariant.
End loops.

(** * [bounded_traversal::common] *)

(** Where a node's result goes: the parent node and the child's position in it. *)
Record NodeLocation (Index : Type) := { node_index : Index; child_index : nat }.
Arguments Build_NodeLocation {Index}.
Arguments node_index {Index}.
Arguments child_index {Index}.

#[export] Instance NodeLocation_eq_dec `{EqDecision Index} : EqDecision (NodeLocation Index).
Proof. solve_decision. Defined.
#[export] Instance NodeLocation_countable `{Countable Index} : Countable (NodeLocation Index).
Proof.
  apply (inj_countable' (λ l, (node_index l, child_index l)) (λ p, Build_NodeLocation p.1 p.2)). by intros [].
Defined.

Inductive OrderedTraversal (Out In : Type) : Type :=
| Output (out : Out)
| Recurse (weight : nat) (input : In).
Arguments Output {Out In}.
Arguments Recurse {Out In}.
