(* ===== verification/BoundedTree.v ===== *)
(** [bounded_traversal::tree]: the traversal that unfolds a tree and folds it back
    (src/shed/bounded_traversal/src/tree.rs).  The callbacks are what their futures
    eventually resolve to, as functions of their arguments; the order in which the futures
    complete is the world's.  Node indices are counters ([nat]). *)
From S2P Require Import Prelude RustStd Futures.

Module BoundedTree.

#[local] Abbreviation Loc := (NodeLocation nat).

(** An execution tree node. *)
Record Node (Out OutCtx : Type) := {
  parent : Loc;
  context : OutCtx;
  children : list (option Out);
  children_left : nat;
}.
Arguments parent {Out OutCtx}.
Arguments context {Out OutCtx}.
Arguments children {Out OutCtx}.
Arguments children_left {Out OutCtx}.

(** The futures: an unfold or a fold in progress, joined with the location it is for. *)
Inductive Either2 (In Out OutCtx : Type) :=
| UFut (value : In)
| FFut (ctx : OutCtx) (outs : list Out).
Arguments UFut {In Out OutCtx}.
Arguments FFut {In Out OutCtx}.

Section tree.
Context {In Out OutCtx E : Type}.
Context (scheduled_max : nat).
Context (unfold_ : In → result (OutCtx * list In) E) (fold_ : OutCtx → list Out → result Out E).
#[local] Abbreviation Node := (Node Out OutCtx).
#[local] Abbreviation Job := (Loc * Either2 In Out OutCtx)%type.
Context `{FU : !FuturesUnordered Job} `{BuildMode}.

Record BoundedTraversal := {
  scheduled : fu;
  unscheduled : list Job;
  execution_tree : gmap nat Node;
  execution_tree_index : nat;
}.
Implicit Types s : BoundedTraversal.

Definition set_queue s (q : list Job) : BoundedTraversal :=
  {| scheduled := scheduled s; unscheduled := q;
     execution_tree := execution_tree s; execution_tree_index := execution_tree_index s |}.
Definition set_tree s (t : gmap nat Node) : BoundedTraversal :=
  {| scheduled := scheduled s; unscheduled := unscheduled s;
     execution_tree := t; execution_tree_index := execution_tree_index s |}.

Definition enqueue_unfold s (par : Loc) (value : In) : BoundedTraversal :=
  set_queue s ((par, UFut value) :: unscheduled s).

Definition enqueue_fold s (par : Loc) (ctx : OutCtx) (outs : list Out) : BoundedTraversal :=
  set_queue s ((par, FFut ctx outs) :: unscheduled s).

Definition root : Loc := Build_NodeLocation 0 0.

Definition new (init : In) : BoundedTraversal :=
  enqueue_unfold
    {| scheduled := fu_new; unscheduled := []; execution_tree := ∅; execution_tree_index := 0 |} root init.

(** The [fold] over the children: enqueues each with its index and counts them. *)
Fixpoint enqueue_children (k : nat) s (child_index : nat) (kids : list In) : BoundedTraversal * nat :=
  match kids with
  | [] => (s, child_index)
  | child :: kids =>
      enqueue_children k (enqueue_unfold s (Build_NodeLocation k child_index) child) (child_index + 1) kids
  end.

Definition process_unfold s (par : Loc) (ctx : OutCtx) (kids : list In) : BoundedTraversal :=
  let s :=
    {| scheduled := scheduled s; unscheduled := unscheduled s; execution_tree := execution_tree s;
       execution_tree_index := execution_tree_index s + 1 |} in
  let k := execution_tree_index s in
  let '(s, count) := enqueue_children k s 0 kids in
  if decide (count ≠ 0) then
    set_tree s (<[k := {| parent := par; context := ctx;
      children := replicate count None; children_left := count |}]> (execution_tree s))
  else enqueue_fold s par ctx [].

(** [children.into_iter().flatten()]. *)
Definition flatten (l : list (option Out)) : list Out := omap id l.

Definition process_fold s (par : Loc) (r : Out) : exec BoundedTraversal :=
  let! node := expect (execution_tree s !! node_index par) in
  let! slot := vec_index (children node) (child_index par) in
  let! _ := debug_assert (is_none slot) in
  let! left_ := count_sub (children_left node) 1 in
  let node := {| parent := parent node; context := context node;
    children := <[child_index par := Some r]> (children node); children_left := left_ |} in
  let s := set_tree s (<[node_index par := node]> (execution_tree s)) in
  if decide (left_ = 0) then
    let! node := expect (execution_tree s !! node_index par) in
    ret (enqueue_fold (set_tree s (delete (node_index par) (execution_tree s)))
      (parent node) (context node) (flatten (children node)))
  else ret s.

(** One iteration of the loop of [poll]. *)
Definition poll_step s (w : world) : exec (control (result Out E) * BoundedTraversal * world) :=
  let! room := count_sub scheduled_max (fu_len (scheduled s)) in
  let '(f, q) := fu_drain (length (unscheduled s) `min` room) (unscheduled s) (scheduled s) in
  let '(r, f, w) := fu_poll_next f w in
  let s := {| scheduled := f; unscheduled := q; execution_tree := execution_tree s;
    execution_tree_index := execution_tree_index s |} in
  match r with
  | Pending => ret (Return Pending, s, w)
  | Ready None => ret (Continue, s, w)
  | Ready (Some (loc, UFut value)) =>
      match unfold_ value with
      | Err e => ret (Return (Ready (Err e)), s, w)
      | Ok (ctx, kids) => ret (Continue, process_unfold s loc ctx kids, w)
      end
  | Ready (Some (loc, FFut ctx outs)) =>
      let r := fold_ ctx outs in
      if decide (node_index loc = 0) then
        let! _ := rust_assert (bool_decide (execution_tree s = ∅)) in
        let! _ := rust_assert (is_nil (unscheduled s)) in
        let! _ := rust_assert (fu_is_empty (scheduled s)) in
        ret (Return (Ready r), s, w)
      else
        match r with
        | Err e => ret (Return (Ready (Err e)), s, w)
        | Ok out => let! s := process_fold s loc out in ret (Continue, s, w)
        end
  end.

(** [poll], with fuel for its loop, and a whole run of an executor. *)
Definition poll (fuel : nat) s (w : world) := poll_loop poll_step fuel s w.
Definition bounded_traversal (init : In) (polls fuel : nat) (w : world) := drive poll_step polls fuel (new init) w.
End tree.

(** ** Open slots: the children a node still waits for *)

Section opens.
Context {Out OutCtx : Type}.
Implicit Types (l : list (option Out)) (t : gmap nat (Node Out OutCtx)).

Fixpoint opens (k i : nat) l : list Loc :=
  match l with
  | [] => []
  | None :: l => Build_NodeLocation k i :: opens k (S i) l
  | Some _ :: l => opens k (S i) l
  end.

Lemma elem_of_opens loc k i l :
  loc ∈ opens k i l ↔ node_index loc = k ∧ i ≤ child_index loc ∧ l !! (child_index loc - i) = Some None.
Proof.
  revert i. induction l as [|[o|] l IH]; intros i; simpl.
  - split; [set_solver|]. by intros (_&_&?).
  - rewrite IH. split; intros (Hk&Hi&Hl); (split; [done|]).
    + split; [lia|]. by replace (child_index loc - i) with (S (child_index loc - S i)) by lia.
    + destruct (child_index loc - i) as [|c] eqn:Hc; [done|]. split; [lia|].
      by replace (child_index loc - S i) with c by lia.
  - rewrite elem_of_cons, IH. split.
    + intros [->|(Hk&Hi&Hl)]; simpl; [by rewrite Nat.sub_diag|].
      split_and!; [done|lia|]. by replace (child_index loc - i) with (S (child_index loc - S i)) by lia.
    + intros (Hk&Hi&Hl). destruct (decide (child_index loc = i)) as [<-|].
      { left. destruct loc; simpl in *; by subst. }
      right. split_and!; [done|lia|]. destruct (child_index loc - i) as [|c] eqn:Hc; [lia|].
      by replace (child_index loc - S i) with c by lia.
Qed.

Lemma opens_set k i l c o :
  l !! c = Some None → opens k i l ≡ₚ Build_NodeLocation k (i + c) :: opens k i (<[c := Some o]> l).
Proof.
  revert i c. induction l as [|x l IH]; intros i c Hl; [done|]. destruct c as [|c]; simplify_eq/=.
  - by rewrite Nat.add_0_r.
  - rewrite Nat.add_succ_r, <-Nat.add_succ_l. destruct x; rewrite (IH (S i) c Hl); [done|].
    apply Permutation_swap.
Qed.

Lemma opens_replicate k i n :
  opens k i (replicate n None) = (λ c, Build_NodeLocation k c) <$> seq i n.
Proof. revert i. induction n as [|n IH]; intros i; simpl; [done|]. by rewrite IH. Qed.

Lemma opens_none k i l : opens k i l = [] → ∃ outs, l = Some <$> outs.
Proof.
  revert i. induction l as [|[o|] l IH]; intros i Hl; simpl in *; [by exists []| |done].
  destruct (IH _ Hl) as [outs ->]. by exists (o :: outs).
Qed.

Lemma flatten_Some (outs : list Out) : flatten (Some <$> outs) = outs.
Proof. induction outs as [|o outs IH]; [done|]. unfold flatten in *. by rewrite fmap_cons, omap_cons_eq, IH. Qed.

(** The open slots of an execution tree, and the slots its nodes will fill. *)
Definition opens_list (l : list (nat * Node Out OutCtx)) : list Loc :=
  l ≫= λ p, opens p.1 0 (children p.2).
Definition tree_opens t : list Loc := opens_list (map_to_list t).
Definition tree_parents t : list Loc := (λ p, parent p.2) <$> map_to_list t.

Lemma tree_opens_insert k n t :
  t !! k = None → tree_opens (<[k := n]> t) ≡ₚ opens k 0 (children n) ++ tree_opens t.
Proof. intros Hk. unfold tree_opens, opens_list. by rewrite map_to_list_insert. Qed.
Lemma tree_parents_insert k n t :
  t !! k = None → tree_parents (<[k := n]> t) ≡ₚ parent n :: tree_parents t.
Proof. intros Hk. unfold tree_parents. by rewrite map_to_list_insert. Qed.
Lemma tree_opens_delete k n t :
  t !! k = Some n → tree_opens t ≡ₚ opens k 0 (children n) ++ tree_opens (delete k t).
Proof. intros Hk. rewrite <-(insert_delete_id t k n) at 1 by done. by rewrite tree_opens_insert by apply lookup_delete_eq. Qed.
Lemma tree_parents_delete k n t :
  t !! k = Some n → tree_parents t ≡ₚ parent n :: tree_parents (delete k t).
Proof. intros Hk. rewrite <-(insert_delete_id t k n) at 1 by done. by rewrite tree_parents_insert by apply lookup_delete_eq. Qed.

Lemma elem_of_tree_opens loc t :
  loc ∈ tree_opens t ↔ ∃ n, t !! node_index loc = Some n ∧ children n !! child_index loc = Some None.
Proof.
  unfold tree_opens, opens_list. rewrite list_elem_of_bind. split.
  - intros ([k n]&Ho&Hk%elem_of_map_to_list). simpl in Ho. apply elem_of_opens in Ho as (<-&_&Hl).
    rewrite Nat.sub_0_r in Hl. eauto.
  - intros (n&Hk&Hl). exists (node_index loc, n). split; [|by apply elem_of_map_to_list].
    apply elem_of_opens. simpl. rewrite Nat.sub_0_r. split_and!; [done|lia|done].
Qed.

Lemma elem_of_tree_parents loc t : loc ∈ tree_parents t ↔ ∃ k n, t !! k = Some n ∧ parent n = loc.
Proof.
  unfold tree_parents. rewrite list_elem_of_fmap. split.
  - intros ([k n]&->&Hk%elem_of_map_to_list). eauto.
  - intros (k&n&Hk&<-). exists (k, n). split; [done|]. by apply elem_of_map_to_list.
Qed.
End opens.

(** ** What the traversal computes *)

Section theory.
Context {In Out OutCtx E : Type}.
Context (scheduled_max : nat).
Context (unfold_ : In → result (OutCtx * list In) E) (fold_ : OutCtx → list Out → result Out E).
#[local] Abbreviation Node := (Node Out OutCtx).
#[local] Abbreviation Job := (Loc * Either2 In Out OutCtx)%type.
Implicit Types (t : gmap nat Node) (js : list Job) (g : gmap nat (list In)).

(** The sequential reference: fold the results of the children, in their order. *)
Inductive eval : In → Out → Prop :=
| eval_node v ctx kids outs o :
    unfold_ v = Ok (ctx, kids) → Forall2 eval kids outs → fold_ ctx outs = Ok o → eval v o.

(** Somewhere in the tree an unfold, or a fold of computed children, fails with [e]. *)
Inductive fails : In → E → Prop :=
| fails_unfold v e : unfold_ v = Err e → fails v e
| fails_child v ctx kids kid e : unfold_ v = Ok (ctx, kids) → kid ∈ kids → fails kid e → fails v e
| fails_fold v ctx kids outs e :
    unfold_ v = Ok (ctx, kids) → Forall2 eval kids outs → fold_ ctx outs = Err e → fails v e.

Definition answer (init : In) (r : result Out E) : Prop :=
  match r with Ok o => eval init o | Err e => fails init e end.

Lemma Forall2_functional {A B} (P : A → B → Prop) (l : list A) k k' :
  (∀ x, x ∈ l → ∀ y y', P x y → P x y' → y = y') → Forall2 P l k → Forall2 P l k' → k = k'.
Proof.
  intros HP Hk. revert k'. induction Hk as [|x y l k Hxy Hk IH]; intros k' Hk'; inversion Hk'; subst; [done|].
  f_equal; [eapply HP; [by left|done..]|]. apply IH; [|done]. intros z Hz. apply HP. by right.
Qed.

(** The reference result is unique. *)
Lemma eval_functional : ∀ v o o', eval v o → eval v o' → o = o'.
Proof.
  fix IH 4. intros v o o' [v1 ctx kids outs o1 Hu Hk Hf] He.
  inversion He as [v2 ctx2 kids2 outs2 o2 Hu2 Hk2 Hf2]; subst. rewrite Hu in Hu2. simplify_eq.
  assert (outs = outs2) as ->; [|congruence]. clear He Hf Hf2 Hu. revert outs2 Hk2.
  induction Hk as [|x y l k Hxy Hk IHk]; intros outs2 Hk2; inversion Hk2; subst; [done|].
  f_equal; [by eapply IH|by apply IHk].
Qed.

(** ** The invariant *)

Section invariant.
Context (init : In).

(** The failures of a visited value are failures of the whole tree. *)
Definition below (v : In) : Prop := ∀ e, fails v e → fails init e.

(** The value a location stands for, from the children of the unfolded nodes. *)
Definition loc_val g (l : Loc) : option In :=
  if decide (l = root) then Some init else kids ← g !! node_index l; kids !! child_index l.

Definition node_ok g (k : nat) (n : Node) : Prop :=
  ∃ v kids, loc_val g (parent n) = Some v ∧ unfold_ v = Ok (context n, kids) ∧ g !! k = Some kids ∧
    Forall2 (λ kid o, ∀ out, o = Some out → eval kid out) kids (children n) ∧
    children_left n = length (opens k 0 (children n)) ∧ 0 < children_left n ∧ node_index (parent n) < k.

Definition job_ok g (j : Job) : Prop :=
  match j with
  | (loc, UFut v) => loc_val g loc = Some v
  | (loc, FFut ctx outs) => ∃ v kids, loc_val g loc = Some v ∧ unfold_ v = Ok (ctx, kids) ∧ Forall2 eval kids outs
  end.

(** Every open slot, and the root, is the destination of exactly one job or waiting node. *)
Record ginv g js t (idx : nat) : Prop := {
  inv_dom k kids : g !! k = Some kids → 0 < k ≤ idx ∧ Forall below kids;
  inv_nodes k n : t !! k = Some n → node_ok g k n;
  inv_jobs : Forall (job_ok g) js;
  inv_claims : root :: tree_opens t ≡ₚ js.*1 ++ tree_parents t;
}.

Lemma ginv_perm g js js' t idx : js ≡ₚ js' → ginv g js t idx → ginv g js' t idx.
Proof. intros Hp [H1 H2 H3 H4]. split; [done..|by rewrite <-Hp|by rewrite <-Hp]. Qed.

Lemma loc_val_mono g k kids l v : g !! k = None → loc_val g l = Some v → loc_val (<[k := kids]> g) l = Some v.
Proof.
  intros Hk. unfold loc_val. case_decide; [done|]. destruct (decide (node_index l = k)) as [->|].
  - by rewrite Hk.
  - by rewrite lookup_insert_ne.
Qed.

Lemma node_ok_mono g k kids i n : g !! k = None → node_ok g i n → node_ok (<[k := kids]> g) i n.
Proof.
  intros Hk (v&ks&Hv&Hu&Hi&Hc). exists v, ks. split; [by apply loc_val_mono|]. split; [done|]. split; [|done].
  rewrite lookup_insert_ne; [done|]. congruence.
Qed.

Lemma job_ok_mono g k kids j : g !! k = None → job_ok g j → job_ok (<[k := kids]> g) j.
Proof.
  intros Hk. destruct j as [loc [v|ctx outs]]; simpl; [by apply loc_val_mono|].
  intros (v&ks&Hv&Hr). exists v, ks. split; [by apply loc_val_mono|done].
Qed.

Lemma loc_below g js t idx l v : ginv g js t idx → loc_val g l = Some v → below v.
Proof.
  intros Hinv. unfold loc_val. case_decide; [by intros [= <-] e|]. intros Hl.
  destruct (g !! node_index l) as [kids|] eqn:Hk; [|done]. simpl in Hl.
  destruct (inv_dom _ _ _ _ Hinv _ _ Hk) as [_ Hb]. rewrite Forall_forall in Hb.
  by apply Hb, (list_elem_of_lookup_2 _ (child_index l)).
Qed.

Lemma below_child v ctx kids : below v → unfold_ v = Ok (ctx, kids) → Forall below kids.
Proof. intros Hv Hu. apply Forall_forall. intros kid Hkid e He. apply Hv. by eapply fails_child. Qed.

(** The job of a child. *)
Definition kid_job (k c : nat) (kid : In) : Job := (Build_NodeLocation k c, UFut kid).
Definition kid_jobs (k : nat) (kids : list In) : list Job := imap (kid_job k) kids.

Lemma kid_jobs_locs k kids : (kid_jobs k kids).*1 = (λ c, Build_NodeLocation k c) <$> seq 0 (length kids).
Proof.
  unfold kid_jobs. apply list_eq. intros i. rewrite list_lookup_fmap, list_lookup_imap, list_lookup_fmap.
  destruct (decide (i < length kids)) as [Hi|Hi].
  - rewrite lookup_seq_lt by done. destruct (lookup_lt_is_Some_2 kids i Hi) as [x ->]. done.
  - rewrite (lookup_ge_None_2 kids), (lookup_ge_None_2 (seq _ _)) by (rewrite ?length_seq; lia). done.
Qed.

(** An unfold without children becomes a fold. *)
Lemma ginv_leaf g js t idx loc v ctx :
  ginv g ((loc, UFut v) :: js) t idx → unfold_ v = Ok (ctx, []) → ginv g ((loc, FFut ctx []) :: js) t (idx + 1).
Proof.
  intros [H1 H2 H3 H4] Hu. apply Forall_cons in H3 as [Hl H3]. split; [|done| |done].
  - intros k kids Hk. destruct (H1 k kids Hk). split; [lia|done].
  - constructor; [|done]. exists v, []. by repeat constructor.
Qed.

(** An unfold with children becomes a node waiting for the jobs of its children. *)
Lemma ginv_node g js t idx loc v ctx kids :
  ginv g ((loc, UFut v) :: js) t idx → unfold_ v = Ok (ctx, kids) → kids ≠ [] →
  let n := {| parent := loc; context := ctx; children := replicate (length kids) None;
              children_left := length kids |} in
  t !! (idx + 1) = None ∧ ∃ g', ginv g' (kid_jobs (idx + 1) kids ++ js) (<[idx + 1 := n]> t) (idx + 1).
Proof.
  intros Hinv Hu Hne n. pose proof Hinv as [H1 H2 H3 H4]. apply Forall_cons in H3 as [Hl H3]. simpl in Hl.
  assert (g !! (idx + 1) = None) as Hg.
  { destruct (g !! (idx + 1)) eqn:Hk; [|done]. apply H1 in Hk as [? _]. lia. }
  assert (t !! (idx + 1) = None) as Ht.
  { destruct (t !! (idx + 1)) as [n'|] eqn:Hk; [|done]. destruct (H2 _ _ Hk) as (?&?&_&_&Hx&_). congruence. }
  split; [done|]. exists (<[idx + 1 := kids]> g).
  assert (node_index loc < idx + 1) as Hidx.
  { unfold loc_val in Hl. case_decide as Hr; [subst; simpl; lia|].
    destruct (g !! node_index loc) as [ks|] eqn:Hk; [|done]. apply H1 in Hk as [? _]. lia. }
  split.
  - intros k ks [[<- <-]|[Hk Hks]]%lookup_insert_Some; [split; [lia|]|destruct (H1 k ks Hks); split; [lia|done]].
    eapply below_child; [|done]. by eapply loc_below.
  - intros k n' [[<- <-]|[Hk Hn]]%lookup_insert_Some; [|by apply node_ok_mono, H2].
    exists v, kids. rewrite lookup_insert_eq. simpl. rewrite opens_replicate, length_fmap, length_seq.
    split_and!; [by apply loc_val_mono|done..| |done| |lia].
    + apply Forall2_same_length_lookup. rewrite length_replicate. split; [done|].
      intros i kid o _ [-> _]%lookup_replicate out. done.
    + destruct kids; [done|]. simpl. lia.
  - apply Forall_app. split; [|eapply Forall_impl; [done|]; intros; by apply job_ok_mono].
    apply Forall_forall. intros j (c&kid&->&Hc)%elem_of_lookup_imap. simpl. unfold loc_val.
    rewrite decide_False by (intros [= Hz]; lia). simpl. by rewrite lookup_insert_eq.
  - rewrite tree_opens_insert, tree_parents_insert by done. rewrite fmap_app, kid_jobs_locs. simpl.
    rewrite opens_replicate. simpl in H4.
    rewrite <-!app_assoc, (Permutation_middle (_ <$> _) (tree_opens t) root), H4. apply Permutation_app_head.
    by rewrite <-Permutation_middle.
Qed.

(** A job for a location other than the root finds its parent waiting for it. *)
Lemma ginv_parent g j js t idx :
  ginv g (j :: js) t idx → node_index j.1 ≠ 0 →
  ∃ n, t !! node_index j.1 = Some n ∧ children n !! child_index j.1 = Some None.
Proof.
  intros [H1 H2 H3 H4] Hr. assert (j.1 ∈ root :: tree_opens t) as Hin by (rewrite H4; simpl; by left).
  apply elem_of_cons in Hin as [Hj|Hin]; [by rewrite Hj in Hr|]. by apply elem_of_tree_opens.
Qed.

Lemma Forall2_set {A B} (P : A → B → Prop) (l : list A) k c y :
  Forall2 P l k → (∀ x, l !! c = Some x → P x y) → Forall2 P l (<[c := y]> k).
Proof.
  intros Hlk Hy. revert c Hy. induction Hlk as [|x z l k Hxz Hlk IH]; intros c Hy; [done|].
  destruct c as [|c]; simpl; constructor; auto.
Qed.

(** A fold that is not its parent's last child fills its slot. *)
Lemma ginv_fill g js t idx loc ctx outs o n :
  ginv g ((loc, FFut ctx outs) :: js) t idx → fold_ ctx outs = Ok o → node_index loc ≠ 0 →
  t !! node_index loc = Some n → children n !! child_index loc = Some None →
  let n' := {| parent := parent n; context := context n;
    children := <[child_index loc := Some o]> (children n); children_left := children_left n - 1 |} in
  opens (node_index loc) 0 (children n) ≡ₚ loc :: opens (node_index loc) 0 (children n') ∧
  (∃ v kids, loc_val g (parent n) = Some v ∧ unfold_ v = Ok (context n, kids) ∧
     g !! node_index loc = Some kids ∧
     Forall2 (λ kid o, ∀ out, o = Some out → eval kid out) kids (children n') ∧ node_index (parent n) < node_index loc) ∧
  children_left n = S (length (opens (node_index loc) 0 (children n'))) ∧
  tree_opens (delete (node_index loc) t) ++ opens (node_index loc) 0 (children n') ++ [root] ≡ₚ
    js.*1 ++ parent n :: tree_parents (delete (node_index loc) t).
Proof.
  intros Hinv Hf Hr Ht Hc n'. pose proof Hinv as [H1 H2 H3 H4]. apply Forall_cons in H3 as [Hj _].
  destruct Hj as (v&ks&Hv&Hu&Hev).
  assert (opens (node_index loc) 0 (children n) ≡ₚ loc :: opens (node_index loc) 0 (children n')) as Hop.
  { rewrite (opens_set _ _ _ (child_index loc) o Hc). simpl. by destruct loc. }
  destruct (H2 _ _ Ht) as (pv&kids&Hpv&Hpu&Hg&Hk&Hcl&_&Hlt). split_and!; [done| | |].
  - exists pv, kids. split_and!; [done..| |done]. apply Forall2_set; [done|].
    intros kid Hkid out [= <-]. unfold loc_val in Hv. rewrite decide_False in Hv by (intros ->; done).
    rewrite Hg in Hv. simpl in Hv. simplify_eq. by econstructor.
  - rewrite Hcl, Hop. done.
  - rewrite (tree_opens_delete _ _ _ Ht), (tree_parents_delete _ _ _ Ht), Hop in H4. simpl in H4.
    rewrite (Permutation_swap loc root) in H4. apply Permutation_cons_inv in H4. rewrite <-H4.
    rewrite Permutation_app_comm, <-app_assoc. simpl. by rewrite <-Permutation_middle.
Qed.

Lemma ginv_wait g js t idx loc ctx outs o n :
  ginv g ((loc, FFut ctx outs) :: js) t idx → fold_ ctx outs = Ok o → node_index loc ≠ 0 →
  t !! node_index loc = Some n → children n !! child_index loc = Some None → children_left n - 1 ≠ 0 →
  ginv g js (<[node_index loc := {| parent := parent n; context := context n;
    children := <[child_index loc := Some o]> (children n); children_left := children_left n - 1 |}]> t) idx.
Proof.
  intros Hinv Hf Hr Ht Hc Hl. pose proof (ginv_fill _ _ _ _ _ _ _ _ _ Hinv Hf Hr Ht Hc) as (Hop&Hn&Hcl&Hcm).
  destruct Hinv as [H1 H2 H3 H4]. apply Forall_cons in H3 as [_ H3]. split; [done| |done|].
  - intros k n' [[<- <-]|[Hk Hn']]%lookup_insert_Some; [|by apply H2].
    destruct Hn as (v&kids&?&?&?&?&?). exists v, kids. simpl in *. split_and!; [done..|lia|lia|done].
  - rewrite <-insert_delete_eq, tree_opens_insert, tree_parents_insert by apply lookup_delete_eq.
    simpl in Hcm |- *. rewrite <-Hcm, (Permutation_app_comm (tree_opens _) (_ ++ [root])), <-app_assoc.
    simpl. apply Permutation_middle.
Qed.

(** The last child turns its parent into a fold. *)
Lemma ginv_complete g js t idx loc ctx outs o n :
  ginv g ((loc, FFut ctx outs) :: js) t idx → fold_ ctx outs = Ok o → node_index loc ≠ 0 →
  t !! node_index loc = Some n → children n !! child_index loc = Some None → children_left n - 1 = 0 →
  ginv g ((parent n, FFut (context n) (flatten (<[child_index loc := Some o]> (children n)))) :: js)
    (delete (node_index loc) t) idx.
Proof.
  intros Hinv Hf Hr Ht Hc Hl. pose proof (ginv_fill _ _ _ _ _ _ _ _ _ Hinv Hf Hr Ht Hc) as (Hop&Hn&Hcl&Hcm).
  destruct Hinv as [H1 H2 H3 H4]. apply Forall_cons in H3 as [_ H3]. simpl in *.
  destruct (opens (node_index loc) 0 (<[child_index loc := Some o]> (children n))) as [|? ?] eqn:Ho; [|simpl in *; lia].
  split; [done| | |].
  - intros k n' [Hk Hn']%lookup_delete_Some. by apply H2.
  - constructor; [|done]. destruct Hn as (v&kids&Hv&Hu&_&Hk&_). exists v, kids. split_and!; [done..|].
    destruct (opens_none _ _ _ Ho) as [os Hos]. rewrite Hos, flatten_Some in *.
    apply Forall2_fmap_r in Hk. eapply Forall2_impl; [exact Hk|]. simpl. auto.
  - simpl in Hcm. rewrite Permutation_app_comm in Hcm. simpl in Hcm. rewrite Hcm. simpl.
    by rewrite <-Permutation_middle.
Qed.

(** A completed job for the root is the only work left. *)
Lemma ginv_root g j js t idx :
  ginv g (j :: js) t idx → node_index j.1 = 0 → j.1 = root ∧ js = [] ∧ t = ∅.
Proof.
  intros [H1 H2 H3 H4] Hj. simpl in H4.
  assert (∀ loc, loc ∈ tree_opens t → 0 < node_index loc) as Hopen.
  { intros loc (n&Hn&_)%elem_of_tree_opens. destruct (H2 _ _ Hn) as (?&?&_&_&Hk&_). apply H1 in Hk as [? _]. lia. }
  assert (j.1 = root) as Hroot.
  { assert (j.1 ∈ root :: tree_opens t) as [?|Ho]%elem_of_cons by (rewrite H4; by left); [done|].
    apply Hopen in Ho. lia. }
  rewrite Hroot in H4. apply Permutation_cons_inv in H4.
  assert (∀ k n, t !! k = Some n → False) as Ht.
  { intros k. induction (lt_wf k) as [k _ IH]. intros n Hn.
    assert (parent n ∈ tree_opens t) as Hp.
    { rewrite H4. apply elem_of_app. right. apply elem_of_tree_parents. eauto. }
    apply elem_of_tree_opens in Hp as (n'&Hn'&_).
    destruct (H2 _ _ Hn) as (?&?&_&_&_&_&_&_&Hlt). by apply (IH _ Hlt n'). }
  assert (t = ∅) as -> by (apply map_empty; intros k; destruct (t !! k) as [n|] eqn:Hk; [by destruct (Ht k n)|done]).
  split_and!; [done| |done]. unfold tree_opens, tree_parents in H4. rewrite map_to_list_empty, app_nil_r in H4.
  apply Permutation_nil_l in H4. by destruct js.
Qed.

(** There is always a job in progress: every waiting node has an open slot. *)
Lemma ginv_jobs g t idx : ¬ ginv g [] t idx.
Proof.
  intros [H1 H2 H3 H4]. simpl in H4. apply Permutation_length in H4. simpl in H4.
  assert (∀ l : list (nat * Node), (∀ k n, (k, n) ∈ l → t !! k = Some n) →
    length ((λ p, parent p.2) <$> l) ≤ length (opens_list l)) as Hle.
  { induction l as [|[k n] l IH]; intros Hl; [done|]. unfold opens_list in *.
    rewrite fmap_cons, bind_cons, length_app. cbn [length fst snd].
    assert (t !! k = Some n) as Hk by (apply Hl; by left).
    destruct (H2 _ _ Hk) as (?&?&_&_&_&_&Hc&Hpos&_). assert (length ((λ p, parent p.2) <$> l) ≤ length (l ≫= λ p, opens p.1 0 (children p.2))); [|lia].
    apply IH. intros; apply Hl; by right. }
  unfold tree_opens, tree_parents in H4.
  assert (length ((λ p, parent p.2) <$> map_to_list t) ≤ length (opens_list (map_to_list t))); [|lia].
  apply Hle. by intros ?? ?%elem_of_map_to_list.
Qed.

Section steps.
Context `{FU : !FuturesUnordered Job} `{BuildMode}.
#[local] Abbreviation State := (BoundedTraversal (In:=In) (Out:=Out) (OutCtx:=OutCtx)).
Implicit Types (s : State) (w : world).

Definition jobs s : list Job := fu_jobs (scheduled s) ++ unscheduled s.

Record inv s : Prop := {
  inv_ginv : ∃ g, ginv g (jobs s) (execution_tree s) (execution_tree_index s);
  inv_scheduled : length (fu_jobs (scheduled s)) ≤ scheduled_max;
}.

Lemma enqueue_children_spec k s i kids :
  ∃ q, enqueue_children k s i kids = (set_queue s q, i + length kids) ∧
    q ≡ₚ imap (λ c, kid_job k (i + c)) kids ++ unscheduled s.
Proof.
  revert s i. induction kids as [|kid kids IH]; intros s i; simpl.
  { exists (unscheduled s). rewrite Nat.add_0_r. by destruct s. }
  destruct (IH (enqueue_unfold s (Build_NodeLocation k i) kid) (i + 1)) as (q&->&Hq).
  exists q. split; [by rewrite Nat.add_1_r, Nat.add_succ_l, Nat.add_succ_r|]. rewrite Hq. simpl.
  rewrite Nat.add_0_r, <-Permutation_middle. unfold kid_job at 2. f_equiv. f_equiv.
  erewrite imap_ext; [done|]. intros c x _. simpl. f_equal. lia.
Qed.

Lemma process_unfold_ok g js s loc v ctx kids :
  jobs s ≡ₚ js → ginv g ((loc, UFut v) :: js) (execution_tree s) (execution_tree_index s) →
  unfold_ v = Ok (ctx, kids) →
  let s' := process_unfold s loc ctx kids in
  scheduled s' = scheduled s ∧ (∃ g', ginv g' (jobs s') (execution_tree s') (execution_tree_index s')) ∧
  match kids with
  | [] => jobs s' ≡ₚ (loc, FFut ctx []) :: js ∧ size (execution_tree s') = size (execution_tree s)
  | _ => jobs s' ≡ₚ kid_jobs (execution_tree_index s + 1) kids ++ js ∧
         size (execution_tree s') = S (size (execution_tree s))
  end.
Proof.
  intros Hjs Hinv Hu. unfold process_unfold.
  set (s1 := {| scheduled := scheduled s; unscheduled := unscheduled s; execution_tree := execution_tree s;
    execution_tree_index := execution_tree_index s + 1 |}). cbv zeta.
  destruct (enqueue_children_spec (execution_tree_index s1) s1 0 kids) as (q&->&Hq). simpl in Hq |- *.
  destruct kids as [|kid kids].
  - rewrite decide_False by (simpl; lia). simpl. split; [done|].
    assert (jobs (enqueue_fold (set_queue s1 q) loc ctx []) ≡ₚ (loc, FFut ctx []) :: js) as Hp.
    { unfold jobs. simpl. rewrite Hq, <-Permutation_middle. simpl. by rewrite <-Hjs. }
    split; [|by split]. exists g. eapply ginv_perm; [by symmetry|]. by eapply ginv_leaf.
  - rewrite decide_True by (simpl; lia). simpl. split; [done|].
    destruct (ginv_node _ _ _ _ _ _ _ _ Hinv Hu ltac:(done)) as [Ht (g'&Hg')].
    match goal with |- context [set_tree ?a ?b] => set (s' := set_tree a b) end.
    assert (jobs s' ≡ₚ kid_jobs (execution_tree_index s + 1) (kid :: kids) ++ js) as Hp.
    { unfold jobs. simpl. rewrite Hq, <-Hjs. unfold jobs. rewrite Permutation_app_comm, <-!app_assoc.
      rewrite (Permutation_app_comm (unscheduled s)). done. }
    split; [|split; [done|by apply map_size_insert_None]]. exists g'. eapply ginv_perm; [by symmetry|done].
Qed.

Lemma process_fold_ok g js s loc ctx outs o :
  jobs s ≡ₚ js → ginv g ((loc, FFut ctx outs) :: js) (execution_tree s) (execution_tree_index s) →
  fold_ ctx outs = Ok o → node_index loc ≠ 0 →
  ∃ s', process_fold s loc o = ret s' ∧ scheduled s' = scheduled s ∧
    (∃ g', ginv g' (jobs s') (execution_tree s') (execution_tree_index s')) ∧
    ((jobs s' ≡ₚ js ∧ size (execution_tree s') = size (execution_tree s)) ∨
     (∃ par c os, jobs s' ≡ₚ (par, FFut c os) :: js ∧ S (size (execution_tree s')) = size (execution_tree s))).
Proof.
  intros Hjs Hinv Hf Hr. destruct (ginv_parent _ _ _ _ _ Hinv Hr) as (n&Hn&Hc). simpl in Hn, Hc.
  destruct (ginv_fill _ _ _ _ _ _ _ _ _ Hinv Hf Hr Hn Hc) as (_&_&Hl&_).
  unfold process_fold. rewrite Hn. simpl. unfold vec_index. rewrite Hc. simpl.
  assert (debug_assert true = ret ()) as -> by (unfold debug_assert; by destruct debug_assertions). simpl.
  rewrite count_sub_le by lia. simpl. case_decide as Hz.
  - rewrite lookup_insert_eq. simpl. rewrite delete_insert_eq. eexists. split; [done|]. split; [done|].
    assert (∀ q, jobs s ≡ₚ js → fu_jobs (scheduled s) ++ q :: unscheduled s ≡ₚ q :: js) as Hp.
    { intros q Hq. rewrite <-Permutation_middle. by rewrite <-Hq. }
    split.
    + exists g. eapply ginv_perm; [symmetry; apply Hp, Hjs|]. by eapply ginv_complete.
    + right. eexists _, _, _. split; [apply Hp, Hjs|]. simpl. rewrite map_size_delete_Some by done.
      assert (size (execution_tree s) ≠ 0); [|lia]. apply (map_size_ne_0_lookup_2 _ (node_index loc)). by eexists.
  - eexists. split; [done|]. split; [done|]. split.
    + exists g. eapply ginv_perm; [symmetry; exact Hjs|]. by eapply ginv_wait.
    + left. split; [done|]. simpl. by rewrite map_size_insert_Some.
Qed.

(** What an iteration that goes round again has done to the jobs and the waiting nodes. *)
Inductive progress s s' : Prop :=
| progress_idle : scheduled_max = 0 → progress s s'
| progress_leaf loc v ctx js :
    jobs s ≡ₚ (loc, UFut v) :: js → unfold_ v = Ok (ctx, []) → jobs s' ≡ₚ (loc, FFut ctx []) :: js →
    size (execution_tree s') = size (execution_tree s) → progress s s'
| progress_node loc v ctx kids k js :
    jobs s ≡ₚ (loc, UFut v) :: js → unfold_ v = Ok (ctx, kids) → jobs s' ≡ₚ kid_jobs k kids ++ js →
    size (execution_tree s') = S (size (execution_tree s)) → progress s s'
| progress_fill loc ctx outs js :
    jobs s ≡ₚ (loc, FFut ctx outs) :: js → jobs s' ≡ₚ js →
    size (execution_tree s') = size (execution_tree s) → progress s s'
| progress_complete loc ctx outs par c os js :
    jobs s ≡ₚ (loc, FFut ctx outs) :: js → jobs s' ≡ₚ (par, FFut c os) :: js →
    S (size (execution_tree s')) = size (execution_tree s) → progress s s'.

Lemma poll_step_spec s w :
  inv s →
  ∃ c s' w', poll_step scheduled_max unfold_ fold_ s w = ret (c, s', w') ∧
    match c with
    | Return (Ready r) => answer init r
    | Return Pending => inv s' ∧ jobs s' ≡ₚ jobs s ∧ size (execution_tree s') = size (execution_tree s)
    | Continue => inv s' ∧ progress s s'
    end.
Proof.
  intros [[g Hg] Hmax]. unfold poll_step. rewrite fu_len_jobs, count_sub_le by done. cbn [exec_bind].
  pose proof (fu_drain_jobs (length (unscheduled s) `min` (scheduled_max - length (fu_jobs (scheduled s))))
    (unscheduled s) (scheduled s)) as Hdr.
  destruct (fu_drain _ _ _) as [f q]. destruct Hdr as [Hp Hlen]. rewrite length_take in Hlen.
  pose proof (fu_poll_next_spec f w) as Hpoll. destruct (fu_poll_next f w) as [[[[[loc fut]|]|] f'] w']; cbn beta iota zeta.
  - assert (jobs s ≡ₚ (loc, fut) :: (fu_jobs f' ++ q)) as Hjs by (unfold jobs; by rewrite <-Hp, Hpoll).
    apply Permutation_length in Hpoll as Hl. simpl in Hl.
    assert (length (fu_jobs f') ≤ scheduled_max) as Hmax' by lia.
    apply (ginv_perm _ _ _ _ _ Hjs) in Hg as Hg'.
    set (s1 := {| scheduled := f'; unscheduled := q; execution_tree := execution_tree s;
      execution_tree_index := execution_tree_index s |}).
    destruct fut as [v|ctx outs]; cbn beta iota.
    + destruct (unfold_ v) as [[ctx kids]|e] eqn:Hu.
      * destruct (process_unfold_ok g (fu_jobs f' ++ q) s1 loc v ctx kids ltac:(done) Hg' Hu) as (Hs&Hi&Hk).
        eexists _, _, _. split; [reflexivity|]. split; [split; [done|by rewrite Hs]|].
        destruct kids; destruct Hk as [Hk1 Hk2]; [by eapply progress_leaf|by eapply progress_node].
      * eexists _, _, _. split; [reflexivity|]. destruct Hg' as [H1 H2 H3 H4].
        apply Forall_cons in H3 as [Hj _]. eapply loc_below; [exact Hg|exact Hj|]. by apply fails_unfold.
    + case_decide as Hr.
      * destruct (ginv_root _ _ _ _ _ Hg' Hr) as (Hroot&Hnil&Ht). simpl in Hroot. subst loc.
        apply app_nil in Hnil as [Hf' ->]. unfold s1. simpl. rewrite bool_decide_true by done. simpl.
        assert (fu_is_empty f' = true) as -> by (by apply fu_is_empty_jobs). simpl.
        eexists _, _, _. split; [reflexivity|]. destruct Hg' as [H1 H2 H3 H4].
        apply Forall_cons in H3 as [(v&kids&Hv&Hu&Hev) _]. unfold loc_val in Hv.
        rewrite decide_True in Hv by done. simplify_eq.
        destruct (fold_ ctx outs) eqn:Hfold; [by econstructor|by eapply fails_fold].
      * destruct (fold_ ctx outs) as [o|e] eqn:Hfold.
        -- destruct (process_fold_ok g (fu_jobs f' ++ q) s1 loc ctx outs o ltac:(done) Hg' Hfold Hr)
             as (s'&->&Hs&Hi&Hk). simpl.
           eexists _, _, _. split; [reflexivity|]. split; [split; [done|by rewrite Hs]|].
           destruct Hk as [[Hk1 Hk2]|(par&c&os&Hk1&Hk2)]; [by eapply progress_fill|by eapply progress_complete].
        -- eexists _, _, _. split; [reflexivity|]. destruct Hg' as [H1 H2 H3 H4].
           apply Forall_cons in H3 as [(v&kids&Hv&Hu&Hev) _].
           eapply loc_below; [exact Hg|exact Hv|]. by eapply fails_fold.
  - destruct Hpoll as [Hf Hf']. eexists _, _, _. split; [reflexivity|].
    assert (jobs s ≡ₚ fu_jobs f' ++ q) as Hjs by (unfold jobs; by rewrite <-Hp, Hf, Hf').
    split; [split; [exists g; by eapply ginv_perm|simpl; apply Permutation_length in Hjs; rewrite Hf'; simpl; lia]|].
    destruct (decide (scheduled_max = 0)) as [Hz|Hz]; [by apply progress_idle|]. exfalso.
    rewrite Hf in Hlen. simpl in Hlen. apply (ginv_jobs g (execution_tree s) (execution_tree_index s)).
    eapply ginv_perm; [|exact Hg]. destruct (fu_jobs (scheduled s)) eqn:Hsc; [|cbn [length] in *; lia].
    destruct (unscheduled s) eqn:Hun; [|cbn [length] in *; lia]. unfold jobs. by rewrite Hsc, Hun.
  - destruct Hpoll as [_ Hf']. eexists _, _, _. split; [reflexivity|].
    assert (jobs s ≡ₚ fu_jobs f' ++ q) as Hjs by (unfold jobs; by rewrite <-Hp, Hf').
    split; [|by split]. split; [exists g; by eapply ginv_perm|]. simpl. rewrite Hf'. lia.
Qed.

Lemma tree_new_inv : inv (new init).
Proof.
  split; simpl; [|rewrite fu_jobs_new; simpl; lia]. exists ∅. unfold jobs. simpl. rewrite fu_jobs_new. simpl.
  split; [done|done|..].
  - repeat constructor.
  - unfold tree_opens, tree_parents. by rewrite map_to_list_empty.
Qed.

(** ** Termination: the work left decreases *)

(** The number of nodes of a finite tree. *)
Inductive tree_size : In → nat → Prop :=
| size_err v e : unfold_ v = Err e → tree_size v 1
| size_ok v ctx kids ns : unfold_ v = Ok (ctx, kids) → Forall2 tree_size kids ns → tree_size v (S (sum_list ns)).

Definition job_work (j : Job) (n : nat) : Prop :=
  match j.2 with UFut v => ∃ m, tree_size v m ∧ n = 2 * m | FFut _ _ => n = 1 end.
Definition work s (n : nat) : Prop :=
  ∃ ns, Forall2 job_work (jobs s) ns ∧ n = sum_list ns + size (execution_tree s).

Lemma work_perm js js' ns :
  js ≡ₚ js' → Forall2 job_work js ns → ∃ ns', Forall2 job_work js' ns' ∧ sum_list ns' = sum_list ns.
Proof.
  intros Hp Hns. destruct (Forall2_perm _ _ _ _ Hp Hns) as (ns'&?&Heq). exists ns'. split; [done|].
  by rewrite Heq.
Qed.

Lemma work_kids k kids ns :
  Forall2 tree_size kids ns → Forall2 job_work (kid_jobs k kids) ((λ n, 2 * n) <$> ns).
Proof.
  intros Hk. apply Forall2_same_length_lookup. unfold kid_jobs. rewrite length_imap, length_fmap.
  split; [by eapply Forall2_length|]. intros i j n Hj Hn.
  rewrite list_lookup_imap in Hj. rewrite list_lookup_fmap in Hn.
  destruct (kids !! i) as [kid|] eqn:Hkid, (ns !! i) as [m|] eqn:Hm; simplify_eq/=.
  exists m. split; [|done]. by eapply (Forall2_lookup_lr _ _ _ i).
Qed.

Lemma sum_list_double (ns : list nat) : sum_list ((λ n, 2 * n) <$> ns) = 2 * sum_list ns.
Proof. induction ns as [|n ns IH]; [done|]. rewrite fmap_cons. simpl in *. lia. Qed.

Lemma progress_work s s' n :
  scheduled_max ≠ 0 → progress s s' → work s n → ∃ n', n' < n ∧ work s' n'.
Proof.
  intros Hz Hpr (ns&Hns&->). destruct Hpr as [|loc v ctx js Hjs Hu Hjs' Hsz|loc v ctx kids k js Hjs Hu Hjs' Hsz|
    loc ctx outs js Hjs Hjs' Hsz|loc ctx outs par c os js Hjs Hjs' Hsz]; [done|..];
    destruct (work_perm _ _ _ Hjs Hns) as (ns1&Hns1&Hs1); rewrite <-Hs1; clear Hns Hs1;
    inversion Hns1 as [|? n0 ? ns2 Hj Hns2]; subst; unfold job_work in Hj; simpl in Hj.
  - destruct Hj as (m&Hm&->). inversion Hm as [|? ? ? ns3 Hu3 Hns3]; subst; [congruence|].
    rewrite Hu in Hu3. simplify_eq. inversion Hns3; subst.
    destruct (work_perm _ ((loc, FFut ctx0 []) :: js) (1 :: ns2) (reflexivity _)) as (ns4&H4&Hs4); [by constructor|].
    destruct (work_perm _ (jobs s') ns4 (symmetry Hjs') H4) as (ns5&H5&Hs5).
    exists (sum_list ns5 + size (execution_tree s')). split; [simpl in *; lia|by exists ns5].
  - destruct Hj as (m&Hm&->). inversion Hm as [|? ? ? ns3 Hu3 Hns3]; subst; [congruence|].
    rewrite Hu in Hu3. simplify_eq.
    destruct (work_perm _ (jobs s') (((λ n, 2 * n) <$> ns3) ++ ns2) (symmetry Hjs')) as (ns5&H5&Hs5).
    { apply Forall2_app; [by apply work_kids|done]. }
    exists (sum_list ns5 + size (execution_tree s')). split; [|by exists ns5].
    rewrite Hs5, sum_list_with_app, sum_list_double. simpl. lia.
  - destruct (work_perm _ (jobs s') ns2 (symmetry Hjs') Hns2) as (ns5&H5&Hs5).
    exists (sum_list ns5 + size (execution_tree s')). split; [simpl in *; lia|by exists ns5].
  - destruct (work_perm _ (jobs s') (1 :: ns2) (symmetry Hjs')) as (ns5&H5&Hs5); [by constructor|].
    exists (sum_list ns5 + size (execution_tree s')). split; [simpl in *; lia|by exists ns5].
Qed.

Lemma new_work n : tree_size init n → work (new init) (2 * n).
Proof.
  intros Hn. exists [2 * n]. unfold jobs. simpl. rewrite fu_jobs_new. simpl.
  split; [|rewrite map_size_empty; simpl; lia]. repeat constructor. by exists n.
Qed.

Lemma tree_step_ok s w :
  inv s →
  ∃ c s' w', poll_step scheduled_max unfold_ fold_ s w = ret (c, s', w') ∧
    match c with Return (Ready r) => answer init r | Return Pending | Continue => inv s' end.
Proof.
  intros Hs. destruct (poll_step_spec s w Hs) as (c&s'&w'&Hst&Hc). exists c, s', w'. split; [done|].
  destruct c as [[r|]|]; [done|by destruct Hc..].
Qed.

Lemma work_jobs s s' n : jobs s' ≡ₚ jobs s → size (execution_tree s') = size (execution_tree s) → work s n → work s' n.
Proof.
  intros Hj Hsz (ns&Hns&->). destruct (work_perm _ _ _ (symmetry Hj) Hns) as (ns'&?&Heq). exists ns'.
  by rewrite Heq, Hsz.
Qed.

Lemma tree_step_work s w n c s' w' :
  scheduled_max ≠ 0 → inv s → work s n → poll_step scheduled_max unfold_ fold_ s w = ret (c, s', w') →
  match c with Return (Ready _) => True | Return Pending => work s' n | Continue => ∃ n', n' < n ∧ work s' n' end.
Proof.
  intros Hz Hs Hn Hst. destruct (poll_step_spec s w Hs) as (c'&s2&w2&Hst'&Hc). rewrite Hst in Hst'. simplify_eq.
  destruct c' as [[r|]|]; [done| |].
  - destruct Hc as (_&Hj&Hsz). by eapply work_jobs.
  - destruct Hc as (_&Hpr). by eapply progress_work.
Qed.

(** The futures in progress never exceed [scheduled_max], whatever was polled before. *)
Definition bounded s : Prop := fu_len (scheduled s) ≤ scheduled_max.

(** C4: soundness of a whole run, for every order of completion and every number of polls:
    no assertion, index or subtraction of the code fails (no panic); while the future is
    pending at most [scheduled_max] jobs are in progress; a result is the value of the
    sequential fold of the tree, and an error is the error of a failing unfold or fold. *)
Theorem bounded_traversal_sound (polls fuel : nat) w :
  ∃ r, bounded_traversal scheduled_max unfold_ fold_ init polls fuel w = ret r ∧
    match r with
    | Some (Ready (Ok o), _, _) => eval init o ∧ ∀ o', eval init o' → o' = o
    | Some (Ready (Err e), _, _) => fails init e
    | Some (Pending, s, _) => bounded s
    | None => True
    end.
Proof.
  destruct (drive_ok _ inv (answer init) tree_step_ok polls fuel (new init) w tree_new_inv) as (r&Hr&Hok).
  exists r. split; [exact Hr|]. destruct r as [[[[[o|e]|] s] w']|]; simpl in Hok; [|done| |done].
  - split; [done|]. intros o' Ho'. by eapply eval_functional.
  - destruct Hok as [_ Hmax]. unfold bounded. by rewrite fu_len_jobs.
Qed.

(** C11: termination: on a finite tree of [n] nodes, with a positive [scheduled_max], no poll
    goes round its loop more than [2 * n] times: every poll returns, and the run ends with the
    answer or with the last poll pending. *)
Theorem bounded_traversal_terminates n (polls fuel : nat) w :
  tree_size init n → 0 < scheduled_max → 2 * n < fuel →
  ∃ p s w', bounded_traversal scheduled_max unfold_ fold_ init polls fuel w = ret (Some (p, s, w')) ∧
    match p with Ready r => answer init r | Pending => bounded s end.
Proof.
  intros Hn Hmax Hf.
  destruct (drive_terminates _ inv (answer init) tree_step_ok work) with (polls := polls) (fuel := fuel)
    (s := new init) (w := w) (n := 2 * n) as (p&s'&w'&Hr&Hp); [|apply tree_new_inv|by apply new_work|done|].
  - intros s1 w1 n1 c s2 w2. apply tree_step_work. lia.
  - exists p, s', w'. split; [exact Hr|]. destruct p as [r|]; [done|]. destruct Hp as [_ Hp].
    unfold bounded. by rewrite fu_len_jobs.
Qed.
End steps.
End invariant.

(** With [scheduled_max = 0] nothing is ever scheduled: the loop of [poll] goes round
    forever, without returning even [Pending], whatever the fuel. *)
Theorem scheduled_max_zero_spins `{FU : !FuturesUnordered Job} `{BuildMode} init (fuel : nat) (w : world) :
  scheduled_max = 0 → poll scheduled_max unfold_ fold_ fuel (new init) w = ret None.
Proof.
  intros Hz.
  assert (∀ (s : BoundedTraversal (In:=In) (Out:=Out) (OutCtx:=OutCtx)) w, fu_jobs (scheduled s) = [] →
    poll scheduled_max unfold_ fold_ fuel s w = ret None) as Hspin; [|apply Hspin; simpl; apply fu_jobs_new].
  assert (∀ (s : BoundedTraversal (In:=In) (Out:=Out) (OutCtx:=OutCtx)) w, fu_jobs (scheduled s) = [] →
    ∃ s' w', poll_step scheduled_max unfold_ fold_ s w = ret (Continue, s', w') ∧ fu_jobs (scheduled s') = []) as Hstep.
  { intros s w' Hs. unfold poll_step. rewrite fu_len_jobs, Hs, Hz, count_sub_le by done. cbn [exec_bind].
    rewrite Nat.min_0_r. unfold fu_drain. simpl.
    pose proof (fu_poll_next_spec (scheduled s) w') as Hp.
    destruct (fu_poll_next (scheduled s) w') as [[[[j|]|] f] w2]; simpl.
    - rewrite Hs in Hp. by apply Permutation_nil_cons in Hp.
    - destruct Hp as [_ Hf]. by eexists _, _.
    - by destruct Hp as [Hp _]. }
  unfold poll. induction fuel as [|fuel IH]; intros s w' Hs; [done|]. cbn [poll_loop].
  destruct (Hstep s w' Hs) as (s'&w2&->&Hs'). cbn [exec_bind]. by apply IH.
Qed.
End theory.

(** ** A concrete run: the sum of a small tree, completed out of order *)
Section witnesses.
#[local] Existing Instance debug_build.

Definition demo_unfold (v : nat) : result (nat * list nat) nat :=
  if decide (v = 9) then Err 9 else Ok (v, match v with 3 => [1; 2] | 2 => [1; 1] | _ => [] end).
Definition demo_fold (ctx : nat) (outs : list nat) : result nat nat := Ok (ctx + sum_list outs).

Lemma demo_size : tree_size demo_unfold 3 5.
Proof.
  assert (tree_size demo_unfold 1 1) as H1 by (apply (size_ok _ 1 1 [] []); [reflexivity|constructor]).
  assert (tree_size demo_unfold 2 3) as H2 by (apply (size_ok _ 2 2 [1; 1] [1; 1]); [reflexivity|by repeat constructor]).
  apply (size_ok _ 3 3 [1; 2] [1; 3]); [reflexivity|by repeat constructor].
Qed.

Lemma bounded_traversal_terminates_witness :
  ∃ p s w', bounded_traversal (FU:=scripted _) 2 demo_unfold demo_fold 3 3 11 [Some 1; Some 0; None; Some 1] = ret (Some (p, s, w')) ∧
    p = Ready (Ok 8).
Proof.
  destruct (bounded_traversal_terminates (FU:=scripted _) 2 demo_unfold demo_fold 3 5 3 11 [Some 1; Some 0; None; Some 1])
    as (p&s&w'&Hr&_); [apply demo_size|lia|lia|].
  exists p, s, w'. split; [exact Hr|]. vm_compute in Hr. congruence.
Defined.

Lemma scheduled_max_zero_spins_witness : poll (FU:=scripted _) 0 demo_unfold demo_fold 50 (new 3) [] = ret None.
Proof. by apply scheduled_max_zero_spins. Defined.
End witnesses.
End BoundedTree.
