(* ===== verification/BoundedStream.v ===== *)
(** [bounded_traversal::stream] (src/shed/bounded_traversal/src/stream.rs): the two
    traversals that stream the output of every node.  A stream is its poll function over the
    variables its closure captures; callbacks are what their futures resolve to. *)
From S2P Require Import Prelude RustStd Futures.

(** * Running a stream *)

Section streams.
Context {A St W : Type} (step : St → W → exec (control (option A) * St * W)).

(** Polls until the stream ends, collecting the items; [polls] bounds the polls, of which a
    pending one is retried.  The flag tells whether the end was reached. *)
Fixpoint collect_stream (polls fuel : nat) (s : St) (w : W) : exec (option (list A * bool * St * W)) :=
  match polls with
  | O => ret (Some ([], false, s, w))
  | S polls =>
      let! r := poll_loop step fuel s w in
      match r with
      | None => ret None
      | Some (Pending, s, w) => collect_stream polls fuel s w
      | Some (Ready None, s, w) => ret (Some ([], true, s, w))
      | Some (Ready (Some x), s, w) =>
          let! r := collect_stream polls fuel s w in
          match r with
          | None => ret None
          | Some (xs, e, s, w) => ret (Some (x :: xs, e, s, w))
          end
      end
  end.

(** An invariant relating the state to the items still to come: [I s l] says that, up to
    order, [l] is what the stream will yield. *)
Context (I : St → list A → Prop).
Context (I_perm : ∀ s l l', l ≡ₚ l' → I s l → I s l').
Context (step_ok : ∀ s w l, I s l →
  ∃ c s' w', step s w = ret (c, s', w') ∧
    match c with
    | Return (Ready None) => l = []
    | Return (Ready (Some x)) => ∃ l', l ≡ₚ x :: l' ∧ I s' l'
    | Return Pending | Continue => I s' l
    end).

Lemma stream_loop_ok fuel s w l :
  I s l →
  ∃ r, poll_loop step fuel s w = ret r ∧
    match r with
    | None => True
    | Some (Ready None, _, _) => l = []
    | Some (Ready (Some x), s', _) => ∃ l', l ≡ₚ x :: l' ∧ I s' l'
    | Some (Pending, s', _) => I s' l
    end.
Proof.
  revert s w. induction fuel as [|fuel IH]; intros s w Hs; simpl; [by eexists|].
  destruct (step_ok s w l Hs) as (c&s'&w'&->&Hc). simpl. destruct c as [[[x|]|]|]; [by eexists..|]. by apply IH.
Qed.

Lemma collect_stream_ok polls fuel s w l :
  I s l →
  ∃ r, collect_stream polls fuel s w = ret r ∧
    match r with
    | None => True
    | Some (xs, finished, s', _) => ∃ rest, l ≡ₚ xs ++ rest ∧ if finished : bool then rest = [] else I s' rest
    end.
Proof.
  revert s w l. induction polls as [|polls IH]; intros s w l Hs; simpl.
  { eexists. split; [done|]. by exists l. }
  destruct (stream_loop_ok fuel s w l Hs) as (r&->&Hr). simpl.
  destruct r as [[[[[x|]|] s'] w']|]; [| | |by eexists].
  - destruct Hr as (l'&Hl&Hs'). destruct (IH s' w' l' Hs') as (r&->&Hr). simpl.
    destruct r as [[[[xs e] s2] w2]|]; [|by eexists]. eexists. split; [done|].
    destruct Hr as (rest&Hl'&He). exists rest. split; [|done]. by rewrite Hl, Hl'.
  - eexists. split; [done|]. subst. by exists [].
  - by apply IH.
Qed.

(** A bound [m] on the iterations that go round again. *)
Context (m : St → nat → Prop).
Context (step_work : ∀ s w l n c s' w', I s l → m s n → step s w = ret (c, s', w') →
  match c with
  | Return (Ready None) => True
  | Return Pending => m s' n
  | Return (Ready (Some _)) => ∃ n', n' ≤ n ∧ m s' n'
  | Continue => ∃ n', n' < n ∧ m s' n'
  end).

Lemma stream_loop_terminates fuel s w l n :
  I s l → m s n → n < fuel →
  ∃ p s' w', poll_loop step fuel s w = ret (Some (p, s', w')) ∧
    match p with Ready None => True | _ => ∃ n', n' ≤ n ∧ m s' n' end.
Proof.
  revert s w n. induction fuel as [|fuel IH]; intros s w n Hs Hn Hf; [lia|]. simpl.
  destruct (step_ok s w l Hs) as (c&s'&w'&Hst&Hc). pose proof (step_work _ _ _ _ _ _ _ Hs Hn Hst) as Hd.
  rewrite Hst. simpl. destruct c as [[[x|]|]|].
  - eexists _, _, _. split; [done|]. destruct Hd as (n'&?&?). by exists n'.
  - by eexists _, _, _.
  - eexists _, _, _. split; [done|]. by exists n.
  - destruct Hd as (n'&Hlt&Hn'). destruct (IH s' w' n' Hc Hn' ltac:(lia)) as (p&s2&w2&->&Hp).
    eexists _, _, _. split; [done|]. destruct p as [[x|]|]; [|done|];
      destruct Hp as (n2&?&?); exists n2; (split; [lia|done]).
Qed.

Lemma collect_stream_terminates polls fuel s w l n :
  I s l → m s n → n < fuel → ∃ r, collect_stream polls fuel s w = ret (Some r).
Proof.
  revert s w l n. induction polls as [|polls IH]; intros s w l n Hs Hn Hf; simpl; [by eexists|].
  destruct (stream_loop_ok fuel s w l Hs) as (r&Hr&Hok).
  destruct (stream_loop_terminates fuel s w l n Hs Hn Hf) as (p&s'&w'&Hr'&Hp).
  rewrite Hr in Hr'. simplify_eq. rewrite Hr. simpl. destruct p as [[x|]|]; [|by eexists|].
  - destruct Hok as (l'&_&Hs'). destruct Hp as (n'&?&Hn').
    destruct (IH s' w' l' n' Hs' Hn' ltac:(lia)) as ([[[xs e] s2] w2]&->). by eexists.
  - destruct Hp as (n'&?&Hn'). apply (IH s' w' l n'); [done..|lia].
Qed.
End streams.

(** The same for a stream whose items are in order: [I s l] relates a state to the items
    yielded so far, [R l] is what holds of all of them at the end. *)
Section ordered_streams.
Context {A St W : Type} (step : St → W → exec (control (option A) * St * W)).
Context (I : St → list A → Prop) (R : list A → Prop).
Context (step_ok : ∀ s w l, I s l →
  ∃ c s' w', step s w = ret (c, s', w') ∧
    match c with
    | Return (Ready None) => R l
    | Return (Ready (Some x)) => I s' (l ++ [x])
    | Return Pending | Continue => I s' l
    end).

Lemma ordered_loop_ok fuel s w l :
  I s l →
  ∃ r, poll_loop step fuel s w = ret r ∧
    match r with
    | None => True
    | Some (Ready None, _, _) => R l
    | Some (Ready (Some x), s', _) => I s' (l ++ [x])
    | Some (Pending, s', _) => I s' l
    end.
Proof.
  revert s w. induction fuel as [|fuel IH]; intros s w Hs; simpl; [by eexists|].
  destruct (step_ok s w l Hs) as (c&s'&w'&->&Hc). simpl. destruct c as [[[x|]|]|]; [by eexists..|]. by apply IH.
Qed.

Lemma collect_ordered_ok polls fuel s w l :
  I s l →
  ∃ r, collect_stream step polls fuel s w = ret r ∧
    match r with
    | None => True
    | Some (xs, finished, s', _) => if finished : bool then R (l ++ xs) else I s' (l ++ xs)
    end.
Proof.
  revert s w l. induction polls as [|polls IH]; intros s w l Hs; simpl.
  { eexists. split; [done|]. simpl. by rewrite app_nil_r. }
  destruct (ordered_loop_ok fuel s w l Hs) as (r&->&Hr). simpl.
  destruct r as [[[[[x|]|] s'] w']|]; [| | |by eexists].
  - destruct (IH s' w' _ Hr) as (r&->&Hok). simpl. destruct r as [[[[xs e] s2] w2]|]; [|by eexists].
    eexists. split; [done|]. simpl. by rewrite <-app_assoc in Hok.
  - eexists. split; [done|]. simpl. by rewrite app_nil_r.
  - by apply IH.
Qed.
End ordered_streams.

(** * [bounded_traversal_stream] *)

Module BoundedStream.
Section stream.
Context {In Out E : Type}.
Context (scheduled_max : nat) (unfold_ : In → result (Out * list In) E).
Context `{FU : !FuturesUnordered In}.

(** The captured variables; the future of an item in [scheduled] is that of [unfold(item)]. *)
Record State := { unscheduled : list In; scheduled : fu }.
Implicit Types (s : State) (w : world).

Definition new (init : list In) : State := {| unscheduled := init; scheduled := fu_new |}.

(** [for child in children { queue.push_front(child) }]. *)
Definition push_front_all {A} (kids queue : list A) : list A := foldl (λ q kid, kid :: q) queue kids.

Definition poll_step s w : exec (control (option (result Out E)) * State * world) :=
  if fu_is_empty (scheduled s) && is_nil (unscheduled s) then ret (Return (Ready None), s, w)
  else
    let! room := count_sub scheduled_max (fu_len (scheduled s)) in
    let '(f, q) := fu_drain (length (unscheduled s) `min` room) (unscheduled s) (scheduled s) in
    let '(r, f, w) := fu_poll_next f w in
    match r with
    | Pending => ret (Return Pending, {| unscheduled := q; scheduled := f |}, w)
    | Ready None => ret (Continue, {| unscheduled := q; scheduled := f |}, w)
    | Ready (Some item) =>
        match unfold_ item with
        | Err e => ret (Return (Ready (Some (Err e))), {| unscheduled := q; scheduled := f |}, w)
        | Ok (out, kids) =>
            ret (Return (Ready (Some (Ok out))), {| unscheduled := push_front_all kids q; scheduled := f |}, w)
        end
    end.

Definition bounded_traversal_stream (init : list In) (polls fuel : nat) w :=
  collect_stream poll_step polls fuel (new init) w.

(** ** The outputs of a finite forest *)

Inductive visits : In → list (result Out E) → Prop :=
| visits_err v e : unfold_ v = Err e → visits v [Err e]
| visits_ok v out kids ls :
    unfold_ v = Ok (out, kids) → Forall2 visits kids ls → visits v (Ok out :: concat ls).

Definition jobs s : list In := fu_jobs (scheduled s) ++ unscheduled s.

Definition inv s (l : list (result Out E)) : Prop :=
  (∃ ls, Forall2 visits (jobs s) ls ∧ l ≡ₚ concat ls) ∧ fu_len (scheduled s) ≤ scheduled_max.

Lemma push_front_all_perm {A} (kids q : list A) : push_front_all kids q ≡ₚ kids ++ q.
Proof.
  revert q. induction kids as [|kid kids IH]; intros q; simpl; [done|]. rewrite IH. by rewrite <-Permutation_middle.
Qed.

Lemma inv_perm s l l' : l ≡ₚ l' → inv s l → inv s l'.
Proof. intros Hl [(ls&Hv&Hp) ?]. split; [|done]. exists ls. by rewrite <-Hl. Qed.

(** One iteration: yields an output and adds the children, or ends exactly when nothing is
    left; it goes round again only when [scheduled_max] is zero. *)
Lemma stream_step_spec s w l :
  inv s l →
  ∃ c s' w', poll_step s w = ret (c, s', w') ∧
    match c with
    | Return (Ready None) => l = []
    | Return (Ready (Some x)) => ∃ l', l ≡ₚ x :: l' ∧ inv s' l'
    | Return Pending => inv s' l
    | Continue => inv s' l ∧ scheduled_max = 0
    end.
Proof.
  intros [(ls&Hls&Hl) Hmax]. rewrite fu_len_jobs in Hmax. unfold poll_step.
  destruct (fu_is_empty (scheduled s) && is_nil (unscheduled s)) eqn:Hemp.
  { apply andb_true_iff in Hemp as [Hs%fu_is_empty_jobs Hu]. eexists _, _, _. split; [reflexivity|].
    unfold jobs in Hls. rewrite Hs in Hls. destruct (unscheduled s); [|done].
    inversion Hls; subst. simpl in Hl. by apply Permutation_nil_r in Hl. }
  rewrite fu_len_jobs, count_sub_le by done. cbn [exec_bind].
  pose proof (fu_drain_jobs (length (unscheduled s) `min` (scheduled_max - length (fu_jobs (scheduled s))))
    (unscheduled s) (scheduled s)) as Hdr.
  destruct (fu_drain _ _ _) as [f q]. destruct Hdr as [Hp Hlen]. rewrite length_take in Hlen.
  pose proof (fu_poll_next_spec f w) as Hpoll. destruct (fu_poll_next f w) as [[[[item|]|] f'] w'].
  - assert (jobs s ≡ₚ item :: (fu_jobs f' ++ q)) as Hjs by (unfold jobs; by rewrite <-Hp, Hpoll).
    apply Permutation_length in Hpoll. simpl in Hpoll.
    destruct (Forall2_perm _ _ _ _ Hjs Hls) as (ls'&Hls'&Hperm). inversion Hls' as [|? l1 ? ls2 Hv Hls2]; subst.
    apply concat_perm in Hperm. simpl in Hperm.
    inversion Hv as [? e Hu|? out kids ks Hu Hks]; subst; rewrite Hu; eexists _, _, _; (split; [reflexivity|]).
    + exists (concat ls2). rewrite Hl, Hperm. split; [done|]. split; [by exists ls2|]. simpl. rewrite fu_len_jobs. lia.
    + exists (concat ks ++ concat ls2). rewrite Hl, Hperm. split; [done|]. split; [|simpl; rewrite fu_len_jobs; lia].
      assert (Forall2 visits (kids ++ fu_jobs f' ++ q) (ks ++ ls2)) as Hk by by apply Forall2_app.
      assert (kids ++ fu_jobs f' ++ q ≡ₚ fu_jobs f' ++ push_front_all kids q) as Hkp.
      { rewrite push_front_all_perm, !app_assoc. apply Permutation_app_tail, Permutation_app_comm. }
      destruct (Forall2_perm _ _ _ _ Hkp Hk) as (ls3&Hls3&Hp3). exists ls3. split; [done|].
      by rewrite <-(concat_perm _ _ Hp3), concat_app.
  - destruct Hpoll as [Hf Hf']. eexists _, _, _. split; [reflexivity|].
    assert (jobs s ≡ₚ fu_jobs f' ++ q) as Hjs by (unfold jobs; by rewrite <-Hp, Hf, Hf').
    split; [split|].
    + destruct (Forall2_perm _ _ _ _ Hjs Hls) as (ls'&Hls'&Hperm). exists ls'. split; [done|].
      by rewrite Hl, (concat_perm _ _ Hperm).
    + simpl. rewrite fu_len_jobs, Hf'. simpl. lia.
    + rewrite Hf in Hlen. destruct (fu_jobs (scheduled s)) eqn:Hsc; [|cbn [length] in Hlen; lia].
      assert (fu_is_empty (scheduled s) = true) as He by (by apply fu_is_empty_jobs). rewrite He in Hemp.
      destruct (unscheduled s); [done|]. cbn [length] in Hlen. lia.
  - destruct Hpoll as [_ Hf']. eexists _, _, _. split; [reflexivity|].
    assert (jobs s ≡ₚ fu_jobs f' ++ q) as Hjs by (unfold jobs; by rewrite <-Hp, Hf').
    destruct (Forall2_perm _ _ _ _ Hjs Hls) as (ls'&Hls'&Hperm). split.
    + exists ls'. split; [done|]. by rewrite Hl, (concat_perm _ _ Hperm).
    + simpl. rewrite fu_len_jobs, Hf'. lia.
Qed.

Lemma stream_step_ok s w l :
  inv s l →
  ∃ c s' w', poll_step s w = ret (c, s', w') ∧
    match c with
    | Return (Ready None) => l = []
    | Return (Ready (Some x)) => ∃ l', l ≡ₚ x :: l' ∧ inv s' l'
    | Return Pending | Continue => inv s' l
    end.
Proof.
  intros Hs. destruct (stream_step_spec s w l Hs) as (c&s'&w'&?&Hc). exists c, s', w'. split; [done|].
  destruct c as [[[x|]|]|]; [done..|]. by destruct Hc.
Qed.

Lemma stream_new_inv init ls : Forall2 visits init ls → inv (new init) (concat ls).
Proof.
  intros Hls. split; [|simpl; rewrite fu_len_jobs, fu_jobs_new; simpl; lia].
  exists ls. unfold jobs. simpl. by rewrite fu_jobs_new.
Qed.

(** C12: the stream yields the output (or the error) of every node of the forest exactly once,
    whatever the order of completion: what was yielded after any number of polls is part of
    it, the stream ends exactly when nothing is missing, nothing panics, and at most
    [scheduled_max] futures are in progress. *)
Theorem bounded_traversal_stream_sound init ls (polls fuel : nat) w :
  Forall2 visits init ls →
  ∃ r, bounded_traversal_stream init polls fuel w = ret r ∧
    match r with
    | None => True
    | Some (items, finished, s, _) => ∃ rest, concat ls ≡ₚ items ++ rest ∧
        if finished : bool then rest = [] else fu_len (scheduled s) ≤ scheduled_max
    end.
Proof.
  intros Hls. destruct (collect_stream_ok _ inv stream_step_ok polls fuel (new init) w (concat ls) (stream_new_inv init ls Hls))
    as (r&Hr&Hok). exists r. split; [exact Hr|]. destruct r as [[[[xs e] s] w']|]; [|done].
  destruct Hok as (rest&Hp&He). exists rest. split; [done|]. destruct e; [done|]. by destruct He.
Qed.

(** With a positive [scheduled_max] no poll goes round its loop: it yields, ends or is
    pending at the first iteration. *)
Theorem bounded_traversal_stream_one_step init ls (polls : nat) w :
  Forall2 visits init ls → 0 < scheduled_max →
  ∃ r, bounded_traversal_stream init polls 1 w = ret (Some r).
Proof.
  intros Hls Hmax. apply (collect_stream_terminates _ inv stream_step_ok (λ _ n, n = 0)) with (l := concat ls) (n := 0);
    [|by apply stream_new_inv|done|lia].
  intros s1 w1 l n c s2 w2 Hs -> Hst. destruct (stream_step_spec s1 w1 l Hs) as (c'&s'&w'&Hst'&Hc).
  rewrite Hst in Hst'. simplify_eq. destruct c' as [[[x|]|]|]; [by exists 0|done..|].
  destruct Hc as [_ Hz]. lia.
Qed.
End stream.

(** ** A concrete run *)
Section witnesses.
Definition demo_unfold (v : nat) : result (nat * list nat) nat :=
  if decide (v = 9) then Err 9 else Ok (v, match v with 3 => [1; 2] | 2 => [9; 1] | _ => [] end).

Lemma stream_demo_visits : Forall2 (visits demo_unfold) [3] [[Ok 3; Ok 1; Ok 2; Err 9; Ok 1]].
Proof.
  assert (visits demo_unfold 1 [Ok 1]) as H1 by (apply (visits_ok _ 1 1 [] []); [reflexivity|constructor]).
  assert (visits demo_unfold 9 [Err 9]) as H9 by (by apply visits_err).
  assert (visits demo_unfold 2 [Ok 2; Err 9; Ok 1]) as H2
    by (apply (visits_ok _ 2 2 [9; 1] [[Err 9]; [Ok 1]]); [reflexivity|repeat first [assumption|constructor]]).
  constructor; [|constructor].
  apply (visits_ok _ 3 3 [1; 2] [[Ok 1]; [Ok 2; Err 9; Ok 1]]); [reflexivity|repeat first [assumption|constructor]].
Qed.

Lemma bounded_traversal_stream_sound_witness :
  ∃ r, bounded_traversal_stream (FU:=scripted _) 2 demo_unfold [3] 9 5 [Some 0; None; Some 1] = ret (Some r) ∧
    r.1.1.1 = [Ok 3; Ok 2; Ok 1; Err 9; Ok 1] ∧ r.1.1.2 = true.
Proof.
  destruct (bounded_traversal_stream_sound (FU:=scripted _) 2 demo_unfold [3] _ 9 5 [Some 0; None; Some 1] stream_demo_visits)
    as (r&Hr&_).
  vm_compute in Hr. injection Hr as <-. eexists. split; [vm_compute; reflexivity|]. by split.
Defined.

Lemma bounded_traversal_stream_one_step_witness :
  ∃ r, bounded_traversal_stream (FU:=scripted _) 2 demo_unfold [3] 9 1 [Some 0; None; Some 1] = ret (Some r).
Proof.
  apply (bounded_traversal_stream_one_step (FU:=scripted _) 2 demo_unfold [3] _ 9 [Some 0; None; Some 1] stream_demo_visits). lia.
Defined.
End witnesses.
End BoundedStream.

(** * [limited_by_key_shardable] *)

Module LimitedByKey.
Section stream.
Context {In Out E Key ShardKey : Type} `{Countable Key, Countable ShardKey}.
Context (scheduled_max : nat).
Context (unfold_ : In → Key * option ShardKey * result (option (Out * list In)) E).
Context (key_fn : In → Key * option (ShardKey * nat)).
Context `{FU : !FuturesUnordered In}.

(** The captured variables. *)
Record State := {
  unscheduled : list In;
  scheduled : fu;
  waiting_for_key : gmap Key (list In);
  waiting_for_shard : gmap ShardKey (nat * list In);
}.
Implicit Types (s : State) (w : world) (item : In).

Definition new (init : list In) : State :=
  {| unscheduled := init; scheduled := fu_new; waiting_for_key := ∅; waiting_for_shard := ∅ |}.

(** [waiting_for_key.insert(key, []); scheduled.push(unfold(item))]. *)
Definition start s (key : Key) item : State :=
  {| unscheduled := unscheduled s; scheduled := fu_push item (scheduled s);
     waiting_for_key := <[key := []]> (waiting_for_key s); waiting_for_shard := waiting_for_shard s |}.
Definition set_shard s (sk : ShardKey) (n : nat) (queue : list In) : State :=
  {| unscheduled := unscheduled s; scheduled := scheduled s; waiting_for_key := waiting_for_key s;
     waiting_for_shard := <[sk := (n, queue)]> (waiting_for_shard s) |}.

(** The body of the [for] loop: queue a duplicate key, queue behind a busy shard, or start. *)
Definition schedule_item s item : State :=
  let '(key, shard_info) := key_fn item in
  match waiting_for_key s !! key with
  | Some inflight =>
      {| unscheduled := unscheduled s; scheduled := scheduled s;
         waiting_for_key := <[key := inflight ++ [item]]> (waiting_for_key s);
         waiting_for_shard := waiting_for_shard s |}
  | None =>
      match shard_info with
      | Some (shard_key, max_per_shard) =>
          let '(inflight, queued) := default (0, []) (waiting_for_shard s !! shard_key) in
          if decide (max_per_shard < inflight) then set_shard s shard_key inflight (queued ++ [item])
          else start (set_shard s shard_key (inflight + 1) queued) key item
      | None => start s key item
      end
  end.

(** One [for] loop over the drained items, and the [while] loop around it; every round takes
    an item off [unscheduled], so its length is fuel enough. *)
Definition schedule_round s : State :=
  let n := length (unscheduled s) `min` (scheduled_max - fu_len (scheduled s)) in
  foldl schedule_item
    {| unscheduled := drop n (unscheduled s); scheduled := scheduled s;
       waiting_for_key := waiting_for_key s; waiting_for_shard := waiting_for_shard s |}
    (take n (unscheduled s)).
Definition may_schedule s : bool := (fu_len (scheduled s) <? scheduled_max) && negb (is_nil (unscheduled s)).
Fixpoint schedule_loop (fuel : nat) s : State :=
  match fuel with
  | O => s
  | S fuel => if may_schedule s then schedule_loop fuel (schedule_round s) else s
  end.

(** A completed job lets the next item with its key start. *)
Definition release_key s (key : Key) : State :=
  match waiting_for_key s !! key with
  | None => s
  | Some queue =>
      let m := delete key (waiting_for_key s) in
      let '(f, queue) :=
        match queue with [] => (scheduled s, []) | item :: queue => (fu_push item (scheduled s), queue) end in
      {| unscheduled := unscheduled s; scheduled := f;
         waiting_for_key := if is_nil queue then m else <[key := queue]> m;
         waiting_for_shard := waiting_for_shard s |}
  end.

(** A completed job frees a place in its shard; the next queued item is considered again. *)
Definition release_shard s (shard_key : option ShardKey) : State :=
  match shard_key with
  | None => s
  | Some sk =>
      match waiting_for_shard s !! sk with
      | None => s
      | Some (inflight, queue) =>
          match queue with
          | [] => set_shard s sk (inflight - 1) []
          | item :: queue =>
              set_shard {| unscheduled := item :: unscheduled s; scheduled := scheduled s;
                waiting_for_key := waiting_for_key s; waiting_for_shard := waiting_for_shard s |}
                sk (inflight - 1) queue
          end
      end
  end.

Definition add_children s (kids : list In) : State :=
  {| unscheduled := BoundedStream.push_front_all kids (unscheduled s); scheduled := scheduled s;
     waiting_for_key := waiting_for_key s; waiting_for_shard := waiting_for_shard s |}.

Definition poll_step s w : exec (control (option (result Out E)) * State * world) :=
  if fu_is_empty (scheduled s) && is_nil (unscheduled s) then ret (Return (Ready None), s, w)
  else
    let s := schedule_loop (length (unscheduled s)) s in
    let '(r, f, w) := fu_poll_next (scheduled s) w in
    let s := {| unscheduled := unscheduled s; scheduled := f; waiting_for_key := waiting_for_key s;
                waiting_for_shard := waiting_for_shard s |} in
    match r with
    | Pending => ret (Return Pending, s, w)
    | Ready None => ret (Continue, s, w)
    | Ready (Some item) =>
        let '(key, shard_key, unfolded) := unfold_ item in
        let s := release_shard (release_key s key) shard_key in
        match unfolded with
        | Err e => ret (Return (Ready (Some (Err e))), s, w)
        | Ok (Some (out, kids)) => ret (Return (Ready (Some (Ok out))), add_children s kids, w)
        | Ok None => ret (Continue, s, w)
        end
    end.

Definition limited_by_key_shardable (init : list In) (polls fuel : nat) w :=
  collect_stream poll_step polls fuel (new init) w.

(** ** Nothing is lost *)

Definition item_key item : Key := (key_fn item).1.
Definition item_shard item : option ShardKey := fst <$> (key_fn item).2.

(** The unfold future reports the key and the shard [key_fn] gave for its item. *)
Definition keys_agree : Prop := ∀ item, (unfold_ item).1 = (item_key item, item_shard item).

(** The outputs of a finite tree, with its number of nodes. *)
Inductive visits : In → list (result Out E) * nat → Prop :=
| visits_err v k e : unfold_ v = (k, Err e) → visits v ([Err e], 1)
| visits_none v k : unfold_ v = (k, Ok None) → visits v ([], 1)
| visits_ok v k out kids ls :
    unfold_ v = (k, Ok (Some (out, kids))) → Forall2 visits kids ls →
    visits v (Ok out :: concat ls.*1, S (sum_list ls.*2)).

Definition flying s : list In := fu_jobs (scheduled s).
Definition count (sk : ShardKey) (js : list In) : nat := length (filter (λ j, item_shard j = Some sk) js).

(** Items that will run without waiting for their shard; [pend] are those being scheduled. *)
Definition ready (pend : list In) s : list In :=
  flying s ++ pend ++ unscheduled s ++ map_items id (waiting_for_key s).
Definition all_items (pend : list In) s : list In := ready pend s ++ map_items snd (waiting_for_shard s).

(** A key is queued for only while one of its items is in flight; a shard queue is there only
    while an item of the shard is going to run, and its count never exceeds the truth. *)
Record queues_ok (pend : list In) s : Prop := {
  ok_key k q : waiting_for_key s !! k = Some q →
    (∃ j, j ∈ flying s ∧ item_key j = k) ∧ (∀ i, i ∈ q → item_key i = k);
  ok_shard sk n q : waiting_for_shard s !! sk = Some (n, q) →
    n ≤ count sk (flying s) ∧ (∀ i, i ∈ q → item_shard i = Some sk) ∧
    (q ≠ [] → ∃ j, j ∈ ready pend s ∧ item_shard j = Some sk);
}.

Lemma count_pos sk js : 0 < count sk js → ∃ j, j ∈ js ∧ item_shard j = Some sk.
Proof.
  unfold count. destruct (filter _ js) as [|j l] eqn:Hf; simpl; [lia|]. intros _. exists j.
  assert (j ∈ filter (λ j, item_shard j = Some sk) js) as Hj by (rewrite Hf; left).
  by apply list_elem_of_filter in Hj as [? ?].
Qed.

Lemma count_cons sk j js : count sk (j :: js) = (if decide (item_shard j = Some sk) then 1 else 0) + count sk js.
Proof. unfold count. rewrite filter_cons. by case_decide. Qed.

#[local] Instance count_proper sk : Proper ((≡ₚ) ==> (=)) (count sk).
Proof. intros l l' Hl. unfold count. by rewrite Hl. Qed.

(** Queueing an item behind the one in flight with its key. *)
Lemma queue_key_ok item pend s q :
  waiting_for_key s !! item_key item = Some q → queues_ok (item :: pend) s →
  let s' := {| unscheduled := unscheduled s; scheduled := scheduled s;
    waiting_for_key := <[item_key item := q ++ [item]]> (waiting_for_key s);
    waiting_for_shard := waiting_for_shard s |} in
  queues_ok pend s' ∧ ready pend s' ≡ₚ ready (item :: pend) s.
Proof.
  intros Hq [Hk Hs] s'.
  assert (ready pend s' ≡ₚ ready (item :: pend) s) as Hr.
  { unfold ready, flying. simpl. rewrite (map_items_update id), (map_items_lookup id (waiting_for_key s) _ _ Hq).
    unfold id. solve_perm. }
  split; [|done]. split; simpl.
  - intros k q' [[<- <-]|[Hne Hl]]%lookup_insert_Some; [|by apply Hk].
    destruct (Hk _ _ Hq) as [Hj Hi]. split; [done|]. set_solver.
  - intros sk n q' Hl. destruct (Hs _ _ _ Hl) as (Hn&Hi&Hw). split_and!; [done..|].
    intros Hne. destruct (Hw Hne) as (j&Hj&?). exists j. by rewrite Hr.
Qed.

(** Queueing an item behind a busy shard. *)
Lemma queue_shard_ok item pend s sk n q :
  waiting_for_shard s !! sk = Some (n, q) → item_shard item = Some sk → 0 < n → queues_ok (item :: pend) s →
  let s' := set_shard s sk n (q ++ [item]) in
  queues_ok pend s' ∧ all_items pend s' ≡ₚ all_items (item :: pend) s.
Proof.
  intros Hq Hi Hn [Hk Hs] s'. split; [split; simpl|].
  - by apply Hk.
  - intros sk' n' q' [[<- [= <- <-]]|[Hne Hl]]%lookup_insert_Some.
    + destruct (Hs _ _ _ Hq) as (Hc&Hall&_). split_and!; [done|set_solver|]. intros _.
      destruct (count_pos sk (flying s)) as (j&Hj&?); [lia|]. exists j. unfold ready. set_solver.
    + destruct (Hs _ _ _ Hl) as (Hc&Hall&Hw). split_and!; [done..|]. intros Hne'.
      destruct (Hw Hne') as (j&Hj&Hjs). exists j. split; [|done]. unfold ready in *. simpl in *.
      assert (j ≠ item) by congruence. set_solver.
  - unfold all_items, ready, flying. simpl.
    rewrite (map_items_update snd), (map_items_lookup snd (waiting_for_shard s) _ _ Hq). simpl.
    solve_perm.
Qed.

(** Starting an item, which takes a place in its shard. *)
Lemma start_ok item pend s :
  waiting_for_key s !! item_key item = None → queues_ok (item :: pend) s →
  ready pend (start s (item_key item) item) ≡ₚ ready (item :: pend) s ∧
  queues_ok pend (start s (item_key item) item).
Proof.
  intros Hq [Hk Hs].
  assert (ready pend (start s (item_key item) item) ≡ₚ ready (item :: pend) s) as Hr.
  { unfold ready, flying. simpl. rewrite fu_jobs_push, (map_items_insert id) by done. simpl.
    by rewrite <-Permutation_middle. }
  split; [done|]. unfold start. split; simpl.
  - intros k q' [[<- <-]|[Hne Hl]]%lookup_insert_Some.
    + split; [|set_solver]. exists item. unfold flying. simpl. rewrite fu_jobs_push. set_solver.
    + destruct (Hk _ _ Hl) as [(j&Hj&?) ?]. split; [|done]. exists j. unfold flying in *. simpl.
      rewrite fu_jobs_push. set_solver.
  - intros sk n q' Hl. destruct (Hs _ _ _ Hl) as (Hn&Hi&Hw). split_and!; [|done|].
    + unfold flying in *. simpl. rewrite fu_jobs_push, count_cons. lia.
    + intros Hne. destruct (Hw Hne) as (j&Hj&?). exists j. by rewrite Hr.
Qed.

(** Changing the count of a shard to one that is still not above the truth. *)
Lemma set_count_ok pend s sk n n' q :
  default (0, []) (waiting_for_shard s !! sk) = (n, q) → n' ≤ count sk (flying s) → queues_ok pend s →
  queues_ok pend (set_shard s sk n' q) ∧ all_items pend (set_shard s sk n' q) ≡ₚ all_items pend s.
Proof.
  intros Hq Hn [Hk Hs]. split; [split; simpl|].
  - by apply Hk.
  - intros sk' m q' [[<- [= <- <-]]|[Hne Hl]]%lookup_insert_Some; [|by apply (Hs sk' m q')].
    destruct (waiting_for_shard s !! sk) as [[n0 q0]|] eqn:Hl; simplify_eq/=.
    + destruct (Hs _ _ _ Hl) as (_&?&?). by split_and!.
    + split_and!; [done|set_solver|done].
  - unfold all_items, ready, flying. simpl. rewrite (map_items_update snd), (map_items_old snd (waiting_for_shard s) sk).
    destruct (waiting_for_shard s !! sk) as [[n0 q0]|]; by simplify_eq/=.
Qed.

Lemma schedule_item_ok item pend s :
  queues_ok (item :: pend) s →
  let s' := schedule_item s item in
  queues_ok pend s' ∧ all_items pend s' ≡ₚ all_items (item :: pend) s ∧ unscheduled s' = unscheduled s ∧
  length (flying s') ≤ S (length (flying s)) ∧ flying s' ≠ [].
Proof.
  intros Hok. unfold schedule_item.
  destruct (key_fn item) as [key info] eqn:Hkf.
  assert (item_key item = key) as <- by (unfold item_key; by rewrite Hkf).
  destruct (waiting_for_key s !! item_key item) as [q|] eqn:Hq; cbv zeta.
  { destruct (queue_key_ok item pend s q Hq Hok) as [Hok' Hr].
    split_and!; [done|unfold all_items; by rewrite Hr|done|simpl; unfold flying; simpl; lia|].
    destruct (ok_key _ _ Hok _ _ Hq) as [(j&Hj&_) _]. unfold flying in *. simpl. intros Hf. rewrite Hf in Hj. set_solver. }
  destruct (start_ok item pend s Hq Hok) as [Hr Hst].
  assert (length (flying (start s (item_key item) item)) = S (length (flying s)) ∧ flying (start s (item_key item) item) ≠ []) as [Hlen Hne].
  { unfold flying. simpl. split; [apply fu_push_length|apply fu_push_nonempty]. }
  destruct info as [[sk max]|].
  2: { split_and!; [done|unfold all_items; by rewrite Hr|done|lia|done]. }
  assert (item_shard item = Some sk) as Hsk by (unfold item_shard; by rewrite Hkf).
  destruct (default (0, []) (waiting_for_shard s !! sk)) as [n q] eqn:Hd. case_decide as Hmax.
  - destruct (waiting_for_shard s !! sk) as [[n0 q0]|] eqn:Hl; simplify_eq/=; [|lia].
    destruct (queue_shard_ok item pend s sk n q Hl Hsk ltac:(lia) Hok) as [Hok' Hall].
    split_and!; [done..|unfold flying; simpl; lia|].
    destruct (ok_shard _ _ Hok _ _ _ Hl) as [Hn _]. destruct (count_pos sk (flying s)) as (j&Hj&_); [lia|].
    unfold flying in *. simpl. intros Hf. rewrite Hf in Hj. set_solver.
  - assert (n ≤ count sk (flying s)) as Hn.
    { destruct (waiting_for_shard s !! sk) as [[n0 q0]|] eqn:Hl; simplify_eq/=; [|lia].
      by destruct (ok_shard _ _ Hok _ _ _ Hl). }
    destruct (set_count_ok pend (start s (item_key item) item) sk n (n + 1) q) as [Hok' Hall]; [done| |done|].
    { unfold flying. simpl. rewrite fu_jobs_push, count_cons, decide_True by done. unfold flying in Hn. lia. }
    change (start (set_shard s sk (n + 1) q) (item_key item) item) with
      (set_shard (start s (item_key item) item) sk (n + 1) q).
    split_and!; [done| |done|exact (eq_ind_r (λ x, x ≤ _) (le_n _) Hlen)|done].
    rewrite Hall. unfold all_items. by rewrite Hr.
Qed.

Lemma schedule_items_ok items s :
  queues_ok items s →
  let s' := foldl schedule_item s items in
  queues_ok [] s' ∧ all_items [] s' ≡ₚ all_items items s ∧ unscheduled s' = unscheduled s ∧
  length (flying s') ≤ length items + length (flying s) ∧ (items ≠ [] → flying s' ≠ []).
Proof.
  revert s. induction items as [|item items IH]; intros s Hok; simpl; [done|].
  destruct (schedule_item_ok item items s Hok) as (Hok1&Hall1&Hu1&Hl1&Hne1).
  destruct (IH _ Hok1) as (Hok2&Hall2&Hu2&Hl2&Hne2).
  split_and!; [done|by rewrite Hall2|by rewrite Hu2|lia|]. intros _.
  destruct items as [|item' items]; [done|]. by apply Hne2.
Qed.

Lemma schedule_round_ok s :
  queues_ok [] s → length (flying s) ≤ scheduled_max →
  let s' := schedule_round s in
  queues_ok [] s' ∧ all_items [] s' ≡ₚ all_items [] s ∧ length (flying s') ≤ scheduled_max ∧
  length (unscheduled s') = length (unscheduled s) - (scheduled_max - length (flying s)) ∧
  (may_schedule s = true → flying s' ≠ []).
Proof.
  intros Hok Hmax. unfold schedule_round. rewrite fu_len_jobs.
  set (n := length (unscheduled s) `min` (scheduled_max - length (fu_jobs (scheduled s)))).
  set (s1 := {| unscheduled := drop n (unscheduled s); scheduled := scheduled s;
    waiting_for_key := waiting_for_key s; waiting_for_shard := waiting_for_shard s |}).
  assert (ready (take n (unscheduled s)) s1 ≡ₚ ready [] s) as Hr.
  { unfold ready, flying. simpl. rewrite <-(take_drop n (unscheduled s)) at 3. solve_perm. }
  destruct (schedule_items_ok (take n (unscheduled s)) s1) as (Hok'&Hall&Hu&Hl&Hne).
  { destruct Hok as [Hk Hs]. split; simpl; [done|]. intros sk m q Hl.
    destruct (Hs _ _ _ Hl) as (?&?&Hw). split_and!; [done..|]. intros Hq.
    destruct (Hw Hq) as (j&Hj&?). exists j. by rewrite Hr. }
  split_and!; [done|rewrite Hall; unfold all_items; by rewrite Hr| |rewrite Hu; simpl; rewrite length_drop; unfold flying, n; lia|].
  - etrans; [exact Hl|]. rewrite length_take. unfold flying, s1 in *. simpl. lia.
  - unfold may_schedule. rewrite andb_true_iff, Nat.ltb_lt, fu_len_jobs. intros [Hlt Hnil]. apply Hne.
    intros Hz. apply (f_equal length) in Hz. rewrite length_take in Hz. simpl in Hz.
    destruct (unscheduled s); [done|]. cbn [length] in *. lia.
Qed.

(** The scheduling loop stops only when the slots are full or nothing is unscheduled, and
    leaves something in flight when there was work to do. *)
Lemma schedule_loop_ok fuel s :
  queues_ok [] s → length (flying s) ≤ scheduled_max →
  let s' := schedule_loop fuel s in
  queues_ok [] s' ∧ all_items [] s' ≡ₚ all_items [] s ∧ length (flying s') ≤ scheduled_max ∧
  (length (unscheduled s) ≤ fuel → may_schedule s' = false ∧ (flying s ≠ [] ∨ may_schedule s = true → flying s' ≠ [])).
Proof.
  revert s. induction fuel as [|fuel IH]; intros s Hok Hmax; simpl.
  { split_and!; [done..|]. intros Hl. unfold may_schedule. destruct (unscheduled s); [|simpl in Hl; lia].
    simpl. rewrite andb_false_r. split; [done|]. by intros [?|?]. }
  destruct (may_schedule s) eqn:Hms.
  - destruct (schedule_round_ok s Hok Hmax) as (Hok1&Hall1&Hmax1&Hu1&Hne1).
    destruct (IH _ Hok1 Hmax1) as (Hok2&Hall2&Hmax2&Hfin). split_and!; [done|by rewrite Hall2|done|].
    intros Hl. specialize (Hne1 Hms). unfold may_schedule in Hms. rewrite andb_true_iff, Nat.ltb_lt, fu_len_jobs in Hms.
    destruct Hms as [Hlt _]. destruct Hfin as [Hf1 Hf2]; [unfold flying in *; lia|].
    split; [done|]. intros _. apply Hf2. by left.
  - split_and!; [done..|]. intros _. split; [done|]. by intros [?|?].
Qed.

(** The invariant while the completed job [j] has not yet given its shard place back. *)
Record leaving (j : In) s : Prop := {
  leave_key k q : waiting_for_key s !! k = Some q →
    (∃ j', j' ∈ flying s ∧ item_key j' = k) ∧ (∀ i, i ∈ q → item_key i = k);
  leave_shard sk n q : waiting_for_shard s !! sk = Some (n, q) →
    n ≤ count sk (j :: flying s) ∧ (∀ i, i ∈ q → item_shard i = Some sk) ∧
    (q ≠ [] → ∃ j', j' ∈ j :: ready [] s ∧ item_shard j' = Some sk);
}.

Definition set_scheduled s (f : fu) : State :=
  {| unscheduled := unscheduled s; scheduled := f; waiting_for_key := waiting_for_key s;
     waiting_for_shard := waiting_for_shard s |}.

Lemma release_key_ok j s f :
  queues_ok [] s → flying s ≡ₚ j :: fu_jobs f →
  let s' := release_key (set_scheduled s f) (item_key j) in
  leaving j s' ∧ all_items [] s ≡ₚ j :: all_items [] s' ∧ length (flying s') ≤ length (flying s).
Proof.
  intros [Hk Hs] Hf s'.
  assert (ready [] s ≡ₚ j :: ready [] s' ∧ waiting_for_shard s' = waiting_for_shard s ∧
    (∀ k q, waiting_for_key s' !! k = Some q →
      (k ≠ item_key j ∧ waiting_for_key s !! k = Some q ∨
       k = item_key j ∧ ∃ i, i ∈ flying s' ∧ item_key i = k ∧ (∀ i, i ∈ q → item_key i = k))) ∧
    (∃ extra, flying s' ≡ₚ extra ++ fu_jobs f ∧ length extra ≤ 1)) as (Hr&Hw&Hkeys&extra&Hfl&Hex).
  { unfold s', release_key. simpl. destruct (waiting_for_key s !! item_key j) as [[|i q]|] eqn:Hq; simpl.
    - split_and!; [| |intros k q [? ?]%lookup_delete_Some; left; by split|exists []; split; [done|simpl; lia]]; [|done].
      unfold ready, flying in *. simpl. rewrite Hf, (map_items_lookup id _ _ _ Hq). simpl. done.
    - destruct (Hk _ _ Hq) as [_ Hi]. split_and!; [|done| |exists [i]; split; [apply fu_jobs_push|done]].
      + unfold ready, flying in *. simpl. rewrite Hf, fu_jobs_push, (map_items_lookup id _ _ _ Hq). unfold id at 1.
        destruct q as [|i' q]; simpl; [solve_perm|]. rewrite (map_items_update id), delete_delete_eq. unfold id at 2. solve_perm.
      + intros k q' Hl. destruct (is_nil q) eqn:Hnil.
        * apply lookup_delete_Some in Hl as [? ?]. left. by split.
        * apply lookup_insert_Some in Hl as [[<- <-]|[Hne Hl]].
          -- right. split; [done|]. exists i. unfold flying. simpl. rewrite fu_jobs_push. set_solver.
          -- apply lookup_delete_Some in Hl as [? ?]. left. by split.
    - split_and!; [unfold ready, flying in *; simpl; by rewrite Hf|done| |exists []; split; [done|simpl; lia]].
      intros k q Hl. left. split; [congruence|done]. }
  split_and!; [split| |].
  - intros k q Hl. destruct (Hkeys k q Hl) as [[Hne Hl0]|(->&i&Hi&Hik&Hqi)]; [|split; [by exists i|done]].
    destruct (Hk _ _ Hl0) as [(j'&Hj'&Hjk) Hqi]. split; [|done]. exists j'. split; [|done].
    rewrite Hfl. rewrite Hf in Hj'. apply elem_of_cons in Hj' as [->|?]; [done|]. set_solver.
  - intros sk n q. rewrite Hw. intros Hl. destruct (Hs _ _ _ Hl) as (Hn&Hi&Hwit). split_and!; [|done|].
    + rewrite Hf, count_cons in Hn. rewrite count_cons, Hfl. unfold count in *. rewrite filter_app, length_app. lia.
    + intros Hq. destruct (Hwit Hq) as (j'&Hj'&?). exists j'. by rewrite <-Hr.
  - unfold all_items. by rewrite Hr, Hw.
  - rewrite Hf, Hfl, length_app. simpl. lia.
Qed.

Lemma release_shard_ok j s :
  leaving j s →
  let s' := release_shard s (item_shard j) in
  queues_ok [] s' ∧ all_items [] s' ≡ₚ all_items [] s ∧ flying s' = flying s.
Proof.
  intros [Hk Hs] s'.
  assert (∀ sk n q, item_shard j ≠ Some sk → waiting_for_shard s !! sk = Some (n, q) →
    n ≤ count sk (flying s) ∧ (∀ i, i ∈ q → item_shard i = Some sk) ∧
    (q ≠ [] → ∃ j', j' ∈ ready [] s ∧ item_shard j' = Some sk)) as Hother.
  { intros sk n q Hne Hl. destruct (Hs _ _ _ Hl) as (Hn&Hi&Hw). rewrite count_cons, decide_False in Hn by done.
    split_and!; [done..|]. intros Hq. destruct (Hw Hq) as (j'&[->|Hj']%elem_of_cons&?); [done|]. by exists j'. }
  unfold s', release_shard. destruct (item_shard j) as [sk|] eqn:Hj.
  2: { split_and!; [|done..]. split; [done|]. intros sk n q Hl. by apply Hother. }
  destruct (waiting_for_shard s !! sk) as [[n q]|] eqn:Hl.
  2: { split_and!; [|done..]. split; [done|]. intros sk' n q Hl'. apply Hother; [congruence|done]. }
  destruct (Hs _ _ _ Hl) as (Hn&Hi&_). rewrite count_cons, decide_True in Hn by done.
  destruct q as [|i q].
  - split_and!; [split; simpl; [done|]| |done].
    + intros sk' n' q' [[<- [= <- <-]]|[Hne Hl']]%lookup_insert_Some; [|apply Hother; [congruence|done]].
      split_and!; [unfold flying in *; simpl; lia|set_solver|done].
    + unfold all_items, ready, flying. simpl. by rewrite (map_items_update snd), (map_items_lookup snd _ _ _ Hl).
  - assert (∀ x, x ∈ ready [] s → x ∈ flying s ++ i :: unscheduled s ++ map_items id (waiting_for_key s)) as Hsub.
    { unfold ready. set_solver. }
    split_and!; [split; simpl; [done|]| |done].
    + intros sk' n' q' [[<- [= <- <-]]|[Hne Hl']]%lookup_insert_Some.
      * split_and!; [unfold flying in *; simpl; lia|set_solver|]. intros _. exists i.
        split; [unfold ready; simpl; set_solver|]. apply Hi. by left.
      * destruct (Hother sk' n' q') as (?&?&Hw); [congruence|done|]. split_and!; [done..|].
        intros Hq. destruct (Hw Hq) as (j'&Hj'&?). exists j'. split; [|done]. by apply Hsub.
    + unfold all_items, ready, flying. simpl. rewrite (map_items_update snd), (map_items_lookup snd _ _ _ Hl). simpl.
      solve_perm.
Qed.

Lemma add_children_ok s kids :
  queues_ok [] s → queues_ok [] (add_children s kids) ∧ all_items [] (add_children s kids) ≡ₚ kids ++ all_items [] s.
Proof.
  intros [Hk Hs].
  assert (ready [] (add_children s kids) ≡ₚ kids ++ ready [] s) as Hr.
  { unfold ready, flying. simpl. rewrite BoundedStream.push_front_all_perm. solve_perm. }
  split; [split; simpl; [done|]|unfold all_items; rewrite Hr; simpl; by rewrite app_assoc].
  intros sk n q Hl. destruct (Hs _ _ _ Hl) as (?&?&Hw). split_and!; [done..|].
  intros Hq. destruct (Hw Hq) as (j&Hj&?). exists j. split; [|done]. rewrite Hr. set_solver.
Qed.

(** With nothing in flight and nothing unscheduled the queues are empty. *)
Lemma queues_empty s : queues_ok [] s → flying s = [] → unscheduled s = [] → all_items [] s = [].
Proof.
  intros [Hk Hs] Hf Hu.
  assert (map_items id (waiting_for_key s) = []) as Hwk.
  { apply map_items_nil. intros k q Hl. destruct (Hk _ _ Hl) as [(j&Hj&_) _]. rewrite Hf in Hj. set_solver. }
  assert (ready [] s = []) as Hr by (unfold ready; by rewrite Hf, Hu, Hwk).
  unfold all_items. rewrite Hr. apply map_items_nil. intros sk [n q] Hl. simpl.
  destruct (Hs _ _ _ Hl) as (_&_&Hw). destruct q as [|i q]; [done|].
  destruct (Hw ltac:(done)) as (j&Hj&_). rewrite Hr in Hj. set_solver.
Qed.

(** ** One iteration *)

(** [l] is what is still to come, [n] the number of nodes still to unfold. *)
Definition inv_at s (l : list (result Out E)) (n : nat) : Prop :=
  queues_ok [] s ∧ length (flying s) ≤ scheduled_max ∧
  ∃ ls, Forall2 visits (all_items [] s) ls ∧ l ≡ₚ concat ls.*1 ∧ n = sum_list ls.*2.
Definition inv s l : Prop := ∃ n, inv_at s l n.

Lemma inv_at_items s s' l n :
  queues_ok [] s' → length (flying s') ≤ scheduled_max → all_items [] s ≡ₚ all_items [] s' →
  inv_at s l n → inv_at s' l n.
Proof.
  intros Hok Hmax Hall (_&_&ls&Hls&Hl&->). split; [done|]. split; [done|].
  destruct (Forall2_perm _ _ _ _ Hall Hls) as (ls'&Hls'&Hp). exists ls'. split; [done|].
  split; [rewrite Hl; by apply concat_perm, fmap_Permutation|by rewrite Hp].
Qed.

Lemma inv_at_perm s l l' n : l ≡ₚ l' → inv_at s l n → inv_at s l' n.
Proof. intros Hl (?&?&ls&?&Hl'&?). split_and!; [done..|]. exists ls. by rewrite <-Hl. Qed.

(** Completing the job [j]: its queues are released and its children added. *)
Lemma complete_ok s f j l n :
  keys_agree → inv_at s l n → flying s ≡ₚ j :: fu_jobs f →
  let s' := release_shard (release_key (set_scheduled s f) (item_key j)) (item_shard j) in
  match (unfold_ j).2 with
  | Err e => ∃ l' n', l ≡ₚ Err e :: l' ∧ n = S n' ∧ inv_at s' l' n'
  | Ok None => ∃ n', n = S n' ∧ inv_at s' l n'
  | Ok (Some (out, kids)) => ∃ l' n', l ≡ₚ Ok out :: l' ∧ n = S n' ∧ inv_at (add_children s' kids) l' n'
  end.
Proof.
  intros Hag (Hok&Hmax&ls&Hls&Hl&Hn) Hf s'.
  destruct (release_key_ok j s f Hok Hf) as (Hlv&Hall&Hlen).
  destruct (release_shard_ok j _ Hlv) as (Hok'&Hall'&Hfl). fold s' in Hok', Hall', Hfl.
  rewrite <-Hall' in Hall. assert (length (flying s') ≤ scheduled_max) as Hmax' by (rewrite Hfl; lia).
  destruct (Forall2_perm _ _ _ _ Hall Hls) as (ls'&Hls'&Hp).
  inversion Hls' as [|? [l1 n1] ? ls2 Hv Hls2]; subst.
  assert (l ≡ₚ l1 ++ concat ls2.*1) as Hl1.
  { rewrite Hl. rewrite (concat_perm _ _ (fmap_Permutation fst _ _ Hp)). done. }
  assert (sum_list ls.*2 = n1 + sum_list ls2.*2) as -> by (by rewrite Hp).
  inversion Hv as [? k e Hu|? k Hu|? k out kids ks Hu Hks]; subst; rewrite Hu; simpl.
  - exists (concat ls2.*1), (sum_list ls2.*2).
    do 4 (split; [done|]). by exists ls2.
  - exists (sum_list ls2.*2). do 3 (split; [done|]). by exists ls2.
  - destruct (add_children_ok s' kids Hok') as [Hok2 Hall2].
    exists (concat ks.*1 ++ concat ls2.*1), (sum_list ks.*2 + sum_list ls2.*2).
    split; [by rewrite Hl1|]. do 3 (split; [done|]).
    assert (Forall2 visits (kids ++ all_items [] s') (ks ++ ls2)) as Hk by by apply Forall2_app.
    destruct (Forall2_perm _ _ _ _ (symmetry Hall2) Hk) as (ls3&Hls3&Hp3). exists ls3. split; [done|].
    rewrite <-(concat_perm _ _ (fmap_Permutation fst _ _ Hp3)), fmap_app, concat_app. split; [done|].
    by rewrite <-Hp3, fmap_app, sum_list_with_app.
Qed.

Lemma limited_step_spec s w l n :
  keys_agree → inv_at s l n →
  ∃ c s' w', poll_step s w = ret (c, s', w') ∧
    match c with
    | Return (Ready None) => l = []
    | Return (Ready (Some x)) => ∃ l' n', l ≡ₚ x :: l' ∧ n = S n' ∧ inv_at s' l' n'
    | Return Pending => inv_at s' l n
    | Continue => (scheduled_max = 0 ∧ inv_at s' l n) ∨ ∃ n', n = S n' ∧ inv_at s' l n'
    end.
Proof.
  intros Hag Hinv. unfold poll_step.
  destruct (fu_is_empty (scheduled s) && is_nil (unscheduled s)) eqn:Hemp.
  { apply andb_true_iff in Hemp as [Hf%fu_is_empty_jobs Hu]. eexists _, _, _. split; [reflexivity|].
    destruct Hinv as (Hok&_&ls&Hls&Hl&_). assert (unscheduled s = []) as Hu' by (by destruct (unscheduled s)).
    rewrite (queues_empty s Hok Hf Hu') in Hls.
    inversion Hls; subst. by apply Permutation_nil_r in Hl. }
  pose proof Hinv as (Hok&Hmax&_).
  destruct (schedule_loop_ok (length (unscheduled s)) s Hok Hmax) as (Hok1&Hall1&Hmax1&Hfin).
  destruct (Hfin ltac:(done)) as [_ Hne]. clear Hfin. set (s1 := schedule_loop (length (unscheduled s)) s) in *.
  apply (inv_at_items s s1) in Hinv; [|done..|by symmetry].
  pose proof (fu_poll_next_spec (scheduled s1) w) as Hpoll. cbv zeta.
  destruct (fu_poll_next (scheduled s1) w) as [[[[j|]|] f] w'].
  - fold (set_scheduled s1 f). pose proof (complete_ok s1 f j l n Hag Hinv Hpoll) as Hc. cbv zeta in Hc.
    specialize (Hag j). destruct (unfold_ j) as [[key sk] r]. simpl in Hag. simplify_eq.
    simpl in Hc. destruct r as [[[out kids]|]|e]; eexists _, _, _; (split; [reflexivity|]); [done|by right|done].
  - eexists _, _, _. split; [reflexivity|]. left. destruct Hpoll as [Hf Hf']. fold (set_scheduled s1 f).
    destruct (decide (scheduled_max = 0)) as [Hz|Hz].
    + split; [done|]. apply (inv_at_items s1); [..|done].
      * destruct Hok1 as [Hk Hs]. split; simpl.
        -- intros k q Hl. destruct (Hk k q Hl) as [(j&Hj&_) _]. unfold flying in Hj. rewrite Hf in Hj. set_solver.
        -- intros sk m q Hl. destruct (Hs sk m q Hl) as (Hm&Hi&Hw). unfold ready, flying in *. simpl.
           rewrite Hf in Hm, Hw. by rewrite Hf'.
      * unfold flying. simpl. rewrite Hf'. simpl. lia.
      * unfold all_items, ready, flying. simpl. by rewrite Hf, Hf'.
    + exfalso. apply Hne; [|exact Hf]. unfold may_schedule, flying.
      destruct (fu_jobs (scheduled s)) eqn:Hsj; [right|by left].
      assert (fu_is_empty (scheduled s) = true) as He by (by apply fu_is_empty_jobs). rewrite He in Hemp.
      rewrite fu_len_jobs, Hsj. destruct (unscheduled s); [done|]. simpl. by destruct scheduled_max.
  - eexists _, _, _. split; [reflexivity|]. destruct Hpoll as [_ Hf']. fold (set_scheduled s1 f).
    apply (inv_at_items s1); [..|done].
    + destruct Hok1 as [Hk Hs]. split; simpl.
      * intros k q Hl. destruct (Hk k q Hl) as [(j&Hj&?) ?]. split; [|done]. exists j. unfold flying in *. simpl. by rewrite Hf'.
      * intros sk m q Hl. destruct (Hs sk m q Hl) as (Hm&Hi&Hw). unfold ready, flying in *. simpl.
        split_and!; [by rewrite Hf'|done|]. intros Hq. destruct (Hw Hq) as (j&Hj&?). exists j. by rewrite Hf'.
    + unfold flying in *. simpl. by rewrite Hf'.
    + unfold all_items, ready, flying. simpl. by rewrite Hf'.
Qed.

Lemma limited_step_ok s w l :
  keys_agree → inv s l →
  ∃ c s' w', poll_step s w = ret (c, s', w') ∧
    match c with
    | Return (Ready None) => l = []
    | Return (Ready (Some x)) => ∃ l', l ≡ₚ x :: l' ∧ inv s' l'
    | Return Pending | Continue => inv s' l
    end.
Proof.
  intros Hag [n Hs]. destruct (limited_step_spec s w l n Hag Hs) as (c&s'&w'&?&Hc). exists c, s', w'. split; [done|].
  destruct c as [[[x|]|]|]; [|done|by exists n|].
  - destruct Hc as (l'&n'&?&_&?). exists l'. split; [done|by exists n'].
  - destruct Hc as [[_ ?]|(n'&_&?)]; by eexists.
Qed.

Lemma limited_step_work s w l n c s' w' :
  keys_agree → 0 < scheduled_max → inv s l → (∃ l, inv_at s l n) → poll_step s w = ret (c, s', w') →
  match c with
  | Return (Ready None) => True
  | Return Pending => ∃ l, inv_at s' l n
  | Return (Ready (Some _)) => ∃ n', n' ≤ n ∧ ∃ l, inv_at s' l n'
  | Continue => ∃ n', n' < n ∧ ∃ l, inv_at s' l n'
  end.
Proof.
  intros Hag Hmax _ [l0 Hs] Hst. destruct (limited_step_spec s w l0 n Hag Hs) as (c'&s2&w2&Hst'&Hc).
  rewrite Hst in Hst'. simplify_eq. destruct c' as [[[x|]|]|]; [|done|by exists l0|].
  - destruct Hc as (l'&n'&_&->&?). exists n'. split; [lia|by exists l'].
  - destruct Hc as [[Hz _]|(n'&->&?)]; [lia|]. exists n'. split; [lia|by exists l0].
Qed.

Lemma limited_new_inv init ls : Forall2 visits init ls → inv_at (new init) (concat ls.*1) (sum_list ls.*2).
Proof.
  intros Hls. split; [split; simpl; intros; by simplify_map_eq|].
  unfold flying. simpl. rewrite fu_jobs_new. split; [simpl; lia|]. exists ls.
  unfold all_items, ready, flying. simpl. by rewrite fu_jobs_new, !map_items_empty, !app_nil_r.
Qed.

(** C5: however items are queued behind busy keys and shards, none is lost or run twice:
    the stream yields exactly the outputs and errors of the forest, up to order, ends exactly
    when nothing is missing, never panics and never has more than [scheduled_max] in flight. *)
Theorem limited_by_key_sound init ls (polls fuel : nat) w :
  keys_agree → Forall2 visits init ls →
  ∃ r, limited_by_key_shardable init polls fuel w = ret r ∧
    match r with
    | None => True
    | Some (items, finished, s, _) => ∃ rest, concat ls.*1 ≡ₚ items ++ rest ∧
        if finished : bool then rest = [] else fu_len (scheduled s) ≤ scheduled_max
    end.
Proof.
  intros Hag Hls.
  destruct (collect_stream_ok _ inv (λ s w l, limited_step_ok s w l Hag) polls fuel (new init) w (concat ls.*1))
    as (r&Hr&Hok); [eexists; by apply limited_new_inv|]. exists r. split; [exact Hr|].
  destruct r as [[[[xs e] s] w']|]; [|done]. destruct Hok as (rest&Hp&He). exists rest. split; [done|].
  destruct e; [done|]. destruct He as (n&_&Hmax&_). by rewrite fu_len_jobs.
Qed.

(** With a positive [scheduled_max] every poll returns: the loop goes round only for nodes
    without output, at most once per node of the forest. *)
Theorem limited_by_key_terminates init ls (polls fuel : nat) w :
  keys_agree → Forall2 visits init ls → 0 < scheduled_max → sum_list ls.*2 < fuel →
  ∃ r, limited_by_key_shardable init polls fuel w = ret (Some r).
Proof.
  intros Hag Hls Hmax Hf.
  apply (collect_stream_terminates _ inv (λ s w l, limited_step_ok s w l Hag) (λ s n, ∃ l, inv_at s l n))
    with (l := concat ls.*1) (n := sum_list ls.*2); [|eexists; by apply limited_new_inv|eexists; by apply limited_new_inv|done].
  intros. by eapply limited_step_work.
Qed.
End stream.

(** ** Concrete runs *)
Section witnesses.
(** Items are numbers, their key the last digit; item 2 has the children 11 and 21. *)
Definition demo_key_fn (v : nat) : nat * option (nat * nat) := (v mod 10, None).
Definition demo_unfold (v : nat) : nat * option nat * result (option (nat * list nat)) nat :=
  (v mod 10, None, Ok (if decide (v = 2) then Some (v, [11; 21]) else if decide (v = 31) then None else Some (v, []))).
(** All items share a shard of which one may be in flight. *)
Definition shard_key_fn (v : nat) : nat * option (nat * nat) := (v, Some (0, 1)).
Definition shard_unfold (v : nat) : nat * option nat * result (option (nat * list nat)) nat :=
  (v, Some 0, Ok (Some (v, []))).

Lemma limited_demo_visits : Forall2 (visits demo_unfold) [1; 31; 2] [([Ok 1], 1); ([], 1); ([Ok 2; Ok 11; Ok 21], 3)].
Proof.
  assert (∀ v, v ≠ 2 → v ≠ 31 → visits demo_unfold v ([Ok v], 1)) as Hleaf.
  { intros v H2 H31. apply (visits_ok _ v (v mod 10, None) v [] []); [|constructor].
    unfold demo_unfold. by rewrite !decide_False. }
  constructor; [by apply Hleaf|]. constructor; [by eapply visits_none|]. constructor; [|constructor].
  apply (visits_ok _ 2 (2, None) 2 [11; 21] [([Ok 11], 1); ([Ok 21], 1)]); [reflexivity|].
  repeat constructor; by apply Hleaf.
Qed.

Lemma limited_by_key_sound_witness :
  ∃ r, limited_by_key_shardable (FU:=scripted _) 5 demo_unfold demo_key_fn [1; 31; 2] 9 9 [Some 1; Some 0; None] = ret (Some r) ∧
    r.1.1.2 = true ∧ r.1.1.1 ≡ₚ [Ok 1; Ok 2; Ok 11; Ok 21].
Proof.
  destruct (limited_by_key_sound (FU:=scripted _) 5 demo_unfold demo_key_fn [1; 31; 2] _ 9 9 [Some 1; Some 0; None]
    (λ v, eq_refl) limited_demo_visits) as (r&Hr&Hok).
  vm_compute in Hr. injection Hr as <-. eexists. split; [vm_compute; reflexivity|]. split; [reflexivity|].
  destruct Hok as (rest&Hp&->). rewrite app_nil_r in Hp. symmetry. exact Hp.
Defined.

Lemma limited_by_key_terminates_witness :
  ∃ r, limited_by_key_shardable (FU:=scripted _) 5 demo_unfold demo_key_fn [1; 31; 2] 9 6 [Some 1; Some 0; None] = ret (Some r).
Proof.
  apply (limited_by_key_terminates (FU:=scripted _) 5 demo_unfold demo_key_fn [1; 31; 2] _ 9 6 [Some 1; Some 0; None]
    (λ v, eq_refl) limited_demo_visits); [lia|vm_compute; lia].
Defined.

(** Two items with the same key can be in flight together: 31 waits for 1, is started when
    1 completes, and its key is then forgotten, so 21 is started beside it. *)
Theorem duplicate_keys_in_flight :
  ∃ items s w, limited_by_key_shardable (FU:=scripted _) 5 demo_unfold demo_key_fn [1; 31; 2] 3 9 [Some 1; Some 1; None] =
    ret (Some (items, false, s, w)) ∧ 21 ∈ scheduled s ∧ 31 ∈ scheduled s ∧ (demo_key_fn 21).1 = (demo_key_fn 31).1.
Proof.
  eexists _, _, _. split; [vm_compute; reflexivity|]. split; [|split]; simpl; [set_solver..|reflexivity].
Qed.

(** [max_per_shard = 1] lets two items of the shard be in flight together. *)
Theorem shard_limit_exceeded :
  ∃ s w, limited_by_key_shardable (FU:=scripted _) 5 shard_unfold shard_key_fn [1; 31; 2] 1 9 [None] =
    ret (Some ([], false, s, w)) ∧ scheduled s = [31; 1] ∧ (shard_key_fn 31).2 = Some (0, 1) ∧ (shard_key_fn 1).2 = Some (0, 1).
Proof. eexists _, _. split; [vm_compute; reflexivity|]. done. Qed.
End witnesses.
End LimitedByKey.
