(* ===== verification/BoundedDag.v ===== *)
(** [bounded_traversal::dag]: the traversal that unfolds every value of a graph once and
    shares its result (src/shed/bounded_traversal/src/dag.rs).  Callbacks are what their
    futures resolve to; the execution tree is keyed by the values. *)
From S2P Require Import Prelude RustStd Futures.
From S2P Require BoundedTree.

Module BoundedDag.
#[local] Abbreviation UFut := BoundedTree.BoundedTree.UFut.
#[local] Abbreviation FFut := BoundedTree.BoundedTree.FFut.
#[local] Abbreviation Either2 := BoundedTree.BoundedTree.Either2.
#[local] Abbreviation flatten := BoundedTree.BoundedTree.flatten.

Record Children (Out OutCtx : Type) := {
  context : OutCtx;
  children : list (option Out);
  children_left : nat;
}.
Arguments Build_Children {Out OutCtx}.
Arguments context {Out OutCtx}.
Arguments children {Out OutCtx}.
Arguments children_left {Out OutCtx}.

(** [Node::Pending]: the nodes blocked by this one, and what it waits for itself, if it has
    been unfolded; [Node::Done]. *)
Inductive Node (In Out OutCtx : Type) :=
| NPending (parents : list (NodeLocation In)) (wait : option (Children Out OutCtx))
| NDone (out : Out).
Arguments NPending {In Out OutCtx}.
Arguments NDone {In Out OutCtx}.

Section dag.
Context {In Out OutCtx E : Type} `{Countable In}.
Context (scheduled_max : nat).
Context (unfold_ : In → result (OutCtx * list In) E) (fold_ : OutCtx → list Out → result Out E).
Context (unfold_limit : option nat).
#[local] Abbreviation Loc := (NodeLocation In).
#[local] Abbreviation Node := (Node In Out OutCtx).
#[local] Abbreviation Job := (In * Either2 In Out OutCtx)%type.
Context `{FU : !FuturesUnordered Job} `{BuildMode}.

Record BoundedTraversalDAG := {
  init : In;
  scheduled : fu;
  unscheduled : list Job;
  execution_tree : gmap In Node;
}.
Implicit Types s : BoundedTraversalDAG.

Definition set_queue s (q : list Job) : BoundedTraversalDAG :=
  {| init := init s; scheduled := scheduled s; unscheduled := q; execution_tree := execution_tree s |}.
Definition set_tree s (t : gmap In Node) : BoundedTraversalDAG :=
  {| init := init s; scheduled := scheduled s; unscheduled := unscheduled s; execution_tree := t |}.

(** The result of [value] if it is known; otherwise [par] is noted as waiting for it, and a
    value not seen before is scheduled. *)
Definition enqueue_unfold s (par : Loc) (value : In) : option Out * BoundedTraversalDAG :=
  match execution_tree s !! value with
  | None =>
      (None, set_queue (set_tree s (<[value := NPending [par] None]> (execution_tree s)))
               ((value, UFut value) :: unscheduled s))
  | Some (NPending parents wait) =>
      (None, set_tree s (<[value := NPending (parents ++ [par]) wait]> (execution_tree s)))
  | Some (NDone r) => (Some r, s)
  end.

Definition enqueue_fold s (value : In) (ctx : OutCtx) (outs : list Out) : BoundedTraversalDAG :=
  set_queue s ((value, FFut ctx outs) :: unscheduled s).

Definition new (value : In) : exec BoundedTraversalDAG :=
  let '(init_out, s) :=
    enqueue_unfold {| init := value; scheduled := fu_new; unscheduled := []; execution_tree := ∅ |}
      (Build_NodeLocation value 0) value in
  let! _ := debug_assert (is_none init_out) in ret s.

(** The [map] over the enumerated children: their results so far, and how many are missing. *)
Fixpoint enqueue_children s (value : In) (child_index : nat) (kids : list In)
  : BoundedTraversalDAG * list (option Out) * nat :=
  match kids with
  | [] => (s, [], 0)
  | child :: kids =>
      let '(out, s) := enqueue_unfold s (Build_NodeLocation value child_index) child in
      let '(s, outs, left_) := enqueue_children s value (child_index + 1) kids in
      (s, out :: outs, if is_none out then left_ + 1 else left_)
  end.

(** [children.take(unfold_budget)]. *)
Definition limit_children s (kids : list In) : list In :=
  match unfold_limit with
  | Some limit => take (limit - size (execution_tree s)) kids
  | None => kids
  end.

Definition process_unfold s (value : In) (ctx : OutCtx) (kids : list In) : exec BoundedTraversalDAG :=
  let '(s, outs, left_) := enqueue_children s value 0 (limit_children s kids) in
  if decide (left_ ≠ 0) then
    let! node := expect (execution_tree s !! value) in
    match node with
    | NPending parents _ =>
        ret (set_tree s (<[value := NPending parents (Some (Build_Children ctx outs left_))]> (execution_tree s)))
    | NDone _ => panic
    end
  else ret (enqueue_fold s value ctx (flatten outs)).

Definition update_location s (loc : Loc) (r : Out) : exec BoundedTraversalDAG :=
  let! node := expect (execution_tree s !! node_index loc) in
  match node with
  | NDone _ => panic
  | NPending parents wait =>
      let! c := expect wait in
      let! slot := vec_index (children c) (child_index loc) in
      let! _ := debug_assert (is_none slot) in
      let! left_ := count_sub (children_left c) 1 in
      let outs := <[child_index loc := Some r]> (children c) in
      if decide (left_ = 0) then
        ret (enqueue_fold (set_tree s (<[node_index loc := NPending parents None]> (execution_tree s)))
               (node_index loc) (context c) (flatten outs))
      else
        ret (set_tree s (<[node_index loc :=
               NPending parents (Some (Build_Children (context c) outs left_))]> (execution_tree s)))
  end.

Fixpoint update_locations s (locs : list Loc) (r : Out) : exec BoundedTraversalDAG :=
  match locs with
  | [] => ret s
  | loc :: locs => let! s := update_location s loc r in update_locations s locs r
  end.

Definition process_fold s (value : In) (r : Out) : exec BoundedTraversalDAG :=
  let! node := expect (execution_tree s !! value) in
  match node with
  | NDone _ => panic
  | NPending parents _ =>
      update_locations (set_tree s (<[value := NDone r]> (execution_tree s))) parents r
  end.

(** One iteration of the loop of [poll]. *)
Definition poll_step s (w : world) : exec (control (result (option Out) E) * BoundedTraversalDAG * world) :=
  if is_nil (unscheduled s) && fu_is_empty (scheduled s) then ret (Return (Ready (Ok None)), s, w)
  else
    let! room := count_sub scheduled_max (fu_len (scheduled s)) in
    let '(f, q) := fu_drain (length (unscheduled s) `min` room) (unscheduled s) (scheduled s) in
    let '(r, f, w) := fu_poll_next f w in
    let s := {| init := init s; scheduled := f; unscheduled := q; execution_tree := execution_tree s |} in
    match r with
    | Pending => ret (Return Pending, s, w)
    | Ready None => ret (Continue, s, w)
    | Ready (Some (value, BoundedTree.BoundedTree.UFut v)) =>
        match unfold_ v with
        | Err e => ret (Return (Ready (Err e)), s, w)
        | Ok (ctx, kids) => let! s := process_unfold s value ctx kids in ret (Continue, s, w)
        end
    | Ready (Some (value, BoundedTree.BoundedTree.FFut ctx outs)) =>
        let r := fold_ ctx outs in
        if decide (value = init s) then
          let! _ := rust_assert (is_nil (unscheduled s)) in
          let! _ := rust_assert (fu_is_empty (scheduled s)) in
          ret (Return (Ready (match r with Ok out => Ok (Some out) | Err e => Err e end)), s, w)
        else
          match r with
          | Err e => ret (Return (Ready (Err e)), s, w)
          | Ok out => let! s := process_fold s value out in ret (Continue, s, w)
          end
    end.

(** A whole run of an executor. *)
Definition bounded_traversal_dag_limited (value : In) (polls fuel : nat) (w : world) :=
  let! s := new value in drive poll_step polls fuel s w.
End dag.

Definition bounded_traversal_dag {In Out OutCtx E} `{Countable In} (scheduled_max : nat)
    (unfold_ : In → result (OutCtx * list In) E) (fold_ : OutCtx → list Out → result Out E)
    `{FU : !FuturesUnordered (In * Either2 In Out OutCtx)} `{BuildMode} :=
  bounded_traversal_dag_limited scheduled_max unfold_ fold_ None.

(** ** The slots still missing *)

Section missing.
Context {Out : Type}.
Implicit Types l : list (option Out).

Fixpoint missing l : nat :=
  match l with [] => 0 | None :: l => S (missing l) | Some _ :: l => missing l end.

Lemma missing_app l1 l2 : missing (l1 ++ l2) = missing l1 + missing l2.
Proof. induction l1 as [|[o|] l1 IH]; simpl; lia. Qed.

Lemma missing_set l i o : l !! i = Some None → missing l = S (missing (<[i := Some o]> l)).
Proof.
  revert i. induction l as [|x l IH]; intros i Hi; [done|]. destruct i as [|i]; simplify_eq/=; [done|].
  destruct x; by rewrite (IH i Hi).
Qed.

Lemma missing_zero l : missing l = 0 → ∃ outs, l = Some <$> outs.
Proof.
  induction l as [|[o|] l IH]; simpl; [by exists []| |lia]. intros Hl. destruct (IH Hl) as [outs ->].
  by exists (o :: outs).
Qed.

Lemma missing_pos l : 0 < missing l → ∃ i, l !! i = Some None.
Proof.
  induction l as [|[o|] l IH]; simpl; [lia| |by exists 0]. intros Hl. destruct (IH Hl) as [i Hi]. by exists (S i).
Qed.
End missing.

(** ** What the traversal computes *)

Section theory.
Context {In Out OutCtx E : Type} `{Countable In}.
Context (unfold_ : In → result (OutCtx * list In) E) (fold_ : OutCtx → list Out → result Out E).
Context (unfold_limit : option nat).
#[local] Abbreviation Loc := (NodeLocation In).
#[local] Abbreviation Node := (Node In Out OutCtx).
#[local] Abbreviation Children := (Children Out OutCtx).
#[local] Abbreviation Job := (In * Either2 In Out OutCtx)%type.
Implicit Types (t : gmap In Node) (js : list Job) (loc : Loc) (owed : list (In * Loc)).

(** The edges of the graph. *)
Definition child_of (v k : In) : Prop := ∃ ctx kids, unfold_ v = Ok (ctx, kids) ∧ k ∈ kids.

(** Under a limit a node keeps only some first children: how many, for the nodes unfolded so far. *)
#[local] Abbreviation Cuts := (gmap In nat).
Implicit Types (cut : Cuts).

Definition kept cut (v k : In) : Prop :=
  ∃ ctx kids n, unfold_ v = Ok (ctx, kids) ∧ cut !! v = Some n ∧ k ∈ take n kids.

(** The sequential fold over the children that are kept. *)
Inductive eval cut : In → Out → Prop :=
| eval_node v ctx kids n outs o :
    unfold_ v = Ok (ctx, kids) → cut !! v = Some n →
    Forall2 (eval cut) (take n kids) outs → fold_ ctx outs = Ok o → eval cut v o.

Inductive fails cut : In → E → Prop :=
| fails_unfold v e : unfold_ v = Err e → fails cut v e
| fails_child v k e : kept cut v k → fails cut k e → fails cut v e
| fails_fold v ctx kids n outs e :
    unfold_ v = Ok (ctx, kids) → cut !! v = Some n →
    Forall2 (eval cut) (take n kids) outs → fold_ ctx outs = Err e → fails cut v e.

(** Children are left out only when they could go over the limit, given how many values are visited. *)
Definition cuts_ok cut (visited : nat) : Prop :=
  ∀ v n, cut !! v = Some n → ∃ ctx kids, unfold_ v = Ok (ctx, kids) ∧ n ≤ length kids ∧
    (n < length kids → ∃ limit, unfold_limit = Some limit ∧ limit ≤ n + visited).

(** [cut] is how a traversal from [root] that visits the values [X] keeps to the limit. *)
Record truncates (root : In) cut (X : gset In) : Prop := {
  tr_reached v : v ∈ X → rtc (kept cut) root v;
  tr_visited v : is_Some (cut !! v) → v ∈ X;
  tr_limit limit : unfold_limit = Some limit → size X ≤ 1 `max` limit;
  tr_cuts : cuts_ok cut (size X);
}.

Lemma kept_child cut v k : kept cut v k → child_of v k.
Proof.
  intros (ctx&kids&n&Hu&_&Hk). exists ctx, kids. split; [done|].
  apply list_elem_of_lookup in Hk as [i [Hk _]%lookup_take_Some]. by eapply list_elem_of_lookup_2.
Qed.

Lemma tc_kept_child cut v k : tc (kept cut) v k → tc child_of v k.
Proof.
  induction 1 as [x y Hxy|x y z Hxy _ IH]; [by eapply tc_once, kept_child|]. eapply tc_l; [by eapply kept_child|done].
Qed.

Lemma kept_mono cut cut' v k : cut ⊆ cut' → kept cut v k → kept cut' v k.
Proof. intros Hc (ctx&kids&n&?&?&?). exists ctx, kids, n. split_and!; [done|by eapply lookup_weaken|done]. Qed.

Lemma eval_mono cut cut' : cut ⊆ cut' → ∀ v o, eval cut v o → eval cut' v o.
Proof.
  intros Hc. fix IH 3. intros v o [v1 ctx kids n outs o1 Hu Hn Hk Hf].
  apply (eval_node _ v1 ctx kids n outs); [done|by eapply lookup_weaken| |done].
  clear Hu Hn Hf. induction Hk as [|x y l k Hx Hk IHk]; constructor; [by apply IH|done].
Qed.

Lemma cuts_ok_mono cut n n' : n ≤ n' → cuts_ok cut n → cuts_ok cut n'.
Proof.
  intros Hn Hc v k Hv. destruct (Hc v k Hv) as (ctx&kids&Hu&Hk&Hl). exists ctx, kids. split_and!; [done..|].
  intros Hlt. destruct (Hl Hlt) as (limit&?&?). exists limit. split; [done|lia].
Qed.

(** Without a limit all children are kept, and the reference is that of the tree traversal: sharing
    is not observable. *)
Section unlimited.
Context (Hl : unfold_limit = None) cut (visited : nat) (Hcut : cuts_ok cut visited).

Lemma take_unlimited v ctx kids n : unfold_ v = Ok (ctx, kids) → cut !! v = Some n → take n kids = kids.
Proof.
  intros Hu Hn. destruct (Hcut v n Hn) as (ctx'&kids'&Hu'&_&Hlt). rewrite Hu in Hu'. simplify_eq.
  apply take_ge. apply Nat.nlt_ge. intros (l&Hl'&_)%Hlt. congruence.
Qed.

Lemma eval_unlimited : ∀ v o, eval cut v o → BoundedTree.BoundedTree.eval unfold_ fold_ v o.
Proof.
  fix IH 3. intros v o [v1 ctx kids n outs o1 Hu Hn Hk Hf]. econstructor; [exact Hu| |exact Hf].
  rewrite (take_unlimited v1 ctx kids n) in Hk by done. clear Hu Hf Hn. induction Hk as [|x y l k Hx Hk IHk]; constructor; [by apply IH|done].
Qed.

Lemma fails_unlimited v e : fails cut v e → BoundedTree.BoundedTree.fails unfold_ fold_ v e.
Proof.
  induction 1 as [v e Hu|v k e (ctx&kids&Hu&Hk)%kept_child _ IH|v ctx kids n outs e Hu Hn Hk Hf].
  - by apply BoundedTree.BoundedTree.fails_unfold.
  - by eapply BoundedTree.BoundedTree.fails_child.
  - eapply BoundedTree.BoundedTree.fails_fold; [exact Hu| |exact Hf]. rewrite (take_unlimited v ctx kids n) in Hk by done.
    eapply Forall2_impl; [exact Hk|]. intros x y. by apply eval_unlimited.
Qed.
End unlimited.

(** A value that the tree traversal evaluates has no cycle under it. *)
Lemma eval_acyclic : ∀ v o, BoundedTree.BoundedTree.eval unfold_ fold_ v o → sn child_of v.
Proof.
  fix IH 3. intros v o [v1 ctx kids outs o1 Hu Hk _]. constructor. intros k (ctx'&kids'&Hu'&Hin).
  rewrite Hu in Hu'. simplify_eq. clear Hu.
  induction Hk as [|x y l l' Hx Hk IHk]; [by apply not_elem_of_nil in Hin|].
  apply elem_of_cons in Hin as [->|Hin]; [by eapply IH|by apply IHk].
Qed.

Lemma acyclic_no_cycle v : sn child_of v → ∀ k, rtc child_of v k → ¬ tc child_of k k.
Proof.
  assert (∀ x y, tc child_of x y → ∃ w, child_of x w ∧ rtc child_of w y) as Hstep.
  { intros x y Hxy. destruct Hxy as [x y Hxy|x w y Hxw Hwy]; [by exists y|]. exists w. split; [done|by apply tc_rtc]. }
  induction 1 as [v _ IH]. intros k Hvk Hkk.
  assert (∃ w, child_of v w ∧ rtc child_of w k) as (w&Hvw&Hwk).
  { apply rtc_inv in Hvk as [->|(w&?&?)]; [by apply Hstep|by exists w]. }
  by apply (IH w Hvw k).
Qed.

(** ** The invariant

    Over two views of the execution tree: the shape of its nodes (the parents of a pending
    value, or its result), and what the waiting ones hold.  [cur] is a node whose children are
    being recorded, [owed] the slots a result is still to be written to. *)

#[local] Abbreviation Shape := (gmap In (list Loc + Out)).
#[local] Abbreviation Waits := (gmap In Children).
Implicit Types (sh : Shape) (wt : Waits) (cur : option In).

Definition shape (n : Node) : list Loc + Out :=
  match n with NPending ps _ => inl ps | NDone o => inr o end.
Definition wait (n : Node) : option Children :=
  match n with NPending _ w => w | NDone _ => None end.

Section invariant.
Context (init : In) (cut : Cuts).

Definition pending sh (v : In) : Prop := ∃ ps, sh !! v = Some (inl ps).

(** The slot [loc] is open and is for the child [k]. *)
Definition is_open wt loc (k : In) : Prop :=
  ∃ c ctx kids, wt !! node_index loc = Some c ∧ children c !! child_index loc = Some None ∧
    unfold_ (node_index loc) = Ok (ctx, kids) ∧ kids !! child_index loc = Some k.

(** The result of [k] will go to the slot [loc]. *)
Definition registered sh owed loc (k : In) : Prop :=
  (k, loc) ∈ owed ∨ ∃ ps, sh !! k = Some (inl ps) ∧ loc ∈ ps.

Definition blocks wt (p k : In) : Prop := ∃ i, is_open wt (Build_NodeLocation p i) k.

(** What a waiting node holds: the results of its first children that are known. *)
Definition wf_wait (p : In) (c : Children) : Prop :=
  ∃ kids, unfold_ p = Ok (context c, kids) ∧
    Forall2 (λ k o, ∀ out, o = Some out → eval cut k out) (take (length (children c)) kids) (children c) ∧
    children_left c = missing (children c).
Definition complete (p : In) (n : nat) : Prop := cut !! p = Some n.

Definition job_ok (j : Job) : Prop :=
  match j with
  | (v, BoundedTree.BoundedTree.UFut v') => v' = v ∧ cut !! v = None
  | (v, BoundedTree.BoundedTree.FFut ctx outs) => ∃ kids n, unfold_ v = Ok (ctx, kids) ∧
      complete v n ∧ Forall2 (eval cut) (take n kids) outs
  end.

Record ginv cur owed sh wt js : Prop := {
  g_wait p c : wt !! p = Some c → pending sh p ∧ wf_wait p c;
  g_complete p c : wt !! p = Some c → cur ≠ Some p → 0 < children_left c ∧ complete p (length (children c));
  g_registered loc k : is_open wt loc k → registered sh owed loc k;
  g_open loc k : registered sh owed loc k → (loc = Build_NodeLocation init 0 ∧ k = init) ∨ is_open wt loc k;
  g_nodup k ps : k ≠ init → sh !! k = Some (inl ps) → NoDup ps;
  g_owed : NoDup owed ∧ ∀ k loc, (k, loc) ∈ owed → k ≠ init ∧ ∃ o, sh !! k = Some (inr o);
  g_jobs_nodup : NoDup js.*1;
  g_jobs v : v ∈ js.*1 ↔ pending sh v ∧ wt !! v = None;
  g_job_ok : Forall job_ok js;
  g_done v o : sh !! v = Some (inr o) → eval cut v o;
  g_init : pending sh init;
  g_path v : pending sh v → rtc (blocks wt) init v;
  g_reach v : is_Some (sh !! v) → rtc (kept cut) init v;
  g_seen v : is_Some (cut !! v) → is_Some (sh !! v);
}.

Lemma dag_ginv_perm cur owed sh wt js js' : js ≡ₚ js' → ginv cur owed sh wt js → ginv cur owed sh wt js'.
Proof. intros Hp []. split; try done; [by rewrite <-Hp|intros v; by rewrite <-Hp|by rewrite <-Hp]. Qed.

Lemma is_open_functional wt loc k k' : is_open wt loc k → is_open wt loc k' → k = k'.
Proof. intros (c&ctx&kids&?&?&?&?) (c'&ctx'&kids'&?&?&?&?). congruence. Qed.

Lemma is_open_insert wt p c loc k :
  node_index loc ≠ p → is_open (<[p := c]> wt) loc k ↔ is_open wt loc k.
Proof. intros Hp. unfold is_open. by setoid_rewrite lookup_insert_ne; [|done..]. Qed.

Lemma is_open_delete wt p loc k : node_index loc ≠ p → is_open (delete p wt) loc k ↔ is_open wt loc k.
Proof. intros Hp. unfold is_open. by setoid_rewrite lookup_delete_ne; [|done..]. Qed.

(** The paths of blocked nodes to a pending value survive when only edges to others go. *)
Lemma path_mono wt wt' (v : In) :
  (∀ y w, w ≠ v → blocks wt y w → blocks wt' y w) → wt !! v = None →
  ∀ w, rtc (blocks wt) init w → w ≠ v → rtc (blocks wt') init w.
Proof.
  intros Hb Hv. refine (rtc_ind_r (λ w, w ≠ v → rtc (blocks wt') init w) init _ _); [done|].
  intros y w Hy Hyw IH Hne.
  eapply rtc_r; [apply IH|by apply Hb]. destruct Hyw as (i&c&ctx&kids&Hc&_). simpl in Hc. congruence.
Qed.

(** Its last child recorded, the node waits, or folds. *)
Lemma ginv_close owed sh wt js p c :
  ginv (Some p) owed sh wt js → wt !! p = Some c → 0 < children_left c → complete p (length (children c)) →
  ginv None owed sh wt js.
Proof.
  intros [] Hp Hl Hc. split; try done. intros q c' Hq _. destruct (decide (p = q)) as [->|]; [by simplify_eq|].
  apply g_complete0; [done|congruence].
Qed.

Lemma ginv_finish owed sh wt js p c :
  ginv (Some p) owed sh wt js → wt !! p = Some c → children_left c = 0 → complete p (length (children c)) →
  ginv None owed sh (delete p wt)
    ((p, BoundedTree.BoundedTree.FFut (context c) (flatten (children c))) :: js).
Proof.
  intros [] Hp Hl Hc. destruct (g_wait0 _ _ Hp) as (Hpend&kids&Hu&Hk&Hm).
  destruct (missing_zero (children c)) as [outs Houts]; [lia|].
  assert (∀ loc k, is_open (delete p wt) loc k ↔ is_open wt loc k) as Ho.
  { intros loc k. destruct (decide (node_index loc = p)) as [Hn|]; [|by apply is_open_delete].
    unfold is_open. rewrite Hn, lookup_delete_eq, Hp. split; [by intros (?&?&?&?&_)|].
    intros (c'&?&?&[= <-]&Hs&_). rewrite Houts, list_lookup_fmap in Hs. by destruct (outs !! _). }
  split; try done.
  - intros q c' [_ Hq]%lookup_delete_Some. auto.
  - intros q c' [Hne Hq]%lookup_delete_Some _. apply g_complete0; [done|congruence].
  - intros loc k. rewrite Ho. auto.
  - intros loc k. rewrite Ho. auto.
  - simpl. apply NoDup_cons. split; [|done]. intros [_ Hn]%g_jobs0. congruence.
  - intros v. simpl. rewrite elem_of_cons, g_jobs0, lookup_delete_None. naive_solver.
  - constructor; [|done]. exists kids, (length (children c)). split; [done|]. split; [done|].
    rewrite Houts, BoundedTree.BoundedTree.flatten_Some, length_fmap.
    rewrite Houts, length_fmap in Hk. apply Forall2_fmap_r in Hk. eapply Forall2_impl; [exact Hk|]. naive_solver.
  - intros v Hv. eapply rtc_subrel; [|by apply g_path0]. intros x y [i Hi]. exists i. by apply Ho.
Qed.

(** A known result is written to its slot. *)
Definition fill (c : Children) (i : nat) (r : Out) : Children :=
  Build_Children (context c) (<[i := Some r]> (children c)) (children_left c - 1).

Lemma dag_ginv_fill owed sh wt js k loc r :
  ginv None ((k, loc) :: owed) sh wt js → sh !! k = Some (inr r) →
  ∃ c, wt !! node_index loc = Some c ∧ pending sh (node_index loc) ∧ children c !! child_index loc = Some None ∧
    0 < children_left c ∧ complete (node_index loc) (length (children c)) ∧
    ginv (Some (node_index loc)) owed sh (<[node_index loc := fill c (child_index loc) r]> wt) js.
Proof.
  intros [] Hr. destruct g_owed0 as [[Hnin Hnd]%NoDup_cons How].
  destruct (g_open0 loc k) as [[_ ->]|Hopen]; [left; by left| |].
  { destruct (How init loc) as [? _]; [by left|done]. }
  destruct Hopen as (c&ctx&kids&Hc&Hs&Hu&Hk). exists c.
  destruct (g_wait0 _ _ Hc) as (Hp&kids'&Hu'&Hf&Hm). destruct (g_complete0 _ _ Hc) as [Hpos Hcomp]; [done|].
  split; [done|]. split; [done|]. split; [done|]. split; [done|]. split; [done|].
  assert (is_open wt loc k) as Hopen by (by exists c, ctx, kids).
  assert (∀ l k', is_open (<[node_index loc := fill c (child_index loc) r]> wt) l k' ↔ is_open wt l k' ∧ l ≠ loc) as Ho.
  { intros l k'. destruct (decide (node_index l = node_index loc)) as [Hn|Hn].
    - unfold is_open. rewrite Hn, lookup_insert_eq. split.
      + intros (c'&ctx'&kids2&[= <-]&Hs'&?&?). simpl in Hs'.
        apply list_lookup_insert_Some in Hs' as [(_&?&_)|(Hne&Hs')]; [done|].
        split; [|by intros ->]. by exists c, ctx', kids2.
      + intros ((c'&ctx'&kids2&Hc'&Hs'&?&?)&Hne). assert (c' = c) as -> by congruence.
        exists (fill c (child_index loc) r), ctx', kids2.
        split; [done|]. split; [|done]. simpl. rewrite list_lookup_insert_ne; [done|].
        intros Heq. apply Hne. destruct l, loc. simpl in *. by subst.
    - rewrite is_open_insert by done. split; [|by intros []]. intros ?. split; [done|]. by intros ->. }
  split; try done.
  - intros q c' [[<- <-]|[Hne Hq]]%lookup_insert_Some; [|auto]. split; [done|].
    exists kids'. split; [done|]. simpl. rewrite length_insert. split.
    + rewrite Hu in Hu'. simplify_eq. apply Forall2_same_length_lookup. apply Forall2_same_length_lookup in Hf as [Hlen Hf].
      split; [by rewrite length_insert|]. intros i x o Hx Ho' out ->.
      apply list_lookup_insert_Some in Ho' as [(<-&[= <-]&_)|(Hne&Ho')]; [|by eapply Hf].
      apply lookup_take_Some in Hx as [Hx _]. assert (x = k) as -> by congruence. by apply g_done0.
    + rewrite (missing_set _ _ r Hs) in Hm. lia.
  - intros q c' [[<- <-]|[Hne Hq]]%lookup_insert_Some; [done|]. intros _. by apply g_complete0.
  - intros l k' [Hl Hne]%Ho. destruct (g_registered0 _ _ Hl) as [Hin|?]; [|by right].
    apply elem_of_cons in Hin as [?|?]; [congruence|by left].
  - intros l k' Hreg. destruct (g_open0 l k') as [?|Hl]; [|by left|].
    { destruct Hreg as [?|?]; [left; by right|by right]. }
    right. apply Ho. split; [done|]. intros ->. rewrite (is_open_functional _ _ _ _ Hl Hopen) in Hreg.
    destruct Hreg as [?|(ps&Hps&_)]; [done|congruence].
  - split; [done|]. intros k' l Hin. apply (How k' l). by right.
  - intros v. rewrite g_jobs0, lookup_insert_None. split; [|naive_solver]. intros [? Hn]. split; [done|]. split; [done|].
    congruence.
  - intros v Hv. assert (wt !! k = None) as Hwk.
    { destruct (wt !! k) as [ck|] eqn:Hck; [|done]. destruct (g_wait0 _ _ Hck) as [[ps Hps] _]. congruence. }
    eapply (path_mono wt _ k); [|done|by apply g_path0|].
    + intros y w Hw [i Hi]. exists i. apply Ho. split; [done|]. intros <-. apply Hw. by eapply is_open_functional.
    + intros ->. destruct Hv as [ps Hps]. congruence.
Qed.

(** A folded value: its result is owed to the slots that wait for it. *)
Lemma ginv_done sh wt js v ctx outs o ps :
  ginv None [] sh wt ((v, BoundedTree.BoundedTree.FFut ctx outs) :: js) → v ≠ init →
  sh !! v = Some (inl ps) → fold_ ctx outs = Ok o →
  ginv None (pair v <$> ps) (<[v := inr o]> sh) wt js.
Proof.
  intros [] Hv Hps Hf. destruct (g_jobs0 v) as [[_ Hw] _]; [by left|].
  apply Forall_cons in g_job_ok0 as [(kids&n&Hu&Hn&Hk) Hjs]. simpl in *.
  apply NoDup_cons in g_jobs_nodup0 as [Hnin Hnd].
  assert (eval cut v o) as Hev by (by econstructor).
  assert (∀ w, w ≠ v → pending (<[v:=inr o]> sh) w ↔ pending sh w) as Hp.
  { intros w Hne. unfold pending. by rewrite lookup_insert_ne. }
  assert (¬ pending (<[v:=inr o]> sh) v) as Hpv by (intros [qs Hq]; by rewrite lookup_insert_eq in Hq).
  split; try done.
  - intros p c Hc. destruct (g_wait0 p c Hc) as [??]. split; [|done]. apply Hp; [congruence|done].
  - intros loc k Hl. destruct (g_registered0 _ _ Hl) as [Hin|(qs&Hqs&Hin)]; [by apply not_elem_of_nil in Hin|].
    destruct (decide (k = v)) as [->|Hne].
    + left. apply list_elem_of_fmap. exists loc. split; [done|]. congruence.
    + right. exists qs. split; [|done]. by rewrite lookup_insert_ne.
  - intros loc k Hreg. apply g_open0. right. destruct Hreg as [Hin|(qs&Hqs&Hin)].
    + apply list_elem_of_fmap in Hin as (l&[= -> ->]&Hin). by exists ps.
    + apply lookup_insert_Some in Hqs as [[_ ?]|[_ Hqs]]; [done|]. by exists qs.
  - intros k qs Hk' [[_ ?]|[_ Hqs]]%lookup_insert_Some; [done|]. by eapply g_nodup0.
  - split.
    + apply NoDup_fmap_2; [intros x y; congruence|]. by eapply g_nodup0.
    + intros k loc (l&[= -> ->]&Hin)%list_elem_of_fmap. split; [done|]. exists o. by rewrite lookup_insert_eq.
  - intros w. destruct (decide (w = v)) as [->|Hne]; [naive_solver|]. rewrite (Hp w Hne), <-g_jobs0, elem_of_cons. naive_solver.
  - intros w o' [[<- [= <-]]|[_ Hw']]%lookup_insert_Some; [done|auto].
  - apply Hp; [done|]. done.
  - intros w Hw'. destruct (decide (w = v)) as [->|Hne]; [done|]. apply g_path0. by apply Hp.
  - intros w [x Hx]. apply g_reach0. apply lookup_insert_Some in Hx as [[<- _]|[_ Hx]]; [by rewrite Hps|by rewrite Hx].
  - intros w Hw'%g_seen0. apply lookup_insert_is_Some'. by right.
Qed.

(** The next child of the node [p]: its result, if it is known, or a slot to wait for it. *)
Definition add_slot (c : Children) (o : option Out) : Children :=
  Build_Children (context c) (children c ++ [o]) (if is_none o then children_left c + 1 else children_left c).

Section enqueue.
Context (sh : Shape) (wt : Waits) (js : list Job) (p : In) (c : Children) (kids : list In) (k : In).
Context (Hg : ginv (Some p) [] sh wt js) (Hc : wt !! p = Some c) (Hu : unfold_ p = Ok (context c, kids)).
Context (Hk : kids !! length (children c) = Some k) (n : nat) (Hcut : cut !! p = Some n) (Hroom : length (children c) < n).
#[local] Abbreviation here := (Build_NodeLocation p (length (children c))).

Lemma is_open_add o l k' :
  is_open (<[p := add_slot c o]> wt) l k' ↔ is_open wt l k' ∨ (o = None ∧ l = here ∧ k' = k).
Proof.
  destruct (decide (node_index l = p)) as [Hn|Hn].
  - unfold is_open. rewrite Hn, lookup_insert_eq. split.
    + intros (c'&ctx&kids'&[= <-]&Hs&Hu'&Hk'). rewrite Hu in Hu'. simplify_eq/=.
      apply lookup_app_Some in Hs as [Hs|[Hlen Hs]]; [left; by exists c, (context c), kids'|].
      apply list_lookup_singleton_Some in Hs as [Hz ->]. right. split; [done|].
      assert (child_index l = length (children c)) as Hi by lia. split; [|congruence].
      destruct l. simpl in *. by subst.
    + intros [(c'&ctx&kids'&Hc'&Hs&Hu'&Hk')|(->&->&->)].
      * assert (c' = c) as -> by congruence. eexists _, ctx, kids'. split; [done|]. split; [|done]. simpl. by apply lookup_app_l_Some.
      * eexists _, (context c), kids. split; [done|]. simpl. rewrite lookup_app_r, Nat.sub_diag by done. done.
  - rewrite is_open_insert by done. split; [by left|]. intros [?|(_&->&_)]; [done|]. by simpl in Hn.
Qed.

Lemma wf_add o : (∀ out, o = Some out → eval cut k out) → wf_wait p (add_slot c o).
Proof.
  intros Ho. destruct Hg. destruct (g_wait0 _ _ Hc) as (_&kids'&Hu'&Hf&Hm). exists kids'. split; [done|].
  rewrite Hu in Hu'. simplify_eq. simpl. rewrite length_app, Nat.add_1_r. split.
  - erewrite take_S_r by exact Hk. apply Forall2_app; [done|]. by repeat constructor.
  - rewrite missing_app. destruct o; simpl; lia.
Qed.

Lemma ginv_add_done o : sh !! k = Some (inr o) → ginv (Some p) [] sh (<[p := add_slot c (Some o)]> wt) js.
Proof.
  intros Ho. pose proof (wf_add (Some o)) as Hwf. destruct Hg.
  assert (∀ l k', is_open (<[p := add_slot c (Some o)]> wt) l k' ↔ is_open wt l k') as Hop.
  { intros l k'. rewrite is_open_add. naive_solver. }
  split; try done.
  - intros q c' [[<- <-]|[Hne Hq]]%lookup_insert_Some; [|auto]. split; [by apply (g_wait0 p c)|].
    apply Hwf. intros out [= <-]. by apply g_done0.
  - intros q c' [[<- <-]|[Hne Hq]]%lookup_insert_Some; [done|auto].
  - intros l k'. rewrite Hop. auto.
  - intros l k'. rewrite Hop. auto.
  - intros v. rewrite g_jobs0, lookup_insert_None. naive_solver congruence.
  - intros v Hv. eapply rtc_subrel; [|by apply g_path0]. intros x y [i Hi]. exists i. by apply Hop.
Qed.

(** The child is pending, or is new. *)
Lemma ginv_add_wait qs js' :
  (sh !! k = Some (inl qs) ∧ js' = js) ∨ (sh !! k = None ∧ qs = [] ∧ js' = (k, BoundedTree.BoundedTree.UFut k) :: js) →
  ginv (Some p) [] (<[k := inl (qs ++ [here])]> sh) (<[p := add_slot c None]> wt) js'.
Proof.
  intros Hcase. pose proof (wf_add None) as Hwf. destruct Hg.
  assert (∀ v, pending (<[k := inl (qs ++ [here])]> sh) v ↔ v = k ∨ pending sh v) as Hp.
  { intros v. unfold pending. destruct (decide (k = v)) as [<-|Hne]; [rewrite lookup_insert_eq; naive_solver|].
    rewrite lookup_insert_ne by done. naive_solver. }
  destruct (g_wait0 _ _ Hc) as [Hpp _].
  assert (∀ l, l ∈ qs → registered sh [] l k) as Hqs.
  { intros l Hl. right. destruct Hcase as [[? _]|(_&->&_)]; [by exists qs|by apply not_elem_of_nil in Hl]. }
  assert (¬ is_open wt here k) as Hfresh.
  { intros (c'&ctx&kids'&Hc'&Hs&_). simpl in *. rewrite Hc in Hc'. simplify_eq.
    apply lookup_lt_Some in Hs. lia. }
  assert (∀ l k', registered (<[k := inl (qs ++ [here])]> sh) [] l k' ↔ registered sh [] l k' ∨ (l = here ∧ k' = k)) as Hreg.
  { intros l k'. unfold registered at 1. destruct (decide (k' = k)) as [->|Hne].
    - rewrite lookup_insert_eq. split.
      + intros [?|(?&[= <-]&[?|?%list_elem_of_singleton]%elem_of_app)]; [by left; left|left; by apply Hqs|by right].
      + intros [[?|(ps&Hps&Hl)]|[-> _]]; [by left|right|right; eexists; split; [done|]; set_solver].
        eexists. split; [done|]. destruct Hcase as [[Hk' _]|(Hk'&_)]; [|congruence].
        rewrite Hk' in Hps. simplify_eq. set_solver.
    - rewrite lookup_insert_ne by done. unfold registered. naive_solver. }
  split.
  - intros q c' [[<- <-]|[Hne Hq]]%lookup_insert_Some.
    + split; [apply Hp; by right|by apply Hwf].
    + destruct (g_wait0 _ _ Hq). split; [apply Hp; by right|done].
  - intros q c' [[<- <-]|[Hne Hq]]%lookup_insert_Some; [done|auto].
  - intros l k' [Hl|(_&->&->)]%is_open_add; apply Hreg; [by left; apply g_registered0|by right].
  - intros l k' [Hl|[-> ->]]%Hreg; rewrite is_open_add; [|right; by right].
    destruct (g_open0 _ _ Hl); [by left|right; by left].
  - intros k' ps Hne Hps. apply lookup_insert_Some in Hps as [[<- [= <-]]|[_ Hps]]; [|by eapply g_nodup0].
    apply NoDup_app. split; [|split; [|apply NoDup_singleton]].
    + destruct Hcase as [[? _]|(_&->&_)]; [by eapply g_nodup0|constructor].
    + intros l Hl ->%list_elem_of_singleton. destruct (g_open0 _ _ (Hqs _ Hl)) as [[_ ?]|?]; done.
  - split; [constructor|]. intros ?? []%not_elem_of_nil.
  - destruct Hcase as [[_ ->]|(Hk'&_&->)]; [done|]. simpl. apply NoDup_cons. split; [|done].
    intros [[ps Hps] _]%g_jobs0. congruence.
  - intros v. rewrite Hp, lookup_insert_None.
    destruct Hcase as [[Hk' ->]|(Hk'&_&->)]; [|simpl; rewrite elem_of_cons]; rewrite g_jobs0.
    + split; [naive_solver congruence|]. intros [[->|?] [??]]; [split; [by exists qs|done]|done].
    + assert (wt !! k = None) as Hwk.
      { destruct (wt !! k) as [ck|] eqn:Hck; [|done]. destruct (g_wait0 _ _ Hck) as [[ps Hps] _]. congruence. }
      assert (p ≠ k) as Hpk by (intros ->; congruence). naive_solver congruence.
  - destruct Hcase as [[_ ->]|(Hk'&_&->)]; [done|]. constructor; [|done]. split; [done|].
    apply eq_None_not_Some. intros Hs%g_seen0. rewrite Hk' in Hs. by destruct Hs.
  - intros v o [[_ ?]|[_ Hv]]%lookup_insert_Some; [done|auto].
  - apply Hp. by right.
  - assert (∀ x y, blocks wt x y → blocks (<[p := add_slot c None]> wt) x y) as Hb.
    { intros x y [i Hi]. exists i. apply is_open_add. by left. }
    intros v [->|Hv]%Hp; [|eapply rtc_subrel; [exact Hb|by apply g_path0]].
    eapply rtc_r; [eapply rtc_subrel; [exact Hb|by apply g_path0]|].
    exists (length (children c)). apply is_open_add. by right.
  - intros v Hv. destruct (decide (v = k)) as [->|Hne]; [|rewrite lookup_insert_ne in Hv by done; auto].
    eapply rtc_r; [apply (g_reach0 p); destruct Hpp as [ps Hps]; by rewrite Hps|].
    exists (context c), kids, n. split_and!; [done..|]. apply (list_elem_of_lookup_2 _ (length (children c))).
    by rewrite lookup_take_lt.
  - intros v Hv%g_seen0. apply lookup_insert_is_Some'. by right.
Qed.
End enqueue.

(** When the root folds, nothing else is left. *)
Lemma dag_ginv_root sh wt js fut : ginv None [] sh wt ((init, fut) :: js) → js = [].
Proof.
  intros []. destruct (g_jobs0 init) as [[_ Hw] _]; [by left|].
  destruct js as [|[v fut'] js]; [done|]. exfalso. simpl in *.
  assert (pending sh v) as Hv by (apply g_jobs0; set_solver).
  apply NoDup_cons in g_jobs_nodup0 as [Hnin _]. destruct (g_path0 v Hv) as [v|v y z [i (c&ctx&kids&Hc&_)] _]; [set_solver|].
  simpl in Hc. congruence.
Qed.

(** When no job is left, every pending value waits for another one. *)
Lemma ginv_waits sh wt v : ginv None [] sh wt [] → pending sh v → ∃ k, kept cut v k ∧ pending sh k.
Proof.
  intros [] Hv. destruct (wt !! v) as [c|] eqn:Hc.
  - destruct (g_wait0 _ _ Hc) as (_&kids&Hu&Hf&Hm). destruct (g_complete0 _ _ Hc) as [Hpos Hcut]; [done|].
    destruct (missing_pos (children c)) as [i Hi]; [lia|].
    destruct (Forall2_lookup_r _ _ _ _ _ Hf Hi) as (k&Hk&_). exists k. split.
    { exists (context c), kids, (length (children c)). split_and!; [done..|]. by eapply list_elem_of_lookup_2. }
    apply lookup_take_Some in Hk as [Hk _].
    destruct (g_registered0 (Build_NodeLocation v i) k) as [Hin|(ps&Hps&_)]; [by exists c, (context c), kids| |by exists ps].
    by apply not_elem_of_nil in Hin.
  - assert (v ∈ ([] : list Job).*1) as Hin by (by apply g_jobs0). by apply not_elem_of_nil in Hin.
Qed.

(** So a walk among them comes back to where it has been. *)
Lemma walk_cycle sh wt (seen : gset In) v :
  ginv None [] sh wt [] → pending sh v → (∀ u, u ∈ seen → tc (kept cut) u v) →
  ∃ k, rtc (kept cut) v k ∧ tc (kept cut) k k.
Proof.
  intros Hg. remember (size (dom sh ∖ seen)) as m eqn:Hm. revert seen v Hm.
  induction (lt_wf m) as [m _ IH]. intros seen v -> Hv Hseen.
  destruct (ginv_waits sh wt v Hg Hv) as (k&Hvk&Hk).
  destruct (decide (v ∈ seen)) as [Hin|Hnin]; [exists v; split; [done|by apply Hseen]|].
  destruct (IH (size (dom sh ∖ (seen ∪ {[v]})))) with (seen := seen ∪ {[v]}) (v := k) as (u&Hku&Hu); [|done|done| |].
  - apply subset_size. destruct Hv as [ps Hps]. assert (v ∈ dom sh) by (by eapply elem_of_dom_2). set_solver.
  - intros u [Hu|Hu]%elem_of_union; [by eapply tc_r; [apply Hseen|]|]. apply elem_of_singleton in Hu as ->. by apply tc_once.
  - exists u. split; [by eapply rtc_l|done].
Qed.

Lemma ginv_stuck sh wt : ginv None [] sh wt [] → ∃ k, rtc (kept cut) init k ∧ tc (kept cut) k k.
Proof. intros Hg. apply (walk_cycle sh wt ∅); [done|by destruct Hg|set_solver]. Qed.

Lemma fails_reach v e : rtc (kept cut) init v → fails cut v e → fails cut init e.
Proof. induction 1 as [x|x y z Hxy _ IH]; [done|]. intros Hf. eapply fails_child; [exact Hxy|by apply IH]. Qed.
End invariant.

(** Starting on the children of an unfolded node, of which the first [n] are kept. *)
Lemma wf_wait_mono cut cut' p c : cut ⊆ cut' → wf_wait cut p c → wf_wait cut' p c.
Proof.
  intros Hc (kids&Hu&Hf&Hm). exists kids. split_and!; [done| |done]. eapply Forall2_impl; [exact Hf|].
  intros k o Ho out Hout. eapply eval_mono; [exact Hc|by apply Ho].
Qed.

Lemma job_ok_cut cut v n j : cut !! v = None → j.1 ≠ v → job_ok cut j → job_ok (<[v := n]> cut) j.
Proof.
  intros Hv Hj. destruct j as [w [v'|ctx outs]]; simpl in *.
  - intros [-> Hw]. split; [done|]. by rewrite lookup_insert_ne.
  - intros (kids&m&Hu&Hm&Hk). exists kids, m. unfold complete. rewrite lookup_insert_ne by done. split_and!; [done..|].
    eapply Forall2_impl; [exact Hk|]. intros x y. apply eval_mono. by apply insert_subseteq.
Qed.

Lemma ginv_unfold init cut n sh wt js v ctx kids :
  ginv init cut None [] sh wt ((v, BoundedTree.BoundedTree.UFut v) :: js) → unfold_ v = Ok (ctx, kids) →
  ginv init (<[v := n]> cut) (Some v) [] sh (<[v := Build_Children ctx [] 0]> wt) js.
Proof.
  intros [] Hu. assert (pending sh v ∧ wt !! v = None) as [Hp Hw] by (apply g_jobs0; by left).
  assert (∀ loc k, is_open (<[v:=Build_Children ctx [] 0]> wt) loc k ↔ is_open wt loc k) as Ho.
  { intros loc k. destruct (decide (node_index loc = v)) as [Hl|]; [|by apply is_open_insert].
    unfold is_open. rewrite Hl, lookup_insert_eq. split; [intros (c&?&?&?&?&_); by simplify_eq/=|].
    intros (c&?&?&?&_). congruence. }
  simpl in *. apply NoDup_cons in g_jobs_nodup0 as [Hnin Hnd]. apply Forall_cons in g_job_ok0 as [[_ Hcv] Hjs].
  assert (cut ⊆ <[v := n]> cut) as Hcut by by apply insert_subseteq. split; try done.
  - intros p c [[<- <-]|[??]]%lookup_insert_Some.
    + split; [done|]. exists kids. by repeat split.
    + destruct (g_wait0 p c) as [? ?]; [done|]. split; [done|by eapply wf_wait_mono].
  - intros p c [[<- <-]|[Hne Hpc]]%lookup_insert_Some; [done|]. intros _. destruct (g_complete0 p c) as [? ?]; [done..|].
    split; [done|]. by eapply lookup_weaken.
  - intros loc k. rewrite Ho. auto.
  - intros loc k. rewrite Ho. auto.
  - intros w. pose proof (g_jobs0 w) as Hj. rewrite elem_of_cons in Hj. rewrite lookup_insert_None.
    split; [|naive_solver]. intros Hin. destruct Hj as [Hj _]. destruct Hj as [??]; [by right|]. naive_solver.
  - rewrite Forall_forall in Hjs |- *. intros j Hj. apply job_ok_cut; [done| |by apply Hjs].
    intros Hjv. apply Hnin. rewrite <-Hjv. by apply list_elem_of_fmap_2.
  - intros w o Hwo. eapply eval_mono; [exact Hcut|by apply g_done0].
  - intros w Hw'. eapply rtc_subrel; [|by apply g_path0]. intros x y [i Hi]. exists i. by apply Ho.
  - intros w Hw'. eapply rtc_subrel; [|by apply g_reach0]. intros x y. by apply kept_mono.
  - intros w [<-|[_ Hs]]%lookup_insert_is_Some; [destruct Hp as [ps Hps]; by rewrite Hps|by apply g_seen0].
Qed.

(** ** The execution tree *)

Definition shapes (t : gmap In Node) : Shape := shape <$> t.
Definition waiting (t : gmap In Node) : Waits := omap wait t.

Lemma dag_shapes_insert k n t : shapes (<[k := n]> t) = <[k := shape n]> (shapes t).
Proof. apply fmap_insert. Qed.

Lemma dag_shapes_same k n m t : t !! k = Some m → shape n = shape m → shapes (<[k := n]> t) = shapes t.
Proof.
  intros Hk Hn. rewrite dag_shapes_insert. apply insert_id. unfold shapes. rewrite lookup_fmap, Hk. by rewrite Hn.
Qed.

Lemma waiting_same k n t : t !! k ≫= wait = wait n → waiting (<[k := n]> t) = waiting t.
Proof.
  intros Hk. apply map_eq. intros i. unfold waiting. rewrite !lookup_omap.
  destruct (decide (k = i)) as [<-|]; [by rewrite lookup_insert_eq, Hk|by rewrite lookup_insert_ne].
Qed.

Lemma waiting_store k ps c t : waiting (<[k := NPending ps (Some c)]> t) = <[k := c]> (waiting t).
Proof. by apply omap_insert_Some. Qed.

Lemma waiting_clear k n t : wait n = None → waiting (<[k := n]> t) = delete k (waiting t).
Proof. intros Hn. by apply omap_insert_None. Qed.

Lemma pending_lookup t v : pending (shapes t) v → ∃ ps, t !! v = Some (NPending ps (waiting t !! v)).
Proof.
  intros [ps Hps]. exists ps. unfold shapes, waiting in *. rewrite lookup_fmap in Hps. rewrite lookup_omap.
  destruct (t !! v) as [[qs w|o]|]; by simplify_eq/=.
Qed.

Lemma done_lookup t v o : shapes t !! v = Some (inr o) → t !! v = Some (NDone o).
Proof. unfold shapes. rewrite lookup_fmap. destruct (t !! v) as [[]|]; intros; by simplify_eq/=. Qed.

(** ** The operations *)

Section steps.
Context (scheduled_max : nat).
Context `{FU : !FuturesUnordered Job} `{BuildMode}.
#[local] Abbreviation DAG := (BoundedTraversalDAG (In:=In) (Out:=Out) (OutCtx:=OutCtx)).
Implicit Types s : DAG.

Definition jobs s : list Job := fu_jobs (scheduled s) ++ unscheduled s.
Definition state_inv cut cur owed s (wt : Waits) : Prop := ginv (init s) cut cur owed (shapes (execution_tree s)) wt (jobs s).

Definition job_work (j : Job) : nat := match j.2 with BoundedTree.BoundedTree.UFut _ => 2 | BoundedTree.BoundedTree.FFut _ _ => 1 end.
Definition jobs_work js : nat := sum_list_with job_work js.

Lemma jobs_work_perm js js' : js ≡ₚ js' → jobs_work js = jobs_work js'.
Proof. induction 1; simpl; lia. Qed.

Lemma jobs_work_cons s v (fut : Either2 In Out OutCtx) :
  jobs_work (jobs (set_queue s ((v, fut) :: unscheduled s))) = job_work (v, fut) + jobs_work (jobs s).
Proof.
  rewrite (jobs_work_perm _ ((v, fut) :: jobs s)); [done|]. unfold jobs. simpl. by rewrite <-Permutation_middle.
Qed.

(** What the operations keep. *)
Definition frame s s' : Prop := scheduled s' = scheduled s ∧ init s' = init s.

(** A value is added to the tree together with its job. *)
Lemma enqueue_unfold_ok cut n s p c kids k :
  state_inv cut (Some p) [] s (<[p := c]> (waiting (execution_tree s))) → cut !! p = Some n → length (children c) < n →
  unfold_ p = Ok (context c, kids) → kids !! length (children c) = Some k →
  ∃ o s', enqueue_unfold s (Build_NodeLocation p (length (children c))) k = (o, s') ∧ frame s s' ∧
    state_inv cut (Some p) [] s' (<[p := add_slot c o]> (waiting (execution_tree s'))) ∧
    waiting (execution_tree s') = waiting (execution_tree s) ∧
    size (execution_tree s) ≤ size (execution_tree s') ≤ size (execution_tree s) + 1 ∧
    jobs_work (jobs s') + 2 * size (execution_tree s) = jobs_work (jobs s) + 2 * size (execution_tree s').
Proof.
  intros Hg Hcut Hroom Hu Hk. unfold enqueue_unfold, state_inv in *. destruct (execution_tree s !! k) as [[ps w|r]|] eqn:Htk.
  - eexists _, _. split; [reflexivity|]. split; [done|].
    assert (waiting (<[k := NPending (ps ++ [Build_NodeLocation p (length (children c))]) w]> (execution_tree s))
      = waiting (execution_tree s)) as Hw by (apply waiting_same; by rewrite Htk).
    simpl. rewrite Hw, map_size_insert_Some by done. split; [|repeat split; unfold jobs; simpl; lia].
    rewrite dag_shapes_insert. rewrite <-(insert_insert_eq (waiting (execution_tree s)) p (add_slot c None) c).
    eapply (ginv_add_wait _ _ _ _ _ p c kids k); [exact Hg|apply lookup_insert_eq|done..|].
    left. split; [|done]. unfold shapes. by rewrite lookup_fmap, Htk.
  - eexists _, _. split; [reflexivity|]. split; [done|]. split; [|repeat split; lia].
    rewrite <-(insert_insert_eq (waiting (execution_tree s)) p (add_slot c (Some r)) c).
    eapply (ginv_add_done _ _ _ _ _ p c kids k); [exact Hg|apply lookup_insert_eq|done..|].
    unfold shapes. by rewrite lookup_fmap, Htk.
  - eexists _, _. split; [reflexivity|]. split; [done|].
    assert (waiting (<[k := NPending [Build_NodeLocation p (length (children c))] None]> (execution_tree s))
      = waiting (execution_tree s)) as Hw by (apply waiting_same; by rewrite Htk).
    assert (jobs_work (jobs (set_queue (set_tree s (<[k:=NPending [Build_NodeLocation p (length (children c))] None]> (execution_tree s)))
      ((k, BoundedTree.BoundedTree.UFut k) :: unscheduled s))) = 2 + jobs_work (jobs s)) as Hjw by apply (jobs_work_cons s k).
    simpl in *. rewrite Hw, map_size_insert_None, Hjw by done. split; [|repeat split; lia].
    rewrite dag_shapes_insert. rewrite <-(insert_insert_eq (waiting (execution_tree s)) p (add_slot c None) c).
    eapply dag_ginv_perm; [|eapply (ginv_add_wait _ _ _ _ _ p c kids k) with (qs := []); [exact Hg|apply lookup_insert_eq|done..|]].
    + unfold jobs. simpl. by rewrite <-Permutation_middle.
    + right. split; [|done]. unfold shapes. by rewrite lookup_fmap, Htk.
Qed.

Definition add_slots (c : Children) (outs : list (option Out)) (left_ : nat) : Children :=
  Build_Children (context c) (children c ++ outs) (children_left c + left_).

Lemma enqueue_children_ok cut n s p c kids ks :
  state_inv cut (Some p) [] s (<[p := c]> (waiting (execution_tree s))) → cut !! p = Some n → length (children c) + length ks ≤ n →
  unfold_ p = Ok (context c, kids) → ks `prefix_of` drop (length (children c)) kids →
  ∃ s' outs left_, enqueue_children s p (length (children c)) ks = (s', outs, left_) ∧ frame s s' ∧
    length outs = length ks ∧
    state_inv cut (Some p) [] s' (<[p := add_slots c outs left_]> (waiting (execution_tree s'))) ∧
    waiting (execution_tree s') = waiting (execution_tree s) ∧
    size (execution_tree s) ≤ size (execution_tree s') ≤ size (execution_tree s) + length ks ∧
    jobs_work (jobs s') + 2 * size (execution_tree s) = jobs_work (jobs s) + 2 * size (execution_tree s').
Proof.
  intros Hg Hcut Hn. revert s c Hg Hn. induction ks as [|k ks IH]; intros s c Hg Hn Hu Hks; simpl in Hn.
  - eexists s, [], 0. split; [done|]. split; [done|]. split; [done|].
    assert (add_slots c [] 0 = c) as -> by (destruct c; unfold add_slots; simpl; by rewrite app_nil_r, Nat.add_0_r).
    split; [done|]. split; [done|]. simpl. lia.
  - destruct Hks as [rest Hks]. simpl in Hks.
    assert (kids !! length (children c) = Some k) as Hk.
    { rewrite <-(Nat.add_0_r (length _)), <-lookup_drop, Hks. done. }
    destruct (enqueue_unfold_ok cut n s p c kids k Hg Hcut ltac:(lia) Hu Hk) as (o&s1&Heq&[Hf1 Hi1]&Hg1&Hw1&Hsz1&Hjw1).
    destruct (IH s1 (add_slot c o) Hg1) as (s2&outs&left_&Heq2&[Hf2 Hi2]&Hlen&Hg2&Hw2&Hsz2&Hjw2); [simpl; rewrite length_app; simpl; lia|done| |].
    { exists rest. simpl. by rewrite length_app, <-drop_drop, Hks. }
    simpl. rewrite Heq. simpl in Heq2. rewrite length_app in Heq2. simpl in Heq2. rewrite Heq2.
    eexists _, _, _. split; [reflexivity|]. split; [split; congruence|]. split; [simpl; lia|].
    split; [|split; [congruence|simpl; lia]].
    replace (add_slots c (o :: outs) (if is_none o then left_ + 1 else left_)) with (add_slots (add_slot c o) outs left_); [done|].
    unfold add_slots, add_slot. simpl. f_equal; [by rewrite <-app_assoc|]. destruct o; simpl; lia.
Qed.

Lemma state_inv_job cut s v fut cur owed wt js :
  ginv (init s) cut cur owed (shapes (execution_tree s)) wt ((v, fut) :: js) → js = jobs s →
  state_inv cut cur owed (set_queue s ((v, fut) :: unscheduled s)) wt.
Proof.
  intros Hg ->. unfold state_inv. eapply dag_ginv_perm; [|exact Hg]. unfold jobs. simpl. by rewrite <-Permutation_middle.
Qed.

Definition limit_ok s : Prop := ∀ limit, unfold_limit = Some limit → size (execution_tree s) ≤ 1 `max` limit.

Lemma limit_children_ok s kids :
  let few := limit_children unfold_limit s kids in
  few `prefix_of` kids ∧
  (length few < length kids → ∃ limit, unfold_limit = Some limit ∧ limit ≤ length few + size (execution_tree s)) ∧
  (∀ limit, unfold_limit = Some limit → length few ≤ limit - size (execution_tree s)).
Proof.
  unfold limit_children. cbv zeta. destruct unfold_limit as [l|]; [|split; [done|split; [lia|done]]].
  split; [|split].
  - exists (drop (l - size (execution_tree s)) kids). by rewrite take_drop.
  - rewrite length_take. intros Hlt. exists l. split; [done|lia].
  - intros limit [= ->]. rewrite length_take. lia.
Qed.

Lemma dag_process_unfold_ok cut s v ctx kids :
  ginv (init s) cut None [] (shapes (execution_tree s)) (waiting (execution_tree s))
    ((v, BoundedTree.BoundedTree.UFut v) :: jobs s) →
  unfold_ v = Ok (ctx, kids) → limit_ok s → cuts_ok cut (size (execution_tree s)) →
  ∃ s' cut', process_unfold unfold_limit s v ctx kids = ret s' ∧ frame s s' ∧
    state_inv cut' None [] s' (waiting (execution_tree s')) ∧ limit_ok s' ∧ cuts_ok cut' (size (execution_tree s')) ∧
    jobs_work (jobs s') + size (waiting (execution_tree s')) + 2 * size (execution_tree s) =
      1 + jobs_work (jobs s) + size (waiting (execution_tree s)) + 2 * size (execution_tree s').
Proof.
  intros Hg Hu Hlim Hcuts.
  assert (waiting (execution_tree s) !! v = None) as Hw.
  { destruct Hg. apply g_jobs0. by left. }
  set (n := length (limit_children unfold_limit s kids)). set (cut' := <[v := n]> cut).
  pose proof (ginv_unfold _ _ n _ _ _ _ _ _ Hg Hu) as Hg1.
  destruct (limit_children_ok s kids) as (Hpre&Hkept&Hsome).
  destruct (enqueue_children_ok cut' n s v (Build_Children ctx [] 0) kids (limit_children unfold_limit s kids) Hg1)
    as (s'&outs&left_&Heq&Hfr&Hlen&Hg2&Hw2&Hsz&Hjw); [apply lookup_insert_eq|done|done|done|].
  assert (complete cut' v (length ([] ++ outs))) as Hcomp by (unfold complete, cut'; rewrite lookup_insert_eq; simpl; by rewrite Hlen).
  assert (limit_ok s') as Hlim'.
  { intros l Hl. specialize (Hlim l Hl). specialize (Hsome l Hl). lia. }
  assert (cuts_ok cut' (size (execution_tree s'))) as Hcuts'.
  { intros w m [[<- <-]|[_ Hwm]]%lookup_insert_Some.
    - exists ctx, kids. split_and!; [done|by apply prefix_length|]. intros Hlt. destruct (Hkept Hlt) as (limit&Hl&Hll).
      exists limit. split; [done|]. unfold n. lia.
    - by eapply cuts_ok_mono; [|exact Hcuts|]; [lia|]. }
  assert (pending (shapes (execution_tree s')) v) as Hp.
  { destruct Hg2. eapply g_wait0. apply lookup_insert_eq. }
  apply pending_lookup in Hp as [ps Hps]. rewrite Hw2, Hw in Hps.
  unfold process_unfold. simpl in Heq. rewrite Heq. case_decide as Hl.
  - rewrite Hps. eexists _, cut'. split; [reflexivity|]. split; [done|].
    unfold state_inv, limit_ok. simpl. rewrite waiting_store. erewrite dag_shapes_same, map_size_insert_Some by done.
    unfold jobs in *. simpl. rewrite map_size_insert_None by congruence. split; [|split; [done|split; [done|rewrite Hw2; lia]]].
    eapply ginv_close; [exact Hg2|apply lookup_insert_eq|simpl; lia|done].
  - assert (left_ = 0) as -> by lia.
    eexists _, cut'. split; [reflexivity|]. split; [done|]. split; [|split; [done|split; [done|]]].
    + apply (ginv_finish _ _ _ _ _ _ _ (add_slots (Build_Children ctx [] 0) outs 0)) in Hg2; [|apply lookup_insert_eq|done..].
      rewrite delete_insert_id in Hg2 by congruence. by eapply state_inv_job.
    + unfold enqueue_fold. rewrite jobs_work_cons. simpl. rewrite Hw2. lia.
Qed.

Lemma update_location_ok cut s owed k loc r :
  state_inv cut None ((k, loc) :: owed) s (waiting (execution_tree s)) → shapes (execution_tree s) !! k = Some (inr r) →
  ∃ s', update_location s loc r = ret s' ∧ frame s s' ∧
    state_inv cut None owed s' (waiting (execution_tree s')) ∧
    shapes (execution_tree s') = shapes (execution_tree s) ∧ size (execution_tree s') = size (execution_tree s) ∧
    jobs_work (jobs s') + size (waiting (execution_tree s')) = jobs_work (jobs s) + size (waiting (execution_tree s)).
Proof.
  intros Hg Hr. destruct (dag_ginv_fill _ _ _ _ _ _ _ _ _ Hg Hr) as (c&Hc&Hp&Hs&Hpos&Hcomp&Hg').
  apply pending_lookup in Hp as [ps Hps]. rewrite Hc in Hps.
  unfold update_location. rewrite Hps. simpl. unfold vec_index. rewrite Hs. simpl.
  assert (debug_assert true = ret ()) as -> by (unfold debug_assert, rust_assert; by destruct (debug_assertions)).
  rewrite count_sub_le by lia. simpl. case_decide as Hl.
  - eexists. split; [reflexivity|]. split; [done|].
    set (s1 := set_tree s (<[node_index loc := NPending ps None]> (execution_tree s))).
    assert (shapes (execution_tree s1) = shapes (execution_tree s)) as Hsh by (by eapply dag_shapes_same).
    assert (waiting (execution_tree s1) = delete (node_index loc) (waiting (execution_tree s))) as Hwt by (by apply waiting_clear).
    assert (size (execution_tree s1) = size (execution_tree s)) as Hsz by (by simpl; rewrite map_size_insert_Some).
    split; [|split; [exact Hsh|split; [exact Hsz|]]].
    + apply (state_inv_job cut s1) with (js := jobs s); [|done]. unfold enqueue_fold. cbn [execution_tree set_queue].
      rewrite Hsh, Hwt.
      eapply ginv_finish in Hg'; [|apply lookup_insert_eq|done|simpl; by rewrite length_insert].
      by rewrite delete_insert_eq in Hg'.
    + unfold enqueue_fold. rewrite jobs_work_cons. change (jobs s1) with (jobs s). cbn [execution_tree set_queue].
      rewrite Hwt, map_size_delete_Some by done. simpl.
      destruct (size (waiting (execution_tree s))) eqn:Hz; [|simpl; lia].
      apply map_size_empty_inv in Hz. by rewrite Hz in Hc.
  - eexists. split; [reflexivity|]. split; [done|]. unfold state_inv. simpl.
    rewrite waiting_store. erewrite dag_shapes_same by done.
    rewrite !map_size_insert_Some by done. split; [|done].
    eapply ginv_close; [exact Hg'|apply lookup_insert_eq|simpl; lia|]. simpl. by rewrite length_insert.
Qed.

Lemma update_locations_ok cut s k locs r :
  state_inv cut None (pair k <$> locs) s (waiting (execution_tree s)) → shapes (execution_tree s) !! k = Some (inr r) →
  ∃ s', update_locations s locs r = ret s' ∧ frame s s' ∧
    state_inv cut None [] s' (waiting (execution_tree s')) ∧ size (execution_tree s') = size (execution_tree s) ∧
    jobs_work (jobs s') + size (waiting (execution_tree s')) = jobs_work (jobs s) + size (waiting (execution_tree s)).
Proof.
  revert s. induction locs as [|loc locs IH]; intros s Hg Hr; [by exists s|].
  destruct (update_location_ok cut s _ _ _ _ Hg Hr) as (s1&Heq&[Hf1 Hi1]&Hg1&Hsh1&Hsz1&Hjw1).
  destruct (IH s1 Hg1) as (s2&Heq2&[Hf2 Hi2]&Hg2&Hsz2&Hjw2); [by rewrite Hsh1|].
  simpl. rewrite Heq. simpl. exists s2. split; [done|]. split; [split; congruence|]. split; [done|]. split; [congruence|lia].
Qed.

Lemma dag_process_fold_ok cut s v ctx outs o :
  ginv (init s) cut None [] (shapes (execution_tree s)) (waiting (execution_tree s))
    ((v, BoundedTree.BoundedTree.FFut ctx outs) :: jobs s) →
  fold_ ctx outs = Ok o → v ≠ init s →
  ∃ s', process_fold s v o = ret s' ∧ frame s s' ∧
    state_inv cut None [] s' (waiting (execution_tree s')) ∧ size (execution_tree s') = size (execution_tree s) ∧
    jobs_work (jobs s') + size (waiting (execution_tree s')) = jobs_work (jobs s) + size (waiting (execution_tree s)).
Proof.
  intros Hg Hf Hv.
  assert (pending (shapes (execution_tree s)) v ∧ waiting (execution_tree s) !! v = None) as [Hp Hw].
  { destruct Hg. apply g_jobs0. by left. }
  pose proof (pending_lookup _ _ Hp) as [ps Hps]. rewrite Hw in Hps.
  unfold process_fold. rewrite Hps. simpl.
  set (s1 := set_tree s (<[v := NDone o]> (execution_tree s))).
  assert (waiting (execution_tree s1) = waiting (execution_tree s)) as Hwt by (apply waiting_same; by rewrite Hps).
  assert (size (execution_tree s1) = size (execution_tree s)) as Hsz by (by simpl; rewrite map_size_insert_Some).
  destruct (update_locations_ok cut s1 v ps o) as (s2&Heq&[Hf2 Hi2]&Hg2&Hsz2&Hjw2).
  - unfold state_inv. rewrite Hwt. simpl. rewrite dag_shapes_insert. eapply ginv_done; [exact Hg|done| |done].
    unfold shapes. by rewrite lookup_fmap, Hps.
  - simpl. by rewrite dag_shapes_insert, lookup_insert_eq.
  - exists s2. split; [done|]. split; [done|]. split; [done|]. split; [congruence|]. by rewrite <-Hwt.
Qed.

(** ** Whole runs *)

Section runs.
Context (root : In).

Definition answer (r : result (option Out) E) : Prop :=
  ∃ cut X, truncates root cut X ∧
    match r with
    | Ok (Some o) => eval cut root o
    | Ok None => ∃ v, rtc (kept cut) root v ∧ tc (kept cut) v v
    | Err e => fails cut root e
    end.

Definition bounded s : Prop := fu_len (scheduled s) ≤ scheduled_max ∧ limit_ok s.

Record inv s : Prop := {
  inv_root : init s = root;
  inv_graph : ∃ cut, state_inv cut None [] s (waiting (execution_tree s)) ∧ cuts_ok cut (size (execution_tree s));
  inv_limit : limit_ok s;
  inv_max : length (fu_jobs (scheduled s)) ≤ scheduled_max;
}.

(** Unfolds and folds in progress, and waiting nodes, against the visited values. *)
Definition load s : nat := jobs_work (jobs s) + size (waiting (execution_tree s)).
Definition progress s s' : Prop :=
  scheduled_max = 0 ∨ load s' + 2 * size (execution_tree s) < load s + 2 * size (execution_tree s').

(** The values in the tree are those that the traversal visits. *)
Lemma ginv_truncates cut cur owed s wt js :
  ginv root cut cur owed (shapes (execution_tree s)) wt js → cuts_ok cut (size (execution_tree s)) → limit_ok s →
  truncates root cut (dom (execution_tree s)).
Proof.
  intros [] Hcuts Hlim.
  assert (∀ v, is_Some (shapes (execution_tree s) !! v) ↔ v ∈ dom (execution_tree s)) as Hdom.
  { intros v. unfold shapes. by rewrite lookup_fmap, fmap_is_Some, elem_of_dom. }
  split; try rewrite size_dom; try done.
  - intros v Hv%Hdom. by apply g_reach0.
  - intros v Hv%g_seen0. by apply Hdom.
Qed.

(** A completed job leaves a state of which it is the missing one. *)
Section completed.
Context (s : DAG) (v : In) (fut : Either2 In Out OutCtx) (cut : Cuts).
Context (Hroot : init s = root) (Hlim : limit_ok s) (Hmax : length (fu_jobs (scheduled s)) ≤ scheduled_max).
Context (Hg : ginv (init s) cut None [] (shapes (execution_tree s)) (waiting (execution_tree s)) ((v, fut) :: jobs s)).
Context (Hcuts : cuts_ok cut (size (execution_tree s))).

Lemma completed_reach : rtc (kept cut) root v ∧ job_ok cut (v, fut) ∧ truncates root cut (dom (execution_tree s)).
Proof.
  rewrite <-Hroot. split; [|split].
  - destruct Hg. destruct (g_jobs0 v) as [[[ps Hps] _] _]; [by left|]. apply g_reach0; by rewrite Hps.
  - destruct Hg. by apply Forall_cons in g_job_ok0 as [? _].
  - rewrite Hroot. rewrite Hroot in Hg. by eapply ginv_truncates.
Qed.

Lemma completed_fails e : fails cut v e → answer (Err e).
Proof. destruct completed_reach as (Hr&_&Ht). intros Hf. eexists cut, _. split; [exact Ht|]. by eapply fails_reach. Qed.

Lemma complete_unfold (w : world) v' :
  fut = BoundedTree.BoundedTree.UFut v' →
  ∃ c s', match unfold_ v' with
    | Err e => ret (Return (Ready (Err e)), s, w)
    | Ok (ctx, kids) => let! s := process_unfold unfold_limit s v ctx kids in ret (Continue, s, w)
    end = ret (c, s', w) ∧
    match c with
    | Return (Ready r) => answer r
    | Return Pending => False
    | Continue => inv s' ∧ load s' + 2 * size (execution_tree s) = 1 + load s + 2 * size (execution_tree s')
    end.
Proof.
  intros Hfut. destruct completed_reach as (_&Hj&_). rewrite Hfut in Hj. destruct Hj as [Hj _]. rewrite Hj.
  pose proof Hg as Hg'. rewrite Hfut, Hj in Hg'.
  destruct (unfold_ v) as [[ctx kids]|e] eqn:Hu.
  - destruct (dag_process_unfold_ok cut s v ctx kids Hg' Hu Hlim Hcuts) as (s'&cut'&->&[Hs Hi]&Hinv&Hlim'&Hcuts'&Hw).
    eexists _, _. split; [reflexivity|]. split; [split; [congruence|by exists cut'|done|by rewrite Hs]|]. unfold load. lia.
  - eexists _, _. split; [reflexivity|]. apply completed_fails. by apply fails_unfold.
Qed.

Lemma complete_fold (w : world) ctx outs :
  fut = BoundedTree.BoundedTree.FFut ctx outs →
  ∃ c s', (let r := fold_ ctx outs in
    if decide (v = init s) then
      let! _ := rust_assert (is_nil (unscheduled s)) in
      let! _ := rust_assert (fu_is_empty (scheduled s)) in
      ret (Return (Ready (match r with Ok out => Ok (Some out) | Err e => Err e end)), s, w)
    else
      match r with
      | Err e => ret (Return (Ready (Err e)), s, w)
      | Ok out => let! s := process_fold s v out in ret (Continue, s, w)
      end) = ret (c, s', w) ∧
    match c with
    | Return (Ready r) => answer r
    | Return Pending => False
    | Continue => inv s' ∧ load s' + 2 * size (execution_tree s) = load s + 2 * size (execution_tree s')
    end.
Proof.
  intros Hfut. destruct completed_reach as (Hr&Hj&Ht). rewrite Hfut in Hj. destruct Hj as (kids&n&Hu&Hn&Hk).
  assert (∀ e, fold_ ctx outs = Err e → answer (Err e)) as Hfail.
  { intros e He. apply completed_fails. by eapply fails_fold. }
  pose proof Hg as Hg'. rewrite Hfut in Hg'. cbv zeta. case_decide as Hv.
  - rewrite Hv in Hg'. pose proof (dag_ginv_root _ _ _ _ _ _ Hg') as Hnil.
    apply app_nil in Hnil as [Hf ->]. apply fu_is_empty_jobs in Hf. rewrite Hf. simpl.
    eexists _, _. split; [reflexivity|]. rewrite Hroot in Hv. rewrite Hv in Hu, Hn.
    destruct (fold_ ctx outs) as [o|e] eqn:Hfold; [|by apply Hfail]. eexists cut, _. split; [exact Ht|]. by econstructor.
  - destruct (fold_ ctx outs) as [o|e] eqn:Hfold.
    + destruct (dag_process_fold_ok cut s v ctx outs o Hg' Hfold Hv) as (s'&->&[Hs Hi]&Hinv&Hsz&Hw).
      eexists _, _. split; [reflexivity|]. split; [|unfold load; lia].
      split; [congruence|exists cut; split; [done|by rewrite Hsz]| |by rewrite Hs]. intros l Hl. rewrite Hsz. by apply Hlim.
    + eexists _, _. split; [reflexivity|]. by apply Hfail.
Qed.
End completed.

Lemma dag_poll_step_spec s w :
  inv s →
  ∃ c s' w', poll_step scheduled_max unfold_ fold_ unfold_limit s w = ret (c, s', w') ∧
    match c with
    | Return (Ready r) => answer r
    | Return Pending => inv s' ∧ load s' = load s ∧ size (execution_tree s') = size (execution_tree s)
    | Continue => inv s' ∧ progress s s'
    end.
Proof.
  intros [Hroot (cut&Hg&Hcuts) Hlim Hmax]. unfold poll_step.
  destruct (is_nil (unscheduled s) && fu_is_empty (scheduled s)) eqn:Hemp.
  { apply andb_true_iff in Hemp as [Hun Hsc]. apply fu_is_empty_jobs in Hsc.
    eexists _, _, _. split; [reflexivity|]. unfold state_inv in Hg. rewrite Hroot in Hg.
    eexists cut, _. split; [by eapply ginv_truncates|]. eapply ginv_stuck. unfold jobs in Hg.
    rewrite Hsc in Hg. destruct (unscheduled s); [exact Hg|done]. }
  rewrite fu_len_jobs, count_sub_le by done. cbn [exec_bind].
  pose proof (fu_drain_jobs (length (unscheduled s) `min` (scheduled_max - length (fu_jobs (scheduled s))))
    (unscheduled s) (scheduled s)) as Hdr.
  destruct (fu_drain _ _ _) as [f q]. destruct Hdr as [Hp Hlen]. rewrite length_take in Hlen.
  pose proof (fu_poll_next_spec f w) as Hpoll.
  destruct (fu_poll_next f w) as [[[[[v fut]|]|] f'] w']; cbn beta iota zeta.
  - set (s1 := {| init := init s; scheduled := f'; unscheduled := q; execution_tree := execution_tree s |}).
    assert (jobs s ≡ₚ (v, fut) :: jobs s1) as Hjs by (unfold jobs; by rewrite <-Hp, Hpoll).
    apply Permutation_length in Hpoll as Hl. simpl in Hl.
    assert (length (fu_jobs (scheduled s1)) ≤ scheduled_max) as Hmax' by (simpl; lia).
    assert (load s = job_work (v, fut) + load s1) as Hload.
    { unfold load. rewrite (jobs_work_perm _ _ Hjs). simpl. lia. }
    eapply dag_ginv_perm in Hg; [|exact Hjs]. change (init s) with (init s1) in Hg.
    destruct fut as [v'|ctx outs].
    + destruct (complete_unfold s1 v _ cut Hroot Hlim Hmax' Hg Hcuts w' v' eq_refl) as (c&s2&Heq&Hc).
      exists c, s2, w'. split; [exact Heq|]. destruct c as [[]|]; [done|done|]. destruct Hc as [Hi Hc].
      split; [done|]. right. cbn [execution_tree s1] in Hc. unfold job_work in Hload. simpl in Hload. lia.
    + destruct (complete_fold s1 v _ cut Hroot Hlim Hmax' Hg Hcuts w' ctx outs eq_refl) as (c&s2&Heq&Hc).
      exists c, s2, w'. split; [exact Heq|]. destruct c as [[]|]; [done|done|]. destruct Hc as [Hi Hc].
      split; [done|]. right. cbn [execution_tree s1] in Hc. unfold job_work in Hload. simpl in Hload. lia.
  - destruct Hpoll as [Hf Hf']. eexists _, _, _. split; [reflexivity|].
    set (s1 := {| init := init s; scheduled := f'; unscheduled := q; execution_tree := execution_tree s |}).
    assert (jobs s ≡ₚ jobs s1) as Hjs by (unfold jobs; simpl; by rewrite <-Hp, Hf, Hf').
    split; [split; [done|exists cut; split; [by eapply dag_ginv_perm|done]|done|simpl; rewrite Hf'; simpl; lia]|].
    destruct (decide (scheduled_max = 0)) as [Hz|Hz]; [by left|]. exfalso.
    rewrite Hf in Hlen. simpl in Hlen. unfold fu_is_empty in Hemp. rewrite fu_len_jobs in Hemp.
    destruct (fu_jobs (scheduled s)); [|cbn [length] in *; lia]. destruct (unscheduled s); [done|cbn [length] in *; lia].
  - destruct Hpoll as [_ Hf']. eexists _, _, _. split; [reflexivity|].
    set (s1 := {| init := init s; scheduled := f'; unscheduled := q; execution_tree := execution_tree s |}).
    assert (jobs s ≡ₚ jobs s1) as Hjs by (unfold jobs; simpl; by rewrite <-Hp, Hf').
    split; [split; [done|exists cut; split; [by eapply dag_ginv_perm|done]|done|simpl; rewrite Hf'; lia]|].
    unfold load. simpl. by rewrite (jobs_work_perm _ _ Hjs).
Qed.

Lemma new_inv : ∃ s, new root = ret s ∧ inv s ∧ load s = 2 ∧ size (execution_tree s) = 1.
Proof.
  unfold new, enqueue_unfold. cbn [execution_tree]. rewrite lookup_empty. simpl.
  assert (debug_assert true = ret ()) as -> by (unfold debug_assert, rust_assert; by destruct (debug_assertions)).
  eexists. split; [reflexivity|]. unfold load, jobs. simpl. rewrite fu_jobs_new. simpl.
  assert (waiting (<[root := NPending [Build_NodeLocation root 0] None]> ∅) = ∅) as Hw.
  { rewrite waiting_clear by done. unfold waiting. by rewrite omap_empty, delete_empty. }
  rewrite Hw, map_size_empty, map_size_insert_None, map_size_empty by apply lookup_empty.
  split; [|done]. split; [done| | |simpl; rewrite fu_jobs_new; simpl; lia].
  - exists ∅. split; [|intros v n Hv; by rewrite lookup_empty in Hv].
    unfold state_inv, jobs. simpl. rewrite fu_jobs_new, Hw, dag_shapes_insert. simpl.
    assert (∀ v, pending (<[root := inl [Build_NodeLocation root 0]]> (shapes ∅)) v ↔ v = root) as Hp.
    { intros v. unfold pending, shapes. rewrite fmap_empty.
      destruct (decide (v = root)) as [->|Hne]; [rewrite lookup_insert_eq; naive_solver|].
      rewrite lookup_insert_ne by done. rewrite lookup_empty. naive_solver. }
    split.
    + intros p c Hc. by rewrite lookup_empty in Hc.
    + intros p c Hc. by rewrite lookup_empty in Hc.
    + intros loc k (c&?&?&Hc&_). by rewrite lookup_empty in Hc.
    + intros loc k [Hin|(ps&Hps&Hin)]; [by apply not_elem_of_nil in Hin|]. left.
      apply lookup_insert_Some in Hps as [[<- [= <-]]|[_ Hps]].
      * by apply list_elem_of_singleton in Hin as ->.
      * unfold shapes in Hps. by rewrite fmap_empty, lookup_empty in Hps.
    + intros k ps Hk [[? _]|[_ Hps]]%lookup_insert_Some; [congruence|].
      unfold shapes in Hps. by rewrite fmap_empty, lookup_empty in Hps.
    + split; [constructor|]. by intros k loc Hin%not_elem_of_nil.
    + simpl. apply NoDup_singleton.
    + intros v. simpl. rewrite list_elem_of_singleton, Hp, lookup_empty. naive_solver.
    + by repeat constructor.
    + intros v o [[_ ?]|[_ Hps]]%lookup_insert_Some; [done|]. unfold shapes in Hps. by rewrite fmap_empty, lookup_empty in Hps.
    + by apply Hp.
    + intros v ->%Hp. done.
    + intros v [x Hx]. apply lookup_insert_Some in Hx as [[<- _]|[_ Hx]]; [done|].
      unfold shapes in Hx. by rewrite fmap_empty, lookup_empty in Hx.
    + intros v [n Hn]. by rewrite lookup_empty in Hn.
  - intros l _. simpl. rewrite map_size_insert_None, map_size_empty by apply lookup_empty. lia.
Qed.

Lemma dag_step_ok s w :
  inv s →
  ∃ c s' w', poll_step scheduled_max unfold_ fold_ unfold_limit s w = ret (c, s', w') ∧
    match c with Return (Ready r) => answer r | Return Pending | Continue => inv s' end.
Proof.
  intros Hs. destruct (dag_poll_step_spec s w Hs) as (c&s'&w'&Hst&Hc). exists c, s', w'. split; [done|].
  destruct c as [[r|]|]; [done|by destruct Hc..].
Qed.

Lemma inv_bounded s : inv s → bounded s.
Proof. intros [_ _ Hlim Hmax]. split; [by rewrite fu_len_jobs|done]. Qed.

(** The values reachable from the root, when they are finitely many, bound the work. *)
Section finite.
Context (X : gset In) (Hroot : root ∈ X) (Hclosed : ∀ v k, v ∈ X → child_of v k → k ∈ X).

Definition work_left s (n : nat) : Prop := n = load s + 2 * (size X - size (execution_tree s)).

Lemma tree_size_le s : inv s → size (execution_tree s) ≤ size X.
Proof.
  intros [Hi (cut&Hg&_) _ _]. unfold state_inv in Hg. destruct Hg.
  rewrite <-size_dom. apply subseteq_size. intros v Hv%elem_of_dom.
  assert (rtc (kept cut) root v) as Hr.
  { rewrite <-Hi. apply g_reach0. unfold shapes. rewrite lookup_fmap. destruct Hv as [n ->]. by eexists. }
  clear Hv. revert v Hr. refine (rtc_ind_r (λ v, v ∈ X) root _ _); [done|].
  intros y z _ Hyz%kept_child Hy. by eapply Hclosed.
Qed.

Lemma dag_step_work s w n c s' w' :
  scheduled_max ≠ 0 → inv s → work_left s n →
  poll_step scheduled_max unfold_ fold_ unfold_limit s w = ret (c, s', w') →
  match c with Return (Ready _) => True | Return Pending => work_left s' n | Continue => ∃ n', n' < n ∧ work_left s' n' end.
Proof.
  intros Hz Hs Hn Hst. destruct (dag_poll_step_spec s w Hs) as (c'&s2&w2&Hst'&Hc). rewrite Hst in Hst'. simplify_eq.
  destruct c' as [[r|]|]; [done| |].
  - destruct Hc as (_&Hl&Hsz). unfold work_left in *. by rewrite Hl, Hsz.
  - destruct Hc as (Hs'&[|Hpr]); [done|]. eexists. split; [|reflexivity]. unfold work_left in Hn.
    pose proof (tree_size_le _ Hs). pose proof (tree_size_le _ Hs'). lia.
Qed.
End finite.

Lemma dag_run_ok (polls fuel : nat) w :
  ∃ r, bounded_traversal_dag_limited scheduled_max unfold_ fold_ unfold_limit root polls fuel w = ret r ∧
    match r with
    | Some (Ready a, _, _) => answer a
    | Some (Pending, s, _) => bounded s
    | None => True
    end.
Proof.
  unfold bounded_traversal_dag_limited. destruct new_inv as (s0&->&Hs0&_). simpl.
  destruct (drive_ok _ inv answer dag_step_ok polls fuel s0 w Hs0) as (r&Hr&Hok).
  exists r. split; [exact Hr|]. destruct r as [[[[a|] s] w']|]; [done|by apply inv_bounded|done].
Qed.

(** C3: soundness of a whole run on a graph, cyclic or not, for every order of completion and
    every number of polls: nothing panics (in particular the assertions that the root is the
    last job, and those that every result finds its slot open); while the future is pending
    at most [scheduled_max] jobs are in progress, and the values visited are at most [limit], or
    the root alone.  When it is ready there are a set [X] of visited values, all reached from the
    root, at most [limit] or one, and one number of first children kept for each of them, lower than
    the number of its children only where [limit] is no more than that number and the size of [X],
    such that a result is the sequential fold of the graph of kept children, [None] means that this
    graph has a cycle, and an error is that of an unfold or a fold of it. *)
Theorem bounded_traversal_dag_sound (polls fuel : nat) w :
  ∃ r, bounded_traversal_dag_limited scheduled_max unfold_ fold_ unfold_limit root polls fuel w = ret r ∧
    match r with
    | Some (Ready a, _, _) => answer a
    | Some (Pending, s, _) => bounded s
    | None => True
    end.
Proof. apply dag_run_ok. Qed.

(** C13: termination: when [X] holds the root and all its descendants, and [scheduled_max] is
    positive, every poll returns, and all the polls together go round the loop at most
    [2 * size X] times, a shared value being unfolded and folded only once: a pool of so many
    rounds, out of which the rounds of every poll are taken, is enough for any number of polls
    ([drive_pool]), and the run is the one with fuel for each poll. *)
Theorem bounded_traversal_dag_terminates (X : gset In) (polls fuel : nat) w :
  root ∈ X → (∀ v k, v ∈ X → child_of v k → k ∈ X) → 0 < scheduled_max → 2 * size X < fuel →
  ∃ s0 p s w' left_, new root = ret s0 ∧
    drive_pool (poll_step scheduled_max unfold_ fold_ unfold_limit) polls (2 * size X) s0 w = ret (Some (p, s, w', left_)) ∧
    bounded_traversal_dag_limited scheduled_max unfold_ fold_ unfold_limit root polls fuel w = ret (Some (p, s, w')) ∧
    match p with Ready r => answer r | Pending => bounded s end.
Proof.
  intros HX Hc Hmax Hf. destruct new_inv as (s0&Hnew&Hs0&Hl&Hsz). pose proof (tree_size_le X HX Hc s0 Hs0) as HsX.
  destruct (drive_pool_terminates _ inv answer dag_step_ok (work_left X)) with (polls := polls) (pool := 2 * size X)
    (s := s0) (w := w) (n := 2 * size X) as (p&s'&w'&left_&Hr&Hp); [|done|unfold work_left; lia|done|].
  - intros s1 w1 n1 c s2 w2. apply (dag_step_work X HX Hc). lia.
  - exists s0, p, s', w', left_. split; [done|]. split; [exact Hr|]. split.
    + unfold bounded_traversal_dag_limited. rewrite Hnew. by eapply drive_pool_drive.
    + destruct p as [r|]; [done|]. by apply inv_bounded.
Qed.
End runs.

(** Without a limit a run computes what the tree traversal does. *)
Lemma dag_run_eval (root : In) (polls fuel : nat) w :
  unfold_limit = None →
  ∃ r, bounded_traversal_dag_limited scheduled_max unfold_ fold_ unfold_limit root polls fuel w = ret r ∧
    match r with
    | Some (Ready (Ok (Some o)), _, _) =>
        BoundedTree.BoundedTree.eval unfold_ fold_ root o ∧
        ∀ o', BoundedTree.BoundedTree.eval unfold_ fold_ root o' → o' = o
    | Some (Ready (Ok None), _, _) => ∀ o, ¬ BoundedTree.BoundedTree.eval unfold_ fold_ root o
    | Some (Ready (Err e), _, _) => BoundedTree.BoundedTree.fails unfold_ fold_ root e
    | _ => True
    end.
Proof.
  intros Hl. destruct (dag_run_ok root polls fuel w) as (r&Hr&Hok). exists r. split; [exact Hr|].
  destruct r as [[[[[[o|]|e]|] s] w']|]; simpl in Hok; [| | |done|done]; destruct Hok as (cut&X&[_ _ _ Hcuts]&Hok).
  - eapply eval_unlimited in Hok; [|done..]. split; [done|]. intros o' Ho'. by eapply BoundedTree.BoundedTree.eval_functional.
  - destruct Hok as (v&Hv&Hvv). intros o Ho%eval_acyclic. apply (acyclic_no_cycle root Ho v).
    + eapply rtc_subrel; [|exact Hv]. intros x y. apply kept_child.
    + by eapply tc_kept_child.
  - by eapply fails_unlimited.
Qed.
End steps.
End theory.

(** C14: without a limit, sharing is not observable: a result is the one the tree traversal
    computes (every shared value unfolded on each of its paths), and it is unique; [None] is
    returned only for a graph on which that computation has no result. *)
Theorem bounded_traversal_dag_eval {In Out OutCtx E} `{Countable In} (unfold_ : In → result (OutCtx * list In) E)
    (fold_ : OutCtx → list Out → result Out E) (scheduled_max : nat)
    `{FU : !FuturesUnordered (In * Either2 In Out OutCtx)} `{BuildMode} (root : In) (polls fuel : nat) w :
  ∃ r, bounded_traversal_dag scheduled_max unfold_ fold_ root polls fuel w = ret r ∧
    match r with
    | Some (Ready (Ok (Some o)), _, _) =>
        BoundedTree.BoundedTree.eval unfold_ fold_ root o ∧
        ∀ o', BoundedTree.BoundedTree.eval unfold_ fold_ root o' → o' = o
    | Some (Ready (Ok None), _, _) => ∀ o, ¬ BoundedTree.BoundedTree.eval unfold_ fold_ root o
    | Some (Ready (Err e), _, _) => BoundedTree.BoundedTree.fails unfold_ fold_ root e
    | _ => True
    end.
Proof. by apply (dag_run_eval unfold_ fold_ None). Qed.

(** ** Concrete runs: a diamond, whose shared value is unfolded once, and a cycle *)
Section witnesses.
#[local] Existing Instance debug_build.

Definition demo_unfold (v : nat) : result (nat * list nat) nat :=
  Ok (v, match v with 1 => [2; 3] | 2 => [4] | 3 => [4; 4] | 5 => [6] | 6 => [5] | _ => [] end).
Definition demo_fold (ctx : nat) (outs : list nat) : result nat nat := Ok (ctx + sum_list outs).

(** With a limit of three the second child of 1 is visited, and its own children are not. *)
Example dag_limited_run :
  ∃ s, bounded_traversal_dag_limited (FU:=scripted _) 2 demo_unfold demo_fold (Some 3) 1 3 9 [] = ret (Some (Ready (Ok (Some 6)), s, [])).
Proof. eexists. vm_compute. done. Qed.

Lemma bounded_traversal_dag_terminates_witness :
  ∃ s0 p s w' left_, new 1 = ret s0 ∧
    drive_pool (poll_step (FU:=scripted _) 2 demo_unfold demo_fold None) 3 8 s0 [Some 1; None; Some 0; Some 1] = ret (Some (p, s, w', left_)) ∧
    p = Ready (Ok (Some 18)) ∧ left_ = 1.
Proof.
  destruct (bounded_traversal_dag_terminates demo_unfold demo_fold None 2 (FU:=scripted _) 1 {[1; 2; 3; 4]} 3 9
    [Some 1; None; Some 0; Some 1]) as (s0&p&s&w'&left_&Hnew&Hr&_&_); [set_solver| |lia|vm_compute; lia|].
  - intros v k Hv (ctx&kids&[= <- <-]&Hk). rewrite !elem_of_union, !elem_of_singleton in Hv.
    destruct Hv as [[[->| ->]| ->]| ->]; set_solver.
  - exists s0, p, s, w', left_. split; [exact Hnew|]. split; [exact Hr|]. vm_compute in Hnew. injection Hnew as <-.
    vm_compute in Hr. split; congruence.
Defined.

Lemma bounded_traversal_dag_eval_witness :
  ∃ s w, bounded_traversal_dag (FU:=scripted _) 2 demo_unfold demo_fold 5 3 9 [] = ret (Some (Ready (Ok None), s, w)) ∧
    ∀ o, ¬ BoundedTree.BoundedTree.eval demo_unfold demo_fold 5 o.
Proof.
  destruct (bounded_traversal_dag_eval demo_unfold demo_fold 2 (FU:=scripted _) 5 3 9 []) as (r&Hr&Hok).
  vm_compute in Hr. injection Hr as <-. eexists _, _. split; [vm_compute; reflexivity|exact Hok].
Defined.
End witnesses.
End BoundedDag.
