(* ===== verification/OrderedStream.v ===== *)
(** [bounded_traversal::ordered_stream] (src/shed/bounded_traversal/src/ordered_stream.rs): the
    traversal that streams the outputs of a tree in order, unfolding ahead within a budget.
    The unfold callback is what its future resolves to; [usize] quantities are counts, whose
    additions wrap or panic by the build mode and whose subtractions must not underflow. *)
From S2P Require Import Prelude RustStd Futures BoundedStream.
From stdpp Require Import strings pretty.

(** * Errors (src/shed/bounded_traversal/src/error.rs) *)

Inductive BoundedTraversalError :=
| ProgrammingError (desc : string) (file : string) (line : nat).

Module OrderedStream.
#[local] Abbreviation NodeIndex := nat.
#[local] Abbreviation Loc := (NodeLocation NodeIndex).

(** The macro [programming_error!], for a message that ends with a node index. *)
Definition programming_error (msg : string) (i : NodeIndex) (line : nat) : BoundedTraversalError :=
  ProgrammingError (msg +:+ "NodeIndex(" +:+ pretty i +:+ ")") "src/ordered_stream.rs" line.

Inductive Child (Out In : Type) :=
| Unscheduled (weight : nat) (input : In)
| CPending (weight : nat)
| COutput (out : Out)
| CNode (weight : nat) (node_index : NodeIndex)
| Yielded.
Arguments Unscheduled {Out In}.
Arguments CPending {Out In}.
Arguments COutput {Out In}.
Arguments CNode {Out In}.
Arguments Yielded {Out In}.

Record Node (Out In : Type) := {
  parent : option Loc;
  children : list (Child Out In);
  remaining_weight : nat;
  budget : nat;
  expired : nat;
  schedule_next_index : nat;
}.
Arguments Build_Node {Out In}.
Arguments parent {Out In}.
Arguments children {Out In}.
Arguments remaining_weight {Out In}.
Arguments budget {Out In}.
Arguments expired {Out In}.
Arguments schedule_next_index {Out In}.

Record NodeSchedule := { next_child_index : nat; sched_budget : nat; pending_count : nat }.

Inductive NodeAction (In : Type) :=
| Schedule (child_index : nat) (input : In)
| Recurse (child_index : nat) (node_index : NodeIndex) (budget : nat)
| ActPending
| ActComplete.
Arguments Schedule {In}.
Arguments Recurse {In}.
Arguments ActPending {In}.
Arguments ActComplete {In}.

Inductive NodeYield (Out : Type) :=
| NYOutput (child_index : nat) (output : Out)
| NYFromChild (node_index : NodeIndex)
| NYPending (child_index : nat)
| NYComplete.
Arguments NYOutput {Out}.
Arguments NYFromChild {Out}.
Arguments NYPending {Out}.
Arguments NYComplete {Out}.

Inductive Yield (Out : Type) :=
| YOutput (output : option Out)
| YPending.
Arguments YOutput {Out}.
Arguments YPending {Out}.

(** * A node and its children *)

Section node.
Context {Out In : Type} `{BuildMode}.
#[local] Abbreviation Child := (Child Out In).
#[local] Abbreviation Node := (Node Out In).
Implicit Types (nd : Node) (sch : NodeSchedule).

Definition child_weight (c : Child) : nat :=
  match c with
  | Unscheduled weight _ => weight
  | CPending weight => weight
  | CNode weight _ => weight
  | COutput _ => 1
  | Yielded => 0
  end.

Definition node_new (par : option Loc) (kids : list Child) (weight : nat) : Node :=
  Build_Node par kids weight 0 0 0.

Definition set_children nd (kids : list Child) (weight : nat) : Node :=
  Build_Node (parent nd) kids weight (budget nd) (expired nd) (schedule_next_index nd).
Definition set_budget nd (b : nat) : Node :=
  Build_Node (parent nd) (children nd) (remaining_weight nd) b (expired nd) (schedule_next_index nd).
Definition set_expired nd (e : nat) : Node :=
  Build_Node (parent nd) (children nd) (remaining_weight nd) (budget nd) e (schedule_next_index nd).

(** The surplus over what the remaining weight needs, and the node. *)
Definition add_budget nd (b : nat) : exec (nat * Node) :=
  let! total := count_add (budget nd) b in
  let nd := set_budget nd (total `min` remaining_weight nd) in
  let! surplus := count_sub total (budget nd) in ret (surplus, nd).

Definition expire_budget nd (b : nat) : exec Node :=
  let! e := count_add (expired nd) b in ret (set_expired nd e).

(** [saturating_sub] is [-] on [nat]. *)
Definition take_expired nd : exec (nat * Node) :=
  let surplus := budget nd - remaining_weight nd in
  let e := expired nd `min` surplus in
  let! b := count_sub (budget nd) e in
  let! e' := count_sub (expired nd) e in
  ret (e, set_expired (set_budget nd b) e').

Definition take_surplus nd : exec (nat * Node) :=
  let surplus := budget nd - remaining_weight nd in
  let! b := count_sub (budget nd) surplus in ret (surplus, set_budget nd b).

Definition budget_needed nd : nat := remaining_weight nd - budget nd.

Definition schedule nd : NodeSchedule :=
  {| next_child_index := schedule_next_index nd; sched_budget := budget nd; pending_count := 0 |}.

(** The [while] over the children from [child_index]; the fuel is the children left. *)
Fixpoint yield_children (fuel : nat) nd (child_index : nat) : exec (NodeYield Out * Node) :=
  match fuel, children nd !! child_index with
  | S fuel, Some child =>
      match child with
      | Unscheduled _ _ | CPending _ => ret (NYPending child_index, nd)
      | COutput output =>
          if decide (budget nd = 0) then ret (NYPending child_index, nd)
          else
            let! weight := count_sub (remaining_weight nd) 1 in
            ret (NYOutput child_index output, set_children nd (<[child_index := Yielded]> (children nd)) weight)
      | CNode _ node_index => ret (NYFromChild node_index, nd)
      | Yielded => yield_children fuel nd (child_index + 1)
      end
  | _, _ => ret (NYComplete, nd)
  end.

Definition node_yield_next nd (child_index : nat) : exec (NodeYield Out * Node) :=
  yield_children (length (children nd) - child_index) nd child_index.

Definition child_yielded nd (child_index child_budget_needed : nat) : exec Node :=
  let! child := vec_index (children nd) child_index in
  match child with
  | CNode weight node_index =>
      if decide (child_budget_needed < weight) then
        let! cancelled := count_sub weight child_budget_needed in
        let! weight := count_sub weight cancelled in
        let! remaining := count_sub (remaining_weight nd) cancelled in
        ret (set_children nd (<[child_index := CNode weight node_index]> (children nd)) remaining)
      else ret nd
  | _ => ret nd
  end.

Definition child_complete nd (child_index surplus : nat) : exec Node :=
  let! child := vec_index (children nd) child_index in
  let! b := count_add (budget nd) surplus in
  let! remaining := count_sub (remaining_weight nd) (child_weight child) in
  ret (set_budget (set_children nd (<[child_index := Yielded]> (children nd)) remaining) b).

(** What is consumed, and the schedule. *)
Definition consume_budget sch (b : nat) : nat * NodeSchedule :=
  let b := b `min` sched_budget sch in
  (b, {| next_child_index := next_child_index sch; sched_budget := sched_budget sch - b;
         pending_count := pending_count sch |}).

Definition set_next sch (i : nat) : NodeSchedule :=
  {| next_child_index := i; sched_budget := sched_budget sch; pending_count := pending_count sch |}.
Definition one_pending sch : NodeSchedule :=
  {| next_child_index := next_child_index sch; sched_budget := sched_budget sch; pending_count := pending_count sch + 1 |}.

(** The [while] of [next_action]; the fuel is the children left. *)
Fixpoint action_loop (fuel : nat) sch nd : exec (NodeAction In * NodeSchedule * Node) :=
  match fuel, children nd !! next_child_index sch with
  | S fuel, Some child =>
      let child_index := next_child_index sch in
      let '(b, sch) := consume_budget (set_next sch (child_index + 1)) (child_weight child) in
      match child with
      | Unscheduled weight input =>
          let sch := one_pending sch in
          if decide (0 < b) then
            ret (Schedule child_index input, sch,
              set_children nd (<[child_index := CPending weight]> (children nd)) (remaining_weight nd))
          else action_loop fuel sch nd
      | CNode weight node_index =>
          let sch := one_pending sch in
          if decide (0 < b) then
            let! weight := count_sub weight b in
            let! remaining := count_sub (remaining_weight nd) b in
            let! left_ := count_sub (budget nd) b in
            ret (Recurse child_index node_index b, sch,
              set_budget (set_children nd (<[child_index := CNode weight node_index]> (children nd)) remaining) left_)
          else ret (Recurse child_index node_index b, sch, nd)
      | CPending _ => action_loop fuel (one_pending sch) nd
      | Yielded =>
          action_loop fuel sch
            (if decide (child_index = schedule_next_index nd)
             then Build_Node (parent nd) (children nd) (remaining_weight nd) (budget nd) (expired nd) (schedule_next_index nd + 1)
             else nd)
      | COutput _ => action_loop fuel sch nd
      end
  | _, _ => ret (if decide (0 < pending_count sch) then ActPending else ActComplete, sch, nd)
  end.

Definition next_action sch nd : exec (NodeAction In * NodeSchedule * Node) :=
  action_loop (length (children nd) - next_child_index sch) sch nd.

Definition child_scheduled sch : exec NodeSchedule :=
  let! p := count_sub (pending_count sch) 1 in
  ret {| next_child_index := next_child_index sch; sched_budget := sched_budget sch; pending_count := p |}.
End node.

(** * The stream *)

Section stream.
Context {Out In E : Type}.
Context (from_err : BoundedTraversalError → E).
Context (unfold_ : In → result (list (OrderedTraversal Out In)) E).
#[local] Abbreviation Child := (Child Out In).
#[local] Abbreviation Node := (Node Out In).
#[local] Abbreviation Job := (Loc * In)%type.
Context `{FU : !FuturesUnordered Job} `{BuildMode}.

Record BoundedTraversalOrderedStream := {
  scheduled_max : nat;
  total_budget : nat;
  limit : option nat;
  schedule_queue : list Job;
  scheduled : fu;
  execution_tree : gmap NodeIndex Node;
  execution_tree_index : NodeIndex;
  yield_next_location : option Loc;
}.
#[local] Abbreviation St := BoundedTraversalOrderedStream.
Implicit Types (s : St) (nd : Node) (w : world).

Definition set_jobs s (q : list Job) (f : fu) : St :=
  {| scheduled_max := scheduled_max s; total_budget := total_budget s; limit := limit s; schedule_queue := q;
     scheduled := f; execution_tree := execution_tree s; execution_tree_index := execution_tree_index s;
     yield_next_location := yield_next_location s |}.
Definition set_tree s (t : gmap NodeIndex Node) : St :=
  {| scheduled_max := scheduled_max s; total_budget := total_budget s; limit := limit s;
     schedule_queue := schedule_queue s; scheduled := scheduled s; execution_tree := t;
     execution_tree_index := execution_tree_index s; yield_next_location := yield_next_location s |}.
Definition set_total s (b : nat) : St :=
  {| scheduled_max := scheduled_max s; total_budget := b; limit := limit s; schedule_queue := schedule_queue s;
     scheduled := scheduled s; execution_tree := execution_tree s; execution_tree_index := execution_tree_index s;
     yield_next_location := yield_next_location s |}.
Definition set_location s (l : option Loc) : St :=
  {| scheduled_max := scheduled_max s; total_budget := total_budget s; limit := limit s;
     schedule_queue := schedule_queue s; scheduled := scheduled s; execution_tree := execution_tree s;
     execution_tree_index := execution_tree_index s; yield_next_location := l |}.
Definition set_limit s (l : option nat) : St :=
  {| scheduled_max := scheduled_max s; total_budget := total_budget s; limit := l;
     schedule_queue := schedule_queue s; scheduled := scheduled s; execution_tree := execution_tree s;
     execution_tree_index := execution_tree_index s; yield_next_location := yield_next_location s |}.
Definition set_index s (i : NodeIndex) : St :=
  {| scheduled_max := scheduled_max s; total_budget := total_budget s; limit := limit s;
     schedule_queue := schedule_queue s; scheduled := scheduled s; execution_tree := execution_tree s;
     execution_tree_index := i; yield_next_location := yield_next_location s |}.
Definition set_node s (i : NodeIndex) nd : St := set_tree s (<[i := nd]> (execution_tree s)).

(** A loop whose fuel is out: a failure of the model, which the theorems exclude. *)
Definition out_of_fuel {A} : exec A := panic.

(** The [for] over the roots: the children, and their total weight. *)
Fixpoint root_children (init : list (nat * In)) (total_weight : nat) : exec (list Child * nat) :=
  match init with
  | [] => ret ([], total_weight)
  | (weight, input) :: init =>
      let weight := weight `max` 1 in
      let! total_weight := count_add total_weight weight in
      let! '(kids, total_weight) := root_children init total_weight in
      ret (Unscheduled weight input :: kids, total_weight)
  end.

Definition new (scheduled_max queued_max : nat) (limit : option nat) (init : list (nat * In)) : exec St :=
  let! '(kids, total_weight) := root_children init 0 in
  let! '(surplus, root) := add_budget (node_new None kids total_weight) queued_max in
  let! total_budget := count_sub queued_max surplus in
  ret {| scheduled_max := scheduled_max; total_budget := total_budget; limit := limit; schedule_queue := [];
         scheduled := fu_new; execution_tree := {[0 := root]}; execution_tree_index := 0;
         yield_next_location := if decide (limit = Some 0) then None else Some (Build_NodeLocation 0 0) |}.

Definition clear s : St :=
  {| scheduled_max := scheduled_max s; total_budget := 0; limit := limit s; schedule_queue := [];
     scheduled := fu_new; execution_tree := ∅; execution_tree_index := execution_tree_index s;
     yield_next_location := None |}.

(** ** [schedule_next] *)

Record Frame := {
  frame_node : NodeIndex;
  frame_child : option nat;
  frame_schedule : option NodeSchedule;
  frame_surplus : nat;
}.

Definition push_job s (job : Job) : St :=
  if decide (scheduled_max s ≤ fu_len (scheduled s)) then set_jobs s (schedule_queue s ++ [job]) (scheduled s)
  else set_jobs s (schedule_queue s) (fu_push job (scheduled s)).

(** The inner [loop], up to the action that leaves it. *)
Fixpoint schedule_children (fuel : nat) s (i : NodeIndex) nd (sch : NodeSchedule)
  : exec (NodeAction In * NodeSchedule * Node * St) :=
  match fuel with
  | O => out_of_fuel
  | S fuel =>
      let! '(action, sch, nd) := next_action sch nd in
      match action with
      | Schedule child_index input =>
          schedule_children fuel (push_job s (Build_NodeLocation i child_index, input)) i nd sch
      | _ => ret (action, sch, nd, s)
      end
  end.

(** The [while let] over the stack, its top first; yields the additional budget left. *)
Fixpoint schedule_loop (fuel : nat) s (stack : list Frame) (completed_child_index : option nat) (additional_budget : nat)
  : exec (result nat BoundedTraversalError * St) :=
  match fuel, stack with
  | _, [] => ret (Ok additional_budget, s)
  | O, _ => out_of_fuel
  | S fuel, frame :: stack =>
      match execution_tree s !! frame_node frame with
      | None => ret (Err (programming_error "node must exist at " (frame_node frame) 542), s)
      | Some nd =>
          let sch := default (schedule nd) (frame_schedule frame) in
          let! sch := match completed_child_index with Some _ => child_scheduled sch | None => ret sch end in
          let! '(extra, nd) := add_budget nd additional_budget in
          let! surplus := count_add (frame_surplus frame) extra in
          let! '(action, sch, nd, s) :=
            schedule_children (S (length (children nd) - next_child_index sch)) s (frame_node frame) nd sch in
          let s := set_node s (frame_node frame) nd in
          match action with
          | Schedule _ _ => out_of_fuel
          | Recurse child_index node_index b =>
              schedule_loop fuel s
                ({| frame_node := node_index; frame_child := Some child_index; frame_schedule := None; frame_surplus := 0 |} ::
                 {| frame_node := frame_node frame; frame_child := frame_child frame; frame_schedule := Some sch;
                    frame_surplus := surplus |} :: stack) None b
          | ActPending => schedule_loop fuel s stack None surplus
          | ActComplete => schedule_loop fuel s stack (frame_child frame) surplus
          end
      end
  end.

(** Every node is entered once, and resumed once by each of its node children. *)
Definition schedule_next s : exec (result () BoundedTraversalError * St) :=
  let! '(r, s) := schedule_loop (2 * size (execution_tree s)) s
    [{| frame_node := 0; frame_child := None; frame_schedule := None; frame_surplus := 0 |}] None 0 in
  match r with
  | Err e => ret (Err e, s)
  | Ok additional_budget =>
      let! total := count_sub (total_budget s) additional_budget in ret (Ok (), set_total s total)
  end.

(** ** [yield_next] *)

(** The walk up the tree from a node that yielded, passing its surplus to its ancestors; their
    indices decrease. *)
Fixpoint walk_up (fuel : nat) s (par : option Loc) (surplus needed : nat)
  : exec (result nat BoundedTraversalError * St) :=
  match par with
  | None => ret (Ok surplus, s)
  | Some loc =>
      match fuel with
      | O => out_of_fuel
      | S fuel =>
          match execution_tree s !! node_index loc with
          | None => ret (Err (programming_error "parent must exist at " (node_index loc) 706), s)
          | Some nd =>
              let! nd := child_yielded nd (child_index loc) needed in
              let! '(surplus, nd) := add_budget nd surplus in
              walk_up fuel (set_node s (node_index loc) nd) (parent nd) surplus (budget_needed nd)
          end
      end
  end.

(** The branch of an output of the node [i]. *)
Definition yield_output s (i : NodeIndex) nd (child_index : nat) (output : Out)
  : exec (result (Yield Out) BoundedTraversalError * St) :=
  let! '(lim, nd) :=
    match limit s with
    | None => ret (None, nd)
    | Some l =>
        let! l := count_sub l 1 in
        let! nd := if decide (l < total_budget s) then expire_budget nd 1 else ret nd in
        ret (Some l, nd)
    end in
  let s := set_limit (set_node s i nd) lim in
  if decide (limit s = Some 0) then ret (Ok (YOutput (Some output)), set_location (clear s) None)
  else
    let s := set_location s (Some (Build_NodeLocation i (child_index + 1))) in
    let! '(e, nd) := take_expired nd in
    let! total := count_sub (total_budget s) e in
    let! '(surplus, nd) := take_surplus nd in
    let s := set_total (set_node s i nd) total in
    let! '(r, s) := walk_up i s (parent nd) surplus (budget_needed nd) in
    match r with
    | Err e => ret (Err e, s)
    | Ok surplus =>
        let! total := count_sub (total_budget s) surplus in
        ret (Ok (YOutput (Some output)), set_total s total)
    end.

(** The [loop]: down into child nodes, and up from complete ones. *)
Fixpoint yield_loop (fuel : nat) s (location : option Loc) : exec (result (Yield Out) BoundedTraversalError * St) :=
  match location with
  | None => ret (Ok (YOutput None), s)
  | Some loc =>
      match fuel with
      | O => out_of_fuel
      | S fuel =>
          match execution_tree s !! node_index loc with
          | None => ret (Ok (YOutput None), s)
          | Some nd =>
              let! '(y, nd) := node_yield_next nd (child_index loc) in
              let s := set_node s (node_index loc) nd in
              match y with
              | NYFromChild i => yield_loop fuel s (Some (Build_NodeLocation i 0))
              | NYComplete =>
                  let s := set_tree s (delete (node_index loc) (execution_tree s)) in
                  let! _ := debug_assert (remaining_weight nd =? 0) in
                  match parent nd with
                  | Some p =>
                      match execution_tree s !! node_index p with
                      | Some pn =>
                          let! pn := child_complete pn (child_index p) (budget nd) in
                          yield_loop fuel (set_node s (node_index p) pn) (Some p)
                      | None => yield_loop fuel s (Some p)
                      end
                  | None => yield_loop fuel s None
                  end
              | NYPending i =>
                  ret (Ok YPending, set_location s (Some (Build_NodeLocation (node_index loc) i)))
              | NYOutput i output => yield_output s (node_index loc) nd i output
              end
          end
      end
  end.

(** A way down meets increasing node indices, a way up removes a node. *)
Definition yield_next s : exec (result (Yield Out) BoundedTraversalError * St) :=
  yield_loop (2 * size (execution_tree s) + execution_tree_index s) (set_location s None) (yield_next_location s).

(** ** [process_unfold] and the poll function *)

Fixpoint unfolded_children (items : list (OrderedTraversal Out In)) (total_weight : nat) : exec (list Child * nat) :=
  match items with
  | [] => ret ([], total_weight)
  | item :: items =>
      let '(weight, child) :=
        match item with
        | Output out => (1, COutput out)
        | Futures.Recurse weight input => let weight := weight `max` 1 in (weight, Unscheduled weight input)
        end in
      let! total_weight := count_add total_weight weight in
      let! '(kids, total_weight) := unfolded_children items total_weight in
      ret (child :: kids, total_weight)
  end.

Definition process_unfold s (loc : Loc) (unfolded : list (OrderedTraversal Out In))
  : exec (result () BoundedTraversalError * St) :=
  let s := set_index s (execution_tree_index s + 1) in
  let i := execution_tree_index s in
  let! '(kids, total_weight) := unfolded_children unfolded 0 in
  match execution_tree s !! node_index loc with
  | None => ret (Err (programming_error "after unfold, parent must exist at " (node_index loc) 756), s)
  | Some par =>
      let! child := vec_index (children par) (child_index loc) in
      let original_weight := child_weight child in
      if is_nil kids then
        let! remaining := count_sub (remaining_weight par) original_weight in
        ret (Ok (), set_node s (node_index loc)
          (set_children par (<[child_index loc := Yielded]> (children par)) remaining))
      else
        let child_weight := total_weight `min` original_weight in
        let! released_budget := count_sub original_weight child_weight in
        let! remaining := count_sub (remaining_weight par) released_budget in
        let par := set_children par (<[child_index loc := CNode child_weight i]> (children par)) remaining in
        ret (Ok (), set_node (set_node s (node_index loc) par) i (node_new (Some loc) kids total_weight))
  end.

(** One iteration of the loop of [poll_next]. *)
Definition poll_step s w : exec (control (option (result Out E)) * St * world) :=
  let! '(r, s) := yield_next s in
  match r with
  | Err e => ret (Return (Ready (Some (Err (from_err e)))), s, w)
  | Ok (YOutput out) => ret (Return (Ready (Ok <$> out)), s, w)
  | Ok YPending =>
      let! '(r, s) := schedule_next s in
      match r with
      | Err e => ret (Return (Ready (Some (Err (from_err e)))), s, w)
      | Ok _ =>
          let! '(r, s) := yield_next s in
          match r with
          | Err e => ret (Return (Ready (Some (Err (from_err e)))), s, w)
          | Ok (YOutput out) => ret (Return (Ready (Ok <$> out)), s, w)
          | Ok YPending =>
              let '(p, f, w) := fu_poll_next (scheduled s) w in
              match p with
              | Pending => ret (Return Pending, set_jobs s (schedule_queue s) f, w)
              | Ready None => ret (Continue, set_jobs s (schedule_queue s) f, w)
              | Ready (Some (loc, v)) =>
                  let s :=
                    match schedule_queue s with
                    | [] => set_jobs s [] f
                    | next_job :: q => set_jobs s q (fu_push next_job f)
                    end in
                  match unfold_ v with
                  | Err e => ret (Return (Ready (Some (Err e))), s, w)
                  | Ok unfolded =>
                      let! '(r, s) := process_unfold s loc unfolded in
                      match r with
                      | Err e => ret (Return (Ready (Some (Err (from_err e)))), s, w)
                      | Ok _ => ret (Continue, s, w)
                      end
                  end
              end
          end
      end
  end.

(** ** The two streams *)

Definition bounded_traversal_ordered_stream (scheduled_max queued_max : nat) (init : list (nat * In)) : exec St :=
  new scheduled_max queued_max None init.

Definition bounded_traversal_limited_ordered_stream (scheduled_max queued_max limit : nat)
    (init : list (nat * In)) : exec St :=
  new scheduled_max queued_max (Some limit) init.

(** The one a caller with or without a limit takes. *)
Definition ordered_stream (scheduled_max queued_max : nat) (limit : option nat) (init : list (nat * In)) : exec St :=
  match limit with
  | None => bounded_traversal_ordered_stream scheduled_max queued_max init
  | Some limit => bounded_traversal_limited_ordered_stream scheduled_max queued_max limit init
  end.

(** A whole run: the stream is made, and polled by an executor. *)
Definition run_ordered_stream (scheduled_max queued_max : nat) (limit : option nat)
    (init : list (nat * In)) (polls fuel : nat) w :=
  let! s := ordered_stream scheduled_max queued_max limit init in
  collect_stream poll_step polls fuel s w.
End stream.

End OrderedStream.
