(* ===== verification/OrderedStreamTheory.v ===== *)
(** The theory of the ordered traversal stream ([OrderedStream]): its tree as paths, the order
    of what is still to come, the conservation of the budget, and the soundness of a run. *)
From S2P Require Import Prelude RustStd Futures BoundedStream OrderedStream.
Import OrderedStream.

Module OrderedStreamTheory.
#[local] Abbreviation Loc := (NodeLocation nat).

(** * Paths

    A path leads from the root to a child by child indices.  One path is before another when
    it leaves their common part to the left. *)

Fixpoint before (p q : list nat) : Prop :=
  match p, q with
  | i :: p, j :: q => i < j ∨ (i = j ∧ before p q)
  | _, _ => False
  end.

Lemma before_irrefl p : ¬ before p p.
Proof. induction p as [|i p IH]; simpl; [by intros []|]. intros [?|[_ ?]]; [lia|by apply IH]. Qed.

Lemma before_trans p q r : before p q → before q r → before p r.
Proof.
  revert q r. induction p as [|i p IH]; intros [|j q] [|k r]; simpl; try done.
  intros [?|[-> Hp]] [?|[-> Hq]]; [left; lia|by left|by left|]. right. split; [done|]. by eapply IH.
Qed.

Lemma before_app_r p q x : before p q → before p (q ++ x).
Proof.
  revert q. induction p as [|i p IH]; intros [|j q]; simpl; try done. intros [?|[-> ?]]; [by left|right; auto].
Qed.

Lemma before_app_l p q x : before p q → before (p ++ x) q.
Proof.
  revert q. induction p as [|i p IH]; intros [|j q]; simpl; try done. intros [?|[-> ?]]; [by left|right; auto].
Qed.

Lemma before_common p q r : before (p ++ q) (p ++ r) ↔ before q r.
Proof. induction p as [|i p IH]; simpl; [done|]. rewrite IH. naive_solver lia. Qed.

Lemma before_snoc_inv q p c : before q (p ++ [c]) → before q p ∨ ∃ i r, i < c ∧ q = p ++ i :: r.
Proof.
  revert q. induction p as [|j p IH]; intros [|i q]; simpl; try done.
  - intros [?|[_ ?]]; [right; by exists i, q|by destruct q].
  - intros [?|[-> Hq]]; [by left; left|]. destruct (IH q Hq) as [?|(k&r&?&->)]; [left; by right|right; by exists k, r].
Qed.

(** Going past a child. *)
Lemma before_step_inv q p c : before q (p ++ [c + 1]) → before q (p ++ [c]) ∨ ∃ r, q = (p ++ [c]) ++ r.
Proof.
  intros [Hq|(i&r&Hi&->)]%before_snoc_inv; [left; by apply before_app_r|].
  destruct (decide (i = c)) as [->|]; [right; exists r; by rewrite <-app_assoc|].
  left. apply before_common. simpl. left. lia.
Qed.

(** Going down into the first child. *)
Lemma before_zero_inv q p : before q (p ++ [0]) → before q p.
Proof. intros [?|(i&r&Hi&_)]%before_snoc_inv; [done|lia]. Qed.

(** Replacing a path by paths below it. *)
Lemma before_below_inv p x q : before (p ++ x) q → before p q ∨ ∃ y, q = p ++ y ∧ before x y.
Proof.
  revert q. induction p as [|i p IH]; intros q; simpl; [intros ?; right; by exists q|].
  destruct q as [|j q]; [done|]. intros [?|[-> Hq]]; [by left; left|].
  destruct (IH q Hq) as [?|(y&->&?)]; [left; by right|right; by exists y].
Qed.

(** * The shape of the tree *)

Section theory.
Context {Out In : Type}.

(** A child without its weight. *)
Inductive Kind :=
| KUnscheduled (v : In)
| KPending
| KOutput (o : Out)
| KNode (m : nat)
| KYielded.

Definition kind (c : Child Out In) : Kind :=
  match c with
  | Unscheduled _ v => KUnscheduled v
  | CPending _ => KPending
  | COutput o => KOutput o
  | CNode _ m => KNode m
  | Yielded => KYielded
  end.

#[local] Abbreviation Shape := (gmap nat (option Loc * list Kind)).
#[local] Abbreviation Paths := (gmap nat (list nat)).
#[local] Abbreviation Job := (Loc * In)%type.
Implicit Types (h : Shape) (P : Paths) (l : Loc) (js : list Job) (F : list (list nat * (Out + In))).

Definition child_at h l (k : Kind) : Prop :=
  ∃ par ks, h !! node_index l = Some (par, ks) ∧ ks !! child_index l = Some k.
Definition loc_path P l (q : list nat) : Prop := ∃ p, P !! node_index l = Some p ∧ q = p ++ [child_index l].

(** Parents and node children agree, and [P] has the path of every node. *)
Record tree_ok P h (idx : nat) : Prop := {
  t_root : P !! 0 = Some [] ∧ ∃ ks, h !! 0 = Some (None, ks);
  t_nodes m par ks : h !! m = Some (par, ks) → m ≤ idx ∧
    match par with
    | None => m = 0
    | Some l => node_index l < m ∧ child_at h l (KNode m) ∧
        ∃ p, P !! node_index l = Some p ∧ P !! m = Some (p ++ [child_index l])
    end;
  t_kids l m : child_at h l (KNode m) → ∃ ks, h !! m = Some (Some l, ks);
  t_paths m p : P !! m = Some p → is_Some (h !! m);
}.

Lemma child_at_functional h l k k' : child_at h l k → child_at h l k' → k = k'.
Proof. intros (?&?&?&?) (?&?&?&?). congruence. Qed.

Section tree.
Context {P h idx} (Ht : tree_ok P h idx).

Lemma node_path m par ks : h !! m = Some (par, ks) → ∃ p, P !! m = Some p.
Proof.
  intros Hm. destruct (t_nodes _ _ _ Ht _ _ _ Hm) as [_ Hp]. destruct par as [l|].
  - destruct Hp as (_&_&p&_&Hp). eauto.
  - subst. destruct (t_root _ _ _ Ht) as [? _]. eauto.
Qed.

Lemma child_path l k : child_at h l k → ∃ q, loc_path P l q.
Proof. intros (par&ks&Hl&_). destruct (node_path _ _ _ Hl) as [p Hp]. exists (p ++ [child_index l]). by exists p. Qed.

(** A node is the root, or below its parent. *)
Lemma node_parent m p :
  P !! m = Some p →
  (m = 0 ∧ p = []) ∨ ∃ l p', node_index l < m ∧ child_at h l (KNode m) ∧ P !! node_index l = Some p' ∧ p = p' ++ [child_index l].
Proof.
  intros Hp. destruct (t_paths _ _ _ Ht _ _ Hp) as [[par ks] Hm]. destruct (t_nodes _ _ _ Ht _ _ _ Hm) as [_ Hpar].
  destruct par as [l|].
  - destruct Hpar as (?&?&p'&?&?). right. exists l, p'. split; [done|]. split; [done|]. split; [done|congruence].
  - subst. left. destruct (t_root _ _ _ Ht) as [? _]. split; [done|congruence].
Qed.

Lemma path_inj m m' p : P !! m = Some p → P !! m' = Some p → m = m'.
Proof.
  revert m' p. induction (lt_wf m) as [m _ IH]. intros m' p Hm Hm'.
  destruct (node_parent _ _ Hm) as [[-> ->]|(l&p1&Hlt&Hc&Hp1&->)].
  - destruct (node_parent _ _ Hm') as [[-> _]|(l'&p2&_&_&_&Heq)]; [done|]. by destruct p2.
  - destruct (node_parent _ _ Hm') as [[-> Heq]|(l'&p2&_&Hc'&Hp2&Heq)]; [by destruct p1|].
    apply app_inj_tail in Heq as [-> Heq]. pose proof (IH _ Hlt _ _ Hp1 Hp2) as Hn.
    assert (l = l') as -> by (destruct l, l'; simpl in *; by subst).
    pose proof (child_at_functional _ _ _ _ Hc Hc'). congruence.
Qed.

Lemma loc_path_inj l l' q : loc_path P l q → loc_path P l' q → l = l'.
Proof.
  intros (p&Hp&->) (p'&Hp'&Heq). apply app_inj_tail in Heq as [-> Heq].
  pose proof (path_inj _ _ _ Hp Hp'). destruct l, l'; simpl in *; by subst.
Qed.

Lemma path_depth m p : P !! m = Some p → length p ≤ m.
Proof.
  revert p. induction (lt_wf m) as [m _ IH]. intros p Hm.
  destruct (node_parent _ _ Hm) as [[-> ->]|(l&p1&Hlt&Hc&Hp1&->)]; [done|].
  pose proof (IH _ Hlt _ Hp1). rewrite length_app. simpl. lia.
Qed.

(** Below a child that is not a node there is nothing. *)
Lemma nothing_below l k q m r :
  child_at h l k → (∀ m, k ≠ KNode m) → loc_path P l q → P !! m = Some (q ++ r) → False.
Proof.
  intros Hl Hk Hq. revert r. induction (lt_wf m) as [m _ IH]. intros r Hm.
  destruct (node_parent _ _ Hm) as [[_ Heq]|(l'&p&Hlt&Hc&Hp&Heq)].
  - destruct Hq as (p&_&->). by destruct p.
  - destruct r as [|i r _] using rev_ind.
    + rewrite app_nil_r in Heq. assert (l' = l) as -> by (apply (loc_path_inj _ _ q); [by exists p|done]).
      apply (Hk m). by eapply child_at_functional.
    + rewrite app_assoc in Heq. apply app_inj_tail in Heq as [Heq _]. eapply (IH _ Hlt r). congruence.
Qed.

(** A node is below a node child of the root. *)
Lemma root_ancestor m : is_Some (h !! m) → m = 0 ∨ ∃ c m', child_at h (Build_NodeLocation 0 c) (KNode m').
Proof.
  induction (lt_wf m) as [m _ IH]. intros [[par ks] Hm]. destruct (t_nodes _ _ _ Ht _ _ _ Hm) as [_ Hp].
  destruct par as [l|]; [|by left]. destruct Hp as (Hlt&Hc&_). right.
  destruct (IH _ Hlt) as [Hz|?]; [destruct Hc as (?&?&?&_); eauto| |done].
  exists (child_index l), m. destruct l. simpl in *. by subst.
Qed.
End tree.

(** ** Changing one child *)

Definition set_child h l (k : Kind) : Shape :=
  alter (λ x, (x.1, <[child_index l := k]> x.2)) (node_index l) h.

Lemma child_at_set h l k0 k l' k' :
  child_at h l k0 → child_at (set_child h l k) l' k' ↔ (l' = l ∧ k' = k) ∨ (l' ≠ l ∧ child_at h l' k').
Proof.
  intros (par&ks&Hl&Hk). unfold child_at at 1, set_child. destruct (decide (node_index l' = node_index l)) as [Hn|Hn].
  - rewrite Hn, lookup_alter_eq, Hl. simpl. split.
    + intros (?&?&[= <- <-]&Hk'). apply list_lookup_insert_Some in Hk' as [(Hc&->&_)|(Hc&Hk')].
      * left. split; [|done]. destruct l, l'; simpl in *; by subst.
      * right. split; [congruence|]. exists par, ks. by rewrite Hn.
    + intros [[-> ->]|(Hne&?&?&Hl'&Hk')]; eexists _, _; (split; [done|]).
      * apply list_lookup_insert_eq. by eapply lookup_lt_Some.
      * rewrite Hn, Hl in Hl'. simplify_eq. rewrite list_lookup_insert_ne; [done|].
        intros Hc. apply Hne. destruct l, l'; simpl in *; by subst.
  - rewrite lookup_alter_ne by done. split; [|by intros [[-> _]|[_ ?]]].
    intros ?. right. split; [congruence|done].
Qed.

Lemma set_child_lookup h l k m par ks :
  set_child h l k !! m = Some (par, ks) → ∃ ks', h !! m = Some (par, ks') ∧ length ks = length ks'.
Proof.
  unfold set_child. destruct (decide (node_index l = m)) as [->|].
  - rewrite lookup_alter_eq. destruct (h !! m) as [[par' ks']|]; [|done]. intros [= <- <-]. exists ks'.
    split; [done|]. simpl. by rewrite length_insert.
  - rewrite lookup_alter_ne by done. eauto.
Qed.

Lemma set_child_lookup_mono h l k m par ks :
  h !! m = Some (par, ks) → ∃ ks', set_child h l k !! m = Some (par, ks').
Proof.
  intros Hm. unfold set_child. destruct (decide (node_index l = m)) as [->|].
  - rewrite lookup_alter_eq, Hm. simpl. eauto.
  - rewrite lookup_alter_ne by done. eauto.
Qed.

Definition is_node (k : Kind) : bool := match k with KNode _ => true | _ => false end.

Lemma tree_ok_set P h idx l k0 k :
  tree_ok P h idx → child_at h l k0 → is_node k0 = false → is_node k = false → tree_ok P (set_child h l k) idx.
Proof.
  intros [[? [ks0 H0]] Hn Hk Hp] Hl Hk0 Hk1. split.
  - split; [done|]. by eapply set_child_lookup_mono.
  - intros m par ks Hm. destruct (set_child_lookup _ _ _ _ _ _ Hm) as (ks'&Hm'&_).
    destruct (Hn _ _ _ Hm') as [? Hpar]. split; [done|]. destruct par as [l'|]; [|done].
    destruct Hpar as (?&Hc&?). split; [done|]. split; [|done]. apply (child_at_set _ _ k0); [done|]. right. split; [|done].
    intros ->. by rewrite (child_at_functional _ _ _ _ Hl Hc) in Hk0.
  - intros l' m Hc. apply (child_at_set _ _ k0) in Hc as [[_ Hc]|[_ Hc]]; [by rewrite <-Hc in Hk1| |done].
    destruct (Hk _ _ Hc) as [ks Hm]. by eapply set_child_lookup_mono.
  - intros m p Hm. destruct (Hp _ _ Hm) as [[par ks] Hx]. destruct (set_child_lookup_mono _ l k _ _ _ Hx) as [ks' ->]. eauto.
Qed.

(** ** What is still to come

    [F] lists, in order, the path and the content of every child that is not yet yielded: an
    output, or an input that is unscheduled or being unfolded. *)

Definition content js h l (x : Out + In) : Prop :=
  ∃ k, child_at h l k ∧
    match k with
    | KUnscheduled v => x = inr v
    | KPending => ∃ v, (l, v) ∈ js ∧ x = inr v
    | KOutput o => x = inl o
    | KNode _ | KYielded => False
    end.

Record front_ok P h idx js F : Prop := {
  f_tree : tree_ok P h idx;
  f_nodup : NoDup js.*1;
  f_jobs l : l ∈ js.*1 ↔ child_at h l KPending;
  f_front q x : (q, x) ∈ F ↔ ∃ l, loc_path P l q ∧ content js h l x;
  f_sorted : StronglySorted before F.*1;
}.

(** The next child to yield, [loc]: all before it is yielded. *)
Record at_front P h loc : Prop := {
  a_node : is_Some (h !! node_index loc);
  a_first q : loc_path P loc q → ∀ l k q', child_at h l k → k ≠ KYielded → loc_path P l q' → ¬ before q' q;
}.

Lemma content_mono js js' h l x : (∀ v, (l, v) ∈ js → (l, v) ∈ js') → content js h l x → content js' h l x.
Proof. intros Hjs (k&Hk&Hx). exists k. split; [done|]. destruct k; [done| |done..]. naive_solver. Qed.

Lemma front_ok_perm P h idx js js' F : js ≡ₚ js' → front_ok P h idx js F → front_ok P h idx js' F.
Proof.
  intros Hp []. split; [done|by rewrite <-Hp|intros l; by rewrite <-Hp| |done].
  intros q x. rewrite f_front0. apply exist_proper. intros l. apply and_iff_compat_l.
  split; apply content_mono; intros v; by rewrite Hp.
Qed.

Lemma elem_of_jobs js l : l ∈ js.*1 ↔ ∃ v, (l, v) ∈ js.
Proof.
  rewrite list_elem_of_fmap. split; [intros ([l' v]&->&?); by exists v|intros (v&?); by exists (l, v)].
Qed.

Lemma job_unique js l v v' : NoDup js.*1 → (l, v) ∈ js → (l, v') ∈ js → v = v'.
Proof.
  intros Hnd Hv Hv'. apply list_elem_of_lookup in Hv as [i Hi], Hv' as [j Hj].
  assert (i = j) as ->; [|congruence].
  apply (NoDup_lookup js.*1 i j l Hnd); rewrite list_lookup_fmap; [by rewrite Hi|by rewrite Hj].
Qed.

(** An unscheduled child is scheduled. *)
Lemma front_schedule P h idx js F l v :
  front_ok P h idx js F → child_at h l (KUnscheduled v) → front_ok P (set_child h l KPending) idx ((l, v) :: js) F.
Proof.
  intros [] Hl. assert (l ∉ js.*1) as Hnin.
  { intros Hc%f_jobs0. by pose proof (child_at_functional _ _ _ _ Hl Hc). }
  split; [by eapply tree_ok_set|by constructor| | |done].
  - intros l'. simpl. rewrite elem_of_cons, f_jobs0, (child_at_set _ _ _ _ _ _ Hl).
    destruct (decide (l' = l)) as [->|]; naive_solver.
  - intros q x. rewrite f_front0. apply exist_proper. intros l'. apply and_iff_compat_l. unfold content.
    setoid_rewrite (child_at_set _ _ _ _ _ _ Hl). destruct (decide (l' = l)) as [->|Hne].
    + split.
      * intros (k&Hk&Hx). pose proof (child_at_functional _ _ _ _ Hl Hk). subst. exists KPending.
        split; [by left|]. exists v. split; [by left|done].
      * intros (k&[[_ ->]|[? _]]&Hx); [|done]. destruct Hx as (v'&[?|Hin]%elem_of_cons&->).
        -- simplify_eq. by exists (KUnscheduled v).
        -- destruct Hnin. apply list_elem_of_fmap. by exists (l, v').
    + split; intros (k&Hk&Hx); exists k.
      * split; [by right|]. destruct k; [done| |done..]. destruct Hx as (v'&?&->). exists v'. split; [by right|done].
      * destruct Hk as [[? _]|[_ Hk]]; [done|]. split; [done|]. destruct k; [done| |done..].
        destruct Hx as (v'&[?|?]%elem_of_cons&->); [congruence|]. by exists v'.
Qed.

Lemma at_front_set P h loc l k0 k :
  at_front P h loc → child_at h l k0 → k0 ≠ KYielded → at_front P (set_child h l k) loc.
Proof.
  intros [Hn Hf] Hl Hk0. split.
  - destruct Hn as [[par ks] Hn]. destruct (set_child_lookup_mono _ l k _ _ _ Hn) as [? ->]. eauto.
  - intros q Hq l' k' q' Hk' Hne Hq'. apply (child_at_set _ _ k0) in Hk' as [[-> _]|[_ Hk']]; [|by eapply Hf|done].
    by eapply Hf.
Qed.

(** A child that is an entry of the front is done. *)
Lemma front_remove P h idx js js' F1 F2 l k0 q x :
  front_ok P h idx js (F1 ++ (q, x) :: F2) → child_at h l k0 → is_node k0 = false → loc_path P l q →
  NoDup js'.*1 → l ∉ js'.*1 → (∀ l' v, l' ≠ l → (l', v) ∈ js' ↔ (l', v) ∈ js) →
  front_ok P (set_child h l KYielded) idx js' (F1 ++ F2).
Proof.
  intros [] Hl Hk0 Hq Hnd Hnin Hjs. rewrite fmap_app, fmap_cons in f_sorted0.
  assert (∀ q' x', (q', x') ∈ F1 ++ F2 → q' ≠ q) as Hne.
  { apply StronglySorted_app_iff in f_sorted0 as (_&Hs2&Hs). inversion Hs2 as [|? ? _ Hf]; subst.
    rewrite Forall_forall in Hf. intros q' x' [Hin|Hin]%elem_of_app ->; apply (list_elem_of_fmap_2 fst) in Hin; simpl in Hin.
    - apply (before_irrefl q). apply Hs; [done|by left].
    - by apply (before_irrefl q), Hf. }
  split; [by eapply tree_ok_set|done| | |].
  - intros l'. rewrite (child_at_set _ _ _ _ _ _ Hl). destruct (decide (l' = l)) as [->|Hl']; [naive_solver|].
    rewrite elem_of_jobs. transitivity (child_at h l' KPending); [|naive_solver].
    rewrite <-f_jobs0, elem_of_jobs. apply exist_proper. intros v. by apply Hjs.
  - intros q' x'. transitivity ((q', x') ∈ F1 ++ (q, x) :: F2 ∧ q' ≠ q).
    { rewrite !elem_of_app, elem_of_cons. split.
      - intros Hin. split; [naive_solver|]. apply (Hne q' x'). by rewrite elem_of_app.
      - intros [[?|[?|?]] ?]; [by left|congruence|by right]. }
    rewrite f_front0. split.
    + intros [(l'&Hq'&k&Hk&Hx) Hqq]. assert (l' ≠ l) as Hl'.
      { intros ->. destruct Hq as (p1&?&->), Hq' as (p2&?&->). congruence. }
      exists l'. split; [done|]. exists k. split; [apply (child_at_set _ _ k0); [done|by right]|].
      destruct k; [done| |done..]. destruct Hx as (v&?&->). exists v. split; [by apply Hjs|done].
    + intros (l'&Hq'&k&Hk&Hx). apply (child_at_set _ _ k0) in Hk as [[_ ->]|[Hl' Hk]]; [done| |done].
      split; [|intros ->; apply Hl'; by eapply loc_path_inj]. exists l'. split; [done|]. exists k. split; [done|].
      destruct k; [done| |done..]. destruct Hx as (v&?&->). exists v. split; [by apply Hjs|done].
  - rewrite fmap_app. eapply StronglySorted_sublist; [|exact f_sorted0]. apply sublist_app; [done|by apply sublist_cons].
Qed.

Section position.
Context {P h idx js F} (Hf : front_ok P h idx js F).

(** What is at the front is first. *)
Lemma front_first loc q x :
  at_front P h loc → loc_path P loc q → content js h loc x → ∃ F', F = (q, x) :: F'.
Proof.
  intros [_ Ha] Hq Hx. destruct Hf. assert ((q, x) ∈ F) as Hin by (apply f_front0; by exists loc).
  destruct F as [|[q1 x1] F']; [by apply not_elem_of_nil in Hin|].
  apply elem_of_cons in Hin as [Heq|Hin]; [exists F'; by rewrite Heq|]. exfalso.
  assert ((q1, x1) ∈ (q1, x1) :: F') as H1 by by left. apply f_front0 in H1 as (l1&Hq1&k1&Hk1&Hx1).
  apply (Ha _ Hq _ _ _ Hk1) in Hq1; [|by intros ->]. apply Hq1. simpl in f_sorted0.
  inversion f_sorted0 as [|? ? _ Hall]; subst. rewrite Forall_forall in Hall. apply Hall.
  by apply (list_elem_of_fmap_2 fst) in Hin.
Qed.

(** Going past a yielded child, after [k0] of it was changed to that. *)
Lemma at_front_step loc :
  at_front P h loc → child_at h loc KYielded → at_front P h (Build_NodeLocation (node_index loc) (child_index loc + 1)).
Proof.
  intros [Hn Ha] Hloc. split; [done|]. intros q (p&Hp&->) l k q' Hk Hne Hq' Hb.
  apply before_step_inv in Hb as [Hb|[r Hr]].
  - eapply (Ha (p ++ [child_index loc])); [by exists p|exact Hk|done|exact Hq'|exact Hb].
  - destruct (decide (l = loc)) as [->|Hl]; [by pose proof (child_at_functional _ _ _ _ Hloc Hk) as <-|].
    destruct Hq' as (p'&Hp'&->). destruct r as [|i r _] using rev_ind.
    + apply Hl. destruct Hf. rewrite app_nil_r in Hr.
      eapply (loc_path_inj f_tree0 l loc); [exists p'; by split|exists p; by split].
    + rewrite app_assoc in Hr. apply app_inj_tail in Hr as [Hr _]. destruct Hf. rewrite Hr in Hp'.
      by eapply (nothing_below f_tree0 loc KYielded); [| |exists p; split|exact Hp'].
Qed.

(** Going down into a node. *)
Lemma at_front_enter loc m : at_front P h loc → child_at h loc (KNode m) → at_front P h (Build_NodeLocation m 0).
Proof.
  intros [Hn Ha] Hloc. destruct Hf as [Ht _ _ _ _]. destruct (t_kids _ _ _ Ht _ _ Hloc) as [ks Hm].
  split; [by eexists|]. intros q (p&Hp&->) l k q' Hk Hne Hq' Hb%before_zero_inv.
  destruct (t_nodes _ _ _ Ht _ _ _ Hm) as (_&_&_&p'&Hp'&Hpm). simpl in Hp. rewrite Hpm in Hp. simplify_eq.
  eapply Ha; [by exists p'|exact Hk|done|exact Hq'|exact Hb].
Qed.

(** Past the last child of a node, all its children are yielded. *)
Lemma node_done loc par ks :
  at_front P h loc → h !! node_index loc = Some (par, ks) → length ks ≤ child_index loc → Forall (λ k, k = KYielded) ks.
Proof.
  intros [_ Ha] Hn Hlen. apply Forall_lookup. intros d k Hd.
  assert (∃ p, P !! node_index loc = Some p) as [p Hp] by (destruct Hf; by eapply node_path).
  destruct k; try done; exfalso; (eapply (Ha (p ++ [child_index loc])) with (l := Build_NodeLocation (node_index loc) d);
    [by exists p|by exists par, ks|done|by exists p|]); apply before_common; simpl; left; by apply lookup_lt_Some in Hd; lia.
Qed.

Lemma root_done loc ks :
  at_front P h loc → h !! node_index loc = Some (None, ks) → length ks ≤ child_index loc → F = [].
Proof.
  intros Ha Hn Hlen. pose proof (node_done _ _ _ Ha Hn Hlen) as Hall. destruct Hf.
  destruct (t_nodes _ _ _ f_tree0 _ _ _ Hn) as [_ Hz]. rewrite Hz in Hn. rewrite Forall_lookup in Hall.
  destruct F as [|[q x] F']; [done|]. exfalso. assert ((q, x) ∈ (q, x) :: F') as Hin by by left.
  apply f_front0 in Hin as (l&_&k&Hk&Hx).
  destruct (root_ancestor f_tree0 (node_index l)) as [Hl|(c&m'&par&ks'&Hc&Hm)]; [destruct Hk as (?&?&?&_); eauto|..].
  - destruct Hk as (par&ks'&Hl'&Hk). rewrite Hl in Hl'. simplify_eq. by rewrite (Hall _ _ Hk) in Hx.
  - simpl in *. rewrite Hn in Hc. simplify_eq. by pose proof (Hall _ _ Hm).
Qed.
End position.

(** ** A node is complete, a child is unfolded *)

Section complete.
Context {P h idx js F} (Hf : front_ok P h idx js F).
Context (loc l : Loc) (ks : list Kind) (Ha : at_front P h loc).
Context (Hn : h !! node_index loc = Some (Some l, ks)) (Hlen : length ks ≤ child_index loc).
#[local] Abbreviation h' := (set_child (delete (node_index loc) h) l KYielded).
#[local] Abbreviation P' := (delete (node_index loc) P).

Lemma complete_facts :
  node_index l < node_index loc ∧ child_at h l (KNode (node_index loc)) ∧ child_at (delete (node_index loc) h) l (KNode (node_index loc)) ∧
  (∃ p, P !! node_index l = Some p ∧ P !! node_index loc = Some (p ++ [child_index l])) ∧
  ∀ l' k, node_index l' = node_index loc → child_at h l' k → k = KYielded.
Proof.
  destruct Hf. destruct (t_nodes _ _ _ f_tree0 _ _ _ Hn) as (_&Hlt&Hc&Hp). split; [done|]. split; [done|].
  pose proof (node_done Hf _ _ _ Ha Hn Hlen) as Hall. rewrite Forall_lookup in Hall. split.
  - destruct Hc as (par&ks'&Hl&Hk). exists par, ks'. rewrite lookup_delete_ne by lia. done.
  - split; [done|]. intros l' k Heq (par&ks'&Hl&Hk). rewrite Heq, Hn in Hl. simplify_eq. by eapply Hall.
Qed.

Lemma child_at_complete l' k : child_at h' l' k ↔ (l' = l ∧ k = KYielded) ∨ (l' ≠ l ∧ node_index l' ≠ node_index loc ∧ child_at h l' k).
Proof.
  destruct complete_facts as (_&_&Hc&_&_). rewrite (child_at_set _ _ _ _ _ _ Hc). unfold child_at at 1.
  destruct (decide (node_index l' = node_index loc)) as [Heq|Hne].
  - rewrite Heq, lookup_delete_eq. naive_solver.
  - rewrite lookup_delete_ne by done. unfold child_at. naive_solver.
Qed.

Lemma complete_front : front_ok P' h' idx js F.
Proof.
  destruct complete_facts as (Hlt&Hc&_&_&Hy). destruct Hf. destruct f_tree0 as [[H0 [ks0 Hk0]] Hnodes Hkids Hpaths].
  split; [split| | | |].
  - split; [by rewrite lookup_delete_ne by lia|]. apply (set_child_lookup_mono _ _ _ _ _ ks0). by rewrite lookup_delete_ne by lia.
  - intros m par ks' Hm. destruct (set_child_lookup _ _ _ _ _ _ Hm) as (ks2&[Hne Hm']%lookup_delete_Some&_).
    destruct (Hnodes _ _ _ Hm') as [? Hpar]. split; [done|]. destruct par as [l'|]; [|done].
    destruct Hpar as (?&Hc'&p&Hp&Hpm). split; [done|].
    assert (node_index l' ≠ node_index loc) as Hnl by (intros Heq; by pose proof (Hy _ _ Heq Hc')).
    split; [|exists p; by rewrite !lookup_delete_ne].
    apply child_at_complete. right. split; [|done]. intros ->. pose proof (child_at_functional _ _ _ _ Hc Hc'). congruence.
  - intros l' m [[_ ?]|(Hl'&Hnl&Hc')]%child_at_complete; [done|]. destruct (Hkids _ _ Hc') as [ks' Hm].
    apply (set_child_lookup_mono _ _ _ _ _ ks'). rewrite lookup_delete_ne; [done|]. intros <-. rewrite Hn in Hm. congruence.
  - intros m p [Hne Hm]%lookup_delete_Some. destruct (Hpaths _ _ Hm) as [[par ks'] Hx].
    destruct (set_child_lookup_mono (delete (node_index loc) h) l KYielded m par ks') as [? ->]; [by rewrite lookup_delete_ne|]. eauto.
  - done.
  - intros l'. rewrite f_jobs0, child_at_complete. split; [|by intros [[_ ?]|(_&_&?)]].
    intros Hc'. right. split; [intros ->; by pose proof (child_at_functional _ _ _ _ Hc Hc')|].
    split; [|done]. intros Heq. by pose proof (Hy _ _ Heq Hc').
  - intros q x. rewrite f_front0. split.
    + intros (l'&(p&Hp&->)&k&Hk&Hx). assert (node_index l' ≠ node_index loc) as Hnl.
      { intros Heq. pose proof (Hy _ _ Heq Hk). by subst. }
      exists l'. split; [exists p; by rewrite lookup_delete_ne|]. exists k. split; [|done].
      apply child_at_complete. right. split; [|done]. intros ->. pose proof (child_at_functional _ _ _ _ Hc Hk). by subst.
    + intros (l'&(p&[Hne Hp]%lookup_delete_Some&->)&k&[[_ ->]|(_&_&Hk)]%child_at_complete&Hx); [done|].
      exists l'. split; [by exists p|]. by exists k.
  - done.
Qed.

Lemma complete_at_front : at_front P' h' l.
Proof.
  destruct complete_facts as (Hlt&Hc&_&(p&Hp&Hpn)&Hy). split.
  - destruct Hc as (par&ks'&Hl&_). destruct (set_child_lookup_mono (delete (node_index loc) h) l KYielded (node_index l) par ks') as [? ->]; [|eauto].
    by rewrite lookup_delete_ne by lia.
  - intros q (p0&[_ Hp0]%lookup_delete_Some&->) l' k q' [[_ ->]|(_&_&Hk)]%child_at_complete Hne Hq' Hb; [done|].
    rewrite Hp in Hp0. simplify_eq. destruct Ha as [_ Ha'].
    eapply (Ha' _ (ex_intro _ _ (conj Hpn eq_refl)) l' k q' Hk Hne); [|by apply before_app_r].
    destruct Hq' as (p'&[_ ?]%lookup_delete_Some&->). by exists p'.
Qed.
End complete.

Definition item_kind (x : Out + In) : Kind := match x with inl o => KOutput o | inr v => KUnscheduled v end.

Section unfold.
Context {P h} {idx : nat} {js js' F1 F2} (l : Loc) (v : In) (q : list nat) (items : list (Out + In)).
Context (Hf : front_ok P h idx js (F1 ++ (q, inr v) :: F2)).
Context (Hl : child_at h l KPending) (Hq : loc_path P l q) (Hjs : js ≡ₚ (l, v) :: js').
#[local] Abbreviation new := (S idx).
#[local] Abbreviation h' := (<[new := (Some l, item_kind <$> items)]> (set_child h l (KNode new))).
#[local] Abbreviation P' := (<[new := q]> P).

Lemma unfold_fresh m x : h !! m = Some x → m ≠ new.
Proof. intros Hm ->. destruct Hf, x. destruct (t_nodes _ _ _ f_tree0 _ _ _ Hm). lia. Qed.

Lemma path_fresh m p : P !! m = Some p → m ≠ new.
Proof. intros Hm. destruct Hf. destruct (t_paths _ _ _ f_tree0 _ _ Hm) as [x Hx]. by eapply unfold_fresh. Qed.

Lemma child_at_unfold l' k :
  child_at h' l' k ↔ (node_index l' = new ∧ (item_kind <$> items) !! child_index l' = Some k) ∨
    (l' = l ∧ k = KNode new) ∨ (l' ≠ l ∧ child_at h l' k).
Proof.
  destruct (decide (node_index l' = new)) as [Heq|Hne].
  - unfold child_at at 1. rewrite Heq, lookup_insert_eq. split; [intros (?&?&?&?); left; naive_solver|].
    intros [[_ ?]|[[-> _]|[_ (?&?&Hn&_)]]]; [eauto|..]; exfalso; [destruct Hl as (?&?&Hn&_)|]; by apply unfold_fresh in Hn.
  - transitivity (child_at (set_child h l (KNode new)) l' k); [|rewrite (child_at_set _ _ _ _ _ _ Hl); naive_solver].
    unfold child_at. by rewrite lookup_insert_ne.
Qed.

Lemma unfold_tree : tree_ok P' h' new.
Proof.
  destruct Hf. destruct f_tree0 as [[H0 [ks0 Hk0]] Hnodes Hkids Hpaths].
  assert (node_index l ≠ new) as Hln by (destruct Hl as (?&?&Hn&_); by eapply unfold_fresh).
  split.
  - split; [by rewrite lookup_insert_ne|]. rewrite lookup_insert_ne by done. by eapply set_child_lookup_mono.
  - intros m par ks [[<- [= <- <-]]|[Hne Hm]]%lookup_insert_Some.
    + split; [done|]. destruct Hl as (?&?&Hn&_). destruct (Hnodes _ _ _ Hn). split; [lia|].
      split; [apply child_at_unfold; right; by left|]. destruct Hq as (p&Hp&->). exists p.
      rewrite lookup_insert_eq, lookup_insert_ne by done. done.
    + destruct (set_child_lookup _ _ _ _ _ _ Hm) as (ks'&Hm'&_).
      destruct (Hnodes _ _ _ Hm') as [? Hpar]. split; [lia|]. destruct par as [l'|]; [|done].
      destruct Hpar as (?&Hc&p&Hp&Hpm). split; [done|]. split.
      * apply child_at_unfold. right. right. split; [|done]. intros ->. by pose proof (child_at_functional _ _ _ _ Hl Hc).
      * exists p. apply path_fresh in Hp as Hp'. rewrite !lookup_insert_ne by done. done.
  - intros l' m [[_ Hi]|[[-> [= ->]]|[Hl' Hc]]]%child_at_unfold.
    + rewrite list_lookup_fmap in Hi. by destruct (items !! _) as [[]|].
    + exists (item_kind <$> items). by rewrite lookup_insert_eq.
    + destruct (Hkids _ _ Hc) as [ks Hm]. apply unfold_fresh in Hm as Hm'. rewrite lookup_insert_ne by done.
      by eapply set_child_lookup_mono.
  - intros m p [[<- _]|[Hne Hm]]%lookup_insert_Some; [rewrite lookup_insert_eq; eauto|].
    rewrite lookup_insert_ne by done. destruct (Hpaths _ _ Hm) as [[par ks] Hx].
    destruct (set_child_lookup_mono _ l (KNode new) _ _ _ Hx) as [ks' ->]. eauto.
Qed.

Lemma unfold_jobs : NoDup js'.*1 ∧ l ∉ js'.*1 ∧ ∀ l' v', l' ≠ l → (l', v') ∈ js' ↔ (l', v') ∈ js.
Proof.
  destruct Hf. rewrite Hjs in f_nodup0. apply NoDup_cons in f_nodup0 as [? ?]. split; [done|]. split; [done|].
  intros l' v' Hne. rewrite Hjs, elem_of_cons. naive_solver.
Qed.

Definition new_entries : list (list nat * (Out + In)) := imap (λ j x, (q ++ [j], x)) items.

Lemma elem_of_new_entries q' x : (q', x) ∈ new_entries ↔ ∃ j, q' = q ++ [j] ∧ items !! j = Some x.
Proof.
  unfold new_entries. rewrite elem_of_lookup_imap. naive_solver.
Qed.

Lemma new_entries_sorted : StronglySorted before new_entries.*1.
Proof.
  assert (∀ n (xs : list (Out + In)), StronglySorted before (imap (λ j x, (q ++ [n + j], x)) xs).*1) as Hs; [|apply (Hs 0)].
  intros n xs. revert n. induction xs as [|x xs IH]; intros n; simpl; [constructor|]. constructor.
  - rewrite (imap_ext _ (λ j x, (q ++ [S n + j], x))); [apply IH|]. intros j y _. simpl. by rewrite Nat.add_succ_r.
  - apply Forall_forall. intros q' ([q2 y]&->&Hin)%list_elem_of_fmap. apply elem_of_lookup_imap in Hin as (j&y'&[= -> ->]&_).
    apply before_common. simpl. left. lia.
Qed.

Lemma unfold_front : front_ok P' h' new js' (F1 ++ new_entries ++ F2).
Proof.
  destruct unfold_jobs as (Hnd&Hnin&Hjs'). pose proof unfold_tree as Ht'.
  pose proof (front_remove _ _ _ _ _ _ _ _ _ _ _ Hf Hl eq_refl Hq Hnd Hnin Hjs') as Hrem. pose proof Hf as [Ht _ _ _ Hs].
  assert (node_index l ≠ new) as Hln by (destruct Hl as (?&?&Hn&_); by eapply unfold_fresh).
  assert (∀ l', node_index l' ≠ new → l' ≠ l → ∀ k, child_at h' l' k ↔ child_at (set_child h l KYielded) l' k) as Hsame.
  { intros l' Hn Hne k. rewrite child_at_unfold, (child_at_set _ _ _ _ _ _ Hl). naive_solver. }
  destruct Hrem as [_ _ Hj Hfr Hso]. split; [done|done| | |].
  - intros l'. rewrite Hj, child_at_unfold, (child_at_set _ _ _ _ _ _ Hl). split; [naive_solver|].
    intros [[_ Hi]|[[_ ?]|?]]; [|done|by right]. rewrite list_lookup_fmap in Hi. by destruct (items !! _) as [[]|].
  - intros q' x. transitivity ((q', x) ∈ F1 ++ F2 ∨ (q', x) ∈ new_entries); [rewrite !elem_of_app; naive_solver|].
    rewrite Hfr, elem_of_new_entries. split.
    + intros [(l'&(p&Hp&->)&k&Hk&Hx)|(j&->&Hj')].
      * apply path_fresh in Hp as Hn. exists l'. split; [exists p; by rewrite lookup_insert_ne|]. exists k. split; [|by destruct k].
        apply Hsame; [done| |done]. intros ->. apply (child_at_set _ _ _ _ _ _ Hl) in Hk as [[_ ->]|[? _]]; done.
      * exists (Build_NodeLocation new j). split; [exists q; by rewrite lookup_insert_eq|]. exists (item_kind x).
        split; [|by destruct x]. apply child_at_unfold. left. simpl. by rewrite list_lookup_fmap, Hj'.
    + intros (l'&(p&Hp&->)&k&Hk&Hx). destruct (decide (node_index l' = new)) as [Hn|Hn].
      * right. rewrite Hn, lookup_insert_eq in Hp. assert (p = q) as -> by congruence. exists (child_index l'). split; [done|].
        apply child_at_unfold in Hk as [[_ Hk]|[[-> _]|[_ Hk]]]; [|done|].
        -- rewrite list_lookup_fmap in Hk. destruct (items !! _) as [[]|]; simplify_eq/=; naive_solver.
        -- destruct Hk as (?&?&Hk&_). by apply unfold_fresh in Hk.
      * rewrite lookup_insert_ne in Hp by done. destruct (decide (l' = l)) as [->|Hne].
        { apply child_at_unfold in Hk as [[? _]|[[_ ->]|[? _]]]; done. }
        left. exists l'. split; [by exists p|]. exists k. split; [by apply Hsame|done].
  - rewrite !fmap_app in *. rewrite fmap_cons in Hs. apply StronglySorted_app_iff in Hso as (Hs1&Hs2&Hs12).
    apply StronglySorted_app_iff in Hs as (_&Hs0&Hs3). inversion Hs0 as [|? ? _ Hall]; subst. rewrite Forall_forall in Hall.
    assert (∀ q', q' ∈ new_entries.*1 → ∃ j, q' = q ++ [j]) as Hne.
    { intros q' ([q2 x]&->&Hin)%list_elem_of_fmap. apply elem_of_new_entries in Hin as (j&->&_). by exists j. }
    apply StronglySorted_app_iff. split; [done|]. split; [apply StronglySorted_app_iff; split; [apply new_entries_sorted|split; [done|]]|].
    + intros q1 q2 [j ->]%Hne Hq2. apply before_app_l. by apply Hall.
    + intros q1 q2 Hq1 [[j ->]%Hne|Hq2]%elem_of_app; [|by apply Hs12]. apply before_app_r. apply Hs3; [done|by left].
Qed.

Lemma unfold_at_front loc : at_front P h loc → at_front P' h' loc.
Proof.
  intros [[[par0 ks0] Hn] Ha]. pose proof Hf as [Ht _ _ _ _]. apply unfold_fresh in Hn as Hloc. split.
  { rewrite lookup_insert_ne by done. destruct (set_child_lookup_mono _ l (KNode new) _ _ _ Hn) as [? ->]. eauto. }
  intros q0 (p0&Hp0&->) l' k q' Hk Hne (p'&Hp'&->). rewrite lookup_insert_ne in Hp0 by done.
  apply child_at_unfold in Hk as [[Hn' Hk]|[[-> ->]|[Hne' Hk]]].
  - rewrite Hn', lookup_insert_eq in Hp'. assert (p' = q) as -> by congruence. intros [Hb|(y&Heq&Hb)]%before_below_inv.
    + eapply (Ha _ (ex_intro _ _ (conj Hp0 eq_refl)) l KPending q); done.
    + destruct y as [|i y _] using rev_ind; [done|]. rewrite app_assoc in Heq. apply app_inj_tail in Heq as [-> _].
      by eapply (nothing_below Ht l KPending q).
  - assert (node_index l ≠ new) as Hln by (destruct Hl as (?&?&Hx&_); by eapply unfold_fresh).
    rewrite lookup_insert_ne in Hp' by done. eapply (Ha _ (ex_intro _ _ (conj Hp0 eq_refl)) l KPending); [done|done|by exists p'].
  - destruct Hk as (?&?&Hx&?) eqn:Hk'. apply unfold_fresh in Hx as Hln. rewrite lookup_insert_ne in Hp' by done.
    eapply (Ha _ (ex_intro _ _ (conj Hp0 eq_refl)) l' k); [by eexists _, _|done|by exists p'].
Qed.
End unfold.
End theory.

(** * Weights and budgets *)

(** A count that is a [usize]. *)
Definition fits (n : nat) : Prop := (Z.of_nat n ≤ usize_max)%Z.
Lemma fits_le a b : a ≤ b → fits b → fits a.
Proof. unfold fits. lia. Qed.

Section weights.
Context {Out In : Type} `{BuildMode}.
#[local] Abbreviation Child := (Child Out In).
#[local] Abbreviation Node := (Node Out In).
Implicit Types (nd : Node) (kids : list Child).

Definition weights kids : nat := sum_list_with child_weight kids.

Lemma weights_set kids i c c' :
  kids !! i = Some c → weights (<[i := c']> kids) + child_weight c = weights kids + child_weight c'.
Proof.
  revert i. induction kids as [|c0 kids IH]; intros i Hi; [done|]. destruct i as [|i]; simplify_eq/=; [lia|].
  specialize (IH i Hi). unfold weights in *. lia.
Qed.

Lemma weights_ge kids i c : kids !! i = Some c → child_weight c ≤ weights kids.
Proof. intros Hi. pose proof (weights_set kids i c Yielded Hi). simpl in *. lia. Qed.

Lemma weights_drop kids i c : kids !! i = Some c → weights (drop i kids) = child_weight c + weights (drop (i + 1) kids).
Proof. intros Hi. rewrite Nat.add_1_r. by rewrite (lookup_drop_0 _ _ _ Hi). Qed.

Lemma weights_drop_le kids i : weights (drop i kids) ≤ weights kids.
Proof. rewrite <-(take_drop i kids) at 2. unfold weights. rewrite sum_list_with_app. lia. Qed.

Lemma drop_set kids i j c : j < i → drop i (<[j := c]> kids) = drop i kids.
Proof. intros. by rewrite drop_insert_lt. Qed.

Lemma weights_yielded kids : Forall (λ k, k = KYielded) (kind <$> kids) → weights kids = 0.
Proof. rewrite Forall_fmap. induction 1 as [|c kids Hc _ IH]; [done|]. destruct c; try done. Qed.

(** The remaining weight of a node is what its children weigh. *)
Definition balanced nd : Prop := remaining_weight nd = weights (children nd).

Definition skel nd : option Loc * list Kind := (parent nd, kind <$> children nd).

Lemma skel_set nd i c c' r :
  children nd !! i = Some c → kind c' = kind c → skel (set_children nd (<[i := c']> (children nd)) r) = skel nd.
Proof.
  intros Hi Hk. unfold skel. simpl. rewrite list_fmap_insert, list_insert_id; [done|]. rewrite list_lookup_fmap, Hi. simpl. by rewrite Hk.
Qed.

Lemma add_budget_ok nd b :
  fits (budget nd + b) →
  ∃ b' surplus, add_budget nd b = ret (surplus, set_budget nd b') ∧ b' + surplus = budget nd + b ∧
    b' = (budget nd + b) `min` remaining_weight nd.
Proof.
  intros Hf. unfold add_budget. rewrite count_add_le by done. simpl. rewrite count_sub_le by lia. simpl.
  eexists _, _. split; [reflexivity|]. split; [|done]. lia.
Qed.

Lemma take_expired_ok nd :
  ∃ b e e', take_expired nd = ret (e, set_expired (set_budget nd b) e') ∧ b + e = budget nd ∧ e' ≤ expired nd.
Proof.
  unfold take_expired. rewrite !count_sub_le by lia. simpl. eexists _, _, _. split; [reflexivity|]. lia.
Qed.

Lemma take_surplus_ok nd : ∃ b surplus, take_surplus nd = ret (surplus, set_budget nd b) ∧ b + surplus = budget nd.
Proof. unfold take_surplus. rewrite count_sub_le by lia. simpl. eexists _, _. split; [reflexivity|]. lia. Qed.

Lemma child_yielded_ok nd c w m needed :
  balanced nd → children nd !! c = Some (CNode w m) →
  ∃ nd', child_yielded nd c needed = ret nd' ∧ balanced nd' ∧ skel nd' = skel nd ∧ budget nd' = budget nd ∧ expired nd' = expired nd.
Proof.
  intros Hb Hc. unfold child_yielded, vec_index. rewrite Hc. simpl. case_decide as Hn; [|by exists nd].
  pose proof (weights_ge _ _ _ Hc) as Hw. simpl in Hw. unfold balanced in Hb.
  rewrite count_sub_le by lia. simpl. rewrite count_sub_le by lia. simpl. rewrite count_sub_le by lia. simpl.
  eexists. split; [reflexivity|]. split; [|split; [by eapply skel_set|done]].
  unfold balanced. simpl. pose proof (weights_set _ _ _ (CNode (w - (w - needed)) m) Hc) as Hs. simpl in Hs. lia.
Qed.

Lemma child_complete_ok nd c k surplus :
  balanced nd → children nd !! c = Some k → fits (budget nd + surplus) →
  ∃ nd', child_complete nd c surplus = ret nd' ∧ balanced nd' ∧ parent nd' = parent nd ∧
    children nd' = <[c := Yielded]> (children nd) ∧ budget nd' = budget nd + surplus ∧ expired nd' = expired nd.
Proof.
  intros Hb Hc Hf. unfold child_complete, vec_index. rewrite Hc. simpl. rewrite count_add_le by done. simpl.
  pose proof (weights_ge _ _ _ Hc) as Hw. unfold balanced in Hb. rewrite count_sub_le by lia. simpl.
  eexists. split; [reflexivity|]. split; [|done].
  unfold balanced. simpl. pose proof (weights_set _ _ _ Yielded Hc) as Hs. simpl in Hs. lia.
Qed.

(** The schedule of a node can pay for the children it has not considered yet. *)
Definition affordable (sch : NodeSchedule) nd : Prop :=
  sched_budget sch `min` weights (drop (next_child_index sch) (children nd)) ≤ budget nd.

Definition action_effect (action : NodeAction In) sch sch' nd nd' : Prop :=
  match action with
  | Schedule c v => ∃ w, next_child_index sch ≤ c ∧ next_child_index sch' = c + 1 ∧ budget nd' = budget nd ∧
      children nd !! c = Some (Unscheduled w v) ∧ children nd' = <[c := CPending w]> (children nd)
  | Recurse c m b => ∃ w, next_child_index sch ≤ c ∧ next_child_index sch' = c + 1 ∧ budget nd' + b = budget nd ∧
      children nd !! c = Some (CNode w m) ∧ skel nd' = skel nd ∧ 0 < pending_count sch'
  | ActPending | ActComplete => next_child_index sch ≤ next_child_index sch' ∧ budget nd' = budget nd ∧ skel nd' = skel nd
  end.

Lemma action_effect_next action sch1 sch sch' nd1 nd nd' :
  next_child_index sch ≤ next_child_index sch1 → children nd1 = children nd → parent nd1 = parent nd → budget nd1 = budget nd →
  action_effect action sch1 sch' nd1 nd' → action_effect action sch sch' nd nd'.
Proof.
  intros Hn Hc Hp Hb. assert (skel nd1 = skel nd) as Hs by (unfold skel; by rewrite Hc, Hp).
  destruct action; simpl; rewrite ?Hc, ?Hb, ?Hs; first [intros (w&?&?); exists w; split; [lia|done]|intros [? ?]; split; [lia|done]].
Qed.

Lemma action_loop_ok fuel sch nd :
  length (children nd) - next_child_index sch ≤ fuel → balanced nd → affordable sch nd →
  ∃ action sch' nd', action_loop fuel sch nd = ret (action, sch', nd') ∧
    balanced nd' ∧ affordable sch' nd' ∧ parent nd' = parent nd ∧ expired nd' = expired nd ∧
    pending_count sch ≤ pending_count sch' ∧ action_effect action sch sch' nd nd'.
Proof.
  revert sch nd. induction fuel as [|fuel IH]; intros sch nd Hfuel Hb Ha; cbn [action_loop].
  { eexists _, _, _. split; [reflexivity|]. do 5 (split; [done|]). by case_decide. }
  destruct (children nd !! next_child_index sch) as [child|] eqn:Hc.
  2:{ eexists _, _, _. split; [reflexivity|]. do 5 (split; [done|]). by case_decide. }
  pose proof (lookup_lt_Some _ _ _ Hc) as Hlt. unfold affordable in Ha. rewrite (weights_drop _ _ _ Hc) in Ha.
  assert (∀ sch1 nd1, next_child_index sch1 = next_child_index sch + 1 → children nd1 = children nd → parent nd1 = parent nd →
    budget nd1 = budget nd → expired nd1 = expired nd → remaining_weight nd1 = remaining_weight nd →
    sched_budget sch1 + child_weight child `min` sched_budget sch = sched_budget sch →
    pending_count sch ≤ pending_count sch1 →
    ∃ action sch' nd', action_loop fuel sch1 nd1 = ret (action, sch', nd') ∧
    balanced nd' ∧ affordable sch' nd' ∧ parent nd' = parent nd ∧ expired nd' = expired nd ∧
    pending_count sch ≤ pending_count sch' ∧ action_effect action sch sch' nd nd') as Hnext.
  { intros sch1 nd1 Hn Hk Hp Hbu He Hr Hsb Hpc. destruct (IH sch1 nd1) as (a&sch'&nd'&Heq&?&?&?&?&?&Heff).
    - rewrite Hk, Hn. lia.
    - unfold balanced in *. congruence.
    - unfold affordable. rewrite Hk, Hn, Hbu. lia.
    - exists a, sch', nd'. split; [exact Heq|]. split; [done|]. split; [done|]. split; [congruence|]. split; [congruence|].
      split; [lia|]. eapply action_effect_next; [|exact Hk|exact Hp|exact Hbu|exact Heff]. lia. }
  assert (length (children nd) - (next_child_index sch + 1) ≤ fuel) as Hfuel' by lia.
  destruct child as [w v|w|o|w m|]; cbn [child_weight] in *; unfold consume_budget;
    cbn [next_child_index sched_budget pending_count one_pending set_next].
  - case_decide as Hpos; [|by apply Hnext; cbn [next_child_index sched_budget pending_count one_pending set_next children parent budget expired remaining_weight]; solve [reflexivity|lia]].
    eexists _, _, _. split; [reflexivity|]. split.
    { unfold balanced in *. simpl. pose proof (weights_set _ _ _ (CPending w) Hc) as Hs. simpl in Hs. lia. }
    split; [unfold affordable; simpl; rewrite drop_set by lia; lia|]. split; [done|]. split; [done|]. split; [simpl; lia|].
    by exists w.
  - by apply Hnext; cbn [next_child_index sched_budget pending_count one_pending set_next children parent budget expired remaining_weight]; solve [reflexivity|lia].
  - by apply Hnext; cbn [next_child_index sched_budget pending_count one_pending set_next children parent budget expired remaining_weight]; solve [reflexivity|lia].
  - case_decide as Hpos.
    + pose proof (weights_ge _ _ _ Hc) as Hw. simpl in Hw. unfold balanced in Hb.
      rewrite count_sub_le by lia. simpl. rewrite count_sub_le by lia. simpl. rewrite count_sub_le by lia. simpl.
      eexists _, _, _. split; [reflexivity|]. split.
      { unfold balanced. simpl. pose proof (weights_set _ _ _ (CNode (w - w `min` sched_budget sch) m) Hc) as Hs. simpl in Hs. lia. }
      split; [unfold affordable; simpl; rewrite drop_set by lia; lia|]. split; [done|]. split; [done|]. split; [simpl; lia|].
      exists w. simpl. split; [done|]. split; [done|]. split; [lia|]. split; [done|]. split; [|lia].
      by eapply (skel_set nd _ (CNode w m)).
    + eexists _, _, _. split; [reflexivity|]. split; [done|]. split; [unfold affordable; simpl; lia|].
      split; [done|]. split; [done|]. split; [simpl; lia|]. exists w. simpl.
      split; [done|]. split; [done|]. split; [lia|]. split; [done|]. split; [done|lia].
  - by case_decide; apply Hnext; cbn [next_child_index sched_budget pending_count one_pending set_next children parent budget expired remaining_weight]; solve [reflexivity|lia].
Qed.
End weights.

(** * The operations on the stream *)

Section stream.
Context {Out In E : Type}.
Context (from_err : BoundedTraversalError → E).
Context (unfold_ : In → result (list (OrderedTraversal Out In)) E).
#[local] Abbreviation Node := (Node Out In).
#[local] Abbreviation Job := (Loc * In)%type.
Context `{FU : !FuturesUnordered Job} `{BuildMode}.
#[local] Abbreviation St := (BoundedTraversalOrderedStream (Out:=Out) (In:=In)).
Implicit Types (s : St) (nd : Node) (t : gmap nat Node) (P : gmap nat (list nat)) (F : list (list nat * (Out + In))) (lost : list Job).

Definition shapes t : gmap nat (option Loc * list (Kind (Out:=Out) (In:=In))) := skel <$> t.
Definition budgets t : nat := map_sum budget t.
Definition jobs s lost : list Job := fu_jobs (scheduled s) ++ schedule_queue s ++ lost.

Lemma shapes_insert i nd t : shapes (<[i := nd]> t) = <[i := skel nd]> (shapes t).
Proof. apply fmap_insert. Qed.

Lemma shapes_lookup i t : shapes t !! i = skel <$> t !! i.
Proof. apply lookup_fmap. Qed.

Lemma shapes_same i nd nd' t : t !! i = Some nd → skel nd' = skel nd → shapes (<[i := nd']> t) = shapes t.
Proof. intros Hi Hs. rewrite shapes_insert, Hs. apply insert_id. by rewrite shapes_lookup, Hi. Qed.

Lemma shapes_id i nd t : t !! i = Some nd → shapes (<[i := nd]> t) = shapes t.
Proof. intros Hi. by rewrite insert_id. Qed.

Lemma shapes_set_child i c k nd nd' t :
  parent nd' = parent nd → children nd' = <[c := k]> (children nd) →
  shapes (<[i := nd']> t) = set_child (shapes (<[i := nd]> t)) (Build_NodeLocation i c) (kind k).
Proof.
  intros Hp Hc. rewrite !shapes_insert. unfold set_child. simpl. rewrite alter_insert_eq. f_equal.
  unfold skel. by rewrite Hp, Hc, list_fmap_insert.
Qed.

Lemma child_at_shapes t l nd c :
  t !! node_index l = Some nd → children nd !! child_index l = Some c → child_at (shapes t) l (kind c).
Proof.
  intros Hn Hc. exists (parent nd), (kind <$> children nd). rewrite shapes_lookup, Hn. split; [done|].
  by rewrite list_lookup_fmap, Hc.
Qed.

Lemma child_at_shapes_inv t l k :
  child_at (shapes t) l k → ∃ nd c, t !! node_index l = Some nd ∧ children nd !! child_index l = Some c ∧ kind c = k.
Proof.
  intros (par&ks&Hn&Hk). rewrite shapes_lookup in Hn. destruct (t !! node_index l) as [nd|]; [|done].
  injection Hn as <- <-. rewrite list_lookup_fmap in Hk.
  destruct (children nd !! child_index l) as [c|] eqn:Hc; [|done]. injection Hk as <-. by exists nd, c.
Qed.

(** The numbers of a node, under a limit of [lim] more outputs. *)
Definition node_num (lim : option nat) nd : Prop :=
  balanced nd ∧ ∀ l, lim = Some l → fits (expired nd + l).
Definition nums (lim : option nat) t : Prop := ∀ i nd, t !! i = Some nd → node_num lim nd.

Lemma nums_insert lim t i nd : nums lim t → node_num lim nd → nums lim (<[i := nd]> t).
Proof. intros Ht Hn j x [[_ <-]|[_ Hj]]%lookup_insert_Some; [done|by eapply Ht]. Qed.

Lemma node_num_same lim nd nd' : node_num lim nd → balanced nd' → expired nd' = expired nd → node_num lim nd'.
Proof. intros [_ He] Hb Heq. split; [done|]. by rewrite Heq. Qed.

(** What scheduling leaves alone. *)
Definition same s s' : Prop :=
  scheduled_max s' = scheduled_max s ∧ total_budget s' = total_budget s ∧ limit s' = limit s ∧
  execution_tree_index s' = execution_tree_index s ∧ yield_next_location s' = yield_next_location s.

Lemma same_trans s1 s2 s3 : same s1 s2 → same s2 s3 → same s1 s3.
Proof. unfold same. intros (?&?&?&?&?) (?&?&?&?&?). repeat split; congruence. Qed.

Lemma push_job_ok s j lost :
  fu_len (scheduled s) ≤ scheduled_max s →
  jobs (push_job s j) lost ≡ₚ j :: jobs s lost ∧ same s (push_job s j) ∧
  execution_tree (push_job s j) = execution_tree s ∧ fu_len (scheduled (push_job s j)) ≤ scheduled_max s.
Proof.
  intros Hmax. rewrite fu_len_jobs in *. unfold push_job. case_decide as Hd; rewrite fu_len_jobs in Hd; unfold jobs; simpl.
  - split; [solve_perm|]. done.
  - split; [by rewrite fu_jobs_push|]. split; [done|]. split; [done|]. rewrite fu_push_length. lia.
Qed.

(** ** Scheduling *)

Section scheduling.
Context (P : gmap nat (list nat)) (idx : nat) (F : list (list nat * (Out + In))) (loc : Loc) (lost : list Job).

(** The tree of the stream, with the jobs of its pending children. *)
Record coherent s t : Prop := {
  c_front : front_ok P (shapes t) idx (jobs s lost) F;
  c_first : at_front P (shapes t) loc;
  c_max : fu_len (scheduled s) ≤ scheduled_max s;
}.

Definition left_effect (action : NodeAction In) (sch sch' : NodeSchedule) nd nd' : Prop :=
  match action with
  | Schedule _ _ => False
  | Recurse c m b => next_child_index sch ≤ c ∧ next_child_index sch' = c + 1 ∧ budget nd' + b = budget nd ∧
      (kind <$> children nd') !! c = Some (KNode m) ∧ 0 < pending_count sch'
  | ActPending | ActComplete => budget nd' = budget nd
  end.

Definition same_nodes nd nd' : Prop :=
  ∀ c m, (kind <$> children nd') !! c = Some (KNode m) → (kind <$> children nd) !! c = Some (KNode m).

Lemma schedule_children_ok fuel s i nd sch t :
  length (children nd) - next_child_index sch < fuel →
  coherent s (<[i := nd]> t) → balanced nd → affordable sch nd →
  ∃ action sch' nd' s', schedule_children fuel s i nd sch = ret (action, sch', nd', s') ∧
    same s s' ∧ execution_tree s' = execution_tree s ∧ coherent s' (<[i := nd']> t) ∧
    balanced nd' ∧ affordable sch' nd' ∧ parent nd' = parent nd ∧ expired nd' = expired nd ∧
    same_nodes nd nd' ∧ left_effect action sch sch' nd nd'.
Proof.
  revert s nd sch. induction fuel as [|fuel IH]; intros s nd sch Hfuel Hco Hb Ha; [lia|].
  cbn [schedule_children]. unfold next_action.
  destruct (action_loop_ok (length (children nd) - next_child_index sch) sch nd (reflexivity _) Hb Ha)
    as (a&sch1&nd1&Heq&Hb1&Ha1&Hp1&He1&Hpc1&Heff). rewrite Heq. cbn [exec_bind].
  destruct a as [c v|c m b| |]; simpl in Heff.
  - destruct Heff as (w&Hc1&Hn1&Hbu&Hc&Hk). pose proof (lookup_lt_Some _ _ _ Hc) as Hlt.
    destruct Hco as [Hfr Hfi Hmax].
    assert (child_at (shapes (<[i := nd]> t)) (Build_NodeLocation i c) (KUnscheduled v)) as Hat.
    { eapply (child_at_shapes _ (Build_NodeLocation i c) nd (Unscheduled w v)); [by rewrite lookup_insert_eq|done]. }
    destruct (push_job_ok s (Build_NodeLocation i c, v) lost Hmax) as (Hpj&Hsame&Htr&Hmax').
    destruct (IH (push_job s (Build_NodeLocation i c, v)) nd1 sch1) as (a&sch2&nd2&s2&Heq2&Hs2&Ht2&Hco2&Hb2&Ha2&Hp2&He2&Hsn&Heff2).
    + rewrite Hk, Hn1, length_insert. lia.
    + assert (shapes (<[i := nd1]> t) = set_child (shapes (<[i := nd]> t)) (Build_NodeLocation i c) KPending) as Hsh
        by by apply (shapes_set_child i c (CPending w)).
      split; [|rewrite Hsh; by eapply at_front_set|by destruct Hsame as [-> _]].
      rewrite Hsh. eapply front_ok_perm; [symmetry; exact Hpj|]. by eapply front_schedule.
    + done.
    + done.
    + assert (same_nodes nd nd1) as Hsn1.
      { intros c' m. rewrite Hk, list_fmap_insert. intros [(_&?&_)|[_ ?]]%list_lookup_insert_Some; done. }
      exists a, sch2, nd2, s2. split; [exact Heq2|]. split; [by eapply same_trans|]. split; [congruence|]. split; [done|].
      split; [done|]. split; [done|]. split; [congruence|]. split; [congruence|].
      split; [intros c' m' Hc'; by apply Hsn1, Hsn|].
      destruct a as [| c' m' b'| |]; simpl in *; [done| |congruence..].
      destruct Heff2 as (?&?&?&Hkn&?). split; [lia|]. split; [done|]. split; [lia|done].
  - destruct Heff as (w&Hc1&Hn1&Hbu&Hc&Hk&Hpend). eexists _, _, _, _. split; [reflexivity|]. split; [done|]. split; [done|].
    assert (shapes (<[i := nd1]> t) = shapes (<[i := nd]> t)) as Hsh by by rewrite !shapes_insert, Hk.
    injection Hk as _ Hk. destruct Hco. split; [by split; try rewrite Hsh|]. do 4 (split; [done|]).
    split; [intros c' m'; by rewrite Hk|]. split; [done|]. split; [done|]. split; [done|]. split; [|done].
    by rewrite Hk, list_lookup_fmap, Hc.
  - destruct Heff as (Hn1&Hbu&Hk). eexists _, _, _, _. split; [reflexivity|]. split; [done|]. split; [done|].
    assert (shapes (<[i := nd1]> t) = shapes (<[i := nd]> t)) as Hsh by by rewrite !shapes_insert, Hk.
    injection Hk as _ Hk. destruct Hco. split; [by split; try rewrite Hsh|]. do 4 (split; [done|]).
    split; [intros c' m'; by rewrite Hk|done].
  - destruct Heff as (Hn1&Hbu&Hk). eexists _, _, _, _. split; [reflexivity|]. split; [done|]. split; [done|].
    assert (shapes (<[i := nd1]> t) = shapes (<[i := nd]> t)) as Hsh by by rewrite !shapes_insert, Hk.
    injection Hk as _ Hk. destruct Hco. split; [by split; try rewrite Hsh|]. do 4 (split; [done|]).
    split; [intros c' m'; by rewrite Hk|done].
Qed.

(** The stack of frames, [U] being the nodes not entered yet. *)
Definition next_of (f : Frame) : nat := match frame_schedule f with Some sch => next_child_index sch | None => 0 end.
Definition has_node t i c m : Prop := child_at (shapes t) (Build_NodeLocation i c) (KNode m).
Definition resumable (f : Frame) : Prop := ∃ sch, frame_schedule f = Some sch ∧ 0 < pending_count sch.

Record frame_ok t (U : gset nat) (f : Frame) : Prop := {
  fr_node : ∃ nd, t !! frame_node f = Some nd ∧ ∀ sch, frame_schedule f = Some sch → affordable sch nd;
  fr_todo c m : next_of f ≤ c → has_node t (frame_node f) c m → m ∈ U;
  fr_entered : frame_node f ∉ U;
}.

Record stack_ok t (U : gset nat) (stack : list Frame) (completed : option nat) : Prop := {
  st_frames : Forall (frame_ok t U) stack;
  st_nodup : NoDup (frame_node <$> stack);
  st_tail : Forall resumable (tail stack);
  st_completed : is_Some completed → Forall resumable stack;
  st_todo m : m ∈ U → is_Some (t !! m) ∧ ∀ c m', has_node t m c m' → m' ∈ U;
}.

Lemma has_node_lookup t i nd c m :
  t !! i = Some nd → has_node t i c m ↔ (kind <$> children nd) !! c = Some (KNode m).
Proof.
  intros Hi. unfold has_node, child_at. simpl. rewrite shapes_lookup, Hi. simpl. split; [by intros (?&?&[= <- <-]&?)|eauto].
Qed.

Lemma has_node_insert_ne t i nd j c m : j ≠ i → has_node (<[i := nd]> t) j c m ↔ has_node t j c m.
Proof. intros Hj. unfold has_node, child_at. simpl. by rewrite !shapes_lookup, lookup_insert_ne. Qed.

Lemma has_node_parent t i c m j d : tree_ok P (shapes t) idx → has_node t i c m → has_node t j d m → i = j ∧ c = d.
Proof.
  intros Ht Hi Hj. destruct (t_kids _ _ _ Ht _ _ Hi) as [ks Hm], (t_kids _ _ _ Ht _ _ Hj) as [ks' Hm'].
  rewrite Hm in Hm'. by injection Hm' as -> -> _.
Qed.

Lemma has_node_lt t i c m : tree_ok P (shapes t) idx → has_node t i c m → i < m.
Proof.
  intros Ht Hi. destruct (t_kids _ _ _ Ht _ _ Hi) as [ks Hm]. by destruct (t_nodes _ _ _ Ht _ _ _ Hm) as (_&Hlt&_).
Qed.

(** The top frame is done: the stack below it goes on. *)
Lemma stack_pop t U f stack completed completed' nd :
  stack_ok t U (f :: stack) completed → stack_ok (<[frame_node f := nd]> t) U stack completed'.
Proof.
  intros [Hfr Hnd Htl _ Htodo]. apply Forall_cons in Hfr as [[_ _ Hin] Hfr]. simpl in *. apply NoDup_cons in Hnd as [Hnin Hnd].
  split; [|done| |done|].
  - rewrite Forall_forall in Hfr |- *. intros g Hg. destruct (Hfr _ Hg) as [Hn Ht Hu].
    assert (frame_node g ≠ frame_node f) as Hne by (intros Heq; apply Hnin; rewrite <-Heq; by apply list_elem_of_fmap_2).
    split; [by rewrite lookup_insert_ne| |done]. intros c m Hc. rewrite has_node_insert_ne by done. by apply Ht.
  - by destruct stack; [|apply Forall_cons in Htl as [_ ?]].
  - intros m Hm. assert (m ≠ frame_node f) as Hne by (by intros ->). rewrite lookup_insert_ne by done.
    destruct (Htodo m Hm) as [Hs Hk]. split; [done|]. intros c m'. rewrite has_node_insert_ne by done. apply Hk.
Qed.

(** A child node is entered. *)
Lemma stack_push t U f stack completed nd sch surplus c m :
  tree_ok P (shapes (<[frame_node f := nd]> t)) idx → stack_ok t U (f :: stack) completed → affordable sch nd →
  next_of f ≤ c → has_node t (frame_node f) c m → next_child_index sch = c + 1 → 0 < pending_count sch →
  (∀ c m, has_node (<[frame_node f := nd]> t) (frame_node f) c m → has_node t (frame_node f) c m) →
  has_node (<[frame_node f := nd]> t) (frame_node f) c m →
  stack_ok (<[frame_node f := nd]> t) (U ∖ {[m]})
    ({| frame_node := m; frame_child := Some c; frame_schedule := None; frame_surplus := 0 |} ::
     {| frame_node := frame_node f; frame_child := frame_child f; frame_schedule := Some sch; frame_surplus := surplus |} :: stack) None
  ∧ S (size (U ∖ {[m]})) = size U.
Proof.
  intros Ht' Hst Haff Hc Hm Hnext Hpend Hsame Hm'. pose proof (stack_pop _ _ _ _ _ None nd Hst) as [Hfr _ _ _ Htodo].
  destruct Hst as [Hfr0 Hnd Htl _ Htodo0]. apply Forall_cons in Hfr0 as [[_ Hf Hin] Hfr0]. simpl in *.
  assert (m ∈ U) as HmU by by eapply Hf.
  apply NoDup_cons in Hnd as [Hnin Hnd].
  assert (∀ i d, has_node (<[frame_node f := nd]> t) i d m → i = frame_node f ∧ d = c) as Hpar.
  { intros i d Hi. by apply (has_node_parent _ _ _ _ _ _ Ht' Hi). }
  assert (m ≠ frame_node f) as Hmf by (intros Heq; by rewrite Heq in HmU).
  split; [split|].
  - constructor; [|constructor].
    + split; simpl; [|intros d m' _ Hd|set_solver].
      * rewrite lookup_insert_ne by done. destruct (Htodo0 m HmU) as [[ndm ->] _]. by exists ndm.
      * apply elem_of_difference. split; [by eapply (Htodo m)|]. rewrite elem_of_singleton. intros ->.
        by destruct (Hpar _ _ Hd).
    + split; simpl; [|intros d m' Hd Hm2|set_solver].
      * rewrite lookup_insert_eq. exists nd. split; [done|]. by intros ? [= <-].
      * unfold next_of in Hd. simpl in Hd. apply elem_of_difference. split; [eapply Hf; [|by apply Hsame]; lia|].
        rewrite elem_of_singleton. intros ->. destruct (Hpar _ _ Hm2) as [_ ->]. lia.
    + rewrite Forall_forall in Hfr |- *. intros g Hg. destruct (Hfr _ Hg) as [Hn Ht Hu]. split; [done| |set_solver].
      intros d m' Hd Hm2. apply elem_of_difference. split; [by eapply Ht|]. rewrite elem_of_singleton. intros ->.
      destruct (Hpar _ _ Hm2) as [Heq _]. apply Hnin. rewrite <-Heq. by apply list_elem_of_fmap_2.
  - simpl. apply NoDup_cons. split; [|by apply NoDup_cons]. rewrite elem_of_cons. intros [?|Hg]; [done|].
    apply list_elem_of_fmap in Hg as (g&->&Hg). rewrite Forall_forall in Hfr. by destruct (Hfr _ Hg).
  - simpl. constructor; [|done]. by exists sch.
  - by intros [].
  - intros m2 [Hm2 Hne]%elem_of_difference. destruct (Htodo m2 Hm2) as [Hs Hk]. split; [done|]. intros d m3 Hd.
    apply elem_of_difference. split; [by eapply Hk|]. rewrite elem_of_singleton. intros ->.
    destruct (Hpar _ _ Hd) as [-> _]. done.
  - rewrite size_difference by set_solver. rewrite size_singleton.
    assert (size ({[m]} : gset nat) ≤ size U) as Hle by (apply subseteq_size; set_solver). rewrite size_singleton in Hle. lia.
Qed.

Lemma schedule_stack_ok fuel s stack completed additional U :
  coherent s (execution_tree s) → nums (limit s) (execution_tree s) → stack_ok (execution_tree s) U stack completed →
  budgets (execution_tree s) + additional + sum_list_with frame_surplus stack = total_budget s → fits (total_budget s) →
  2 * size U + length stack ≤ fuel →
  ∃ extra s', schedule_loop fuel s stack completed additional = ret (Ok extra, s') ∧ same s s' ∧
    coherent s' (execution_tree s') ∧ nums (limit s) (execution_tree s') ∧ budgets (execution_tree s') + extra = total_budget s.
Proof.
  revert s stack completed additional U. induction fuel as [|fuel IH]; intros s stack completed additional U Hco Hnum Hst Hbud Hfit Hfuel;
    (destruct stack as [|f stack];
      [eexists _, s; simpl in Hbud; split; [reflexivity|]; split; [done|]; split; [done|]; split; [done|]; lia|]); [simpl in Hfuel; lia|].
  pose proof Hst as [Hfr _ _ Hcomp _]. apply Forall_cons in Hfr as [[(nd&Hnd&Haff) _ _] _]. cbn [schedule_loop]. rewrite Hnd.
  cbn [sum_list_with length] in Hbud, Hfuel.
  destruct (Hnum _ _ Hnd) as [Hbal Hexp]. pose proof (map_sum_ge budget _ _ _ Hnd) as Hge. unfold budgets in Hbud.
  set (sch0 := default (schedule nd) (frame_schedule f)).
  assert (affordable sch0 nd) as Haff0.
  { unfold sch0. destruct (frame_schedule f) as [sch|]; [by apply Haff|]. unfold affordable, schedule. simpl. lia. }
  assert (next_of f ≤ next_child_index sch0) as Hnext0 by (unfold next_of, sch0; destruct (frame_schedule f); simpl; lia).
  assert (∃ sch1, match completed with Some _ => child_scheduled sch0 | None => ret sch0 end = ret sch1 ∧
    next_child_index sch1 = next_child_index sch0 ∧ sched_budget sch1 = sched_budget sch0) as (sch1&->&Hn1&Hsb1).
  { destruct completed as [c|]; [|by exists sch0]. specialize (Hcomp (mk_is_Some _ _ eq_refl)).
    apply Forall_cons in Hcomp as [(sch&Hsch&Hpos) _]. unfold sch0. rewrite Hsch. simpl.
    unfold child_scheduled. rewrite count_sub_le by lia. simpl. by eexists. }
  cbn [exec_bind].
  destruct (add_budget_ok nd additional) as (b'&extra&->&Hsum&Hb'); [eapply fits_le; [|exact Hfit]; lia|]. cbn [exec_bind].
  rewrite count_add_le by (eapply (fits_le _ (total_budget s)); [lia|done]). cbn [exec_bind].
  set (nd1 := set_budget nd b'). set (surplus := frame_surplus f + extra).
  assert (skel nd1 = skel nd) as Hsk by done.
  assert (affordable sch1 nd1) as Haff1.
  { unfold affordable in *. rewrite Hn1, Hsb1. pose proof (weights_drop_le (children nd) (next_child_index sch0)) as Hw.
    unfold balanced in Hbal. simpl. lia. }
  destruct (schedule_children_ok (S (length (children nd1) - next_child_index sch1)) s (frame_node f) nd1 sch1 (execution_tree s))
    as (action&sch2&nd2&s2&->&Hsame&Htr&Hco2&Hb2&Haff2&Hp2&He2&Hsn&Heff); [lia| |done|done|].
  { destruct Hco. split; [..|done]; by rewrite (shapes_same _ nd). }
  cbn [exec_bind]. pose proof (map_sum_update budget _ _ nd nd2 Hnd) as Hupd.
  set (s3 := set_node s2 (frame_node f) nd2).
  assert (execution_tree s3 = <[frame_node f := nd2]> (execution_tree s)) as Ht3 by (simpl; by rewrite Htr).
  assert (same s s3) as Hsame3 by (eapply same_trans; [exact Hsame|done]).
  assert (coherent s3 (execution_tree s3)) as Hco3 by (rewrite Ht3; destruct Hco2; by split).
  assert (nums (limit s) (execution_tree s3)) as Hnum3.
  { rewrite Ht3. apply nums_insert; [done|]. by apply (node_num_same _ nd). }
  assert (∀ add stack' comp U', stack_ok (execution_tree s3) U' stack' comp →
    budgets (execution_tree s3) + add + sum_list_with frame_surplus stack' = total_budget s → 2 * size U' + length stack' ≤ fuel →
    ∃ extra s', schedule_loop fuel s3 stack' comp add = ret (Ok extra, s') ∧ same s s' ∧
    coherent s' (execution_tree s') ∧ nums (limit s) (execution_tree s') ∧ budgets (execution_tree s') + extra = total_budget s) as Hgo.
  { intros add stack' comp U' Hst' Hbud' Hfuel'. pose proof Hsame3 as (_&Htb&Hl&_&_).
    destruct (IH s3 stack' comp add U') as (ex&s'&?&?&?&?&?); rewrite ?Hl, ?Htb; [done..|].
    rewrite Hl in *. rewrite Htb in *. exists ex, s'. split; [done|]. split; [by eapply same_trans|done]. }
  destruct action as [|c m b| |]; simpl in Heff; [done| | |].
  - destruct Heff as (Hc&Hn2&Hbu&Hk&Hpend). rewrite Hn1 in Hc.
    assert (has_node (execution_tree s) (frame_node f) c m) as Hhas by (apply (has_node_lookup _ _ nd); [done|by apply Hsn]).
    assert (has_node (<[frame_node f := nd2]> (execution_tree s)) (frame_node f) c m) as Hhas'.
    { apply (has_node_lookup _ _ nd2); [by rewrite lookup_insert_eq|done]. }
    destruct (stack_push (execution_tree s) U f stack completed nd2 sch2 surplus c m) as [Hst' Hsz]; [by destruct Hco2 as [[] _ _]|done|done|lia|done..| |done|].
    + intros d m' Hd. apply (has_node_lookup _ _ nd); [done|]. apply Hsn. by apply (has_node_lookup _ _ nd2) in Hd; [|rewrite lookup_insert_eq].
    + apply (Hgo b _ _ (U ∖ {[m]})); [by rewrite Ht3| |cbn [length]; lia]. rewrite Ht3. unfold budgets. cbn [sum_list_with frame_surplus]. simpl in Hbu. unfold surplus. lia.
  - apply (Hgo surplus _ _ U); [rewrite Ht3; by eapply stack_pop| |cbn [length]; lia]. rewrite Ht3. unfold budgets, surplus. simpl in Heff. lia.
  - apply (Hgo surplus _ _ U); [rewrite Ht3; by eapply stack_pop| |cbn [length]; lia]. rewrite Ht3. unfold budgets, surplus. simpl in Heff. lia.
Qed.
End scheduling.

Context (queued_max : nat).

(** A stream with something to come. *)
Record ready s P F loc lost : Prop := {
  r_coherent : coherent P (execution_tree_index s) F loc lost s (execution_tree s);
  r_nums : nums (limit s) (execution_tree s);
  r_budget : budgets (execution_tree s) = total_budget s;
  r_fits : fits (total_budget s);
  r_max : total_budget s ≤ queued_max;
}.

(** What the operations on a stream that goes on leave alone. *)
Definition steady s s' : Prop :=
  scheduled_max s' = scheduled_max s ∧ limit s' = limit s ∧ yield_next_location s' = yield_next_location s.

Lemma schedule_next_ok s P F loc lost :
  ready s P F loc lost → ∃ s', schedule_next s = ret (Ok (), s') ∧ ready s' P F loc lost ∧ steady s s'.
Proof.
  intros [Hco Hnum Hbud Hfit Hqm]. unfold schedule_next.
  pose proof Hco as [[Ht _ _ _ _] _ _]. pose proof (t_root _ _ _ Ht) as [_ [ks0 H0]].
  rewrite shapes_lookup in H0. destruct (execution_tree s !! 0) as [nd|] eqn:Hnd; [|done].
  set (U := dom (execution_tree s) ∖ {[0]}).
  assert (S (size U) = size (execution_tree s)) as HU.
  { unfold U. rewrite <-(size_dom (D:=gset nat)). assert (({[0]} : gset nat) ⊆ dom (execution_tree s)) as Hsub.
    { apply singleton_subseteq_l, elem_of_dom. eauto. }
    rewrite size_difference, size_singleton by done. apply subseteq_size in Hsub. rewrite size_singleton in Hsub. lia. }
  assert (∀ i c m, has_node (execution_tree s) i c m → m ∈ U) as HinU.
  { intros i c m Hm. apply has_node_lt with (P := P) (idx := execution_tree_index s) in Hm as Hlt; [|done].
    destruct (t_kids _ _ _ Ht _ _ Hm) as [ks Hk]. rewrite shapes_lookup in Hk. unfold U.
    apply elem_of_difference. split; [|rewrite elem_of_singleton; lia]. apply elem_of_dom.
    destruct (execution_tree s !! m); [eauto|done]. }
  destruct (schedule_stack_ok P (execution_tree_index s) F loc lost (2 * size (execution_tree s)) s
    [{| frame_node := 0; frame_child := None; frame_schedule := None; frame_surplus := 0 |}] None 0 U)
    as (extra&s'&->&Hsame&Hco'&Hnum'&Hbud'); [done|done| |cbn [sum_list_with frame_surplus]; lia|done|cbn [length]; lia|].
  { split; [|simpl; apply NoDup_singleton|done|by intros []|].
    - apply Forall_singleton. split; simpl; [by exists nd|intros; by eapply HinU|]. unfold U. set_solver.
    - intros m [Hm _]%elem_of_difference. apply elem_of_dom in Hm. split; [done|]. intros c m'. apply HinU. }
  cbn [exec_bind]. pose proof Hsame as (Hmax&Htb&Hl&Hi&Hloc). rewrite count_sub_le by lia. cbn [exec_bind].
  eexists. split; [reflexivity|]. split; [|done]. split; simpl; [by rewrite Hi; destruct Hco'; split|by rewrite Hl|lia| |lia].
  eapply fits_le; [|exact Hfit]. lia.
Qed.

(** ** Yielding *)

Lemma tree_update_budget t i nd nd' : t !! i = Some nd → budgets (<[i := nd']> t) + budget nd = budgets t + budget nd'.
Proof. apply map_sum_update. Qed.

Lemma walk_up_ok fuel s par surplus needed P idx lim :
  tree_ok P (shapes (execution_tree s)) idx → nums lim (execution_tree s) → fits (budgets (execution_tree s) + surplus) →
  match par with Some l => node_index l < fuel ∧ ∃ m, child_at (shapes (execution_tree s)) l (KNode m) | None => True end →
  ∃ surplus' t', walk_up fuel s par surplus needed = ret (Ok surplus', set_tree s t') ∧
    shapes t' = shapes (execution_tree s) ∧ nums lim t' ∧ budgets t' + surplus' = budgets (execution_tree s) + surplus.
Proof.
  revert s par surplus needed. induction fuel as [|fuel IH]; intros s par surplus needed Ht Hnum Hfit Hpar;
    (destruct par as [l|]; [destruct Hpar as [Hlt [m Hm]]|exists surplus, (execution_tree s); by destruct s]); [lia|].
  cbn [walk_up]. destruct (child_at_shapes_inv _ _ _ Hm) as (nd&c&Hnd&Hc&Hk). rewrite Hnd.
  destruct (Hnum _ _ Hnd) as [Hbal Hexp]. destruct c as [| | |w m'|]; try done.
  destruct (child_yielded_ok nd (child_index l) w m' needed Hbal Hc) as (nd1&->&Hb1&Hs1&Hbu1&He1). cbn [exec_bind].
  pose proof (map_sum_ge budget _ _ _ Hnd) as Hge. unfold budgets in Hfit.
  destruct (add_budget_ok nd1 surplus) as (b'&extra&->&Hsum&_); [eapply fits_le; [|exact Hfit]; lia|]. cbn [exec_bind].
  set (nd2 := set_budget nd1 b'). set (s1 := set_node s (node_index l) nd2).
  assert (shapes (execution_tree s1) = shapes (execution_tree s)) as Hsh by (by apply (shapes_same _ nd)).
  pose proof (tree_update_budget _ _ nd nd2 Hnd) as Hupd. simpl in Hupd.
  destruct (IH s1 (parent nd2) extra (budget_needed nd2)) as (sur'&t'&->&Hsh'&Hnum'&Hb').
  - by rewrite Hsh.
  - simpl. apply nums_insert; [done|]. by apply (node_num_same _ nd).
  - eapply fits_le; [|exact Hfit]. simpl. unfold budgets in Hupd. unfold budgets. lia.
  - destruct (t_nodes _ _ _ Ht (node_index l) (parent nd) (kind <$> children nd)) as [_ Hp]; [by rewrite shapes_lookup, Hnd|].
    injection Hs1 as Hp1 _. simpl. rewrite Hp1. destruct (parent nd) as [l'|]; [|done]. destruct Hp as (?&?&_). split; [lia|].
    exists (node_index l). by rewrite <-Hsh in *.
  - exists sur', t'. split; [done|]. split; [congruence|]. split; [done|]. simpl in Hb'. lia.
Qed.

Lemma nums_pred l t : nums (Some (S l)) t → nums (Some l) t.
Proof.
  intros Ht i nd Hi. destruct (Ht _ _ Hi) as [? He]. split; [done|]. intros l' [= <-].
  eapply fits_le; [|by apply He]. lia.
Qed.

Definition limit_pred s s' : Prop := match limit s with None => limit s' = None | Some l => 0 < l ∧ limit s' = Some (l - 1) end.

Definition cleared s : Prop := fu_jobs (scheduled s) = [] ∧ execution_tree s = ∅ ∧ total_budget s = 0.

Lemma yield_output_ok s i nd c out P F lost :
  ready s P F (Build_NodeLocation i (c + 1)) lost → execution_tree s !! i = Some nd → limit s ≠ Some 0 →
  ∃ s', yield_output s i nd c out = ret (Ok (YOutput (Some out)), s') ∧ scheduled_max s' = scheduled_max s ∧ limit_pred s s' ∧
    (limit s' = Some 0 ∧ yield_next_location s' = None ∧ cleared s' ∨
     limit s' ≠ Some 0 ∧ yield_next_location s' = Some (Build_NodeLocation i (c + 1)) ∧ ready s' P F (Build_NodeLocation i (c + 1)) lost).
Proof.
  intros [Hco Hnum Hbud Hfit Hqm] Hnd Hl0. unfold yield_output. destruct (Hnum _ _ Hnd) as [Hbal Hexp].
  assert (∃ lim nd1, match limit s with
      | None => ret (None, nd)
      | Some l => let! l := count_sub l 1 in
          let! nd := if decide (l < total_budget s) then expire_budget nd 1 else ret nd in ret (Some l, nd)
      end = ret (lim, nd1) ∧ match limit s with None => lim = None | Some l => 0 < l ∧ lim = Some (l - 1) end ∧
      nums lim (<[i := nd1]> (execution_tree s)) ∧ skel nd1 = skel nd ∧ budget nd1 = budget nd) as (lim&nd1&->&Hlim&Hnum1&Hsk1&Hb1).
  { destruct (limit s) as [l|] eqn:Hlim; [|exists None, nd; split; [done|]; split; [done|]; split; [by apply nums_insert|done]].
    destruct l as [|l]; [done|]. rewrite count_sub_le by lia. cbn [exec_bind]. replace (S l - 1) with l by lia. case_decide.
    - unfold expire_budget. pose proof (Hexp _ eq_refl) as Hf. rewrite count_add_le by (eapply (fits_le _ _); [|exact Hf]; lia). cbn [exec_bind].
      eexists _, _. split; [reflexivity|]. split; [split; [lia|done]|]. split; [|done].
      apply nums_insert; [by apply nums_pred|]. split; [done|]. intros l' [= <-]. simpl. eapply fits_le; [|exact Hf]. lia.
    - eexists _, _. split; [reflexivity|]. split; [split; [lia|done]|]. split; [|done].
      apply nums_insert; [by apply nums_pred|]. split; [done|]. intros l' [= <-]. eapply fits_le; [|by apply Hexp]. lia. }
  cbn [exec_bind]. set (s1 := set_limit (set_node s i nd1) lim). assert (limit s1 = lim) as Hls1 by done.
  case_decide as Hz.
  { eexists. split; [reflexivity|]. split; [done|]. split; [by unfold limit_pred; simpl|]. left. split; [done|]. split; [done|].
    split; [by simpl; rewrite fu_jobs_new|done]. }
  assert (shapes (execution_tree s1) = shapes (execution_tree s)) as Hsh1 by (simpl; by apply (shapes_same _ nd)).
  pose proof (tree_update_budget _ _ nd nd1 Hnd) as Hu1.
  destruct (take_expired_ok nd1) as (b2&e&e'&->&Hb2&He2). cbn [exec_bind]. set (nd2 := set_expired (set_budget nd1 b2) e').
  pose proof (map_sum_ge budget _ _ _ Hnd) as Hge. unfold budgets in *. rewrite count_sub_le by (simpl; lia). cbn [exec_bind].
  destruct (take_surplus_ok nd2) as (b3&surplus&->&Hb3). cbn [exec_bind]. set (nd3 := set_budget nd2 b3). simpl in Hb3.
  set (s2 := set_total _ _).
  assert (execution_tree s2 = <[i := nd3]> (<[i := nd1]> (execution_tree s))) as Ht2 by done. rewrite insert_insert_eq in Ht2.
  pose proof (tree_update_budget _ _ nd nd3 Hnd) as Hu3. unfold budgets in Hu3. simpl in Hu3.
  destruct Hco as [Hfr Hfi Hmax]. pose proof Hfr as [Ht _ _ _ _].
  assert (shapes (execution_tree s2) = shapes (execution_tree s)) as Hsh2 by (rewrite Ht2; by apply (shapes_same _ nd)).
  assert (nums lim (execution_tree s2)) as Hnum2.
  { assert (node_num lim nd1) as [Hbal1 Hexp1] by (apply (Hnum1 i); by rewrite lookup_insert_eq).
    simpl. apply nums_insert; [done|]. split; [done|]. intros l Hl. eapply fits_le; [|by apply (Hexp1 l)]. simpl. lia. }
  destruct (walk_up_ok i s2 (parent nd3) surplus (budget_needed nd3) P (execution_tree_index s) lim) as (sur'&t'&->&Hsh'&Hnum'&Hb').
  - by rewrite Hsh2.
  - done.
  - eapply fits_le; [|exact Hfit]. rewrite Ht2. unfold budgets. lia.
  - destruct (t_nodes _ _ _ Ht i (parent nd) (kind <$> children nd)) as [_ Hp]; [by rewrite shapes_lookup, Hnd|].
    injection Hsk1 as Hp1 _. simpl. rewrite Hp1. destruct (parent nd) as [l'|]; [|done]. destruct Hp as (?&?&_). split; [done|].
    exists i. simpl in Hsh2. by rewrite Hsh2.
  - cbn [exec_bind]. rewrite Ht2 in Hb'. unfold budgets in Hb'. rewrite count_sub_le by (simpl; lia). cbn [exec_bind].
    eexists. split; [reflexivity|]. split; [done|]. split; [by unfold limit_pred; simpl|]. right. split; [by simpl|]. split; [done|].
    split; simpl.
    + rewrite <-Hsh2, <-Hsh' in Hfr, Hfi. by split.
    + done.
    + unfold budgets. lia.
    + eapply fits_le; [|exact Hfit]. lia.
    + lia.
Qed.

Definition yield_effect (y : NodeYield Out) nd nd' (j : nat) : Prop :=
  match y with
  | NYPending i => i = j ∧ nd' = nd
  | NYFromChild m => nd' = nd ∧ ∃ w, children nd !! j = Some (CNode w m)
  | NYOutput i o => i = j ∧ children nd !! j = Some (COutput o) ∧ balanced nd' ∧ parent nd' = parent nd ∧
      children nd' = <[j := Yielded]> (children nd) ∧ budget nd' = budget nd ∧ expired nd' = expired nd
  | NYComplete => nd' = nd ∧ length (children nd) ≤ j
  end.

Lemma yield_children_ok fuel nd c :
  fuel = length (children nd) - c → balanced nd →
  ∃ y nd' j, yield_children fuel nd c = ret (y, nd') ∧ c ≤ j ∧
    (∀ d, c ≤ d < j → children nd !! d = Some Yielded) ∧ yield_effect y nd nd' j.
Proof.
  revert c. induction fuel as [|fuel IH]; intros c Hfuel Hb; cbn [yield_children].
  { eexists _, _, c. split; [reflexivity|]. split; [done|]. split; [intros d ?; lia|]. split; [done|lia]. }
  destruct (children nd !! c) as [child|] eqn:Hc.
  2:{ apply lookup_ge_None in Hc. lia. }
  assert (∀ d, c ≤ d < c → children nd !! d = Some Yielded) as Hnone by (intros d ?; lia).
  destruct child as [w v|w|o|w m|].
  - eexists _, _, c. split; [reflexivity|]. by repeat split.
  - eexists _, _, c. split; [reflexivity|]. by repeat split.
  - case_decide as Hz; [eexists _, _, c; split; [reflexivity|]; by repeat split|].
    pose proof (weights_ge _ _ _ Hc) as Hw. simpl in Hw. unfold balanced in Hb. rewrite count_sub_le by lia. cbn [exec_bind].
    eexists _, _, c. split; [reflexivity|]. split; [done|]. split; [done|]. split; [done|]. split; [done|]. split; [|done].
    unfold balanced. simpl. pose proof (weights_set _ _ _ Yielded Hc) as Hs. simpl in Hs. lia.
  - eexists _, _, c. split; [reflexivity|]. split; [done|]. split; [done|]. split; [done|]. by exists w.
  - destruct (IH (c + 1)) as (y&nd'&j&->&Hj&Hd&He); [lia|done|]. eexists _, _, j. split; [reflexivity|].
    split; [lia|]. split; [|done]. intros d Hdj. destruct (decide (d = c)) as [->|]; [done|]. apply Hd. lia.
Qed.

(** The front moves past yielded children. *)
Lemma at_front_skip P t idx js F i nd c j :
  front_ok P (shapes t) idx js F → at_front P (shapes t) (Build_NodeLocation i c) → t !! i = Some nd → c ≤ j →
  (∀ d, c ≤ d < j → children nd !! d = Some Yielded) → at_front P (shapes t) (Build_NodeLocation i j).
Proof.
  intros Hf Ha Hi Hj. induction Hj as [|j Hj IH]; intros Hd; [done|].
  assert (at_front P (shapes t) (Build_NodeLocation i j)) as Haj by (apply IH; intros d ?; apply Hd; lia).
  rewrite <-Nat.add_1_r. apply (at_front_step Hf (Build_NodeLocation i j) Haj).
  apply (child_at_shapes t (Build_NodeLocation i j) nd Yielded); [done|]. simpl. apply Hd. lia.
Qed.

Lemma ready_move s P F loc loc' lost :
  ready s P F loc lost → at_front P (shapes (execution_tree s)) loc' → ready s P F loc' lost.
Proof. intros [[] ? ? ? ?] Ha. by split. Qed.

Definition yield_result s (y : Yield Out) s' F lost : Prop :=
  scheduled_max s' = scheduled_max s ∧
  match y with
  | YPending => limit s' = limit s ∧ ∃ P' loc', yield_next_location s' = Some loc' ∧ ready s' P' F loc' lost
  | YOutput (Some o) => limit_pred s s' ∧ ∃ q F', F = (q, inl o) :: F' ∧
      (limit s' = Some 0 ∧ yield_next_location s' = None ∧ cleared s' ∨
       limit s' ≠ Some 0 ∧ ∃ P' loc', yield_next_location s' = Some loc' ∧ ready s' P' F' loc' lost)
  | YOutput None => limit s' = limit s ∧ F = [] ∧ yield_next_location s' = None
  end.

(** The output at the front is taken out. *)
Lemma ready_output s P F loc lost nd nd' o :
  ready s P F loc lost → execution_tree s !! node_index loc = Some nd → children nd !! child_index loc = Some (COutput o) →
  balanced nd' → parent nd' = parent nd → children nd' = <[child_index loc := Yielded]> (children nd) →
  budget nd' = budget nd → expired nd' = expired nd →
  ∃ q F', F = (q, inl o) :: F' ∧
    ready (set_node s (node_index loc) nd') P F' (Build_NodeLocation (node_index loc) (child_index loc + 1)) lost.
Proof.
  intros [[Hf Ha Hmax] Hnum Hbud Hfit Hqm] Hnd Hc Hbal Hp Hk Hb He.
  pose proof (child_at_shapes _ _ _ _ Hnd Hc) as Hat. simpl in Hat. pose proof Hf as [Ht Hjnd Hj _ _].
  destruct (child_path Ht _ _ Hat) as [q Hq].
  destruct (front_first Hf loc q (inl o) Ha Hq) as [F' ->]; [by exists (KOutput o)|]. exists q, F'. split; [done|].
  assert (shapes (<[node_index loc := nd']> (execution_tree s)) = set_child (shapes (execution_tree s)) loc KYielded) as Hsh.
  { rewrite (shapes_set_child _ (child_index loc) Yielded nd) by done. rewrite shapes_id by done. by destruct loc. }
  assert (loc ∉ (jobs s lost).*1) as Hnin by (intros Hx%Hj; by pose proof (child_at_functional _ _ _ _ Hat Hx)).
  pose proof (front_remove _ _ _ _ (jobs s lost) [] F' _ _ _ _ Hf Hat eq_refl Hq Hjnd Hnin ltac:(done)) as Hf'.
  split; simpl.
  - split; simpl; [by rewrite Hsh|rewrite Hsh|done].
    apply (at_front_step Hf' loc); [by eapply at_front_set|]. apply (child_at_set _ _ (KOutput o)); [done|by left].
  - apply nums_insert; [done|]. apply (node_num_same _ nd); [by eapply Hnum|done|done].
  - pose proof (tree_update_budget _ _ nd nd' Hnd). lia.
  - done.
  - done.
Qed.

(** A complete node gives its budget back to its parent. *)
Lemma ready_complete s P F loc lost nd l :
  ready s P F loc lost → execution_tree s !! node_index loc = Some nd → parent nd = Some l →
  length (children nd) ≤ child_index loc →
  remaining_weight nd = 0 ∧ ∃ pn pn', execution_tree s !! node_index l = Some pn ∧ node_index l ≠ node_index loc ∧
    child_complete pn (child_index l) (budget nd) = ret pn' ∧
    ready (set_node (set_tree s (delete (node_index loc) (execution_tree s))) (node_index l) pn') (delete (node_index loc) P) F l lost ∧
    ∃ p, P !! node_index l = Some p ∧ P !! node_index loc = Some (p ++ [child_index l]).
Proof.
  intros [[Hf Ha Hmax] Hnum Hbud Hfit Hqm] Hnd Hp Hlen. destruct (Hnum _ _ Hnd) as [Hbal Hexp].
  assert (shapes (execution_tree s) !! node_index loc = Some (Some l, kind <$> children nd)) as Hsl.
  { rewrite shapes_lookup, Hnd. unfold skel. simpl. by rewrite Hp. }
  assert (length (kind <$> children nd) ≤ child_index loc) as Hlen' by by rewrite length_fmap.
  split.
  { unfold balanced in Hbal. rewrite Hbal. apply weights_yielded. by eapply (node_done Hf). }
  destruct (complete_facts Hf loc l _ Ha Hsl Hlen') as (Hlt&Hc&Hc'&Hpath&_).
  destruct (child_at_shapes_inv _ _ _ Hc) as (pn&k&Hpn&Hk&_).
  destruct (Hnum _ _ Hpn) as [Hpbal Hpexp].
  set (t0 := delete (node_index loc) (execution_tree s)).
  assert (t0 !! node_index l = Some pn) as Hpn0 by (unfold t0; rewrite lookup_delete_ne by lia; done).
  pose proof (map_sum_delete budget _ _ _ Hnd) as Hdel. pose proof (map_sum_ge budget _ _ _ Hpn0) as Hge. unfold budgets in Hbud.
  destruct (child_complete_ok pn (child_index l) k (budget nd) Hpbal Hk) as (pn'&Heq&Hb'&Hp'&Hk'&Hbu'&He').
  { eapply fits_le; [|exact Hfit]. unfold t0 in Hge. lia. }
  exists pn, pn'. split; [done|]. split; [lia|]. split; [done|]. split; [|done].
  assert (shapes (<[node_index l := pn']> t0) = set_child (delete (node_index loc) (shapes (execution_tree s))) l KYielded) as Hsh.
  { rewrite (shapes_set_child _ (child_index l) Yielded pn) by done. rewrite shapes_id by done. unfold t0, shapes.
    rewrite fmap_delete. by destruct l. }
  split; simpl; fold t0.
  - split; simpl; fold t0; [rewrite Hsh; by apply (complete_front Hf loc l _ Ha Hsl Hlen')|rewrite Hsh; by apply (complete_at_front Hf loc l _ Ha Hsl Hlen')|done].
  - apply nums_insert; [|by apply (node_num_same _ pn)]. intros i x [_ Hx]%lookup_delete_Some. by eapply Hnum.
  - pose proof (tree_update_budget _ _ pn pn' Hpn0) as Hu. unfold budgets in *. unfold t0 in *. lia.
  - done.
  - done.
Qed.

Lemma yield_loop_ok fuel s P F loc lost p :
  ready s P F loc lost → limit s ≠ Some 0 → yield_next_location s = None → P !! node_index loc = Some p →
  2 * size (execution_tree s) + execution_tree_index s ≤ fuel + length p →
  ∃ y s', yield_loop fuel s (Some loc) = ret (Ok y, s') ∧ yield_result s y s' F lost.
Proof.
  revert s P loc p. induction fuel as [|fuel IH]; intros s P loc p Hr Hl0 Hnl Hp Hfuel;
    pose proof Hr as [[Hf Ha _] Hnum _ _ _]; pose proof Hf as [Ht _ _ _ _].
  - pose proof (path_depth Ht _ _ Hp) as Hd. destruct (t_paths _ _ _ Ht _ _ Hp) as [[par ks] Hn].
    destruct (t_nodes _ _ _ Ht _ _ _ Hn) as [Hi _]. rewrite shapes_lookup in Hn.
    assert (size (execution_tree s) ≠ 0) as Hsz; [|lia]. intros Hz%map_size_empty_inv. by rewrite Hz in Hn.
  - destruct Ha as [[x Hx] _]. rewrite shapes_lookup in Hx. cbn [yield_loop].
    destruct (execution_tree s !! node_index loc) as [nd|] eqn:Hnd; [|done]. clear x Hx.
    destruct (Hnum _ _ Hnd) as [Hbal _]. unfold node_yield_next.
    destruct (yield_children_ok _ nd (child_index loc) eq_refl Hbal) as (y&nd'&j&->&Hj&Hd&Heff). cbn [exec_bind].
    assert (ready s P F (Build_NodeLocation (node_index loc) j) lost) as Hrj.
    { eapply ready_move; [exact Hr|]. destruct Hr as [[Hfr Hfi _] _ _ _ _].
      eapply (at_front_skip _ _ _ _ _ _ _ (child_index loc)); [exact Hfr|by destruct loc|exact Hnd|done|done]. }
    assert (set_node s (node_index loc) nd = s) as Hid by (unfold set_node; rewrite insert_id by done; by destruct s).
    destruct y as [i o|m|i|]; simpl in Heff.
    + destruct Heff as (->&Hc&Hb&Hpp&Hk&Hbu&He).
      destruct (ready_output _ _ _ _ _ _ _ _ Hrj Hnd Hc Hb Hpp Hk Hbu He) as (q&F'&->&Hr'). simpl in Hr'.
      destruct (yield_output_ok (set_node s (node_index loc) nd') (node_index loc) nd' j o P F' lost Hr')
        as (s'&->&Hmax'&Hlim'&Hcase); [simpl; by rewrite lookup_insert_eq|done|].
      eexists _, s'. split; [reflexivity|]. split; [done|]. split; [done|]. exists q, F'. split; [done|].
      destruct Hcase as [?|(?&?&?)]; [by left|right]. split; [done|]. by exists P, (Build_NodeLocation (node_index loc) (j + 1)).
    + destruct Heff as (->&w&Hc). rewrite Hid.
      pose proof (child_at_shapes _ (Build_NodeLocation (node_index loc) j) _ _ Hnd Hc) as Hat. simpl in Hat.
      destruct (t_kids _ _ _ Ht _ _ Hat) as [ks Hm]. destruct (t_nodes _ _ _ Ht _ _ _ Hm) as (_&_&_&p'&Hp'&Hpm). simpl in Hp', Hpm.
      rewrite Hp in Hp'. simplify_eq. apply (IH s P _ (p' ++ [j])); [|done|done|done|rewrite length_app; simpl; lia].
      eapply ready_move; [exact Hrj|]. destruct Hrj as [[Hfr Hfi _] _ _ _ _]. by apply (at_front_enter Hfr _ _ Hfi).
    + destruct Heff as (->&->). rewrite Hid. eexists _, _. split; [reflexivity|]. split; [done|]. split; [done|].
      exists P, (Build_NodeLocation (node_index loc) j). split; [done|]. destruct Hrj as [[] ? ? ? ?]. by split.
    + destruct Heff as (->&Hlen). rewrite Hid.
      destruct (parent nd) as [l|] eqn:Hpar.
      * destruct (ready_complete _ _ _ _ _ _ _ Hrj Hnd Hpar Hlen) as (Hz&pn&pn'&Hpn&Hne&Hcc&Hr'&p'&Hp'&Hpl). simpl in *.
        rewrite Hz. assert (debug_assert (0 =? 0) = ret ()) as -> by (unfold debug_assert, rust_assert; simpl; by destruct (debug_assertions)).
        cbn [exec_bind]. rewrite lookup_delete_ne, Hpn by done. rewrite Hcc. cbn [exec_bind].
        rewrite Hp in Hpl. simplify_eq. rewrite length_app in Hfuel. simpl in Hfuel.
        destruct (IH _ _ _ p' Hr') as (y&s'&Heq&Hy); [done|done|by rewrite lookup_delete_ne| |by exists y, s'].
        simpl. rewrite map_size_insert_Some by (rewrite lookup_delete_ne by done; by eexists).
        rewrite map_size_delete_Some by by eexists.
        assert (size (execution_tree s) ≠ 0) as Hsz; [|lia]. intros He%map_size_empty_inv. by rewrite He in Hnd.
      * destruct Hrj as [[Hfr Hfi _] _ _ _ _].
        assert (shapes (execution_tree s) !! node_index loc = Some (None, kind <$> children nd)) as Hsl.
        { rewrite shapes_lookup, Hnd. unfold skel. simpl. by rewrite Hpar. }
        assert (length (kind <$> children nd) ≤ j) as Hlen' by by rewrite length_fmap.
        assert (remaining_weight nd = 0) as ->.
        { unfold balanced in Hbal. rewrite Hbal. apply weights_yielded. by eapply (node_done Hfr (Build_NodeLocation (node_index loc) j)). }
        assert (debug_assert (0 =? 0) = ret ()) as -> by (unfold debug_assert, rust_assert; simpl; by destruct (debug_assertions)).
        cbn [exec_bind]. pose proof (root_done Hfr (Build_NodeLocation (node_index loc) j) _ Hfi Hsl Hlen') as HF.
        exists (YOutput None). destruct fuel; (eexists; split; [reflexivity|]; by split).
Qed.

Lemma yield_next_ok s P F loc lost :
  ready s P F loc lost → limit s ≠ Some 0 → yield_next_location s = Some loc →
  ∃ y s', yield_next s = ret (Ok y, s') ∧ yield_result s y s' F lost.
Proof.
  intros Hr Hl Hloc. unfold yield_next. rewrite Hloc.
  pose proof Hr as [[Hf [[[par ks] Hn] _] _] _ _ _ _]. destruct (node_path (f_tree _ _ _ _ _ Hf) _ _ _ Hn) as [p Hp].
  destruct (yield_loop_ok (2 * size (execution_tree s) + execution_tree_index s) (set_location s None) P F loc lost p)
    as (y&s'&Heq&Hy); [|done|done|done|simpl; lia|by exists y, s']. destruct Hr as [[] ? ? ? ?]. by split.
Qed.

(** ** Unfolding *)

Definition item_of (item : OrderedTraversal Out In) : Out + In :=
  match item with Output o => inl o | Futures.Recurse _ v => inr v end.
Definition item_weight (item : OrderedTraversal Out In) : nat :=
  match item with Output _ => 1 | Futures.Recurse w _ => w `max` 1 end.

Lemma unfolded_children_ok items w :
  fits (w + sum_list_with item_weight items) →
  ∃ kids, unfolded_children items w = ret (kids, w + weights kids) ∧ kind <$> kids = item_kind <$> (item_of <$> items).
Proof.
  revert w. induction items as [|item items IH]; intros w Hf; cbn [unfolded_children].
  { exists []. by rewrite Nat.add_0_r. }
  simpl in Hf. destruct (IH (w + item_weight item)) as (kids&Heq&Hkids); [eapply fits_le; [|exact Hf]; lia|].
  destruct item as [o|w0 v]; cbn [item_weight item_of] in *; cbv zeta;
    (rewrite count_add_le by (eapply (fits_le _ _); [|exact Hf]; lia)); cbn [exec_bind]; rewrite Heq; cbn [exec_bind].
  - exists (COutput o :: kids). split; [do 2 f_equal; unfold weights; simpl; lia|by rewrite !fmap_cons, Hkids].
  - exists (Unscheduled (w0 `max` 1) v :: kids). split; [do 2 f_equal; unfold weights; simpl; lia|by rewrite !fmap_cons, Hkids].
Qed.

Lemma front_ok_index P h idx idx' js F :
  front_ok (Out:=Out) (In:=In) P h idx js F → idx ≤ idx' → front_ok P h idx' js F.
Proof.
  intros [[] ? ? ? ?] Hi. split; try done. split; try done. intros m par ks Hm.
  destruct (t_nodes0 _ _ _ Hm). split; [lia|done].
Qed.

Lemma imap_const_id {A} (l : list A) : imap (λ _ x, x) l = l.
Proof. induction l as [|x l IH]; [done|]. simpl. f_equal. exact IH. Qed.

Lemma fresh_index P t idx js F : front_ok P (shapes t) idx js F → t !! S idx = None.
Proof.
  intros [Ht _ _ _ _]. destruct (t !! S idx) as [nd|] eqn:Hn; [|done].
  destruct (t_nodes _ _ _ Ht (S idx) (parent nd) (kind <$> children nd)) as [? _]; [by rewrite shapes_lookup, Hn|lia].
Qed.

Lemma ordered_process_unfold_ok s P F loc lost l v items :
  front_ok P (shapes (execution_tree s)) (execution_tree_index s) ((l, v) :: jobs s lost) F →
  at_front P (shapes (execution_tree s)) loc → fu_len (scheduled s) ≤ scheduled_max s →
  nums (limit s) (execution_tree s) → budgets (execution_tree s) = total_budget s → fits (total_budget s) →
  total_budget s ≤ queued_max → fits (sum_list_with item_weight items) →
  ∃ s' P' F', process_unfold s l items = ret (Ok (), s') ∧ ready s' P' F' loc lost ∧ steady s s' ∧
    ∃ F1 q F2, F = F1 ++ (q, inr v) :: F2 ∧ F'.*2 = F1.*2 ++ (item_of <$> items) ++ F2.*2.
Proof.
  intros Hf Ha Hmax Hnum Hbud Hfit Hqm Hitems. pose proof Hf as [Ht Hjnd Hj Hfr _].
  assert (child_at (shapes (execution_tree s)) l KPending) as Hat by (apply Hj; simpl; by left).
  destruct (child_path Ht _ _ Hat) as [q Hq].
  assert ((q, inr v) ∈ F) as Hin.
  { apply Hfr. exists l. split; [done|]. exists KPending. split; [done|]. exists v. split; [by left|done]. }
  apply list_elem_of_split in Hin as (F1&F2&->).
  destruct (child_at_shapes_inv _ _ _ Hat) as (pn&c&Hpn&Hc&Hk). destruct (Hnum _ _ Hpn) as [Hbal Hexp].
  pose proof (weights_ge _ _ _ Hc) as Hw. unfold balanced in Hbal.
  unfold process_unfold. destruct (unfolded_children_ok items 0 Hitems) as (kids&->&Hkids). cbn [exec_bind].
  cbn [execution_tree execution_tree_index set_index]. rewrite Hpn. unfold vec_index. rewrite Hc. cbn [expect exec_bind].
  destruct (unfold_jobs l v q Hf (reflexivity _)) as (Hnd'&Hnin&Hsame).
  destruct (is_nil kids) eqn:Hnil.
  - destruct kids; [|done]. destruct items; [|done]. rewrite count_sub_le by lia. cbn [exec_bind].
    set (pn' := set_children _ _ _).
    assert (shapes (<[node_index l := pn']> (execution_tree s)) = set_child (shapes (execution_tree s)) l KYielded) as Hsh.
    { rewrite (shapes_set_child _ (child_index l) Yielded pn) by done. rewrite shapes_id by done. by destruct l. }
    eexists _, P, (F1 ++ F2). split; [reflexivity|]. split; [|split; [done|]; exists F1, q, F2; by rewrite fmap_app].
    split; simpl.
    + split; simpl; [rewrite Hsh, Nat.add_1_r|rewrite Hsh; by eapply at_front_set|done].
      eapply front_ok_index; [|apply Nat.le_succ_diag_r]. by eapply front_remove.
    + apply nums_insert; [done|]. apply (node_num_same _ pn); [by eapply Hnum| |done]. unfold balanced. simpl.
      pose proof (weights_set _ _ _ Yielded Hc) as Hs. simpl in Hs. lia.
    + pose proof (tree_update_budget _ _ pn pn' Hpn) as Hu. simpl in Hu. lia.
    + done.
    + done.
  - rewrite !count_sub_le by lia. cbn [exec_bind]. rewrite count_sub_le by lia. cbn [exec_bind].
    rewrite Nat.add_1_r. set (i := S (execution_tree_index s)).
    set (cw := (0 + weights kids) `min` child_weight c). set (pn' := set_children _ _ _).
    assert (shapes (<[i := node_new (Some l) kids (weights kids)]> (<[node_index l := pn']> (execution_tree s))) =
      <[i := (Some l, item_kind <$> (item_of <$> items))]> (set_child (shapes (execution_tree s)) l (KNode i))) as Hsh.
    { rewrite shapes_insert. f_equal; [unfold skel; simpl; by rewrite Hkids|].
      rewrite (shapes_set_child _ (child_index l) (CNode cw i) pn) by done. rewrite shapes_id by done. by destruct l. }
    eexists _, (<[i := q]> P), (F1 ++ new_entries q (item_of <$> items) ++ F2). split; [reflexivity|].
    split; [|split; [done|]; exists F1, q, F2; split; [done|]; rewrite !fmap_app; do 2 f_equal].
    2:{ unfold new_entries. rewrite fmap_imap. unfold compose. simpl. apply imap_const_id. }
    assert (<[node_index l := pn']> (execution_tree s) !! i = None) as Hfresh.
    { apply lookup_insert_None. split; [by eapply fresh_index|]. intros Heq. rewrite Heq in Hpn.
      pose proof (fresh_index _ _ _ _ _ Hf) as Hx. fold i in Hx. congruence. }
    split; simpl.
    + split; simpl; [rewrite Hsh; by eapply unfold_front|rewrite Hsh; by eapply unfold_at_front|done].
    + apply nums_insert; [apply nums_insert; [done|]|].
      * apply (node_num_same _ pn); [by eapply Hnum| |done]. unfold balanced. simpl.
        pose proof (weights_set _ _ _ (CNode cw i) Hc) as Hs. simpl in Hs. lia.
      * split; [done|]. intros l' Hl'. simpl. eapply fits_le; [|by apply Hexp]. lia.
    + unfold budgets in *. rewrite map_sum_insert by done. simpl. pose proof (tree_update_budget _ _ pn pn' Hpn) as Hu.
      unfold budgets in Hu. simpl in Hu. lia.
    + done.
    + done.
Qed.

(** ** Whole runs *)

(** Unfolding one input of a row of outputs and inputs, in place. *)
Inductive expand : list (Out + In) → list (Out + In) → Prop :=
| expand_at l1 v items l2 :
    unfold_ v = Ok items → expand (l1 ++ inr v :: l2) (l1 ++ (item_of <$> items) ++ l2).

Lemma expand_front l l1 l2 : expand l1 l2 → expand (l ++ l1) (l ++ l2).
Proof. intros [l1' v items l2' Hu]. rewrite !(app_assoc l). by constructor. Qed.

Section run.
Context (sched_max : nat) (limit0 : option nat) (init : list (nat * In)).
Context (Hqfit : fits queued_max) (Hlfit : ∀ l, limit0 = Some l → fits l).
Context (Hinit : fits (sum_list_with (λ p, p.1 `max` 1) init)).
Context (Hweights : ∀ v items, unfold_ v = Ok items → fits (sum_list_with item_weight items)).

(** [items] and then [rest] come from unfolding the roots in place; the errors among [items]
    are those of inputs still in [rest]. *)
Definition result_ok (items : list (result Out E)) (rest : list (Out + In)) : Prop :=
  rtc expand (inr ∘ snd <$> init) ((inl <$> omap ok items) ++ rest) ∧
  ∀ e, Err e ∈ items → ∃ v, inr v ∈ rest ∧ unfold_ v = Err e.

Definition limit_left s (items : list (result Out E)) : Prop :=
  match limit0 with
  | None => limit s = None
  | Some l0 => ∃ l, limit s = Some l ∧ l + length (omap ok items) = l0
  end.

(** At most [scheduled_max] futures are in progress, and the budgets of the nodes add up to
    the total budget, which is at most [queued_max]. *)
Definition bounded s : Prop :=
  fu_len (scheduled s) ≤ sched_max ∧ budgets (execution_tree s) = total_budget s ∧ total_budget s ≤ queued_max.

Definition live s items P F loc lost : Prop :=
  yield_next_location s = Some loc ∧ ready s P F loc lost ∧ scheduled_max s = sched_max ∧
  limit s ≠ Some 0 ∧ limit_left s items ∧
  rtc expand (inr ∘ snd <$> init) ((inl <$> omap ok items) ++ F.*2) ∧
  ∀ e, Err e ∈ items → ∃ l v, (l, v) ∈ lost ∧ unfold_ v = Err e.

Definition ended s items : Prop :=
  yield_next_location s = None ∧ limit0 = Some (length (omap ok items)) ∧ bounded s ∧ ∃ rest, result_ok items rest.

Definition inv s items : Prop := (∃ P F loc lost, live s items P F loc lost) ∨ ended s items.

Lemma lost_in_front s P F loc lost l v : ready s P F loc lost → (l, v) ∈ lost → inr v ∈ F.*2.
Proof.
  intros [[Hf _ _] _ _ _ _] Hl. destruct Hf as [Ht _ Hj Hfr _].
  assert ((l, v) ∈ jobs s lost) as Hin by (unfold jobs; set_solver).
  assert (child_at (shapes (execution_tree s)) l KPending) as Hat by (apply Hj, elem_of_jobs; by exists v).
  destruct (child_path Ht _ _ Hat) as [q Hq]. apply list_elem_of_fmap. exists (q, inr v). split; [done|].
  apply Hfr. exists l. split; [done|]. exists KPending. split; [done|]. by exists v.
Qed.

Lemma live_result s items P F loc lost : live s items P F loc lost → result_ok items F.*2 ∧ bounded s.
Proof.
  intros (_&Hr&Hmax&_&_&Hd&He). split; [split; [done|]|].
  - intros e (l&v&Hl&Hu)%He. exists v. split; [by eapply lost_in_front|done].
  - destruct Hr as [[_ _ Hm] _ Hb _ Hq]. rewrite Hmax in Hm. done.
Qed.

Lemma omap_ok_snoc (items : list (result Out E)) x : omap ok (items ++ [x]) = omap ok items ++ match x with Ok o => [o] | Err _ => [] end.
Proof. rewrite omap_app. by destruct x. Qed.

(** What [yield_next] yields is next. *)
Lemma live_yield s items P F loc lost :
  live s items P F loc lost →
  ∃ y s', yield_next s = ret (Ok y, s') ∧
    match y with
    | YPending => ∃ P' loc', live s' items P' F loc' lost
    | YOutput None => F = []
    | YOutput (Some o) => inv s' (items ++ [Ok o])
    end.
Proof.
  intros Hlive. pose proof (live_result _ _ _ _ _ _ Hlive) as [[_ Herr] _]. destruct Hlive as (Hloc&Hr&Hmax&Hl0&Hleft&Hd&He).
  destruct (yield_next_ok _ _ _ _ _ Hr Hl0 Hloc) as (y&s'&->&Hm'&Hy). exists y, s'. split; [done|].
  destruct y as [[o|]|].
  - destruct Hy as (Hlim&q&F'&->&Hcase).
    assert ((inl <$> omap ok (items ++ [Ok o])) ++ F'.*2 = (inl <$> omap ok items) ++ ((q, inl o) :: F').*2) as Heq.
    { rewrite omap_ok_snoc, fmap_app, <-app_assoc. done. }
    assert (∀ e, Err e ∈ items ++ [Ok o] → Err e ∈ items) as Hin.
    { intros e. rewrite elem_of_app, list_elem_of_singleton. by intros [?|?]. }
    destruct Hcase as [(Hz&Hn&Hc1&Hc2&Hc3)|(Hz&P'&loc'&Hn&Hr')].
    + right. split; [done|]. split; [|split].
      * unfold limit_left, limit_pred in *. destruct limit0 as [l0|]; [|rewrite Hleft in Hlim; congruence].
        destruct Hleft as (l&Hl&Hsum). rewrite Hl in Hlim. destruct Hlim as [Hpos Hl']. rewrite Hl' in Hz. simplify_eq.
        rewrite omap_ok_snoc, length_app. simpl. f_equal. lia.
      * split; [rewrite fu_len_jobs, Hc1; simpl; lia|]. rewrite Hc2, Hc3. split; [apply map_sum_empty|lia].
      * exists (F'.*2). split; [by rewrite Heq|]. intros e Hxe. destruct (Herr e (Hin _ Hxe)) as (v&Hv&Hu). exists v.
        split; [|done]. rewrite fmap_cons in Hv. apply elem_of_cons in Hv as [?|?]; done.
    + left. exists P', F', loc', lost. split; [done|]. split; [done|]. split; [congruence|]. split; [done|]. split; [|split].
      * unfold limit_left, limit_pred in *. destruct limit0 as [l0|]; [|by rewrite Hleft in Hlim].
        destruct Hleft as (l&Hl&Hsum). rewrite Hl in Hlim. destruct Hlim as [Hpos Hl']. exists (l - 1). split; [done|].
        rewrite omap_ok_snoc, length_app. simpl. lia.
      * by rewrite Heq.
      * intros e Hxe. by apply He, Hin.
  - by destruct Hy as (_&->&_).
  - destruct Hy as (Hlim&P'&loc'&Hn&Hr'). exists P', loc'. split; [done|]. split; [done|]. split; [congruence|].
    split; [by rewrite Hlim|]. split; [|done]. unfold limit_left in *. by rewrite Hlim.
Qed.

Lemma live_schedule s items P F loc lost :
  live s items P F loc lost → ∃ s', schedule_next s = ret (Ok (), s') ∧ live s' items P F loc lost.
Proof.
  intros (Hloc&Hr&Hmax&Hl0&Hleft&Hd&He). destruct (schedule_next_ok _ _ _ _ _ Hr) as (s'&->&Hr'&Hm&Hl&Hn).
  exists s'. split; [done|]. split; [congruence|]. split; [done|]. split; [congruence|]. split; [congruence|].
  split; [|done]. unfold limit_left in *. by rewrite Hl.
Qed.

Lemma live_jobs s items P F loc lost f q :
  live s items P F loc lost → fu_jobs f ++ q ≡ₚ fu_jobs (scheduled s) ++ schedule_queue s → fu_len f ≤ sched_max →
  live (set_jobs s q f) items P F loc lost.
Proof.
  intros (Hloc&[[Hf Ha Hm] ? ? ? ?]&Hmax&?&?&?&?) Hp Hlen. split; [done|]. split; [|done]. split; try done. split; simpl; [|done|lia].
  eapply front_ok_perm; [|exact Hf]. unfold jobs. simpl. by rewrite !app_assoc, Hp.
Qed.

(** A future that failed leaves its input unexpanded. *)
Lemma live_fail s items P F loc lost f q l v e :
  live s items P F loc lost → (l, v) :: fu_jobs f ++ q ≡ₚ fu_jobs (scheduled s) ++ schedule_queue s → fu_len f ≤ sched_max →
  unfold_ v = Err e → live (set_jobs s q f) (items ++ [Err e]) P F loc ((l, v) :: lost).
Proof.
  intros (Hloc&[[Hf Ha Hm] ? ? ? ?]&Hmax&Hl0&Hleft&Hd&He) Hp Hlen Hu.
  split; [done|]. split; [|split; [done|split; [done|split; [|split]]]].
  - split; try done. split; simpl; [|done|lia]. eapply front_ok_perm; [|exact Hf].
    unfold jobs. simpl. rewrite !app_assoc, <-Hp. by rewrite <-Permutation_middle.
  - unfold limit_left in *. destruct limit0; [|done]. by rewrite omap_ok_snoc, app_nil_r.
  - by rewrite omap_ok_snoc, app_nil_r.
  - intros e'. rewrite elem_of_app, list_elem_of_singleton. intros [Hx|[= ->]].
    + destruct (He _ Hx) as (l'&v'&?&?). exists l', v'. split; [by right|done].
    + exists l, v. split; [by left|done].
Qed.

(** A completed future's input is unfolded in place. *)
Lemma live_unfold s items P F loc lost f q l v its :
  live s items P F loc lost → (l, v) :: fu_jobs f ++ q ≡ₚ fu_jobs (scheduled s) ++ schedule_queue s → fu_len f ≤ sched_max →
  unfold_ v = Ok its →
  ∃ s', process_unfold (set_jobs s q f) l its = ret (Ok (), s') ∧ ∃ P' F', live s' items P' F' loc lost.
Proof.
  intros (Hloc&[[Hf Ha Hm] Hnum Hbud Hfit Hqm]&Hmax&Hl0&Hleft&Hd&He) Hp Hlen Hu.
  destruct (ordered_process_unfold_ok (set_jobs s q f) P F loc lost l v its) as (s'&P'&F'&->&Hr&(Hm'&Hl'&Hn')&F1&p&F2&->&HF');
    simpl; try done; [|lia|by eapply Hweights|].
  { eapply front_ok_perm; [|exact Hf]. unfold jobs. simpl. by rewrite !app_assoc, <-Hp. }
  exists s'. split; [done|]. exists P', F'. simpl in *. split; [congruence|]. split; [done|]. split; [congruence|].
  split; [congruence|]. split; [unfold limit_left in *; by rewrite Hl'|]. split; [|done].
  eapply rtc_r; [exact Hd|]. apply expand_front. rewrite HF', fmap_app, fmap_cons. by constructor.
Qed.

(** One iteration of [poll_next]. *)
Lemma ordered_step_ok s w items :
  inv s items →
  ∃ c s' w', poll_step from_err unfold_ s w = ret (c, s', w') ∧
    match c with
    | Return (Ready None) => ∃ rest, result_ok items rest ∧ (rest = [] ∨ limit0 = Some (length (omap ok items)))
    | Return (Ready (Some x)) => inv s' (items ++ [x])
    | Return Pending | Continue => inv s' items
    end.
Proof.
  intros [(P&F&loc&lost&Hlive)|(Hn&Hlim&_&rest&Hrest)]; unfold poll_step.
  2:{ unfold yield_next. rewrite Hn. exists (Return (Ready None)), (set_location s None), w.
      split; [by destruct (2 * size _ + _)|]. exists rest. split; [done|by right]. }
  destruct (live_yield _ _ _ _ _ _ Hlive) as (y&s1&->&Hy). cbn [exec_bind].
  destruct y as [[o|]|]; [eexists _, _, _; split; [reflexivity|done]| |].
  { eexists _, _, _. split; [reflexivity|]. simpl. apply live_result in Hlive as [Hres _]. rewrite Hy in Hres.
    exists []. split; [done|by left]. }
  destruct Hy as (P1&loc1&Hlive1). destruct (live_schedule _ _ _ _ _ _ Hlive1) as (s2&->&Hlive2). cbn [exec_bind].
  destruct (live_yield _ _ _ _ _ _ Hlive2) as (y&s3&->&Hy). cbn [exec_bind].
  destruct y as [[o|]|]; [eexists _, _, _; split; [reflexivity|done]| |].
  { eexists _, _, _. split; [reflexivity|]. simpl. apply live_result in Hlive2 as [Hres _]. rewrite Hy in Hres.
    exists []. split; [done|by left]. }
  destruct Hy as (P3&loc3&Hlive3). pose proof Hlive3 as (_&[[_ _ Hm] _ _ _ _]&Hmax&_). rewrite Hmax, fu_len_jobs in Hm.
  pose proof (fu_poll_next_spec (scheduled s3) w) as Hpoll.
  destruct (fu_poll_next (scheduled s3) w) as [[[[[l v]|]|] f'] w'].
  - set (s4 := match schedule_queue s3 with [] => _ | _ :: _ => _ end).
    assert (∃ q f, s4 = set_jobs s3 q f ∧ (l, v) :: fu_jobs f ++ q ≡ₚ fu_jobs (scheduled s3) ++ schedule_queue s3 ∧ fu_len f ≤ sched_max)
      as (q&f&->&Hp&Hlen).
    { apply Permutation_length in Hpoll as Hl. simpl in Hl. unfold s4. destruct (schedule_queue s3) as [|next_job q] eqn:Hq.
      - exists [], f'. split; [done|]. split; [by rewrite !app_nil_r, Hpoll|]. rewrite fu_len_jobs. lia.
      - exists q, (fu_push next_job f'). split; [done|]. split; [|rewrite fu_len_jobs, fu_push_length; lia].
        rewrite fu_jobs_push, Hpoll. simpl. by rewrite <-Permutation_middle. }
    destruct (unfold_ v) as [its|e] eqn:Hu.
    + destruct (live_unfold _ _ _ _ _ _ _ _ _ _ _ Hlive3 Hp Hlen Hu) as (s5&->&P5&F5&Hlive5). cbn [exec_bind].
      eexists _, _, _. split; [reflexivity|]. left. by exists P5, F5, loc3, lost.
    + eexists _, _, _. split; [reflexivity|]. left. exists P3, F, loc3, ((l, v) :: lost). by eapply live_fail.
  - destruct Hpoll as [Hf Hf']. eexists _, _, _. split; [reflexivity|]. left. exists P3, F, loc3, lost.
    eapply live_jobs; [done|by rewrite Hf, Hf'|]. rewrite fu_len_jobs, Hf'. simpl. lia.
  - destruct Hpoll as [_ Hf']. eexists _, _, _. split; [reflexivity|]. left. exists P3, F, loc3, lost.
    eapply live_jobs; [done|by rewrite Hf'|]. rewrite fu_len_jobs, Hf'. lia.
Qed.

Lemma root_children_ok ws w :
  fits (w + sum_list_with (λ p : nat * In, p.1 `max` 1) ws) →
  ∃ kids : list (Child Out In), root_children ws w = ret (kids, w + weights kids) ∧
    kind <$> kids = item_kind <$> (inr ∘ snd <$> ws).
Proof.
  revert w. induction ws as [|[w0 v] ws IH]; intros w Hf; cbn [root_children].
  { exists []. by rewrite Nat.add_0_r. }
  simpl in Hf. rewrite count_add_le by (eapply (fits_le _ _); [|exact Hf]; lia). cbn [exec_bind].
  destruct (IH (w + w0 `max` 1)) as (kids&->&Hkids); [eapply fits_le; [|exact Hf]; lia|]. cbn [exec_bind].
  exists (Unscheduled (w0 `max` 1) v :: kids). split; [do 2 f_equal; unfold weights; simpl; lia|].
  rewrite !fmap_cons. by rewrite Hkids.
Qed.

(** The front of a tree that is only a root. *)
Lemma root_front (xs : list (Out + In)) :
  front_ok {[0 := []]} {[0 := (None, item_kind <$> xs)]} 0 [] (new_entries [] xs) ∧
  at_front {[0 := []]} {[0 := (None, item_kind <$> xs)]} (Build_NodeLocation 0 0).
Proof.
  assert (∀ l k, child_at {[0 := (None, item_kind <$> xs)]} l k ↔ node_index l = 0 ∧ ∃ x, xs !! child_index l = Some x ∧ k = item_kind x) as Hat.
  { intros l k. unfold child_at. split.
    - intros (par&ks&[<- [= <- <-]]%lookup_singleton_Some&Hk). split; [done|]. rewrite list_lookup_fmap in Hk.
      destruct (xs !! _) as [x|]; [|done]. injection Hk as <-. by exists x.
    - intros (Hn&x&Hx&->). exists None, (item_kind <$> xs). rewrite Hn. split; [apply lookup_singleton_eq|].
      by rewrite list_lookup_fmap, Hx. }
  split; [split|split].
  - split.
    + split; [apply lookup_singleton_eq|]. eexists. apply lookup_singleton_eq.
    + intros m par ks [<- [= <- <-]]%lookup_singleton_Some. done.
    + intros l m (_&x&_&Hx)%Hat. by destruct x.
    + intros m p [<- _]%lookup_singleton_Some. rewrite lookup_singleton_eq. eauto.
  - constructor.
  - intros l. rewrite Hat. split; [by intros ?%not_elem_of_nil|]. intros (_&x&_&Hx). by destruct x.
  - intros q x. rewrite elem_of_new_entries. split.
    + intros (j&->&Hj). exists (Build_NodeLocation 0 j). split; [exists []; by rewrite lookup_singleton_eq|].
      exists (item_kind x). split; [apply Hat; by eauto|]. by destruct x.
    + intros (l&(p&[Hn <-]%lookup_singleton_Some&->)&k&(_&y&Hy&->)%Hat&Hx). exists (child_index l). split; [done|].
      destruct y; simpl in Hx; by subst.
  - apply new_entries_sorted.
  - rewrite lookup_singleton_eq. eauto.
  - intros q (p&[_ <-]%lookup_singleton_Some&->) l k q' _ _ _ Hb%before_zero_inv. by destruct q'.
Qed.

Lemma new_entries_items (xs : list (Out + In)) : (new_entries [] xs).*2 = xs.
Proof. unfold new_entries. rewrite fmap_imap. unfold compose. simpl. apply imap_const_id. Qed.

Lemma ordered_new_inv :
  ∃ s, new sched_max queued_max limit0 init = ret s ∧ inv s [].
Proof.
  unfold new. destruct (root_children_ok init 0 Hinit) as (kids&->&Hkids). cbn [exec_bind].
  destruct (add_budget_ok (node_new None kids (0 + weights kids)) queued_max Hqfit) as (b&surplus&->&Hsum&_). cbn [exec_bind].
  simpl in Hsum. rewrite count_sub_le by lia. cbn [exec_bind]. eexists. split; [reflexivity|].
  set (root := set_budget (node_new None kids (0 + weights kids)) b). destruct (root_front (inr ∘ snd <$> init)) as [Hf Ha].
  assert (shapes {[0 := root]} = {[0 := (None, item_kind <$> (inr ∘ snd <$> init))]}) as Hsh.
  { unfold shapes. rewrite map_fmap_singleton. unfold skel. simpl. by rewrite Hkids. }
  assert (budgets {[0 := root]} = queued_max - surplus) as Hb.
  { unfold budgets. rewrite <-insert_empty, map_sum_insert, map_sum_empty by apply lookup_empty. simpl. lia. }
  destruct (decide (limit0 = Some 0)) as [Hz|Hz].
  - right. split; [done|]. split; [done|]. split; [|exists (inr ∘ snd <$> init); split; [done|by intros e ?%not_elem_of_nil]].
    split; simpl; [rewrite fu_len_jobs, fu_jobs_new; simpl; lia|]. split; [done|lia].
  - left. exists {[0 := []]}, (new_entries [] (inr ∘ snd <$> init)), (Build_NodeLocation 0 0), [].
    split; [done|]. split; [|split; [done|split; [done|split; [|split]]]].
    + split; simpl; [|..|done|eapply fits_le; [|exact Hqfit]; lia|lia].
      * split; simpl; rewrite ?Hsh; [|done|rewrite fu_len_jobs, fu_jobs_new; simpl; lia]. unfold jobs. simpl. by rewrite fu_jobs_new.
      * intros i nd [_ <-]%lookup_singleton_Some. split; [done|]. intros l Hl. simpl. by apply Hlfit.
    + unfold limit_left. simpl. destruct limit0 as [l|]; [|done]. exists l. split; [done|]. simpl. lia.
    + rewrite new_entries_items. simpl. done.
    + by intros e ?%not_elem_of_nil.
Qed.

Lemma ordered_stream_inv : ∃ s, ordered_stream sched_max queued_max limit0 init = ret s ∧ inv s [].
Proof. pose proof ordered_new_inv as Hnew. by destruct limit0. Qed.

Lemma ordered_run_ok (polls fuel : nat) w :
  ∃ r, run_ordered_stream from_err unfold_ sched_max queued_max limit0 init polls fuel w = ret r ∧
    match r with
    | None => True
    | Some (items, finished, s, _) => ∃ rest, result_ok items rest ∧
        if finished : bool then rest = [] ∨ limit0 = Some (length (omap ok items)) else bounded s
    end.
Proof.
  unfold run_ordered_stream. destruct ordered_stream_inv as (s0&->&Hs0). cbn [exec_bind].
  destruct (collect_ordered_ok (poll_step from_err unfold_) inv
    (λ items, ∃ rest, result_ok items rest ∧ (rest = [] ∨ limit0 = Some (length (omap ok items))))
    ordered_step_ok polls fuel s0 w [] Hs0) as (r&Hr&Hok).
  exists r. split; [exact Hr|]. destruct r as [[[[items e] s] w']|]; [|done]. simpl in Hok. destruct e; [done|].
  destruct Hok as [(P&F&loc&lost&Hlive)|(_&_&Hb&rest&Hrest)]; [|by exists rest].
  apply live_result in Hlive as [Hres Hb]. by exists F.*2.
Qed.

(** C1: soundness of the ordered stream, for every order of completion and every number of
    polls: nothing panics (no index, subtraction, assertion or addition of a budget), no
    programming error is reported, and no inner loop runs out of fuel; what was yielded is, in
    order, the front of what unfolding the roots in place gives, each error being that of an
    input not yet unfolded; the stream ends when nothing is left or the limit is reached; and
    meanwhile at most [scheduled_max] futures are in progress and the budgets of the nodes add
    up to the total budget. *)
Theorem ordered_stream_sound (polls fuel : nat) w :
  ∃ r, run_ordered_stream from_err unfold_ sched_max queued_max limit0 init polls fuel w = ret r ∧
    match r with
    | None => True
    | Some (items, finished, s, _) => ∃ rest, result_ok items rest ∧
        if finished : bool then rest = [] ∨ limit0 = Some (length (omap ok items)) else bounded s
    end.
Proof. apply ordered_run_ok. Qed.

(** The outputs of a symbol, in order, when nothing fails below it. *)
Inductive leaves : Out + In → list Out → Prop :=
| leaves_output o : leaves (inl o) [o]
| leaves_input v items ls :
    unfold_ v = Ok items → Forall2 leaves (item_of <$> items) ls → leaves (inr v) (concat ls).

Lemma expand_leaves f f' ls :
  expand f f' → Forall2 leaves f ls → ∃ ls', Forall2 leaves f' ls' ∧ concat ls' = concat ls.
Proof.
  intros [l1 v items l2 Hu] Hls. apply Forall2_app_inv_l in Hls as (k1&k2&Hk1&Hk2&->).
  inversion Hk2 as [|? l ? k3 Hl Hk3]; subst. inversion Hl as [|? items' ls Hu' Hls]; subst.
  rewrite Hu in Hu'. simplify_eq. exists (k1 ++ ls ++ k3). split; [by apply Forall2_app, Forall2_app|].
  by rewrite !concat_app.
Qed.

Lemma leaves_outputs ys rest ls :
  Forall2 leaves ((inl <$> ys) ++ rest) ls → ∃ ls', Forall2 leaves rest ls' ∧ concat ls = ys ++ concat ls'.
Proof.
  revert ls. induction ys as [|y ys IH]; intros ls Hls; simpl in Hls; [by exists ls|].
  inversion Hls as [|? l ? ls2 Hl Hls2]; subst. inversion Hl; subst. destruct (IH _ Hls2) as (ls'&?&Heq).
  exists ls'. split; [done|]. simpl. by rewrite Heq.
Qed.

Lemma result_exact items rest ls :
  result_ok items rest → Forall2 leaves (inr ∘ snd <$> init) ls →
  ∃ ys ls', items = Ok <$> ys ∧ Forall2 leaves rest ls' ∧ concat ls = ys ++ concat ls'.
Proof.
  intros [Hd He] Hls.
  assert (∃ ls1, Forall2 leaves ((inl <$> omap ok items) ++ rest) ls1 ∧ concat ls1 = concat ls) as (ls1&Hls1&Heq1).
  { clear He. revert ls Hls. induction Hd as [|f1 f2 f3 Hstep _ IH]; intros ls Hls; [by exists ls|].
    destruct (expand_leaves _ _ _ Hstep Hls) as (ls2&Hls2&Heq2). destruct (IH _ Hls2) as (ls3&?&?).
    exists ls3. split; [done|congruence]. }
  destruct (leaves_outputs _ _ _ Hls1) as (ls'&Hrest&Heq). exists (omap ok items), ls'.
  split; [|split; [done|congruence]].
  assert (∀ e, Err e ∉ items) as Hno.
  { intros e (v&Hv&Hu)%He. apply list_elem_of_lookup in Hv as [i Hi].
    destruct (Forall2_lookup_l _ _ _ _ _ Hrest Hi) as (l&_&Hl). inversion Hl. congruence. }
  clear -Hno. induction items as [|[o|e] items IH].
  - done.
  - rewrite omap_cons_eq. cbn [ok]. rewrite fmap_cons. f_equal. apply IH. intros e ?. apply (Hno e). by right.
  - destruct (Hno e). by left.
Qed.

(** C2: when no unfold fails, the stream yields the outputs of the trees in order, whatever
    the order of completion: those yielded so far are the first ones, and at the end they are
    all of them, or the first [limit]. *)
Theorem ordered_stream_exact ls (polls fuel : nat) w :
  Forall2 leaves (inr ∘ snd <$> init) ls →
  ∃ r, run_ordered_stream from_err unfold_ sched_max queued_max limit0 init polls fuel w = ret r ∧
    match r with
    | None => True
    | Some (items, finished, _, _) => ∃ ys rest, items = Ok <$> ys ∧ concat ls = ys ++ rest ∧
        (finished = true → rest = [] ∨ limit0 = Some (length ys))
    end.
Proof.
  intros Hls. destruct (ordered_run_ok polls fuel w) as (r&Hr&Hok). exists r. split; [exact Hr|].
  destruct r as [[[[items e] s] w']|]; [|done]. destruct Hok as (rest&Hres&Hend).
  destruct (result_exact _ _ _ Hres Hls) as (ys&ls'&->&Hrest&Heq). exists ys, (concat ls'). split; [done|]. split; [done|].
  intros ->. destruct Hend as [->|Hlim]; [left; by inversion Hrest|right]. rewrite Hlim. do 2 f_equal.
  clear. induction ys as [|y ys IH]; [done|]. rewrite fmap_cons, omap_cons_eq. simpl. by f_equal.
Qed.
End run.
End stream.

(** ** Concrete runs *)
Section witnesses.
#[local] Existing Instance debug_build.

Definition demo_unfold (v : nat) : result (list (OrderedTraversal nat nat)) nat :=
  match v with
  | 1 => Ok [Output 10; Futures.Recurse 3 2; Output 11; Futures.Recurse 0 3]
  | 2 => Ok [Output 20; Futures.Recurse 1 4; Output 21]
  | 3 => Ok [Output 30]
  | 4 => Ok []
  | _ => Err v
  end.

#[local] Abbreviation demo_run limit polls :=
  (run_ordered_stream (FU:=scripted _) (λ _, 0) demo_unfold 2 3 limit [(5, 1); (1, 3)] polls 50 [Some 1; None; Some 0]).

Lemma demo_leaves : Forall2 (leaves demo_unfold) (inr ∘ snd <$> [(5, 1); (1, 3)]) [[10; 20; 21; 11; 30]; [30]].
Proof.
  assert (leaves demo_unfold (inr 3) [30]) as H3
    by (apply (leaves_input _ 3 [Output 30] [[30]]); [reflexivity|repeat constructor]).
  assert (leaves demo_unfold (inr 4) []) as H4 by (apply (leaves_input _ 4 [] []); [reflexivity|constructor]).
  assert (leaves demo_unfold (inr 2) [20; 21]) as H2
    by (apply (leaves_input _ 2 [Output 20; Futures.Recurse 1 4; Output 21] [[20]; []; [21]]); [reflexivity|repeat first [assumption|constructor]]).
  constructor; [|by constructor].
  apply (leaves_input _ 1 [Output 10; Futures.Recurse 3 2; Output 11; Futures.Recurse 0 3] [[10]; [20; 21]; [11]; [30]]); [reflexivity|repeat first [assumption|constructor]].
Qed.

Lemma demo_weights v items : demo_unfold v = Ok items → fits (sum_list_with item_weight items).
Proof. destruct v as [|[|[|[|[|]]]]]; intros [= <-]; vm_compute; discriminate. Qed.

Lemma demo_fits : fits 3 ∧ fits (sum_list_with (λ p : nat * nat, p.1 `max` 1) [(5, 1); (1, 3)]) ∧ fits 4.
Proof. split; [|split]; vm_compute; discriminate. Qed.

Lemma ordered_stream_sound_witness :
  ∃ r, demo_run None 9 = ret (Some r) ∧ r.1.1 = (Ok <$> [10; 20; 21; 11; 30; 30], true).
Proof.
  destruct (ordered_stream_sound (FU:=scripted _) (λ _, 0) demo_unfold 3 2 None [(5, 1); (1, 3)] (proj1 demo_fits) ltac:(done)
    (proj1 (proj2 demo_fits)) demo_weights 9 50 [Some 1; None; Some 0]) as (r&Hr&_).
  vm_compute in Hr. injection Hr as <-. eexists. split; vm_compute; reflexivity.
Defined.

Lemma ordered_stream_exact_witness :
  ∃ r, demo_run (Some 4) 9 = ret (Some r) ∧ r.1.1 = (Ok <$> [10; 20; 21; 11], true).
Proof.
  assert (∀ l, Some 4 = Some l → fits l) as Hl by (intros l [= <-]; apply demo_fits).
  destruct (ordered_stream_exact (FU:=scripted _) (λ _, 0) demo_unfold 3 2 (Some 4) [(5, 1); (1, 3)] (proj1 demo_fits) Hl
    (proj1 (proj2 demo_fits)) demo_weights _ 9 50 [Some 1; None; Some 0] demo_leaves) as (r&Hr&_).
  vm_compute in Hr. injection Hr as <-. eexists. split; vm_compute; reflexivity.
Defined.

#[local] Abbreviation failing_step :=
  (poll_step (FU:=scripted _) (λ _ : BoundedTraversalError, 0) demo_unfold).

Lemma poll_loop_spins {A St W} (step : St → W → exec (control A * St * W)) s w fuel :
  step s w = ret (Continue, s, w) → poll_loop step fuel s w = ret None.
Proof. intros Hst. induction fuel as [|fuel IH]; [done|]. cbn [poll_loop]. by rewrite Hst. Qed.

(** Polling the stream again after an unfold failed can block forever: the input is lost,
    nothing else is in progress, and the loop goes round without ever being pending. *)
Theorem poll_after_error_spins :
  ∃ s w, run_ordered_stream (FU:=scripted _) (λ _, 0) demo_unfold 1 1 None [(1, 7)] 1 9 [] = ret (Some ([Err 7], false, s, w)) ∧
    ∀ fuel, poll_loop failing_step fuel s w = ret None.
Proof.
  eexists _, _. split; [vm_compute; reflexivity|]. intros fuel. apply poll_loop_spins. vm_compute. reflexivity.
Qed.
End witnesses.
End OrderedStreamTheory.
