(* ===== verification/Duration.v ===== *)
(** [std::time::Duration] as a number of nanoseconds, with the panics of its arithmetic, the
    [time_ext] crate (src/shed/time_ext/src/lib.rs) and the microsecond encoding of durations
    in [chrome_trace] (the module [duration] of src/shed/chrome_trace/src/lib.rs). *)
From S2P Require Import Prelude RustStd.

#[local] Open Scope Z_scope.

(** * [std::time] *)

(** Nanoseconds; a [Duration] holds a [u64] of seconds and less than a second of nanoseconds. *)
Definition Duration : Type := Z.
Definition NANOS_PER_SEC : Z := 1000000000.
Definition duration_max : Duration := usize_max * NANOS_PER_SEC + (NANOS_PER_SEC - 1).
Definition valid (d : Duration) : Prop := 0 ≤ d ≤ duration_max.

Definition as_secs (d : Duration) : Z := d / NANOS_PER_SEC.
Definition subsec_nanos (d : Duration) : Z := d mod NANOS_PER_SEC.
Definition subsec_micros (d : Duration) : Z := subsec_nanos d / 1000.
Definition subsec_millis (d : Duration) : Z := subsec_nanos d / 1000000.
(** These three are [u128]. *)
Definition as_nanos (d : Duration) : Z := d.
Definition as_micros (d : Duration) : Z := d / 1000.
Definition as_millis (d : Duration) : Z := d / 1000000.

Definition from_secs (s : Z) : Duration := s * NANOS_PER_SEC.
Definition from_millis (m : Z) : Duration := m * 1000000.
Definition from_micros (m : Z) : Duration := m * 1000.
Definition from_nanos (n : Z) : Duration := n.

(** [+], [-] and [* u32] panic when the result is not a duration, in every build. *)
Definition duration_op (d : Z) : exec Duration := if bool_decide (0 ≤ d ≤ duration_max) then ret d else panic.
Definition duration_add (a b : Duration) : exec Duration := duration_op (a + b).
Definition duration_sub (a b : Duration) : exec Duration := duration_op (a - b).
Definition duration_mul (a : Duration) (n : Z) : exec Duration := duration_op (a * n).
Definition duration_checked_sub (a b : Duration) : option Duration := if b <=? a then Some (a - b) else None.

(** [Instant]s are readings of one clock; [duration_since] is zero for a later instant. *)
Definition Instant : Type := Z.
Definition duration_since (later earlier : Instant) : Duration := (later - earlier) `max` 0.

Lemma duration_op_ok d : valid d → duration_op d = ret d.
Proof. intros Hd. unfold duration_op. by rewrite bool_decide_true. Qed.
Lemma duration_op_panics d : ¬ valid d → duration_op d = panic.
Proof. intros Hd. unfold duration_op. by rewrite bool_decide_false. Qed.

Lemma as_secs_range d : valid d → 0 ≤ as_secs d ≤ usize_max.
Proof.
  unfold valid, duration_max, as_secs, NANOS_PER_SEC. intros Hd. split; [apply Z.div_pos; lia|].
  apply Z.lt_succ_r, Z.div_lt_upper_bound; lia.
Qed.
Lemma subsec_nanos_range d : 0 ≤ subsec_nanos d < NANOS_PER_SEC.
Proof. by apply Z.mod_pos_bound. Qed.

Lemma subsec_nonneg d u : 0 < u → 0 ≤ subsec_nanos d / u.
Proof. intros Hu. pose proof (subsec_nanos_range d). by apply Z.div_pos; lia. Qed.

(** A number of smaller units from the seconds and the rest, [u] nanoseconds to the unit. *)
Lemma unit_split d u per_sec :
  0 < u → u * per_sec = NANOS_PER_SEC → d / u = as_secs d * per_sec + subsec_nanos d / u.
Proof.
  intros Hu Hper. unfold as_secs, subsec_nanos.
  rewrite (Z.div_mod d NANOS_PER_SEC) at 1 by (unfold NANOS_PER_SEC; lia).
  rewrite <-Hper at 1. replace (u * per_sec * (d / NANOS_PER_SEC) + d mod NANOS_PER_SEC)
    with (d / NANOS_PER_SEC * per_sec * u + d mod NANOS_PER_SEC) by ring.
  by rewrite Z.div_add_l by lia.
Qed.

(** * [time_ext] *)

Module TimeExt.
Section ext.
Context `{BM : BuildMode}.

Inductive OverflowError : Type := overflow_error.

(** [u128::try_into::<u64>()]. *)
Definition to_u64 (z : Z) : result Z OverflowError := if z <=? usize_max then Ok z else Err overflow_error.

Definition as_millis_u64 (d : Duration) : result Z OverflowError := to_u64 (as_millis d).
Definition as_micros_u64 (d : Duration) : result Z OverflowError := to_u64 (as_micros d).
Definition as_nanos_u64 (d : Duration) : result Z OverflowError := to_u64 (as_nanos d).

Definition as_millis_unchecked (d : Duration) : exec Z :=
  let! whole := usize_mul (as_secs d) 1000 in usize_add whole (subsec_millis d).
Definition as_micros_unchecked (d : Duration) : exec Z :=
  let! whole := usize_mul (as_secs d) 1000000 in usize_add whole (subsec_micros d).
Definition as_nanos_unchecked (d : Duration) : exec Z :=
  let! whole := usize_mul (as_secs d) 1000000000 in usize_add whole (subsec_nanos d).

Definition zero : Duration := from_secs 0.
Definition is_zero (d : Duration) : bool := d =? zero.
Definition duration_until (self later : Instant) : Duration := duration_since later self.

(** What the unchecked conversion gives for the exact number of units. *)
Definition unchecked (z : Z) : exec Z :=
  match to_u64 z with
  | Ok v => ret v
  | Err _ => if overflow_checks then panic else ret (z mod 2 ^ 64)
  end.

Lemma mul_add_unchecked a n b :
  0 ≤ a → 0 ≤ n → 0 ≤ b → (let! whole := usize_mul a n in usize_add whole b) = unchecked (a * n + b).
Proof.
  intros Ha Hn Hb. assert (0 ≤ a * n) by nia. unfold usize_mul, usize_add, unchecked, to_u64, usize_wrap.
  assert (usize_max + 1 = 2 ^ 64) as Hu by done.
  destruct (bool_decide_reflect (0 ≤ a * n ≤ usize_max)) as [Hle|Hgt].
  - cbn [exec_bind]. case_bool_decide as Hs; [by rewrite (proj2 (Z.leb_le _ _)) by lia|].
    rewrite (proj2 (Z.leb_gt _ _)) by lia. destruct overflow_checks; [done|]. by rewrite Hu.
  - rewrite (proj2 (Z.leb_gt (a * n + b) _)) by lia. destruct overflow_checks; [done|]. cbn [exec_bind].
    assert (0 ≤ (a * n) mod (usize_max + 1) < usize_max + 1) as Hm by (apply Z.mod_pos_bound; unfold usize_max; lia).
    rewrite <-Hu. rewrite <-(Z.add_mod_idemp_l (a * n)) by (unfold usize_max; lia).
    case_bool_decide; [by rewrite (Z.mod_small (_ + b)) by lia|done].
Qed.

(** On every duration, [as_millis_u64], [as_micros_u64] and [as_nanos_u64] give the whole
    number of units when it fits in a [u64] and an error exactly when it does not; the
    unchecked versions agree with them where they succeed and, where they fail, panic in a
    build with overflow checks and wrap around in one without. *)
Theorem duration_units (d : Duration) :
  valid d →
  as_millis_u64 d = (if d / 1000000 <=? usize_max then Ok (d / 1000000) else Err overflow_error) ∧
  as_micros_u64 d = (if d / 1000 <=? usize_max then Ok (d / 1000) else Err overflow_error) ∧
  as_nanos_u64 d = (if d <=? usize_max then Ok d else Err overflow_error) ∧
  as_millis_unchecked d = unchecked (d / 1000000) ∧
  as_micros_unchecked d = unchecked (d / 1000) ∧
  as_nanos_unchecked d = unchecked d.
Proof.
  intros Hd. pose proof (as_secs_range d Hd) as [Hs _]. pose proof (subsec_nanos_range d) as Hn.
  split; [done|]. split; [done|]. split; [done|].
  split; [|split].
  - unfold as_millis_unchecked. rewrite mul_add_unchecked by (lia || by apply subsec_nonneg).
    by rewrite (unit_split d 1000000 1000).
  - unfold as_micros_unchecked. rewrite mul_add_unchecked by (lia || by apply subsec_nonneg).
    by rewrite (unit_split d 1000 1000000).
  - unfold as_nanos_unchecked. rewrite mul_add_unchecked by lia. f_equal.
    rewrite <-(Z.div_1_r d) at 3. rewrite (unit_split d 1 1000000000) by done. by rewrite Z.div_1_r.
Qed.

End ext.

(** The first duration whose milliseconds do not fit in a [u64], in both builds. *)
Lemma duration_units_witness :
  valid 18446744073709551616000000 ∧
  as_millis_u64 18446744073709551616000000 = Err overflow_error ∧
  as_millis_unchecked (BM:=debug_build) 18446744073709551616000000 = panic ∧
  as_millis_unchecked (BM:=release_build) 18446744073709551616000000 = ret 0.
Proof.
  assert (valid 18446744073709551616000000) as Hv by (split; vm_compute; discriminate).
  destruct (duration_units (BM:=debug_build) _ Hv) as (H&_&_&H'&_).
  destruct (duration_units (BM:=release_build) _ Hv) as (_&_&_&H''&_).
  split; [exact Hv|]. split; [rewrite H; reflexivity|]. split; [rewrite H'; reflexivity|rewrite H''; reflexivity].
Defined.
End TimeExt.

(** * [chrome_trace::duration] *)

Module ChromeDuration.
Section chrome.
Context `{BM : BuildMode}.

(** [as_micros] of the crate, and the encoding of optional durations: a [None] is skipped by the
    field's attribute before [serialize_opt] is called. *)
Definition micros (d : Duration) : exec Z :=
  let! whole := usize_mul (as_secs d) 1000000 in usize_add whole (subsec_micros d).
Definition serialize (d : Duration) : exec Z := micros d.
Definition serialize_opt (value : option Duration) : exec Z := let! value := expect value in serialize value.
Definition visit_u64 (value : Z) : Duration := from_micros value.
Definition deserialize (value : Z) : Duration := visit_u64 value.
Definition deserialize_opt (value : Z) : option Duration := Some (deserialize value).

Lemma serialize_micros m : 0 ≤ m ≤ usize_max → serialize (from_micros m) = ret m.
Proof.
  intros Hm. unfold serialize, micros. rewrite TimeExt.mul_add_unchecked.
  - unfold TimeExt.unchecked, TimeExt.to_u64. unfold subsec_micros. rewrite <-(unit_split _ 1000 1000000) by done.
    unfold from_micros. rewrite Z.div_mul by lia. by rewrite (proj2 (Z.leb_le _ _)) by lia.
  - unfold as_secs, from_micros, NANOS_PER_SEC. apply Z.div_pos; lia.
  - lia.
  - unfold subsec_micros. pose proof (subsec_nanos_range (from_micros m)). apply Z.div_pos; lia.
Qed.
End chrome.
End ChromeDuration.
