(* ===== verification/Streams.v ===== *)
(** Futures and streams of the [futures] crate as the adaptors of the repository see them: a
    future is polled in a world until it resolves, a [FuturesOrdered] runs futures at the same
    time and hands their outputs back in the order they were pushed, a fused stream says when
    it has ended.  Each comes as a class with its documented behaviour and with a concrete
    instance to run the models on. *)
From S2P Require Import Prelude RustStd.

(** * Futures *)

Class Future (F O W : Type) := fpoll : F → W → Poll O * F * W.
#[global] Hint Mode Future ! - - : typeclass_instances.

Section future.
Context {F O W : Type} {FF : Future F O W}.

(** What a future becomes while it is pending, and what it can resolve to. *)
Definition pending_step (f f' : F) : Prop := ∃ w w', fpoll f w = (Pending, f', w').
Definition evolves : relation F := rtc pending_step.
Definition resolves (f : F) (o : O) : Prop := ∃ f' g w w', evolves f f' ∧ fpoll f' w = (Ready o, g, w').

Lemma evolves_step f f' w w' : fpoll f w = (Pending, f', w') → evolves f f'.
Proof. intros Hf. apply rtc_once. by exists w, w'. Qed.

Lemma evolves_resolves f f' o : evolves f f' → resolves f' o → resolves f o.
Proof. intros Hf (g&h&w&w'&Hg&Hp). exists g, h, w, w'. split; [by transitivity f'|done]. Qed.

Lemma poll_resolves f o f' w w' : fpoll f w = (Ready o, f', w') → resolves f o.
Proof. intros Hf. exists f, f', w, w'. split; [reflexivity|done]. Qed.
End future.
#[global] Hint Resolve evolves_step evolves_resolves poll_resolves : shed.

Lemma Forall2_compose {A B C} (P : A → B → Prop) (Q : B → C → Prop) (R : A → C → Prop) l k m :
  (∀ x y z, P x y → Q y z → R x z) → Forall2 P l k → Forall2 Q k m → Forall2 R l m.
Proof.
  intros HR Hlk. revert m. induction Hlk; intros m Hkm; inversion Hkm; subst; constructor; eauto.
Qed.

(** * [FuturesOrdered] *)

(** The futures in progress, oldest first.  A poll advances any of them and hands out the
    output of the oldest once it resolved; it answers [None] exactly when there is none. *)
Class FuturesOrdered (F O W : Type) {FF : Future F O W} := {
  fo : Type;
  fo_new : fo;
  fo_push_back : F → fo → fo;
  fo_len : fo → nat;
  fo_poll_next : fo → W → Poll (option O) * fo * W;
  fo_futs : fo → list F;
  fo_futs_new : fo_futs fo_new = [];
  fo_futs_push f q : fo_futs (fo_push_back f q) = fo_futs q ++ [f];
  fo_len_futs q : fo_len q = length (fo_futs q);
  fo_poll_next_spec q w :
    match fo_poll_next q w with
    | (Ready None, q', _) => fo_futs q = [] ∧ fo_futs q' = []
    | (Ready (Some o), q', _) => ∃ f fs, fo_futs q = f :: fs ∧ resolves f o ∧ Forall2 evolves fs (fo_futs q')
    | (Pending, q', _) => fo_futs q ≠ [] ∧ Forall2 evolves (fo_futs q) (fo_futs q')
    end;
}.

(** An instance: a list of futures of which only the oldest is polled. *)
Section in_turn.
Context {F O W : Type} {FF : Future F O W}.

Definition in_turn_poll (q : list F) (w : W) : Poll (option O) * list F * W :=
  match q with
  | [] => (Ready None, [], w)
  | f :: fs =>
      match fpoll f w with
      | (Ready o, _, w) => (Ready (Some o), fs, w)
      | (Pending, f, w) => (Pending, f :: fs, w)
      end
  end.

Lemma evolves_refl (fs : list F) : Forall2 evolves fs fs.
Proof. induction fs; constructor; [apply rtc_refl|done]. Qed.

#[export] Program Instance in_turn : FuturesOrdered F O W | 100 := {|
  fo := list F; fo_new := []; fo_push_back f q := q ++ [f]; fo_len := length;
  fo_poll_next := in_turn_poll; fo_futs q := q;
|}.
Next Obligation. done. Qed.
Next Obligation. done. Qed.
Next Obligation. done. Qed.
Next Obligation.
  intros [|f fs] w; simpl; [done|]. destruct (fpoll f w) as [[[o|] f'] w'] eqn:Hf; simpl.
  - exists f, fs. split; [done|]. split; [eauto with shed|apply evolves_refl].
  - split; [done|]. constructor; [eauto with shed|apply evolves_refl].
Qed.
End in_turn.

(** * Fused streams *)

(** [stream.fuse()]: after it answered [None] the stream is done, and stays so. *)
Class Fuse (St Item W : Type) := {
  fused : Type;
  fuse : St → fused;
  fuse_poll : fused → W → Poll (option Item) * fused * W;
  fuse_is_done : fused → bool;
  fuse_size_hint : fused → nat * option nat;
  fuse_new st : fuse_is_done (fuse st) = false;
  fuse_poll_spec s w :
    match fuse_poll s w with
    | (Ready None, s', _) => fuse_is_done s' = true
    | (_, s', _) => fuse_is_done s = false ∧ fuse_is_done s' = false
    end;
}.

Section fused.
Context {St Item W : Type} {FS : Fuse St Item W}.
Implicit Types (s : fused) (x : Item) (w : W).

Lemma poll_done s w : fuse_is_done s = true → ∃ s' w', fuse_poll s w = (Ready None, s', w') ∧ fuse_is_done s' = true.
Proof.
  intros Hd. pose proof (fuse_poll_spec s w) as Hs. destruct (fuse_poll s w) as [[[[x|]|] s'] w'].
  - destruct Hs; congruence.
  - by exists s', w'.
  - destruct Hs; congruence.
Qed.

(** The items a stream has handed out between two of its states. *)
Inductive pulls : fused → list Item → fused → Prop :=
| pulls_nil s : pulls s [] s
| pulls_item s x s' l s'' w w' : fuse_poll s w = (Ready (Some x), s', w') → pulls s' l s'' → pulls s (x :: l) s''
| pulls_other s s' l s'' p w w' :
    fuse_poll s w = (p, s', w') → (∀ x, p ≠ Ready (Some x)) → pulls s' l s'' → pulls s l s''.

Lemma pulls_app s1 l1 s2 l2 s3 : pulls s1 l1 s2 → pulls s2 l2 s3 → pulls s1 (l1 ++ l2) s3.
Proof. induction 1; intros Hp; simpl; [done|by eapply pulls_item; eauto|by eapply pulls_other; eauto]. Qed.

Lemma pulls_snoc s1 l s2 x s3 w w' : pulls s1 l s2 → fuse_poll s2 w = (Ready (Some x), s3, w') → pulls s1 (l ++ [x]) s3.
Proof. intros Hp Hx. eapply pulls_app; [done|]. eapply pulls_item; [done|constructor]. Qed.

Lemma pulls_end s1 l s2 s3 w w' : pulls s1 l s2 → fuse_poll s2 w = (Ready None, s3, w') → pulls s1 l s3.
Proof.
  intros Hp Hx. rewrite <-(app_nil_r l). eapply pulls_app; [done|]. eapply pulls_other; [done|done|constructor].
Qed.

Lemma pulls_wait s1 l s2 s3 w w' : pulls s1 l s2 → fuse_poll s2 w = (Pending, s3, w') → pulls s1 l s3.
Proof.
  intros Hp Hx. rewrite <-(app_nil_r l). eapply pulls_app; [done|]. eapply pulls_other; [done|done|constructor].
Qed.

(** A stream that hands out at most [n] more items, whatever the world does. *)
Definition at_most (n : nat) s : Prop := ∀ l s', pulls s l s' → length l ≤ n.

Lemma at_most_item n s x s' w w' :
  at_most n s → fuse_poll s w = (Ready (Some x), s', w') → 0 < n ∧ at_most (n - 1) s'.
Proof.
  intros Hn Hx. assert (∀ l s'', pulls s' l s'' → S (length l) ≤ n) as Hl.
  { intros l s'' Hp. apply (Hn (x :: l) s''). by eapply pulls_item. }
  split; [by apply (Hl [] s'); constructor|]. intros l s'' Hp. specialize (Hl l s'' Hp). lia.
Qed.

Lemma at_most_pulls n s l s' : at_most n s → pulls s l s' → at_most (n - length l) s'.
Proof.
  intros Hn Hp l' s'' Hp'. specialize (Hn (l ++ l') s''). rewrite length_app in Hn.
  specialize (Hn (pulls_app _ _ _ _ _ Hp Hp')). lia.
Qed.
End fused.

(** An instance: the script of a stream, [None] where it is pending. *)
Definition script_next {Item W} (s : list (option Item) * bool) (w : W) : Poll (option Item) * (list (option Item) * bool) * W :=
  match s with
  | (_, true) => (Ready None, s, w)
  | ([], false) => (Ready None, ([], true), w)
  | (None :: l, false) => (Pending, (l, false), w)
  | (Some x :: l, false) => (Ready (Some x), (l, false), w)
  end.

#[export] Program Instance script_fuse (Item W : Type) : Fuse (list (option Item)) Item W | 100 := {|
  fused := list (option Item) * bool; fuse l := (l, false);
  fuse_poll := script_next; fuse_is_done := snd; fuse_size_hint s := (length (omap id s.1), Some (length s.1));
|}.
Next Obligation. done. Qed.
Next Obligation. by intros Item W [[|[x|] l] []] w. Qed.

Lemma script_at_most {Item W} (l : list (option Item)) : at_most (FS:=script_fuse Item W) (length l) (l, false).
Proof.
  assert (∀ (s : fused (Fuse:=script_fuse Item W)) k s', pulls (FS:=script_fuse Item W) s k s' →
    length k ≤ if s.2 then 0 else length s.1) as H; [|exact (λ k s', H (l, false) k s')].
  induction 1 as [s|s x s' k s'' w w' Hx _ IH|s s' k s'' p w w' Hx _ _ IH]; [simpl; lia|..];
    destruct s as [[|[y|] l'] []]; simpl in *; simplify_eq; simpl in *; lia.
Qed.

(** An instance of futures: a countdown of polls to an output. *)
#[export] Instance countdown (O W : Type) : Future (nat * O) O W | 100 := λ f w,
  match f with (0, o) => (Ready o, f, w) | (S n, o) => (Pending, (n, o), w) end.

Lemma countdown_evolves {O W} (f f' : nat * O) : evolves (FF:=countdown O W) f f' → f'.2 = f.2.
Proof.
  induction 1 as [|f f1 f' (w&w'&Hs) _ IH]; [done|]. rewrite IH. destruct f as [[|n] o]; unfold fpoll, countdown in Hs; by simplify_eq/=.
Qed.

Lemma countdown_resolves {O W} (f : nat * O) o : resolves (FF:=countdown O W) f o → o = f.2.
Proof.
  intros (f'&g&w&w'&He&Hp). apply countdown_evolves in He. destruct f' as [[|n] o']; unfold fpoll, countdown in Hp; by simplify_eq/=.
Qed.

(** * Running a stream *)

Section consume.
Context {A St W : Type} (poll : St → W → exec (Poll (option A) * St * W)).

(** Polls a stream [n] times, or until it ends: the items it handed out and whether it ended. *)
Fixpoint consume (n : nat) (s : St) (w : W) : exec (list A * bool * St * W) :=
  match n with
  | O => ret ([], false, s, w)
  | S n =>
      let! '(p, s, w) := poll s w in
      match p with
      | Ready (Some a) => let! '(l, e, s, w) := consume n s w in ret (a :: l, e, s, w)
      | Ready None => ret ([], true, s, w)
      | Pending => consume n s w
      end
  end.

(** An invariant relating the state to the items handed out so far holds of every run. *)
Lemma consume_ok (I : St → list A → Prop) (R : St → list A → Prop) :
  (∀ s w l, I s l → ∃ p s' w', poll s w = ret (p, s', w') ∧
    match p with Ready (Some a) => I s' (l ++ [a]) | Ready None => R s' l | Pending => I s' l end) →
  ∀ n s w l, I s l → ∃ k e s' w', consume n s w = ret (k, e, s', w') ∧ if e : bool then R s' (l ++ k) else I s' (l ++ k).
Proof.
  intros Hpoll n. induction n as [|n IH]; intros s w l Hs; simpl.
  { eexists [], false, s, w. by rewrite app_nil_r. }
  destruct (Hpoll s w l Hs) as (p&s1&w1&->&Hp). simpl. destruct p as [[a|]|].
  - destruct (IH s1 w1 _ Hp) as (k&e&s2&w2&->&Hk). simpl. eexists _, e, s2, w2. split; [done|].
    by rewrite <-app_assoc in Hk.
  - eexists [], true, s1, w1. by rewrite app_nil_r.
  - by apply IH.
Qed.
End consume.
