(* ===== verification/WeightLimited.v ===== *)
(** [futures_ext]'s weight-limited buffered streams
    (src/shed/futures_ext/src/stream/weight_limited_buffered_stream.rs): a stream of futures,
    each with a weight, of which as many are run at a time as a count and a total weight
    allow, their outputs coming out in the order of the futures.  The two copies of the code,
    for a [Stream] and for a [TryStream], differ in how an item becomes a future of the
    queue; the model has that part twice and the rest once. *)
From S2P Require Import Prelude RustStd Streams.

#[local] Open Scope Z_scope.

(** * The futures of the queue *)

(** [f.map(move |val| (val, weight)).boxed()] and [future::ready((Err(e), 0u64)).boxed()]. *)
Inductive boxed (Fut E : Type) : Type :=
| Map (f : Fut) (weight : Z)
| ready (e : E).
Arguments Map {Fut E}.
Arguments ready {Fut E}.

Section boxed.
Context {Fut I E W : Type} {FF : Future Fut I W} (err : E → I).

Definition boxed_future : Future (boxed Fut E) (I * Z) W := λ b w,
  match b with
  | Map f weight =>
      match fpoll f w with
      | (Ready val, f, w) => (Ready (val, weight), Map f weight, w)
      | (Pending, f, w) => (Pending, Map f weight, w)
      end
  | ready e => (Ready (err e, 0), b, w)
  end.

Lemma Map_evolves f weight b : evolves (FF:=boxed_future) (Map f weight) b → ∃ f', b = Map f' weight ∧ evolves f f'.
Proof.
  intros He. remember (Map f weight) as b0 eqn:Hb0. revert f Hb0.
  induction He as [|b b1 b2 (w&w'&Hs) He IH]; intros f ->; [exists f; split; [done|reflexivity]|].
  unfold fpoll, boxed_future in Hs. destruct (fpoll f w) as [[[v|] f1] w1] eqn:Hf; simplify_eq.
  destruct (IH f1 eq_refl) as (f2&->&Hf2). exists f2. split; [done|]. etransitivity; [|done]. eauto with shed.
Qed.

Lemma Map_resolves f weight v weight' :
  resolves (FF:=boxed_future) (Map f weight) (v, weight') → weight' = weight ∧ resolves f v.
Proof.
  intros (b&b'&w&w'&(f'&->&He)%Map_evolves&Hp). unfold fpoll, boxed_future in Hp.
  destruct (fpoll f' w) as [[[v'|] f1] w1] eqn:Hf; simplify_eq.
  split; [done|]. apply (evolves_resolves _ f'); eauto with shed.
Qed.

Lemma ready_resolves e v weight : resolves (FF:=boxed_future) (ready (Fut:=Fut) e) (v, weight) → v = err e ∧ weight = 0.
Proof.
  intros (b&b'&w&w'&He&Hp). assert (b = ready e) as ->.
  { clear Hp. remember (ready e) as b0 eqn:Hb0. induction He as [|b b1 b2 (w1&w2&Hs) He IH]; [done|]. by subst. }
  unfold fpoll, boxed_future in Hp. by simplify_eq.
Qed.
End boxed.

Module WeightLimited.

(** [BufferedParams]. *)
Record BufferedParams := { params_weight_limit : Z; params_buffer_size : nat }.

Section stream.
Context `{BM : BuildMode} {St Item F I W : Type}.
Context {FF : Future F (I * Z) W} {FO : FuturesOrdered F (I * Z) W} {FS : Fuse St Item W}.

(** The arm of the [match] on a polled item: the new [current_weight] and the future to push. *)
Context (next_future : Z → Item → exec (Z * F)).

Record WeightLimitedBufferedStream := {
  queue : fo;
  current_weight : Z;
  weight_limit : Z;
  max_buffer_size : nat;
  stream : fused;
}.
Implicit Types (s : WeightLimitedBufferedStream) (w : W).

Definition new (params : BufferedParams) (st : St) : WeightLimitedBufferedStream := {|
  queue := fo_new; current_weight := 0; weight_limit := params_weight_limit params;
  max_buffer_size := params_buffer_size params; stream := fuse st;
|}.

(** The assignments of [poll_next]. *)
Definition set_stream s st : WeightLimitedBufferedStream :=
  {| queue := queue s; current_weight := current_weight s; weight_limit := weight_limit s;
     max_buffer_size := max_buffer_size s; stream := st |}.
Definition set_queue s q (weight : Z) : WeightLimitedBufferedStream :=
  {| queue := q; current_weight := weight; weight_limit := weight_limit s;
     max_buffer_size := max_buffer_size s; stream := stream s |}.

(** The condition of the [while] loop. *)
Definition has_room s : bool := (fo_len (queue s) <? max_buffer_size s)%nat && (current_weight s <? weight_limit s).

(** The [while] loop; every iteration that goes round fills a slot of the queue. *)
Fixpoint fill (slots : nat) s w : exec (WeightLimitedBufferedStream * W) :=
  match slots with
  | O => ret (s, w)
  | S slots =>
      if has_room s then
        match fuse_poll (stream s) w with
        | (Ready (Some item), st, w) =>
            let! '(weight, future) := next_future (current_weight s) item in
            fill slots (set_queue (set_stream s st) (fo_push_back future (queue s)) weight) w
        | (_, st, w) => ret (set_stream s st, w)
        end
      else ret (s, w)
  end.

Definition poll_next s w : exec (Poll (option I) * WeightLimitedBufferedStream * W) :=
  let! '(s, w) := fill (max_buffer_size s - fo_len (queue s)) s w in
  match fo_poll_next (queue s) w with
  | (Pending, q, w) => ret (Pending, set_queue s q (current_weight s), w)
  | (Ready (Some (val, weight)), q, w) =>
      let! rest := usize_sub (current_weight s) weight in
      ret (Ready (Some val), set_queue s q rest, w)
  | (Ready None, q, w) =>
      let s := set_queue s q (current_weight s) in
      ret (if fuse_is_done (stream s) then Ready None else Pending, s, w)
  end.

(** ** What a run keeps *)

Context (item_future : Item → F) (item_weight : Item → Z) (weight_max : Z) (params : BufferedParams) (st0 : fused).

(** The weight added and the future pushed for an item; no [u64] overflow within the limits. *)
Context (next_future_ok : ∀ weight item, 0 ≤ weight → 0 ≤ item_weight item → weight + item_weight item ≤ usize_max →
  next_future weight item = ret (weight + item_weight item, item_future item)).
Context (item_weight_kept : ∀ item val weight, resolves (item_future item) (val, weight) → weight = item_weight item).
Context (items_fit : ∀ l st, pulls st0 l st → Forall (λ item, 0 ≤ item_weight item ≤ weight_max) l).
Context (limits_fit : weight_max ≤ usize_max ∧ params_weight_limit params + weight_max ≤ usize_max + 1).

Definition gives (item : Item) (val : I) : Prop := resolves (item_future item) (val, item_weight item).
Definition total_weight (l : list Item) : Z := foldr (λ item z, item_weight item + z) 0 l.

Lemma total_weight_app l k : total_weight (l ++ k) = total_weight l + total_weight k.
Proof. induction l as [|item l IH]; simpl; [done|]. rewrite IH. lia. Qed.

(** The futures of the queue are those of the last items pulled; those of the items before
    are the values already handed out, in the same order. *)
Record runs (finished running : list Item) s (outs : list I) : Prop := {
  runs_pulled : pulls st0 (finished ++ running) (stream s);
  runs_outs : Forall2 gives finished outs;
  runs_queue : Forall2 (λ item f, evolves (item_future item) f) running (fo_futs (queue s));
  runs_weight : current_weight s = total_weight running;
  runs_limits : weight_limit s = params_weight_limit params ∧ max_buffer_size s = params_buffer_size params;
  runs_count : (length running ≤ params_buffer_size params)%nat;
  runs_light : ∀ older newest, running = older ++ [newest] → total_weight older < params_weight_limit params;
}.
Definition inv s outs : Prop := ∃ finished running, runs finished running s outs.

(** Why the loop stops: no room, or the stream had nothing to hand out. *)
Definition stopped s w : Prop :=
  has_room s = false ∨
  ∃ st w' p, fuse_poll st w' = (p, stream s, w) ∧ (∀ item, p ≠ Ready (Some item)).

Lemma runs_fits finished running s outs :
  runs finished running s outs → Forall (λ item, 0 ≤ item_weight item ≤ weight_max) running.
Proof. intros Hr. pose proof (items_fit _ _ (runs_pulled _ _ _ _ Hr)) as Hf. by apply Forall_app in Hf as [_ ?]. Qed.

Lemma total_weight_nonneg l : Forall (λ item, 0 ≤ item_weight item ≤ weight_max) l → 0 ≤ total_weight l.
Proof. induction 1; simpl; lia. Qed.

Lemma runs_len finished running s outs : runs finished running s outs → fo_len (queue s) = length running.
Proof. intros Hr. rewrite fo_len_futs. symmetry. exact (Forall2_length _ _ _ (runs_queue _ _ _ _ Hr)). Qed.

(** An item goes into a queue with room. *)
Lemma runs_push finished running s outs item st w w' :
  runs finished running s outs → has_room s = true → fuse_poll (stream s) w = (Ready (Some item), st, w') →
  next_future (current_weight s) item = ret (total_weight (running ++ [item]), item_future item) ∧
  runs finished (running ++ [item])
    (set_queue (set_stream s st) (fo_push_back (item_future item) (queue s)) (total_weight (running ++ [item]))) outs.
Proof.
  intros Hr [Hlen%Nat.ltb_lt Hwt%Z.ltb_lt]%andb_true_iff Hp. pose proof Hr as [Hpull Houts Hq Hcw [Hl Hm] Hc Hli].
  pose proof (pulls_snoc _ _ _ _ _ _ _ Hpull Hp) as Hpull'. rewrite <-app_assoc in Hpull'.
  pose proof (items_fit _ _ Hpull') as [_ [_ Hit]%Forall_app]%Forall_app. rewrite Forall_singleton in Hit.
  pose proof (total_weight_nonneg _ (runs_fits _ _ _ _ Hr)). rewrite (runs_len _ _ _ _ Hr) in Hlen.
  rewrite total_weight_app. simpl. rewrite Z.add_0_r, <-Hcw. split; [apply next_future_ok; lia|].
  split; simpl; [done|done| | |done| |].
  - rewrite fo_futs_push. apply Forall2_app; [done|]. constructor; [reflexivity|done].
  - rewrite total_weight_app. simpl. lia.
  - rewrite length_app. simpl. lia.
  - intros older newest [-> _]%app_inj_tail. lia.
Qed.

Lemma runs_set_stream finished running s outs st p w w' :
  runs finished running s outs → fuse_poll (stream s) w = (p, st, w') → (∀ item, p ≠ Ready (Some item)) →
  runs finished running (set_stream s st) outs.
Proof.
  intros [Hpull ????] Hp Hn. split; simpl; [|done..].
  destruct p as [[item|]|]; [by destruct (Hn item)|by eapply pulls_end|by eapply pulls_wait].
Qed.

Lemma fill_ok slots s w outs finished running :
  runs finished running s outs →
  ∃ s' w' more, fill slots s w = ret (s', w') ∧ runs finished (running ++ more) s' outs ∧
    ((params_buffer_size params ≤ length running + slots)%nat → stopped s' w').
Proof.
  revert s w running. induction slots as [|slots IH]; intros s w running Hr; simpl.
  { exists s, w, []. rewrite app_nil_r. split; [done|]. split; [done|]. intros Hle. left.
    unfold has_room. rewrite (runs_len _ _ _ _ Hr), (proj2 (runs_limits _ _ _ _ Hr)).
    apply andb_false_iff. left. apply Nat.ltb_ge. lia. }
  destruct (has_room s) eqn:Hroom.
  2: { exists s, w, []. rewrite app_nil_r. split; [done|]. split; [done|]. by left. }
  destruct (fuse_poll (stream s) w) as [[p st] w1] eqn:Hp. destruct p as [[item|]|].
  2,3: exists (set_stream s st), w1, []; rewrite app_nil_r; split; [done|];
    (split; [by eapply runs_set_stream|]); right; by eexists _, _, _.
  destruct (runs_push _ _ _ _ _ _ _ _ Hr Hroom Hp) as [-> Hr']. simpl.
  destruct (IH _ w1 _ Hr') as (s'&w'&more&Heq&Hr2&Hst). exists s', w', ([item] ++ more). rewrite app_assoc.
  split; [done|]. split; [done|]. intros Hle. apply Hst. rewrite length_app. simpl. lia.
Qed.

(** A poll that is pending left something that will wake the task: the oldest future of the
    queue is pending, or the stream is. *)
Definition waits s : Prop :=
  (∃ q w w', fo_poll_next q w = (Pending, queue s, w')) ∨ (∃ st w w', fuse_poll st w = (Pending, stream s, w')).

Lemma runs_evolve finished running s outs q :
  runs finished running s outs → Forall2 evolves (fo_futs (queue s)) (fo_futs q) →
  runs finished running (set_queue s q (current_weight s)) outs.
Proof.
  intros [Hpull Houts Hq Hcw Hl Hc Hli] He. split; simpl; [done|done| |done..].
  eapply Forall2_compose; [|done|done]. intros item f f' ??. by transitivity f.
Qed.

(** The oldest future resolves: its item is finished. *)
Lemma runs_yield finished running s outs q val weight f fs :
  runs finished running s outs → fo_futs (queue s) = f :: fs → resolves f (val, weight) → Forall2 evolves fs (fo_futs q) →
  usize_sub (current_weight s) weight = ret (current_weight s - weight) ∧
  inv (set_queue s q (current_weight s - weight)) (outs ++ [val]).
Proof.
  intros Hr Hfs Hres He. pose proof (runs_fits _ _ _ _ Hr) as Hfit. destruct Hr as [Hpull Houts Hq Hcw Hl Hc Hli].
  rewrite Hfs in Hq. inversion Hq as [|item ? running' ? Hit Hq']; subst.
  assert (resolves (item_future item) (val, weight)) as Hg by eauto with shed.
  assert (weight = item_weight item) as -> by eauto.
  inversion Hfit as [|?? Hw Hfit']; subst. apply total_weight_nonneg in Hfit'.
  pose proof (items_fit _ _ Hpull) as Hall. simpl in Hcw.
  split.
  { unfold usize_sub. rewrite usize_wrap_exact; [done|]. split; [lia|]. rewrite Hcw.
    enough (total_weight running' + item_weight item ≤ usize_max) by lia.
    destruct (decide (running' = [])) as [->|Hn]; [simpl; lia|].
    destruct (exists_last Hn) as (older&newest&->). specialize (Hli (item :: older) newest eq_refl). simpl in Hli.
    apply Forall_app in Hall as [_ Hall]. inversion Hall as [|?? _ Hall']; subst.
    apply Forall_app in Hall' as [_ Hnew]. rewrite Forall_singleton in Hnew. rewrite total_weight_app in *. simpl in *. lia. }
  exists (finished ++ [item]), running'. split; simpl; [by rewrite <-app_assoc| | |lia|done|simpl in Hc; lia|].
  - apply Forall2_app; [done|]. by constructor.
  - eapply Forall2_compose; [|done|done]. intros it g g' ??. by transitivity g.
  - intros older newest ->. specialize (Hli (item :: older) newest eq_refl). simpl in Hli. lia.
Qed.

Lemma poll_ok s w outs :
  inv s outs →
  ∃ p s' w', poll_next s w = ret (p, s', w') ∧
    match p with
    | Ready (Some val) => inv s' (outs ++ [val])
    | Ready None => ∃ finished, runs finished [] s' outs ∧ fuse_is_done (stream s') = true
    | Pending => inv s' outs ∧ (0 < params_weight_limit params → (0 < params_buffer_size params)%nat → waits s')
    end.
Proof.
  intros (finished&running0&Hr0). unfold poll_next.
  destruct (fill_ok (max_buffer_size s - fo_len (queue s)) s w _ _ _ Hr0) as (s1&w1&more&->&Hr&Hst). simpl.
  rewrite (runs_len _ _ _ _ Hr0), (proj2 (runs_limits _ _ _ _ Hr0)) in Hst. specialize (Hst ltac:(lia)).
  revert Hr. generalize (running0 ++ more). clear s w Hr0 running0 more. intros running Hr.
  pose proof (fo_poll_next_spec (queue s1) w1) as Hq.
  destruct (fo_poll_next (queue s1) w1) as [[[[[val weight]|]|] q] w2] eqn:Hpoll.
  - destruct Hq as (f&fs&Hfs&Hres&He). destruct (runs_yield _ _ _ _ _ _ _ _ _ Hr Hfs Hres He) as [-> Hinv].
    simpl. by eexists _, _, _.
  - destruct Hq as [Hq Hq']. assert (running = []) as ->.
    { pose proof (runs_queue _ _ _ _ Hr) as Hf. rewrite Hq in Hf. by inversion Hf. }
    assert (runs finished [] (set_queue s1 q (current_weight s1)) outs) as Hr'.
    { apply runs_evolve; [done|]. by rewrite Hq, Hq'. }
    eexists _, _, _. split; [done|]. simpl. destruct (fuse_is_done (stream s1)) eqn:Hd; [by exists finished|].
    split; [by exists finished, []|]. intros Hl Hb. right. destruct Hst as [Hroom|(st&w'&p&Hp&Hn)].
    + exfalso. unfold has_room in Hroom. destruct (runs_limits _ _ _ _ Hr) as [Hwl Hmb].
      rewrite (runs_len _ _ _ _ Hr), (runs_weight _ _ _ _ Hr), Hwl, Hmb in Hroom.
      apply andb_false_iff in Hroom as [?%Nat.ltb_ge|?%Z.ltb_ge]; simpl in *; lia.
    + destruct p as [[item|]|]; [by destruct (Hn item)| |by exists st, w', w1].
      pose proof (fuse_poll_spec st w') as Hs. rewrite Hp in Hs. congruence.
  - destruct Hq as [Hq He]. eexists _, _, _. split; [done|]. split.
    + exists finished, running. by apply runs_evolve.
    + intros _ _. left. by exists (queue s1), w1, w2.
Qed.

Lemma new_runs st : st0 = fuse st → runs [] [] (new params st) [].
Proof.
  intros Hst. split; simpl; [rewrite Hst; constructor|constructor|by rewrite fo_futs_new|done|done|lia|].
  intros [|] ? [=].
Qed.

(** Every poll succeeds; the values come out in the order of the items, each the output of
    its item's future; at the end every item pulled has given its value. *)
Lemma consume_runs st n w :
  st0 = fuse st →
  ∃ outs ended s w', consume poll_next n (new params st) w = ret (outs, ended, s, w') ∧
    ∃ finished running, runs finished running s outs ∧
      (ended = true → running = [] ∧ fuse_is_done (stream s) = true).
Proof.
  intros Hst. destruct (consume_ok poll_next inv
    (λ s outs, ∃ finished, runs finished [] s outs ∧ fuse_is_done (stream s) = true)) with (n:=n) (s:=new params st) (w:=w) (l:=@nil I)
    as (k&e&s&w'&Heq&Hk).
  - intros s w1 l Hs. destruct (poll_ok s w1 l Hs) as (p&s'&w2&Heq&Hp). exists p, s', w2. split; [done|].
    destruct p as [[?|]|]; [done|done|]. by destruct Hp.
  - exists [], []. by apply new_runs.
  - exists k, e, s, w'. split; [done|]. destruct e.
    + destruct Hk as (fin&Hr&Hd). by exists fin, [].
    + destruct Hk as (fin&run&Hr). by exists fin, run.
Qed.
End stream.

(** ** [WeightLimitedBufferedStream] *)

Section buffered.
Context `{BM : BuildMode} {St Fut I W : Type} {FF : Future Fut I W}.
Definition no_error (e : Empty_set) : I := match e with end.
#[local] Instance plain_future : Future (boxed Fut Empty_set) (I * Z) W := boxed_future no_error.
Context {FO : FuturesOrdered (boxed Fut Empty_set) (I * Z) W} {FS : Fuse St (Fut * Z) W}.

Definition next_pair (current : Z) (item : Fut * Z) : exec (Z * boxed Fut Empty_set) :=
  let '(f, weight) := item in
  let! current := usize_add current weight in
  ret (current, Map f weight).

Definition pair_future (item : Fut * Z) : boxed Fut Empty_set := Map item.1 item.2.

Lemma next_pair_ok current item :
  0 ≤ current → 0 ≤ item.2 → current + item.2 ≤ usize_max → next_pair current item = ret (current + item.2, pair_future item).
Proof. intros. destruct item as [f weight]. simpl in *. unfold usize_add. by rewrite usize_wrap_exact by lia. Qed.

Lemma pair_weight_kept item val weight : resolves (pair_future item) (val, weight) → weight = item.2.
Proof. by intros [-> _]%Map_resolves. Qed.

(** With a limit of zero nothing is ever started: the stream is not even polled, and no poll
    registers a wake-up. *)
Lemma zero_limit_poll params st w s :
  params_weight_limit params = 0 ∨ params_buffer_size params = 0%nat →
  fo_futs (queue s) = [] → current_weight s = 0 → weight_limit s = params_weight_limit params →
  max_buffer_size s = params_buffer_size params → stream s = fuse st →
  ∃ q w', poll_next next_pair s w = ret (Pending, set_queue s q 0, w') ∧ fo_futs q = [].
Proof.
  intros Hz Hq Hcw Hl Hm Hst. assert (has_room s = false) as Hroom.
  { unfold has_room. rewrite Hcw, Hl, Hm. destruct Hz as [->| ->]; apply andb_false_iff; [by right|left].
    apply Nat.ltb_ge. lia. }
  assert (∀ k, fill next_pair k s w = ret (s, w)) as Hfill by (intros [|k]; simpl; [done|by rewrite Hroom]).
  unfold poll_next. rewrite Hfill. simpl. pose proof (fo_poll_next_spec (queue s) w) as Hp.
  destruct (fo_poll_next (queue s) w) as [[[o|] q] w1].
  - destruct o as [o|]; [destruct Hp as (f&fs&Hf&_); congruence|]. destruct Hp as [_ Hq'].
    exists q, w1. simpl. by rewrite Hst, fuse_new, Hcw.
  - by destruct Hp.
Qed.

(** C16: a pending [buffered_weight_limited] stream is waiting for something that will wake its
    task, the oldest future of its queue or the stream it reads from, as long as both limits
    are positive; with a limit of zero every poll is pending and the stream it reads from is
    never polled, so nothing ever wakes the task again. *)
Theorem weight_limited_wakes (params : BufferedParams) (st : St) (weight_max : Z) n w :
  (∀ l s, pulls (fuse st) l s → Forall (λ item, 0 ≤ item.2 ≤ weight_max) l) →
  weight_max ≤ usize_max → params_weight_limit params + weight_max ≤ usize_max + 1 →
  ∃ outs ended s w', consume (poll_next next_pair) n (new params st) w = ret (outs, ended, s, w') ∧
    (ended = false → 0 < params_weight_limit params → (0 < params_buffer_size params)%nat →
      ∀ w1 s1 w2, poll_next next_pair s w1 = ret (Pending, s1, w2) → waits s1) ∧
    (params_weight_limit params = 0 ∨ params_buffer_size params = 0%nat →
      outs = [] ∧ ended = false ∧ stream s = fuse st).
Proof.
  intros Hfit Hmax Hlim. pose proof (conj Hmax Hlim) as Hlims.
  destruct (consume_ok (poll_next next_pair) (λ s outs, inv pair_future snd params (fuse st) s outs ∧
      (params_weight_limit params = 0 ∨ params_buffer_size params = 0%nat →
        outs = [] ∧ fo_futs (queue s) = [] ∧ current_weight s = 0 ∧ stream s = fuse st))
    (λ _ _, ¬ (params_weight_limit params = 0 ∨ params_buffer_size params = 0%nat))) with (n:=n) (s:=new params st) (w:=w) (l:=@nil I)
    as (outs&e&s&w'&Heq&Hk).
  - intros s w1 l [Hinv Hz].
    destruct (poll_ok next_pair pair_future snd weight_max params (fuse st) next_pair_ok pair_weight_kept Hfit Hlims s w1 l Hinv)
      as (p&s'&w2&Heq&Hp). exists p, s', w2. split; [done|].
    assert ((params_weight_limit params = 0 ∨ params_buffer_size params = 0%nat) →
      p = Pending ∧ l = [] ∧ fo_futs (queue s') = [] ∧ current_weight s' = 0 ∧ stream s' = fuse st) as Hz'.
    { intros H0. destruct (Hz H0) as (->&Hq&Hcw&Hst). destruct Hinv as (fin&run&Hr). destruct (runs_limits _ _ _ _ _ _ _ _ Hr).
      destruct (zero_limit_poll params st w1 s H0 Hq Hcw) as (q&w3&Heq'&Hq'); [done..|].
      rewrite Heq' in Heq. by simplify_eq. }
    destruct p as [[val|]|]; simpl in Hp; [split; [done|]; intros H0; by destruct (Hz' H0)|intros H0; by destruct (Hz' H0)|].
    split; [by destruct Hp|]. intros H0. by destruct (Hz' H0) as (_&->&?&?&?).
  - split; [|intros _; simpl; by rewrite fo_futs_new]. exists [], []. by apply new_runs.
  - exists outs, e, s, w'. split; [done|]. simpl in Hk. destruct e.
    { split; [done|]. intros H0. by destruct (Hk H0). }
    destruct Hk as [Hinv Hz]. split; [|intros H0; by destruct (Hz H0) as (->&_&_&->)].
    intros _ H1 H2 w1 s1 w2 Hp.
    destruct (poll_ok next_pair pair_future snd weight_max params (fuse st) next_pair_ok pair_weight_kept Hfit Hlims s w1 outs Hinv)
      as (p&s'&w3&Heq'&Hok). rewrite Hp in Heq'. simplify_eq. by apply Hok.
Qed.
End buffered.

(** ** [WeightLimitedBufferedTryStream] *)

Section try_buffered.
Context `{BM : BuildMode} {St Fut V E W : Type} {FF : Future Fut (result V E) W}.
#[local] Instance try_future : Future (boxed Fut E) (result V E * Z) W := boxed_future Err.
Context {FO : FuturesOrdered (boxed Fut E) (result V E * Z) W} {FS : Fuse St (result (Fut * Z) E) W}.

(** An error of the stream takes a place in the queue, with no weight. *)
Definition next_result (current : Z) (item : result (Fut * Z) E) : exec (Z * boxed Fut E) :=
  match item with
  | Ok (f, weight) => let! current := usize_add current weight in ret (current, Map f weight)
  | Err e => ret (current, ready e)
  end.

(** The constructor and the poll of the try stream: those above, with [next_result]. *)
Definition try_new (params : BufferedParams) (st : St) : WeightLimitedBufferedStream := new params st.
Definition try_poll_next (s : WeightLimitedBufferedStream) (w : W) :=
  poll_next next_result s w.

Definition result_future (item : result (Fut * Z) E) : boxed Fut E :=
  match item with Ok (f, weight) => Map f weight | Err e => ready e end.
Definition result_weight (item : result (Fut * Z) E) : Z := match item with Ok (_, weight) => weight | Err _ => 0 end.
(** What an item of the stream contributes to the output. *)
Definition result_output (item : result (Fut * Z) E) (out : result V E) : Prop :=
  match item with Ok (f, _) => resolves f out | Err e => out = Err e end.

Lemma next_result_ok current item :
  0 ≤ current → 0 ≤ result_weight item → current + result_weight item ≤ usize_max →
  next_result current item = ret (current + result_weight item, result_future item).
Proof.
  destruct item as [[f weight]|e]; simpl; intros; [|by rewrite Z.add_0_r].
  unfold usize_add. by rewrite usize_wrap_exact by lia.
Qed.

Lemma result_weight_kept item val weight : resolves (result_future item) (val, weight) → weight = result_weight item.
Proof. destruct item as [[f weight']|e]; simpl; [by intros [-> _]%Map_resolves|by intros [_ ->]%ready_resolves]. Qed.

Lemma gives_output item out : gives result_future result_weight item out → result_output item out.
Proof. unfold gives. destruct item as [[f weight]|e]; simpl; [by intros [_ ?]%Map_resolves|by intros [-> _]%ready_resolves]. Qed.

(** C15: a run of [try_buffered_weight_limited] with weights that fit in a [u64] never panics and
    hands out, in the order of the items of the stream, what each item's future resolved to
    and the errors of the stream themselves in their places; between polls at most
    [buffer_size] items are in progress, their weights are accounted exactly and all but the
    newest together weigh less than [weight_limit]; when the run ends every item was handed
    out. *)
Theorem try_buffered_sound (params : BufferedParams) (st : St) (weight_max : Z) n w :
  (∀ l s, pulls (fuse st) l s → Forall (λ item, 0 ≤ result_weight item ≤ weight_max) l) →
  weight_max ≤ usize_max → params_weight_limit params + weight_max ≤ usize_max + 1 →
  ∃ outs ended s w' finished running,
    consume try_poll_next n (try_new params st) w = ret (outs, ended, s, w') ∧
    pulls (fuse st) (finished ++ running) (stream s) ∧
    Forall2 result_output finished outs ∧
    fo_len (queue s) = length running ∧ (length running ≤ params_buffer_size params)%nat ∧
    current_weight s = total_weight result_weight running ∧
    (∀ older newest, running = older ++ [newest] → total_weight result_weight older < params_weight_limit params) ∧
    (ended = true → running = [] ∧ fuse_is_done (stream s) = true).
Proof.
  intros Hfit Hmax Hlim.
  destruct (consume_runs next_result result_future result_weight weight_max params (fuse st) next_result_ok
    result_weight_kept Hfit (conj Hmax Hlim) st n w eq_refl) as (outs&e&s&w'&Heq&fin&run&Hr&He).
  exists outs, e, s, w', fin, run. split; [done|]. pose proof (runs_len _ _ _ _ _ _ _ _ Hr). destruct Hr.
  split; [done|]. split; [eapply Forall2_impl; [done|]; apply gives_output|]. done.
Qed.
End try_buffered.
End WeightLimited.

(** * Runs of the models *)

Section witnesses.
Import WeightLimited.
#[local] Existing Instance debug_build.
#[local] Existing Instance plain_future.
#[local] Existing Instance try_future.

(** Two futures and an error between them; the first future resolves last. *)
Definition demo_items : list (option (result ((nat * result Z Z) * Z) Z)) :=
  [Some (Ok ((2%nat, Ok 7), 5)); None; Some (Err 9); Some (Ok ((0%nat, Ok 8), 3))].

Lemma script_pulls_fit {Item} (P : Item → Prop) (items : list (option Item)) :
  Forall P (omap id items) → ∀ l s, pulls (FS:=script_fuse Item ()) (items, false) l s → Forall P l.
Proof.
  intros Hall l s Hp. assert (∀ (s0 : list (option Item) * bool), pulls (FS:=script_fuse Item ()) s0 l s → Forall P (omap id s0.1) → Forall P l) as H.
  2: { by apply (H (items, false)). }
  clear. induction 1 as [s|s x s' k s'' w w' Hx _ IH|s s' k s'' p w w' Hx _ _ IH]; intros Hall; [done|..].
  - destruct s as [[|[y|] its] []]; simpl in Hx; simplify_eq. simpl in *. inversion Hall; subst. constructor; auto.
  - apply IH. destruct s as [[|[y|] its] []]; simpl in Hx; simplify_eq; simpl in *; try done. by inversion Hall.
Qed.

Lemma try_buffered_sound_witness :
  let params := {| params_weight_limit := 6; params_buffer_size := 2 |} in
  ∃ outs ended s w' finished running,
    consume try_poll_next 9 (try_new params demo_items) () = ret (outs, ended, s, w') ∧
    pulls (fuse demo_items) (finished ++ running) (stream s) ∧
    Forall2 (result_output (W:=())) finished outs ∧
    fo_len (queue s) = length running ∧ (length running ≤ 2)%nat ∧
    current_weight s = total_weight result_weight running ∧
    (∀ older newest, running = older ++ [newest] → total_weight result_weight older < 6) ∧
    (ended = true → running = [] ∧ fuse_is_done (stream s) = true).
Proof.
  apply (try_buffered_sound {| params_weight_limit := 6; params_buffer_size := 2 |} demo_items 5 9 ()); [|done..].
  apply script_pulls_fit. simpl. repeat constructor; simpl; lia.
Defined.

(** The run of the witness: the values in the order of the items. *)
Example try_buffered_run :
  (λ r, match r with ret (outs, ended, _, _) => Some (outs, ended) | panic => None end)
    (consume try_poll_next 9 (try_new {| params_weight_limit := 6; params_buffer_size := 2 |} demo_items) ())
  = Some ([Ok 7; Err 9; Ok 8], true).
Proof. vm_compute. reflexivity. Qed.

Definition demo_pairs : list (option ((nat * Z) * Z)) := [Some ((1%nat, 7), 5); None; Some ((0%nat, 8), 3)].

Lemma weight_limited_wakes_witness :
  let params := {| params_weight_limit := 6; params_buffer_size := 2 |} in
  ∃ outs ended s w',
    consume (poll_next next_pair) 1 (new params demo_pairs) () = ret (outs, ended, s, w') ∧
    (ended = false → 0 < 6 → (0 < 2)%nat →
      ∀ w1 s1 w2, poll_next next_pair s w1 = ret (Pending, s1, w2) → waits s1) ∧
    (6 = 0 ∨ 2%nat = 0%nat → outs = [] ∧ ended = false ∧ stream s = fuse demo_pairs).
Proof.
  apply (weight_limited_wakes {| params_weight_limit := 6; params_buffer_size := 2 |} demo_pairs 5 1 ()); [|done..].
  apply script_pulls_fit. simpl. repeat constructor; simpl; lia.
Defined.
End witnesses.
