(* ===== verification/BufferedWeighted.v ===== *)
(** The [buffered_weighted] crate (src/shed/buffered_weighted/src): a stream of futures with
    weights, run at the same time as long as their weights fit in a maximum and the process
    stays below a memory bound, the outputs in the order of the futures.  A future heavier
    than the maximum counts as the maximum, and the memory bound does not hold back the only
    future, so the stream always makes progress.

    The [while let] loop of [poll_next] may start any number of weightless futures; its model
    takes fuel, [out_of_fuel] is the panic the theorems exclude for a stream of finitely many
    items. *)
From S2P Require Import Prelude RustStd Streams.

(** * [GlobalWeight] *)

Module GlobalWeight.
Record GlobalWeight := { max : nat; current : nat }.

Definition new (max : nat) : GlobalWeight := {| max := max; current := 0 |}.

Definition has_space_for (g : GlobalWeight) (weight : nat) : exec bool :=
  let weight := weight `min` max g in
  let! room := count_sub (max g) weight in
  ret (current g <=? room).

Definition add_weight (g : GlobalWeight) (weight : nat) : exec GlobalWeight :=
  let weight := weight `min` max g in
  let! current := expect (checked_add (current g) weight) in
  ret {| max := max g; current := current |}.

Definition sub_weight (g : GlobalWeight) (weight : nat) : exec GlobalWeight :=
  let weight := weight `min` max g in
  let! current := count_sub (current g) weight in
  ret {| max := max g; current := current |}.

Lemma has_space_for_spec g weight : has_space_for g weight = ret (bool_decide (current g + weight `min` max g ≤ max g)).
Proof.
  unfold has_space_for. rewrite count_sub_le by lia. simpl. f_equal. apply eq_bool_prop_intro.
  rewrite bool_decide_spec, Is_true_true, Nat.leb_le. lia.
Qed.

Lemma add_weight_spec g weight :
  current g + weight `min` max g ≤ max g → (Z.of_nat (max g) ≤ usize_max)%Z →
  add_weight g weight = ret {| max := max g; current := current g + weight `min` max g |}.
Proof.
  intros Hle Hm. unfold add_weight. rewrite (expect_Some _ (current g + weight `min` max g)); [done|].
  unfold checked_add. by rewrite (proj2 (Z.leb_le _ _)) by lia.
Qed.

Lemma sub_weight_spec g weight :
  weight `min` max g ≤ current g → sub_weight g weight = ret {| max := max g; current := current g - weight `min` max g |}.
Proof. intros Hle. unfold sub_weight. by rewrite count_sub_le. Qed.
End GlobalWeight.

(** * [MemoryBound] *)

(** The resident pages of the process, as [procfs] reads them: [None] where it fails. *)
Class ProcStat (W : Type) := { read_rss : W → option Z * W; page_size : Z }.

Module MemoryBound.
Section bound.
Context `{BM : BuildMode} {W : Type} {PS : ProcStat W}.
Local Open Scope Z_scope.

Definition u64_saturating_add (a b : Z) : Z := (a + b) `min` usize_max.

(** [bound] is [None] for no bound; the linux version of [within_bound]. *)
Definition within_bound (bound : option Z) (weight : nat) (w : W) : exec (bool * W) :=
  match bound with
  | None => ret (true, w)
  | Some bound =>
      match read_rss w with
      | (None, w) => ret (true, w)
      | (Some rss, w) =>
          let! rss_bytes := usize_mul rss page_size in
          let next_rss_bytes := u64_saturating_add rss_bytes (Z.of_nat weight) in
          ret (next_rss_bytes <? bound, w)
      end
  end.

(** The size of the process in bytes fits in a [u64]. *)
Definition rss_fits : Prop := ∀ w rss w', read_rss w = (Some rss, w') → 0 ≤ rss * page_size ≤ usize_max.

Lemma within_bound_returns bound weight w : rss_fits → ∃ b w', within_bound bound weight w = ret (b, w').
Proof.
  intros Hfit. unfold within_bound. destruct bound as [bound|]; [|by eexists _, _].
  destruct (read_rss w) as [[rss|] w'] eqn:Hr; [|by eexists _, _].
  unfold usize_mul. rewrite usize_wrap_exact by eauto. by eexists _, _.
Qed.
End bound.
End MemoryBound.

(** * [PeekableFused] *)

Module Peekable.
Section peekable.
Context {St Item W : Type} {FS : Fuse St Item W}.

Record PeekableFused := { stream : fused; peeked : option Item }.
Implicit Types (p : PeekableFused) (w : W).

Definition new (st : fused) : PeekableFused := {| stream := st; peeked := None |}.
Definition into_inner p : fused := stream p.
Definition is_done p : bool := fuse_is_done (stream p).
Definition is_terminated p : bool := is_none (peeked p) && fuse_is_done (stream p).

(** The [loop] goes round once after an item was polled, and breaks with it. *)
Definition poll_peek p w : Poll (option Item) * PeekableFused * W :=
  match peeked p with
  | Some item => (Ready (Some item), p, w)
  | None =>
      match fuse_poll (stream p) w with
      | (Ready (Some item), st, w) => (Ready (Some item), {| stream := st; peeked := Some item |}, w)
      | (Ready None, st, w) => (Ready None, {| stream := st; peeked := None |}, w)
      | (Pending, st, w) => (Pending, {| stream := st; peeked := None |}, w)
      end
  end.

Definition poll_next p w : Poll (option Item) * PeekableFused * W :=
  match peeked p with
  | Some item => (Ready (Some item), {| stream := stream p; peeked := None |}, w)
  | None => let '(r, st, w) := fuse_poll (stream p) w in (r, {| stream := st; peeked := None |}, w)
  end.

(** [usize::saturating_add] and [usize::checked_add] on the two bounds. *)
Definition saturating_add (a b : nat) : nat := match checked_add a b with Some c => c | None => Z.to_nat usize_max end.
Definition add_hint (hint : nat * option nat) (n : nat) : nat * option nat :=
  (saturating_add hint.1 n, hint.2 ≫= λ upper, checked_add upper n).

Definition size_hint p : nat * option nat :=
  let peek_len := match peeked p with Some _ => 1 | None => 0 end in
  add_hint (fuse_size_hint (stream p)) peek_len.

(** The items the adaptor has taken out of the stream and not handed on. *)
Definition held p : list Item := option_list (peeked p).

(** An item is only held while the stream has not ended: [is_done] never hides it. *)
Definition peek_ok p : Prop := peeked p ≠ None → is_done p = false.

(** Peeking does not change what the adaptor is going to hand out. *)
Lemma poll_peek_spec st0 l p w :
  pulls st0 (l ++ held p) (stream p) → peek_ok p →
  let '(r, p', w') := poll_peek p w in
  pulls st0 (l ++ held p') (stream p') ∧ peek_ok p' ∧
  match r with
  | Ready (Some item) => peeked p' = Some item
  | Ready None => peeked p' = None ∧ is_done p' = true
  | Pending => peeked p' = None ∧ ∃ st w0, fuse_poll st w0 = (Pending, stream p', w')
  end.
Proof.
  intros Hpull Hok. unfold poll_peek. destruct p as [st [item|]]; simpl in *; [done|].
  rewrite app_nil_r in Hpull. pose proof (fuse_poll_spec st w) as Hs. unfold peek_ok, is_done, held in *.
  destruct (fuse_poll st w) as [[[[item|]|] st'] w'] eqn:Hp; simpl; rewrite ?app_nil_r.
  - split; [by eapply pulls_snoc|]. split; [|done]. intros _. by destruct Hs.
  - split; [by eapply pulls_end|]. by split.
  - split; [by eapply pulls_wait|]. split; [done|]. split; [done|]. by exists st, w.
Qed.
End peekable.
End Peekable.

(** * [FutureWithWeight] *)

Record FutureWithWeight (Fut : Type) := { future : Fut; weight : nat }.
Arguments Build_FutureWithWeight {Fut}.
Arguments future {Fut}.
Arguments weight {Fut}.

Section future_with_weight.
Context {Fut Out W : Type} {FF : Future Fut Out W}.

#[export] Instance weighted_future : Future (FutureWithWeight Fut) (nat * Out) W := λ f w,
  match fpoll (future f) w with
  | (Pending, g, w) => (Pending, {| future := g; weight := weight f |}, w)
  | (Ready output, g, w) => (Ready (weight f, output), {| future := g; weight := weight f |}, w)
  end.

Lemma weighted_evolves f g : evolves f g → weight g = weight f ∧ evolves (future f) (future g).
Proof.
  induction 1 as [f|f f1 f2 (w&w'&Hs) _ [Hw IH]]; [split; [done|reflexivity]|].
  unfold fpoll, weighted_future in Hs. destruct (fpoll (future f) w) as [[[o|] g] w1] eqn:Hf; simplify_eq/=.
  split; [done|]. transitivity g; eauto with shed.
Qed.

Lemma weighted_resolves f n o : resolves f (n, o) → n = weight f ∧ resolves (future f) o.
Proof.
  intros (g&h&w&w'&[Hw He]%weighted_evolves&Hp). unfold fpoll, weighted_future in Hp.
  destruct (fpoll (future g) w) as [[[o'|] g'] w1] eqn:Hf; simplify_eq.
  split; [done|]. apply (evolves_resolves _ (future g)); eauto with shed.
Qed.
End future_with_weight.

(** * [BufferedWeighted] *)

Module BufferedWeighted.
Import GlobalWeight MemoryBound.
Section stream.
Context `{BM : BuildMode} {St Fut Out W : Type} {FF : Future Fut Out W} {PS : ProcStat W}.
Context {FO : FuturesOrdered (FutureWithWeight Fut) (nat * Out) W} {FS : Fuse St (nat * Fut) W}.

Record BufferedWeighted := {
  stream : Peekable.PeekableFused (Item:=nat * Fut);
  in_progress_queue : fo;
  global_weight : GlobalWeight;
  bound : option Z;
}.
Implicit Types (s : BufferedWeighted) (w : W).

Definition new (st : St) (max_weight : nat) (bound : option Z) : BufferedWeighted := {|
  stream := Peekable.new (fuse st); in_progress_queue := fo_new;
  global_weight := GlobalWeight.new max_weight; bound := bound;
|}.
Definition max_weight s : nat := max (global_weight s).
Definition current_weight s : nat := current (global_weight s).

(** The assignments of [poll_next]. *)
Definition set_stream s st : BufferedWeighted :=
  {| stream := st; in_progress_queue := in_progress_queue s; global_weight := global_weight s; bound := bound s |}.
Definition set_queue s q g : BufferedWeighted :=
  {| stream := stream s; in_progress_queue := q; global_weight := g; bound := bound s |}.

Definition queue_is_empty s : bool := fo_len (in_progress_queue s) =? 0.

(** The condition under which the loop breaks, in the order the code evaluates it. *)
Definition must_wait s (n : nat) w : exec (bool * W) :=
  let! space := has_space_for (global_weight s) n in
  if negb space then ret (true, w)
  else
    let! '(within, w) := within_bound (bound s) n w in
    ret (negb within && negb (queue_is_empty s), w).

Definition out_of_fuel {A} : exec A := panic.

Fixpoint fill (fuel : nat) s w : exec (BufferedWeighted * W) :=
  match fuel with
  | O => out_of_fuel
  | S fuel =>
      match Peekable.poll_peek (stream s) w with
      | (Ready (Some (n, _)), st, w) =>
          let s := set_stream s st in
          let! '(wait, w) := must_wait s n w in
          if wait then ret (s, w)
          else
            match Peekable.poll_next (stream s) w with
            | (Ready (Some (weight, future)), st, w) =>
                let! g := add_weight (global_weight s) weight in
                let q := fo_push_back {| future := future; weight := weight |} (in_progress_queue s) in
                fill fuel (set_queue (set_stream s st) q g) w
            | _ => panic
            end
      | (_, st, w) => ret (set_stream s st, w)
      end
  end.

Definition poll_next (fuel : nat) s w : exec (Poll (option Out) * BufferedWeighted * W) :=
  let! '(s, w) := fill fuel s w in
  match fo_poll_next (in_progress_queue s) w with
  | (Pending, q, w) => ret (Pending, set_queue s q (global_weight s), w)
  | (Ready (Some (weight, output)), q, w) =>
      let! g := sub_weight (global_weight s) weight in
      ret (Ready (Some output), set_queue s q g, w)
  | (Ready None, q, w) =>
      let s := set_queue s q (global_weight s) in
      ret (if Peekable.is_done (stream s) then Ready None else Pending, s, w)
  end.

Definition size_hint s : nat * option nat :=
  Peekable.add_hint (Peekable.size_hint (stream s)) (fo_len (in_progress_queue s)).

(** ** What a run keeps *)

Context (st0 : fused) (max_ : nat).

Definition start (item : nat * Fut) : FutureWithWeight Fut := {| future := item.2; weight := item.1 |}.
Definition gives (item : nat * Fut) (output : Out) : Prop := resolves item.2 output.
(** What the items in progress count for. *)
Definition counted (l : list (nat * Fut)) : nat := sum_list_with (λ item, item.1 `min` max_) l.

Record runs (finished running : list (nat * Fut)) s (outs : list Out) : Prop := {
  runs_pulled : pulls st0 ((finished ++ running) ++ Peekable.held (stream s)) (Peekable.stream (stream s));
  runs_peek : Peekable.peek_ok (stream s);
  runs_outs : Forall2 gives finished outs;
  runs_queue : Forall2 (λ item f, evolves (start item) f) running (fo_futs (in_progress_queue s));
  runs_max : max (global_weight s) = max_;
  runs_current : current (global_weight s) = counted running;
  runs_le : counted running ≤ max_;
}.
Definition inv s outs : Prop := ∃ finished running, runs finished running s outs.

(** A pending poll left something that will wake the task. *)
Definition waits s : Prop :=
  (∃ q w w', fo_poll_next q w = (Pending, in_progress_queue s, w')) ∨
  (∃ st w w', fuse_poll st w = (Pending, Peekable.stream (stream s), w')).

(** Why the loop stops: an item is held back by items in progress, or the stream has nothing. *)
Definition stopped s w : Prop :=
  queue_is_empty s = false ∨ Peekable.is_done (stream s) = true ∨
  ∃ st w', fuse_poll st w' = (Pending, Peekable.stream (stream s), w).

Lemma runs_empty finished running s outs :
  runs finished running s outs → queue_is_empty s = true ↔ running = [].
Proof.
  intros Hr. unfold queue_is_empty. rewrite fo_len_futs, <-(Forall2_length _ _ _ (runs_queue _ _ _ _ Hr)).
  rewrite Nat.eqb_eq. apply length_zero_iff_nil.
Qed.

Context (rss_ok : rss_fits) (max_ok : (Z.of_nat max_ ≤ usize_max)%Z).

Lemma must_wait_spec finished running s outs n w :
  runs finished running s outs →
  ∃ b w', must_wait s n w = ret (b, w') ∧
    if b : bool then queue_is_empty s = false else counted running + n `min` max_ ≤ max_.
Proof.
  intros Hr. unfold must_wait. rewrite has_space_for_spec. simpl.
  rewrite (runs_max _ _ _ _ Hr), (runs_current _ _ _ _ Hr).
  case_bool_decide as Hspace; simpl.
  - destruct (within_bound_returns (bound s) n w rss_ok) as (within&w'&->). simpl.
    destruct (queue_is_empty s) eqn:He; [rewrite andb_false_r|rewrite andb_true_r]; eexists _, _;
      (split; [done|]); [done|]. by destruct within.
  - eexists _, _. split; [done|]. destruct (queue_is_empty s) eqn:He; [|done].
    apply (runs_empty _ _ _ _ Hr) in He as ->. unfold counted in Hspace. simpl in Hspace. lia.
Qed.

Lemma counted_app l k : counted (l ++ k) = counted l + counted k.
Proof. apply sum_list_with_app. Qed.

(** An item is started. *)
Lemma runs_start finished running s outs item :
  runs finished running s outs → Peekable.peeked (stream s) = Some item → counted running + item.1 `min` max_ ≤ max_ →
  ∃ g, add_weight (global_weight s) item.1 = ret g ∧
    runs finished (running ++ [item])
      (set_queue (set_stream s {| Peekable.stream := Peekable.stream (stream s); Peekable.peeked := None |})
        (fo_push_back (start item) (in_progress_queue s)) g) outs.
Proof.
  intros [Hpull Hpk Houts Hq Hm Hc Hle] Hi Hfit. rewrite add_weight_spec by (rewrite ?Hm, ?Hc; lia).
  eexists. split; [done|]. split; simpl.
  - unfold Peekable.held in *. rewrite Hi in Hpull. simpl in *. rewrite app_nil_r. by rewrite app_assoc.
  - intros ?. apply Hpk. by rewrite Hi.
  - done.
  - rewrite fo_futs_push. apply Forall2_app; [done|]. constructor; [reflexivity|done].
  - done.
  - rewrite Hm, Hc, counted_app. unfold counted. simpl. lia.
  - rewrite counted_app. unfold counted at 2. simpl. lia.
Qed.

Lemma weighted_fill_ok N fuel s w outs finished running :
  at_most N st0 → runs finished running s outs → N < length (finished ++ running) + fuel →
  ∃ s' w' more, fill fuel s w = ret (s', w') ∧ runs finished (running ++ more) s' outs ∧ stopped s' w'.
Proof.
  intros HN. revert s w running. induction fuel as [|fuel IH]; intros s w running Hr Hf.
  { pose proof (HN _ _ (runs_pulled _ _ _ _ Hr)) as Hle. rewrite length_app in Hle. lia. }
  simpl. pose proof (Peekable.poll_peek_spec st0 (finished ++ running) (stream s) w (runs_pulled _ _ _ _ Hr) (runs_peek _ _ _ _ Hr)) as Hp.
  destruct (Peekable.poll_peek (stream s) w) as [[p st] w1]. destruct Hp as (Hpull&Hpk&Hp).
  assert (runs finished running (set_stream s st) outs) as Hr1 by (destruct Hr; by split).
  destruct p as [[[n f]|]|].
  - destruct (must_wait_spec _ _ _ _ n w1 Hr1) as (wait&w2&->&Hwait). cbn [exec_bind].
    destruct wait; [exists (set_stream s st), w2, []; rewrite app_nil_r; split; [done|split; [done|by left]]|].
    unfold Peekable.poll_next. simpl. rewrite Hp.
    destruct (runs_start _ _ _ _ (n, f) Hr1 Hp Hwait) as (g&Hg&Hr2). cbn [fst snd] in *. simpl in Hg. rewrite Hg. simpl.
    destruct (IH _ w2 _ Hr2) as (s'&w'&more&Heq&Hr3&Hst); [rewrite !length_app in *; simpl; lia|].
    exists s', w', ([(n, f)] ++ more). split; [exact Heq|]. by rewrite app_assoc.
  - exists (set_stream s st), w1, []. rewrite app_nil_r. split; [done|]. split; [done|]. right. left. by destruct Hp.
  - exists (set_stream s st), w1, []. rewrite app_nil_r. split; [done|]. split; [done|]. right. right. by destruct Hp.
Qed.

Lemma weighted_runs_evolve finished running s outs q :
  runs finished running s outs → Forall2 evolves (fo_futs (in_progress_queue s)) (fo_futs q) →
  runs finished running (set_queue s q (global_weight s)) outs.
Proof.
  intros [] He. split; simpl; [done..| |done|done|done].
  eapply Forall2_compose; [|done|done]. intros item f f' ??. by transitivity f.
Qed.

(** The oldest future resolves: its item is finished. *)
Lemma weighted_runs_yield finished running s outs q n output f fs :
  runs finished running s outs → fo_futs (in_progress_queue s) = f :: fs → resolves f (n, output) →
  Forall2 evolves fs (fo_futs q) →
  ∃ g, sub_weight (global_weight s) n = ret g ∧ inv (set_queue s q g) (outs ++ [output]).
Proof.
  intros [Hpull Hpk Houts Hq Hm Hc Hle] Hfs Hres He. rewrite Hfs in Hq.
  inversion Hq as [|item ? running' ? Hit Hq']; subst.
  assert (resolves (start item) (n, output)) as [-> Hg]%weighted_resolves by eauto with shed.
  unfold counted in Hc, Hle. simpl in Hc, Hle.
  rewrite sub_weight_spec by (rewrite Hm, Hc; simpl; lia). eexists. split; [done|].
  exists (finished ++ [item]), running'. split; simpl; [by rewrite <-(app_assoc finished)|done| | |done| |].
  - apply Forall2_app; [done|]. by constructor.
  - eapply Forall2_compose; [|done|done]. intros it f1 f2 Hf1 Hf2. by transitivity f1.
  - rewrite Hm, Hc. unfold counted. lia.
  - unfold counted. lia.
Qed.

Lemma weighted_poll_ok N fuel s w outs :
  at_most N st0 → N < fuel → inv s outs →
  ∃ p s' w', poll_next fuel s w = ret (p, s', w') ∧
    match p with
    | Ready (Some output) => inv s' (outs ++ [output])
    | Ready None => ∃ finished, runs finished [] s' outs ∧ Peekable.is_done (stream s') = true
    | Pending => inv s' outs ∧ waits s'
    end.
Proof.
  intros HN Hf (finished&running0&Hr0). unfold poll_next.
  destruct (weighted_fill_ok N fuel s w outs finished running0 HN Hr0 ltac:(lia)) as (s1&w1&more&->&Hr&Hst). simpl.
  revert Hr. generalize (running0 ++ more). clear s w Hr0 running0 more. intros running Hr.
  pose proof (fo_poll_next_spec (in_progress_queue s1) w1) as Hq.
  destruct (fo_poll_next (in_progress_queue s1) w1) as [[[[[n output]|]|] q] w2] eqn:Hpoll.
  - destruct Hq as (f&fs&Hfs&Hres&He). destruct (weighted_runs_yield _ _ _ _ _ _ _ _ _ Hr Hfs Hres He) as (g&->&Hinv).
    simpl. by eexists _, _, _.
  - destruct Hq as [Hq Hq']. assert (running = []) as ->.
    { pose proof (runs_queue _ _ _ _ Hr) as Hf'. rewrite Hq in Hf'. by inversion Hf'. }
    assert (runs finished [] (set_queue s1 q (global_weight s1)) outs) as Hr'.
    { apply weighted_runs_evolve; [done|]. by rewrite Hq, Hq'. }
    eexists _, _, _. split; [done|]. simpl. destruct (Peekable.is_done (stream s1)) eqn:Hd; [by exists finished|].
    split; [by exists finished, []|]. right. destruct Hst as [He|[Hd'|(st&w'&Hp)]]; [|congruence|by exists st, w', w1].
    by rewrite (proj2 (runs_empty _ _ _ _ Hr)) in He.
  - destruct Hq as [Hq He]. eexists _, _, _. split; [done|]. split.
    + exists finished, running. by apply weighted_runs_evolve.
    + left. by exists (in_progress_queue s1), w1, w2.
Qed.
End stream.

Section theorems.
Context `{BM : BuildMode} {St Fut Out W : Type} {FF : Future Fut Out W} {PS : ProcStat W}.
Context {FO : FuturesOrdered (FutureWithWeight Fut) (nat * Out) W} {FS : Fuse St (nat * Fut) W}.

Lemma weighted_new_runs (st : St) max_ bound : runs (fuse st) max_ [] [] (new st max_ bound) [].
Proof.
  split; simpl; [by apply pulls_nil|by intros ?|constructor|by rewrite fo_futs_new|done|done|unfold counted; simpl; lia].
Qed.

(** C17: a run of [buffered_weighted] over a stream of finitely many items never panics, its loop
    ends, and it hands out what the future of each item resolves to in the order of the
    items.  Between polls the current weight is the sum of the weights in progress, each at
    most the maximum, and never exceeds the maximum; an item taken out of the stream but held
    back by the limits is not lost, and the adaptor only ends when all items were handed
    out. *)
Theorem buffered_weighted_sound (st : St) (max_ : nat) (bound : option Z) N fuel n w :
  at_most N (fuse st) → N < fuel → rss_fits → (Z.of_nat max_ ≤ usize_max)%Z →
  ∃ outs ended s w' finished running,
    consume (poll_next fuel) n (new st max_ bound) w = ret (outs, ended, s, w') ∧
    pulls (fuse st) ((finished ++ running) ++ Peekable.held (stream s)) (Peekable.stream (stream s)) ∧
    Forall2 (λ item output, resolves item.2 output) finished outs ∧
    fo_len (in_progress_queue s) = length running ∧
    current_weight s = sum_list_with (λ item, item.1 `min` max_) running ∧ current_weight s ≤ max_ ∧
    (Peekable.peeked (stream s) ≠ None → Peekable.is_done (stream s) = false) ∧
    (ended = true → running = [] ∧ Peekable.held (stream s) = [] ∧ Peekable.is_done (stream s) = true).
Proof.
  intros HN Hf Hrss Hmax.
  destruct (consume_ok (poll_next fuel) (inv (fuse st) max_)
    (λ s outs, ∃ finished, runs (fuse st) max_ finished [] s outs ∧ Peekable.is_done (stream s) = true))
    with (n:=n) (s:=new st max_ bound) (w:=w) (l:=@nil Out) as (outs&e&s&w'&Heq&Hk).
  - intros s w1 l Hs. destruct (weighted_poll_ok (fuse st) max_ Hrss Hmax N fuel s w1 l HN Hf Hs) as (p&s'&w2&Heq&Hp).
    exists p, s', w2. split; [done|]. destruct p as [[?|]|]; [done|done|]. by destruct Hp.
  - exists [], []. apply weighted_new_runs.
  - assert (∃ finished running, runs (fuse st) max_ finished running s outs ∧
      (e = true → running = [] ∧ Peekable.is_done (stream s) = true)) as (fin&run&Hr&He).
    { destruct e; [destruct Hk as (fin&Hr&Hd); by exists fin, []|destruct Hk as (fin&run&Hr); by exists fin, run]. }
    exists outs, e, s, w', fin, run. split; [done|]. destruct Hr as [Hpull Hpk Houts Hq Hm Hc Hle].
    split; [done|]. split; [done|]. split; [by rewrite fo_len_futs, (Forall2_length _ _ _ Hq)|].
    unfold current_weight. rewrite Hc. split; [done|]. split; [done|]. split; [done|].
    intros Het. destruct (He Het) as [-> Hd]. split; [done|]. split; [|done].
    unfold Peekable.held. destruct (Peekable.peeked (stream s)) eqn:Hp; [|done].
    rewrite Hpk in Hd; [done|]. by rewrite Hp.
Qed.

(** Whatever the limits, a pending poll of [buffered_weighted] left the oldest future in
    progress or the stream pending, so the task will be woken: neither the weight limit nor
    the memory bound can stall the adaptor. *)
Theorem buffered_weighted_wakes (st : St) (max_ : nat) (bound : option Z) N fuel n w :
  at_most N (fuse st) → N < fuel → rss_fits → (Z.of_nat max_ ≤ usize_max)%Z →
  ∃ outs ended s w', consume (poll_next fuel) n (new st max_ bound) w = ret (outs, ended, s, w') ∧
    (ended = false → ∀ w1, ∃ p s1 w2, poll_next fuel s w1 = ret (p, s1, w2) ∧ (p = Pending → waits s1)).
Proof.
  intros HN Hf Hrss Hmax.
  destruct (consume_ok (poll_next fuel) (inv (fuse st) max_) (λ _ _, True))
    with (n:=n) (s:=new st max_ bound) (w:=w) (l:=@nil Out) as (outs&e&s&w'&Heq&Hk).
  - intros s w1 l Hs. destruct (weighted_poll_ok (fuse st) max_ Hrss Hmax N fuel s w1 l HN Hf Hs) as (p&s'&w2&Heq&Hp).
    exists p, s', w2. split; [done|]. destruct p as [[?|]|]; [done|done|]. by destruct Hp.
  - exists [], []. apply weighted_new_runs.
  - exists outs, e, s, w'. split; [done|]. intros -> w1. simpl in Hk.
    destruct (weighted_poll_ok (fuse st) max_ Hrss Hmax N fuel s w1 outs HN Hf Hk) as (p&s'&w2&Heq'&Hp).
    exists p, s', w2. split; [done|]. intros ->. by destruct Hp.
Qed.
End theorems.
End BufferedWeighted.

(** * Runs of the model *)

Section witnesses.
Import BufferedWeighted.
#[local] Existing Instance debug_build.

(** A process of three pages of four kilobytes, and a bound it is already beyond. *)
#[local] Instance demo_stat : ProcStat () := {| read_rss w := (Some 3%Z, w); page_size := 4096 |}.

Definition demo_stream : list (option (nat * (nat * Z))) :=
  [Some (5, (2, 7%Z)); Some (9, (0, 8%Z)); None; Some (0, (1, 9%Z))].

Lemma demo_rss_fits : MemoryBound.rss_fits (W:=()).
Proof. intros w rss w' [= <- <-]. unfold page_size, demo_stat, usize_max. lia. Qed.

Example buffered_weighted_run :
  (λ r, match r with ret (outs, ended, _, _) => Some (outs, ended) | panic => None end)
    (consume (poll_next 9) 12 (new demo_stream 8 (Some 12288%Z)) ()) = Some ([7; 8; 9]%Z, true).
Proof. vm_compute. reflexivity. Qed.

Lemma buffered_weighted_sound_witness :
  ∃ outs ended s w' finished running,
    consume (poll_next 9) 12 (new demo_stream 8 (Some 12288%Z)) () = ret (outs, ended, s, w') ∧
    pulls (fuse demo_stream) ((finished ++ running) ++ Peekable.held (stream s)) (Peekable.stream (stream s)) ∧
    Forall2 (λ item output, resolves (W:=()) item.2 output) finished outs ∧
    fo_len (in_progress_queue s) = length running ∧
    current_weight s = sum_list_with (λ item, item.1 `min` 8) running ∧ current_weight s ≤ 8 ∧
    (Peekable.peeked (stream s) ≠ None → Peekable.is_done (stream s) = false) ∧
    (ended = true → running = [] ∧ Peekable.held (stream s) = [] ∧ Peekable.is_done (stream s) = true).
Proof.
  apply (buffered_weighted_sound demo_stream 8 (Some 12288%Z) 4 9 12 ());
    [apply script_at_most|lia|apply demo_rss_fits|done].
Defined.

Lemma buffered_weighted_wakes_witness :
  ∃ outs ended s w', consume (poll_next 9) 2 (new demo_stream 8 (Some 12288%Z)) () = ret (outs, ended, s, w') ∧
    (ended = false → ∀ w1, ∃ p s1 w2, poll_next 9 s w1 = ret (p, s1, w2) ∧ (p = Pending → waits s1)).
Proof.
  apply (buffered_weighted_wakes demo_stream 8 (Some 12288%Z) 4 9 2 ());
    [apply script_at_most|lia|apply demo_rss_fits|done].
Defined.
End witnesses.
