(* ===== verification/StreamWrappers.v ===== *)
(** The small wrappers of [futures_ext] (src/shed/futures_ext/src): [StreamWithTimeout],
    [YieldPeriodically], [ReturnRemainder] with [ConservativeReceiver], [OnCancel] and
    [OnCancelWithData], and [flatten_err].  Timers, clocks, wakers and oneshot channels are
    parameters with their documented behaviour. *)
From S2P Require Import Prelude RustStd Duration Streams.

(** * Streams *)

Class Stream (St Item W : Type) := stream_poll : St → W → Poll (option Item) * St * W.
#[global] Hint Mode Stream ! - - : typeclass_instances.

Section stream.
Context {St Item W : Type} {SS : Stream St Item W}.

(** The items a stream has handed out between two of its states. *)
Inductive yields : St → list Item → St → Prop :=
| yields_nil s : yields s [] s
| yields_item s x s' l s'' w w' : stream_poll s w = (Ready (Some x), s', w') → yields s' l s'' → yields s (x :: l) s''
| yields_other s s' l s'' p w w' :
    stream_poll s w = (p, s', w') → (∀ x, p ≠ Ready (Some x)) → yields s' l s'' → yields s l s''.

Lemma yields_app s1 l1 s2 l2 s3 : yields s1 l1 s2 → yields s2 l2 s3 → yields s1 (l1 ++ l2) s3.
Proof. induction 1; intros Hp; simpl; [done|by eapply yields_item; eauto|by eapply yields_other; eauto]. Qed.

(** One more poll. *)
Lemma yields_poll s1 l s2 p s3 w w' :
  yields s1 l s2 → stream_poll s2 w = (p, s3, w') → yields s1 (match p with Ready (Some x) => l ++ [x] | _ => l end) s3.
Proof.
  intros Hy Hp. destruct p as [[x|]|].
  - eapply yields_app; [done|]. eapply yields_item; [done|constructor].
  - rewrite <-(app_nil_r l). eapply yields_app; [done|]. eapply yields_other; [done|done|constructor].
  - rewrite <-(app_nil_r l). eapply yields_app; [done|]. eapply yields_other; [done|done|constructor].
Qed.
End stream.

#[export] Instance script_stream (Item W : Type) : Stream (list (option Item) * bool) Item W | 100 := script_next.

(** * [StreamWithTimeout] *)

Module Timeout.
Section timeout.
Context {St Item Sleep W : Type} {SS : Stream St Item W} {FS : Future Sleep () W}.
Context (new_sleep : Duration → W → Sleep * W).

Inductive StreamTimeoutError := timeout_error (d : Duration).

Record StreamWithTimeout := { inner : St; duration : Duration; done : bool; deadline : option Sleep }.
Implicit Types (s : StreamWithTimeout) (w : W).

Definition new (inner : St) (duration : Duration) : StreamWithTimeout :=
  {| inner := inner; duration := duration; done := false; deadline := None |}.

(** The deadline is set by the first poll. *)
Definition get_deadline s w : Sleep * W :=
  match deadline s with None => new_sleep (duration s) w | Some d => (d, w) end.

Definition poll_next s w : exec (Poll (option (result Item StreamTimeoutError)) * StreamWithTimeout * W) :=
  if done s then ret (Ready None, s, w)
  else
    let '(d, w) := get_deadline s w in
    match fpoll d w with
    | (Ready _, d, w) =>
        ret (Ready (Some (Err (timeout_error (duration s)))),
             {| inner := inner s; duration := duration s; done := true; deadline := Some d |}, w)
    | (Pending, d, w) =>
        match stream_poll (inner s) w with
        | (Pending, st, w) => ret (Pending, {| inner := st; duration := duration s; done := false; deadline := Some d |}, w)
        | (Ready res, st, w) =>
            ret (Ready (match res with None => None | Some x => Some (Ok x) end),
                 {| inner := st; duration := duration s; done := is_none res; deadline := Some d |}, w)
        end
    end.

(** What has been handed out: the items of the stream, then at most one error. *)
Definition handed_out (st0 : St) (d : Duration) s (outs : list (result Item StreamTimeoutError)) : Prop :=
  duration s = d ∧ ∃ items, yields st0 items (inner s) ∧
    (outs = Ok <$> items ∨ (done s = true ∧ outs = (Ok <$> items) ++ [Err (timeout_error d)])).

Lemma poll_handed_out st0 d s w outs :
  handed_out st0 d s outs →
  ∃ p s' w', poll_next s w = ret (p, s', w') ∧
    match p with
    | Ready (Some x) => done s = false ∧ handed_out st0 d s' (outs ++ [x])
    | Ready None => done s' = true ∧ handed_out st0 d s' outs
    | Pending => done s' = false ∧ handed_out st0 d s' outs
    end.
Proof.
  intros (Hd&items&Hy&Ho). unfold poll_next. destruct (done s) eqn:Hdone.
  { eexists _, _, _. split; [reflexivity|]. split; [by rewrite Hdone|]. split; [done|]. exists items. by rewrite Hdone. }
  destruct Ho as [->|[? _]]; [|done]. destruct (get_deadline s w) as [sl w1].
  destruct (fpoll sl w1) as [[[[]|] sl'] w2].
  - eexists _, _, _. split; [reflexivity|]. split; [done|]. split; [done|]. exists items. rewrite Hd. split; [done|by right].
  - destruct (stream_poll (inner s) w2) as [[p st] w3] eqn:Hp. pose proof (yields_poll _ _ _ _ _ _ _ Hy Hp) as Hy'.
    destruct p as [[x|]|]; eexists _, _, _; (split; [reflexivity|]); (split; [done|]); (split; [done|]).
    + exists (items ++ [x]). split; [done|]. left. by rewrite fmap_app.
    + exists items. split; [done|by left].
    + exists items. split; [done|by left].
Qed.

(** A stream with a timeout hands out the items of its stream in order, then ends; if the
    deadline, set once by the first poll, passes before, the last thing it hands out is the
    timeout error.  Once it has ended or timed out every poll answers [None] at once: neither
    the timer nor the stream is polled again. *)
Theorem stream_with_timeout_sound (st0 : St) (d : Duration) n w :
  ∃ outs ended s w', consume poll_next n (new st0 d) w = ret (outs, ended, s, w') ∧
    (∃ items, yields st0 items (inner s) ∧
      (outs = Ok <$> items ∨ (done s = true ∧ outs = (Ok <$> items) ++ [Err (timeout_error d)]))) ∧
    (ended = true → done s = true) ∧
    (done s = true → ∀ w1, poll_next s w1 = ret (Ready None, s, w1)).
Proof.
  destruct (consume_ok poll_next (handed_out st0 d) (λ s outs, done s = true ∧ handed_out st0 d s outs))
    with (n:=n) (s:=new st0 d) (w:=w) (l:=@nil (result Item StreamTimeoutError)) as (outs&e&s&w'&Heq&Hk).
  - intros s w1 l Hs. destruct (poll_handed_out st0 d s w1 l Hs) as (p&s'&w2&Heq&Hp). exists p, s', w2.
    split; [done|]. destruct p as [[x|]|]; [apply Hp|done|apply Hp].
  - split; [done|]. exists []. split; [constructor|by left].
  - exists outs, e, s, w'. split; [done|]. assert (handed_out st0 d s outs ∧ (e = true → done s = true)) as [[_ ?] ?].
    { destruct e; [by destruct Hk|by split]. }
    split; [done|]. split; [done|]. intros Hdone w1. unfold poll_next. by rewrite Hdone.
Qed.
End timeout.
End Timeout.

(** * [YieldPeriodically] *)

Module Yield.
Section yield.
Context {St Item W : Type} {SS : Stream St Item W}.

(** [Instant::now], the waker of the task, and the callback for large overshoots. *)
Context (clock : W → Instant) (wake : W → W) (on_large_overshoot : option (Duration → Duration → W → W)).
#[local] Open Scope Z_scope.

Definition BUDGET_OVERSHOOT_MULTIPLIER : Z := 3.

Record YieldPeriodically := { inner : St; budget : Duration; current_budget : Duration; must_yield : bool }.
Implicit Types (s : YieldPeriodically) (w : W).

Definition new (inner : St) (budget : Duration) : YieldPeriodically :=
  {| inner := inner; budget := budget; current_budget := budget; must_yield := false |}.
Definition with_budget s (d : Duration) : YieldPeriodically :=
  {| inner := inner s; budget := d; current_budget := d; must_yield := must_yield s |}.

(** The callback, called when a poll took more than three budgets beyond what was left. *)
Definition report s (elapsed : Duration) w : exec W :=
  match on_large_overshoot with
  | None => ret w
  | Some callback =>
      let! over := duration_sub elapsed (current_budget s) in
      let! limit := duration_mul (budget s) BUDGET_OVERSHOOT_MULTIPLIER in
      ret (if limit <? over then callback (current_budget s) elapsed w else w)
  end.

Definition poll_next s w : exec (Poll (option Item) * YieldPeriodically * W) :=
  if must_yield s then
    ret (Pending, {| inner := inner s; budget := budget s; current_budget := current_budget s; must_yield := false |}, wake w)
  else
    let now := clock w in
    match stream_poll (inner s) w with
    | (Pending, st, w) =>
        ret (Pending, {| inner := st; budget := budget s; current_budget := budget s; must_yield := false |}, w)
    | (res, st, w) =>
        let elapsed := duration_since (clock w) now in
        match duration_checked_sub (current_budget s) elapsed with
        | Some new_budget =>
            ret (res, {| inner := st; budget := budget s; current_budget := new_budget; must_yield := false |}, w)
        | None =>
            let! w := report s elapsed w in
            ret (res, {| inner := st; budget := budget s; current_budget := budget s; must_yield := true |}, w)
        end
    end.

(** ** Running with a stopwatch

    Next to the adaptor, the time that polls of the inner stream took since the adaptor last
    answered [Pending]. *)
Definition busy_after s (busy : Duration) w : Duration :=
  if must_yield s then 0
  else match stream_poll (inner s) w with
       | (Pending, _, _) => 0
       | (_, _, w') => busy + duration_since (clock w') (clock w)
       end.

Definition timed (s_busy : YieldPeriodically * Duration) w : exec (Poll (option Item) * (YieldPeriodically * Duration) * W) :=
  let '(s, busy) := s_busy in
  let! '(p, s', w') := poll_next s w in ret (p, (s', busy_after s busy w), w').

Context (st0 : St) (b : Duration) (b_fits : 0 ≤ b ∧ b * BUDGET_OVERSHOOT_MULTIPLIER ≤ duration_max).
Context (clock_fits : ∀ w w' : W, duration_since (clock w') (clock w) ≤ duration_max).

(** What was handed out, and the time it took: over the budget exactly when the next poll yields. *)
Definition on_time (sb : YieldPeriodically * Duration) (outs : list Item) : Prop :=
  let '(s, busy) := sb in
  yields st0 outs (inner s) ∧ budget s = b ∧
  (if must_yield s then current_budget s = b ∧ b < busy else current_budget s = b - busy ∧ 0 ≤ busy ≤ b).

Lemma report_returns s elapsed w :
  budget s = b → 0 ≤ current_budget s → current_budget s < elapsed ≤ duration_max → ∃ w', report s elapsed w = ret w'.
Proof.
  intros Hb Hc He. unfold report. destruct on_large_overshoot as [callback|]; [|by eexists].
  unfold duration_sub, duration_mul. rewrite Hb.
  rewrite (duration_op_ok (elapsed - current_budget s)) by (unfold valid; lia). cbn [exec_bind].
  rewrite (duration_op_ok (b * BUDGET_OVERSHOOT_MULTIPLIER)) by (unfold valid, BUDGET_OVERSHOOT_MULTIPLIER in *; lia).
  by eexists.
Qed.

Lemma poll_on_time sb outs w :
  on_time sb outs →
  ∃ p sb' w', timed sb w = ret (p, sb', w') ∧ on_time sb' (match p with Ready (Some x) => outs ++ [x] | _ => outs end).
Proof.
  destruct sb as [s busy]. intros (Hy&Hb&Ht). unfold timed, poll_next, busy_after. destruct (must_yield s) eqn:Hm.
  { eexists _, _, _. split; [reflexivity|]. split; [done|]. split; [done|]. simpl. lia. }
  destruct (stream_poll (inner s) w) as [[p st] w1] eqn:Hp. pose proof (yields_poll _ _ _ _ _ _ _ Hy Hp) as Hy'.
  destruct p as [res|]; [|eexists _, _, _; split; [reflexivity|]; split; [done|]; split; [done|]; simpl; lia].
  unfold duration_checked_sub. set (elapsed := duration_since (clock w1) (clock w)).
  assert (0 ≤ elapsed ≤ duration_max) as He by (split; [unfold elapsed, duration_since; lia|apply clock_fits]).
  destruct (Z.leb_spec elapsed (current_budget s)) as [Hle|Hlt].
  - destruct res; (eexists _, _, _; split; [reflexivity|]; split; [done|]; split; [done|]; simpl; lia).
  - destruct (report_returns s elapsed w1) as [w2 Hr]; [done|lia..|]. rewrite Hr.
    destruct res; (eexists _, _, _; split; [reflexivity|]; split; [done|]; split; [done|]; simpl; lia).
Qed.

(** [yield_periodically] hands out the items of its stream in order and never panics; the
    time the stream's polls took since the last [Pending] is over the budget exactly when the
    next poll is going to yield, which it does at once, waking the task and leaving the stream
    alone: at most one poll goes beyond the budget. *)
Theorem yield_periodically_sound n w :
  ∃ outs ended s busy w', consume timed n (new st0 b, 0) w = ret (outs, ended, (s, busy), w') ∧
    yields st0 outs (inner s) ∧ (if must_yield s then b < busy else busy ≤ b) ∧
    (must_yield s = true → ∀ w1, ∃ s', poll_next s w1 = ret (Pending, s', wake w1) ∧ inner s' = inner s ∧ must_yield s' = false).
Proof.
  destruct (consume_ok timed on_time on_time) with (n:=n) (s:=(new st0 b, 0)) (w:=w) (l:=@nil Item)
    as (outs&e&[s busy]&w'&Heq&Hk).
  - intros s w1 l Hs. destruct (poll_on_time s l w1 Hs) as (p&s'&w2&?&?). exists p, s', w2. by destruct p as [[x|]|].
  - split; [constructor|]. split; [done|]. simpl. lia.
  - exists outs, e, s, busy, w'. split; [done|]. assert (on_time (s, busy) outs) as (?&_&Ht) by by destruct e.
    split; [done|]. split; [destruct (must_yield s); lia|]. intros Hm w1. unfold poll_next. rewrite Hm. by eexists.
Qed.
End yield.

(** A stream of 5ms of work per item under a budget of 8ms; the world is the clock and counts
    the wakes. *)
#[local] Instance busy_stream : Stream nat nat (Z * nat) :=
  λ k w, match k with 0%nat => (Ready None, 0%nat, w) | S k => (Ready (Some k), k, (w.1 + 5, w.2)%Z) end.
Definition tick (w : Z * nat) : Z * nat := (w.1, S w.2).

Example yields_every_second_item :
  consume (timed fst tick None) 8 (new 4%nat 8, 0)%Z (0, 0%nat)%Z
  = ret ([3; 2; 1; 0]%nat, true, ({| inner := 0%nat; budget := 8; current_budget := 8; must_yield := false |}, 0), (20, 2%nat))%Z.
Proof. reflexivity. Qed.

Definition wrapping (w : Z * nat) : Instant := (w.1 mod 1000)%Z.

Lemma yield_periodically_sound_witness :
  ∃ outs ended s busy w', consume (timed wrapping tick None) 8 (new 4%nat 8, 0)%Z (0, 0%nat)%Z
      = ret (outs, ended, (s, busy), w') ∧
    yields 4%nat outs (inner s) ∧ (if must_yield s then 8 < busy else busy ≤ 8)%Z ∧
    (must_yield s = true → ∀ w1, ∃ s',
      poll_next wrapping tick None s w1 = ret (Pending, s', tick w1) ∧ inner s' = inner s ∧ must_yield s' = false).
Proof.
  apply (yield_periodically_sound wrapping tick None 4%nat 8%Z).
  - split; [lia|]. vm_compute. discriminate.
  - intros w w'. pose proof (Z.mod_pos_bound w.1 1000). pose proof (Z.mod_pos_bound w'.1 1000).
    assert (1000 ≤ duration_max)%Z by (vm_compute; discriminate). unfold duration_since, wrapping. lia.
Defined.
End Yield.

(** * Oneshot channels *)

(** [futures::channel::oneshot]: the receiver is pending until the sender sent a value or was
    dropped; what is sent after the receiver is gone is lost. *)
Class Oneshot (T : Type) := {
  chan : Type;
  channel : chan;
  chan_send : T → chan → chan;
  chan_drop_sender : chan → chan;
  chan_recv : chan → Poll (result T ()) * chan;
  recv_channel : chan_recv channel = (Pending, channel);
  recv_sent x : (chan_recv (chan_send x channel)).1 = Ready (Ok x);
  recv_dropped : (chan_recv (chan_drop_sender channel)).1 = Ready (Err ());
}.

(** A concrete channel: nothing yet, a value, or [Canceled]. *)
#[export] Program Instance slot (T : Type) : Oneshot T | 100 := {|
  chan := option (option T); channel := None; chan_send x _ := Some (Some x); chan_drop_sender _ := Some None;
  chan_recv c := match c with
    | None => (Pending, c) | Some (Some x) => (Ready (Ok x), Some None) | Some None => (Ready (Err ()), c) end;
|}.
Next Obligation. done. Qed.
Next Obligation. done. Qed.
Next Obligation. done. Qed.

(** * [ReturnRemainder] and [ConservativeReceiver] *)

Module Remainder.

Inductive ConservativeReceiverError := Canceled | ReceiveBeforeSend.

Section remainder.
Context {St Item W : Type} {SS : Stream St Item W} {CH : Oneshot St}.

(** [ConservativeReceiver::poll]: a receiver that never waits. *)
Definition recv_poll (c : chan) : Poll (result St ConservativeReceiverError) * chan :=
  match chan_recv c with
  | (Ready (Ok output), c) => (Ready (Ok output), c)
  | (Ready (Err _), c) => (Ready (Err Canceled), c)
  | (Pending, c) => (Ready (Err ReceiveBeforeSend), c)
  end.

(** The sender is there or was used; the channel is kept beside the stream. *)
Record ReturnRemainder := { inner : option St; send : bool; chan_of : chan }.
Implicit Types (s : ReturnRemainder) (w : W).

Definition new (st : St) : ReturnRemainder := {| inner := Some st; send := true; chan_of := channel |}.

Definition poll_next s w : exec (Poll (option Item) * ReturnRemainder * W) :=
  match inner s with
  | None => ret (Ready None, s, w)
  | Some st =>
      match stream_poll st w with
      | (Pending, st, w) => ret (Pending, {| inner := Some st; send := send s; chan_of := chan_of s |}, w)
      | (Ready (Some x), st, w) =>
          ret (Ready (Some x), {| inner := Some st; send := send s; chan_of := chan_of s |}, w)
      | (Ready None, st, w) =>
          if send s then ret (Ready None, {| inner := None; send := false; chan_of := chan_send st (chan_of s) |}, w)
          else panic
      end
  end.

(** Dropping the stream drops a sender it still holds. *)
Definition drop_stream s : chan := if send s then chan_drop_sender (chan_of s) else chan_of s.

(** The items of the stream; the stream itself is held until its end, and then sent. *)
Definition held (st0 : St) s (outs : list Item) : Prop :=
  ∃ st, inner s = Some st ∧ send s = true ∧ chan_of s = channel ∧ yields st0 outs st.
Definition sent (st0 : St) s (outs : list Item) : Prop :=
  ∃ st, inner s = None ∧ send s = false ∧ chan_of s = chan_send st channel ∧ yields st0 outs st.

Lemma poll_held st0 s w outs :
  held st0 s outs →
  ∃ p s' w', poll_next s w = ret (p, s', w') ∧
    match p with Ready (Some x) => held st0 s' (outs ++ [x]) | Ready None => sent st0 s' outs | Pending => held st0 s' outs end.
Proof.
  intros (st&Hi&Hs&Hc&Hy). unfold poll_next. rewrite Hi. destruct (stream_poll st w) as [[p st'] w1] eqn:Hp.
  pose proof (yields_poll _ _ _ _ _ _ _ Hy Hp) as Hy'. destruct p as [[x|]|].
  - eexists _, _, _. split; [done|]. by exists st'.
  - rewrite Hs. eexists _, _, _. split; [done|]. exists st'. by rewrite Hc.
  - eexists _, _, _. split; [done|]. by exists st'.
Qed.

(** The stream hands out the items of the inner one in order.  Receiving before its end is
    refused at once instead of waiting, and tells a dropped stream apart; after the end the
    receiver gets the inner stream as it was left. *)
Theorem return_remainder_sound (st0 : St) n w :
  ∃ outs ended s w', consume poll_next n (new st0) w = ret (outs, ended, s, w') ∧
    ∃ st, yields st0 outs st ∧
      if ended : bool then inner s = None ∧ (recv_poll (chan_of s)).1 = Ready (Ok st) ∧ ∀ w1, poll_next s w1 = ret (Ready None, s, w1)
      else inner s = Some st ∧ (recv_poll (chan_of s)).1 = Ready (Err ReceiveBeforeSend)
           ∧ (recv_poll (drop_stream s)).1 = Ready (Err Canceled).
Proof.
  destruct (consume_ok poll_next (held st0) (sent st0)) with (n:=n) (s:=new st0) (w:=w) (l:=@nil Item)
    as (outs&e&s&w'&Heq&Hk).
  - intros s w1 l Hs. by apply poll_held.
  - exists st0. repeat split. constructor.
  - exists outs, e, s, w'. split; [done|]. destruct e; destruct Hk as (st&Hi&Hs&Hc&Hy); exists st; (split; [done|]).
    + split; [done|]. split; [|intros w1; unfold poll_next; by rewrite Hi].
      unfold recv_poll. pose proof (recv_sent st) as Hr. rewrite <-Hc in Hr. destruct (chan_recv _) as [p c]. by simplify_eq/=.
    + split; [done|]. unfold drop_stream, recv_poll. rewrite Hs, Hc, recv_channel. split; [done|].
      pose proof recv_dropped as Hr. destruct (chan_recv _) as [p c]. by simplify_eq/=.
Qed.
End remainder.
End Remainder.

(** * [OnCancel] and [OnCancelWithData] *)

Module Cancel.
Section cancel.
Context {F O W Data : Type} {FF : Future F O W}.

(** The closure, still held or dropped: [FnOnce] may be called once, what it does is a step of
    the world. *)
Record OnCancelWithData := { inner : F; on_cancel : option (Data → W → W) }.
Implicit Types (s : OnCancelWithData) (w : W).

Definition new (inner : F) (f : Data → W → W) : OnCancelWithData := {| inner := inner; on_cancel := Some f |}.

Definition poll s w : Poll O * OnCancelWithData * W :=
  match fpoll (inner s) w with
  | (Pending, f, w) => (Pending, {| inner := f; on_cancel := on_cancel s |}, w)
  | (Ready v, f, w) => (Ready v, {| inner := f; on_cancel := None |}, w)
  end.

(** [CancelData::cancel_data] of the inner future. *)
Context (cancel_data : F → Data).
Definition drop_with_data s w : W :=
  match on_cancel s with Some f => f (cancel_data (inner s)) w | None => w end.

(** Polled up to [n] times, then dropped. *)
Fixpoint polled (n : nat) s w : option O * OnCancelWithData * W :=
  match n with
  | 0 => (None, s, w)
  | S n => match poll s w with (Ready v, s, w) => (Some v, s, w) | (Pending, s, w) => polled n s w end
  end.

(** The closure runs exactly when the future is dropped before it completed, once, with the
    data of the future as it is then. *)
Theorem on_cancel_runs (fut : F) (f : Data → W → W) n w :
  ∃ o s w', polled n (new fut f) w = (o, s, w') ∧
    match o with
    | Some v => resolves fut v ∧ drop_with_data s w' = w'
    | None => evolves fut (inner s) ∧ drop_with_data s w' = f (cancel_data (inner s)) w'
    end.
Proof.
  unfold new. revert fut w. induction n as [|n IH]; intros fut w; simpl.
  { eexists _, _, _. split; [done|]. split; [apply rtc_refl|done]. }
  unfold poll. simpl. destruct (fpoll fut w) as [[[v|] fut'] w1] eqn:Hf.
  - eexists _, _, _. split; [done|]. split; [eauto with shed|done].
  - destruct (IH fut' w1) as (o&s&w'&->&Ho). eexists _, _, _. split; [done|]. destruct o; destruct Ho as [Hr Hd]; (split; [|done]).
    + eauto with shed.
    + etransitivity; [by eapply evolves_step|done].
Qed.
End cancel.

(** [OnCancel] is the closure that ignores the data. *)
Section on_cancel.
Context {F O W : Type} {FF : Future F O W}.
Definition OnCancel : Type := @OnCancelWithData F W ().
Definition new_on_cancel (inner : F) (f : W → W) : OnCancel := new inner (λ _, f).
Definition drop_on_cancel (s : OnCancel) (w : W) : W := drop_with_data (λ _, ()) s w.
End on_cancel.
End Cancel.

(** * [flatten_err] *)

Definition flatten_err {I E1 E2 : Type} (from : E2 → E1) (e : result (result I E1) E2) : result I E1 :=
  match e with Ok (Ok i) => Ok i | Ok (Err e1) => Err e1 | Err e2 => Err (from e2) end.

Lemma flatten_err_ok {I E1 E2} (from : E2 → E1) (e : result (result I E1) E2) i : flatten_err from e = Ok i ↔ e = Ok (Ok i).
Proof. destruct e as [[]|]; simpl; split; congruence. Qed.
