(* ===== verification/Retry.v ===== *)
(** The [futures_retry] crate (src/shed/futures_retry/src/lib.rs, backoff.rs): a future that
    runs a fallible future again, after a pause, until it succeeds, the number of attempts is
    used up, a condition says no or the backoff ends.

    The closures given to it, the futures they make, the timer and the random numbers of the
    jitter are parameters, acting on a world; [f64] is a type of its own, of which only the
    multiplication of a duration is used. *)
From S2P Require Import Prelude RustStd Futures Duration Streams.

(** * Backoff strategies *)

(** [Iterator<Item = Duration>]. *)
Class Backoff (B W : Type) := next : B → W → exec (option Duration * B * W).
#[global] Hint Mode Backoff ! - : typeclass_instances.

(** What the strategies use of [f64] and of [rand]. *)
Class Float (F64 W : Type) := {
  mul_f64 : Duration → F64 → exec Duration;
  two : F64;
  random : W → F64 * W;
}.

Module Backoffs.
Section backoffs.
Context {F64 W : Type} {FL : Float F64 W}.

Record FixedInterval := { interval : Duration }.
#[export] Instance fixed_next : Backoff FixedInterval W := λ b w, ret (Some (interval b), b, w).

Record ExponentialBackoff := { base : F64; exp_current : Duration }.
Definition exponential (initial_interval : Duration) (base : F64) : ExponentialBackoff :=
  {| base := base; exp_current := initial_interval |}.
Definition binary (initial_interval : Duration) : ExponentialBackoff := exponential initial_interval two.
#[export] Instance exponential_next : Backoff ExponentialBackoff W := λ b w,
  let current := exp_current b in
  let! product := mul_f64 (exp_current b) (base b) in
  ret (Some current, {| base := base b; exp_current := product |}, w).

Record FibonacciBackoff := { fib_current : Duration; fib_next : Duration }.
Definition fibonacci (initial_interval : Duration) : FibonacciBackoff :=
  {| fib_current := initial_interval; fib_next := initial_interval |}.
#[export] Instance fibonacci_next : Backoff FibonacciBackoff W := λ b w,
  let current := fib_current b in
  let! next_next := duration_add (fib_current b) (fib_next b) in
  ret (Some current, {| fib_current := fib_next b; fib_next := next_next |}, w).

Record Jitter (B : Type) := { inner : B; jitter : Duration }.
#[export] Instance jitter_next `{BO : Backoff B W} : Backoff (Jitter B) W := λ b w,
  let! '(interval, inner', w) := next (inner B b) w in
  let b := {| inner := inner'; jitter := jitter B b |} in
  match interval with
  | None => ret (None, b, w)
  | Some interval =>
      let '(r, w) := random w in
      let! extra := mul_f64 (jitter B b) r in
      let! sum := duration_add interval extra in
      ret (Some sum, b, w)
  end.
End backoffs.
Arguments inner {B}.
Arguments jitter {B}.

(** The [k]-th interval of a backoff, when no call before it panics. *)
Fixpoint nth_interval `{BO : Backoff B W} (k : nat) (b : B) (w : W) : exec (option Duration) :=
  let! '(i, b, w) := next b w in
  match k with O => ret i | S k => nth_interval k b w end.

(** ** The Fibonacci backoff *)

(** The sequence [1, 1, 2, 3, 5, ...]. *)
Fixpoint fib_from (k : nat) (a b : Z) : Z := match k with O => a | S k => fib_from k b (a + b) end.
Definition fib (k : nat) : Z := fib_from k 1 1.

Lemma fib_from_linear k a b d : (fib_from k (a * d) (b * d) = fib_from k a b * d)%Z.
Proof.
  revert a b. induction k as [|k IH]; intros a b; simpl; [done|]. rewrite <-IH. f_equal. ring.
Qed.

Lemma fib_from_mono k a b : (0 ≤ a ≤ b → a ≤ fib_from k a b)%Z.
Proof. revert a b. induction k as [|k IH]; intros a b Hab; simpl; [lia|]. specialize (IH b (a + b)%Z ltac:(lia)). lia. Qed.

Lemma fib_from_S k a b : (fib_from (S (S k)) a b = fib_from k a b + fib_from (S k) a b)%Z.
Proof. revert a b. induction k as [|k IH]; intros a b; [done|]. apply (IH b (a + b)%Z). Qed.

(** The [k]-th call of a Fibonacci backoff of initial interval [d] returns [d] times the
    [k]-th Fibonacci number as long as the value it prepares for two calls later is still a
    [Duration]; from the first call where it is not, the backoff panics, although the interval
    asked for may be far below the maximum. *)
Theorem fibonacci_backoff_intervals {W : Type} (d : Duration) (k : nat) (w : W) :
  (0 ≤ d)%Z →
  nth_interval k (fibonacci d) w =
    (if bool_decide (fib (S (S k)) * d ≤ duration_max)%Z then ret (Some (fib k * d)%Z) else panic).
Proof.
  intros Hd. unfold fib, fibonacci.
  assert (∀ a b, (0 ≤ a ≤ b)%Z → nth_interval k {| fib_current := (a * d)%Z; fib_next := (b * d)%Z |} w =
    (if bool_decide (fib_from (S (S k)) a b * d ≤ duration_max)%Z then ret (Some (fib_from k a b * d)%Z) else panic)) as H.
  2: { specialize (H 1%Z 1%Z ltac:(lia)). rewrite !Z.mul_1_l in H. exact H. }
  induction k as [|k IH]; intros a b Hab; simpl.
  - unfold next, fibonacci_next, duration_add, duration_op. simpl.
    replace (a * d + b * d)%Z with ((a + b) * d)%Z by ring.
    assert (0 ≤ (a + b) * d)%Z by nia. case_bool_decide as H1; simpl.
    + rewrite bool_decide_true by lia. done.
    + rewrite bool_decide_false by lia. done.
  - unfold next, fibonacci_next, duration_add, duration_op. simpl.
    replace (a * d + b * d)%Z with ((a + b) * d)%Z by ring.
    assert (0 ≤ (a + b) * d)%Z by nia. case_bool_decide as H1; simpl.
    + rewrite IH by lia. done.
    + rewrite bool_decide_false; [done|]. intros Hle. apply H1. split; [done|].
      assert (a + b ≤ fib_from (S (S k)) b (a + b))%Z; [|simpl in *; nia].
      simpl. pose proof (fib_from_mono k (b + (a + b))%Z (a + b + (b + (a + b)))%Z ltac:(lia)). lia.
Qed.

(** From ten milliseconds the hundred-and-second call panics. *)
Lemma fibonacci_backoff_intervals_witness :
  nth_interval 100 (fibonacci (from_millis 10)) () = ret (Some (fib 100 * from_millis 10)%Z) ∧
  nth_interval 101 (fibonacci (from_millis 10)) () = panic.
Proof.
  assert (0 ≤ from_millis 10)%Z as Hd by (vm_compute; discriminate).
  split; rewrite (fibonacci_backoff_intervals _ _ _ Hd); reflexivity.
Defined.
End Backoffs.

(** * [Retry] *)

Module Retry.
Section retry.
Context `{BM : BuildMode} {Fut V E Sleep W : Type}.
Context {FF : Future Fut (result V E) W} {FS : Future Sleep () W}.

(** The closures and [tokio::time::sleep]. *)
Context (func : nat → W → Fut * W).
Context (new_sleep : Duration → W → Sleep * W).
Context (inspect_err : nat → E → W → W) (retry_if : nat → E → W → bool * W).

Record Retry (B : Type) := {
  fut : option Fut;
  sleep : option Sleep;
  attempt : nat;
  backoff : B;
  max_attempts : option nat;
  max_interval : option Duration;
}.
Arguments fut {B}.
Arguments sleep {B}.
Arguments attempt {B}.
Arguments backoff {B}.
Arguments max_attempts {B}.
Arguments max_interval {B}.

(** ** The builder *)

Definition retry (interval : Duration) : Retry Backoffs.FixedInterval := {|
  fut := None; sleep := None; attempt := 0; backoff := {| Backoffs.interval := interval |};
  max_attempts := None; max_interval := None;
|}.

Section builder.
Context {B : Type}.
Implicit Types s : Retry B.

Definition with_backoff {B'} s (b : B') : Retry B' := {|
  fut := fut s; sleep := sleep s; attempt := attempt s; backoff := b;
  max_attempts := max_attempts s; max_interval := max_interval s;
|}.
Definition set_max_attempts s (n : nat) : Retry B := {|
  fut := fut s; sleep := sleep s; attempt := attempt s; backoff := backoff s;
  max_attempts := Some n; max_interval := max_interval s;
|}.
Definition set_max_interval s (d : Duration) : Retry B := {|
  fut := fut s; sleep := sleep s; attempt := attempt s; backoff := backoff s;
  max_attempts := max_attempts s; max_interval := Some d;
|}.

Context {BO : Backoff B W} {F64 : Type} {FL : Float F64 W}.

(** [self.backoff.next().unwrap_or(Duration::from_millis(10))]. *)
Definition initial_interval s w : exec (Duration * W) :=
  let! '(i, _, w) := next (backoff s) w in ret (default (from_millis 10) i, w).

Definition binary_exponential_backoff s w : exec (Retry (Backoffs.ExponentialBackoff (F64:=F64)) * W) :=
  let! '(initial, w) := initial_interval s w in ret (with_backoff s (Backoffs.binary (W:=W) initial), w).
Definition exponential_backoff s (base : F64) w : exec (Retry (Backoffs.ExponentialBackoff (F64:=F64)) * W) :=
  let! '(initial, w) := initial_interval s w in ret (with_backoff s (Backoffs.exponential initial base), w).
Definition fibonacci_backoff s w : exec (Retry Backoffs.FibonacciBackoff * W) :=
  let! '(initial, w) := initial_interval s w in ret (with_backoff s (Backoffs.fibonacci initial), w).
Definition with_jitter s (jitter : Duration) : Retry (Backoffs.Jitter B) :=
  with_backoff s {| Backoffs.inner := backoff s; Backoffs.jitter := jitter |}.
End builder.

(** ** [Future::poll] *)

Context {B : Type} {BO : Backoff B W}.
Implicit Types (s : Retry B) (w : W).

Definition set_fut s (f : option Fut) : Retry B := {|
  fut := f; sleep := sleep s; attempt := attempt s; backoff := backoff s;
  max_attempts := max_attempts s; max_interval := max_interval s;
|}.
Definition set_sleep s (sl : option Sleep) : Retry B := {|
  fut := fut s; sleep := sl; attempt := attempt s; backoff := backoff s;
  max_attempts := max_attempts s; max_interval := max_interval s;
|}.
Definition set_attempt s (n : nat) : Retry B := {|
  fut := fut s; sleep := sleep s; attempt := n; backoff := backoff s;
  max_attempts := max_attempts s; max_interval := max_interval s;
|}.

(** [max_attempts.is_none_or(|max| attempt < max)]. *)
Definition may_retry s : bool := match max_attempts s with None => true | Some max => attempt s <? max end.

(** The conditions of the [if let] chain, each tried only when those before it hold. *)
Definition next_interval s (e : E) w : exec (option Duration * Retry B * W) :=
  if may_retry s then
    let '(again, w) := retry_if (attempt s) e w in
    if again then
      let! '(i, b, w) := next (backoff s) w in ret (i, with_backoff s b, w)
    else ret (None, s, w)
  else ret (None, s, w).

(** [interval.clamp(Duration::ZERO, max_interval)]. *)
Definition clamp s (interval : Duration) : Duration :=
  match max_interval s with None => interval | Some m => (interval `max` 0) `min` m end%Z.

(** The first [if let]: [Some p] is [return p]. *)
Definition poll_fut s w : exec (option (Poll (result (V * nat) E)) * Retry B * W) :=
  match fut s with
  | None => ret (None, s, w)
  | Some f =>
      match fpoll f w with
      | (Pending, f, w) => ret (Some Pending, set_fut s (Some f), w)
      | (Ready (Ok v), f, w) => ret (Some (Ready (Ok (v, attempt s))), set_fut s (Some f), w)
      | (Ready (Err e), _, w) =>
          let s := set_fut s None in
          let w := inspect_err (attempt s) e w in
          let! '(i, s, w) := next_interval s e w in
          match i with
          | Some interval =>
              let '(sl, w) := new_sleep (clamp s interval) w in
              ret (None, set_sleep s (Some sl), w)
          | None => ret (Some (Ready (Err e)), s, w)
          end
      end
  end.

(** The second: [true] is [return Poll::Pending]. *)
Definition poll_sleep s w : bool * Retry B * W :=
  match sleep s with
  | None => (false, s, w)
  | Some sl =>
      match fpoll sl w with
      | (Pending, sl, w) => (true, set_sleep s (Some sl), w)
      | (Ready _, _, w) => (false, set_sleep s None, w)
      end
  end.

Definition poll_step s w : exec (control (result (V * nat) E) * Retry B * W) :=
  let! '(p, s, w) := poll_fut s w in
  match p with
  | Some p => ret (Return p, s, w)
  | None =>
      let '(asleep, s, w) := poll_sleep s w in
      if asleep then ret (Return Pending, s, w)
      else
        let! n := count_add (attempt s) 1 in
        let s := set_attempt s n in
        let '(f, w) := func (attempt s) w in
        ret (Continue, set_fut s (Some f), w)
  end.

Definition poll (fuel : nat) s w := poll_loop poll_step fuel s w.
End retry.
Arguments fut {Fut Sleep B}.
Arguments sleep {Fut Sleep B}.
Arguments attempt {Fut Sleep B}.
Arguments backoff {Fut Sleep B}.
Arguments max_attempts {Fut Sleep B}.
Arguments max_interval {Fut Sleep B}.

(** ** What a retry returns *)

Section outcome.
Context `{BM : BuildMode} {Fut V E Sleep B W : Type}.
Context {FF : Future Fut (result V E) W} {FS : Future Sleep () W} {BO : Backoff B W}.
Context (func : nat → W → Fut * W) (new_sleep : Duration → W → Sleep * W).
Context (inspect_err : nat → E → W → W) (retry_if : nat → E → W → bool * W).
Context (max : nat) (max_fits : (Z.of_nat max < usize_max)%Z).

(** A backoff that does not panic. *)
Context (backoff_ok : B → Prop).
Context (next_ok : ∀ b w, backoff_ok b → ∃ i b' w', next b w = ret (i, b', w') ∧ backoff_ok b').

Implicit Types (s : Retry (Fut:=Fut) (Sleep:=Sleep) B) (w : W) (errs : list E).

(** The [k]-th attempt can give [r]; its error makes the retry go on, or give up. *)
Definition yields (k : nat) (r : result V E) : Prop := ∃ w, resolves (func k w).1 r.
Definition goes_on (k : nat) (e : E) : Prop := k < max ∧ ∃ w w', retry_if k e w = (true, w').
Definition gives_up (k : nat) (e : E) : Prop :=
  max ≤ k ∨ (∃ w w', retry_if k e w = (false, w')) ∨ (∃ (b b' : B) w w', next b w = ret (None, b', w')).

(** The errors of the attempts so far, each of which was retried. *)
Definition retried errs : Prop := ∀ i e, errs !! i = Some e → yields (S i) (Err e) ∧ goes_on (S i) e.

Definition running s errs : Prop :=
  match fut s with
  | None => attempt s = length errs
  | Some f => attempt s = S (length errs) ∧ ∃ w, evolves (func (attempt s) w).1 f
  end.

Definition inv s : Prop :=
  max_attempts s = Some max ∧ backoff_ok (backoff s) ∧ ∃ errs, retried errs ∧ running s errs.

Definition outcome (r : result (V * nat) E) : Prop :=
  ∃ errs, retried errs ∧
    match r with
    | Ok (v, k) => k = S (length errs) ∧ yields k (Ok v)
    | Err e => yields (S (length errs)) (Err e) ∧ gives_up (S (length errs)) e
    end.

Lemma retried_snoc errs e : retried errs → yields (S (length errs)) (Err e) → goes_on (S (length errs)) e → retried (errs ++ [e]).
Proof.
  intros Hr Hy Hg i e' [Hi|(Hi&He)]%lookup_app_Some; [by apply Hr|].
  apply list_lookup_singleton_Some in He as [Hz <-]. by replace i with (length errs) by lia.
Qed.

(** At most [max] errors are retried. *)
Lemma retried_length errs : retried errs → length errs = 0 ∨ length errs < max.
Proof.
  intros Hr. destruct (length errs) as [|n] eqn:Hl; [by left|right].
  destruct (lookup_lt_is_Some_2 errs n ltac:(lia)) as [e He]. by destruct (Hr n e He) as (_&?&_).
Qed.

Lemma next_interval_spec s e w :
  max_attempts s = Some max → backoff_ok (backoff s) →
  ∃ i b w', next_interval retry_if s e w = ret (i, with_backoff s b, w') ∧ backoff_ok b ∧
    match i with Some _ => goes_on (attempt s) e | None => gives_up (attempt s) e end.
Proof.
  intros Hm Hb. unfold next_interval, may_retry. rewrite Hm.
  destruct (Nat.ltb_spec (attempt s) max) as [Hlt|Hge].
  2: { exists None, (backoff s), w. split; [by destruct s|]. split; [done|by left]. }
  destruct (retry_if (attempt s) e w) as [[|] w1] eqn:Hi.
  2: { exists None, (backoff s), w1. split; [by destruct s|]. split; [done|]. right. left. by exists w, w1. }
  destruct (next_ok (backoff s) w1 Hb) as (i&b&w2&Hn&Hb'). rewrite Hn. simpl. exists i, b, w2.
  split; [done|]. split; [done|]. destruct i; [split; [done|]; by exists w, w1|]. right. right. by exists (backoff s), b, w1, w2.
Qed.

(** The first half of a step: no attempt is in progress after it, or the poll returns. *)
Lemma poll_fut_spec s w :
  inv s → ∃ p s' w', poll_fut new_sleep inspect_err retry_if s w = ret (p, s', w') ∧
    match p with
    | Some (Ready r) => outcome r
    | Some Pending => inv s' ∧ attempt s' = attempt s
    | None => inv s' ∧ fut s' = None ∧ attempt s' = attempt s
    end.
Proof.
  intros (Hm&Hb&errs&Hr&Hrun). unfold poll_fut. unfold running in Hrun. destruct (fut s) as [f|] eqn:Hf.
  2: { eexists _, _, _. split; [done|]. split; [|done]. split; [done|]. split; [done|]. exists errs. unfold running. by rewrite Hf. }
  destruct Hrun as [Ha [w0 He]]. destruct (fpoll f w) as [[[[v|e]|] f'] w1] eqn:Hp.
  - eexists _, _, _. split; [done|]. exists errs. split; [done|]. split; [done|]. exists w0. eauto with shed.
  - assert (yields (S (length errs)) (Err e)) as Hy by (rewrite <-Ha; exists w0; eauto with shed).
    destruct (next_interval_spec (set_fut s None) e (inspect_err (attempt s) e w1) Hm Hb) as (i&b&w2&Hn&Hb'&Hi).
    cbn [attempt set_fut] in *. rewrite Hn. cbn [exec_bind]. destruct i as [interval|].
    + destruct (new_sleep _ w2) as [sl w3]. eexists _, _, _. split; [done|]. split; [|done].
      split; [done|]. split; [done|]. exists (errs ++ [e]). rewrite Ha in Hi. split; [by apply retried_snoc|].
      unfold running. simpl. rewrite length_app. simpl. lia.
    + eexists _, _, _. split; [done|]. exists errs. rewrite Ha in Hi. done.
  - eexists _, _, _. split; [done|]. split; [|done]. split; [done|]. split; [done|]. exists errs. split; [done|].
    unfold running. simpl. split; [done|]. exists w0. transitivity f; eauto with shed.
Qed.

(** A step goes round only by starting the next attempt. *)
Lemma retry_step_spec s w :
  inv s → ∃ c s' w', poll_step func new_sleep inspect_err retry_if s w = ret (c, s', w') ∧
    match c with
    | Return (Ready r) => outcome r
    | Return Pending => inv s' ∧ attempt s' = attempt s
    | Continue => inv s' ∧ attempt s' = S (attempt s)
    end.
Proof.
  intros Hs. unfold poll_step. destruct (poll_fut_spec s w Hs) as (p&s1&w1&->&Hp). cbn [exec_bind].
  destruct p as [p|]; [eexists _, _, _; split; [done|]; by destruct p|]. destruct Hp as ((Hm&Hb&errs&Hr&Hrun)&Hf&Ha).
  unfold running in Hrun. rewrite Hf in Hrun.
  assert (∃ asleep s2 w2, poll_sleep s1 w1 = (asleep, s2, w2) ∧ fut s2 = None ∧ attempt s2 = attempt s1 ∧
    max_attempts s2 = Some max ∧ backoff s2 = backoff s1) as (asleep&s2&w2&->&Hf2&Ha2&Hm2&Hb2).
  { unfold poll_sleep. destruct (sleep s1) as [sl|]; [|by eexists _, _, _].
    destruct (fpoll sl w1) as [[[[]|] sl'] w2]; by eexists _, _, _. }
  rewrite <-Hb2 in Hb. destruct asleep.
  { eexists _, _, _. split; [done|]. split; [|congruence]. split; [done|]. split; [done|]. exists errs.
    unfold running. rewrite Hf2. split; [done|]. congruence. }
  rewrite count_add_le by (rewrite Ha2, Hrun; destruct (retried_length _ Hr); lia). cbn [exec_bind].
  destruct (func _ w2) as [f w3] eqn:Hfn. eexists _, _, _. split; [done|]. split; [|simpl; lia].
  split; [done|]. split; [done|]. exists errs. split; [done|]. unfold running. simpl. simpl in Hfn. split; [lia|].
  exists w2. rewrite Hfn. simpl. reflexivity.
Qed.

Lemma inv_attempt s : inv s → attempt s ≤ S max.
Proof.
  intros (_&_&errs&Hr&Hrun). unfold running in Hrun. destruct (retried_length _ Hr), (fut s); lia.
Qed.

Lemma retry_step_ok s w :
  inv s → ∃ c s' w', poll_step func new_sleep inspect_err retry_if s w = ret (c, s', w') ∧
    match c with Return (Ready r) => outcome r | Return Pending | Continue => inv s' end.
Proof.
  intros Hs. destruct (retry_step_spec s w Hs) as (c&s'&w'&Heq&Hc). exists c, s', w'. split; [done|].
  by destruct c as [[r|]|]; [|destruct Hc..].
Qed.

(** The attempts left. *)
Definition left_over s (n : nat) : Prop := n + attempt s = S max.

Lemma retry_step_decreases s w n c s' w' :
  inv s → left_over s n → poll_step func new_sleep inspect_err retry_if s w = ret (c, s', w') →
  match c with
  | Return (Ready _) => True
  | Return Pending => left_over s' n
  | Continue => ∃ n', n' < n ∧ left_over s' n'
  end.
Proof.
  intros Hs Hn Heq. destruct (retry_step_spec s w Hs) as (c0&s0&w0&Heq0&Hc).
  rewrite Heq in Heq0. simplify_eq. unfold left_over in *. destruct c0 as [[r|]|]; [done|destruct Hc as [_ ->]; done|].
  destruct Hc as [Hs' Ha]. pose proof (inv_attempt s0 Hs'). exists (n - 1). lia.
Qed.

(** C18: a retry with a limit on the attempts and a backoff that does not panic never panics
    nor loops inside a poll: with fuel for one more iteration than the attempts allowed,
    every poll returns.  What it returns is either the value of attempt [k] together with
    [k], every earlier attempt having failed with an error that was retried, or the error of
    the last attempt, all earlier ones having been retried and the last one given up because
    the attempts are used up, the condition said no or the backoff ended. *)
Theorem retry_outcome (s0 : Retry (Fut:=Fut) (Sleep:=Sleep) B) polls fuel w :
  fut s0 = None → attempt s0 = 0 → max_attempts s0 = Some max → backoff_ok (backoff s0) → S max < fuel →
  ∃ p s w', drive (poll_step func new_sleep inspect_err retry_if) polls fuel s0 w = ret (Some (p, s, w')) ∧
    match p with
    | Pending => True
    | Ready (Ok (v, k)) =>
        1 ≤ k ≤ max `max` 1 ∧ yields k (Ok v) ∧
        ∃ errs, length errs = k - 1 ∧ ∀ i e, errs !! i = Some e → yields (S i) (Err e) ∧ goes_on (S i) e
    | Ready (Err e) =>
        ∃ k errs, 1 ≤ k ≤ max `max` 1 ∧ yields k (Err e) ∧ gives_up k e ∧
        length errs = k - 1 ∧ ∀ i e, errs !! i = Some e → yields (S i) (Err e) ∧ goes_on (S i) e
    end.
Proof.
  intros Hf Ha Hm Hb Hfuel.
  assert (inv s0) as Hs0 by (split; [done|]; split; [done|]; exists []; unfold running; rewrite Hf; by split).
  destruct (drive_terminates _ inv outcome retry_step_ok left_over retry_step_decreases polls fuel s0 w (S max) Hs0)
    as (p&s&w'&Heq&Hp); [unfold left_over; lia|done|].
  exists p, s, w'. split; [done|]. destruct p as [r|]; [|done]. destruct Hp as (errs&Hr&Hp).
  pose proof (retried_length _ Hr). destruct r as [[v k]|e].
  - destruct Hp as [-> Hy]. split; [lia|]. split; [done|]. exists errs. split; [lia|done].
  - destruct Hp as [Hy Hg]. exists (S (length errs)), errs. split; [lia|]. split; [done|]. split; [done|]. split; [lia|done].
Qed.
End outcome.
End Retry.

(** * Runs of the model *)

Section runs.
Import Backoffs Retry.
#[local] Existing Instance debug_build.

(** Futures that fail until the third attempt; a timer that is pending once. *)
Definition demo_func (k : nat) (w : unit) : (nat * result Z Z) * unit :=
  ((1, if 3 <=? k then Ok 42%Z else Err (Z.of_nat k)), w).
Definition demo_sleep (d : Duration) (w : unit) : (nat * unit) * unit := ((1, ()), w).
Definition demo_inspect (k : nat) (e : Z) (w : unit) : unit := w.
Definition demo_retry_if (k : nat) (e : Z) (w : unit) : bool * unit := (true, w).
Definition demo_retry : Retry (Fut:=nat * result Z Z) (Sleep:=nat * unit) FixedInterval :=
  set_max_attempts (retry (from_millis 5)) 4.

Example retry_run :
  (λ r, match r with ret (Some (Ready (Ok v), _, _)) => Some v | _ => None end)
    (drive (poll_step demo_func demo_sleep demo_inspect demo_retry_if) 9 6 demo_retry ()) = Some (42%Z, 3).
Proof. vm_compute. reflexivity. Qed.

Lemma retry_outcome_witness :
  ∃ p s w', drive (poll_step demo_func demo_sleep demo_inspect demo_retry_if) 9 6 demo_retry () = ret (Some (p, s, w')) ∧
    match p with
    | Pending => True
    | Ready (Ok (v, k)) =>
        1 ≤ k ≤ 4 `max` 1 ∧ yields demo_func k (Ok v) ∧
        ∃ errs, length errs = k - 1 ∧
          ∀ i e, errs !! i = Some e → yields demo_func (S i) (Err e) ∧ goes_on demo_retry_if 4 (S i) e
    | Ready (Err e) =>
        ∃ k errs, 1 ≤ k ≤ 4 `max` 1 ∧ yields demo_func k (Err e) ∧
          gives_up (B:=FixedInterval) demo_retry_if 4 k e ∧ length errs = k - 1 ∧
          ∀ i e, errs !! i = Some e → yields demo_func (S i) (Err e) ∧ goes_on demo_retry_if 4 (S i) e
    end.
Proof.
  apply (retry_outcome (B:=FixedInterval) demo_func demo_sleep demo_inspect demo_retry_if 4 ltac:(reflexivity) (λ _, True)
    ltac:(intros b w _; eexists _, _, _; split; [reflexivity|done]) demo_retry 9 6 ()); [done..|lia].
Defined.

(** A Fibonacci backoff from ten milliseconds, limited to ten seconds, on a future that always
    fails: the retries end in a panic of the backoff at the attempt 102. *)
Definition fibonacci_run (n : nat) : exec (option nat) :=
  let! r := drive (poll_step (V:=Z) (λ k w, ((0, Err k), w)) (λ d w, ((0, ()), w)) (λ k e w, w) (λ k e w, (true, w)))
    1 200 {| fut := None; sleep := None; attempt := 0; backoff := fibonacci (from_millis 10);
             max_attempts := Some n; max_interval := Some (from_secs 10) |} () in
  ret (match r with Some (Ready (Err e), _, _) => Some e | _ => None end).

Example clamped_fibonacci_panics : fibonacci_run 102 = ret (Some 102) ∧ fibonacci_run 103 = panic.
Proof. vm_compute. by split. Qed.
End runs.
