(* ===== verification/OnceCell.v ===== *)
(** The [async_once_cell] crate (src/shed/async_once_cell/src/lib.rs): a cell that is initialised
    at most once by concurrent tasks.

    Tasks take turns at the level of the atomic actions of the code: a load or store of the
    flag, a write or read of the slot, taking the lock.  A task that waits, for the lock or for
    the future of its closure, can also be dropped.  The memory orderings of the flag are
    taken as sequential consistency; the lock of [tokio] is an exclusive lock. *)
From S2P Require Import Prelude RustStd.

Module OnceCell.
Section cell.
Context `{BM : BuildMode} {T E : Type}.

Record AsyncOnceCell := { mutex : option nat; is_initialized : bool; value : option T }.
Implicit Types (c : AsyncOnceCell).

Definition new : AsyncOnceCell := {| mutex := None; is_initialized := false; value := None |}.
Definition new_with (v : T) : AsyncOnceCell := {| mutex := None; is_initialized := true; value := Some v |}.

Definition get_unchecked c : exec T :=
  let! _ := debug_assert (is_initialized c) in
  expect (value c).

(** ** The calls *)

Inductive op := Set_ (v : T) | GetOrInit | GetOrTryInit | Get.
Inductive answer := Was_set (r : result unit T) | Got (v : T) | Tried (r : result T E) | Read (o : option T).

(** Where a task is in the body of its call; [holds] is having the lock, [won] (not a value of
    the code) is having written the slot. *)
Inductive task :=
| Start (o : op)
| Locking (o : op)
| Checking (o : op)
| Awaiting (o : op)
| Writing (o : op) (v : T)
| Storing (o : op)
| Reading (o : op) (holds won : bool)
| Finished (o : op) (a : answer) (won : bool)
| Dropped.
Implicit Types (t : task).

Definition lock (i : nat) c : AsyncOnceCell := {| mutex := Some i; is_initialized := is_initialized c; value := value c |}.
Definition unlock c : AsyncOnceCell := {| mutex := None; is_initialized := is_initialized c; value := value c |}.
Definition write (v : T) c : AsyncOnceCell := {| mutex := mutex c; is_initialized := is_initialized c; value := Some v |}.
Definition store c : AsyncOnceCell := {| mutex := mutex c; is_initialized := true; value := value c |}.

(** What a call returns once the cell has the value [v]. *)
Definition answer_of (o : op) (v : T) : answer :=
  match o with Set_ v' => Was_set (Err v') | GetOrInit => Got v | GetOrTryInit => Tried (Ok v) | Get => Read (Some v) end.

(** One action of task [i]; [out] is what the future of its closure gives, when asked.  [None]
    when the task cannot move. *)
Definition task_step (i : nat) (out : option (result T E)) c t : exec (option (AsyncOnceCell * task)) :=
  match t with
  | Start Get => ret (Some (c, if is_initialized c then Reading Get false false else Finished Get (Read None) false))
  | Start (Set_ v) =>
      ret (Some (c, if is_initialized c then Finished (Set_ v) (Was_set (Err v)) false else Locking (Set_ v)))
  | Start o => ret (Some (c, if is_initialized c then Reading o false false else Locking o))
  | Locking o => ret (match mutex c with None => Some (lock i c, Checking o) | Some _ => None end)
  | Checking (Set_ v) =>
      ret (Some (if is_initialized c then (unlock c, Finished (Set_ v) (Was_set (Err v)) false) else (c, Writing (Set_ v) v)))
  | Checking o => ret (Some (c, if is_initialized c then Reading o true false else Awaiting o))
  | Awaiting o =>
      match out, o with
      | Some (Ok v), _ => ret (Some (c, Writing o v))
      | Some (Err e), GetOrTryInit => ret (Some (unlock c, Finished o (Tried (Err e)) false))
      | _, _ => ret None
      end
  | Writing o v =>
      let! _ := debug_assert (is_none (value c)) in
      ret (Some (write v c, Storing o))
  | Storing (Set_ v) => ret (Some (unlock (store c), Finished (Set_ v) (Was_set (Ok ())) true))
  | Storing o => ret (Some (store c, Reading o true true))
  | Reading o holds won =>
      let! v := get_unchecked c in
      ret (Some (if holds then unlock c else c, Finished o (answer_of o v) won))
  | Finished _ _ _ | Dropped => ret None
  end.

(** Dropping a task that has not started or that waits; a guard it holds is released. *)
Definition task_drop c t : option (AsyncOnceCell * task) :=
  match t with
  | Start _ | Locking _ => Some (c, Dropped)
  | Awaiting _ => Some (unlock c, Dropped)
  | _ => None
  end.

(** ** The program: a cell shared by tasks *)

Record state := { cell : AsyncOnceCell; tasks : list task }.
Implicit Types (s : state).

Definition start (c : AsyncOnceCell) (ops : list op) : state := {| cell := c; tasks := Start <$> ops |}.

(** Task [i] moves; a drop, a step, or nothing. *)
Definition run_task (i : nat) (out : option (result T E)) s : exec (option state) :=
  match tasks s !! i with
  | None => ret None
  | Some t =>
      let! r := task_step i out (cell s) t in
      ret (match r with None => None | Some (c, t) => Some {| cell := c; tasks := <[i := t]> (tasks s) |} end)
  end.
Definition drop_task (i : nat) s : option state :=
  t ← tasks s !! i;
  '(c, t) ← task_drop (cell s) t;
  Some {| cell := c; tasks := <[i := t]> (tasks s) |}.

Inductive step s : state → Prop :=
| step_run i out s' : run_task i out s = ret (Some s') → step s s'
| step_drop i s' : drop_task i s = Some s' → step s s'.

(** A schedule, to run the model: who moves and what its closure gives. *)
Fixpoint run_all (moves : list (nat * option (result T E))) s : exec state :=
  match moves with
  | [] => ret s
  | (i, out) :: moves => let! r := run_task i out s in run_all moves (default s r)
  end.

(** ** The invariant *)

Definition holds_lock t : bool :=
  match t with Checking _ | Awaiting _ | Writing _ _ | Storing _ => true | Reading _ holds _ => holds | _ => false end.
Definition has_won t : bool :=
  match t with Storing _ => true | Reading _ _ won | Finished _ _ won => won | _ => false end.

(** What each task knows of the cell. *)
Definition task_ok c t : Prop :=
  match t with
  | Awaiting o => is_initialized c = false ∧ value c = None ∧ (∀ v, o ≠ Set_ v) ∧ o ≠ Get
  | Writing o v => is_initialized c = false ∧ value c = None ∧ o ≠ Get ∧ (∀ v', o = Set_ v' → v' = v)
  | Storing o => is_initialized c = false ∧ is_Some (value c) ∧ o ≠ Get ∧ (∀ v, o = Set_ v → value c = Some v)
  | Reading o holds won => is_initialized c = true ∧ (∀ v, o ≠ Set_ v) ∧ (won = true → holds = true)
  | Locking o | Checking o => o ≠ Get
  | Start _ | Dropped => True
  | Finished o a won =>
      match a with
      | Was_set (Ok _) => is_initialized c = true ∧ won = true ∧ ∃ v, o = Set_ v ∧ value c = Some v
      | Was_set (Err v) => is_initialized c = true ∧ won = false ∧ o = Set_ v
      | Got v | Tried (Ok v) | Read (Some v) => is_initialized c = true ∧ value c = Some v ∧ (∀ v, o ≠ Set_ v)
      | Tried (Err _) | Read None => won = false ∧ (∀ v, o ≠ Set_ v)
      end
  end.

Record inv (fresh : bool) s : Prop := {
  inv_mutex i t : tasks s !! i = Some t → holds_lock t = true ↔ mutex (cell s) = Some i;
  inv_owner i : mutex (cell s) = Some i → i < length (tasks s);
  inv_tasks i t : tasks s !! i = Some t → task_ok (cell s) t;
  inv_value : is_initialized (cell s) = true → is_Some (value (cell s));
  inv_half : is_initialized (cell s) = false → is_Some (value (cell s)) → ∃ i o, tasks s !! i = Some (Storing o);
  inv_once i j t t' : tasks s !! i = Some t → tasks s !! j = Some t' → has_won t = true → has_won t' = true → i = j;
  inv_winner i t : tasks s !! i = Some t → has_won t = true → fresh = true ∧ is_Some (value (cell s));
  inv_given : fresh = false → is_Some (value (cell s));
  inv_written : fresh = true → is_Some (value (cell s)) → ∃ i t, tasks s !! i = Some t ∧ has_won t = true;
}.

(** The effect of a move on the lock: a task takes it when it is free, or releases its own. *)
Definition lock_moves (i : nat) c c' t t' : Prop :=
  (holds_lock t = holds_lock t' ∧ mutex c' = mutex c) ∨
  (holds_lock t = false ∧ mutex c = None ∧ holds_lock t' = true ∧ mutex c' = Some i) ∨
  (holds_lock t = true ∧ holds_lock t' = false ∧ mutex c' = None).

(** The effect on the value: none, or the one write, or the store of the flag after it. *)
Definition value_moves c c' t t' : Prop :=
  (is_initialized c' = is_initialized c ∧ value c' = value c ∧ has_won t' = has_won t ∧
    ((∃ o, t = Storing o) ↔ (∃ o, t' = Storing o))) ∨
  (is_initialized c = false ∧ is_initialized c' = false ∧ value c = None ∧ is_Some (value c') ∧
    holds_lock t = true ∧ ∃ o, t' = Storing o) ∨
  (is_initialized c = false ∧ is_initialized c' = true ∧ value c' = value c ∧ is_Some (value c) ∧
    has_won t' = true ∧ ∃ o, t = Storing o).

Lemma task_ok_other c c' t t' t0 :
  value_moves c c' t t' → (holds_lock t = true → holds_lock t0 = false) → task_ok c t0 → task_ok c' t0.
Proof.
  intros [(Hi&Hv&_)|[(Hi&Hi'&Hv&Hv'&Hh&_)|(Hi&Hi'&Hv&Hv'&_&o&->)]] Hn.
  - destruct t0 as [| | | | | | |? [[]| |[]|[]] ?|]; simpl; rewrite ?Hi, ?Hv; done.
  - specialize (Hn Hh). destruct t0 as [| | | | | |? [] ?|? [[]| |[]|[]] ?|]; simpl in *; try done; intros; destruct_and?; congruence.
  - specialize (Hn eq_refl). destruct t0 as [| | | | | |? [] ?|? [[]| |[]|[]] ?|]; simpl in *; try done; intros; destruct_and?; congruence.
Qed.

Section move.
Context (fresh : bool) s (i : nat) (c' : AsyncOnceCell) t t'.
Context (Hinv : inv fresh s) (Ht : tasks s !! i = Some t).
Context (Hlock : lock_moves i (cell s) c' t t') (Hval : value_moves (cell s) c' t t') (Hok : task_ok c' t').

Definition moved : state := {| cell := c'; tasks := <[i := t']> (tasks s) |}.

Lemma moved_lookup j t0 : tasks moved !! j = Some t0 → (j = i ∧ t0 = t') ∨ (j ≠ i ∧ tasks s !! j = Some t0).
Proof. simpl. intros [(->&->&_)|[Hn H]]%list_lookup_insert_Some; [by left|by right]. Qed.

Lemma moved_self : tasks moved !! i = Some t'.
Proof. simpl. apply list_lookup_insert_eq. by eapply lookup_lt_Some. Qed.

Lemma other_free j t0 : j ≠ i → tasks s !! j = Some t0 → holds_lock t = true → holds_lock t0 = false.
Proof.
  intros Hj H0 Hh. destruct (holds_lock t0) eqn:H0h; [|done].
  apply (inv_mutex _ _ Hinv _ _ Ht) in Hh. apply (inv_mutex _ _ Hinv _ _ H0) in H0h. congruence.
Qed.

Lemma moved_mutex j t0 : tasks moved !! j = Some t0 → holds_lock t0 = true ↔ mutex c' = Some j.
Proof.
  pose proof (inv_mutex _ _ Hinv _ _ Ht) as Hi.
  intros [[-> ->]|[Hj H0]]%moved_lookup.
  - destruct Hlock as [[<- ->]|[(_&_&->&->)|(_&->&->)]]; [done|done|by split].
  - pose proof (inv_mutex _ _ Hinv _ _ H0) as Hm.
    destruct Hlock as [[_ ->]|[(_&Hn&_&->)|(Hh&_&->)]]; [done| |].
    + rewrite Hm, Hn. split; [done|congruence].
    + rewrite Hm. apply Hi in Hh. rewrite Hh. split; [congruence|done].
Qed.

Lemma moved_once j k t1 t2 :
  tasks moved !! j = Some t1 → tasks moved !! k = Some t2 → has_won t1 = true → has_won t2 = true → j = k.
Proof.
  assert (∀ j t0, j ≠ i → tasks s !! j = Some t0 → has_won t0 = true → has_won t' = true → False) as Hne.
  { intros j0 t0 Hj H0 Hw Hw'. destruct Hval as [(_&_&Hww&_)|[(_&_&Hv&_)|(Hi&_&_&_&_&o&->)]].
    - apply Hj. apply (inv_once _ _ Hinv _ _ _ _ H0 Ht); [done|congruence].
    - destruct (inv_winner _ _ Hinv _ _ H0 Hw) as [_ []]. congruence.
    - apply Hj. by apply (inv_once _ _ Hinv _ _ _ _ H0 Ht). }
  intros [[-> ->]|[Hj H1]]%moved_lookup [[-> ->]|[Hk H2]]%moved_lookup Hw1 Hw2;
    [done|exfalso; eauto|exfalso; eauto|by eapply (inv_once _ _ Hinv)].
Qed.

Lemma move_ok : inv fresh moved.
Proof.
  pose proof moved_self as Hself. split.
  - apply moved_mutex.
  - intros j Hm. simpl in *. rewrite length_insert. pose proof (lookup_lt_Some _ _ _ Ht).
    destruct Hlock as [[_ Hc]|[(_&_&_&Hc)|(_&_&Hc)]]; [|congruence|congruence].
    apply (inv_owner _ _ Hinv). congruence.
  - intros j t0 [[-> ->]|[Hj H0]]%moved_lookup; [done|]. simpl.
    eapply task_ok_other; [done|by eapply other_free|by eapply (inv_tasks _ _ Hinv)].
  - simpl. intros Hi. destruct Hval as [(Hi'&->&_)|[(_&Hi'&_)|(_&_&->&?&_)]]; [|congruence|done].
    apply (inv_value _ _ Hinv). congruence.
  - simpl. intros Hi Hv. destruct Hval as [(Hi'&Hv'&_&Hst)|[(_&_&_&_&_&o&Ho)|(_&Hi'&_)]]; [| |congruence].
    + destruct (inv_half _ _ Hinv) as (j&o&Hj); [congruence|by rewrite <-Hv'|].
      destruct (decide (j = i)) as [->|Hn].
      * destruct (proj1 Hst) as [o' Ho']; [exists o; congruence|]. exists i, o'. by rewrite <-Ho'.
      * exists j, o. by rewrite list_lookup_insert_ne.
    + exists i, o. by rewrite <-Ho.
  - apply moved_once.
  - intros j t0 Hj Hw. apply moved_lookup in Hj. simpl.
    destruct Hj as [[-> ->]|[Hj H0]].
    + destruct Hval as [(_&->&Hww&_)|[(_&_&Hv&?&_)|(_&_&->&?&_&o&->)]].
      * apply (inv_winner _ _ Hinv _ _ Ht). congruence.
      * split; [|done]. destruct fresh eqn:Hf; [done|]. destruct (inv_given _ _ Hinv) as [? ?]; [done|]. congruence.
      * split; [|done]. by apply (inv_winner _ _ Hinv _ _ Ht).
    + destruct (inv_winner _ _ Hinv _ _ H0 Hw) as [Hf Hv]. split; [done|].
      destruct Hval as [(_&->&_)|[(_&_&_&?&_)|(_&_&->&_)]]; done.
  - simpl. intros Hf. pose proof (inv_given _ _ Hinv Hf). destruct Hval as [(_&->&_)|[(_&_&_&?&_)|(_&_&->&_)]]; done.
  - simpl. intros Hf Hv. destruct Hval as [(_&Hv'&Hww&_)|[(_&_&_&_&_&o&Ho)|(_&_&_&_&Hw&_)]].
    + destruct (inv_written _ _ Hinv Hf) as (j&t0&Hj&Hw); [by rewrite <-Hv'|].
      destruct (decide (j = i)) as [->|Hn]; [exists i, t'; split; [done|congruence]|].
      exists j, t0. by rewrite list_lookup_insert_ne.
    + exists i, t'. split; [done|by rewrite Ho].
    + exists i, t'. split; [done|done].
Qed.
End move.

(** A move that touches neither the flag nor the slot, of a task that does not store. *)
Lemma value_stays c c' t t' :
  is_initialized c' = is_initialized c → value c' = value c → has_won t' = has_won t →
  (∀ o, t ≠ Storing o) → (∀ o, t' ≠ Storing o) → value_moves c c' t t'.
Proof. intros Hi Hv Hw Ht Ht'. left. split; [done|]. split; [done|]. split; [done|]. naive_solver. Qed.

(** A task with the lock that is not between its write and its store sees an empty slot. *)
Lemma holder_empty fresh s i t :
  inv fresh s → tasks s !! i = Some t → holds_lock t = true → (∀ o, t ≠ Storing o) →
  is_initialized (cell s) = false → value (cell s) = None.
Proof.
  intros Hinv Ht Hh Hn Hi. apply eq_None_not_Some. intros Hv.
  destruct (inv_half _ _ Hinv Hi Hv) as (j&o&Hj).
  apply (inv_mutex _ _ Hinv _ _ Ht) in Hh. assert (holds_lock (Storing o) = true) as Hh' by done.
  apply (inv_mutex _ _ Hinv _ _ Hj) in Hh'. apply (Hn o). congruence.
Qed.

Definition move_fits i c t (r : option (AsyncOnceCell * task)) : Prop :=
  match r with
  | None => True
  | Some (c', t') => lock_moves i c c' t t' ∧ value_moves c c' t t' ∧ task_ok c' t'
  end.

Lemma cell_start_ok i out c o : ∃ r, task_step i out c (Start o) = ret r ∧ move_fits i c (Start o) r.
Proof.
  destruct o; (eexists; split; [done|]); destruct (is_initialized c) eqn:Hi; simpl;
    (split; [by left|split; [by apply value_stays|simpl]]); done.
Qed.

Lemma checking_ok i out c o :
  task_ok c (Checking o) → (is_initialized c = false → value c = None) →
  ∃ r, task_step i out c (Checking o) = ret r ∧ move_fits i c (Checking o) r.
Proof.
  intros Hok Hn. destruct o; simpl in Hok; [| | |done]; (eexists; split; [done|]);
    destruct (is_initialized c) eqn:Hi; simpl;
    (split; [by (left + (right; right))|split; [by apply value_stays|simpl]]);
    repeat split; auto; congruence.
Qed.

Lemma awaiting_ok i out c o :
  task_ok c (Awaiting o) → ∃ r, task_step i out c (Awaiting o) = ret r ∧ move_fits i c (Awaiting o) r.
Proof.
  intros (Hi&Hv&Hs&Hg). simpl. destruct out as [[v|e]|]; [| |by exists None].
  - eexists. split; [done|]. split; [by left|]. split; [by apply value_stays|]. simpl.
    split; [done|]. split; [done|]. split; [done|]. intros v' ->. by destruct (Hs v').
  - destruct o; [by exists None..| |by exists None]. eexists. split; [done|]. split; [by right; right|].
    split; [by apply value_stays|]. done.
Qed.

Lemma writing_ok i out c o v :
  task_ok c (Writing o v) → ∃ r, task_step i out c (Writing o v) = ret r ∧ move_fits i c (Writing o v) r.
Proof.
  intros (Hi&Hv&Hg&Hs). simpl. rewrite Hv. simpl. rewrite debug_assert_true. simpl. eexists. split; [done|].
  split; [by left|]. split; [right; left; repeat split; eauto|]. simpl. split; [done|]. split; [by eexists|].
  split; [done|]. intros v' Ho. by rewrite (Hs v' Ho).
Qed.

Lemma storing_ok i out c o :
  task_ok c (Storing o) → ∃ r, task_step i out c (Storing o) = ret r ∧ move_fits i c (Storing o) r.
Proof.
  intros (Hi&Hv&Hg&Hs). destruct o as [v| | |]; [| | |done]; (eexists; split; [done|]); simpl;
    (split; [by (left + (right; right))|split; [right; right; repeat split; eauto|simpl]]); repeat split; auto.
  exists v. split; [done|]. auto.
Qed.

Lemma reading_ok i out c o h won :
  task_ok c (Reading o h won) → is_Some (value c) →
  ∃ r, task_step i out c (Reading o h won) = ret r ∧ move_fits i c (Reading o h won) r.
Proof.
  intros (Hi&Hs&Hw) [v Hv]. simpl. unfold get_unchecked. rewrite Hi, debug_assert_true, Hv. simpl.
  eexists. split; [done|]. split; [destruct h; [by right; right|by left]|].
  split; [by destruct h; apply value_stays|]. destruct o as [v'| | |]; simpl; [by destruct (Hs v')|..]; by destruct h.
Qed.

Lemma task_step_ok fresh s i t out :
  inv fresh s → tasks s !! i = Some t → ∃ r, task_step i out (cell s) t = ret r ∧ move_fits i (cell s) t r.
Proof.
  intros Hinv Ht. pose proof (inv_tasks _ _ Hinv _ _ Ht) as Hok.
  destruct t as [o|o|o|o|o v|o|o h won|o a won|].
  - apply cell_start_ok.
  - eexists. split; [done|]. destruct (mutex (cell s)) eqn:Hm; [done|].
    split; [by right; left|]. split; [by apply value_stays|done].
  - apply checking_ok; [done|]. by eapply (holder_empty _ _ _ _ Hinv Ht).
  - by apply awaiting_ok.
  - by apply writing_ok.
  - by apply storing_ok.
  - apply reading_ok; [done|]. apply (inv_value _ _ Hinv). by destruct Hok.
  - by exists None.
  - by exists None.
Qed.

Lemma task_drop_ok i c t c' t' :
  task_drop c t = Some (c', t') → lock_moves i c c' t t' ∧ value_moves c c' t t' ∧ task_ok c' t'.
Proof.
  destruct t as [o|o|o|o|o v|o|o h won|o a won|]; simpl; intros [= <- <-];
    (split; [by (left + (right; right))|split; [by apply value_stays|done]]).
Qed.

Lemma step_inv fresh s s' : inv fresh s → step s s' → inv fresh s'.
Proof.
  intros Hinv [i out s1 Hr|i s1 Hd].
  - unfold run_task in Hr. destruct (tasks s !! i) as [t|] eqn:Ht; [|done].
    destruct (task_step_ok _ _ _ _ out Hinv Ht) as (r&Hs&Hok). rewrite Hs in Hr. simpl in Hr.
    destruct r as [[c' t']|]; [|done]. simplify_eq. destruct Hok as (?&?&?). by eapply move_ok.
  - unfold drop_task in Hd. destruct (tasks s !! i) as [t|] eqn:Ht; [|done]. simpl in Hd.
    destruct (task_drop (cell s) t) as [[c' t']|] eqn:Hdr; [|done]. simplify_eq/=.
    destruct (task_drop_ok i _ _ _ _ Hdr) as (?&?&?). by eapply move_ok.
Qed.

Lemma start_inv (given : option T) ops :
  inv (is_none given) (start (match given with None => new | Some v => new_with v end) ops).
Proof.
  assert (∀ i t, (Start <$> ops) !! i = Some t → ∃ o, t = Start o) as Hst.
  { intros i t Hi. apply list_lookup_fmap_Some in Hi as (o&->&_). by exists o. }
  destruct given as [v|]; (split; simpl; try done); try (intros i t Ht; destruct (Hst i t Ht) as [o ->]; done);
    try (by intros i j t t' Ht Ht'; destruct (Hst i t Ht) as [o ->]); try (by intros ? []); try (by eexists).
  all: by intros i t Ht; destruct (Hst i t Ht) as [o ->].
Qed.

(** ** What every schedule keeps *)

Definition initial (given : option T) : AsyncOnceCell := match given with None => new | Some v => new_with v end.

Definition reachable (given : option T) (ops : list op) s : Prop := rtc step (start (initial given) ops) s.

Lemma reachable_inv given ops s : reachable given ops s → inv (is_none given) s.
Proof.
  intros Hr. assert (inv (is_none given) (start (initial given) ops)) as H0 by apply start_inv.
  revert H0. induction Hr as [s|s1 s2 s3 H12 _ IH]; [done|]. intros H1. by eapply IH, step_inv.
Qed.

Lemma step_value fresh s s' v : inv fresh s → step s s' → value (cell s) = Some v → value (cell s') = Some v.
Proof.
  intros Hinv Hs Hv. assert (∀ c' t t', value_moves (cell s) c' t t' → value c' = Some v) as Hm.
  { intros c' t t' [(_&->&_)|[(_&_&Hn&_)|(_&_&->&_)]]; [done|congruence|done]. }
  destruct Hs as [i out s1 Hr|i s1 Hd].
  - unfold run_task in Hr. destruct (tasks s !! i) as [t|] eqn:Ht; [|done].
    destruct (task_step_ok _ _ _ _ out Hinv Ht) as (r&Hs&Hok). rewrite Hs in Hr. simpl in Hr.
    destruct r as [[c' t']|]; [|done]. simplify_eq. destruct Hok as (_&Hval&_). by eapply Hm.
  - unfold drop_task in Hd. destruct (tasks s !! i) as [t|] eqn:Ht; [|done]. simpl in Hd.
    destruct (task_drop (cell s) t) as [[c' t']|] eqn:Hdr; [|done]. simplify_eq/=.
    destruct (task_drop_ok i _ _ _ _ Hdr) as (_&Hval&_). by eapply Hm.
Qed.

(** What a finished call says about the cell. *)
Definition truthful (given : option T) c (o : op) (a : answer) : Prop :=
  match o, a with
  | Set_ v, Was_set (Ok _) => given = None ∧ value c = Some v
  | Set_ v, Was_set (Err v') => v' = v ∧ is_Some (value c)
  | GetOrInit, Got v | GetOrTryInit, Tried (Ok v) | Get, Read (Some v) => value c = Some v
  | GetOrTryInit, Tried (Err _) | Get, Read None => True
  | _, _ => False
  end.

(** The answer is one the call can give. *)
Definition answers (o : op) (a : answer) : Prop :=
  match o, a with
  | Set_ _, Was_set _ | GetOrInit, Got _ | GetOrTryInit, Tried _ | Get, Read _ => True
  | _, _ => False
  end.

Definition well_typed t : Prop := match t with Finished o a _ => answers o a | Awaiting o => ∀ v, o ≠ Set_ v | _ => True end.

Lemma task_step_typed i out c t c' t' : task_step i out c t = ret (Some (c', t')) → well_typed t → well_typed t'.
Proof.
  destruct t as [o|o|o|o|o v|o|o h won|o a won|]; simpl; intros Hs Hw.
  1,3: by destruct o, (is_initialized c); simplify_eq.
  - destruct (mutex c); by simplify_eq.
  - destruct out as [[v|e]|], o; by simplify_eq.
  - destruct (debug_assert _); by simplify_eq/=.
  - destruct o; by simplify_eq.
  - destruct (get_unchecked c); simplify_eq/=. by destruct o.
  - done.
  - done.
Qed.

Lemma step_typed s s' : step s s' → Forall well_typed (tasks s) → Forall well_typed (tasks s').
Proof.
  intros [i out s1 Hr|i s1 Hd] Hw.
  - unfold run_task in Hr. destruct (tasks s !! i) as [t|] eqn:Ht; [|done].
    destruct (task_step i out (cell s) t) as [[[c' t']|]|] eqn:Hs; simplify_eq/=.
    apply Forall_insert; [done|]. eapply task_step_typed; [done|]. by eapply Forall_lookup_1.
  - unfold drop_task in Hd. destruct (tasks s !! i) as [t|] eqn:Ht; [|done]. simpl in Hd.
    destruct (task_drop (cell s) t) as [[c' t']|] eqn:Hs; simplify_eq/=.
    apply Forall_insert; [done|]. by destruct t; simplify_eq/=.
Qed.

Lemma reachable_typed given ops s : reachable given ops s → Forall well_typed (tasks s).
Proof.
  intros Hr. assert (Forall well_typed (tasks (start (initial given) ops))) as H0.
  { apply Forall_fmap, Forall_true. done. }
  revert H0. induction Hr as [s|s1 s2 s3 H12 _ IH]; [done|]. intros H1. by eapply IH, step_typed.
Qed.

Lemma finished_truthful given ops s i o a won :
  reachable given ops s → tasks s !! i = Some (Finished o a won) → truthful given (cell s) o a.
Proof.
  intros Hr Ht. pose proof (reachable_inv _ _ _ Hr) as Hinv. pose proof (inv_tasks _ _ Hinv _ _ Ht) as Hok.
  pose proof (inv_winner _ _ Hinv _ _ Ht) as Hwin. pose proof (inv_value _ _ Hinv) as Hval.
  pose proof (Forall_lookup_1 _ _ _ _ (reachable_typed _ _ _ Hr) Ht) as Hty. simpl in *.
  destruct o as [v| | |], a as [[[]|v']|v'|[v'|e]|[v'|]]; try done; simpl in *.
  - destruct Hok as (_&->&v'&[= <-]&?). destruct Hwin as [Hg _]; [done|]. by destruct given.
  - destruct Hok as (Hi&_&[= <-]). auto.
  - by destruct Hok as (_&?&_).
  - by destruct Hok as (_&?&_).
  - by destruct Hok as (_&?&_).
Qed.

(** C19: under every interleaving of the calls of any number of tasks, some of them dropped while
    they wait: no assertion fails and no [expect] panics; at most one task is past the lock;
    the value never changes once it is there and at most one task has written it; every call
    that finished answers truthfully: [get], [get_or_init] and [get_or_try_init] return the
    value of the cell, a successful [set] its own value, which is then that of the cell, and
    a failed [set] gives its value back and the cell has one. *)
Theorem once_cell_safe (given : option T) (ops : list op) s :
  reachable given ops s →
  (∀ i out, ∃ r, run_task i out s = ret r) ∧
  (∀ i j t t', tasks s !! i = Some t → tasks s !! j = Some t' → holds_lock t = true → holds_lock t' = true → i = j) ∧
  (∀ i j t t', tasks s !! i = Some t → tasks s !! j = Some t' → has_won t = true → has_won t' = true → i = j) ∧
  (∀ i o a won, tasks s !! i = Some (Finished o a won) → truthful given (cell s) o a) ∧
  (∀ s' v, rtc step s s' → value (cell s) = Some v → value (cell s') = Some v).
Proof.
  intros Hr. pose proof (reachable_inv _ _ _ Hr) as Hinv. split; [|split; [|split; [|split]]].
  - intros i out. unfold run_task. destruct (tasks s !! i) as [t|] eqn:Ht; [|by eexists].
    destruct (task_step_ok _ _ _ _ out Hinv Ht) as (r&->&_). by eexists.
  - intros i j t t' Ht Ht' Hh Hh'. apply (inv_mutex _ _ Hinv _ _ Ht) in Hh. apply (inv_mutex _ _ Hinv _ _ Ht') in Hh'.
    congruence.
  - apply (inv_once _ _ Hinv).
  - intros i o a won. by eapply finished_truthful.
  - intros s' v Hs. clear Hr. induction Hs as [s|s1 s2 s3 H12 _ IH]; [done|]. intros Hv.
    apply IH; [by eapply step_inv|by eapply step_value].
Qed.

(** C20: no interleaving deadlocks: as long as a call has neither finished nor been dropped,
    some task can move, given that the futures of the closures resolve; a waiting call is
    only ever behind a task that holds the lock and can move. *)
Theorem once_cell_progress (given : option T) (ops : list op) s (v0 : T) i t :
  reachable given ops s → tasks s !! i = Some t → (∀ o a won, t ≠ Finished o a won) → t ≠ Dropped →
  ∃ j s', run_task j (Some (Ok v0)) s = ret (Some s') ∧ (j = i ∨ mutex (cell s) = Some j).
Proof.
  intros Hr Ht Hf Hd. pose proof (reachable_inv _ _ _ Hr) as Hinv.
  assert (∀ j t0, tasks s !! j = Some t0 → (∀ o, t0 ≠ Locking o ∨ mutex (cell s) = None) →
    (∀ o a won, t0 ≠ Finished o a won) → t0 ≠ Dropped → ∃ s', run_task j (Some (Ok v0)) s = ret (Some s')) as Hmove.
  { intros j t0 Hj Hl Hf' Hd'. unfold run_task. rewrite Hj.
    destruct (task_step_ok _ _ _ _ (Some (Ok v0)) Hinv Hj) as (r&Hs&_). rewrite Hs. simpl.
    destruct r as [[c' t']|]; [by eexists|]. exfalso.
    destruct t0 as [o|o|o|o|o v|o|o h w|o a w|]; simpl in Hs; try done; try (by destruct o; simplify_eq).
    - destruct (Hl o) as [?|Hm]; [done|]. by rewrite Hm in Hs.
    - by destruct (debug_assert _); simplify_eq/=.
    - by destruct (get_unchecked _); simplify_eq/=.
    - by destruct (Hf' o a w). }
  destruct (mutex (cell s)) as [j|] eqn:Hm.
  - destruct (lookup_lt_is_Some_2 (tasks s) j (inv_owner _ _ Hinv j Hm)) as [t0 Hj].
    pose proof (proj2 (inv_mutex _ _ Hinv _ _ Hj) Hm) as Hh.
    destruct (Hmove j t0 Hj) as [s' Hs]; [by left; intros ->|by intros ??? ->|by intros ->|].
    exists j, s'. split; [done|by right].
  - destruct (Hmove i t Ht) as [s' Hs]; [by right|done|done|]. exists i, s'. split; [done|by left].
Qed.
End cell.

(** ** A run *)

Section witnesses.
#[local] Existing Instance debug_build.

(** A [get_or_try_init] whose closure fails, then a [set] against a [get_or_init]. *)
Definition demo_ops : list (op (T:=nat)) := [GetOrTryInit; GetOrInit; Set_ 7; Get].
Definition demo_moves : list (nat * option (result nat nat)) :=
  [(0, None); (0, None); (1, None); (0, None); (1, None); (0, Some (Err 5)); (2, None); (1, None); (1, None);
   (2, None); (1, Some (Ok 3)); (1, None); (3, None); (1, None); (1, None); (2, None); (2, None)].

Lemma run_all_steps moves s s' : run_all moves s = ret s' → rtc (step (T:=nat) (E:=nat)) s s'.
Proof.
  revert s. induction moves as [|[i out] moves IH]; intros s Hr; simpl in Hr; [by simplify_eq|].
  destruct (run_task i out s) as [[s1|]|] eqn:Hs; [|by apply IH|done].
  eapply rtc_l; [by eapply step_run|]. by apply IH.
Qed.

Definition demo_end : state (T:=nat) (E:=nat) :=
  {| cell := {| mutex := None; is_initialized := true; value := Some 3 |};
     tasks := [Finished GetOrTryInit (Tried (Err 5)) false; Finished GetOrInit (Got 3) true;
               Finished (Set_ 7) (Was_set (Err 7)) false; Finished Get (Read None) false] |}.

Lemma demo_reachable : reachable None demo_ops demo_end.
Proof. apply (run_all_steps demo_moves). vm_compute. reflexivity. Qed.

Lemma once_cell_safe_witness :
  truthful (E:=nat) None (cell demo_end) GetOrInit (Got 3) ∧ truthful (E:=nat) None (cell demo_end) (Set_ 7) (Was_set (Err 7)).
Proof.
  destruct (once_cell_safe None demo_ops demo_end demo_reachable) as (_&_&_&H&_). split.
  - exact (H 1 _ _ _ eq_refl).
  - exact (H 2 _ _ _ eq_refl).
Defined.

(** The state where task 0 waits for its closure and task 1 for the lock. *)
Definition demo_wait : state (T:=nat) (E:=nat) :=
  {| cell := {| mutex := Some 0; is_initialized := false; value := None |};
     tasks := [Awaiting GetOrTryInit; Locking GetOrInit; Start (Set_ 7); Start Get] |}.

Lemma once_cell_progress_witness :
  ∃ j s', run_task j (Some (Ok 3)) demo_wait = ret (Some s') ∧ (j = 1 ∨ mutex (cell demo_wait) = Some j).
Proof.
  apply (once_cell_progress None demo_ops demo_wait 3 1 (Locking GetOrInit)); [|done..].
  apply (run_all_steps (take 4 demo_moves)). vm_compute. reflexivity.
Defined.
End witnesses.
End OnceCell.
