(* ===== verification/HashMemo.v ===== *)
(** The [hash_memo] crate (src/shed/hash_memo/src/lib.rs): values that remember their hash, and
    a hasher that takes a remembered hash for its result.  The protocol between the two, all
    that [Hasher] allows, is a call of [finish] before anything was written.

    The flags of [MemoHasher] are atomics behind a shared reference; a hasher is used by one
    task at a time and the model passes its state along. *)
From S2P Require Import Prelude RustStd.

(** * [std::hash] *)

(** The [write*] methods of [Hasher]; integers are the values written. *)
Inductive put :=
| write (bytes : list Z)
| write_u8 (i : Z) | write_u16 (i : Z) | write_u32 (i : Z) | write_u64 (i : Z) | write_u128 (i : Z) | write_usize (i : Z)
| write_i8 (i : Z) | write_i16 (i : Z) | write_i32 (i : Z) | write_i64 (i : Z) | write_i128 (i : Z) | write_isize (i : Z).

Class Hasher (H : Type) := { finish : H → Z * H; feed : put → H → H }.

(** Hashing a value feeds any hasher. *)
Class Hash (T : Type) := hash : ∀ {H : Type} {HH : Hasher H}, T → H → T * H.

Class BuildHasher (I H : Type) {HH : Hasher H} := build_hasher : I → H.

(** [BuildHasher::hash_one]; the value comes back, a lazy memo in it may have been filled. *)
Definition hash_one {I H T} {HH : Hasher H} {BH : BuildHasher I H} {HT : Hash T} (factory : I) (value : T) : Z * T :=
  let '(value, hasher) := hash value (build_hasher factory) in ((finish hasher).1, value).

(** A plain value: what it feeds depends on the value only. *)
Class Plain (T : Type) := puts : T → list put.
#[export] Instance plain_hash `{PT : Plain T} : Hash T := λ H _ value state, (value, foldl (λ s p, feed p s) state (puts value)).

Module HashMemo.
Section memo.
Context {H I : Type} {HH : Hasher H} {BH : BuildHasher I H}.

(** ** [MemoHasher] *)

Record MemoHasher := { inner_hasher : H; finish_memo : option Z; needs_finish : bool; accept_memo : bool }.
Implicit Types (m : MemoHasher).

Definition new (inner : H) : MemoHasher :=
  {| inner_hasher := inner; finish_memo := None; needs_finish := false; accept_memo := false |}.

Definition memo_finish m : Z * MemoHasher :=
  let '(v, inner, accept) :=
    match finish_memo m with
    | Some v => (v, inner_hasher m, accept_memo m)
    | None =>
        if needs_finish m then let '(v, inner) := finish (inner_hasher m) in (v, inner, accept_memo m)
        else (0%Z, inner_hasher m, true)
    end in
  (v, {| inner_hasher := inner; finish_memo := finish_memo m; needs_finish := false; accept_memo := accept |}).

Definition memo_feed (p : put) m : MemoHasher :=
  match p with
  | write_u64 v =>
      if accept_memo m then
        {| inner_hasher := inner_hasher m; finish_memo := Some v; needs_finish := needs_finish m; accept_memo := true |}
      else
        {| inner_hasher := feed p (inner_hasher m); finish_memo := finish_memo m; needs_finish := true; accept_memo := false |}
  | _ =>
      {| inner_hasher := feed p (inner_hasher m); finish_memo := finish_memo m; needs_finish := true;
         accept_memo := accept_memo m |}
  end.

#[export] Instance memo_hasher : Hasher MemoHasher := {| finish := memo_finish; feed := memo_feed |}.

Record BuildMemoHasher := { inner_factory : I }.
#[export] Instance build_memo : BuildHasher BuildMemoHasher MemoHasher := λ b, new (build_hasher (inner_factory b)).
End memo.

(** ** [EagerHashMemoizer] *)

Section eager.
Context {T : Type} {HT : Hash T}.

Record EagerHashMemoizer := { eager_memo : Z; eager_inner : T }.

Definition eager_new {I H} {HH : Hasher H} {BH : BuildHasher I H} (value : T) (factory : I) : EagerHashMemoizer :=
  let '(memo, value) := hash_one factory value in {| eager_memo := memo; eager_inner := value |}.

#[export] Instance eager_hash : Hash EagerHashMemoizer := λ H _ self state,
  let '(_, state) := finish state in
  (self, feed (write_u64 (eager_memo self)) state).

(** The derived equality compares the memo first. *)
Definition eager_eq `{EqDecision T} (a b : EagerHashMemoizer) : bool :=
  (eager_memo a =? eager_memo b)%Z && bool_decide (eager_inner a = eager_inner b).
Definition eager_borrow (self : EagerHashMemoizer) : T := eager_inner self.
End eager.

(** ** [LazyHashMemoizer] *)

Section lazy.
Context {T I0 H0 : Type} {HT : Hash T} {HH0 : Hasher H0} {BH0 : BuildHasher I0 H0}.

(** [hash_memo] is the [OnceLock]. *)
Record LazyHashMemoizer := { lazy_inner : T; hash_memo : option Z; factory : I0 }.

Definition lazy_new (value : T) (factory : I0) : LazyHashMemoizer :=
  {| lazy_inner := value; hash_memo := None; factory := factory |}.

(** [self.hash_memo.get_or_init(|| self.factory.hash_one(&self.inner))]. *)
Definition get_or_init (self : LazyHashMemoizer) : Z * LazyHashMemoizer :=
  match hash_memo self with
  | Some v => (v, self)
  | None =>
      let '(v, inner) := hash_one (factory self) (lazy_inner self) in
      (v, {| lazy_inner := inner; hash_memo := Some v; factory := factory self |})
  end.

#[export] Instance lazy_hash : Hash LazyHashMemoizer := λ H _ self state,
  let '(inner_hash, self) := get_or_init self in
  let '(_, state) := finish state in
  (self, feed (write_u64 inner_hash) state).

Definition lazy_eq `{EqDecision T} (a b : LazyHashMemoizer) : bool := bool_decide (lazy_inner a = lazy_inner b).
Definition lazy_borrow (self : LazyHashMemoizer) : T := lazy_inner self.
End lazy.

(** ** The remembered hash is the hash *)

Section transparent.
Context {H I T : Type} {HH : Hasher H} {BH : BuildHasher I H} {PT : Plain T}.
Implicit Types (f : I) (x : T) (m : MemoHasher (H:=H)).

(** A hasher that was not asked to accept a memo does what the inner hasher does. *)
Lemma memo_feeds (l : list put) m :
  accept_memo m = false → finish_memo m = None →
  let m' := foldl (λ s p, feed p s) m l in
  inner_hasher m' = foldl (λ s p, feed p s) (inner_hasher m) l ∧ accept_memo m' = false ∧ finish_memo m' = None ∧
  needs_finish m' = match l with [] => needs_finish m | _ :: _ => true end.
Proof.
  revert m. induction l as [|p l IH]; intros m Ha Hf; [done|]. cbn [foldl].
  assert (inner_hasher (feed p m) = feed p (inner_hasher m) ∧ accept_memo (feed p m) = false ∧
    finish_memo (feed p m) = None ∧ needs_finish (feed p m) = true) as (Hi&Ha'&Hf'&Hn).
  { unfold feed at 1 3 4 5, memo_hasher, memo_feed. by destruct p; rewrite ?Ha. }
  destruct (IH (feed p m) Ha' Hf') as (->&->&->&->). rewrite Hi. split; [done|]. split; [done|]. split; [done|].
  by destruct l.
Qed.

Definition memo_build f : BuildMemoHasher := {| inner_factory := f |}.

Lemma memo_plain f x :
  (hash_one (memo_build f) x).1 = match puts x with [] => 0%Z | _ :: _ => (hash_one f x).1 end.
Proof.
  destruct (memo_feeds (puts x) (new (build_hasher f)) eq_refl eq_refl) as (Hi&Ha&Hf&Hn).
  transitivity (memo_finish (foldl (λ s p, feed p s) (new (build_hasher f)) (puts x))).1; [done|].
  unfold memo_finish. rewrite Hf, Hn, Hi. change (inner_hasher (new (build_hasher f))) with (build_hasher f).
  unfold hash_one, hash, plain_hash. destruct (puts x) as [|p l]; [done|]. by destruct (finish _).
Qed.

Lemma memo_of_memoizer f v :
  let m := build_hasher (memo_build f) in (finish (feed (write_u64 v) (finish m).2)).1 = v.
Proof. done. Qed.

Lemma hash_one_plain {I' H'} {HH' : Hasher H'} {BH' : BuildHasher I' H'} (f : I') x : (hash_one f x).2 = x.
Proof. done. Qed.

(** C21: hashed by [BuildMemoHasher], an eager and a lazy memoizer give exactly the hash that
    the value alone gives with the factory, the lazy one whether or not its memo was filled
    before, and so does the bare value, as a map that is looked up by the borrowed value
    needs, unless the value writes nothing at all: then the memo hasher answers zero for the
    bare value, whatever the factory's hash is.  Equal memoizers of one factory hash
    alike. *)
Theorem memo_hash_transparent `{EqDecision T} f x y :
  let h := (hash_one f x).1 in
  (hash_one (memo_build f) (eager_new x f)).1 = h ∧
  (hash_one (memo_build f) (lazy_new x f)).1 = h ∧
  (hash_one (memo_build f) (hash_one (memo_build f) (lazy_new x f)).2).1 = h ∧
  (hash_one (memo_build f) x).1 = (match puts x with [] => 0%Z | _ :: _ => h end) ∧
  (eager_eq (eager_new x f) (eager_new y f) = true → h = (hash_one f y).1) ∧
  (lazy_eq (lazy_new x f) (lazy_new y f) = true → h = (hash_one f y).1).
Proof.
  intros h. assert (hash_one f x = (h, x)) as Hx by (symmetry; apply injective_projections; done).
  split; [unfold eager_new; by rewrite Hx|].
  assert (hash_one (memo_build f) (lazy_new x f) = (h, {| lazy_inner := x; hash_memo := Some h; factory := f |})) as Hl by reflexivity.
  split; [by rewrite Hl|]. split; [by rewrite Hl|]. split; [apply memo_plain|]. split.
  - intros [Hh%Z.eqb_eq _]%andb_true_iff. exact Hh.
  - intros Heq%bool_decide_eq_true. simpl in Heq. by rewrite <-Heq.
Qed.

(** A memoizer that is fed first decides the hash: what a composite key feeds after it is
    ignored, unless it is another memoizer, which then decides. *)
Lemma memo_first_hides_rest f v (l : list put) :
  Forall (λ p, ∀ u, p ≠ write_u64 u) l →
  (finish (foldl (λ s p, feed p s) (feed (write_u64 v) (finish (build_hasher (memo_build f))).2) l)).1 = v.
Proof.
  intros Hl. assert (∀ m, accept_memo m = true → finish_memo m = Some v →
    finish_memo (foldl (λ s p, feed p s) m l) = Some v) as Hm.
  { induction Hl as [|p l Hp _ IH]; intros m Ha Hf; [done|]. cbn [foldl].
    apply IH; destruct p; simpl; try done; by destruct (Hp i). }
  transitivity (memo_finish (foldl (λ s p, feed p s) (feed (write_u64 v) (finish (build_hasher (memo_build f))).2) l)).1; [done|].
  unfold memo_finish. by rewrite Hm.
Qed.
End transparent.

(** ** A run *)

Section witnesses.

(** A hasher that mixes the integers it is fed, of values that write one or nothing. *)
#[local] Instance mix_hasher : Hasher Z := {|
  finish h := (h + 1, h)%Z;
  feed p h := match p with write_u64 v | write_u32 v => (31 * h + v)%Z | _ => h end;
|}.
#[local] Instance mix_build : BuildHasher () Z := λ _, 17%Z.
#[local] Instance demo_puts : Plain (option Z) := λ x, match x with Some v => [write_u32 v] | None => [] end.

Lemma memo_hash_transparent_witness :
  (hash_one (memo_build ()) (eager_new (Some 5%Z) ())).1 = 533%Z ∧
  (hash_one (memo_build ()) (hash_one (memo_build ()) (lazy_new (Some 5%Z) ())).2).1 = 533%Z ∧
  (hash_one (memo_build ()) (Some 5%Z)).1 = 533%Z ∧
  (hash_one (memo_build ()) (None (A:=Z))).1 = 0%Z ∧ (hash_one () (None (A:=Z))).1 = 18%Z.
Proof.
  destruct (memo_hash_transparent () (Some 5%Z) (Some 5%Z)) as (He&_&Hl&Hp&_).
  destruct (memo_hash_transparent () (None (A:=Z)) None) as (_&_&_&Hn&_).
  split; [exact He|]. split; [exact Hl|]. split; [exact Hp|]. split; [exact Hn|reflexivity].
Defined.
End witnesses.
End HashMemo.
