(* ===== verification/RustStr.v ===== *)
(** Rust strings as byte strings: their order and sort, decimal printing and parsing of
    integers of any width, splitting at a colon, casts between integer types, and checks of ranges. *)
From stdpp Require Export strings.
From Stdlib Require Import Ascii String.
From S2P Require Import Prelude RustStd.

#[local] Open Scope Z_scope.

(** * Order *)

Lemma ascii_compare_trans a b c : (a ?= b)%char = Lt → (b ?= c)%char = Lt → (a ?= c)%char = Lt.
Proof. unfold Ascii.compare. rewrite !N.compare_lt_iff. lia. Qed.

Lemma ascii_compare_refl a : (a ?= a)%char = Eq.
Proof. unfold Ascii.compare. apply N.compare_refl. Qed.

Lemma string_compare_refl s : String.compare s s = Eq.
Proof. induction s as [|c s IH]; simpl; [done|]. by rewrite ascii_compare_refl. Qed.

Lemma string_compare_trans x y z : String.compare x y = Lt → String.compare y z = Lt → String.compare x z = Lt.
Proof.
  revert y z. induction x as [|a x IH]; intros [|b y] [|c z]; simpl; try done.
  destruct (a ?= b)%char eqn:Hab; try done; destruct (b ?= c)%char eqn:Hbc; try done.
  - apply Ascii.compare_eq_iff in Hab as ->, Hbc as ->. rewrite ascii_compare_refl. apply IH.
  - apply Ascii.compare_eq_iff in Hab as ->. by rewrite Hbc.
  - apply Ascii.compare_eq_iff in Hbc as ->. by rewrite Hab.
  - by rewrite (ascii_compare_trans a b c).
Qed.

#[export] Program Instance string_ord : Ord string := {| cmp := String.compare |}.
Next Obligation. intros x y. apply String.compare_antisym. Qed.
Next Obligation. intros x y z. apply string_compare_trans. Qed.
Next Obligation. by intros x y z ->%String.compare_eq_iff. Qed.

(** [vec.sort()]. *)
Definition sort (l : list string) : list string := sort_by cmp l.

Lemma sort_perm l : sort l ≡ₚ l.
Proof. apply sort_by_perm. Qed.

(** Two sorted lists of the same strings are equal: the order of the input does not matter. *)
Lemma cmp_gt_between (x y z : string) : cmp x z = Gt → cmp y z ≠ Gt → cmp x y = Gt.
Proof.
  rewrite (cmp_gt x z), (cmp_gt x y). intros Hzx Hyz. destruct (cmp y z) eqn:H; [|by apply (cmp_lt_trans y z x)|done].
  by rewrite (cmp_eq_trans y z x H).
Qed.

Lemma sort_insert_comm (x y : string) l :
  sort_insert cmp x (sort_insert cmp y l) = sort_insert cmp y (sort_insert cmp x l).
Proof.
  pose proof (cmp_opp x y) as Hyx. assert (cmp x y = Eq → x = y) as Heq by apply String.compare_eq_iff.
  induction l as [|z l IH]; cbn [sort_insert].
  { destruct (cmp x y) eqn:Hxy; rewrite Hyx; cbn [CompOpp]; [by rewrite Heq|done..]. }
  pose proof (cmp_gt_between x y z) as H1. pose proof (cmp_gt_between y x z) as H2.
  destruct (cmp y z) eqn:Hyz, (cmp x z) eqn:Hxz; cbn [sort_insert]; rewrite ?Hyz, ?Hxz.
  9: by rewrite IH.
  7,8: assert (cmp y x = Gt) as -> by auto; cbn [sort_insert]; by rewrite ?Hyz.
  3,6: assert (cmp x y = Gt) as -> by auto; cbn [sort_insert]; by rewrite ?Hxz.
  all: rewrite Hyx; destruct (cmp x y) eqn:Hxy; cbn [sort_insert CompOpp]; rewrite ?Hyz, ?Hxz; [by rewrite Heq|done..].
Qed.

Lemma sort_of_perm l k : l ≡ₚ k → sort l = sort k.
Proof.
  unfold sort. induction 1 as [|x l k _ IH|x y l|l1 l2 l3 _ IH1 _ IH2]; cbn [sort_by]; [done|by rewrite IH| |congruence].
  apply sort_insert_comm.
Qed.

(** * Integers *)

(** The integer types; [isize] and [usize] have 64 bits. *)
Inductive int_type := I8 | I16 | I32 | I64 | I128 | Isize | U8 | U16 | U32 | U64 | U128 | Usize.

Definition width (t : int_type) : Z :=
  match t with I8 | U8 => 8 | I16 | U16 => 16 | I32 | U32 => 32 | I128 | U128 => 128 | _ => 64 end.
Definition signed (t : int_type) : bool := match t with I8 | I16 | I32 | I64 | I128 | Isize => true | _ => false end.
Definition int_min (t : int_type) : Z := if signed t then - 2 ^ (width t - 1) else 0.
Definition int_max (t : int_type) : Z := if signed t then 2 ^ (width t - 1) - 1 else 2 ^ width t - 1.
Definition in_type (t : int_type) (z : Z) : Prop := int_min t ≤ z ≤ int_max t.

(** [v as t]. *)
Definition cast (t : int_type) (z : Z) : Z := (z - int_min t) mod 2 ^ width t + int_min t.

Lemma width_pos t : 0 < 2 ^ width t.
Proof. by destruct t. Qed.
Lemma int_max_min t : int_max t = int_min t + 2 ^ width t - 1.
Proof. by destruct t. Qed.

Lemma cast_in_type t z : in_type t (cast t z).
Proof.
  unfold in_type, cast. rewrite int_max_min. pose proof (Z.mod_pos_bound (z - int_min t) _ (width_pos t)). lia.
Qed.
Lemma cast_id t z : in_type t z → cast t z = z.
Proof. unfold in_type, cast. rewrite int_max_min. intros. rewrite Z.mod_small; lia. Qed.

(** Through a type at least as wide nothing is lost, whatever the signs. *)
Lemma cast_cast t u z : width t ≤ width u → cast t (cast u z) = cast t z.
Proof.
  intros Hw. unfold cast. f_equal.
  assert (∃ k, 2 ^ width u = k * 2 ^ width t) as [k Hk].
  { exists (2 ^ (width u - width t)). rewrite <-Z.pow_add_r; [f_equal; lia|lia|by destruct t]. }
  pose proof (width_pos t). pose proof (width_pos u).
  rewrite (Z.mod_eq (z - int_min u)) by lia. rewrite Hk.
  replace (z - int_min u - k * 2 ^ width t * ((z - int_min u) `div` (k * 2 ^ width t)) + int_min u - int_min t)
    with (z - int_min t + (- (k * ((z - int_min u) `div` (k * 2 ^ width t)))) * 2 ^ width t) by ring.
  by rewrite Z.mod_add by lia.
Qed.

(** * Decimal *)

Definition digit (d : Z) : ascii := ascii_of_N (48 + Z.to_N d).
Definition digit_of (c : ascii) : option Z :=
  let n := Z.of_N (N_of_ascii c) in if (48 <=? n) && (n <=? 57) then Some (n - 48) else None.

(** The digits of [n ≥ 0] before [acc]; [fuel] digits at most. *)
Fixpoint dec_loop (fuel : nat) (n : Z) (acc : string) : string :=
  match fuel with
  | O => acc
  | S fuel => if n <? 10 then String (digit n) acc else dec_loop fuel (n / 10) (String (digit (n mod 10)) acc)
  end.

(** [to_string] of an integer: 39 digits are enough for 128 bits. *)
Definition to_string (z : Z) : string := if z <? 0 then String "-" (dec_loop 40 (- z) "") else dec_loop 40 z "".

Fixpoint parse_digits (s : string) (cur : Z) : option Z :=
  match s with
  | "" => Some cur
  | String c s => d ← digit_of c; parse_digits s (cur * 10 + d)
  end%string.

Definition is_empty_string (s : string) : bool := match s with ""%string => true | _ => false end.

(** [s.parse::<t>()]: an optional sign, a minus for the signed types only, and digits. *)
Definition parse_int (t : int_type) (s : string) : option Z :=
  match s with
  | ""%string => None
  | String c rest =>
      let '(neg, ds) :=
        if (c =? "+")%char then (false, rest)
        else if (c =? "-")%char && signed t then (true, rest) else (false, s) in
      if is_empty_string ds then None
      else
        v ← parse_digits ds 0;
        let v := if neg : bool then - v else v in
        if (int_min t <=? v) && (v <=? int_max t) then Some v else None
  end.

Lemma digit_cases d : 0 ≤ d < 10 → d = 0 ∨ d = 1 ∨ d = 2 ∨ d = 3 ∨ d = 4 ∨ d = 5 ∨ d = 6 ∨ d = 7 ∨ d = 8 ∨ d = 9.
Proof. lia. Qed.

Lemma digit_of_digit d : 0 ≤ d < 10 → digit_of (digit d) = Some d.
Proof. by intros [->|[->|[->|[->|[->|[->|[->|[->|[->| ->]]]]]]]]]%digit_cases. Qed.

Lemma digit_not_sign d : 0 ≤ d < 10 → (digit d =? "+")%char = false ∧ (digit d =? "-")%char = false.
Proof. by intros [->|[->|[->|[->|[->|[->|[->|[->|[->| ->]]]]]]]]]%digit_cases. Qed.

Lemma dec_loop_spec fuel n acc :
  (0 < fuel)%nat → 0 ≤ n < 10 ^ Z.of_nat fuel →
  ∃ d s, 0 ≤ d < 10 ∧ dec_loop fuel n acc = String (digit d) s ∧
    ∀ cur, ∃ k, parse_digits (dec_loop fuel n acc) cur = parse_digits acc (cur * k + n).
Proof.
  revert n acc. induction fuel as [|fuel IH]; intros n acc Hf Hn; [lia|]. simpl.
  destruct (Z.ltb_spec n 10) as [Hlt|Hge].
  - exists n, acc. split; [lia|]. split; [done|]. intros cur. exists 10. simpl. by rewrite digit_of_digit by lia.
  - pose proof (Z.mod_pos_bound n 10). assert (0 ≤ n / 10 < 10 ^ Z.of_nat fuel) as Hq.
    { split; [apply Z.div_pos; lia|]. apply Z.div_lt_upper_bound; [lia|]. rewrite Nat2Z.inj_succ, Z.pow_succ_r in Hn; lia. }
    assert (0 < fuel)%nat as Hf'.
    { destruct fuel; [|lia]. pose proof (Z.div_le_mono 10 n 10 ltac:(lia) Hge) as Hd. rewrite Z.div_same in Hd by lia.
      simpl in Hq. lia. }
    destruct (IH (n / 10) (String (digit (n mod 10)) acc) Hf' Hq) as (d&s&Hd&Heq&Hp). exists d, s.
    split; [done|]. split; [done|]. intros cur. destruct (Hp cur) as [k ->]. exists (k * 10). simpl.
    rewrite digit_of_digit by lia. simpl. f_equal. pose proof (Z.div_mod n 10). lia.
Qed.

(** Printing and parsing an integer of a type gives it back. *)
Lemma parse_to_string t z : in_type t z → parse_int t (to_string z) = Some z.
Proof.
  intros Hz. assert (- 10 ^ 40 < z < 10 ^ 40) as Hb.
  { unfold in_type in Hz. destruct t; cbn in Hz; lia. }
  assert (∀ z, (int_min t <=? z) && (z <=? int_max t) = true ↔ in_type t z) as Hin.
  { intros z'. unfold in_type. by rewrite andb_true_iff, !Z.leb_le. }
  unfold to_string, parse_int. destruct (Z.ltb_spec z 0) as [Hneg|Hpos].
  - assert (signed t = true) as Hs by (unfold in_type, int_min in Hz; destruct (signed t); [done|lia]).
    change (("-" =? "+")%char) with false. change (("-" =? "-")%char) with true. rewrite Hs.
    destruct (dec_loop_spec 40 (- z) "") as (d&s&_&Heq&Hp); [lia|cbn; lia|].
    destruct (Hp 0) as [k Hk]. rewrite Heq in Hk |- *. cbn [andb is_empty_string]. rewrite Hk.
    cbn [mbind option_bind parse_digits]. replace (- (0 * k + - z)) with z by lia. by rewrite (proj2 (Hin z) Hz).
  - destruct (dec_loop_spec 40 z "") as (d&s&Hd&Heq&Hp); [lia|cbn; lia|].
    destruct (Hp 0) as [k Hk]. rewrite Heq in Hk |- *. destruct (digit_not_sign d Hd) as [-> ->].
    cbn [andb is_empty_string]. rewrite Hk.
    cbn [mbind option_bind parse_digits]. replace (0 * k + z) with z by lia. by rewrite (proj2 (Hin z) Hz).
Qed.

(** * [s.splitn(2, ':')] *)

(** What is before and after the first colon. *)
Fixpoint split_colon (s : string) : option (string * string) :=
  match s with
  | "" => None
  | String c s =>
      if (c =? ":")%char then Some ("", s)
      else match split_colon s with Some (k, v) => Some (String c k, v) | None => None end
  end%string.

Fixpoint has_colon (s : string) : bool :=
  match s with ""%string => false | String c s => (c =? ":")%char || has_colon s end.

Lemma split_colon_app k v : has_colon k = false → split_colon (k +:+ ":" +:+ v)%string = Some (k, v).
Proof.
  induction k as [|c k IH]; simpl; [done|]. intros [Hc Hk]%orb_false_iff. by rewrite Hc, IH.
Qed.

(** * Concatenation *)

Lemma string_app_nil (s : string) : (s +:+ EmptyString)%string = s.
Proof. induction s as [|c s IH]; [done|exact (f_equal (String c) IH)]. Qed.

Lemma string_app_assoc (s1 s2 s3 : string) : (s1 +:+ (s2 +:+ s3) = (s1 +:+ s2) +:+ s3)%string.
Proof. induction s1 as [|c s1 IH]; [done|exact (f_equal (String c) IH)]. Qed.

(** * Finite ranges *)

(** A check of each integer of a range, as it is done by computation. *)
Lemma range_check (f : Z → bool) a n z : forallb f (seqZ a n) = true → a ≤ z < a + n → f z = true.
Proof. rewrite forallb_forall. intros Hf Hz. apply Hf, list_elem_of_In, elem_of_seqZ. lia. Qed.
