(* ===== verification/ScubaValue.v ===== *)
(** [scuba_sample::value] (src/shed/scuba_sample/src/value.rs): the typed values of a sample,
    their conversions from and to Rust types, to and from JSON values, and their serde
    encoding.

    Floats and the numbers of [serde_json] are parameters with the operations the code uses;
    an error carries its kind and not its message.  A [HashMap] or [BTreeMap] is a [gmap], a
    [HashSet] or [BTreeSet] a [gset]: the code never lets their order show. *)
From stdpp Require Import strings.
From Stdlib Require Import String.
From S2P Require Import Prelude RustStd RustStr.

(** * Floats and JSON *)

Class Floats := {
  F32 : Type;
  F64 : Type;
  f64_of_f32 : F32 → F64;
  f32_of_f64 : F64 → F32;
  f64_of_int : Z → F64;
  f32_of_int : Z → F32;
  f64_to_string : F64 → string;
  parse_f64 : string → option F64;
  parse_f32 : string → option F32;
}.

(** [serde_json::Number]; [from_f64] refuses infinities and NaN. *)
Class JsonNumber `{FL : Floats} := {
  Number : Type;
  from_i64 : Z → Number;
  from_u64 : Z → Number;
  from_f64 : F64 → option Number;
  as_i64 : Number → option Z;
  as_f64 : Number → option F64;
  as_i64_of_i64 z : in_type I64 z → as_i64 (from_i64 z) = Some z;
  as_i64_of_f64 f n : from_f64 f = Some n → as_i64 n = None;
  as_f64_of_f64 f n : from_f64 f = Some n → as_f64 n = Some f;
}.

Module ScubaValue.
Section value.
Context {FL : Floats} {JN : JsonNumber}.

Inductive NullScubaValue := NInt | NDouble | NNormal | NDenorm | NNormVector | NTagSet.

Inductive ScubaValue :=
| Int (v : Z)
| Double (v : F64)
| Normal (v : string)
| Denorm (v : string)
| NormVector (v : list string)
| TagSet (v : gset string)
| Null (v : NullScubaValue).

(** [serde_json::Value]. *)
Inductive Value :=
| VNull
| VBool (b : bool)
| VNumber (n : Number)
| VString (s : string)
| VArray (a : list Value)
| VObject (m : gmap string Value).

(** The strings of a set, sorted. *)
Definition sorted_set (v : gset string) : list string := sort (elements v).

(** ** JSON *)

(** [From<ScubaValue> for Value]. *)
Definition into_json (val : ScubaValue) : Value :=
  match val with
  | Int v => VNumber (from_i64 v)
  | Double v => match from_f64 v with Some value => VNumber value | None => VNull end
  | Normal v => VString v
  | Denorm v => VString v
  | NormVector v => VArray (VString <$> v)
  | TagSet v => VArray (VString <$> sorted_set v)
  | Null _ => VNull
  end.

Definition bool_to_string (b : bool) : string := if b then "true" else "false".

(** The strings of an array, if all its items are strings. *)
Fixpoint all_strings (a : list Value) : option (list string) :=
  match a with
  | [] => Some []
  | VString s :: a => match all_strings a with Some l => Some (s :: l) | None => None end
  | _ :: _ => None
  end.

(** [TryFrom<Value> for ScubaValue]; the error is the value itself. *)
Definition try_from_json (this : Value) : result ScubaValue Value :=
  match this with
  | VString s => Ok (Normal s)
  | VNumber i =>
      match as_i64 i with
      | Some i => Ok (Int i)
      | None => match as_f64 i with Some f => Ok (Double f) | None => Err (VNumber i) end
      end
  | VBool b => Ok (Normal (bool_to_string b))
  | VArray a => match all_strings a with Some strings => Ok (NormVector strings) | None => Err (VArray a) end
  | VNull | VObject _ => Err this
  end.

(** ** serde *)

(** The call a value makes on a serializer, and the calls a format makes on a visitor. *)
Inductive Ser := SerI64 (v : Z) | SerF64 (v : F64) | SerStr (v : string) | SerSeq (v : list string) | SerNone.
Inductive Visit :=
| VisitI64 (v : Z) | VisitU64 (v : Z) | VisitF64 (v : F64) | VisitStr (v : string) | VisitString (v : string)
| VisitSeq (v : list string) | VisitUnit.

Definition serialize (v : ScubaValue) : Ser :=
  match v with
  | Int v => SerI64 v
  | Double v => SerF64 v
  | Normal v | Denorm v => SerStr v
  | NormVector v => SerSeq v
  | TagSet v => SerSeq (sorted_set v)
  | Null _ => SerNone
  end.

(** [From] of the integer types: [value as i64]. *)
Definition from_int (value : Z) : ScubaValue := Int (cast I64 value).
Definition from_f64_value (value : F64) : ScubaValue := Double value.
Definition from_string (value : string) : ScubaValue := Normal value.
Definition from_vec (value : list string) : ScubaValue := NormVector value.

Definition visit (v : Visit) : ScubaValue :=
  match v with
  | VisitI64 value => from_int value
  | VisitU64 value => from_int value
  | VisitF64 value => from_f64_value value
  | VisitStr value => from_string value
  | VisitString value => from_string value
  | VisitSeq seq => from_vec seq
  | VisitUnit => Null NInt
  end.

(** ** From Rust types *)

Definition from_opt_int (value : option Z) : ScubaValue :=
  match value with None => Null NInt | Some v => Int (cast I64 v) end.
Definition from_bool (value : bool) : ScubaValue := Normal (bool_to_string value).
Definition from_f32_value (value : F32) : ScubaValue := Double (f64_of_f32 value).
Definition from_opt_string (value : option string) : ScubaValue :=
  match value with None => Null NNormal | Some s => Normal s end.
Definition from_opt_f64 (value : option F64) : ScubaValue :=
  match value with None => Null NDouble | Some v => Double v end.
Definition from_opt_f32 (value : option F32) : ScubaValue :=
  match value with None => Null NDouble | Some v => Double (f64_of_f32 v) end.
Definition from_opt_bool (value : option bool) : ScubaValue :=
  match value with None => Null NNormal | Some v => Normal (bool_to_string v) end.
Definition from_iter (iter : list string) : ScubaValue := NormVector iter.
Definition from_hash_set (value : gset string) : ScubaValue := TagSet value.
Definition from_btree_set (value : gset string) : ScubaValue := TagSet (list_to_set (elements value)).

(** The sets of borrowed strings are copied. *)
Definition from_hash_set_ref (value : gset string) : ScubaValue := TagSet (list_to_set (elements value)).
Definition from_btree_set_ref (value : gset string) : ScubaValue := TagSet (list_to_set (elements value)).

(** [format!("{}:{}", k, v)]. *)
Definition format_entry (p : string * string) : string := (p.1 +:+ ":" +:+ p.2)%string.
Definition from_hash_map (value : gmap string string) : ScubaValue :=
  NormVector (sort (format_entry <$> map_to_list value)).
Definition from_btree_map (value : gmap string string) : ScubaValue :=
  NormVector (sort (format_entry <$> map_to_list value)).

(** ** To Rust types *)

(** The kinds of [crate::sample::Error] a conversion gives. *)
Inductive Error := MissingColumn | UnexpectedNull | InvalidTypeConversion | CustomParseError.

Definition ok_or {A} (o : option A) : result A Error :=
  match o with Some a => Ok a | None => Err InvalidTypeConversion end.
Definition result_map {A B E} (f : A → B) (r : result A E) : result B E :=
  match r with Ok a => Ok (f a) | Err e => Err e end.

(** [to_int_types!]. *)
Definition to_int (t : int_type) (value : ScubaValue) : result Z Error :=
  match value with
  | Int v => Ok (cast t v)
  | Normal v | Denorm v => ok_or (parse_int t v)
  | Null _ => Err UnexpectedNull
  | _ => Err InvalidTypeConversion
  end.
Definition to_opt_int (t : int_type) (value : ScubaValue) : result (option Z) Error :=
  match value with
  | Int v => Ok (Some (cast t v))
  | Normal v | Denorm v => result_map Some (ok_or (parse_int t v))
  | Null _ => Ok None
  | _ => Err InvalidTypeConversion
  end.

(** [to_float_types!], for each of the two types. *)
Definition to_f64 (value : ScubaValue) : result F64 Error :=
  match value with
  | Int v => Ok (f64_of_int v)
  | Double v => Ok v
  | Normal v | Denorm v => ok_or (parse_f64 v)
  | Null _ => Err UnexpectedNull
  | _ => Err InvalidTypeConversion
  end.
Definition to_opt_f64 (value : ScubaValue) : result (option F64) Error :=
  match value with
  | Int v => Ok (Some (f64_of_int v))
  | Double v => Ok (Some v)
  | Normal v | Denorm v => result_map Some (ok_or (parse_f64 v))
  | Null _ => Ok None
  | _ => Err InvalidTypeConversion
  end.
Definition to_f32 (value : ScubaValue) : result F32 Error :=
  match value with
  | Int v => Ok (f32_of_int v)
  | Double v => Ok (f32_of_f64 v)
  | Normal v | Denorm v => ok_or (parse_f32 v)
  | Null _ => Err UnexpectedNull
  | _ => Err InvalidTypeConversion
  end.
Definition to_opt_f32 (value : ScubaValue) : result (option F32) Error :=
  match value with
  | Int v => Ok (Some (f32_of_int v))
  | Double v => Ok (Some (f32_of_f64 v))
  | Normal v | Denorm v => result_map Some (ok_or (parse_f32 v))
  | Null _ => Ok None
  | _ => Err InvalidTypeConversion
  end.

(** [v.parse::<bool>()]. *)
Definition parse_bool (v : string) : option bool :=
  if decide (v = "true"%string) then Some true else if decide (v = "false"%string) then Some false else None.
Definition to_bool (value : ScubaValue) : result bool Error :=
  match value with
  | Normal v | Denorm v => ok_or (parse_bool v)
  | Null _ => Err UnexpectedNull
  | _ => Err InvalidTypeConversion
  end.
Definition to_opt_bool (value : ScubaValue) : result (option bool) Error :=
  match value with
  | Normal v | Denorm v => result_map Some (ok_or (parse_bool v))
  | Null _ => Ok None
  | _ => Err InvalidTypeConversion
  end.

Definition to_string (value : ScubaValue) : result string Error :=
  match value with
  | Normal v | Denorm v => Ok v
  | Int v => Ok (RustStr.to_string v)
  | Double v => Ok (f64_to_string v)
  | Null _ => Err UnexpectedNull
  | _ => Err InvalidTypeConversion
  end.
Definition to_opt_string (value : ScubaValue) : result (option string) Error :=
  match value with
  | Normal v | Denorm v => Ok (Some v)
  | Int v => Ok (Some (RustStr.to_string v))
  | Double v => Ok (Some (f64_to_string v))
  | Null _ => Ok None
  | _ => Err InvalidTypeConversion
  end.
(** The borrowed forms convert no numbers. *)
Definition to_opt_string_ref (value : ScubaValue) : result (option string) Error :=
  match value with
  | Normal v | Denorm v => Ok (Some v)
  | Null _ => Ok None
  | _ => Err InvalidTypeConversion
  end.
Definition to_str (value : ScubaValue) : result string Error :=
  match value with
  | Normal v | Denorm v => Ok v
  | Null _ => Err UnexpectedNull
  | _ => Err InvalidTypeConversion
  end.
Definition to_opt_str (value : ScubaValue) : result (option string) Error :=
  match value with
  | Normal v | Denorm v => Ok (Some v)
  | Null _ => Ok None
  | _ => Err InvalidTypeConversion
  end.

Definition to_vec (value : ScubaValue) : result (list string) Error :=
  match value with
  | NormVector v => Ok v
  | Null _ => Err UnexpectedNull
  | _ => Err InvalidTypeConversion
  end.
Definition to_hash_set (value : ScubaValue) : result (gset string) Error :=
  match value with
  | TagSet v => Ok (list_to_set (elements v))
  | Null _ => Err UnexpectedNull
  | _ => Err InvalidTypeConversion
  end.
Definition to_hash_set_ref (value : ScubaValue) : result (gset string) Error :=
  match value with
  | TagSet v => Ok (list_to_set (elements v))
  | Null _ => Err UnexpectedNull
  | _ => Err InvalidTypeConversion
  end.
Definition to_btree_set (value : ScubaValue) : result (gset string) Error :=
  match value with
  | TagSet v => Ok (list_to_set (elements v))
  | Null _ => Err UnexpectedNull
  | _ => Err InvalidTypeConversion
  end.
Definition to_btree_set_ref (value : ScubaValue) : result (gset string) Error :=
  match value with
  | TagSet v => Ok (list_to_set (elements v))
  | Null _ => Err UnexpectedNull
  | _ => Err InvalidTypeConversion
  end.

(** [.collect::<Result<Map, _>>()] of the entries: the first that has no colon fails, a later
    entry of a key replaces an earlier one. *)
Fixpoint collect_entries (v : list string) (m : gmap string string) : result (gmap string string) Error :=
  match v with
  | [] => Ok m
  | s :: v =>
      match split_colon s with
      | Some (key, value) => collect_entries v (<[key := value]> m)
      | None => Err InvalidTypeConversion
      end
  end.
Definition to_hash_map (value : ScubaValue) : result (gmap string string) Error :=
  match value with
  | NormVector v => collect_entries v ∅
  | Null _ => Err UnexpectedNull
  | _ => Err InvalidTypeConversion
  end.
Definition to_btree_map (value : ScubaValue) : result (gmap string string) Error :=
  match value with
  | NormVector v => collect_entries v ∅
  | Null _ => Err UnexpectedNull
  | _ => Err InvalidTypeConversion
  end.

(** ** Round trips *)

Lemma all_strings_VString l : all_strings (VString <$> l) = Some l.
Proof. induction l as [|s l IH]; [done|]. rewrite fmap_cons. cbn [all_strings]. by rewrite IH. Qed.

Lemma foldl_insert (l : list (string * string)) (m : gmap string string) :
  NoDup l.*1 → foldl (λ m p, <[p.1 := p.2]> m) m l = list_to_map l ∪ m.
Proof.
  revert m. induction l as [|[k v] l IH]; intros m Hl; simpl; [by rewrite (left_id_L ∅ (∪))|].
  simpl in Hl. apply NoDup_cons in Hl as [Hk Hl]. rewrite IH by done.
  rewrite <-insert_union_l. symmetry. apply insert_union_r. by apply not_elem_of_list_to_map_1.
Qed.

Lemma collect_formatted (l : list (string * string)) m :
  Forall (λ p, has_colon p.1 = false) l →
  collect_entries (format_entry <$> l) m = Ok (foldl (λ m p, <[p.1 := p.2]> m) m l).
Proof.
  revert m. induction l as [|[k v] l IH]; intros m Hl; simpl; [done|]. inversion Hl; subst.
  unfold format_entry at 1. rewrite split_colon_app by done. by rewrite IH.
Qed.

Lemma collect_sorted (m : gmap string string) :
  (∀ k, is_Some (m !! k) → has_colon k = false) → collect_entries (sort (format_entry <$> map_to_list m)) ∅ = Ok m.
Proof.
  intros Hm. destruct (Permutation_map_inv _ _ (sort_perm (format_entry <$> map_to_list m))) as (l&Heq&Hl).
  assert (sort (format_entry <$> map_to_list m) = format_entry <$> l) as -> by exact Heq. rewrite collect_formatted.
  - rewrite foldl_insert.
    + rewrite (right_id_L ∅ (∪)). f_equal. rewrite <-(list_to_map_to_list m). apply list_to_map_proper; [|by symmetry].
      rewrite <-Hl. apply NoDup_fst_map_to_list.
    + rewrite <-Hl. apply NoDup_fst_map_to_list.
  - apply Forall_forall. intros [k v] Hk. apply Hm. rewrite <-Hl in Hk. apply elem_of_map_to_list in Hk. by eexists.
Qed.

Lemma collected_set (v : gset string) : list_to_set (elements v) = v.
Proof. apply list_to_set_elements_L. Qed.

(** What is put into a value comes out again: an integer of a type of up to 64 bits, signed
    or not; a 128-bit integer up to its low 64 bits; a boolean, a double, a string, a list, a
    set, and a map no key of which has a colon; the decimal string of an integer parses back
    to it.  An absent option comes out absent, and a plain type refuses it as an unexpected
    null. *)
Theorem scuba_value_round_trips :
  (∀ t z, in_type t z → to_int t (from_int z) = Ok (cast t (cast I64 z)) ∧ (width t ≤ 64 → cast t (cast I64 z) = z)%Z) ∧
  (∀ t z, in_type t z → (width t ≤ 64)%Z → to_opt_int t (from_opt_int (Some z)) = Ok (Some z)) ∧
  (∀ z, in_type I64 z → ∃ s, to_string (from_int z) = Ok s ∧ to_int I64 (from_string s) = Ok z) ∧
  (∀ b, to_bool (from_bool b) = Ok b ∧ to_opt_bool (from_opt_bool (Some b)) = Ok (Some b)) ∧
  (∀ f, to_f64 (from_f64_value f) = Ok f ∧ to_opt_f64 (from_opt_f64 (Some f)) = Ok (Some f)) ∧
  (∀ s, to_string (from_string s) = Ok s ∧ to_str (from_string s) = Ok s ∧ to_opt_string (from_opt_string (Some s)) = Ok (Some s)) ∧
  (∀ l, to_vec (from_vec l) = Ok l ∧ to_vec (from_iter l) = Ok l) ∧
  (∀ v, to_hash_set (from_hash_set v) = Ok v ∧ to_btree_set (from_btree_set v) = Ok v ∧
    to_hash_set_ref (from_hash_set_ref v) = Ok v ∧ to_btree_set_ref (from_btree_set_ref v) = Ok v) ∧
  (∀ m, (∀ k, is_Some (m !! k) → has_colon k = false) →
    to_hash_map (from_hash_map m) = Ok m ∧ to_btree_map (from_btree_map m) = Ok m) ∧
  (∀ t, to_opt_int t (from_opt_int None) = Ok None ∧ to_int t (from_opt_int None) = Err UnexpectedNull) ∧
  (to_opt_string (from_opt_string None) = Ok None ∧ to_string (from_opt_string None) = Err UnexpectedNull ∧
   to_opt_bool (from_opt_bool None) = Ok None ∧ to_bool (from_opt_bool None) = Err UnexpectedNull ∧
   to_opt_f64 (from_opt_f64 None) = Ok None ∧ to_f64 (from_opt_f64 None) = Err UnexpectedNull).
Proof.
  assert (∀ t z, in_type t z → (width t ≤ 64)%Z → cast t (cast I64 z) = z) as Hcast.
  { intros t z Hz Hw. rewrite cast_cast by done. by apply cast_id. }
  split; [intros t z Hz; split; [done|]; by apply Hcast|].
  split; [intros t z Hz Hw; simpl; by rewrite Hcast|].
  split.
  { intros z Hz. eexists. split; [done|]. simpl. rewrite (cast_id I64) by done. by rewrite parse_to_string. }
  split; [by intros []|]. split; [done|]. split; [done|]. split; [done|].
  split; [intros v; simpl; by rewrite !collected_set|].
  split; [intros m Hm; simpl; by rewrite collect_sorted|]. done.
Qed.

(** ** JSON and serde *)

(** How a self-describing format hands back what was serialized: an integer that is not
    negative as an unsigned one, a float that it cannot write as a null. *)
Inductive carries : Ser → Visit → Prop :=
| carries_neg v : (v < 0)%Z → carries (SerI64 v) (VisitI64 v)
| carries_pos v : (0 ≤ v)%Z → carries (SerI64 v) (VisitU64 v)
| carries_f64 f n : from_f64 f = Some n → carries (SerF64 f) (VisitF64 f)
| carries_nan f : from_f64 f = None → carries (SerF64 f) VisitUnit
| carries_str s : carries (SerStr s) (VisitStr s)
| carries_string s : carries (SerStr s) (VisitString s)
| carries_seq l : carries (SerSeq l) (VisitSeq l)
| carries_none : carries SerNone VisitUnit.

(** What survives a trip: the deprecated string type becomes the other, a set the sorted list
    of its strings, a float that JSON cannot write nothing. *)
Definition normalized (v : ScubaValue) : option ScubaValue :=
  match v with
  | Int v => Some (Int v)
  | Double f => match from_f64 f with Some _ => Some (Double f) | None => None end
  | Normal s | Denorm s => Some (Normal s)
  | NormVector l => Some (NormVector l)
  | TagSet s => Some (NormVector (sorted_set s))
  | Null _ => None
  end.

(** A value converted to JSON and back, by the [From]/[TryFrom] pair or by serde through
    any self-describing format, is the same value up to the documented loss: its normal form
    if it has one; otherwise the pair gives JSON's null back as an error and serde gives the
    null of integer type. *)
Theorem scuba_value_json_round_trip (v : ScubaValue) :
  (∀ z, v = Int z → in_type I64 z) →
  try_from_json (into_json v) = (match normalized v with Some v' => Ok v' | None => Err VNull end) ∧
  (∀ call, carries (serialize v) call → visit call = default (Null NInt) (normalized v)).
Proof.
  intros Hi. split.
  - destruct v as [z|f|s|s|l|t|n]; simpl; try done.
    + by rewrite as_i64_of_i64 by auto.
    + destruct (from_f64 f) as [n|] eqn:Hf; simpl; [|done]. rewrite (as_i64_of_f64 f n Hf).
      by rewrite (as_f64_of_f64 f n Hf).
    + by rewrite all_strings_VString.
    + by rewrite all_strings_VString.
  - intros call Hc. destruct v as [z|f|s|s|l|t|n]; simpl in Hc; inversion Hc; subst; simpl; try done.
    1,2: unfold from_int; by rewrite cast_id by auto.
    + by replace (from_f64 f) with (Some n).
    + by replace (from_f64 f) with (@None Number).
Qed.
End value.

(** ** Runs *)

(** Floats with a value that is not a number, and JSON's numbers of both kinds. *)
Definition demo_floats : Floats := {|
  F32 := option Z; F64 := option Z; f64_of_f32 f := f; f32_of_f64 f := f; f64_of_int := Some; f32_of_int := Some;
  f64_to_string f := match f with Some z => RustStr.to_string z | None => "NaN"%string end;
  parse_f64 s := Some <$> parse_int I64 s; parse_f32 s := Some <$> parse_int I64 s;
|}.

Program Definition demo_numbers : JsonNumber (FL:=demo_floats) := {|
  Number := Z + Z; from_i64 := inl; from_u64 := inl; from_f64 f := inr <$> f;
  as_i64 n := match n with inl z => Some z | inr _ => None end;
  as_f64 n := match n with inl z => Some (Some z) | inr z => Some (Some z) end;
|}.
Next Obligation. done. Qed.
Next Obligation. by intros [z|] n [= <-]. Qed.
Next Obligation. by intros [z|] n [= <-]. Qed.

Section witnesses.
#[local] Existing Instance demo_floats.
#[local] Existing Instance demo_numbers.

Definition demo_set : gset string := list_to_set ["b"; "a"]%string.

Lemma scuba_value_json_round_trip_witness :
  try_from_json (into_json (TagSet demo_set)) = Ok (NormVector ["a"; "b"]%string) ∧
  (∀ call, carries (serialize (Int (-7))) call → visit call = Int (-7)).
Proof.
  destruct (scuba_value_json_round_trip (TagSet demo_set) ltac:(done)) as [H _].
  destruct (scuba_value_json_round_trip (Int (-7)) ltac:(intros z [= <-]; split; vm_compute; discriminate)) as [_ H'].
  assert (sorted_set demo_set = ["a"; "b"]%string) as Hs by (vm_compute; reflexivity).
  split; [rewrite H; simpl; by rewrite Hs|exact H'].
Defined.

(** A key with a colon does not survive: the map comes back with another key. *)
Lemma colon_key_lost :
  result_map (lookup "a"%string) (to_hash_map (from_hash_map (list_to_map [("a:b", "c")%string]))) = Ok (Some "b:c"%string) ∧
  result_map (lookup "a:b"%string) (to_hash_map (from_hash_map (list_to_map [("a:b", "c")%string]))) = Ok None.
Proof. split; vm_compute; reflexivity. Qed.
End witnesses.
End ScubaValue.
