(* ===== verification/Sampling.v ===== *)
(** The [sampling] crate (src/shed/sampling/src): deciding whether a sample is logged, and at
    which rate.  The random generator is a parameter; a [NonZeroU64] is a positive [u64]. *)
From S2P Require Import Prelude RustStd.

#[local] Open Scope Z_scope.

(** [rng.gen_range(0..n)]: a number below [n]. *)
Class Rng (R : Type) := {
  gen_range : R → Z → Z * R;
  gen_range_spec r n : 0 < n → 0 ≤ (gen_range r n).1 < n;
}.

(** The trait [Sampleable]. *)
Class Sampleable (S : Type) := set_sample_rate : Z → S → S.

Module Sampling.
Section sampling.
Context `{BM : BuildMode} {R : Type} {RG : Rng R}.

Inductive SampleResult := Include | Exclude.
Inductive Sampling := NoSampling | SampledIn (rate : Z) | SampledOut (rate : Z).

(** [NonZeroU64::new(z).expect(..)]. *)
Definition non_zero (z : Z) : exec Z := if z =? 0 then panic else ret z.

Definition previous_sample_rate (self : Sampling) : Z :=
  match self with NoSampling => 1 | SampledIn r | SampledOut r => r end.

Definition subsampled (self : Sampling) (rng : R) (sample_rate : Z) : exec (Sampling * R) :=
  let '(val, rng) := gen_range rng sample_rate in
  let! product := usize_mul (previous_sample_rate self) sample_rate in
  let! new_sample_rate := non_zero product in
  if val =? 0 then
    ret (match self with
         | NoSampling => SampledIn new_sample_rate
         | SampledIn _ => SampledIn new_sample_rate
         | SampledOut _ => SampledOut new_sample_rate
         end, rng)
  else ret (SampledOut new_sample_rate, rng).

Definition apply {S} `{SA : Sampleable S} (self : Sampling) (sample : S) : SampleResult * S :=
  match self with
  | NoSampling => (Include, sample)
  | SampledIn r => (Include, set_sample_rate r sample)
  | SampledOut _ => (Exclude, sample)
  end.

Definition to_result (self : Sampling) : SampleResult :=
  match self with NoSampling => Include | SampledIn _ => Include | SampledOut _ => Exclude end.

(** Sampling again at each of the rates. *)
Fixpoint subsample_all (rates : list Z) (self : Sampling) (rng : R) : exec (Sampling * R) :=
  match rates with
  | [] => ret (self, rng)
  | rate :: rates => let! '(self, rng) := subsampled self rng rate in subsample_all rates self rng
  end.

(** ** The rates multiply *)

(** The draws a generator gives for the rates. *)
Fixpoint draws (rates : list Z) (rng : R) : list Z :=
  match rates with
  | [] => []
  | rate :: rates => let '(val, rng) := gen_range rng rate in val :: draws rates rng
  end.
Definition product (rates : list Z) : Z := foldr Z.mul 1 rates.

(** What is decided: sampled in as long as every draw was zero. *)
Definition decided (self : Sampling) (rates draws : list Z) : Sampling :=
  let rate := previous_sample_rate self * product rates in
  match self, rates with
  | _, [] => self
  | SampledOut _, _ => SampledOut rate
  | _, _ => if forallb (Z.eqb 0) draws then SampledIn rate else SampledOut rate
  end.

Lemma product_pos rates : Forall (λ r, 0 < r) rates → 0 < product rates.
Proof. induction 1; simpl; [done|]. by apply Z.mul_pos_pos. Qed.

Lemma subsampled_fits self rng rate :
  0 < previous_sample_rate self → 0 < rate → previous_sample_rate self * rate ≤ usize_max →
  subsampled self rng rate =
    ret (let n := previous_sample_rate self * rate in
         match self with
         | SampledOut _ => SampledOut n
         | _ => if (gen_range rng rate).1 =? 0 then SampledIn n else SampledOut n
         end, (gen_range rng rate).2).
Proof.
  intros Hp Hr Hfit. unfold subsampled. destruct (gen_range rng rate) as [val rng'].
  unfold usize_mul. rewrite usize_wrap_exact by nia. simpl. unfold non_zero.
  rewrite (proj2 (Z.eqb_neq _ _)) by nia. simpl. by destruct (val =? 0), self.
Qed.

Lemma subsample_all_fits rates self rng :
  0 < previous_sample_rate self → Forall (λ r, 0 < r) rates → previous_sample_rate self * product rates ≤ usize_max →
  ∃ rng', subsample_all rates self rng = ret (decided self rates (draws rates rng), rng').
Proof.
  revert self rng. induction rates as [|rate rates IH]; intros self rng Hp Hr Hfit; simpl.
  { exists rng. by destruct self. }
  inversion Hr as [|?? Hrate Hrates]; subst. pose proof (product_pos _ Hrates). simpl in Hfit.
  rewrite subsampled_fits by (done || nia). simpl. destruct (gen_range rng rate) as [val rng1] eqn:Hg. simpl.
  set (self' := match self with SampledOut _ => _ | _ => _ end).
  assert (previous_sample_rate self' = previous_sample_rate self * rate) as Hs' by (subst self'; destruct self, (val =? 0); done).
  destruct (IH self' rng1) as [rng' Heq]; [rewrite Hs'; nia|done|rewrite Hs'; nia|].
  exists rng'. rewrite Heq. do 2 f_equal. unfold decided. rewrite Hs'. simpl.
  rewrite (Z.mul_assoc _ rate). subst self'. replace (match val with 0 => true | _ => false end) with (val =? 0) by (by destruct val).
  destruct self, (val =? 0), rates; simpl; rewrite ?Z.mul_1_r; done.
Qed.

(** C22: sampling at rates whose product fits in a [u64] never panics; the result carries the
    product of the rates, and is sampled in exactly when every draw was zero; it is logged
    exactly then, with that rate.  Two
    rates whose product does not fit panic in a build with overflow checks, and in one
    without when the product is a multiple of [2 ^ 64], as for twice [2 ^ 32]. *)
Theorem sampling_rates (rates : list Z) rng {S} `{SA : Sampleable S} (sample : S) :
  Forall (λ r, 0 < r) rates → product rates ≤ usize_max →
  (∃ rng', subsample_all rates NoSampling rng =
    ret (match rates with
         | [] => NoSampling
         | _ => if forallb (Z.eqb 0) (draws rates rng) then SampledIn (product rates) else SampledOut (product rates)
         end, rng')) ∧
  (∀ self, (apply self sample).1 = to_result self) ∧
  (∀ rate, apply (SampledIn rate) sample = (Include, set_sample_rate rate sample)) ∧
  (∀ self rng' rate, usize_max < previous_sample_rate self * rate →
    overflow_checks = true ∨ (previous_sample_rate self * rate) mod (usize_max + 1) = 0 →
    subsampled self rng' rate = panic).
Proof.
  intros Hr Hfit. split; [|split; [by intros []|split; [done|]]].
  - destruct (subsample_all_fits rates NoSampling rng) as [rng' Heq]; [done|done|simpl; lia|].
    exists rng'. rewrite Heq. unfold decided. simpl. rewrite Z.mul_1_l. by destruct rates.
  - intros self rng' rate Hbig Ho. unfold subsampled. destruct (gen_range rng' rate) as [val rng1].
    unfold usize_mul, usize_wrap. rewrite bool_decide_false by lia.
    destruct overflow_checks; [done|]. destruct Ho as [?|Hz]; [done|]. simpl. by rewrite Hz.
Qed.
End sampling.

Section witnesses.
#[local] Existing Instance release_build.

(** A generator that gives the numbers of a list, zero when it is used up. *)
#[local] Program Instance demo_rng : Rng (list Z) := {|
  gen_range l n := match l with [] => (0, []) | x :: l => (x mod n, l) end;
|}.
Next Obligation. intros [|x l] n Hn; simpl; [lia|]. by apply Z.mod_pos_bound. Qed.
#[local] Instance demo_sample : Sampleable Z := λ rate _, rate.

Lemma sampling_rates_witness :
  (∃ rng', subsample_all [10; 3] NoSampling [20; 9] = ret (SampledIn 30, rng')) ∧
  (apply (SampledIn 30) 1) = (Include, 30) ∧
  subsampled (SampledIn 4294967296) [] 4294967296 = panic.
Proof.
  destruct (sampling_rates (R:=list Z) [10; 3] [20; 9] 1) as (H1&_&H2&H3);
    [repeat constructor|vm_compute; discriminate|].
  split; [exact H1|]. split; [exact (H2 30)|]. apply H3; [reflexivity|right; reflexivity].
Defined.
End witnesses.
End Sampling.
