(* ===== verification/ScubaSample.v ===== *)
(** [scuba_sample::sample] (src/shed/scuba_sample/src/sample.rs): a sample as a map of typed
    values with a time and a subset, and its JSON form, a section per type.

    The map of a sample is a [HashMap], iterated in an order of its own: the operations that
    iterate over one take the entries in any order, and the theorems hold for all of them. *)
From stdpp Require Import strings.
From Stdlib Require Import String.
From S2P Require Import Prelude RustStd RustStr ScubaValue Sampling.

Module ScubaSample.
Import ScubaValue.
Section sample.
Context {FL : Floats} {JN : JsonNumber}.
#[local] Open Scope string_scope.

Definition TIME_COLUMN := "time".
Definition INT_KEY := "int".
Definition DOUBLE_KEY := "double".
Definition NORMAL_KEY := "normal".
Definition DENORM_KEY := "denorm".
Definition NORMVECTOR_KEY := "normvector".
Definition TAGSET_KEY := "tags".
Definition SUBSET_KEY := "__subset__".

Record ScubaSample := { time : Z; subset : option string; values : gmap string ScubaValue }.
Implicit Types (s : ScubaSample) (key section : string) (value : ScubaValue).

(** ** Construction and update *)

(** [SystemTime::now().duration_since(UNIX_EPOCH).expect(..).as_secs()], in seconds from the epoch. *)
Definition seconds_now (now : Z) : exec Z := if (now <? 0)%Z then panic else ret now.

Definition new_from_values (time : Z) (subset : option string) (values : gmap string ScubaValue) : ScubaSample :=
  {| time := time; subset := subset; values := values |}.
Definition with_timestamp (seconds_since_epoch : Z) : ScubaSample :=
  {| time := seconds_since_epoch; subset := None; values := ∅ |}.
Definition new (now : Z) : exec ScubaSample :=
  let! time := seconds_now now in ret {| time := time; subset := None; values := ∅ |}.

Definition set_values s (m : gmap string ScubaValue) : ScubaSample :=
  {| time := time s; subset := subset s; values := m |}.

Definition add s key value : ScubaSample := set_values s (<[key := value]> (values s)).
Definition add_opt s key (value : option ScubaValue) : ScubaSample :=
  match value with Some v => add s key v | None => s end.
Definition remove s key : ScubaSample := set_values s (delete key (values s)).
Definition retrieve s key : option ScubaValue * ScubaSample := (values s !! key, set_values s (delete key (values s))).
Definition get s key : option ScubaValue := values s !! key.
Definition keys s : gset string := dom (values s).
Definition set_subset s (sub : string) : ScubaSample := {| time := time s; subset := Some sub; values := values s |}.
Definition clear_subset s : ScubaSample := {| time := time s; subset := None; values := values s |}.
Definition set_time s (t : Z) : ScubaSample := {| time := t; subset := subset s; values := values s |}.
Definition set_time_now s (now : Z) : exec ScubaSample := let! t := seconds_now now in ret (set_time s t).

(** The loops over the entries of the other sample. *)
Definition join_entries s (entries : list (string * ScubaValue)) : ScubaSample :=
  foldl (λ s p, add s p.1 p.2) s entries.
Definition join_values s (entries : list (string * ScubaValue)) : ScubaSample := join_entries s entries.

Fixpoint join_values_or_panic s (entries : list (string * ScubaValue)) : exec ScubaSample :=
  match entries with
  | [] => ret s
  | (k, v) :: entries =>
      match values s !! k with
      | Some _ => panic
      | None => join_values_or_panic (add s k v) entries
      end
  end.

(** [Sampleable]: [self.add("sample_rate", rate)]. *)
#[export] Instance scuba_sampleable : Sampleable ScubaSample := λ rate s, add s "sample_rate" (from_int rate).

(** ** [to_json] *)

(** The section of a value. *)
Definition section_of value : string :=
  match value with
  | Int _ => INT_KEY
  | Double _ => DOUBLE_KEY
  | Normal _ => NORMAL_KEY
  | Denorm _ => DENORM_KEY
  | NormVector _ => NORMVECTOR_KEY
  | TagSet _ => TAGSET_KEY
  | Null NInt => INT_KEY
  | Null NDouble => DOUBLE_KEY
  | Null NNormal => NORMAL_KEY
  | Null NDenorm => DENORM_KEY
  | Null NNormVector => NORMVECTOR_KEY
  | Null NTagSet => TAGSET_KEY
  end.

(** [json.entry(section).or_insert(Value::Object(Map::new()))], then the insertion if that is an
    object. *)
Definition insert_in (json : gmap string Value) section key (x : Value) : gmap string Value :=
  let object := default (VObject ∅) (json !! section) in
  <[section := match object with VObject m => VObject (<[key := x]> m) | o => o end]> json.

Definition add_column (json : gmap string Value) (entry : string * ScubaValue) : gmap string Value :=
  let '(key, value) := entry in
  if decide (key = TIME_COLUMN) then json else insert_in json (section_of value) key (into_json value).

Definition add_subset s (json : gmap string Value) : gmap string Value :=
  match subset s with Some sub => <[SUBSET_KEY := VString sub]> json | None => json end.

Definition to_json s (entries : list (string * ScubaValue)) : gmap string Value :=
  let json := foldl add_column ∅ entries in
  let json := insert_in json INT_KEY TIME_COLUMN (VNumber (from_u64 (time s))) in
  add_subset s json.

(** ** What the sections hold *)

Definition sections : list string := [INT_KEY; DOUBLE_KEY; NORMAL_KEY; DENORM_KEY; NORMVECTOR_KEY; TAGSET_KEY].

(** The column [key] of a section. *)
Definition column (json : gmap string Value) section key : option Value :=
  match json !! section with Some (VObject m) => m !! key | _ => None end.

(** Every member is a section and an object. *)
Definition sectioned (json : gmap string Value) : Prop :=
  ∀ section x, json !! section = Some x → section ∈ sections ∧ ∃ m, x = VObject m.

Lemma section_of_sections value : section_of value ∈ sections.
Proof. unfold sections. destruct value as [| | | | | |[]]; simpl; set_solver. Qed.

Lemma insert_in_sectioned json section key x :
  sectioned json → section ∈ sections → sectioned (insert_in json section key x).
Proof.
  intros Hj Hs sec y. unfold insert_in. intros [[<- <-]|[Hn Hy]]%lookup_insert_Some; [|by apply Hj].
  split; [done|]. destruct (json !! section) as [o|] eqn:Ho; simpl; [|by eexists].
  destruct (Hj _ _ Ho) as [_ [m ->]]. by eexists.
Qed.

Lemma insert_in_column json section key x sec k :
  sectioned json →
  column (insert_in json section key x) sec k = if decide (sec = section ∧ k = key) then Some x else column json sec k.
Proof.
  intros Hj. unfold column, insert_in. destruct (decide (sec = section)) as [->|Hn].
  - rewrite lookup_insert_eq. destruct (json !! section) as [o|] eqn:Ho; simpl.
    + destruct (Hj _ _ Ho) as [_ [m ->]]. destruct (decide (k = key)) as [->|Hk].
      * by rewrite lookup_insert_eq, decide_True.
      * rewrite lookup_insert_ne by done. by rewrite decide_False by naive_solver.
    + destruct (decide (k = key)) as [->|Hk].
      * by rewrite lookup_insert_eq, decide_True.
      * rewrite lookup_insert_ne by done. by rewrite decide_False by naive_solver.
  - rewrite lookup_insert_ne by done. by rewrite decide_False by naive_solver.
Qed.

(** The columns after the loop are those of the entries, each in the section of its value. *)
Lemma columns_of entries :
  NoDup entries.*1 →
  sectioned (foldl add_column ∅ entries) ∧
  ∀ sec k x, column (foldl add_column ∅ entries) sec k = Some x ↔
    ∃ value, (k, value) ∈ entries ∧ k ≠ TIME_COLUMN ∧ sec = section_of value ∧ x = into_json value.
Proof.
  induction entries as [|[key value] entries IH] using rev_ind; intros Hnd.
  { split; [done|]. intros sec k x. unfold column. simpl. rewrite lookup_empty. split; [done|]. set_solver. }
  rewrite fmap_app in Hnd. apply NoDup_app in Hnd as (Hnd&Hdis&_). destruct (IH Hnd) as [Hsec Hcol].
  assert (∀ v, (key, v) ∉ entries) as Hnew.
  { intros v Hv. apply (Hdis key); [|by left]. apply list_elem_of_fmap. by exists (key, v). }
  rewrite foldl_app. simpl. destruct (decide (key = TIME_COLUMN)) as [Ht|Ht].
  - split; [done|]. intros sec k x. rewrite Hcol. set_solver.
  - split; [apply insert_in_sectioned; [done|apply section_of_sections]|]. intros sec k x.
    rewrite insert_in_column by done. destruct (decide _) as [[-> ->]|Hn].
    + split; [intros [= <-]; exists value; set_solver|].
      intros (v&[Hv|[= ->]%list_elem_of_singleton]%elem_of_app&_&_&->); [by destruct (Hnew v)|done].
    + rewrite Hcol. split; [set_solver|]. intros (v&[Hv|[= -> ->]%list_elem_of_singleton]%elem_of_app&?&->&->).
      * by exists v.
      * by destruct Hn.
Qed.

(** What may stand in a section. *)
Definition typed_in section (x : Value) : Prop :=
  x = VNull ∨
  match x with
  | VNumber _ => section = INT_KEY ∨ section = DOUBLE_KEY
  | VString _ => section = NORMAL_KEY ∨ section = DENORM_KEY
  | VArray a => (section = NORMVECTOR_KEY ∨ section = TAGSET_KEY) ∧ is_Some (all_strings a)
  | _ => False
  end.

Lemma into_json_typed value : typed_in (section_of value) (into_json value).
Proof.
  unfold typed_in. destruct value as [v|v|v|v|v|v|n]; simpl; eauto.
  - destruct (from_f64 v); eauto.
  - right. split; [eauto|]. rewrite all_strings_VString. by eexists.
  - right. split; [eauto|]. rewrite all_strings_VString. by eexists.
Qed.

(** C23: whatever the order in which the map is iterated, the JSON of a sample has no members
    but the six sections, which are objects, and the subset; a section holds exactly the
    columns of its type, except one named [time], each the JSON of its value and of the
    section's type, and the section of integers the time of the sample. *)
Theorem scuba_to_json_typed s entries :
  entries ≡ₚ map_to_list (values s) →
  let json := to_json s entries in
  (∀ member x, json !! member = Some x →
    (member ∈ sections ∧ ∃ m, x = VObject m ∧ ∀ k y, m !! k = Some y → typed_in member y) ∨
    (member = SUBSET_KEY ∧ ∃ sub, subset s = Some sub ∧ x = VString sub)) ∧
  json !! SUBSET_KEY = VString <$> subset s ∧
  (∀ section k x, column json section k = Some x ↔
    (∃ value, get s k = Some value ∧ k ≠ TIME_COLUMN ∧ section = section_of value ∧ x = into_json value) ∨
    (section = INT_KEY ∧ k = TIME_COLUMN ∧ x = VNumber (from_u64 (time s)))).
Proof.
  intros Hp. assert (NoDup entries.*1) as Hnd by (rewrite Hp; apply NoDup_fst_map_to_list).
  destruct (columns_of entries Hnd) as [Hsec0 Hcol0]. unfold to_json.
  set (json1 := insert_in (foldl add_column ∅ entries) INT_KEY TIME_COLUMN (VNumber (from_u64 (time s)))).
  assert (sectioned json1) as Hsec by (apply insert_in_sectioned; [done|unfold sections; set_solver]).
  assert (∀ section k x, column json1 section k = Some x ↔
    (∃ value, get s k = Some value ∧ k ≠ TIME_COLUMN ∧ section = section_of value ∧ x = into_json value) ∨
    (section = INT_KEY ∧ k = TIME_COLUMN ∧ x = VNumber (from_u64 (time s)))) as Hcol.
  { intros sec k x. subst json1. rewrite insert_in_column by done. setoid_rewrite <-elem_of_map_to_list.
    setoid_rewrite <-Hp. destruct (decide _) as [[-> ->]|Hn]; [naive_solver|]. rewrite Hcol0. naive_solver. }
  assert (json1 !! SUBSET_KEY = None) as Hsub.
  { destruct (json1 !! SUBSET_KEY) as [x|] eqn:Hx; [|done]. destruct (Hsec _ _ Hx) as [Hin _].
    unfold sections in Hin. set_solver. }
  assert (∀ member, member ≠ SUBSET_KEY → add_subset s json1 !! member = json1 !! member) as Hmem.
  { intros member Hm. unfold add_subset. destruct (subset s); [by rewrite lookup_insert_ne|done]. }
  assert (add_subset s json1 !! SUBSET_KEY = VString <$> subset s) as Hs.
  { unfold add_subset. destruct (subset s); [by rewrite lookup_insert_eq|done]. }
  split; [|split; [done|]].
  - intros member x Hx. destruct (decide (member = SUBSET_KEY)) as [->|Hm].
    { right. split; [done|]. rewrite Hs in Hx. destruct (subset s) as [sub|]; [|done]. simplify_eq/=. by exists sub. }
    left. rewrite Hmem in Hx by done. destruct (Hsec _ _ Hx) as [Hin [m ->]]. split; [done|]. exists m. split; [done|].
    intros k y Hk. destruct (proj1 (Hcol member k y)) as [(v&_&_&->&->)|(->&_&->)].
    + unfold column. by rewrite Hx.
    + apply into_json_typed.
    + right. by left.
  - intros sec k x. unfold column. destruct (decide (sec = SUBSET_KEY)) as [->|Hn]; [|rewrite Hmem by done; apply Hcol].
    rewrite Hs. split; [by destruct (subset s)|].
    intros Hc%Hcol. unfold column in Hc. by rewrite Hsub in Hc.
Qed.

(** ** Joining *)

Lemma values_join_entries s entries :
  NoDup entries.*1 → values (join_entries s entries) = list_to_map entries ∪ values s.
Proof.
  unfold join_entries. revert s. induction entries as [|[k v] entries IH]; intros s Hnd; simpl.
  { by rewrite (left_id_L ∅ (∪)). }
  apply NoDup_cons in Hnd as [Hk Hnd]. rewrite IH by done. simpl. rewrite <-insert_union_l. symmetry.
  apply insert_union_r. by apply not_elem_of_list_to_map_1.
Qed.

(** Joining another sample overrides the columns both have, in any order of iteration; the
    panicking form does the same when they have none in common, and panics otherwise. *)
Theorem join_values_spec s (other : gmap string ScubaValue) entries :
  entries ≡ₚ map_to_list other →
  values (join_values s entries) = other ∪ values s ∧
  join_values_or_panic s entries = (if decide (other ##ₘ values s) then ret (join_values s entries) else panic).
Proof.
  intros Hp. assert (NoDup entries.*1) as Hnd by (rewrite Hp; apply NoDup_fst_map_to_list).
  assert (list_to_map entries = other) as Hmap by (rewrite (list_to_map_proper _ _ Hnd Hp); apply list_to_map_to_list).
  unfold join_values. split; [by rewrite values_join_entries, Hmap|].
  rewrite <-Hmap. clear Hp Hmap other. revert s. induction entries as [|[k v] entries IH]; intros s; simpl.
  { rewrite decide_True by apply map_disjoint_empty_l. done. }
  apply NoDup_cons in Hnd as [Hk Hnd]. pose proof (not_elem_of_list_to_map_1 (M:=gmap string) _ _ Hk) as Hk'.
  destruct (values s !! k) as [v'|] eqn:Hv.
  - rewrite decide_False; [done|]. rewrite map_disjoint_insert_l. naive_solver congruence.
  - rewrite (IH Hnd (add s k v)). simpl. destruct (decide _) as [Hd|Hd].
    + rewrite decide_True; [done|]. apply map_disjoint_insert_r in Hd as [_ Hd]. by apply map_disjoint_insert_l.
    + rewrite decide_False; [done|]. intros [_ Hd']%map_disjoint_insert_l. apply Hd. by apply map_disjoint_insert_r.
Qed.
End sample.

(** ** A run *)

Section witnesses.
#[local] Existing Instance demo_floats.
#[local] Existing Instance demo_numbers.
#[local] Open Scope string_scope.

(** A sample with a column named [time], which is left out, and a null of double type. *)
Definition demo_sample : ScubaSample :=
  set_subset (add (add (add (with_timestamp 12) "time" (Int 5)) "cpu" (Null NDouble)) "host" (Normal "a")) "dev".
Definition demo_entries : list (string * ScubaValue) := map_to_list (values demo_sample).

Lemma scuba_to_json_typed_witness :
  to_json demo_sample demo_entries !! SUBSET_KEY = Some (VString "dev") ∧
  column (to_json demo_sample demo_entries) "double" "cpu" = Some VNull ∧
  column (to_json demo_sample demo_entries) "int" "time" = Some (VNumber (from_u64 12)).
Proof.
  destruct (scuba_to_json_typed demo_sample demo_entries (reflexivity _)) as (_&Hs&Hc).
  split; [exact Hs|]. split; apply Hc.
  - left. exists (Null NDouble). split; [reflexivity|]. split; [discriminate|]. split; reflexivity.
  - right. split; [reflexivity|]. split; reflexivity.
Defined.
End witnesses.
End ScubaSample.
