(* ===== verification/CachedConfig.v ===== *)
(** The [cached_config] crate (src/shed/cached_config/src): a store that hands out handles on
    configs read from a source, and refreshes the live ones when the source says so.

    Entities are shared: a handle is an index into a heap of entities with their counts of
    strong references, the store keeps weak ones, which are indices too.  The [watch] channel
    of [tokio] that holds the value of an entity is a class with its documented behaviour, a
    source is one with the two operations of the trait; the bytes of a config are a string.
    Logging is left out, and so are the locks, which no operation holds when it returns: an
    iteration of the updater is one step. *)
From stdpp Require Import strings.
From Stdlib Require Import String.
From S2P Require Import Prelude RustStd.

(** * [tokio::sync::watch] *)

(** A channel keeps the last value sent; a receiver remembers what it has seen, and has seen
    the first value.  A clone has seen what the original has. *)
Class Watch (T : Type) := {
  wchan : Type;
  wrecv : Type;
  w_channel : T → wchan * wrecv;
  w_borrow : wchan → T;
  w_receivers : wchan → nat;
  w_send : T → wchan → bool * wchan;
  w_clone : wrecv → wchan → wrecv * wchan;
  w_unseen : wrecv → wchan → bool;
  w_mark_seen : wrecv → wchan → wrecv;
  w_listens : wrecv → wchan → Prop;
  w_channel_spec v : let '(c, r) := w_channel v in
    w_borrow c = v ∧ w_receivers c = 1 ∧ w_listens r c ∧ w_unseen r c = false;
  w_send_spec v c : 0 < w_receivers c →
    ∃ c', w_send v c = (true, c') ∧ w_borrow c' = v ∧ w_receivers c' = w_receivers c ∧
      ∀ r, w_listens r c → w_listens r c' ∧ w_unseen r c' = true;
  w_clone_spec r c : let '(r', c') := w_clone r c in
    w_borrow c' = w_borrow c ∧ w_receivers c' = S (w_receivers c) ∧
    (w_listens r c → w_listens r' c' ∧ w_unseen r' c' = w_unseen r c) ∧
    ∀ r0, w_listens r0 c → w_listens r0 c' ∧ w_unseen r0 c' = w_unseen r0 c;
  w_mark_seen_spec r c : w_listens (w_mark_seen r c) c ∧ w_unseen (w_mark_seen r c) c = false;
}.

(** An instance: versions. *)
#[export] Program Instance versions (T : Type) : Watch T | 100 := {|
  wchan := T * nat * nat; wrecv := nat;
  w_channel v := ((v, 0, 1), 0);
  w_borrow c := c.1.1;
  w_receivers c := c.2;
  w_send v c := if c.2 =? 0 then (false, c) else (true, (v, S c.1.2, c.2));
  w_clone r c := (r, (c.1, S c.2));
  w_unseen r c := r <? c.1.2;
  w_mark_seen r c := c.1.2;
  w_listens r c := r ≤ c.1.2;
|}.
Next Obligation. done. Qed.
Next Obligation.
  intros T v [[u n] [|k]] Hk; simpl in *; [lia|]. eexists. do 3 (split; [done|]). intros r Hr; simpl.
  rewrite Nat.ltb_lt. lia.
Qed.
Next Obligation. done. Qed.
Next Obligation. intros T r [[u n] k]; simpl. by rewrite Nat.ltb_irrefl. Qed.

(** * Sources *)

Inductive ModificationTime (D : Type) := Unset | UnixTimestamp (s : Z) | DateTime (t : D).
Arguments Unset {D}.
Arguments UnixTimestamp {D} s.
Arguments DateTime {D} t.

#[export] Instance modification_time_dec {D} `{EqDecision D} : EqDecision (ModificationTime D).
Proof. solve_decision. Defined.

Record Entity {D : Type} := { contents : option string; mod_time : ModificationTime D; version : string }.
Arguments Entity : clear implicits.

(** The trait [Source] over a world: files, a map in memory, a service. *)
Class Source (D E W : Type) := {
  config_for_path : string → W → result (Entity D) E * W;
  paths_to_refresh : list string → W → list string * W;
}.

Inductive Error (E : Type) := SourceError (e : E) | Deserialize (e : E) | NoSubscriber | StaticConfig | UpdaterGone.
Arguments SourceError {E} e.
Arguments Deserialize {E} e.
Arguments NoSubscriber {E}.
Arguments StaticConfig {E}.
Arguments UpdaterGone {E}.

Module CachedConfig.
Section config.
Context {T D E W : Type} `{EqDecision D} {WT : Watch T} {SO : Source D E W}.

(** ** [RegisteredConfigEntity] *)

Record RegisteredConfigEntity := {
  cached_mod_time : ModificationTime D;
  cached_version : string;
  path : string;
  deserializer : string → result T E;
  update_sender : wchan;
  update_receiver : wrecv;
}.
Implicit Types (r : RegisteredConfigEntity) (w : W).

Definition registered_new (p : string) (entity : Entity D) (d : string → result T E) : result RegisteredConfigEntity (Error E) :=
  match d (default ""%string (contents entity)) with
  | Err e => Err (Deserialize e)
  | Ok v =>
      let '(sender, receiver) := w_channel v in
      Ok {| cached_mod_time := mod_time entity; cached_version := version entity; path := p; deserializer := d;
            update_sender := sender; update_receiver := receiver |}
  end.

Definition registered_get r : T := w_borrow (update_sender r).

Definition has_changed r (entity : Entity D) : bool :=
  negb (bool_decide (mod_time entity = cached_mod_time r)) || negb (bool_decide (version entity = cached_version r)).

Definition refresh r (entity : Entity D) : result bool (Error E) * RegisteredConfigEntity :=
  if has_changed r entity then
    match deserializer r (default ""%string (contents entity)) with
    | Err e => (Err (Deserialize e), r)
    | Ok v =>
        let '(sent, sender) := w_send v (update_sender r) in
        if negb sent then
          (Err NoSubscriber,
           {| cached_mod_time := cached_mod_time r; cached_version := cached_version r; path := path r;
              deserializer := deserializer r; update_sender := sender; update_receiver := update_receiver r |})
        else
          (Ok true,
           {| cached_mod_time := mod_time entity; cached_version := version entity; path := path r;
              deserializer := deserializer r; update_sender := sender; update_receiver := update_receiver r |})
    end
  else (Ok false, r).

(** ** [ConfigStore] *)

(** The clients by path, and the heap of entities with their strong references. *)
Record ConfigStore := { clients : gmap string (list nat); heap : list (RegisteredConfigEntity * nat) }.
Implicit Types (s : ConfigStore).

Definition new : ConfigStore := {| clients := ∅; heap := [] |}.

Inductive ConfigHandle := Registered (id : nat) | Fixed (v : T).

(** [Weak::upgrade]. *)
Definition upgrades s (id : nat) : bool := match heap s !! id with Some (_, S _) => true | _ => false end.

Definition get_config_handle_with_deserializer (p : string) (d : string → result T E) s w
  : result ConfigHandle (Error E) * ConfigStore * W :=
  match config_for_path p w with
  | (Err e, w) => (Err (SourceError e), s, w)
  | (Ok entity, w) =>
      match registered_new p entity d with
      | Err e => (Err e, s, w)
      | Ok r =>
          let id := length (heap s) in
          (Ok (Registered id),
           {| clients := <[p := default [] (clients s !! p) ++ [id]]> (clients s); heap := heap s ++ [(r, 1)] |}, w)
      end
  end.

Definition set_entity s (id : nat) (rn : RegisteredConfigEntity * nat) : ConfigStore :=
  {| clients := clients s; heap := <[id := rn]> (heap s) |}.

Definition refresh_client (id : nat) s w : ConfigStore * W :=
  match heap s !! id with
  | None => (s, w)
  | Some (r, n) =>
      match config_for_path (path r) w with
      | (Err _, w) => (s, w)
      | (Ok entity, w) => (set_entity s id ((refresh r entity).2, n), w)
      end
  end.

Fixpoint refresh_client_list (client_list : list nat) s w : ConfigStore * W :=
  match client_list with
  | [] => (s, w)
  | id :: rest =>
      let '(s, w) := if upgrades s id then refresh_client id s w else (s, w) in
      refresh_client_list rest s w
  end.

Fixpoint refresh_paths (paths : list string) s w : ConfigStore * W :=
  match paths with
  | [] => (s, w)
  | p :: rest =>
      let '(s, w) := match clients s !! p with Some l => refresh_client_list l s w | None => (s, w) end in
      refresh_paths rest s w
  end.

(** [clients.retain(..)]. *)
Definition retain_clients s : ConfigStore :=
  {| clients := omap (λ l, match filter (λ id, upgrades s id = true) l with [] => None | l' => Some l' end) (clients s);
     heap := heap s |}.

(** [None] while there are no clients: the updater waits to be kicked.  [order] is the order in
    which the map hands out its keys. *)
Definition updater_thread_iteration (order : list string) s w : option (ConfigStore * W) :=
  if decide (clients s = ∅) then None
  else
    let '(paths, w) := paths_to_refresh order w in
    let '(s, w) := refresh_paths paths s w in
    Some (retain_clients s, w).

Definition force_update_configs := updater_thread_iteration.

(** ** [ConfigHandle] *)

Definition handle_get (h : ConfigHandle) s : option T :=
  match h with
  | Registered id => (λ rn, registered_get rn.1) <$> heap s !! id
  | Fixed v => Some v
  end.

(** Cloning and dropping the [Arc] in a handle. *)
Definition handle_clone (h : ConfigHandle) s : ConfigStore :=
  match h with
  | Registered id => match heap s !! id with Some (r, n) => set_entity s id (r, S n) | None => s end
  | Fixed _ => s
  end.
Definition handle_drop (h : ConfigHandle) s : ConfigStore :=
  match h with
  | Registered id => match heap s !! id with Some (r, n) => set_entity s id (r, n - 1) | None => s end
  | Fixed _ => s
  end.

Definition from_json (d : string → result T E) (data : string) : result ConfigHandle (Error E) :=
  match d data with Ok v => Ok (Fixed v) | Err e => Err (Deserialize e) end.
Definition from_value (v : T) : ConfigHandle := Fixed v.

(** ** [ConfigUpdateWatcher] *)

Record ConfigUpdateWatcher := { watched : nat; receiver : wrecv }.

Definition with_sender r (c : wchan) : RegisteredConfigEntity :=
  {| cached_mod_time := cached_mod_time r; cached_version := cached_version r; path := path r;
     deserializer := deserializer r; update_sender := c; update_receiver := update_receiver r |}.

Definition watcher (h : ConfigHandle) s : result ConfigUpdateWatcher (Error E) * ConfigStore :=
  match h with
  | Fixed _ => (Err StaticConfig, s)
  | Registered id =>
      match heap s !! id with
      | None => (Err UpdaterGone, s)
      | Some (r, n) =>
          let '(recv, sender) := w_clone (update_receiver r) (update_sender r) in
          (Ok {| watched := id; receiver := recv |}, set_entity s id (with_sender r sender, n))
      end
  end.

(** [wait_for_next] in two steps: [changed().await], ready when the receiver has not seen the
    value, or with an error when the entity is gone; then [borrow().clone()]. *)
Definition wait_changed (cw : ConfigUpdateWatcher) s : Poll (result () (Error E)) * ConfigUpdateWatcher :=
  match heap s !! watched cw with
  | None => (Ready (Err UpdaterGone), cw)
  | Some (r, n) =>
      if w_unseen (receiver cw) (update_sender r) then
        (Ready (Ok ()), {| watched := watched cw; receiver := w_mark_seen (receiver cw) (update_sender r) |})
      else if n =? 0 then (Ready (Err UpdaterGone), cw) else (Pending, cw)
  end.
Definition wait_borrow (cw : ConfigUpdateWatcher) s : option T := handle_get (Registered (watched cw)) s.

(** ** An entity and its source *)

(** The channel has the entity's own receiver. *)
Definition listened r : Prop := 0 < w_receivers (update_sender r) ∧ w_listens (update_receiver r) (update_sender r).

(** The stamp and the value of an entity come from one reading of its path. *)
Definition backed r : Prop :=
  ∃ e w, (config_for_path (path r) w).1 = Ok e ∧ cached_mod_time r = mod_time e ∧ cached_version r = version e ∧
    deserializer r (default ""%string (contents e)) = Ok (registered_get r).

Lemma registered_new_ok p entity d r w :
  (config_for_path p w).1 = Ok entity → registered_new p entity d = Ok r → path r = p ∧ listened r ∧ backed r.
Proof.
  intros Hc. unfold registered_new. destruct (d _) as [v|] eqn:Hd; [|done]. pose proof (w_channel_spec v) as Hv.
  destruct (w_channel v) as [c k]. destruct Hv as (Hb&Hr&Hl&_). intros [= <-]. split; [done|]. unfold listened; simpl.
  split; [by rewrite Hr; eauto with lia|]. exists entity, w. unfold registered_get. simpl. by rewrite Hb, Hd.
Qed.

Lemma has_changed_false r e : has_changed r e = false ↔ mod_time e = cached_mod_time r ∧ version e = cached_version r.
Proof. unfold has_changed. rewrite orb_false_iff, !negb_false_iff, !bool_decide_eq_true. done. Qed.

(** Every branch of [refresh]. *)
Lemma refresh_cases r e :
  listened r →
  let '(res, r') := refresh r e in
  path r' = path r ∧ deserializer r' = deserializer r ∧ update_receiver r' = update_receiver r ∧ listened r' ∧
  if has_changed r e then
    match deserializer r (default ""%string (contents e)) with
    | Ok v => res = Ok true ∧ registered_get r' = v ∧ cached_mod_time r' = mod_time e ∧ cached_version r' = version e ∧
        ∀ k, w_listens k (update_sender r) → w_listens k (update_sender r') ∧ w_unseen k (update_sender r') = true
    | Err err => res = Err (Deserialize err) ∧ r' = r
    end
  else res = Ok false ∧ r' = r.
Proof.
  intros [Hr Hl]. unfold refresh. destruct (has_changed r e); [|done].
  destruct (deserializer r _) as [v|err]; [|done]. destruct (w_send_spec v (update_sender r) Hr) as (c&->&Hb&Hn&Hk).
  simpl. do 3 (split; [done|]). split; [split; simpl; [by rewrite Hn|by apply Hk]|]. done.
Qed.

(** What an entity is after its path was read. *)
Definition refreshed r (reading : result (Entity D) E) : RegisteredConfigEntity :=
  match reading with Ok e => (refresh r e).2 | Err _ => r end.

Lemma refreshed_keeps r reading :
  listened r →
  path (refreshed r reading) = path r ∧ deserializer (refreshed r reading) = deserializer r ∧ listened (refreshed r reading).
Proof.
  intros Hl. destruct reading as [e|]; [|done]. simpl. pose proof (refresh_cases r e Hl) as Hc.
  destruct (refresh r e) as [res r']. naive_solver.
Qed.

Lemma refreshed_backed r w : listened r → backed r → backed (refreshed r (config_for_path (path r) w).1).
Proof.
  intros Hl Hb. destruct (config_for_path (path r) w).1 as [e|] eqn:He; [|done]. simpl.
  pose proof (refresh_cases r e Hl) as Hc. destruct (refresh r e) as [res r']. simpl.
  destruct Hc as (Hp&Hd&_&_&Hc). destruct (has_changed r e); [|by destruct Hc as [_ ->]].
  destruct (deserializer r _) as [v|err] eqn:Hv; [|by destruct Hc as [_ ->]]. destruct Hc as (_&Hg&Hm&Hver&_).
  exists e, w. by rewrite Hp, Hd, Hg.
Qed.

(** Reading the same again changes nothing more. *)
Lemma refreshed_again r reading : listened r → refreshed (refreshed r reading) reading = refreshed r reading.
Proof.
  intros Hl. destruct reading as [e|]; [|done]. simpl. pose proof (refresh_cases r e Hl) as Hc.
  destruct (refresh r e) as [res r'] eqn:Hr. simpl. destruct Hc as (_&Hd&_&_&Hc).
  destruct (has_changed r e) eqn:Hch.
  - destruct (deserializer r _) as [v|err] eqn:Hv.
    + destruct Hc as (_&_&Hm&Hver&_). unfold refresh. by rewrite (proj2 (has_changed_false r' e)).
    + destruct Hc as [_ ->]. by rewrite Hr.
  - destruct Hc as [_ ->]. by rewrite Hr.
Qed.

(** ** The store *)

Definition client_ids s (p : string) : list nat := default [] (clients s !! p).

Record store_ok s : Prop := {
  live_registered id r n : heap s !! id = Some (r, S n) → id ∈ client_ids s (path r);
  registered_path p id : id ∈ client_ids s p → ∃ r n, heap s !! id = Some (r, n) ∧ path r = p;
  lists_nonempty p l : clients s !! p = Some l → l ≠ [];
  entities_listened id r n : heap s !! id = Some (r, n) → listened r;
  entities_backed id r n : heap s !! id = Some (r, n) → backed r;
}.

Lemma new_ok : store_ok new.
Proof. unfold new. split; unfold client_ids; simpl; intros *; rewrite ?lookup_nil, ?lookup_empty; set_solver. Qed.

Lemma register_ok p d s w res s' w' :
  store_ok s → get_config_handle_with_deserializer p d s w = (res, s', w') → store_ok s'.
Proof.
  intros Hs. unfold get_config_handle_with_deserializer. destruct (config_for_path p w) as [[entity|e] w1] eqn:Hc;
    [|by intros [= <- <- <-]]. destruct (registered_new p entity d) as [r|e] eqn:Hr; [|by intros [= <- <- <-]].
  intros [= <- <- <-]. apply (registered_new_ok _ _ _ _ w) in Hr as (Hp&Hl&Hb); [|by rewrite Hc].
  set (id := length (heap s)). assert (∀ i x, (heap s ++ [(r, 1)]) !! i = Some x ↔ heap s !! i = Some x ∨ (i = id ∧ x = (r, 1))) as Hlook.
  { intros i x. rewrite lookup_app_Some, list_lookup_singleton_Some. split; [intros [?|[? [? ?]]]|intros [?|[-> ->]]]; [by left| |by left|].
    - right. subst id. split; [lia|done].
    - right. subst id. rewrite Nat.sub_diag. done. }
  assert (∀ q i, i ∈ client_ids {| clients := <[p:=client_ids s p ++ [id]]> (clients s); heap := heap s ++ [(r, 1)] |} q
    ↔ i ∈ client_ids s q ∨ (q = p ∧ i = id)) as Hids.
  { intros q i. unfold client_ids. simpl. destruct (decide (q = p)) as [->|Hq].
    - rewrite lookup_insert_eq. simpl. set_solver.
    - rewrite lookup_insert_ne by done. naive_solver. }
  split; simpl.
  - intros i r0 n [Hi|[-> [= -> ->]]]%Hlook; apply Hids; [left; by eapply live_registered|by right].
  - intros q i [Hi|[-> ->]]%Hids.
    + destruct (registered_path s Hs q i Hi) as (r0&n&?&?). exists r0, n. split; [apply Hlook; by left|done].
    + exists r, 1. split; [apply Hlook; by right|done].
  - intros q l. destruct (decide (q = p)) as [->|Hq]; [rewrite lookup_insert_eq; intros [= <-]; by destruct (default [] _)|].
    rewrite lookup_insert_ne by done. by apply lists_nonempty.
  - intros i r0 n [Hi|[-> [= -> ->]]]%Hlook; [by eapply entities_listened|done].
  - intros i r0 n [Hi|[-> [= -> ->]]]%Hlook; [by eapply entities_backed|done].
Qed.

(** A change of one entity that keeps its path. *)
Lemma set_entity_ok s id r n r' n' :
  store_ok s → heap s !! id = Some (r, n) → path r' = path r → listened r' → backed r' → (n = 0 → n' = 0) →
  store_ok (set_entity s id (r', n')).
Proof.
  intros Hs Hid Hp Hl Hb Hn. assert (id < length (heap s)) as Hlt by by eapply lookup_lt_Some.
  assert (∀ i x, <[id := (r', n')]> (heap s) !! i = Some x → (i = id ∧ x = (r', n')) ∨ (i ≠ id ∧ heap s !! i = Some x)) as Hlook.
  { intros i x Hi. destruct (decide (i = id)) as [->|Hne].
    - rewrite list_lookup_insert_eq in Hi by done. left. by simplify_eq.
    - rewrite list_lookup_insert_ne in Hi by done. by right. }
  split; simpl.
  - intros i r0 m [[-> [= -> <-]]|[_ Hi]]%Hlook; [|by apply (live_registered s Hs i r0 m)].
    rewrite Hp. destruct n as [|n]; [by specialize (Hn eq_refl)|]. by eapply (live_registered s Hs).
  - intros p i Hi. destruct (registered_path s Hs p i Hi) as (r0&m&Hr0&Hp0). destruct (decide (i = id)) as [->|Hne].
    + rewrite list_lookup_insert_eq by done. exists r', n'. split; [done|]. simplify_eq. done.
    + rewrite list_lookup_insert_ne by done. by exists r0, m.
  - apply (lists_nonempty s Hs).
  - intros i r0 m [[-> [= -> <-]]|[_ Hi]]%Hlook; [done|by eapply entities_listened].
  - intros i r0 m [[-> [= -> <-]]|[_ Hi]]%Hlook; [done|by eapply entities_backed].
Qed.

(** ** Refreshing *)

Lemma refresh_client_clients id s w : clients (refresh_client id s w).1 = clients s.
Proof. unfold refresh_client. by destruct (heap s !! id) as [[r n]|]; [destruct (config_for_path _ _) as [[]]|]. Qed.

Lemma refresh_client_list_app l1 l2 s w :
  refresh_client_list (l1 ++ l2) s w = (let '(s, w) := refresh_client_list l1 s w in refresh_client_list l2 s w).
Proof.
  revert s w. induction l1 as [|id l1 IH]; intros s w; simpl; [done|].
  destruct (if upgrades s id then _ else _) as [s1 w1]. apply IH.
Qed.

Lemma refresh_client_list_clients l s w : clients (refresh_client_list l s w).1 = clients s.
Proof.
  revert s w. induction l as [|id l IH]; intros s w; simpl; [done|]. destruct (if upgrades s id then _ else _) as [s1 w1] eqn:Hs.
  rewrite IH. destruct (upgrades s id); [|by simplify_eq]. pose proof (refresh_client_clients id s w) as Hc. by rewrite Hs in Hc.
Qed.

(** The paths are refreshed client by client. *)
Lemma refresh_paths_list paths s w : refresh_paths paths s w = refresh_client_list (paths ≫= client_ids s) s w.
Proof.
  revert s w. induction paths as [|p paths IH]; intros s w; simpl; [done|]. rewrite refresh_client_list_app.
  assert ((match clients s !! p with Some l => refresh_client_list l s w | None => (s, w) end)
    = refresh_client_list (client_ids s p) s w) as -> by (unfold client_ids; by destruct (clients s !! p)).
  pose proof (refresh_client_list_clients (client_ids s p) s w) as Hc.
  destruct (refresh_client_list (client_ids s p) s w) as [s1 w1]. simpl in Hc. rewrite IH. f_equal.
  apply Forall_bind_ext, Forall_forall. intros q _. unfold client_ids. by rewrite Hc.
Qed.

Lemma refresh_client_ok id s w : store_ok s → store_ok (refresh_client id s w).1.
Proof.
  intros Hs. unfold refresh_client. destruct (heap s !! id) as [[r n]|] eqn:Hid; [|done].
  pose proof (entities_listened s Hs id r n Hid) as Hl. pose proof (entities_backed s Hs id r n Hid) as Hb.
  pose proof (refreshed_keeps r (config_for_path (path r) w).1 Hl) as (Hp&_&Hl').
  pose proof (refreshed_backed r w Hl Hb) as Hb'.
  destruct (config_for_path (path r) w) as [[entity|] w1]; [|done]. by eapply set_entity_ok.
Qed.

Lemma refresh_client_list_ok l s w : store_ok s → store_ok (refresh_client_list l s w).1.
Proof.
  revert s w. induction l as [|id l IH]; intros s w Hs; simpl; [done|].
  destruct (if upgrades s id then _ else _) as [s1 w1] eqn:H1. apply IH. destruct (upgrades s id); [|by simplify_eq].
  pose proof (refresh_client_ok id s w Hs) as Hc. by rewrite H1 in Hc.
Qed.

Lemma upgrades_spec s id : upgrades s id = true ↔ ∃ r n, heap s !! id = Some (r, S n).
Proof. unfold upgrades. destruct (heap s !! id) as [[r [|n]]|]; naive_solver. Qed.

(** What is left of a path's clients. *)
Lemma retained_ids s p : client_ids (retain_clients s) p = filter (λ id, upgrades s id = true) (client_ids s p).
Proof.
  unfold client_ids, retain_clients. simpl. rewrite lookup_omap. destruct (clients s !! p) as [l|]; simpl; [|done].
  by destruct (filter _ l).
Qed.

Lemma retain_ok s : store_ok s → store_ok (retain_clients s).
Proof.
  intros Hs. split.
  - intros id r n Hid. rewrite retained_ids. apply list_elem_of_filter. split; [apply upgrades_spec; eauto|].
    by eapply live_registered.
  - intros p id. rewrite retained_ids. intros [_ Hid]%list_elem_of_filter. by apply (registered_path s Hs).
  - intros p l. unfold retain_clients. simpl. rewrite lookup_omap. destruct (clients s !! p) as [l0|]; [|done]. simpl.
    by destruct (filter _ l0); [|intros [= <-]].
  - apply (entities_listened s Hs).
  - apply (entities_backed s Hs).
Qed.

Lemma iteration_ok order s w s' w' : store_ok s → updater_thread_iteration order s w = Some (s', w') → store_ok s'.
Proof.
  intros Hs. unfold updater_thread_iteration. destruct (decide _); [done|]. destruct (paths_to_refresh order w) as [paths w1].
  rewrite refresh_paths_list. pose proof (refresh_client_list_ok (paths ≫= client_ids s) s w1 Hs) as Hr.
  destruct (refresh_client_list _ s w1) as [s1 w2]. intros [= <- <-]. by apply retain_ok.
Qed.

(** ** Runs *)

(** What happens to a store: handles are obtained, cloned, dropped and watched by those who hold
    one, the updater iterates, and the source changes as it likes. *)
Inductive step : relation (ConfigStore * W) :=
| step_register p d s w res s' w' : get_config_handle_with_deserializer p d s w = (res, s', w') → step (s, w) (s', w')
| step_iterate order s w s' w' :
    order ≡ₚ (map_to_list (clients s)).*1 → updater_thread_iteration order s w = Some (s', w') → step (s, w) (s', w')
| step_clone id s w : upgrades s id = true → step (s, w) (handle_clone (Registered id) s, w)
| step_drop id s w : upgrades s id = true → step (s, w) (handle_drop (Registered id) s, w)
| step_watch id s w : upgrades s id = true → step (s, w) ((watcher (Registered id) s).2, w)
| step_source s w w' : step (s, w) (s, w').

Definition reachable s w : Prop := ∃ w0, rtc step (new, w0) (s, w).

Lemma watch_ok id s : store_ok s → upgrades s id = true → store_ok (watcher (Registered id) s).2.
Proof.
  intros Hs (r&n&Hid)%upgrades_spec. simpl. rewrite Hid. pose proof (w_clone_spec (update_receiver r) (update_sender r)) as Hw.
  destruct (entities_listened s Hs id r _ Hid) as [Hr Hl]. destruct (w_clone _ _) as [k c]. destruct Hw as (Hb&Hn&_&Hk).
  simpl. eapply set_entity_ok; [done..| | |done].
  - split; simpl; [rewrite Hn; lia|by apply Hk].
  - destruct (entities_backed s Hs id r _ Hid) as (e&w&?&?&?&Hd). exists e, w. unfold registered_get in *. simpl. by rewrite Hb.
Qed.

Lemma step_ok s w s' w' : store_ok s → step (s, w) (s', w') → store_ok s'.
Proof.
  intros Hs Hstep. inversion Hstep; subst.
  - by eapply register_ok.
  - by eapply iteration_ok.
  - match goal with H : upgrades _ _ = true |- _ => apply upgrades_spec in H as (r&n&Hid) end. simpl. rewrite Hid.
    eapply set_entity_ok; eauto using entities_listened, entities_backed with lia.
  - match goal with H : upgrades _ _ = true |- _ => apply upgrades_spec in H as (r&n&Hid) end. simpl. rewrite Hid.
    eapply set_entity_ok; eauto using entities_listened, entities_backed with lia.
  - by apply watch_ok.
  - done.
Qed.

Lemma reachable_store_ok s w : reachable s w → store_ok s.
Proof.
  intros [w0 Hr]. assert (∀ x y, rtc step x y → store_ok x.1 → store_ok y.1) as H.
  { induction 1 as [|[s1 w1] [s2 w2] y Hs _ IH]; [done|]. intros H1. apply IH. by eapply step_ok. }
  exact (H _ _ Hr new_ok).
Qed.

(** C24: in every run of a store, whatever the source does: the value a live handle reads and
    the stamp kept with it come from one and the same entity the source gave for its path;
    the store knows every live handle under its path and under no other; and a new watcher has
    seen exactly what the handle's own receiver has, so it is never behind. *)
Theorem cached_config_consistent s w id r n :
  reachable s w → heap s !! id = Some (r, S n) →
  handle_get (Registered id) s = Some (registered_get r) ∧
  (∃ e w', (config_for_path (path r) w').1 = Ok e ∧ cached_mod_time r = mod_time e ∧ cached_version r = version e ∧
    deserializer r (default ""%string (contents e)) = Ok (registered_get r)) ∧
  id ∈ client_ids s (path r) ∧
  (∀ p, id ∈ client_ids s p → p = path r) ∧
  (∃ cw s', watcher (Registered id) s = (Ok cw, s') ∧ handle_get (Registered id) s' = Some (registered_get r) ∧
    ∀ res cw', wait_changed cw s' = (res, cw') →
      res = (if w_unseen (update_receiver r) (update_sender r) then Ready (Ok ()) else Pending)).
Proof.
  intros Hs%reachable_store_ok Hid. pose proof (entities_listened s Hs id r _ Hid) as [Hn Hl].
  split; [simpl; by rewrite Hid|]. split; [by eapply entities_backed|]. split; [by eapply live_registered|]. split.
  { intros p Hp. destruct (registered_path s Hs p id Hp) as (r0&m&?&?). by simplify_eq. }
  assert (id < length (heap s)) as Hlt by by eapply lookup_lt_Some.
  simpl. rewrite Hid. pose proof (w_clone_spec (update_receiver r) (update_sender r)) as Hw.
  destruct (w_clone _ _) as [k c]. destruct Hw as (Hb&_&Hk&_). eexists _, _. split; [done|]. simpl.
  rewrite list_lookup_insert_eq by done. split; [simpl; unfold registered_get; simpl; by rewrite Hb|].
  intros res cw'. unfold wait_changed. simpl. rewrite list_lookup_insert_eq by done. simpl.
  rewrite (proj2 (Hk Hl)). by destruct (w_unseen (update_receiver r) (update_sender r)); intros [= <- <-].
Qed.

(** For a source that a reading does not change, the exact effect. *)
Section reading.
Context (reads : ∀ p w, (config_for_path p w).2 = w).

Definition reading p w : result (Entity D) E := (config_for_path p w).1.

(** Clients of the list are refreshed once, the others keep what they have. *)
Lemma refresh_client_list_reads l s w :
  (∀ id r n, heap s !! id = Some (r, n) → listened r) →
  ∃ s', refresh_client_list l s w = (s', w) ∧ clients s' = clients s ∧ ∀ id,
    heap s' !! id = match heap s !! id with
                    | Some (r, S n) => Some (if decide (id ∈ l) then refreshed r (reading (path r) w) else r, S n)
                    | o => o end.
Proof.
  revert s. induction l as [|i l IH]; intros s Hs.
  { exists s. do 2 (split; [done|]). intros id. destruct (heap s !! id) as [[r [|n]]|]; [done| |done].
    rewrite decide_False; [done|set_solver]. }
  cbn [refresh_client_list].
  assert (∃ s1, (if upgrades s i then refresh_client i s w else (s, w)) = (s1, w) ∧ clients s1 = clients s ∧
    ∀ id, heap s1 !! id = match heap s !! id with
      | Some (r, S n) => Some (if decide (id = i) then refreshed r (reading (path r) w) else r, S n) | o => o end) as (s1&->&Hc1&Hh1).
  { destruct (upgrades s i) eqn:Hu.
    - apply upgrades_spec in Hu as (r&n&Hi). unfold refresh_client. rewrite Hi. unfold reading. pose proof (reads (path r) w) as Hw.
      assert (i < length (heap s)) as Hlt by by eapply lookup_lt_Some.
      destruct (config_for_path (path r) w) as [[e|] w1] eqn:He; simpl in Hw; subst w1.
      + eexists. do 2 (split; [done|]). intros id. simpl. destruct (decide (id = i)) as [->|Hne].
        * rewrite list_lookup_insert_eq, Hi by done. by rewrite He.
        * rewrite list_lookup_insert_ne by done. by destruct (heap s !! id) as [[r0 [|m]]|].
      + exists s. do 2 (split; [done|]). intros id. destruct (decide (id = i)) as [->|Hne].
        * rewrite Hi. by rewrite He.
        * by destruct (heap s !! id) as [[r0 [|m]]|].
    - exists s. do 2 (split; [done|]). intros id. destruct (heap s !! id) as [[r [|n]]|] eqn:Hid; [done| |done].
      rewrite decide_False; [done|]. intros ->. unfold upgrades in Hu. by rewrite Hid in Hu. }
  destruct (IH s1) as (s2&->&Hc2&Hh2).
  { intros id r n. rewrite Hh1. destruct (heap s !! id) as [[r0 [|m]]|] eqn:Hid; [|intros [= <- <-]|done].
    - intros [= <- <-]. by eapply Hs.
    - case_decide; [apply refreshed_keeps|]; by eapply Hs. }
  exists s2. split; [done|]. split; [congruence|]. intros id. rewrite Hh2, Hh1.
  destruct (heap s !! id) as [[r [|n]]|] eqn:Hid; [done| |done].
  assert (listened r) as Hl by by eapply Hs. pose proof (refreshed_keeps r (reading (path r) w) Hl) as (Hp&_).
  destruct (decide (id = i)) as [->|Hne].
  - rewrite (decide_True _ _ (P:=i ∈ i :: l)) by set_solver. rewrite Hp, refreshed_again by done. by destruct (decide _).
  - do 2 f_equal. apply decide_ext. set_solver.
Qed.

Lemma client_ids_elem s (paths : list string) id :
  id ∈ paths ≫= client_ids s ↔ ∃ p, p ∈ paths ∧ id ∈ client_ids s p.
Proof. rewrite list_elem_of_bind. naive_solver. Qed.

(** An iteration of the updater waits exactly while the store has no clients.  Otherwise
    every live entity whose path the source wants refreshed is read once: a new stamp with
    contents that deserialize replaces value and stamp together, and every receiver of it then
    has something unseen; a reading or a deserialization that fails leaves value and stamp as
    they are, so that the next iteration tries again; an old stamp changes nothing.  No other
    entity changes, no entity is lost, and exactly the paths without a live handle are
    forgotten. *)
Lemma iteration_effect order s w :
  store_ok s →
  match updater_thread_iteration order s w with
  | None => clients s = ∅
  | Some (s', w') =>
      let '(paths, w1) := paths_to_refresh order w in
      w' = w1 ∧
      (∀ id r n, heap s !! id = Some (r, S n) →
        ∃ r', heap s' !! id = Some (r', S n) ∧ path r' = path r ∧
          if decide (path r ∈ paths) then
            match reading (path r) w1 with
            | Ok e =>
                if has_changed r e then
                  match deserializer r (default ""%string (contents e)) with
                  | Ok v => registered_get r' = v ∧ has_changed r' e = false ∧
                      ∀ k, w_listens k (update_sender r) → w_unseen k (update_sender r') = true
                  | Err _ => r' = r
                  end
                else r' = r
            | Err _ => r' = r
            end
          else r' = r) ∧
      (∀ p, is_Some (clients s' !! p) ↔ ∃ id r n, heap s !! id = Some (r, S n) ∧ path r = p)
  end.
Proof.
  intros Hs. unfold updater_thread_iteration. destruct (decide _) as [He|_]; [done|].
  destruct (paths_to_refresh order w) as [paths w1]. rewrite refresh_paths_list.
  destruct (refresh_client_list_reads (paths ≫= client_ids s) s w1) as (s1&->&Hc&Hh); [apply (entities_listened s Hs)|].
  split; [done|]. split.
  - intros id r n Hid. pose proof (entities_listened s Hs id r _ Hid) as Hl. exists (if decide (path r ∈ paths) then refreshed r (reading (path r) w1) else r).
    assert (id ∈ paths ≫= client_ids s ↔ path r ∈ paths) as Hin.
    { rewrite client_ids_elem. split; [|intros; exists (path r); split; [done|by eapply live_registered]].
      intros (p&Hp&Hi). destruct (registered_path s Hs p id Hi) as (r0&m&?&?). by simplify_eq. }
    simpl. rewrite Hh, Hid. split; [do 2 f_equal; by apply decide_ext|].
    case_decide; [|done]. split; [by apply refreshed_keeps|]. destruct (reading (path r) w1) as [e|]; [|done]. simpl.
    pose proof (refresh_cases r e Hl) as Hr. destruct (refresh r e) as [res r']. simpl. destruct Hr as (_&_&_&_&Hr).
    destruct (has_changed r e); [|naive_solver]. destruct (deserializer r _) as [v|]; [|naive_solver].
    destruct Hr as (_&?&Hm&Hv&Hk). split; [done|]. split; [by apply has_changed_false|naive_solver].
  - intros p. assert (∀ id, upgrades s1 id = true ↔ upgrades s id = true) as Hu.
    { intros id. unfold upgrades. rewrite Hh. by destruct (heap s !! id) as [[r [|n]]|]. }
    assert (client_ids (retain_clients s1) p = filter (λ id, upgrades s1 id = true) (client_ids s p)) as Hids.
    { rewrite retained_ids. unfold client_ids. by rewrite Hc. }
    transitivity (client_ids (retain_clients s1) p ≠ []).
    { unfold client_ids, retain_clients. simpl. rewrite lookup_omap, Hc. destruct (clients s !! p) as [l|]; simpl.
      - destruct (filter _ l); simpl; [split; [by intros [? ?]|done]|split; [done|by eexists]].
      - split; [by intros [? ?]|done]. }
    rewrite Hids. split.
    + intros Hne. destruct (filter _ (client_ids s p)) as [|id l] eqn:Hf; [done|].
      assert (id ∈ filter (λ id, upgrades s1 id = true) (client_ids s p)) as Hin by (rewrite Hf; by left).
      apply list_elem_of_filter in Hin as [Hup Hin]. apply Hu, upgrades_spec in Hup as (r&n&Hid).
      destruct (registered_path s Hs p id Hin) as (r0&m&?&?). exists id, r, n. by simplify_eq.
    + intros (id&r&n&Hid&<-) Hf. apply (not_elem_of_nil id). rewrite <-Hf. apply list_elem_of_filter.
      split; [apply Hu, upgrades_spec; eauto|by eapply live_registered].
Qed.

End reading.
(** ** What the holder of a handle sees *)

(** An entity changes so that a receiver that has seen everything knows the value. *)
Definition entity_step r r' : Prop :=
  update_receiver r' = update_receiver r ∧
  ∀ k, w_listens k (update_sender r) → w_listens k (update_sender r') ∧
    (w_unseen k (update_sender r') = true ∨
     w_unseen k (update_sender r') = w_unseen k (update_sender r) ∧ registered_get r' = registered_get r).

#[export] Instance entity_step_preorder : PreOrder entity_step.
Proof.
  split.
  - intros r. split; [done|]. intros k Hk. split; [done|by right].
  - intros r1 r2 r3 [H12 Hk12] [H23 Hk23]. split; [congruence|]. intros k Hk. destruct (Hk12 k Hk) as [Hl2 H2].
    destruct (Hk23 k Hl2) as [Hl3 [H3|[-> ->]]]; [by split; [|left]|]. by split.
Qed.

Lemma refresh_entity_step r e : listened r → entity_step r (refresh r e).2.
Proof.
  intros Hl. pose proof (refresh_cases r e Hl) as Hc. destruct (refresh r e) as [res r']. simpl.
  destruct Hc as (_&_&Hu&_&Hc). destruct (has_changed r e); [|by destruct Hc as [_ ->]].
  destruct (deserializer r _); [|by destruct Hc as [_ ->]]. destruct Hc as (_&_&_&_&Hk).
  split; [done|]. intros k Hlk. destruct (Hk k Hlk). auto.
Qed.

(** Each entity of the heap has taken steps, and is still there. *)
Definition heap_step s s' : Prop :=
  ∀ id r n, heap s !! id = Some (r, n) → ∃ r' n', heap s' !! id = Some (r', n') ∧ entity_step r r'.

#[export] Instance heap_step_preorder : PreOrder heap_step.
Proof.
  split.
  - intros s id r n Hid. by exists r, n.
  - intros s1 s2 s3 H12 H23 id r n Hid. destruct (H12 id r n Hid) as (r2&n2&Hid2&Hs). destruct (H23 id r2 n2 Hid2) as (r3&n3&?&?).
    exists r3, n3. split; [done|by etrans].
Qed.

Lemma set_entity_step s id r n r' n' : heap s !! id = Some (r, n) → entity_step r r' → heap_step s (set_entity s id (r', n')).
Proof.
  intros Hid Hr i r0 m Hi. simpl. destruct (decide (i = id)) as [->|Hne].
  - rewrite list_lookup_insert_eq by by eapply lookup_lt_Some. simplify_eq. by exists r', n'.
  - rewrite list_lookup_insert_ne by done. by exists r0, m.
Qed.

Lemma refresh_client_step id s w : store_ok s → heap_step s (refresh_client id s w).1.
Proof.
  intros Hs. unfold refresh_client. destruct (heap s !! id) as [[r n]|] eqn:Hid; [|done].
  destruct (config_for_path (path r) w) as [[entity|] w1]; [|done]. simpl. eapply set_entity_step; [done|].
  by eapply refresh_entity_step, entities_listened.
Qed.

Lemma refresh_client_list_step l s w : store_ok s → heap_step s (refresh_client_list l s w).1.
Proof.
  revert s w. induction l as [|id l IH]; intros s w Hs; cbn [refresh_client_list]; [done|].
  assert (∀ s1 w1, (if upgrades s id then refresh_client id s w else (s, w)) = (s1, w1) → store_ok s1 ∧ heap_step s s1) as H1.
  { intros s1 w1. destruct (upgrades s id); [|by intros [= <- <-]]. intros H.
    pose proof (refresh_client_ok id s w Hs) as Ho. pose proof (refresh_client_step id s w Hs) as Hst. by rewrite H in Ho, Hst. }
  destruct (if upgrades s id then _ else _) as [s1 w1]. destruct (H1 s1 w1 eq_refl) as [Hs1 Hst]. etrans; [done|by apply IH].
Qed.

Lemma step_heap s w s' w' : store_ok s → step (s, w) (s', w') → heap_step s s'.
Proof.
  intros Hs Hstep. inversion Hstep; subst; [..|done];
    try match goal with H : upgrades _ _ = true |- _ => apply upgrades_spec in H as (r&n&Hid) end.
  - match goal with H : get_config_handle_with_deserializer _ _ _ _ = _ |- _ => revert H end.
    unfold get_config_handle_with_deserializer. destruct (config_for_path p w) as [[entity|] w1]; [|by intros [= <- <- <-]].
    destruct (registered_new p entity d) as [r|]; [|by intros [= <- <- <-]]. intros [= <- <- <-] id r0 n Hid. simpl.
    exists r0, n. split; [by apply lookup_app_l_Some|done].
  - match goal with H : updater_thread_iteration _ _ _ = _ |- _ => revert H end. unfold updater_thread_iteration.
    destruct (decide _); [done|]. destruct (paths_to_refresh order w) as [paths w1]. rewrite refresh_paths_list.
    pose proof (refresh_client_list_step (paths ≫= client_ids s) s w1 Hs) as Hr.
    destruct (refresh_client_list _ s w1) as [s1 w2]. by intros [= <- <-].
  - simpl. rewrite Hid. by eapply set_entity_step.
  - simpl. rewrite Hid. by eapply set_entity_step.
  - simpl. rewrite Hid. pose proof (w_clone_spec (update_receiver r) (update_sender r)) as Hw.
    destruct (w_clone _ _) as [k c]. destruct Hw as (Hb&_&_&Hk). simpl. eapply set_entity_step; [done|].
    split; [done|]. intros k0 Hk0. destruct (Hk k0 Hk0) as [? ?]. split; [done|]. right. split; [done|]. unfold registered_get. by simpl.
Qed.
End config.

(** * The sources of the crate *)

(** [TestSource]: configs in memory and the paths to refresh. *)
Section test_source.
Context {D E : Type} (not_present : string → E).

Record TestSource := { path_to_config : gmap string (Entity D); to_refresh : gset string }.

Definition test_config_for_path (p : string) (t : TestSource) : result (Entity D) E * TestSource :=
  (match path_to_config t !! p with Some e => Ok e | None => Err (not_present p) end, t).
Definition test_paths_to_refresh (paths : list string) (t : TestSource) : list string * TestSource :=
  (filter (λ p, p ∈ to_refresh t) paths, t).
#[local] Instance test_source : Source D E TestSource :=
  {| config_for_path := test_config_for_path; paths_to_refresh := test_paths_to_refresh |}.

Definition test_new : TestSource := {| path_to_config := ∅; to_refresh := ∅ |}.
Definition insert_config (key text : string) (t0 : ModificationTime D) (t : TestSource) : TestSource :=
  {| path_to_config := <[key := {| contents := Some text; mod_time := t0; version := ""%string |}]> (path_to_config t);
     to_refresh := to_refresh t |}.
Definition insert_to_refresh (p : string) (t : TestSource) : TestSource :=
  {| path_to_config := path_to_config t; to_refresh := {[p]} ∪ to_refresh t |}.
End test_source.

(** [FileSource]: files of a directory.  The file system is a parameter: reading a file, its
    modification time in seconds, and joining a path to a directory. *)
Section file_source.
Context {D E W : Type} (read_to_string : string → W → result string E) (modified_secs : string → W → result Z E).
Context (join : string → string → string).

Record FileSource := { directory : string; extension : option string }.

Definition file_config_for_path (f : FileSource) (p : string) (w : W) : result (Entity D) E * W :=
  let with_extension := match extension f with Some x => (p +:+ x)%string | None => p end in
  let file := join (directory f) with_extension in
  (match read_to_string file w with
   | Err e => Err e
   | Ok text =>
       match modified_secs file w with
       | Err e => Err e
       | Ok secs => Ok {| contents := Some text; mod_time := UnixTimestamp secs; version := text |}
       end
   end, w).
Definition file_paths_to_refresh (paths : list string) (w : W) : list string * W := (paths, w).
Definition file_source (f : FileSource) : Source D E W :=
  {| config_for_path := file_config_for_path f; paths_to_refresh := file_paths_to_refresh |}.

(** ** A store over files *)

Context {T : Type} `{EqDecision D} {WT : Watch T} (f : FileSource).
#[local] Instance files : Source D E W := file_source f.

(** C25: a store over files is a cache of them: after an iteration every live handle reads what
    its file holds then, if the file can be read and deserializes, and what it read before if
    not.  The version kept with a value is the whole text, so no change is overlooked. *)
Theorem file_store_up_to_date order s w s' w' id (r : RegisteredConfigEntity (T:=T)) n :
  reachable s w → updater_thread_iteration order s w = Some (s', w') → order ≡ₚ (map_to_list (clients s)).*1 →
  heap s !! id = Some (r, S n) →
  handle_get (Registered id) s' = Some (
    match (file_config_for_path f (path r) w).1 with
    | Ok e => match deserializer r (default ""%string (contents e)) with Ok v => v | Err _ => registered_get r end
    | Err _ => registered_get r
    end).
Proof.
  intros Hr Hit Hord Hid. pose proof (iteration_effect (λ p w, eq_refl) order s w (reachable_store_ok _ _ Hr)) as Hi.
  rewrite Hit in Hi. simpl in Hi. destruct Hi as (_&Hlive&_). destruct (Hlive id r n Hid) as (r'&Hid'&_&Hr'). unfold handle_get. rewrite Hid'.
  cbn [fmap option_fmap option_map fst]. f_equal. rewrite decide_True in Hr'; [|].
  2: { rewrite Hord. pose proof (live_registered s (reachable_store_ok _ _ Hr) id r n Hid) as Hin. unfold client_ids in Hin.
       destruct (clients s !! path r) as [l|] eqn:Hl; [|by apply not_elem_of_nil in Hin]. apply list_elem_of_fmap.
       exists (path r, l). split; [done|by apply elem_of_map_to_list]. }
  unfold reading in Hr'. change (config_for_path (path r) w) with (file_config_for_path f (path r) w) in Hr'.
  destruct (file_config_for_path f (path r) w).1 as [e|err] eqn:He; [|by subst].
  destruct (has_changed r e) eqn:Hc.
  { destruct (deserializer r _) as [v|]; [by destruct Hr'|by subst]. }
  subst r'. apply has_changed_false in Hc as [_ Hv].
  destruct (entities_backed s (reachable_store_ok _ _ Hr) id r _ Hid) as (e0&w0&He0&_&Hv0&Hd).
  assert (∀ p w (x : Entity D), (file_config_for_path f p w).1 = Ok x → contents x = Some (version x)) as Htext.
  { intros p w1 x. unfold file_config_for_path. simpl. destruct (read_to_string _ w1); [|done].
    destruct (modified_secs _ w1); [|done]. by intros [= <-]. }
  rewrite (Htext _ _ _ He). rewrite (Htext _ _ _ He0) in Hd. rewrite Hv, Hv0. simpl in *. by rewrite Hd.
Qed.
End file_source.

(** ** A run *)

(** A file that says "1", read as a config, then changed to say "2". *)
Section witnesses.
#[local] Open Scope string_scope.

Definition demo_files : Type := string → option (string * Z).
Definition demo_read (p : string) (w : demo_files) : result string nat := match w p with Some (x, _) => Ok x | None => Err 0 end.
Definition demo_secs (p : string) (w : demo_files) : result Z nat := match w p with Some (_, x) => Ok x | None => Err 1 end.
Definition demo_f : FileSource := {| directory := "etc"; extension := Some ".json" |}.
Definition demo_join (a b : string) : string := (a +:+ "/" +:+ b)%string.
#[local] Instance demo_source : Source nat nat demo_files := file_source demo_read demo_secs demo_join demo_f.

Definition holding (x : string) : demo_files := λ p, if String.eqb p "etc/a.json" then Some (x, 7%Z) else None.
Definition registered : ConfigStore (T:=string) (D:=nat) (E:=nat) :=
  (get_config_handle_with_deserializer "a" Ok new (holding "1")).1.2.

Lemma registered_keys : ["a"] ≡ₚ (map_to_list (clients registered)).*1.
Proof. change (clients registered) with (<["a" := [0]]> (∅ : gmap string (list nat))). by rewrite insert_empty, map_to_list_singleton. Qed.

Lemma registered_reachable x : reachable registered (holding x).
Proof.
  exists (holding "1"). eapply rtc_l; [|by apply rtc_once, step_source].
  apply (step_register "a" Ok new (holding "1") (Ok (Registered 0))). reflexivity.
Qed.

Lemma registered_iterates x : ∃ s', updater_thread_iteration ["a"] registered (holding x) = Some (s', holding x).
Proof.
  unfold updater_thread_iteration. rewrite decide_False; [|by apply insert_non_empty]. eexists. reflexivity.
Qed.

Lemma cached_config_consistent_witness :
  ∃ r, heap registered !! 0 = Some (r, 1) ∧ handle_get (Registered 0) registered = Some "1" ∧ cached_version r = "1".
Proof.
  eexists. split; [reflexivity|].
  destruct (cached_config_consistent registered (holding "2") 0 _ 0 (registered_reachable "2") eq_refl) as (H&_).
  split; [exact H|reflexivity].
Defined.

Lemma file_store_up_to_date_witness :
  ∃ s' w', updater_thread_iteration ["a"] registered (holding "2") = Some (s', w') ∧ handle_get (Registered 0) s' = Some "2".
Proof.
  destruct (registered_iterates "2") as [s' Hit]. exists s', (holding "2"). split; [exact Hit|].
  exact (file_store_up_to_date demo_read demo_secs demo_join demo_f ["a"] registered (holding "2") s' (holding "2") 0 _ 0
    (registered_reachable "2") Hit registered_keys eq_refl).
Defined.
End witnesses.
End CachedConfig.
