(* ===== verification/JustKnobs.v ===== *)
(** The [justknobs] stub (src/shed/justknobs_stub/src): knobs looked up in a thread-local
    override, in a cached config kept up to date by a worker task, or answered by a default.

    The statics of the crate are a record that every function passes along: the thread-local
    of the thread in question, the [ArcSwap] and the worker's state of the process.  Closures
    given to the crate act on that record; one that panics leaves it as it is then.  The hash
    and switch values are ignored by every implementation of the open-source build, and are
    left out. *)
From stdpp Require Import strings.
From Stdlib Require Import String.
From S2P Require Import Prelude RustStd RustStr Streams CachedConfig.
Import CachedConfig.

Module JustKnobs.

(** The struct of the thrift file. *)
Record JustKnobsStruct := { ints : gmap string Z; bools : gmap string bool }.

Inductive KnobVal := KBool (b : bool) | KInt (v : Z).
Abbreviation JustKnobsInMemory := (gmap string KnobVal).
Implicit Types (k : JustKnobsInMemory) (name : string).

(** [collect] into a map: a later entry of a key wins. *)
Definition insert_all k (entries : list (string * KnobVal)) : JustKnobsInMemory :=
  foldl (λ m e, <[e.1 := e.2]> m) k entries.

Definition from_struct (jk : JustKnobsStruct) : JustKnobsInMemory :=
  insert_all ∅ (map_to_list (KBool <$> bools jk) ++ map_to_list (KInt <$> ints jk)).

Inductive Error := MissingKnob (name : string) | WrongType (name : string) | NotSet | OutOfRange.

(** The bool, or the int, that a lookup finds. *)
Definition as_bool name (o : option KnobVal) : result bool Error :=
  match o with
  | None => Err (MissingKnob name)
  | Some (KInt _) => Err (WrongType name)
  | Some (KBool b) => Ok b
  end.
Definition as_int name (o : option KnobVal) : result Z Error :=
  match o with
  | None => Err (MissingKnob name)
  | Some (KBool _) => Err (WrongType name)
  | Some (KInt v) => Ok v
  end.

(** * The implementations *)

Section knobs.
Context {H : Type}.

(** The statics: the thread-local override, [JUST_KNOBS] and [JUST_KNOBS_WORKER_STATE] of the
    cached config, [H] being the handle the worker holds. *)
Record Statics := { thread_local : option JustKnobsInMemory; just_knobs_cell : option JustKnobsInMemory; worker_state : option H }.
Implicit Types (s : Statics).

Definition set_thread_local (t : option JustKnobsInMemory) s : Statics :=
  {| thread_local := t; just_knobs_cell := just_knobs_cell s; worker_state := worker_state s |}.

Definition is_some {A} (o : option A) : bool := negb (is_none o).

(** ** In memory *)

Definition thread_local_in_use s : bool := is_some (thread_local s).
Definition thread_local_eval name s : result bool Error :=
  match thread_local s with Some jk => as_bool name (jk !! name) | None => Err NotSet end.
Definition thread_local_get name s : result Z Error :=
  match thread_local s with Some jk => as_int name (jk !! name) | None => Err NotSet end.

(** ** Cached config *)

Definition cached_in_use s : bool := is_some (worker_state s) || is_some (just_knobs_cell s).

(** [just_knobs()]: initialised empty when it is first used. *)
Definition just_knobs s : JustKnobsInMemory * Statics :=
  let k := default ∅ (just_knobs_cell s) in
  (k, {| thread_local := thread_local s; just_knobs_cell := Some k; worker_state := worker_state s |}).
Definition cached_eval name s : result bool Error * Statics :=
  let '(k, s) := just_knobs s in (as_bool name (k !! name), s).
Definition cached_get name s : result Z Error * Statics :=
  let '(k, s) := just_knobs s in (as_int name (k !! name), s).

Definition update_just_knobs (new_just_knobs : JustKnobsStruct) s : Statics :=
  let '(_, s) := just_knobs s in
  {| thread_local := thread_local s; just_knobs_cell := Some (from_struct new_just_knobs); worker_state := worker_state s |}.

(** ** The stub of the open-source build, and the choice *)

Definition stub_eval : result bool Error := Ok false.
Definition stub_get : result Z Error := Ok 0%Z.

Definition eval name s : result bool Error * Statics :=
  if thread_local_in_use s then (thread_local_eval name s, s)
  else if cached_in_use s then cached_eval name s
  else (stub_eval, s).
Definition get name s : result Z Error * Statics :=
  if thread_local_in_use s then (thread_local_get name s, s)
  else if cached_in_use s then cached_get name s
  else (stub_get, s).
(** [get_as::<T>], for an integer type: [try_into] refuses what does not fit. *)
Definition get_as (t : int_type) name s : result Z Error * Statics :=
  let '(r, s) := get name s in
  (match r with
   | Ok v => if ((int_min t <=? v) && (v <=? int_max t))%Z then Ok v else Err OutOfRange
   | Err e => Err e
   end, s).

(** * Overrides *)

Definition merge_just_knobs (old_just_knobs : option JustKnobsInMemory) (new_just_knobs : JustKnobsInMemory) : JustKnobsInMemory :=
  match old_just_knobs with
  | None => new_just_knobs
  | Some old => insert_all old (map_to_list new_just_knobs)
  end.

(** [f] runs with the merged knobs; a panic in it goes through. *)
Definition with_just_knobs {A} (new_just_knobs : JustKnobsInMemory) (f : Statics → exec A * Statics) s : exec A * Statics :=
  let old_just_knobs := thread_local s in
  let merged := merge_just_knobs old_just_knobs new_just_knobs in
  match f (set_thread_local (Some merged) (set_thread_local None s)) with
  | (ret res, s) => (ret res, set_thread_local old_just_knobs s)
  | (panic, s) => (panic, s)
  end.

Definition override_just_knobs (new_just_knobs : JustKnobsInMemory) s : Statics :=
  set_thread_local (Some (merge_just_knobs (thread_local s) new_just_knobs)) s.

(** The future of [with_just_knobs_async]: the knobs merged when it was made, and the future
    inside. *)
Section async.
Context {F O : Type} {FF : Future F O Statics}.

Record WithJustKnobs := { merged_just_knobs : JustKnobsInMemory; fut : F }.

Definition with_just_knobs_async (new_just_knobs : JustKnobsInMemory) (f : F) s : WithJustKnobs :=
  {| merged_just_knobs := merge_just_knobs (thread_local s) new_just_knobs; fut := f |}.

Definition poll_with_just_knobs (p : WithJustKnobs) s : Poll O * WithJustKnobs * Statics :=
  let old_just_knobs := thread_local s in
  let '(res, f, s) := fpoll (fut p) (set_thread_local (Some (merged_just_knobs p)) s) in
  (res, {| merged_just_knobs := merged_just_knobs p; fut := f |}, set_thread_local old_just_knobs s).

#[export] Instance with_just_knobs_future : Future WithJustKnobs O Statics := poll_with_just_knobs.
End async.
End knobs.
Arguments Statics : clear implicits.
Arguments WithJustKnobs : clear implicits.

(** * Lookups *)

Lemma insert_all_lookup k l name :
  NoDup l.*1 → insert_all k l !! name = match (list_to_map l : JustKnobsInMemory) !! name with Some v => Some v | None => k !! name end.
Proof.
  unfold insert_all. revert k. induction l as [|[n v] l IH]; intros k Hnd; [done|]. cbn [foldl list_to_map foldr fst snd].
  apply NoDup_cons in Hnd as [Hn Hnd]. simpl in Hn. rewrite IH by done. destruct (decide (name = n)) as [->|Hne].
  - rewrite !lookup_insert_eq. by rewrite (not_elem_of_list_to_map_1 l n Hn).
  - by rewrite !lookup_insert_ne by done.
Qed.

Lemma insert_all_map k k' name : insert_all k (map_to_list k') !! name = match k' !! name with Some v => Some v | None => k !! name end.
Proof. rewrite insert_all_lookup by apply NoDup_fst_map_to_list. by rewrite list_to_map_to_list. Qed.

(** An int of the same name hides a bool. *)
Lemma from_struct_lookup jk name :
  from_struct jk !! name = match ints jk !! name with
                           | Some v => Some (KInt v) | None => KBool <$> bools jk !! name end.
Proof.
  unfold from_struct, insert_all. rewrite foldl_app. fold (insert_all ∅ (map_to_list (KBool <$> bools jk))).
  fold (insert_all (insert_all ∅ (map_to_list (KBool <$> bools jk))) (map_to_list (KInt <$> ints jk))).
  rewrite !insert_all_map, !lookup_fmap, lookup_empty. by destruct (ints jk !! name), (bools jk !! name).
Qed.

Lemma merge_lookup old k name :
  merge_just_knobs old k !! name = match k !! name with Some v => Some v | None => m ← old; m !! name end.
Proof. destruct old as [old|]; simpl; [apply insert_all_map|by destruct (k !! name)]. Qed.

(** * Overrides are scoped *)

Section scoped.
Context {H : Type}.
Implicit Types (s : Statics H).

(** The knobs of a thread inside an override: the new ones, then those it had before. *)
Definition overridden s (new_just_knobs : JustKnobsInMemory) name : option KnobVal :=
  match new_just_knobs !! name with Some v => Some v | None => k ← thread_local s; k !! name end.

Definition inside s (new_just_knobs : JustKnobsInMemory) : Statics H :=
  set_thread_local (Some (merge_just_knobs (thread_local s) new_just_knobs)) s.

Lemma inside_lookups s new_just_knobs name :
  eval name (inside s new_just_knobs) = (as_bool name (overridden s new_just_knobs name), inside s new_just_knobs) ∧
  get name (inside s new_just_knobs) = (as_int name (overridden s new_just_knobs name), inside s new_just_knobs).
Proof. unfold eval, get, thread_local_in_use, thread_local_eval, thread_local_get. simpl. by rewrite merge_lookup. Qed.

Lemma set_thread_local_twice t t' s : set_thread_local t (set_thread_local t' s) = set_thread_local t s.
Proof. done. Qed.

Context {F O : Type} {FF : Future F O (Statics H)}.

(** Futures on one thread, polled in some order; one that has resolved is gone. *)
Fixpoint run_futures (schedule : list nat) (futs : list (option (WithJustKnobs F))) s
  : list (option (WithJustKnobs F)) * Statics H :=
  match schedule with
  | [] => (futs, s)
  | i :: schedule =>
      match futs !! i with
      | Some (Some p) =>
          let '(res, p, s) := poll_with_just_knobs p s in
          run_futures schedule (<[i := match res with Pending => Some p | Ready _ => None end]> futs) s
      | _ => run_futures schedule futs s
      end
  end.

(** A future that has been polled under some knobs only. *)
Definition polled_under k : relation F :=
  rtc (λ f f', ∃ s s', thread_local s = Some k ∧ fpoll f s = (Pending, f', s')).

Lemma run_futures_isolated schedule futs s :
  let '(futs', s') := run_futures schedule futs s in
  thread_local s' = thread_local s ∧ length futs' = length futs ∧
  ∀ i p', futs' !! i = Some (Some p') → ∃ p, futs !! i = Some (Some p) ∧
    merged_just_knobs p' = merged_just_knobs p ∧ polled_under (merged_just_knobs p) (fut p) (fut p').
Proof.
  revert futs s. induction schedule as [|i schedule IH]; intros futs s; simpl.
  { split; [done|]. split; [done|]. intros i p' Hi. exists p'. split; [done|]. split; [done|apply rtc_refl]. }
  destruct (futs !! i) as [[p|]|] eqn:Hi; [|apply IH..]. unfold poll_with_just_knobs.
  destruct (fpoll (fut p) _) as [[res f] s1] eqn:Hp. set (p1 := {| fut := f |}).
  specialize (IH (<[i:=match res with Ready _ => None | Pending => Some p1 end]> futs) (set_thread_local (thread_local s) s1)).
  destruct (run_futures _ _ _) as [futs' s']. destruct IH as (Ht&Hlen&IH). rewrite length_insert in Hlen.
  split; [done|]. split; [done|]. intros j p' Hj. destruct (IH j p' Hj) as (p2&Hj2&Hm&Hpo).
  destruct (decide (j = i)) as [->|Hne]; [|rewrite list_lookup_insert_ne in Hj2 by done; eauto].
  rewrite list_lookup_insert_eq in Hj2 by by eapply lookup_lt_Some. exists p. split; [done|].
  destruct res as [o|]; [done|]. simplify_eq. split; [done|]. eapply rtc_l; [|done].
  eexists _, _. split; [|done]. done.
Qed.

(** An override is seen inside its scope and nowhere else.  A closure run by
    [with_just_knobs] starts with the new knobs over the thread's old ones; when it returns the
    thread has exactly its old ones, whatever the closure did to them; when it panics the
    override stays.  Futures made by [with_just_knobs_async] and polled in any order on one
    thread each run under their own knobs, fixed when they were made, and leave those of the
    thread alone. *)
Theorem knobs_scoped {A} (new_just_knobs : JustKnobsInMemory) (f : Statics H → exec A * Statics H) (fu : F) s :
  (∀ name, eval name (inside s new_just_knobs) = (as_bool name (overridden s new_just_knobs name), inside s new_just_knobs) ∧
    get name (inside s new_just_knobs) = (as_int name (overridden s new_just_knobs name), inside s new_just_knobs)) ∧
  (let '(r, s1) := f (inside s new_just_knobs) in
   with_just_knobs new_just_knobs f s = (r, match r with ret _ => set_thread_local (thread_local s) s1 | panic => s1 end)) ∧
  merged_just_knobs (with_just_knobs_async new_just_knobs fu s) = merge_just_knobs (thread_local s) new_just_knobs ∧
  (∀ name, merge_just_knobs (thread_local s) new_just_knobs !! name = overridden s new_just_knobs name) ∧
  (∀ schedule futs, let '(futs', s') := run_futures schedule futs s in
    thread_local s' = thread_local s ∧
    ∀ i p', futs' !! i = Some (Some p') → ∃ p, futs !! i = Some (Some p) ∧
      merged_just_knobs p' = merged_just_knobs p ∧ polled_under (merged_just_knobs p) (fut p) (fut p')).
Proof.
  split; [apply inside_lookups|]. split.
  { unfold with_just_knobs. rewrite set_thread_local_twice. fold (inside s new_just_knobs).
    by destruct (f _) as [[] s1]. }
  split; [done|]. split; [intros name; apply merge_lookup|]. intros schedule futs.
  pose proof (run_futures_isolated schedule futs s) as Hi. destruct (run_futures _ _ _). naive_solver.
Qed.
End scoped.

(** * The worker of the cached config *)

Section follow.
Context {D E W : Type} `{EqDecision D} {WT : Watch JustKnobsStruct} {SO : Source D E W}.
Abbreviation Store := (@ConfigStore JustKnobsStruct D E WT).
Abbreviation Handle := (@ConfigHandle JustKnobsStruct).
Abbreviation Watcher := (@ConfigUpdateWatcher JustKnobsStruct WT).
Implicit Types (store : Store) (s : Statics Handle).

Definition init_just_knobs (h : Handle) store s : exec (Statics Handle) :=
  let! v := expect (handle_get h store) in ret (update_just_knobs v s).

(** [init_just_knobs_worker]; it then spawns [wait_and_update]. *)
Definition init_just_knobs_worker (h : Handle) store s : exec (Statics Handle) :=
  let! s := init_just_knobs h store s in
  match worker_state s with
  | Some _ => panic
  | None => ret {| thread_local := thread_local s; just_knobs_cell := just_knobs_cell s; worker_state := Some h |}
  end.

(** Where the worker is in [wait_and_update]: about to make its watcher, waiting for a change,
    past [changed()], holding the new knobs, or gone. *)
Inductive worker := Spawned | Waiting (cw : Watcher) | Changed (cw : Watcher) | Received (cw : Watcher) (v : JustKnobsStruct) | Exited.

(** One step of the worker; [None] when it waits. *)
Definition wait_and_update (wk : worker) store s : exec (option (worker * Store * Statics Handle)) :=
  match wk with
  | Spawned =>
      let! h := expect (worker_state s) in
      match watcher h store with
      | (Err _, _) => panic
      | (Ok cw, store) => ret (Some (Waiting cw, store, s))
      end
  | Waiting cw =>
      match wait_changed cw store with
      | (Pending, _) => ret None
      | (Ready (Ok _), cw) => ret (Some (Changed cw, store, s))
      | (Ready (Err _), _) => ret (Some (Exited, store, s))
      end
  | Changed cw => let! v := expect (wait_borrow cw store) in ret (Some (Received cw v, store, s))
  | Received cw v => ret (Some (Waiting cw, store, update_just_knobs v s))
  | Exited => ret None
  end.

(** ** A process with a store and its worker *)

Record process := { store_of : Store; source_of : W; statics_of : Statics Handle; worker_of : worker }.
Implicit Types (pr : process).

(** The store does what it does, but the worker's handle is not dropped; or the worker moves. *)
Inductive process_step (id : nat) : relation process :=
| store_moves pr store w :
    step (store_of pr, source_of pr) (store, w) → upgrades store id = true →
    process_step id pr {| store_of := store; source_of := w; statics_of := statics_of pr; worker_of := worker_of pr |}
| worker_moves pr wk store s :
    wait_and_update (worker_of pr) (store_of pr) (statics_of pr) = ret (Some (wk, store, s)) →
    process_step id pr {| store_of := store; source_of := source_of pr; statics_of := s; worker_of := wk |}.

(** The worker alone, until it waits. *)
Fixpoint run_worker (n : nat) pr : exec process :=
  match n with
  | 0 => ret pr
  | S n =>
      let! r := wait_and_update (worker_of pr) (store_of pr) (statics_of pr) in
      match r with
      | None => ret pr
      | Some (wk, store, s) => run_worker n {| store_of := store; source_of := source_of pr; statics_of := s; worker_of := wk |}
      end
  end.

(** ** The invariant *)

(** A receiver that has seen everything means that [known] is the current value. *)
Definition current (k : wrecv) (r : @RegisteredConfigEntity JustKnobsStruct D E WT) (known : Prop) : Prop :=
  w_listens k (update_sender r) ∧ (w_unseen k (update_sender r) = false → known).

Definition worker_ok (id : nat) r (cell : JustKnobsInMemory) (wk : worker) : Prop :=
  match wk with
  | Spawned => current (update_receiver r) r (cell = from_struct (registered_get r))
  | Waiting cw => watched cw = id ∧ current (receiver cw) r (cell = from_struct (registered_get r))
  | Changed cw => watched cw = id ∧ current (receiver cw) r True
  | Received cw v => watched cw = id ∧ current (receiver cw) r (v = registered_get r)
  | Exited => False
  end.

Record process_ok (id : nat) pr : Prop := {
  process_store : store_ok (store_of pr);
  process_handle : worker_state (statics_of pr) = Some (Registered id);
  process_worker : ∃ r n cell, heap (store_of pr) !! id = Some (r, S n) ∧ just_knobs_cell (statics_of pr) = Some cell ∧
    worker_ok id r cell (worker_of pr);
}.

Lemma current_step (k : wrecv) r r' (known known' : Prop) :
  entity_step r r' → (registered_get r' = registered_get r → known → known') → current k r known → current k r' known'.
Proof.
  intros [_ Hr] Hk [Hl Hc]. destruct (Hr k Hl) as [Hl' Hu]. split; [done|]. intros Hf. destruct Hu as [Hu|[Hu Hg]]; [congruence|].
  apply Hk; [done|]. apply Hc. congruence.
Qed.

Lemma worker_ok_step id r r' cell wk : entity_step r r' → worker_ok id r cell wk → worker_ok id r' cell wk.
Proof.
  intros Hr. destruct wk as [|cw|cw|cw v|]; simpl; [rewrite (proj1 Hr)|intros [? H]; split; [done|revert H]..|done];
    (eapply current_step; [done|]); [by intros ->|by intros ->|done|by intros ->].
Qed.

Lemma process_step_store id pr store w :
  process_ok id pr → step (store_of pr, source_of pr) (store, w) → upgrades store id = true →
  process_ok id {| store_of := store; source_of := w; statics_of := statics_of pr; worker_of := worker_of pr |}.
Proof.
  intros [Hs Hh (r&n&cell&Hid&Hc&Hw)] Hst (r1&n1&Hid1)%upgrades_spec. pose proof (step_heap _ _ _ _ Hs Hst id r _ Hid) as (r2&n2&Hid2&Hr).
  rewrite Hid1 in Hid2. injection Hid2 as <- <-. split; simpl; [by eapply step_ok|done|]. exists r1, n1, cell.
  split; [done|]. split; [done|]. by eapply worker_ok_step.
Qed.

(** How many steps the worker takes before it waits. *)
Definition rank (wk : worker) (r : @RegisteredConfigEntity JustKnobsStruct D E WT) : nat :=
  let unseen (rv : wrecv) := w_unseen rv (update_sender r) in
  match wk with
  | Spawned => if unseen (update_receiver r) then 4 else 1
  | Waiting cw => if unseen (receiver cw) then 3 else 0
  | Changed cw => if unseen (receiver cw) then 5 else 2
  | Received cw v => if unseen (receiver cw) then 4 else 1
  | Exited => 0
  end.

Lemma worker_step_ok id pr r n cell :
  process_ok id pr → heap (store_of pr) !! id = Some (r, S n) → just_knobs_cell (statics_of pr) = Some cell →
  worker_ok id r cell (worker_of pr) →
  ∃ res, wait_and_update (worker_of pr) (store_of pr) (statics_of pr) = ret res ∧
    match res with
    | None => rank (worker_of pr) r = 0 ∧ cell = from_struct (registered_get r)
    | Some (wk, store, s) => ∃ r' cell',
        process_ok id {| store_of := store; source_of := source_of pr; statics_of := s; worker_of := wk |} ∧
        heap store !! id = Some (r', S n) ∧ just_knobs_cell s = Some cell' ∧ worker_ok id r' cell' wk ∧
        registered_get r' = registered_get r ∧ rank wk r' < rank (worker_of pr) r ∧ thread_local s = thread_local (statics_of pr)
    end.
Proof.
  intros [Hs Hh _] Hid Hc Hw. destruct pr as [store w s wk]. simpl in *. destruct wk as [|cw|cw|cw v|]; simpl in *; [..|done].
  - rewrite Hh. simpl. assert (upgrades store id = true) as Hup by (apply upgrades_spec; eauto).
    pose proof (watch_ok id store Hs Hup) as Hs'. assert (id < length (heap store)) as Hlt by by eapply lookup_lt_Some.
    simpl in Hs'. rewrite Hid in Hs' |- *. pose proof (w_clone_spec (update_receiver r) (update_sender r)) as Hcl.
    destruct (w_clone _ _) as [k c]. destruct Hcl as (Hb&_&Hk&_). destruct Hw as [Hl Hcur]. destruct (Hk Hl) as [Hlk Huk].
    eexists. split; [done|]. exists (with_sender r c), cell.
    assert (heap (set_entity store id (with_sender r c, S n)) !! id = Some (with_sender r c, S n)) as Hid' by (simpl; by rewrite list_lookup_insert_eq).
    assert (registered_get (with_sender r c) = registered_get r) as Hg by (unfold registered_get; simpl; by rewrite Hb).
    assert (worker_ok id (with_sender r c) cell (Waiting {| watched := id; receiver := k |})) as Hwk.
    { split; [done|]. split; [done|]. simpl. by rewrite Huk, Hg. }
    split; [split; [done|done|]; simpl; by exists (with_sender r c), n, cell|]. do 4 (split; [done|]). split; [|done].
    simpl. rewrite Huk. destruct (w_unseen _ _); lia.
  - destruct Hw as (Hcw&Hl&Hcur). unfold wait_changed. rewrite Hcw, Hid.
    destruct (w_unseen (receiver cw) (update_sender r)) eqn:Hu; simpl; [|by eexists; split; [done|split; [done|auto]]].
    eexists. split; [done|]. exists r, cell. pose proof (w_mark_seen_spec (receiver cw) (update_sender r)) as [Hlm Hum].
    assert (worker_ok id r cell (Changed {| watched := id; receiver := w_mark_seen (receiver cw) (update_sender r) |})) as Hwk by done.
    split; [split; [done|done|]; by exists r, n, cell|]. do 4 (split; [done|]). split; [|done]. simpl. rewrite Hum. lia.
  - destruct Hw as (Hcw&Hl&_). unfold wait_borrow, handle_get. rewrite Hcw, Hid. simpl. eexists. split; [done|]. exists r, cell.
    assert (worker_ok id r cell (Received cw (registered_get r))) as Hwk by done.
    split; [split; [done|done|]; by exists r, n, cell|]. do 4 (split; [done|]). split; [|done]. simpl. destruct (w_unseen _ _); lia.
  - destruct Hw as (Hcw&Hl&Hcur). eexists. split; [done|]. exists r, (from_struct v).
    assert (worker_ok id r (from_struct v) (Waiting cw)) as Hwk by (split; [done|split; [done|]]; intros Hu; by rewrite (Hcur Hu)).
    split; [split; [done|done|]; by exists r, n, (from_struct v)|]. do 4 (split; [done|]). split; [|done]. simpl. destruct (w_unseen _ _); lia.
Qed.

Lemma process_step_ok id pr pr' : process_ok id pr → process_step id pr pr' → process_ok id pr'.
Proof.
  intros Hp Hst. inversion Hst as [? store w Hc Hup|? wk store s Hw]; subst; [by eapply process_step_store|].
  destruct (process_worker id pr Hp) as (r&n&cell&Hid&Hcell&Hok). destruct (worker_step_ok id pr r n cell Hp Hid Hcell Hok) as (res&Heq&Hres).
  rewrite Hw in Heq. injection Heq as <-. by destruct Hres as (?&?&?&_).
Qed.

Lemma run_worker_ok m id pr r n cell :
  process_ok id pr → heap (store_of pr) !! id = Some (r, S n) → just_knobs_cell (statics_of pr) = Some cell →
  worker_ok id r cell (worker_of pr) → rank (worker_of pr) r ≤ m →
  ∃ pr' r', run_worker m pr = ret pr' ∧ process_ok id pr' ∧
    wait_and_update (worker_of pr') (store_of pr') (statics_of pr') = ret None ∧
    heap (store_of pr') !! id = Some (r', S n) ∧ registered_get r' = registered_get r ∧
    just_knobs_cell (statics_of pr') = Some (from_struct (registered_get r)) ∧ thread_local (statics_of pr') = thread_local (statics_of pr).
Proof.
  revert pr r cell. induction m as [|m IH]; intros pr r cell Hp Hid Hc Hw Hrank;
    destruct (worker_step_ok id pr r n cell Hp Hid Hc Hw) as ([[[wk store] s]|]&Heq&Hres).
  - destruct Hres as (r'&cell'&_&_&_&_&_&?&_). lia.
  - exists pr, r. destruct Hres as [_ <-]. by do 6 (split; [done|]).
  - destruct Hres as (r'&cell'&Hp'&Hid'&Hc'&Hw'&Hg&Hlt&Ht). simpl. rewrite Heq. simpl.
    destruct (IH _ r' cell' Hp' Hid' Hc' Hw') as (pr'&r2&Hr&Hp2&Hn&Hid2&Hg2&Hc2&Ht2); [cbn [worker_of]; lia|].
    exists pr', r2. cbn [store_of statics_of] in *. split; [done|]. split; [done|]. split; [done|]. split; [done|]. split; [congruence|].
    split; congruence.
  - exists pr, r. simpl. rewrite Heq. destruct Hres as [_ <-]. by do 6 (split; [done|]).
Qed.

(** C26: a process that has started the worker on a live handle follows the config of that handle.
    Whatever the store and the worker have done, in any order, the worker has not panicked or
    stopped, and at most five of its steps later, unless the store moves again, it waits and
    every lookup without an override answers what the current value of the handle says, an
    int hiding a bool of the same name; no update is lost, and where the worker already waits
    this holds at once. *)
Theorem justknobs_follow_config id store w s s0 pr :
  reachable store w → upgrades store id = true → init_just_knobs_worker (Registered id) store s = ret s0 →
  rtc (process_step id) {| store_of := store; source_of := w; statics_of := s0; worker_of := Spawned |} pr →
  ∃ pr' v, run_worker 5 pr = ret pr' ∧
    wait_and_update (worker_of pr') (store_of pr') (statics_of pr') = ret None ∧
    (wait_and_update (worker_of pr) (store_of pr) (statics_of pr) = ret None → pr' = pr) ∧
    handle_get (Registered id) (store_of pr) = Some v ∧
    (thread_local (statics_of pr) = None → ∀ name,
      let knob := match ints v !! name with Some z => Some (KInt z) | None => KBool <$> bools v !! name end in
      (eval name (statics_of pr')).1 = as_bool name knob ∧ (get name (statics_of pr')).1 = as_int name knob).
Proof.
  intros Hr (r&n&Hid)%upgrades_spec Hi Hsteps.
  assert (process_ok id {| store_of := store; source_of := w; statics_of := s0; worker_of := Spawned |}) as Hp0.
  { unfold init_just_knobs_worker, init_just_knobs, handle_get in Hi. rewrite Hid in Hi. simpl in Hi.
    destruct (worker_state s); [done|]. injection Hi as <-. pose proof (reachable_store_ok _ _ Hr) as Hs.
    split; [done|done|]. simpl. exists r, n, (from_struct (registered_get r)). split; [done|]. split; [done|].
    split; [by eapply entities_listened|done]. }
  assert (process_ok id pr) as Hp by (clear -Hsteps Hp0; induction Hsteps; eauto using process_step_ok).
  destruct (process_worker id pr Hp) as (r1&n1&cell&Hid1&Hc1&Hw1).
  destruct (run_worker_ok 5 id pr r1 n1 cell Hp Hid1 Hc1 Hw1) as (pr'&r2&Hrun&Hp'&Hn&Hid2&Hg2&Hc2&Ht2).
  { destruct (worker_of pr); simpl; try destruct (w_unseen _ _); lia. }
  exists pr', (registered_get r1). split; [done|]. split; [done|]. split.
  { intros Hq. cbn [run_worker] in Hrun. rewrite Hq in Hrun. simpl in Hrun. congruence. }
  split; [unfold handle_get; by rewrite Hid1|]. intros Ht name. rewrite <-from_struct_lookup.
  unfold eval, get, thread_local_in_use, cached_in_use, cached_eval, cached_get, just_knobs. rewrite Ht2, Ht, Hc2. simpl.
  by rewrite orb_true_r.
Qed.
End follow.

(** ** A run *)

Section witnesses.
#[local] Open Scope string_scope.
#[local] Existing Instance demo_source.

(** A config that turns a knob on, in a file. *)
Definition demo_knobs (text : string) : JustKnobsStruct := {| ints := ∅; bools := {["rollout" := String.eqb text "on"]} |}.
Definition demo_store : @ConfigStore JustKnobsStruct nat nat _ :=
  (get_config_handle_with_deserializer "a" (λ x, Ok (demo_knobs x)) CachedConfig.new (holding "on")).1.2.
Definition demo_statics : Statics (@ConfigHandle JustKnobsStruct) :=
  {| thread_local := None; just_knobs_cell := None; worker_state := None |}.
Definition demo_started : Statics (@ConfigHandle JustKnobsStruct) :=
  {| thread_local := None; just_knobs_cell := Some (from_struct (demo_knobs "on")); worker_state := Some (Registered 0) |}.
Definition demo_process (w : demo_files) : process :=
  {| store_of := demo_store; source_of := w; statics_of := demo_started; worker_of := Spawned |}.

Lemma demo_store_reachable : reachable demo_store (holding "on").
Proof.
  exists (holding "on"). apply rtc_once.
  apply (step_register "a" (λ x, Ok (demo_knobs x)) CachedConfig.new (holding "on") (Ok (Registered 0))). reflexivity.
Qed.

Lemma justknobs_follow_config_witness :
  ∃ pr', run_worker 5 (demo_process (holding "off")) = ret pr' ∧ (eval "rollout" (statics_of pr')).1 = Ok true.
Proof.
  destruct (justknobs_follow_config 0 demo_store (holding "on") demo_statics demo_started (demo_process (holding "off")))
    as (pr'&v&Hrun&_&_&Hv&Hk).
  - exact demo_store_reachable.
  - reflexivity.
  - reflexivity.
  - apply rtc_once. apply (store_moves 0 (demo_process (holding "on"))); [apply step_source|reflexivity].
  - exists pr'. split; [exact Hrun|]. assert (demo_knobs "on" = v) as <- by (injection Hv as <-; reflexivity).
    destruct (Hk eq_refl "rollout") as [He _]. rewrite He. cbn [ints bools demo_knobs]. rewrite lookup_empty, lookup_singleton_eq. reflexivity.
Defined.
End witnesses.
End JustKnobs.
