(* ===== verification/Futures01.v ===== *)
(** Adaptors of [futures_01_ext] (src/shed/futures_01_ext/src), for the [Stream], [Sink] and
    [Future] of futures 0.1, whose [poll] returns a [Result]: the fork of a stream into two
    sinks (streamfork.rs), batches and counts (lib.rs), futures run one after the other
    (futures_ordered.rs), collecting without consuming (stream_wrappers) and splitting off
    the error (split_err.rs).

    A sink and a fused stream are classes with their documented behaviour; what a sink has
    accepted and whether it has sent it on are functions of its state.  The loops that read
    a stream until it is not ready take fuel; [out_of_fuel] is the panic that the theorems
    exclude for streams of finitely many items. *)
From S2P Require Import Prelude RustStd Streams.

Definition loop_fuel {A} : exec A := panic.

(** * Streams and sinks of futures 0.1 *)

(** [Poll<Option<Item>, E>] of a stream behind [fuse()]. *)
Class Fuse01 (St Item E W : Type) := {
  fused01 : Type;
  fuse01 : St → fused01;
  into_inner01 : fused01 → St;
  poll01 : fused01 → W → result (Poll (option Item)) E * fused01 * W;
  is_done01 : fused01 → bool;
  fuse01_new st : is_done01 (fuse01 st) = false;
  poll01_spec s w :
    match poll01 s w with
    | (Ok (Ready None), s', _) => is_done01 s' = true
    | (_, s', _) => is_done01 s = false ∧ is_done01 s' = false
    end;
}.

Section streams01.
Context {St Item E W : Type} {FU : Fuse01 St Item E W}.
Implicit Types (s : fused01) (w : W).

(** The items read from a stream between two of its states, errors left aside. *)
Inductive reads01 : fused01 → list Item → fused01 → Prop :=
| reads_nil s : reads01 s [] s
| reads_item s x s' l s'' w w' : poll01 s w = (Ok (Ready (Some x)), s', w') → reads01 s' l s'' → reads01 s (x :: l) s''
| reads_other s s' l s'' p w w' :
    poll01 s w = (p, s', w') → (∀ x, p ≠ Ok (Ready (Some x))) → reads01 s' l s'' → reads01 s l s''.

Lemma reads_app s1 l1 s2 l2 s3 : reads01 s1 l1 s2 → reads01 s2 l2 s3 → reads01 s1 (l1 ++ l2) s3.
Proof. induction 1; intros Hp; simpl; [done|by eapply reads_item; eauto|by eapply reads_other; eauto]. Qed.

(** What one more poll reads. *)
Definition got (p : result (Poll (option Item)) E) : list Item := match p with Ok (Ready (Some x)) => [x] | _ => [] end.

Lemma reads_poll s1 l s2 p s3 w w' : reads01 s1 l s2 → poll01 s2 w = (p, s3, w') → reads01 s1 (l ++ got p) s3.
Proof.
  intros Hr Hp. eapply reads_app; [done|]. destruct p as [[[x|]|]|e]; simpl;
    [eapply reads_item; [done|constructor]|eapply reads_other; [done|done|constructor]..].
Qed.

Definition reads_at_most (n : nat) s : Prop := ∀ l s', reads01 s l s' → length l ≤ n.
End streams01.

Inductive AsyncSink (A : Type) := SinkReady | SinkNotReady (x : A).
Arguments SinkReady {A}.
Arguments SinkNotReady {A} x.

(** [Sink]: an item is accepted, or given back; completing sends on what was accepted. *)
Class Sink (O Item E W : Type) := {
  start_send : O → Item → W → result (AsyncSink Item) E * O * W;
  poll_complete : O → W → result (Poll ()) E * O * W;
  accepted : O → list Item;
  sent_on : O → Prop;
  start_send_spec o x w :
    match start_send o x w with
    | (Ok SinkReady, o', _) => accepted o' = accepted o ++ [x]
    | (Ok (SinkNotReady y), o', _) => y = x ∧ accepted o' = accepted o
    | (Err _, _, _) => True
    end;
  poll_complete_spec o w :
    match poll_complete o w with
    | (Ok (Ready _), o', _) => accepted o' = accepted o ∧ sent_on o'
    | (Ok Pending, o', _) => accepted o' = accepted o
    | (Err _, _, _) => True
    end;
}.

(** * [streamfork] *)

Module Forker.
Section forker.
Context `{BM : BuildMode} {In Out1 Out2 Item EI EO E W : Type}.
Context {FU : Fuse01 In Item EI W} {S1 : Sink Out1 Item EO W} {S2 : Sink Out2 Item EO W}.
Context (from_in : EI → E) (from_out : EO → E) (pred : Item → W → result bool E * W).

Record Out (O : Type) := { out : option O; buf : option Item }.
#[local] Arguments out {O}.
#[local] Arguments buf {O}.

Section out.
Context {O : Type} {SO : Sink O Item EO W}.
Implicit Types (o : Out O) (w : W).

Definition out_new (s : O) : Out O := {| out := Some s; buf := None |}.
Definition out_mut o : exec O := expect (out o).
Definition take_result o : exec (O * Out O) := let! s := expect (out o) in ret (s, {| out := None; buf := buf o |}).

Definition try_start_send o (item : Item) w : exec (result (Poll ()) EO * Out O * W) :=
  let! _ := debug_assert (is_none (buf o)) in
  let! s := out_mut o in
  match start_send s item w with
  | (Err e, s, w) => ret (Err e, {| out := Some s; buf := buf o |}, w)
  | (Ok (SinkNotReady item), s, w) => ret (Ok Pending, {| out := Some s; buf := Some item |}, w)
  | (Ok SinkReady, s, w) => ret (Ok (Ready ()), {| out := Some s; buf := buf o |}, w)
  end.

Definition push o w : exec (result (Poll ()) EO * Out O * W) :=
  match buf o with
  | Some item => try_start_send {| out := out o; buf := None |} item w
  | None => ret (Ok (Ready ()), o, w)
  end.

Definition out_poll_complete o w : exec (result (Poll ()) EO * Out O * W) :=
  let! s := out_mut o in
  let '(r, s, w) := poll_complete s w in
  ret (r, {| out := Some s; buf := buf o |}, w).
End out.

Record Forker := { inp : option fused01; out1 : Out Out1; out2 : Out Out2; finished : option (result () E) }.
Implicit Types (s : Forker) (w : W).

Definition streamfork (i : In) (o1 : Out1) (o2 : Out2) : Forker :=
  {| inp := Some (fuse01 i); out1 := out_new o1; out2 := out_new o2; finished := None |}.

Definition set_outs s (o1 : Out Out1) (o2 : Out Out2) : Forker :=
  {| inp := inp s; out1 := o1; out2 := o2; finished := finished s |}.
Definition set_inp s (i : fused01) : Forker := {| inp := Some i; out1 := out1 s; out2 := out2 s; finished := finished s |}.
Definition set_finished s (f : option (result () E)) : Forker := {| inp := inp s; out1 := out1 s; out2 := out2 s; finished := f |}.

Definition take_results s : exec ((In * Out1 * Out2) * Forker) :=
  let! i := expect (inp s) in
  let! '(o1, u1) := take_result (out1 s) in
  let! '(o2, u2) := take_result (out2 s) in
  ret ((into_inner01 i, o1, o2), {| inp := None; out1 := u1; out2 := u2; finished := finished s |}).

Definition is_ready {A} (p : Poll A) : bool := match p with Ready _ => true | Pending => false end.

(** Both outputs, the second only if the first does not fail. *)
Definition both {A} (f1 : Out Out1 → W → exec (result (Poll A) EO * Out Out1 * W))
  (f2 : Out Out2 → W → exec (result (Poll A) EO * Out Out2 * W)) s w : exec (result bool E * Forker * W) :=
  let! '(r1, o1, w) := f1 (out1 s) w in
  match r1 with
  | Err e => ret (Err (from_out e), set_outs s o1 (out2 s), w)
  | Ok p1 =>
      let! '(r2, o2, w) := f2 (out2 s) w in
      match r2 with
      | Err e => ret (Err (from_out e), set_outs s o1 o2, w)
      | Ok p2 => ret (Ok (is_ready p1 && is_ready p2), set_outs s o1 o2, w)
      end
  end.

Definition poll_complete_both s w : exec (result bool E * Forker * W) := both out_poll_complete out_poll_complete s w.

Abbreviation Res := (result (Poll (In * Out1 * Out2)) E).

(** One item goes to its output. *)
Definition send_item s (item : Item) w : exec (result (Poll ()) E * Forker * W) :=
  let '(choice, w) := pred item w in
  match choice with
  | Err e => ret (Err e, s, w)
  | Ok true =>
      let! '(r, o, w) := try_start_send (out2 s) item w in
      ret (match r with Err e => Err (from_out e) | Ok p => Ok p end, set_outs s (out1 s) o, w)
  | Ok false =>
      let! '(r, o, w) := try_start_send (out1 s) item w in
      ret (match r with Err e => Err (from_out e) | Ok p => Ok p end, set_outs s o (out2 s), w)
  end.

(** The end of the input, with or without an error. *)
Definition input_ended (res : result () E) s w : exec (Res * Forker * W) :=
  let! '(r, s, w) := poll_complete_both s w in
  match r with
  | Err e => ret (Err e, s, w)
  | Ok false => ret (Ok Pending, set_finished s (Some res), w)
  | Ok true =>
      match res with
      | Ok _ => let! '(all, s) := take_results s in ret (Ok (Ready all), s, w)
      | Err e => ret (Err e, s, w)
      end
  end.

Fixpoint forward (fuel : nat) s w : exec (Res * Forker * W) :=
  match fuel with
  | O => loop_fuel
  | S fuel =>
      let! i := expect (inp s) in
      match poll01 i w with
      | (Ok (Ready (Some item)), i, w) =>
          let! '(r, s, w) := send_item (set_inp s i) item w in
          match r with
          | Err e => ret (Err e, s, w)
          | Ok Pending => ret (Ok Pending, s, w)
          | Ok (Ready _) => forward fuel s w
          end
      | (Ok Pending, i, w) =>
          let! '(r, s, w) := poll_complete_both (set_inp s i) w in
          ret (match r with Err e => Err e | Ok _ => Ok Pending end, s, w)
      | (Ok (Ready None), i, w) => input_ended (Ok ()) (set_inp s i) w
      | (Err err, i, w) => input_ended (Err (from_in err)) (set_inp s i) w
      end
  end.

Definition poll (fuel : nat) s w : exec (Res * Forker * W) :=
  match finished s with
  | Some finished_res =>
      let! '(r, s, w) := poll_complete_both s w in
      match r with
      | Err e => ret (Err e, s, w)
      | Ok false => ret (Ok Pending, s, w)
      | Ok true =>
          let s := set_finished s None in
          match finished_res with
          | Err e => ret (Err e, s, w)
          | Ok _ => let! '(all, s) := take_results s in ret (Ok (Ready all), s, w)
          end
      end
  | None =>
      let! '(r, s, w) := both push push s w in
      match r with
      | Err e => ret (Err e, s, w)
      | Ok false => ret (Ok Pending, s, w)
      | Ok true => forward fuel s w
      end
  end.

(** ** One output *)

Section out_theory.
Context {O : Type} {SO : Sink O Item EO W}.
Implicit Types (o : Out O) (a : list Item).

(** The items an output was given: accepted by the sink, or waiting for it. *)
Definition held o a : Prop := ∃ sk, out o = Some sk ∧ accepted sk ++ option_list (buf o) = a.

(** Completed: nothing waits, and the sink has sent everything on. *)
Definition completed o a : Prop := ∃ sk, out o = Some sk ∧ accepted sk = a ∧ sent_on sk.

Lemma try_start_send_ok o a x w :
  held o a → buf o = None →
  ∃ r o' w', try_start_send o x w = ret (r, o', w') ∧
    match r with Ok p => held o' (a ++ [x]) ∧ (is_ready p = true → buf o' = None) | Err _ => True end.
Proof.
  intros (s&Ho&<-) Hb. unfold try_start_send, debug_assert, out_mut. rewrite Hb, Ho. simpl.
  pose proof (start_send_spec s x w) as Hs. destruct (start_send s x w) as [[[[|y]|e] s'] w'];
    destruct debug_assertions; simpl; (eexists _, _, _; split; [reflexivity|]); try done;
    unfold held; simpl; rewrite app_nil_r; destruct_and?; subst; split; try done; (eexists; split; [done|]); simpl; rewrite ?app_nil_r; congruence.
Qed.

Lemma push_ok o a w :
  held o a →
  ∃ r o' w', push o w = ret (r, o', w') ∧
    match r with Ok p => held o' a ∧ (is_ready p = true → buf o' = None) | Err _ => True end.
Proof.
  intros (s&Ho&<-). unfold push. destruct (buf o) as [x|] eqn:Hb.
  - destruct (try_start_send_ok {| out := out o; buf := None |} (accepted s) x w) as (r&o'&w'&Heq&Hr); [|done|by eexists _, _, _].
    exists s. simpl. by rewrite app_nil_r.
  - eexists _, _, _. split; [done|]. split; [|done]. exists s. by rewrite Hb.
Qed.

Lemma out_poll_complete_ok o a w :
  held o a →
  ∃ r o' w', out_poll_complete o w = ret (r, o', w') ∧
    match r with
    | Ok p => held o' a ∧ buf o' = buf o ∧ (is_ready p = true → buf o = None → completed o' a)
    | Err _ => True
    end.
Proof.
  intros (s&Ho&<-). unfold out_poll_complete, out_mut. rewrite Ho. simpl. pose proof (poll_complete_spec s w) as Hs.
  destruct (poll_complete s w) as [[[[[]|]|e] s'] w']; (eexists _, _, _; split; [reflexivity|]); [..|done].
  - destruct Hs as [Ha Hsent]. split; [exists s'; by rewrite Ha|]. split; [done|]. intros _ Hb. exists s'. simpl.
    by rewrite Hb, app_nil_r, Ha.
  - split; [exists s'; by rewrite Hs|done].
Qed.
End out_theory.

(** ** The fork *)

(** Where the items read so far went: [true] for the second output. *)
Definition to1 (routed : list (Item * bool)) : list Item := omap (λ x, if x.2 : bool then None else Some x.1) routed.
Definition to2 (routed : list (Item * bool)) : list Item := omap (λ x, if x.2 : bool then Some x.1 else None) routed.
Definition chosen (x : Item * bool) : Prop := ∃ w w', pred x.1 w = (Ok x.2, w').

Context (i0 : In) (a1 a2 : list Item).

Record forked (routed : list (Item * bool)) s : Prop := {
  forked_inp : ∃ i, inp s = Some i ∧ reads01 (fuse01 i0) routed.*1 i;
  forked_out1 : held (out1 s) (a1 ++ to1 routed);
  forked_out2 : held (out2 s) (a2 ++ to2 routed);
  forked_chosen : Forall chosen routed;
}.

Definition clear s : Prop := buf (out1 s) = None ∧ buf (out2 s) = None.

(** How the input ended. *)
Definition ended (res : result () E) : Prop :=
  match res with
  | Ok _ => ∃ i i' w w', poll01 i w = (Ok (Ready None), i', w')
  | Err e => ∃ err i w i' w', poll01 i w = (Err err, i', w') ∧ e = from_in err
  end.

Definition waits s : Prop := match finished s with Some res => clear s ∧ ended res | None => True end.

Definition all_sent (routed : list (Item * bool)) s : Prop :=
  completed (out1 s) (a1 ++ to1 routed) ∧ completed (out2 s) (a2 ++ to2 routed).

(** The errors of the other parts. *)
Definition sink_failed (e : E) : Prop := ∃ eo, e = from_out eo.
Definition pred_failed (e : E) : Prop := ∃ x w w', pred x w = (Err e, w').

(** What a poll may answer: pending with nothing lost, done with everything sent on, or an
    error, after which everything read was sent on if it is the input's. *)
Definition outcome (r : Res) s : Prop :=
  match r with
  | Ok Pending => ∃ routed, forked routed s ∧ waits s
  | Ok (Ready (i, o1, o2)) => ∃ routed fi, i = into_inner01 fi ∧ reads01 (fuse01 i0) routed.*1 fi ∧ Forall chosen routed ∧
      accepted o1 = a1 ++ to1 routed ∧ sent_on o1 ∧ accepted o2 = a2 ++ to2 routed ∧ sent_on o2
  | Err e => (∃ routed, forked routed s ∧ all_sent routed s ∧ ended (Err e)) ∨ sink_failed e ∨ pred_failed e
  end.

Lemma set_outs_forked routed s o1 o2 :
  forked routed s → held o1 (a1 ++ to1 routed) → held o2 (a2 ++ to2 routed) → forked routed (set_outs s o1 o2).
Proof. by intros []; split. Qed.

Lemma pushes_ok routed s w :
  forked routed s →
  ∃ r s' w', both push push s w = ret (r, s', w') ∧
    match r with Ok b => forked routed s' ∧ finished s' = finished s ∧ (b = true → clear s') | Err e => sink_failed e end.
Proof.
  intros Hf. unfold both. destruct (push_ok (out1 s) _ w (forked_out1 _ _ Hf)) as ([p1|e1]&o1&w1&->&Hp1); simpl;
    [|eexists _, _, _; split; [done|by eexists]]. destruct Hp1 as [Hh1 Hc1].
  destruct (push_ok (out2 s) _ w1 (forked_out2 _ _ Hf)) as ([p2|e2]&o2&w2&->&Hp2); simpl;
    [|eexists _, _, _; split; [done|by eexists]]. destruct Hp2 as [Hh2 Hc2].
  eexists _, _, _. split; [done|]. split; [by apply set_outs_forked|]. split; [done|].
  intros [H1 H2]%andb_true_iff. split; [by apply Hc1|by apply Hc2].
Qed.

Lemma completes_ok routed s w :
  forked routed s →
  ∃ r s' w', poll_complete_both s w = ret (r, s', w') ∧
    match r with
    | Ok b => forked routed s' ∧ finished s' = finished s ∧ (clear s → clear s' ∧ (b = true → all_sent routed s'))
    | Err e => sink_failed e
    end.
Proof.
  intros Hf. unfold poll_complete_both, both.
  destruct (out_poll_complete_ok (out1 s) _ w (forked_out1 _ _ Hf)) as ([p1|e1]&o1&w1&->&Hp1); simpl;
    [|eexists _, _, _; split; [done|by eexists]]. destruct Hp1 as (Hh1&Hb1&Hc1).
  destruct (out_poll_complete_ok (out2 s) _ w1 (forked_out2 _ _ Hf)) as ([p2|e2]&o2&w2&->&Hp2); simpl;
    [|eexists _, _, _; split; [done|by eexists]]. destruct Hp2 as (Hh2&Hb2&Hc2).
  eexists _, _, _. split; [done|]. split; [by apply set_outs_forked|]. split; [done|].
  intros [H1 H2]. split; [split; simpl; congruence|]. intros [Hr1 Hr2]%andb_true_iff. split; [by apply Hc1|by apply Hc2].
Qed.

Lemma take_results_ok routed s :
  forked routed s → all_sent routed s →
  ∃ i o1 o2 s', take_results s = ret ((i, o1, o2), s') ∧ outcome (Ok (Ready (i, o1, o2))) s'.
Proof.
  intros [(fi&Hi&Hr) _ _ Hch] [(s1&Ho1&Ha1&Hs1) (s2&Ho2&Ha2&Hs2)]. unfold take_results, take_result. rewrite Hi, Ho1, Ho2. simpl.
  eexists _, _, _, _. split; [done|]. by exists routed, fi.
Qed.

Lemma input_ended_ok routed res s w :
  forked routed s → clear s → ended res → ∃ r s' w', input_ended res s w = ret (r, s', w') ∧ outcome r s'.
Proof.
  intros Hf Hc He. unfold input_ended. destruct (completes_ok routed s w Hf) as ([b|e]&s1&w1&->&Hs1); simpl;
    [|eexists _, _, _; split; [done|by right; left]]. destruct Hs1 as (Hf1&_&Hc1). destruct (Hc1 Hc) as [Hcl Hall].
  destruct b.
  - destruct res as [[]|e].
    + destruct (take_results_ok routed s1 Hf1 (Hall eq_refl)) as (i&o1&o2&s2&->&Ho). simpl. by eexists _, _, _.
    + eexists _, _, _. split; [done|]. left. exists routed. eauto.
  - eexists _, _, _. split; [done|]. exists routed. destruct Hf1. split; [by split|]. by split.
Qed.

Lemma reads_length N routed s : reads_at_most N (fuse01 i0) → forked routed s → length routed ≤ N.
Proof. intros HN [(i&_&Hr) _ _ _]. specialize (HN _ _ Hr). by rewrite length_fmap in HN. Qed.

Lemma to1_snoc routed x (b : bool) : to1 (routed ++ [(x, b)]) = to1 routed ++ (if b then [] else [x]).
Proof. unfold to1. rewrite omap_app. by destruct b. Qed.
Lemma to2_snoc routed x (b : bool) : to2 (routed ++ [(x, b)]) = to2 routed ++ (if b then [x] else []).
Proof. unfold to2. rewrite omap_app. by destruct b. Qed.

Lemma send_item_ok routed s item w :
  forked routed s → clear s →
  ∃ r s' w', (∀ i, ∃ r' s'', send_item (set_inp s i) item w = ret (r', s'', w') ∧ r' = r ∧ s'' = set_inp s' i) ∧
    match r with
    | Ok p => ∃ b, chosen (item, b) ∧ held (out1 s') (a1 ++ to1 (routed ++ [(item, b)])) ∧
        held (out2 s') (a2 ++ to2 (routed ++ [(item, b)])) ∧ finished s' = finished s ∧ (is_ready p = true → clear s')
    | Err e => sink_failed e ∨ pred_failed e
    end.
Proof.
  intros [_ H1 H2 _] [Hb1 Hb2]. unfold send_item. destruct (pred item w) as [[b|e] w1] eqn:Hp.
  2: { eexists (Err e), s, w1. split; [intros i; by eexists _, _|]. right. by exists item, w, w1. }
  destruct b.
  - destruct (try_start_send_ok (out2 s) _ item w1 H2 Hb2) as (r&o&w2&Heq&Hr).
    exists (match r with Err e => Err (from_out e) | Ok p => Ok p end), (set_outs s (out1 s) o), w2. simpl. rewrite Heq.
    split; [intros i; by eexists _, _|]. destruct r as [p|e]; [|left; by eexists]. exists true. rewrite to1_snoc, to2_snoc, app_nil_r, app_assoc.
    destruct Hr as [Hh Hc]. split; [by eexists _, _|]. split; [done|]. split; [done|]. split; [done|]. intros Hr. split; [done|by apply Hc].
  - destruct (try_start_send_ok (out1 s) _ item w1 H1 Hb1) as (r&o&w2&Heq&Hr).
    exists (match r with Err e => Err (from_out e) | Ok p => Ok p end), (set_outs s o (out2 s)), w2. simpl. rewrite Heq.
    split; [intros i; by eexists _, _|]. destruct r as [p|e]; [|left; by eexists]. exists false. rewrite to1_snoc, to2_snoc, app_nil_r, app_assoc.
    destruct Hr as [Hh Hc]. split; [by eexists _, _|]. split; [done|]. split; [done|]. split; [done|]. intros Hr. split; [by apply Hc|done].
Qed.

(** Reading nothing keeps the fork. *)
Lemma forked_read routed s i w p i' w' :
  forked routed s → inp s = Some i → poll01 i w = (p, i', w') → got p = [] → forked routed (set_inp s i').
Proof.
  intros [(i1&Hi1&Hr) H1 H2 Hch] Hi Hp Hg. simplify_eq. pose proof (reads_poll _ _ _ _ _ _ _ Hr Hp) as Hr'.
  rewrite Hg, app_nil_r in Hr'. split; [by exists i'|done..].
Qed.

Context (N : nat) (short : reads_at_most N (fuse01 i0)).

Lemma forward_ok fuel routed s w :
  forked routed s → clear s → finished s = None → N < length routed + fuel →
  ∃ r s' w', forward fuel s w = ret (r, s', w') ∧ outcome r s'.
Proof.
  revert routed s w. induction fuel as [|fuel IH]; intros routed s w Hf Hc Hfin Hlt.
  { pose proof (reads_length N routed s short Hf). lia. }
  simpl. destruct (forked_inp _ _ Hf) as (i&Hi&Hr). rewrite Hi. simpl.
  destruct (poll01 i w) as [[p i'] w1] eqn:Hp. pose proof (forked_read _ _ _ _ _ _ _ Hf Hi Hp) as Hf'.
  destruct p as [[[item|]|]|err].
  - pose proof (reads_poll _ _ _ _ _ _ _ Hr Hp) as Hr'.
    destruct (send_item_ok routed s item w1 Hf Hc) as (r&s1&w2&Hs&Hout). destruct (Hs i') as (?&?&->&->&->). simpl.
    destruct r as [p|e]; [|eexists _, _, _; split; [done|by right]]. destruct Hout as (b&Hb&H1&H2&Hfin1&Hcl).
    assert (forked (routed ++ [(item, b)]) (set_inp s1 i')) as Hf1.
    { split; [exists i'; split; [done|by rewrite fmap_app]|done..|apply Forall_app; split; [apply Hf|by constructor]]. }
    destruct p as [[]|].
    + apply (IH (routed ++ [(item, b)])); [done|by apply Hcl|simpl; congruence|rewrite length_app; simpl; lia].
    + eexists _, _, _. split; [done|]. exists (routed ++ [(item, b)]). split; [done|]. unfold waits. simpl. by rewrite Hfin1, Hfin.
  - apply (input_ended_ok routed); [by apply Hf'|done|by exists i, i', w, w1].
  - destruct (completes_ok routed (set_inp s i') w1 (Hf' eq_refl)) as ([b|e]&s1&w2&->&Hs1); simpl;
      [|eexists _, _, _; split; [done|by right; left]]. destruct Hs1 as (Hf1&Hfin1&_).
    eexists _, _, _. split; [done|]. exists routed. split; [done|]. unfold waits. by rewrite Hfin1; simpl; rewrite Hfin.
  - apply (input_ended_ok routed); [by apply Hf'|done|by exists err, i, w, i', w1].
Qed.

Lemma fork_poll_ok fuel routed s w :
  forked routed s → waits s → N < fuel → ∃ r s' w', poll fuel s w = ret (r, s', w') ∧ outcome r s'.
Proof.
  intros Hf Hw Hlt. unfold poll, waits in *. destruct (finished s) as [res|] eqn:Hfin.
  - destruct Hw as [Hc He]. destruct (completes_ok routed s w Hf) as ([b|e]&s1&w1&->&Hs1); simpl;
      [|eexists _, _, _; split; [done|by right; left]]. destruct Hs1 as (Hf1&Hfin1&Hc1). destruct (Hc1 Hc) as [Hcl Hall].
    assert (forked routed (set_finished s1 None)) as Hf2 by (destruct Hf1; by split).
    destruct b; [|eexists _, _, _; split; [done|]; exists routed; split; [done|]; unfold waits; by rewrite Hfin1, Hfin].
    assert (all_sent routed (set_finished s1 None)) as Hall2 by exact (Hall eq_refl). destruct res as [[]|e].
    + destruct (take_results_ok routed _ Hf2 Hall2) as (i&o1&o2&s2&->&Ho). simpl. by eexists _, _, _.
    + eexists _, _, _. split; [done|]. left. exists routed. eauto.
  - destruct (pushes_ok routed s w Hf) as ([b|e]&s1&w1&->&Hs1); simpl; [|eexists _, _, _; split; [done|by right; left]].
    destruct Hs1 as (Hf1&Hfin1&Hc1). destruct b.
    + apply (forward_ok fuel routed); [done|by apply Hc1|congruence|lia].
    + eexists _, _, _. split; [done|]. exists routed. split; [done|]. unfold waits. by rewrite Hfin1, Hfin.
Qed.

(** The future polled until it resolves, [n] times at most. *)
Fixpoint run (n fuel : nat) s w : exec (Res * Forker * W) :=
  match n with
  | O => ret (Ok Pending, s, w)
  | S n =>
      let! '(r, s, w) := poll fuel s w in
      match r with Ok Pending => run n fuel s w | _ => ret (r, s, w) end
  end.

Lemma fork_run_ok n fuel routed s w :
  forked routed s → waits s → N < fuel → ∃ r s' w', run n fuel s w = ret (r, s', w') ∧ outcome r s'.
Proof.
  revert routed s w. induction n as [|n IH]; intros routed s w Hf Hw Hlt; simpl; [eexists _, _, _; split; [done|by exists routed]|].
  destruct (fork_poll_ok fuel routed s w Hf Hw Hlt) as (r&s1&w1&->&Ho). simpl.
  destruct r as [[x|]|e]; [by eexists _, _, _| |by eexists _, _, _]. destruct Ho as (routed1&Hf1&Hw1). by apply (IH routed1).
Qed.
End forker.

(** C27: a fork polled until it resolves never panics and loses nothing.  At every time each item
    read from the input has been given to the output that the predicate chose for it, in
    order, and is accepted there or is the one item waiting for it.  It resolves only when the
    input has ended, with the input and both outputs, which have then sent on exactly their
    items; when the input fails, the error comes out after everything read before it was sent
    on; other errors are those of an output or of the predicate. *)
Theorem fork_sound `{BM : BuildMode} {In Out1 Out2 Item EI EO E W : Type}
    {FU : Fuse01 In Item EI W} {S1 : Sink Out1 Item EO W} {S2 : Sink Out2 Item EO W}
    (from_in : EI → E) (from_out : EO → E) (pred : Item → W → result bool E * W) N n fuel (i : In) (o1 : Out1) (o2 : Out2) w :
  reads_at_most N (fuse01 i) → N < fuel →
  ∃ r s w', run from_in from_out pred n fuel (streamfork i o1 o2) w = ret (r, s, w') ∧
    outcome from_in from_out pred i (accepted o1) (accepted o2) r s.
Proof.
  intros HN Hf. apply (fork_run_ok from_in from_out pred i _ _ N HN n fuel []); [|done|done].
  split; [by eexists; split; [|constructor]| | |constructor]; simpl; rewrite app_nil_r; eexists; (split; [done|]); simpl; by rewrite app_nil_r.
Qed.

(** *** A concrete fork: a scripted stream and two sinks with room for one unsent item *)

Section concrete.
Definition script : Type := list (result (Poll nat) nat).

#[local] Instance script_fuse : Fuse01 script nat nat nat.
Proof.
  refine {| fused01 := script * bool; fuse01 l := (l, false); into_inner01 := fst; is_done01 := snd;
    poll01 s w :=
      match s with
      | (l, true) => (Ok (Ready None), (l, true), w)
      | ([], false) => (Ok (Ready None), ([], true), w)
      | (Ok (Ready x) :: l, false) => (Ok (Ready (Some x)), (l, false), w)
      | (Ok Pending :: l, false) => (Ok Pending, (l, false), w)
      | (Err e :: l, false) => (Err e, (l, false), w)
      end |}; [done|]. by intros [[|[[x|]|e] l] []] w.
Defined.

#[local] Instance small_sink : Sink (list nat * nat) nat nat nat.
Proof.
  refine {| start_send o x w := if o.2 =? length o.1 then (Ok SinkReady, (o.1 ++ [x], o.2), w) else (Ok (SinkNotReady x), (o.1, length o.1), w);
    poll_complete o w := if o.2 =? length o.1 then (Ok (Ready ()), o, w) else (Ok Pending, (o.1, length o.1), w);
    accepted := fst; sent_on o := o.2 = length o.1 |}.
  - intros [a b] x w. simpl. by destruct (b =? length a).
  - intros [a b] w. simpl. by destruct (Nat.eqb_spec b (length a)).
Defined.

Lemma script_reads (l : script) : reads_at_most (length l) (fuse01 l).
Proof.
  enough (∀ s k s', reads01 s k s' → length k ≤ length s.1) as H by (intros k s' Hr; apply (H _ _ _ Hr)).
  induction 1 as [|[[|[[y|]|e] m] []] x s' k s'' w w' Hp _ IH|[[|[[y|]|e] m] []] s' k s'' p w w' Hp _ _ IH];
    simpl in *; try lia; simplify_eq; simpl in *; lia.
Qed.

Definition even_first (x w : nat) : result bool nat * nat := (Ok (Nat.odd x), w).

Lemma fork_sound_witness :
  let _ := debug_build in
  let l : script := [Ok (Ready 1); Ok (Ready 2); Ok Pending; Ok (Ready 4); Ok (Ready 6)] in
  (∃ s, run id id even_first 10 6 (streamfork l ([], 0) ([], 0)) 0 = ret (Ok (Ready ([], ([2; 4; 6], 3), ([1], 1))), s, 0)) ∧
  ∃ r s w', run id id even_first 10 6 (streamfork l ([], 0) ([], 0)) 0 = ret (r, s, w') ∧
    outcome id id even_first l (accepted ([], 0)) (accepted ([], 0)) r s.
Proof.
  split; [eexists; vm_compute; reflexivity|]. apply (fork_sound id id even_first 5); [apply script_reads|lia].
Defined.
End concrete.
End Forker.

(** * [BatchStream] *)

Module Batch.
Section batch.
Context {St Item E W : Type} {FU : Fuse01 St Item E W}.

Record BatchStream := { inner : fused01; err : option E; limit : nat }.
Implicit Types (s : BatchStream) (w : W).

Definition new (st : St) (limit : nat) : BatchStream := {| inner := fuse01 st; err := None; limit := limit |}.

(** The [while] loop: a slot of the batch for every round. *)
Fixpoint fill_batch (slots : nat) (i : fused01) (batch : list Item) w : list Item * option E * fused01 * W :=
  match slots with
  | O => (batch, None, i, w)
  | S slots =>
      match poll01 i w with
      | (Ok (Ready (Some v)), i, w) => fill_batch slots i (batch ++ [v]) w
      | (Ok Pending, i, w) | (Ok (Ready None), i, w) => (batch, None, i, w)
      | (Err e, i, w) => (batch, Some e, i, w)
      end
  end.

Definition poll s w : result (Poll (option (list Item))) E * BatchStream * W :=
  match err s with
  | Some e => (Err e, {| inner := inner s; err := None; limit := limit s |}, w)
  | None =>
      let '(batch, e, i, w) := fill_batch (limit s) (inner s) [] w in
      match batch with
      | [] =>
          let s := {| inner := i; err := None; limit := limit s |} in
          match e with
          | Some e => (Err e, s, w)
          | None => (if is_done01 i then Ok (Ready None) else Ok Pending, s, w)
          end
      | _ :: _ => (Ok (Ready (Some batch)), {| inner := i; err := e; limit := limit s |}, w)
      end
  end.

(** ** Items and errors in order *)

(** The items and errors a stream has given between two of its states. *)
Inductive events : fused01 → list (result Item E) → fused01 → Prop :=
| events_nil i : events i [] i
| events_item i x i' l i'' w w' : poll01 i w = (Ok (Ready (Some x)), i', w') → events i' l i'' → events i (Ok x :: l) i''
| events_err i e i' l i'' w w' : poll01 i w = (Err e, i', w') → events i' l i'' → events i (Err e :: l) i''
| events_none i i' l i'' p w w' : poll01 i w = (Ok p, i', w') → (∀ x, p ≠ Ready (Some x)) → events i' l i'' → events i l i''.

Lemma events_app i1 l1 i2 l2 i3 : events i1 l1 i2 → events i2 l2 i3 → events i1 (l1 ++ l2) i3.
Proof.
  induction 1; intros He; simpl; [done|by eapply events_item; eauto|by eapply events_err; eauto|by eapply events_none; eauto].
Qed.

Definition poll_events (p : result (Poll (option Item)) E) : list (result Item E) :=
  match p with Ok (Ready (Some x)) => [Ok x] | Err e => [Err e] | _ => [] end.

Lemma events_poll i1 l i2 p i3 w w' : events i1 l i2 → poll01 i2 w = (p, i3, w') → events i1 (l ++ poll_events p) i3.
Proof.
  intros He Hp. eapply events_app; [done|]. destruct p as [[[x|]|]|e]; simpl;
    [eapply events_item|eapply events_none|eapply events_none|eapply events_err]; try done; constructor.
Qed.

Definition kept_error (e : option E) : list (result Item E) := match e with Some e => [Err e] | None => [] end.

Lemma fill_batch_ok slots i0 l i batch w :
  events i0 (l ++ (Ok <$> batch)) i →
  let '(batch', e, i', w') := fill_batch slots i batch w in
  events i0 (l ++ (Ok <$> batch') ++ kept_error e) i' ∧ length batch' ≤ length batch + slots.
Proof.
  revert i batch w. induction slots as [|slots IH]; intros i batch w He; simpl; [rewrite app_nil_r; split; [done|lia]|].
  destruct (poll01 i w) as [[p i'] w'] eqn:Hp. pose proof (events_poll _ _ _ _ _ _ _ He Hp) as He'.
  destruct p as [[[x|]|]|e]; simpl in He'; rewrite ?app_nil_r in *; simpl; rewrite ?app_nil_r; [|split; [done|lia]..|].
  - specialize (IH i' (batch ++ [x]) w'). rewrite fmap_app, app_assoc in IH. specialize (IH He').
    destruct (fill_batch slots i' (batch ++ [x]) w') as [[[batch' e'] i''] w'']. rewrite length_app in IH. simpl in IH.
    destruct IH. split; [done|lia].
  - rewrite <-app_assoc in He'. split; [done|lia].
Qed.

(** What a poll answers, as items and errors. *)
Definition answer_events (p : result (Poll (option (list Item))) E) : list (result Item E) :=
  match p with Ok (Ready (Some batch)) => Ok <$> batch | Err e => [Err e] | _ => [] end.

(** A batch is not empty and within the limit; batches and errors hand over what the stream
    gave, in order, an error found behind a batch being kept for the next poll. *)
Theorem batch_poll_ok i0 l s w :
  events i0 (l ++ kept_error (err s)) (inner s) →
  let '(p, s', w') := poll s w in
  events i0 (l ++ answer_events p ++ kept_error (err s')) (inner s') ∧ limit s' = limit s ∧
  match p with
  | Ok (Ready (Some batch)) => 0 < length batch ≤ limit s
  | Ok (Ready None) => is_done01 (inner s') = true
  | _ => True
  end.
Proof.
  intros He. unfold poll. destruct (err s) as [e|] eqn:Herr; [by rewrite app_nil_r|]. simpl in He. rewrite app_nil_r in He.
  pose proof (fill_batch_ok (limit s) i0 l (inner s) [] w) as Hf. rewrite app_nil_r in Hf. specialize (Hf He).
  destruct (fill_batch (limit s) (inner s) [] w) as [[[batch e] i'] w']. destruct Hf as [He' Hlen]. simpl in Hlen.
  destruct batch as [|x batch]; simpl in *; [|split; [done|]; split; [done|lia]].
  destruct e as [e|]; simpl in *; [done|]. destruct (is_done01 i') eqn:Hd; simpl; done.
Qed.

(** A limit of zero never reads the stream: the batches stay pending for ever. *)
Lemma batch_zero_hangs (st : St) w : poll (new st 0) w = (Ok Pending, new st 0, w).
Proof. unfold poll, new. simpl. by rewrite fuse01_new. Qed.
End batch.
End Batch.

(** * [Enumerate], [FuturesOrdered], [CollectNoConsume] and [split_err] *)

(** A stream of futures 0.1 that need not be fused. *)
Class Stream01 (St Item E W : Type) := stream_poll01 : St → W → result (Poll (option Item)) E * St * W.
#[global] Hint Mode Stream01 ! - - - : typeclass_instances.

Class Future01 (F O E W : Type) := future_poll01 : F → W → result (Poll O) E * F * W.
#[global] Hint Mode Future01 ! - - - : typeclass_instances.

Module Adaptors.
Section adaptors.
Context {St Item E W : Type} {SS : Stream01 St Item E W}.

(** ** [Enumerate] *)

Record Enumerate := { enum_inner : St; count : nat }.

Definition enumerate (st : St) : Enumerate := {| enum_inner := st; count := 0 |}.
Definition enum_poll (s : Enumerate) (w : W) : result (Poll (option (nat * Item))) E * Enumerate * W :=
  match stream_poll01 (enum_inner s) w with
  | (Err e, st, w) => (Err e, {| enum_inner := st; count := count s |}, w)
  | (Ok Pending, st, w) => (Ok Pending, {| enum_inner := st; count := count s |}, w)
  | (Ok (Ready None), st, w) => (Ok (Ready None), {| enum_inner := st; count := count s |}, w)
  | (Ok (Ready (Some v)), st, w) => (Ok (Ready (Some (count s, v))), {| enum_inner := st; count := S (count s) |}, w)
  end.

(** Both streams polled [n] times: the items, each with its number, and the errors. *)
Fixpoint polls {S A} (poll : S → W → result (Poll (option A)) E * S * W) (n : nat) (s : S) (w : W) : list (result A E) * S * W :=
  match n with
  | 0 => ([], s, w)
  | S n =>
      let '(p, s, w) := poll s w in
      let '(l, s, w) := polls poll n s w in
      (match p with Ok (Ready (Some x)) => Ok x :: l | Err e => Err e :: l | _ => l end, s, w)
  end.

Fixpoint numbered (k : nat) (l : list (result Item E)) : list (result (nat * Item) E) :=
  match l with
  | [] => []
  | Ok x :: l => Ok (k, x) :: numbered (S k) l
  | Err e :: l => Err e :: numbered k l
  end.

Lemma enumerate_numbers n st k w :
  let '(l, st', w') := polls stream_poll01 n st w in
  ∃ k', polls enum_poll n {| enum_inner := st; count := k |} w = (numbered k l, {| enum_inner := st'; count := k' |}, w').
Proof.
  revert st k w. induction n as [|n IH]; intros st k w; simpl; [by exists k|]. unfold enum_poll. simpl.
  destruct (stream_poll01 st w) as [[[[[x|]|]|e] st1] w1]; [specialize (IH st1 (S k) w1)|specialize (IH st1 k w1)..];
    destruct (polls stream_poll01 n st1 w1) as [[l st'] w']; destruct IH as [k' IH]; fold enum_poll; rewrite IH; by exists k'.
Qed.

(** ** [CollectNoConsume] *)

Record CollectNoConsume := { collected_stream : option St; items : list Item }.

Definition collect_no_consume (st : St) : CollectNoConsume := {| collected_stream := Some st; items := [] |}.

Definition finish (c : CollectNoConsume) : exec ((list Item * St) * CollectNoConsume) :=
  let! st := expect (collected_stream c) in ret ((items c, st), {| collected_stream := None; items := [] |}).

(** The loop of [poll], with fuel. *)
Fixpoint collect_poll (fuel : nat) (c : CollectNoConsume) (w : W) : exec (result (Poll (list Item * St)) E * CollectNoConsume * W) :=
  match fuel with
  | 0 => loop_fuel
  | S fuel =>
      let! st := expect (collected_stream c) in
      match stream_poll01 st w with
      | (Ok (Ready (Some e)), st, w) => collect_poll fuel {| collected_stream := Some st; items := items c ++ [e] |} w
      | (Ok (Ready None), st, w) =>
          let! '(all, c) := finish {| collected_stream := Some st; items := items c |} in ret (Ok (Ready all), c, w)
      | (Ok Pending, st, w) => ret (Ok Pending, {| collected_stream := Some st; items := items c |}, w)
      | (Err e, st, w) => let! '(_, c) := finish {| collected_stream := Some st; items := items c |} in ret (Err e, c, w)
      end
  end.

(** The stream gives these items without a pause. *)
Inductive yields01 : St → W → list Item → St → W → Prop :=
| yields_nil st w : yields01 st w [] st w
| yields_cons st w x st1 w1 l st2 w2 :
    stream_poll01 st w = (Ok (Ready (Some x)), st1, w1) → yields01 st1 w1 l st2 w2 → yields01 st w (x :: l) st2 w2.

(** One poll reads every item there is; it resolves at the end of the stream, with all items
    of all polls and the stream, keeps them while the stream is pending, and drops them with
    the stream on an error. *)
Lemma collect_poll_ok l st w st1 w1 k fuel :
  yields01 st w l st1 w1 → length l < fuel →
  collect_poll fuel {| collected_stream := Some st; items := k |} w =
  match stream_poll01 st1 w1 with
  | (Ok (Ready (Some x)), st2, w2) => collect_poll (fuel - S (length l)) {| collected_stream := Some st2; items := k ++ l ++ [x] |} w2
  | (Ok (Ready None), st2, w2) => ret (Ok (Ready (k ++ l, st2)), {| collected_stream := None; items := [] |}, w2)
  | (Ok Pending, st2, w2) => ret (Ok Pending, {| collected_stream := Some st2; items := k ++ l |}, w2)
  | (Err e, st2, w2) => ret (Err e, {| collected_stream := None; items := [] |}, w2)
  end.
Proof.
  intros Hy. revert k fuel. induction Hy as [st w|st w x st1 w1 l st2 w2 Hp Hy IH]; intros k [|fuel] Hlt; simpl in *; try lia.
  - rewrite app_nil_r, Nat.sub_0_r. by destruct (stream_poll01 st w) as [[[[[x|]|]|e] st1] w1].
  - rewrite Hp, IH by lia. destruct (stream_poll01 st2 w2) as [[[[[y|]|]|e] st3] w3]; by rewrite <-?(app_assoc k).
Qed.

(** Polling it again after it resolved is the panic of [expect]. *)
Lemma collect_poll_again fuel k w : collect_poll (S fuel) {| collected_stream := None; items := k |} w = panic.
Proof. done. Qed.

(** ** [split_err] *)

Context {Tx Rx : Type} (send_err : E → Tx → W → W) (rx_poll : Rx → W → result (Poll E) () * Rx * W).

Record ErrSplitter := { split_inner : St; err_tx : option Tx }.

Definition splitter_poll (s : ErrSplitter) (w : W) : Poll (option Item) * ErrSplitter * W :=
  match stream_poll01 (split_inner s) w with
  | (Ok (Ready v), st, w) => (Ready v, {| split_inner := st; err_tx := err_tx s |}, w)
  | (Ok Pending, st, w) => (Pending, {| split_inner := st; err_tx := err_tx s |}, w)
  | (Err e, st, w) =>
      (Pending, {| split_inner := st; err_tx := None |}, match err_tx s with Some tx => send_err e tx w | None => w end)
  end.

Record ErrFuture := { err_rx : option Rx }.

Definition err_future_poll (f : ErrFuture) (w : W) : Poll E * ErrFuture * W :=
  match err_rx f with
  | None => (Pending, {| err_rx := None |}, w)
  | Some rx =>
      match rx_poll rx w with
      | (Ok (Ready e), _, w) => (Ready e, {| err_rx := None |}, w)
      | (Ok Pending, rx, w) => (Pending, {| err_rx := Some rx |}, w)
      | (Err _, _, w) => (Pending, {| err_rx := None |}, w)
      end
  end.

Definition split_err (st : St) (tx : Tx) (rx : Rx) : ErrSplitter * ErrFuture :=
  ({| split_inner := st; err_tx := Some tx |}, {| err_rx := Some rx |}).

(** The error does not end the stream, which is pending at that poll and goes on with the
    inner stream at the next; the sender is used up, so that later errors are lost. *)
Lemma splitter_error s w e st w1 :
  stream_poll01 (split_inner s) w = (Err e, st, w1) →
  ∃ w2, splitter_poll s w = (Pending, {| split_inner := st; err_tx := None |}, w2) ∧ (err_tx s = None → w2 = w1).
Proof. intros Hp. unfold splitter_poll. rewrite Hp. eexists; split; [done|]. by intros ->. Qed.

End adaptors.

(** ** [FuturesOrdered]: one future at a time *)

Section serial.
Context {F O E W : Type} {FF : Future01 F O E W}.

Record FuturesOrdered := { elems : list F; current : option F }.

Definition next_future (elems : list F) : option F * list F :=
  match elems with f :: rest => (Some f, rest) | [] => (None, []) end.

Definition futures_ordered (iter : list F) : FuturesOrdered :=
  let '(current, elems) := next_future iter in {| elems := elems; current := current |}.

Definition serial_poll (s : FuturesOrdered) (w : W) : result (Poll (option O)) E * FuturesOrdered * W :=
  match current s with
  | None => (Ok (Ready None), s, w)
  | Some fut =>
      match future_poll01 fut w with
      | (Ok (Ready v), _, w) => let '(c, l) := next_future (elems s) in (Ok (Ready (Some v)), {| elems := l; current := c |}, w)
      | (Ok Pending, fut, w) => (Ok Pending, {| elems := elems s; current := Some fut |}, w)
      | (Err e, _, w) => let '(c, l) := next_future (elems s) in (Err e, {| elems := l; current := c |}, w)
      end
  end.

(** What a future can become while pending, and come to. *)
Definition waits01 : relation F := rtc (λ f f' : F, ∃ w w', future_poll01 f w = (Ok Pending, f', w')).
Definition comes_to (f : F) (r : result O E) : Prop :=
  ∃ f' g w w', waits01 f f' ∧ future_poll01 f' w = (match r with Ok v => Ok (Ready v) | Err e => Err e end, g, w').

(** The futures that have come to something, in order, the one being polled, and the rest
    untouched: no future is polled before those in front of it are done. *)
Definition serial_at (iter : list F) (l : list (result O E)) (s : FuturesOrdered) : Prop :=
  ∃ done rest, iter = done ++ rest ∧ Forall2 comes_to done l ∧
    match current s with
    | Some f' => ∃ f, rest = f :: elems s ∧ waits01 f f'
    | None => rest = [] ∧ elems s = []
    end.

Lemma serial_next iter l rest done :
  iter = done ++ rest → Forall2 comes_to done l →
  let '(c, k) := next_future rest in serial_at iter l {| elems := k; current := c |}.
Proof.
  intros -> Hl. destruct rest as [|g rest]; simpl; exists done; eexists; (split; [done|]); (split; [done|]); simpl; [done|].
  exists g. split; [done|apply rtc_refl].
Qed.

(** Errors do not end the stream: every future has its result handed out, in the order of the
    futures, and the stream ends after the last. *)
Theorem serial_sound (iter : list F) n w :
  let '(l, s, w') := polls serial_poll n (futures_ordered iter) w in serial_at iter l s.
Proof.
  assert (∀ s l w, serial_at iter l s → let '(k, s', w') := polls serial_poll n s w in serial_at iter (l ++ k) s') as H.
  { induction n as [|n IH]; intros s l w1 Hs; simpl; [by rewrite app_nil_r|]. unfold serial_poll at 1.
    destruct Hs as (done&rest&Hi&Hl&Hc). destruct (current s) as [f'|] eqn:Hcur.
    - destruct Hc as (f&->&Hw). destruct (future_poll01 f' w1) as [[[[v|]|e] g] w2] eqn:Hp.
      + assert (comes_to f (Ok v)) as Hf by (by exists f', g, w1, w2).
        pose proof (serial_next iter (l ++ [Ok v]) (elems s) (done ++ [f])) as Hn. rewrite <-app_assoc in Hn. specialize (Hn Hi).
        destruct (next_future (elems s)) as [c k]. specialize (IH {| elems := k; current := c |} (l ++ [Ok v]) w2).
        destruct (polls serial_poll n _ w2) as [[l' s'] w']. rewrite <-app_assoc in IH. apply IH, Hn, Forall2_app; [done|by constructor].
      + specialize (IH {| elems := elems s; current := Some g |} l w2). destruct (polls serial_poll n _ w2) as [[l' s'] w']. apply IH.
        exists done, (f :: elems s). split; [done|]. split; [done|]. simpl. exists f. split; [done|]. eapply rtc_r; [done|]. by exists w1, w2.
      + assert (comes_to f (Err e)) as Hf by (by exists f', g, w1, w2).
        pose proof (serial_next iter (l ++ [Err e]) (elems s) (done ++ [f])) as Hn. rewrite <-app_assoc in Hn. specialize (Hn Hi).
        destruct (next_future (elems s)) as [c k]. specialize (IH {| elems := k; current := c |} (l ++ [Err e]) w2).
        destruct (polls serial_poll n _ w2) as [[l' s'] w']. rewrite <-app_assoc in IH. apply IH, Hn, Forall2_app; [done|by constructor].
    - specialize (IH s l w1). destruct (polls serial_poll n s w1) as [[l' s'] w']. apply IH. exists done, rest. by rewrite Hcur. }
  specialize (H (futures_ordered iter) [] w). unfold futures_ordered in *.
  destruct iter as [|f iter]; simpl in *.
  - destruct (polls serial_poll n _ w) as [[l s] w']. apply H. by exists [], [].
  - destruct (polls serial_poll n _ w) as [[l s] w']. apply H. exists [], (f :: iter). split; [done|]. split; [constructor|].
    exists f. split; [done|apply rtc_refl].
Qed.
End serial.
End Adaptors.
