(* ===== verification/Thrift.v ===== *)
(** [fbthrift_ext] (src/shed/fbthrift_ext): the length-prefixed framing of a transport
    (framed/lib.rs), the adapters between thrift types and Rust types (adapters/*.rs), and
    the future that polls behind a lock (util/lib.rs).

    The trait [ThriftAdapter] of fbthrift is a record; the buffers of the bytes crate, the
    big-endian reader of byteorder, the UUIDs of the uuid crate and the mutex of tokio are
    classes with their documented behaviour. *)
From Stdlib Require Import Strings.Byte Ascii String.
From S2P Require Import Prelude RustStd RustStr Netstring Duration.

(** * [FramedTransport] *)

#[local] Abbreviation byte := Byte.byte.

Definition byte_of (z : Z) : byte := match Byte.of_N (Z.to_N (z mod 256)) with Some b => b | None => x00 end.

(** The four bytes of a [u32], most significant first, and back. *)
Definition be_bytes (n : Z) : list byte := [byte_of (n / 2 ^ 24); byte_of (n / 2 ^ 16); byte_of (n / 2 ^ 8); byte_of n].
Definition be_value (bs : list byte) : Z := foldl (λ v b, v * 256 + byte_val b)%Z 0%Z bs.

Lemma byte_val_of z : byte_val (byte_of z) = (z mod 256)%Z.
Proof.
  unfold byte_of, byte_val. pose proof (Z.mod_pos_bound z 256 ltac:(lia)) as Hz. destruct (Byte.of_N (Z.to_N (z mod 256))) as [b|] eqn:Hb.
  - apply Byte.to_of_N in Hb. rewrite Hb. lia.
  - apply Byte.of_N_None_iff in Hb. lia.
Qed.

Lemma byte_val_range b : (0 ≤ byte_val b < 256)%Z.
Proof. unfold byte_val. pose proof (Byte.to_N_bounded b). lia. Qed.

Lemma be_value_bytes n : (0 ≤ n < 2 ^ 32)%Z → be_value (be_bytes n) = n.
Proof.
  intros Hn. unfold be_value, be_bytes. simpl. rewrite !byte_val_of. Z.to_euclidean_division_equations. lia.
Qed.

Lemma be_value_range bs : length bs = 4 → (0 ≤ be_value bs < 2 ^ 32)%Z.
Proof.
  destruct bs as [|a [|b [|c [|d [|]]]]]; try done. intros _. unfold be_value. simpl.
  pose proof (byte_val_range a). pose proof (byte_val_range b). pose proof (byte_val_range c). pose proof (byte_val_range d). lia.
Qed.

Lemma length_be_bytes n : length (be_bytes n) = 4.
Proof. done. Qed.

(** The big-endian integers of the bytes and byteorder crates. *)
Class BigEndian (B : Type) `{BytesMut B} := {
  put_u32 : Z → B → B;
  read_u32 : list byte → exec Z;
  as_ref_put_u32 n b : (0 ≤ n < 2 ^ 32)%Z → as_ref (put_u32 n b) = as_ref b ++ be_bytes n;
  read_u32_spec bs : length bs = 4 → read_u32 bs = ret (be_value bs);
}.

Module Framed.
Section framed.
Context `{BE : BigEndian B} {io_error : Type}.
Implicit Types (dst src : B) (item bs : list byte).

(** [Cursor<Bytes>]. *)
Record Cursor := { cursor_inner : list byte; position : Z }.

Definition encode item dst : exec (result () io_error * B) :=
  let dst := reserve (4 + length item) dst in
  let dst := put_u32 (cast U32 (Z.of_nat (length item))) dst in
  let dst := put_slice item dst in
  ret (Ok (), dst).

Definition decode src : exec (result (option Cursor) io_error * B) :=
  if length (as_ref src) <? 4 then ret (Ok None, src)
  else
    let! header := vec_slice (as_ref src) 0 4 in
    let! len := read_u32 header in
    if (Z.of_nat (length (as_ref src)) <? 4 + len)%Z then ret (Ok None, src)
    else
      let! '(_, src) := split_to 4 src in
      let! '(res, src) := split_to (Z.to_nat len) src in
      ret (Ok (Some {| cursor_inner := as_ref res; position := 0 |}), src).

(** What a [Framed] reader of tokio-util does with bytes as they arrive: a chunk is appended
    and frames are decoded until more is needed. *)
Fixpoint drain (fuel : nat) src : exec (list (list byte) * B) :=
  match fuel with
  | O => panic
  | S fuel =>
      let! '(r, src) := decode src in
      match r with
      | Ok (Some c) => let! '(items, src) := drain fuel src in ret (cursor_inner c :: items, src)
      | _ => ret ([], src)
      end
  end.

Fixpoint feed (chunks : list (list byte)) src : exec (list (list byte) * B) :=
  match chunks with
  | [] => ret ([], src)
  | chunk :: chunks =>
      let src := put_slice chunk src in
      let! '(items, src) := drain (S (length (as_ref src))) src in
      let! '(more, src) := feed chunks src in
      ret (items ++ more, src)
  end.

(** All items written one after the other. *)
Fixpoint encode_all (items : list (list byte)) dst : exec (result () io_error * B) :=
  match items with
  | [] => ret (Ok (), dst)
  | item :: items =>
      let! '(r, dst) := encode item dst in
      match r with Ok _ => encode_all items dst | Err e => ret (Err e, dst) end
  end.

(** ** The frames in a list of bytes *)

Definition frame item : list byte := be_bytes (cast U32 (Z.of_nat (length item))) ++ item.

(** The first frame and what follows it, when it is complete. *)
Definition next_frame bs : option (list byte * list byte) :=
  let n := Z.to_nat (be_value (take 4 bs)) in
  if decide (4 ≤ length bs ∧ 4 + n ≤ length bs) then Some (take n (drop 4 bs), drop (4 + n) bs) else None.

Inductive parses : list byte → list (list byte) → list byte → Prop :=
| parses_stop bs : next_frame bs = None → parses bs [] bs
| parses_frame bs item bs' items rest : next_frame bs = Some (item, bs') → parses bs' items rest → parses bs (item :: items) rest.

Lemma parses_det bs l r l' r' : parses bs l r → parses bs l' r' → l = l' ∧ r = r'.
Proof.
  intros Hp. revert l' r'. induction Hp as [bs Hn|bs item bs' l r Hn _ IH]; inversion 1; simplify_eq; [done|].
  by edestruct IH as [-> ->].
Qed.

Lemma next_frame_app bs more item rest : next_frame bs = Some (item, rest) → next_frame (bs ++ more) = Some (item, rest ++ more).
Proof.
  unfold next_frame. case_decide as Hd; [|done]. intros [= <- <-]. rewrite take_app_le by lia.
  rewrite decide_True by (rewrite length_app; lia). rewrite !drop_app_le by lia.
  by rewrite take_app_le by (rewrite length_drop; lia).
Qed.

Lemma parses_app bs l r more l' r' : parses bs l r → parses (r ++ more) l' r' → parses (bs ++ more) (l ++ l') r'.
Proof.
  induction 1 as [bs Hn|bs item bs' l r Hn _ IH]; intros Hp; [done|]. simpl. eapply parses_frame; [by apply next_frame_app|by apply IH].
Qed.

Lemma next_frame_frame item more : (Z.of_nat (length item) < 2 ^ 32)%Z → next_frame (frame item ++ more) = Some (item, more).
Proof.
  intros Hl. unfold next_frame, frame. rewrite cast_id by (cbv [in_type int_min int_max signed width]; lia). rewrite <-app_assoc.
  rewrite take_app_le by done. change (take 4 (be_bytes ?n)) with (be_bytes n). rewrite be_value_bytes, Nat2Z.id by lia.
  rewrite decide_True by (rewrite !length_app, length_be_bytes; lia). change (drop (4 + ?n) (be_bytes ?z ++ ?l)) with (drop n l).
  change (drop 4 (be_bytes ?z ++ ?l)) with l. by rewrite take_app_length, drop_app_length.
Qed.

Lemma parses_frames items : Forall (λ item, Z.of_nat (length item) < 2 ^ 32)%Z items → parses (concat (frame <$> items)) items [].
Proof.
  induction 1 as [|item items Hl _ IH]; simpl; [by apply parses_stop|]. eapply parses_frame; [by apply next_frame_frame|done].
Qed.

Lemma parses_total bs : ∃ l r, parses bs l r.
Proof.
  induction (Nat.lt_wf_0_projected (length (A:=byte)) bs) as [bs _ IH]. destruct (next_frame bs) as [[item rest]|] eqn:Hn.
  - destruct (IH rest) as (l&r&Hp); [|by eexists _, _; eapply parses_frame].
    unfold next_frame in Hn. case_decide; [|done]. injection Hn as _ <-. rewrite length_drop. lia.
  - by eexists _, _; apply parses_stop.
Qed.

(** ** The codec against them *)

(** [decode] on every buffer: it takes exactly the first frame when it is complete, and
    otherwise leaves the buffer as it is; it never fails. *)
Lemma framed_decode_spec src :
  ∃ r src', decode src = ret (Ok r, src') ∧
    match next_frame (as_ref src) with
    | Some (item, rest) => r = Some {| cursor_inner := item; position := 0 |} ∧ as_ref src' = rest
    | None => r = None ∧ src' = src
    end.
Proof.
  unfold decode, next_frame. destruct (Nat.ltb_spec (length (as_ref src)) 4) as [Hs|Hs].
  { eexists None, src. split; [done|]. by rewrite decide_False by lia. }
  assert (vec_slice (as_ref src) 0 4 = ret (take 4 (as_ref src))) as ->.
  { unfold vec_slice. rewrite decide_True by lia. done. }
  simpl exec_bind. rewrite read_u32_spec by (rewrite length_take; lia). cbn [exec_bind].
  pose proof (be_value_range (take 4 (as_ref src)) ltac:(rewrite length_take; lia)) as Hr. set (n := be_value _) in *.
  destruct (Z.ltb_spec (Z.of_nat (length (as_ref src))) (4 + n)) as [Hn|Hn].
  { eexists None, src. split; [done|]. by rewrite decide_False by lia. }
  destruct (split_to_spec 4 src Hs) as (h&src1&->&_&H1). cbn [exec_bind].
  destruct (split_to_spec (Z.to_nat n) src1) as (res&src2&->&H2&H3); [rewrite H1, length_drop; lia|]. cbn [exec_bind].
  eexists _, src2. split; [done|]. rewrite decide_True by lia. by rewrite H2, H3, H1, drop_drop.
Qed.

Lemma drain_spec fuel src :
  length (as_ref src) < fuel → ∃ items src', drain fuel src = ret (items, src') ∧ parses (as_ref src) items (as_ref src').
Proof.
  revert src. induction fuel as [|fuel IH]; intros src Hf; [lia|]. simpl. destruct (framed_decode_spec src) as (r&src'&->&Hr). cbn [exec_bind].
  destruct (next_frame (as_ref src)) as [[item rest]|] eqn:Hn.
  - destruct Hr as [-> Hr]. destruct (IH src') as (items&src''&->&Hp).
    { rewrite Hr. unfold next_frame in Hn. case_decide; [|done]. injection Hn as _ <-. rewrite length_drop. lia. }
    simpl. eexists _, _. split; [done|]. eapply parses_frame; [done|by rewrite <-Hr].
  - destruct Hr as [-> ->]. eexists _, _. split; [done|by apply parses_stop].
Qed.

Lemma feed_spec chunks src :
  next_frame (as_ref src) = None →
  ∃ items src', feed chunks src = ret (items, src') ∧ parses (as_ref src ++ concat chunks) items (as_ref src').
Proof.
  revert src. induction chunks as [|chunk chunks IH]; intros src Hn; cbn [feed concat foldr].
  - eexists _, _. split; [done|]. rewrite app_nil_r. by apply parses_stop.
  - destruct (drain_spec (S (length (as_ref (put_slice chunk src)))) (put_slice chunk src)) as (items&src1&->&Hp); [lia|]. cbn [exec_bind].
    destruct (IH src1) as (more&src2&->&Hp2).
    { clear -Hp. by induction Hp. }
    simpl. eexists _, _. split; [done|]. rewrite app_assoc. eapply parses_app; [|done]. by rewrite <-as_ref_put_slice.
Qed.

Lemma framed_encode_spec item dst : ∃ dst', encode item dst = ret (Ok (), dst') ∧ as_ref dst' = as_ref dst ++ frame item.
Proof.
  eexists. split; [done|]. rewrite as_ref_put_slice, as_ref_put_u32, as_ref_reserve, <-app_assoc; [done|].
  pose proof (cast_in_type U32 (Z.of_nat (length item))) as Hc. cbv [in_type int_min int_max signed width] in Hc. lia.
Qed.

Lemma encode_all_spec items dst : ∃ dst', encode_all items dst = ret (Ok (), dst') ∧ as_ref dst' = as_ref dst ++ concat (frame <$> items).
Proof.
  revert dst. induction items as [|item items IH]; intros dst; cbn [encode_all]; [eexists; by rewrite app_nil_r|].
  destruct (framed_encode_spec item dst) as (dst1&->&H1). cbn [exec_bind]. destruct (IH dst1) as (dst2&->&H2). eexists. split; [done|].
  rewrite H2, H1, <-app_assoc. done.
Qed.

(** An item of [2^32] bytes or more is framed with the low 32 bits of its length: the reader
    gets its first bytes as an item and takes the rest for frames. *)
Lemma long_item_cut item :
  let n := Z.to_nat (Z.of_nat (length item) mod 2 ^ 32) in
  next_frame (frame item) = Some (take n item, drop n item).
Proof.
  set (n := (Z.of_nat (length item) mod 2 ^ 32)%Z). assert (0 ≤ n < 2 ^ 32)%Z as Hn by (apply Z.mod_pos_bound; lia).
  assert (cast U32 (Z.of_nat (length item)) = n) as Hc by (unfold cast, n; simpl; rewrite Z.sub_0_r, Z.add_0_r; done).
  assert (Z.to_nat n ≤ length item) as Hle by (pose proof (Z.mod_le (Z.of_nat (length item)) (2 ^ 32)); unfold n; lia).
  unfold next_frame, frame. rewrite Hc. rewrite take_app_le by done. change (take 4 (be_bytes n)) with (be_bytes n).
  rewrite be_value_bytes by done. change (drop (4 + ?k) (be_bytes ?z ++ ?l)) with (drop k l). change (drop 4 (be_bytes ?z ++ ?l)) with l.
  cbv zeta. by rewrite decide_True by (rewrite length_app, length_be_bytes; lia).
Qed.

(** Items written by the encoder and read back by the decoder.  Items shorter than [2^32]
    bytes go out as their frames, without an error; whatever chunks the bytes arrive in, the
    reader never fails and has at every time handed out the first items, in order and whole,
    and when all bytes have arrived it has handed out all of them with nothing left over. *)
Theorem framed_round_trip items chunks tail dst src :
  Forall (λ item, Z.of_nat (length item) < 2 ^ 32)%Z items →
  concat chunks ++ tail = concat (frame <$> items) → as_ref src = [] →
  ∃ dst' got src', encode_all items dst = ret (Ok (), dst') ∧ as_ref dst' = as_ref dst ++ concat chunks ++ tail ∧
    feed chunks src = ret (got, src') ∧ got `prefix_of` items ∧
    (tail = [] → got = items ∧ as_ref src' = []).
Proof.
  intros Hl Hw Hs. destruct (encode_all_spec items dst) as (dst'&He&Hd). destruct (feed_spec chunks src) as (got&src'&Hf&Hp); [by rewrite Hs|].
  rewrite Hs in Hp. simpl in Hp. exists dst', got, src'. split; [done|]. split; [by rewrite Hw|]. split; [done|].
  pose proof (parses_frames items Hl) as Hi. rewrite <-Hw in Hi.
  destruct (parses_total (as_ref src' ++ tail)) as (l&r&Hr). destruct (parses_det _ _ _ _ _ Hi (parses_app _ _ _ _ _ _ Hp Hr)) as [-> _].
  split; [by apply prefix_app_r|]. intros ->. rewrite app_nil_r in Hr, Hi.
  destruct (parses_det _ _ _ _ _ Hi Hp) as [-> <-]. done.
Qed.
End framed.

#[local] Instance list_be : @BigEndian (list byte) list_bytes.
Proof.
  refine {| put_u32 n (b : list byte) := b ++ be_bytes n; read_u32 bs := if decide (length bs = 4) then ret (be_value bs) else panic |}.
  - done.
  - intros bs Hb. by rewrite decide_True.
Defined.

Lemma framed_round_trip_witness :
  let items := [[x61; x62]; []; [x63]] in
  let chunks := [[x00; x00]; [x00; x02; x61]; [x62; x00; x00; x00; x00; x00]; [x00; x00; x01]] in
  let _ := list_bytes in
  (∃ src', feed (B := list byte) (io_error := ()) chunks [] = ret ([[x61; x62]; []], src')) ∧
  ∃ dst' got src', encode_all (B := list byte) (io_error := ()) items [] = ret (Ok (), dst') ∧ as_ref dst' = as_ref [] ++ concat chunks ++ [x63] ∧
    feed (B := list byte) (io_error := ()) chunks [] = ret (got, src') ∧ got `prefix_of` items ∧
    ([x63] = [] → got = items ∧ as_ref src' = []).
Proof.
  split; [eexists; vm_compute; reflexivity|].
  apply (framed_round_trip (B := list byte)); [repeat constructor|reflexivity|reflexivity].
Defined.
End Framed.

(** * The adapters *)

(** The conversions of [fbthrift::adapter::ThriftAdapter]. *)
Record ThriftAdapter (Standard Adapted Err : Type) := { to_thrift : Adapted → Standard; from_thrift : Standard → result Adapted Err }.
Arguments to_thrift {Standard Adapted Err}.
Arguments from_thrift {Standard Adapted Err}.

Module Adapters.
Open Scope Z_scope.

(** The integer types of thrift, and the unsigned type of the same width. *)
Definition thrift_int (t : int_type) : Prop := t = I8 ∨ t = I16 ∨ t = I32 ∨ t = I64.
Definition unsigned_of (t : int_type) : int_type := match t with I8 => U8 | I16 => U16 | I32 => U32 | I64 => U64 | t => t end.

(** ** Durations *)

Inductive granularity := Second | Millisecond | Microsecond | Nanosecond.

Definition as_unit (g : granularity) (d : Duration) : Z :=
  match g with Second => as_secs d | Millisecond => as_millis d | Microsecond => as_micros d | Nanosecond => as_nanos d end.
Definition from_unit (g : granularity) (n : Z) : Duration :=
  match g with Second => from_secs n | Millisecond => from_millis n | Microsecond => from_micros n | Nanosecond => from_nanos n end.

(** [u64::try_from(value)?]. *)
Inductive TryFromIntError : Type := try_from_int_error.
Definition u64_try_from (value : Z) : result Z TryFromIntError := if (0 <=? value) && (value <=? int_max U64) then Ok value else Err try_from_int_error.
Definition duration_from_thrift (g : granularity) (value : Z) : result Duration TryFromIntError :=
  match u64_try_from value with Ok n => Ok (from_unit g n) | Err e => Err e end.

Definition saturating_adapter (g : granularity) (t : int_type) : ThriftAdapter Z Duration TryFromIntError := {|
  to_thrift value := if (int_min t <=? as_unit g value) && (as_unit g value <=? int_max t) then as_unit g value else int_max t;
  from_thrift := duration_from_thrift g |}.

Definition wrapping_adapter (g : granularity) (t : int_type) : ThriftAdapter Z Duration TryFromIntError := {|
  to_thrift value := cast t (as_unit g value);
  from_thrift := duration_from_thrift g |}.

(** The length of a unit. *)
Definition unit_nanos (g : granularity) : Z :=
  match g with Second => NANOS_PER_SEC | Millisecond => 1000000 | Microsecond => 1000 | Nanosecond => 1 end.

Lemma as_unit_div g d : as_unit g d = d / unit_nanos g.
Proof. destruct g; simpl; [done..|]. unfold as_nanos. by rewrite Z.div_1_r. Qed.

Lemma as_from_unit g n : as_unit g (from_unit g n) = n.
Proof.
  rewrite as_unit_div. destruct g; cbn [from_unit unit_nanos];
    unfold from_secs, from_millis, from_micros, from_nanos; [by apply Z.div_mul..|by apply Z.div_1_r].
Qed.

Lemma from_as_unit g d : from_unit g (as_unit g d) ≤ d < from_unit g (as_unit g d) + unit_nanos g.
Proof.
  rewrite as_unit_div. assert (0 < unit_nanos g) as Hu by (by destruct g). pose proof (Z.div_mod d (unit_nanos g)) as Hd.
  pose proof (Z.mod_pos_bound d (unit_nanos g) Hu).
  assert (∀ n, from_unit g n = n * unit_nanos g) as ->.
  { intros n. destruct g; cbn; unfold from_secs, from_millis, from_micros, from_nanos; lia. }
  lia.
Qed.

Lemma as_unit_nonneg g d : 0 ≤ d → 0 ≤ as_unit g d.
Proof. intros Hd. rewrite as_unit_div. apply Z.div_pos; [done|by destruct g]. Qed.

Lemma thrift_int_range t : thrift_int t → int_min t < 0 ∧ 0 < int_max t ≤ int_max U64 ∧ width (unsigned_of t) = width t.
Proof. by intros [->|[->|[->| ->]]]. Qed.

Lemma duration_from_thrift_ok g t value :
  thrift_int t → in_type t value →
  duration_from_thrift g value = if value <? 0 then Err try_from_int_error else Ok (from_unit g value).
Proof.
  intros Ht%thrift_int_range Hv. unfold in_type in Hv. unfold duration_from_thrift, u64_try_from.
  destruct (Z.ltb_spec value 0); [by rewrite (proj2 (Z.leb_gt _ _)) by lia|]. by rewrite !(proj2 (Z.leb_le _ _)) by lia.
Qed.

Lemma saturating_min g t d : thrift_int t → 0 ≤ d → to_thrift (saturating_adapter g t) d = as_unit g d `min` int_max t.
Proof.
  intros Ht%thrift_int_range Hd. pose proof (as_unit_nonneg g d Hd). cbn [saturating_adapter to_thrift].
  rewrite (proj2 (Z.leb_le (int_min t) _)) by lia. cbn [andb]. destruct (Z.leb_spec (as_unit g d) (int_max t)); lia.
Qed.

(** The duration adapters of every unit and thrift integer type.  A duration is written in
    whole units, rounded down; one that does not fit is written as the greatest value of the
    type by the saturating adapter and modulo the width by the wrapping one, which agree where
    it fits.  Both refuse exactly the negative values and read the others as that many units,
    which are written back as the same value; and what the saturating adapter writes is read
    as a duration at most the original, less than a unit below it if it fitted. *)
Theorem duration_adapters g t d value :
  thrift_int t → valid d → in_type t value →
  let sat := saturating_adapter g t in
  let wrap := wrapping_adapter g t in
  to_thrift sat d = (d / unit_nanos g) `min` int_max t ∧
  in_type t (to_thrift wrap d) ∧ (to_thrift wrap d) mod 2 ^ width t = (d / unit_nanos g) mod 2 ^ width t ∧
  (d / unit_nanos g ≤ int_max t → to_thrift wrap d = to_thrift sat d) ∧
  from_thrift sat value = from_thrift wrap value ∧
  (value < 0 → from_thrift sat value = Err try_from_int_error) ∧
  (0 ≤ value → ∃ d', from_thrift sat value = Ok d' ∧ d' = value * unit_nanos g ∧
     to_thrift sat d' = value ∧ to_thrift wrap d' = value) ∧
  ∃ d', from_thrift sat (to_thrift sat d) = Ok d' ∧ d' ≤ d ∧ (d / unit_nanos g ≤ int_max t → d < d' + unit_nanos g).
Proof.
  intros Ht Hd Hv sat wrap. unfold valid in Hd. pose proof (thrift_int_range t Ht) as (Hmin&Hmax&_).
  pose proof (as_unit_nonneg g d ltac:(lia)) as Hn. rewrite as_unit_div in Hn.
  assert (∀ n, 0 ≤ n ≤ int_max t → cast t n = n) as Hc by (intros n ?; apply cast_id; unfold in_type; lia).
  pose proof (saturating_min g t d Ht ltac:(lia)) as Hs. rewrite as_unit_div in Hs. fold sat in Hs.
  assert (∀ n, from_unit g n = n * unit_nanos g) as Hf by (intros n; destruct g; cbn; unfold from_secs, from_millis, from_micros, from_nanos; lia).
  assert (0 < unit_nanos g) as Hu by (by destruct g).
  split; [done|]. split; [apply cast_in_type|]. split.
  { cbn [wrap wrapping_adapter to_thrift]. rewrite as_unit_div. unfold cast.
    pose proof (width_pos t). rewrite Zplus_mod_idemp_l. by replace (d / unit_nanos g - int_min t + int_min t) with (d / unit_nanos g) by ring. }
  split; [intros Hle; rewrite Hs; cbn [wrap wrapping_adapter to_thrift]; rewrite as_unit_div, Hc; lia|]. split; [done|].
  change (from_thrift sat) with (duration_from_thrift g). rewrite (duration_from_thrift_ok g t value Ht Hv).
  split; [intros ?; by rewrite (proj2 (Z.ltb_lt _ _))|]. split.
  - intros H0. rewrite (proj2 (Z.ltb_ge _ _)) by done. eexists. split; [done|]. split; [apply Hf|].
    unfold in_type in Hv. unfold sat. rewrite saturating_min by (done || rewrite Hf; lia). cbn [wrap wrapping_adapter to_thrift].
    rewrite as_from_unit, Hc by lia. lia.
  - rewrite Hs. rewrite (duration_from_thrift_ok g t) by (done || unfold in_type; lia).
    rewrite (proj2 (Z.ltb_ge _ _)) by lia. eexists. split; [done|]. pose proof (from_as_unit g d) as Hfa. rewrite as_unit_div, Hf in Hfa. rewrite Hf.
    split; [|intros; rewrite Z.min_l by done; lia]. transitivity (d / unit_nanos g * unit_nanos g); [|lia].
    apply Z.mul_le_mono_nonneg_r; lia.
Qed.

Lemma duration_adapters_witness :
  (to_thrift (saturating_adapter Second I8) (from_secs 256) = 127 ∧ to_thrift (wrapping_adapter Second I8) (from_secs 128) = -128) ∧
  let d := 256_500_000_000 in
  to_thrift (saturating_adapter Second I8) d = (d / unit_nanos Second) `min` int_max I8 ∧
  in_type I8 (to_thrift (wrapping_adapter Second I8) d) ∧
  (to_thrift (wrapping_adapter Second I8) d) mod 2 ^ width I8 = (d / unit_nanos Second) mod 2 ^ width I8 ∧
  (d / unit_nanos Second ≤ int_max I8 → to_thrift (wrapping_adapter Second I8) d = to_thrift (saturating_adapter Second I8) d) ∧
  from_thrift (saturating_adapter Second I8) (-1) = from_thrift (wrapping_adapter Second I8) (-1) ∧
  (-1 < 0 → from_thrift (saturating_adapter Second I8) (-1) = Err try_from_int_error) ∧
  (0 ≤ -1 → ∃ d', from_thrift (saturating_adapter Second I8) (-1) = Ok d' ∧ d' = -1 * unit_nanos Second ∧
     to_thrift (saturating_adapter Second I8) d' = -1 ∧ to_thrift (wrapping_adapter Second I8) d' = -1) ∧
  ∃ d', from_thrift (saturating_adapter Second I8) (to_thrift (saturating_adapter Second I8) d) = Ok d' ∧ d' ≤ d ∧
    (d / unit_nanos Second ≤ int_max I8 → d < d' + unit_nanos Second).
Proof.
  split; [done|]. apply (duration_adapters Second I8 256_500_000_000 (-1)); [by left|done|done].
Defined.

(** ** Non-negative and unsigned integers *)

(** [NonNegativeI8] and the like. *)
Record NonNegative := { nonneg : Z }.
Inductive NonNegativeError := nonnegative_error (value : Z).

Definition new_unchecked (n : Z) : NonNegative := {| nonneg := n |}.
Definition new (n : Z) : option NonNegative := if n <? 0 then None else Some {| nonneg := n |}.
Definition get (n : NonNegative) : Z := nonneg n.
Definition bits (t : int_type) : Z := width t.

Definition nonnegative_adapter : ThriftAdapter Z NonNegative NonNegativeError := {|
  to_thrift value := nonneg value;
  from_thrift value := if value <? 0 then Err (nonnegative_error value) else Ok (new_unchecked value) |}.

(** [std::convert::Infallible]. *)
Inductive Infallible : Type := .

Definition unsigned_int_adapter (t u : int_type) : ThriftAdapter Z Z Infallible := {|
  to_thrift value := cast t value;
  from_thrift value := Ok (cast u value) |}.
Definition usize_adapter : ThriftAdapter Z Z Infallible := unsigned_int_adapter I64 Usize.

(** The cast keeps the bit pattern: what is read is the value modulo the width. *)
Lemma unsigned_there_and_back t u v : width u = width t → in_type t v → cast t (cast u v) = v.
Proof. intros Hw Hv. rewrite cast_cast by lia. by apply cast_id. Qed.

(** ** Redacted values *)

Record Redacted (T : Type) := { redacted : T }.
Arguments redacted {T}.
Definition REDACTED : string := "<REDACTED>".
Definition unredact {T} (r : Redacted T) : T := redacted r.
Definition redacted_from {T} (inner : T) : Redacted T := {| redacted := inner |}.
(** [Debug] and [Valuable] of a redacted value. *)
Definition redacted_fmt {T} (r : Redacted T) : string := REDACTED.
Definition redacted_adapter (T : Type) : ThriftAdapter T (Redacted T) Infallible := {|
  to_thrift value := unredact value;
  from_thrift value := Ok {| redacted := value |} |}.

(** ** UUIDs *)

(** [uuid::Uuid], what its documentation says of the functions used. *)
Class UuidCrate (U UErr : Type) := {
  as_bytes : U → list byte;
  from_slice : list byte → result U UErr;
  nil_uuid : U;
  uuid_to_string : U → string;
  try_parse : string → result U UErr;
  as_bytes_length u : length (as_bytes u) = 16%nat;
  as_bytes_nil : as_bytes nil_uuid = repeat x00 16;
  from_slice_as_bytes u : from_slice (as_bytes u) = Ok u;
  from_slice_ok bs : length bs = 16%nat → ∃ u, from_slice bs = Ok u ∧ as_bytes u = bs;
  from_slice_err bs : length bs ≠ 16%nat → ∃ e, from_slice bs = Err e;
  to_string_not_empty u : is_empty_string (uuid_to_string u) = false;
  try_parse_to_string u : try_parse (uuid_to_string u) = Ok u;
}.

Section uuid.
Context `{UC : UuidCrate U UErr}.

Definition uuid_bytes_adapter : ThriftAdapter (list byte) U UErr := {|
  to_thrift value := as_bytes value;
  from_thrift value := if is_nil value then Ok nil_uuid else from_slice value |}.

Definition uuid_string_adapter : ThriftAdapter string U UErr := {|
  to_thrift value := uuid_to_string value;
  from_thrift value := if is_empty_string value then Ok nil_uuid else try_parse value |}.
End uuid.

(** ** IPv4 addresses *)

(** [std::net::Ipv4Addr]: its four octets. *)
Record Ipv4Addr := { octet1 : Z; octet2 : Z; octet3 : Z; octet4 : Z }.
Inductive AddrParseError : Type := addr_parse_error.

Definition ipv4_to_string (a : Ipv4Addr) : string :=
  (to_string (octet1 a) +:+ "." +:+ to_string (octet2 a) +:+ "." +:+ to_string (octet3 a) +:+ "." +:+ to_string (octet4 a))%string.

Fixpoint span_decimal (s : string) : list Z * string :=
  match s with
  | ""%string => ([], ""%string)
  | String c s' =>
      match digit_of c with
      | Some d => let '(ds, rest) := span_decimal s' in (d :: ds, rest)
      | None => ([], s)
      end
  end.

Definition decimal_value (ds : list Z) : Z := foldl (λ v d, v * 10 + d) 0 ds.

(** A number of at most three digits without a zero in front, up to 255. *)
Definition octet_digits (ds : list Z) : bool :=
  match ds with
  | [] => false
  | d :: ds' => bool_decide (length ds ≤ 3)%nat && (is_nil ds' || negb (d =? 0)) && (decimal_value ds <=? 255)
  end.
Definition read_octet (s : string) : option (Z * string) :=
  let '(ds, rest) := span_decimal s in if octet_digits ds then Some (decimal_value ds, rest) else None.
Definition read_dot (s : string) : option string :=
  match s with String c s => if (c =? ".")%char then Some s else None | _ => None end.

Definition ipv4_from_str (s : string) : result Ipv4Addr AddrParseError :=
  match
    '(a, s) ← read_octet s; s ← read_dot s; '(b, s) ← read_octet s; s ← read_dot s;
    '(c, s) ← read_octet s; s ← read_dot s; '(d, s) ← read_octet s;
    if is_empty_string s then Some {| octet1 := a; octet2 := b; octet3 := c; octet4 := d |} else None
  with
  | Some a => Ok a
  | None => Err addr_parse_error
  end.

Definition ipv4_adapter : ThriftAdapter string Ipv4Addr AddrParseError := {|
  to_thrift value := ipv4_to_string value;
  from_thrift value := ipv4_from_str value |}.

Definition dec_str (ds : list Z) : string := foldr (λ d s, String (digit d) s) ""%string ds.
Definition is_dec (d : Z) : bool := (0 <=? d) && (d <? 10).
Definition no_digit (s : string) : Prop := match s with String c _ => digit_of c = None | _ => True end.

Lemma digit_of_inv c d : digit_of c = Some d → c = digit d ∧ is_dec d = true.
Proof. destruct c as [[] [] [] [] [] [] [] []]; vm_compute; intros [= <-]; done. Qed.

Lemma span_decimal_inv s ds rest :
  span_decimal s = (ds, rest) → s = (dec_str ds +:+ rest)%string ∧ forallb is_dec ds = true ∧ no_digit rest.
Proof.
  revert ds. induction s as [|c s IH]; simpl; intros ds Hs; [by simplify_eq|].
  destruct (digit_of c) as [d|] eqn:Hc; [|by simplify_eq/=].
  destruct (span_decimal s) as [ds' rest']. simplify_eq. destruct (IH ds' eq_refl) as (->&Hd&Hr).
  apply digit_of_inv in Hc as [-> Hdec]. simpl. by rewrite Hdec, Hd.
Qed.

Lemma span_decimal_str ds rest : forallb is_dec ds = true → no_digit rest → span_decimal (dec_str ds +:+ rest) = (ds, rest).
Proof.
  intros Hd Hr. induction ds as [|d ds IH]; simpl in *.
  - destruct rest as [|c rest]; simpl in *; [done|]. by rewrite Hr.
  - apply andb_true_iff in Hd as [Hd Hds]. rewrite digit_of_digit by (unfold is_dec in Hd; lia). by rewrite IH.
Qed.

(** All numbers of at most three digits of [D]. *)
Definition short_numbers (D : list Z) : list (list Z) := x ← D; y ← D; z ← D; [[x]; [x; y]; [x; y; z]].

Lemma elem_of_short_numbers D a b c : a ∈ D → b ∈ D → c ∈ D →
  [a] ∈ short_numbers D ∧ [a; b] ∈ short_numbers D ∧ [a; b; c] ∈ short_numbers D.
Proof.
  intros Ha Hb Hc. unfold short_numbers. split_and!; apply list_elem_of_bind; exists a; (split; [|done]);
    apply list_elem_of_bind; exists b; (split; [|done]); apply list_elem_of_bind; exists c; (split; [|done]); rewrite !elem_of_cons; tauto.
Qed.

(** The digits an octet is read from are the ones it is printed with, and conversely. *)
Lemma octet_canonical ds :
  forallb is_dec ds = true → octet_digits ds = true → to_string (decimal_value ds) = dec_str ds ∧ 0 ≤ decimal_value ds ≤ 255.
Proof.
  set (P ds := octet_digits ds = true → to_string (decimal_value ds) = dec_str ds ∧ 0 ≤ decimal_value ds ≤ 255).
  assert (∀ a b c, is_dec a = true → is_dec b = true → is_dec c = true → P [a] ∧ P [a; b] ∧ P [a; b; c]) as H.
  { intros a b c. unfold is_dec. rewrite !andb_true_iff, !Z.leb_le, !Z.ltb_lt. intros [Ha1 Ha2] [Hb1 Hb2] [Hc1 Hc2].
    assert (∀ l : list (list Z), Forall P l → ∀ x, x ∈ l → P x) as Hall by (intros l; by rewrite Forall_forall).
    destruct (elem_of_short_numbers (seqZ 0 10) a b c) as (HL1&HL2&HL3); [rewrite elem_of_seqZ; lia..|].
    set (L := short_numbers (seqZ 0 10)) in *.
    assert (Forall P L) as HL.
    { assert (forallb (λ ds, negb (octet_digits ds) || (String.eqb (to_string (decimal_value ds)) (dec_str ds) &&
         (0 <=? decimal_value ds) && (decimal_value ds <=? 255))) L = true) as Hb' by (vm_compute; reflexivity).
      rewrite forallb_forall in Hb'. apply Forall_forall. intros x Hx%list_elem_of_In. specialize (Hb' x Hx).
      intros Ho. rewrite Ho in Hb'. simpl in Hb'. rewrite !andb_true_iff, String.eqb_eq, !Z.leb_le in Hb'. tauto. }
    split_and!; by apply (Hall L HL). }
  intros Hd Ho. destruct ds as [|a [|b [|c [|d ds]]]]; try done; cbn [forallb] in Hd; rewrite ?andb_true_iff in Hd; destruct_and?.
  - by apply (H a a a).
  - by apply (H a b a).
  - by apply (H a b c).
Qed.

Lemma octet_printed o : 0 ≤ o ≤ 255 →
  ∃ ds, to_string o = dec_str ds ∧ forallb is_dec ds = true ∧ octet_digits ds = true ∧ decimal_value ds = o.
Proof.
  intros Ho. exists (span_decimal (to_string o)).1.
  assert (forallb (λ o, let ds := (span_decimal (to_string o)).1 in
    String.eqb (to_string o) (dec_str ds) && forallb is_dec ds && octet_digits ds && (decimal_value ds =? o)) (seqZ 0 256) = true) as H
    by (vm_compute; reflexivity).
  apply (range_check _ _ _ o) in H; [|lia]. rewrite !andb_true_iff, String.eqb_eq, Z.eqb_eq in H.
  by destruct H as [[[H1 H2] H3] H4].
Qed.

Lemma read_octet_printed o rest : 0 ≤ o ≤ 255 → no_digit rest → read_octet (to_string o +:+ rest) = Some (o, rest).
Proof. intros (ds&->&Hd&Ho&Hv)%octet_printed Hr. unfold read_octet. by rewrite span_decimal_str, Ho, Hv. Qed.

Lemma read_octet_inv s o rest : read_octet s = Some (o, rest) → s = (to_string o +:+ rest)%string ∧ 0 ≤ o ≤ 255.
Proof.
  unfold read_octet. destruct (span_decimal s) as [ds r] eqn:Hs. apply span_decimal_inv in Hs as (->&Hd&_).
  destruct (octet_digits ds) eqn:Ho; [|done]. intros [= <- <-]. destruct (octet_canonical ds Hd Ho) as [-> Hr]. done.
Qed.

Lemma read_dot_app s : read_dot ("." +:+ s)%string = Some s.
Proof. done. Qed.

Lemma read_dot_inv s rest : read_dot s = Some rest → s = ("." +:+ rest)%string.
Proof. destruct s as [|c s]; simpl; [done|]. destruct (Ascii.eqb_spec c "."); [|done]. by intros [= ->]; subst. Qed.

Definition ipv4_valid (a : Ipv4Addr) : Prop :=
  0 ≤ octet1 a ≤ 255 ∧ 0 ≤ octet2 a ≤ 255 ∧ 0 ≤ octet3 a ≤ 255 ∧ 0 ≤ octet4 a ≤ 255.

Lemma app_empty_r (s : string) : (s +:+ "")%string = s.
Proof. induction s as [|c s IH]; [done|apply (f_equal (String c)), IH]. Qed.

Lemma ipv4_from_to a : ipv4_valid a → ipv4_from_str (ipv4_to_string a) = Ok a.
Proof.
  intros (H1&H2&H3&H4). unfold ipv4_from_str, ipv4_to_string. rewrite (read_octet_printed _ _ H1) by done. cbn [mbind option_bind].
  rewrite read_dot_app. cbn [mbind option_bind]. rewrite (read_octet_printed _ _ H2) by done. cbn [mbind option_bind].
  rewrite read_dot_app. cbn [mbind option_bind]. rewrite (read_octet_printed _ _ H3) by done. cbn [mbind option_bind].
  rewrite read_dot_app. cbn [mbind option_bind].
  rewrite <-(app_empty_r (to_string (octet4 a))). rewrite (read_octet_printed _ _ H4) by done. simpl. by destruct a.
Qed.

Lemma ipv4_to_from s a : ipv4_from_str s = Ok a → ipv4_to_string a = s ∧ ipv4_valid a.
Proof.
  unfold ipv4_from_str. intros Hs.
  destruct (read_octet s) as [[o1 s1]|] eqn:E1; [simpl in Hs|done]. destruct (read_dot s1) as [s2|] eqn:E2; [simpl in Hs|done].
  destruct (read_octet s2) as [[o2 s3]|] eqn:E3; [simpl in Hs|done]. destruct (read_dot s3) as [s4|] eqn:E4; [simpl in Hs|done].
  destruct (read_octet s4) as [[o3 s5]|] eqn:E5; [simpl in Hs|done]. destruct (read_dot s5) as [s6|] eqn:E6; [simpl in Hs|done].
  destruct (read_octet s6) as [[o4 s7]|] eqn:E7; [simpl in Hs|done]. destruct s7; simpl in Hs; [|done]. injection Hs as <-.
  apply read_octet_inv in E1 as [-> ?], E3 as [-> ?], E5 as [-> ?], E7 as [-> ?]. apply read_dot_inv in E2 as ->, E4 as ->, E6 as ->.
  unfold ipv4_to_string, ipv4_valid. simpl. by rewrite app_empty_r.
Qed.

(** The other adapters lose nothing.  The non-negative adapter refuses exactly the negative
    values; the unsigned one takes every value to the unsigned value of the same bits and back;
    16 bytes are a UUID and no bytes the nil one, every other length an error, and UUIDs and
    IPv4 addresses come back from what they are written as; every string accepted as an IPv4
    address is the one the address is written as; redacted values come back, and print alike. *)
Theorem adapters_round_trip `{UC : UuidCrate U UErr} :
  (∀ t v, thrift_int t → in_type t v →
     match from_thrift nonnegative_adapter v with
     | Ok n => 0 ≤ v ∧ new v = Some n ∧ to_thrift nonnegative_adapter n = v
     | Err e => v < 0 ∧ new v = None ∧ e = nonnegative_error v
     end) ∧
  (∀ t, thrift_int t → let ad := unsigned_int_adapter t (unsigned_of t) in
     (∀ v, in_type t v → ∃ u, from_thrift ad v = Ok u ∧ in_type (unsigned_of t) u ∧ u = v mod 2 ^ width t ∧ to_thrift ad u = v) ∧
     (∀ u, in_type (unsigned_of t) u → in_type t (to_thrift ad u) ∧ from_thrift ad (to_thrift ad u) = Ok u)) ∧
  (∀ bs, match from_thrift uuid_bytes_adapter bs with
     | Ok u => to_thrift uuid_bytes_adapter u = if is_nil bs then repeat x00 16 else bs
     | Err _ => length bs ≠ 0%nat ∧ length bs ≠ 16%nat
     end) ∧
  (∀ u : U, from_thrift uuid_bytes_adapter (to_thrift uuid_bytes_adapter u) = Ok u ∧
     from_thrift uuid_string_adapter (to_thrift uuid_string_adapter u) = Ok u) ∧
  from_thrift uuid_string_adapter ""%string = Ok nil_uuid ∧
  (∀ a, ipv4_valid a → from_thrift ipv4_adapter (to_thrift ipv4_adapter a) = Ok a) ∧
  (∀ s a, from_thrift ipv4_adapter s = Ok a → to_thrift ipv4_adapter a = s ∧ ipv4_valid a) ∧
  (∀ T (x y : T), ∃ r, from_thrift (redacted_adapter T) x = Ok r ∧ to_thrift (redacted_adapter T) r = x ∧
     redacted_fmt r = redacted_fmt (redacted_from y)).
Proof.
  split; [|split; [|split; [|split; [|split; [|split; [|split]]]]]].
  - intros t v Ht Hv. cbn. unfold new. destruct (Z.ltb_spec v 0); by split_and!.
  - intros t Ht ad. pose proof (thrift_int_range t Ht) as (_&_&Hw). assert (int_min (unsigned_of t) = 0) as H0 by (by destruct Ht as [->|[->|[->| ->]]]).
    split; [intros v Hv|intros u Hu].
    + eexists. split; [done|]. split; [apply cast_in_type|]. split; [unfold cast; by rewrite H0, Z.sub_0_r, Z.add_0_r, Hw|].
      by apply unsigned_there_and_back.
    + split; [apply cast_in_type|]. cbn. by rewrite unsigned_there_and_back by (congruence || done).
  - intros [|b bs]; cbn; [by rewrite as_bytes_nil|]. destruct (decide (length (b :: bs) = 16%nat)) as [Hl|Hl].
    + by destruct (from_slice_ok _ Hl) as (u&->&Hu).
    + by destruct (from_slice_err _ Hl) as (e&->).
  - intros u. cbn. split; [|by rewrite to_string_not_empty, try_parse_to_string]. rewrite <-(from_slice_as_bytes u).
    pose proof (as_bytes_length u). by destruct (as_bytes u).
  - done.
  - apply ipv4_from_to.
  - apply ipv4_to_from.
  - intros T x y. by eexists.
Qed.

(** The duration and the unsigned adapters of concrete values, and addresses at the edge. *)
Example adapters_run :
  from_thrift ipv4_adapter "127.0.0.1"%string = Ok {| octet1 := 127; octet2 := 0; octet3 := 0; octet4 := 1 |} ∧
  from_thrift ipv4_adapter "01.01.01.01"%string = Err addr_parse_error ∧
  from_thrift ipv4_adapter "1.2.3.256"%string = Err addr_parse_error ∧
  from_thrift (unsigned_int_adapter I8 U8) (-1) = Ok 255 ∧
  from_thrift nonnegative_adapter (-1) = Err (nonnegative_error (-1)).
Proof. by vm_compute. Qed.

(** UUIDs as lists of 16 bytes, printed as those bytes. *)
Definition plain_uuid : Type := { bs : list byte | bool_decide (length bs = 16%nat) = true }.

Definition plain_from (bs : list byte) : result plain_uuid () :=
  match bool_decide (length bs = 16%nat) as b return bool_decide (length bs = 16%nat) = b → result plain_uuid () with
  | true => λ H, Ok (exist _ bs H)
  | false => λ _, Err ()
  end eq_refl.

Lemma plain_from_ok bs (H : bool_decide (length bs = 16%nat) = true) : plain_from bs = Ok (exist _ bs H).
Proof.
  unfold plain_from. generalize (@eq_refl bool (bool_decide (length bs = 16%nat))). destruct (bool_decide (length bs = 16%nat)) at 2 3.
  - intros H'. do 2 f_equal. apply eq_pi, _.
  - intros H'. congruence.
Qed.

#[local] Instance plain_crate : UuidCrate plain_uuid ().
Proof.
  refine {| as_bytes u := proj1_sig u; from_slice := plain_from; nil_uuid := exist _ (repeat x00 16) eq_refl;
    uuid_to_string u := string_of_list_byte (proj1_sig u); try_parse s := plain_from (list_byte_of_string s) |}.
  - intros [bs H]. exact (proj1 (bool_decide_eq_true _) H).
  - done.
  - intros [bs H]. apply plain_from_ok.
  - intros bs H. exists (exist _ bs (bool_decide_eq_true_2 _ H)). split; [apply plain_from_ok|done].
  - intros bs H. exists (). unfold plain_from. generalize (@eq_refl bool (bool_decide (length bs = 16%nat))).
    destruct (bool_decide (length bs = 16%nat)) at 2 3; [|done]. intros H'. by destruct (H (proj1 (bool_decide_eq_true _) H')).
  - intros [[|b bs] H]; [done|]. by destruct b.
  - intros [bs H]. simpl. rewrite list_byte_of_string_of_list_byte. apply plain_from_ok.
Defined.

Lemma adapters_round_trip_witness :
  from_thrift (uuid_bytes_adapter (U := plain_uuid)) [] = Ok nil_uuid ∧
  from_thrift (uuid_string_adapter (U := plain_uuid)) ""%string = Ok nil_uuid ∧
  ∃ r, from_thrift (redacted_adapter bool) true = Ok r ∧ to_thrift (redacted_adapter bool) r = true ∧
    redacted_fmt r = redacted_fmt (redacted_from false).
Proof.
  pose proof (adapters_round_trip (U := plain_uuid)) as (_&_&_&_&Hs&_&_&Hr). split; [reflexivity|]. split; [exact Hs|apply Hr].
Defined.
End Adapters.

(** * [poll_with_lock] *)

(** [tokio::sync::Mutex] as tokio documents it: a pending [lock()] is queued to be woken with
    the task that polled it, and dropping it gives up its place in the queue. *)
Class TokioMutex (M : Type) := {
  lock_future : Type;
  task : Type;
  lock : lock_future;
  poll_lock : task → lock_future → M → Poll () * lock_future * M;
  drop_lock : lock_future → M → M;
  drop_guard : M → M;
  locked : M → bool;
  queued : M → list task;
  poll_lock_free t m fut m' : poll_lock t lock m = (Ready (), fut, m') → locked m = false ∧ locked m' = true ∧ queued m' = queued m;
  poll_lock_taken t m fut m' : poll_lock t lock m = (Pending, fut, m') →
    locked m' = locked m ∧ queued m' = queued m ++ [t] ∧ locked (drop_lock fut m') = locked m ∧ queued (drop_lock fut m') = queued m;
  poll_lock_waits t m : locked m = true → (poll_lock t lock m).1.1 = Pending;
}.

Module PollWithLock.
Section poll.
Context `{TM : TokioMutex M} {T E W : Type} (f : W → Poll (result () E) * W).
Implicit Types (m : M) (w : W).

(** [Ready (Ok ())] hands out the guard; otherwise the guard, or the future that waits for it, is
    dropped when [poll] returns. *)
Definition poll (t : task) m w : Poll (result () E) * M * W :=
  match poll_lock t lock m with
  | (Ready _, _, m) =>
      match f w with
      | (Ready (Ok _), w) => (Ready (Ok ()), m, w)
      | (Ready (Err e), w) => (Ready (Err e), drop_guard m, w)
      | (Pending, w) => (Pending, drop_guard m, w)
      end
  | (Pending, fut, m) => (Pending, drop_lock fut m, w)
  end.

(** The closure runs only with the lock, which is kept exactly when the guard is handed out. *)
Lemma poll_ready t m w m' w' : poll t m w = (Ready (Ok ()), m', w') → locked m = false ∧ locked m' = true ∧ f w = (Ready (Ok ()), w').
Proof.
  unfold poll. destruct (poll_lock t lock m) as [[[[]|] fut] m1] eqn:Hp; [|done]. apply poll_lock_free in Hp as (Hl&Hl1&_).
  by destruct (f w) as [[[[]|e]|] w1] eqn:Hf; intros [= <- <-].
Qed.

(** While the lock is taken every poll is pending and the task is not in the queue afterwards:
    whoever releases the lock wakes the queue, and never this task. *)
Lemma poll_taken t m w : locked m = true →
  ∃ m', poll t m w = (Pending, m', w) ∧ locked m' = true ∧ queued m' = queued m.
Proof.
  intros Hl. unfold poll. pose proof (poll_lock_waits t m Hl) as Hw. destruct (poll_lock t lock m) as [[[[]|] fut] m1] eqn:Hp; [done|].
  apply poll_lock_taken in Hp as (_&_&Hd&Hq). eexists. split; [done|]. by rewrite Hd.
Qed.
End poll.
End PollWithLock.
