(* ===== verification/SqlGuard.v ===== *)
(** The connection guard of SQLite (src/shed/sql/common/sqlite.rs): many threads take turns at the
    connections of their databases, with one connection in use in the whole process.

    Threads interleave at the level of the mutexes and condition variables: [CONN_LOCK] with
    its flag and [CONN_CONDVAR], and for each database the mutex around its connection and its
    [condvar].  A mutex is a flag that says whether it is taken; the threads asleep on a
    condition variable are the threads whose state says so, and [notify_one] wakes any one of
    them.  Poisoned locks do not occur, since nothing panics with a lock in hand. *)
From stdpp Require Import functions.
From S2P Require Import Prelude RustStd.

(** * Counting threads *)

Section count.
Context {A : Type}.
Implicit Types (f : A → bool) (l : list A).

Lemma sum_insert (g : A → nat) l i x y : l !! i = Some x → sum_list_with g (<[i := y]> l) + g x = sum_list_with g l + g y.
Proof.
  revert i. induction l as [|z l IH]; intros [|i]; simpl; try done; [intros [= ->]; lia|]. intros Hi. specialize (IH i Hi). lia.
Qed.

Definition count_threads f l : nat := sum_list_with (λ x, Nat.b2n (f x)) l.

Lemma count_insert f l i x y : l !! i = Some x → count_threads f (<[i := y]> l) + Nat.b2n (f x) = count_threads f l + Nat.b2n (f y).
Proof. apply (sum_insert (λ x, Nat.b2n (f x))). Qed.

Lemma taken_count_pos f l : 0 < count_threads f l ↔ ∃ i x, l !! i = Some x ∧ f x = true.
Proof.
  induction l as [|z l IH]; simpl; [split; [lia|by intros (?&?&?&?)]|]. destruct (f z) eqn:Hz; simpl.
  - split; [intros _; by exists 0, z|lia].
  - rewrite IH. split.
    + intros (i&x&Hi&Hx). by exists (S i), x.
    + intros ([|i]&x&Hi&Hx); simpl in Hi; [congruence|by exists i, x].
Qed.

Lemma count_unique f l i j x y :
  count_threads f l ≤ 1 → l !! i = Some x → l !! j = Some y → f x = true → f y = true → i = j.
Proof.
  revert i j. induction l as [|z l IH]; simpl; intros [|i] [|j] Hc Hi Hj Hx Hy; simplify_eq/=; try done.
  - assert (0 < count_threads f l) by (apply taken_count_pos; eauto). rewrite Hx in Hc. simpl in Hc. lia.
  - assert (0 < count_threads f l) by (apply taken_count_pos; eauto). rewrite Hy in Hc. simpl in Hc. lia.
  - f_equal. apply IH; [lia|done..].
Qed.

Lemma count_mono f g l : (∀ x, f x = true → g x = true) → count_threads f l ≤ count_threads g l.
Proof.
  intros H. induction l as [|z l IH]; simpl; [done|]. specialize (H z). destruct (f z); simpl; [rewrite H by done; simpl; lia|lia].
Qed.

Lemma count_none f l : (∀ i x, l !! i = Some x → f x = false) → count_threads f l = 0.
Proof.
  intros H. destruct (count_threads f l) eqn:Hc; [done|]. assert (0 < count_threads f l) as (i&x&Hi&Hx)%taken_count_pos by lia.
  by rewrite (H i x Hi) in Hx.
Qed.
End count.

Module SqliteGuard.
Section guard.
Context {C : Type}.

(** Where a thread is in [SqliteConnectionGuard::new] or in the [Drop] of its guard, for the
    database [d]; in between it has the guard, with the connection. *)
Inductive thread :=
| Idle
| WantGlobal (d : nat)
| CheckGlobal (d : nat)
| AsleepGlobal (d : nat)
| WantInner (d : nat)
| CheckInner (d : nat)
| AsleepInner (d : nat)
| Leaving (d : nat) (c : C)
| Using (d : nat) (c : C)
| DropGlobal (d : nat) (c : C)
| DropInner (d : nat) (c : C)
| PutBack (d : nat) (c : C)
| NotifyInner (d : nat)
| NotifyGlobal (d : nat).
Implicit Types (t : thread).

(** [CONN_LOCK] taken, its value, and for every database its mutex taken and its connection. *)
Record state := {
  conn_lock : bool;
  allowed : bool;
  mutex : nat → bool;
  connection : nat → option C;
  threads : list thread;
}.
Implicit Types (s : state).

Definition with_lock b s : state :=
  {| conn_lock := b; allowed := allowed s; mutex := mutex s; connection := connection s; threads := threads s |}.
Definition with_allowed b s : state :=
  {| conn_lock := conn_lock s; allowed := b; mutex := mutex s; connection := connection s; threads := threads s |}.
Definition with_mutex (d : nat) b s : state :=
  {| conn_lock := conn_lock s; allowed := allowed s; mutex := <[d := b]> (mutex s); connection := connection s; threads := threads s |}.
Definition with_connection (d : nat) o s : state :=
  {| conn_lock := conn_lock s; allowed := allowed s; mutex := mutex s; connection := <[d := o]> (connection s); threads := threads s |}.
Definition with_thread (i : nat) t s : state :=
  {| conn_lock := conn_lock s; allowed := allowed s; mutex := mutex s; connection := connection s; threads := <[i := t]> (threads s) |}.

Definition asleep_global t : bool := match t with AsleepGlobal _ => true | _ => false end.
Definition asleep_inner d t : bool := match t with AsleepInner d' => bool_decide (d = d') | _ => false end.

(** A woken thread takes the mutex again and checks again. *)
Definition woken t : thread := match t with AsleepGlobal d => WantGlobal d | AsleepInner d => WantInner d | t => t end.

(** [notify_one]: thread [j] of those asleep; nobody, when none is. *)
Definition notify_one (asleep : thread → bool) (j : option nat) s : option state :=
  match j with
  | None => if existsb asleep (threads s) then None else Some s
  | Some j => t ← threads s !! j; if asleep t then Some (with_thread j (woken t) s) else None
  end.

(** One action of thread [i] at [t]; [j] is whom it wakes, and [c'] the connection after its
    use.  [None] when the thread cannot move. *)
Definition thread_step (i : nat) (j : option nat) (c' : C) s t : exec (option state) :=
  match t with
  | Idle | AsleepGlobal _ | AsleepInner _ => ret None
  | WantGlobal d => ret (if conn_lock s then None else Some (with_thread i (CheckGlobal d) (with_lock true s)))
  | CheckGlobal d =>
      ret (Some (if allowed s then with_thread i (WantInner d) (with_allowed false s)
                 else with_thread i (AsleepGlobal d) (with_lock false s)))
  | WantInner d => ret (if mutex s d then None else Some (with_thread i (CheckInner d) (with_mutex d true s)))
  | CheckInner d =>
      if is_none (connection s d) then ret (Some (with_thread i (AsleepInner d) (with_mutex d false s)))
      else
        let! c := expect (connection s d) in
        ret (Some (with_thread i (Leaving d c) (with_mutex d false (with_connection d None s))))
  | Leaving d c => ret (Some (with_thread i (Using d c) (with_lock false s)))
  | Using d _ => ret (Some (with_thread i (DropGlobal d c') s))
  | DropGlobal d c => ret (if conn_lock s then None else Some (with_thread i (DropInner d c) (with_allowed true s)))
  | DropInner d c => ret (if mutex s d then None else Some (with_thread i (PutBack d c) (with_mutex d true s)))
  | PutBack d c =>
      ret (Some (with_thread i (NotifyInner d)
        (with_connection d (match connection s d with Some x => Some x | None => Some c end) s)))
  | NotifyInner d => ret (notify_one (asleep_inner d) j (with_thread i (NotifyGlobal d) s))
  | NotifyGlobal d => ret (notify_one asleep_global j (with_thread i Idle (with_mutex d false s)))
  end.

Definition run_thread (i : nat) (j : option nat) (c' : C) s : exec (option state) :=
  match threads s !! i with None => ret None | Some t => thread_step i j c' s t end.

(** What a thread can do with the connection while it has the guard. *)
Context (uses : C → C → Prop).

Definition used s i c' : Prop := ∀ d c, threads s !! i = Some (Using d c) → uses c c'.

(** The moves of threads that are under way. *)
Inductive settles s : state → Prop :=
| settles_run i j c' s' : run_thread i j c' s = ret (Some s') → used s i c' → settles s s'.

(** Besides, an idle thread asks for a connection, and a sleeping one wakes for no reason. *)
Inductive step s : state → Prop :=
| step_settles s' : settles s s' → step s s'
| step_start i d : threads s !! i = Some Idle → step s (with_thread i (WantGlobal d) s)
| step_spurious i t : threads s !! i = Some t → woken t ≠ t → step s (with_thread i (woken t) s).

(** [CONN_LOCK] and [SqliteMultithreaded::new]. *)
Definition start (n : nat) (c : nat → C) : state :=
  {| conn_lock := false; allowed := true; mutex _ := false; connection d := Some (c d); threads := replicate n Idle |}.

(** A schedule, to run the model: a request of a thread, or who moves, whom it wakes, what it
    leaves. *)
Inductive move := Request (i d : nat) | Run (i : nat) (j : option nat) (c' : C).

Definition run_move (m : move) s : exec (option state) :=
  match m with
  | Request i d => ret (match threads s !! i with Some Idle => Some (with_thread i (WantGlobal d) s) | _ => None end)
  | Run i j c' => run_thread i j c' s
  end.
Fixpoint run_all (moves : list move) s : exec state :=
  match moves with
  | [] => ret s
  | m :: moves => let! r := run_move m s in run_all moves (default s r)
  end.

Lemma run_all_reaches moves s s' :
  Forall (λ m, match m with Run _ _ c' => ∀ c, uses c c' | _ => True end) moves → run_all moves s = ret s' → rtc (step) s s'.
Proof.
  intros Hm. revert s. induction Hm as [|m moves Hm _ IH]; intros s; simpl; [by intros [= ->]|].
  destruct (run_move m s) as [[s1|]|] eqn:Hr; simpl; [|by apply IH|done]. intros Hs. eapply rtc_l; [|by apply IH].
  destruct m as [i d|i j c']; simpl in Hr.
  - destruct (threads s !! i) as [[]|] eqn:Hi; try done. injection Hr as <-. by apply step_start.
  - by eapply step_settles, settles_run; [|intros ? ? _].
Qed.

(** ** What threads hold *)

Definition holds_lock t : bool :=
  match t with CheckGlobal _ | WantInner _ | CheckInner _ | AsleepInner _ | Leaving _ _ => true | _ => false end.
Definition holds_mutex d t : bool :=
  match t with CheckInner d' | PutBack d' _ | NotifyInner d' | NotifyGlobal d' => bool_decide (d = d') | _ => false end.
(** Having set the flag to false, and not yet to true. *)
Definition has_turn t : bool :=
  match t with WantInner _ | CheckInner _ | AsleepInner _ | Leaving _ _ | Using _ _ | DropGlobal _ _ => true | _ => false end.
Definition carries d t : bool :=
  match t with Leaving d' _ | Using d' _ | DropGlobal d' _ | DropInner d' _ | PutBack d' _ => bool_decide (d = d') | _ => false end.
Definition will_notify d t : bool := match t with NotifyInner d' => bool_decide (d = d') | _ => false end.
(** Those who will find the flag true, or wake one who will. *)
Definition will_check t : bool :=
  match t with WantGlobal _ | CheckGlobal _ | DropInner _ _ | PutBack _ _ | NotifyInner _ | NotifyGlobal _ => true | _ => false end.

(** The connection a thread has with it. *)
Definition carried t : option C :=
  match t with Leaving _ c | Using _ c | DropGlobal _ c | DropInner _ c | PutBack _ c => Some c | _ => None end.

(** Each thing is in its place or with exactly one thread. *)
Record base (P : C → Prop) s : Prop := {
  inv_lock : Nat.b2n (negb (conn_lock s)) + count_threads holds_lock (threads s) = 1;
  inv_mutex d : Nat.b2n (negb (mutex s d)) + count_threads (holds_mutex d) (threads s) = 1;
  inv_turn : Nat.b2n (allowed s) + count_threads has_turn (threads s) = 1;
  inv_connection d : Nat.b2n (negb (is_none (connection s d))) + count_threads (carries d) (threads s) = 1;
  inv_pooled d c : connection s d = Some c → P c;
  inv_carried i t c : threads s !! i = Some t → carried t = Some c → P c;
}.

(** And nobody sleeps through a chance. *)
Record inv (P : C → Prop) s : Prop := {
  inv_base : base P s;
  inv_wake_global : allowed s = true → 0 < count_threads asleep_global (threads s) → 0 < count_threads will_check (threads s);
  inv_wake_inner d : is_Some (connection s d) → 0 < count_threads (asleep_inner d) (threads s) → 0 < count_threads (will_notify d) (threads s);
}.

Section moves.
Context (P : C → Prop).

(** A thread that moves passes on what it no longer holds. *)
Lemma base_move s s' i t t' :
  base P s → threads s !! i = Some t → threads s' = <[i := t']> (threads s) →
  Nat.b2n (negb (conn_lock s')) + Nat.b2n (holds_lock t') = Nat.b2n (negb (conn_lock s)) + Nat.b2n (holds_lock t) →
  (∀ d, Nat.b2n (negb (mutex s' d)) + Nat.b2n (holds_mutex d t') = Nat.b2n (negb (mutex s d)) + Nat.b2n (holds_mutex d t)) →
  Nat.b2n (allowed s') + Nat.b2n (has_turn t') = Nat.b2n (allowed s) + Nat.b2n (has_turn t) →
  (∀ d, Nat.b2n (negb (is_none (connection s' d))) + Nat.b2n (carries d t') = Nat.b2n (negb (is_none (connection s d))) + Nat.b2n (carries d t)) →
  (∀ d c, connection s' d = Some c → P c) → (∀ c, carried t' = Some c → P c) → base P s'.
Proof.
  intros [Hl Hm Ht Hc Hp Hca] Hi Heq Hl' Hm' Ht' Hc' Hp' Hca'. split; try done; rewrite Heq.
  - pose proof (count_insert holds_lock _ _ _ t' Hi). lia.
  - intros d. pose proof (count_insert (holds_mutex d) _ _ _ t' Hi). specialize (Hm d). specialize (Hm' d). lia.
  - pose proof (count_insert has_turn _ _ _ t' Hi). lia.
  - intros d. pose proof (count_insert (carries d) _ _ _ t' Hi). specialize (Hc d). specialize (Hc' d). lia.
  - intros j t0 c [(_&<-&_)|[_ Hj]]%list_lookup_insert_Some; [apply Hca'|by apply (Hca j)].
Qed.

(** The same with what the others sleep for. *)
Lemma inv_move s s' i t t' :
  inv P s → threads s !! i = Some t → threads s' = <[i := t']> (threads s) → base P s' →
  (allowed s' = true → will_check t' = true ∨
    (allowed s = true ∧ asleep_global t' = false ∧ (will_check t = true → will_check t' = true))) →
  (∀ d, is_Some (connection s' d) → will_notify d t' = true ∨
    (is_Some (connection s d) ∧ asleep_inner d t' = false ∧ (will_notify d t = true → will_notify d t' = true))) →
  inv P s'.
Proof.
  intros [_ Hg Hw] Hi Heq Hb Hg' Hw'. split; [done|rewrite Heq|intros d; rewrite Heq].
  - intros Ha Hs. pose proof (count_insert will_check _ _ _ t' Hi) as Hc. destruct (Hg' Ha) as [Ht'|(Ha0&Hs'&Ht)].
    + rewrite Ht' in Hc. simpl in Hc. destruct (will_check t); simpl in Hc; [|lia].
      apply taken_count_pos. exists i, t'. split; [|done]. by apply list_lookup_insert_eq, (lookup_lt_Some _ _ t).
    + pose proof (count_insert asleep_global _ _ _ t' Hi) as Hs0. rewrite Hs' in Hs0. simpl in Hs0. specialize (Hg Ha0 ltac:(lia)).
      destruct (will_check t); [rewrite Ht in Hc by done; simpl in Hc; lia|]. simpl in Hc. lia.
  - intros Ha Hs. pose proof (count_insert (will_notify d) _ _ _ t' Hi) as Hc. destruct (Hw' d Ha) as [Ht'|(Ha0&Hs'&Ht)].
    + apply taken_count_pos. exists i, t'. split; [|done]. by apply list_lookup_insert_eq, (lookup_lt_Some _ _ t).
    + pose proof (count_insert (asleep_inner d) _ _ _ t' Hi) as Hs0. rewrite Hs' in Hs0. simpl in Hs0. specialize (Hw d Ha0 ltac:(lia)).
      destruct (will_notify d t); [rewrite Ht in Hc by done; simpl in Hc; lia|]. simpl in Hc. lia.
Qed.

(** Waking a thread changes nothing that it holds. *)
Lemma base_wake s j t : base P s → threads s !! j = Some t → base P (with_thread j (woken t) s).
Proof.
  intros Hb Hj. apply (base_move s _ j t (woken t)); try done; [by destruct t..| |].
  - intros d c. apply (inv_pooled _ _ Hb).
  - intros c Hc. apply (inv_carried _ _ Hb j t); [done|by destruct t].
Qed.

Lemma notify_one_ok (asleep : thread → bool) j s s' :
  notify_one asleep j s = Some s' →
  (s' = s ∧ count_threads asleep (threads s) = 0) ∨
  (∃ j t, threads s !! j = Some t ∧ asleep t = true ∧ s' = with_thread j (woken t) s).
Proof.
  unfold notify_one. destruct j as [j|].
  - destruct (threads s !! j) as [t|] eqn:Hj; simpl; [|done]. destruct (asleep t) eqn:Ha; [|done]. intros [= <-]. right. by exists j, t.
  - destruct (existsb asleep (threads s)) eqn:He; [done|]. intros [= <-]. left. split; [done|]. apply count_none. intros i t Hi.
    destruct (asleep t) eqn:Ha; [|done]. assert (existsb asleep (threads s) = true) as Ht; [|congruence].
    apply existsb_exists. exists t. split; [|done]. by apply list_elem_of_In, (list_elem_of_lookup_2 _ i).
Qed.

Lemma count_same f s j t : threads s !! j = Some t → f (woken t) = f t → count_threads f (threads (with_thread j (woken t) s)) = count_threads f (threads s).
Proof. intros Hj Hf. simpl. pose proof (count_insert f _ _ _ (woken t) Hj) as Hc. rewrite Hf in Hc. lia. Qed.

Lemma inv_spurious s j t : inv P s → threads s !! j = Some t → inv P (with_thread j (woken t) s).
Proof.
  intros [Hb Hg Hw] Hj. split; [by apply base_wake|intros Ha Hs|intros d Ha Hs].
  - destruct (asleep_global t) eqn:Ht.
    + apply taken_count_pos. exists j, (woken t). split; [by apply list_lookup_insert_eq, (lookup_lt_Some _ _ t)|by destruct t].
    + rewrite (count_same asleep_global) in Hs by (done || by destruct t). rewrite (count_same will_check) by (done || by destruct t). auto.
  - destruct (asleep_inner d t) eqn:Ht.
    + pose proof (count_insert (asleep_inner d) _ _ _ (woken t) Hj) as Hc. rewrite Ht in Hc. simpl in Hs.
      rewrite (count_same (will_notify d)) by (done || by destruct t). apply Hw; [done|].
      assert (asleep_inner d (woken t) = false) as H0 by (by destruct t). rewrite H0 in Hc. simpl in Hc. lia.
    + rewrite (count_same (asleep_inner d)) in Hs by (done || by destruct t; try done). rewrite (count_same (will_notify d)) by (done || by destruct t).
      by apply Hw.
Qed.
End moves.

Section steps.
Context (P : C → Prop) (uses_ok : ∀ c c', P c → uses c c' → P c').

#[local] Ltac each_database d :=
  let d0 := fresh "d" in intros d0; destruct (decide (d0 = d)) as [->|];
    simpl; rewrite ?fn_lookup_insert, ?fn_lookup_insert_ne by done; rewrite ?bool_decide_true, ?bool_decide_false by done.

(** What a thread under way has, the others do not. *)
Lemma taken_lock s i t : base P s → threads s !! i = Some t → holds_lock t = true → conn_lock s = true.
Proof.
  intros Hb Hi Ht. pose proof (inv_lock _ _ Hb) as Hl. assert (0 < count_threads holds_lock (threads s)) by (apply taken_count_pos; eauto).
  destruct (conn_lock s); [done|simpl in Hl; lia].
Qed.
Lemma taken_mutex s i t d : base P s → threads s !! i = Some t → holds_mutex d t = true → mutex s d = true.
Proof.
  intros Hb Hi Ht. pose proof (inv_mutex _ _ Hb d) as Hl. assert (0 < count_threads (holds_mutex d) (threads s)) by (apply taken_count_pos; eauto).
  destruct (mutex s d); [done|simpl in Hl; lia].
Qed.
Lemma taken_turn s i t : base P s → threads s !! i = Some t → has_turn t = true → allowed s = false.
Proof.
  intros Hb Hi Ht. pose proof (inv_turn _ _ Hb) as Hl. assert (0 < count_threads has_turn (threads s)) by (apply taken_count_pos; eauto).
  destruct (allowed s); [simpl in Hl; lia|done].
Qed.
Lemma taken_connection s i t d : base P s → threads s !! i = Some t → carries d t = true → connection s d = None.
Proof.
  intros Hb Hi Ht. pose proof (inv_connection _ _ Hb d) as Hl. assert (0 < count_threads (carries d) (threads s)) by (apply taken_count_pos; eauto).
  destruct (connection s d); [simpl in Hl; lia|done].
Qed.

(** The moves that wake nobody. *)
Lemma simple_ok s i t s' t' :
  inv P s → threads s !! i = Some t → threads s' = <[i := t']> (threads s) → base P s' →
  (allowed s' = true → will_check t' = true ∨
    (allowed s = true ∧ asleep_global t' = false ∧ (will_check t = true → will_check t' = true))) →
  (∀ d, is_Some (connection s' d) → will_notify d t' = true ∨
    (is_Some (connection s d) ∧ asleep_inner d t' = false ∧ (will_notify d t = true → will_notify d t' = true))) →
  ∃ r, ret (Some s') = ret r ∧ match r with None => True | Some s' => inv P s' end.
Proof. intros. exists (Some s'). split; [done|]. by eapply inv_move. Qed.

Lemma none_ok : ∃ r : option state, ret None = ret r ∧ match r with None => True | Some s' => inv P s' end.
Proof. by exists None. Qed.

Section one.
Context (s : state) (i : nat) (Hinv : inv P s).

Lemma want_global_ok d j c' : threads s !! i = Some (WantGlobal d) →
  ∃ r, thread_step i j c' s (WantGlobal d) = ret r ∧ match r with None => True | Some s' => inv P s' end.
Proof.
  intros Hi. destruct Hinv as [Hb _ _]. simpl. destruct (conn_lock s) eqn:Hl; [apply none_ok|].
  eapply (simple_ok s i _ _ (CheckGlobal d)); [done|done|done| |by left|by right].
  eapply base_move; [done|done|done|simpl; by rewrite Hl|done..|by apply (inv_pooled _ _ Hb)|done].
Qed.

Lemma check_global_ok d j c' : threads s !! i = Some (CheckGlobal d) →
  ∃ r, thread_step i j c' s (CheckGlobal d) = ret r ∧ match r with None => True | Some s' => inv P s' end.
Proof.
  intros Hi. pose proof (inv_base _ _ Hinv) as Hb. pose proof (taken_lock s i _ Hb Hi eq_refl) as Hl. simpl. destruct (allowed s) eqn:Ha.
  - eapply (simple_ok s i _ _ (WantInner d)); [done|done|done| |done|by right].
    eapply base_move; [done|done|done|done|done|simpl; by rewrite Ha|done|by apply (inv_pooled _ _ Hb)|done].
  - eapply (simple_ok s i _ _ (AsleepGlobal d)); [done|done|done| |simpl; congruence|by right].
    eapply base_move; [done|done|done|simpl; by rewrite Hl|done..|by apply (inv_pooled _ _ Hb)|done].
Qed.

Lemma want_inner_ok d j c' : threads s !! i = Some (WantInner d) →
  ∃ r, thread_step i j c' s (WantInner d) = ret r ∧ match r with None => True | Some s' => inv P s' end.
Proof.
  intros Hi. pose proof (inv_base _ _ Hinv) as Hb. simpl. destruct (mutex s d) eqn:Hm; [apply none_ok|].
  eapply (simple_ok s i _ _ (CheckInner d)); [done|done|done| |by right|by right].
  eapply base_move; [done|done|done|done| |done|done|by apply (inv_pooled _ _ Hb)|done]. each_database d; [by rewrite Hm|done].
Qed.

Lemma check_inner_ok d j c' : threads s !! i = Some (CheckInner d) →
  ∃ r, thread_step i j c' s (CheckInner d) = ret r ∧ match r with None => True | Some s' => inv P s' end.
Proof.
  intros Hi. pose proof (inv_base _ _ Hinv) as Hb. pose proof (taken_mutex s i _ d Hb Hi (bool_decide_true _ eq_refl)) as Hm.
  simpl. destruct (connection s d) as [c|] eqn:Hc; simpl.
  - eapply (simple_ok s i _ _ (Leaving d c)); [done|done|done| |by right|].
    + eapply base_move; [done|done|done|done| |done| | |].
      * each_database d; [by rewrite Hm|done].
      * each_database d; [by rewrite Hc|done].
      * intros d0 c0. simpl. destruct (decide (d0 = d)) as [->|]; rewrite ?fn_lookup_insert, ?fn_lookup_insert_ne by done; [done|by apply (inv_pooled _ _ Hb)].
      * intros c0 [= <-]. by apply (inv_pooled _ _ Hb d).
    + intros d0. simpl. destruct (decide (d0 = d)) as [->|]; rewrite ?fn_lookup_insert, ?fn_lookup_insert_ne by done; [by intros []|by right].
  - eapply (simple_ok s i _ _ (AsleepInner d)); [done|done|done| |by right|].
    + eapply base_move; [done|done|done|done| |done|done|by apply (inv_pooled _ _ Hb)|done]. each_database d; [by rewrite Hm|done].
    + intros d0 [c Hs]. right. split; [done|]. split; [|done]. simpl in *. apply bool_decide_false. congruence.
Qed.

Lemma leaving_ok d c j c' : threads s !! i = Some (Leaving d c) →
  ∃ r, thread_step i j c' s (Leaving d c) = ret r ∧ match r with None => True | Some s' => inv P s' end.
Proof.
  intros Hi. pose proof (inv_base _ _ Hinv) as Hb. pose proof (taken_lock s i _ Hb Hi eq_refl) as Hl. simpl.
  eapply (simple_ok s i _ _ (Using d c)); [done|done|done| |by right|by right].
  eapply base_move; [done|done|done|simpl; by rewrite Hl|done..|by apply (inv_pooled _ _ Hb)|]. intros c0 [= <-]. by apply (inv_carried _ _ Hb i (Leaving d c)).
Qed.

Lemma using_ok d c j c' : threads s !! i = Some (Using d c) → uses c c' →
  ∃ r, thread_step i j c' s (Using d c) = ret r ∧ match r with None => True | Some s' => inv P s' end.
Proof.
  intros Hi Hu. pose proof (inv_base _ _ Hinv) as Hb. simpl.
  eapply (simple_ok s i _ _ (DropGlobal d c')); [done|done|done| |by right|by right].
  eapply base_move; [done|done|done|done..|by apply (inv_pooled _ _ Hb)|]. intros c0 [= <-]. eapply uses_ok; [|done]. by apply (inv_carried _ _ Hb i (Using d c)).
Qed.

Lemma drop_global_ok d c j c' : threads s !! i = Some (DropGlobal d c) →
  ∃ r, thread_step i j c' s (DropGlobal d c) = ret r ∧ match r with None => True | Some s' => inv P s' end.
Proof.
  intros Hi. pose proof (inv_base _ _ Hinv) as Hb. pose proof (taken_turn s i _ Hb Hi eq_refl) as Ha. simpl.
  destruct (conn_lock s) eqn:Hl; [apply none_ok|].
  eapply (simple_ok s i _ _ (DropInner d c)); [done|done|done| |by left|by right].
  eapply base_move; [done|done|done|done|done|simpl; by rewrite Ha|done|by apply (inv_pooled _ _ Hb)|]. intros c0 [= <-]. by apply (inv_carried _ _ Hb i (DropGlobal d c)).
Qed.

Lemma drop_inner_ok d c j c' : threads s !! i = Some (DropInner d c) →
  ∃ r, thread_step i j c' s (DropInner d c) = ret r ∧ match r with None => True | Some s' => inv P s' end.
Proof.
  intros Hi. pose proof (inv_base _ _ Hinv) as Hb. simpl. destruct (mutex s d) eqn:Hm; [apply none_ok|].
  eapply (simple_ok s i _ _ (PutBack d c)); [done|done|done| |by left|by right].
  eapply base_move; [done|done|done|done| |done|done|by apply (inv_pooled _ _ Hb)|]; [each_database d; [by rewrite Hm|done]|].
  intros c0 [= <-]. by apply (inv_carried _ _ Hb i (DropInner d c)).
Qed.

Lemma put_back_ok d c j c' : threads s !! i = Some (PutBack d c) →
  ∃ r, thread_step i j c' s (PutBack d c) = ret r ∧ match r with None => True | Some s' => inv P s' end.
Proof.
  intros Hi. pose proof (inv_base _ _ Hinv) as Hb. pose proof (taken_connection s i _ d Hb Hi (bool_decide_true _ eq_refl)) as Hc. simpl. rewrite Hc.
  eapply (simple_ok s i _ _ (NotifyInner d)); [done|done|done| |by left|].
  - eapply base_move; [done|done|done|done|done|done| | |done]; [each_database d; [by rewrite Hc|done]|].
    intros d0 c0. simpl. destruct (decide (d0 = d)) as [->|]; rewrite ?fn_lookup_insert, ?fn_lookup_insert_ne by done; [|by apply (inv_pooled _ _ Hb)].
    intros [= <-]. by apply (inv_carried _ _ Hb i (PutBack d c)).
  - intros d0. simpl. destruct (decide (d0 = d)) as [->|]; rewrite ?fn_lookup_insert, ?fn_lookup_insert_ne by done; [left; by apply bool_decide_true|].
    intros Hs. right. split; [done|]. split; [done|]. by rewrite bool_decide_false.
Qed.

Lemma notify_inner_ok d j c' : threads s !! i = Some (NotifyInner d) →
  ∃ r, thread_step i j c' s (NotifyInner d) = ret r ∧ match r with None => True | Some s' => inv P s' end.
Proof.
  intros Hi. pose proof (inv_base _ _ Hinv) as Hb. simpl. eexists. split; [done|].
  assert (base P (with_thread i (NotifyGlobal d) s)) as Hb1 by (eapply base_move; [done|done|done|done..|by apply (inv_pooled _ _ Hb)|done]).
  destruct (notify_one (asleep_inner d) j (with_thread i (NotifyGlobal d) s)) as [s'|] eqn:Hn; [|done].
  assert (count_threads will_check (threads (with_thread i (NotifyGlobal d) s)) > 0) as Hg.
  { apply taken_count_pos. exists i, (NotifyGlobal d). split; [|done]. by apply list_lookup_insert_eq, (lookup_lt_Some _ _ (NotifyInner d)). }
  assert (∀ d0, d0 ≠ d → is_Some (connection s d0) → 0 < count_threads (asleep_inner d0) (threads (with_thread i (NotifyGlobal d) s)) →
    0 < count_threads (will_notify d0) (threads (with_thread i (NotifyGlobal d) s))) as Hother.
  { intros d0 Hd Hc Hs. simpl in *. pose proof (count_insert (asleep_inner d0) _ _ _ (NotifyGlobal d) Hi) as H1.
    pose proof (count_insert (will_notify d0) _ _ _ (NotifyGlobal d) Hi) as H2. simpl in H1, H2. rewrite bool_decide_false in H2 by done. simpl in H2.
    pose proof (inv_wake_inner _ _ Hinv d0 Hc). lia. }
  apply notify_one_ok in Hn as [[-> H0]|(k&t&Hk&Ht&->)].
  - split; [done|intros _ _; lia|]. intros d0 Hc Hs. destruct (decide (d0 = d)) as [->|Hd]; [lia|by apply Hother].
  - split; [by apply base_wake|intros _ _|].
    + rewrite (count_same will_check); [lia|done|by destruct t].
    + intros d0 Hc Hs. rewrite (count_same (will_notify d0)) by (done || by destruct t). destruct (decide (d0 = d)) as [->|Hd].
      * exfalso. pose proof (count_insert (asleep_inner d) _ _ _ (woken t) Hk) as H1. rewrite Ht in H1.
        assert (asleep_inner d (woken t) = false) as H2 by (by destruct t). rewrite H2 in H1. simpl in H1, Hs.
        pose proof (inv_turn _ _ Hb1) as H3. pose proof (count_mono (asleep_inner d) has_turn (threads (with_thread i (NotifyGlobal d) s))) as H4.
        simpl in H3, H4. specialize (H4 ltac:(by intros [])). lia.
      * apply Hother; [done|done|]. rewrite (count_same (asleep_inner d0)) in Hs; [done|done|].
        destruct t; try done. simpl in *. apply bool_decide_eq_true in Ht as ->. by rewrite bool_decide_false.
Qed.

Lemma notify_global_ok d j c' : threads s !! i = Some (NotifyGlobal d) →
  ∃ r, thread_step i j c' s (NotifyGlobal d) = ret r ∧ match r with None => True | Some s' => inv P s' end.
Proof.
  intros Hi. pose proof (inv_base _ _ Hinv) as Hb. pose proof (taken_mutex s i _ d Hb Hi (bool_decide_true _ eq_refl)) as Hm.
  simpl. eexists. split; [done|]. set (s1 := with_thread i Idle (with_mutex d false s)).
  assert (base P s1) as Hb1.
  { eapply base_move; [done|done|done|done| |done|done|by apply (inv_pooled _ _ Hb)|done]. each_database d; [by rewrite Hm|done]. }
  assert (∀ d0, is_Some (connection s1 d0) → 0 < count_threads (asleep_inner d0) (threads s1) → 0 < count_threads (will_notify d0) (threads s1)) as Hw.
  { intros d0 Hc Hs. simpl in *. pose proof (count_insert (asleep_inner d0) _ _ _ Idle Hi) as H1.
    pose proof (count_insert (will_notify d0) _ _ _ Idle Hi) as H2. simpl in H1, H2. pose proof (inv_wake_inner _ _ Hinv d0 Hc). lia. }
  destruct (notify_one asleep_global j s1) as [s'|] eqn:Hn; [|done].
  apply notify_one_ok in Hn as [[-> H0]|(k&t&Hk&Ht&->)].
  - split; [done|intros _ ?; lia|done].
  - split; [by apply base_wake|intros _ _|].
    + apply taken_count_pos. exists k, (woken t). split; [by apply list_lookup_insert_eq, (lookup_lt_Some _ _ t)|by destruct t].
    + intros d0 Hc Hs. rewrite (count_same (will_notify d0)) by (done || by destruct t). apply Hw; [done|].
      by rewrite (count_same (asleep_inner d0)) in Hs by (done || by destruct t).
Qed.
End one.

(** Every action of every thread keeps the invariant, and none panics. *)
Lemma run_ok s i j c' :
  inv P s → used s i c' → ∃ r, run_thread i j c' s = ret r ∧ match r with None => True | Some s' => inv P s' end.
Proof.
  intros Hinv Hu. unfold run_thread. destruct (threads s !! i) as [t|] eqn:Hi; [|apply none_ok].
  destruct t; [apply none_ok|by eapply want_global_ok|by eapply check_global_ok|apply none_ok|by eapply want_inner_ok|by eapply check_inner_ok|
    apply none_ok|by eapply leaving_ok|eapply using_ok; by eauto|by eapply drop_global_ok|by eapply drop_inner_ok|by eapply put_back_ok|
    by eapply notify_inner_ok|by eapply notify_global_ok].
Qed.
End steps.

(** ** Reachable states *)

Section reachable.
Context (P : C → Prop) (uses_ok : ∀ c c', P c → uses c c' → P c').

Lemma guard_step_ok s s' : inv P s → step s s' → inv P s'.
Proof.
  intros Hinv [s1 [i j c' s2 Hr Hu]|i d Hi|i t Hi _].
  - destruct (run_ok P uses_ok s i j c' Hinv Hu) as (r&Hr'&Hok). rewrite Hr in Hr'. by injection Hr' as <-.
  - pose proof (inv_base _ _ Hinv) as Hb.
    eapply inv_move; [done|done|done| |by left|by right]. eapply base_move; [done|done|done|done..|by apply (inv_pooled _ _ Hb)|done].
  - by apply inv_spurious.
Qed.

Lemma count_replicate (f : thread → bool) n : f Idle = false → count_threads f (replicate n Idle) = 0.
Proof. intros Hf. apply count_none. intros i t [-> _]%lookup_replicate. done. Qed.

Lemma guard_start_ok n c : (∀ d, P (c d)) → inv P (start n c).
Proof.
  intros Hc. split; [split|..]; simpl; intros; rewrite ?count_replicate in * by done; try done; [by simplify_eq|].
  by match goal with H : replicate _ _ !! _ = Some _ |- _ => apply lookup_replicate in H as [-> _] end.
Qed.

Lemma reachable_ok n c s : (∀ d, P (c d)) → rtc step (start n c) s → inv P s.
Proof.
  intros Hc Hr. assert (∀ s1 s2, rtc step s1 s2 → inv P s1 → inv P s2) as H; [|by eapply H; [|by apply guard_start_ok]].
  induction 1 as [|s1 s2 s3 H1 _ IH]; [done|]. intros Hi. by eapply IH, guard_step_ok.
Qed.
End reachable.

(** ** Progress *)

(** The actions a thread has before it at most, with those of the one it will wake. *)
Definition weight t : nat :=
  match t with
  | Idle => 0 | NotifyGlobal _ => 3 | NotifyInner _ => 6 | PutBack _ _ => 7 | DropInner _ _ => 8 | DropGlobal _ _ => 9
  | Using _ _ => 10 | Leaving _ _ => 11 | AsleepInner _ => 11 | CheckInner _ => 12 | WantInner _ => 13
  | AsleepGlobal _ => 13 | CheckGlobal _ => 14 | WantGlobal _ => 15
  end.
Definition total s : nat := sum_list_with weight (threads s).

Lemma total_move s i t t' s' :
  threads s !! i = Some t → threads s' = <[i := t']> (threads s) → total s' + weight t = total s + weight t'.
Proof. intros Hi Heq. unfold total. rewrite Heq. by apply sum_insert. Qed.

Lemma notify_total (asleep : thread → bool) j s s' :
  (∀ t, asleep t = true → weight (woken t) = weight t + 2) → notify_one asleep j s = Some s' → total s' ≤ total s + 2.
Proof.
  intros Hw [[-> _]|(k&t&Hk&Ht&->)]%notify_one_ok; [lia|]. pose proof (total_move s k t (woken t) (with_thread k (woken t) s) Hk eq_refl) as Hm. rewrite (Hw t Ht) in Hm. lia.
Qed.

Lemma settles_total s s' : settles s s' → total s' < total s.
Proof.
  intros [i j c' s1 Hr _]. unfold run_thread in Hr. destruct (threads s !! i) as [t|] eqn:Hi; [|done].
  assert (∀ t', threads s1 = <[i := t']> (threads s) → (weight t' <? weight t) = true → total s1 < total s) as Hm.
  { intros t' H1 Hw%Nat.ltb_lt. pose proof (total_move s i t t' s1 Hi H1). lia. }
  destruct t; simpl in Hr; try done.
  - destruct (conn_lock s); [done|]. injection Hr as <-. by eapply Hm.
  - destruct (allowed s); injection Hr as <-; by eapply Hm.
  - destruct (mutex s d); [done|]. injection Hr as <-. by eapply Hm.
  - destruct (connection s d) as [c|]; simpl in Hr; injection Hr as <-; by eapply Hm.
  - injection Hr as <-. by eapply Hm.
  - injection Hr as <-. by eapply Hm.
  - destruct (conn_lock s); [done|]. injection Hr as <-. by eapply Hm.
  - destruct (mutex s d); [done|]. injection Hr as <-. by eapply Hm.
  - injection Hr as <-. by eapply Hm.
  - destruct (notify_one _ _ _) as [s2|] eqn:Hn; [|done]. injection Hr as <-. apply notify_total in Hn; [|by intros []].
    pose proof (total_move s i _ (NotifyGlobal d) (with_thread i (NotifyGlobal d) s) Hi eq_refl) as H1. simpl in H1. lia.
  - destruct (notify_one _ _ _) as [s2|] eqn:Hn; [|done]. injection Hr as <-. apply notify_total in Hn; [|by intros []].
    pose proof (total_move s i _ Idle (with_thread i Idle (with_mutex d false s)) Hi eq_refl) as H1. simpl in H1. lia.
Qed.

Section progress.
Context (P : C → Prop) (some_use : ∀ c, ∃ c', uses c c') (c0 : C).
Context (s : state) (Hinv : inv P s).

Definition moves_on : Prop := ∃ s', settles s s'.

Lemma notify_possible (asleep : thread → bool) s1 : ∃ j s', notify_one asleep j s1 = Some s'.
Proof.
  destruct (existsb asleep (threads s1)) eqn:He.
  - apply existsb_exists in He as (t&(j&Hj)%list_elem_of_In%list_elem_of_lookup&Ht). exists (Some j). simpl. rewrite Hj. simpl. rewrite Ht. by eexists.
  - exists None, s1. simpl. by rewrite He.
Qed.

Lemma free_moves i t :
  threads s !! i = Some t →
  match t with
  | CheckGlobal _ | CheckInner _ | Leaving _ _ | Using _ _ | PutBack _ _ | NotifyInner _ | NotifyGlobal _ => True
  | WantGlobal _ | DropGlobal _ _ => conn_lock s = false
  | WantInner d | DropInner d _ => mutex s d = false
  | _ => False
  end → moves_on.
Proof.
  intros Hi Ht. unfold moves_on.
  assert (∀ j c' s', thread_step i j c' s t = ret (Some s') → used s i c' → ∃ s', settles s s') as Hm.
  { intros j c' s' Hs Hu. exists s'. apply (settles_run s i j c' s'); [|done]. unfold run_thread. by rewrite Hi. }
  destruct t as [|d|d|d|d|d|d|d c|d c|d c|d c|d c|d|d]; try done;
    try (eapply (Hm None c0); [simpl; by rewrite ?Ht|intros ? ? ?; congruence]).
  - destruct (connection s d) as [c|] eqn:Hc; (eapply (Hm None c0); [simpl; by rewrite Hc|intros ? ? ?; congruence]).
  - destruct (some_use c) as [c' Hc']. eapply (Hm None c'); [done|]. intros d' c1 H1. congruence.
  - destruct (notify_possible (asleep_inner d) (with_thread i (NotifyGlobal d) s)) as (j&s'&Hs').
    eapply (Hm j c0); [simpl; by rewrite Hs'|intros ? ? ?; congruence].
  - destruct (notify_possible asleep_global (with_thread i Idle (with_mutex d false s))) as (j&s'&Hs').
    eapply (Hm j c0); [simpl; by rewrite Hs'|intros ? ? ?; congruence].
Qed.

(** Whoever has the mutex of a database can go on, and so can who waits for it. *)
Lemma mutex_moves d : mutex s d = true → moves_on.
Proof.
  intros Hm. pose proof (inv_mutex _ _ (inv_base _ _ Hinv) d) as Hc. rewrite Hm in Hc. simpl in Hc.
  assert (0 < count_threads (holds_mutex d) (threads s)) as (i&t&Hi&Ht)%taken_count_pos by lia. apply (free_moves i t Hi). by destruct t.
Qed.

Lemma inner_moves i t d : threads s !! i = Some t → (t = WantInner d ∨ ∃ c, t = DropInner d c) → moves_on.
Proof.
  intros Hi Ht. destruct (mutex s d) eqn:Hm; [by eapply mutex_moves|]. apply (free_moves i t Hi). by destruct Ht as [->|[c ->]].
Qed.

Lemma lock_moves : conn_lock s = true → moves_on.
Proof.
  intros Hl. pose proof (inv_base _ _ Hinv) as Hb. pose proof (inv_lock _ _ Hb) as Hc. rewrite Hl in Hc. simpl in Hc.
  assert (0 < count_threads holds_lock (threads s)) as (i&t&Hi&Ht)%taken_count_pos by lia.
  destruct t as [| |d| |d|d|d|d c| | | | | |]; try done; try (by apply (free_moves i _ Hi)); [by apply (inner_moves i _ d Hi); left|].
  destruct (connection s d) as [c|] eqn:Hcd.
  - assert (0 < count_threads (will_notify d) (threads s)) as (k&t&Hk&Ht')%taken_count_pos.
    { apply (inv_wake_inner _ _ Hinv); [by eexists|]. apply taken_count_pos. exists i, (AsleepInner d). split; [done|by apply bool_decide_true]. }
    apply (free_moves k t Hk). by destruct t.
  - pose proof (inv_connection _ _ Hb d) as Hcc. rewrite Hcd in Hcc. simpl in Hcc.
    assert (0 < count_threads (carries d) (threads s)) as (k&t&Hk&Ht')%taken_count_pos by lia.
    destruct t as [| | | | | | |d' c|d' c|d' c|d' c|d' c| |]; try done; try (by apply (free_moves k _ Hk)).
    + pose proof (inv_turn _ _ Hb) as Htt. assert (i = k) as ->; [|congruence].
      eapply (count_unique has_turn); [|done|done|done|done]. lia.
    + apply (inner_moves k _ d' Hk). right. by eexists.
Qed.

Lemma anyone_moves i t : threads s !! i = Some t → t ≠ Idle → moves_on.
Proof.
  intros Hi Hn. destruct (conn_lock s) eqn:Hl; [by apply lock_moves|]. pose proof (inv_base _ _ Hinv) as Hb.
  destruct t as [|d|d|d|d|d|d|d c|d c|d c|d c|d c|d|d]; try done; try (by apply (free_moves i _ Hi));
    [|by apply (inner_moves i _ d Hi); left| |by apply (inner_moves i _ d Hi); right; eexists].
  - destruct (allowed s) eqn:Ha.
    + assert (0 < count_threads will_check (threads s)) as (k&t&Hk&Ht)%taken_count_pos.
      { apply (inv_wake_global _ _ Hinv Ha). apply taken_count_pos. by exists i, (AsleepGlobal d). }
      destruct t as [|d'|d'| | | | | | | |d' c|d' c|d'|d']; try done; try (by apply (free_moves k _ Hk)). apply (inner_moves k _ d' Hk). right. by eexists.
    + pose proof (inv_turn _ _ Hb) as Ht. rewrite Ha in Ht. simpl in Ht.
      assert (0 < count_threads has_turn (threads s)) as (k&t&Hk&Ht')%taken_count_pos by lia.
      destruct t as [| | | |d'|d'|d'|d' c|d' c|d' c| | | |]; try done; try (by apply (free_moves k _ Hk)); [by apply (inner_moves k _ d' Hk); left|].
      by rewrite (taken_lock P s k _ Hb Hk) in Hl.
  - by rewrite (taken_lock P s i _ Hb Hi) in Hl.
Qed.
End progress.
End guard.

(** C28: in every reachable state, whatever the interleaving and the spurious wakeups: no step
    of a thread panics; at most one thread of the process has a guard; and the connection of
    every database is in its place, or with exactly one thread on its way from or to a guard,
    so that none is lost or doubled.  What all uses keep true of a connection is true of it. *)
Theorem guard_exclusive {C} (uses : C → C → Prop) (P : C → Prop) n (c : nat → C) s :
  (∀ d, P (c d)) → (∀ x y, P x → uses x y → P y) → rtc (step uses) (start n c) s →
  (∀ i j c', used uses s i c' → run_thread i j c' s ≠ panic) ∧
  (∀ i j d d' x y, threads s !! i = Some (Using d x) → threads s !! j = Some (Using d' y) → i = j) ∧
  (∀ d, match connection s d with
     | Some x => P x ∧ ∀ i t, threads s !! i = Some t → carries d t = false
     | None => ∃ i t x, threads s !! i = Some t ∧ carries d t = true ∧ carried t = Some x ∧ P x ∧
         ∀ j t', threads s !! j = Some t' → carries d t' = true → j = i
     end).
Proof.
  intros Hc Hu Hr. pose proof (reachable_ok uses P Hu n c s Hc Hr) as Hinv. pose proof (inv_base _ _ Hinv) as Hb. split; [|split].
  - intros i j c' Hused. by destruct (run_ok uses P Hu s i j c' Hinv Hused) as (r&->&_).
  - intros i j d d' x y Hi Hj. pose proof (inv_turn _ _ Hb). apply (count_unique has_turn (threads s) i j (Using d x) (Using d' y)); [lia|done..].
  - intros d. pose proof (inv_connection _ _ Hb d) as Hcd. destruct (connection s d) as [x|] eqn:Hx; simpl in Hcd.
    + split; [by apply (inv_pooled _ _ Hb d)|]. intros i t Hi. destruct (carries d t) eqn:Ht; [|done].
      by rewrite (taken_connection P s i t d Hb Hi Ht) in Hx.
    + assert (0 < count_threads (carries d) (threads s)) as (i&t&Hi&Ht)%taken_count_pos by lia.
      assert (∃ x, carried t = Some x) as [x Hxt] by (destruct t; try done; by eexists).
      exists i, t, x. split; [done|]. split; [done|]. split; [done|]. split; [by apply (inv_carried _ _ Hb i t)|].
      intros j t' Hj Ht'. apply (count_unique (carries d) (threads s) j i t' t); [lia|done..].
Qed.

(** Every thread gets its connection and gives it back.  From a reachable state, without new
    requests and spurious wakeups, there are at most [total s] further steps, and they stop only
    when every thread is done, the flag is true and every connection is in its place: nobody is
    left asleep and there is no deadlock. *)
Theorem guard_progress {C} (uses : C → C → Prop) n (c : nat → C) s k s' :
  (∀ x, ∃ y, uses x y) → rtc (step uses) (start n c) s → nsteps (settles uses) k s s' →
  k ≤ total s ∧
  ((∃ s'', settles uses s' s'') ∨
   ((∀ i t, threads s' !! i = Some t → t = Idle) ∧ allowed s' = true ∧ ∀ d, is_Some (connection s' d))).
Proof.
  intros Hsome Hr Hk. assert (k + total s' ≤ total s) as Hle.
  { clear Hr. induction Hk as [|k s1 s2 s3 H1 _ IH]; [lia|]. apply settles_total in H1. lia. }
  split; [lia|]. assert (rtc (step uses) (start n c) s') as Hr'.
  { etrans; [done|]. clear -Hk. induction Hk as [|k s1 s2 s3 H1 _ IH]; [done|]. eapply rtc_l; [by apply step_settles|done]. }
  pose proof (reachable_ok uses (λ _, True) (λ _ _ _ _, I) n c s' (λ _, I) Hr') as Hinv. pose proof (inv_base _ _ Hinv) as Hb.
  destruct (decide (total s' = 0)) as [H0|H0].
  - right. assert (∀ i t, threads s' !! i = Some t → t = Idle) as Hidle.
    { intros i t Hi. pose proof (sum_insert weight _ _ _ Idle Hi) as Hs. unfold total in H0. rewrite H0 in Hs. simpl in Hs. destruct t; simpl in Hs; try lia. done. }
    split; [done|]. split.
    + pose proof (inv_turn _ _ Hb) as Ht. rewrite (count_none has_turn) in Ht by (intros i t ->%Hidle; done). by destruct (allowed s').
    + intros d. pose proof (inv_connection _ _ Hb d) as Ht. rewrite (count_none (carries d)) in Ht by (intros i t ->%Hidle; done).
      by destruct (connection s' d).
  - left. assert (∃ i t, threads s' !! i = Some t ∧ t ≠ Idle) as (i&t&Hi&Ht).
    { clear -H0. unfold total in H0. destruct s' as [? ? ? ? l]. simpl in *. induction l as [|t l IH]; [done|]. simpl in H0.
      destruct (decide (weight t = 0)) as [Hw|Hw]; [|exists 0, t; split; [done|by intros ->]].
      destruct IH as (i&t'&Hi&Ht); [lia|]. by exists (S i), t'. }
    apply (anyone_moves uses (λ _, True) Hsome (c 0) s' Hinv i t Hi Ht).
Qed.

(** One thread with the guard, the other asleep for it. *)
Abbreviation to_seven := (λ _ y : nat, y = 7).
Definition two_moves : list move := [Request 0 0] ++ replicate 5 (Run 0 None 7) ++ [Request 1 0] ++ replicate 2 (Run 1 None 7).

Lemma two_threads : ∃ s, rtc (step to_seven) (start 2 (λ _, 3)) s ∧ threads s = [Using 0 3; AsleepGlobal 0].
Proof.
  assert (∃ s, run_all two_moves (start 2 (λ _, 3)) = ret s ∧ threads s = [Using 0 3; AsleepGlobal 0]) as (s&Hr&Ht)
    by (eexists; split; vm_compute; reflexivity).
  exists s. split; [|done]. by apply (run_all_reaches to_seven two_moves); [repeat constructor|].
Qed.

(** The second thread gets the connection that the first gives back, with what the first left. *)
Example second_gets :
  (let! s := run_all (two_moves ++ replicate 5 (Run 0 None 7) ++ [Run 0 (Some 1) 7] ++ replicate 5 (Run 1 None 7)) (start 2 (λ _, 3)) in ret (threads s)) =
  ret [Idle; Using 0 7].
Proof. vm_compute. reflexivity. Qed.

Lemma guard_exclusive_witness : ∃ s : state,
  threads s = [Using 0 3; AsleepGlobal 0] ∧
  (∀ i j c', used to_seven s i c' → run_thread i j c' s ≠ panic) ∧
  (∀ i j d d' x y, threads s !! i = Some (Using d x) → threads s !! j = Some (Using d' y) → i = j) ∧
  (∀ d, match connection s d with
     | Some x => x ≤ 7 ∧ ∀ i t, threads s !! i = Some t → carries d t = false
     | None => ∃ i t x, threads s !! i = Some t ∧ carries d t = true ∧ carried t = Some x ∧ x ≤ 7 ∧
         ∀ j t', threads s !! j = Some t' → carries d t' = true → j = i
     end).
Proof.
  destruct two_threads as (s&Hr&Ht). exists s. split; [exact Ht|].
  apply (guard_exclusive to_seven (λ x, x ≤ 7) 2 (λ _, 3) s); [intros _; lia|intros x y _ ->; lia|exact Hr].
Defined.

Lemma guard_progress_witness : ∃ s : state,
  threads s = [Using 0 3; AsleepGlobal 0] ∧ 0 ≤ total s ∧
  ((∃ s'', settles to_seven s s'') ∨
   ((∀ i t, threads s !! i = Some t → t = Idle) ∧ allowed s = true ∧ ∀ d, is_Some (connection s d))).
Proof.
  destruct two_threads as (s&Hr&Ht). exists s. split; [exact Ht|].
  apply (guard_progress to_seven 2 (λ _, 3) s 0 s); [intros x; by exists 7|exact Hr|constructor].
Defined.

End SqliteGuard.
