(* ===== verification/SqlTransaction.v ===== *)
(** Transactions of SQLite (src/shed/sql/common/transaction.rs, and what the [queries!] macro of
    src/shed/sql/src/lib.rs expands to for them): starting one, queries in it, committing,
    rolling back, dropping it.

    The connection of rusqlite is a class with SQLite's documented behaviour; a transaction has
    the connection of the guard modelled in [SqlGuard], and each operation says which
    connection it gives back to the guard's database. *)
From stdpp Require Import strings.
From S2P Require Import Prelude RustStd SqlGuard.

(** [rusqlite::Connection]: what is stored, what the connection itself sees, whether it is in a
    transaction. *)
Class SqliteConnection (C Er D : Type) := {
  execute_batch : string → C → result () Er * C;
  in_transaction : C → bool;
  stored : C → D;
  view : C → D;
  execute_begin c :
    match execute_batch "BEGIN DEFERRED" c with
    | (Ok _, c') => in_transaction c = false ∧ in_transaction c' = true ∧ stored c' = stored c ∧ view c' = stored c
    | (Err _, c') => in_transaction c' = in_transaction c ∧ stored c' = stored c
    end;
  execute_commit c :
    match execute_batch "COMMIT" c with
    | (Ok _, c') => in_transaction c = true ∧ in_transaction c' = false ∧ stored c' = view c
    | (Err _, c') => stored c' = stored c
    end;
  execute_rollback c :
    match execute_batch "ROLLBACK" c with
    | (Ok _, c') => in_transaction c = true ∧ in_transaction c' = false ∧ stored c' = stored c
    | (Err _, c') => in_transaction c = false ∧ in_transaction c' = false ∧ stored c' = stored c
    end;
}.

Module Transaction.
Section transaction.
Context `{SC : SqliteConnection C Er D}.
Implicit Types (con c : C).

(** The variant for SQLite. *)
Inductive Transaction := Sqlite (con : option C).
Implicit Types (tx : Transaction).

(** [acquire_sqlite_connection]: a callback that fails keeps the guard from being taken. *)
Definition acquire_sqlite_connection (query_start : result () Er) c : result C Er :=
  match query_start with Err e => Err e | Ok _ => Ok c end.

(** Every operation also gives the connection back that it lets go. *)
Definition new (query_start : result () Er) c : result Transaction Er * option C :=
  match acquire_sqlite_connection query_start c with
  | Err e => (Err e, Some c)
  | Ok con =>
      match execute_batch "BEGIN DEFERRED" con with
      | (Err e, con) => (Err e, Some con)
      | (Ok _, con) => (Ok (Sqlite (Some con)), None)
      end
  end.

(** [Drop]; the flag says that it panics, which still drops the guard. *)
Definition drop_transaction tx : option C * bool :=
  match tx with
  | Sqlite None => (None, false)
  | Sqlite (Some con) =>
      match execute_batch "ROLLBACK" con with
      | (Ok _, con) => (Some con, false)
      | (Err _, con) => (Some con, true)
      end
  end.

(** [SqliteConnectionGuard::commit]. *)
Definition guard_commit con : result () (C * Er) * option C :=
  match execute_batch "COMMIT" con with
  | (Ok _, con) => (Ok (), Some con)
  | (Err e, con) => (Err (con, e), None)
  end.

(** The answer of [commit] and [rollback] is missing when the drop of [self] panics. *)
Definition commit tx : exec (option (result () Er) * option C) :=
  let '(Sqlite tr_con) := tx in
  let! con := expect tr_con in
  match guard_commit con with
  | (Ok _, released) => ret (Some (Ok ()), released)
  | (Err (con, e), _) =>
      let '(released, panicked) := drop_transaction (Sqlite (Some con)) in
      ret (if panicked then None else Some (Err e), released)
  end.

Definition rollback tx : option (result () Er) * option C :=
  let '(released, panicked) := drop_transaction tx in
  (if panicked then None else Some (Ok ()), released).

(** A query in a transaction takes the connection out of it; an error drops the guard. *)
Definition query_with_transaction {A} (query : C → result A Er * C) tx : exec (result (Transaction * A) Er * option C) :=
  let '(Sqlite tr_con) := tx in
  let! con := expect tr_con in
  ret (match query con with
       | (Ok a, con) => (Ok (Sqlite (Some con), a), None)
       | (Err e, con) => (Err e, Some con)
       end).

(** Writing no rows does not touch the connection. *)
Definition write_with_transaction {A} (values_empty : bool) (no_rows : A) (query : C → result A Er * C) tx : exec (result (Transaction * A) Er * option C) :=
  if values_empty then ret (Ok (tx, no_rows), None) else query_with_transaction query tx.

(** ** A transaction from start to end *)

Inductive ending := Commit | Rollback | Forget.
Abbreviation query := (C → result () Er * C).

Fixpoint run_queries (qs : list query) tx : exec (result Transaction Er * option C) :=
  match qs with
  | [] => ret (Ok tx, None)
  | q :: qs =>
      let! '(r, released) := query_with_transaction q tx in
      match r with
      | Err e => ret (Err e, released)
      | Ok (tx, _) => run_queries qs tx
      end
  end.

Definition run_transaction (query_start : result () Er) (qs : list query) (e : ending) c : exec (option (result () Er) * option C) :=
  match new query_start c with
  | (Err e, released) => ret (Some (Err e), released)
  | (Ok tx, _) =>
      let! '(r, released) := run_queries qs tx in
      match r with
      | Err e => ret (Some (Err e), released)
      | Ok tx =>
          match e with
          | Commit => commit tx
          | Rollback | Forget => ret (rollback tx)
          end
      end
  end.

(** The connection through the queries, up to the first that fails. *)
Fixpoint through (qs : list query) con : result C (Er * C) :=
  match qs with
  | [] => Ok con
  | q :: qs => match q con with (Ok _, con) => through qs con | (Err e, con) => Err (e, con) end
  end.

(** In a transaction a query changes nothing that is stored, and does not end the transaction
    unless it fails. *)
Definition query_ok (q : query) : Prop :=
  ∀ c, in_transaction c = true → stored (q c).2 = stored c ∧ (is_ok (q c).1 = true → in_transaction (q c).2 = true).

Lemma run_queries_through qs con :
  run_queries qs (Sqlite (Some con)) =
  ret (match through qs con with Ok con => (Ok (Sqlite (Some con)), None) | Err (e, con) => (Err e, Some con) end).
Proof.
  revert con. induction qs as [|q qs IH]; intros con; simpl; [done|]. destruct (q con) as [[[]|e] con1]; simpl; [apply IH|done].
Qed.

Lemma run_transaction_eq qs e c :
  run_transaction (Ok ()) qs e c =
  match execute_batch "BEGIN DEFERRED" c with
  | (Err er, c') => ret (Some (Err er), Some c')
  | (Ok _, c1) =>
      match through qs c1 with
      | Err (er, cf) => ret (Some (Err er), Some cf)
      | Ok cq => match e with Commit => commit (Sqlite (Some cq)) | _ => ret (rollback (Sqlite (Some cq))) end
      end
  end.
Proof.
  unfold run_transaction, new, acquire_sqlite_connection. destruct (execute_batch "BEGIN DEFERRED" c) as [[[]|er] c1]; [|done].
  rewrite run_queries_through. by destruct (through qs c1) as [cq|[er cf]]; [destruct e|].
Qed.

Lemma through_stored qs con :
  Forall query_ok qs → in_transaction con = true →
  match through qs con with
  | Ok con' => in_transaction con' = true ∧ stored con' = stored con
  | Err (_, con') => stored con' = stored con
  end.
Proof.
  intros Hq. revert con. induction Hq as [|q qs Hq _ IH]; intros con Hc; simpl; [done|]. specialize (Hq con Hc).
  destruct (q con) as [[[]|e] con1]; simpl in Hq; destruct Hq as [Hs Ho]; [|done]. specialize (IH con1 (Ho eq_refl)).
  destruct (through qs con1) as [con'|[e' con']]; simpl; [destruct IH; split; congruence|congruence].
Qed.

(** Dropping an open transaction gives its connection back, rolled back. *)
Lemma drop_open con :
  in_transaction con = true →
  ∃ c', drop_transaction (Sqlite (Some con)) = (Some c', false) ∧ in_transaction c' = false ∧ stored c' = stored con.
Proof.
  intros Hc. simpl. pose proof (execute_rollback con) as Hr. destruct (execute_batch "ROLLBACK" con) as [[[]|e] c']; [|destruct Hr; congruence].
  destruct Hr as (_&?&?). by eexists.
Qed.

Lemma drop_ended con :
  in_transaction con = false →
  ∃ c', drop_transaction (Sqlite (Some con)) = (Some c', true) ∧ in_transaction c' = false ∧ stored c' = stored con.
Proof.
  intros Hc. simpl. pose proof (execute_rollback con) as Hr. destruct (execute_batch "ROLLBACK" con) as [[[]|e] c']; [destruct Hr; congruence|].
  destruct Hr as (_&?&?). by eexists.
Qed.

Lemma commit_open con :
  in_transaction con = true →
  match execute_batch "COMMIT" con with
  | (Ok _, c') => commit (Sqlite (Some con)) = ret (Some (Ok ()), Some c') ∧ in_transaction c' = false ∧ stored c' = view con
  | (Err e, c1) => ∃ c', commit (Sqlite (Some con)) = ret (if in_transaction c1 then Some (Err e) else None, Some c') ∧
      in_transaction c' = false ∧ stored c' = stored con
  end.
Proof.
  intros Hc. pose proof (execute_commit con) as He. unfold commit. cbn [expect exec_bind]. unfold guard_commit.
  destruct (execute_batch "COMMIT" con) as [[[]|e] c1]; [by destruct He as (_&?&?)|].
  destruct (in_transaction c1) eqn:H1.
  - destruct (drop_open c1 H1) as (c'&->&Hi&Hs). exists c'. split; [done|]. split; [done|congruence].
  - destruct (drop_ended c1 H1) as (c'&->&Hi&Hs). exists c'. split; [done|]. split; [done|congruence].
Qed.

Lemma rollback_open con :
  in_transaction con = true →
  ∃ c', rollback (Sqlite (Some con)) = (Some (Ok ()), Some c') ∧ in_transaction c' = false ∧ stored c' = stored con.
Proof. intros Hc. unfold rollback. destruct (drop_open con Hc) as (c'&->&Hi&Hs). by exists c'. Qed.

(** On a connection left in a transaction every later transaction fails, and leaves it so. *)
Lemma stays_broken qs e c :
  in_transaction c = true →
  ∃ er c', run_transaction (Ok ()) qs e c = ret (Some (Err er), Some c') ∧ in_transaction c' = true ∧ stored c' = stored c.
Proof.
  intros Hc. rewrite run_transaction_eq. pose proof (execute_begin c) as Hb.
  destruct (execute_batch "BEGIN DEFERRED" c) as [[[]|er] c']; [destruct Hb; congruence|]. destruct Hb as [Hi Hs].
  exists er, c'. split; [done|]. by rewrite Hi.
Qed.


(** ** In the guard *)

(** What one use of the guard can do to the connection without a failing query in a transaction:
    a statement on its own, which leaves no transaction open, or a transaction. *)
Definition careful_use c c' : Prop :=
  in_transaction c' = in_transaction c ∨
  ∃ qs e a, Forall query_ok qs ∧ (∀ con, is_ok (through qs con) = true) ∧ run_transaction (Ok ()) qs e c = ret (a, Some c').

Lemma careful_use_clean c c' : in_transaction c = false → careful_use c c' → in_transaction c' = false.
Proof.
  intros Hc [->|(qs&e&a&Hq&Hok&Hr)]; [done|]. rewrite run_transaction_eq in Hr. pose proof (execute_begin c) as Hb.
  destruct (execute_batch "BEGIN DEFERRED" c) as [[[]|er] c1].
  2: { injection Hr as _ <-. destruct Hb; congruence. }
  destruct Hb as (_&Hi&_). pose proof (through_stored qs c1 Hq Hi) as Ht. specialize (Hok c1).
  destruct (through qs c1) as [cq|[er cf]]; [|done]. destruct Ht as [Hiq _].
  destruct (rollback_open cq Hiq) as (cr&Hcr&?&_). pose proof (commit_open cq Hiq) as Hco.
  destruct e; [|rewrite Hcr in Hr; by injection Hr as _ <-..].
  destruct (execute_batch "COMMIT" cq) as [[[]|er] c2]; [destruct Hco as (Hcc&?&_)|destruct Hco as (c3&Hcc&?&_)]; rewrite Hcc in Hr; by injection Hr as _ <-.
Qed.

(** With such uses no thread ever finds a connection in a transaction. *)
Lemma pool_clean n (c : nat → C) s :
  (∀ d, in_transaction (c d) = false) → rtc (SqliteGuard.step careful_use) (SqliteGuard.start n c) s →
  ∀ d x, SqliteGuard.connection s d = Some x → in_transaction x = false.
Proof.
  intros Hc Hr d x Hx.
  pose proof (SqliteGuard.reachable_ok careful_use (λ x, in_transaction x = false) careful_use_clean n c s Hc Hr) as Hinv.
  by apply (SqliteGuard.inv_pooled _ _ (SqliteGuard.inv_base _ _ Hinv) d).
Qed.
End transaction.

(** *** A database of one column: a commit of a 5 is refused, of a 13 it fails and rolls back *)

Section concrete.
Definition column : Type := list nat * option (list nat).

Definition column_execute (s : string) (c : column) : result () nat * column :=
  if String.eqb s "BEGIN DEFERRED" then match c.2 with None => (Ok (), (c.1, Some c.1)) | Some _ => (Err 1, c) end
  else if String.eqb s "COMMIT" then
    match c.2 with
    | None => (Err 1, c)
    | Some v => if bool_decide (5 ∈ v) then (Err 5, c) else if bool_decide (13 ∈ v) then (Err 13, (c.1, None)) else (Ok (), (v, None))
    end
  else match c.2 with Some _ => (Ok (), (c.1, None)) | None => (Err 1, c) end.

#[local] Instance column_connection : SqliteConnection column nat (list nat).
Proof.
  refine {| execute_batch := column_execute; in_transaction c := negb (is_none c.2); stored := fst; view c := default c.1 c.2 |}.
  - by intros [a [v|]].
  - intros [a [v|]]; cbn; [|done]. destruct (bool_decide (5 ∈ v)); [done|]. by destruct (bool_decide (13 ∈ v)).
  - by intros [a [v|]].
Defined.

(** Inserting a row; a 0 is refused. *)
Definition insert_row (x : nat) (c : column) : result () nat * column :=
  match x, c with
  | 0, _ => (Err 19, c)
  | _, (a, Some v) => (Ok (), (a, Some (v ++ [x])))
  | _, (a, None) => (Ok (), (a ++ [x], None))
  end.

Lemma insert_row_ok x : query_ok (insert_row x).
Proof. intros [a [v|]] Hc; [|done]. by destruct x. Qed.


(** Commits that fail: the one leaves the transaction to be rolled back, after the other the drop
    panics. *)
Example commits_fail :
  run_transaction (Ok ()) [insert_row 5] Commit ([7], None) = ret (Some (Err 5), Some ([7], None)) ∧
  run_transaction (Ok ()) [insert_row 13] Commit ([7], None) = ret (None, Some ([7], None)).
Proof. done. Qed.
End concrete.
End Transaction.
