(* ===== verification/SqlQuery.v ===== *)
(** The queries of [sql] (src/shed/sql/src/lib.rs): what the [queries!] macros make of a query
    written with named holes, for MySQL with the values in the text, and for SQLite as a
    prepared statement with bound parameters; the values on their way to and from SQLite; and
    the fields of result rows (src/shed/sql/mysql_client_traits/row_field.rs, to_sql.rs).

    A statement is kept as the pieces the code writes one after the other, so that the place of
    a value or a parameter in the text stays visible; the text is their concatenation.  How
    the mysql_common crate prints and converts its [Value]s is a parameter. *)
From stdpp Require Import strings.
From Stdlib Require Import Ascii String.
From S2P Require Import Prelude RustStd RustStr.

#[local] Open Scope string_scope.
#[local] Open Scope list_scope.

Module Query.
Section query.
Context {V : Type}.

(** The text of a query: literal, or a hole with its name, as for [format!]. *)
Inductive piece := Lit (s : string) | Hole (name : string).

(** What is written for it: text, a value printed for MySQL, or a parameter of SQLite. *)
Inductive token := Text (s : string) | Value (v : V) | Param (name : string).
Implicit Types (t : list piece) (toks : list token).

Definition render (as_sql : V → string) (x : token) : string := match x with Text s => s | Value v => as_sql v | Param n => n end.
Definition text (as_sql : V → string) toks : string := String.concat "" (render as_sql <$> toks).

(** [format!] with named arguments; every hole has one, or the code does not compile. *)
Fixpoint named (name : string) (args : list (string * list token)) : list token :=
  match args with [] => [] | (n, toks) :: args => if decide (n = name) then toks else named name args end.
Definition format (args : list (string * list token)) t : list token :=
  t ≫= λ p, match p with Lit s => [Text s] | Hole n => named n args end.

(** [stringify!($pname).trim_start_matches("r#")]. *)
Fixpoint trim_raw (s : string) : string :=
  match s with
  | String "r"%char (String "#"%char s') => trim_raw s'
  | _ => s
  end.

(** The loops that write a list: an opening parenthesis, the elements with commas in between. *)
Fixpoint commas (first : bool) (l : list (list token)) : list token :=
  match l with
  | [] => []
  | x :: l => (if first then [] else [Text ", "]) ++ x ++ commas false l
  end.
Definition in_parentheses (l : list (list token)) : list token := [Text "("] ++ commas true l ++ [Text ")"].

(** A query's plain and list parameters with their values, in the order of their declaration. *)
Implicit Types (params : list (string * V)) (lists : list (string * list V)).

Inductive qtype := Insert_or_ignore | None_.
Implicit Types (q : qtype).

(** ** MySQL *)

Definition mysql_word q : list (string * list token) := match q with Insert_or_ignore => [("insert_or_ignore", [Text "INSERT IGNORE"])] | None_ => [] end.
Definition mysql_params params : list (string * list token) := (λ p, (p.1, [Value p.2])) <$> params.
Definition emit_mysql_lnames lists : list (string * list token) := (λ l, (l.1, in_parentheses ((λ v, [Value v]) <$> l.2))) <$> lists.

Definition mysql_query q t params lists : list token := format (mysql_word q ++ mysql_params params ++ emit_mysql_lnames lists) t.

(** The rows of an insertion, one after the other. *)
Definition append_to_mysql_values (row : list V) : list token := commas true ((λ v, [Value v]) <$> row).
Definition mysql_rows (rows : list (list V)) : list token := commas true ((λ row, [Text "("] ++ append_to_mysql_values row ++ [Text ")"]) <$> rows).
Definition mysql_insert q t (rows : list (list V)) params : list token :=
  format (mysql_word q ++ [("values", mysql_rows rows)] ++ mysql_params params) t.

(** [AsSql] of an [SqlList], and [to_sql_string] of a tuple. *)
Definition sql_list (values : list V) : list token := in_parentheses ((λ v, [Value v]) <$> values).

(** ** SQLite *)

Definition param_name (p : string) : string := ":" +:+ trim_raw p.
Definition element_name (l : string) (idx : nat) : string := ":" +:+ l +:+ to_string (Z.of_nat idx).

Definition sqlite_word q : list (string * list token) := match q with Insert_or_ignore => [("insert_or_ignore", [Text "INSERT OR IGNORE"])] | None_ => [] end.
Definition sqlite_holes params : list (string * list token) := (λ p, (p.1, [Param (param_name p.1)])) <$> params.
Definition emit_sqlite_lnames lists : list (string * list token) :=
  (λ l, (l.1, in_parentheses ((λ idx, [Param (element_name l.1 idx)]) <$> seq 0 (length l.2)))) <$> lists.

Definition sqlite_statement q t params lists : list token := format (sqlite_word q ++ sqlite_holes params ++ emit_sqlite_lnames lists) t.

(** [_prepare_sqlite_params]: names and values to bind. *)
Definition prepare_sqlite_params params lists : list (string * V) :=
  ((λ p, (param_name p.1, p.2)) <$> params) ++ (lists ≫= λ l, imap (λ idx v, (element_name l.1 idx, v)) l.2).

(** An insertion is prepared for one row and executed for every row. *)
Definition sqlite_insert q t (columns : list string) params : list token :=
  format (sqlite_word q ++ [("values", in_parentheses ((λ c, [Param (param_name c)]) <$> columns))] ++ sqlite_holes params) t.
Definition sqlite_named_params (columns : list string) (row : list V) params : list (string * V) :=
  (zip (param_name <$> columns) row) ++ ((λ p, (param_name p.1, p.2)) <$> params).

(** Binding, as rusqlite does it: in order, so that the last value given for a name counts. *)
Definition bound (given : list (string * V)) (name : string) : option V :=
  foldl (λ acc p, if decide (p.1 = name) then Some p.2 else acc) None given.
Definition bind_token (given : list (string * V)) (x : token) : option token :=
  match x with Param n => v ← bound given n; Some (Value v) | x => Some x end.
Definition bind (given : list (string * V)) toks : option (list token) := mapM (bind_token given) toks.

(** Executing the statement for the rows, up to the first that fails. *)
Context {Db Er : Type}.
Fixpoint exec_rows (execute : list V → Db → result nat Er * Db) (rows : list (list V)) (db : Db) (res : list nat) : result (list nat) Er * Db :=
  match rows with
  | [] => (Ok res, db)
  | row :: rows =>
      match execute row db with
      | (Err e, db) => (Err e, db)
      | (Ok n, db) => exec_rows execute rows db (res ++ [n])
      end
  end.

(** ** Binding gives the statement its values *)

Lemma bound_skip given n o : n ∉ given.*1 → foldl (λ acc (p : string * V), if decide (p.1 = n) then Some p.2 else acc) o given = o.
Proof.
  revert o. induction given as [|[m v] given IH]; intros o Hn; simpl in *; [done|]. rewrite not_elem_of_cons in Hn. destruct Hn as [Hm Hn].
  rewrite decide_False by done. by apply IH.
Qed.

Lemma bound_elem given n v : NoDup given.*1 → (n, v) ∈ given → bound given n = Some v.
Proof.
  unfold bound. generalize (@None V). induction given as [|[m w] given IH]; intros o Hd Hin; [by apply not_elem_of_nil in Hin|].
  simpl in *. apply NoDup_cons in Hd as [Hm Hd]. apply elem_of_cons in Hin as [[= -> ->]|Hin].
  - rewrite decide_True by done. by apply bound_skip.
  - by apply IH.
Qed.

Lemma bind_app given toks toks' :
  bind given (toks ++ toks') = x ← bind given toks; y ← bind given toks'; Some (x ++ y).
Proof.
  unfold bind. induction toks as [|x toks IH]; simpl; [by destruct (mapM _ toks')|]. rewrite IH.
  destruct (bind_token given x); simpl; [|done]. destruct (mapM _ toks); simpl; [|done]. by destruct (mapM _ toks').
Qed.

(** Writing lists and filling holes commutes with binding. *)
Lemma bind_commas given first l l' :
  Forall2 (λ x y, bind given x = Some y) l l' → bind given (commas first l) = Some (commas first l').
Proof.
  intros Hl. revert first. induction Hl as [|x y l l' Hx _ IH]; intros first; simpl; [done|].
  rewrite !bind_app, IH, Hx. by destruct first.
Qed.

Lemma bind_parentheses given l l' :
  Forall2 (λ x y, bind given x = Some y) l l' → bind given (in_parentheses l) = Some (in_parentheses l').
Proof. intros Hl. unfold in_parentheses. by rewrite !bind_app, (bind_commas given true l l' Hl). Qed.

Lemma bind_named given args args' n :
  Forall2 (λ a b, a.1 = b.1 ∧ bind given a.2 = Some b.2) args args' → bind given (named n args) = Some (named n args').
Proof.
  induction 1 as [|[a x] [b y] args args' [Hn Hx] _ IH]; simpl in *; [done|]. subst. by destruct (decide (b = n)).
Qed.

Lemma bind_format given args args' t :
  Forall2 (λ a b, a.1 = b.1 ∧ bind given a.2 = Some b.2) args args' → bind given (format args t) = Some (format args' t).
Proof.
  intros Ha. induction t as [|p t IH]; simpl; [done|]. unfold format in *. simpl. rewrite bind_app, IH.
  destruct p as [s|n]; simpl; [done|]. by rewrite (bind_named given args args' n Ha).
Qed.

(** A statement with the word for an insertion that [word] writes, and the values in place. *)
Definition with_values (word : list (string * list token)) t params lists : list token :=
  format (word ++ mysql_params params ++ emit_mysql_lnames lists) t.

Lemma bind_word given q : Forall2 (λ a b : string * list token, a.1 = b.1 ∧ bind given a.2 = Some b.2) (sqlite_word q) (sqlite_word q).
Proof. destruct q; by repeat constructor. Qed.

Lemma bind_params given params :
  (∀ p, p ∈ params → bound given (param_name p.1) = Some p.2) →
  Forall2 (λ a b : string * list token, a.1 = b.1 ∧ bind given a.2 = Some b.2) (sqlite_holes params) (mysql_params params).
Proof.
  intros Hb. unfold sqlite_holes, mysql_params. apply Forall2_fmap_2, Forall_Forall2_diag, Forall_forall. intros p Hp. simpl.
  split; [done|]. unfold bind. simpl. by rewrite (Hb p Hp).
Qed.

(** The two back ends run the same query.  When no two of the names that the macro makes for
    parameters and list elements are equal, the parameters bound to the statement prepared for
    SQLite put every value where the query for MySQL has it, and all else is the same text but
    for the words of an insertion; and likewise each row of an insertion. *)
Theorem same_query q t params lists :
  NoDup (prepare_sqlite_params params lists).*1 →
  bind (prepare_sqlite_params params lists) (sqlite_statement q t params lists) = Some (with_values (sqlite_word q) t params lists) ∧
  mysql_query q t params lists = with_values (mysql_word q) t params lists ∧
  (∀ columns row, length columns = length row → NoDup (sqlite_named_params columns row params).*1 →
     bind (sqlite_named_params columns row params) (sqlite_insert q t columns params) =
     Some (format (sqlite_word q ++ [("values", mysql_rows [row])] ++ mysql_params params) t)).
Proof.
  intros Hd. split; [|split; [done|]].
  - apply bind_format. apply Forall2_app; [apply bind_word|]. apply Forall2_app.
    + apply bind_params. intros p Hp. apply bound_elem; [done|]. apply elem_of_app. left. apply list_elem_of_fmap. by exists p.
    + unfold emit_sqlite_lnames, emit_mysql_lnames. apply Forall2_fmap_2, Forall_Forall2_diag, Forall_forall. intros l Hl. simpl. split; [done|].
      apply bind_parentheses. apply Forall2_fmap_2, Forall2_same_length_lookup_2; [by rewrite length_seq|].
      intros i idx v [-> _]%lookup_seq Hv. unfold bind. simpl. rewrite (bound_elem _ (element_name l.1 i) v Hd); [done|].
      apply elem_of_app. right. apply list_elem_of_bind. exists l. split; [|done]. apply list_elem_of_lookup. exists i. by rewrite list_lookup_imap, Hv.
  - intros columns row Hlen Hd'. apply bind_format. apply Forall2_app; [apply bind_word|]. apply Forall2_app.
    + constructor; [|constructor]. simpl. split; [done|]. unfold mysql_rows. simpl. rewrite app_nil_r.
      apply bind_parentheses. apply Forall2_fmap_2, Forall2_same_length_lookup_2; [done|].
      intros i c v Hc Hv. unfold bind. simpl. rewrite (bound_elem _ (param_name c) v Hd'); [done|].
      apply elem_of_app. left. apply list_elem_of_lookup. exists i. apply lookup_zip_Some. rewrite list_lookup_fmap, Hc. done.
    + apply bind_params. intros p Hp. apply bound_elem; [done|]. apply elem_of_app. right. apply list_elem_of_fmap. by exists p.
Qed.
End query.
Arguments token : clear implicits.

(** The same query on both back ends, for an insertion and a list. *)
Lemma same_query_witness :
  let t := [Hole "insert_or_ignore"; Lit " INTO t SELECT "; Hole "r#type"; Lit " WHERE x IN "; Hole "ids"] in
  let params := [("r#type", 5)] in
  let lists := [("ids", [8; 9])] in
  text (λ n, to_string (Z.of_nat n)) (sqlite_statement Insert_or_ignore t params lists) = "INSERT OR IGNORE INTO t SELECT :type WHERE x IN (:ids0, :ids1)" ∧
  text (λ n, to_string (Z.of_nat n)) (mysql_query Insert_or_ignore t params lists) = "INSERT IGNORE INTO t SELECT 5 WHERE x IN (8, 9)" ∧
  bind (prepare_sqlite_params params lists) (sqlite_statement Insert_or_ignore t params lists) =
    Some (with_values (sqlite_word Insert_or_ignore) t params lists) ∧
  mysql_query Insert_or_ignore t params lists = with_values (mysql_word Insert_or_ignore) t params lists ∧
  (∀ columns row, length columns = length row → NoDup (sqlite_named_params columns row params).*1 →
     bind (sqlite_named_params columns row params) (sqlite_insert Insert_or_ignore t columns params) =
     Some (format (sqlite_word Insert_or_ignore ++ [("values", mysql_rows [row])] ++ mysql_params params) t)).
Proof.
  split; [reflexivity|]. split; [reflexivity|]. apply same_query.
  apply (bool_decide_unpack _). vm_compute. exact I.
Defined.

(** Names can collide: the second element of a list [x] has the name of a parameter [x1], and is
    bound in its place. *)
Lemma names_collide :
  let t := [Lit "SELECT "; Hole "x1"; Lit " IN "; Hole "x"] in
  bind (prepare_sqlite_params [("x1", 7)] [("x", [1; 2])]) (sqlite_statement None_ t [("x1", 7)] [("x", [1; 2])]) =
    Some [Text "SELECT "; Value 2; Text " IN "; Text "("; Value 1; Text ", "; Value 2; Text ")"] ∧
  mysql_query None_ t [("x1", 7)] [("x", [1; 2])] =
    [Text "SELECT "; Value 7; Text " IN "; Text "("; Value 1; Text ", "; Value 2; Text ")"].
Proof. done. Qed.

(** The rows before one that fails have been executed, and stay so outside a transaction. *)
Lemma exec_rows_prefix {V Db Er} (execute : list V → Db → result nat Er * Db) rows1 row rows2 db db1 db2 res ns e :
  exec_rows execute rows1 db res = (Ok ns, db1) → execute row db1 = (Err e, db2) →
  exec_rows execute (rows1 ++ row :: rows2) db res = (Err e, db2).
Proof.
  revert db res. induction rows1 as [|r rows1 IH]; intros db res; simpl; [by intros [= <- <-] ->|].
  destruct (execute r db) as [[n|e'] db']; [|done]. by apply IH.
Qed.
End Query.

(** * Values through SQLite *)

#[local] Abbreviation byte := Byte.byte.

Module Values.
Section values.
Context {F32 F64 : Type} (f64_from : F32 → F64).

(** [mysql_async::Value] and [rusqlite::types::Value]. *)
Inductive Value :=
| NULL | Bytes (b : list byte) | Int (i : Z) | UInt (u : Z) | Float (f : F32) | Double (f : F64)
| Date (year month day hour min sec micro : Z)
| Time (negative : bool) (days hours minutes seconds micros : Z).
Inductive SqliteValue := SqNull | SqInteger (i : Z) | SqReal (f : F64) | SqText (s : list byte) | SqBlob (b : list byte).

(** [{z:0width$}]. *)
Fixpoint zeros (n : nat) (s : string) : string := match n with 0%nat => s | S n => String "0" (zeros n s) end.
Definition zero_padded (width : nat) (z : Z) : string := let s := to_string z in zeros (width - String.length s) s.

Definition date_text (year month day hour min sec micro : Z) : string :=
  zero_padded 4 year +:+ "-" +:+ zero_padded 2 month +:+ "-" +:+ zero_padded 2 day +:+ " " +:+
  zero_padded 2 hour +:+ ":" +:+ zero_padded 2 min +:+ ":" +:+ zero_padded 2 sec +:+ "." +:+ zero_padded 6 micro.

Definition to_sql (v : Value) : exec SqliteValue :=
  match v with
  | NULL => ret SqNull
  | Bytes b => ret (SqBlob b)
  | Int i => ret (SqInteger i)
  | UInt u => ret (SqInteger (cast I64 u))
  | Float f => ret (SqReal (f64_from f))
  | Double f => ret (SqReal f)
  | Date year month day hour min sec micro => ret (SqText (list_byte_of_string (date_text year month day hour min sec micro)))
  | Time _ _ _ _ _ _ => panic
  end.

Definition column_result (v : SqliteValue) : Value :=
  match v with SqNull => NULL | SqInteger i => Int i | SqReal f => Double f | SqText s => Bytes s | SqBlob b => Bytes b end.

(** What comes back of a value that was stored: a signed integer for an unsigned one, a double
    for a float, the text of a date. *)
Lemma value_through_sqlite v :
  match v with
  | Time _ _ _ _ _ _ => to_sql v = panic
  | _ => ∃ s, to_sql v = ret s ∧ column_result s =
      match v with
      | UInt u => Int (cast I64 u)
      | Float f => Double (f64_from f)
      | Date year month day hour min sec micro => Bytes (list_byte_of_string (date_text year month day hour min sec micro))
      | v => v
      end
  end.
Proof. destruct v; by try eexists. Qed.

(** An unsigned integer comes back as the same number exactly up to [i64::MAX], and as a negative
    one above. *)
Lemma unsigned_through_sqlite u :
  in_type U64 u → (cast I64 u = u ↔ (u ≤ int_max I64)%Z) ∧ ((int_max I64 < u)%Z → (cast I64 u < 0)%Z).
Proof.
  intros Hu. split; [split|].
  - intros He. pose proof (cast_in_type I64 u) as Hc. rewrite He in Hc. apply Hc.
  - intros Hl. apply cast_id. unfold in_type in *. change (int_min U64) with 0%Z in Hu. change (int_min I64) with (- 2 ^ 63)%Z. lia.
  - unfold in_type, cast in *. change (int_max U64) with (2 ^ 64 - 1)%Z in Hu. change (int_max I64) with (2 ^ 63 - 1)%Z.
    change (int_min I64) with (- 2 ^ 63)%Z. change (width I64) with 64%Z. intros Hl.
    assert ((u - - 2 ^ 63) mod 2 ^ 64 = u - 2 ^ 63)%Z as ->; [|lia]. symmetry. apply (Z.mod_unique _ _ 1); [left|]; lia.
Qed.
End values.
Arguments Value : clear implicits.
End Values.

(** * Fields of result rows *)

Module RowField.
Section fields.
Context {F32 F64 : Type}.
Import Values.

Inductive RowField := RBytes (b : list byte) | RDouble (f : F64) | RI64 (i : Z) | RU64 (u : Z) | RNull.
Inductive ValueError : Type := value_error.
Abbreviation answer A := (result (option A) ValueError).

(** [OptionalTryFromRowField] of the types, [TryFromRowField] of a type and of its [Option]. *)
Definition try_from_opt_int (t : int_type) (field : RowField) : answer Z :=
  let convert v := if (int_min t <=? v)%Z && (v <=? int_max t)%Z then Ok (Some v) else Err value_error in
  match field with
  | RI64 value | RU64 value => convert value
  | RDouble _ | RBytes _ => Err value_error
  | RNull => Ok None
  end.
Definition try_from_opt_f64 (field : RowField) : answer F64 :=
  match field with RDouble value => Ok (Some value) | RNull => Ok None | _ => Err value_error end.
Definition try_from_opt_bytes (field : RowField) : answer (list byte) :=
  match field with RBytes value => Ok (Some value) | RNull => Ok None | _ => Err value_error end.
Definition try_from_opt_array (n : nat) (field : RowField) : answer (list byte) :=
  match field with
  | RBytes value => if Nat.eqb (length value) n then Ok (Some value) else Err value_error
  | RNull => Ok None
  | _ => Err value_error
  end.

Definition try_from {A} (try_from_opt : RowField → answer A) (field : RowField) : result A ValueError :=
  match try_from_opt field with Ok (Some a) => Ok a | Ok None => Err value_error | Err e => Err e end.
Definition try_from_option {A} (try_from_opt : RowField → answer A) (field : RowField) : answer A := try_from_opt field.

Context (from_utf8_lossy : list byte → string).
Definition try_from_opt_string (field : RowField) : answer string :=
  match try_from_option try_from_opt_bytes field with
  | Ok bytes => Ok (from_utf8_lossy <$> bytes)
  | Err e => Err e
  end.

Definition into_value (field : RowField) : Value F32 F64 :=
  match field with RBytes b => Bytes b | RDouble f => Double f | RI64 i => Int i | RU64 u => UInt u | RNull => NULL end.

(** [mysql_common]'s conversion to an [Option<bool>]: of the integers 0 and 1 that are signed. *)
Context (opt_bool_from_value : Value F32 F64 → option (option bool)).
Definition opt_try_from_rowfield (field : RowField) : answer bool :=
  match opt_bool_from_value (into_value field) with Some b => Ok b | None => Err value_error end.
Definition try_from_opt_bool (field : RowField) : answer bool :=
  match field with
  | RU64 0 => Ok (Some false)
  | RU64 1 => Ok (Some true)
  | _ => opt_try_from_rowfield field
  end.

(** An integer type takes exactly the integers it has, of either sign of field; a null is the
    absent value for an [Option] and an error else. *)
Lemma int_field_ok t field v :
  try_from (try_from_opt_int t) field = Ok v ↔ (field = RI64 v ∨ field = RU64 v) ∧ in_type t v.
Proof.
  unfold try_from, try_from_opt_int, in_type. assert (∀ u, (int_min t <=? u)%Z && (u <=? int_max t)%Z = true ↔ (int_min t ≤ u ≤ int_max t)%Z) as Hin.
  { intros u. by rewrite andb_true_iff, !Z.leb_le. }
  destruct field as [b|f|i|u|]; try (split; [done|by intros [[?|?] ?]]).
  - destruct (_ && _) eqn:Hb; [apply Hin in Hb|]; split; [intros [= <-]; auto|intros [[[= ->]|?] ?]; done|done|].
    intros [[[= ->]|?] Hv]; [|done]. apply Hin in Hv. congruence.
  - destruct (_ && _) eqn:Hb; [apply Hin in Hb|]; split; [intros [= <-]; auto|intros [[?|[= ->]] ?]; done|done|].
    intros [[?|[= ->]] Hv]; [done|]. apply Hin in Hv. congruence.
Qed.

Lemma null_field {A} (try_from_opt : RowField → answer A) : try_from_opt RNull = Ok None →
  try_from try_from_opt RNull = Err value_error ∧ try_from_option try_from_opt RNull = Ok None.
Proof. intros Hn. unfold try_from, try_from_option. by rewrite Hn. Qed.

(** A [bool] takes 0 and 1 of either sign of field, if the conversion takes them signed. *)
Lemma bool_field (b : bool) :
  opt_bool_from_value (Int (Z.b2z b)) = Some (Some b) →
  try_from try_from_opt_bool (RI64 (Z.b2z b)) = Ok b ∧ try_from try_from_opt_bool (RU64 (Z.b2z b)) = Ok b.
Proof. intros Hb. unfold try_from, try_from_opt_bool, opt_try_from_rowfield, into_value. by destruct b; rewrite Hb. Qed.
End fields.
End RowField.
