(* ===== verification/FacetMacro.v ===== *)
(** The macro of [facet::factory] (src/shed/facet/proc_macros/factory_impl.rs, util.rs): reading the
    methods of a factory, refusing cyclic dependencies, and generating the builder, with the
    facets in the order in which an asynchronous builder defines their futures.

    The syntax trees of the syn crate are inductive types with the cases that the code tells
    apart; generated code is data, whose meaning is in [FacetSync] and [FacetAsync].  Names
    stand for their [Ident]s, without the place in the source they carry; errors keep their
    kind.  The type of a facet, by which rustc selects the generated implementation, is unique
    to it (rustc refuses two implementations), so that a facet is known by its name. *)
From S2P Require Import Prelude RustStd RustStr.
From stdpp Require Import relations.
From Stdlib Require Import Ascii.

(** * Finite graphs without cycles

    [height R n x]: no walk from [x] along [R] has [n] steps. *)

Section heights.
Context {A : Type} (R : relation A).

Inductive height : nat → A → Prop :=
| height_step n x : (∀ y, R x y → height n y) → height (S n) x.

Lemma height_inv n x y : height (S n) x → R x y → height n y.
Proof. intros H. inversion H; subst. auto. Qed.

Lemma height_pos n x : height n x → 0 < n.
Proof. destruct 1; lia. Qed.

Lemma height_le n m x : height n x → n ≤ m → height m x.
Proof.
  revert n x. induction m as [|m IH]; intros n x H Hn; destruct H as [n x H]; [lia|].
  constructor. intros y Hy. apply (IH n); [auto|lia].
Qed.

Lemma height_rtc n x y : height n x → rtc R x y → height n y.
Proof.
  intros H Hr. revert H. induction Hr as [|x y z Hxy _ IH]; [done|]. intros H. apply IH.
  destruct H as [n x H]. by eapply height_le; [apply H|lia].
Qed.

Lemma height_irrefl n x : height n x → ¬ tc R x x.
Proof.
  intros H. induction H as [n x _ IH]. intros Hx. inversion Hx as [? ? Hxx|? z ? Hxz Hzx]; subst.
  - by apply (IH x).
  - apply (IH z Hxz). by eapply tc_r.
Qed.

(** Without cycles the number of nodes that lead somewhere bounds the heights. *)
Lemma acyclic_height `{Countable A} (X : gset A) x :
  (∀ y, rtc R x y → ¬ tc R y y) → (∀ y z, rtc R x y → R y z → y ∈ X) → height (S (size X)) x.
Proof.
  remember (size X) as n eqn:Hn. revert X x Hn. induction n as [|n IH]; intros X x Hn Hc HX.
  - constructor. intros y Hy. exfalso.
    assert (x ∈ X) as Hx by (eapply HX; [done|done]). apply symmetry, size_empty_inv in Hn. set_solver.
  - constructor. intros y Hy. assert (x ∈ X) as Hx by (by eapply HX; [done|]).
    apply (IH (X ∖ {[x]})).
    + rewrite size_difference by set_solver. rewrite size_singleton. lia.
    + intros z Hz. apply Hc. by eapply rtc_l.
    + intros z z' Hz Hz'. apply elem_of_difference. split; [eapply HX; [by eapply rtc_l|done]|].
      intros ->%elem_of_singleton. apply (Hc x); [done|]. by eapply tc_rtc_r; [apply tc_once, Hy|].
Qed.
End heights.

Module FacetMacro.
#[local] Abbreviation length := List.length.

(** * Syntax *)

Inductive Ty :=
| TypePath (segments : list (string * PathArguments))
| TypeReference (elem : Ty)
| TypeOther
with PathArguments :=
| ArgsNone
| AngleBracketed (args : list GenericArgument)
| Parenthesized
with GenericArgument :=
| GenericType (ty : Ty)
| GenericOther.

Inductive Pat := PatIdent (ident : string) | PatOther.
Inductive FnArg := Receiver | Typed (pat : Pat) (ty : Ty).

Record Signature := {
  asyncness : bool;
  ident : string;
  inputs : list FnArg;
  output : option Ty;
}.

Inductive ImplItem := ItemFn (sig : Signature) | ItemOther.
Record ItemImpl := { self_ty : Ty; items : list ImplItem }.

(** * Data of the macro *)

Inductive Asyncness := Synchronous | Asynchronous.
Inductive Fallibility := Infallible | Fallible.
Inductive FactoryParam := Param (ident : string) | Facet (ident : string).

Record Params := { param_idents : list string; param_types : list Ty }.
Record Facets := {
  facet_idents : list string;
  facet_types : list Ty;
  facet_fallibilities : list Fallibility;
  facet_asyncnesses : list Asyncness;
  facet_params : list (list FactoryParam);
}.

Inductive Error :=
| ExpectedIdentType
| ReceiversNotSupported
| InvalidReturnType
| MustTakeReference
| NotLocalConcreteType
| UnrecognisedFacetName (ident : string)
| CyclicDependency (top : string) (route : list string).

#[export] Instance factory_param_eq_dec : EqDecision FactoryParam.
Proof. solve_decision. Defined.
#[export] Instance asyncness_eq_dec : EqDecision Asyncness.
Proof. solve_decision. Defined.

(** The code of a builder. *)
Inductive CallParam := CallFacet (ident : string) | CallSelfParam (ident : string).

(** [impl Builder<..> for ..Builder]: the facets made with [self.build()?], the arguments of the
    factory's method, and whether its error is mapped. *)
Record BuilderImpl := {
  bi_facet : string;
  make_facets : list string;
  bi_call_params : list CallParam;
  bi_map_err : bool;
}.

(** [impl AsyncBuilderFor<..> for ..Builder]: the facets that [need] marks too. *)
Record AsyncBuilderForImpl := { abi_facet : string; mark_facets_needed : list string }.

(** [let facet = async { .. }.shared();] *)
Record FacetFuture := {
  ff_facet : string;
  dependent_facets : list string;
  ff_call_params : list CallParam;
  ff_await : bool;
  ff_map_err : bool;
}.

Inductive BuilderCode :=
| SyncBuilder (impls : list BuilderImpl)
| AsyncBuilder (impls : list AsyncBuilderForImpl) (build_facets : list FacetFuture) (store_facets : list string).

(** * util.rs *)

Definition is_async (a : Asyncness) : bool := match a with Asynchronous => true | Synchronous => false end.
Definition asyncness_from (async_token : bool) : Asyncness := if async_token then Asynchronous else Synchronous.
Definition asyncness_any (l : list Asyncness) : Asyncness := if existsb is_async l then Asynchronous else Synchronous.
Definition is_fallible (f : Fallibility) : bool := match f with Fallible => true | Infallible => false end.

(** [iter.collect::<BTreeMap<_, _>>()]: of two values of a key the later one. *)
Definition collect_map {V} (l : list (string * V)) : gmap string V := list_to_map (reverse l).

(** * Reading the factory *)

Section extract.
(** [Ident::new] refuses what is not an identifier with a panic. *)
Context (is_ident : string → bool).

Definition ident_new (s : string) : exec string := if is_ident s then ret s else panic.

Definition strip_leading_underscore (i : string) : exec string :=
  match i with String "_"%char stripped => ident_new stripped | _ => ret i end.

Definition factory_param_parse (params : Params) (pat : Pat) (ty : Ty) : exec (result FactoryParam Error) :=
  match pat with
  | PatOther => ret (Err ExpectedIdentType)
  | PatIdent i =>
      let! i := strip_leading_underscore i in
      match ty with
      | TypeReference _ => ret (Ok (if bool_decide (i ∈ param_idents params) then Param i else Facet i))
      | _ => ret (Err MustTakeReference)
      end
  end.

Fixpoint extract_facet_params (params : Params) (inputs : list FnArg) : exec (result (list FactoryParam) Error) :=
  match inputs with
  | [] => ret (Ok [])
  | Receiver :: inputs => extract_facet_params params inputs
  | Typed pat ty :: inputs =>
      let! p := factory_param_parse params pat ty in
      match p with
      | Err e => ret (Err e)
      | Ok p =>
          let! rest := extract_facet_params params inputs in
          ret (match rest with Ok ps => Ok (p :: ps) | Err e => Err e end)
      end
  end.

Definition extract_facet_return_type (output : option Ty) : result (Ty * Fallibility) Error :=
  match output with
  | Some (TypePath segments) =>
      match last segments with
      | Some (_, ArgsNone) => Ok (TypePath segments, Infallible)
      | Some (_, AngleBracketed (GenericType first_ty :: _)) => Ok (first_ty, Fallible)
      | _ => Err InvalidReturnType
      end
  | _ => Err InvalidReturnType
  end.

Definition push_facet (fs : Facets) (i : string) (ty : Ty) (f : Fallibility) (a : Asyncness) (ps : list FactoryParam)
  : Facets :=
  {| facet_idents := facet_idents fs ++ [i]; facet_types := facet_types fs ++ [ty];
     facet_fallibilities := facet_fallibilities fs ++ [f]; facet_asyncnesses := facet_asyncnesses fs ++ [a];
     facet_params := facet_params fs ++ [ps] |}.

Fixpoint extract_items (params : Params) (its : list ImplItem) (fs : Facets) : exec (result Facets Error) :=
  match its with
  | [] => ret (Ok fs)
  | ItemOther :: its => extract_items params its fs
  | ItemFn sig :: its =>
      let! ps := extract_facet_params params (inputs sig) in
      match ps with
      | Err e => ret (Err e)
      | Ok ps =>
          match extract_facet_return_type (output sig) with
          | Err e => ret (Err e)
          | Ok (ty, f) =>
              extract_items params its (push_facet fs (ident sig) ty f (asyncness_from (asyncness sig)) ps)
          end
      end
  end.

Definition extract_from_impl (params : Params) (factory : ItemImpl) : exec (result Facets Error) :=
  extract_items params (items factory) (Build_Facets [] [] [] [] []).

(** [impl Parse for Params]: the arguments of the attribute. *)
Fixpoint params_parse (args : list FnArg) (acc : Params) : result Params Error :=
  match args with
  | [] => Ok acc
  | Typed (PatIdent i) ty :: args =>
      params_parse args {| param_idents := param_idents acc ++ [i]; param_types := param_types acc ++ [ty] |}
  | Typed PatOther _ :: _ => Err ExpectedIdentType
  | Receiver :: _ => Err ReceiversNotSupported
  end.

(** [type_path.path.get_ident()]: a path of one segment without arguments. *)
Definition extract_type_ident (ty : Ty) : result string Error :=
  match ty with
  | TypePath [(i, ArgsNone)] => Ok i
  | _ => Err NotLocalConcreteType
  end.
End extract.

(** [Facets::iter]. *)
Definition facets_iter (fs : Facets) : list (string * Ty * Fallibility * Asyncness * list FactoryParam) :=
  zip (zip (zip (zip (facet_idents fs) (facet_types fs)) (facet_fallibilities fs)) (facet_asyncnesses fs))
    (facet_params fs).

(** * Refusing cycles *)

(** One turn of the loop over the parameters of a facet: [seen.entry(param).or_insert_with(..)]. *)
Definition visit (route : list string) (st : gmap string (list string) * list (string * list string)) (p : FactoryParam)
  : gmap string (list string) * list (string * list string) :=
  match p with
  | Param _ => st
  | Facet d =>
      let '(seen, queue) := st in
      match seen !! d with
      | Some _ => st
      | None => (<[d := route]> seen, queue ++ [(d, route ++ [d])])
      end
  end.

Fixpoint explore (fuel : nat) (ident_map : gmap string (list FactoryParam)) (seen : gmap string (list string))
    (queue : list (string * list string)) : exec (gmap string (list string)) :=
  match fuel with
  | O => panic
  | S fuel =>
      match queue with
      | [] => ret seen
      | (i, route) :: queue =>
          match ident_map !! i with
          | Some params =>
              let '(seen, queue) := foldl (visit route) (seen, queue) params in explore fuel ident_map seen queue
          | None => explore fuel ident_map seen queue
          end
      end
  end.

Definition check_no_cycles (fuel : nat) (top : string) (ident_map : gmap string (list FactoryParam))
  : exec (result () Error) :=
  let! seen := explore fuel ident_map ∅ [(top, [])] in
  ret (match seen !! top with Some route => Err (CyclicDependency top route) | None => Ok () end).

Fixpoint check_all (fuel : nat) (tops : list string) (ident_map : gmap string (list FactoryParam))
  : exec (result () Error) :=
  match tops with
  | [] => ret (Ok ())
  | top :: tops =>
      let! r := check_no_cycles fuel top ident_map in
      match r with Ok _ => check_all fuel tops ident_map | Err e => ret (Err e) end
  end.

(** * The synchronous builder *)

(** The loop over the parameters of a method: the facets to make and the arguments. *)
Fixpoint gen_call (types : gmap string Ty) (params : list FactoryParam) : result (list string * list CallParam) Error :=
  match params with
  | [] => Ok ([], [])
  | Facet i :: params =>
      match types !! i with
      | None => Err (UnrecognisedFacetName i)
      | Some _ =>
          match gen_call types params with
          | Ok (deps, args) => Ok (i :: deps, CallFacet i :: args)
          | Err e => Err e
          end
      end
  | Param i :: params =>
      match gen_call types params with
      | Ok (deps, args) => Ok (deps, CallSelfParam i :: args)
      | Err e => Err e
      end
  end.

Definition types_map (fs : Facets) : gmap string Ty := collect_map (zip (facet_idents fs) (facet_types fs)).

Fixpoint gen_sync_impls (types : gmap string Ty)
    (l : list (string * Ty * Fallibility * Asyncness * list FactoryParam)) : exec (result (list BuilderImpl) Error) :=
  match l with
  | [] => ret (Ok [])
  | (i, _, fallibility, asy, params) :: l =>
      match gen_call types params with
      | Err e => ret (Err e)
      | Ok (deps, args) =>
          if decide (asy = Asynchronous) then panic
          else
            let! rest := gen_sync_impls types l in
            ret (match rest with
                 | Ok impls =>
                     Ok ({| bi_facet := i; make_facets := deps; bi_call_params := args; bi_map_err := is_fallible fallibility |}
                           :: impls)
                 | Err e => Err e
                 end)
      end
  end.

Definition gen_sync_factory_builder (fs : Facets) : exec (result BuilderCode Error) :=
  let! impls := gen_sync_impls (types_map fs) (facets_iter fs) in
  ret (match impls with Ok impls => Ok (SyncBuilder impls) | Err e => Err e end).

(** * The asynchronous builder *)

(** What the loop over the facets fills in. *)
Record AsyncParts := {
  heads : gset string;
  facet_build_futs : gmap string FacetFuture;
  facet_build_graph : gmap string (list string);
  builder_impls : list AsyncBuilderForImpl;
  store_facets_ : list string;
}.

Fixpoint gen_async_parts (types : gmap string Ty)
    (l : list (string * Ty * Fallibility * Asyncness * list FactoryParam)) (st : AsyncParts) : result AsyncParts Error :=
  match l with
  | [] => Ok st
  | (i, _, fallibility, asy, params) :: l =>
      match gen_call types params with
      | Err e => Err e
      | Ok (deps, args) =>
          gen_async_parts types l
            {| heads := heads st ∖ list_to_set deps;
               facet_build_futs := <[i := {| ff_facet := i; dependent_facets := deps; ff_call_params := args;
                                             ff_await := is_async asy; ff_map_err := is_fallible fallibility |}]>
                                     (facet_build_futs st);
               facet_build_graph := <[i := deps]> (facet_build_graph st);
               builder_impls := builder_impls st ++ [{| abi_facet := i; mark_facets_needed := deps |}];
               store_facets_ := store_facets_ st ++ [i] |}
      end
  end.

(** The loop over the queue of facets and their depths, each facet as often as there are ways
    down to it: the depth of its last visit is kept. *)
Fixpoint visit_depths (fuel : nat) (graph : gmap string (list string)) (ident_depths : gmap string nat) (max_depth : nat)
    (queue : list (string * nat)) : exec (gmap string nat * nat) :=
  match fuel with
  | O => panic
  | S fuel =>
      match queue with
      | [] => ret (ident_depths, max_depth)
      | (i, depth) :: queue =>
          let! deps := expect (graph !! i) in
          visit_depths fuel graph (<[i := depth]> ident_depths) depth (queue ++ map (λ dep, (dep, depth + 1)) deps)
      end
  end.

(** [levels[depth].push(ident)] for the facets in the order of their names. *)
Fixpoint push_levels (l : list (string * nat)) (levels : list (list string)) : exec (list (list string)) :=
  match l with
  | [] => ret levels
  | (i, depth) :: l =>
      let! level := vec_index levels depth in push_levels l (<[depth := level ++ [i]]> levels)
  end.

(** The entries of a [BTreeMap] with string keys, in order. *)
Definition btree_iter {V} (m : gmap string V) : list (string * V) :=
  omap (λ k, v ← m !! k; Some (k, v)) (sort (map_to_list m).*1).

(** [build_facets.push(facet_build_futs.remove(ident).unwrap())]. *)
Fixpoint take_futs (idents : list string) (futs : gmap string FacetFuture) : exec (list FacetFuture) :=
  match idents with
  | [] => ret []
  | i :: idents =>
      let! f := expect (futs !! i) in
      let! fs := take_futs idents (delete i futs) in ret (f :: fs)
  end.

Definition order_facets (fuel : nat) (st : AsyncParts) : exec (list FacetFuture) :=
  let queue := map (λ head, (head, 0)) (sort (elements (heads st))) in
  let! '(ident_depths, max_depth) := visit_depths fuel (facet_build_graph st) ∅ 0 queue in
  let! levels := push_levels (btree_iter ident_depths) (replicate (max_depth + 1) []) in
  take_futs (List.concat (reverse levels)) (facet_build_futs st).

Definition gen_async_factory_builder (fuel : nat) (fs : Facets) : exec (result BuilderCode Error) :=
  match gen_async_parts (types_map fs) (facets_iter fs)
          {| heads := list_to_set (facet_idents fs); facet_build_futs := ∅; facet_build_graph := ∅;
             builder_impls := []; store_facets_ := [] |} with
  | Err e => ret (Err e)
  | Ok st =>
      let! build_facets := order_facets fuel st in
      ret (Ok (AsyncBuilder (builder_impls st) build_facets (store_facets_ st)))
  end.

Definition gen_factory_builder (fuel : nat) (fs : Facets) : exec (result BuilderCode Error) :=
  let! checked := check_all fuel (facet_idents fs) (collect_map (zip (facet_idents fs) (facet_params fs))) in
  match checked with
  | Err e => ret (Err e)
  | Ok _ =>
      match asyncness_any (facet_asyncnesses fs) with
      | Synchronous => gen_sync_factory_builder fs
      | Asynchronous => gen_async_factory_builder fuel fs
      end
  end.

Definition gen_factory (is_ident : string → bool) (fuel : nat) (params : Params) (factory_impl : ItemImpl)
  : exec (result BuilderCode Error) :=
  match extract_type_ident (self_ty factory_impl) with
  | Err e => ret (Err e)
  | Ok _ =>
      let! facets := extract_from_impl is_ident params factory_impl in
      match facets with
      | Err e => ret (Err e)
      | Ok facets => gen_factory_builder fuel facets
      end
  end.

(** * Cycles *)

Definition facet_names (params : list FactoryParam) : list string :=
  omap (λ p, match p with Facet d => Some d | Param _ => None end) params.

Lemma elem_of_facet_names d params : d ∈ facet_names params ↔ Facet d ∈ params.
Proof.
  unfold facet_names. rewrite list_elem_of_omap. split; [intros ([|d']&?&?); naive_solver|]. intros Hd. by exists (Facet d).
Qed.

Section cycles.
Context (ident_map : gmap string (list FactoryParam)).

(** The facet [x] takes the facet [y]. *)
Definition depends (x y : string) : Prop := ∃ params, ident_map !! x = Some params ∧ Facet y ∈ params.

(** The facets that some facet takes. *)
Definition taken : gset string := ⋃ map (λ e, list_to_set (facet_names e.2)) (map_to_list ident_map).

Lemma depends_taken x y : depends x y → y ∈ taken.
Proof.
  intros (ps&Hx&Hy). unfold taken. apply elem_of_union_list. exists (list_to_set (facet_names ps)).
  split; [|by apply elem_of_list_to_set, elem_of_facet_names].
  apply list_elem_of_fmap. exists (x, ps). split; [done|]. by apply elem_of_map_to_list.
Qed.

(** [walk top r x]: following [r] from [top] leads to [x]. *)
Inductive walk (top : string) : list string → string → Prop :=
| walk_nil : walk top [] top
| walk_snoc r x y : walk top r x → depends x y → walk top (r ++ [y]) y.

Lemma walk_nsteps top r x : walk top r x → nsteps depends (length r) top x.
Proof.
  induction 1 as [|r x y _ IH Hxy]; [constructor|]. rewrite length_app, Nat.add_comm. by eapply nsteps_r.
Qed.

Section explore.
Context (top : string).
Implicit Types (seen : gmap string (list string)) (queue : list (string * list string)).

(** The number of steps in which a facet was found. *)
Definition found seen (x : string) (n : nat) : Prop := (x = top ∧ n = 0) ∨ (∃ r, seen !! x = Some r ∧ n = S (length r)).

Record explored seen (m : nat) (near far : list (string * list string)) : Prop := {
  ex_walk : ∀ x r, (x, r) ∈ near ++ far → walk top r x;
  ex_near : ∀ x r, (x, r) ∈ near → length r = m;
  ex_far : ∀ x r, (x, r) ∈ far → length r = S m;
  ex_seen : ∀ y r, seen !! y = Some r → length r ≤ m ∧ ∃ x, walk top r x ∧ depends x y;
  ex_todo : ∀ x n, found seen x n →
    (∃ r, (x, r) ∈ near ++ far ∧ length r = n) ∨ (∀ y, depends x y → ∃ r, seen !! y = Some r ∧ length r ≤ n);
}.

Lemma foldl_visit route params seen queue :
  ∃ seen' ds, foldl (visit route) (seen, queue) params = (seen', queue ++ map (λ d, (d, route ++ [d])) ds) ∧
    seen ⊆ seen' ∧ (∀ d, Facet d ∈ params → is_Some (seen' !! d)) ∧
    (∀ d, d ∈ ds → Facet d ∈ params ∧ seen' !! d = Some route) ∧
    (∀ d r, seen' !! d = Some r → seen !! d = Some r ∨ d ∈ ds ∧ r = route) ∧
    length ds + size (dom seen) = size (dom seen').
Proof.
  revert seen queue. induction params as [|[p|d] params IH]; intros seen queue; simpl.
  - exists seen, []. rewrite app_nil_r. split_and!; [done..|set_solver|set_solver|naive_solver|done].
  - destruct (IH seen queue) as (seen'&ds&->&H1&H2&H3&H4&H5). exists seen', ds. set_solver.
  - destruct (seen !! d) as [r|] eqn:Hd.
    + destruct (IH seen queue) as (seen'&ds&->&H1&H2&H3&H4&H5). exists seen', ds. split_and!; [done..| |set_solver|done|done].
      intros d' [[= ->]|Hd']%elem_of_cons; [|by apply H2]. exists r. by eapply lookup_weaken.
    + destruct (IH (<[d:=route]> seen) (queue ++ [(d, route ++ [d])])) as (seen'&ds&->&H1&H2&H3&H4&H5).
      assert (seen' !! d = Some route) as Hs by (eapply lookup_weaken; [apply lookup_insert_eq|done]).
      exists seen', (d :: ds). simpl. rewrite <-app_assoc. split_and!; [done|..].
      * etrans; [|done]. by apply insert_subseteq.
      * intros d' [[= ->]|Hd']%elem_of_cons; [by eauto|by apply H2].
      * intros d' [->|Hd']%elem_of_cons; [set_solver|]. destruct (H3 d' Hd'). set_solver.
      * intros d' r Hr. destruct (H4 d' r Hr) as [Hi|[? ->]]; [|set_solver].
        destruct (decide (d' = d)) as [->|]; [rewrite lookup_insert_eq in Hi; set_solver|].
        left. by rewrite lookup_insert_ne in Hi.
      * rewrite <-H5, dom_insert, size_union, size_singleton; [lia|]. apply disjoint_singleton_l. by rewrite not_elem_of_dom.
Qed.

(** Taking the next facet off the queue. *)
Lemma explored_step seen m x route near far seen' ds :
  explored seen m ((x, route) :: near) far →
  (∀ y, depends x y → is_Some (seen' !! y)) → (∀ y, y ∈ ds → depends x y ∧ seen' !! y = Some route) →
  seen ⊆ seen' → (∀ y r, seen' !! y = Some r → seen !! y = Some r ∨ y ∈ ds ∧ r = route) →
  explored seen' m near (far ++ map (λ d, (d, route ++ [d])) ds).
Proof.
  intros [H1 H2 H3 H4 H5] Hall Hds Hsub Hnew.
  assert (walk top route x) as Hw by (apply H1; set_solver). assert (length route = m) as Hm by (apply (H2 x); set_solver).
  assert (∀ y r, (y, r) ∈ map (λ d, (d, route ++ [d])) ds ↔ y ∈ ds ∧ r = route ++ [y]) as Hmap.
  { intros y r. rewrite list_elem_of_fmap. naive_solver. }
  split.
  - intros y r. rewrite app_assoc, elem_of_app, Hmap. intros [Hy|[Hy ->]]; [apply H1; set_solver|].
    econstructor; [done|]. by apply Hds.
  - intros y r Hy. apply (H2 y). set_solver.
  - intros y r. rewrite elem_of_app, Hmap. intros [Hy|[_ ->]]; [by apply (H3 y)|]. rewrite length_app. simpl. lia.
  - intros y r Hy. destruct (Hnew y r Hy) as [Ho|[Hin ->]]; [by apply H4|]. split; [lia|]. exists x. split; [done|]. by apply Hds.
  - assert (∀ y, depends x y → ∃ r, seen' !! y = Some r ∧ length r ≤ m) as Hx.
    { intros y Hy. destruct (Hall y Hy) as [r Hr]. exists r. split; [done|].
      destruct (Hnew y r Hr) as [Ho|[_ ->]]; [|lia]. by apply (H4 y). }
    intros y n Hf. destruct (decide (y ∈ ds ∧ n = S m)) as [[Hy ->]|Hno].
    { left. exists (route ++ [y]). rewrite length_app, !elem_of_app, Hmap. simpl. split; [auto|lia]. }
    assert (found seen y n) as Hf'.
    { destruct Hf as [Hf|(r&Hr&->)]; [by left|]. destruct (Hnew y r Hr) as [Ho|[Hin ->]]; [right; eauto|].
      exfalso. apply Hno. by rewrite Hm. }
    destruct (H5 y n Hf') as [(r&Hr&Hn)|Hd].
    + rewrite <-app_comm_cons, elem_of_cons, elem_of_app in Hr. destruct Hr as [[= -> ->]|Hr].
      * right. intros z Hz. destruct (Hx z Hz) as (s&?&?). exists s. split; [done|lia].
      * left. exists r. rewrite app_assoc, !elem_of_app. tauto.
    + right. intros z Hz. destruct (Hd z Hz) as (r&Hr&?). exists r. split; [|done]. by eapply lookup_weaken.
Qed.

Lemma explored_next seen m far : explored seen m [] far → explored seen (S m) far [].
Proof.
  intros [H1 H2 H3 H4 H5]. rewrite app_nil_l in *. split; rewrite ?app_nil_r; [done..|set_solver| |done].
  intros y r Hy. destruct (H4 y r Hy). split; [lia|done].
Qed.

Lemma explore_cons fuel seen x route queue :
  explore (S fuel) ident_map seen ((x, route) :: queue) =
    let '(seen, queue) := foldl (visit route) (seen, queue) (default [] (ident_map !! x)) in explore fuel ident_map seen queue.
Proof. simpl. by destruct (ident_map !! x). Qed.

Lemma depends_default x y : depends x y ↔ Facet y ∈ default [] (ident_map !! x).
Proof.
  unfold depends. destruct (ident_map !! x) as [ps|]; simpl; [naive_solver|]. split; [naive_solver|set_solver].
Qed.

Lemma explore_spec fuel seen m near far :
  explored seen m near far → dom seen ⊆ taken → length near + length far + size (taken ∖ dom seen) < fuel →
  ∃ seen' m', explore fuel ident_map seen (near ++ far) = ret seen' ∧ explored seen' m' [] [].
Proof.
  revert seen m near far. induction fuel as [|fuel IH]; intros seen m near far He Hs Hf; [lia|].
  assert (∃ m near' far', near ++ far = near' ++ far' ∧ explored seen m near' far' ∧ (near' = [] → far' = []) ∧
            length near' + length far' + size (taken ∖ dom seen) < S fuel) as (m'&near'&far'&->&He'&Hn&Hf').
  { destruct near as [|e near]; [|by exists m, (e :: near), far].
    exists (S m), far, []. split_and!; [by rewrite app_nil_r|by apply explored_next|done|simpl in *; lia]. }
  clear m near far He Hf. destruct near' as [|[x route] near]; [rewrite Hn in * by done; by exists seen, m'|].
  clear Hn. rewrite <-app_comm_cons, explore_cons.
  destruct (foldl_visit route (default [] (ident_map !! x)) seen (near ++ far')) as (seen'&ds&->&H1&H2&H3&H4&H5).
  rewrite <-app_assoc. assert (∀ y, y ∈ ds → depends x y) as Hds by (intros y Hy; by apply depends_default, H3).
  assert (dom seen' ⊆ taken) as Hs'.
  { intros y [r Hr]%elem_of_dom. destruct (H4 y r Hr) as [Ho|[Hy _]]; [by eapply Hs, elem_of_dom_2|].
    by eapply depends_taken, Hds. }
  eapply IH; [eapply explored_step; [done|by intros y Hy%depends_default; apply H2| |done|done]|done|].
  - intros y Hy. split; [by apply Hds|by apply H3].
  - rewrite !size_difference in * by done. rewrite length_app, length_map. simpl in Hf'.
    pose proof (subseteq_size _ _ Hs'). pose proof (subseteq_size _ _ Hs). lia.
Qed.

Lemma explored_start : explored ∅ 0 [(top, [])] [].
Proof.
  split.
  - intros x r [[= -> ->]|Hx]%elem_of_cons; [constructor|set_solver].
  - intros x r [[= -> ->]|Hx]%elem_of_cons; [done|set_solver].
  - set_solver.
  - intros y r Hr. by rewrite lookup_empty in Hr.
  - intros x n [[-> ->]|(r&Hr&_)]; [|by rewrite lookup_empty in Hr]. left. exists []. set_solver.
Qed.

(** Every facet is found at the end of a shortest walk. *)
Lemma explored_end seen m x n : explored seen m [] [] → nsteps depends (S n) top x → ∃ r, seen !! x = Some r ∧ length r ≤ n.
Proof.
  intros He. assert (∀ x n, found seen x n → ∀ y, depends x y → ∃ r, seen !! y = Some r ∧ length r ≤ n) as Hc.
  { intros z k Hz. destruct (ex_todo _ _ _ _ He z k Hz) as [(r&Hr&_)|]; [set_solver|done]. }
  revert x. induction n as [|n IH]; intros x (z&Hz&Hx)%nsteps_inv_r.
  - inversion Hz; subst. apply (Hc top 0); [by left|done].
  - destruct (IH z Hz) as (r&Hr&Hn). destruct (Hc z (S (length r))) with x as (s&Hs&?); [right; eauto|done|].
    exists s. split; [done|lia].
Qed.
End explore.
End cycles.

(** The facets that depend on themselves are refused, with a shortest cycle through them. *)
Lemma check_no_cycles_spec (ident_map : gmap string (list FactoryParam)) top fuel :
  size (taken ident_map) + 2 ≤ fuel →
  ∃ r, check_no_cycles fuel top ident_map = ret r ∧
    match r with
    | Ok _ => ¬ tc (depends ident_map) top top
    | Err e => ∃ route x, e = CyclicDependency top route ∧ walk ident_map top route x ∧ depends ident_map x top ∧
                 ∀ n, nsteps (depends ident_map) (S n) top top → length route ≤ n
    end.
Proof.
  intros Hf. destruct (explore_spec ident_map top fuel ∅ 0 [(top, [])] []) as (seen&m&Hx&He).
  { apply explored_start. }
  { by rewrite dom_empty_L. }
  { rewrite dom_empty_L, difference_empty_L. simpl. lia. }
  unfold check_no_cycles. rewrite app_nil_r in Hx. rewrite Hx. simpl. eexists. split; [done|].
  destruct (seen !! top) as [route|] eqn:Ht.
  - destruct (ex_seen _ _ _ _ _ _ He top route Ht) as [_ (x&Hw&Hd)]. exists route, x. split_and!; [done..|].
    intros n Hn. destruct (explored_end _ _ _ _ _ _ He Hn) as (r&Hr&?). by simplify_eq.
  - intros (n&Hn&Hc)%tc_nsteps. destruct n as [|n]; [lia|].
    destruct (explored_end _ _ _ _ _ _ He Hc) as (r&Hr&_). by rewrite Ht in Hr.
Qed.

Lemma check_all_spec (ident_map : gmap string (list FactoryParam)) tops fuel :
  size (taken ident_map) + 2 ≤ fuel →
  ∃ r, check_all fuel tops ident_map = ret r ∧
    match r with
    | Ok _ => ∀ x, x ∈ tops → ¬ tc (depends ident_map) x x
    | Err e => ∃ top route x, e = CyclicDependency top route ∧ top ∈ tops ∧
                 walk ident_map top route x ∧ depends ident_map x top ∧
                 ∀ n, nsteps (depends ident_map) (S n) top top → length route ≤ n
    end.
Proof.
  intros Hf. induction tops as [|top tops (r'&IHr&IH)]; simpl; [eexists; split; [done|set_solver]|].
  destruct (check_no_cycles_spec ident_map top fuel Hf) as (r&->&Hr). destruct r as [[]|e]; simpl.
  - rewrite IHr. exists r'. split; [done|]. destruct r' as [[]|e]; [set_solver|].
    destruct IH as (t&route&x&->&Ht&IH). exists t, route, x. set_solver.
  - eexists. split; [done|]. destruct Hr as (route&x&->&Hr). exists top, route, x. set_solver.
Qed.
End FacetMacro.
