(* ===== verification/FacetOrder.v ===== *)
(** The theory of the macro of [facet::factory] ([FacetMacro]): the order of the futures, what is
    generated for a factory that is accepted, and when a factory is accepted. *)
From Stdlib Require Import Ascii.
From S2P Require Import Prelude RustStd RustStr.
From stdpp Require Import relations.
From S2P Require Import FacetMacro.
Import FacetMacro.

Module FacetOrder.
#[local] Abbreviation length := List.length.

(** * The order of the futures *)

Lemma btree_iter_perm {V} (m : gmap string V) : btree_iter m ≡ₚ map_to_list m.
Proof.
  unfold btree_iter. rewrite sort_perm. apply reflexive_eq.
  assert (∀ l, (∀ k v, (k, v) ∈ l → m !! k = Some v) → omap (λ k, v ← m !! k; Some (k, v)) l.*1 = l) as Hl.
  { intros l. induction l as [|[k v] l IH]; intros Hl; [done|]. simpl. rewrite (Hl k v) by set_solver. simpl. f_equal. apply IH.
    intros k' v' Hk. apply Hl. set_solver. }
  apply Hl. intros k v. apply elem_of_map_to_list.
Qed.

Section levels.
Context (depth_of : string → nat).

Lemma push_levels_spec l levels :
  (∀ i k, (i, k) ∈ l → k < length levels ∧ depth_of i = k) →
  (∀ k level, levels !! k = Some level → Forall (λ i, depth_of i = k) level) →
  ∃ levels', push_levels l levels = ret levels' ∧ length levels' = length levels ∧
    List.concat levels' ≡ₚ List.concat levels ++ l.*1 ∧
    (∀ k level, levels' !! k = Some level → Forall (λ i, depth_of i = k) level).
Proof.
  revert levels. induction l as [|[i k] l IH]; intros levels Hl Hd; simpl; [exists levels; by rewrite app_nil_r|].
  destruct (Hl i k) as [Hk Hi]; [set_solver|]. destruct (lookup_lt_is_Some_2 levels k Hk) as [level Hlv].
  unfold vec_index. rewrite Hlv. simpl.
  destruct (IH (<[k := level ++ [i]]> levels)) as (levels'&->&H1&H2&H3).
  - intros i' k' Hi'. rewrite length_insert. apply Hl. set_solver.
  - intros k' level' [(<-&<-&_)|[_ Hk']]%list_lookup_insert_Some; [|by apply Hd].
    apply Forall_app. split; [by apply Hd|by apply Forall_singleton].
  - exists levels'. rewrite length_insert in H1. split_and!; [done..| |done].
    assert (List.concat levels = List.concat (take k levels) ++ level ++ List.concat (drop (S k) levels)) as Hc.
    { rewrite <-(take_drop_middle levels k level Hlv) at 1. by rewrite List.concat_app. }
    rewrite H2, Hc, insert_take_drop by done. rewrite List.concat_app. simpl. solve_perm.
Qed.

Lemma levels_sorted levels :
  (∀ k level, levels !! k = Some level → Forall (λ i, depth_of i = k) level) →
  StronglySorted (λ i j, depth_of j ≤ depth_of i) (List.concat (reverse levels)).
Proof.
  induction levels as [|level levels IH] using rev_ind; intros Hd; [constructor|].
  rewrite reverse_app. simpl. assert (∀ k level', levels !! k = Some level' → Forall (λ i, depth_of i = k) level') as Hd'.
  { intros k l' Hk. apply Hd. rewrite lookup_app_l; [done|]. by eapply lookup_lt_Some. }
  assert (Forall (λ i, depth_of i = length levels) level) as Hl by (apply Hd; by rewrite list_lookup_middle).
  apply StronglySorted_app_iff. split_and!.
  - clear -Hl. induction Hl as [|i level Hi Hl IH]; constructor; [done|]. eapply Forall_impl; [done|]. simpl. lia.
  - by apply IH.
  - rewrite Forall_forall in Hl. intros i j Hi Hj. rewrite (Hl i Hi). apply list_elem_of_In, in_concat in Hj as (l'&Hl'&Hj).
    apply list_elem_of_In in Hl'; rewrite elem_of_reverse in Hl'; apply list_elem_of_lookup in Hl' as (k&Hk). pose proof (Hd' k l' Hk) as Hf.
    rewrite Forall_forall in Hf. rewrite (Hf j) by by apply list_elem_of_In. apply lookup_lt_Some in Hk. lia.
Qed.
End levels.

Lemma take_futs_spec idents futs :
  NoDup idents → (∀ i, i ∈ idents → is_Some (futs !! i)) →
  ∃ fs, take_futs idents futs = ret fs ∧ Forall2 (λ i f, futs !! i = Some f) idents fs.
Proof.
  intros Hnd Hf. assert (∀ futs', (∀ i, i ∈ idents → futs' !! i = futs !! i) →
    ∃ fs, take_futs idents futs' = ret fs ∧ Forall2 (λ i f, futs !! i = Some f) idents fs) as H; [|by apply H].
  revert Hf. induction Hnd as [|i idents Hi _ IH]; intros Hf futs' Heq; simpl; [by exists []|].
  destruct (Hf i) as [f Hfi]; [set_solver|]. rewrite Heq by set_solver. rewrite Hfi. simpl.
  destruct (IH ltac:(set_solver) (delete i futs')) as (fs&->&Hfs).
  { intros j Hj. rewrite lookup_delete_ne by set_solver. apply Heq. set_solver. }
  exists (f :: fs). split; [done|]. by constructor.
Qed.

Section order.
Context (graph : gmap string (list string)).

(** In the graph of the asynchronous builder. *)
Definition edge (x y : string) : Prop := ∃ deps, graph !! x = Some deps ∧ y ∈ deps.

Context (closed : ∀ x y, edge x y → is_Some (graph !! y)).

Record depths (top : gset string) (ds : gmap string nat) (max m : nat) (near far : list (string * nat)) : Prop := {
  de_max : max ≤ m;
  de_near : ∀ x k, (x, k) ∈ near → k = m;
  de_far : ∀ x k, (x, k) ∈ far → k = S m;
  de_bound : ∀ x k, ds !! x = Some k → k ≤ max;
  de_edge : ∀ x y k, ds !! x = Some k → edge x y → (y, S k) ∈ near ++ far ∨ ∃ k', ds !! y = Some k' ∧ S k ≤ k';
  de_known : ∀ x, x ∈ (near ++ far).*1 ∨ x ∈ dom ds → is_Some (graph !! x);
  de_top : ∀ x, x ∈ top → x ∈ (near ++ far).*1 ∨ x ∈ dom ds;
}.

Lemma depths_next top ds max m far : depths top ds max m [] far → depths top ds max (S m) far [].
Proof.
  intros [H1 H2 H3 H4 H5 H6 H7]. rewrite app_nil_l in *. split; rewrite ?app_nil_r; [lia|done|set_solver|done..].
Qed.

Lemma depths_step top ds max m x near far deps :
  depths top ds max m ((x, m) :: near) far → graph !! x = Some deps →
  depths top (<[x := m]> ds) m m near (far ++ map (λ dep, (dep, m + 1)) deps).
Proof.
  intros [H1 H2 H3 H4 H5 H6 H7] Hx.
  assert (∀ y k, (y, k) ∈ map (λ dep, (dep, m + 1)) deps ↔ y ∈ deps ∧ k = S m) as Hmap.
  { intros y k. rewrite list_elem_of_fmap. rewrite Nat.add_1_r. naive_solver. }
  assert (∀ y, y ∈ (map (λ dep, (dep, m + 1)) deps).*1 → is_Some (graph !! y)) as Hdeps.
  { intros y ([y' k]&->&Hy)%list_elem_of_fmap. apply Hmap in Hy as [Hy _]. eapply closed. by exists deps. }
  split.
  - done.
  - set_solver.
  - intros y k [Hy|[_ ->]%Hmap]%elem_of_app; [by apply (H3 y)|done].
  - intros y k [[-> <-]|[_ Hy]]%lookup_insert_Some; [done|]. specialize (H4 y k Hy). lia.
  - intros y z k Hk Hz. assert ((∃ k', ds !! z = Some k' ∧ S k ≤ k') →
      ∃ k', <[x := m]> ds !! z = Some k' ∧ S k ≤ k') as Hold.
    { intros (k'&Hk'&?). destruct (decide (z = x)) as [->|]; [|exists k'; by rewrite lookup_insert_ne].
      exists m. rewrite lookup_insert_eq. split; [done|]. specialize (H4 x k' Hk'). lia. }
    apply lookup_insert_Some in Hk as [[<- <-]|[Hne Hk]].
    + destruct Hz as (deps'&Hd&Hz). simplify_eq. left. rewrite app_assoc, elem_of_app, Hmap. auto.
    + destruct (H5 y z k Hk Hz) as [Hin|?]; [|by right; apply Hold].
      rewrite <-app_comm_cons, elem_of_cons in Hin. destruct Hin as [[= -> <-]|Hin].
      * right. exists (S k). by rewrite lookup_insert_eq.
      * left. rewrite app_assoc, elem_of_app. by left.
  - intros y. rewrite app_assoc, fmap_app, elem_of_app, dom_insert, elem_of_union, elem_of_singleton.
    intros [[Hy|Hy]|[->|Hy]]; [apply H6; set_solver|by apply Hdeps|done|apply H6; by right].
  - intros y Hy. rewrite app_assoc, fmap_app, elem_of_app, dom_insert.
    destruct (H7 y Hy) as [Ho|Ho]; [|set_solver]. rewrite <-app_comm_cons, fmap_cons, elem_of_cons in Ho. set_solver.
Qed.

(** A facet is visited as often as there are walks down to it: with [hs] the heights of the
    queued facets, their visits number at most the sum of the powers of the branching. *)
Context (branching : nat) (Hbranching : ∀ x deps, graph !! x = Some deps → length deps < branching).

Definition visits (hs : list nat) : nat := sum_list_with (λ h, branching ^ h) hs.

Lemma visits_app hs hs' : visits (hs ++ hs') = visits hs + visits hs'.
Proof. apply sum_list_with_app. Qed.

Lemma visits_step h (deps : list string) : length deps < branching → S (visits (replicate (length deps) h)) ≤ branching ^ S h.
Proof.
  intros Hb. assert (visits (replicate (length deps) h) = length deps * branching ^ h) as ->.
  { generalize (length deps) as n. clear. unfold visits. intros n. induction n as [|n IH]; simpl; [done|]. by rewrite IH. }
  assert (0 < branching ^ h) by (apply Nat.neq_0_lt_0, Nat.pow_nonzero; lia). simpl. nia.
Qed.

Lemma visit_depths_spec fuel top ds max m near far hs :
  depths top ds max m near far → Forall2 (λ e h, height edge h e.1) (near ++ far) hs → visits hs < fuel →
  ∃ ds' max' m', visit_depths fuel graph ds max (near ++ far) = ret (ds', max') ∧ depths top ds' max' m' [] [].
Proof.
  revert ds max m near far hs. induction fuel as [|fuel IH]; intros ds max m near far hs Hd Hh Hf; [lia|].
  assert (∃ m near' far', near ++ far = near' ++ far' ∧ depths top ds max m near' far' ∧ (near' = [] → far' = []))
    as (m'&near'&far'&Hq&Hd'&Hn).
  { destruct near as [|e near]; [|by exists m, (e :: near), far].
    exists (S m), far, []. split_and!; [by rewrite app_nil_r|by apply depths_next|done]. }
  rewrite Hq in *. clear m near far Hd Hq. destruct near' as [|[x k] near]; [rewrite Hn in * by done; by exists ds, max, m'|].
  clear Hn. assert (k = m') as -> by (apply (de_near _ _ _ _ _ _ Hd' x); set_solver).
  destruct (de_known _ _ _ _ _ _ Hd' x) as [deps Hx]; [left; set_solver|].
  rewrite <-app_comm_cons in *. simpl. rewrite Hx. simpl.
  inversion Hh as [|? h ? hs' Hhx Hhs]; subst. destruct h as [|h]; [inversion Hhx|].
  rewrite <-app_assoc. eapply (IH _ _ _ _ _ (hs' ++ replicate (length deps) h)); [by eapply depths_step| |].
  - rewrite app_assoc. apply Forall2_app; [done|]. apply Forall2_same_length_lookup_2; [by rewrite length_map, length_replicate|].
    intros i e h' (y&->&Hy)%list_lookup_fmap_Some [-> _]%lookup_replicate. simpl. eapply height_inv; [done|].
    exists deps. split; [done|]. by eapply list_elem_of_lookup_2.
  - rewrite visits_app. pose proof (visits_step h deps (Hbranching x deps Hx)).
    change (visits (S h :: hs')) with (branching ^ S h + visits hs') in Hf. lia.
Qed.

(** Every facet is below a facet that no facet takes. *)
Lemma below_top (top : gset string) n x :
  (∀ y, is_Some (graph !! y) → y ∉ top → ∃ z, edge z y) → height (flip edge) n x → is_Some (graph !! x) →
  ∃ t, t ∈ top ∧ rtc edge t x.
Proof.
  intros Ht H. induction H as [n x _ IH]. intros Hx. destruct (decide (x ∈ top)) as [|Hn]; [by exists x|].
  destruct (Ht x Hx Hn) as [z Hz]. destruct (IH z Hz) as (t&?&?); [destruct Hz as (deps&Hz&_); by eexists|].
  exists t. split; [done|]. by eapply rtc_r.
Qed.
End order.

Lemma tc_flip {A} (R : relation A) x y : tc (flip R) x y → tc R y x.
Proof. induction 1 as [x y H|x y z H _ IH]; [by apply tc_once|]. by eapply tc_r. Qed.

Section order_facets.
Context (st : AsyncParts) (branching : nat).
#[local] Abbreviation graph := (facet_build_graph st).
#[local] Abbreviation futs := (facet_build_futs st).
#[local] Abbreviation edge := (edge graph).
Context (closed : ∀ x y, edge x y → is_Some (graph !! y)) (acyclic : ∀ x, ¬ tc edge x x).
Context (Hbranching : ∀ x deps, graph !! x = Some deps → length deps < branching).
Context (heads_known : ∀ x, x ∈ heads st → is_Some (graph !! x)).
Context (heads_all : ∀ x, is_Some (graph !! x) → x ∉ heads st → ∃ z, edge z x).
Context (futs_graph : ∀ x f, futs !! x = Some f → ff_facet f = x ∧ graph !! x = Some (dependent_facets f)).
Context (graph_futs : ∀ x, is_Some (graph !! x) → is_Some (futs !! x)).

Lemma edge_height x : height edge (S (size graph)) x.
Proof.
  rewrite <-size_dom. apply acyclic_height; [intros y _; apply acyclic|].
  intros y z _ (deps&Hy&_). by eapply elem_of_dom_2.
Qed.

Lemma edge_height_flip x : height (flip edge) (S (size graph)) x.
Proof.
  rewrite <-size_dom. apply acyclic_height; [intros y _ Hy%tc_flip; by eapply acyclic|].
  intros y z _ Hz. by eapply elem_of_dom, closed.
Qed.

Lemma depths_done top ds max m : depths graph top ds max m [] [] → (∀ x, x ∈ heads st → x ∈ top) →
  (∀ x, is_Some (graph !! x) ↔ is_Some (ds !! x)) ∧
  ∀ x y k, ds !! x = Some k → edge x y → ∃ k', ds !! y = Some k' ∧ k < k'.
Proof.
  intros Hd Ht.
  assert (∀ x y k, ds !! x = Some k → edge x y → ∃ k', ds !! y = Some k' ∧ k < k') as Hedge.
  { intros x y k Hk Hxy. destruct (de_edge _ _ _ _ _ _ _ Hd x y k Hk Hxy); [set_solver|done]. }
  split; [|done]. intros x. split; intros Hx.
  - destruct (below_top graph (heads st) (S (size graph)) x) as (t&Hin&Hr); [done|apply edge_height_flip|done|].
    assert (is_Some (ds !! t)) as Hs.
    { destruct (de_top _ _ _ _ _ _ _ Hd t) as [Hn|Hn]; [by apply Ht|set_solver|by apply elem_of_dom]. }
    clear Hin Hx. induction Hr as [|a b c Hab _ IH]; [done|]. apply IH. destruct Hs as [k Hk].
    destruct (Hedge a b k Hk Hab) as (k'&?&_). by exists k'.
  - apply (de_known _ _ _ _ _ _ _ Hd). right. by apply elem_of_dom.
Qed.

(** The queue that the traversal starts from. *)
Lemma depths_start queue : queue.*1 ≡ₚ elements (heads st) → (∀ x k, (x, k) ∈ queue → k = 0) →
  depths graph (heads st) ∅ 0 0 queue [].
Proof.
  intros Hq Hk. assert (∀ x, x ∈ queue.*1 ↔ x ∈ heads st) as Hx by (intros x; by rewrite Hq, elem_of_elements).
  split; rewrite ?app_nil_r; [done|done|intros x k Hin; by apply elem_of_nil in Hin|..].
  - intros x k Hin. by rewrite lookup_empty in Hin.
  - intros x y k Hin. by rewrite lookup_empty in Hin.
  - intros x [Hin|Hin]; [by apply heads_known, Hx|by rewrite dom_empty in Hin].
  - intros x Hin. left. by apply Hx.
Qed.

Lemma visits_replicate n h : visits branching (replicate n h) = n * branching ^ h.
Proof. unfold visits. induction n as [|n IH]; simpl; [done|by rewrite IH]. Qed.

Lemma visit_heads fuel : size (heads st) * branching ^ S (size graph) < fuel →
  ∃ ds max, visit_depths fuel graph ∅ 0 (map (λ head, (head, 0)) (sort (elements (heads st)))) = ret (ds, max) ∧
    (∀ x, is_Some (graph !! x) ↔ is_Some (ds !! x)) ∧ (∀ x k, ds !! x = Some k → k ≤ max) ∧
    ∀ x y k, ds !! x = Some k → edge x y → ∃ k', ds !! y = Some k' ∧ k < k'.
Proof.
  intros Hf. set (queue := map (λ head, (head, 0)) (sort (elements (heads st)))).
  assert (queue.*1 ≡ₚ elements (heads st)) as Hq.
  { unfold queue. rewrite <-list_fmap_compose. unfold compose. simpl. by rewrite list_fmap_id, sort_perm. }
  destruct (visit_depths_spec graph closed branching Hbranching fuel (heads st) ∅ 0 0 queue []
              (replicate (length queue) (S (size graph)))) as (ds&max&m&Hv&Hd).
  - apply depths_start; [done|]. by intros x k (h&[= -> ->]&_)%list_elem_of_fmap.
  - rewrite app_nil_r. apply Forall2_same_length_lookup_2; [by rewrite length_replicate|].
    intros i e h _ [-> _]%lookup_replicate. apply edge_height.
  - assert (length queue = size (heads st)) as ->; [|by rewrite visits_replicate].
    unfold size, set_size. simpl. by rewrite <-Hq, length_fmap.
  - rewrite app_nil_r in Hv. exists ds, max. split; [done|]. destruct (depths_done _ _ _ _ Hd) as [H1 H2]; [done|].
    split_and!; [done|apply (de_bound _ _ _ _ _ _ _ Hd)|done].
Qed.

Lemma concat_replicate_nil {A} n : List.concat (replicate n ([] : list A)) = [].
Proof. by induction n. Qed.

(** Every future comes after those it waits for. *)
Lemma order_facets_spec fuel : size (heads st) * branching ^ S (size graph) < fuel →
  ∃ fs, order_facets fuel st = ret fs ∧ NoDup (ff_facet <$> fs) ∧
    (∀ f, f ∈ fs ↔ ∃ x, futs !! x = Some f) ∧
    ∀ i f d, fs !! i = Some f → d ∈ dependent_facets f → d ∈ ff_facet <$> take i fs.
Proof.
  intros Hf. unfold order_facets. destruct (visit_heads fuel Hf) as (ds&max&->&Hdom&Hmax&Hedge).
  cbn [exec_bind]. set (depth_of x := default 0 (ds !! x)).
  destruct (push_levels_spec depth_of (btree_iter ds) (replicate (max + 1) [])) as (levels&->&_&Hperm&Hlv).
  { intros i k. rewrite btree_iter_perm, elem_of_map_to_list, length_replicate. intros Hk. unfold depth_of. rewrite Hk.
    split; [|done]. pose proof (Hmax i k Hk). lia. }
  { intros k level [-> _]%lookup_replicate. constructor. }
  cbn [exec_bind]. set (order := List.concat (reverse levels)).
  assert (order ≡ₚ (map_to_list ds).*1) as Horder.
  { unfold order. rewrite (concat_perm (reverse levels) levels) by by rewrite reverse_Permutation.
    by rewrite Hperm, btree_iter_perm, concat_replicate_nil. }
  assert (∀ x, x ∈ order ↔ is_Some (graph !! x)) as Hin.
  { intros x. rewrite Horder, Hdom, list_elem_of_fmap. split.
    - intros ([y k]&->&Hk%elem_of_map_to_list). by exists k.
    - intros [k Hk]. exists (x, k). by rewrite elem_of_map_to_list. }
  destruct (take_futs_spec order futs) as (fs&->&Hfs).
  { rewrite Horder. apply NoDup_fst_map_to_list. }
  { intros x Hx. by apply graph_futs, Hin. }
  exists fs. assert (ff_facet <$> fs = order) as Hfo.
  { clear -Hfs futs_graph. induction Hfs as [|x f order fs Hx _ IH]; [done|]. rewrite fmap_cons, IH. f_equal. by apply futs_graph. }
  split; [done|]. rewrite Hfo. split_and!.
  - rewrite Horder. apply NoDup_fst_map_to_list.
  - intros f. split.
    + intros (i&Hi)%list_elem_of_lookup. destruct (Forall2_lookup_r _ _ _ _ _ Hfs Hi) as (x&_&Hx). by exists x.
    + intros (x&Hx). destruct (futs_graph x f Hx) as [_ Hg]. assert (x ∈ order) as (i&Hi)%list_elem_of_lookup by (apply Hin; eauto).
      destruct (Forall2_lookup_l _ _ _ _ _ Hfs Hi) as (f'&Hf'&Hx'). simplify_eq. by eapply list_elem_of_lookup_2.
  - intros i f d Hi Hd. rewrite fmap_take. rewrite Hfo. destruct (Forall2_lookup_r _ _ _ _ _ Hfs Hi) as (x&Hx&Hxf).
    destruct (futs_graph x f Hxf) as [_ Hg]. assert (edge x d) as Hxd by by exists (dependent_facets f).
    assert (d ∈ order) as (j&Hj)%list_elem_of_lookup by by eapply Hin, closed.
    destruct (decide (j < i)) as [Hlt|Hge]; [apply list_elem_of_lookup; exists j; by rewrite lookup_take_lt|].
    assert (is_Some (ds !! x)) as [k Hk] by (apply Hdom; eauto). destruct (Hedge x d k Hk Hxd) as (k'&Hk'&Hlt).
    assert (depth_of d ≤ depth_of x) as Hle.
    { destruct (decide (i = j)) as [->|]; [by simplify_eq|].
      eapply (StronglySorted_lookup (λ i j, depth_of j ≤ depth_of i) order i j); [|lia|done|done]. by apply levels_sorted. }
    unfold depth_of in Hle. rewrite Hk, Hk' in Hle. simpl in Hle. lia.
Qed.
End order_facets.

(** * The generated builder *)

Abbreviation Entry := (string * Ty * Fallibility * Asyncness * list FactoryParam)%type.

Definition e_name (e : Entry) : string := let '(i, _, _, _, _) := e in i.
Definition e_fallibility (e : Entry) : Fallibility := let '(_, _, f, _, _) := e in f.
Definition e_asyncness (e : Entry) : Asyncness := let '(_, _, _, a, _) := e in a.
Definition e_params (e : Entry) : list FactoryParam := let '(_, _, _, _, ps) := e in ps.

Definition call_param (p : FactoryParam) : CallParam :=
  match p with Facet i => CallFacet i | Param i => CallSelfParam i end.

(** What is generated for a facet. *)
Definition impl_of (e : Entry) : BuilderImpl :=
  {| bi_facet := e_name e; make_facets := facet_names (e_params e); bi_call_params := map call_param (e_params e);
     bi_map_err := is_fallible (e_fallibility e) |}.
Definition marks_of (e : Entry) : AsyncBuilderForImpl :=
  {| abi_facet := e_name e; mark_facets_needed := facet_names (e_params e) |}.
Definition future_of (e : Entry) : FacetFuture :=
  {| ff_facet := e_name e; dependent_facets := facet_names (e_params e); ff_call_params := map call_param (e_params e);
     ff_await := is_async (e_asyncness e); ff_map_err := is_fallible (e_fallibility e) |}.

Definition known (types : gmap string Ty) (e : Entry) : Prop := ∀ d, Facet d ∈ e_params e → is_Some (types !! d).
Definition unknown (types : gmap string Ty) (l : list Entry) (err : Error) : Prop :=
  ∃ e d, err = UnrecognisedFacetName d ∧ e ∈ l ∧ Facet d ∈ e_params e ∧ types !! d = None.

Lemma gen_call_spec types params :
  match gen_call types params with
  | Ok (deps, args) => deps = facet_names params ∧ args = map call_param params ∧ ∀ d, Facet d ∈ params → is_Some (types !! d)
  | Err err => ∃ d, err = UnrecognisedFacetName d ∧ Facet d ∈ params ∧ types !! d = None
  end.
Proof.
  induction params as [|[i|i] params IH]; simpl; [split_and!; [done..|set_solver]| |].
  - destruct (gen_call types params) as [[deps args]|err]; [destruct IH as (->&->&IH)|set_solver].
    split_and!; [done..|set_solver].
  - destruct (types !! i) eqn:Hi; [|exists i; set_solver].
    destruct (gen_call types params) as [[deps args]|err]; [destruct IH as (->&->&IH)|set_solver].
    split_and!; [done..|]. intros d [[= ->]|Hd]%elem_of_cons; [by rewrite Hi|auto].
Qed.

Lemma unknown_cons types e l err : unknown types l err → unknown types (e :: l) err.
Proof. intros (e'&d&?&?&?). exists e', d. set_solver. Qed.

Lemma gen_sync_impls_spec types l : (∀ e, e ∈ l → e_asyncness e = Synchronous) →
  ∃ r, gen_sync_impls types l = ret r ∧
    match r with Ok impls => impls = map impl_of l ∧ ∀ e, e ∈ l → known types e | Err err => unknown types l err end.
Proof.
  induction l as [|e l IH]; intros Hs; [eexists; split; [done|split; [done|set_solver]]|].
  destruct e as [[[[i ty] f] asy] params]. simpl. pose proof (gen_call_spec types params) as Hc.
  destruct (gen_call types params) as [[deps args]|err].
  - destruct Hc as (->&->&Hc). pose proof (Hs (i, ty, f, asy, params) ltac:(set_solver)) as Ha. simpl in Ha. subst asy. simpl.
    destruct IH as (r&->&Hr); [set_solver|]. simpl. eexists. split; [done|]. destruct r as [impls|err]; [|by apply unknown_cons].
    destruct Hr as [-> Hr]. split; [done|]. intros e [->|He]%elem_of_cons; [done|auto].
  - eexists. split; [done|]. destruct Hc as (d&->&Hd&Hn). exists (i, ty, f, asy, params), d. set_solver.
Qed.

(** One turn of the loop over the facets. *)
Definition add_entry (st : AsyncParts) (e : Entry) : AsyncParts :=
  {| heads := heads st ∖ list_to_set (facet_names (e_params e));
     facet_build_futs := <[e_name e := future_of e]> (facet_build_futs st);
     facet_build_graph := <[e_name e := facet_names (e_params e)]> (facet_build_graph st);
     builder_impls := builder_impls st ++ [marks_of e];
     store_facets_ := store_facets_ st ++ [e_name e] |}.

Lemma gen_async_parts_spec types l st :
  match gen_async_parts types l st with
  | Ok st' => st' = foldl add_entry st l ∧ ∀ e, e ∈ l → known types e
  | Err err => unknown types l err
  end.
Proof.
  revert st. induction l as [|e l IH]; intros st; [split; [done|set_solver]|].
  destruct e as [[[[i ty] f] asy] params]. simpl. pose proof (gen_call_spec types params) as Hc.
  destruct (gen_call types params) as [[deps args]|err].
  - destruct Hc as (->&->&Hc). set (st1 := Build_AsyncParts _ _ _ _ _). specialize (IH st1).
    destruct (gen_async_parts types l st1) as [st'|err]; [|by apply unknown_cons].
    destruct IH as [-> IH]. split; [done|]. intros e [->|He]%elem_of_cons; [done|auto].
  - destruct Hc as (d&->&Hd&Hn). exists (i, ty, f, asy, params), d. set_solver.
Qed.

Lemma foldl_add_entry l st :
  let st' := foldl add_entry st l in
  heads st' = heads st ∖ list_to_set (l ≫= λ e, facet_names (e_params e)) ∧
  facet_build_futs st' = foldl (λ m e, <[e_name e := future_of e]> m) (facet_build_futs st) l ∧
  facet_build_graph st' = foldl (λ m e, <[e_name e := facet_names (e_params e)]> m) (facet_build_graph st) l ∧
  builder_impls st' = builder_impls st ++ map marks_of l ∧ store_facets_ st' = store_facets_ st ++ map e_name l.
Proof.
  revert st. induction l as [|e l IH]; intros st; simpl; [rewrite !app_nil_r; split_and!; [set_solver|done..]|].
  destruct (IH (add_entry st e)) as (->&->&->&->&->). simpl. rewrite <-!app_assoc. split_and!; [set_solver|done..].
Qed.

Lemma foldl_entries {V} (g : Entry → string) (f : Entry → V) l (m : gmap string V) x v : NoDup (map g l) →
  (foldl (λ m e, <[g e := f e]> m) m l) !! x = Some v ↔
    (∃ e, e ∈ l ∧ g e = x ∧ f e = v) ∨ ((x ∉ map g l) ∧ m !! x = Some v).
Proof.
  revert m. induction l as [|e l IH]; intros m Hnd; simpl; [set_solver|].
  apply NoDup_cons in Hnd as [He Hnd]. rewrite IH by done. rewrite lookup_insert_Some.
  assert (∀ e', e' ∈ l → g e' ≠ g e) as Hne.
  { intros e' He' Heq. apply He. rewrite <-Heq. by apply list_elem_of_fmap_2. }
  split.
  - intros [(e'&?&?&?)|(Hx&[[<- <-]|[Hn Hm]])]; [left; exists e'; set_solver|left; exists e; set_solver|].
    right. split; [set_solver|done].
  - intros [(e'&[->|He']%elem_of_cons&<-&<-)|[Hx Hm]]; [right|left; eauto|right; set_solver].
    split; [|by left]. intros (e'&Heq&He')%list_elem_of_fmap. by eapply Hne.
Qed.

(** * Factories as rustc accepts them *)

(** The lists of [Facets] have an element for each method, whose names are different. *)
Record facets_ok (fs : Facets) : Prop := {
  fo_names : NoDup (facet_idents fs);
  fo_types : length (facet_types fs) = length (facet_idents fs);
  fo_fallibilities : length (facet_fallibilities fs) = length (facet_idents fs);
  fo_asyncnesses : length (facet_asyncnesses fs) = length (facet_idents fs);
  fo_params : length (facet_params fs) = length (facet_idents fs);
}.

Definition facet_map (fs : Facets) : gmap string (list FactoryParam) := collect_map (zip (facet_idents fs) (facet_params fs)).

(** The facet [x] takes the facet [y]. *)
Definition takes (fs : Facets) : relation string := depends (facet_map fs).

Lemma collect_map_lookup {V} (l : list (string * V)) k v : NoDup l.*1 → collect_map l !! k = Some v ↔ (k, v) ∈ l.
Proof.
  intros Hl. unfold collect_map. rewrite <-elem_of_list_to_map; [by rewrite elem_of_reverse|].
  rewrite fmap_reverse. by rewrite reverse_Permutation.
Qed.

Section facets.
Context (fs : Facets) (Hok : facets_ok fs).

Lemma iter_names : map e_name (facets_iter fs) = facet_idents fs.
Proof.
  destruct Hok as [_ H1 H2 H3 H4]. unfold facets_iter. revert H1 H2 H3 H4.
  generalize (facet_idents fs) (facet_types fs) (facet_fallibilities fs) (facet_asyncnesses fs) (facet_params fs).
  intros l. induction l as [|i l IH]; intros [|t ts] [|f fl] [|a al] [|p pl]; simpl; intros; try lia; [done|].
  f_equal. apply IH; lia.
Qed.

Lemma iter_params : map (λ e, (e_name e, e_params e)) (facets_iter fs) = zip (facet_idents fs) (facet_params fs).
Proof.
  destruct Hok as [_ H1 H2 H3 H4]. unfold facets_iter. revert H1 H2 H3 H4.
  generalize (facet_idents fs) (facet_types fs) (facet_fallibilities fs) (facet_asyncnesses fs) (facet_params fs).
  intros l. induction l as [|i l IH]; intros [|t ts] [|f fl] [|a al] [|p pl]; simpl; intros; try lia; [done|].
  f_equal. apply IH; lia.
Qed.

Lemma iter_asyncness e : e ∈ facets_iter fs → e_asyncness e ∈ facet_asyncnesses fs.
Proof.
  unfold facets_iter. destruct e as [[[[i t] f] a] p]. intros H. apply elem_of_zip_l in H. by apply elem_of_zip_r in H.
Qed.

Lemma iter_names_nodup : NoDup (map e_name (facets_iter fs)).
Proof. rewrite iter_names. apply (fo_names _ Hok). Qed.

Lemma iter_name_inj e e' : e ∈ facets_iter fs → e' ∈ facets_iter fs → e_name e = e_name e' → e = e'.
Proof.
  intros [i Hi]%list_elem_of_lookup [j Hj]%list_elem_of_lookup Heq. assert (i = j) as ->; [|by simplify_eq].
  eapply NoDup_lookup; [exact iter_names_nodup|..]; rewrite list_lookup_fmap; [by rewrite Hi|rewrite Hj; simpl; by rewrite Heq].
Qed.

Lemma facet_map_lookup x params : facet_map fs !! x = Some params ↔ ∃ e, e ∈ facets_iter fs ∧ e_name e = x ∧ e_params e = params.
Proof.
  unfold facet_map. rewrite collect_map_lookup; rewrite <-iter_params.
  - rewrite list_elem_of_fmap. naive_solver.
  - rewrite <-list_fmap_compose. exact iter_names_nodup.
Qed.

Lemma takes_iter x y : takes fs x y ↔ ∃ e, e ∈ facets_iter fs ∧ e_name e = x ∧ y ∈ facet_names (e_params e).
Proof.
  unfold takes, depends. setoid_rewrite facet_map_lookup. setoid_rewrite elem_of_facet_names. naive_solver.
Qed.

Lemma types_map_known d : is_Some (types_map fs !! d) ↔ d ∈ facet_idents fs.
Proof.
  pose proof (fo_types _ Hok) as Ht. unfold types_map.
  assert ((zip (facet_idents fs) (facet_types fs)).*1 = facet_idents fs) as Hz by (apply fst_zip; lia).
  split.
  - intros [ty Hty]. apply collect_map_lookup in Hty; [|rewrite Hz; apply (fo_names _ Hok)].
    rewrite <-Hz. by apply (list_elem_of_fmap_2 fst) in Hty.
  - intros Hd. rewrite <-Hz in Hd at 1. apply list_elem_of_fmap in Hd as ([d' ty]&->&Hd). exists ty.
    apply collect_map_lookup; [rewrite Hz; apply (fo_names _ Hok)|done].
Qed.
End facets.

(** Fuel for the loops of the macro: the total number of parameters bounds the branching of the
    dependencies, the number of facets their depth. *)
Definition facet_fuel (fs : Facets) : nat :=
  let total := length (List.concat (facet_params fs)) in
  let n := length (facet_idents fs) in
  2 + total + n * S total ^ S n.

(** What the macro makes of the facets, once the order of the futures is known. *)
Definition code_for (fs : Facets) (code : BuilderCode) : Prop :=
  match code with
  | SyncBuilder impls =>
      asyncness_any (facet_asyncnesses fs) = Synchronous ∧ impls = map impl_of (facets_iter fs)
  | AsyncBuilder impls futs stores =>
      asyncness_any (facet_asyncnesses fs) = Asynchronous ∧ impls = map marks_of (facets_iter fs) ∧
      futs ≡ₚ map future_of (facets_iter fs) ∧ stores = facet_idents fs ∧
      ∀ i f d, futs !! i = Some f → d ∈ dependent_facets f → d ∈ ff_facet <$> take i futs
  end.

Section gen.
Context (fs : Facets) (Hok : facets_ok fs).

Lemma known_iter e : known (types_map fs) e ↔ ∀ d, d ∈ facet_names (e_params e) → d ∈ facet_idents fs.
Proof.
  unfold known. setoid_rewrite elem_of_facet_names. split; intros H d Hd; apply (types_map_known fs Hok); auto.
Qed.

Lemma takes_known : (∀ e, e ∈ facets_iter fs → known (types_map fs) e) ↔ ∀ x y, takes fs x y → y ∈ facet_idents fs.
Proof.
  setoid_rewrite (takes_iter fs Hok). setoid_rewrite known_iter. naive_solver.
Qed.

Lemma takes_name x y : takes fs x y → x ∈ facet_idents fs.
Proof.
  rewrite (takes_iter fs Hok). intros (e&He&<-&_). rewrite <-(iter_names fs Hok). by apply list_elem_of_fmap_2.
Qed.

Lemma params_total e : e ∈ facets_iter fs → length (e_params e) ≤ length (List.concat (facet_params fs)).
Proof.
  intros He. assert ((e_name e, e_params e) ∈ zip (facet_idents fs) (facet_params fs)) as Hz.
  { rewrite <-(iter_params fs Hok). by apply (list_elem_of_fmap_2 (λ e, (e_name e, e_params e))). }
  apply elem_of_zip_r in Hz. clear -Hz. induction (facet_params fs) as [|p l IH]; [set_solver|].
  simpl. rewrite length_app. apply elem_of_cons in Hz as [<-|Hz]; [lia|]. specialize (IH Hz). lia.
Qed.

Lemma taken_total : size (taken (facet_map fs)) ≤ length (List.concat (facet_params fs)).
Proof.
  unfold taken. assert (facet_params fs = (zip (facet_idents fs) (facet_params fs)).*2) as Hp.
  { symmetry. apply snd_zip. destruct Hok. lia. }
  assert (map_to_list (facet_map fs) ≡ₚ zip (facet_idents fs) (facet_params fs)) as Hm.
  { unfold facet_map, collect_map. rewrite map_to_list_to_map; [by rewrite reverse_Permutation|].
    rewrite fmap_reverse, reverse_Permutation, fst_zip by (destruct Hok; lia). apply (fo_names _ Hok). }
  assert (List.concat (facet_params fs) ≡ₚ List.concat (map_to_list (facet_map fs)).*2) as ->.
  { apply concat_perm. rewrite Hp at 1. by rewrite Hm. }
  clear. generalize (map_to_list (facet_map fs)) as l. intros l.
  induction l as [|[x ps] l IH]; simpl; [done|].
  rewrite length_app, size_union_alt. assert (size (list_to_set (facet_names ps) : gset string) ≤ length ps) as Hs.
  { unfold facet_names. clear. induction ps as [|[p|p] ps IH]; simpl; [done|by etrans; [exact IH|lia]|].
    rewrite size_union_alt, size_singleton. etrans; [|apply le_n_S, IH]. apply le_n_S, subseteq_size. set_solver. }
  assert (∀ X Y : gset string, size (Y ∖ X) ≤ size Y) as Hd by (intros X Y; apply subseteq_size; set_solver).
  etrans; [apply Nat.add_le_mono; [exact Hs|apply Hd]|]. by apply Nat.add_le_mono_l.
Qed.

(** What the loop over the facets leaves behind. *)
Definition parts : AsyncParts :=
  foldl add_entry {| heads := list_to_set (facet_idents fs); facet_build_futs := ∅; facet_build_graph := ∅;
                     builder_impls := []; store_facets_ := [] |} (facets_iter fs).

Lemma parts_graph x deps :
  facet_build_graph parts !! x = Some deps ↔ ∃ e, e ∈ facets_iter fs ∧ e_name e = x ∧ facet_names (e_params e) = deps.
Proof.
  unfold parts. destruct (foldl_add_entry (facets_iter fs) (Build_AsyncParts (list_to_set (facet_idents fs)) ∅ ∅ [] []))
    as (_&_&->&_&_). rewrite foldl_entries by exact (iter_names_nodup fs Hok). simpl. rewrite lookup_empty. naive_solver.
Qed.

Lemma parts_futs x f :
  facet_build_futs parts !! x = Some f ↔ ∃ e, e ∈ facets_iter fs ∧ e_name e = x ∧ future_of e = f.
Proof.
  unfold parts. destruct (foldl_add_entry (facets_iter fs) (Build_AsyncParts (list_to_set (facet_idents fs)) ∅ ∅ [] []))
    as (_&->&_&_&_). rewrite foldl_entries by exact (iter_names_nodup fs Hok). simpl. rewrite lookup_empty. naive_solver.
Qed.

Lemma parts_edge x y : edge (facet_build_graph parts) x y ↔ takes fs x y.
Proof. unfold edge. setoid_rewrite parts_graph. rewrite (takes_iter fs Hok). naive_solver. Qed.

Lemma parts_known x : is_Some (facet_build_graph parts !! x) ↔ x ∈ facet_idents fs.
Proof.
  rewrite <-(iter_names fs Hok), list_elem_of_fmap. split.
  - intros (deps&(e&He&<-&_)%parts_graph). by exists e.
  - intros (e&->&He). exists (facet_names (e_params e)). apply parts_graph. by exists e.
Qed.

Lemma parts_heads x : x ∈ heads parts ↔ x ∈ facet_idents fs ∧ ∀ z, ¬ takes fs z x.
Proof.
  unfold parts. destruct (foldl_add_entry (facets_iter fs) (Build_AsyncParts (list_to_set (facet_idents fs)) ∅ ∅ [] []))
    as (->&_&_&_&_). simpl. rewrite elem_of_difference, !elem_of_list_to_set, list_elem_of_bind.
  setoid_rewrite (takes_iter fs Hok). naive_solver.
Qed.

Lemma parts_size : size (facet_build_graph parts) ≤ length (facet_idents fs) ∧ size (heads parts) ≤ length (facet_idents fs).
Proof.
  assert (size (list_to_set (facet_idents fs) : gset string) = length (facet_idents fs)) as <-.
  { apply size_list_to_set, (fo_names _ Hok). }
  split.
  - rewrite <-size_dom. apply subseteq_size. intros x Hx. by apply elem_of_list_to_set, parts_known, elem_of_dom.
  - apply subseteq_size. intros x [Hx _]%parts_heads. by apply elem_of_list_to_set.
Qed.

Lemma order_parts fuel : facet_fuel fs < fuel → (∀ x, ¬ tc (takes fs) x x) → (∀ x y, takes fs x y → y ∈ facet_idents fs) →
  ∃ futs, order_facets fuel parts = ret futs ∧ futs ≡ₚ map future_of (facets_iter fs) ∧
    ∀ i f d, futs !! i = Some f → d ∈ dependent_facets f → d ∈ ff_facet <$> take i futs.
Proof.
  intros Hf Hac Hkn. destruct (order_facets_spec parts (S (length (List.concat (facet_params fs))))) with (fuel := fuel)
    as (futs&Ho&Hnd&Hin&Hbefore).
  - intros x y Hxy%parts_edge. apply parts_known. by eapply Hkn.
  - intros x Hx. apply (Hac x). eapply (tc_congruence id); [|exact Hx]. intros a b. apply parts_edge.
  - intros x deps (e&He&<-&<-)%parts_graph. pose proof (params_total e He).
    assert (length (facet_names (e_params e)) ≤ length (e_params e)); [|lia].
    clear. unfold facet_names. induction (e_params e) as [|[p|p] ps IH]; simpl; [done|by etrans; [exact IH|lia]|by apply le_n_S].
  - intros x [Hx _]%parts_heads. by apply parts_known.
  - intros x Hx%parts_known Hn. destruct (decide (x ∈ list_to_set (C:=gset string) (facets_iter fs ≫= λ e, facet_names (e_params e)))) as [Ht|Ht].
    + apply elem_of_list_to_set, list_elem_of_bind in Ht as (e&Hxe&He). exists (e_name e). apply parts_edge, (takes_iter fs Hok). eauto.
    + exfalso. apply Hn, parts_heads. split; [done|]. intros z (e&He&_&Hz)%(takes_iter fs Hok).
      apply Ht, elem_of_list_to_set, list_elem_of_bind. eauto.
  - intros x f (e&He&<-&<-)%parts_futs. split; [done|]. apply parts_graph. by exists e.
  - intros x [deps (e&He&Hx&_)%parts_graph]. exists (future_of e). apply parts_futs. by exists e.
  - destruct parts_size as [H1 H2]. unfold facet_fuel in Hf. eapply Nat.le_lt_trans; [|exact Hf].
    etrans; [|apply Nat.le_add_l]. apply Nat.mul_le_mono; [done|]. apply Nat.pow_le_mono_r; lia.
  - exists futs. split; [done|]. split; [|done]. apply NoDup_Permutation.
    + by eapply NoDup_fmap_1.
    + eapply (NoDup_fmap_1 ff_facet). rewrite <-list_fmap_compose. exact (iter_names_nodup fs Hok).
    + intros f. rewrite Hin. setoid_rewrite parts_futs. rewrite list_elem_of_fmap. naive_solver.
Qed.

Lemma gen_factory_builder_spec fuel : facet_fuel fs < fuel →
  ∃ r, gen_factory_builder fuel fs = ret r ∧
    match r with
    | Ok code => (∀ x, ¬ tc (takes fs) x x) ∧ (∀ x y, takes fs x y → y ∈ facet_idents fs) ∧ code_for fs code
    | Err (CyclicDependency top route) =>
        ∃ x, walk (facet_map fs) top route x ∧ takes fs x top ∧ ∀ n, nsteps (takes fs) (S n) top top → length route ≤ n
    | Err (UnrecognisedFacetName d) => (∀ x, ¬ tc (takes fs) x x) ∧ d ∉ facet_idents fs ∧ ∃ x, takes fs x d
    | Err _ => False
    end.
Proof.
  intros Hf. unfold gen_factory_builder. destruct (check_all_spec (facet_map fs) (facet_idents fs) fuel) as (r&Hr&Hc).
  { pose proof taken_total. unfold facet_fuel in Hf. lia. }
  unfold facet_map in Hr. rewrite Hr. cbn [exec_bind]. destruct r as [[]|err].
  2: { eexists. split; [done|]. destruct Hc as (top&route&x&->&_&Hc). by exists x. }
  assert (∀ x, ¬ tc (takes fs) x x) as Hac.
  { intros x Hx. apply (Hc x); [|done]. inversion Hx; subst; by eapply takes_name. }
  assert (∀ err, unknown (types_map fs) (facets_iter fs) err →
    ∃ d, err = UnrecognisedFacetName d ∧ d ∉ facet_idents fs ∧ ∃ x, takes fs x d) as Hunk.
  { intros err (e&d&->&He&Hd&Hn). exists d. split; [done|]. split.
    - intros [ty Hty]%(types_map_known fs Hok). by rewrite Hty in Hn.
    - exists (e_name e). apply (takes_iter fs Hok). exists e. by rewrite elem_of_facet_names. }
  destruct (asyncness_any (facet_asyncnesses fs)) eqn:Ha.
  - unfold gen_sync_factory_builder. destruct (gen_sync_impls_spec (types_map fs) (facets_iter fs)) as (r&->&Hg).
    { intros e He%iter_asyncness. unfold asyncness_any in Ha. destruct (existsb _ _) eqn:Hx; [done|].
      destruct (e_asyncness e) eqn:Hea; [done|]. exfalso. apply not_true_iff_false in Hx. apply Hx, existsb_exists.
      exists Asynchronous. split; [by apply list_elem_of_In|done]. }
    simpl. destruct r as [impls|err]; (eexists; split; [done|]).
    + destruct Hg as [-> Hg]. split_and!; [done|by apply takes_known|done].
    + destruct (Hunk err Hg) as (d&->&Hd). done.
  - unfold gen_async_factory_builder. pose proof (gen_async_parts_spec (types_map fs) (facets_iter fs)
      (Build_AsyncParts (list_to_set (facet_idents fs)) ∅ ∅ [] [])) as Hg.
    destruct (gen_async_parts _ _ _) as [st|err].
    + destruct Hg as [Hst Hg]. fold parts in Hst. subst st. pose proof (proj1 takes_known Hg) as Hkn.
      destruct (order_parts fuel Hf Hac Hkn) as (futs&->&Hp&Ho). cbn [exec_bind]. eexists. split; [done|].
      split_and!; [done..|]. simpl. unfold parts.
      destruct (foldl_add_entry (facets_iter fs) (Build_AsyncParts (list_to_set (facet_idents fs)) ∅ ∅ [] []))
        as (_&_&_&->&->). simpl. split_and!; [done..|by apply iter_names|done].
    + destruct (Hunk err Hg) as (d&->&Hd). eexists. by split.
Qed.
End gen.

(** * From the source of the factory to its facets *)

Definition method_names (its : list ImplItem) : list string :=
  omap (λ it, match it with ItemFn sig => Some (ident sig) | ItemOther => None end) its.

(** The lists of facets grow together. *)
Definition same_lengths (fs : Facets) : Prop :=
  let n := length (facet_idents fs) in
  length (facet_types fs) = n ∧ length (facet_fallibilities fs) = n ∧ length (facet_asyncnesses fs) = n ∧
  length (facet_params fs) = n.

Lemma extract_items_spec is_ident params its fs fs' :
  extract_items is_ident params its fs = ret (Ok fs') → same_lengths fs →
  facet_idents fs' = facet_idents fs ++ method_names its ∧ same_lengths fs'.
Proof.
  revert fs. induction its as [|[sig|] its IH]; intros fs; simpl.
  - intros [= ->]. by rewrite app_nil_r.
  - intros H Hl. destruct (extract_facet_params _ _ _) as [[ps|]|]; [|done..]. simpl in H.
    destruct (extract_facet_return_type _) as [[ty f]|]; [|done]. destruct (IH _ H) as [-> Hs].
    + unfold same_lengths in *. simpl. rewrite !length_app. simpl. lia.
    + simpl. by rewrite <-app_assoc.
  - apply IH.
Qed.

Lemma extract_facets_ok is_ident params factory fs : NoDup (method_names (items factory)) →
  extract_from_impl is_ident params factory = ret (Ok fs) → facets_ok fs ∧ facet_idents fs = method_names (items factory).
Proof.
  intros Hnd H. unfold extract_from_impl in H. apply extract_items_spec in H as [Hi (?&?&?&?)]; [|done].
  simpl in Hi. split; [|done]. by split; [rewrite Hi|..].
Qed.

(** A parameter like [_0] of a method is stripped to what is no identifier. *)
Lemma stripped_panics is_ident params s ty :
  is_ident s = false → factory_param_parse is_ident params (PatIdent (String "_"%char s)) ty = panic.
Proof. intros Hs. unfold factory_param_parse, strip_leading_underscore, ident_new. by rewrite Hs. Qed.

Lemma gen_factory_spec is_ident fuel params factory fs name : NoDup (method_names (items factory)) →
  extract_type_ident (self_ty factory) = Ok name → extract_from_impl is_ident params factory = ret (Ok fs) →
  facets_ok fs ∧ gen_factory is_ident fuel params factory = gen_factory_builder fuel fs.
Proof.
  intros Hnd Ht He. destruct (extract_facets_ok _ _ _ _ Hnd He) as [Hok _]. split; [done|].
  unfold gen_factory. by rewrite Ht, He.
Qed.

(** ** What the macro checks, in the order in which it does *)

Inductive verdict := Accepts | Refuses (e : Error) | Panics.

Fixpoint verdict_of (checks : list verdict) : verdict :=
  match checks with [] => Accepts | Accepts :: checks => verdict_of checks | v :: _ => v end.

(** The name of an argument without an underscore in front. *)
Definition stripped (i : string) : string := match i with String "_"%char s => s | _ => i end.

Definition check_argument (is_ident : string → bool) (arg : FnArg) : verdict :=
  match arg with
  | Receiver => Accepts
  | Typed PatOther _ => Refuses ExpectedIdentType
  | Typed (PatIdent i) ty =>
      if decide (stripped i ≠ i ∧ is_ident (stripped i) = false) then Panics
      else match ty with TypeReference _ => Accepts | _ => Refuses MustTakeReference end
  end.
Definition check_return (output : option Ty) : verdict :=
  match extract_facet_return_type output with Ok _ => Accepts | Err e => Refuses e end.
Definition check_self (ty : Ty) : verdict := match ty with TypePath [(_, ArgsNone)] => Accepts | _ => Refuses NotLocalConcreteType end.

Definition methods (its : list ImplItem) : list Signature := omap (λ it, match it with ItemFn sig => Some sig | ItemOther => None end) its.
Definition check_method (is_ident : string → bool) (sig : Signature) : list verdict :=
  (check_argument is_ident <$> inputs sig) ++ [check_return (output sig)].
Definition checks (is_ident : string → bool) (factory : ItemImpl) : list verdict :=
  check_self (self_ty factory) :: (methods (items factory) ≫= check_method is_ident).

(** The method [x] takes the facet [y]: by reference, and not as a parameter of the factory. *)
Definition takes_argument (params : Params) (sig : Signature) (y : string) : Prop :=
  ∃ i elem, Typed (PatIdent i) (TypeReference elem) ∈ inputs sig ∧ stripped i = y ∧ y ∉ param_idents params.
Definition takes_facet (params : Params) (factory : ItemImpl) (x y : string) : Prop :=
  ∃ sig, sig ∈ methods (items factory) ∧ ident sig = x ∧ takes_argument params sig y.

(** Going from [x] along [route] and on to [z]. *)
Fixpoint leads (R : relation string) (x : string) (route : list string) (z : string) : Prop :=
  match route with [] => R x z | y :: route => R x y ∧ leads R y route z end.

(** Rounds that are enough for the searches. *)
Definition is_typed (arg : FnArg) : bool := match arg with Typed _ _ => true | Receiver => false end.
Definition typed_arguments (sig : Signature) : list FnArg := filter is_typed (inputs sig).
Definition factory_fuel (factory : ItemImpl) : nat :=
  let total := length (methods (items factory) ≫= typed_arguments) in
  let n := length (methods (items factory)) in
  2 + total + n * S total ^ S n.

Lemma verdict_of_app l1 l2 : verdict_of (l1 ++ l2) = match verdict_of l1 with Accepts => verdict_of l2 | v => v end.
Proof. induction l1 as [|[] l1 IH]; [done|exact IH|done|done]. Qed.

Lemma method_names_methods its : method_names its = ident <$> methods its.
Proof. induction its as [|[sig|] its IH]; [done|exact (f_equal (cons (ident sig)) IH)|exact IH]. Qed.

Lemma strip_ok is_ident i :
  strip_leading_underscore is_ident i = if decide (stripped i ≠ i ∧ is_ident (stripped i) = false) then panic else ret (stripped i).
Proof.
  assert (∀ c s, s ≠ String c s) as Hne by (intros c s; induction s; congruence).
  unfold strip_leading_underscore, stripped. destruct i as [|c s]; [by rewrite decide_False by naive_solver|].
  destruct c as [[] [] [] [] [] [] [] []]; try (by rewrite decide_False by naive_solver).
  unfold ident_new. destruct (is_ident s) eqn:Hs; case_decide as Hd; naive_solver.
Qed.

(** What is read from the arguments of a method. *)
Definition reads (params : Params) (sig : Signature) (ps : list FactoryParam) : Prop :=
  length ps = length (typed_arguments sig) ∧ ∀ y, Facet y ∈ ps ↔ takes_argument params sig y.

Lemma extract_params_verdict is_ident params ins :
  match verdict_of (check_argument is_ident <$> ins) with
  | Accepts => ∃ ps, extract_facet_params is_ident params ins = ret (Ok ps) ∧
      length ps = length (filter is_typed ins) ∧
      ∀ y, Facet y ∈ ps ↔ ∃ i elem, Typed (PatIdent i) (TypeReference elem) ∈ ins ∧ stripped i = y ∧ y ∉ param_idents params
  | Refuses e => extract_facet_params is_ident params ins = ret (Err e)
  | Panics => extract_facet_params is_ident params ins = panic
  end.
Proof.
  induction ins as [|[|[i|] ty] ins IH]; csimpl.
  - exists []. split_and!; [done..|]. intros y. split; [set_solver|]. by intros (?&?&?%not_elem_of_nil&_).
  - destruct (verdict_of _); [|done..]. destruct IH as (ps&->&Hl&Hps). exists ps.
    split_and!; [done..|]. intros y. rewrite Hps. setoid_rewrite elem_of_cons. naive_solver.
  - rewrite strip_ok. case_decide as Hi; [done|]. destruct ty as [|elem|]; [done| |done]. simpl.
    destruct (verdict_of _); [|by rewrite IH..]. destruct IH as (ps&->&Hl&Hps). eexists. split; [done|].
    split; [csimpl; by rewrite Hl|]. intros y. rewrite elem_of_cons, Hps.
    setoid_rewrite elem_of_cons. case_bool_decide as Hp; naive_solver.
  - done.
Qed.

Lemma extract_items_verdict is_ident params its fs0 :
  match verdict_of (methods its ≫= check_method is_ident) with
  | Accepts => ∃ fs pss, extract_items is_ident params its fs0 = ret (Ok fs) ∧
      facet_params fs = facet_params fs0 ++ pss ∧ Forall2 (reads params) (methods its) pss
  | Refuses e => extract_items is_ident params its fs0 = ret (Err e)
  | Panics => extract_items is_ident params its fs0 = panic
  end.
Proof.
  revert fs0. induction its as [|[sig|] its IH]; intros fs0; csimpl.
  - exists fs0, []. by rewrite app_nil_r.
  - unfold check_method at 1. rewrite <-app_assoc, verdict_of_app. pose proof (extract_params_verdict is_ident params (inputs sig)) as Hps.
    destruct (verdict_of (check_argument is_ident <$> inputs sig)) as [|e|]; [|by rewrite Hps..].
    destruct Hps as (ps&->&Hps). simpl. unfold check_return. destruct (extract_facet_return_type _) as [[ty f]|e]; [|done].
    specialize (IH (push_facet fs0 (ident sig) ty f (asyncness_from (asyncness sig)) ps)).
    destruct (verdict_of _); [|done..]. destruct IH as (fs&pss&->&Hfs&Hall). exists fs, (ps :: pss). split; [done|].
    split; [by rewrite Hfs; simpl; rewrite <-app_assoc|]. by constructor.
  - apply IH.
Qed.

(** A factory that passes the checks has the facets that its methods say. *)
Lemma checks_accept is_ident params factory :
  NoDup (method_names (items factory)) → verdict_of (methods (items factory) ≫= check_method is_ident) = Accepts →
  ∃ fs, extract_from_impl is_ident params factory = ret (Ok fs) ∧ facets_ok fs ∧ facet_idents fs = method_names (items factory) ∧
    facet_fuel fs = factory_fuel factory ∧ ∀ x y, takes fs x y ↔ takes_facet params factory x y.
Proof.
  intros Hnd Hv. pose proof (extract_items_verdict is_ident params (items factory) (Build_Facets [] [] [] [] [])) as He.
  rewrite Hv in He. destruct He as (fs&pss&He&Hps&Hall). simpl in Hps. subst pss.
  destruct (extract_facets_ok is_ident params factory fs Hnd He) as [Hok Hn]. exists fs. split_and!; [done..| |].
  - unfold facet_fuel, factory_fuel. rewrite Hn, method_names_methods, length_fmap.
    assert (length (List.concat (facet_params fs)) = length (methods (items factory) ≫= typed_arguments)) as ->; [|done].
    clear -Hall. induction Hall as [|sig ps sigs pss [Hl _] _ IH]; csimpl; [done|]. rewrite !length_app. lia.
  - intros x y. rewrite (takes_iter fs Hok). transitivity (∃ ps, (x, ps) ∈ zip (facet_idents fs) (facet_params fs) ∧ Facet y ∈ ps).
    + rewrite <-(iter_params fs Hok). setoid_rewrite list_elem_of_fmap. setoid_rewrite elem_of_facet_names. naive_solver.
    + rewrite Hn, method_names_methods. unfold takes_facet. clear -Hall.
      induction Hall as [|sig ps sigs pss [_ Hps] _ IH]; csimpl; [set_solver|]. setoid_rewrite elem_of_cons.
      assert ((∃ ps0, ((x, ps0) = (ident sig, ps) ∨ (x, ps0) ∈ zip (ident <$> sigs) pss) ∧ Facet y ∈ ps0) ↔
        (x = ident sig ∧ Facet y ∈ ps) ∨ ∃ ps0, (x, ps0) ∈ zip (ident <$> sigs) pss ∧ Facet y ∈ ps0) as -> by naive_solver.
      rewrite IH, Hps. naive_solver.
Qed.

Lemma walk_leads m R top route x z : (∀ a b, depends m a b → R a b) → walk m top route x → R x z → leads R top route z.
Proof.
  intros HR Hw. revert z. induction Hw as [|r x y _ IH Hxy]; intros z Hz; [done|]. specialize (IH y (HR _ _ Hxy)).
  clear Hxy. revert top IH. induction r as [|a r IHr]; intros top IH; simpl in *; [done|]. destruct IH. split; [done|by apply IHr].
Qed.

Lemma nsteps_leads R x route z : leads R x route z → nsteps R (S (length route)) x z.
Proof.
  revert x. induction route as [|y route IH]; intros x; simpl; [by apply nsteps_once|]. intros [Hxy Hz]. econstructor; [exact Hxy|by apply IH].
Qed.

(** C30: the factory macro, on every factory whose methods have names of their own, for fuel enough:
    the first check that fails decides, in the order of the source: the factory is refused if the
    type of its [impl] is not a local one; for each method, if an argument is no plain identifier or
    not a reference, and after its arguments if the return type gives no facet; the macro panics at
    an argument whose name, less the underscore in front, is no identifier.  If all checks pass it
    ends without a panic.  It then refuses a factory with a facet that depends on itself, naming such
    a facet and a shortest way round; it refuses, among those without cycles, a factory with a method
    that takes a facet that no method makes, and names it; and it generates a builder for all
    others. *)
Theorem factory_checked is_ident fuel params factory :
  NoDup (method_names (items factory)) → factory_fuel factory < fuel →
  let takes := takes_facet params factory in
  let built := method_names (items factory) in
  match verdict_of (checks is_ident factory) with
  | Panics => gen_factory is_ident fuel params factory = panic
  | Refuses e => gen_factory is_ident fuel params factory = ret (Err e)
  | Accepts =>
      ∃ r, gen_factory is_ident fuel params factory = ret r ∧
        match r with
        | Ok _ => (∀ x, ¬ tc takes x x) ∧ (∀ x y, takes x y → y ∈ built)
        | Err (CyclicDependency top route) =>
            leads takes top route top ∧ ∀ route', leads takes top route' top → length route ≤ length route'
        | Err (UnrecognisedFacetName d) => (∀ x, ¬ tc takes x x) ∧ d ∉ built ∧ ∃ x, takes x d
        | Err _ => False
        end
  end.
Proof.
  intros Hnd Hf takes built. unfold checks, gen_factory.
  assert (extract_type_ident (self_ty factory) = match check_self (self_ty factory) with Accepts => Ok (match self_ty factory with TypePath [(i, _)] => i | _ => ""%string end) | _ => Err NotLocalConcreteType end) as ->.
  { unfold extract_type_ident, check_self. by destruct (self_ty factory) as [[|[? []] []]| |]. }
  assert (check_self (self_ty factory) = Accepts ∨ check_self (self_ty factory) = Refuses NotLocalConcreteType) as [->| ->]; [|simpl|done].
  { unfold check_self. destruct (self_ty factory) as [[|[? []] []]| |]; auto. }
  destruct (verdict_of (methods (items factory) ≫= check_method is_ident)) as [|e|] eqn:Hv.
  - destruct (checks_accept is_ident params factory Hnd Hv) as (fs&->&Hok&Hn&Hfuel&Ht). simpl. rewrite <-Hfuel in Hf.
    destruct (gen_factory_builder_spec fs Hok fuel Hf) as (r&->&Hr). exists r. split; [done|].
    assert (∀ a b, tc takes a b → tc (FacetOrder.takes fs) a b) as Htc.
    { induction 1 as [a b Hab|a b c Hab _ IH]; [apply tc_once; apply Ht; exact Hab|]. eapply tc_l; [apply Ht; exact Hab|exact IH]. }
    destruct r as [code|[]]; try done.
    + destruct Hr as (Hc&Hk&_). split; [intros x Hx%Htc; by apply (Hc x)|]. intros x y Hxy%Ht. unfold built. rewrite <-Hn. by eapply Hk.
    + destruct Hr as (Hc&Hd&x&Hx). split; [intros y Hy%Htc; by apply (Hc y)|]. split; [unfold built; by rewrite <-Hn|]. exists x. by apply Ht.
    + destruct Hr as (x&Hw&Hx&Hmin). split; [eapply walk_leads; [|exact Hw|by apply Ht]; intros a b; by apply Ht|].
      intros route' Hl%nsteps_leads. apply Hmin. eapply (nsteps_congruence id); [|exact Hl]. intros a b. apply Ht.
  - pose proof (extract_items_verdict is_ident params (items factory) (Build_Facets [] [] [] [] [])) as He. rewrite Hv in He.
    unfold extract_from_impl. by rewrite He.
  - pose proof (extract_items_verdict is_ident params (items factory) (Build_Facets [] [] [] [] [])) as He. rewrite Hv in He.
    unfold extract_from_impl. by rewrite He.
Qed.

(** The asynchronous builder defines a future for every facet, each once, and each after
    the futures of the facets it takes, so that the definitions that it clones are in scope. *)
Theorem futures_in_order is_ident fuel params factory fs name :
  NoDup (method_names (items factory)) → extract_type_ident (self_ty factory) = Ok name →
  extract_from_impl is_ident params factory = ret (Ok fs) → facet_fuel fs < fuel →
  Asynchronous ∈ facet_asyncnesses fs → (∀ x, ¬ tc (takes fs) x x) → (∀ x y, takes fs x y → y ∈ facet_idents fs) →
  ∃ impls futs, gen_factory is_ident fuel params factory = ret (Ok (AsyncBuilder impls futs (facet_idents fs))) ∧
    ff_facet <$> futs ≡ₚ facet_idents fs ∧
    ∀ i f, futs !! i = Some f →
      (∀ d, d ∈ dependent_facets f ↔ takes fs (ff_facet f) d) ∧
      ∀ d, takes fs (ff_facet f) d → d ∈ ff_facet <$> take i futs.
Proof.
  intros Hnd Ht He Hf Ha Hac Hkn. destruct (gen_factory_spec is_ident fuel params factory fs name Hnd Ht He) as [Hok ->].
  destruct (gen_factory_builder_spec fs Hok fuel Hf) as (r&->&Hr). destruct r as [code|[| | | | |u|top route]]; try done.
  - destruct Hr as (_&_&Hc). destruct code as [impls|impls futs stores].
    { exfalso. destruct Hc as [Hs _]. unfold asyncness_any in Hs. destruct (existsb _ _) eqn:Hx; [done|].
      apply not_true_iff_false in Hx. apply Hx, existsb_exists. exists Asynchronous. by rewrite <-list_elem_of_In. }
    destruct Hc as (_&_&Hp&->&Ho). exists impls, futs. split; [done|].
    rewrite Hp, <-list_fmap_compose. split; [by rewrite <-(iter_names fs Hok)|].
    intros i f Hi. assert (∀ d, d ∈ dependent_facets f ↔ takes fs (ff_facet f) d) as Hd.
    { assert (f ∈ map future_of (facets_iter fs)) as (e&->&Hin)%list_elem_of_fmap by (rewrite <-Hp; by eapply list_elem_of_lookup_2).
      intros d. simpl. rewrite (takes_iter fs Hok). split; [naive_solver|]. intros (e'&He'&Heq&Hd).
      by rewrite (iter_name_inj fs Hok e e'). }
    split; [done|]. intros d Hfd%Hd. by eapply Ho.
  - destruct Hr as (_&Hn&x&Hx). exfalso. by apply Hn, (Hkn x).
  - destruct Hr as (x&Hw&Hx&_). exfalso. apply (Hac top). apply walk_nsteps, rtc_nsteps_2 in Hw.
    eapply tc_rtc_l; [exact Hw|by apply tc_once].
Qed.

Section witnesses.
(** A factory whose facet "c" takes "a" and "b", and whose "b" takes "a". *)
Definition ty_arc (s : string) : Ty := TypePath [(s, ArgsNone)].
Definition facet_arg (s : string) : FnArg := Typed (PatIdent s) (TypeReference (ty_arc s)).
Definition demo_method (asy : bool) (name : string) (deps : list string) : ImplItem :=
  ItemFn {| asyncness := asy; ident := name; inputs := Receiver :: map facet_arg deps; output := Some (ty_arc name) |}.
Definition demo_factory (asy : bool) : ItemImpl :=
  {| self_ty := ty_arc "Factory";
     items := [demo_method false "c" ["a"; "_b"]; ItemOther; demo_method asy "b" ["a"; "p"]; demo_method false "a" []] |}%string.
Definition demo_params : Params := {| param_idents := ["p"%string]; param_types := [ty_arc "P"] |}.
Definition demo_facets (asy : bool) : Facets :=
  Eval vm_compute in
    match extract_from_impl (λ _, true) demo_params (demo_factory asy) with ret (Ok fs) => fs | _ => Build_Facets [] [] [] [] [] end.

Lemma gen_ok_acyclic fs fuel code : facets_ok fs → facet_fuel fs < fuel → gen_factory_builder fuel fs = ret (Ok code) →
  (∀ x, ¬ tc (takes fs) x x) ∧ (∀ x y, takes fs x y → y ∈ facet_idents fs) ∧ code_for fs code.
Proof. intros Hok Hf Hg. destruct (gen_factory_builder_spec fs Hok fuel Hf) as (r&Hr&Hs). rewrite Hg in Hr. by injection Hr as <-. Qed.

(** A factory that is accepted, one at which the macro panics, and one that takes a value. *)
Definition odd_factory (arg : FnArg) : ItemImpl :=
  {| self_ty := ty_arc "Factory";
     items := [ItemFn {| asyncness := false; ident := "a"; inputs := [Receiver; arg]; output := Some (ty_arc "A") |}] |}%string.

Lemma factory_checked_witness :
  (∃ r, gen_factory (λ _, true) 2000 demo_params (demo_factory false) = ret r ∧ is_ok r = true ∧
     ∀ x, ¬ tc (takes_facet demo_params (demo_factory false)) x x) ∧
  gen_factory (λ s, negb (String.eqb s "0")) 2000 demo_params (odd_factory (Typed (PatIdent "_0") (TypeReference (ty_arc "B")))) = panic ∧
  gen_factory (λ _, true) 2000 demo_params (odd_factory (Typed (PatIdent "b") (ty_arc "B"))) = ret (Err MustTakeReference).
Proof.
  assert (∀ arg, NoDup (method_names (items (odd_factory arg)))) as Hodd by (intros arg; apply NoDup_singleton).
  split_and!.
  - destruct (factory_checked (λ _, true) 2000 demo_params (demo_factory false)) as (r&Hr&Hs).
    { by apply (bool_decide_unpack _). }
    { apply Nat.ltb_lt. by vm_compute. }
    exists r. assert (gen_factory (λ _, true) 2000 demo_params (demo_factory false) = ret r) as H by exact Hr.
    vm_compute in H. injection H as <-. split; [exact Hr|]. split; [done|]. apply Hs.
  - apply (factory_checked (λ s, negb (String.eqb s "0")) 2000 demo_params (odd_factory (Typed (PatIdent "_0") (TypeReference (ty_arc "B")))));
      [apply Hodd|apply Nat.ltb_lt; by vm_compute].
  - apply (factory_checked (λ _, true) 2000 demo_params (odd_factory (Typed (PatIdent "b") (ty_arc "B"))));
      [apply Hodd|apply Nat.ltb_lt; by vm_compute].
Defined.

Lemma futures_in_order_witness :
  Asynchronous ∈ facet_asyncnesses (demo_facets true) ∧
  ∃ impls futs, gen_factory (λ _, true) 2000 demo_params (demo_factory true) = ret (Ok (AsyncBuilder impls futs ["c"; "b"; "a"]%string)) ∧
    ff_facet <$> futs ≡ₚ ["c"; "b"; "a"]%string.
Proof.
  assert (Asynchronous ∈ facet_asyncnesses (demo_facets true)) as Ha by by apply (bool_decide_unpack _).
  split; [done|].
  assert (facet_fuel (demo_facets true) < 2000) as Hf by (apply Nat.ltb_lt; by vm_compute).
  assert (facets_ok (demo_facets true)) as Hok by (split; [by apply (bool_decide_unpack _)|done..]).
  destruct (gen_ok_acyclic (demo_facets true) 2000 _ Hok Hf ltac:(by vm_compute)) as (Hac&Hkn&_).
  destruct (futures_in_order (λ _, true) 2000 demo_params (demo_factory true) (demo_facets true) "Factory")
    as (impls&futs&Hg&Hp&_); [by apply (bool_decide_unpack _)|done|by vm_compute|done..|].
  exists impls, futs. by split.
Defined.
End witnesses.
End FacetOrder.
