(* ===== verification/FacetSync.v ===== *)
(** The synchronous builder that [facet::factory] generates (the templates in
    src/shed/facet/proc_macros/factory_impl.rs), and containers built with it (the templates in
    container_impl.rs): every facet is built once, after the facets it takes, and shared.

    The methods of the factory are parameters that answer by the calls made before, so that
    they may keep state; what a method is called with is recorded.  The fields of a container
    with an [init] expression are the user's code and are left out. *)
From stdpp Require Import relations.
From S2P Require Import Prelude RustStd RustStr FacetMacro FacetOrder.
Import FacetMacro FacetOrder.

Module FacetSync.
#[local] Abbreviation length := List.length.

(** [FactoryError] of src/shed/facet/src/lib.rs. *)
Inductive FactoryError (E : Type) := FacetBuildFailed (name : string) (source : E).
Arguments FacetBuildFailed {E}.

Inductive Arg (V P : Type) := ArgFacet (v : V) | ArgParam (p : P).
Arguments ArgFacet {V P}.
Arguments ArgParam {V P}.

(** A call of a method of the factory. *)
Record Call (V P : Type) := { called : string; args : list (Arg V P) }.
Arguments Build_Call {V P}.
Arguments called {V P}.
Arguments args {V P}.

(** A container: its delegates, which are containers, and its facets. *)
Inductive Container := MkContainer (delegates : list Container) (own : list string).
Inductive Built (V : Type) := MkBuilt (delegates : list (Built V)) (own : list V).
Arguments MkBuilt {V}.

(** The facets of a container, its own and those of its delegates. *)
Fixpoint container_facets (c : Container) : list string :=
  match c with MkContainer delegates own => (delegates ≫= container_facets) ++ own end.

Section sync.
Context {V E P : Type} `{BuildMode}.
#[local] Abbreviation Call := (Call V P).
#[local] Abbreviation Arg := (Arg V P).

(** The methods that cannot fail, and those that return a [Result]. *)
Context (factory_ok : string → list Call → list Arg → V) (factory_try : string → list Call → list Arg → result V E).
Context (param : string → P).
Context (impls : list BuilderImpl).

Record Builder := { facets : gmap string V; calls : list Call }.
Implicit Types b : Builder.

Definition find_impl (x : string) : option BuilderImpl := find (λ i, bool_decide (bi_facet i = x)) impls.

(** [self.factory.facet(..)] with its [.map_err(..)?]. *)
Definition answer (impl : BuilderImpl) (history : list Call) (a : list Arg) : result V (FactoryError E) :=
  if bi_map_err impl then
    match factory_try (bi_facet impl) history a with
    | Ok v => Ok v
    | Err e => Err (FacetBuildFailed (bi_facet impl) e)
    end
  else Ok (factory_ok (bi_facet impl) history a).

Definition call_factory (impl : BuilderImpl) b (a : list Arg) : result V (FactoryError E) * Builder :=
  (answer impl (calls b) a, {| facets := facets b; calls := calls b ++ [Build_Call (bi_facet impl) a] |}).

(** A sequence of [let x = f(builder)?;]. *)
Definition try_map {A B} (f : A → Builder → exec (result B (FactoryError E) * Builder))
  : list A → Builder → exec (result (list B) (FactoryError E) * Builder) :=
  fix go l b :=
    match l with
    | [] => ret (Ok [], b)
    | a :: l =>
        let! '(r, b) := f a b in
        match r with
        | Err e => ret (Err e, b)
        | Ok y =>
            let! '(rs, b) := go l b in
            ret (match rs with Ok ys => Ok (y :: ys) | Err e => Err e end, b)
        end
    end.

(** [#( #call_params ),*], where a facet is a variable bound before. *)
Fixpoint call_args (env : gmap string V) (params : list CallParam) : exec (list Arg) :=
  match params with
  | [] => ret []
  | CallSelfParam i :: params => let! rest := call_args env params in ret (ArgParam (param i) :: rest)
  | CallFacet i :: params =>
      let! v := expect (env !! i) in
      let! rest := call_args env params in ret (ArgFacet v :: rest)
  end.

(** [<Builder as Builder<Facet>>::build]. *)
Fixpoint build (fuel : nat) (x : string) b : exec (result V (FactoryError E) * Builder) :=
  match fuel with
  | O => panic
  | S fuel =>
      let! impl := expect (find_impl x) in
      match facets b !! x with
      | Some facet => ret (Ok facet, b)
      | None =>
          let! '(made, b) := try_map (build fuel) (make_facets impl) b in
          match made with
          | Err e => ret (Err e, b)
          | Ok vs =>
              let! a := call_args (collect_map (zip (make_facets impl) vs)) (bi_call_params impl) in
              let '(r, b) := call_factory impl b a in
              match r with
              | Err e => ret (Err e, b)
              | Ok facet =>
                  let! _ := debug_assert (is_none (facets b !! x)) in
                  ret (Ok facet, {| facets := <[x := facet]> (facets b); calls := calls b |})
              end
          end
      end
  end.

(** [<Container as Buildable<Builder>>::build]. *)
Fixpoint container_build (fuel : nat) (c : Container) b : exec (result (Built V) (FactoryError E) * Builder) :=
  match c with
  | MkContainer delegates own =>
      let! '(ds, b) := try_map (container_build fuel) delegates b in
      match ds with
      | Err e => ret (Err e, b)
      | Ok ds =>
          let! '(vs, b) := try_map (build fuel) own b in
          ret (match vs with Ok vs => Ok (MkBuilt ds vs) | Err e => Err e end, b)
      end
  end.

(** [Factory::build]: a new builder for every container. *)
Definition factory_build (fuel : nat) (c : Container) : exec (result (Built V) (FactoryError E) * Builder) :=
  container_build fuel c {| facets := ∅; calls := [] |}.
End sync.

(** A container read off a map of its facets: what it holds when all of them are shared. *)
Definition all_some {A B} (f : A → option B) : list A → option (list B) :=
  fix go l := match l with [] => Some [] | a :: l => y ← f a; ys ← go l; Some (y :: ys) end.

Fixpoint container_of {V} (facets : gmap string V) (c : Container) : option (Built V) :=
  match c with
  | MkContainer delegates own =>
      ds ← all_some (container_of facets) delegates;
      vs ← all_some (λ x, facets !! x) own;
      Some (MkBuilt ds vs)
  end.

(** * What a run of the builder does *)

Lemma container_induction (P : Container → Prop) :
  (∀ delegates own, Forall P delegates → P (MkContainer delegates own)) → ∀ c, P c.
Proof.
  intros H. fix IH 1. intros [delegates own]. apply H. induction delegates as [|d ds IHd]; constructor; [apply IH|exact IHd].
Qed.

Lemma all_some_Some {A B} (f : A → option B) l ys : all_some f l = Some ys ↔ Forall2 (λ a y, f a = Some y) l ys.
Proof.
  revert ys. induction l as [|a l IH]; intros ys; simpl.
  - split; [intros [= <-]; constructor|by inversion 1].
  - split.
    + destruct (f a) as [y|] eqn:Ha; simpl; [|done]. destruct (all_some f l) as [ys'|]; simpl; [|done].
      intros [= <-]. constructor; [done|by apply IH].
    + inversion 1 as [|? y ? ys' Hy Hl]; subst. apply IH in Hl. by rewrite Hy, Hl.
Qed.

Lemma container_of_mono {V} (m m' : gmap string V) c t : m ⊆ m' → container_of m c = Some t → container_of m' c = Some t.
Proof.
  intros Hm. revert t. induction c as [delegates own IH] using container_induction. intros t. simpl.
  destruct (all_some (container_of m) delegates) as [ds|] eqn:Hd; [|done].
  destruct (all_some (λ x, m !! x) own) as [vs|] eqn:Ho; [|done]. simpl. intros [= <-].
  assert (all_some (container_of m') delegates = Some ds) as ->.
  { apply all_some_Some in Hd. apply all_some_Some. induction Hd as [|d t delegates ds Hd _ IHd]; [constructor|].
    inversion IH; subst. constructor; auto. }
  assert (all_some (λ x, m' !! x) own = Some vs) as ->; [|done].
  apply all_some_Some in Ho. apply all_some_Some. eapply Forall2_impl; [exact Ho|]. intros x v Hx. exact (lookup_weaken m m' x v Hx Hm).
Qed.

Section theory.
Context {V E P : Type} `{BuildMode}.
#[local] Abbreviation Call := (Call V P).
#[local] Abbreviation Arg := (Arg V P).
Context (factory_ok : string → list Call → list Arg → V) (factory_try : string → list Call → list Arg → result V E).
Context (param : string → P).
Context (fs : Facets) (Hok : facets_ok fs) (acyclic : ∀ x, ¬ tc (takes fs) x x)
  (taken_known : ∀ x y, takes fs x y → y ∈ facet_idents fs).
#[local] Abbreviation impls := (map impl_of (facets_iter fs)).
#[local] Abbreviation answer := (answer factory_ok factory_try).
#[local] Abbreviation build := (build factory_ok factory_try param impls).
#[local] Abbreviation find_impl := (find_impl impls).
#[local] Abbreviation Builder := (@Builder V P).
Implicit Types (b : Builder) (h : list Call).

(** The [i]th call made [v] the facet [x]. *)
Definition answers h (i : nat) (x : string) (v : V) : Prop :=
  ∃ c impl, h !! i = Some c ∧ called c = x ∧ find_impl x = Some impl ∧ answer impl (take i h) (args c) = Ok v.

(** The argument of the [i]th call for a parameter: that of the factory, or the facet that an
    earlier call made. *)
Definition arg_ok h (i : nat) (p : CallParam) (a : Arg) : Prop :=
  match p, a with
  | CallSelfParam n, ArgParam v => v = param n
  | CallFacet d, ArgFacet v => ∃ j, j < i ∧ answers h j d v
  | _, _ => False
  end.

(** No method is called twice, and every one with the facets it takes. *)
Record calls_ok h : Prop := {
  co_once : NoDup (map called h);
  co_args : ∀ i c, h !! i = Some c → ∃ impl, find_impl (called c) = Some impl ∧ Forall2 (arg_ok h i) (bi_call_params impl) (args c);
}.

(** The builder holds what the calls made, none of which failed. *)
Record sound b : Prop := {
  so_calls : calls_ok (calls b);
  so_facets : ∀ x v, facets b !! x = Some v ↔ ∃ i, answers (calls b) i x v;
  so_answered : ∀ i c, calls b !! i = Some c → ∃ v, answers (calls b) i (called c) v;
}.

(** The last call, and no other, failed. *)
Definition failed b (err : FactoryError E) : Prop :=
  ∃ b0 impl a, sound b0 ∧ calls b = calls b0 ++ [Build_Call (bi_facet impl) a] ∧ calls_ok (calls b) ∧
    find_impl (bi_facet impl) = Some impl ∧ answer impl (calls b0) a = Err err.

(** A computation from [b] that calls only methods in [S] and does not panic. *)
Definition goes {A} (S : string → Prop) b (Q : A → gmap string V → Prop)
    (m : exec (result A (FactoryError E) * Builder)) : Prop :=
  ∃ r b' new, m = ret (r, b') ∧ calls b' = calls b ++ new ∧ Forall (λ c, S (called c)) new ∧
    match r with Ok y => sound b' ∧ facets b ⊆ facets b' ∧ Q y (facets b') | Err err => failed b' err end.

Lemma goes_impl {A} (S S' : string → Prop) b (Q Q' : A → gmap string V → Prop) m :
  goes S b Q m → (∀ x, S x → S' x) → (∀ y k, Q y k → Q' y k) → goes S' b Q' m.
Proof.
  intros (r&b'&new&->&Hc&Hn&Hr) HS HQ. exists r, b', new. split_and!; [done..| |].
  - eapply Forall_impl; [exact Hn|]. simpl. auto.
  - destruct r; [|done]. destruct Hr as (?&?&?). auto.
Qed.

Lemma goes_try_map {A B} (S : string → Prop) (Q : A → B → gmap string V → Prop) f l b :
  (∀ a y m m', Q a y m → m ⊆ m' → Q a y m') →
  (∀ a b, a ∈ l → sound b → goes S b (Q a) (f a b)) → sound b →
  goes S b (λ ys m, Forall2 (λ a y, Q a y m) l ys) (try_map f l b).
Proof.
  intros Hmono. revert b. induction l as [|a l IH]; intros b Hf Hb; simpl.
  - exists (Ok []), b, []. rewrite app_nil_r. split_and!; [done..|constructor].
  - destruct (Hf a b) as (r&b1&new1&->&Hc1&Hn1&Hr1); [set_solver|done|]. simpl.
    destruct r as [y|err]; [|by exists (Err err), b1, new1]. destruct Hr1 as (Hb1&Hs1&Hy).
    destruct (IH b1) as (r&b2&new2&->&Hc2&Hn2&Hr2); [intros a' b' Ha'; apply Hf; set_solver|done|]. simpl.
    eexists _, b2, (new1 ++ new2). rewrite app_assoc, <-Hc1. split_and!; [done..|by apply Forall_app|].
    destruct r as [ys|err]; [|done]. destruct Hr2 as (Hb2&Hs2&Hys). split_and!; [done|by etrans|].
    constructor; [by eapply Hmono|done].
Qed.

Lemma find_impl_known x : x ∈ facet_idents fs → ∃ e, e ∈ facets_iter fs ∧ e_name e = x ∧ find_impl x = Some (impl_of e).
Proof.
  rewrite <-(iter_names fs Hok). unfold FacetSync.find_impl. generalize (facets_iter fs) as l. clear.
  intros l. induction l as [|e l IH]; simpl; [set_solver|]. destruct (decide (e_name e = x)) as [He|He].
  - intros _. exists e. rewrite bool_decide_true by done. set_solver.
  - intros Hx. rewrite bool_decide_false by done. destruct IH as (e'&?&?&?); [set_solver|]. exists e'. set_solver.
Qed.

Lemma answers_app h h' i x v : answers h i x v → answers (h ++ h') i x v.
Proof.
  intros (c&impl&Hi&Hx&Hf&Ha). exists c, impl. split_and!; [by apply lookup_app_l_Some|done..|].
  rewrite take_app_le; [done|]. apply lookup_lt_Some in Hi. lia.
Qed.

Lemma arg_ok_app h h' i p a : arg_ok h i p a → arg_ok (h ++ h') i p a.
Proof.
  destruct p, a; simpl; try done. intros (j&Hj&Ha). exists j. split; [done|]. by apply answers_app.
Qed.

Lemma answers_last h c impl v : find_impl (called c) = Some impl → answer impl h (args c) = Ok v →
  answers (h ++ [c]) (length h) (called c) v.
Proof.
  intros Hf Ha. exists c, impl. split_and!; [by apply list_lookup_middle|done..|]. by rewrite take_app_length.
Qed.

Lemma calls_ok_snoc h x impl a : calls_ok h → x ∉ map called h → find_impl x = Some impl →
  Forall2 (arg_ok h (length h)) (bi_call_params impl) a → calls_ok (h ++ [Build_Call x a]).
Proof.
  intros [H1 H2] Hx Hi Ha. split.
  - rewrite map_app. apply NoDup_app. split_and!; [done|set_solver|apply NoDup_singleton].
  - intros i c [Hi'|[Hlt Hi']]%lookup_app_Some.
    + destruct (H2 i c Hi') as (impl'&?&Hargs). exists impl'. split; [done|]. eapply Forall2_impl; [exact Hargs|].
      intros p a'. apply arg_ok_app.
    + apply list_lookup_singleton_Some in Hi' as [Hi0 <-]. assert (i = length h) as -> by lia. simpl.
      exists impl. split; [done|]. eapply Forall2_impl; [exact Ha|]. intros p a'. apply arg_ok_app.
Qed.

Lemma answers_called h i x v : answers h i x v → x ∈ map called h.
Proof. intros (c&impl&Hi&<-&_). apply list_elem_of_fmap_2. by eapply list_elem_of_lookup_2. Qed.

Lemma sound_called b x : sound b → x ∈ map called (calls b) ↔ is_Some (facets b !! x).
Proof.
  intros Hb. split.
  - intros (c&->&(i&Hi)%list_elem_of_lookup)%list_elem_of_fmap. destruct (so_answered _ Hb i c Hi) as [v Hv].
    exists v. apply (so_facets _ Hb). by exists i.
  - intros (v&(i&Hi)%(so_facets _ Hb)). by eapply answers_called.
Qed.

(** A call that succeeds. *)
Lemma sound_snoc b x impl a v : sound b → x ∉ map called (calls b) → find_impl x = Some impl →
  Forall2 (arg_ok (calls b) (length (calls b))) (bi_call_params impl) a → answer impl (calls b) a = Ok v →
  sound {| facets := <[x := v]> (facets b); calls := calls b ++ [Build_Call x a] |}.
Proof.
  intros Hb Hx Hf Ha Hv. assert (answers (calls b ++ [Build_Call x a]) (length (calls b)) x v) as Hlast.
  { by apply (answers_last (calls b) (Build_Call x a) impl v). }
  split; simpl.
  - by apply (calls_ok_snoc _ x impl a); [apply so_calls| | |].
  - intros y w. rewrite lookup_insert_Some. split.
    + intros [[<- <-]|[Hne (i&Hi)%(so_facets _ Hb)]]; [by eexists|]. exists i. by apply answers_app.
    + intros (i&c&impl'&[Hi|[Hge Hi]]%lookup_app_Some&<-&Hf'&Ha').
      * right. assert (called c ∈ map called (calls b)) as Hc.
        { apply list_elem_of_fmap_2. by eapply list_elem_of_lookup_2. }
        split; [by intros ->|]. apply (so_facets _ Hb). exists i, c, impl'. split_and!; [done..|].
        rewrite take_app_le in Ha'; [done|]. apply lookup_lt_Some in Hi. lia.
      * apply list_lookup_singleton_Some in Hi as [Hi0 <-]. assert (i = length (calls b)) as -> by lia. left. simpl in *.
        rewrite take_app_length in Ha'. rewrite Hf in Hf'. injection Hf' as <-. rewrite Hv in Ha'. by injection Ha' as <-.
  - intros i c [Hi|[Hge Hi]]%lookup_app_Some.
    + destruct (so_answered _ Hb i c Hi) as [w Hw]. exists w. by apply answers_app.
    + apply list_lookup_singleton_Some in Hi as [Hi0 <-]. assert (i = length (calls b)) as -> by lia. by exists v.
Qed.

(** ** Building a facet *)

(** The arguments of a method, from the facets it takes. *)
Lemma call_args_spec b ps vs : sound b →
  Forall2 (λ d v, facets b !! d = Some v) (facet_names ps) vs →
  ∃ a, call_args param (collect_map (zip (facet_names ps) vs)) (map call_param ps) = ret a ∧
    Forall2 (arg_ok (calls b) (length (calls b))) (map call_param ps) a.
Proof.
  intros Hb Hvs. set (env := collect_map (zip (facet_names ps) vs)).
  assert (∀ d, Facet d ∈ ps → ∃ v, env !! d = Some v ∧ facets b !! d = Some v) as Henv.
  { intros d Hd%elem_of_facet_names. assert (is_Some (env !! d)) as [v Hv].
    { unfold env, collect_map. apply not_eq_None_Some. intros Hn. apply not_elem_of_list_to_map in Hn.
      rewrite fmap_reverse, elem_of_reverse, fst_zip in Hn; [done|]. by rewrite (Forall2_length _ _ _ Hvs). }
    exists v. split; [done|]. unfold env, collect_map in Hv. apply elem_of_list_to_map_2 in Hv.
    rewrite elem_of_reverse in Hv. clear -Hvs Hv. induction Hvs as [|d' v' l vs H _ IH]; [set_solver|].
    simpl in Hv. apply elem_of_cons in Hv as [[= -> ->]|Hv]; auto. }
  clearbody env. clear Hvs. induction ps as [|p ps IH]; simpl; [by exists []|].
  destruct IH as (a&Ha&Hf); [intros d Hd; apply Henv; set_solver|]. destruct p as [n|d]; simpl; rewrite Ha; simpl.
  - exists (ArgParam (param n) :: a). split; [done|]. by constructor.
  - destruct (Henv d) as (v&->&Hv); [set_solver|]. simpl. exists (ArgFacet v :: a). split; [done|]. constructor; [|done].
    apply (so_facets _ Hb) in Hv as (j&Hj). exists j. split; [|done]. destruct Hj as (c&?&Hc&_). by eapply lookup_lt_Some.
Qed.

(** What a builder does for a facet: no method is called but for facets below it. *)
Lemma build_goes n fuel x b : height (takes fs) n x → n ≤ fuel → x ∈ facet_idents fs → sound b →
  goes (rtc (takes fs) x) b (λ v m, m !! x = Some v) (build fuel x b).
Proof.
  revert n x b. induction fuel as [|fuel IH]; intros n x b Hh Hn Hx Hb; [apply height_pos in Hh; lia|].
  destruct (find_impl_known x Hx) as (e&He&Hex&Hfind). cbn [FacetSync.build]. rewrite Hfind. cbn [expect exec_bind].
  destruct (facets b !! x) as [v|] eqn:Hbx.
  { exists (Ok v), b, []. rewrite app_nil_r. split_and!; [done|done|constructor|done|done|done]. }
  assert (∀ d, d ∈ facet_names (e_params e) → takes fs x d) as Htakes.
  { intros d Hd. apply (takes_iter fs Hok). by exists e. }
  change (make_facets (impl_of e)) with (facet_names (e_params e)). change (bi_call_params (impl_of e)) with (map call_param (e_params e)).
  destruct (goes_try_map (tc (takes fs) x) (λ d v m, m !! d = Some v) (build fuel) (facet_names (e_params e)) b)
    as (r&b1&new&->&Hc&Hnew&Hr); [intros d v m m' Hd Hm; by eapply lookup_weaken| |done|].
  { intros d b' Hd Hb'. destruct n as [|n]; [apply height_pos in Hh; lia|].
    eapply goes_impl; [apply (IH n)| |done].
    - eapply height_inv; [exact Hh|]. by apply Htakes.
    - lia.
    - by eapply taken_known, Htakes.
    - done.
    - intros y Hy. eapply tc_rtc_r; [by apply tc_once, Htakes|done]. }
  assert (Forall (λ c, rtc (takes fs) x (called c)) new) as Hnew'.
  { eapply Forall_impl; [exact Hnew|]. intros c. apply tc_rtc. }
  cbn [exec_bind]. destruct r as [vs|err]; [|exists (Err err), b1, new; by split_and!].
  destruct Hr as (Hb1&Hsub&Hvs).
  assert (x ∉ map called (calls b1)) as Hxnew.
  { rewrite Hc, map_app, elem_of_app. intros [Hin|(c&Heq&Hcn)%list_elem_of_fmap].
    - apply (sound_called b x Hb) in Hin as [w Hw]. by rewrite Hbx in Hw.
    - rewrite Forall_forall in Hnew. specialize (Hnew c Hcn). simpl in Hnew. rewrite <-Heq in Hnew. by apply (acyclic x). }
  destruct (call_args_spec b1 (e_params e) vs Hb1 Hvs) as (a&->&Ha). cbn [exec_bind].
  assert (bi_facet (impl_of e) = x) as Hbi by done. unfold call_factory. rewrite Hbi.
  destruct (answer (impl_of e) (calls b1) a) as [v|err] eqn:Hans.
  - cbn [facets]. assert (facets b1 !! x = None) as Hn1.
    { apply eq_None_not_Some. by rewrite <-(sound_called b1 x Hb1). }
    rewrite Hn1. cbn [is_none]. rewrite debug_assert_true. cbn [exec_bind calls].
    eexists (Ok v), _, (new ++ [Build_Call x a]). split; [done|]. cbn [calls facets]. split; [by rewrite Hc, app_assoc|].
    split; [apply Forall_app; split; [done|by apply Forall_singleton]|].
    split_and!; [by apply (sound_snoc b1 x (impl_of e) a v)| |apply lookup_insert_eq].
    etrans; [exact Hsub|]. by apply insert_subseteq.
  - eexists (Err err), _, (new ++ [Build_Call x a]). split; [done|]. cbn [calls]. split; [by rewrite Hc, app_assoc|].
    split; [apply Forall_app; split; [done|by apply Forall_singleton]|].
    exists b1, (impl_of e), a. rewrite Hbi. split_and!; [done..| |done|done].
    cbn [calls]. by apply (calls_ok_snoc _ x (impl_of e) a); [apply so_calls| | |].
Qed.

(** ** Building a container *)

Lemma takes_height x : height (takes fs) (S (length (facet_idents fs))) x.
Proof.
  rewrite <-(size_list_to_set (C:=gset string)) by apply (fo_names _ Hok). apply acyclic_height; [intros y _; apply acyclic|].
  intros y z _ Hy. apply elem_of_list_to_set. by eapply takes_name.
Qed.

Definition needed (c : Container) (y : string) : Prop := ∃ x, x ∈ container_facets c ∧ rtc (takes fs) x y.

Lemma container_goes fuel c b : length (facet_idents fs) < fuel → (∀ x, x ∈ container_facets c → x ∈ facet_idents fs) → sound b →
  goes (needed c) b (λ t m, container_of m c = Some t) (container_build factory_ok factory_try param impls fuel c b).
Proof.
  intros Hfuel. revert b. induction c as [delegates own IH] using container_induction. intros b Hc Hb.
  assert (∀ d x, d ∈ delegates → x ∈ container_facets d → x ∈ container_facets (MkContainer delegates own)) as Hdel.
  { intros d x Hd Hx. simpl. apply elem_of_app. left. apply list_elem_of_bind. eauto. }
  assert (∀ x, x ∈ own → x ∈ container_facets (MkContainer delegates own)) as Hown.
  { intros x Hx. simpl. apply elem_of_app. by right. }
  cbn [container_build].
  destruct (goes_try_map (needed (MkContainer delegates own)) (λ d t m, container_of m d = Some t)
              (container_build factory_ok factory_try param impls fuel) delegates b)
    as (r&b1&new1&->&Hc1&Hn1&Hr); [intros d t m m' Ht Hm; by eapply container_of_mono| |done|].
  { intros d b' Hd Hb'. rewrite Forall_forall in IH. eapply goes_impl; [apply IH| |done]; [done| |done|].
    - intros x Hx. by apply Hc, (Hdel d).
    - intros y (x&Hx&Hy). exists x. split; [by apply (Hdel d)|done]. }
  cbn [exec_bind]. destruct r as [ds|err]; [|exists (Err err), b1, new1; by split_and!].
  destruct Hr as (Hb1&Hs1&Hds).
  destruct (goes_try_map (needed (MkContainer delegates own)) (λ x v m, m !! x = Some v) (build fuel) own b1)
    as (r&b2&new2&->&Hc2&Hn2&Hr); [intros d v m m' Hd Hm; by eapply lookup_weaken| |done|].
  { intros x b' Hx Hb'. eapply goes_impl; [apply (build_goes (S (length (facet_idents fs))))| |done].
    - apply takes_height.
    - lia.
    - by apply Hc, Hown.
    - done.
    - intros y Hy. exists x. split; [by apply Hown|done]. }
  cbn [exec_bind]. eexists _, b2, (new1 ++ new2). split; [done|]. split; [by rewrite Hc2, Hc1, app_assoc|].
  split; [by apply Forall_app|]. destruct r as [vs|err]; [|done]. destruct Hr as (Hb2&Hs2&Hvs).
  split_and!; [done|by etrans|]. simpl.
  assert (all_some (container_of (facets b2)) delegates = Some ds) as ->.
  { apply all_some_Some. eapply Forall2_impl; [exact Hds|]. intros d t. simpl. by apply container_of_mono. }
  assert (all_some (λ x, facets b2 !! x) own = Some vs) as ->; [by apply all_some_Some|done].
Qed.

Lemma sound_empty : sound {| facets := ∅; calls := [] |}.
Proof.
  split; simpl.
  - split; [apply NoDup_nil_2|]. intros i c Hi. by rewrite lookup_nil in Hi.
  - intros x v. rewrite lookup_empty. split; [done|]. intros (i&c&impl&Hi&_). by rewrite lookup_nil in Hi.
  - intros i c Hi. by rewrite lookup_nil in Hi.
Qed.
End theory.

(** C31: A container is built by a synchronous factory without panicking and in bounded time.  Each
    method of the factory is called at most once, only for a facet that the container needs,
    and with the very facets that earlier calls returned for those it takes.  Either the
    container holds, in all places and in all its delegates, the one facet that was made for
    the name, or the last call failed and its error, with the name of its facet, is returned. *)
Theorem sync_facets_shared {V E P} `{BuildMode} (factory_ok : string → list (Call V P) → list (Arg V P) → V)
    (factory_try : string → list (Call V P) → list (Arg V P) → result V E) (param : string → P)
    (fs : Facets) (gen_fuel : nat) (impls : list BuilderImpl) (fuel : nat) (c : Container) :
  facets_ok fs → facet_fuel fs < gen_fuel → gen_factory_builder gen_fuel fs = ret (Ok (SyncBuilder impls)) →
  (∀ x, x ∈ container_facets c → x ∈ facet_idents fs) → length (facet_idents fs) < fuel →
  ∃ r b, factory_build factory_ok factory_try param impls fuel c = ret (r, b) ∧
    calls_ok factory_ok factory_try param fs (calls b) ∧ (∀ k, k ∈ calls b → needed fs c (called k)) ∧
    match r with
    | Ok t => container_of (facets b) c = Some t ∧
              ∀ x v, facets b !! x = Some v ↔ ∃ i, answers factory_ok factory_try fs (calls b) i x v
    | Err err => failed factory_ok factory_try param fs b err
    end.
Proof.
  intros Hok Hgf Hgen Hc Hfuel. destruct (gen_ok_acyclic fs gen_fuel _ Hok Hgf Hgen) as (Hac&Hkn&_&->).
  destruct (container_goes factory_ok factory_try param fs Hok Hac Hkn fuel c {| facets := ∅; calls := [] |} Hfuel Hc)
    as (r&b&new&Hr&Hcalls&Hnew&Hres); [by apply sound_empty|].
  exists r, b. simpl in Hcalls. subst new. rewrite Forall_forall in Hnew. destruct r as [t|err].
  - destruct Hres as (Hb&_&Ht). split_and!; [done|apply Hb|done|done|apply Hb].
  - split_and!; [done|by destruct Hres as (?&?&?&_&_&?&_)|done..].
Qed.

Section witnesses.
(** Methods whose facets show what they were called with. *)
Inductive demo := Made (name : string) (number : nat) (parts : list demo).
Definition demo_ok (name : string) (h : list (Call demo ())) (a : list (Arg demo ())) : demo :=
  Made name (length h) (omap (λ x, match x with ArgFacet v => Some v | ArgParam _ => None end) a).

Definition demo_container : Container := MkContainer [MkContainer [] ["a"]] ["c"; "a"]%string.
Definition demo_impls : list BuilderImpl :=
  Eval vm_compute in
    match gen_factory_builder 2000 (demo_facets false) with ret (Ok (SyncBuilder impls)) => impls | _ => [] end.
Definition demo_built : Built demo :=
  MkBuilt [MkBuilt [] [Made "a" 0 []]] [Made "c" 2 [Made "a" 0 []; Made "b" 1 [Made "a" 0 []]]; Made "a" 0 []].

Lemma demo_known asy x : x ∈ container_facets demo_container → x ∈ facet_idents (demo_facets asy).
Proof.
  revert x. apply Forall_forall. by apply (bool_decide_unpack _).
Qed.

Lemma sync_facets_shared_witness : ∃ b, calls b ≠ [] ∧ container_of (facets b) demo_container = Some demo_built ∧
  @factory_build demo () () debug_build demo_ok (λ n h a, Ok (demo_ok n h a)) (λ _, ()) demo_impls 5 demo_container =
    ret (Ok demo_built, b).
Proof.
  assert (facets_ok (demo_facets false)) as Hok by (split; [by apply (bool_decide_unpack _)|done..]).
  destruct (@sync_facets_shared demo () () debug_build demo_ok (λ n h a, Ok (demo_ok n h a)) (λ _, ()) (demo_facets false) 2000
    demo_impls 5 demo_container Hok) as (r&b&Hr&_&_&Hres).
  - apply Nat.ltb_lt. by vm_compute.
  - by vm_compute.
  - apply demo_known.
  - apply Nat.ltb_lt. by vm_compute.
  - vm_compute in Hr. injection Hr as <- <-. eexists. destruct Hres as [Hc _]. split_and!; [|exact Hc|by vm_compute]. done.
Defined.
End witnesses.
End FacetSync.
