(* ===== verification/FacetAsync.v ===== *)
(** The asynchronous builder that [facet::factory] generates (the templates in
    src/shed/facet/proc_macros/factory_impl.rs and container_impl.rs): the facets that a container
    needs are marked, their futures are run at the same time, and the container is put together
    from what they returned.

    The futures are shared: the executor may move any of them that is not waiting, in any
    order; a call of a method of the factory takes until the world lets it return what it
    likes.  An [Arc] of an error is an index of its cell. *)
From stdpp Require Import relations.
From S2P Require Import Prelude RustStd RustStr FacetMacro FacetOrder FacetSync.
Import FacetMacro FacetOrder.

Module FacetAsync.
#[local] Abbreviation length := List.length.
#[local] Abbreviation FactoryError := FacetSync.FactoryError.
#[local] Abbreviation Container := FacetSync.Container.
#[local] Abbreviation Built := FacetSync.Built.
#[local] Abbreviation MkContainer := FacetSync.MkContainer.

(** ** Marking *)

Section mark.
Context (impls : list AsyncBuilderForImpl).

Definition find_marks (x : string) : option AsyncBuilderForImpl := find (λ i, bool_decide (abi_facet i = x)) impls.

(** A sequence of statements on the marks. *)
Definition for_all {A} (f : A → gset string → exec (gset string)) : list A → gset string → exec (gset string) :=
  fix go l needed :=
    match l with [] => ret needed | a :: l => let! needed := f a needed in go l needed end.

(** [<Builder as AsyncBuilderFor<Facet>>::need]. *)
Fixpoint need (fuel : nat) (x : string) (needed : gset string) : exec (gset string) :=
  match fuel with
  | O => panic
  | S fuel =>
      let! impl := expect (find_marks x) in
      for_all (need fuel) (mark_facets_needed impl) (needed ∪ {[x]})
  end.

(** [<Container as AsyncBuildable<Builder>>::mark_needed]. *)
Fixpoint mark_needed (fuel : nat) (c : Container) (needed : gset string) : exec (gset string) :=
  match c with
  | FacetSync.MkContainer delegates own =>
      let! needed := for_all (need fuel) own needed in for_all (mark_needed fuel) delegates needed
  end.
End mark.

(** ** Putting together *)

Definition get_all {A B} (f : A → exec B) : list A → exec (list B) :=
  fix go l := match l with [] => ret [] | a :: l => let! y := f a in let! ys := go l in ret (y :: ys) end.

(** [<Container as AsyncBuildable<Builder>>::construct], with [get] of the builder, which expects
    the facet. *)
Fixpoint construct {V} (facets : gmap string V) (c : Container) : exec (Built V) :=
  match c with
  | FacetSync.MkContainer delegates own =>
      let! ds := get_all (construct facets) delegates in
      let! vs := get_all (λ x, expect (facets !! x)) own in
      ret (FacetSync.MkBuilt ds vs)
  end.

(** ** Running the futures *)

Section run.
Context {V E P : Type}.
#[local] Abbreviation Call := (FacetSync.Call V P).
#[local] Abbreviation Arg := (FacetSync.Arg V P).
Context (param : string → P) (needed : gset string).

(** The future of a facet: not finished with the facets it takes, in the factory's method, or
    finished, with an [AsyncFactoryError] as the cell that it points to. *)
Inductive FutState := Waiting | Running (a : list Arg) | Done (r : result (option V) nat).

(** [calls] are those made of methods of the factory, [errors] the cells of errors. *)
Record Run := { futs : gmap string FutState; calls : list Call; errors : list (option (FactoryError E)) }.
Implicit Types s : Run.

(** The [let] bindings: a future can only clone those bound before. *)
Fixpoint define_futures (lets : list FacetFuture) (scope : gmap string FutState) : exec (gmap string FutState) :=
  match lets with
  | [] => ret scope
  | f :: lets =>
      let! _ := rust_assert (forallb (λ d, bool_decide (is_Some (scope !! d))) (dependent_facets f)) in
      define_futures lets (<[ff_facet f := Waiting]> scope)
  end.

(** The arguments of a method, [facet.as_ref().unwrap()] or the field of a parameter, when the
    facets it takes are [outs]. *)
Fixpoint future_args (outs : gmap string (option V)) (params : list CallParam) : exec (list Arg) :=
  match params with
  | [] => ret []
  | CallSelfParam i :: params =>
      let! rest := future_args outs params in ret (FacetSync.ArgParam (param i) :: rest)
  | CallFacet i :: params =>
      let! out := expect (outs !! i) in
      let! v := expect out in
      let! rest := future_args outs params in ret (FacetSync.ArgFacet v :: rest)
  end.

(** The outputs of futures that are all finished without an error. *)
Definition outputs (futs : gmap string FutState) : gmap string (option V) :=
  omap (λ st, match st with Done (Ok o) => Some o | _ => None end) futs.

Definition set_fut s (x : string) (st : FutState) : Run :=
  {| futs := <[x := st]> (futs s); calls := calls s; errors := errors s |}.

(** The moves of the future [f]; an [unwrap] of a facet that is not there panics. *)
Inductive step_of (f : FacetFuture) : Run → exec Run → Prop :=
| step_unneeded s :
    futs s !! ff_facet f = Some Waiting → ff_facet f ∉ needed →
    step_of f s (ret (set_fut s (ff_facet f) (Done (Ok None))))
| step_dep_failed s d e :
    futs s !! ff_facet f = Some Waiting → ff_facet f ∈ needed →
    d ∈ dependent_facets f → futs s !! d = Some (Done (Err e)) →
    step_of f s (ret (set_fut s (ff_facet f) (Done (Err e))))
| step_call s :
    futs s !! ff_facet f = Some Waiting → ff_facet f ∈ needed →
    (∀ d, d ∈ dependent_facets f → is_Some (outputs (futs s) !! d)) →
    step_of f s
      (let! a := future_args (outputs (futs s)) (ff_call_params f) in
       ret {| futs := <[ff_facet f := Running a]> (futs s);
              calls := calls s ++ [FacetSync.Build_Call (ff_facet f) a]; errors := errors s |})
| step_returned s a v :
    futs s !! ff_facet f = Some (Running a) →
    step_of f s (ret (set_fut s (ff_facet f) (Done (Ok (Some v)))))
| step_failed s a e :
    futs s !! ff_facet f = Some (Running a) → ff_map_err f = true →
    step_of f s (ret {| futs := <[ff_facet f := Done (Err (length (errors s)))]> (futs s); calls := calls s;
                        errors := errors s ++ [Some (FacetSync.FacetBuildFailed (ff_facet f) e)] |}).

Lemma step_call_ret f s a :
  futs s !! ff_facet f = Some Waiting → ff_facet f ∈ needed →
  (∀ d, d ∈ dependent_facets f → is_Some (outputs (futs s) !! d)) →
  future_args (outputs (futs s)) (ff_call_params f) = ret a →
  step_of f s (ret {| futs := <[ff_facet f := Running a]> (futs s);
                      calls := calls s ++ [FacetSync.Build_Call (ff_facet f) a]; errors := errors s |}).
Proof. intros Hx Hw Hd Ha. pose proof (step_call f s Hx Hw Hd) as Hc. by rewrite Ha in Hc. Qed.

Definition step (lets : list FacetFuture) s s' : Prop := ∃ f, f ∈ lets ∧ step_of f s (ret s').
(** Some future panics when it is polled next. *)
Definition step_panics (lets : list FacetFuture) s : Prop := ∃ f, f ∈ lets ∧ step_of f s panic.

(** [AsyncFactoryError::factory_error]: the error is taken out of its cell. *)
Definition factory_error s (e : nat) : exec (FactoryError E) :=
  let! cell := vec_index (errors s) e in expect cell.

(** [try_join!] over all the futures, and storing the facets. *)
Inductive joined (stores : list string) s : exec (result (gmap string V) (FactoryError E)) → Prop :=
| joined_ok outs :
    Forall2 (λ x o, futs s !! x = Some (Done (Ok o))) stores outs →
    joined stores s (ret (Ok (omap id (list_to_map (zip stores outs)))))
| joined_err x e :
    x ∈ stores → futs s !! x = Some (Done (Err e)) →
    joined stores s (let! err := factory_error s e in ret (Err err)).

Definition run_start (scope : gmap string FutState) : Run := {| futs := scope; calls := []; errors := [] |}.
End run.
Arguments FutState : clear implicits.
Arguments Run : clear implicits.

(** * What a run does *)

Lemma all_some_get {A B} (f : A → option B) (g : A → exec B) l ys :
  (∀ a, a ∈ l → ∀ y, f a = Some y → g a = ret y) → FacetSync.all_some f l = Some ys → get_all g l = ret ys.
Proof.
  intros Hfg Hl%FacetSync.all_some_Some. induction Hl as [|a y l ys Ha _ IH]; [done|]. simpl.
  rewrite (Hfg a ltac:(set_solver) y Ha). simpl. rewrite IH; [done|]. intros a' Ha'. apply Hfg. set_solver.
Qed.

(** [construct] gives the container that shares the facets, when all are there. *)
Lemma construct_container_of {V} (m : gmap string V) c t :
  FacetSync.container_of m c = Some t → construct m c = ret t.
Proof.
  revert t. induction c as [delegates own IH] using FacetSync.container_induction. intros t. simpl.
  destruct (FacetSync.all_some (FacetSync.container_of m) delegates) as [ds|] eqn:Hd; [|done].
  destruct (FacetSync.all_some (λ x, m !! x) own) as [vs|] eqn:Ho; [|done]. simpl. intros [= <-].
  rewrite Forall_forall in IH. rewrite (all_some_get _ _ _ _ IH Hd). simpl.
  by rewrite (all_some_get _ (λ x, expect (m !! x)) _ _ (λ x _ y Hx, expect_Some _ _ Hx) Ho).
Qed.

Lemma all_some_is_Some {A B} (f : A → option B) l : (∀ a, a ∈ l → is_Some (f a)) → is_Some (FacetSync.all_some f l).
Proof.
  induction l as [|a l IH]; intros Hl; simpl; [done|]. destruct (Hl a) as [y ->]; [set_solver|].
  destruct IH as [ys ->]; [set_solver|]. done.
Qed.

Lemma container_of_is_Some {V} (m : gmap string V) c :
  (∀ x, x ∈ FacetSync.container_facets c → is_Some (m !! x)) → is_Some (FacetSync.container_of m c).
Proof.
  induction c as [delegates own IH] using FacetSync.container_induction. simpl. intros Hc. rewrite Forall_forall in IH.
  destruct (all_some_is_Some (FacetSync.container_of m) delegates) as [ds ->].
  { intros d Hd. apply IH; [done|]. intros x Hx. apply Hc, elem_of_app. left. apply list_elem_of_bind. eauto. }
  destruct (all_some_is_Some (λ x, m !! x) own) as [vs ->]; [|done].
  intros x Hx. apply Hc, elem_of_app. by right.
Qed.

Section theory.
Context (fs : Facets) (Hok : facets_ok fs) (acyclic : ∀ x, ¬ tc (takes fs) x x)
  (taken_known : ∀ x y, takes fs x y → y ∈ facet_idents fs).
#[local] Abbreviation impls := (map marks_of (facets_iter fs)).

(** ** Marking *)

Lemma find_marks_known x : x ∈ facet_idents fs →
  ∃ marks, find_marks impls x = Some marks ∧ ∀ d, d ∈ mark_facets_needed marks ↔ takes fs x d.
Proof.
  intros Hx. assert (∃ e, e ∈ facets_iter fs ∧ e_name e = x ∧ find_marks impls x = Some (marks_of e)) as (e&He&Hex&->).
  { revert Hx. rewrite <-(iter_names fs Hok). unfold find_marks. generalize (facets_iter fs) as l. clear.
    intros l. induction l as [|e l IH]; simpl; [set_solver|]. destruct (decide (e_name e = x)) as [He|He].
    - intros _. exists e. rewrite bool_decide_true by done. set_solver.
    - intros Hx. rewrite bool_decide_false by done. destruct IH as (e'&?&?&?); [set_solver|]. exists e'. set_solver. }
  exists (marks_of e). split; [done|]. intros d. simpl. rewrite (takes_iter fs Hok). split; [by exists e|].
  intros (e'&He'&Hex'&Hd). assert (e' = e) as ->; [|done].
  apply (iter_name_inj fs Hok); [done..|congruence].
Qed.

Lemma for_all_spec {A} (S : A → string → Prop) f (l : list A) needed :
  (∀ a needed, a ∈ l → ∃ needed', f a needed = ret needed' ∧ ∀ y, y ∈ needed' ↔ y ∈ needed ∨ S a y) →
  ∃ needed', for_all f l needed = ret needed' ∧ ∀ y, y ∈ needed' ↔ y ∈ needed ∨ ∃ a, a ∈ l ∧ S a y.
Proof.
  revert needed. induction l as [|a l IH]; intros needed Hf; simpl; [exists needed; set_solver|].
  destruct (Hf a needed) as (n1&->&H1); [set_solver|]. simpl.
  destruct (IH n1) as (n2&->&H2); [intros a' n Ha'; apply Hf; set_solver|]. exists n2. split; [done|].
  intros y. rewrite H2, H1. set_solver.
Qed.

Lemma need_spec n fuel x needed : height (takes fs) n x → n ≤ fuel → x ∈ facet_idents fs →
  ∃ needed', need impls fuel x needed = ret needed' ∧ ∀ y, y ∈ needed' ↔ y ∈ needed ∨ rtc (takes fs) x y.
Proof.
  revert n x needed. induction fuel as [|fuel IH]; intros n x needed Hh Hn Hx; [apply height_pos in Hh; lia|]. simpl.
  destruct (find_marks_known x Hx) as (marks&->&Hm). simpl.
  destruct (for_all_spec (rtc (takes fs)) (need impls fuel) (mark_facets_needed marks) (needed ∪ {[x]})) as (needed'&->&Hn').
  { intros d needed0 Hd%Hm. destruct n as [|n]; [inversion Hh|]. apply (IH n); [by eapply height_inv|lia|by eapply taken_known]. }
  exists needed'. split; [done|]. intros y. rewrite Hn', elem_of_union, elem_of_singleton. split.
  - intros [[?| ->]|(d&Hd%Hm&Hy)]; [by left|by right|right; by eapply rtc_l].
  - intros [?|Hy]; [auto|]. inversion Hy as [|? d ? Hd Hdy]; subst; [auto|]. right. exists d. split; [by apply Hm|done].
Qed.

Lemma mark_needed_spec fuel c needed :
  length (facet_idents fs) < fuel → (∀ x, x ∈ FacetSync.container_facets c → x ∈ facet_idents fs) →
  ∃ needed', mark_needed impls fuel c needed = ret needed' ∧ ∀ y, y ∈ needed' ↔ y ∈ needed ∨ FacetSync.needed fs c y.
Proof.
  intros Hfuel. revert needed. induction c as [delegates own IH] using FacetSync.container_induction. intros needed Hc. simpl.
  rewrite Forall_forall in IH.
  destruct (for_all_spec (rtc (takes fs)) (need impls fuel) own needed) as (n1&->&H1).
  { intros x n Hx. apply (need_spec (S (length (facet_idents fs)))); [by apply FacetSync.takes_height|lia|].
    apply Hc. simpl. apply elem_of_app. by right. }
  simpl. destruct (for_all_spec (FacetSync.needed fs) (mark_needed impls fuel) delegates n1) as (n2&->&H2).
  { intros d n Hd. apply IH; [done|]. intros x Hx. apply Hc. simpl. apply elem_of_app. left. apply list_elem_of_bind. eauto. }
  exists n2. split; [done|]. intros y. rewrite H2, H1. unfold FacetSync.needed. simpl.
  setoid_rewrite elem_of_app. setoid_rewrite list_elem_of_bind. naive_solver.
Qed.

Lemma needed_takes c x y : FacetSync.needed fs c x → takes fs x y → FacetSync.needed fs c y.
Proof. intros (r&Hr&Hx) Hy. exists r. split; [done|]. by eapply rtc_r. Qed.

(** ** The futures in scope *)

Lemma define_futures_spec {V P} (before lets : list FacetFuture) (scope : gmap string (FutState V P)) :
  (∀ i f d, (before ++ lets) !! i = Some f → d ∈ dependent_facets f → d ∈ ff_facet <$> take i (before ++ lets)) →
  (∀ x st, scope !! x = Some st ↔ st = Waiting ∧ x ∈ ff_facet <$> before) →
  ∃ scope', define_futures lets scope = ret scope' ∧
    ∀ x st, scope' !! x = Some st ↔ st = Waiting ∧ x ∈ ff_facet <$> (before ++ lets).
Proof.
  revert before scope. induction lets as [|f lets IH]; intros before scope Hord Hs; simpl.
  - exists scope. by rewrite app_nil_r.
  - rewrite (proj2 (forallb_forall _ _)).
    2: { intros d Hd%list_elem_of_In. apply bool_decide_true. exists Waiting. apply Hs. split; [done|].
         rewrite <-(take_app_length before (f :: lets)). apply (Hord (length before) f); [by apply list_lookup_middle|done]. }
    simpl. destruct (IH (before ++ [f]) (<[ff_facet f := Waiting]> scope)) as (scope'&->&Hs').
    + intros i g d. rewrite <-app_assoc. apply Hord.
    + intros x st. rewrite lookup_insert_Some, Hs, fmap_app, elem_of_app. simpl. rewrite list_elem_of_singleton.
      destruct (decide (ff_facet f = x)); naive_solver.
    + exists scope'. split; [done|]. intros x st. rewrite Hs', <-app_assoc. done.
Qed.

(** ** Runs *)

Section run.
Context {V E P : Type} (param : string → P) (c : Container) (wanted : gset string).
Context (Hwanted : ∀ y, y ∈ wanted ↔ FacetSync.needed fs c y) (Hc : ∀ x, x ∈ FacetSync.container_facets c → x ∈ facet_idents fs).
Context (lets : list FacetFuture) (Hlets : lets ≡ₚ map future_of (facets_iter fs)).
#[local] Abbreviation Run := (Run V E P).
#[local] Abbreviation step := (step param wanted lets).
Implicit Types s : Run.

Lemma lets_entry f : f ∈ lets ↔ ∃ e, f = future_of e ∧ e ∈ facets_iter fs.
Proof. by rewrite Hlets, list_elem_of_fmap. Qed.

Lemma lets_takes f d : f ∈ lets → d ∈ dependent_facets f ↔ takes fs (ff_facet f) d.
Proof.
  intros (e&->&He)%lets_entry. simpl. rewrite (takes_iter fs Hok). split; [by exists e|].
  intros (e'&He'&Heq&Hd). by rewrite (iter_name_inj fs Hok e e').
Qed.

Lemma lets_ident f : f ∈ lets → ff_facet f ∈ facet_idents fs.
Proof. intros (e&->&He)%lets_entry. rewrite <-(iter_names fs Hok). by apply (list_elem_of_fmap_2 e_name). Qed.

Lemma lets_inj f g : f ∈ lets → g ∈ lets → ff_facet f = ff_facet g → f = g.
Proof. intros (e&->&He)%lets_entry (e'&->&He')%lets_entry. simpl. intros Heq. by rewrite (iter_name_inj fs Hok e e'). Qed.

Lemma ident_lets x : x ∈ facet_idents fs → ∃ f, f ∈ lets ∧ ff_facet f = x.
Proof.
  rewrite <-(iter_names fs Hok). intros (e&->&He)%list_elem_of_fmap. exists (future_of e). split; [|done].
  apply lets_entry. eauto.
Qed.

(** The argument of a call for a parameter: that of the factory, or the facet that is finished. *)
Definition arg_done s (p : CallParam) (a : FacetSync.Arg V P) : Prop :=
  match p, a with
  | CallSelfParam n, FacetSync.ArgParam v => v = param n
  | CallFacet d, FacetSync.ArgFacet v => futs s !! d = Some (Done (Ok (Some v)))
  | _, _ => False
  end.

(** What holds of a future in each of its states. *)
Definition fut_ok s (x : string) (st : FutState V P) : Prop :=
  match st with
  | Waiting => x ∉ map FacetSync.called (calls s)
  | Running a => FacetSync.Build_Call x a ∈ calls s
  | Done (Ok None) => x ∉ wanted
  | Done (Ok (Some v)) => x ∈ map FacetSync.called (calls s)
  | Done (Err e) => ∃ y err, errors s !! e = Some (Some (FacetSync.FacetBuildFailed y err)) ∧ y ∈ map FacetSync.called (calls s)
  end.

Record run_ok s : Prop := {
  ro_known : ∀ x, is_Some (futs s !! x) ↔ x ∈ facet_idents fs;
  ro_futs : ∀ x st, futs s !! x = Some st → fut_ok s x st;
  ro_once : NoDup (map FacetSync.called (calls s));
  ro_calls : ∀ k, k ∈ calls s → FacetSync.called k ∈ wanted ∧
    ∃ f, f ∈ lets ∧ ff_facet f = FacetSync.called k ∧ Forall2 (arg_done s) (ff_call_params f) (FacetSync.args k);
}.

(** What a move keeps. *)
Definition grows s s' : Prop :=
  (∀ x r, futs s !! x = Some (Done r) → futs s' !! x = Some (Done r)) ∧
  (∃ new, calls s' = calls s ++ new) ∧ (∃ new, errors s' = errors s ++ new).

Lemma arg_done_grows s s' p a : grows s s' → arg_done s p a → arg_done s' p a.
Proof. intros (H&_&_). destruct p, a; simpl; auto. Qed.

Lemma fut_ok_grows s s' x st : grows s s' → st ≠ Waiting → fut_ok s x st → fut_ok s' x st.
Proof.
  intros (_&(new&Hn)&(err&He)) Hst. assert (∀ y, y ∈ map FacetSync.called (calls s) → y ∈ map FacetSync.called (calls s')) as Hcl.
  { intros y Hy. rewrite Hn, map_app, elem_of_app. by left. }
  destruct st as [|a|[[v|]|e]]; simpl; [done|intros Ha; rewrite Hn; set_solver|apply Hcl|done|].
  intros (y&er&Hy&Hc'). exists y, er. rewrite He. split; [by apply lookup_app_l_Some|by apply Hcl].
Qed.

(** The rule for all moves: the future changes its state, perhaps with a call of its own method. *)
Lemma run_ok_move s s' x st0 st : run_ok s → grows s s' → futs s !! x = Some st0 →
  futs s' = <[x := st]> (futs s) → st ≠ Waiting → fut_ok s' x st →
  (calls s' = calls s ∨ ∃ f a, calls s' = calls s ++ [FacetSync.Build_Call x a] ∧ st0 = Waiting ∧ x ∈ wanted ∧
     f ∈ lets ∧ ff_facet f = x ∧ Forall2 (arg_done s) (ff_call_params f) a) →
  run_ok s'.
Proof.
  intros Hs Hg Hx Hfuts Hst Hok' Hcalls.
  assert (∀ k, k ∈ calls s → FacetSync.called k ∈ wanted ∧
    ∃ f, f ∈ lets ∧ ff_facet f = FacetSync.called k ∧ Forall2 (arg_done s') (ff_call_params f) (FacetSync.args k)) as Hold.
  { intros k Hk. destruct (ro_calls _ Hs k Hk) as (Hw&f&Hf&Hfk&Ha). split; [done|]. exists f. split_and!; [done..|].
    eapply Forall2_impl; [exact Ha|]. intros p a. by apply arg_done_grows. }
  split.
  - intros y. rewrite Hfuts, lookup_insert_is_Some', (ro_known _ Hs). split; [intros [<-|?]; [|done]|by right].
    apply (ro_known _ Hs). by eexists.
  - intros y st' Hy. rewrite Hfuts in Hy. apply lookup_insert_Some in Hy as [[<- <-]|[Hne Hy]]; [done|].
    pose proof (ro_futs _ Hs y st' Hy) as Hfy. destruct st' as [|a|r]; [|by eapply fut_ok_grows..].
    simpl in *. destruct Hcalls as [->|(f&a&->&_)]; [done|]. rewrite map_app. simpl. set_solver.
  - destruct Hcalls as [->|(f&a&->&->&_)]; [apply (ro_once _ Hs)|]. rewrite map_app. apply NoDup_app.
    pose proof (ro_futs _ Hs x Waiting Hx). split_and!; [apply (ro_once _ Hs)|set_solver|apply NoDup_singleton].
  - destruct Hcalls as [->|(f&a&->&_&Hw&Hf&Hfx&Ha)]; [done|]. intros k [Hk|Hk%list_elem_of_singleton]%elem_of_app; [auto|].
    subst k. split; [done|]. exists f. split_and!; [done..|]. eapply Forall2_impl; [exact Ha|]. intros p a'. by apply arg_done_grows.
Qed.

Lemma grows_set s x st0 st cs es : futs s !! x = Some st0 → (∀ r, st0 ≠ Done r) →
  grows s {| futs := <[x := st]> (futs s); calls := calls s ++ cs; errors := errors s ++ es |}.
Proof.
  intros Hx Hn. split_and!; [|by eexists..]. intros y r Hy. simpl. rewrite lookup_insert_ne; [done|].
  intros <-. simplify_eq. by eapply Hn.
Qed.

(** The facets that a needed facet takes are there when their futures are finished. *)
Lemma future_args_ok s f : run_ok s → f ∈ lets → ff_facet f ∈ wanted →
  (∀ d, d ∈ dependent_facets f → is_Some (outputs (futs s) !! d)) →
  ∃ a, future_args param (outputs (futs s)) (ff_call_params f) = ret a ∧ Forall2 (arg_done s) (ff_call_params f) a.
Proof.
  intros Hs Hf Hw Hdeps. assert (∀ d, d ∈ dependent_facets f → ∃ v, outputs (futs s) !! d = Some (Some v) ∧
    futs s !! d = Some (Done (Ok (Some v)))) as Hd.
  { intros d Hd. destruct (Hdeps d Hd) as [o Ho]. unfold outputs in Ho. rewrite lookup_omap in Ho.
    destruct (futs s !! d) as [[|a|[o'|e]]|] eqn:Hfd; simpl in Ho; try done. injection Ho as <-.
    destruct o' as [v|].
    - exists v. unfold outputs. rewrite lookup_omap, Hfd. done.
    - exfalso. apply (ro_futs _ Hs d _ Hfd). apply Hwanted. eapply needed_takes; [by apply Hwanted|]. by apply lets_takes. }
  assert (∃ ps, ff_call_params f = map call_param ps ∧ dependent_facets f = facet_names ps) as (ps&Hps&Hfn).
  { apply lets_entry in Hf as (e&->&_). by exists (e_params e). }
  rewrite Hps. rewrite Hfn in Hd. clear -Hd. induction ps as [|[p|d] ps IH]; simpl; [by exists []|..].
  - destruct IH as (a&->&Ha); [done|]. simpl. eexists. split; [done|]. by constructor.
  - destruct (Hd d) as (v&->&Hv); [set_solver|]. simpl. destruct IH as (a&->&Ha); [intros d' Hd'; apply Hd; set_solver|].
    simpl. eexists. split; [done|]. by constructor.
Qed.

Lemma run_ok_step s s' : run_ok s → step s s' → run_ok s'.
Proof.
  intros Hs (f&Hf&Hstep). remember (ret s') as r eqn:Hr.
  destruct Hstep as [s Hx Hw|s d e Hx Hw Hd He|s Hx Hw Hdeps|s a v Hx|s a e Hx He]; try injection Hr as <-.
  - eapply run_ok_move; [done| |exact Hx|done|done|done|by left].
    pose proof (grows_set s _ _ (Done (Ok None)) [] [] Hx) as Hg. rewrite !app_nil_r in Hg. by apply Hg.
  - eapply run_ok_move; [done| |exact Hx|done|done| |by left].
    + pose proof (grows_set s _ _ (Done (Err e)) [] [] Hx) as Hg. rewrite !app_nil_r in Hg. by apply Hg.
    + exact (ro_futs _ Hs _ _ He).
  - destruct (future_args_ok s f Hs Hf Hw Hdeps) as (a&Ha&Hargs). rewrite Ha in Hr. injection Hr as <-.
    eapply run_ok_move; [done| |exact Hx|done|done| |].
    + pose proof (grows_set s _ _ (Running a) [FacetSync.Build_Call (ff_facet f) a] [] Hx) as Hg. rewrite app_nil_r in Hg. by apply Hg.
    + simpl. set_solver.
    + right. exists f, a. by split_and!.
  - eapply run_ok_move; [done| |exact Hx|done|done| |by left].
    + pose proof (grows_set s _ _ (Done (Ok (Some v))) [] [] Hx) as Hg. rewrite !app_nil_r in Hg. by apply Hg.
    + simpl. apply (list_elem_of_fmap_2 FacetSync.called _ (FacetSync.Build_Call (ff_facet f) a)). exact (ro_futs _ Hs _ _ Hx).
  - eapply run_ok_move; [done| |exact Hx|done|done| |by left].
    + pose proof (grows_set s _ _ (Done (Err (length (errors s)))) [] [Some (FacetSync.FacetBuildFailed (ff_facet f) e)] Hx) as Hg.
      rewrite app_nil_r in Hg. by apply Hg.
    + simpl. exists (ff_facet f), e. split; [by apply list_lookup_middle|].
      apply (list_elem_of_fmap_2 FacetSync.called _ (FacetSync.Build_Call (ff_facet f) a)). exact (ro_futs _ Hs _ _ Hx).
Qed.

(** No [unwrap] fails: the facets that a needed facet takes have been made. *)
Lemma run_ok_no_panic s : run_ok s → ¬ step_panics param wanted lets s.
Proof.
  intros Hs (f&Hf&Hstep). remember panic as r eqn:Hr. destruct Hstep as [| |s Hx Hw Hdeps| |]; try done.
  destruct (future_args_ok s f Hs Hf Hw Hdeps) as (a&Ha&_). by rewrite Ha in Hr.
Qed.

Lemma run_ok_start scope :
  (∀ x st, scope !! x = Some st ↔ st = Waiting ∧ x ∈ ff_facet <$> lets) → run_ok (run_start scope).
Proof.
  intros Hs. split; simpl.
  - intros x. split.
    + intros [st [_ (f&->&Hf)%list_elem_of_fmap]%Hs]. by apply lets_ident.
    + intros (f&Hf&<-)%ident_lets. exists Waiting. apply Hs. split; [done|]. by apply list_elem_of_fmap_2.
  - intros x st [-> _]%Hs. simpl. set_solver.
  - apply NoDup_nil_2.
  - set_solver.
Qed.

(** ** The end of a run *)

Lemma joined_spec s out : run_ok s → joined (facet_idents fs) s out →
  match out with
  | ret (Ok facets) =>
      (∃ t, construct facets c = ret t ∧ FacetSync.container_of facets c = Some t) ∧
      (∀ x v, facets !! x = Some v ↔ futs s !! x = Some (Done (Ok (Some v)))) ∧
      (∀ x, x ∈ wanted ↔ x ∈ map FacetSync.called (calls s))
  | ret (Err (FacetSync.FacetBuildFailed x _)) => x ∈ map FacetSync.called (calls s)
  | panic => False
  end.
Proof.
  intros Hs Hj. destruct Hj as [outs Houts|x e Hx He].
  - set (m := list_to_map (zip (facet_idents fs) outs) : gmap string (option V)).
    assert (∀ x o, m !! x = Some o ↔ futs s !! x = Some (Done (Ok o))) as Hm.
    { intros x o. unfold m. pose proof (Forall2_length _ _ _ Houts) as Hl. rewrite <-elem_of_list_to_map.
      2: { rewrite fst_zip by lia. apply (fo_names _ Hok). }
      rewrite list_elem_of_lookup. setoid_rewrite lookup_zip_Some. split.
      - intros (i&Hi&Ho). destruct (Forall2_lookup_lr _ _ _ _ _ _ Houts Hi Ho). done.
      - intros Hf. assert (x ∈ facet_idents fs) as (i&Hi)%list_elem_of_lookup by (apply (ro_known _ Hs); by eexists).
        destruct (Forall2_lookup_l _ _ _ _ _ Houts Hi) as (o'&Ho'&Hf'). exists i. split; [done|]. congruence. }
    assert (∀ x v, (omap id m : gmap string V) !! x = Some v ↔ futs s !! x = Some (Done (Ok (Some v)))) as Hf.
    { intros x v. rewrite lookup_omap, <-Hm. destruct (m !! x) as [[w|]|]; simpl; naive_solver. }
    assert (∀ x, x ∈ wanted → ∃ v, futs s !! x = Some (Done (Ok (Some v)))) as Hw.
    { intros x Hxw. assert (x ∈ facet_idents fs) as Hxi.
      { apply Hwanted in Hxw as (r&Hr&Hrx). apply Hc in Hr. clear -Hr Hrx taken_known. induction Hrx; [done|]. eauto. }
      assert (x ∈ facet_idents fs) as (i&Hi)%list_elem_of_lookup by done.
      destruct (Forall2_lookup_l _ _ _ _ _ Houts Hi) as ([v|]&_&Hv); [by exists v|].
      exfalso. by apply (ro_futs _ Hs x _ Hv). }
    split_and!; [|done|].
    + destruct (container_of_is_Some (omap id m : gmap string V) c) as [t Ht]; [|exists t; split; [by apply construct_container_of|done]].
      intros x Hx. destruct (Hw x) as [v Hv]; [|exists v; by apply Hf]. apply Hwanted. by exists x.
    + intros x. split.
      * intros Hxw. destruct (Hw x Hxw) as [v Hv]. exact (ro_futs _ Hs x _ Hv).
      * intros (k&->&Hk)%list_elem_of_fmap. by apply (ro_calls _ Hs).
  - destruct (ro_futs _ Hs x _ He) as (y&err&Hy&Hcl). unfold factory_error, vec_index. rewrite Hy. done.
Qed.

(** ** Progress *)

Definition work (st : FutState V P) : nat := match st with Waiting => 2 | Running _ => 1 | Done _ => 0 end.

Lemma step_work s s' : step s s' → map_sum work (futs s') < map_sum work (futs s).
Proof.
  intros (f&_&Hstep).
  assert (∀ x st0 st, futs s !! x = Some st0 → work st < work st0 → map_sum work (<[x := st]> (futs s)) < map_sum work (futs s)) as Hlt.
  { intros x st0 st Hx Hw. pose proof (map_sum_update work (futs s) x st0 st Hx). lia. }
  remember (ret s') as r eqn:Hr.
  destruct Hstep as [s Hx _|s d e Hx _ _ _|s Hx _ _|s a v Hx|s a e Hx _]; try injection Hr as <-;
    try (destruct (future_args _ _ _); [injection Hr as <-|done]); simpl; eapply Hlt; try exact Hx; simpl; lia.
Qed.

(** A future that is waiting, or one that it waits for, can move or runs a method. *)
Lemma waiting_moves n s x : run_ok s → height (takes fs) n x → futs s !! x = Some Waiting →
  (∃ y a, futs s !! y = Some (Running a)) ∨ ∃ s', step s s'.
Proof.
  intros Hs Hh. induction Hh as [n x _ IH]. intros Hx.
  destruct (ident_lets x) as (f&Hf&Hfx); [apply (ro_known _ Hs); by eexists|]. subst x.
  destruct (decide (ff_facet f ∈ wanted)) as [Hw|Hw]; [|right; eexists; exists f; split; [done|by apply step_unneeded]].
  destruct (decide (Forall (λ d, is_Some (outputs (futs s) !! d)) (dependent_facets f))) as [Hall|Hnot].
  - rewrite Forall_forall in Hall. destruct (future_args_ok s f Hs Hf Hw Hall) as (a&Ha&_).
    right. eexists. exists f. split; [done|]. by apply step_call_ret with (a := a).
  - apply not_Forall_Exists in Hnot; [|solve_decision]. apply Exists_exists in Hnot as (d&Hd&Hn).
    assert (takes fs (ff_facet f) d) as Htk by by apply lets_takes.
    destruct (ro_known _ Hs d) as [_ Hkn]. destruct Hkn as [st Hst]; [by eapply taken_known|]. destruct st as [|a|[o|e]].
    + by apply (IH d).
    + left. by exists d, a.
    + exfalso. apply Hn. unfold outputs. rewrite lookup_omap, Hst. by eexists.
    + right. eexists. exists f. split; [done|]. by eapply step_dep_failed.
Qed.

Lemma classify s l : run_ok s → (∀ x, x ∈ l → x ∈ facet_idents fs) →
  (∃ outs, Forall2 (λ x o, futs s !! x = Some (Done (Ok o))) l outs) ∨
  ∃ x st, x ∈ l ∧ futs s !! x = Some st ∧ match st with Done (Ok _) => False | _ => True end.
Proof.
  intros Hs. induction l as [|x l IH]; intros Hl; [left; by exists []|].
  destruct (proj2 (ro_known _ Hs x)) as [st Hx]; [apply Hl; set_solver|].
  assert (match st with Done (Ok _) => False | _ => True end ∨ ∃ o, st = Done (Ok o)) as [Hst|[o ->]].
  { destruct st as [|a|[o|e]]; eauto. }
  - right. exists x, st. set_solver.
  - destruct IH as [(outs&Ho)|(y&st&Hy&?)]; [set_solver|left; exists (o :: outs); by constructor|].
    right. exists y, st. set_solver.
Qed.

(** A run that is not over can go on, unless it waits for methods of the factory to return. *)
Lemma run_goes_on s : run_ok s →
  (∃ out, joined (facet_idents fs) s out) ∨ (∃ x a, futs s !! x = Some (Running a)) ∨ ∃ s', step s s'.
Proof.
  intros Hs. destruct (classify s (facet_idents fs) Hs) as [(outs&Ho)|(x&st&Hx&Hst&Hno)]; [done|left; eexists; by constructor|].
  destruct st as [|a|[o|e]]; [|right; left; by exists x, a|done|left; eexists; by eapply joined_err].
  right. eapply waiting_moves; [done|apply (FacetSync.takes_height fs Hok acyclic)|done].
Qed.

Lemma run_ok_reachable scope s :
  (∀ x st, scope !! x = Some st ↔ st = Waiting ∧ x ∈ ff_facet <$> lets) → rtc step (run_start scope) s → run_ok s.
Proof.
  intros Hscope Hr. pose proof (run_ok_start scope Hscope) as H. induction Hr as [|s1 s2 s3 H1 _ IH]; [done|].
  by apply IH, (run_ok_step s1).
Qed.

Lemma run_bounded scope n s :
  (∀ x st, scope !! x = Some st ↔ st = Waiting ∧ x ∈ ff_facet <$> lets) → nsteps step n (run_start scope) s →
  n ≤ 2 * length (facet_idents fs).
Proof.
  intros Hscope Hn. assert (n + map_sum work (futs s) ≤ map_sum work scope) as Hle.
  { change scope with (futs (@run_start V E P scope)). induction Hn as [|n s1 s2 s3 Hs _ IH]; [done|].
    pose proof (step_work _ _ Hs). lia. }
  assert (map_sum work scope ≤ 2 * size (dom scope : gset string)) as Hw.
  { clear. induction scope as [|x st m Hx IH] using map_ind; [by rewrite map_sum_empty|].
    rewrite map_sum_insert by done. rewrite dom_insert, size_union, size_singleton.
    - assert (work st ≤ 2) by (destruct st; simpl; lia). lia.
    - apply disjoint_singleton_l. by apply not_elem_of_dom. }
  assert (size (dom scope : gset string) ≤ length (facet_idents fs)); [|lia].
  rewrite <-(size_list_to_set (C:=gset string)) by apply (fo_names _ Hok). apply subseteq_size.
  intros x [st [_ (f&->&Hf)%list_elem_of_fmap]%Hscope]%elem_of_dom. by apply elem_of_list_to_set, lets_ident.
Qed.
End run.
End theory.

(** The start of [build_async]: the facets that are marked, and the futures in scope. *)
Lemma async_start {V P} fs gen_fuel impls lets stores fuel c :
  facets_ok fs → facet_fuel fs < gen_fuel → gen_factory_builder gen_fuel fs = ret (Ok (AsyncBuilder impls lets stores)) →
  (∀ x, x ∈ FacetSync.container_facets c → x ∈ facet_idents fs) → length (facet_idents fs) < fuel →
  stores = facet_idents fs ∧ lets ≡ₚ map future_of (facets_iter fs) ∧
  ∃ wanted (scope : gmap string (FutState V P)),
    mark_needed impls fuel c ∅ = ret wanted ∧ define_futures lets ∅ = ret scope ∧
    (∀ y, y ∈ wanted ↔ FacetSync.needed fs c y) ∧ ∀ x st, scope !! x = Some st ↔ st = Waiting ∧ x ∈ ff_facet <$> lets.
Proof.
  intros Hok Hgf Hgen Hc Hfuel. destruct (gen_ok_acyclic fs gen_fuel _ Hok Hgf Hgen) as (Hac&Hkn&_&->&Hp&->&Hord).
  split_and!; [done..|]. destruct (mark_needed_spec fs Hok Hac Hkn fuel c ∅ Hfuel Hc) as (wanted&Hw&Hwanted).
  destruct (define_futures_spec [] lets (∅ : gmap string (FutState V P))) as (scope&Hs&Hscope); [done| |].
  { intros x st. rewrite lookup_empty. set_solver. }
  exists wanted, scope. split_and!; [done..| |done]. intros y. rewrite Hwanted. set_solver.
Qed.

(** C32: Whatever the order in which the executor runs the futures of an asynchronous factory and
    whatever its methods return: marking and the definitions of the futures do not panic, and no
    future panics in any state that can be reached, where it unwraps the facets it takes; every
    method is called at most once, for a facet that the container needs, with the facets that
    the finished futures of those it takes returned; and when the futures are joined, either
    all needed facets have been made and the container shares them, no [get] panicking, or the
    error of a method that was called is returned, no error being taken twice. *)
Theorem async_facets_shared {V E P} (param : string → P) fs gen_fuel impls lets stores fuel c :
  facets_ok fs → facet_fuel fs < gen_fuel → gen_factory_builder gen_fuel fs = ret (Ok (AsyncBuilder impls lets stores)) →
  (∀ x, x ∈ FacetSync.container_facets c → x ∈ facet_idents fs) → length (facet_idents fs) < fuel →
  ∃ wanted scope, mark_needed impls fuel c ∅ = ret wanted ∧ define_futures lets ∅ = ret scope ∧
    (∀ y, y ∈ wanted ↔ FacetSync.needed fs c y) ∧
    ∀ s : Run V E P, rtc (step param wanted lets) (run_start scope) s →
      ¬ step_panics param wanted lets s ∧
      NoDup (map FacetSync.called (calls s)) ∧
      (∀ k, k ∈ calls s → FacetSync.called k ∈ wanted ∧
         ∃ f, f ∈ lets ∧ ff_facet f = FacetSync.called k ∧ Forall2 (arg_done param s) (ff_call_params f) (FacetSync.args k)) ∧
      ∀ out, joined stores s out →
        match out with
        | ret (Ok facets) =>
            (∃ t, construct facets c = ret t ∧ FacetSync.container_of facets c = Some t) ∧
            (∀ x v, facets !! x = Some v ↔ futs s !! x = Some (Done (Ok (Some v)))) ∧
            (∀ x, x ∈ wanted ↔ x ∈ map FacetSync.called (calls s))
        | ret (Err (FacetSync.FacetBuildFailed x _)) => x ∈ map FacetSync.called (calls s)
        | panic => False
        end.
Proof.
  intros Hok Hgf Hgen Hc Hfuel. destruct (gen_ok_acyclic fs gen_fuel _ Hok Hgf Hgen) as (Hac&Hkn&_).
  destruct (async_start (V:=V) (P:=P) fs gen_fuel impls lets stores fuel c Hok Hgf Hgen Hc Hfuel)
    as (->&Hp&wanted&scope&Hm&Hd&Hw&Hscope).
  exists wanted, scope. split_and!; [done..|]. intros s Hr.
  assert (run_ok fs param wanted lets s) as Hs by (eapply run_ok_reachable; eassumption).
  split; [by eapply run_ok_no_panic|]. split; [apply Hs|]. split; [apply Hs|].
  intros out Hj. eapply joined_spec; eassumption.
Qed.

(** C33: A run of an asynchronous factory comes to its end: after at most two moves for each facet
    nothing is left to do, and as long as no method of the factory is waited for, the run can
    be joined or some future can move, whatever has happened so far. *)
Theorem async_build_ends {V E P} (param : string → P) fs gen_fuel impls lets stores fuel c :
  facets_ok fs → facet_fuel fs < gen_fuel → gen_factory_builder gen_fuel fs = ret (Ok (AsyncBuilder impls lets stores)) →
  (∀ x, x ∈ FacetSync.container_facets c → x ∈ facet_idents fs) → length (facet_idents fs) < fuel →
  ∃ wanted scope, mark_needed impls fuel c ∅ = ret wanted ∧ define_futures lets ∅ = ret scope ∧
    ∀ n (s : Run V E P), nsteps (step param wanted lets) n (run_start scope) s →
      n ≤ 2 * length (facet_idents fs) ∧
      ((∃ out, joined stores s out) ∨ (∃ x a, futs s !! x = Some (Running a)) ∨ ∃ s', step param wanted lets s s').
Proof.
  intros Hok Hgf Hgen Hc Hfuel. destruct (gen_ok_acyclic fs gen_fuel _ Hok Hgf Hgen) as (Hac&Hkn&_).
  destruct (async_start (V:=V) (P:=P) fs gen_fuel impls lets stores fuel c Hok Hgf Hgen Hc Hfuel)
    as (->&Hp&wanted&scope&Hm&Hd&Hw&Hscope).
  exists wanted, scope. split_and!; [done..|]. intros n s Hn. split.
  - eapply run_bounded; eassumption.
  - eapply run_goes_on; try eassumption.
    eapply run_ok_reachable; try eassumption. by eapply rtc_nsteps_2.
Qed.

Section witnesses.
Definition demo_code : BuilderCode :=
  Eval vm_compute in match gen_factory_builder 2000 (demo_facets true) with ret (Ok code) => code | _ => SyncBuilder [] end.
Definition demo_marks : list AsyncBuilderForImpl :=
  Eval vm_compute in match demo_code with AsyncBuilder impls _ _ => impls | _ => [] end.
Definition demo_lets : list FacetFuture :=
  Eval vm_compute in match demo_code with AsyncBuilder _ lets _ => lets | _ => [] end.
(** A container that needs "b", and so "a", but not "c". *)
Definition demo_small : Container := MkContainer [] ["b"%string].
Definition demo_wanted : gset string := Eval vm_compute in match mark_needed demo_marks 5 demo_small ∅ with ret n => n | panic => ∅ end.
Definition demo_scope : gmap string (FutState string ()) :=
  Eval vm_compute in match define_futures demo_lets ∅ with ret s => s | panic => ∅ end.

Definition demo_end : Run string () () :=
  {| futs := {["a"%string := Done (Ok (Some "A"%string)); "b"%string := Done (Ok (Some "B"%string)); "c"%string := Done (Ok None)]};
     calls := [FacetSync.Build_Call "a"%string [];
               FacetSync.Build_Call "b"%string [FacetSync.ArgFacet "A"%string; FacetSync.ArgParam ()]];
     errors := [] |}.

Ltac demo_move i := let f := eval vm_compute in (demo_lets !! i) in
  match f with Some ?f => eapply rtc_l; [exists f; split; [by apply (list_elem_of_lookup_2 demo_lets i)|]|] end.

Lemma demo_run : rtc (step (λ _, ()) demo_wanted demo_lets) (run_start demo_scope) demo_end.
Proof.
  demo_move 2; [apply step_unneeded; [done|by apply (bool_decide_unpack _)]|].
  demo_move 0; [apply step_call_ret with (a := []); [done|by apply (bool_decide_unpack _)|intros d Hd; by apply elem_of_nil in Hd|done]|].
  demo_move 0; [by apply (step_returned _ _ _ _ [] "A"%string)|].
  demo_move 1; [apply step_call_ret with (a := [FacetSync.ArgFacet "A"%string; FacetSync.ArgParam ()]);
    [done|by apply (bool_decide_unpack _)|intros d ->%list_elem_of_singleton; by eexists|done]|].
  demo_move 1; [by apply (step_returned _ _ _ _ [FacetSync.ArgFacet "A"%string; FacetSync.ArgParam ()] "B"%string)|].
  apply reflexive_eq. unfold demo_end, set_fut. simpl. f_equal.
Qed.

Lemma demo_start :
  facets_ok (demo_facets true) ∧ facet_fuel (demo_facets true) < 2000 ∧
  gen_factory_builder 2000 (demo_facets true) = ret (Ok (AsyncBuilder demo_marks demo_lets ["c"; "b"; "a"]%string)) ∧
  (∀ x, x ∈ FacetSync.container_facets demo_small → x ∈ facet_idents (demo_facets true)).
Proof.
  split_and!.
  - split; [by apply (bool_decide_unpack _)|done..].
  - apply Nat.ltb_lt. by vm_compute.
  - by vm_compute.
  - intros x ->%list_elem_of_singleton. by apply (bool_decide_unpack _).
Qed.

Lemma async_facets_shared_witness :
  ∃ wanted scope, mark_needed demo_marks 5 demo_small ∅ = ret wanted ∧ define_futures demo_lets ∅ = ret scope ∧
    rtc (step (λ _, ()) wanted demo_lets) (run_start scope) demo_end ∧ "c"%string ∉ wanted ∧ "a"%string ∈ wanted.
Proof.
  destruct demo_start as (Hok&Hf&Hg&Hc).
  destruct (@async_facets_shared string () () (λ _, ()) (demo_facets true) 2000 demo_marks demo_lets ["c"; "b"; "a"]%string 5
    demo_small Hok Hf Hg Hc) as (wanted&scope&Hw&Hs&Hin&Hrun); [apply Nat.ltb_lt; by vm_compute|].
  exists wanted, scope. assert (wanted = demo_wanted) as -> by (vm_compute in Hw; by injection Hw as <-).
  assert (scope = demo_scope) as -> by (vm_compute in Hs; by injection Hs as <-).
  destruct (Hrun demo_end demo_run) as (_&_&_).
  split_and!; [done|done|exact demo_run|by apply (bool_decide_unpack _)|by apply (bool_decide_unpack _)].
Defined.

Lemma async_build_ends_witness :
  ∃ wanted scope, mark_needed demo_marks 5 demo_small ∅ = ret wanted ∧ define_futures demo_lets ∅ = ret scope ∧
    ∀ n (s : Run string () ()), nsteps (step (λ _, ()) wanted demo_lets) n (run_start scope) s → n ≤ 6.
Proof.
  destruct demo_start as (Hok&Hf&Hg&Hc).
  destruct (@async_build_ends string () () (λ _, ()) (demo_facets true) 2000 demo_marks demo_lets ["c"; "b"; "a"]%string 5
    demo_small Hok Hf Hg Hc) as (wanted&scope&Hw&Hs&Hrun); [apply Nat.ltb_lt; by vm_compute|].
  exists wanted, scope. split_and!; [done..|]. intros n s Hn. exact (proj1 (Hrun n s Hn)).
Defined.
End witnesses.
End FacetAsync.
