(* ===== verification/Stats.v ===== *)
(** The aggregation of stats: the registry of thread-local values ([perthread],
    src/shed/perthread/src/lib.rs), the managers and the aggregator of [stats]
    (src/shed/stats/src/lib.rs, thread_local_aggregator.rs), and the stats that are made when they
    are first used (src/shed/stats/traits/dynamic_stat_types.rs, field_stat_types.rs).

    The registry is full of unsafe code: it keeps raw pointers to boxes owned by other threads.
    Threads interleave at its mutex; memory is a map from addresses to boxes, and a pointer to
    a box that has been freed is an address outside of it. *)
From stdpp Require Import relations strings.
From S2P Require Import Prelude RustStd RustStr.

(** * [perthread] *)

Module PerThread.
#[local] Open Scope Z_scope.

(** [StableStorage]: the value and the handle of its entry. *)
Record StableStorage (T : Type) := { val : T; handle : Z }.
Arguments Build_StableStorage {T}.
Arguments val {T}.
Arguments handle {T}.

(** What the thread that owns a box has done: allocated it, got a [PerThread] for it back, begun
    to drop that. *)
Inductive Owner := Registering | Held | Dropping.

(** How an operation ends: it returns, it panics, or it follows a pointer to a box that was freed. *)
Inductive outcome := Returned | Panicked | Dangled.

Section registry.
Context {T : Type} `{BuildMode}.

(** [ThreadMapLocked] with [idx] and [map], the memory, and the mutex: whether it is poisoned, and
    for a [for_each] that holds it the pointers [done_] that it has passed to its callback and those
    [todo] that it has not. *)
Record World := {
  heap : gmap nat (StableStorage T);
  owners : gmap nat Owner;
  idx : Z;
  map : gmap Z nat;
  locked : option (list nat * list nat);
  poisoned : bool;
}.
Implicit Types w : World.

(** [ThreadMap::default]. *)
Definition default_map : World := {| heap := ∅; owners := ∅; idx := 0; map := ∅; locked := None; poisoned := false |}.

Definition set_locked w (l : option (list nat * list nat)) : World :=
  {| heap := heap w; owners := owners w; idx := idx w; map := map w; locked := l; poisoned := poisoned w |}.
(** The mutex is unlocked by a panic. *)
Definition poison w : World :=
  {| heap := heap w; owners := owners w; idx := idx w; map := map w; locked := None; poisoned := true |}.
Definition set_owner w (a : nat) (o : Owner) : World :=
  {| heap := heap w; owners := <[a := o]> (owners w); idx := idx w; map := map w; locked := locked w; poisoned := poisoned w |}.

(** A box is freed: by [PerThread]'s drop, or by a panic that unwinds [register]. *)
Definition free_storage w (a : nat) : World :=
  {| heap := delete a (heap w); owners := delete a (owners w); idx := idx w; map := map w; locked := locked w;
     poisoned := poisoned w |}.

(** [register]: boxing the value. *)
Definition box_storage w (a : nat) (v : T) : World :=
  {| heap := <[a := Build_StableStorage v 0]> (heap w); owners := <[a := Registering]> (owners w);
     idx := idx w; map := map w; locked := locked w; poisoned := poisoned w |}.

(** [register]: [lock().expect("poisoned lock")] and the critical section.  A panic frees the box; one
    in [idx += 1], in a build that checks, comes with the lock held. *)
Definition register_locked w (a : nat) : outcome * World :=
  if poisoned w then (Panicked, free_storage w a)
  else
    match heap w !! a with
    | None => (Dangled, w)
    | Some storage =>
        let h := idx w in
        let heap_ := <[a := Build_StableStorage (val storage) h]> (heap w) in
        let map_ := <[h := a]> (map w) in
        match usize_add (idx w) 1 with
        | ret next => (Returned, {| heap := heap_; owners := <[a := Held]> (owners w); idx := next; map := map_;
                                    locked := locked w; poisoned := poisoned w |})
        | panic => (Panicked, free_storage (poison {| heap := heap_; owners := owners w; idx := idx w; map := map_;
                                                      locked := locked w; poisoned := poisoned w |}) a)
        end
    end.

(** [Drop for PerThread]: [unregister], with its [lock().expect("poisoned lock")]; whether it returns
    or panics, the box is freed next. *)
Definition unregister w (a : nat) : outcome * World :=
  match heap w !! a with
  | None => (Dangled, w)
  | Some storage =>
      if poisoned w then (Panicked, set_owner w a Dropping)
      else (Returned, {| heap := heap w; owners := <[a := Dropping]> (owners w); idx := idx w;
                         map := delete (handle storage) (map w); locked := locked w; poisoned := poisoned w |})
  end.

(** [for_each]: [lock().expect("lock poisoned")], with the values in the order [l]; the next call of
    the callback, which returns or panics; and the end of the loop. *)
Definition for_each_begin w (l : list nat) : outcome * World :=
  if poisoned w then (Panicked, w) else (Returned, set_locked w (Some ([], l))).
Definition for_each_visit w (l : list nat) (a : nat) (l' : list nat) (callback_panics : bool) : outcome * World :=
  match heap w !! a with
  | None => (Dangled, w)
  | Some _ => if callback_panics then (Panicked, poison w) else (Returned, set_locked w (Some (l ++ [a], l')))
  end.

(** A write to a value through a shared reference of its owner, or of a callback. *)
Definition write w (a : nat) (v : T) : outcome * World :=
  match heap w !! a with
  | None => (Dangled, w)
  | Some storage =>
      (Returned, {| heap := <[a := Build_StableStorage v (handle storage)]> (heap w); owners := owners w; idx := idx w;
                    map := map w; locked := locked w; poisoned := poisoned w |})
  end.

(** What a thread does next. *)
Inductive move :=
| MBox (a : nat) (v : T) | MRegister (a : nat) | MWrite (a : nat) (v : T) | MUnregister (a : nat) | MFree (a : nat)
| MForEach (l : list nat) | MVisit (callback_panics : bool) | MEnd.

(** The moves of the threads, of which those that lock the mutex wait for it.  The values of a
    [HashMap] come in any order.  A callback that locks the mutex again waits for ever. *)
Inductive step w : move → outcome * World → Prop :=
| step_box a v : heap w !! a = None → step w (MBox a v) (Returned, box_storage w a v)
| step_register a : locked w = None → owners w !! a = Some Registering → step w (MRegister a) (register_locked w a)
| step_write a v : owners w !! a = Some Held → step w (MWrite a v) (write w a v)
| step_unregister a : locked w = None → owners w !! a = Some Held → step w (MUnregister a) (unregister w a)
| step_free a : owners w !! a = Some Dropping → step w (MFree a) (Returned, free_storage w a)
| step_begin l : locked w = None → l ≡ₚ (map_to_list (map w)).*2 → step w (MForEach l) (for_each_begin w l)
| step_visit l a l' p : locked w = Some (l, a :: l') → step w (MVisit p) (for_each_visit w l a l' p)
| step_end l : locked w = Some (l, []) → step w MEnd (Returned, set_locked w None).

Inductive run : list move → World → Prop :=
| run_start : run [] default_map
| run_snoc ms w mv o w' : run ms w → step w mv (o, w') → run (ms ++ [mv]) w'.

Lemma run_next ms w mv r : run ms w → step w mv r → run (ms ++ [mv]) r.2.
Proof. destruct r as [o w']. apply run_snoc. Qed.

Definition registrations (ms : list move) : nat :=
  length (omap (λ mv, match mv with MRegister a => Some a | _ => None end) ms).

(** How an operation should end. *)
Definition expected w (mv : move) : outcome :=
  match mv with
  | MRegister _ | MUnregister _ | MForEach _ => if poisoned w then Panicked else Returned
  | MVisit true => Panicked
  | _ => Returned
  end.

(** ** The registry and its pointers *)

(** While the mutex is not poisoned, the entry of a box is in the map just while its owner holds the
    [PerThread]; once it is, nobody follows the pointers of the map. *)
Record registered w : Prop := {
  so_map : ∀ h a, map w !! h = Some a ↔ owners w !! a = Some Held ∧ ∃ v, heap w !! a = Some (Build_StableStorage v h);
  so_idx : ∀ h a, map w !! h = Some a → 0 ≤ h < idx w;
  so_locked : ∀ l l', locked w = Some (l, l') → l ++ l' ≡ₚ (map_to_list (map w)).*2;
}.
Record sound w : Prop := {
  so_owned : ∀ a, is_Some (heap w !! a) ↔ is_Some (owners w !! a);
  so_nonneg : 0 ≤ idx w;
  so_registered : if poisoned w then locked w = None else registered w;
}.

Lemma sound_default : sound default_map.
Proof.
  split; simpl; [|lia|split; simpl].
  - intros a. rewrite !lookup_empty. by split; intros [].
  - intros h a. rewrite !lookup_empty. naive_solver.
  - intros h a. by rewrite lookup_empty.
  - done.
Qed.

Lemma sound_heap w a o : sound w → owners w !! a = Some o → ∃ storage, heap w !! a = Some storage.
Proof. intros Hw Ho. apply (so_owned _ Hw). by eexists. Qed.

(** A change that leaves the map and the lock alone. *)
Lemma sound_box w a v : sound w → heap w !! a = None → sound (box_storage w a v).
Proof.
  intros [H1 H5 Hr] Ha. assert (owners w !! a = None) as Ho by (apply eq_None_not_Some; rewrite <-H1, Ha; by intros []).
  split; simpl; [|done|].
  - intros b. rewrite !lookup_insert_is_Some'. by rewrite H1.
  - destruct (poisoned w); [done|]. destruct Hr as [H2 H3 H4]. split; simpl; [|done..].
    intros h b. rewrite H2. destruct (decide (b = a)) as [->|Hne]; [|by rewrite !lookup_insert_ne].
    rewrite Ho, Ha, !lookup_insert_eq. naive_solver.
Qed.

Lemma sound_free w a : sound w → (poisoned w = false → owners w !! a ≠ Some Held) → sound (free_storage w a).
Proof.
  intros [H1 H5 Hr] Ho. split; simpl; [|done|].
  - intros b. rewrite !lookup_delete_is_Some. by rewrite H1.
  - destruct (poisoned w); [done|]. destruct Hr as [H2 H3 H4]. split; simpl; [|done..].
    intros h b. rewrite H2. destruct (decide (b = a)) as [->|Hne]; [|by rewrite !lookup_delete_ne].
    rewrite !lookup_delete_eq. naive_solver.
Qed.

Lemma sound_register w a : sound w → locked w = None → owners w !! a = Some Registering → idx w < usize_max →
  sound (register_locked w a).2 ∧ idx (register_locked w a).2 ≤ idx w + 1 ∧
  poisoned (register_locked w a).2 = poisoned w ∧ (register_locked w a).1 = if poisoned w then Panicked else Returned.
Proof.
  intros Hw Hl Ho Hi. unfold register_locked, usize_add. destruct (poisoned w) eqn:Hp.
  { split; [apply sound_free; congruence|]. simpl. split; [lia|done]. }
  destruct (sound_heap w a _ Hw Ho) as [st Hst]. destruct Hw as [H1 H5 Hr]. rewrite Hp in Hr. destruct Hr as [H2 H3 H4].
  rewrite Hst. simpl. rewrite usize_wrap_exact by lia. simpl. split; [|split; [lia|done]]. split; simpl; [|lia|split; simpl].
  - intros b. rewrite !lookup_insert_is_Some'. by rewrite H1.
  - intros h b. rewrite lookup_insert_Some, H2. destruct (decide (b = a)) as [->|Hne].
    + rewrite !lookup_insert_eq, Ho. split; [|intros (_&v&[= <- <-]); by left].
      intros [[<- _]|[_ [? _]]]; [|done]. split; [done|]. by eexists.
    + rewrite !lookup_insert_ne by done. split; [|intros Hb; right; split; [|done]].
      * intros [[_ ?]|[_ Hb]]; [by simplify_eq|done].
      * intros <-. apply H2, H3 in Hb. lia.
  - intros h b [[<- _]|[_ Hb]]%lookup_insert_Some; [lia|]. apply H3 in Hb. lia.
  - by rewrite Hl.
Qed.

Lemma sound_write w a v : sound w → owners w !! a = Some Held →
  sound (write w a v).2 ∧ idx (write w a v).2 = idx w ∧ poisoned (write w a v).2 = poisoned w ∧ (write w a v).1 = Returned.
Proof.
  intros Hw Ho. unfold write. destruct (sound_heap w a _ Hw Ho) as [st Hst]. destruct Hw as [H1 H5 Hr]. rewrite Hst. simpl.
  split; [|done]. split; simpl; [|done|].
  - intros b. rewrite lookup_insert_is_Some', H1. split; [intros [<-|?]; [by eexists|done]|by right].
  - destruct (poisoned w); [done|]. destruct Hr as [H2 H3 H4]. split; simpl; [|done..].
    intros h b. rewrite H2. destruct (decide (b = a)) as [->|Hne]; [|by rewrite lookup_insert_ne].
    rewrite lookup_insert_eq, Hst. destruct st as [u k]. simpl. naive_solver.
Qed.

Lemma sound_unregister w a : sound w → locked w = None → owners w !! a = Some Held →
  sound (unregister w a).2 ∧ idx (unregister w a).2 = idx w ∧ poisoned (unregister w a).2 = poisoned w ∧
  (unregister w a).1 = if poisoned w then Panicked else Returned.
Proof.
  intros Hw Hl Ho. unfold unregister. destruct (sound_heap w a _ Hw Ho) as [st Hst]. destruct Hw as [H1 H5 Hr]. rewrite Hst.
  assert (∀ b, is_Some (heap w !! b) ↔ is_Some (<[a := Dropping]> (owners w) !! b)) as Hown.
  { intros b. rewrite lookup_insert_is_Some', H1. split; [by right|intros [<-|?]; [by eexists|done]]. }
  destruct (poisoned w) eqn:Hp; simpl; (split; [|done]); (split; simpl; [done|done|]); rewrite ?Hp; [done|].
  destruct Hr as [H2 H3 H4]. assert (map w !! handle st = Some a) as Hm.
  { apply H2. split; [done|]. exists (val st). rewrite Hst. by destruct st. }
  split; simpl; [| |by rewrite Hl].
  - intros h b. rewrite lookup_delete_Some, H2. destruct (decide (b = a)) as [->|Hne].
    + rewrite lookup_insert_eq, Hst. split; [|naive_solver]. intros (Hh&_&v&[= ->]). done.
    + rewrite lookup_insert_ne by done. split; [tauto|]. intros Hb. split; [|done].
      intros Heq. apply H2 in Hb. rewrite <-Heq, Hm in Hb. by simplify_eq.
  - intros h b [_ Hb]%lookup_delete_Some. by eapply H3.
Qed.

(** The pointers of the map are to the boxes whose owners hold them. *)
Lemma registered_values w : sound w → poisoned w = false →
  ∀ a, a ∈ (map_to_list (map w)).*2 ↔ owners w !! a = Some Held.
Proof.
  intros Hw Hp a. pose proof (so_registered _ Hw) as Hr. rewrite Hp in Hr. rewrite list_elem_of_fmap. split.
  - intros ([h b]&->&Hh%elem_of_map_to_list). by apply (so_map _ Hr) in Hh as [? _].
  - intros Ho. destruct (sound_heap w a _ Hw Ho) as [[v h] Ha].
    exists (h, a). split; [done|]. apply elem_of_map_to_list, (so_map _ Hr). split; [done|by exists v].
Qed.

Lemma locked_registered w l l' : sound w → locked w = Some (l, l') →
  poisoned w = false ∧ l ++ l' ≡ₚ (map_to_list (map w)).*2 ∧ ∀ a, a ∈ l ++ l' ↔ owners w !! a = Some Held.
Proof.
  intros Hw Hl. pose proof (so_registered _ Hw) as Hr. destruct (poisoned w) eqn:Hp; [congruence|].
  pose proof (so_locked _ Hr l l' Hl) as Hperm. split_and!; [done..|]. intros a. rewrite Hperm. by apply registered_values.
Qed.

Lemma sound_lock w l : sound w → poisoned w = false →
  (∀ k k', l = Some (k, k') → k ++ k' ≡ₚ (map_to_list (map w)).*2) → sound (set_locked w l).
Proof.
  intros [H1 H5 Hr] Hp Hl. rewrite Hp in Hr. destruct Hr as [H2 H3 H4]. split; simpl; [done..|]. rewrite Hp. by split.
Qed.

Lemma sound_step w mv o w' : sound w → idx w < usize_max ∨ registrations [mv] = 0%nat → step w mv (o, w') →
  sound w' ∧ idx w' ≤ idx w + Z.of_nat (registrations [mv]) ∧ o = expected w mv ∧
  (poisoned w' = true ↔ poisoned w = true ∨ mv = MVisit true).
Proof.
  intros Hw Hi Hs. inversion Hs as [a v Ha Hmv Heq|a Hl Ho Hmv Heq|a v Ho Hmv Heq|a Hl Ho Hmv Heq|a Ho Hmv Heq|l Hl Hp Hmv Heq|l a l' p Hl Hmv Heq|l Hl Hmv Heq]; clear Hs; subst mv.
  - simplify_eq. split; [by apply sound_box|]. simpl. naive_solver lia.
  - destruct Hi as [Hi|]; [|done]. destruct (sound_register w a Hw Hl Ho Hi) as (H1&H2&H3&H4). rewrite Heq in *. simpl in *.
    rewrite H3. naive_solver.
  - destruct (sound_write w a v Hw Ho) as (H1&H2&H3&H4). rewrite Heq in *. simpl in *. rewrite H3. split_and!; [done|lia|done|naive_solver].
  - destruct (sound_unregister w a Hw Hl Ho) as (H1&H2&H3&H4). rewrite Heq in *. simpl in *. rewrite H3. split_and!; [done|lia|done|naive_solver].
  - simplify_eq. split; [apply sound_free; [done|congruence]|]. simpl. naive_solver lia.
  - unfold for_each_begin in Heq. simpl. destruct (poisoned w) eqn:Hpo; simplify_eq; simpl; rewrite ?Hpo.
    + split_and!; [done|lia|done|naive_solver].
    + split; [apply sound_lock; [done..|]; by intros k k' [= <- <-]|]. simpl. naive_solver lia.
  - destruct (locked_registered w l (a :: l') Hw Hl) as (Hpo&Hperm&Hin). destruct (sound_heap w a Held Hw) as [st Hst].
    { apply Hin. set_solver. }
    unfold for_each_visit in Heq. rewrite Hst in Heq. destruct p; simplify_eq; simpl; rewrite ?Hpo.
    + split; [split; simpl; [apply (so_owned _ Hw)|apply (so_nonneg _ Hw)|done]|]. naive_solver lia.
    + split; [apply sound_lock; [done..|]; intros k k' [= <- <-]; by rewrite <-app_assoc|]. simpl. naive_solver lia.
  - destruct (locked_registered w l [] Hw Hl) as (Hpo&_). simplify_eq. simpl. rewrite Hpo.
    split; [by apply sound_lock|]. naive_solver lia.
Qed.

Lemma registrations_app ms ms' : registrations (ms ++ ms') = (registrations ms + registrations ms')%nat.
Proof. unfold registrations. by rewrite omap_app, length_app. Qed.

(** There is room for the next registration. *)
Lemma next_fits ms mv w : Z.of_nat (registrations (ms ++ [mv])) ≤ usize_max → idx w ≤ Z.of_nat (registrations ms) →
  idx w < usize_max ∨ registrations [mv] = 0%nat.
Proof. rewrite registrations_app. destruct (registrations [mv]); [auto|left; lia]. Qed.

Lemma sound_run ms w : run ms w → Z.of_nat (registrations ms) ≤ usize_max →
  sound w ∧ idx w ≤ Z.of_nat (registrations ms) ∧ (poisoned w = true ↔ MVisit true ∈ ms).
Proof.
  induction 1 as [|ms w mv o w' _ IH Hs]; intros Hn; [split; [apply sound_default|split; [done|]]; simpl; set_solver|].
  pose proof Hn as Hn'. rewrite registrations_app in Hn'. destruct IH as (Hw&Hi&Hp); [lia|].
  destruct (sound_step w mv o w' Hw (next_fits ms mv w Hn Hi) Hs) as (Hw'&Hi'&_&Hp'). split; [done|]. split; [rewrite registrations_app; lia|].
  rewrite Hp', Hp, elem_of_app, list_elem_of_singleton. naive_solver.
Qed.
End registry.

(** C34: With fewer than 2^64 registrations the raw pointers of the registry are safe, in every
    interleaving of threads that register, write, drop and enumerate with callbacks that may panic:
    the next pointer of a [for_each] always points to a live box whose owner still holds it, and when
    the [for_each] ends it has passed to its callback every registered value once and nothing else;
    the mutex is poisoned exactly if a callback has panicked, and then registering, dropping and
    enumerating panic, each time, before they touch the map; otherwise they return, nothing panics
    but callbacks, and no pointer to freed memory is ever followed. *)
Theorem perthread_safe {T} `{BuildMode} ms (w : World (T:=T)) :
  run ms w → Z.of_nat (registrations ms) ≤ usize_max →
  (∀ l a l', locked w = Some (l, a :: l') → owners w !! a = Some Held ∧ is_Some (heap w !! a)) ∧
  (∀ l, locked w = Some (l, []) → NoDup l ∧ ∀ a, a ∈ l ↔ owners w !! a = Some Held) ∧
  (poisoned w = true ↔ MVisit true ∈ ms) ∧
  (∀ mv o w', step w mv (o, w') → Z.of_nat (registrations (ms ++ [mv])) ≤ usize_max → o = expected w mv).
Proof.
  intros Hr Hn. destruct (sound_run ms w Hr Hn) as (Hw&Hi&Hp). split_and!; [| |done|].
  - intros l a l' Hl. destruct (locked_registered w l (a :: l') Hw Hl) as (_&_&Hin).
    assert (owners w !! a = Some Held) as Ho by (apply Hin; set_solver). split; [done|]. by eapply sound_heap.
  - intros l Hl. destruct (locked_registered w l [] Hw Hl) as (Hpo&Hperm&Hin). rewrite app_nil_r in *. split; [|done].
    pose proof (so_registered _ Hw) as Hreg. rewrite Hpo in Hreg. rewrite Hperm.
    apply NoDup_fmap_2_strong; [|apply NoDup_map_to_list].
    intros [h a] [k b] Ha%elem_of_map_to_list Hb%elem_of_map_to_list Heq. simpl in Heq. subst b.
    apply (so_map _ Hreg) in Ha as (_&v&Ha), Hb as (_&u&Hb). by simplify_eq.
  - intros mv o w' Hs Hn'. by apply (sound_step w mv o w' Hw (next_fits ms mv w Hn' Hi) Hs).
Qed.

Section witness.
#[local] Open Scope nat_scope.
#[local] Existing Instance release_build.

(** Two threads register, the first drops its value while nobody looks, and the callback of a
    [for_each] panics at the other value. *)
Definition demo_world (p : bool) : World (T:=nat) :=
  {| heap := {[1 := Build_StableStorage 7 1%Z]}; owners := {[1 := Held]}; idx := 2%Z; map := {[1%Z := 1]};
     locked := if p then None else Some ([], [1]); poisoned := p |}.
Definition demo_moves : list (move (T:=nat)) :=
  [MBox 0 5; MRegister 0; MBox 1 7; MRegister 1; MUnregister 0; MFree 0; MForEach [1]].

#[local] Tactic Notation "demo_move" uconstr(s) ident(H) :=
  match type of H with run ?ms ?w =>
    let Hs := fresh in eassert (step w _ _) as Hs by (by apply s); apply (run_next ms w _ _ H) in Hs; clear H; rename Hs into H end.

Lemma demo_moves_run : run demo_moves (demo_world false) ∧ run (demo_moves ++ [MVisit true]) (demo_world true).
Proof.
  assert (run (T:=nat) [] default_map) as Hr by apply run_start.
  demo_move (step_box _ 0 5) Hr. demo_move (step_register _ 0) Hr. demo_move (step_box _ 1 7) Hr. demo_move (step_register _ 1) Hr.
  demo_move (step_unregister _ 0) Hr. demo_move (step_free _ 0) Hr. demo_move (step_begin _ [1]) Hr.
  assert (run demo_moves (demo_world false)) as Hd by exact Hr. split; [exact Hd|].
  demo_move (step_visit _ [] 1 [] true) Hd. exact Hd.
Qed.

(** The value can be enumerated, and after the panic it cannot be dropped without another. *)
Lemma perthread_safe_witness :
  owners (demo_world false) !! 1 = Some Held ∧ poisoned (demo_world true) = true ∧
  (unregister (demo_world true) 1).1 = Panicked.
Proof.
  destruct demo_moves_run as [H1 H2]. split_and!.
  - apply (perthread_safe demo_moves (demo_world false) H1 ltac:(by vm_compute)) with (l := []) (l' := []). done.
  - apply (perthread_safe _ (demo_world true) H2 ltac:(by vm_compute)). set_solver.
  - destruct (perthread_safe _ (demo_world true) H2 ltac:(by vm_compute)) as (_&_&_&H).
    rewrite (H (MUnregister 1) _ (unregister (demo_world true) 1).2); [done|exact (step_unregister (demo_world true) 1 eq_refl eq_refl)|by vm_compute].
Defined.
End witness.
End PerThread.

(** * Managers and the aggregator *)

Module Managers.
Section managers.
Context {Factory Manager : Type} (create : Factory → Manager) (get_default_stats_manager_factory : Factory).

(** [STATS_MANAGER_FACTORY]: the factory behind its lock, which a panic with the lock taken for
    writing poisons. *)
Record Global := { factory : option Factory; poisoned : bool }.

Definition unset : Global := {| factory := None; poisoned := false |}.

Definition register_stats_manager_factory (f : Factory) (g : Global) : exec () * Global :=
  if poisoned g then (panic, g)
  else
    match factory g with
    | Some _ => (panic, {| factory := factory g; poisoned := true |})
    | None => (ret (), {| factory := Some f; poisoned := false |})
    end.

(** [create_stats_manager]: with the lock taken for reading, and, if there was no factory, with
    the lock taken for writing. *)
Definition create_reading (g : Global) : exec (option Manager) :=
  if poisoned g then panic else ret (create <$> factory g).
Definition create_writing (g : Global) : exec Manager * Global :=
  if poisoned g then (panic, g)
  else
    let f := default get_default_stats_manager_factory (factory g) in
    (ret (create f), {| factory := Some f; poisoned := false |}).

(** What threads do to the factory, one critical section after the other, and the managers they
    get. *)
Inductive action := Register (f : Factory) | Reading | Writing.

Definition run_action (g : Global) (a : action) : list Manager * Global :=
  match a with
  | Register f => ([], (register_stats_manager_factory f g).2)
  | Reading => (match create_reading g with ret (Some m) => [m] | _ => [] end, g)
  | Writing => let '(m, g) := create_writing g in (match m with ret m => [m] | panic => [] end, g)
  end.

Fixpoint run_actions (g : Global) (l : list action) : list Manager * Global :=
  match l with
  | [] => ([], g)
  | a :: l => let '(ms, g) := run_action g a in let '(ms', g) := run_actions g l in (ms ++ ms', g)
  end.

(** Once there is a factory it makes all managers. *)
Lemma run_actions_factory f g l :
  factory g = Some f → factory (run_actions g l).2 = Some f ∧ ∀ m, m ∈ (run_actions g l).1 → m = create f.
Proof.
  revert g. induction l as [|a l IH]; intros g Hg; simpl; [set_solver|].
  assert (factory (run_action g a).2 = Some f ∧ ∀ m, m ∈ (run_action g a).1 → m = create f) as [H1 H2].
  { destruct a as [f'| |]; simpl; unfold register_stats_manager_factory, create_reading, create_writing;
      destruct (poisoned g); simpl; rewrite ?Hg; simpl; (split; [done|]); set_solver. }
  destruct (run_action g a) as [ms g1]. simpl in *. destruct (IH g1 H1) as [H3 H4].
  destruct (run_actions g1 l) as [ms' g2]. simpl in *. split; [done|]. intros m [?|?]%elem_of_app; auto.
Qed.

(** Whatever the order of the threads, all managers come from one factory. *)
Lemma managers_agree l : ∃ f, ∀ m, m ∈ (run_actions unset l).1 → m = create f.
Proof.
  induction l as [|a l IH]; [exists get_default_stats_manager_factory; set_solver|]. simpl. destruct a as [f| |]; simpl.
  - exists f. destruct (run_actions_factory f {| factory := Some f; poisoned := false |} l eq_refl) as [_ H].
    destruct (run_actions {| factory := Some f; poisoned := false |} l) as [ms g]. simpl in *. done.
  - destruct IH as [f IH]. exists f. destruct (run_actions unset l) as [ms g] eqn:Hr. simpl in *. done.
  - exists get_default_stats_manager_factory.
    destruct (run_actions_factory _ {| factory := Some get_default_stats_manager_factory; poisoned := false |} l eq_refl) as [_ H].
    destruct (run_actions {| factory := Some _; poisoned := false |} l) as [ms g]. simpl in *. set_solver.
Qed.

(** Registering a second factory poisons the lock: after it no manager can be made. *)
Lemma second_factory_poisons f g f' :
  factory g = Some f → poisoned g = false →
  create_reading (register_stats_manager_factory f' g).2 = panic ∧
  (create_writing (register_stats_manager_factory f' g).2).1 = panic.
Proof. intros Hf Hp. unfold register_stats_manager_factory. rewrite Hp, Hf. done. Qed.
End managers.

Section aggregator.
Context {Manager Scheduler : Type} (aggregate_manager : Manager → Manager).

(** [STATS_AGGREGATOR]: the registries, with the managers that are registered with them, and
    [STATS_SCHEDULED]. *)
Record Aggregator := { registries : list (gmap nat Manager); scheduled : bool }.

Definition create_map (s : Aggregator) : nat * Aggregator :=
  (length (registries s), {| registries := registries s ++ [∅]; scheduled := scheduled s |}).

(** [ThreadMap::for_each] with [stats.aggregate()], for all registries. *)
Definition aggregate (s : Aggregator) : Aggregator :=
  {| registries := (λ r : gmap nat Manager, aggregate_manager <$> r) <$> registries s; scheduled := scheduled s |}.

(** The future aggregates at every tick of its stream. *)
Definition schedule_stats_on_stream_preview (ticks : nat) (s : Aggregator) : Aggregator := Nat.iter ticks aggregate s.

Definition schedule_stats_aggregation_preview (scheduler : Scheduler) (s : Aggregator) : result Scheduler Scheduler * Aggregator :=
  (if scheduled s then Err scheduler else Ok scheduler, {| registries := registries s; scheduled := true |}).

Lemma aggregate_all ticks s i a m :
  registries s !! i ≫= (λ r, r !! a) = Some m →
  registries (schedule_stats_on_stream_preview ticks s) !! i ≫= (λ r, r !! a) = Some (Nat.iter ticks aggregate_manager m).
Proof.
  intros Hm. unfold schedule_stats_on_stream_preview. induction ticks as [|ticks IH]; simpl; [done|].
  rewrite list_lookup_fmap. destruct (registries (Nat.iter ticks aggregate s) !! i) as [r|]; [|done]. simpl in *.
  by rewrite lookup_fmap, IH.
Qed.

(** Only the first call gets the future as its result; the others get it as an error. *)
Lemma scheduled_once scheduler scheduler' s :
  scheduled s = false →
  let '(r, s1) := schedule_stats_aggregation_preview scheduler s in
  r = Ok scheduler ∧ (schedule_stats_aggregation_preview scheduler' s1).1 = Err scheduler'.
Proof. intros Hs. unfold schedule_stats_aggregation_preview. by rewrite Hs. Qed.
End aggregator.
End Managers.

(** * Stats made when they are used *)

Module StatTypes.

(** ** Keys *)

Section keys.
(** A format string of [format!]: literal text, [{}] and [{n}]. *)
Inductive Piece := Lit (s : string) | Hole | Pos (n : nat).

(** [format!(pieces, args)]; [None] is a compile-time error. *)
Fixpoint format_from (next : nat) (pieces : list Piece) (args : list string) : option string :=
  match pieces with
  | [] => Some EmptyString
  | Lit s :: pieces => rest ← format_from next pieces args; Some (s +:+ rest)
  | Hole :: pieces => a ← args !! next; rest ← format_from (S next) pieces args; Some (a +:+ rest)
  | Pos n :: pieces => a ← args !! n; rest ← format_from next pieces args; Some (a +:+ rest)
  end.
Definition format (pieces : list Piece) (args : list string) : option string := format_from 0 pieces args.

(** [__create_stat_key!]. *)
Definition create_stat_key (prefix key : string) : string :=
  if is_empty_string prefix then key else prefix +:+ "." +:+ key.

(** [__define_key_generator!]: the arm for a literal prefix, which becomes a part of the format
    string; those for up to three placeholders, where the prefix is one more argument; and the
    last one. *)
Definition key_generator_literal (prefix : string) (key : list Piece) (args : list string) : option string :=
  if is_empty_string prefix then format key args else format (Lit prefix :: Lit "." :: key) args.
Definition key_generator_few (prefix : string) (key : list Piece) (args : list string) : option string :=
  if is_empty_string prefix then format key args
  else format (Pos (length args) :: Lit "." :: key) (args ++ [prefix]).
Definition key_generator_many (prefix : string) (key : list Piece) (args : list string) : option string :=
  key ← format key args; Some (create_stat_key prefix key).

Lemma format_from_app next pieces args more s :
  format_from next pieces args = Some s → format_from next pieces (args ++ more) = Some s.
Proof.
  revert next s. induction pieces as [|[t| |n] pieces IH]; intros next s; simpl; [done|..].
  - destruct (format_from next pieces args) eqn:Hf; [|done]. by rewrite (IH _ _ Hf).
  - destruct (args !! next) eqn:Ha; [|done]. rewrite (lookup_app_l_Some _ _ _ _ Ha). simpl.
    destruct (format_from (S next) pieces args) eqn:Hf; [|done]. by rewrite (IH _ _ Hf).
  - destruct (args !! n) eqn:Ha; [|done]. rewrite (lookup_app_l_Some _ _ _ _ Ha). simpl.
    destruct (format_from next pieces args) eqn:Hf; [|done]. by rewrite (IH _ _ Hf).
Qed.

(** The arms make the same key. *)
Lemma key_generators_agree prefix key args s : format key args = Some s →
  key_generator_literal prefix key args = Some (create_stat_key prefix s) ∧
  key_generator_few prefix key args = Some (create_stat_key prefix s) ∧
  key_generator_many prefix key args = Some (create_stat_key prefix s).
Proof.
  intros Hs. unfold key_generator_literal, key_generator_few, key_generator_many, create_stat_key. rewrite Hs.
  destruct (is_empty_string prefix); [done|]. unfold format in *. simpl. rewrite Hs.
  rewrite list_lookup_middle by done. simpl. by rewrite (format_from_app _ _ _ _ _ Hs).
Qed.
End keys.

(** ** Dynamic stats *)

Section dynamic.
Context {Args Stat : Type} (key_generator : Args → string) (stat_generator : string → Stat).

(** [DynamicStat]: the stats made so far in their [RefCell]. *)
Record DynamicStat := { map : gmap string Stat; borrowed : bool }.

Definition new : DynamicStat := {| map := ∅; borrowed := false |}.

(** [get_or_default]; the callback changes the stat through a shared reference. *)
Definition get_or_default {A} (self : DynamicStat) (args : Args) (cb : Stat → A * Stat) : exec (A * DynamicStat) :=
  let key := key_generator args in
  if borrowed self then panic
  else
    match map self !! key with
    | Some stat => let '(v, stat) := cb stat in ret (v, {| map := <[key := stat]> (map self); borrowed := false |})
    | None =>
        let stat := stat_generator key in
        let '(v, stat) := cb stat in ret (v, {| map := <[key := stat]> (map self); borrowed := false |})
    end.

(** Changing a stat, as [increment_value], [add_value] and the like do. *)
Definition update (self : DynamicStat) (args : Args) (f : Stat → Stat) : exec DynamicStat :=
  let! '(_, self) := get_or_default self args (λ stat, ((), f stat)) in ret self.

(** [Histogram::add_repeated_value]. *)
Definition add_repeated_value (add_value : Stat → Stat) (nsamples : nat) : Stat → Stat := Nat.iter nsamples add_value.

Fixpoint updates (self : DynamicStat) (l : list (Args * (Stat → Stat))) : exec DynamicStat :=
  match l with
  | [] => ret self
  | (args, f) :: l => let! self := update self args f in updates self l
  end.

(** What was done to the stat with a key. *)
Definition changes (l : list (Args * (Stat → Stat))) (key : string) : list (Stat → Stat) :=
  (filter (λ u, key_generator u.1 = key) l).*2.

Lemma updates_spec self l : borrowed self = false →
  ∃ self', updates self l = ret self' ∧ borrowed self' = false ∧
    ∀ key, map self' !! key =
      match map self !! key with
      | Some stat => Some (foldl (λ s f, f s) stat (changes l key))
      | None => if bool_decide (changes l key = []) then None else Some (foldl (λ s f, f s) (stat_generator key) (changes l key))
      end.
Proof.
  revert self. induction l as [|[args f] l IH]; intros self Hb; simpl.
  - exists self. split_and!; [done..|]. intros key. simpl. by destruct (map self !! key).
  - set (k := key_generator args). set (old := default (stat_generator k) (map self !! k)).
    assert (update self args f = ret {| map := <[k := f old]> (map self); borrowed := false |}) as Hu.
    { unfold update, get_or_default, old. rewrite Hb. fold k. by destruct (map self !! k). }
    rewrite Hu. simpl. destruct (IH {| map := <[k := f old]> (map self); borrowed := false |}) as (self'&->&Hb'&Hm); [done|].
    exists self'. split_and!; [done..|]. intros key. rewrite Hm. simpl. unfold changes. rewrite filter_cons. simpl. fold k.
    destruct (decide (k = key)) as [<-|Hne]; [|by rewrite lookup_insert_ne].
    rewrite lookup_insert_eq. unfold old. destruct (map self !! k); simpl; done.
Qed.

Lemma changes_nil l key : changes l key = [] ↔ key ∉ (λ u, key_generator u.1) <$> l.
Proof.
  rewrite list_elem_of_fmap.
  unfold changes. split.
  - intros Hn%fmap_nil_inv (u&Hk&Hu). assert (u ∈ filter (λ u, key_generator u.1 = key) l) as Hf by by apply list_elem_of_filter.
    rewrite Hn in Hf. by apply elem_of_nil in Hf.
  - intros Hn. destruct (filter _ l) as [|u r] eqn:Hf; [done|]. destruct Hn. exists u.
    assert (u ∈ filter (λ u, key_generator u.1 = key) l) as Hu by (rewrite Hf; left).
    apply list_elem_of_filter in Hu. naive_solver.
Qed.
End dynamic.

(** A dynamic stat makes one stat for each key, the first time the key comes up, and applies
    to it, in order, all that is done with arguments that have the key, and nothing else: no
    borrow of its map fails, and keys that never came up have no stat. *)
Theorem dynamic_stats_kept {Args Stat} (key_generator : Args → string) (stat_generator : string → Stat) l :
  ∃ self, updates key_generator stat_generator new l = ret self ∧
    ∀ key, map self !! key =
      (if decide (key ∈ (λ u, key_generator u.1) <$> l)
       then Some (foldl (λ s f, f s) (stat_generator key) (changes key_generator l key)) else None).
Proof.
  destruct (updates_spec key_generator stat_generator new l eq_refl) as (self&Hu&_&Hm).
  exists self. split; [done|]. intros key. rewrite Hm. simpl. rewrite lookup_empty.
  pose proof (changes_nil key_generator stat_generator l key) as Hc.
  case_bool_decide; case_decide; tauto.
Qed.

(** ** Stats in fields of a struct *)

Section field.
Context {Stat : Type} (stat_generator : string → Stat).

(** [FieldStatThreadLocal::initialize] and [get_or_default] of one thread. *)
Definition initialize (m : gmap string Stat) (key : string) : gmap string Stat :=
  match m !! key with Some _ => m | None => <[key := stat_generator key]> m end.
Definition field_get_or_default {A} (m : gmap string Stat) (key : string) (cb : Stat → A * Stat) : A * gmap string Stat :=
  match m !! key with
  | Some stat => let '(v, stat) := cb stat in (v, <[key := stat]> m)
  | None => let '(v, stat) := cb (stat_generator key) in (v, <[key := stat]> m)
  end.

(** The thread-locals of all threads; a [FieldStat] is its key. *)
#[local] Abbreviation Threads := (gmap nat (gmap string Stat)).
Definition field_new (t : nat) (key : string) (s : Threads) : Threads :=
  <[t := initialize (default ∅ (s !! t)) key]> s.
Definition field_update (t : nat) (key : string) (f : Stat → Stat) (s : Threads) : Threads :=
  <[t := (field_get_or_default (default ∅ (s !! t)) key (λ stat : Stat, ((), f stat))).2]> s.

(** A field stat exists from the start, on the thread that made it, and every thread that uses
    it changes its own. *)
Lemma field_stat t t' key f s :
  (field_new t key s !! t ≫= (λ m, m !! key)) = Some (default (stat_generator key) (s !! t ≫= (λ m, m !! key))) ∧
  (field_update t key f s !! t ≫= (λ m, m !! key)) = Some (f (default (stat_generator key) (s !! t ≫= (λ m, m !! key)))) ∧
  (t' ≠ t → field_update t key f s !! t' = s !! t' ∧ field_new t key s !! t' = s !! t').
Proof.
  split_and!.
  - unfold field_new, initialize. rewrite lookup_insert_eq. simpl. set (m := default ∅ (s !! t)).
    replace (s !! t ≫= _) with (m !! key) by by (unfold m; destruct (s !! t)).
    destruct (m !! key) eqn:Hm; simpl; [done|by rewrite lookup_insert_eq].
  - unfold field_update, field_get_or_default. rewrite lookup_insert_eq. simpl. set (m := default ∅ (s !! t)).
    replace (s !! t ≫= _) with (m !! key) by by (unfold m; destruct (s !! t)).
    destruct (m !! key); simpl; by rewrite lookup_insert_eq.
  - intros Hne. unfold field_update, field_new. by rewrite !lookup_insert_ne.
Qed.
End field.
End StatTypes.

(** * What the macros define *)

Module StatMacros.
Import StatTypes.

(** [AggregationType], [BucketConfig]. *)
Inductive AggregationType := Sum | Count | Average | Rate | Percent.
Record BucketConfig := { width : Z; min : Z; max : Z }.

Section macros.
(** The percentiles of quantile stats are numbers of any type, cast with [as f32]. *)
Context {Percentile F32 : Type} (as_f32 : Percentile → F32).

(** The calls of a [StatsManager], and [create_singleton_counter]. *)
Inductive Create :=
| create_singleton_counter (name : string)
| create_counter (name : string)
| create_timeseries (name : string) (aggregation_types : list AggregationType) (intervals : list Z)
| create_histogram (name : string) (aggregation_types : list AggregationType) (conf : BucketConfig) (percentiles : list Z)
| create_quantile_stat (name : string) (aggregation_types : list AggregationType) (percentiles : list F32) (intervals : list Z).

(** Who is called: the manager of the thread, [TL_STATS], that of the module, [STATS_MANAGER], or
    nobody. *)
Inductive Owner := TlStats | StatsManager | NoManager.
Definition owner_of (c : Create) : Owner :=
  match c with
  | create_singleton_counter _ => NoManager
  | create_quantile_stat _ _ _ _ => StatsManager
  | _ => TlStats
  end.

(** The type and the parameters of a stat.  A key that is left out is the stat's name. *)
Inductive StatType :=
| singleton_counter (key : option string)
| counter (key : option string)
| timeseries (key : option string) (aggregation_types : list AggregationType) (intervals : list Z)
| histogram (key : option string) (bucket_width min max : Z) (aggregation_types : list AggregationType) (percentiles : list Z)
| quantile_stat (key : option string) (aggregation_types : list AggregationType) (percentiles : list Percentile) (intervals : list Z).

(** The same with a format for the key and the number of its arguments. *)
Inductive DynamicType :=
| dynamic_singleton_counter
| dynamic_counter
| dynamic_timeseries (aggregation_types : list AggregationType) (intervals : list Z)
| dynamic_histogram (bucket_width min max : Z) (aggregation_types : list AggregationType) (percentiles : list Z)
| dynamic_quantile_stat (aggregation_types : list AggregationType) (percentiles : list Percentile) (intervals : list Z).

(** [stringify!($name)] for a key that is left out. *)
Definition key_or (name : string) (key : option string) : string := default name key.

(** [__define_stat!] for a stat with a fixed key: the call that makes it, when it is first used
    on a thread. *)
Definition define_stat (prefix name : string) (t : StatType) : Create :=
  match t with
  | singleton_counter key => create_singleton_counter (create_stat_key prefix (key_or name key))
  | counter key => create_counter (create_stat_key prefix (key_or name key))
  | timeseries key aggs ints => create_timeseries (create_stat_key prefix (key_or name key)) aggs ints
  | histogram key w lo hi aggs ps =>
      create_histogram (create_stat_key prefix (key_or name key)) aggs {| width := w; min := lo; max := hi |} ps
  | quantile_stat key aggs ps ints =>
      create_quantile_stat (create_stat_key prefix (key_or name key)) aggs (as_f32 <$> ps) ints
  end.

(** [__stat_generator] of a dynamic stat. *)
Definition dynamic_generator (t : DynamicType) (key : string) : Create :=
  match t with
  | dynamic_singleton_counter => create_singleton_counter key
  | dynamic_counter => create_counter key
  | dynamic_timeseries aggs ints => create_timeseries key aggs ints
  | dynamic_histogram w lo hi aggs ps => create_histogram key aggs {| width := w; min := lo; max := hi |} ps
  | dynamic_quantile_stat aggs ps ints => create_quantile_stat key aggs (as_f32 <$> ps) ints
  end.

(** [__define_key_generator!]: its first arm that matches. *)
Inductive Prefix := PrefixLiteral (s : string) | PrefixExpr (s : string).
Definition prefix_value (p : Prefix) : string := match p with PrefixLiteral s | PrefixExpr s => s end.
Definition define_key_generator (p : Prefix) (key : list Piece) (args : list string) : option string :=
  match p with
  | PrefixLiteral s => key_generator_literal s key args
  | PrefixExpr s => if bool_decide (length args ≤ 3) then key_generator_few s key args else key_generator_many s key args
  end.

(** [__struct_thread_local_init!]: the generator of the field's stats on each thread, for the
    types that have one. *)
Definition struct_thread_local_init (t : StatType) : option (string → Create) :=
  match t with
  | singleton_counter _ => None
  | counter _ => Some create_counter
  | timeseries _ aggs ints => Some (λ key, create_timeseries key aggs ints)
  | histogram _ w lo hi aggs ps => Some (λ key, create_histogram key aggs {| width := w; min := lo; max := hi |} ps)
  | quantile_stat _ _ _ _ => None
  end.

(** [__struct_field_init!]: a field is a stat made at once, or a [FieldStat] with its key. *)
Inductive FieldInit := Made (c : Create) | FieldStatNew (key : string).
Definition struct_field_init (prefix name : string) (t : StatType) : FieldInit :=
  match t with
  | singleton_counter key => Made (create_singleton_counter (prefix +:+ "." +:+ key_or name key))
  | counter key | timeseries key _ _ | histogram key _ _ _ _ _ => FieldStatNew (prefix +:+ "." +:+ key_or name key)
  | quantile_stat key aggs ps ints =>
      Made (create_quantile_stat (create_stat_key prefix (key_or name key)) aggs (as_f32 <$> ps) ints)
  end.

(** The call that makes the stat of a field; [None] would not compile. *)
Definition struct_stat (prefix name : string) (t : StatType) : option Create :=
  match struct_field_init prefix name t with
  | Made c => Some c
  | FieldStatNew key => generator ← struct_thread_local_init t; Some (generator key)
  end.

(** [define_stats_struct!]: the stats of [new(args)], one a field. *)
Definition define_stats_struct (key : list Piece) (fields : list (string * StatType)) (args : list string) : option (list Create) :=
  prefix ← format key args; mapM (λ '(name, t), struct_stat prefix name t) fields.

(** A field makes the stat that the static with the same parameters makes, under its prefix. *)
Lemma struct_stat_like_static prefix name t :
  is_empty_string prefix = false → struct_stat prefix name t = Some (define_stat prefix name t).
Proof. intros Hp. unfold struct_stat. destruct t; simpl; unfold create_stat_key; by rewrite Hp. Qed.

(** With an empty prefix the keys of fields, but for quantile stats, begin with a dot. *)
Lemma struct_stat_empty_prefix name t :
  struct_stat EmptyString name t =
  Some (match t with
        | quantile_stat _ _ _ _ => define_stat EmptyString name t
        | _ => define_stat EmptyString ("." +:+ name) (match t with
            | singleton_counter key => singleton_counter (String.append "." <$> key)
            | counter key => counter (String.append "." <$> key)
            | timeseries key aggs ints => timeseries (String.append "." <$> key) aggs ints
            | histogram key w lo hi aggs ps => histogram (String.append "." <$> key) w lo hi aggs ps
            | t => t end)
        end).
Proof. by destruct t as [[]|[]|[] ? ?|[] ? ? ? ? ?|]. Qed.

Lemma struct_stats_like_static key fields args prefix :
  format key args = Some prefix → is_empty_string prefix = false →
  define_stats_struct key fields args = Some ((λ '(name, t), define_stat prefix name t) <$> fields).
Proof.
  intros Hf Hp. unfold define_stats_struct. rewrite Hf. simpl. apply mapM_Some, Forall2_fmap_r, Forall_Forall2_diag, Forall_true.
  intros [name t]. by apply struct_stat_like_static.
Qed.

(** A dynamic stat makes, for the arguments of its key, the stat that a static with the formatted
    key makes, whichever arm made its key generator. *)
Definition static_of (t : DynamicType) (key : string) : StatType :=
  match t with
  | dynamic_singleton_counter => singleton_counter (Some key)
  | dynamic_counter => counter (Some key)
  | dynamic_timeseries aggs ints => timeseries (Some key) aggs ints
  | dynamic_histogram w lo hi aggs ps => histogram (Some key) w lo hi aggs ps
  | dynamic_quantile_stat aggs ps ints => quantile_stat (Some key) aggs ps ints
  end.

Lemma dynamic_like_static p name t key args s : format key args = Some s →
  dynamic_generator t <$> define_key_generator p key args = Some (define_stat (prefix_value p) name (static_of t s)).
Proof.
  intros Hs. assert (define_key_generator p key args = Some (create_stat_key (prefix_value p) s)) as ->.
  { unfold define_key_generator. destruct p as [prefix|prefix], (key_generators_agree prefix key args s Hs) as (?&?&?);
      [done|by case_bool_decide]. }
  simpl. by destruct t.
Qed.
End macros.
End StatMacros.
