(* ===== verification/FuturesStats.v ===== *)
(** The futures and streams of [futures_stats] (src/shed/futures_stats/src/futures03.rs and
    lib.rs) that measure the time their polls take: [TimedFuture], [TimedTryFuture], [TimedStream]
    and [TimedTryStream].

    Every reading of the clock is a step of the world, because the code reads it twice for the two
    times of a poll.  Next to what the code measures, the theorems have a stopwatch of their own:
    the time that really passes while the inner future is polled. *)
From S2P Require Import Prelude RustStd Duration Streams StreamWrappers.

Module FuturesStats.
#[local] Open Scope Z_scope.

(** [Instant::now]: the clock does not go backwards, and its instants are less than the largest
    [Duration] apart. *)
Class Clock (W : Type) := {
  now : W → Instant * W;
  moment : W → Instant;
  now_reads w : moment w ≤ (now w).1 ≤ moment (now w).2;
  moment_range w : 0 ≤ moment w ≤ duration_max;
}.

(** * Measuring a poll *)

Section measure.
Context `{Clock W, BuildMode}.
Implicit Types w : W.

(** [Instant::elapsed]. *)
Definition elapsed (since : Instant) w : Duration * W := let '(t, w) := now w in (duration_since t since, w).

(** The fields that [TimedFuture] and [TimedStream] have in common. *)
Record Timing := { start : option Instant; poll_count : Z; poll_time : Duration; max_poll_time : Duration }.
Definition new_timing : Timing := {| start := None; poll_count := 0; poll_time := from_secs 0; max_poll_time := from_secs 0 |}.

(** [self.start.get_or_insert_with(Instant::now)]. *)
Definition get_start (t : Timing) w : Instant * W := match start t with Some s => (s, w) | None => now w end.

(** What both do before and after they poll. *)
Definition measure {A} (poll : W → A * W) (t : Timing) w : exec (A * Timing * W) :=
  let '(s, w) := get_start t w in
  let! poll_count := usize_add (poll_count t) 1 in
  let '(poll_start, w) := now w in
  let '(a, w) := poll w in
  let '(e, w) := elapsed poll_start w in
  let! poll_time := duration_add (poll_time t) e in
  let '(e, w) := elapsed poll_start w in
  ret (a, {| start := Some s; poll_count := poll_count; poll_time := poll_time; max_poll_time := e `max` max_poll_time t |}, w).

(** The world in which the inner future is polled, and the time that takes. *)
Definition polled_in (t : Timing) w : W := (now (get_start t w).2).2.
Definition span {A} (poll : W → A * W) (t : Timing) w : Duration := moment (poll (polled_in t w)).2 - moment (polled_in t w).

(** After [n] polls that took [busy] in all and [longest] at most, at the moment [m]. *)
Definition fits (t : Timing) (n : Z) (busy longest : Duration) (m : Instant) : Prop :=
  poll_count t = n ∧ 0 ≤ busy ≤ poll_time t ∧ 0 ≤ longest ≤ max_poll_time t ∧ 0 ≤ n ∧
  poll_time t ≤ n * max_poll_time t ∧
  match start t with
  | None => n = 0 ∧ poll_time t = 0 ∧ max_poll_time t = 0
  | Some s => 0 ≤ s ∧ poll_time t ≤ m - s ∧ max_poll_time t ≤ m - s
  end.

Lemma fits_new m : fits new_timing 0 0 0 m.
Proof. unfold fits, new_timing, from_secs; simpl. lia. Qed.

Lemma fits_later t n b l m m' : fits t n b l m → m ≤ m' → fits t n b l m'.
Proof. unfold fits. destruct (start t); intuition lia. Qed.

Lemma elapsed_spec since w : since ≤ moment w →
  moment w - since ≤ (elapsed since w).1 ≤ moment (elapsed since w).2 - since ∧ moment w ≤ moment (elapsed since w).2.
Proof. intros Hs. unfold elapsed, duration_since. pose proof (now_reads w). destruct (now w) as [t w']. simpl in *. lia. Qed.

Lemma get_start_spec t n b l m w : fits t n b l m → m ≤ moment w →
  moment w ≤ moment (get_start t w).2 ∧ 0 ≤ (get_start t w).1 ≤ moment (get_start t w).2 ∧
  poll_time t ≤ moment (get_start t w).2 - (get_start t w).1 ∧ max_poll_time t ≤ moment (get_start t w).2 - (get_start t w).1.
Proof.
  intros (Hn&Hb&Hl&Hn0&Hm&Hs) Hw. unfold get_start. pose proof (moment_range w). destruct (start t) as [s|]; simpl; [lia|].
  pose proof (now_reads w). lia.
Qed.

(** A poll is measured without a panic, and not too short. *)
Lemma measure_fits {A} (poll : W → A * W) t n b l m w :
  fits t n b l m → m ≤ moment w → n < usize_max → (∀ w, moment w ≤ moment (poll w).2) →
  ∃ t' w', measure poll t w = ret ((poll (polled_in t w)).1, t', w') ∧ moment w ≤ moment w' ∧
    fits t' (n + 1) (b + span poll t w) (l `max` span poll t w) (moment w') ∧ is_Some (start t').
Proof.
  intros Hf Hw Hn Hp. unfold span, measure, polled_in. pose proof (get_start_spec _ _ _ _ _ _ Hf Hw) as Hst.
  destruct (get_start t w) as [s w1]. simpl in *. destruct Hf as (Hc&Hb&Hl&Hn0&Hm&_).
  unfold usize_add. rewrite usize_wrap_exact by lia. simpl. pose proof (now_reads w1) as Hr.
  destruct (now w1) as [ps w2]. simpl in *. pose proof (Hp w2) as Hp2. destruct (poll w2) as [a w3]. simpl in *.
  destruct (elapsed_spec ps w3) as [He1 Hm1]; [lia|]. destruct (elapsed ps w3) as [e1 w4]. simpl in *.
  destruct (elapsed_spec ps w4) as [He2 Hm2]; [lia|]. pose proof (moment_range w4).
  unfold duration_add. rewrite duration_op_ok by (unfold valid; lia). cbn [exec_bind]. destruct (elapsed ps w4) as [e2 w5]. simpl in *.
  eexists _, w5. split; [reflexivity|]. split; [lia|]. split; [|by eexists].
  unfold fits; simpl. rewrite Hc. split_and!; try lia. nia.
Qed.
End measure.

(** * [TimedFuture] and [TimedTryFuture] *)

(** [FutureStats]. *)
Record FutureStats := { completion_time : Duration; stats_poll_time : Duration; stats_max_poll_time : Duration; stats_poll_count : Z }.

Section future.
Context {F O W : Type} {FF : Future F O W} `{!Clock W, !BuildMode}.
Implicit Types w : W.

Record TimedFuture := { inner : F; timing : Timing }.
Definition new (future : F) : TimedFuture := {| inner := future; timing := new_timing |}.

Definition future_stats (completion : Duration) (t : Timing) : FutureStats :=
  {| completion_time := completion; stats_poll_time := poll_time t; stats_max_poll_time := max_poll_time t; stats_poll_count := poll_count t |}.

(** The poll of the inner future, which becomes another. *)
Definition poll_inner (f : F) w : (Poll O * F) * W := let '(p, f, w) := fpoll f w in ((p, f), w).

Definition poll (s : TimedFuture) w : exec (Poll (FutureStats * O) * TimedFuture * W) :=
  let! '((p, f), t, w) := measure (poll_inner (inner s)) (timing s) w in
  match p with
  | Pending => ret (Pending, {| inner := f; timing := t |}, w)
  | Ready v =>
      let! s := expect (start t) in
      let '(completion, w) := elapsed s w in
      ret (Ready (future_stats completion t, v), {| inner := f; timing := t |}, w)
  end.

Definition cancel_data (s : TimedFuture) w : FutureStats * W :=
  let '(completion, w) := match start (timing s) with Some st => elapsed st w | None => (from_secs 0, w) end in
  (future_stats completion (timing s), w).

(** What happened so far to a future that is pending.  Time passes between its polls. *)
Inductive pending (future : F) : nat → Duration → Duration → TimedFuture → W → Prop :=
| pending_new w : pending future 0 0 0 (new future) w
| pending_poll n b l s w w1 s' w' :
    pending future n b l s w → moment w ≤ moment w1 → poll s w1 = ret (Pending, s', w') →
    pending future (S n) (b + span (poll_inner (inner s)) (timing s) w1) (l `max` span (poll_inner (inner s)) (timing s) w1) s' w'.

(** Stats of [n] polls that took [busy] in all and [longest] at most. *)
Definition accurate (stats : FutureStats) (n : nat) (busy longest : Duration) : Prop :=
  stats_poll_count stats = Z.of_nat n ∧ busy ≤ stats_poll_time stats ≤ completion_time stats ∧
  longest ≤ stats_max_poll_time stats ≤ completion_time stats ∧ stats_poll_time stats ≤ Z.of_nat n * stats_max_poll_time stats.

Context (inner_takes : ∀ (f : F) w, moment w ≤ moment (fpoll f w).2).

Lemma poll_inner_takes f w : moment w ≤ moment (poll_inner f w).2.
Proof. unfold poll_inner. pose proof (inner_takes f w). by destruct (fpoll f w) as [[p f'] w']. Qed.

Lemma fits_accurate t n b l m c : fits t (Z.of_nat n) b l m → poll_time t ≤ c → max_poll_time t ≤ c → accurate (future_stats c t) n b l.
Proof. unfold fits, accurate; simpl. intuition lia. Qed.

Lemma pending_fits future n b l s w : Z.of_nat n ≤ usize_max → pending future n b l s w →
  fits (timing s) (Z.of_nat n) b l (moment w) ∧ evolves future (inner s).
Proof.
  intros Hn Hp. induction Hp as [w|n b l s w w1 s' w' Hp IH Hw Hs]; [split; [apply fits_new|apply rtc_refl]|].
  destruct IH as [Hf He]; [lia|]. unfold poll in Hs.
  destruct (measure_fits (poll_inner (inner s)) _ _ _ _ _ w1 Hf Hw) as (t'&w2&Hm&_&Hf'&[st Hst]); [lia|apply poll_inner_takes|].
  rewrite Hm in Hs. simpl in Hs. unfold poll_inner at 1 in Hs. destruct (fpoll (inner s) _) as [[p f] w3] eqn:Hi. simpl in Hs.
  destruct p as [v|].
  - rewrite Hst in Hs. simpl in Hs. by destruct (elapsed st w2).
  - injection Hs as <- <-. simpl. split; [by rewrite Nat2Z.inj_succ; unfold Z.succ|]. etransitivity; [done|]. by eapply evolves_step.
Qed.

(** A poll that the future is ready at, or not. *)
Lemma poll_measured future n b l s w w1 : pending future n b l s w → moment w ≤ moment w1 → Z.of_nat n < usize_max →
  let busy := b + span (poll_inner (inner s)) (timing s) w1 in
  let longest := l `max` span (poll_inner (inner s)) (timing s) w1 in
  ∃ s' w', match fpoll (inner s) (polled_in (timing s) w1) with
           | (Pending, f, _) => poll s w1 = ret (Pending, s', w') ∧ inner s' = f
           | (Ready v, f, _) => ∃ stats, poll s w1 = ret (Ready (stats, v), s', w') ∧ accurate stats (S n) busy longest
           end.
Proof.
  intros Hp Hw Hn busy longest. destruct (pending_fits _ _ _ _ _ _ (Z.lt_le_incl _ _ Hn) Hp) as [Hf _]. unfold poll.
  destruct (measure_fits (poll_inner (inner s)) _ _ _ _ _ w1 Hf Hw Hn) as (t'&w2&Hm&_&Hf'&[st Hst]); [apply poll_inner_takes|].
  rewrite Hm. simpl. unfold poll_inner at 1 2. destruct (fpoll (inner s) _) as [[p f] w3]. simpl. destruct p as [v|].
  - rewrite Hst. simpl. assert (Hf'' := Hf'). unfold fits in Hf''. rewrite Hst in Hf''. pose proof (elapsed_spec st w2) as He.
    destruct (elapsed st w2) as [c w4]. simpl in He. eexists _, _, _. split; [reflexivity|].
    apply (fits_accurate _ _ _ _ (moment w2)); [by rewrite Nat2Z.inj_succ; unfold Z.succ|..];
      (pose proof (moment_range w2); destruct Hf'' as (_&?&?&_&_&?&?&?); lia).
  - eexists _, _. split; reflexivity.
Qed.

(** A timed future is ready just when its future is, with its output; it never panics, and the
    stats, also those of a future that is cancelled, are right: the number of polls, a poll time
    no shorter than the polls took in all, a maximal poll time no shorter than any of them took,
    neither longer than the time since the first poll, and on average no poll over the maximum. *)
Theorem timed_future_measures future n b l s w w1 :
  pending future n b l s w → moment w ≤ moment w1 → Z.of_nat n < usize_max →
  let busy := b + span (poll_inner (inner s)) (timing s) w1 in
  let longest := l `max` span (poll_inner (inner s)) (timing s) w1 in
  evolves future (inner s) ∧
  (∃ s' w', match fpoll (inner s) (polled_in (timing s) w1) with
            | (Pending, f, _) => poll s w1 = ret (Pending, s', w') ∧ inner s' = f
            | (Ready v, f, _) => ∃ stats, poll s w1 = ret (Ready (stats, v), s', w') ∧ accurate stats (S n) busy longest
            end) ∧
  accurate (cancel_data s w1).1 n b l.
Proof.
  intros Hp Hw Hn busy longest. destruct (pending_fits _ _ _ _ _ _ (Z.lt_le_incl _ _ Hn) Hp) as [Hf He].
  split; [done|]. split; [by eapply poll_measured|]. unfold cancel_data.
  assert (Hf' := Hf). unfold fits in Hf'. destruct (start (timing s)) as [st|].
  - pose proof (elapsed_spec st w1) as Hel. destruct (elapsed st w1) as [c w2]. simpl in *.
    apply (fits_accurate _ _ _ _ _ _ Hf); destruct Hf' as (_&?&?&_&_&?&?&?); lia.
  - apply (fits_accurate _ _ _ _ _ _ Hf); unfold from_secs; lia.
Qed.
End future.

(** [TimedTryFuture] drops the stats of a future that fails. *)
Section try_future.
Context {F I E W : Type} {FF : Future F (result I E) W} `{!Clock W, !BuildMode}.

Definition try_poll (s : TimedFuture (F:=F)) (w : W) : exec (Poll (result (FutureStats * I) E) * TimedFuture (F:=F) * W) :=
  let! '(p, s, w) := poll s w in
  ret (match p with
       | Pending => Pending
       | Ready (stats, Ok v) => Ready (Ok (stats, v))
       | Ready (_, Err e) => Ready (Err e)
       end, s, w).
End try_future.

(** * [TimedStream] *)

(** [StreamStats]. *)
Record StreamStats := {
  stream_completion_time : option Duration; stream_first_item_time : option Duration; stream_timing : Timing;
  stream_count : Z; stream_completed : bool;
}.

(** Time passes, and other tasks run, between the polls of a stream: [calls] records what its
    callback was called with. *)
Section runs.
Context {W R : Type} `{!Clock W} (calls : W → list R).
Definition later (w w1 : W) : Prop := moment w ≤ moment w1 ∧ calls w1 = calls w.

(** The items that [n] polls handed out, and whether one of them ended the stream. *)
Inductive runs {St A} (poll : St → W → exec (Poll (option A) * St * W)) (s0 : St) (w0 : W) :
  nat → list A → bool → St → W → Prop :=
| runs_start : runs poll s0 w0 0 [] false s0 w0
| runs_poll n l e s w w1 p s' w' :
    runs poll s0 w0 n l e s w → later w w1 → poll s w1 = ret (p, s', w') →
    runs poll s0 w0 (S n) (match p with Ready (Some a) => l ++ [a] | _ => l end)
      (match p with Ready None => true | _ => e end) s' w'.
End runs.

Section stream.
Context {St Item W : Type} {SS : Stream St Item W} `{!Clock W, !BuildMode}.
Implicit Types w : W.

Record TimedStream := {
  source : St; callback : option (StreamStats → W → W); s_timing : Timing;
  count : Z; first_item_time : option Duration; completed : bool;
}.
Implicit Types s : TimedStream.

Definition new_stream (stream : St) (callback : option (StreamStats → W → W)) : TimedStream :=
  {| source := stream; callback := callback; s_timing := new_timing; count := 0; first_item_time := None; completed := false |}.

Definition gen_stats s w : StreamStats * W :=
  let '(completion, w) :=
    match start (s_timing s) with Some st => let '(e, w) := elapsed st w in (Some e, w) | None => (None, w) end in
  ({| stream_completion_time := completion; stream_first_item_time := first_item_time s; stream_timing := s_timing s;
      stream_count := count s; stream_completed := completed s |}, w).

Definition set_callback s (c : option (StreamStats → W → W)) : TimedStream :=
  {| source := source s; callback := c; s_timing := s_timing s; count := count s; first_item_time := first_item_time s; completed := completed s |}.

Definition run_callback s w : TimedStream * W :=
  match callback s with
  | None => (s, w)
  | Some c => let s := set_callback s None in let '(stats, w) := gen_stats s w in (s, c stats w)
  end.

Definition poll_source (st : St) w : (Poll (option Item) * St) * W := let '(p, st, w) := stream_poll st w in ((p, st), w).

Definition poll_next s w : exec (Poll (option Item) * TimedStream * W) :=
  if completed s then ret (Ready None, s, w)
  else
    let! '((p, st), t, w) := measure (poll_source (source s)) (s_timing s) w in
    let polled n first done_ :=
      {| source := st; callback := callback s; s_timing := t; count := n; first_item_time := first; completed := done_ |} in
    match p with
    | Pending => ret (Pending, polled (count s) (first_item_time s) false, w)
    | Ready (Some item) =>
        let! n := usize_add (count s) 1 in
        if n =? 1 then
          let! begin := expect (start t) in
          let '(e, w) := elapsed begin w in ret (Ready (Some item), polled n (Some e) false, w)
        else ret (Ready (Some item), polled n (first_item_time s) false, w)
    | Ready None => let '(s, w) := run_callback (polled (count s) (first_item_time s) true) w in ret (Ready None, s, w)
    end.

(** [Drop]. *)
Definition drop_stream s w : W := (run_callback s w).2.

(** What holds of the fields after [n] polls of the inner stream that handed out [l], at the
    moment [m]. *)
Record tracks (st0 : St) (n : Z) (l : list Item) (e : bool) s (m : Instant) : Prop := {
  tr_items : yields st0 l (source s);
  tr_completed : completed s = e;
  tr_count : count s = Z.of_nat (length l);
  tr_polls : Z.of_nat (length l) ≤ n;
  tr_first : match first_item_time s with
             | None => l = []
             | Some d => l ≠ [] ∧ ∃ st, start (s_timing s) = Some st ∧ 0 ≤ d ≤ m - st
             end;
  tr_timing : ∃ b longest, fits (s_timing s) n b longest m;
}.

Lemma tracks_new st0 c m : tracks st0 0 [] false (new_stream st0 c) m.
Proof. split; simpl; [constructor|done..|]. exists 0, 0. apply fits_new. Qed.

Lemma tracks_later st0 n l e s m m' : tracks st0 n l e s m → m ≤ m' → tracks st0 n l e s m'.
Proof.
  intros [Hy Hc Hn Hp Hf (b&g&Ht)] Hm. split; try done; [|exists b, g; by eapply fits_later].
  destruct (first_item_time s); [|done]. destruct Hf as [? (st&?&?)]. split; [done|]. exists st. split; [done|lia].
Qed.

Lemma tracks_set_callback st0 n l e s m c : tracks st0 n l e s m → tracks st0 n l e (set_callback s c) m.
Proof. intros [????? ?]. by split. Qed.

(** The stats of a stream that handed out [l] in [n] polls. *)
Definition reports (stats : StreamStats) (n : Z) (l : list Item) (e : bool) : Prop :=
  stream_count stats = Z.of_nat (length l) ∧ stream_completed stats = e ∧ poll_count (stream_timing stats) = n ∧
  poll_time (stream_timing stats) ≤ n * max_poll_time (stream_timing stats) ∧
  (stream_completion_time stats = None ↔ n = 0) ∧ (stream_first_item_time stats = None ↔ l = []) ∧
  (∀ c, stream_completion_time stats = Some c →
    poll_time (stream_timing stats) ≤ c ∧ max_poll_time (stream_timing stats) ≤ c ∧
    ∀ d, stream_first_item_time stats = Some d → d ≤ c).

Definition started s (n : Z) : Prop := start (s_timing s) = None ↔ n = 0.

Lemma gen_stats_reports st0 n l e s w : tracks st0 n l e s (moment w) → started s n → reports (gen_stats s w).1 n l e.
Proof.
  intros [Hy Hc Hn Hp Hf (b&g&Ht)] Hs. unfold reports, gen_stats, started, fits in *. destruct (start (s_timing s)) as [st|] eqn:Hst.
  - destruct Ht as (?&?&?&?&?&?&?&?). pose proof (elapsed_spec st w) as He. destruct (elapsed st w) as [c w']. simpl in *.
    do 3 (split; [done|]). split; [lia|]. split; [naive_solver|]. split; [destruct (first_item_time s); naive_solver|].
    intros ? [= <-]. split_and!; [lia..|]. intros d Hd. rewrite Hd in Hf. destruct Hf as [_ (?&[= <-]&?)]. lia.
  - destruct Ht as (?&?&?&?&?&?&?&?). simpl in *. do 3 (split; [done|]). split; [lia|]. split; [tauto|].
    split; [destruct (first_item_time s); naive_solver|done].
Qed.

Section calls.
Context {R : Type} (calls : W → list R).
Context (source_takes : ∀ (st : St) w, moment w ≤ moment (stream_poll st w).2).
Context (calls_now : ∀ w, calls (now w).2 = calls w) (calls_source : ∀ (st : St) w, calls (stream_poll st w).2 = calls w).

Lemma calls_elapsed t w : calls (elapsed t w).2 = calls w.
Proof. unfold elapsed. pose proof (calls_now w). by destruct (now w). Qed.

Lemma calls_gen_stats s w : calls (gen_stats s w).2 = calls w ∧ moment w ≤ moment (gen_stats s w).2.
Proof.
  unfold gen_stats. destruct (start (s_timing s)) as [st|]; [|done]. pose proof (calls_elapsed st w) as Hc.
  unfold elapsed in *. pose proof (now_reads w). destruct (now w). simpl in *. split; [done|lia].
Qed.

Lemma poll_source_takes st w : moment w ≤ moment (poll_source st w).2 ∧ calls (poll_source st w).2 = calls w.
Proof. unfold poll_source. pose proof (source_takes st w). pose proof (calls_source st w). by destruct (stream_poll st w) as [[? ?] ?]. Qed.

Lemma calls_measure {A} (poll : W → A * W) t w a t' w' :
  (∀ w, calls (poll w).2 = calls w) → measure poll t w = ret (a, t', w') → calls w' = calls w.
Proof.
  intros Hp. unfold measure. assert (calls (get_start t w).2 = calls w) as Hg by (unfold get_start; by destruct (start t)).
  destruct (get_start t w) as [s w1]. simpl in Hg. destruct (usize_add _ _) as [n|]; [|done]. simpl.
  pose proof (calls_now w1) as H1. destruct (now w1) as [ps w2]. pose proof (Hp w2) as H2. destruct (poll w2) as [b w3].
  pose proof (calls_elapsed ps w3) as H3. destruct (elapsed ps w3) as [e1 w4]. destruct (duration_add _ _) as [d|]; [|done]. simpl.
  pose proof (calls_elapsed ps w4) as H4. destruct (elapsed ps w4) as [e2 w5]. simpl in *. intros [= <- <- <-]. congruence.
Qed.

(** A poll of a stream that has not ended. *)
Lemma poll_tracks st0 n l s m w :
  tracks st0 n l false s m → m ≤ moment w → n < usize_max →
  ∃ p s' w', poll_next s w = ret (p, s', w') ∧
    match p with
    | Ready None => ∃ s1 w1, run_callback s1 w1 = (s', w') ∧ tracks st0 (n + 1) l true s1 (moment w1) ∧ started s1 (n + 1) ∧
        callback s1 = callback s ∧ calls w1 = calls w
    | _ => tracks st0 (n + 1) (match p with Ready (Some a) => l ++ [a] | _ => l end) false s' (moment w') ∧ started s' (n + 1) ∧
        callback s' = callback s ∧ calls w' = calls w
    end.
Proof.
  intros [Hy Hc Hn Hp Hf (b&g&Ht)] Hw Hlt. unfold poll_next. rewrite Hc.
  destruct (measure_fits (poll_source (source s)) _ _ _ _ _ w Ht Hw Hlt) as (t'&w1&Hm&Hw1&Ht'&[st Hst]);
    [intros; apply poll_source_takes|].
  pose proof (calls_measure _ _ _ _ _ _ (λ w, proj2 (poll_source_takes (source s) w)) Hm) as Hcalls.
  rewrite Hm. simpl. assert (0 ≤ n) as Hn0 by (unfold fits in Ht; tauto).
  assert (start t' = None ↔ n + 1 = 0) as Hstd by (rewrite Hst; split; [done|lia]).
  assert (match first_item_time s with None => l = [] | Some d => l ≠ [] ∧ ∃ z, start t' = Some z ∧ 0 ≤ d ≤ moment w1 - z end) as Hf'.
  { destruct (first_item_time s) as [d|]; [|done]. destruct Hf as [? (z&Hz&?)]. split; [done|]. exists z.
    assert (start t' = Some z) as ->; [|split; [done|lia]]. revert Hm. unfold measure, get_start. rewrite Hz.
    destruct (usize_add _ _); [|done]; simpl. destruct (now w) as [ps w2]. destruct (poll_source _ w2) as [c w3].
    destruct (elapsed ps w3) as [e1 w4]. destruct (duration_add _ _); [|done]; simpl. destruct (elapsed ps w4). by intros [= _ <- _]. }
  unfold poll_source at 1. destruct (stream_poll (source s) _) as [[p src] w2] eqn:Hs.
  pose proof (yields_poll _ _ _ _ _ _ _ Hy Hs) as Hy'. simpl. destruct p as [[x|]|].
  - unfold usize_add. rewrite Hn, usize_wrap_exact by lia. simpl. destruct (Z.eqb_spec (Z.of_nat (length l) + 1) 1) as [Hl|Hl].
    + rewrite Hst. simpl. pose proof (elapsed_spec st w1) as He. pose proof (calls_elapsed st w1) as Hce.
      assert (st ≤ moment w1) by (unfold fits in Ht'; rewrite Hst in Ht'; lia).
      destruct (elapsed st w1) as [e w3]. simpl in *. eexists _, _, _. split; [reflexivity|]. simpl.
      split; [|split; [exact Hstd|split; [done|congruence]]].
      split; simpl; [done|done|rewrite length_app; simpl; lia..| |].
      * split; [by destruct l|]. exists st. split; [done|lia].
      * eexists _, _. eapply fits_later; [exact Ht'|lia].
    + eexists _, _, _. split; [reflexivity|]. simpl. split; [|split; [exact Hstd|done]].
      split; simpl; [done|done|rewrite length_app; simpl; lia..| |by eexists _, _].
      destruct (first_item_time s); [|by subst l]. destruct Hf' as [? ?]. split; [by destruct l|done].
  - destruct (run_callback _ w1) as [s' w'] eqn:Hr. eexists _, _, _. split; [reflexivity|]. simpl. eexists _, w1. split; [exact Hr|].
    split; [split; simpl; [done|done|done|lia|done|by eexists _, _]|]. split; [exact Hstd|done].
  - eexists _, _, _. split; [reflexivity|]. simpl. split; [|split; [exact Hstd|done]].
    split; simpl; [done|done|done|lia|done|by eexists _, _].
Qed.

(** ** The callback *)

Context (cb : StreamStats → W → W) (record : StreamStats → R).
Context (cb_takes : ∀ stats w, moment w ≤ moment (cb stats w)).
Context (calls_cb : ∀ stats w, calls (cb stats w) = calls w ++ [record stats]).

(** The callback has been called just when the stream has ended, with the stats of that time. *)
Definition reported (st0 : St) w0 (n : nat) (l : list Item) (e : bool) s w : Prop :=
  ∃ k, k ≤ Z.of_nat n ∧ tracks st0 k l e s (moment w) ∧ started s k ∧
    if e then callback s = None ∧ ∃ stats, calls w = calls w0 ++ [record stats] ∧ reports stats k l true
    else k = Z.of_nat n ∧ callback s = Some cb ∧ calls w = calls w0.

Lemma drop_calls st0 k l e s w : tracks st0 k l e s (moment w) → started s k → callback s = Some cb →
  ∃ stats, calls (run_callback s w).2 = calls w ++ [record stats] ∧ reports stats k l e ∧
    moment w ≤ moment (run_callback s w).2 ∧ (run_callback s w).1 = set_callback s None.
Proof.
  intros Ht Hst Hcb. unfold run_callback. rewrite Hcb.
  pose proof (gen_stats_reports _ _ _ _ _ w (tracks_set_callback _ _ _ _ _ _ None Ht) Hst) as Hr.
  destruct (calls_gen_stats (set_callback s None) w) as [Hc Hm].
  destruct (gen_stats (set_callback s None) w) as [stats w1]. simpl in *. exists stats. rewrite calls_cb, Hc.
  split; [done|]. split; [done|]. split; [|done]. pose proof (cb_takes stats w1). lia.
Qed.

Lemma poll_ended s w : completed s = true → poll_next s w = ret (Ready None, s, w).
Proof. intros Hc. unfold poll_next. by rewrite Hc. Qed.

Lemma reported_poll st0 w0 n l e s w w1 : reported st0 w0 n l e s w → later calls w w1 → Z.of_nat n < usize_max →
  ∃ p s' w', poll_next s w1 = ret (p, s', w') ∧ (e = true → p = Ready None ∧ s' = s ∧ w' = w1) ∧
    reported st0 w0 (S n) (match p with Ready (Some a) => l ++ [a] | _ => l end) (match p with Ready None => true | _ => e end) s' w'.
Proof.
  intros (k&Hk&Ht&Hst&He) [Hw Hc] Hn. destruct e.
  - eexists _, _, _. split; [by apply poll_ended, (tr_completed _ _ _ _ _ _ Ht)|]. split; [done|].
    exists k. split; [lia|]. split; [by eapply tracks_later|]. split; [done|]. by rewrite Hc.
  - destruct He as (->&Hcb&Hcalls). destruct (poll_tracks st0 _ l s _ w1 Ht Hw Hn) as (p&s'&w'&Hp&Hs').
    eexists _, _, _. split; [exact Hp|]. split; [done|]. exists (Z.of_nat n + 1). split; [lia|].
    destruct p as [[x|]|].
    + destruct Hs' as (?&?&?&?). split; [done|]. split; [done|]. split; [lia|]. split; congruence.
    + destruct Hs' as (s1&w2&Hr&Ht'&Hst'&Hcb'&Hc'). destruct (drop_calls _ _ _ _ _ _ Ht' Hst') as (stats&Hd&Hrep&Hm&Hset); [congruence|].
      rewrite Hr in Hd, Hm, Hset. simpl in *. subst s'. split; [eapply tracks_later; [by apply tracks_set_callback|done]|].
      split; [done|]. split; [done|]. exists stats. split; [|done]. congruence.
    + destruct Hs' as (?&?&?&?). split; [done|]. split; [done|]. split; [lia|]. split; congruence.
Qed.

Lemma runs_reported st0 w0 n l e s w : Z.of_nat n ≤ usize_max →
  runs calls poll_next (new_stream st0 (Some cb)) w0 n l e s w → reported st0 w0 n l e s w.
Proof.
  intros Hn Hr. induction Hr as [|n l e s w w1 p s' w' Hr IH Hw Hp].
  { exists 0. split; [lia|]. split; [apply tracks_new|]. done. }
  destruct (reported_poll _ _ _ _ _ _ _ w1 (IH ltac:(lia)) Hw) as (p2&s2&w2&Hp2&_&Hrep); [lia|].
  rewrite Hp in Hp2. by injection Hp2 as <- <- <-.
Qed.

(** A timed stream hands out the items of its stream, never panics, and ends when its stream
    does, which it does not poll again.  Its callback is called once, when the stream ends or else
    when it is dropped, with the number of items, whether the stream ended, the number of its polls
    unless it was polled after its end, and times that fit together. *)
Theorem timed_stream_reports st0 w0 n l e s w w1 :
  runs calls poll_next (new_stream st0 (Some cb)) w0 n l e s w → later calls w w1 → Z.of_nat n < usize_max →
  yields st0 l (source s) ∧ returns (poll_next s w1) ∧ (e = true → poll_next s w1 = ret (Ready None, s, w1)) ∧
  (e = false → calls w = calls w0) ∧
  ∃ stats k, calls (drop_stream s w1) = calls w0 ++ [record stats] ∧ (e = true → calls w = calls w0 ++ [record stats]) ∧
    reports stats k l e ∧ k ≤ Z.of_nat n ∧ (e = false → k = Z.of_nat n).
Proof.
  intros Hr Hw Hn. assert (reported st0 w0 n l e s w) as Hrep by (apply runs_reported; [lia|done]).
  destruct (reported_poll _ _ _ _ _ _ _ w1 Hrep Hw Hn) as (p&s'&w'&Hp&He&_).
  destruct Hrep as (k&Hk&Ht&Hst&Hcb). split; [by apply Ht|]. split; [by rewrite Hp; eexists|].
  split; [intros E; destruct (He E) as (?&?&?); congruence|]. destruct e.
  - destruct Hcb as (Hcb&stats&Hc&Hs). split; [done|]. exists stats, k.
    unfold drop_stream, run_callback. rewrite Hcb. simpl. destruct Hw as [_ ->]. done.
  - destruct Hcb as (->&Hcb&Hc). split; [done|]. destruct Hw as [Hm Hw].
    destruct (drop_calls st0 (Z.of_nat n) l false s w1) as (stats&Hd&Hs&_&_); [by eapply tracks_later|done..|].
    exists stats, (Z.of_nat n). split; [unfold drop_stream; congruence|]. done.
Qed.
End calls.
End stream.

(** * [TimedTryStream] *)

Section try_stream.
Context {St T E W : Type} {SS : Stream St (result T E) W} `{!Clock W, !BuildMode}.
Implicit Types w : W.

(** [TryStreamStats]. *)
Record TryStreamStats := { stream_stats : StreamStats; stats_error_count : Z; stats_first_error_position : option Z }.

Record TimedTryStream := {
  try_callback : option (TryStreamStats → W → W); inner_stream : TimedStream (St:=St) (W:=W);
  error_count : Z; first_error_position : option Z;
}.
Implicit Types s : TimedTryStream.

Definition new_try_stream (stream : St) (callback : TryStreamStats → W → W) : TimedTryStream :=
  {| try_callback := Some callback; inner_stream := new_stream stream None; error_count := 0; first_error_position := None |}.

Definition try_gen_stats s w : TryStreamStats * W :=
  let '(stats, w) := gen_stats (inner_stream s) w in
  ({| stream_stats := stats; stats_error_count := error_count s; stats_first_error_position := first_error_position s |}, w).

Definition try_run_callback s w : TimedTryStream * W :=
  match try_callback s with
  | None => (s, w)
  | Some c =>
      let s := {| try_callback := None; inner_stream := inner_stream s; error_count := error_count s; first_error_position := first_error_position s |} in
      let '(stats, w) := try_gen_stats s w in (s, c stats w)
  end.

Definition is_err (r : result T E) : bool := match r with Ok _ => false | Err _ => true end.

Definition try_poll_next s w : exec (Poll (option (result T E)) * TimedTryStream * W) :=
  let! '(p, inner, w) := poll_next (inner_stream s) w in
  let polled n first := {| try_callback := try_callback s; inner_stream := inner; error_count := n; first_error_position := first |} in
  match p with
  | Pending => ret (Pending, polled (error_count s) (first_error_position s), w)
  | Ready (Some item) =>
      if is_err item then
        let! n := usize_add (error_count s) 1 in
        match first_error_position s with
        | None => let! i := usize_sub (count inner) 1 in ret (Ready (Some item), polled n (Some i), w)
        | Some i => ret (Ready (Some item), polled n (Some i), w)
        end
      else ret (Ready (Some item), polled (error_count s) (first_error_position s), w)
  | Ready None =>
      let '(s, w) := try_run_callback (polled (error_count s) (first_error_position s)) w in ret (Ready None, s, w)
  end.

(** [Drop], and then that of the inner stream. *)
Definition drop_try_stream s w : W := let '(s, w) := try_run_callback s w in drop_stream (inner_stream s) w.

(** ** What the stats say *)

Definition errors (l : list (result T E)) : Z := Z.of_nat (List.length (List.filter is_err l)).
Definition first_error (l : list (result T E)) : option Z := (λ '(i, _), Z.of_nat i) <$> list_find (λ x, is_err x = true) l.

Lemma errors_snoc l x : errors (l ++ [x]) = errors l + if is_err x then 1 else 0.
Proof. unfold errors. rewrite List.filter_app, length_app. simpl. destruct (is_err x); simpl; lia. Qed.

Lemma errors_bound l : 0 ≤ errors l ≤ Z.of_nat (length l).
Proof. unfold errors. pose proof (List.filter_length_le is_err l). lia. Qed.

Lemma first_error_snoc l x :
  first_error (l ++ [x]) = match first_error l with None => if is_err x then Some (Z.of_nat (length l)) else None | Some i => Some i end.
Proof.
  unfold first_error. destruct (list_find _ l) as [[i y]|] eqn:Hf; simpl.
  - by rewrite (list_find_app_l _ _ _ _ _ Hf).
  - rewrite list_find_app_r by done. simpl. by destruct (is_err x); simpl; rewrite ?Nat.add_0_r.
Qed.

Definition try_reports (stats : TryStreamStats) (n : Z) (l : list (result T E)) (e : bool) : Prop :=
  reports (stream_stats stats) n l e ∧ stats_error_count stats = errors l ∧ stats_first_error_position stats = first_error l.

Section calls.
Context {R : Type} (calls : W → list R).
Context (source_takes : ∀ (st : St) w, moment w ≤ moment (stream_poll st w).2).
Context (calls_now : ∀ w, calls (now w).2 = calls w) (calls_source : ∀ (st : St) w, calls (stream_poll st w).2 = calls w).
Context (cb : TryStreamStats → W → W) (record : TryStreamStats → R).
Context (cb_takes : ∀ stats w, moment w ≤ moment (cb stats w)).
Context (calls_cb : ∀ stats w, calls (cb stats w) = calls w ++ [record stats]).

Definition try_reported (st0 : St) w0 (n : nat) (l : list (result T E)) (e : bool) s w : Prop :=
  ∃ k, k ≤ Z.of_nat n ∧ tracks st0 k l e (inner_stream s) (moment w) ∧ started (inner_stream s) k ∧
    callback (inner_stream s) = None ∧ error_count s = errors l ∧ first_error_position s = first_error l ∧
    if e then try_callback s = None ∧ ∃ stats, calls w = calls w0 ++ [record stats] ∧ try_reports stats k l true
    else k = Z.of_nat n ∧ try_callback s = Some cb ∧ calls w = calls w0.

Lemma try_drop_calls st0 k l e s w :
  tracks st0 k l e (inner_stream s) (moment w) → started (inner_stream s) k → try_callback s = Some cb →
  error_count s = errors l → first_error_position s = first_error l →
  ∃ stats s' w', try_run_callback s w = (s', w') ∧ calls w' = calls w ++ [record stats] ∧ try_reports stats k l e ∧
    moment w ≤ moment w' ∧ try_callback s' = None ∧ inner_stream s' = inner_stream s ∧
    error_count s' = error_count s ∧ first_error_position s' = first_error_position s.
Proof.
  intros Ht Hst Hcb He Hf. unfold try_run_callback, try_gen_stats. rewrite Hcb. simpl.
  pose proof (gen_stats_reports _ _ _ _ _ w Ht Hst) as Hr. destruct (calls_gen_stats calls calls_now (inner_stream s) w) as [Hc Hm].
  destruct (gen_stats (inner_stream s) w) as [stats w1]. simpl in *. eexists _, _, _. split; [reflexivity|].
  rewrite calls_cb, Hc. split; [done|]. split; [by split|]. split; [|done].
  etransitivity; [exact Hm|]. apply cb_takes.
Qed.

Lemma try_reported_poll st0 w0 n l e s w w1 : try_reported st0 w0 n l e s w → later calls w w1 → Z.of_nat n < usize_max →
  ∃ p s' w', try_poll_next s w1 = ret (p, s', w') ∧ (e = true → p = Ready None) ∧
    try_reported st0 w0 (S n) (match p with Ready (Some a) => l ++ [a] | _ => l end) (match p with Ready None => true | _ => e end) s' w'.
Proof.
  intros (k&Hk&Ht&Hst&Hin&Her&Hfi&He) [Hw Hc] Hn. unfold try_poll_next. destruct e.
  - destruct He as (Hcb&stats&Hcalls&Hrep). rewrite poll_ended by apply Ht. simpl. unfold try_run_callback. simpl. rewrite Hcb.
    eexists _, _, _. split; [reflexivity|]. split; [done|]. exists k. split; [lia|]. split; [by eapply tracks_later|].
    do 4 (split; [done|]). split; [done|]. exists stats. by rewrite Hc.
  - destruct He as (->&Hcb&Hcalls). destruct (poll_tracks calls source_takes calls_now calls_source st0 _ l _ _ w1 Ht Hw Hn) as (p&i'&w'&Hp&Hs').
    rewrite Hp. simpl. destruct p as [[x|]|].
    + destruct Hs' as (Ht'&Hst'&Hin'&Hc'). pose proof (errors_bound l) as Hb. pose proof (tr_polls _ _ _ _ _ _ Ht) as Hpl.
      assert (∀ s', try_callback s' = Some cb → inner_stream s' = i' → error_count s' = errors (l ++ [x]) →
        first_error_position s' = first_error (l ++ [x]) → try_reported st0 w0 (S n) (l ++ [x]) false s' w') as Hdone.
      { intros s' H1 H2 H3 H4. exists (Z.of_nat n + 1). rewrite H1, H2. split; [lia|]. split; [done|]. split; [done|].
        split; [congruence|]. split; [done|]. split; [done|]. split; [lia|]. split; [done|congruence]. }
      rewrite errors_snoc, first_error_snoc in Hdone. rewrite <-Her, <-Hfi in Hdone. destruct (is_err x).
      * unfold usize_add. rewrite usize_wrap_exact by lia. simpl. destruct (first_error_position s) as [i|].
        -- eexists _, _, _. split; [reflexivity|]. split; [done|]. by apply Hdone.
        -- pose proof (tr_count _ _ _ _ _ _ Ht') as Hcount. rewrite length_app in Hcount. simpl in Hcount.
           unfold usize_sub. rewrite usize_wrap_exact by lia. simpl. eexists _, _, _. split; [reflexivity|]. split; [done|].
           apply Hdone; [done..|simpl; f_equal; lia].
      * eexists _, _, _. split; [reflexivity|]. split; [done|]. apply Hdone; simpl; [done|done|lia|]. by destruct (first_error_position s).
    + destruct Hs' as (s1&w2&Hr&Ht'&Hst'&Hin'&Hc'). unfold run_callback in Hr. rewrite Hin', Hin in Hr. injection Hr as -> ->.
      match goal with |- context [try_run_callback ?s w'] => destruct (try_drop_calls st0 (Z.of_nat n + 1) l true s w')
        as (stats&s2&w3&Hr&Hd&Hrep&Hm&H1&H2&H3&H4); [done..|] end.
      rewrite Hr. eexists _, _, _. split; [reflexivity|]. split; [done|]. exists (Z.of_nat n + 1). split; [lia|].
      rewrite H2, H3, H4. simpl. split; [by eapply tracks_later|]. split; [done|]. split; [congruence|]. do 3 (split; [done|]).
      exists stats. split; [congruence|done].
    + destruct Hs' as (Ht'&Hst'&Hin'&Hc'). eexists _, _, _. split; [reflexivity|]. split; [done|]. exists (Z.of_nat n + 1).
      split; [lia|]. simpl. split; [done|]. split; [done|]. split; [congruence|]. do 2 (split; [done|]). split; [lia|]. split; congruence.
Qed.

Lemma runs_try_reported st0 w0 n l e s w : Z.of_nat n ≤ usize_max →
  runs calls try_poll_next (new_try_stream st0 cb) w0 n l e s w → try_reported st0 w0 n l e s w.
Proof.
  intros Hn Hr. induction Hr as [|n l e s w w1 p s' w' Hr IH Hw Hp].
  { exists 0. split; [lia|]. split; [apply tracks_new|]. done. }
  destruct (try_reported_poll _ _ _ _ _ _ _ w1 (IH ltac:(lia)) Hw) as (p2&s2&w2&Hp2&_&Hrep); [lia|].
  rewrite Hp in Hp2. by injection Hp2 as <- <- <-.
Qed.

(** A timed stream of results hands out the items of its stream, errors too, and calls its
    callback once, when the stream ends or else when it is dropped, with the stats of a timed
    stream, the number of errors and the number of items before the first error. *)
Theorem timed_try_stream_reports st0 w0 n l e s w w1 :
  runs calls try_poll_next (new_try_stream st0 cb) w0 n l e s w → later calls w w1 → Z.of_nat n < usize_max →
  yields st0 l (source (inner_stream s)) ∧ returns (try_poll_next s w1) ∧
  (e = true → ∃ s' w', try_poll_next s w1 = ret (Ready None, s', w') ∧ calls w' = calls w) ∧ (e = false → calls w = calls w0) ∧
  ∃ stats k, calls (drop_try_stream s w1) = calls w0 ++ [record stats] ∧ (e = true → calls w = calls w0 ++ [record stats]) ∧
    try_reports stats k l e ∧ k ≤ Z.of_nat n ∧ (e = false → k = Z.of_nat n).
Proof.
  intros Hr Hw Hn. assert (try_reported st0 w0 n l e s w) as Hrep by (apply runs_try_reported; [lia|done]).
  destruct (try_reported_poll _ _ _ _ _ _ _ w1 Hrep Hw Hn) as (p&s'&w'&Hp&He&Hnext).
  destruct Hrep as (k&Hk&Ht&Hst&Hin&Her&Hfi&Hcb). split; [by apply Ht|]. split; [by rewrite Hp; eexists|].
  unfold drop_try_stream, drop_stream. destruct e.
  - destruct Hcb as (Hcb&stats&Hc&Hs). split; [|split; [done|]].
    + intros _. unfold try_poll_next. rewrite poll_ended by apply Ht. simpl. unfold try_run_callback. simpl. rewrite Hcb.
      eexists _, _. split; [reflexivity|]. by destruct Hw.
    + exists stats, k. unfold try_run_callback. rewrite Hcb. unfold run_callback. rewrite Hin. simpl. by destruct Hw as [_ ->].
  - destruct Hcb as (->&Hcb&Hc). split; [done|]. split; [done|]. destruct Hw as [Hm Hw].
    destruct (try_drop_calls st0 (Z.of_nat n) l false s w1) as (stats&s2&w2&Hr'&Hd&Hs&_&_&Hi&_); [by eapply tracks_later|done..|].
    exists stats, (Z.of_nat n). rewrite Hr'. unfold run_callback. rewrite Hi, Hin. simpl. split; [congruence|]. done.
Qed.
End calls.
End try_stream.

(** * Runs *)

Section demo.
(** The world is a clock that goes on by one when it is read, and what callbacks were called with;
    every poll of the inner futures and streams takes five. *)
Definition World (R : Type) : Type := Z * list R.
Definition clamp (z : Z) : Instant := (z `max` 0) `min` duration_max.
#[local] Program Instance demo_clock R : Clock (World R) := {| now w := (clamp w.1, (w.1 + 1, w.2)); moment w := clamp w.1 |}.
Next Obligation. intros R [z l]. unfold clamp; simpl. lia. Qed.
Next Obligation. intros R [z l]. unfold clamp; simpl. assert (0 ≤ duration_max) by (by vm_compute). lia. Qed.
#[local] Instance demo_build : BuildMode := {| overflow_checks := true; debug_assertions := true |}.

Definition work {R} (w : World R) : World R := (w.1 + 5, w.2).
Definition record_call {R} (stats : R) (w : World R) : World R := (w.1, w.2 ++ [stats]).
#[local] Instance demo_future R : Future nat nat (World R) :=
  λ k w, match k with O => (Ready 7%nat, O, work w) | S k => (Pending, k, work w) end.
#[local] Instance demo_stream Item R : Stream (list (option Item)) Item (World R) :=
  λ l w, match l with [] => (Ready None, [], work w) | None :: l => (Pending, l, work w) | Some x :: l => (Ready (Some x), l, work w) end.

Lemma moment_work {R} (w : World R) : moment w ≤ moment (work w).
Proof. destruct w. unfold work; simpl. unfold clamp. lia. Qed.

(** The clock is read again for the maximum, so it can be more than the sum. *)
Example maximum_over_sum :
  poll (new 1%nat) (0, @nil ()) =
  ret (Pending, {| inner := 0%nat; timing := {| start := Some 0; poll_count := 1; poll_time := 6; max_poll_time := 7 |} |}, (9, [])).
Proof. by vm_compute. Qed.

Lemma timed_future_measures_witness :
  let s := {| inner := 0%nat; timing := {| start := Some 0; poll_count := 1; poll_time := 6; max_poll_time := 7 |} |} in
  pending 1%nat 1 5 5 s (9, @nil ()) ∧
  ∃ s' w' stats, poll s (20, @nil ()) = ret (Ready (stats, 7%nat), s', w') ∧ accurate stats 2 10 5.
Proof.
  intros s. assert (pending 1%nat 1 5 5 s (9, @nil ())) as Hp.
  { exact (pending_poll 1%nat 0 0 0 (new 1%nat) (0, []) (0, []) s (9, []) (pending_new _ _) (Z.le_refl _) eq_refl). }
  split; [done|].
  destruct (timed_future_measures (F:=nat) (O:=nat) (W:=World ()) ltac:(intros [|k] w; apply moment_work) 1%nat 1 5 5 s (9, []) (20, []) Hp ltac:(intros Hm; vm_compute in Hm; done) ltac:(by vm_compute))
    as (_&(s'&w'&Hm)&_).
  cbv [fpoll demo_future inner s] in Hm. destruct Hm as (stats&Hr&Ha). by exists s', w', stats.
Defined.


(** A stream of one item that is pending once: its states and worlds after each poll. *)
Definition demo_source : list (option nat) := [Some 1%nat; None].
Definition demo_state (rest : list (option nat)) (cb : option (StreamStats → World StreamStats → World StreamStats)) (polls : Z) (ended : bool) :
    TimedStream (St:=list (option nat)) (W:=World StreamStats) :=
  {| source := rest; callback := cb;
     s_timing := {| start := Some 0; poll_count := polls; poll_time := 6 * polls; max_poll_time := 7 |};
     count := 1; first_item_time := Some 9; completed := ended |}.
Definition demo_stats : StreamStats :=
  {| stream_completion_time := Some 26; stream_first_item_time := Some 9;
     stream_timing := {| start := Some 0; poll_count := 3; poll_time := 18; max_poll_time := 7 |}; stream_count := 1; stream_completed := true |}.

Lemma demo_runs :
  runs snd poll_next (new_stream demo_source (Some record_call)) (0, []) 3 [1%nat] true (demo_state [] None 3 true) (27, [demo_stats]).
Proof.
  assert (∀ w : World StreamStats, later snd w w) as Hl by (intros w; split; [lia|done]).
  pose proof (runs_start snd poll_next (new_stream demo_source (Some record_call)) (0, [])) as H0.
  pose proof (runs_poll _ _ _ _ _ _ _ _ _ _ (Ready (Some 1%nat)) (demo_state [None] (Some record_call) 1 false) (10, []) H0 (Hl _) eq_refl) as H1.
  pose proof (runs_poll _ _ _ _ _ _ _ _ _ _ Pending (demo_state [] (Some record_call) 2 false) (18, []) H1 (Hl _) eq_refl) as H2.
  exact (runs_poll _ _ _ _ _ _ _ _ _ _ (Ready None) (demo_state [] None 3 true) (27, [demo_stats]) H2 (Hl _) eq_refl).
Qed.

Lemma timed_stream_reports_witness :
  ∃ stats k, snd (drop_stream (demo_state [] None 3 true) (27, [demo_stats])) = [stats] ∧ reports stats k [1%nat] true.
Proof.
  destruct (timed_stream_reports (St:=list (option nat)) (Item:=nat) (W:=World StreamStats) snd
    ltac:(intros [|[]] ?; apply moment_work) ltac:(done) ltac:(by intros [|[]])
    record_call (λ x, x) ltac:(intros ? []; done) ltac:(done) _ _ _ _ _ _ _ (27, [demo_stats]) demo_runs
    ltac:(split; [lia|done]) ltac:(by vm_compute)) as (_&_&_&_&stats&k&Hd&_&Hs&_&_).
  exists stats, k. split; [exact Hd|done].
Defined.

(** A stream of an item and an error, dropped before it ends. *)
Definition demo_try_source : list (option (result nat nat)) := [Some (Ok 1%nat); Some (Err 2%nat)].
Definition demo_try_state (rest : list (option (result nat nat))) (polls errors : Z) (first : option Z) :
    TimedTryStream (St:=list (option (result nat nat))) (W:=World TryStreamStats) :=
  {| try_callback := Some record_call;
     inner_stream := {| source := rest; callback := None;
       s_timing := {| start := Some 0; poll_count := polls; poll_time := 6 * polls; max_poll_time := 7 |};
       count := polls; first_item_time := Some 9; completed := false |};
     error_count := errors; first_error_position := first |}.

Lemma demo_try_runs :
  runs snd try_poll_next (new_try_stream demo_try_source record_call) (0, []) 2 [Ok 1%nat; Err 2%nat] false
    (demo_try_state [] 2 1 (Some 1)) (18, []).
Proof.
  assert (∀ w : World TryStreamStats, later snd w w) as Hl by (intros w; split; [lia|done]).
  pose proof (runs_start snd try_poll_next (new_try_stream demo_try_source record_call) (0, [])) as H0.
  pose proof (runs_poll _ _ _ _ _ _ _ _ _ _ (Ready (Some (Ok 1%nat))) (demo_try_state [Some (Err 2%nat)] 1 0 None) (10, []) H0 (Hl _) eq_refl) as H1.
  exact (runs_poll _ _ _ _ _ _ _ _ _ _ (Ready (Some (Err 2%nat))) (demo_try_state [] 2 1 (Some 1)) (18, []) H1 (Hl _) eq_refl).
Qed.

Lemma timed_try_stream_reports_witness :
  ∃ stats, snd (drop_try_stream (demo_try_state [] 2 1 (Some 1)) (18, [])) = [stats] ∧
    try_reports stats 2 [Ok 1%nat; Err 2%nat] false ∧ errors [Ok (E:=nat) 1%nat; Err 2%nat] = 1 ∧ first_error [Ok (E:=nat) 1%nat; Err 2%nat] = Some 1.
Proof.
  destruct (timed_try_stream_reports (St:=list (option (result nat nat))) (T:=nat) (E:=nat) (W:=World TryStreamStats) snd
    ltac:(intros [|[]] ?; apply moment_work) ltac:(done) ltac:(by intros [|[]])
    record_call (λ x, x) ltac:(intros ? []; done) ltac:(done) _ _ _ _ _ _ _ (18, []) demo_try_runs
    ltac:(split; [lia|done]) ltac:(by vm_compute)) as (_&_&_&_&stats&k&Hd&_&Hs&_&Hk).
  exists stats. split; [exact Hd|]. rewrite (Hk eq_refl) in Hs. done.
Defined.
End demo.
End FuturesStats.
