(* ===== verification/ChromeTrace.v ===== *)
(** The Chrome traces of [chrome_trace] (src/shed/chrome_trace/src/lib.rs): events, traces, and
    how they are written and read as JSON, plain or compressed.  The encoding of durations is in
    Duration.v.

    JSON is a tree.  What [serde_json] does with its text, what the compressors do and the order
    of a [HashMap] are parameters with their documented behaviour. *)
From stdpp Require Import strings.
From S2P Require Import Prelude RustStd RustStr Duration.

Module ChromeTrace.
#[local] Open Scope Z_scope.
#[local] Abbreviation length := List.length.

(** JSON, with the entries of an object in the order they are written. *)
Inductive Json (F64 : Type) :=
| JNull
| JBool (b : bool)
| JInt (z : Z)
| JFloat (f : F64)
| JString (s : string)
| JArray (l : list (Json F64))
| JObject (l : list (string * Json F64)).
Arguments JNull {F64}.
Arguments JBool {F64} b.
Arguments JInt {F64} z.
Arguments JFloat {F64} f.
Arguments JString {F64} s.
Arguments JArray {F64} l.
Arguments JObject {F64} l.

Inductive Error := SerdeError | IoError.

(** * Phases *)

Inductive Phase :=
| Begin | End | Complete | Instant | AsyncBegin | AsyncEnd | AsyncInstant | FlowStart | FlowStep | FlowEnd
| ObjectCreate | ObjectSnapshot | ObjectDestroy | Metadata | Unspecified.

#[export] Instance Phase_eq_dec : EqDecision Phase.
Proof. solve_decision. Defined.

(** The names that [serde(rename)] gives the variants. *)
Definition phase_name (p : Phase) : string :=
  match p with
  | Begin => "B" | End => "E" | Complete => "X" | Instant => "I" | AsyncBegin => "b" | AsyncEnd => "e" | AsyncInstant => "n"
  | FlowStart => "s" | FlowStep => "t" | FlowEnd => "f" | ObjectCreate => "N" | ObjectSnapshot => "O" | ObjectDestroy => "D"
  | Metadata => "M" | Unspecified => "Unspecified"
  end.

Definition all_phases : list Phase :=
  [Begin; End; Complete; Instant; AsyncBegin; AsyncEnd; AsyncInstant; FlowStart; FlowStep; FlowEnd; ObjectCreate; ObjectSnapshot;
   ObjectDestroy; Metadata; Unspecified].

Definition phase_of_name (s : string) : result Phase Error :=
  match list_find (λ p, phase_name p = s) all_phases with Some (_, p) => Ok p | None => Err SerdeError end.

Lemma phase_of_name_name p : phase_of_name (phase_name p) = Ok p.
Proof. by destruct p. Qed.

(** * Events *)

Section chrome.
Context {F64 : Type}.
Implicit Types v : Json F64.

#[local] Abbreviation Args := (gmap string (Json F64)).

Record Event := {
  name : string; cat : string; ph : Phase; pid : Z; tid : Z; ts : option Duration; tts : option Duration; args : Args;
  cname : option string; id : option string; scope : option string; dur : option Duration; tdur : option Duration;
}.

Definition event_default : Event :=
  {| name := EmptyString; cat := EmptyString; ph := Unspecified; pid := 0; tid := 0; ts := None; tts := None; args := ∅;
     cname := None; id := None; scope := None; dur := None; tdur := None |}.

(** The setters. *)
Definition set_name (s : string) (e : Event) : Event :=
  {| name := s; cat := cat e; ph := ph e; pid := pid e; tid := tid e; ts := ts e; tts := tts e; args := args e;
     cname := cname e; id := id e; scope := scope e; dur := dur e; tdur := tdur e |}.
Definition category (s : string) (e : Event) : Event :=
  {| name := name e; cat := s; ph := ph e; pid := pid e; tid := tid e; ts := ts e; tts := tts e; args := args e;
     cname := cname e; id := id e; scope := scope e; dur := dur e; tdur := tdur e |}.
Definition phase (p : Phase) (e : Event) : Event :=
  {| name := name e; cat := cat e; ph := p; pid := pid e; tid := tid e; ts := ts e; tts := tts e; args := args e;
     cname := cname e; id := id e; scope := scope e; dur := dur e; tdur := tdur e |}.
Definition set_pid (p : Z) (e : Event) : Event :=
  {| name := name e; cat := cat e; ph := ph e; pid := p; tid := tid e; ts := ts e; tts := tts e; args := args e;
     cname := cname e; id := id e; scope := scope e; dur := dur e; tdur := tdur e |}.
Definition set_tid (t : Z) (e : Event) : Event :=
  {| name := name e; cat := cat e; ph := ph e; pid := pid e; tid := t; ts := ts e; tts := tts e; args := args e;
     cname := cname e; id := id e; scope := scope e; dur := dur e; tdur := tdur e |}.
Definition set_ts (d : option Duration) (e : Event) : Event :=
  {| name := name e; cat := cat e; ph := ph e; pid := pid e; tid := tid e; ts := d; tts := tts e; args := args e;
     cname := cname e; id := id e; scope := scope e; dur := dur e; tdur := tdur e |}.
Definition set_tts (d : option Duration) (e : Event) : Event :=
  {| name := name e; cat := cat e; ph := ph e; pid := pid e; tid := tid e; ts := ts e; tts := d; args := args e;
     cname := cname e; id := id e; scope := scope e; dur := dur e; tdur := tdur e |}.
Definition set_args (a : Args) (e : Event) : Event :=
  {| name := name e; cat := cat e; ph := ph e; pid := pid e; tid := tid e; ts := ts e; tts := tts e; args := a;
     cname := cname e; id := id e; scope := scope e; dur := dur e; tdur := tdur e |}.
Definition set_cname (s : option string) (e : Event) : Event :=
  {| name := name e; cat := cat e; ph := ph e; pid := pid e; tid := tid e; ts := ts e; tts := tts e; args := args e;
     cname := s; id := id e; scope := scope e; dur := dur e; tdur := tdur e |}.
Definition set_id (s : option string) (e : Event) : Event :=
  {| name := name e; cat := cat e; ph := ph e; pid := pid e; tid := tid e; ts := ts e; tts := tts e; args := args e;
     cname := cname e; id := s; scope := scope e; dur := dur e; tdur := tdur e |}.
Definition set_scope (s : option string) (e : Event) : Event :=
  {| name := name e; cat := cat e; ph := ph e; pid := pid e; tid := tid e; ts := ts e; tts := tts e; args := args e;
     cname := cname e; id := id e; scope := s; dur := dur e; tdur := tdur e |}.
Definition set_dur (d : option Duration) (e : Event) : Event :=
  {| name := name e; cat := cat e; ph := ph e; pid := pid e; tid := tid e; ts := ts e; tts := tts e; args := args e;
     cname := cname e; id := id e; scope := scope e; dur := d; tdur := tdur e |}.
Definition set_tdur (d : option Duration) (e : Event) : Event :=
  {| name := name e; cat := cat e; ph := ph e; pid := pid e; tid := tid e; ts := ts e; tts := tts e; args := args e;
     cname := cname e; id := id e; scope := scope e; dur := dur e; tdur := d |}.

(** [Event::new] and [Event::now], on a process and a thread. *)
Definition new (getpid gettid : Z) (n : string) (p : Phase) : Event :=
  set_tid gettid (set_pid getpid (phase p (set_name n event_default))).
Definition now (getpid gettid : Z) (clock epoch : Duration.Instant) (n : string) (p : Phase) : Event :=
  set_ts (Some (duration_since clock epoch)) (new getpid gettid n p).

(** ** To JSON *)

Context `{BuildMode} (hash_order : Args → list (string * Json F64)).

(** [serde(skip_serializing_if = "Option::is_none")]. *)
Definition optional {A} (key : string) (f : A → exec (Json F64)) (o : option A) : exec (list (string * Json F64)) :=
  match o with None => ret [] | Some a => let! v := f a in ret [(key, v)] end.

(** [serialize_opt] of a field that is not skipped. *)
Definition duration_field (key : string) (o : option Duration) : exec (list (string * Json F64)) :=
  match o with None => ret [] | Some _ => let! z := ChromeDuration.serialize_opt o in ret [(key, JInt z)] end.

Definition string_field (key : string) (o : option string) : list (string * Json F64) :=
  match o with None => [] | Some s => [(key, JString s)] end.

(** [HashMap::is_empty] skips the arguments. *)
Definition args_field (a : Args) : list (string * Json F64) :=
  if decide (a = ∅) then [] else [("args"%string, JObject (hash_order a))].

(** [serde(skip_serializing)] of a variant: it cannot be written. *)
Definition phase_to_json (p : Phase) : result (Json F64) Error :=
  match p with Unspecified => Err SerdeError | _ => Ok (JString (phase_name p)) end.

Definition event_to_json (e : Event) : exec (result (Json F64) Error) :=
  match phase_to_json (ph e) with
  | Err err => ret (Err err)
  | Ok p =>
      let! ts := duration_field "ts" (ts e) in
      let! tts := duration_field "tts" (tts e) in
      let! dur := duration_field "dur" (dur e) in
      let! tdur := duration_field "tdur" (tdur e) in
      ret (Ok (JObject ([("name", JString (name e)); ("cat", JString (cat e)); ("ph", p); ("pid", JInt (pid e)); ("tid", JInt (tid e))]%string
        ++ ts ++ tts ++ args_field (args e) ++ string_field "cname" (cname e) ++ string_field "id" (id e)
        ++ string_field "scope" (scope e) ++ dur ++ tdur)))
  end.

Fixpoint events_to_json (l : list Event) : exec (result (list (Json F64)) Error) :=
  match l with
  | [] => ret (Ok [])
  | e :: l =>
      let! v := event_to_json e in
      match v with
      | Err err => ret (Err err)
      | Ok v => let! r := events_to_json l in ret (match r with Ok vs => Ok (v :: vs) | Err err => Err err end)
      end
  end.

(** ** From JSON *)

Definition as_string v : result string Error := match v with JString s => Ok s | _ => Err SerdeError end.
Definition as_u64 v : result Z Error :=
  match v with JInt z => if bool_decide (0 ≤ z ≤ usize_max) then Ok z else Err SerdeError | _ => Err SerdeError end.
Definition as_opt_string v : result (option string) Error :=
  match v with JNull => Ok None | JString s => Ok (Some s) | _ => Err SerdeError end.
Definition as_object v : result Args Error :=
  match v with JObject l => Ok (foldl (λ m '(k, v), <[k := v]> m) ∅ l) | _ => Err SerdeError end.
(** [duration::deserialize_opt]: a number, and no [null]. *)
Definition as_duration v : result (option Duration) Error :=
  match as_u64 v with Ok z => Ok (ChromeDuration.deserialize_opt z) | Err e => Err e end.
(** A variant is its name, or an object with the name and [null]. *)
Definition as_phase v : result Phase Error :=
  match v with JString s | JObject [(s, JNull)] => phase_of_name s | _ => Err SerdeError end.

Definition set_with {A} (as_a : Json F64 → result A Error) (set : A → Event → Event) v (e : Event) : result Event Error :=
  match as_a v with Ok a => Ok (set a e) | Err err => Err err end.

(** The fields, in their order. *)
Definition event_fields : list (string * (Json F64 → Event → result Event Error)) :=
  [("name", set_with as_string set_name); ("cat", set_with as_string category); ("ph", set_with as_phase phase);
   ("pid", set_with as_u64 set_pid); ("tid", set_with as_u64 set_tid); ("ts", set_with as_duration set_ts);
   ("tts", set_with as_duration set_tts); ("args", set_with as_object set_args); ("cname", set_with as_opt_string set_cname);
   ("id", set_with as_opt_string set_id); ("scope", set_with as_opt_string set_scope); ("dur", set_with as_duration set_dur);
   ("tdur", set_with as_duration set_tdur)]%string.

Definition setter (key : string) : option (Json F64 → Event → result Event Error) :=
  snd ∘ snd <$> list_find (λ f, f.1 = key) event_fields.

(** Unknown keys are ignored; a field that is missing keeps its default. *)
Fixpoint set_fields (l : list (string * Json F64)) (e : Event) : result Event Error :=
  match l with
  | [] => Ok e
  | (k, v) :: l =>
      match setter k with
      | None => set_fields l e
      | Some set => match set v e with Ok e => set_fields l e | Err err => Err err end
      end
  end.

(** A struct may also be an array of its fields; one that is too long is an error. *)
Fixpoint set_sequence (l : list (Json F64)) (fields : list (string * (Json F64 → Event → result Event Error))) (e : Event) : result Event Error :=
  match l, fields with
  | [], _ => Ok e
  | _ :: _, [] => Err SerdeError
  | v :: l, (_, set) :: fields => match set v e with Ok e => set_sequence l fields e | Err err => Err err end
  end.

(** A known key that comes twice is an error. *)
Definition known_keys (l : list (string * Json F64)) : list string := filter (λ k, is_Some (setter k)) l.*1.

Definition event_from_json v : result Event Error :=
  match v with
  | JObject l => if decide (NoDup (known_keys l)) then set_fields l event_default else Err SerdeError
  | JArray l => set_sequence l event_fields event_default
  | _ => Err SerdeError
  end.

Fixpoint events_from_json (l : list (Json F64)) : result (list Event) Error :=
  match l with
  | [] => Ok []
  | v :: l =>
      match event_from_json v with
      | Err e => Err e
      | Ok e => match events_from_json l with Ok es => Ok (e :: es) | Err err => Err err end
      end
  end.

(** * Traces *)

Record Trace := { trace_events : list Event }.
Definition trace_new : Trace := {| trace_events := [] |}.
Definition add_event (t : Trace) (e : Event) : Trace := {| trace_events := trace_events t ++ [e] |}.
Definition add_events (t : Trace) (es : list Event) : Trace := {| trace_events := trace_events t ++ es |}.

Definition trace_to_json (t : Trace) : exec (result (Json F64) Error) :=
  let! r := events_to_json (trace_events t) in
  ret (match r with Ok vs => Ok (JObject [("traceEvents"%string, JArray vs)]) | Err e => Err e end).

(** The only field has no default. *)
Definition trace_from_json v : result Trace Error :=
  match (match v with
         | JObject l => match filter (λ f, f.1 = "traceEvents"%string) l with [(_, JArray vs)] => Some vs | _ => None end
         | JArray [JArray vs] => Some vs
         | _ => None
         end) with
  | Some vs => match events_from_json vs with Ok es => Ok {| trace_events := es |} | Err e => Err e end
  | None => Err SerdeError
  end.

(** ** What is read back *)

Context (hash_order_perm : ∀ a : Args, hash_order a ≡ₚ map_to_list a).

(** JSON keeps microseconds. *)
Definition cut (d : Duration) : Duration := from_micros (as_micros d).
Definition cut_event (e : Event) : Event :=
  set_tdur (cut <$> tdur e) (set_dur (cut <$> dur e) (set_tts (cut <$> tts e) (set_ts (cut <$> ts e) e))).
Definition cut_trace (t : Trace) : Trace := {| trace_events := cut_event <$> trace_events t |}.

(** Durations whose microseconds fit a [u64], and fields that are [u64]s. *)
Definition encodable (o : option Duration) : Prop := from_option (λ d, valid d ∧ as_micros d ≤ usize_max) True o.
Definition sound_event (e : Event) : Prop :=
  encodable (ts e) ∧ encodable (tts e) ∧ encodable (dur e) ∧ encodable (tdur e) ∧ 0 ≤ pid e ≤ usize_max ∧ 0 ≤ tid e ≤ usize_max.

Lemma as_object_read (l : list (string * Json F64)) (a : Args) : l ≡ₚ map_to_list a → as_object (JObject l) = Ok a.
Proof.
  intros Hl. simpl. f_equal. assert (NoDup l.*1) as Hnd by (rewrite Hl; apply NoDup_fst_map_to_list).
  assert (∀ m : Args, foldl (λ m '(k, v), <[k := v]> m) m l = list_to_map l ∪ m) as Hfold.
  { clear Hl. induction l as [|[k v] l IH]; intros m; simpl; [by rewrite (left_id ∅ _)|].
    apply NoDup_cons in Hnd as [Hk Hnd]. rewrite IH by done. rewrite <-insert_union_l. symmetry. apply insert_union_r.
    by apply not_elem_of_list_to_map_1. }
  rewrite Hfold, (right_id ∅ _), (list_to_map_proper _ _ Hnd Hl). apply list_to_map_to_list.
Qed.

Definition time_entry (key : string) (o : option Duration) : list (string * Json F64) :=
  match o with None => [] | Some d => [(key, JInt (as_micros d))] end.

Lemma duration_field_writes key o : encodable o →
  duration_field key o = ret (time_entry key o).
Proof.
  intros Ho. unfold duration_field, ChromeDuration.serialize_opt. destruct o as [d|]; [|done]. simpl in *. destruct Ho as [Hv Hd].
  assert (ChromeDuration.serialize d = ret (as_micros d)) as ->; [|done].
  unfold ChromeDuration.serialize, ChromeDuration.micros. pose proof (as_secs_range d Hv). pose proof (subsec_nonneg d 1000).
  rewrite TimeExt.mul_add_unchecked by (try done; unfold subsec_micros; lia).
  unfold subsec_micros. rewrite <-(unit_split d 1000 1000000) by done.
  unfold TimeExt.unchecked, TimeExt.to_u64. by rewrite (proj2 (Z.leb_le _ _)).
Qed.

(** What an event is written as, if it can be. *)
Definition event_entries (e : Event) : list (string * Json F64) :=
  [("name", JString (name e)); ("cat", JString (cat e)); ("ph", JString (phase_name (ph e))); ("pid", JInt (pid e)); ("tid", JInt (tid e))]%string
  ++ time_entry "ts" (ts e) ++ time_entry "tts" (tts e) ++ args_field (args e) ++ string_field "cname" (cname e) ++ string_field "id" (id e)
  ++ string_field "scope" (scope e) ++ time_entry "dur" (dur e) ++ time_entry "tdur" (tdur e).

Lemma event_writes e : sound_event e →
  event_to_json e = ret (if decide (ph e = Unspecified) then Err SerdeError else Ok (JObject (event_entries e))).
Proof.
  intros (H1&H2&H3&H4&_). unfold event_to_json, event_entries. rewrite !duration_field_writes by done. by destruct (ph e).
Qed.

(** Every key is written at most once. *)
Lemma sub_opt {A} (o : option A) (k : string) f l ks : l.*1 `sublist_of` ks →
  ((match o with None => [] | Some a => [(k, f a)] end ++ l : list (string * Json F64)).*1) `sublist_of` (k :: ks).
Proof. intros Hl. destruct o; simpl; by constructor. Qed.

Lemma event_entries_keys e :
  (event_entries e).*1 `sublist_of` ["name"; "cat"; "ph"; "pid"; "tid"; "ts"; "tts"; "args"; "cname"; "id"; "scope"; "dur"; "tdur"]%string.
Proof.
  unfold event_entries, string_field. simpl. do 5 apply sublist_skip. do 2 apply sub_opt.
  assert (∀ l ks, (l : list (string * Json F64)).*1 `sublist_of` ks → (args_field (args e) ++ l).*1 `sublist_of` ("args"%string :: ks)) as Ha.
  { intros l ks Hl. unfold args_field. destruct (decide _); simpl; by constructor. }
  apply Ha. do 4 apply sub_opt. destruct (tdur e); simpl; repeat constructor.
Qed.

Lemma event_entries_once e : NoDup (known_keys (event_entries e)).
Proof.
  unfold known_keys. apply NoDup_filter. eapply sublist_NoDup; [|apply event_entries_keys]. by apply (bool_decide_unpack _).
Qed.

Lemma set_fields_app l k e : set_fields (l ++ k) e = match set_fields l e with Ok e => set_fields k e | Err err => Err err end.
Proof.
  revert e. induction l as [|[x v] l IH]; intros e; simpl; [done|]. destruct (setter x) as [set|]; [|apply IH].
  destruct (set v e); [apply IH|done].
Qed.

(** Reading the entry of a field sets it, if it was written; otherwise the field has its default. *)
Lemma read_time (set : option Duration → Event → Event) key o e :
  setter key = Some (set_with as_duration set) → encodable o → (o = None → set None e = e) →
  set_fields (time_entry key o) e = Ok (set (cut <$> o) e).
Proof.
  intros Hk Ho Hd. unfold time_entry. destruct o as [d|]; simpl; [|by rewrite Hd]. rewrite Hk.
  unfold set_with, as_duration, as_u64. destruct Ho as [[Hv _] Hm]. unfold as_micros in *.
  rewrite bool_decide_true by (split; [apply Z.div_pos; lia|done]). done.
Qed.

Lemma read_string (set : option string → Event → Event) key o e :
  setter key = Some (set_with as_opt_string set) → (o = None → set None e = e) →
  set_fields (string_field key o) e = Ok (set o e).
Proof. intros Hk Hd. unfold string_field. destruct o as [x|]; simpl; [by rewrite Hk|by rewrite Hd]. Qed.

Lemma read_args a e : (a = ∅ → set_args ∅ e = e) → set_fields (args_field a) e = Ok (set_args a e).
Proof.
  intros Hd. unfold args_field. destruct (decide (a = ∅)) as [->|_]; [by simpl; rewrite Hd|].
  cbn [set_fields]. change (setter "args") with (Some (set_with as_object set_args)). unfold set_with.
  by rewrite (as_object_read _ _ (hash_order_perm a)).
Qed.

Lemma read_phase p e : set_with as_phase phase (JString (phase_name p)) e = Ok (phase p e).
Proof. unfold set_with. simpl. by rewrite phase_of_name_name. Qed.
Lemma read_u64 (set : Z → Event → Event) z e : 0 ≤ z ≤ usize_max → set_with as_u64 set (JInt z) e = Ok (set z e).
Proof. intros Hz. unfold set_with, as_u64. by rewrite bool_decide_true. Qed.

(** Computes the setters, so that events do not grow. *)
#[local] Ltac normal := cbv beta iota delta [set_name category phase set_pid set_tid set_ts set_tts set_args set_cname set_id set_scope set_dur set_tdur
  event_default name cat ph pid tid ts tts args cname id scope dur tdur].

Lemma event_reads e : sound_event e → event_from_json (JObject (event_entries e)) = Ok (cut_event e).
Proof.
  destruct e as [n c p pi ti t1 t2 a cn i sc d1 d2]. intros (H1&H2&H3&H4&Hp&Ht).
  unfold event_from_json. rewrite decide_True by apply event_entries_once. unfold event_entries. rewrite set_fields_app. simpl.
  rewrite read_phase, !read_u64 by done. normal.
  rewrite set_fields_app, (read_time set_ts); [normal|reflexivity|exact H1|reflexivity].
  rewrite set_fields_app, (read_time set_tts); [normal|reflexivity|exact H2|reflexivity].
  rewrite set_fields_app, read_args by reflexivity. normal.
  rewrite set_fields_app, (read_string set_cname); [normal|reflexivity..].
  rewrite set_fields_app, (read_string set_id); [normal|reflexivity..].
  rewrite set_fields_app, (read_string set_scope); [normal|reflexivity..].
  rewrite set_fields_app, (read_time set_dur); [normal|reflexivity|exact H3|reflexivity].
  by rewrite (read_time set_tdur); [|reflexivity|exact H4|reflexivity].
Qed.

(** ** Traces *)

Definition unspecified (t : Trace) : Prop := Exists (λ e, ph e = Unspecified) (trace_events t).
#[local] Instance unspecified_dec t : Decision (unspecified t).
Proof. unfold unspecified. apply _. Defined.
Definition sound_trace (t : Trace) : Prop := Forall sound_event (trace_events t).
Definition trace_json (t : Trace) : Json F64 :=
  JObject [("traceEvents"%string, JArray ((λ e, JObject (event_entries e)) <$> trace_events t))].

Lemma trace_writes t : sound_trace t →
  trace_to_json t = ret (if decide (unspecified t) then Err SerdeError else Ok (trace_json t)).
Proof.
  destruct t as [l]. unfold sound_trace. simpl. intros Hs. unfold trace_to_json, trace_json. simpl.
  assert (events_to_json l = ret (if decide (unspecified {| trace_events := l |}) then Err SerdeError else Ok ((λ e, JObject (event_entries e)) <$> l))) as ->.
  { induction Hs as [|e l He Hl IH]; [by destruct (decide _) as [?%Exists_nil|]|].
    cbn [events_to_json]. rewrite event_writes, IH by done. simpl.
    destruct (decide (ph e = Unspecified)) as [Hu|Hu], (decide (unspecified {| trace_events := e :: l |})) as [Hx|Hx],
      (decide (unspecified {| trace_events := l |})) as [Hy|Hy]; simpl; try done; unfold unspecified in *; simpl in *;
      exfalso; rewrite Exists_cons in Hx; tauto. }
  simpl. by destruct (decide _).
Qed.

Lemma trace_reads t : sound_trace t → trace_from_json (trace_json t) = Ok (cut_trace t).
Proof.
  destruct t as [l]. unfold sound_trace. simpl. intros Hs. unfold trace_from_json, trace_json, cut_trace. simpl.
  assert (events_from_json ((λ e, JObject (event_entries e)) <$> l) = Ok (cut_event <$> l)) as ->; [|done].
  induction Hs as [|e l He Hl IH]; [done|]. cbn [fmap list_fmap events_from_json]. by rewrite event_reads, IH by done.
Qed.

(** * Text and files *)

Context (to_string : Json F64 → string) (from_str : string → result (Json F64) Error).
Context (gzip zstd : string → string).
Context (read_gzip read_zstd : string → result string Error).

(** The methods of [json_methods_impl!], for a type with its two encodings. *)
Section json_methods.
Context {T : Type} (ser : T → exec (result (Json F64) Error)) (de : Json F64 → result T Error).

Definition parse (s : string) : result T Error := match from_str s with Ok v => de v | Err e => Err e end.
Definition parse_gzip (bytes : string) : result T Error := match read_gzip bytes with Ok s => parse s | Err e => Err e end.
Definition parse_zstd (bytes : string) : result T Error := match read_zstd bytes with Ok s => parse s | Err e => Err e end.

Definition to_json (t : T) : exec (result (Json F64) Error) := ser t.
Definition encoded (f : string → string) (t : T) : exec (result string Error) :=
  let! r := ser t in ret (match r with Ok v => Ok (f (to_string v)) | Err e => Err e end).
Definition to_json_string : T → exec (result string Error) := encoded (λ s, s).
Definition to_json_gzip : T → exec (result string Error) := encoded gzip.
Definition to_json_zstd : T → exec (result string Error) := encoded zstd.
End json_methods.

(** The files, and those that cannot be written. *)
Context (writable : string → bool).
#[local] Abbreviation Files := (gmap string string).

(** [File::create] empties the file. *)
Definition create (path : string) (fs : Files) : result Files Error :=
  if writable path then Ok (<[path := EmptyString]> fs) else Err IoError.

Definition save_as (encode : Trace → exec (result string Error)) (t : Trace) (path : string) (fs : Files) : exec (result () Error * Files) :=
  match create path fs with
  | Err e => ret (Err e, fs)
  | Ok fs => let! r := encode t in ret (match r with Ok bytes => (Ok (), <[path := bytes]> fs) | Err e => (Err e, fs) end)
  end.
Definition save := save_as (to_json_string trace_to_json).
Definition save_gzip := save_as (to_json_gzip trace_to_json).
Definition save_zstd := save_as (to_json_zstd trace_to_json).

Definition load_as (decode : string → result Trace Error) (path : string) (fs : Files) : result Trace Error :=
  match fs !! path with Some bytes => decode bytes | None => Err IoError end.
Definition load := load_as (parse trace_from_json).
Definition load_gzip := load_as (parse_gzip trace_from_json).
Definition load_zstd := load_as (parse_zstd trace_from_json).

(** The values that [serde_json] reads as it has written them, which leaves out deep ones and
    some floats; what the compressors promise. *)
Context (printable : Json F64 → Prop) (from_str_to_string : ∀ v, printable v → from_str (to_string v) = Ok v).
Context (read_gzip_gzip : ∀ s, read_gzip (gzip s) = Ok s) (read_zstd_zstd : ∀ s, read_zstd (zstd s) = Ok s).

Lemma save_as_spec f t path fs : sound_trace t → writable path = true →
  save_as (encoded trace_to_json f) t path fs =
  ret (if decide (unspecified t) then (Err SerdeError, <[path := EmptyString]> fs) else (Ok (), <[path := f (to_string (trace_json t))]> fs)).
Proof.
  intros Hs Hw. unfold save_as, create, encoded. rewrite Hw, trace_writes by done. simpl.
  destruct (decide _); simpl; [done|]. by rewrite insert_insert_eq.
Qed.

Lemma load_as_spec (decode : string → result Trace Error) bytes path fs :
  fs !! path = Some bytes → load_as decode path fs = decode bytes.
Proof. intros Hf. unfold load_as. by rewrite Hf. Qed.

(** C35: A trace whose times fit in 2^64 microseconds is saved without a panic, in any of the three
    formats, and is loaded again as it was up to its times, which are cut to microseconds.  The
    exception is a trace with an event of no specified phase: saving it is an error, and leaves
    an empty file. *)
Theorem trace_files_round_trip t path fs : sound_trace t → printable (trace_json t) → writable path = true →
  (¬ unspecified t →
    (∃ fs', save t path fs = ret (Ok (), fs') ∧ load path fs' = Ok (cut_trace t) ∧ delete path fs' = delete path fs) ∧
    (∃ fs', save_gzip t path fs = ret (Ok (), fs') ∧ load_gzip path fs' = Ok (cut_trace t) ∧ delete path fs' = delete path fs) ∧
    (∃ fs', save_zstd t path fs = ret (Ok (), fs') ∧ load_zstd path fs' = Ok (cut_trace t) ∧ delete path fs' = delete path fs)) ∧
  (unspecified t →
    let emptied := ret (Err SerdeError, <[path := EmptyString]> fs) in
    save t path fs = emptied ∧ save_gzip t path fs = emptied ∧ save_zstd t path fs = emptied).
Proof.
  intros Hs Hp Hw. unfold save, save_gzip, save_zstd, to_json_string, to_json_gzip, to_json_zstd.
  rewrite !save_as_spec by done. split; intros Hu; [rewrite !decide_False by done|by rewrite !decide_True].
  assert (parse trace_from_json (to_string (trace_json t)) = Ok (cut_trace t)) as Hparse.
  { unfold parse. rewrite from_str_to_string by done. by apply trace_reads. }
  unfold load, load_gzip, load_zstd.
  split_and!; eexists; (split; [reflexivity|]); (split; [|by rewrite delete_insert_eq]); erewrite load_as_spec by apply lookup_insert_eq;
    [done|unfold parse_gzip; by rewrite read_gzip_gzip|unfold parse_zstd; by rewrite read_zstd_zstd].
Qed.
End chrome.

(** * A trace of two events *)

Section demo.
#[local] Instance demo_mode : BuildMode := {| overflow_checks := true; debug_assertions := true |}.
Definition demo_trace : Trace (F64:=Empty_set) :=
  add_events trace_new [set_args {["n"%string := JInt 1]} (now 10 20 5001 1 "work" Begin); set_dur (Some 2500) (new 10 20 "done" Instant)].
Definition demo_json : Json Empty_set := trace_json map_to_list demo_trace.
Definition demo_text : string :=
  "{'traceEvents':[{'name':'work','cat':'','ph':'B','pid':10,'tid':20,'ts':5,'args':{'n':1}},{'name':'done','cat':'','ph':'I','pid':10,'tid':20,'dur':2}]}".
Definition demo_from_str (s : string) : result (Json Empty_set) Error := if decide (s = demo_text) then Ok demo_json else Err SerdeError.
Definition demo_pack (s : string) : string := "z" +:+ s.
Definition demo_unpack (s : string) : result string Error := match s with String _ s => Ok s | EmptyString => Err IoError end.

Lemma trace_files_round_trip_witness :
  ∃ fs, save map_to_list (λ _, demo_text) (λ _, true) demo_trace "t.json" ∅ = ret (Ok (), fs) ∧
    load demo_from_str "t.json" fs =
    Ok (add_events trace_new [set_args {["n"%string := JInt 1]} (now 10 20 5000 0 "work" Begin); set_dur (Some 2000) (new 10 20 "done" Instant)]).
Proof.
  assert (∀ d, 0 ≤ d ≤ 10000 → valid d ∧ as_micros d ≤ usize_max) as Hd.
  { intros d Hd. assert (10000 ≤ duration_max ∧ 10 ≤ usize_max) as [? ?] by (split; intros ?; done). unfold valid, as_micros. split; [lia|].
    pose proof (Z.div_le_mono d 10000 1000 ltac:(lia) ltac:(lia)) as Hm. change (10000 / 1000) with 10 in Hm. lia. }
  assert (sound_trace demo_trace) as Hs.
  { repeat constructor; simpl; try (apply Hd; vm_compute; split; congruence); try done; vm_compute; congruence. }
  destruct (trace_files_round_trip map_to_list ltac:(done) (λ _, demo_text) demo_from_str demo_pack demo_pack demo_unpack demo_unpack (λ _, true)
    (λ v, v = demo_json) ltac:(by intros v ->) ltac:(done) ltac:(done) demo_trace "t.json" ∅ Hs eq_refl eq_refl)
    as [H _]. destruct H as [(fs&Hsave&Hload&_) _].
  - intros Hu. unfold unspecified in Hu. simpl in Hu. rewrite !Exists_cons, Exists_nil in Hu. naive_solver.
  - exists fs. split; [done|]. rewrite Hload. done.
Defined.
End demo.
End ChromeTrace.
