(* ===== verification/FacetContainer.v ===== *)
(** Facet containers: the macro [facet::container] (src/shed/facet/proc_macros/container_impl.rs),
    the accessors that [facet::facet] generates (facet_impl.rs and [snakify_pascal_case] of lib.rs),
    and what they do at run time, with the traits of src/shed/facet/src/lib.rs.

    The fields of a struct are sorted by their attributes into facets, delegates and fields with an
    initial value; the generated code builds the struct from a factory, or from another object that
    has its facets, and gives access to the facets, its own and those of its delegates.  As in
    FacetMacro.v, generated code is data and its meaning is defined next to it. *)
From stdpp Require Import strings.
From S2P Require Import Prelude RustStd RustStr FacetMacro FacetSync.
From Stdlib Require Import Ascii.

Module FacetContainer.
#[local] Abbreviation length := List.length.

(** * Syntax *)

(** The types of fields: trait objects with their bounds, [Arc]s, and other types. *)
Inductive FieldTy := TraitObject (bounds : list string) | ArcTy (t : FieldTy) | OtherTy (name : string).
#[export] Instance field_ty_eq_dec : EqDecision FieldTy.
Proof. solve_decision. Defined.

(** Attributes; arguments that do not parse are [None]. *)
Inductive Attribute (Expr : Type) :=
| Init (expr : option Expr)
| FacetAttr
| DelegateAttr (args : option (list FieldTy))
| OtherAttr (text : string).
Arguments Init {Expr}.
Arguments FacetAttr {Expr}.
Arguments DelegateAttr {Expr}.
Arguments OtherAttr {Expr}.

Inductive Error := ParseError | FoundNone | FoundMultiple | RequiresNamedFields | ExpectedItem.

Section macro.
Context {Expr : Type}.
#[local] Abbreviation Attribute := (Attribute Expr).

Record Field := { f_ident : option string; f_attrs : list Attribute; f_ty : FieldTy }.
Inductive Fields := Named (fields : list Field) | Unnamed (fields : list Field) | Unit.
Record ItemStruct := { struct_ident : string; fields : Fields }.

Inductive ContainerType := NamedType | UnnamedType.
Record ContainerMembers := {
  container_type : ContainerType;
  field_idents : list string;
  field_inits : list Expr;
  facet_idents : list string;
  facet_types : list FieldTy;
  delegate_idents : list string;
  delegate_types : list FieldTy;
  delegate_facets : list (list FieldTy);
}.

(** * Reading the container *)

(** A trait object gets the bounds [Send + Sync + 'static]. *)
Definition with_bounds (t : FieldTy) : FieldTy :=
  match t with TraitObject bounds => TraitObject (bounds ++ ["Send"; "Sync"; "'static"]%string) | t => t end.

Definition extract_delegate_facets (args : option (list FieldTy)) : result (list FieldTy) Error :=
  match args with Some args => Ok (with_bounds <$> args) | None => Err ParseError end.

Definition push_init (i : string) (e : Expr) (m : ContainerMembers) : ContainerMembers :=
  {| container_type := container_type m; field_idents := field_idents m ++ [i]; field_inits := field_inits m ++ [e];
     facet_idents := facet_idents m; facet_types := facet_types m;
     delegate_idents := delegate_idents m; delegate_types := delegate_types m; delegate_facets := delegate_facets m |}.
Definition push_facet (i : string) (t : FieldTy) (m : ContainerMembers) : ContainerMembers :=
  {| container_type := container_type m; field_idents := field_idents m; field_inits := field_inits m;
     facet_idents := facet_idents m ++ [i]; facet_types := facet_types m ++ [t];
     delegate_idents := delegate_idents m; delegate_types := delegate_types m; delegate_facets := delegate_facets m |}.
Definition push_delegate (i : string) (t : FieldTy) (l : list FieldTy) (m : ContainerMembers) : ContainerMembers :=
  {| container_type := container_type m; field_idents := field_idents m; field_inits := field_inits m;
     facet_idents := facet_idents m; facet_types := facet_types m;
     delegate_idents := delegate_idents m ++ [i]; delegate_types := delegate_types m ++ [t]; delegate_facets := delegate_facets m ++ [l] |}.

(** The loop over the attributes of a field: the type it has by now, the facet attributes seen, the
    other attributes, and the members.  The name of a named field is there. *)
Fixpoint extract_attrs (attrs : list Attribute) (ident : option string) (ty : FieldTy) (seen : nat) (others : list Attribute)
    (m : ContainerMembers) : exec (result (FieldTy * nat * list Attribute * ContainerMembers) Error) :=
  match attrs with
  | [] => ret (Ok (ty, seen, others, m))
  | Init None :: _ => ret (Err ParseError)
  | Init (Some e) :: attrs => let! i := expect ident in extract_attrs attrs ident ty (S seen) others (push_init i e m)
  | FacetAttr :: attrs =>
      let t := with_bounds ty in
      let! i := expect ident in extract_attrs attrs ident (ArcTy t) (S seen) others (push_facet i t m)
  | DelegateAttr args :: attrs =>
      match extract_delegate_facets args with
      | Err e => ret (Err e)
      | Ok l => let! i := expect ident in extract_attrs attrs ident ty (S seen) others (push_delegate i ty l m)
      end
  | OtherAttr a :: attrs => extract_attrs attrs ident ty seen (others ++ [OtherAttr a]) m
  end.

(** The loop over named fields: the members, and the fields as they are left in the struct. *)
Fixpoint extract_named (fs : list Field) (m : ContainerMembers) : exec (result (ContainerMembers * list Field) Error) :=
  match fs with
  | [] => ret (Ok (m, []))
  | f :: fs =>
      let! r := extract_attrs (f_attrs f) (f_ident f) (f_ty f) 0 [] m in
      match r with
      | Err e => ret (Err e)
      | Ok (_, 0, _, _) => ret (Err FoundNone)
      | Ok (ty, 1, others, m) =>
          let! rest := extract_named fs m in
          ret (match rest with
               | Ok (m, fs) => Ok (m, {| f_ident := f_ident f; f_attrs := others; f_ty := ty |} :: fs)
               | Err e => Err e
               end)
      | Ok (_, S (S _), _, _) => ret (Err FoundMultiple)
      end
  end.

(** [format_ident!("_field{}", index)]. *)
Definition field_name (index : nat) : string := "_field" +:+ to_string (Z.of_nat index).

Fixpoint extract_unnamed (fs : list Field) (index : nat) (m : ContainerMembers) : ContainerMembers * list Field :=
  match fs with
  | [] => (m, [])
  | f :: fs =>
      let t := with_bounds (f_ty f) in
      let '(m, rest) := extract_unnamed fs (S index) (push_facet (field_name index) t m) in
      (m, {| f_ident := f_ident f; f_attrs := f_attrs f; f_ty := ArcTy t |} :: rest)
  end.

Definition no_members (t : ContainerType) : ContainerMembers :=
  {| container_type := t; field_idents := []; field_inits := []; facet_idents := []; facet_types := [];
     delegate_idents := []; delegate_types := []; delegate_facets := [] |}.

(** [ContainerMembers::extract]. *)
Definition extract (container : ItemStruct) : exec (result (ContainerMembers * ItemStruct) Error) :=
  match fields container with
  | Named fs =>
      let! r := extract_named fs (no_members NamedType) in
      ret (match r with Ok (m, fs) => Ok (m, {| struct_ident := struct_ident container; fields := Named fs |}) | Err e => Err e end)
  | Unnamed fs =>
      let '(m, fs) := extract_unnamed fs 0 (no_members UnnamedType) in
      ret (Ok (m, {| struct_ident := struct_ident container; fields := Unnamed fs |}))
  | Unit => ret (Err RequiresNamedFields)
  end.

(** ** What a field is *)

Inductive Kind := KInit (e : Expr) | KFacet (t : FieldTy) | KDelegate (t : FieldTy) (l : list FieldTy).

Definition attr_kind (ty : FieldTy) (a : Attribute) : option (result Kind Error) :=
  match a with
  | Init e => Some (match e with Some e => Ok (KInit e) | None => Err ParseError end)
  | FacetAttr => Some (Ok (KFacet (with_bounds ty)))
  | DelegateAttr args => Some (match extract_delegate_facets args with Ok l => Ok (KDelegate ty l) | Err e => Err e end)
  | OtherAttr _ => None
  end.

Fixpoint attr_kinds (ty : FieldTy) (attrs : list Attribute) : list (result Kind Error) :=
  match attrs with
  | [] => []
  | a :: attrs => match attr_kind ty a with Some k => k :: attr_kinds ty attrs | None => attr_kinds ty attrs end
  end.

(** An attribute that does not parse is reported first. *)
Definition field_kind (f : Field) : result Kind Error :=
  let kinds := attr_kinds (f_ty f) (f_attrs f) in
  if existsb (λ k, negb (is_ok k)) kinds then Err ParseError
  else match kinds with [] => Err FoundNone | [k] => k | _ => Err FoundMultiple end.

Definition other_attrs (f : Field) : list Attribute := List.filter (λ a, is_none (attr_kind (f_ty f) a)) (f_attrs f).
Definition push_kind (i : string) (k : Kind) : ContainerMembers → ContainerMembers :=
  match k with KInit e => push_init i e | KFacet t => push_facet i t | KDelegate t l => push_delegate i t l end.
Definition field_left (f : Field) (k : Kind) : Field :=
  {| f_ident := f_ident f; f_attrs := other_attrs f; f_ty := match k with KFacet t => ArcTy t | _ => f_ty f end |}.

Fixpoint named_spec (fs : list Field) (m : ContainerMembers) : result (ContainerMembers * list Field) Error :=
  match fs with
  | [] => Ok (m, [])
  | f :: fs =>
      match field_kind f with
      | Err e => Err e
      | Ok k =>
          match named_spec fs (push_kind (default EmptyString (f_ident f)) k m) with
          | Ok (m, fs) => Ok (m, field_left f k :: fs)
          | Err e => Err e
          end
      end
  end.

(** The members of the attributes of one kind each. *)
Lemma extract_attrs_spec attrs i ty seen others m :
  ∃ ty' m', extract_attrs attrs (Some i) ty seen others m =
    ret (if existsb (λ k, negb (is_ok k)) (attr_kinds ty attrs) then Err ParseError
         else Ok (ty', seen + length (attr_kinds ty attrs), others ++ List.filter (λ a, is_none (attr_kind ty a)) attrs, m')) ∧
    match attr_kinds ty attrs with
    | [] => ty' = ty ∧ m' = m
    | [Ok k] => ty' = (match k with KFacet t => ArcTy t | _ => ty end) ∧ m' = push_kind i k m
    | _ => True
    end.
Proof.
  revert ty seen others m. induction attrs as [|a attrs IH]; intros ty seen others m.
  { exists ty, m. simpl. by rewrite Nat.add_0_r, app_nil_r. }
  assert (∀ t t' : FieldTy, existsb (λ k, negb (is_ok k)) (attr_kinds t attrs) = existsb (λ k, negb (is_ok k)) (attr_kinds t' attrs)
    ∧ length (attr_kinds t attrs) = length (attr_kinds t' attrs)
    ∧ List.filter (λ a, is_none (attr_kind t a)) attrs = List.filter (λ a, is_none (attr_kind t' a)) attrs) as Hty.
  { intros t t'. clear IH. induction attrs as [|b attrs (H1&H2&H3)]; [done|].
    destruct b as [[e|]| |[l|]|x]; simpl; rewrite ?H1, ?H2, ?H3; auto. }
  destruct a as [[e|]| |[l|]|x]; cbn [extract_attrs expect exec_bind extract_delegate_facets].
  - destruct (IH ty (S seen) others (push_init i e m)) as (ty'&m'&->&Hm). exists ty', m'. simpl. rewrite Nat.add_succ_r.
    split; [done|]. destruct (attr_kinds ty attrs); naive_solver.
  - exists ty, m. simpl. split; [done|]. by destruct (attr_kinds ty attrs).
  - destruct (IH (ArcTy (with_bounds ty)) (S seen) others (push_facet i (with_bounds ty) m)) as (ty'&m'&->&Hm). exists ty', m'.
    destruct (Hty (ArcTy (with_bounds ty)) ty) as (H1&H2&H3). simpl. rewrite H1, H2, H3, Nat.add_succ_r. split; [done|].
    destruct (attr_kinds ty attrs); [|done]. destruct (attr_kinds (ArcTy (with_bounds ty)) attrs); [naive_solver|done].
  - destruct (IH ty (S seen) others (push_delegate i ty (with_bounds <$> l) m)) as (ty'&m'&->&Hm). exists ty', m'. simpl. rewrite Nat.add_succ_r.
    split; [done|]. destruct (attr_kinds ty attrs); naive_solver.
  - exists ty, m. simpl. split; [done|]. by destruct (attr_kinds ty attrs).
  - destruct (IH ty seen (others ++ [OtherAttr x]) m) as (ty'&m'&->&Hm). exists ty', m'. simpl. rewrite <-app_assoc. done.
Qed.

Lemma extract_named_spec fs m : Forall (λ f, is_Some (f_ident f)) fs → extract_named fs m = ret (named_spec fs m).
Proof.
  intros Hfs. revert m. induction Hfs as [|f fs [i Hi] Hfs IH]; intros m; [done|]. cbn [extract_named named_spec]. rewrite Hi. simpl.
  destruct (extract_attrs_spec (f_attrs f) i (f_ty f) 0 [] m) as (ty'&m'&->&Hk). unfold field_kind, field_left, other_attrs. simpl.
  destruct (existsb _ _) eqn:Hex; [done|]. destruct (attr_kinds _ _) as [|[k|e] [|? ?]]; simpl in *; [done| |done|done|done].
  destruct Hk as [-> ->]. rewrite IH. simpl. rewrite Hi. by destruct (named_spec fs _) as [[? ?]|].
Qed.

(** The members of fields with these names and kinds, in their order. *)
Definition init_of (ik : string * Kind) : option (string * Expr) := match ik with (i, KInit e) => Some (i, e) | _ => None end.
Definition facet_of (ik : string * Kind) : option (string * FieldTy) := match ik with (i, KFacet t) => Some (i, t) | _ => None end.
Definition delegate_of (ik : string * Kind) : option (string * (FieldTy * list FieldTy)) :=
  match ik with (i, KDelegate t l) => Some (i, (t, l)) | _ => None end.
Definition members_of (l : list (string * Kind)) : ContainerMembers :=
  {| container_type := NamedType;
     field_idents := (omap init_of l).*1; field_inits := (omap init_of l).*2;
     facet_idents := (omap facet_of l).*1; facet_types := (omap facet_of l).*2;
     delegate_idents := (omap delegate_of l).*1; delegate_types := (omap delegate_of l).*2.*1; delegate_facets := (omap delegate_of l).*2.*2 |}.

Lemma members_of_snoc l i k : members_of (l ++ [(i, k)]) = push_kind i k (members_of l).
Proof. unfold members_of. rewrite !omap_app. destruct k; simpl; by rewrite ?fmap_app, ?app_nil_r. Qed.

(** The kinds of all fields, or the first error. *)
Fixpoint field_kinds (fs : list Field) : result (list (string * Kind)) Error :=
  match fs with
  | [] => Ok []
  | f :: fs =>
      match field_kind f with
      | Err e => Err e
      | Ok k => match field_kinds fs with Ok l => Ok ((default EmptyString (f_ident f), k) :: l) | Err e => Err e end
      end
  end.

Lemma named_spec_kinds fs done_ :
  named_spec fs (members_of done_) =
  match field_kinds fs with
  | Ok l => Ok (members_of (done_ ++ l), zip_with (λ f ik, field_left f ik.2) fs l)
  | Err e => Err e
  end.
Proof.
  revert done_. induction fs as [|f fs IH]; intros done_; simpl; [by rewrite app_nil_r|]. destruct (field_kind f) as [k|e]; [|done].
  rewrite <-members_of_snoc, IH. destruct (field_kinds fs) as [l|e]; [|done]. simpl. by rewrite <-app_assoc.
Qed.

Lemma extract_unnamed_spec fs index m :
  let facets := imap (λ n f, (field_name (index + n), with_bounds (f_ty f))) fs in
  (extract_unnamed fs index m).1 =
  {| container_type := container_type m; field_idents := field_idents m; field_inits := field_inits m;
     facet_idents := facet_idents m ++ facets.*1; facet_types := facet_types m ++ facets.*2;
     delegate_idents := delegate_idents m; delegate_types := delegate_types m; delegate_facets := delegate_facets m |}.
Proof.
  revert index m. induction fs as [|f fs IH]; intros index m facets; [subst facets; simpl; rewrite !app_nil_r; by destruct m|].
  subst facets. cbn [extract_unnamed imap]. specialize (IH (S index) (push_facet (field_name index) (with_bounds (f_ty f)) m)).
  destruct (extract_unnamed fs (S index) _) as [m' rest]. simpl in *. rewrite IH. clear IH. rewrite Nat.add_0_r, <-!app_assoc.
  replace (imap ((λ n f, (field_name (index + n), with_bounds (f_ty f))) ∘ S) fs)
    with (imap (λ n f, (field_name (S index + n), with_bounds (f_ty f))) fs); [done|].
  apply imap_ext. intros n g _. simpl. by rewrite Nat.add_succ_r.
Qed.

(** * The code of a container *)

(** Where a facet is: in a field, by its name or its position, or in a delegate. *)
Inductive Access := ByField (ident : string) | ByIndex (index : nat) | ByDelegate (ident : string).

(** The struct's expression lists delegates, other fields and facets; [build_from] has the facets
    before the other fields. *)
Record ContainerCode := {
  cc_type : ContainerType;
  cc_delegates : list (string * FieldTy);
  cc_facets : list (string * FieldTy);
  cc_inits : list (string * Expr);
  cc_impls : list (FieldTy * Access);
  cc_like : list FieldTy;
}.

Definition gen_attr_impls (m : ContainerMembers) : list (FieldTy * Access) :=
  imap (λ index '(i, t), (t, match container_type m with NamedType => ByField i | UnnamedType => ByIndex index end))
    (zip (facet_idents m) (facet_types m)) ++
  (zip (delegate_idents m) (delegate_facets m) ≫= λ '(i, l), (λ t, (t, ByDelegate i)) <$> l).

Definition gen_like_trait (m : ContainerMembers) : list FieldTy := facet_types m ++ List.concat (delegate_facets m).

Definition gen_container (container : ItemStruct) : exec (result (ItemStruct * ContainerCode) Error) :=
  let! r := extract container in
  ret (match r with
       | Ok (m, container) =>
           Ok (container, {| cc_type := container_type m; cc_delegates := zip (delegate_idents m) (delegate_types m);
                             cc_facets := zip (facet_idents m) (facet_types m); cc_inits := zip (field_idents m) (field_inits m);
                             cc_impls := gen_attr_impls m; cc_like := gen_like_trait m |})
       | Err e => Err e
       end).
End macro.
Arguments ContainerCode Expr : clear implicits.
Arguments ItemStruct Expr : clear implicits.
Arguments Field Expr : clear implicits.

(** * Containers at run time *)

Section run.
Context {Expr V I : Type} (eval : Expr → I).

Inductive Val := VFacet (v : V) | VDelegate (o : Obj) | VInit (i : I)
with Obj := MkObj (fields : list (string * Val)).

(** A container with the containers that are its delegates; an [Arc] of one is one. *)
Inductive Def := MkDef (code : ContainerCode Expr) (delegates : list Def).
Definition code_of (d : Def) : ContainerCode Expr := match d with MkDef code _ => code end.

Definition facet_fields (code : ContainerCode Expr) (f : FieldTy → V) : list (string * Val) := (λ '(i, t), (i, VFacet (f t))) <$> cc_facets code.
Definition init_fields (code : ContainerCode Expr) : list (string * Val) := (λ '(i, e), (i, VInit (eval e))) <$> cc_inits code.
Definition delegate_fields (code : ContainerCode Expr) (os : list Obj) : list (string * Val) :=
  zip_with (λ '(i, _) o, (i, VDelegate o)) (cc_delegates code) os.

(** [BuildFrom::build_from]; [other] gives its facets. *)
Fixpoint build_from (d : Def) (other : FieldTy → V) : Obj :=
  match d with
  | MkDef code ds =>
      MkObj (delegate_fields code ((λ d, build_from d other) <$> ds) ++ facet_fields code other ++ init_fields code)
  end.

Definition all_some2 {A B C} (f : A → B → option C) : list A → list B → option (list C) :=
  fix go l k := match l, k with
    | [], [] => Some []
    | a :: l, b :: k => c ← f a b; cs ← go l k; Some (c :: cs)
    | _, _ => None
    end.

(** The end of [Buildable::build] and of [AsyncBuildable::construct]: the struct's expression, with
    what FacetSync.v and FacetAsync.v say they have built. *)
Fixpoint assemble (d : Def) (b : FacetSync.Built V) : option Obj :=
  match d, b with
  | MkDef code ds, FacetSync.MkBuilt bs vs =>
      os ← all_some2 assemble ds bs;
      Some (MkObj (delegate_fields code os ++ init_fields code ++ zip_with (λ '(i, _) v, (i, VFacet v)) (cc_facets code) vs))
  end.

Definition field (i : string) (fs : list (string * Val)) : option Val := (list_to_map fs : gmap string Val) !! i.
Definition access_of (code : ContainerCode Expr) (t : FieldTy) : option Access :=
  snd ∘ snd <$> list_find (λ x, x.1 = t) (cc_impls code).

(** The delegate in a field. *)
Definition pick (i : string) (f : Def → option V) : list (string * FieldTy) → list Def → option V :=
  fix go delegates ds {struct ds} :=
    match delegates, ds with
    | (j, _) :: delegates, d :: ds => if decide (i = j) then f d else go delegates ds
    | _, _ => None
    end.

(** [FacetArc::facet_arc]; [facet_ref] is a reference to the same facet. *)
Fixpoint facet_arc (d : Def) (o : Obj) (t : FieldTy) : option V :=
  match d, o with
  | MkDef code ds, MkObj fs =>
      match access_of code t with
      | Some (ByField i) => match field i fs with Some (VFacet v) => Some v | _ => None end
      | Some (ByIndex n) => match fs !! n with Some (_, VFacet v) => Some v | _ => None end
      | Some (ByDelegate i) =>
          match field i fs with
          | Some (VDelegate o) => pick i (λ d, facet_arc d o t) (cc_delegates code) ds
          | _ => None
          end
      | None => None
      end
  end.

(** The facets that a container implements [FacetArc] for. *)
Definition provides (d : Def) : list FieldTy := (cc_impls (code_of d)).*1.

(** What rustc checks of the generated code: the names of fields and the types of the
    implementations are distinct, and delegates have the facets that their attribute lists.  The
    parser has given named fields their names. *)
Definition named (container : ItemStruct Expr) : Prop :=
  match fields container with Named fs => Forall (λ f, is_Some (f_ident f)) fs | _ => True end.

Inductive checks : Def → Prop :=
| checks_def container left code ds :
    named container → gen_container container = ret (Ok (left, code)) →
    NoDup ((cc_delegates code).*1 ++ (cc_facets code).*1 ++ (cc_inits code).*1) →
    NoDup (cc_impls code).*1 →
    length ds = length (cc_delegates code) →
    (∀ n d, ds !! n = Some d → checks d) →
    (∀ n i t d l, cc_delegates code !! n = Some (i, t) → ds !! n = Some d → (l, ByDelegate i) ∈ cc_impls code → l ∈ provides d) →
    checks (MkDef code ds).

(** ** The members and the code *)

Lemma extract_named_members container m left : named container → extract container = ret (Ok (m, left)) →
  match fields container with
  | Named fs => ∃ l, field_kinds fs = Ok l ∧ m = members_of l ∧ left = {| struct_ident := struct_ident container; fields := Named (zip_with (λ f ik, field_left f ik.2) fs l) |}
  | Unnamed fs => m = {| container_type := UnnamedType; field_idents := []; field_inits := [];
      facet_idents := imap (λ n _, field_name n) fs; facet_types := with_bounds ∘ f_ty <$> fs;
      delegate_idents := []; delegate_types := []; delegate_facets := [] |}
  | Unit => False
  end.
Proof.
  unfold named, extract. destruct (fields container) as [fs|fs|]; [| |done].
  - intros Hn. rewrite extract_named_spec by done. change (no_members NamedType) with (members_of (Expr:=Expr) []).
    rewrite named_spec_kinds. destruct (field_kinds fs) as [l|e]; simpl; [|done]. intros [= <- <-]. by exists l.
  - intros _ Hx. pose proof (extract_unnamed_spec fs 0 (no_members UnnamedType)) as Hs.
    destruct (extract_unnamed fs 0 _) as [m' fs']. simpl in Hx. injection Hx as <- _. simpl in Hs. subst m'. f_equal.
    + rewrite fmap_imap. apply imap_ext. done.
    + rewrite fmap_imap. clear. induction fs as [|f fs IH]; [done|]. simpl. f_equal. exact IH.
Qed.

Lemma gen_container_code container left code : named container → gen_container container = ret (Ok (left, code)) →
  (∀ t i, (t, ByField i) ∈ cc_impls code → (i, t) ∈ cc_facets code) ∧
  (∀ t n, (t, ByIndex n) ∈ cc_impls code → ∃ i, cc_facets code !! n = Some (i, t) ∧ cc_delegates code = [] ∧ cc_inits code = []) ∧
  (∀ t i, (t, ByDelegate i) ∈ cc_impls code → i ∈ (cc_delegates code).*1).
Proof.
  intros Hn. unfold gen_container. destruct (extract container) as [r|] eqn:Hx; [|done]. simpl. destruct r as [[m left']|e]; [|done].
  intros [= -> <-]. simpl. pose proof (extract_named_members _ _ _ Hn Hx) as Hm.
  assert (∀ t a, (t, a) ∈ gen_attr_impls m →
    (∃ n i, zip (facet_idents m) (facet_types m) !! n = Some (i, t) ∧ a = match container_type m with NamedType => ByField i | UnnamedType => ByIndex n end) ∨
    (∃ i l, (i, l) ∈ zip (delegate_idents m) (delegate_facets m) ∧ a = ByDelegate i)) as Hattr.
  { intros t a [Ha|Ha]%elem_of_app.
    - apply elem_of_lookup_imap in Ha as (n&[i t']&[= -> ->]&Ha). left. by exists n, i.
    - apply list_elem_of_bind in Ha as ([i l]&Ha&Hl). apply list_elem_of_fmap in Ha as (t'&[= -> ->]&_). right. by exists i, l. }
  split_and!.
  - intros t i [(n&j&Hl&Ht)|(j&l&_&?)]%Hattr; [|done]. destruct (container_type m); [|done]. simplify_eq. by apply list_elem_of_lookup_2 in Hl.
  - intros t n [(n'&j&Hl&Ht)|(j&l&_&?)]%Hattr; [|done]. destruct (fields container) as [fs|fs|]; [| |done].
    + destruct Hm as (l&_&->&_). done.
    + subst m. simpl in *. simplify_eq. by exists j.
  - intros t i [(n&j&_&Ht)|(j&l&Hl&[= ->])]%Hattr; [by destruct (container_type m)|]. destruct (fields container) as [fs|fs|]; [| |done].
    + destruct Hm as (k&_&->&_). simpl in *. rewrite fst_zip by (by rewrite !length_fmap).
      by apply elem_of_zip_l in Hl.
    + subst m. simpl in Hl. by apply elem_of_nil in Hl.
Qed.

(** ** The facets of an object *)

Lemma def_induction (P : Def → Prop) : (∀ code ds, (∀ n d, ds !! n = Some d → P d) → P (MkDef code ds)) → ∀ d, P d.
Proof.
  intros HP. fix IH 1. intros [code ds]. apply HP. induction ds as [|d ds IHds]; intros n d' Hd; [discriminate Hd|].
  destruct n as [|n]; [injection Hd as <-; apply IH|exact (IHds n d' Hd)].
Qed.

(** An object of [d] whose facets, and those of its delegates, are [f]'s. *)
Definition facet_field (f : FieldTy → option V) (it : string * FieldTy) (x : string * Val) : Prop :=
  ∃ v, f it.2 = Some v ∧ x = (it.1, VFacet v).

Inductive holds (f : FieldTy → option V) : Def → Obj → Prop :=
| holds_obj code ds fs :
    NoDup fs.*1 →
    (∀ i t, (i, t) ∈ cc_facets code → ∃ x, facet_field f (i, t) x ∧ x ∈ fs) →
    (∀ n i t, cc_delegates code = [] → cc_inits code = [] → cc_facets code !! n = Some (i, t) → ∃ x, facet_field f (i, t) x ∧ fs !! n = Some x) →
    (∀ n i t d, cc_delegates code !! n = Some (i, t) → ds !! n = Some d → ∃ o, (i, VDelegate o) ∈ fs ∧ holds f d o) →
    holds f (MkDef code ds) (MkObj fs).

Lemma field_in i v (fs : list (string * Val)) : NoDup fs.*1 → (i, v) ∈ fs → field i fs = Some v.
Proof. intros Hnd Hi. by apply elem_of_list_to_map_1. Qed.

Lemma pick_at i (g : Def → option V) delegates ds n t d :
  NoDup delegates.*1 → delegates !! n = Some (i, t) → ds !! n = Some d → pick i g delegates ds = g d.
Proof.
  revert ds n. induction delegates as [|[j u] delegates IH]; intros ds n Hnd Hi Hd; [done|].
  apply NoDup_cons in Hnd as [Hj Hnd]. destruct ds as [|d' ds]; [done|]. simpl. destruct n as [|n]; simpl in *.
  - simplify_eq. by rewrite decide_True.
  - rewrite decide_False; [by apply (IH ds n)|]. intros ->. apply Hj. apply list_elem_of_fmap. exists (j, t). split; [done|].
    by eapply list_elem_of_lookup_2.
Qed.

Lemma access_in code t : t ∈ (cc_impls (Expr:=Expr) code).*1 → ∃ a, access_of code t = Some a ∧ (t, a) ∈ cc_impls code.
Proof.
  intros ([t' a]&->&Ht)%list_elem_of_fmap. unfold access_of.
  destruct (list_find_elem_of (λ x, x.1 = t') (cc_impls code) (t', a)) as [[n [u b]] Hf]; [done|done|]. simpl. rewrite Hf. simpl.
  apply list_find_Some in Hf as (Hl&Hu&_). simpl in Hu. subst u. exists b. split; [done|]. by eapply list_elem_of_lookup_2.
Qed.

Lemma facet_arc_holds f d o : checks d → holds f d o → ∀ t, t ∈ provides d → is_Some (f t) ∧ facet_arc d o t = f t.
Proof.
  revert o. induction d as [code ds IH] using def_induction. intros o Hc Ho t Ht.
  inversion Hc as [container left code' ds' Hn Hg Hnd Himpl Hlen Hds Hdel]; subst. inversion Ho as [code' ds' fs Hfs Hfac Hpos Hdels]; subst.
  destruct (gen_container_code _ _ _ Hn Hg) as (H1&H2&H3). destruct (access_in code t Ht) as (a&Ha&Hin). simpl. rewrite Ha. destruct a as [i|n|i].
  - destruct (Hfac _ _ (H1 _ _ Hin)) as (x&(v&Hv&->)&Hx). simpl in *. rewrite (field_in _ _ _ Hfs Hx), Hv. by split; [eexists|].
  - destruct (H2 _ _ Hin) as (i&Hi&E1&E2). destruct (Hpos _ _ _ E1 E2 Hi) as (x&(v&Hv&->)&Hx). simpl in *. rewrite Hx, Hv. by split; [eexists|].
  - apply H3 in Hin as Hi. apply list_elem_of_fmap in Hi as ([i' u]&Heq&[n Hi]%list_elem_of_lookup). simpl in Heq. subst i'.
    destruct (lookup_lt_is_Some_2 ds n) as [d Hd]; [rewrite Hlen; by eapply lookup_lt_Some|].
    destruct (Hdels _ _ _ _ Hi Hd) as (o&Ho'&Hh). rewrite (field_in _ _ _ Hfs Ho').
    apply NoDup_app in Hnd as [Hnd _]. rewrite (pick_at i _ _ _ n u d Hnd Hi Hd). apply (IH n d Hd); [by eapply Hds|done|]. by eapply Hdel.
Qed.

Lemma delegate_fields_names code os : length os = length (cc_delegates code) → (delegate_fields code os).*1 = (cc_delegates code).*1.
Proof.
  unfold delegate_fields. generalize (cc_delegates code). clear. intros l. revert os.
  induction l as [|[i t] l IH]; intros [|o os] Hl; simpl in *; try done. f_equal. apply IH. lia.
Qed.
Lemma facet_field_names f its xs : Forall2 (facet_field f) its xs → xs.*1 = its.*1.
Proof. induction 1 as [|it x its xs (v&_&->) _ IH]; [done|]. simpl. f_equal. exact IH. Qed.
Lemma init_fields_names code : (init_fields code).*1 = (cc_inits code).*1.
Proof. unfold init_fields. rewrite <-list_fmap_compose. apply list_fmap_ext. by intros ? [? ?]. Qed.

Lemma delegate_fields_in code os n i t o : cc_delegates code !! n = Some (i, t) → os !! n = Some o → (i, VDelegate o) ∈ delegate_fields code os.
Proof. intros Hi Ho. unfold delegate_fields. apply elem_of_lookup_zip_with. by exists n, (i, t), o. Qed.

(** The struct's expressions, in either order of fields. *)
Lemma holds_fields f code ds os xs fs :
  Forall2 (facet_field f) (cc_facets code) xs → length os = length (cc_delegates code) → NoDup ((cc_delegates code).*1 ++ (cc_facets code).*1 ++ (cc_inits code).*1) →
  (fs = delegate_fields code os ++ xs ++ init_fields code ∨ fs = delegate_fields code os ++ init_fields code ++ xs) →
  (∀ n d, ds !! n = Some d → ∃ o, os !! n = Some o ∧ holds f d o) →
  holds f (MkDef code ds) (MkObj fs).
Proof.
  intros Hxs Hlen Hnd Hfs Hos. assert (fs ≡ₚ delegate_fields code os ++ xs ++ init_fields code) as Hp.
  { destruct Hfs as [->| ->]; [done|]. by rewrite (Permutation_app_comm (init_fields code)). }
  constructor.
  - rewrite Hp, !fmap_app, delegate_fields_names, (facet_field_names f _ _ Hxs), init_fields_names by done. done.
  - intros i t [n Hi]%list_elem_of_lookup. destruct (Forall2_lookup_l _ _ _ _ _ Hxs Hi) as (x&Hx&Hf). exists x. split; [done|].
    rewrite Hp. apply elem_of_app. right. apply elem_of_app. left. by eapply list_elem_of_lookup_2.
  - intros n i t Hd Hi Hl. destruct os; [|by rewrite Hd in Hlen]. unfold delegate_fields, init_fields in Hfs. rewrite Hd, Hi in Hfs. simpl in Hfs.
    assert (fs = xs) as -> by (destruct Hfs; [by rewrite app_nil_r in *|done]).
    destruct (Forall2_lookup_l _ _ _ _ _ Hxs Hl) as (x&Hx&Hf). by exists x.
  - intros n i t d Hi Hd. destruct (Hos n d Hd) as (o&Ho&Hh). exists o. split; [|done]. rewrite Hp. apply elem_of_app. left. by eapply delegate_fields_in.
Qed.

Lemma build_from_holds other d : checks d → holds (Some ∘ other) d (build_from d other).
Proof.
  induction d as [code ds IH] using def_induction. intros Hc. inversion Hc as [container left code' ds' Hn Hg Hnd Himpl Hlen Hds Hdel]; subst.
  simpl. apply (holds_fields _ _ _ ((λ d, build_from d other) <$> ds) (facet_fields code other)); [|by rewrite length_fmap|done|by left|].
  { unfold facet_fields. apply Forall2_fmap_r, Forall_Forall2_diag, Forall_true. intros [i t]. by exists (other t). }
  intros n d Hd. exists (build_from d other). split; [by rewrite list_lookup_fmap, Hd|]. apply (IH n); [done|by eapply Hds].
Qed.

(** ** Building from a factory *)

Context (facet_name : FieldTy → string).

(** The container as FacetSync.v and FacetAsync.v know it. *)
Fixpoint as_container (d : Def) : FacetSync.Container :=
  match d with MkDef code ds => FacetSync.MkContainer (as_container <$> ds) ((λ '(_, t), facet_name t) <$> cc_facets code) end.

Lemma all_some_lookup {A B} (f : A → option B) l k : FacetSync.all_some f l = Some k →
  length k = length l ∧ ∀ n a, l !! n = Some a → ∃ b, k !! n = Some b ∧ f a = Some b.
Proof.
  revert k. induction l as [|a l IH]; intros k; simpl; [by intros [= <-]|]. destruct (f a) as [b|] eqn:Hf; [|done]. simpl.
  destruct (FacetSync.all_some f l) as [k'|] eqn:Hk; [|done]. simpl. intros [= <-]. destruct (IH k' eq_refl) as [Hl Hn].
  simpl. split; [by rewrite Hl|]. intros [|n] x; simpl; [intros [= <-]; by exists b|apply Hn].
Qed.

Lemma all_some2_lookup {A B C} (f : A → B → option C) (Q : A → C → Prop) l k :
  length k = length l → (∀ n a b, l !! n = Some a → k !! n = Some b → ∃ c, f a b = Some c ∧ Q a c) →
  ∃ cs, all_some2 f l k = Some cs ∧ length cs = length l ∧ ∀ n a, l !! n = Some a → ∃ c, cs !! n = Some c ∧ Q a c.
Proof.
  revert k. induction l as [|a l IH]; intros [|b k] Hl Hf; simpl in *; try done; [by exists []|].
  destruct (Hf 0 a b eq_refl eq_refl) as (c&->&Hq). destruct (IH k) as (cs&->&Hcs&Hn); [lia|intros n; apply (Hf (S n))|]. simpl.
  exists (c :: cs). split; [done|]. split; [simpl; lia|]. intros [|n] x; simpl; [intros [= <-]; by exists c|apply Hn].
Qed.

Lemma assemble_holds facets d b : checks d → FacetSync.container_of facets (as_container d) = Some b →
  ∃ o, assemble d b = Some o ∧ holds (λ t, facets !! facet_name t) d o.
Proof.
  revert b. induction d as [code ds IH] using def_induction. intros b Hc Hb.
  inversion Hc as [container left code' ds' Hn Hg Hnd Himpl Hlen Hds Hdel]; subst. simpl in Hb.
  destruct (FacetSync.all_some (FacetSync.container_of facets) _) as [bs|] eqn:Hbs; [|done]. simpl in Hb.
  destruct (FacetSync.all_some (λ x, facets !! x) _) as [vs|] eqn:Hvs; [|done]. injection Hb as <-.
  destruct (all_some_lookup _ _ _ Hbs) as [Hl1 Hn1]. destruct (all_some_lookup _ _ _ Hvs) as [Hl2 Hn2]. rewrite !length_fmap in *.
  destruct (all_some2_lookup assemble (holds (λ t, facets !! facet_name t)) ds bs Hl1) as (os&Hos&Hlos&Hlook).
  { intros n d b Hd Hb. destruct (Hn1 n (as_container d)) as (b'&Hb'&Hco); [by rewrite list_lookup_fmap, Hd|].
    rewrite Hb in Hb'. injection Hb' as <-. apply (IH n); [done|by eapply Hds|done]. }
  simpl. rewrite Hos. simpl. eexists. split; [reflexivity|].
  eapply (holds_fields _ _ _ os); [|by rewrite Hlos|done|right; reflexivity|done].
  revert vs Hl2 Hn2 Hvs. generalize (cc_facets code) as l. clear. induction l as [|[i t] l IHl]; intros [|v vs] Hl2 Hn2 Hvs; simpl in *; try done.
  destruct (Hn2 0 (facet_name t) eq_refl) as (v'&[= ->]&Hv). constructor; [by exists v'|].
  rewrite Hv in Hvs. simpl in Hvs. destruct (FacetSync.all_some _ _) as [vs'|] eqn:Hvs'; [|done]. injection Hvs as <-.
  apply IHl; [lia|intros n; apply (Hn2 (S n))|done].
Qed.

(** A container gives the facets it was made from: one that a factory built gives, for every
    facet it has an implementation for, its own and its delegates', the one instance that the
    factory made, and one that is built from another object gives that object's. *)
Theorem container_gives_facets d : checks d →
  (∀ other t, t ∈ provides d → facet_arc d (build_from d other) t = Some (other t)) ∧
  (∀ facets b, FacetSync.container_of facets (as_container d) = Some b →
    ∃ o, assemble d b = Some o ∧ ∀ t, t ∈ provides d → is_Some (facet_arc d o t) ∧ facet_arc d o t = facets !! facet_name t).
Proof.
  intros Hc. split.
  - intros other t Ht. by destruct (facet_arc_holds _ _ _ Hc (build_from_holds other d Hc) t Ht) as [_ ->].
  - intros facets b Hb. destruct (assemble_holds facets d b Hc Hb) as (o&Ho&Hh). exists o. split; [done|].
    intros t Ht. destruct (facet_arc_holds _ _ _ Hc Hh t Ht) as [? Heq]. by rewrite Heq.
Qed.
End run.

(** * Accessors *)

Section accessors.
(** Characters, and the two functions of [char] that the code uses. *)
Context {Char : Type} (is_uppercase : Char → bool) (to_lowercase : Char → list Char) (underscore : Char).

(** [snakify_pascal_case]. *)
Definition snakify_step (snake : list Char) (ch : Char) : list Char :=
  if is_uppercase ch then (if is_nil snake then snake else snake ++ [underscore]) ++ to_lowercase ch else snake ++ [ch].
Definition snakify_pascal_case (pascal : list Char) : list Char := foldl snakify_step [] pascal.

Inductive Item := ItemTrait (ident : list Char) | ItemStructure (ident : list Char) | ItemEnum (ident : list Char) | ItemOther.
Record Accessors := {
  facet_is_dyn : bool;
  trait_ref_name : list Char; trait_ref_method : list Char;
  trait_arc_name : list Char; trait_arc_method : list Char;
  arc_trait_name : list Char;
}.

(** [gen_attribute]; the words are [Ref], [Arc] and [_arc]. *)
Definition gen_attribute (ref_ arc_ arc_suffix : list Char) (facet : Item) : result Accessors Error :=
  let accessors is_dyn name :=
    let snake := snakify_pascal_case name in
    Ok {| facet_is_dyn := is_dyn; trait_ref_name := name ++ ref_; trait_ref_method := snake;
          trait_arc_name := name ++ arc_; trait_arc_method := snake ++ arc_suffix; arc_trait_name := arc_ ++ name |} in
  match facet with
  | ItemTrait name => accessors true name
  | ItemStructure name | ItemEnum name => accessors false name
  | ItemOther => Err ExpectedItem
  end.

(** Reading a snake case name back: the character after an underscore was a capital. *)
Context (lower upper : Char → Char) `{!EqDecision Char}.
Context (lower_spec : ∀ c, is_uppercase c = true → to_lowercase c = [lower c] ∧ upper (lower c) = c ∧ lower c ≠ underscore).

Fixpoint pascal_rest (snake : list Char) : list Char :=
  match snake with
  | [] => []
  | c :: (d :: snake') as rest => if decide (c = underscore) then upper d :: pascal_rest snake' else c :: pascal_rest rest
  | [c] => [c]
  end.

(** What a name becomes after its first character. *)
Fixpoint snake_rest (pascal : list Char) : list Char :=
  match pascal with
  | [] => []
  | c :: pascal => if is_uppercase c then underscore :: lower c :: snake_rest pascal else c :: snake_rest pascal
  end.

Lemma snakify_rest x snake pascal : foldl snakify_step (x :: snake) pascal = (x :: snake) ++ snake_rest pascal.
Proof.
  revert x snake. induction pascal as [|c pascal IH]; intros x snake; simpl; [by rewrite app_nil_r|].
  unfold snakify_step at 2. simpl. destruct (is_uppercase c) eqn:Hc.
  - destruct (lower_spec c Hc) as [-> _]. simpl. rewrite IH. simpl. by rewrite <-!app_assoc.
  - rewrite IH. simpl. by rewrite <-app_assoc.
Qed.

Lemma pascal_snake_rest pascal : Forall (λ c, c ≠ underscore) pascal → pascal_rest (snake_rest pascal) = pascal.
Proof.
  induction 1 as [|c pascal Hc Hp IH]; [done|]. cbn [snake_rest]. destruct (is_uppercase c) eqn:Hu.
  - destruct (lower_spec c Hu) as (_&Hl&_). cbn [pascal_rest]. destruct (decide (underscore = underscore)); [|done]. by rewrite Hl, IH.
  - rewrite <-IH at 2. destruct (snake_rest pascal) as [|d r]; [done|]. cbn [pascal_rest]. by destruct (decide (c = underscore)).
Qed.

(** The methods of two facets with names in Pascal case have different names. *)
Lemma snakify_injective c d p q :
  is_uppercase c = true → is_uppercase d = true → Forall (λ c, c ≠ underscore) p → Forall (λ c, c ≠ underscore) q →
  snakify_pascal_case (c :: p) = snakify_pascal_case (d :: q) → c :: p = d :: q.
Proof.
  intros Hc Hd Hp Hq. unfold snakify_pascal_case. simpl. unfold snakify_step at 2 4. simpl. rewrite Hc, Hd.
  destruct (lower_spec c Hc) as (->&Hc'&_), (lower_spec d Hd) as (->&Hd'&_). rewrite !snakify_rest. simpl. intros [= Hl Hr].
  rewrite <-Hc', <-Hd', Hl. f_equal. by rewrite <-(pascal_snake_rest p Hp), <-(pascal_snake_rest q Hq), Hr.
Qed.
End accessors.

(** * A container with all kinds of fields *)

Section demo.
#[local] Open Scope string_scope.
Definition demo_inner : ItemStruct string :=
  {| struct_ident := "Inner"; fields := Unnamed [{| f_ident := None; f_attrs := []; f_ty := OtherTy "A" |}] |}.
Definition demo_outer : ItemStruct string :=
  {| struct_ident := "Outer"; fields := Named [
    {| f_ident := Some "b"; f_attrs := [OtherAttr "doc"; FacetAttr]; f_ty := TraitObject ["B"] |};
    {| f_ident := Some "n"; f_attrs := [Init (Some "0")]; f_ty := OtherTy "u64" |};
    {| f_ident := Some "inner"; f_attrs := [DelegateAttr (Some [OtherTy "A"])]; f_ty := OtherTy "Inner" |}] |}.
Definition demo_code (container : ItemStruct string) : ContainerCode string :=
  match gen_container container with
  | ret (Ok (_, code)) => code
  | _ => {| cc_type := NamedType; cc_delegates := []; cc_facets := []; cc_inits := []; cc_impls := []; cc_like := [] |}
  end.
Definition demo_def : Def := MkDef (demo_code demo_outer) [MkDef (demo_code demo_inner) []].
Definition demo_dyn : FieldTy := TraitObject ["B"; "Send"; "Sync"; "'static"].
Definition demo_name (t : FieldTy) : string := match t with TraitObject (n :: _) => n | OtherTy n => n | _ => EmptyString end.

Lemma demo_checks : checks demo_def.
Proof.
  eapply checks_def; [| |by apply (bool_decide_unpack _)|by apply (bool_decide_unpack _)|done| |].
  - instantiate (1 := demo_outer). repeat constructor; by eexists.
  - reflexivity.
  - intros [|n] d; simpl; [|by rewrite lookup_nil]. intros [= <-].
    eapply checks_def; [| |by apply (bool_decide_unpack _)|by apply (bool_decide_unpack _)|done|done|done].
    + instantiate (1 := demo_inner). done.
    + reflexivity.
  - intros [|n] i t d l Hi Hd Hl; simpl in *; [|by rewrite lookup_nil in Hd]. injection Hd as <-. change ((l, ByDelegate i) ∈ [(demo_dyn, ByField "b"); (OtherTy "A", ByDelegate "inner")]) in Hl. change (l ∈ [OtherTy "A"]). set_solver.
Qed.

Lemma container_gives_facets_witness :
  facet_arc demo_def (build_from (λ s, s) demo_def (λ t, demo_name t ++ "!")) demo_dyn = Some "B!" ∧
  ∃ o, assemble (λ s, s) demo_def (FacetSync.MkBuilt [FacetSync.MkBuilt [] [1]] [2]) = Some o ∧
    facet_arc demo_def o (OtherTy "A") = Some 1.
Proof.
  destruct (container_gives_facets (V:=string) (λ s, s) demo_name demo_def demo_checks) as [H1 _].
  destruct (container_gives_facets (V:=nat) (λ s, s) demo_name demo_def demo_checks) as [_ H2].
  split; [apply H1; by apply (bool_decide_unpack _)|].
  destruct (H2 {["A" := 1; "B" := 2]} (FacetSync.MkBuilt [FacetSync.MkBuilt [] [1]] [2]) ltac:(by vm_compute)) as (o&Ho&Ht).
  exists o. split; [done|]. destruct (Ht (OtherTy "A")) as [_ Heq]; [by apply (bool_decide_unpack _)|]. rewrite Heq. reflexivity.
Defined.
End demo.
End FacetContainer.
