(* ===== verification/Futures01Buffered.v ===== *)
(** The weight-limited buffered stream of [futures_01_ext] (src/shed/futures_01_ext/src/lib.rs), for
    futures and streams of futures 0.1: as many futures of a stream run at a time as a count and
    a total weight allow, and their values come out in the order of the stream.

    An error of the stream or of a future comes out at once.  A future that fails keeps its weight:
    the theorems say what is promised in spite of that, and when the stream gets stuck by it. *)
From S2P Require Import Prelude RustStd Streams WeightLimited Futures01.
Import Futures01.Batch Futures01.Adaptors.

#[local] Open Scope Z_scope.

(** * The queue *)

(** [stream::FuturesOrdered] of futures 0.1.  Values come out oldest first; the error of any of the
    futures comes out when it fails, and that future is gone. *)
Class FuturesOrdered01 (F O E W : Type) {FF : Future01 F O E W} := {
  fo01 : Type;
  fo01_new : fo01;
  fo01_push : F → fo01 → fo01;
  fo01_len : fo01 → nat;
  fo01_poll : fo01 → W → result (Poll (option O)) E * fo01 * W;
  fo01_futs : fo01 → list F;
  fo01_futs_new : fo01_futs fo01_new = [];
  fo01_futs_push f q : fo01_futs (fo01_push f q) = fo01_futs q ++ [f];
  fo01_len_futs q : fo01_len q = length (fo01_futs q);
  fo01_poll_spec q w :
    match fo01_poll q w with
    | (Ok (Ready None), q', _) => fo01_futs q = [] ∧ fo01_futs q' = []
    | (Ok (Ready (Some v)), q', _) => ∃ f fs, fo01_futs q = f :: fs ∧ comes_to f (Ok v) ∧ Forall2 waits01 fs (fo01_futs q')
    | (Ok Pending, q', _) => fo01_futs q ≠ [] ∧ Forall2 waits01 (fo01_futs q) (fo01_futs q')
    | (Err e, q', _) =>
        ∃ l1 f l2, fo01_futs q = l1 ++ f :: l2 ∧ comes_to f (Err e) ∧ Forall2 waits01 (l1 ++ l2) (fo01_futs q')
    end;
}.

(** Pending futures that become others stay what they can come to. *)
Section waits.
Context {F O E W : Type} {FF : Future01 F O E W}.

Lemma waits01_step (f f' : F) w w' : future_poll01 f w = (Ok Pending, f', w') → waits01 f f'.
Proof. intros Hp. apply rtc_once. eauto. Qed.

Lemma waits01_comes (f f' : F) r : waits01 f f' → comes_to f' r → comes_to f r.
Proof. intros Hf (g&h&w&w'&Hg&Hp). exists g, h, w, w'. split; [by etrans|done]. Qed.

Lemma waits01_refl (fs : list F) : Forall2 waits01 fs fs.
Proof. induction fs; constructor; [apply rtc_refl|done]. Qed.

(** An instance: a list of futures of which only the oldest is polled. *)
Definition in_turn01_poll (q : list F) (w : W) : result (Poll (option O)) E * list F * W :=
  match q with
  | [] => (Ok (Ready None), [], w)
  | f :: fs =>
      match future_poll01 f w with
      | (Ok (Ready o), _, w) => (Ok (Ready (Some o)), fs, w)
      | (Ok Pending, f, w) => (Ok Pending, f :: fs, w)
      | (Err e, _, w) => (Err e, fs, w)
      end
  end.

#[export] Program Instance in_turn01 : FuturesOrdered01 F O E W | 100 := {|
  fo01 := list F; fo01_new := []; fo01_push f q := q ++ [f]; fo01_len := length;
  fo01_poll := in_turn01_poll; fo01_futs q := q;
|}.
Next Obligation. done. Qed.
Next Obligation. done. Qed.
Next Obligation. done. Qed.
Next Obligation.
  intros [|f fs] w; simpl; [done|]. destruct (future_poll01 f w) as [[[[o|]|e] f'] w'] eqn:Hf; simpl.
  - exists f, fs. split; [done|]. split; [exists f, f', w, w'; split; [apply rtc_refl|done]|apply waits01_refl].
  - split; [done|]. constructor; [by eapply waits01_step|apply waits01_refl].
  - exists [], f, fs. split; [done|]. split; [exists f, f', w, w'; split; [apply rtc_refl|done]|apply waits01_refl].
Qed.
End waits.

(** ** [s.map(move |val| (val, weight)).boxify()] *)

Record mapped (Fut : Type) := { map_fut : Fut; map_weight : Z }.
Arguments Build_mapped {Fut}.
Arguments map_fut {Fut}.
Arguments map_weight {Fut}.

Section mapped.
Context {Fut I E W : Type} {FF : Future01 Fut I E W}.

#[export] Instance mapped_future : Future01 (mapped Fut) (I * Z) E W := λ b w,
  match future_poll01 (map_fut b) w with
  | (Ok (Ready val), f, w) => (Ok (Ready (val, map_weight b)), Build_mapped f (map_weight b), w)
  | (Ok Pending, f, w) => (Ok Pending, Build_mapped f (map_weight b), w)
  | (Err e, f, w) => (Err e, Build_mapped f (map_weight b), w)
  end.

Lemma mapped_waits b b' : waits01 b b' → map_weight b' = map_weight b ∧ waits01 (map_fut b) (map_fut b').
Proof.
  induction 1 as [b|b b1 b2 (w&w'&Hs) _ [Hw Hf]]; [split; [done|apply rtc_refl]|].
  unfold future_poll01 at 1, mapped_future in Hs. destruct (future_poll01 (map_fut b) w) as [[[[v|]|e] f] w1] eqn:Hp; simplify_eq/=.
  split; [done|]. etrans; [by eapply waits01_step|done].
Qed.

Lemma mapped_comes b r :
  comes_to b r →
  match r with
  | Ok (val, weight) => weight = map_weight b ∧ comes_to (map_fut b) (Ok val)
  | Err e => comes_to (map_fut b) (Err e)
  end.
Proof.
  intros (b'&g&w&w'&[Hw Hf]%mapped_waits&Hp). unfold future_poll01 at 1, mapped_future in Hp.
  destruct (future_poll01 (map_fut b') w) as [[[[v|]|e] f] w1] eqn:Hq; destruct r as [[val weight]|e']; simplify_eq;
    [split; [done|]|]; by exists (map_fut b'), f, w, w'.
Qed.
End mapped.

(** * The stream *)

Module Buffered01.
#[local] Abbreviation BufferedParams := WeightLimited.BufferedParams.
#[local] Abbreviation params_weight_limit := WeightLimited.params_weight_limit.
#[local] Abbreviation params_buffer_size := WeightLimited.params_buffer_size.

Section stream.
Context `{BM : BuildMode} {St Fut I E W : Type} {FF : Future01 Fut I E W}.
Context {FO : FuturesOrdered01 (mapped Fut) (I * Z) E W} {FS : Fuse01 St (Fut * Z) E W}.

Record WeightLimitedBufferedStream := {
  queue : fo01;
  current_weight : Z;
  weight_limit : Z;
  max_buffer_size : nat;
  stream : fused01;
}.
Implicit Types (s : WeightLimitedBufferedStream) (w : W).

Definition new (params : BufferedParams) (st : St) : WeightLimitedBufferedStream := {|
  queue := fo01_new; current_weight := 0; weight_limit := params_weight_limit params;
  max_buffer_size := params_buffer_size params; stream := fuse01 st;
|}.

(** The assignments of [poll]. *)
Definition set_stream s st : WeightLimitedBufferedStream :=
  {| queue := queue s; current_weight := current_weight s; weight_limit := weight_limit s;
     max_buffer_size := max_buffer_size s; stream := st |}.
Definition set_queue s q (weight : Z) : WeightLimitedBufferedStream :=
  {| queue := q; current_weight := weight; weight_limit := weight_limit s;
     max_buffer_size := max_buffer_size s; stream := stream s |}.

(** The condition of the [while] loop. *)
Definition has_room s : bool := (fo01_len (queue s) <? max_buffer_size s)%nat && (current_weight s <? weight_limit s).

(** The [while] loop, left early with an error of the stream; every iteration that goes round
    fills a slot of the queue. *)
Fixpoint fill (slots : nat) s w : exec (option E * WeightLimitedBufferedStream * W) :=
  match slots with
  | O => ret (None, s, w)
  | S slots =>
      if has_room s then
        match poll01 (stream s) w with
        | (Err e, st, w) => ret (Some e, set_stream s st, w)
        | (Ok (Ready (Some (f, weight))), st, w) =>
            let! current := usize_add (current_weight s) weight in
            fill slots (set_queue (set_stream s st) (fo01_push (Build_mapped f weight) (queue s)) current) w
        | (Ok _, st, w) => ret (None, set_stream s st, w)
        end
      else ret (None, s, w)
  end.

Definition poll s w : exec (result (Poll (option I)) E * WeightLimitedBufferedStream * W) :=
  let! '(err, s, w) := fill (max_buffer_size s - fo01_len (queue s)) s w in
  match err with
  | Some e => ret (Err e, s, w)
  | None =>
      match fo01_poll (queue s) w with
      | (Err e, q, w) => ret (Err e, set_queue s q (current_weight s), w)
      | (Ok Pending, q, w) => ret (Ok Pending, set_queue s q (current_weight s), w)
      | (Ok (Ready (Some (val, weight))), q, w) =>
          let! rest := usize_sub (current_weight s) weight in
          ret (Ok (Ready (Some val)), set_queue s q rest, w)
      | (Ok (Ready None), q, w) =>
          let s := set_queue s q (current_weight s) in
          ret (Ok (if is_done01 (stream s) then Ready None else Pending), s, w)
      end
  end.

(** Polled [n] times: the values and errors. *)
Fixpoint polls (n : nat) s w : exec (list (result I E) * WeightLimitedBufferedStream * W) :=
  match n with
  | O => ret ([], s, w)
  | S n =>
      let! '(p, s, w) := poll s w in
      let! '(l, s, w) := polls n s w in
      ret (match p with Ok (Ready (Some v)) => Ok v :: l | Err e => Err e :: l | _ => l end, s, w)
  end.

(** ** What a run keeps *)

Definition oks {A B} (l : list (result A B)) : list A := omap (λ r, match r with Ok x => Some x | Err _ => None end) l.
Definition errs {A B} (l : list (result A B)) : list B := omap (λ r, match r with Ok _ => None | Err e => Some e end) l.

(** What became of a pulled item. *)
Inductive status := Finished (v : I) | Failed (e : E) | Running.
Definition entry : Type := (Fut * Z) * status.
Implicit Types (es : list entry) (e : entry).

Definition value_of (e : entry) : option I := match e.2 with Finished v => Some v | _ => None end.
Definition failure_of (e : entry) : option E := match e.2 with Failed x => Some x | _ => None end.
Definition running_of (e : entry) : option (Fut * Z) := match e.2 with Running => Some e.1 | _ => None end.
(** The weight an entry still takes: that of a failed future is never given back. *)
Definition held_weight (e : entry) : Z := match e.2 with Finished _ => 0 | _ => e.1.2 end.
Definition held es : Z := foldr (λ e z, held_weight e + z) 0 es.

Definition came_true (e : entry) : Prop :=
  match e.2 with Finished v => comes_to e.1.1 (Ok v) | Failed x => comes_to e.1.1 (Err x) | Running => True end.

Lemma held_app es fs : held (es ++ fs) = held es + held fs.
Proof. induction es as [|e es IH]; simpl; [done|]. rewrite IH. lia. Qed.

Context (weight_max : Z) (params : BufferedParams) (st0 : fused01).
Context (items_fit : ∀ l st, events st0 l st → Forall (λ item : Fut * Z, 0 ≤ item.2 ≤ weight_max) (oks l)).
Context (limits_fit : weight_max ≤ usize_max ∧ params_weight_limit params + weight_max ≤ usize_max + 1).

(** The entries are the items pulled, in order: those whose values or errors came out first, and
    the running ones among those that did not give values. *)
Record runs es s (out : list (result I E)) : Prop := {
  runs_pulled : ∃ l, events st0 l (stream s) ∧ oks l = es.*1 ∧ errs out ≡ₚ errs l ++ omap failure_of es;
  runs_values : oks out = omap value_of es;
  runs_true : Forall came_true es;
  runs_order : ∃ older newer, es = older ++ newer ∧ omap running_of older = [] ∧ omap value_of newer = [];
  runs_queue : Forall2 (λ item b, map_weight b = item.2 ∧ waits01 item.1 (map_fut b)) (omap running_of es) (fo01_futs (queue s));
  runs_weight : current_weight s = held es;
  runs_limits : weight_limit s = params_weight_limit params ∧ max_buffer_size s = params_buffer_size params;
  runs_count : (length (omap running_of es) ≤ params_buffer_size params)%nat;
  runs_light : 0 ≤ held es ∧ (0 < held es → held es < params_weight_limit params + weight_max);
}.

Lemma buffered01_runs_fits es s out : runs es s out → Forall (λ e, 0 ≤ e.1.2 ≤ weight_max) es.
Proof. intros [(l&Hl&He&_) _ _ _ _ _ _ _ _]. apply items_fit in Hl. rewrite He in Hl. by apply Forall_fmap in Hl. Qed.

Lemma held_nonneg es : Forall (λ e, 0 ≤ e.1.2 ≤ weight_max) es → 0 ≤ held es.
Proof. induction 1 as [|[[f z] []] es]; simpl in *; unfold held_weight in *; simpl; lia. Qed.

Lemma buffered01_runs_len es s out : runs es s out → fo01_len (queue s) = length (omap running_of es).
Proof. intros Hr. rewrite fo01_len_futs. symmetry. exact (Forall2_length _ _ _ (runs_queue _ _ _ Hr)). Qed.

(** An answer of the stream that is no item. *)
Lemma buffered01_runs_set_stream es s out p st w w' :
  runs es s out → poll01 (stream s) w = (p, st, w') → (∀ item, p ≠ Ok (Ready (Some item))) →
  runs es (set_stream s st) (match p with Err x => out ++ [Err x] | _ => out end).
Proof.
  intros [(l&Hl&He&Hx) Hv Ht Ho Hq Hw Hlim Hc Hli] Hp Hn. pose proof (events_poll _ _ _ _ _ _ _ Hl Hp) as Hl'.
  destruct p as [p|x].
  - assert (poll_events (E:=E) (Ok p) = []) as Hnil by (destruct p as [[item|]|]; [by destruct (Hn item)|done|done]).
    rewrite Hnil, app_nil_r in Hl'. split; try done. by exists l.
  - split; try done; simpl.
    + exists (l ++ [Err x]). split; [done|]. unfold oks, errs in *. rewrite !omap_app. simpl. rewrite app_nil_r. split; [done|].
      rewrite Hx, <-!app_assoc. apply Permutation_app_head. apply Permutation_app_comm.
    + unfold oks in *. by rewrite omap_app, app_nil_r.
Qed.

(** An item goes into a queue with room. *)
Lemma buffered01_runs_push es s out f z st w w' :
  runs es s out → has_room s = true → poll01 (stream s) w = (Ok (Ready (Some (f, z))), st, w') →
  let es' := es ++ [((f, z), Running)] in
  usize_add (current_weight s) z = ret (held es') ∧
  runs es' (set_queue (set_stream s st) (fo01_push (Build_mapped f z) (queue s)) (held es')) out.
Proof.
  intros Hr [Hlen%Nat.ltb_lt Hwt%Z.ltb_lt]%andb_true_iff Hp es'. rewrite (buffered01_runs_len _ _ _ Hr) in Hlen. pose proof (buffered01_runs_fits _ _ _ Hr) as Hfit.
  destruct Hr as [(l&Hl&He&Hx) Hv Ht (older&newer&->&Ho1&Ho2) Hq Hw [Hlim Hb] Hc Hli].
  pose proof (events_poll _ _ _ _ _ _ _ Hl Hp) as Hl'. simpl in Hl'.
  assert (0 ≤ z ≤ weight_max) as Hz.
  { apply items_fit in Hl'. unfold oks in Hl'. rewrite omap_app in Hl'. simpl in Hl'. apply Forall_app in Hl' as [_ Hz]. by inversion Hz. }
  assert (held es' = held (older ++ newer) + z) as Hh by (unfold es'; rewrite held_app; simpl; unfold held_weight; simpl; lia).
  pose proof (held_nonneg _ Hfit). rewrite Hlim, Hw in Hwt. split.
  { unfold usize_add. rewrite usize_wrap_exact by (rewrite Hw; lia). by rewrite Hh, Hw. }
  unfold es' in *. split; simpl.
  - exists (l ++ [Ok (f, z)]). split; [done|]. unfold oks, errs in *.
    rewrite !omap_app, He, !fmap_app in *. simpl. rewrite !app_nil_r. done.
  - rewrite Hv, (omap_app _ (older ++ newer)). simpl. by rewrite app_nil_r.
  - apply Forall_app. split; [done|]. by constructor.
  - exists older, (newer ++ [((f, z), Running)]). rewrite <-app_assoc. split; [done|]. split; [done|]. rewrite omap_app. simpl. by rewrite Ho2.
  - rewrite omap_app, fo01_futs_push. apply Forall2_app; [done|]. constructor; [|constructor]. split; [done|apply rtc_refl].
  - done.
  - done.
  - rewrite omap_app, length_app. simpl. lia.
  - lia.
Qed.

(** Why the loop stops without an error: no room, or the stream had nothing to hand out. *)
Definition stopped s w : Prop :=
  has_room s = false ∨ ∃ st w' p, poll01 st w' = (Ok p, stream s, w) ∧ (∀ item, p ≠ Ready (Some item)).

Lemma buffered01_fill_ok slots es s w out :
  runs es s out →
  ∃ err s' w' es', fill slots s w = ret (err, s', w') ∧
    match err with
    | Some x => runs es' s' (out ++ [Err x])
    | None => runs es' s' out ∧ ((params_buffer_size params ≤ length (omap running_of es) + slots)%nat → stopped s' w')
    end.
Proof.
  revert es s w. induction slots as [|slots IH]; intros es s w Hr; simpl.
  { exists None, s, w, es. split; [done|]. split; [done|]. intros Hle. left.
    unfold has_room. rewrite (buffered01_runs_len _ _ _ Hr), (proj2 (runs_limits _ _ _ Hr)). apply andb_false_iff. left. apply Nat.ltb_ge. lia. }
  destruct (has_room s) eqn:Hroom.
  2: { exists None, s, w, es. split; [done|]. split; [done|]. by left. }
  destruct (poll01 (stream s) w) as [[p st] w1] eqn:Hp.
  assert ((∀ item, p ≠ Ok (Ready (Some item))) → runs es (set_stream s st) (match p with Err x => out ++ [Err x] | _ => out end)) as Hset
    by (intros; by eapply buffered01_runs_set_stream).
  destruct p as [[[[f z]|]|]|x].
  - destruct (buffered01_runs_push _ _ _ _ _ _ _ _ Hr Hroom Hp) as [-> Hr']. simpl.
    destruct (IH _ _ w1 Hr') as (err&s'&w'&es'&Heq&Hk). exists err, s', w', es'. split; [done|].
    destruct err; [done|]. destruct Hk as [Hk Hst]. split; [done|]. intros Hle. apply Hst. rewrite omap_app, length_app. simpl. lia.
  - eexists None, _, _, es. split; [done|]. split; [by apply Hset|]. intros _. right. by eexists _, _, _.
  - eexists None, _, _, es. split; [done|]. split; [by apply Hset|]. intros _. right. by eexists _, _, _.
  - eexists (Some x), _, _, es. split; [done|]. by apply Hset.
Qed.

(** The queue moves on. *)
Lemma buffered01_runs_evolve es s out q :
  runs es s out → Forall2 waits01 (fo01_futs (queue s)) (fo01_futs q) → runs es (set_queue s q (current_weight s)) out.
Proof.
  intros [] He. split; try done. simpl. eapply Forall2_compose; [|done|done].
  intros item b b' [Hb Hw] [Hb' Hw']%mapped_waits. split; [congruence|by etrans].
Qed.

(** One of the running entries is done: it gives its value, when no running one is before it, or
    it fails. *)
Lemma running_split es l1 item l2 :
  omap running_of es = l1 ++ item :: l2 →
  ∃ es1 es2, es = es1 ++ (item, Running) :: es2 ∧ omap running_of es1 = l1 ∧ omap running_of es2 = l2.
Proof.
  revert l1. induction es as [|[it [v|x|]] es IH]; intros l1; simpl; [by destruct l1|..].
  - intros (es1&es2&->&?&?)%IH. by exists ((it, Finished v) :: es1), es2.
  - intros (es1&es2&->&?&?)%IH. by exists ((it, Failed x) :: es1), es2.
  - destruct l1 as [|it' l1]; simpl; intros [= -> Hes]; [by exists [], es|].
    apply IH in Hes as (es1&es2&->&<-&?). by exists ((it', Running) :: es1), es2.
Qed.

(** A running entry comes to a value or an error. *)
Definition done_as (r : result I E) : status := match r with Ok v => Finished v | Err x => Failed x end.

(** The entries in order: none that gave a value is behind a running one. *)
Definition ordered es : Prop := ∃ older newer, es = older ++ newer ∧ omap running_of older = [] ∧ omap value_of newer = [].

Lemma ordered_done es1 item es2 r :
  ordered (es1 ++ (item, Running) :: es2) → (∀ v, r = Ok v → omap running_of es1 = []) →
  ordered (es1 ++ (item, done_as r) :: es2) ∧ (∀ v, r = Ok v → omap value_of es2 = []).
Proof.
  intros (older&newer&Heq&Ho&Hn) Hfirst.
  assert (∃ mid, es1 = older ++ mid ∧ newer = mid ++ (item, Running) :: es2) as (mid&->&->).
  { apply app_eq_app in Heq as (mid&[[-> ->]|[-> Heq]]); [by exists mid|]. destruct mid as [|e mid]; simplify_eq/=.
    - exists []. by rewrite !app_nil_r.
    - exfalso. rewrite omap_app in Ho. simpl in Ho. by destruct (omap running_of es1). }
  rewrite omap_app in Hn. simpl in Hn. apply app_eq_nil in Hn as [Hm H2]. split; [|done]. destruct r as [v|x].
  - specialize (Hfirst v eq_refl). exists ((older ++ mid) ++ [(item, Finished v)]), es2. rewrite <-!app_assoc in *. split; [done|].
    split; [|done]. rewrite app_assoc, omap_app, Hfirst. done.
  - exists older, (mid ++ (item, Failed x) :: es2). rewrite <-app_assoc. split; [done|]. split; [done|]. rewrite omap_app, Hm. done.
Qed.

Lemma runs_done es1 item es2 s out r q :
  let es' := es1 ++ (item, done_as r) :: es2 in
  runs (es1 ++ (item, Running) :: es2) s out → comes_to item.1 r →
  (∀ v, r = Ok v → omap running_of es1 = []) →
  Forall2 (λ item b, map_weight b = item.2 ∧ waits01 item.1 (map_fut b)) (omap running_of (es1 ++ es2)) (fo01_futs q) →
  held es' = current_weight s - match r with Ok _ => item.2 | Err _ => 0 end ∧
  runs es' (set_queue s q (held es')) (out ++ [r]) ∧ 0 ≤ held es' ≤ current_weight s.
Proof.
  intros es' Hr Hc Hfirst Hq. pose proof (buffered01_runs_fits _ _ _ Hr) as Hfit. apply Forall_app in Hfit as [Hf1 [Hit Hf2]%Forall_cons].
  apply held_nonneg in Hf1, Hf2. simpl in Hit. destruct Hr as [(l&Hl&He&Hx) Hv Ht Ho Hq0 Hw Hlim Hcnt Hli].
  assert (held es' = current_weight s - match r with Ok _ => item.2 | Err _ => 0 end ∧ 0 ≤ held es' ≤ current_weight s) as [Hh Hh0].
  { rewrite Hw. unfold es'. rewrite !held_app. simpl. unfold held_weight. simpl. destruct r; simpl; lia. }
  split; [done|]. split; [|done]. apply Forall_app in Ht as [Ht1 [_ Ht2]%Forall_cons].
  apply ordered_done with (r:=r) in Ho as [Ho Hlast]; [|done]. rewrite (omap_app value_of) in Hv. rewrite (omap_app failure_of) in Hx.
  rewrite omap_app, length_app in Hcnt. simpl in *. unfold es' in *. split; simpl; try done.
  - exists l. split; [done|]. split; [by rewrite He, !fmap_app|]. unfold errs in *. rewrite !omap_app. simpl.
    destruct r as [v|x]; simpl; [by rewrite app_nil_r|]. rewrite Hx. solve_Permutation.
  - unfold oks in *. rewrite !omap_app, Hv. simpl. destruct r as [v|x]; simpl; [|by rewrite app_nil_r].
    specialize (Hlast v eq_refl). unfold omap in Hlast. by rewrite Hlast, app_nil_r.
  - apply Forall_app. split; [done|]. constructor; [|done]. unfold came_true. by destruct r.
  - rewrite omap_app in *. simpl. by destruct r.
  - rewrite omap_app, length_app. destruct r; simpl; lia.
  - lia.
Qed.

(** A poll that is pending left something that will wake the task, unless failures have eaten up
    the permitted weight. *)
Definition waits s : Prop :=
  (∃ q w w', fo01_poll q w = (Ok Pending, queue s, w')) ∨ (∃ st w w', poll01 st w = (Ok Pending, stream s, w')).

Definition idle es : Prop := omap running_of es = [].

Lemma buffered01_poll_ok es s w out :
  runs es s out →
  ∃ p s' w' es', poll s w = ret (p, s', w') ∧
    runs es' s' (out ++ match p with Ok (Ready (Some v)) => [Ok v] | Err x => [Err x] | _ => [] end) ∧
    match p with
    | Ok (Ready None) => idle es' ∧ is_done01 (stream s') = true
    | Ok Pending => waits s' ∨ idle es' ∧ (params_weight_limit params ≤ held es' ∨ params_buffer_size params = 0%nat)
    | _ => True
    end.
Proof.
  intros Hr0. unfold poll.
  destruct (buffered01_fill_ok (max_buffer_size s - fo01_len (queue s)) _ s w _ Hr0) as (err&s1&w1&es'&->&Hr). simpl.
  rewrite (buffered01_runs_len _ _ _ Hr0), (proj2 (runs_limits _ _ _ Hr0)) in Hr.
  destruct err as [x|]; [by eexists _, _, _, es'|]. destruct Hr as [Hr Hst]. specialize (Hst ltac:(lia)).
  clear Hr0 es s w. rename es' into es. pose proof (fo01_poll_spec (queue s1) w1) as Hq. pose proof (runs_queue _ _ _ Hr) as Hrq.
  destruct (fo01_poll (queue s1) w1) as [[[[[[val weight]|]|]|x] q] w2] eqn:Hpoll.
  - destruct Hq as (b&fs&Hfs&Hc&He). rewrite Hfs in Hrq. apply Forall2_cons_inv_r in Hrq as (item&l2&[Hb Hw]&Hl2&Hes).
    apply (running_split _ []) in Hes as (es1&es2&->&H1&<-).
    apply mapped_comes in Hc as [-> Hc]. eapply waits01_comes in Hc; [|done].
    destruct (runs_done es1 item es2 s1 out (Ok val) q Hr Hc) as (Hh&Hr'&Hle); [done| |].
    { rewrite omap_app, H1. simpl. eapply Forall2_compose; [|done|done].
      intros it c c' [Hb1 Hw1] [Hb2 Hw2]%mapped_waits. split; [congruence|by etrans]. }
    simpl in Hh, Hle, Hr'. rewrite Hb. unfold usize_sub. assert (0 ≤ usize_max) by (by vm_compute). destruct (runs_light _ _ _ Hr) as [_ Hli]. rewrite <-(runs_weight _ _ _ Hr) in Hli.
    rewrite usize_wrap_exact by (rewrite <-Hh; lia). simpl. rewrite <-Hh. by eexists _, _, _, _.
  - destruct Hq as [Hq Hq']. assert (idle es) as Hidle by (rewrite Hq in Hrq; by inversion Hrq).
    assert (runs es (set_queue s1 q (current_weight s1)) out) as Hr' by (apply buffered01_runs_evolve; [done|by rewrite Hq, Hq']).
    eexists _, _, _, es. split; [done|]. simpl. destruct (is_done01 (stream s1)) eqn:Hd; rewrite app_nil_r; (split; [done|]); [done|].
    destruct Hst as [Hroom|(st&w'&p&Hp&Hn)].
    + right. split; [done|]. unfold has_room in Hroom. destruct (runs_limits _ _ _ Hr) as [Hwl Hmb].
      rewrite (buffered01_runs_len _ _ _ Hr), (runs_weight _ _ _ Hr), Hwl, Hmb, Hidle in Hroom.
      apply andb_false_iff in Hroom as [?%Nat.ltb_ge|?%Z.ltb_ge]; simpl in *; [right; lia|by left].
    + left. right. destruct p as [[item|]|]; [by destruct (Hn item)| |by exists st, w', w1].
      pose proof (poll01_spec st w') as Hs. rewrite Hp in Hs. congruence.
  - destruct Hq as [Hq He]. eexists _, _, _, es. split; [done|]. rewrite app_nil_r. split; [by apply buffered01_runs_evolve|].
    left. left. by exists (queue s1), w1, w2.
  - destruct Hq as (l1&b&l2&Hfs&Hc&He). rewrite Hfs in Hrq.
    apply Forall2_app_inv_r in Hrq as (k1&k'&H1&Hk&Hes). apply Forall2_cons_inv_r in Hk as (item&k2&[Hb Hw]&H2&->).
    apply running_split in Hes as (es1&es2&->&<-&<-).
    apply mapped_comes in Hc. eapply waits01_comes in Hc; [|done].
    destruct (runs_done es1 item es2 s1 out (Err x) q Hr Hc) as (Hh&Hr'&Hle); [done| |].
    { rewrite omap_app. eapply Forall2_compose; [|by apply Forall2_app|done].
      intros it c c' [Hb1 Hw1] [Hb2 Hw2]%mapped_waits. split; [congruence|by etrans]. }
    rewrite Z.sub_0_r in Hh. rewrite Hh in Hr'. by eexists _, _, _, _.
Qed.

Lemma buffered01_polls_ok n es s w out :
  runs es s out → ∃ l s' w' es', polls n s w = ret (l, s', w') ∧ runs es' s' (out ++ l).
Proof.
  revert es s w out. induction n as [|n IH]; intros es s w out Hr; simpl; [eexists [], s, w, es; by rewrite app_nil_r|].
  destruct (buffered01_poll_ok es s w out Hr) as (p&s1&w1&es1&->&Hr1&_). simpl.
  destruct (IH es1 s1 w1 _ Hr1) as (l&s2&w2&es2&->&Hr2). simpl. rewrite <-app_assoc in Hr2.
  by destruct p as [[[v|]|]|x]; eexists _, s2, w2, es2.
Qed.

Lemma buffered01_new_runs st : st0 = fuse01 st → runs [] (new params st) [].
Proof.
  intros Hst. split; simpl; try done; try lia.
  - exists []. split; [rewrite Hst; constructor|done].
  - by exists [], [].
  - by rewrite fo01_futs_new.
Qed.

(** Once failures have eaten up the permitted weight and nothing runs, a stream that is not
    done is pending for ever and reads no more of its input. *)
Lemma stuck_polls n es s w out :
  runs es s out → idle es → params_weight_limit params ≤ held es → is_done01 (stream s) = false →
  ∃ s' w', polls n s w = ret ([], s', w') ∧ stream s' = stream s.
Proof.
  revert s w. induction n as [|n IH]; intros s w Hr Hidle Hheld Hd; simpl; [by eexists _, _|].
  assert (has_room s = false) as Hroom.
  { unfold has_room. apply andb_false_iff. right. apply Z.ltb_ge. by rewrite (runs_weight _ _ _ Hr), (proj1 (runs_limits _ _ _ Hr)). }
  assert (fo01_futs (queue s) = []) as Hq by (pose proof (runs_queue _ _ _ Hr) as Hrq; rewrite Hidle in Hrq; by inversion Hrq).
  assert (∀ k, fill k s w = ret (None, s, w)) as Hfill by (intros [|k]; simpl; [done|by rewrite Hroom]).
  unfold poll. rewrite Hfill. simpl. pose proof (fo01_poll_spec (queue s) w) as Hp.
  destruct (fo01_poll (queue s) w) as [[[[[v|]|]|x] q] w1].
  - destruct Hp as (f&fs&Hf&_). congruence.
  - destruct Hp as [_ Hq']. simpl. rewrite Hd. simpl.
    destruct (IH (set_queue s q (current_weight s)) w1) as (s'&w'&->&Hst); [|done|done|done|by eexists _, _].
    apply buffered01_runs_evolve; [done|by rewrite Hq, Hq'].
  - by destruct Hp.
  - destruct Hp as (l1&f&l2&Hf&_). destruct l1; simplify_eq/=; congruence.
Qed.
End stream.

(** What an answer adds to the values and errors. *)
Definition answered {I E} (p : result (Poll (option I)) E) : list (result I E) :=
  match p with Ok (Ready (Some v)) => [Ok v] | Err x => [Err x] | _ => [] end.


(** *** A concrete run *)

Section concrete.
(** Futures that count down and then give a value, or fail with an error. *)
#[local] Instance countdown01 : Future01 (nat * result nat nat) nat nat nat := λ f w,
  match f with
  | (S k, r) => (Ok Pending, (k, r), w)
  | (0%nat, Ok v) => (Ok (Ready v), f, w)
  | (0%nat, Err x) => (Err x, f, w)
  end.

Definition script01 : Type := list (result (Poll ((nat * result nat nat) * Z)) nat).
#[local] Instance script_fuse01 : Fuse01 script01 ((nat * result nat nat) * Z) nat nat.
Proof.
  refine {| fused01 := script01 * bool; fuse01 l := (l, false); into_inner01 := fst; is_done01 := snd;
    poll01 s w :=
      match s with
      | (l, true) => (Ok (Ready None), (l, true), w)
      | ([], false) => (Ok (Ready None), ([], true), w)
      | (Ok (Ready x) :: l, false) => (Ok (Ready (Some x)), (l, false), w)
      | (Ok Pending :: l, false) => (Ok Pending, (l, false), w)
      | (Err e :: l, false) => (Err e, (l, false), w)
      end |}; [done|]. by intros [[|[[x|]|e] l] []] w.
Defined.

Lemma script01_events (s s' : fused01) l :
  events s l s' → Forall (λ item : (nat * result nat nat) * Z, 0 ≤ item.2 ≤ 9)
    (omap (λ r, match r with Ok (Ready x) => Some x | _ => None end) s.1) →
  Forall (λ item, 0 ≤ item.2 ≤ 9) (oks l).
Proof.
  intros He. remember s.1 as m eqn:Hm. revert m Hm.
  induction He as [|[m b] x i' l i'' w w' Hp _ IH|[m b] x i' l i'' w w' Hp _ IH|[m b] i' l i'' p w w' Hp Hn _ IH];
    intros k -> Hf; [constructor|destruct m as [|[[y|]|x'] m], b; simplify_eq/=; rewrite ?Forall_cons in *; naive_solver..].
Qed.


(** A stream with one failed future as heavy as the limit never gives its other items, though
    they are ready: it is pending for ever, with nothing that would wake its task. *)
Theorem failed_weight_is_lost n :
  let _ := debug_build in
  let params := {| WeightLimited.params_weight_limit := 5; WeightLimited.params_buffer_size := 2 |} in
  let st : script01 := [Ok (Ready ((0%nat, Err 9%nat), 5)); Ok (Ready ((0%nat, Ok 1%nat), 1))] in
  ∃ s w, polls (S n) (new params st) 0%nat = ret ([Err 9%nat], s, w) ∧ is_done01 (stream s) = false.
Proof.
  intros bm params st.
  destruct (buffered01_poll_ok 9 params (fuse01 st)) with (es:=@nil (entry (Fut:=nat * result nat nat) (I:=nat) (E:=nat))) (s:=new params st) (w:=0%nat) (out:=@nil (result nat nat))
    as (p&s&w&es&Hp&Hr&_).
  { intros l s He. apply (script01_events _ _ _ He). by repeat constructor. }
  { by vm_compute. }
  { by apply buffered01_new_runs. }
  assert (p = Err 9%nat ∧ is_done01 (stream s) = false ∧ current_weight s = 5 ∧ fo01_futs (queue s) = []) as (->&Hd&Hw&Hq)
    by (vm_compute in Hp; simplify_eq; done).
  edestruct (stuck_polls 9 params (fuse01 st) n es s w _ Hr) as (s'&w'&Hs&Hst).
  - pose proof (runs_queue _ _ _ _ _ _ Hr) as Hrq. rewrite Hq in Hrq. unfold idle. by inversion Hrq.
  - pose proof (runs_weight _ _ _ _ _ _ Hr). simpl. lia.
  - done.
  - exists s', w'. change (polls (S n) (new params st) 0%nat) with (let! '(p, s, w) := poll (new params st) 0%nat in let! '(l, s, w) := polls n s w in
      ret (match p with Ok (Ready (Some v)) => Ok v :: l | Err e => Err e :: l | _ => l end, s, w)).
    rewrite Hp. simpl. rewrite Hs. simpl. by rewrite Hst.
Qed.
End concrete.
End Buffered01.
