(* ===== verification/Futures01Wrappers.v ===== *)
(** The other adaptors of [futures_01_ext] (src/shed/futures_01_ext/src/lib.rs, select_all.rs,
    stream_wrappers/collect_to.rs), for futures and streams of futures 0.1: futures whose result is
    discarded or looked at, one of two streams, a stream whose remainder is given back, the merging
    of streams, and collecting. *)
From S2P Require Import Prelude RustStd Streams StreamWrappers Futures01.
Import Futures01.Adaptors.

(** * Futures whose result is discarded or looked at *)

Module Inspect01.

(** A future polled until it resolves, [n] times at most. *)
Fixpoint drive01 {F O E W} {FF : Future01 F O E W} (n : nat) (f : F) (w : W) : result (Poll O) E * F * W :=
  match n with
  | 0 => (Ok Pending, f, w)
  | S n => match future_poll01 f w with (Ok Pending, f, w) => drive01 n f w | r => r end
  end.

Section wrappers.
Context {F O E W : Type} {FF : Future01 F O E W}.
Implicit Types (w : W).

(** ** [Discard] *)

Record Discard := { discarded : F }.

#[export] Instance discard_poll : Future01 Discard () () W := λ s w,
  match future_poll01 (discarded s) w with
  | (Err _, f, w) => (Err (), {| discarded := f |}, w)
  | (Ok Pending, f, w) => (Ok Pending, {| discarded := f |}, w)
  | (Ok (Ready _), f, w) => (Ok (Ready ()), {| discarded := f |}, w)
  end.

(** ** [send_discard]: the result of [sender.send(value)] is dropped with its error. *)

Record SendDiscard := { sending : F }.

#[export] Instance send_discard_poll {E'} : Future01 SendDiscard () E' W := λ s w,
  match future_poll01 (sending s) w with
  | (Ok Pending, f, w) => (Ok Pending, {| sending := f |}, w)
  | (_, f, w) => (Ok (Ready ()), {| sending := f |}, w)
  end.

(** ** [InspectErr] *)

Record InspectErr := { err_future : F; err_f : option (E → W → W) }.

#[export] Instance inspect_err_poll : Future01 InspectErr O E W := λ s w,
  match future_poll01 (err_future s) w with
  | (Ok Pending, f, w) => (Ok Pending, {| err_future := f; err_f := err_f s |}, w)
  | (Ok (Ready e), f, w) => (Ok (Ready e), {| err_future := f; err_f := err_f s |}, w)
  | (Err e, f, w) =>
      match err_f s with
      | None => (Ok Pending, {| err_future := f; err_f := None |}, w)
      | Some func => (Err e, {| err_future := f; err_f := None |}, func e w)
      end
  end.

Definition inspect_err (f : F) (func : E → W → W) : InspectErr := {| err_future := f; err_f := Some func |}.

(** ** [InspectResult] *)

Record InspectResult := { res_future : F; res_f : option (result O E → W → W) }.

#[export] Instance inspect_result_poll : Future01 InspectResult O E W := λ s w,
  match future_poll01 (res_future s) w with
  | (Ok Pending, f, w) => (Ok Pending, {| res_future := f; res_f := res_f s |}, w)
  | (Ok (Ready i), f, w) =>
      match res_f s with
      | None => (Ok Pending, {| res_future := f; res_f := None |}, w)
      | Some func => (Ok (Ready i), {| res_future := f; res_f := None |}, func (Ok i) w)
      end
  | (Err e, f, w) =>
      match res_f s with
      | None => (Ok Pending, {| res_future := f; res_f := None |}, w)
      | Some func => (Err e, {| res_future := f; res_f := None |}, func (Err e) w)
      end
  end.

Definition inspect_result (f : F) (func : result O E → W → W) : InspectResult := {| res_future := f; res_f := Some func |}.

(** ** What they do to a run *)

(** A wrapper that passes pending polls on, and does something at the end. *)
Lemma drive01_wrap {G O' E'} {GG : Future01 G O' E' W} (wrap : F → G) (fin : result O E → F → W → result (Poll O') E' * G * W) :
  (∀ f w, future_poll01 (wrap f) w =
    match future_poll01 f w with
    | (Ok Pending, f, w) => (Ok Pending, wrap f, w)
    | (Ok (Ready v), f, w) => fin (Ok v) f w
    | (Err e, f, w) => fin (Err e) f w
    end) →
  (∀ r f w f' w', fin r f w ≠ (Ok Pending, f', w')) →
  ∀ n f w, drive01 n (wrap f) w =
    match drive01 n f w with
    | (Ok Pending, f, w) => (Ok Pending, wrap f, w)
    | (Ok (Ready v), f, w) => fin (Ok v) f w
    | (Err e, f, w) => fin (Err e) f w
    end.
Proof.
  intros Hp Hf n. induction n as [|n IH]; intros f w; simpl; [done|]. rewrite Hp.
  destruct (future_poll01 f w) as [[[[v|]|e] f'] w']; [|apply IH|].
  - pose proof (Hf (Ok v) f' w') as Hn. destruct (fin (Ok v) f' w') as [[[[]|] g] w1]; [done|by destruct (Hn g w1)|done].
  - pose proof (Hf (Err e) f' w') as Hn. destruct (fin (Err e) f' w') as [[[[]|] g] w1]; [done|by destruct (Hn g w1)|done].
Qed.

Lemma discard_drive n f w :
  drive01 n {| discarded := f |} w =
  match drive01 n f w with
  | (Ok Pending, f, w) => (Ok Pending, {| discarded := f |}, w)
  | (Ok (Ready _), f, w) => (Ok (Ready ()), {| discarded := f |}, w)
  | (Err _, f, w) => (Err (), {| discarded := f |}, w)
  end.
Proof.
  apply (drive01_wrap Build_Discard (λ r f w, match r with Ok _ => (Ok (Ready ()), {| discarded := f |}, w) | Err _ => (Err (), {| discarded := f |}, w) end)).
  - intros f' w'. unfold future_poll01 at 1, discard_poll. simpl. by destruct (future_poll01 f' w') as [[[[v|]|e] g] w1].
  - by intros [].
Qed.

Lemma send_discard_drive {E'} n f w :
  drive01 (FF:=send_discard_poll (E':=E')) n {| sending := f |} w =
  match drive01 n f w with
  | (Ok Pending, f, w) => (Ok Pending, {| sending := f |}, w)
  | (_, f, w) => (Ok (Ready ()), {| sending := f |}, w)
  end.
Proof.
  rewrite (drive01_wrap (GG:=send_discard_poll) Build_SendDiscard (λ _ f w, (Ok (Ready ()), {| sending := f |}, w))).
  - by destruct (drive01 n f w) as [[[[v|]|e] g] w1].
  - intros f' w'. unfold future_poll01 at 1, send_discard_poll. simpl. by destruct (future_poll01 f' w') as [[[[v|]|e] g] w1].
  - done.
Qed.

(** The closure runs once, when the future fails, before the error is passed on. *)
Lemma inspect_err_drive n f func w :
  drive01 n (inspect_err f func) w =
  match drive01 n f w with
  | (Err e, f, w) => (Err e, {| err_future := f; err_f := None |}, func e w)
  | (p, f, w) => (p, inspect_err f func, w)
  end.
Proof.
  rewrite (drive01_wrap (λ f, inspect_err f func) (λ r f w,
    match r with Ok v => (Ok (Ready v), inspect_err f func, w) | Err e => (Err e, {| err_future := f; err_f := None |}, func e w) end)).
  - by destruct (drive01 n f w) as [[[[v|]|e] g] w1].
  - intros f' w'. unfold future_poll01 at 1, inspect_err_poll. simpl. by destruct (future_poll01 f' w') as [[[[v|]|e] g] w1].
  - by intros [].
Qed.

(** The closure runs once, when the future resolves either way. *)
Lemma inspect_result_drive n f func w :
  drive01 n (inspect_result f func) w =
  match drive01 n f w with
  | (Ok Pending, f, w) => (Ok Pending, inspect_result f func, w)
  | (Ok (Ready v), f, w) => (Ok (Ready v), {| res_future := f; res_f := None |}, func (Ok v) w)
  | (Err e, f, w) => (Err e, {| res_future := f; res_f := None |}, func (Err e) w)
  end.
Proof.
  apply (drive01_wrap (λ f, inspect_result f func) (λ r f w,
    ((match r with Ok v => Ok (Ready v) | Err e => Err e end), {| res_future := f; res_f := None |}, func r w))).
  - intros f' w'. unfold future_poll01 at 1, inspect_result_poll. simpl. by destruct (future_poll01 f' w') as [[[[v|]|e] g] w1].
  - by intros [].
Qed.

(** Once the closure has run, a future that resolves again is pending for ever. *)
Lemma inspect_result_after n f w :
  let '(p, s, _) := drive01 n {| res_future := f; res_f := None |} w in p = Ok Pending ∧ res_f s = None.
Proof.
  revert f w. induction n as [|n IH]; intros f w; simpl; [done|]. unfold future_poll01 at 1, inspect_result_poll. simpl.
  destruct (future_poll01 f w) as [[[[v|]|e] g] w1]; apply IH.
Qed.
End wrappers.
Arguments Discard : clear implicits.
Arguments SendDiscard : clear implicits.
End Inspect01.

(** * Streams *)

Section gives.
Context {S Item E W : Type} {SS : Stream01 S Item E W}.
Implicit Types (s : S) (l : list (result Item E)).

(** The items and errors a stream gives between two of its states. *)
Inductive gives01 : S → list (result Item E) → S → Prop :=
| gives_nil s : gives01 s [] s
| gives_item s x s1 l s2 w w' : stream_poll01 s w = (Ok (Ready (Some x)), s1, w') → gives01 s1 l s2 → gives01 s (Ok x :: l) s2
| gives_err s e s1 l s2 w w' : stream_poll01 s w = (Err e, s1, w') → gives01 s1 l s2 → gives01 s (Err e :: l) s2
| gives_wait s s1 l s2 w w' : stream_poll01 s w = (Ok Pending, s1, w') → gives01 s1 l s2 → gives01 s l s2.

Lemma gives_app s1 l1 s2 l2 s3 : gives01 s1 l1 s2 → gives01 s2 l2 s3 → gives01 s1 (l1 ++ l2) s3.
Proof. induction 1; intros; simpl; [done|eapply gives_item|eapply gives_err|eapply gives_wait]; eauto. Qed.

(** The answer of one more poll. *)
Definition event (p : result (Poll (option Item)) E) : list (result Item E) :=
  match p with Ok (Ready (Some x)) => [Ok x] | Err e => [Err e] | _ => [] end.

Lemma gives_poll s1 l s2 p s3 w w' :
  gives01 s1 l s2 → stream_poll01 s2 w = (p, s3, w') → p ≠ Ok (Ready None) → gives01 s1 (l ++ event p) s3.
Proof.
  intros Hg Hp Hn. eapply gives_app; [done|]. destruct p as [[[x|]|]|e]; simpl; [|done|..];
    [eapply gives_item|eapply gives_wait|eapply gives_err]; try done; constructor.
Qed.

(** Pending polls. *)
Definition idles01 : relation S := rtc (λ s s' : S, ∃ w w', stream_poll01 s w = (Ok Pending, s', w')).

Lemma idles_gives s s' : idles01 s s' → gives01 s [] s'.
Proof. induction 1 as [|s s1 s2 (w&w'&Hp) _ IH]; [constructor|by eapply gives_wait]. Qed.
End gives.

(** ** [StreamEither], [is_empty] and [not_empty] *)

Module Either01.
Section either.
Context {A B Item E W : Type} {SA : Stream01 A Item E W} {SB : Stream01 B Item E W}.

Inductive StreamEither := InA (a : A) | InB (b : B).

#[export] Instance either_poll : Stream01 StreamEither Item E W := λ s w,
  match s with
  | InA a => let '(p, a, w) := stream_poll01 a w in (p, InA a, w)
  | InB b => let '(p, b, w) := stream_poll01 b w in (p, InB b, w)
  end.

Definition left_stream (a : A) : StreamEither := InA a.
Definition right_stream (b : B) : StreamEither := InB b.

Lemma either_gives_left a l a' : gives01 a l a' → gives01 (left_stream a) l (left_stream a').
Proof.
  induction 1 as [|s x s1 l s2 w w' Hp _ IH|s e s1 l s2 w w' Hp _ IH|s s1 l s2 w w' Hp _ IH];
    [constructor|eapply gives_item|eapply gives_err|eapply gives_wait]; try done;
    unfold stream_poll01, either_poll, left_stream; by rewrite Hp.
Qed.

Lemma either_gives_right b l b' : gives01 b l b' → gives01 (right_stream b) l (right_stream b').
Proof.
  induction 1 as [|s x s1 l s2 w w' Hp _ IH|s e s1 l s2 w w' Hp _ IH|s s1 l s2 w w' Hp _ IH];
    [constructor|eapply gives_item|eapply gives_err|eapply gives_wait]; try done;
    unfold stream_poll01, either_poll, right_stream; by rewrite Hp.
Qed.

(** [Stream::into_future(self).map(|(first, _)| first.is_none()).map_err(|(err, _)| err)]. *)
Definition first_poll (test : option Item → bool) (s : A) (w : W) : result (Poll bool) E * A * W :=
  match stream_poll01 s w with
  | (Ok (Ready first), s, w) => (Ok (Ready (test first)), s, w)
  | (Ok Pending, s, w) => (Ok Pending, s, w)
  | (Err err, s, w) => (Err err, s, w)
  end.
Definition is_empty_poll : A → W → result (Poll bool) E * A * W := first_poll (λ first, bool_decide (is_none first)).
Definition not_empty_poll : A → W → result (Poll bool) E * A * W := first_poll (λ first, negb (bool_decide (is_none first))).
End either.
End Either01.

(** ** [ReturnRemainder] and [ConservativeReceiver] *)

Module Remainder01.
Inductive ConservativeReceiverError := Canceled | ReceiveBeforeSend.

Section remainder.
Context {St Item E W : Type} {SS : Stream01 St Item E W} {CH : Oneshot St}.

(** [ConservativeReceiver::poll]. *)
Definition conservative_poll (c : chan) : result (Poll St) ConservativeReceiverError * chan :=
  match chan_recv c with
  | (Ready (Ok item), c) => (Ok (Ready item), c)
  | (Ready (Err _), c) => (Err Canceled, c)
  | (Pending, c) => (Err ReceiveBeforeSend, c)
  end.

(** The sender is there or was used; the channel is kept beside the stream. *)
Record ReturnRemainder := { inner : option St; send : bool; chan_of : chan }.
Implicit Types (s : ReturnRemainder) (w : W).

Definition new (st : St) : ReturnRemainder := {| inner := Some st; send := true; chan_of := channel |}.

Definition poll s w : exec (result (Poll (option Item)) E * ReturnRemainder * W) :=
  match inner s with
  | None => ret (Ok (Ready None), s, w)
  | Some st =>
      let '(p, st, w) := stream_poll01 st w in
      let s := {| inner := Some st; send := send s; chan_of := chan_of s |} in
      match p with
      | Err e => ret (Err e, s, w)
      | Ok Pending => ret (Ok Pending, s, w)
      | Ok (Ready (Some x)) => ret (Ok (Ready (Some x)), s, w)
      | Ok (Ready None) =>
          if send s then ret (Ok (Ready None), {| inner := None; send := false; chan_of := chan_send st (chan_of s) |}, w)
          else panic
      end
  end.

Definition drop_stream s : chan := if send s then chan_drop_sender (chan_of s) else chan_of s.

Fixpoint polls (n : nat) s w : exec (list (result Item E) * ReturnRemainder * W) :=
  match n with
  | 0 => ret ([], s, w)
  | S n => let! '(p, s, w) := poll s w in let! '(l, s, w) := polls n s w in ret (event p ++ l, s, w)
  end.

(** The stream is held, or was sent at its end. *)
Definition remains (st0 : St) s (l : list (result Item E)) : Prop :=
  ∃ st, gives01 st0 l st ∧
    (inner s = Some st ∧ send s = true ∧ chan_of s = channel ∨
     ∃ st', inner s = None ∧ send s = false ∧ chan_of s = chan_send st' channel ∧ ∃ w w', stream_poll01 st w = (Ok (Ready None), st', w')).

Lemma polls_remains st0 n s l w :
  remains st0 s l → ∃ k s' w', polls n s w = ret (k, s', w') ∧ remains st0 s' (l ++ k).
Proof.
  revert s l w. induction n as [|n IH]; intros s l w Hs; simpl; [exists [], s, w; by rewrite app_nil_r|].
  assert (∃ p s' w', poll s w = ret (p, s', w') ∧ remains st0 s' (l ++ event p)) as (p&s1&w1&->&Hs1).
  { destruct Hs as (st&Hg&[(Hi&Hs&Hc)|(st'&Hi&Hs)]); unfold poll; rewrite Hi.
    - destruct (stream_poll01 st w) as [[p st'] w1] eqn:Hp. rewrite Hs. destruct p as [[[x|]|]|e]; simpl;
        (eexists _, _, _; split; [done|]); rewrite ?app_nil_r.
      2: { exists st. split; [done|]. right. exists st'. rewrite Hc. eauto 10. }
      all: exists st'; (split; [|by left; rewrite Hc]); pose proof (gives_poll _ _ _ _ _ _ _ Hg Hp ltac:(done)) as Hg'; simpl in Hg'; by rewrite ?app_nil_r in Hg'.
    - eexists _, s, w. split; [done|]. simpl. rewrite app_nil_r. exists st. split; [done|]. right. by exists st'. }
  simpl. destruct (IH s1 _ w1 Hs1) as (k&s2&w2&->&Hs2). simpl. exists (event p ++ k), s2, w2. by rewrite app_assoc.
Qed.

(** The stream hands on the items and errors of the inner one.  Receiving before its end is an
    error, not a wait, and so it is after the stream was dropped before its end; after the end
    the receiver gets what is left of the inner stream. *)
Theorem return_remainder01_sound (st0 : St) n w :
  ∃ l s w', polls n (new st0) w = ret (l, s, w') ∧
    ∃ st, gives01 st0 l st ∧
      match inner s with
      | Some st1 => st1 = st ∧ (conservative_poll (chan_of s)).1 = Err ReceiveBeforeSend
                    ∧ (conservative_poll (drop_stream s)).1 = Err Canceled
      | None => ∃ w1 w2 st', stream_poll01 st w1 = (Ok (Ready None), st', w2)
                    ∧ (conservative_poll (chan_of s)).1 = Ok (Ready st')
      end.
Proof.
  destruct (polls_remains st0 n (new st0) [] w) as (l&s&w'&Hl&st&Hg&Hs);
    [exists st0; split; [constructor|by left]|].
  exists l, s, w'. split; [done|]. exists st. split; [done|]. destruct Hs as [(->&Hs&Hc)|(st'&->&Hs&Hc&w1&w2&Hp)].
  - unfold drop_stream, conservative_poll. rewrite Hs, Hc, recv_channel. split; [done|]. split; [done|].
    pose proof recv_dropped as Hr. destruct (chan_recv _) as [p c]. by simplify_eq/=.
  - exists w1, w2, st'. split; [done|]. unfold conservative_poll. rewrite Hc. pose proof (recv_sent st') as Hr.
    destruct (chan_recv _) as [p c]. by simplify_eq/=.
Qed.
End remainder.
End Remainder01.

(** ** [CollectTo] *)

Module CollectTo.
Section collect.
Context {St Item E W C : Type} {SS : Stream01 St Item E W} (default : C) (extend : C → Item → C).

Record CollectTo := { stream : St; collection : C }.

(** [mem::take] of the collection. *)
Definition finish (c : CollectTo) : C * CollectTo := (collection c, {| stream := stream c; collection := default |}).

Definition new (st : St) : CollectTo := {| stream := st; collection := default |}.

(** The loop of [poll], with fuel. *)
Fixpoint poll (fuel : nat) (c : CollectTo) (w : W) : exec (result (Poll C) E * CollectTo * W) :=
  match fuel with
  | 0 => loop_fuel
  | S fuel =>
      match stream_poll01 (stream c) w with
      | (Ok (Ready (Some v)), st, w) => poll fuel {| stream := st; collection := extend (collection c) v |} w
      | (Ok (Ready None), st, w) => let '(all, c) := finish {| stream := st; collection := collection c |} in ret (Ok (Ready all), c, w)
      | (Ok Pending, st, w) => ret (Ok Pending, {| stream := st; collection := collection c |}, w)
      | (Err e, st, w) => let '(_, c) := finish {| stream := st; collection := collection c |} in ret (Err e, c, w)
      end
  end.

(** Polled until it resolves, [n] times at most. *)
Fixpoint run (n fuel : nat) (c : CollectTo) (w : W) : exec (result (Poll C) E * CollectTo * W) :=
  match n with
  | 0 => ret (Ok Pending, c, w)
  | S n =>
      let! '(p, c, w) := poll fuel c w in
      match p with Ok Pending => run n fuel c w | _ => ret (p, c, w) end
  end.

(** The items so far are in the collection. *)
Definition collected (st0 : St) (c : CollectTo) : Prop :=
  ∃ l, gives01 st0 (Ok <$> l) (stream c) ∧ collection c = foldl extend default l.

Definition outcome (st0 : St) (p : result (Poll C) E) (c : CollectTo) : Prop :=
  match p with
  | Ok Pending => collected st0 c
  | Ok (Ready all) => ∃ l st w w', gives01 st0 (Ok <$> l) st ∧ stream_poll01 st w = (Ok (Ready None), stream c, w') ∧
      all = foldl extend default l ∧ collection c = default
  | Err e => ∃ l, gives01 st0 ((Ok <$> l) ++ [Err e]) (stream c) ∧ collection c = default
  end.

(** No run of the stream gives more than [N] items. *)
Definition gives_at_most (N : nat) (st : St) : Prop := ∀ l st', gives01 st (Ok <$> l) st' → length l ≤ N.

Lemma gives_at_most_item N st x st' w w' :
  gives_at_most N st → stream_poll01 st w = (Ok (Ready (Some x)), st', w') → ∃ M, N = S M ∧ gives_at_most M st'.
Proof.
  intros HN Hp. assert (∀ l s, gives01 st' (Ok <$> l) s → S (length l) ≤ N) as H.
  { intros l s Hg. apply (HN (x :: l) s). simpl. by eapply gives_item. }
  destruct N as [|M]; [specialize (H [] st' (gives_nil _)); lia|]. exists M. split; [done|]. intros l s Hg. specialize (H l s Hg). lia.
Qed.

Lemma collect_to_poll st0 N fuel c w :
  collected st0 c → gives_at_most N (stream c) → N < fuel →
  ∃ p c' w', poll fuel c w = ret (p, c', w') ∧ outcome st0 p c' ∧ (p = Ok Pending → gives_at_most N (stream c')).
Proof.
  revert N c w. induction fuel as [|fuel IH]; intros N c w (l&Hg&Hc) HN Hlt; simpl; [lia|].
  destruct (stream_poll01 (stream c) w) as [[p st] w1] eqn:Hp. pose proof (gives_poll _ _ _ _ _ _ _ Hg Hp) as Hg'.
  destruct p as [[[x|]|]|e]; simpl in Hg'.
  - destruct (gives_at_most_item _ _ _ _ _ _ HN Hp) as (M&->&HM). specialize (Hg' ltac:(done)).
    destruct (IH M {| stream := st; collection := extend (collection c) x |} w1) as (p&c'&w'&->&Ho&Hle); [|done|lia|].
    + exists (l ++ [x]). rewrite fmap_app. split; [done|]. simpl. by rewrite Hc, foldl_snoc.
    + exists p, c', w'. split; [done|]. split; [done|]. intros Hpend k s Hk. specialize (Hle Hpend k s Hk). lia.
  - eexists _, _, _. split; [done|]. simpl. split; [|done]. by exists l, (stream c), w, w1.
  - specialize (Hg' ltac:(done)). rewrite app_nil_r in Hg'. eexists _, _, _. split; [done|]. split; [by exists l|].
    intros _ k s Hk. apply (HN k s). by eapply gives_wait.
  - eexists _, _, _. split; [done|]. split; [|done]. exists l. split; [by apply Hg'|done].
Qed.

(** The future resolves with all the items in the collection, in order, when the stream ends,
    and with the first error of the stream otherwise, having dropped what it collected. *)
Theorem collect_to_sound (st : St) N n fuel w :
  gives_at_most N st → N < fuel → ∃ p c w', run n fuel (new st) w = ret (p, c, w') ∧ outcome st p c.
Proof.
  intros HN Hlt. assert (collected st (new st)) as Hc by (exists []; split; [constructor|done]).
  change st with (stream (new st)) in HN. revert HN Hc. generalize (new st) as c. revert w.
  induction n as [|n IH]; intros w c HN Hc; simpl; [by eexists _, _, _|].
  destruct (collect_to_poll st N fuel c w Hc HN Hlt) as (p&c1&w1&->&Ho&Hle). simpl.
  destruct p as [[all|]|e]; [by eexists _, _, _|by apply IH; [apply Hle|]|by eexists _, _, _].
Qed.
End collect.
End CollectTo.

(** ** [SelectAll] *)

(** [FuturesUnordered<StreamFuture<S>>] of futures 0.1: a set of streams.  A poll advances any of
    them; the stream that answers leaves the set with its answer. *)
Section evolve.
Context {S Item E W : Type} {SS : Stream01 S Item E W}.
Definition evolve01 (l l' : list S) : Prop := ∃ k, Forall2 idles01 l k ∧ k ≡ₚ l'.
Definition answers01 (s : S) (r : result (option Item) E) (s' : S) : Prop :=
  ∃ s1 w w', idles01 s s1 ∧ stream_poll01 s1 w = (match r with Ok x => Ok (Ready x) | Err e => Err e end, s', w').
End evolve.

Class StreamSet (S Item E W : Type) {SS : Stream01 S Item E W} := {
  set : Type;
  set_new : set;
  set_push : S → set → set;
  set_len : set → nat;
  set_poll : set → W → result (Poll (option (option Item * S))) (E * S) * set * W;
  streams_of : set → list S;
  streams_new : streams_of set_new = [];
  streams_push s q : streams_of (set_push s q) ≡ₚ s :: streams_of q;
  set_len_streams q : set_len q = length (streams_of q);
  set_poll_spec q w :
    match set_poll q w with
    | (Ok (Ready None), q', _) => streams_of q = [] ∧ streams_of q' = []
    | (Ok Pending, q', _) => evolve01 (streams_of q) (streams_of q')
    | (Ok (Ready (Some (x, s'))), q', _) =>
        ∃ s l, streams_of q ≡ₚ s :: l ∧ answers01 s (Ok x) s' ∧ evolve01 l (streams_of q')
    | (Err (e, s'), q', _) => ∃ s l, streams_of q ≡ₚ s :: l ∧ answers01 s (Err e) s' ∧ evolve01 l (streams_of q')
    end;
}.

Module Select01.
Section select.
Context {St Item E W : Type} {SS : Stream01 St Item E W} {ST : StreamSet St Item E W}.

Definition len (q : set) : nat := set_len q.
Definition is_empty (q : set) : bool := set_len q =? 0.
Definition push (q : set) (st : St) : set := set_push st q.
Definition select_all (streams : list St) : set := foldl push set_new streams.

(** The loop of [poll], with fuel: a stream leaves the set in every round that goes on. *)
Fixpoint poll (fuel : nat) (q : set) (w : W) : exec (result (Poll (option Item)) E * set * W) :=
  match fuel with
  | 0 => loop_fuel
  | S fuel =>
      match set_poll q w with
      | (Err (err, _), q, w) => ret (Err err, q, w)
      | (Ok Pending, q, w) => ret (Ok Pending, q, w)
      | (Ok (Ready (Some (Some item, remaining))), q, w) => ret (Ok (Ready (Some item)), push q remaining, w)
      | (Ok (Ready (Some (None, _))), q, w) => poll fuel q w
      | (Ok (Ready None), q, w) => ret (Ok (Ready None), q, w)
      end
  end.

(** Polled [n] times; whether the last answer was the end. *)
Fixpoint polls (n fuel : nat) (q : set) (w : W) : exec (list (result Item E) * bool * set * W) :=
  match n with
  | 0 => ret ([], false, q, w)
  | S n =>
      let! '(p, q, w) := poll fuel q w in
      match p with
      | Ok (Ready None) => ret ([], true, q, w)
      | _ => let! '(l, ended, q, w) := polls n fuel q w in ret (event p ++ l, ended, q, w)
      end
  end.

(** ** What the streams gave *)

Implicit Types (tagged : list (nat * result Item E)) (live : list (nat * St)).

Definition of_stream (i : nat) tagged : list (result Item E) := omap (λ t, if t.1 =? i then Some t.2 else None) tagged.

(** A stream that ended, or failed, is over. *)
Definition over (s : St) (l : list (result Item E)) : Prop :=
  (∃ s1 s2 w w', gives01 s l s1 ∧ stream_poll01 s1 w = (Ok (Ready None), s2, w')) ∨
  (∃ k e s', l = k ++ [Err e] ∧ gives01 s l s').

Context (streams : list St).

Record parts live tagged : Prop := {
  parts_nodup : NoDup live.*1;
  parts_valid : Forall (λ p, p.1 < length streams) live;
  parts_gave i s : streams !! i = Some s →
    (∃ s', (i, s') ∈ live ∧ gives01 s (of_stream i tagged) s') ∨ i ∉ live.*1 ∧ over s (of_stream i tagged);
  parts_tagged : Forall (λ t, t.1 < length streams) tagged;
}.

Definition merged (q : set) tagged : Prop := ∃ live, live.*2 = streams_of q ∧ parts live tagged.

Lemma parts_perm live live' tagged : live ≡ₚ live' → parts live tagged → parts live' tagged.
Proof.
  intros Hp [Hn Hv Hg Ht]. split; [by rewrite <-Hp|by rewrite <-Hp| |done]. intros i s Hi.
  destruct (Hg i s Hi) as [(s'&Hin&Hs)|Ho]; [left; exists s'; by rewrite <-Hp|right; by rewrite <-Hp].
Qed.

Lemma parts_idle live live' tagged :
  Forall2 (λ p p', p.1 = p'.1 ∧ idles01 p.2 p'.2) live live' → parts live tagged → parts live' tagged.
Proof.
  intros Hl [Hn Hv Hg Ht]. assert (live'.*1 = live.*1) as Hfst.
  { clear -Hl. induction Hl as [|p p' l l' [Hp _] _ IH]; csimpl; congruence. }
  split; [by rewrite Hfst| | |done].
  - apply (Forall_fmap fst (λ i, i < length streams)). rewrite Hfst. by apply Forall_fmap.
  - intros i s Hi. destruct (Hg i s Hi) as [(s'&Hin&Hs)|Ho]; [left|right; by rewrite Hfst].
    apply list_elem_of_lookup in Hin as [n Hn']. destruct (Forall2_lookup_l _ _ _ _ _ Hl Hn') as ([j s2]&Hj&[Heq Hid]). simpl in *. subst j.
    exists s2. split; [by eapply list_elem_of_lookup_2|]. rewrite <-(app_nil_r (of_stream i tagged)).
    eapply gives_app; [done|by apply idles_gives].
Qed.

Lemma live_evolve live l :
  evolve01 live.*2 l → ∃ live1 live2, Forall2 (λ p p', p.1 = p'.1 ∧ idles01 p.2 p'.2) live live1 ∧ live1 ≡ₚ live2 ∧ live2.*2 = l.
Proof.
  intros (k&Hk&Hl). assert (∃ live1, live1.*2 = k ∧ Forall2 (λ p p', p.1 = p'.1 ∧ idles01 p.2 p'.2) live live1) as (live1&<-&H1).
  { clear -Hk. remember live.*2 as m eqn:Hm. revert live Hm.
    induction Hk as [|a a' m k Hs _ IH]; intros [|[j b] live] Hm; simplify_eq/=; [by exists []|].
    destruct (IH live eq_refl) as (live1&<-&H1). exists ((j, a') :: live1). split; [done|]. by constructor. }
  symmetry in Hl. apply Permutation_map_inv in Hl as (live2&->&H2). by exists live1, live2.
Qed.

(** A stream of the set answers, the others go on. *)
Lemma merged_answer q tagged s l r s' l' :
  merged q tagged → streams_of q ≡ₚ s :: l → answers01 s r s' → evolve01 l l' →
  ∃ i s1 live w w', live.*2 = l' ∧ parts ((i, s1) :: live) tagged ∧
    stream_poll01 s1 w = (match r with Ok x => Ok (Ready x) | Err e => Err e end, s', w').
Proof.
  intros (live&Hl&Hp) Hq (s1&w&w'&Hi&Hr) (k&Hk&Hkl). rewrite <-Hl in Hq. symmetry in Hq.
  apply Permutation_map_inv in Hq as ([|[i s0] live0]&Heq&Hperm); simplify_eq/=.
  destruct (live_evolve live0 l') as (live1&live2&H1&H2&<-); [by exists k|].
  exists i, s1, live2, w, w'. split; [done|]. split; [|done].
  apply (parts_perm ((i, s1) :: live1)); [by constructor|]. apply (parts_idle ((i, s0) :: live0)); [by constructor|]. by apply (parts_perm live).
Qed.

Lemma parts_event i s ev s' live tagged :
  parts ((i, s) :: live) tagged → gives01 s [ev] s' → parts ((i, s') :: live) (tagged ++ [(i, ev)]).
Proof.
  intros [Hn Hv Hg Ht] Hs. split; [done|by inversion Hv; constructor| |].
  2: { apply Forall_app. split; [done|]. inversion Hv; subst. by repeat constructor. }
  intros j s0 Hj. unfold of_stream in *. rewrite omap_app. simpl. destruct (Nat.eqb_spec i j) as [<-|Hne]; simpl.
  - left. exists s'. split; [by left|]. destruct (Hg i s0 Hj) as [(s1&Hin&Hs1)|[Hni _]].
    + apply elem_of_cons in Hin as [[= ->]|Hin]; [by eapply gives_app|]. exfalso. apply NoDup_cons in Hn as [Hn _]. apply Hn.
      apply list_elem_of_fmap. by exists (i, s1).
    + exfalso. apply Hni. by left.
  - rewrite app_nil_r. destruct (Hg j s0 Hj) as [(s1&Hin&Hs1)|Ho]; [left|by right]. exists s1. split; [|done].
    apply elem_of_cons in Hin as [[= -> ->]|Hin]; [done|by right].
Qed.

(** A stream leaves the set when it is over. *)
Lemma parts_leave i s live tagged :
  parts ((i, s) :: live) tagged →
  (∀ s0, gives01 s0 (of_stream i tagged) s → over s0 (of_stream i tagged)) → parts live tagged.
Proof.
  intros [Hn Hv Hg Ht] Hover. apply NoDup_cons in Hn as [Hni Hn]. split; [done|by inversion Hv| |done].
  intros j s0 Hj. destruct (Hg j s0 Hj) as [(s1&Hin&Hs1)|[Hnj Ho]]; [|right; set_solver].
  apply elem_of_cons in Hin as [[= -> ->]|Hin]; [right; eauto|left; eauto].
Qed.

(** ** A run *)

Lemma streams_push_merged q s live tagged i :
  parts ((i, s) :: live) tagged → live.*2 = streams_of q → merged (push q s) tagged.
Proof.
  intros Hp Hl. pose proof (streams_push s q) as Hq. rewrite <-Hl in Hq. change (s :: live.*2) with (((i, s) :: live).*2) in Hq.
  apply Permutation_map_inv in Hq as (live'&Heq&Hperm). exists live'. split; [done|]. by eapply parts_perm.
Qed.

Lemma evolve01_length (l l' : list St) : evolve01 l l' → length l' = length l.
Proof. intros (k&Hk&Hp). by rewrite <-Hp, (Forall2_length _ _ _ Hk). Qed.

Lemma select_poll_ok fuel q tagged w :
  merged q tagged → length (streams_of q) < fuel →
  ∃ p q' w' t, poll fuel q w = ret (p, q', w') ∧ merged q' (tagged ++ t) ∧ t.*2 = event p ∧
    length (streams_of q') ≤ length (streams_of q) ∧ (p = Ok (Ready None) → streams_of q' = []).
Proof.
  revert q w. induction fuel as [|fuel IH]; intros q w Hm Hlt; simpl; [lia|].
  pose proof (set_poll_spec q w) as Hs. destruct (set_poll q w) as [[[[[[[x|] s']|]|]|[e s']] q'] w'].
  - destruct Hs as (s&l&Hq&Ha&He). destruct (merged_answer _ _ _ _ _ _ _ Hm Hq Ha He) as (i&s1&live&w1&w2&Hl&Hparts&Hp).
    eexists _, _, _, [(i, Ok x)]. split; [done|]. split.
    { apply (streams_push_merged q' s' live _ i); [|done]. apply (parts_event i s1); [done|]. eapply gives_item; [done|constructor]. }
    split; [done|]. split; [|done]. unfold push. rewrite streams_push, Hq. simpl. by rewrite (evolve01_length _ _ He).
  - destruct Hs as (s&l&Hq&Ha&He). destruct (merged_answer _ _ _ _ _ _ _ Hm Hq Ha He) as (i&s1&live&w1&w2&Hl&Hparts&Hp).
    assert (length (streams_of q') < length (streams_of q)) as Hless by (rewrite Hq, (evolve01_length _ _ He); simpl; lia).
    destruct (IH q' w') as (p&q2&w3&t&->&Hm2&Ht&Hlen&Hn); [|lia|by exists p, q2, w3, t; repeat split; try done; lia].
    exists live. split; [done|]. eapply parts_leave; [done|]. intros s0 Hg. left. by exists s1, s', w1, w2.
  - destruct Hs as [Hq Hq']. eexists _, _, _, []. split; [done|]. rewrite app_nil_r, Hq, Hq'.
    destruct Hm as (live&Hl&Hparts). rewrite Hq in Hl. split; [|done]. exists live. by rewrite Hl, Hq'.
  - eexists _, _, _, []. split; [done|]. rewrite app_nil_r. destruct Hm as (live&Hl&Hparts).
    split; [|split; [done|]; split; [by rewrite (evolve01_length _ _ Hs)|done]].
    destruct (live_evolve live (streams_of q')) as (live1&live2&H1&H2&Hl2); [by rewrite Hl|]. exists live2. split; [done|].
    eapply parts_perm; [done|]. by eapply parts_idle.
  - destruct Hs as (s&l&Hq&Ha&He). destruct (merged_answer _ _ _ _ _ _ _ Hm Hq Ha He) as (i&s1&live&w1&w2&Hl&Hparts&Hp).
    eexists _, _, _, [(i, Err e)]. split; [done|]. split.
    { exists live. split; [done|]. apply (parts_leave i s').
      - apply (parts_event i s1); [done|]. eapply gives_err; [done|constructor].
      - intros s0 Hg. right. exists (of_stream i tagged), e, s'. split; [|done]. unfold of_stream. rewrite omap_app. simpl. by rewrite Nat.eqb_refl. }
    split; [done|]. split; [|done]. rewrite Hq. simpl. rewrite (evolve01_length _ _ He). lia.
Qed.

Lemma select_polls_ok n fuel q tagged w :
  merged q tagged → length (streams_of q) < fuel →
  ∃ l ended q' w' t, polls n fuel q w = ret (l, ended, q', w') ∧ merged q' (tagged ++ t) ∧ t.*2 = l ∧
    (ended = true → streams_of q' = []).
Proof.
  revert q tagged w. induction n as [|n IH]; intros q tagged w Hm Hlt; simpl; [exists [], false, q, w, []; by rewrite app_nil_r|].
  destruct (select_poll_ok fuel q tagged w Hm Hlt) as (p&q1&w1&t&->&Hm1&Ht&Hlen&Hn). simpl.
  destruct (IH q1 _ w1 Hm1) as (l&ended&q2&w2&t2&Heq&Hm2&Ht2&He2); [lia|]. rewrite Heq. rewrite <-app_assoc in Hm2.
  destruct p as [[[x|]|]|e]; simpl; [|by exists [], true, q1, w1, t; simpl in *; split; [done|]; split; [done|]; split; [done|]; auto|..];
    eexists _, ended, q2, w2, (t ++ t2); (split; [done|]); (split; [done|]); by rewrite fmap_app, Ht, Ht2.
Qed.

Lemma select_all_streams : streams_of (select_all streams) ≡ₚ streams.
Proof.
  unfold select_all. cut (∀ q, streams_of (foldl push q streams) ≡ₚ streams ++ streams_of q).
  { intros H. rewrite H, streams_new. by rewrite app_nil_r. }
  clear. induction streams as [|s l IH]; intros q; simpl; [done|]. rewrite IH. unfold push. rewrite streams_push. solve_Permutation.
Qed.

Lemma select_all_merged : merged (select_all streams) [].
Proof.
  pose proof select_all_streams as Hs.
  set (live := zip (seq 0 (length streams)) streams).
  assert (live.*1 = seq 0 (length streams) ∧ live.*2 = streams) as [H1 H2]
    by (split; [apply fst_zip|apply snd_zip]; by rewrite length_seq).
  rewrite <-H2 in Hs at 2. apply Permutation_map_inv in Hs as (live'&Heq&Hp). exists live'. split; [done|]. eapply parts_perm; [done|].
  split; [rewrite H1; apply NoDup_seq| | |done].
  - apply (Forall_fmap fst (λ i, i < length streams)). rewrite H1. apply Forall_forall. intros i Hi%elem_of_seq. lia.
  - intros i s Hi. left. exists s. split; [|constructor]. apply list_elem_of_lookup. exists i. unfold live.
    rewrite lookup_zip_with, Hi. by rewrite (lookup_seq_lt _ _ _ (lookup_lt_Some _ _ _ Hi)).
Qed.
End select.

(** Streams that are merged never make the loop run on, and what comes out is what each of them
    gives, in its order, until it ends or fails; the stream that fails is dropped, the others go
    on.  The merged stream ends when all of them are over. *)
Theorem select_all_sound {St Item E W : Type} {SS : Stream01 St Item E W} {ST : StreamSet St Item E W} (streams : list St) n fuel w :
  length streams < fuel →
  ∃ l ended q w' (tagged : list (nat * result Item E)),
    polls n fuel (select_all streams) w = ret (l, ended, q, w') ∧ l = tagged.*2 ∧
    Forall (λ t, t.1 < length streams) tagged ∧
    ∀ i s, streams !! i = Some s →
      (∃ s', gives01 s (of_stream i tagged) s') ∧ (ended = true → over s (of_stream i tagged)).
Proof.
  intros Hlt. pose proof (select_all_merged streams) as Hm.
  destruct (select_polls_ok streams n fuel (select_all streams) [] w Hm) as (l&ended&q&w'&t&Heq&(live&Hl&Hp)&<-&He).
  { by rewrite select_all_streams. }
  exists t.*2, ended, q, w', t. split; [done|]. split; [done|]. split; [apply Hp|]. intros i s Hi.
  destruct (parts_gave _ _ _ Hp i s Hi) as [(s'&Hin&Hg)|[_ Ho]]; (split; [|intros Hend]).
  - by exists s'.
  - exfalso. rewrite (He Hend) in Hl. apply fmap_nil_inv in Hl. subst. by inversion Hin.
  - destruct Ho as [(s1&?&?&?&?&_)|(?&?&s1&_&?)]; by exists s1.
  - done.
Qed.

(** *** A concrete merge *)

Section concrete.
(** A set of streams of which one is polled at a time, in turn. *)
#[local] Program Instance turns {St Item E W} {SS : Stream01 St Item E W} : StreamSet St Item E W := {|
  set := list St; set_new := []; set_push s q := q ++ [s]; set_len := length; streams_of q := q;
  set_poll q w :=
    match q with
    | [] => (Ok (Ready None), [], w)
    | s :: q =>
        match stream_poll01 s w with
        | (Ok (Ready x), s, w) => (Ok (Ready (Some (x, s))), q, w)
        | (Ok Pending, s, w) => (Ok Pending, q ++ [s], w)
        | (Err e, s, w) => (Err (e, s), q, w)
        end
    end;
|}.
Next Obligation. done. Qed.
Next Obligation. intros. simpl. by rewrite Permutation_app_comm. Qed.
Next Obligation. done. Qed.
Next Obligation.
  intros St Item E W SS [|s q] w; simpl; [done|].
  assert (∀ l : list St, evolve01 l l) as Hl by (intros l; exists l; split; [|done]; induction l; constructor; [apply rtc_refl|done]).
  destruct (stream_poll01 s w) as [[[[x|]|e] s'] w'] eqn:Hp; simpl.
  - exists s, q. split; [done|]. split; [|done]. exists s, w, w'. split; [apply rtc_refl|done].
  - exists (s' :: q). split; [|by rewrite Permutation_app_comm]. constructor; [apply rtc_once; eauto|].
    destruct (Hl q) as (k&Hk&_). clear. induction q; constructor; [apply rtc_refl|done].
  - exists s, q. split; [done|]. split; [|done]. exists s, w, w'. split; [apply rtc_refl|done].
Qed.

#[local] Instance scripted : Stream01 (list (result (Poll nat) nat)) nat nat nat := λ s w,
  match s with
  | [] => (Ok (Ready None), [], w)
  | Ok (Ready x) :: s => (Ok (Ready (Some x)), s, w)
  | Ok Pending :: s => (Ok Pending, s, w)
  | Err e :: s => (Err e, s, w)
  end.

(** Of the second stream, what comes after its error is lost. *)
Lemma select_all_sound_witness :
  let streams := [[Ok (Ready 1); Ok Pending; Ok (Ready 2)]; [Ok (Ready 10); Err 7; Ok (Ready 11)]] in
  (∃ q, polls 9 3 (select_all streams) 0 = ret ([Ok 1; Ok 10; Err 7; Ok 2], true, q, 0)) ∧
  ∃ l ended q w' (tagged : list (nat * result nat nat)),
    polls 9 3 (select_all streams) 0 = ret (l, ended, q, w') ∧ l = tagged.*2 ∧
    Forall (λ t, t.1 < length streams) tagged ∧
    ∀ i s, streams !! i = Some s →
      (∃ s', gives01 s (of_stream i tagged) s') ∧ (ended = true → over s (of_stream i tagged)).
Proof. split; [eexists; vm_compute; reflexivity|]. apply select_all_sound. simpl. lia. Defined.
End concrete.
End Select01.

(** * Macros *)

Module Macros01.

(** [handle_nb!]: an [io::Result] as a poll; the errors are those of the caller. *)
Definition handle_nb {T IoError : Type} (would_block : IoError → bool) (e : result T IoError) : result (Poll T) IoError :=
  match e with
  | Ok t => Ok (Ready t)
  | Err e => if would_block e then Ok Pending else Err e
  end.

(** What [return] leaves a function with, and the expression otherwise: [try_boxfuture!],
    [try_left_future!] and [try_boxstream!] with [failed] for [future::err] and for a stream of the
    one error, [ensure_boxfuture!] and [ensure_boxstream!] with a condition. *)
Definition try_boxed {T E E' R : Type} (into : E → E') (failed : E' → R) (e : result T E) (go_on : T → R) : R :=
  match e with Ok t => go_on t | Err e => failed (into e) end.
Definition ensure_boxed {E E' R : Type} (into : E → E') (failed : E' → R) (cond : bool) (e : E) (go_on : R) : R :=
  if negb cond then failed (into e) else go_on.
End Macros01.
