(* ===== verification/ScubaDerive.v ===== *)
(** The derive macros of [scuba_sample] (src/shed/scuba_sample/derive/src/lib.rs): reading the
    attributes of a struct's fields, refusing what does not make sense, and generating the
    conversions of the struct to a sample and from one.

    The syntax trees of syn are data with the cases the code tells apart; generated code is data,
    whose meaning is what rustc would make of it.  The conversions of the types of fields, their
    custom parsers and the order of a [HashMap] are parameters. *)
From stdpp Require Import strings.
From S2P Require Import Prelude RustStd RustStr ScubaValue Sampling ScubaSample.
Import ScubaValue ScubaSample.

Module ScubaDerive.
#[local] Abbreviation length := List.length.

(** * Syntax *)

Section syntax.
Context {Ty Path : Type}.

(** A meta in [#[scuba(...)]]; a value that does not parse is [None]. *)
Inductive Meta :=
| MetaName (value : option string)
| MetaSkip
| MetaCustomParser (value : option Path)
| MetaFlatten
| MetaOther (path : string).

Inductive Attribute := Scuba (metas : list Meta) | OtherAttribute (path : string).

Record Field := { field_ident : string; field_ty : Ty; attrs : list Attribute }.

Inductive DeriveInput := NamedStruct (ident : string) (named : list Field) | OtherData (ident : string).

(** The kinds of syn's errors. *)
Inductive DeriveError := RequiresNamedFields | BadValue | Unrecognized (path : string) | DuplicateColumn (name : string).

(** * Reading the fields *)

Inductive Derive := StructuredSample | TryFromSample.

Record SampleField := {
  ident : string;
  ty : Ty;
  rename : option string;
  skip : bool;
  custom_parser : option Path;
  flatten : bool;
}.
Implicit Types (f : SampleField).

(** The closure given to [parse_nested_meta]. *)
Definition read_meta f (meta : Meta) : result SampleField DeriveError :=
  match meta with
  | MetaName (Some value) =>
      Ok {| ident := ident f; ty := ty f; rename := Some value; skip := skip f; custom_parser := custom_parser f; flatten := flatten f |}
  | MetaSkip =>
      Ok {| ident := ident f; ty := ty f; rename := rename f; skip := true; custom_parser := custom_parser f; flatten := flatten f |}
  | MetaCustomParser (Some lit) =>
      Ok {| ident := ident f; ty := ty f; rename := rename f; skip := skip f; custom_parser := Some lit; flatten := flatten f |}
  | MetaFlatten =>
      Ok {| ident := ident f; ty := ty f; rename := rename f; skip := skip f; custom_parser := custom_parser f; flatten := true |}
  | MetaName None | MetaCustomParser None => Err BadValue
  | MetaOther path => Err (Unrecognized path)
  end.

(** The metas of an attribute, up to the first error. *)
Fixpoint read_metas f (metas : list Meta) : result SampleField DeriveError :=
  match metas with
  | [] => Ok f
  | meta :: metas => match read_meta f meta with Ok f => read_metas f metas | Err e => Err e end
  end.

Fixpoint read_attrs f (attrs : list Attribute) : result SampleField DeriveError :=
  match attrs with
  | [] => Ok f
  | Scuba metas :: attrs => match read_metas f metas with Ok f => read_attrs f attrs | Err e => Err e end
  | OtherAttribute _ :: attrs => read_attrs f attrs
  end.

Definition from_field (field : Field) : result SampleField DeriveError :=
  read_attrs {| ident := field_ident field; ty := field_ty field; rename := None; skip := false; custom_parser := None; flatten := false |}
    (attrs field).

Definition scuba_column_name f : string := match rename f with Some rename => rename | None => ident f end.

(** The fields that are read, without the skipped ones if those may be skipped, and the errors. *)
Fixpoint read_fields (can_skip : bool) (named : list Field) : list SampleField * list DeriveError :=
  match named with
  | [] => ([], [])
  | field :: named =>
      let '(sample_fields, errors) := read_fields can_skip named in
      match from_field field with
      | Ok sample_field => if can_skip && skip sample_field then (sample_fields, errors) else (sample_field :: sample_fields, errors)
      | Err error => (sample_fields, error :: errors)
      end
  end.

Definition get_fields (ast : DeriveInput) (derive : Derive) : result (list SampleField * list DeriveError) DeriveError :=
  match ast with
  | OtherData _ => Err RequiresNamedFields
  | NamedStruct _ named =>
      let can_skip := match derive with StructuredSample => true | TryFromSample => false end in
      Ok (read_fields can_skip named)
  end.

(** The errors pushed for names that were seen before. *)
Fixpoint check_unique (unique : gset string) (fields : list SampleField) : list DeriveError :=
  match fields with
  | [] => []
  | f :: fields =>
      let rename := scuba_column_name f in
      if decide (rename ∈ unique) then DuplicateColumn rename :: check_unique unique fields
      else check_unique ({[ rename ]} ∪ unique) fields
  end.

(** The errors combined into one. *)
Definition propagate_errors (errors : list DeriveError) : result () (list DeriveError) :=
  match errors with [] => Ok () | _ :: _ => Err errors end.

(** * The code generated *)

(** [sample.add(column, thingy.field)] and [sample.join_values(&field.into())]. *)
Inductive Adder := Add (column field : string) (ty : Ty) | Join (field : string) (ty : Ty).

Definition get_adder f : Adder :=
  if flatten f then Join (ident f) (ty f) else Add (scuba_column_name f) (ident f) (ty f).

Inductive Parser := CustomParser (path : Path) (field : string) | TryInto (ty : Ty) (field : string).

Definition get_parser f : Parser :=
  match custom_parser f with Some parser => CustomParser parser (ident f) | None => TryInto (ty f) (ident f) end.

(** The implementations of [From] and of [TryFrom]: what is retrieved, then what is parsed. *)
Definition StructuredSampleImpl : Type := list Adder.
Record TryFromSampleImpl := { retrieved : list (string * string); parsed : list (string * Parser) }.

Definition get_field_names (fields : list SampleField) : list string := ident <$> fields.
Definition get_field_renames (fields : list SampleField) : list string := scuba_column_name <$> fields.

(** The fields of a struct, if nothing is wrong with them. *)
Definition checked_fields (ast : DeriveInput) (derive : Derive) : result (list SampleField) (list DeriveError) :=
  match get_fields ast derive with
  | Err e => Err [e]
  | Ok (fields, errors) =>
      match propagate_errors (errors ++ check_unique ∅ fields) with Err errors => Err errors | Ok _ => Ok fields end
  end.

Definition impl_structured_sample (ast : DeriveInput) : result StructuredSampleImpl (list DeriveError) :=
  match checked_fields ast StructuredSample with
  | Err errors => Err errors
  | Ok fields => Ok (get_adder <$> fields)
  end.

Definition impl_try_from_sample (ast : DeriveInput) : result TryFromSampleImpl (list DeriveError) :=
  match checked_fields ast TryFromSample with
  | Err errors => Err errors
  | Ok fields =>
      Ok {| retrieved := zip (get_field_names fields) (get_field_renames fields);
            parsed := zip (get_field_names fields) (get_parser <$> fields) |}
  end.
End syntax.
Arguments Field : clear implicits.
Arguments Meta : clear implicits.
Arguments Attribute : clear implicits.
Arguments DeriveInput : clear implicits.
Arguments SampleField : clear implicits.
Arguments Adder : clear implicits.
Arguments Parser : clear implicits.
Arguments TryFromSampleImpl : clear implicits.
Arguments StructuredSampleImpl : clear implicits.

(** * What the code does *)

(** The conversions of the types of fields, and custom parsers with the type of their argument. *)
Class FieldTypes `{FL : Floats} (Ty Val Path : Type) := {
  into_value : Ty → Val → ScubaValue;
  try_into : Ty → ScubaValue → result Val Error;
  into_sample : Ty → Val → exec ScubaSample;
  parser_arg : Path → Ty;
  run_parser : Path → Val → option Val;
}.

Section run.
Context `{FL : Floats} {JN : JsonNumber} {Ty Val Path : Type} {FT : FieldTypes Ty Val Path}.
(** The order of the entries of a [HashMap]. *)
Context (iter : gmap string ScubaValue → list (string * ScubaValue)) (iter_perm : ∀ m, iter m ≡ₚ map_to_list m).

Definition run_adder (thingy : string → Val) (sample : ScubaSample) (adder : Adder Ty) : exec ScubaSample :=
  match adder with
  | Add column field ty => ret (add sample column (into_value ty (thingy field)))
  | Join field ty => let! other := into_sample ty (thingy field) in ret (join_values sample (iter (values other)))
  end.

Fixpoint run_adders (thingy : string → Val) (sample : ScubaSample) (adders : StructuredSampleImpl Ty) : exec ScubaSample :=
  match adders with
  | [] => ret sample
  | adder :: adders => let! sample := run_adder thingy sample adder in run_adders thingy sample adders
  end.

(** [From<Struct> for ScubaSample]. *)
Definition from_struct (code : StructuredSampleImpl Ty) (thingy : string → Val) (now : Z) : exec ScubaSample :=
  let! sample := ScubaSample.new now in run_adders thingy sample code.

(** The statements [let field = sample.retrieve(column).ok_or(..)?]. *)
Fixpoint retrieve_all (sample : ScubaSample) (columns : list (string * string)) : result (gmap string ScubaValue) Error :=
  match columns with
  | [] => Ok ∅
  | (field, column) :: columns =>
      match retrieve sample column with
      | (None, _) => Err MissingColumn
      | (Some value, sample) => match retrieve_all sample columns with Ok m => Ok (<[field := value]> m) | Err e => Err e end
      end
  end.

Definition parse_field (locals : gmap string ScubaValue) (parser : Parser Ty Path) : exec (result Val Error) :=
  match parser with
  | CustomParser path field =>
      let! value := expect (locals !! field) in
      ret (match try_into (parser_arg path) value with
           | Err e => Err e
           | Ok arg => match run_parser path arg with Some v => Ok v | None => Err CustomParseError end
           end)
  | TryInto ty field => let! value := expect (locals !! field) in ret (try_into ty value)
  end.

(** The struct expression; its fields in order. *)
Fixpoint parse_fields (locals : gmap string ScubaValue) (parsers : list (string * Parser Ty Path)) : exec (result (list (string * Val)) Error) :=
  match parsers with
  | [] => ret (Ok [])
  | (field, parser) :: parsers =>
      let! r := parse_field locals parser in
      match r with
      | Err e => ret (Err e)
      | Ok v => let! r := parse_fields locals parsers in ret (match r with Ok l => Ok ((field, v) :: l) | Err e => Err e end)
      end
  end.

(** [TryFrom<ScubaSample> for Struct]. *)
Definition try_from_sample (code : TryFromSampleImpl Ty Path) (sample : ScubaSample) : exec (result (list (string * Val)) Error) :=
  match retrieve_all sample (retrieved code) with
  | Err e => ret (Err e)
  | Ok locals => parse_fields locals (parsed code)
  end.

(** * What is accepted *)

Section accepted.
Implicit Types (named : list (Field Ty Path)) (fields : list (SampleField Ty Path)).

Definition kept (can_skip : bool) named : list (SampleField Ty Path) :=
  omap (λ field, match from_field field with Ok f => if can_skip && skip f then None else Some f | Err _ => None end) named.
Definition field_errors named : list DeriveError :=
  omap (λ field, match from_field field with Ok _ => None | Err e => Some e end) named.

Lemma read_fields_kept can_skip named : read_fields can_skip named = (kept can_skip named, field_errors named).
Proof.
  induction named as [|field named IH]; simpl; [done|]. rewrite IH. unfold kept, field_errors. simpl.
  destruct (from_field field) as [f|e]; simpl; [by destruct (can_skip && skip f)|done].
Qed.

Lemma check_unique_nil unique fields :
  check_unique unique fields = [] ↔ NoDup (scuba_column_name <$> fields) ∧ Forall (λ f, scuba_column_name f ∉ unique) fields.
Proof.
  revert unique. induction fields as [|f fields IH]; intros unique; simpl; [by split; [split; constructor|]|].
  rewrite NoDup_cons, Forall_cons. destruct (decide (scuba_column_name f ∈ unique)) as [Hin|Hin]; [split; [done|tauto]|].
  rewrite IH. rewrite !Forall_forall, list_elem_of_fmap. set_solver.
Qed.

(** A struct is accepted if it has named fields, the attributes of all of them make sense, and
    the columns of those that are kept are distinct; otherwise every error is reported, those of
    attributes first. *)
Theorem derive_accepts derive (ast : DeriveInput Ty Path) :
  match ast with
  | OtherData _ => checked_fields ast derive = Err [RequiresNamedFields]
  | NamedStruct _ named =>
      let fields := kept (match derive with StructuredSample => true | TryFromSample => false end) named in
      match checked_fields ast derive with
      | Ok fields' => fields' = fields ∧ field_errors named = [] ∧ NoDup (scuba_column_name <$> fields)
      | Err errors => errors = field_errors named ++ check_unique ∅ fields ∧
          (field_errors named ≠ [] ∨ ¬ NoDup (scuba_column_name <$> fields))
      end
  end.
Proof.
  destruct ast as [name named|name]; [|done]. unfold checked_fields, get_fields. rewrite read_fields_kept.
  set (fields := kept _ named). pose proof (check_unique_nil ∅ fields) as Hu.
  destruct (field_errors named) as [|e errors]; simpl; [|split; [done|by left]].
  destruct (check_unique ∅ fields) as [|e errors]; simpl.
  - split; [done|]. split; [done|]. by apply Hu.
  - split; [done|]. right. intros Hn. cut (e :: errors = []); [done|]. apply Hu. split; [done|]. apply Forall_forall. set_solver.
Qed.
End accepted.

(** * What the sample holds *)

(** The columns an adder writes. *)
Definition writes (thingy : string → Val) (adder : Adder Ty) (m : gmap string ScubaValue) : Prop :=
  match adder with
  | Add column field ty => m = {[ column := into_value ty (thingy field) ]}
  | Join field ty => ∃ other, into_sample ty (thingy field) = ret other ∧ m = values other
  end.

(** Later fields override earlier ones; the time is that of the clock. *)
Theorem from_struct_columns thingy (code : StructuredSampleImpl Ty) ms now :
  (0 ≤ now)%Z → Forall2 (writes thingy) code ms →
  ∃ sample, from_struct code thingy now = ret sample ∧ values sample = foldl (λ acc m, m ∪ acc) ∅ ms ∧
    time sample = now ∧ subset sample = None.
Proof.
  intros Hnow Hw. unfold from_struct, ScubaSample.new, seconds_now. rewrite (proj2 (Z.ltb_ge _ _)) by done. simpl.
  set (s0 := {| time := now; subset := None; values := ∅ |}). change ∅ with (values s0) at 1.
  change now with (time s0). change None with (subset s0). generalize s0 as s. clear s0 Hnow.
  induction Hw as [|adder m code ms Ha Hw IH]; intros s; simpl; [by exists s|]. destruct adder as [column field ty|field ty]; simpl in *.
  - subst m. destruct (IH (add s column (into_value ty (thingy field)))) as (s'&->&Hv&Ht&Hs). exists s'. split; [done|].
    rewrite Hv. simpl. by rewrite insert_union_singleton_l.
  - destruct Ha as (other&->&->). simpl.
    destruct (join_values_spec s (values other) (iter (values other)) (iter_perm _)) as [Hj _].
    destruct (IH (join_values s (iter (values other)))) as (s'&->&Hv&Ht&Hs). exists s'. split; [done|]. rewrite Hv, Hj. split; [done|].
    rewrite Ht, Hs. unfold join_values, join_entries. generalize (iter (values other)) as l. clear. intros l.
    revert s. induction l as [|p l IH]; intros s; simpl; [done|]. apply (IH (add s p.1 p.2)).
Qed.

(** * Round trip *)

Implicit Types (f : SampleField Ty Path) (fields : list (SampleField Ty Path)) (locals : gmap string ScubaValue).

(** The value of a field survives its conversions. *)
Definition comes_back f (v : Val) : Prop :=
  match custom_parser f with
  | None => try_into (ty f) (into_value (ty f) v) = Ok v
  | Some path => ∃ arg, try_into (parser_arg path) (into_value (ty f) v) = Ok arg ∧ run_parser path arg = Some v
  end.

Lemma read_attrs_ident f l f' : read_attrs f l = Ok f' → ident f' = ident f.
Proof.
  revert f. induction l as [|[metas|path] l IH]; intros f; simpl; [by intros [= ->]| |apply IH].
  assert (∀ f1, read_metas f metas = Ok f1 → ident f1 = ident f) as Hm.
  { revert f. induction metas as [|meta metas IHm]; intros f f1; simpl; [by intros [= ->]|].
    destruct meta as [[v|]| |[v|]| |p]; simpl; try done; intros H; by rewrite (IHm _ _ H). }
  destruct (read_metas f metas) as [f1|e]; [|done]. intros H. rewrite (IH _ H). by apply Hm.
Qed.

Lemma kept_idents can_skip (named : list (Field Ty Path)) :
  field_errors named = [] → (∀ field f, field ∈ named → from_field field = Ok f → skip f = false) →
  ident <$> kept can_skip named = field_ident <$> named.
Proof.
  induction named as [|field named IH]; intros He Hs; [done|]. unfold kept, field_errors in *. csimpl in *.
  destruct (from_field field) as [f|e] eqn:Hf; [|done]. rewrite (Hs field f) by (done || set_solver). rewrite andb_false_r. csimpl.
  rewrite IH by (done || set_solver). f_equal. by apply (read_attrs_ident _ _ _ Hf).
Qed.

Lemma kept_eq (named : list (Field Ty Path)) :
  (∀ field f, field ∈ named → from_field field = Ok f → skip f = false) → kept true named = kept false named.
Proof.
  induction named as [|field named IH]; intros Hs; [done|]. unfold kept in *. simpl.
  destruct (from_field field) as [f|e] eqn:Hf; [rewrite (Hs field f) by (done || set_solver); simpl; f_equal|];
    (apply IH; intros g h Hg; apply Hs; by right).
Qed.

Lemma kept_elem can_skip (named : list (Field Ty Path)) f :
  f ∈ kept can_skip named → ∃ field, field ∈ named ∧ from_field field = Ok f.
Proof.
  unfold kept. rewrite list_elem_of_omap. intros (field&Hin&Hf). exists field. split; [done|].
  destruct (from_field field) as [f'|e]; [|done]. destruct (can_skip && skip f'); by simplify_eq.
Qed.

(** The columns of plain fields. *)
Lemma run_adders_plain thingy s fields :
  Forall (λ f, flatten f = false) fields → NoDup (scuba_column_name <$> fields) →
  ∃ sample, run_adders thingy s (get_adder <$> fields) = ret sample ∧
    (∀ f, f ∈ fields → values sample !! scuba_column_name f = Some (into_value (ty f) (thingy (ident f)))) ∧
    (∀ k, k ∉ scuba_column_name <$> fields → values sample !! k = values s !! k).
Proof.
  revert s. induction fields as [|f fields IH]; intros s Hf Hn; [exists s; set_solver|].
  apply Forall_cons in Hf as [Hf0 Hf]. rewrite fmap_cons in *. apply NoDup_cons in Hn as [Hni Hn].
  cbn [run_adders]. unfold get_adder at 1. rewrite Hf0. cbn [run_adder exec_bind].
  destruct (IH (add s (scuba_column_name f) (into_value (ty f) (thingy (ident f)))) Hf Hn) as (sample&->&Hin&Hout).
  exists sample. split; [done|]. split.
  - intros g [->|Hg]%elem_of_cons; [|by apply Hin]. rewrite Hout by done. simpl. by rewrite lookup_insert_eq.
  - intros k Hk. apply not_elem_of_cons in Hk as [Hk1 Hk2]. rewrite Hout by done. simpl. by rewrite lookup_insert_ne.
Qed.

Lemma retrieve_all_ok (val : SampleField Ty Path → ScubaValue) s fields :
  NoDup (scuba_column_name <$> fields) → NoDup (ident <$> fields) →
  (∀ f, f ∈ fields → values s !! scuba_column_name f = Some (val f)) →
  ∃ locals, retrieve_all s (zip (get_field_names fields) (get_field_renames fields)) = Ok locals ∧
    ∀ f, f ∈ fields → locals !! ident f = Some (val f).
Proof.
  revert s. induction fields as [|f fields IH]; intros s Hn Hi Hv; simpl; [exists ∅; set_solver|].
  rewrite !fmap_cons in Hn, Hi. apply NoDup_cons in Hn as [Hni Hn]. apply NoDup_cons in Hi as [Hii Hi].
  unfold retrieve. rewrite (Hv f) by by left.
  destruct (IH (set_values s (delete (scuba_column_name f) (values s))) Hn Hi) as (locals&->&Hl).
  - intros g Hg. simpl. rewrite lookup_delete_ne; [apply Hv; by right|]. intros Heq. apply Hni. rewrite Heq. by apply list_elem_of_fmap_2.
  - eexists. split; [done|]. intros g [->|Hg]%elem_of_cons; [by rewrite lookup_insert_eq|].
    rewrite lookup_insert_ne; [by apply Hl|]. intros Heq. apply Hii. rewrite Heq. by apply list_elem_of_fmap_2.
Qed.

Lemma parse_fields_ok thingy locals fields :
  (∀ f, f ∈ fields → locals !! ident f = Some (into_value (ty f) (thingy (ident f))) ∧ comes_back f (thingy (ident f))) →
  parse_fields locals (zip (get_field_names fields) (get_parser <$> fields)) = ret (Ok ((λ i, (i, thingy i)) <$> (ident <$> fields))).
Proof.
  unfold get_field_names. induction fields as [|f fields IH]; intros Hf; [done|]. rewrite !fmap_cons. cbn [zip zip_with parse_fields].
  destruct (Hf f) as [Hl Hc]; [by left|].
  assert (parse_field locals (get_parser f) = ret (Ok (thingy (ident f)))) as ->.
  { unfold get_parser, comes_back in *. destruct (custom_parser f) as [path|]; simpl; rewrite Hl; simpl; [|by rewrite Hc].
    destruct Hc as (arg&->&->). done. }
  cbn [exec_bind]. rewrite IH; [done|]. intros g Hg. apply Hf. by right.
Qed.

(** C37: a struct for which both conversions are derived goes into a sample and comes back the
    same: if none of its fields is skipped or flattened and the value of each survives the
    conversions of its type, or of its custom parser, the sample holds a column for every field,
    under its own name or the one it is given, and reading it gives every field its value. *)
Theorem derive_round_trip (name : string) (named : list (Field Ty Path)) code code' thingy now :
  NoDup (field_ident <$> named) → (0 ≤ now)%Z →
  impl_structured_sample (NamedStruct name named) = Ok code → impl_try_from_sample (NamedStruct name named) = Ok code' →
  (∀ field f, field ∈ named → from_field field = Ok f → skip f = false ∧ flatten f = false ∧ comes_back f (thingy (ident f))) →
  ∃ sample, from_struct code thingy now = ret sample ∧
    (∀ field f, field ∈ named → from_field field = Ok f →
      get sample (scuba_column_name f) = Some (into_value (ty f) (thingy (field_ident field)))) ∧
    try_from_sample code' sample = ret (Ok ((λ field, (field_ident field, thingy (field_ident field))) <$> named)).
Proof.
  intros Hnd Hnow H1 H2 Hf. unfold impl_structured_sample, impl_try_from_sample in *.
  pose proof (derive_accepts StructuredSample (NamedStruct name named)) as Ha. simpl in Ha.
  destruct (checked_fields _ StructuredSample) as [fields|]; [|done]. destruct Ha as (->&He&Hu).
  pose proof (derive_accepts TryFromSample (NamedStruct name named)) as Ha. simpl in Ha.
  destruct (checked_fields _ TryFromSample) as [fields'|]; [|done]. destruct Ha as (->&_&_).
  assert (∀ field f, field ∈ named → from_field field = Ok f → skip f = false) as Hs by (intros; by eapply Hf).
  rewrite (kept_eq _ Hs) in *. simplify_eq. pose proof (kept_idents false named He Hs) as Hid.
  set (fields := kept false named) in *.
  assert (∀ f, f ∈ fields → flatten f = false ∧ comes_back f (thingy (ident f))) as Hk.
  { intros f (field&Hin&Hff)%kept_elem. by apply (Hf field). }
  unfold from_struct, ScubaSample.new, seconds_now. rewrite (proj2 (Z.ltb_ge _ _)) by done. simpl.
  destruct (run_adders_plain thingy {| time := now; subset := None; values := ∅ |} fields) as (sample&->&Hin&_);
    [apply Forall_forall; intros f Hff; by apply Hk|done|].
  exists sample. split; [done|]. split.
  - intros field f Hfield Hff. unfold get. rewrite (Hin f).
    + by rewrite (read_attrs_ident _ _ _ Hff).
    + unfold fields, kept. apply list_elem_of_omap. exists field. by rewrite Hff.
  - unfold try_from_sample. simpl.
    destruct (retrieve_all_ok (λ f, into_value (ty f) (thingy (ident f))) sample fields) as (locals&->&Hl); [done|by rewrite Hid|done|].
    rewrite (parse_fields_ok thingy); [|intros f Hff; split; [by apply Hl|by apply Hk]].
    rewrite Hid, <-list_fmap_compose. done.
Qed.
End run.

(** * Concrete structs *)

Section concrete.
#[local] Existing Instance demo_floats.
#[local] Existing Instance demo_numbers.
#[local] Open Scope string_scope.

(** Fields of integers, strings and booleans, and of a struct with one column, [inner]; a parser of
    decimal numbers. *)
Inductive DemoTy := I32Ty | StringTy | BoolTy | InnerTy.
Inductive DemoVal := VI32 (z : Z) | VStr (s : string) | VBool (b : bool).

#[local] Instance demo_types : FieldTypes DemoTy DemoVal string := {|
  into_value ty v :=
    match v with VI32 z => from_int z | VStr s => from_string s | VBool b => from_bool b end;
  try_into ty value :=
    match ty with
    | I32Ty => result_map VI32 (to_int I32 value)
    | StringTy => result_map VStr (ScubaValue.to_string value)
    | BoolTy => result_map VBool (to_bool value)
    | InnerTy => Err InvalidTypeConversion
    end;
  into_sample ty v := ret (add (with_timestamp 0) "inner" (match v with VI32 z => from_int z | _ => Null NInt end));
  parser_arg path := StringTy;
  run_parser path v := match v with VStr s => VI32 <$> parse_int I32 s | _ => None end;
|}.

Definition demo_fields : list (Field DemoTy string) := [
  {| field_ident := "foo"; field_ty := I32Ty; attrs := [] |};
  {| field_ident := "bar"; field_ty := StringTy; attrs := [OtherAttribute "doc"; Scuba [MetaName (Some "bar2")]] |};
  {| field_ident := "fizz"; field_ty := BoolTy; attrs := [] |}].

Definition demo_thingy (field : string) : DemoVal :=
  if decide (field = "foo") then VI32 5 else if decide (field = "bar") then VStr "fizzbuzz" else VBool false.

Lemma derive_round_trip_witness :
  ∃ code code', impl_structured_sample (NamedStruct "Customized" demo_fields) = Ok code ∧
    impl_try_from_sample (NamedStruct "Customized" demo_fields) = Ok code' ∧
    ∃ sample, from_struct map_to_list code demo_thingy 7 = ret sample ∧
      (∀ field f, field ∈ demo_fields → from_field field = Ok f →
        get sample (scuba_column_name f) = Some (into_value (ty f) (demo_thingy (field_ident field)))) ∧
      try_from_sample code' sample = ret (Ok [("foo", VI32 5); ("bar", VStr "fizzbuzz"); ("fizz", VBool false)]).
Proof.
  eexists _, _. split; [vm_compute; reflexivity|]. split; [vm_compute; reflexivity|].
  apply (derive_round_trip map_to_list (λ m, reflexivity _) "Customized" demo_fields); [|by vm_compute|vm_compute; reflexivity|vm_compute; reflexivity|].
  - vm_compute. repeat constructor; set_solver.
  - intros field f Hin Hf. repeat (apply elem_of_cons in Hin as [->|Hin]; [vm_compute in Hf; simplify_eq; vm_compute; done|]). by apply elem_of_nil in Hin.
Defined.

(** Into a sample and back; [None] if one of the conversions is refused. *)
Definition there_and_back (fields : list (Field DemoTy string)) : option (exec (result (list (string * DemoVal)) Error)) :=
  match impl_structured_sample (NamedStruct "Outer" fields), impl_try_from_sample (NamedStruct "Outer" fields) with
  | Ok code, Ok code' => Some (let! sample := from_struct map_to_list code demo_thingy 7 in try_from_sample code' sample)
  | _, _ => None
  end.

(** A struct with a flattened field, or a skipped one, derives both conversions, but cannot be
    read back: [TryFromSample] looks for a column of the field's own name. *)
Theorem flattened_not_read_back attr :
  attr = MetaFlatten ∨ attr = MetaSkip →
  there_and_back [{| field_ident := "x"; field_ty := InnerTy; attrs := [Scuba [attr]] |};
                  {| field_ident := "bar"; field_ty := StringTy; attrs := [] |}] = Some (ret (Err MissingColumn)).
Proof. intros [-> | ->]; vm_compute; reflexivity. Qed.

(** A flattened field and a column of its name are refused as duplicates, though a flattened field has
    no column of its own; the columns of a flattened struct are not compared with the others, and
    override those before them. *)
Lemma flattened_names :
  impl_structured_sample (NamedStruct "Outer" [{| field_ident := "x"; field_ty := InnerTy; attrs := [Scuba [MetaFlatten]] |};
      {| field_ident := "y"; field_ty := I32Ty; attrs := [Scuba [MetaName (Some "x")]] |}] : DeriveInput DemoTy string)
    = Err [DuplicateColumn "x"] ∧
  match impl_structured_sample (NamedStruct "Outer" [{| field_ident := "inner"; field_ty := BoolTy; attrs := [] |};
      {| field_ident := "foo"; field_ty := InnerTy; attrs := [Scuba [MetaFlatten]] |}] : DeriveInput DemoTy string) with
  | Ok code => match from_struct map_to_list code demo_thingy 7 with
               | ret sample => match get sample "inner" with Some (Int z) => (z =? 5)%Z | _ => false end
               | panic => false
               end = true
  | Err _ => False
  end.
Proof. split; vm_compute; reflexivity. Qed.
End concrete.
End ScubaDerive.
