(* ===== verification/ScubaBuilder.v ===== *)
(** The builder of samples (src/shed/scuba_sample/builder/src/builder.rs): samples that are logged
    to a file, sampled, and numbered.

    The clones of a builder share its log file and its sequence of numbers: both live in a store,
    by their address.  A call of a builder is a step; the lock of a file is held for both of the
    writes of a line.  What the operating system answers, the text of JSON, the clock and the order
    of a [HashMap] are parameters. *)
From stdpp Require Import strings.
From S2P Require Import Prelude RustStd RustStr ScubaValue Sampling ScubaSample.
Import ScubaValue ScubaSample.

(** The operating system: opening a file gives its content; a write adds its bytes, or fails after
    some of them. *)
Class LogIo (Path IoError : Type) := {
  io_open : Path → result string IoError;
  io_write : string → string → option (IoError * nat);
  io_flush : string → option IoError;
}.

Module ScubaBuilder.
#[local] Abbreviation length := List.length.
#[local] Abbreviation Sampling := Sampling.Sampling.
#[local] Abbreviation NoSampling := Sampling.NoSampling.
#[local] Abbreviation Exclude := Sampling.Exclude.
#[local] Abbreviation Include := Sampling.Include.

Section builder.
Context {FL : Floats} {JN : JsonNumber} {Path IoError : Type} {IO : LogIo Path IoError}.
Context (json_text : gmap string Value → string) (iter : gmap string ScubaValue → list (string * ScubaValue)).

(** The addresses of [Arc<Mutex<File>>] and of the [AtomicU64] of [Arc<(String, AtomicU64)>]. *)
Record World := { files : gmap nat string; counters : gmap nat Z }.
Implicit Types (w : World).

Record ScubaSampleBuilder := {
  sample : ScubaSample;
  log_file : option nat;
  sampling : Sampling;
  seq : option (string * nat);
}.
Implicit Types (b : ScubaSampleBuilder).

Definition set_sample b (s : ScubaSample) : ScubaSampleBuilder :=
  {| sample := s; log_file := log_file b; sampling := sampling b; seq := seq b |}.
Definition set_sampling b (s : Sampling) : ScubaSampleBuilder :=
  {| sample := sample b; log_file := log_file b; sampling := s; seq := seq b |}.

(** ** Construction *)

Definition with_discard (now : Z) : exec ScubaSampleBuilder :=
  let! s := ScubaSample.new now in ret {| sample := s; log_file := None; sampling := NoSampling; seq := None |}.
Definition new {Fb D} (_fb : Fb) (_dataset : D) (now : Z) : exec ScubaSampleBuilder := with_discard now.

Definition with_log_file b (path : Path) w : result ScubaSampleBuilder IoError * World :=
  match io_open path with
  | Err e => (Err e, w)
  | Ok content =>
      let a := fresh (dom (files w)) in
      (Ok {| sample := sample b; log_file := Some a; sampling := sampling b; seq := seq b |},
       {| files := <[a := content]> (files w); counters := counters w |})
  end.

Definition with_seq b (key : string) w : ScubaSampleBuilder * World :=
  let a := fresh (dom (counters w)) in
  ({| sample := sample b; log_file := log_file b; sampling := sampling b; seq := Some (key, a) |},
   {| files := files w; counters := <[a := 0%Z]> (counters w) |}).

Definition is_discard b : bool := true.

(** ** The sample *)

Definition add b (key : string) (value : ScubaValue) : ScubaSampleBuilder := set_sample b (ScubaSample.add (sample b) key value).
Definition add_opt b (key : string) (value : option ScubaValue) : ScubaSampleBuilder := set_sample b (ScubaSample.add_opt (sample b) key value).
Definition remove b (key : string) : ScubaSampleBuilder := set_sample b (ScubaSample.remove (sample b) key).
Definition get b (key : string) : option ScubaValue := ScubaSample.get (sample b) key.
Definition set_subset b (subset : string) : ScubaSampleBuilder := set_sample b (ScubaSample.set_subset (sample b) subset).
Definition clear_subset b : ScubaSampleBuilder := set_sample b (ScubaSample.clear_subset (sample b)).
Definition join_values b (other : ScubaSample) : ScubaSampleBuilder := set_sample b (ScubaSample.join_values (sample b) (iter (values other))).
Definition get_sample b : ScubaSample := sample b.

Definition sampled `{BM : BuildMode} {R : Type} {RG : Rng R} b (rng : R) (sample_rate : Z) : exec (ScubaSampleBuilder * R) :=
  let! '(s, rng) := Sampling.subsampled (sampling b) rng sample_rate in ret (set_sampling b s, rng).
Definition unsampled b : ScubaSampleBuilder := set_sampling b NoSampling.

(** ** Logging *)

(** [fetch_add] wraps around. *)
Definition fetch_add (a : nat) w : exec (Z * World) :=
  let! n := expect (counters w !! a) in
  ret (n, {| files := files w; counters := <[a := ((n + 1) mod (usize_max + 1))%Z]> (counters w) |}).

Definition next_seq b w : exec (ScubaSampleBuilder * World) :=
  match seq b with
  | Some (key, a) => let! '(next_seq, w) := fetch_add a w in ret (set_sample b (ScubaSample.add (sample b) key (from_int next_seq)), w)
  | None => ret (b, w)
  end.

Definition builder_to_json b : gmap string Value := ScubaSample.to_json (sample b) (iter (values (sample b))).

(** [write_all] on a file opened for appending. *)
Definition write_all (a : nat) (bytes : string) w : exec (result () IoError * World) :=
  let! content := expect (files w !! a) in
  match io_write content bytes with
  | None => ret (Ok (), {| files := <[a := content +:+ bytes]> (files w); counters := counters w |})
  | Some (e, n) => ret (Err e, {| files := <[a := content +:+ String.substring 0 n bytes]> (files w); counters := counters w |})
  end.

Definition newline : string := String (Ascii.ascii_of_nat 10) EmptyString.

Definition try_log b (now : Z) w : exec (result bool IoError * ScubaSampleBuilder * World) :=
  let! s := ScubaSample.set_time_now (sample b) now in
  let! '(b, w) := next_seq (set_sample b s) w in
  let '(r, s) := Sampling.apply (sampling b) (sample b) in
  let b := set_sample b s in
  match r with
  | Exclude => ret (Ok false, b, w)
  | Include =>
      match log_file b with
      | None => ret (Ok true, b, w)
      | Some a =>
          let! '(r, w) := write_all a (json_text (builder_to_json b)) w in
          match r with
          | Err e => ret (Err e, b, w)
          | Ok _ =>
              let! '(r, w) := write_all a newline w in
              match r with Err e => ret (Err e, b, w) | Ok _ => ret (Ok true, b, w) end
          end
      end
  end.

Definition log b (now : Z) w : exec (bool * ScubaSampleBuilder * World) :=
  let! '(r, b, w) := try_log b now w in ret (match r with Ok logged => logged | Err _ => true end, b, w).

(** Errors of the writes are dropped, each on its own. *)
Definition log_with_time b (time : Z) w : exec (bool * ScubaSampleBuilder * World) :=
  let! '(b, w) := next_seq (set_sample b (ScubaSample.set_time (sample b) time)) w in
  let '(r, s) := Sampling.apply (sampling b) (sample b) in
  let b := set_sample b s in
  match r with
  | Exclude => ret (false, b, w)
  | Include =>
      match log_file b with
      | None => ret (true, b, w)
      | Some a =>
          let! '(_, w) := write_all a (json_text (builder_to_json b)) w in
          let! '(_, w) := write_all a newline w in
          ret (true, b, w)
      end
  end.

Definition try_flush b w : exec (result () IoError) :=
  match log_file b with
  | None => ret (Ok ())
  | Some a => let! content := expect (files w !! a) in ret (match io_flush content with Some e => Err e | None => Ok () end)
  end.
Definition flush b w : exec () := let! _ := try_flush b w in ret ().

(** ** Server data *)

Inductive ServerData :=
| Hostname | HostnameScheme | Region | RegionDatacenterPrefix | Datacenter | ModelName | ModelId | FullClusterName | Tier
| TaskId | Cluster | CanaryId | JobHandle | TaskHandle | BuildRevision | BuildRule
| ScheduledJobCluster | ScheduledJobInstanceId | ScheduledJobName.

Definition default_key (data : ServerData) : string :=
  match data with
  | Hostname => "server_hostname"
  | HostnameScheme => "server_hostname_scheme"
  | Region => "region"
  | RegionDatacenterPrefix => "region_datacenter_prefix"
  | Datacenter => "datacenter"
  | ModelName => "model_name"
  | ModelId => "model_id"
  | FullClusterName => "full_cluster_name"
  | Tier => "server_tier"
  | TaskId => "tw_task_id"
  | Cluster => "tw_cluster"
  | CanaryId => "tw_canary_id"
  | JobHandle => "tw_handle"
  | TaskHandle => "tw_task_handle"
  | BuildRevision => "build_revision"
  | BuildRule => "build_rule"
  | ScheduledJobCluster => "chronos_cluster"
  | ScheduledJobInstanceId => "chronos_job_instance_id"
  | ScheduledJobName => "chronos_job_name"
  end.

Definition add_mapped_common_server_data b (_mapper : ServerData → string) : ScubaSampleBuilder := b.
Definition add_common_server_data b : ScubaSampleBuilder := add_mapped_common_server_data b default_key.

(** The keys are unique, as their documentation has it. *)
Theorem default_key_unique : Inj (=) (=) default_key.
Proof. intros [] []; done. Qed.

(** ** What a call that logs does *)

Definition included b : bool := match Sampling.to_result (sampling b) with Include => true | Exclude => false end.

(** The number a log takes: the key of the sequence, its address, the number. *)
Definition number b w : option (string * nat * Z) :=
  match seq b with Some (key, a) => n ← counters w !! a; Some (key, a, n) | None => None end.

(** The sample that is logged, the line that is written, the world afterwards. *)
Definition logged b (time : Z) w : ScubaSample :=
  let s := ScubaSample.set_time (sample b) time in
  let s := match number b w with Some (key, _, n) => ScubaSample.add s key (from_int n) | None => s end in
  (Sampling.apply (sampling b) s).2.
Definition line (s : ScubaSample) : string := json_text (ScubaSample.to_json s (iter (values s))) +:+ newline.
Definition wrote b (time : Z) w : option (nat * string) :=
  match log_file b with Some a => if included b then Some (a, line (logged b time w)) else None | None => None end.
Definition after_log b (time : Z) w : World := {|
  files := match wrote b time w with Some (a, l) => alter (λ c, c +:+ l) a (files w) | None => files w end;
  counters := match seq b with Some (_, a) => alter (λ n, ((n + 1) mod (usize_max + 1))%Z) a (counters w) | None => counters w end;
|}.

(** The addresses of a builder are those of the world. *)
Definition lives b w : Prop :=
  match log_file b with Some a => is_Some (files w !! a) | None => True end ∧
  match seq b with Some (_, a) => is_Some (counters w !! a) | None => True end.

Lemma insert_alter {V} (m : gmap nat V) (g : V → V) a x : m !! a = Some x → <[a := g x]> m = alter g a m.
Proof.
  intros Hx. apply map_eq. intros b. destruct (decide (a = b)) as [<-|Hn].
  - by rewrite lookup_insert_eq, lookup_alter_eq, Hx.
  - by rewrite lookup_insert_ne, lookup_alter_ne.
Qed.

Lemma next_seq_ok b w :
  lives b w →
  next_seq b w = ret (set_sample b (match number b w with Some (key, _, n) => ScubaSample.add (sample b) key (from_int n) | None => sample b end),
    {| files := files w; counters := counters (after_log b 0 w) |}).
Proof.
  intros [_ Hs]. unfold next_seq, number, after_log, fetch_add. destruct b as [s f sm [[key a]|]], w as [fs cs]; simpl in *; [|done].
  destruct Hs as [n Hn]. rewrite Hn. simpl. by rewrite (insert_alter _ (λ n, ((n + 1) mod (usize_max + 1))%Z) _ _ Hn).
Qed.

(** Both writes of a line. *)
Lemma write_line_ok (s : ScubaSample) a w :
  (∀ content bytes, io_write content bytes = None) → is_Some (files w !! a) →
  (let! '(r, w) := write_all a (json_text (ScubaSample.to_json s (iter (values s)))) w in
   match r with Err e => ret (Err e, w) | Ok _ => write_all a newline w end)
  = ret (Ok (), {| files := alter (λ c, c +:+ line s) a (files w); counters := counters w |}).
Proof.
  intros Hio [c Hc]. unfold write_all, line. rewrite Hc. simpl. rewrite Hio. simpl. rewrite lookup_insert_eq. simpl. rewrite Hio.
  rewrite insert_insert_eq. rewrite <-string_app_assoc. by rewrite (insert_alter _ (λ c, c +:+ _) _ _ Hc).
Qed.

Lemma apply_result b (s : ScubaSample) :
  (Sampling.apply (sampling b) s).1 = if included b then Include else Exclude.
Proof. unfold included, Sampling.to_result. by destruct (sampling b). Qed.

Context (io_works : ∀ content bytes, io_write content bytes = None).

Lemma try_log_ok b now w :
  lives b w → (0 ≤ now)%Z →
  try_log b now w = ret (Ok (included b), set_sample b (logged b now w), after_log b now w) ∧
  log b now w = ret (included b, set_sample b (logged b now w), after_log b now w) ∧
  log_with_time b now w = ret (included b, set_sample b (logged b now w), after_log b now w).
Proof.
  intros Hl Hnow. assert (try_log b now w = ret (Ok (included b), set_sample b (logged b now w), after_log b now w)) as Htry.
  2: { split; [done|]. split; [unfold log; by rewrite Htry|]. revert Htry.
    generalize (included b) (set_sample b (logged b now w)) (after_log b now w). intros i b' w' Htry. unfold try_log, set_time_now, seconds_now in Htry.
    rewrite (proj2 (Z.ltb_ge _ _)) in Htry by done. simpl in Htry. unfold log_with_time.
    destruct (next_seq _ w) as [[b1 w1]|]; simpl in *; [|done]. destruct (Sampling.apply _ _) as [[] s]; [|by simplify_eq].
    simpl in *. destruct (log_file b1) as [a|]; [|by simplify_eq].
    destruct (write_all a _ w1) as [[r1 w2]|] eqn:H1; simpl in *; [|done]. unfold write_all in H1.
    destruct (files w1 !! a) as [c|] eqn:Hc; simpl in H1; [|done]. rewrite io_works in H1. simplify_eq.
    destruct (write_all a newline _) as [[r2 w3]|] eqn:H2; simpl in *; [|done]. destruct r2; by simplify_eq. }
  unfold try_log, set_time_now, seconds_now. rewrite (proj2 (Z.ltb_ge _ _)) by done. cbn [exec_bind].
  rewrite next_seq_ok by done. cbn [exec_bind]. simpl.
  match goal with |- context [Sampling.apply (sampling b) ?x] => set (s1 := x) end.
  pose proof (apply_result b s1) as Hr. assert ((Sampling.apply (sampling b) s1).2 = logged b now w) as Hs2 by done.
  destruct (Sampling.apply (sampling b) s1) as [r s2]. simpl in *. subst r s2.
  unfold after_log, wrote. destruct (included b); simpl; [|by destruct (log_file b)].
  destruct (log_file b) as [a|] eqn:Hf; [|done]. destruct Hl as [Hfile _]. rewrite Hf in Hfile.
  pose proof (write_line_ok (logged b now w) a {| files := files w; counters := counters (after_log b 0 w) |} io_works Hfile) as Hw.
  unfold builder_to_json. simpl. destruct (write_all a _ _) as [[[[]|e] w1]|]; simpl in *; [|done|done]. rewrite Hw. done.
Qed.

(** ** Clones *)

(** What is done to the builders: one of them is cloned, logs, has its sample changed, or is no longer
    sampled. *)
Inductive Op :=
| OpClone
| OpLog (now : Z)
| OpTryLog (now : Z)
| OpLogWithTime (time : Z)
| OpEdit (edit : ScubaSample → ScubaSample)
| OpUnsampled.

(** A log call: the number it took, the sample, the line it wrote. *)
Record Event := { ev_number : option (string * nat * Z); ev_sample : ScubaSample; ev_wrote : option (nat * string) }.
Definition event_of b time w : Event :=
  {| ev_number := number b w; ev_sample := logged b time w; ev_wrote := wrote b time w |}.

Implicit Types (bs : list ScubaSampleBuilder) (evs : list Event).

Definition step bs w (i : nat) (op : Op) : exec (list Event * list ScubaSampleBuilder * World) :=
  match bs !! i with
  | None => ret ([], bs, w)
  | Some b =>
      match op with
      | OpClone => ret ([], bs ++ [b], w)
      | OpLog now => let! '(_, b', w') := log b now w in ret ([event_of b now w], <[i := b']> bs, w')
      | OpTryLog now => let! '(_, b', w') := try_log b now w in ret ([event_of b now w], <[i := b']> bs, w')
      | OpLogWithTime time => let! '(_, b', w') := log_with_time b time w in ret ([event_of b time w], <[i := b']> bs, w')
      | OpEdit edit => ret ([], <[i := set_sample b (edit (sample b))]> bs, w)
      | OpUnsampled => ret ([], <[i := unsampled b]> bs, w)
      end
  end.

Fixpoint run bs w (ops : list (nat * Op)) : exec (list Event * list ScubaSampleBuilder * World) :=
  match ops with
  | [] => ret ([], bs, w)
  | (i, op) :: ops =>
      let! '(evs, bs, w) := step bs w i op in
      let! '(evs', bs, w) := run bs w ops in
      ret (evs ++ evs', bs, w)
  end.

Definition op_time (op : Op) : Z := match op with OpLog t | OpTryLog t | OpLogWithTime t => t | _ => 0 end.

(** The numbers taken from a sequence, and the lines written to a file. *)
Definition numbers_of (a : nat) evs : list Z :=
  omap (λ e, '(_, a', n) ← ev_number e; if decide (a' = a) then Some n else None) evs.
Definition text_of (a : nat) evs : string :=
  foldr (λ e t, match ev_wrote e with Some (a', l) => if decide (a' = a) then l +:+ t else t | None => t end) EmptyString evs.

(** A number is in the sample, unless sampling has put the rate in its column. *)
Definition numbered (e : Event) : Prop :=
  match ev_number e with Some (key, _, n) => key ≠ "sample_rate"%string → ScubaSample.get (ev_sample e) key = Some (from_int n) | None => True end.

(** [k] numbers from [n], wrapping around. *)
Definition consecutive (n : Z) (k : nat) : list Z := (λ i, ((n + Z.of_nat i) mod (usize_max + 1))%Z) <$> List.seq 0 k.

Lemma consecutive_app n k k' :
  consecutive n (k + k') = consecutive n k ++ consecutive ((n + Z.of_nat k) mod (usize_max + 1)) k'.
Proof.
  unfold consecutive. rewrite seq_app, fmap_app. f_equal. rewrite Nat.add_comm, <-(fmap_add_seq k 0).
  rewrite <-list_fmap_compose. apply list_fmap_ext. intros _ i _. simpl. rewrite Zplus_mod_idemp_l. f_equal. lia.
Qed.

Lemma numbers_of_app a evs evs' : numbers_of a (evs ++ evs') = numbers_of a evs ++ numbers_of a evs'.
Proof. apply omap_app. Qed.

Record ran bs w evs bs' w' : Prop := {
  ran_lives : Forall (λ b, lives b w') bs';
  ran_numbers a n : counters w !! a = Some n → (0 ≤ n ≤ usize_max)%Z →
    numbers_of a evs = consecutive n (length (numbers_of a evs)) ∧
    counters w' !! a = Some ((n + Z.of_nat (length (numbers_of a evs))) mod (usize_max + 1))%Z;
  ran_files a content : files w !! a = Some content → files w' !! a = Some (content +:+ text_of a evs);
  ran_numbered : Forall numbered evs;
}.

Lemma text_of_app a evs evs' : text_of a (evs ++ evs') = text_of a evs +:+ text_of a evs'.
Proof.
  induction evs as [|e evs IH]; [done|]. simpl. destruct (ev_wrote e) as [[a' l]|]; [|done].
  destruct (decide (a' = a)); [|done]. by rewrite <-string_app_assoc, <-IH.
Qed.

Lemma ran_app bs w evs bs1 w1 evs' bs2 w2 : ran bs w evs bs1 w1 → ran bs1 w1 evs' bs2 w2 → ran bs w (evs ++ evs') bs2 w2.
Proof.
  intros [H1 H2 H3 H4] [K1 K2 K3 K4]. split; [done| | |by apply Forall_app].
  - intros a n Hn Hr. destruct (H2 a n Hn Hr) as [Ha Hc].
    destruct (K2 a _ Hc) as [Hb Hd]; [assert (0 < usize_max + 1)%Z by (by vm_compute); pose proof (Z.mod_pos_bound (n + Z.of_nat (length (numbers_of a evs))) (usize_max + 1)); lia|].
    rewrite numbers_of_app, length_app, consecutive_app, <-Ha, <-Hb. split; [done|].
    rewrite Hd, Zplus_mod_idemp_l. do 2 f_equal. lia.
  - intros a c Hc. rewrite text_of_app, string_app_assoc. by apply K3, H3.
Qed.

Lemma ran_nothing bs bs' w : Forall (λ b, lives b w) bs' → ran bs w [] bs' w.
Proof.
  intros Hl. split; [done| |by intros a c Hc; rewrite string_app_nil|constructor].
  intros a n Hn Hr. simpl. split; [done|]. rewrite Z.add_0_r, Z.mod_small by lia. done.
Qed.

Lemma is_Some_alter {V} (m : gmap nat V) (g : V → V) a a' : is_Some (m !! a) → is_Some (alter g a' m !! a).
Proof. intros Hm. destruct (decide (a' = a)) as [->|Hn]; [rewrite lookup_alter_eq; by apply fmap_is_Some|by rewrite lookup_alter_ne]. Qed.

Lemma lives_after b0 t w b : lives b w → lives b (after_log b0 t w).
Proof.
  unfold lives, after_log. simpl. intros [Hf Hs]. split.
  - destruct (log_file b); [|done]. destruct (wrote b0 t w) as [[a' l]|]; [by apply is_Some_alter|done].
  - destruct (seq b) as [[key a]|]; [|done]. destruct (seq b0) as [[key' a']|]; [by apply is_Some_alter|done].
Qed.

Lemma ran_log bs w i b t :
  Forall (λ b, lives b w) bs → lives b w →
  ran bs w [event_of b t w] (<[i := set_sample b (logged b t w)]> bs) (after_log b t w).
Proof.
  intros Hbs Hb. split.
  - apply Forall_insert; [|by apply lives_after]. eapply Forall_impl; [done|]. intros b'. apply lives_after.
  - intros a n Hn Hr. unfold numbers_of, event_of, after_log, number. simpl. destruct Hb as [_ Hb].
    destruct (seq b) as [[key a']|]; simpl; [|by rewrite Z.add_0_r, Z.mod_small by lia].
    destruct Hb as [n' Hn']. rewrite Hn'. simpl. destruct (decide (a' = a)) as [->|Hne]; simpl.
    + assert (n' = n) as -> by congruence. split; [unfold consecutive; simpl; by rewrite Z.add_0_r, Z.mod_small by lia|].
      by rewrite lookup_alter_eq, Hn.
    + split; [done|]. rewrite lookup_alter_ne by done. by rewrite Z.add_0_r, Z.mod_small by lia.
  - intros a c Hc. unfold after_log, text_of. simpl. destruct (wrote b t w) as [[a' l]|]; [|by rewrite string_app_nil].
    destruct (decide (a' = a)) as [->|Hne]; [by rewrite lookup_alter_eq, Hc, string_app_nil|by rewrite lookup_alter_ne, string_app_nil].
  - constructor; [|done]. unfold numbered, event_of, logged. simpl. destruct (number b w) as [[[key a] n]|]; [|done]. intros Hk.
    destruct (sampling b) as [|r|r]; simpl; unfold ScubaSample.get; simpl; [by rewrite lookup_insert_eq| |by rewrite lookup_insert_eq].
    by rewrite lookup_insert_ne, lookup_insert_eq.
Qed.

Lemma step_ran bs w i op :
  Forall (λ b, lives b w) bs → (0 ≤ op_time op)%Z → ∃ evs bs' w', step bs w i op = ret (evs, bs', w') ∧ ran bs w evs bs' w'.
Proof.
  intros Hbs Ht. unfold step. destruct (bs !! i) as [b|] eqn:Hi; [|eexists _, _, _; split; [done|by apply ran_nothing]].
  assert (lives b w) as Hb by exact (Forall_lookup_1 _ _ _ _ Hbs Hi).
  destruct op as [|t|t|t|edit|]; simpl in Ht;
    try (destruct (try_log_ok b t w Hb Ht) as (H1&H2&H3); rewrite ?H1, ?H2, ?H3; simpl;
         eexists _, _, _; split; [reflexivity|by apply ran_log]).
  - eexists _, _, _. split; [reflexivity|]. apply ran_nothing. apply Forall_app. by split; [|constructor].
  - eexists _, _, _. split; [reflexivity|]. apply ran_nothing. by apply Forall_insert.
  - eexists _, _, _. split; [reflexivity|]. apply ran_nothing. by apply Forall_insert.
Qed.

(** Whatever builders and their clones do, in any order, logging never fails as long as writing
    does not: the numbers that their logs take from a shared sequence are consecutive, those of
    samples that sampling excludes included, and are in the samples, except where the sampling
    rate has their column; a log file holds what it held before and then, line by line, the
    samples that were not excluded, in the order they were logged. *)
Theorem clones_log bs w (ops : list (nat * Op)) :
  Forall (λ b, lives b w) bs → Forall (λ p, 0 ≤ op_time p.2)%Z ops →
  ∃ evs bs' w', run bs w ops = ret (evs, bs', w') ∧ ran bs w evs bs' w'.
Proof.
  revert bs w. induction ops as [|[i op] ops IH]; intros bs w Hbs Hops; simpl; [eexists _, _, _; split; [done|by apply ran_nothing]|].
  apply Forall_cons in Hops as [Hop Hops]. destruct (step_ran bs w i op Hbs Hop) as (evs&bs1&w1&->&H1). simpl.
  destruct (IH bs1 w1 (ran_lives _ _ _ _ _ H1) Hops) as (evs'&bs2&w2&->&H2). simpl. eexists _, _, _. split; [done|]. by eapply ran_app.
Qed.
End builder.

(** ** A run *)

Section concrete.
#[local] Existing Instance demo_floats.
#[local] Existing Instance demo_numbers.
#[local] Open Scope string_scope.

#[local] Instance demo_io : LogIo string () := {|
  io_open path := Ok EmptyString; io_write content bytes := None; io_flush content := None;
|}.

(** The text of a sample with, and without, the column [seq]. *)
Definition demo_text (json : gmap string Value) : string :=
  match column json "int" "seq" with Some _ => "{seq}" | None => "{}" end.

Definition demo_builders : list ScubaSampleBuilder := [
  {| sample := with_timestamp 0; log_file := Some 0; sampling := NoSampling; seq := Some ("seq", 0) |};
  {| sample := with_timestamp 0; log_file := Some 0; sampling := Sampling.SampledOut 10; seq := Some ("seq", 0) |}].
Definition demo_world : World := {| files := {[ 0 := "{old}" +:+ newline ]}; counters := {[ 0 := 7%Z ]} |}.
Definition demo_ops : list (nat * Op) :=
  [(0, OpLog 5); (0, OpClone); (1, OpTryLog 5); (2, OpLogWithTime 6); (1, OpUnsampled); (1, OpLog 7)].

(** The second builder is sampled out at first, and uses up a number. *)
Lemma clones_log_witness :
  match run demo_text map_to_list demo_builders demo_world demo_ops with
  | ret (evs, _, w) => numbers_of 0 evs = [7; 8; 9; 10]%Z ∧
      files w !! 0 = Some ("{old}" +:+ newline +:+ "{seq}" +:+ newline +:+ "{seq}" +:+ newline +:+ "{seq}" +:+ newline)
  | panic => False
  end ∧
  ∃ evs bs' w', run demo_text map_to_list demo_builders demo_world demo_ops = ret (evs, bs', w') ∧
    ran demo_builders demo_world evs bs' w'.
Proof.
  split; [split; vm_compute; reflexivity|]. apply clones_log; [done| |].
  - repeat constructor; vm_compute; eexists; reflexivity.
  - repeat constructor; vm_compute; discriminate.
Defined.
End concrete.
End ScubaBuilder.
