(* ===== verification/Failure.v ===== *)
(** Errors: [failure_ext] (src/shed/failure_ext/src) and [shared_error] (src/shed/shared_error/src).
    Chains of causes and how they are displayed and logged, context for the errors of futures and
    streams of futures 0.1, and downcasting to the first type that fits.

    An error is its texts, its source, and, for the [SharedError] of the futures crate, the error it
    shares.  The loop over causes takes fuel, for which the size of the error is enough. *)
From stdpp Require Import strings.
From S2P Require Import Prelude RustStd Streams Futures01 Futures01Wrappers.
Import Futures01.Adaptors.

Module Failure.
#[local] Abbreviation length := List.length.

(** * Chains of errors *)

(** [&dyn StdError]; [shared] is what a [SharedError<Compat<Error>>] points to. *)
Inductive StdError := MkError (display debug : string) (shared source : option StdError).

Definition display (e : StdError) : string := match e with MkError d _ _ _ => d end.
Definition debug (e : StdError) : string := match e with MkError _ d _ _ => d end.
Definition shared (e : StdError) : option StdError := match e with MkError _ _ s _ => s end.
Definition source (e : StdError) : option StdError := match e with MkError _ _ _ s => s end.

Definition cause_workaround (fail : StdError) : option StdError :=
  match source fail with
  | None => None
  | Some cause => match shared cause with Some inner => Some inner | None => Some cause end
  end.

Fixpoint size (e : StdError) : nat :=
  match e with
  | MkError _ _ sh src =>
      S (match sh with Some s => size s | None => 0 end + match src with Some s => size s | None => 0 end)
  end.

Lemma cause_size e c : cause_workaround e = Some c → size c < size e.
Proof.
  destruct e as [d b sh [[d' b' [i|] src']|]]; unfold cause_workaround; simpl; intros [= <-]; simpl; destruct sh; lia.
Qed.

(** The causes of an error, one after the other, and that the last has none. *)
Inductive chain : StdError → list StdError → Prop :=
| chain_end e : cause_workaround e = None → chain e []
| chain_cause e c l : cause_workaround e = Some c → chain c l → chain e (c :: l).

Lemma chain_unique e l l' : chain e l → chain e l' → l = l'.
Proof.
  intros H. revert l'. induction H as [e He|e c l He _ IH]; intros l' H'; inversion H'; subst; try congruence.
  match goal with H1 : cause_workaround e = Some ?a, H2 : cause_workaround e = Some ?b |- _ => assert (a = b) as -> by congruence end.
  f_equal. by apply IH.
Qed.

Lemma chain_exists e : ∃ l, chain e l ∧ length l < size e.
Proof.
  remember (size e) as n eqn:Hn. revert e Hn. induction n as [n IH] using lt_wf_ind. intros e ->.
  destruct (cause_workaround e) as [c|] eqn:Hc.
  - pose proof (cause_size _ _ Hc). destruct (IH (size c)) with (e:=c) as (l&Hl&Hlt); [done|done|]. exists (c :: l). split; [by econstructor|simpl; lia].
  - exists []. split; [by constructor|]. destruct e; simpl; lia.
Qed.

(** [Error::chain]: sources, without the workaround. *)
Fixpoint error_chain (e : StdError) : list StdError :=
  e :: match e with MkError _ _ _ (Some c) => error_chain c | MkError _ _ _ None => [] end.

(** ** [DisplayChain] *)

#[local] Open Scope string_scope.
Definition newline : string := String (Ascii.ascii_of_nat 10) EmptyString.

Definition display_chain (e : StdError) : string :=
  "Error: " +:+ display e +:+ newline +:+
  foldr (λ c s, "Caused by: " +:+ display c +:+ newline +:+ s) EmptyString (tail (error_chain e)).

(** Without shared errors, what is displayed is the chain that is logged. *)
Lemma error_chain_causes e l : chain e l → (∀ c, c ∈ error_chain e → shared c = None) → error_chain e = e :: l.
Proof.
  induction 1 as [e He|e c l He Hc IH]; intros Hs; destruct e as [d b sh [[d' b' sh' src']|]]; unfold cause_workaround in *; simpl in *; try done.
  - destruct sh'; done.
  - assert (sh' = None) as -> by (apply (Hs (MkError d' b' sh' src')); right; destruct src'; by left). simplify_eq.
    f_equal. apply IH. intros c' Hc'. apply Hs. by right.
Qed.

(** * Logging errors *)

Inductive SlogKVErrorKey := Error | RootCause | Backtrace | Cause | ErrorDebug.

Definition into_str (key : SlogKVErrorKey) : string :=
  match key with
  | Error => "error"
  | RootCause => "root_cause"
  | Backtrace => "backtrace"
  | Cause => "cause"
  | ErrorDebug => "error_debug"
  end.

Definition from_str (s : string) : result SlogKVErrorKey () :=
  if decide (s = "error") then Ok Error
  else if decide (s = "root_cause") then Ok RootCause
  else if decide (s = "backtrace") then Ok Backtrace
  else if decide (s = "cause") then Ok Cause
  else if decide (s = "error_debug") then Ok ErrorDebug
  else Err ().

Lemma from_into_str key : from_str (into_str key) = Ok key.
Proof. by destruct key. Qed.

Lemma into_from_str s key : from_str s = Ok key → into_str key = s.
Proof. unfold from_str. repeat case_decide; intros [= <-]; done. Qed.

(** A serializer of slog: what it does with a string, which may be to fail. *)
Class Serializer (S E : Type) := emit_str : string → string → S → result () E * S.

Section serialize.
Context {S E : Type} {SE : Serializer S E}.
Implicit Types (s : S).

(** The loop over the causes; the last error is returned. *)
Fixpoint emit_causes (fuel : nat) (err : StdError) s : exec (result StdError E * S) :=
  match fuel with
  | 0 => panic
  | Datatypes.S fuel =>
      match cause_workaround err with
      | None => ret (Ok err, s)
      | Some cause =>
          match emit_str (into_str Cause) (display cause) s with
          | (Err e, s) => ret (Err e, s)
          | (Ok _, s) => emit_causes fuel cause s
          end
      end
  end.

(** [serialize] of [SlogKVError], in a build without backtraces, and of
    [SlogKVErrorWithoutBackTrace]. *)
Definition serialize (fuel : nat) (err : StdError) s : exec (result () E * S) :=
  match emit_str (into_str Error) (display err) s with
  | (Err e, s) => ret (Err e, s)
  | (Ok _, s) =>
      match emit_str (into_str ErrorDebug) (debug err) s with
      | (Err e, s) => ret (Err e, s)
      | (Ok _, s) =>
          let! '(r, s) := emit_causes fuel err s in
          match r with
          | Err e => ret (Err e, s)
          | Ok root => ret (emit_str (into_str RootCause) (display root) s)
          end
      end
  end.

(** Pairs emitted up to the first failure. *)
Fixpoint emit_all (kvs : list (string * string)) s : result () E * S :=
  match kvs with
  | [] => (Ok (), s)
  | (k, v) :: kvs => match emit_str k v s with (Err e, s) => (Err e, s) | (Ok _, s) => emit_all kvs s end
  end.

Definition kv_of (key : SlogKVErrorKey) (text : string) : string * string := (into_str key, text).

(** What an error with these causes is logged as. *)
Definition kvs_of_error (e : StdError) (causes : list StdError) : list (string * string) :=
  [kv_of Error (display e); kv_of ErrorDebug (debug e)] ++ (kv_of Cause ∘ display <$> causes)
  ++ [kv_of RootCause (display (default e (last causes)))].

Lemma emit_causes_ok fuel e l s :
  chain e l → length l < fuel →
  ∃ r s', emit_causes fuel e s = ret (r, s') ∧
    match r with
    | Ok root => root = default e (last l) ∧ emit_all (kv_of Cause ∘ display <$> l) s = (Ok (), s')
    | Err err => ∀ m, emit_all ((kv_of Cause ∘ display <$> l) ++ m) s = (Err err, s')
    end.
Proof.
  intros Hc. revert fuel s. induction Hc as [e He|e c l He Hc IH]; intros [|fuel] s Hlt; simpl in *; try lia; rewrite He.
  - by eexists _, _.
  - destruct (emit_str ("cause") (display c) s) as [[[]|err] s'] eqn:Hem; [|by eexists _, _; split; [done|]; intros m].
    destruct (IH fuel s') as (r&s2&->&Hr); [lia|]. exists r, s2. split; [done|]. destruct r as [root|err]; [|done].
    destruct Hr as [-> Hr]. split; [|done]. rewrite last_cons. by destruct (last l).
Qed.

Lemma emit_all_app k m s : emit_all (k ++ m) s = match emit_all k s with (Ok _, s) => emit_all m s | (Err e, s) => (Err e, s) end.
Proof. revert s. induction k as [|[a b] k IH]; intros s; simpl; [done|]. destruct (emit_str a b s) as [[]]; [apply IH|done]. Qed.

(** An error is logged as itself, its debug text, all its causes in order, looking into shared errors,
    and the last of them, or itself, as the root cause; up to the first failure of the serializer. *)
Theorem serialize_error (e : StdError) (l : list StdError) fuel s :
  chain e l → (size e ≤ fuel)%nat → serialize fuel e s = ret (emit_all (kvs_of_error e l) s).
Proof.
  intros Hc Hle. unfold serialize, kvs_of_error. simpl. destruct (emit_str "error" (display e) s) as [[[]|err] s1]; [|done].
  destruct (emit_str "error_debug" (debug e) s1) as [[[]|err] s2]; [|done].
  destruct (chain_exists e) as (l'&Hl'&Hlt). assert (l' = l) as -> by (by eapply chain_unique).
  destruct (emit_causes_ok fuel e l s2 Hc) as (r&s3&->&Hr); [lia|]. simpl. destruct r as [root|err].
  - destruct Hr as [-> Hr]. rewrite emit_all_app, Hr. simpl. by destruct (emit_str _ _ s3) as [[[]|]].
  - by rewrite Hr.
Qed.
End serialize.

#[local] Close Scope string_scope.

(** * Context for futures and streams of futures 0.1 *)

Section context.
Context {F St Item E W D Error : Type} {FF : Future01 F Item E W} {SS : Stream01 St Item E W}.
(** [err.into()] and [anyhow::Error::context]. *)
Context (into : E → Error) (context : D → Error → Error).
Implicit Types (w : W).

(** [ContextFut] holds the context itself, [WithContextFut] a closure that makes it: here both are a
    function of the world. *)
Record ContextFut := { fut_inner : F; fut_displayable : option (W → D * W) }.

Definition ContextFut_new (future : F) (displayable : D) : ContextFut :=
  {| fut_inner := future; fut_displayable := Some (λ w, (displayable, w)) |}.
Definition WithContextFut_new (future : F) (f : W → D * W) : ContextFut := {| fut_inner := future; fut_displayable := Some f |}.

Definition context_fut_poll (s : ContextFut) w : exec (result (Poll Item) Error * ContextFut * W) :=
  match future_poll01 (fut_inner s) w with
  | (Err err, f, w) =>
      let! displayable := expect (fut_displayable s) in
      let '(d, w) := displayable w in
      ret (Err (context d (into err)), {| fut_inner := f; fut_displayable := None |}, w)
  | (Ok item, f, w) => ret (Ok item, {| fut_inner := f; fut_displayable := fut_displayable s |}, w)
  end.

(** Polled until it resolves, [n] times at most. *)
Fixpoint context_fut_run (n : nat) (s : ContextFut) w : exec (result (Poll Item) Error * ContextFut * W) :=
  match n with
  | 0 => ret (Ok Pending, s, w)
  | Datatypes.S n =>
      let! '(p, s, w) := context_fut_poll s w in
      match p with Ok Pending => context_fut_run n s w | _ => ret (p, s, w) end
  end.

(** The future resolves as the inner one does, an error with its context, which is made then and only
    then. *)
Theorem context_fut_sound (f : F) (mk : W → D * W) n w :
  ∃ s', context_fut_run n (WithContextFut_new f mk) w =
    ret (match Inspect01.drive01 n f w with
         | (Ok p, _, w) => (Ok p, s', w)
         | (Err e, _, w) => (Err (context (mk w).1 (into e)), s', (mk w).2)
         end).
Proof.
  revert f w. induction n as [|n IH]; intros f w; simpl; [by eexists|]. unfold context_fut_poll. simpl.
  destruct (future_poll01 f w) as [[[[v|]|e] f'] w']; simpl; [by eexists|apply IH|]. destruct (mk w'). by eexists.
Qed.

(** Polling it on after its error panics if the inner future fails again. *)
Lemma context_fut_again f w e f' w' :
  future_poll01 f w = (Err e, f', w') → context_fut_poll {| fut_inner := f; fut_displayable := None |} w = panic.
Proof. intros Hp. unfold context_fut_poll. simpl. by rewrite Hp. Qed.

(** [ContextStream] clones its context, [WithContextStream] calls its closure, at every error. *)
Record ContextStream := { st_inner : St; st_displayable : W → D * W }.

Definition ContextStream_new (stream : St) (displayable : D) : ContextStream :=
  {| st_inner := stream; st_displayable := λ w, (displayable, w) |}.
Definition WithContextStream_new (stream : St) (f : W → D * W) : ContextStream := {| st_inner := stream; st_displayable := f |}.

#[export] Instance context_stream_poll : Stream01 ContextStream Item Error W := λ s w,
  match stream_poll01 (st_inner s) w with
  | (Err err, st, w) =>
      let '(d, w) := st_displayable s w in
      (Err (context d (into err)), {| st_inner := st; st_displayable := st_displayable s |}, w)
  | (Ok item, st, w) => (Ok item, {| st_inner := st; st_displayable := st_displayable s |}, w)
  end.

(** The items of the stream in order, and each of its errors with context. *)
Theorem context_stream_gives (st st' : St) (d : D) l :
  gives01 st l st' →
  gives01 (ContextStream_new st d)
    ((λ r, match r with Ok x => Ok x | Err e => Err (context d (into e)) end) <$> l) (ContextStream_new st' d).
Proof.
  induction 1 as [|s x s1 l s2 w w' Hp _ IH|s e s1 l s2 w w' Hp _ IH|s s1 l s2 w w' Hp _ IH];
    [constructor|eapply gives_item|eapply gives_err|eapply gives_wait]; try done;
    unfold stream_poll01, context_stream_poll; simpl; by rewrite Hp.
Qed.
End context.

(** * Downcasting *)

Section downcast.
Context {Ty Val Error A : Type}.

(** [err_downcast_ref!]: the action of the first type the error has. *)
Fixpoint err_downcast_ref (downcast_ref : Ty → Error → option Val) (err : Error) (arms : list (Ty * (Val → A))) : option A :=
  match arms with
  | [] => None
  | (ty, action) :: arms =>
      match downcast_ref ty err with Some v => Some (action v) | None => err_downcast_ref downcast_ref err arms end
  end.

(** [err_downcast!]: a failed [downcast] gives the error back. *)
Fixpoint err_downcast (downcast : Ty → Error → result Val Error) (err : Error) (arms : list (Ty * (Val → A))) : result A Error :=
  match arms with
  | [] => Err err
  | (ty, action) :: arms =>
      match downcast ty err with Ok v => Ok (action v) | Err other => err_downcast downcast other arms end
  end.

(** Both take the first arm that fits; if none does, the consuming form gives the error back
    unchanged. *)
Theorem err_downcast_first (get : Ty → Error → option Val) err (arms : list (Ty * (Val → A))) :
  let downcast ty e := match get ty e with Some v => Ok v | None => Err e end in
  match err_downcast_ref get err arms with
  | Some a => err_downcast downcast err arms = Ok a ∧
      ∃ before ty action after v, arms = before ++ (ty, action) :: after ∧ get ty err = Some v ∧ a = action v ∧
        Forall (λ arm, get arm.1 err = None) before
  | None => err_downcast downcast err arms = Err err ∧ Forall (λ arm, get arm.1 err = None) arms
  end.
Proof.
  induction arms as [|[ty action] arms IH]; simpl; [by split|]. destruct (get ty err) as [v|] eqn:Hg.
  - split; [done|]. by exists [], ty, action, arms, v.
  - destruct (err_downcast_ref get err arms) as [a|]; destruct IH as [Hd IH]; (split; [done|]).
    + destruct IH as (before&ty'&action'&after&v&->&Hv&->&Hb). exists ((ty, action) :: before), ty', action', after, v.
      split; [done|]. split; [done|]. split; [done|]. by constructor.
    + by constructor.
Qed.
End downcast.

(** * [shared_error] *)

Section shared.
Context {E Error : Type} (into : E → Error) (display_of debug_of : Error → string).

(** [SharedError]: an [Arc], which clones share. *)
Record SharedError := { error : Error }.

Definition inner (s : SharedError) : Error := error s.
Definition new_arcederror (e : Error) : SharedError := {| error := e |}.
Definition shared_error (e : E) : SharedError := {| error := into e |}.
Definition result_shared_error {T} (r : result T E) : result T SharedError :=
  match r with Ok t => Ok t | Err err => Err (shared_error err) end.

(** [slog::KV]: the error and its debug text, without causes. *)
Definition shared_serialize {S Er} {SE : Serializer S Er} (s : SharedError) (z : S) : result () Er * S :=
  match emit_str "error"%string (display_of (error s)) z with
  | (Err e, z) => (Err e, z)
  | (Ok _, z) => emit_str "error_debug"%string (debug_of (error s)) z
  end.
End shared.
End Failure.
