(* ===== verification/Glog.v ===== *)
(** [slog_glog_fmt] (src/shed/slog_glog_fmt/src): log records in the format of glog.  Key-value pairs are
    collected, put into a category each by their key, and written inline after the message or
    on lines of their own.

    What is written goes through a decorator, which may fail; the time of a record is its text. *)
From stdpp Require Import strings.
From S2P Require Import Prelude RustStd RustStr Failure.
Import Failure.

Module Glog.
#[local] Abbreviation length := List.length.
#[local] Abbreviation Key := string.

(** * Categories *)

(** [slog::Level]. *)
Inductive Level := Critical | LError | Warning | Info | Debug | Trace.

Inductive KVCategory := Ignore | Inline | LevelLog (level : Level).

#[export] Instance category_eq_dec : EqDecision KVCategory.
Proof. intros ??. unfold Decision. decide equality. decide equality. Defined.

Class KVCategorizer (C : Type) := {
  categorize : C → Key → KVCategory;
  name : C → Key → string;
  ignore : C → Key → bool;
}.

(** [ignore] unless it is overridden. *)
Definition ignore_default (category : KVCategory) : bool := bool_decide (category = Ignore).

Inductive InlineCategorizer := MkInline.
#[export] Instance inline_categorizer : KVCategorizer InlineCategorizer := {|
  categorize _ _ := Inline;
  name _ key := key;
  ignore _ _ := ignore_default Inline;
|}.

Inductive ErrorCategorizer := MkError.
Definition categorize_error (key : Key) : KVCategory :=
  match from_str key with
  | Ok Failure.Error => LevelLog LError
  | Ok Cause => LevelLog Debug
  | Ok Backtrace => LevelLog Trace
  | Ok RootCause | Err _ => categorize MkInline key
  | Ok ErrorDebug => LevelLog Debug
  end.

#[export] Instance error_categorizer : KVCategorizer ErrorCategorizer := {|
  categorize _ := categorize_error;
  ignore _ key := ignore_default (categorize_error key);
  name _ key :=
    match from_str key with
    | Ok Failure.Error => "Error"
    | Ok Cause => "Caused by"
    | Ok Backtrace => "Originated in"
    | Ok RootCause => "Root cause"
    | Ok ErrorDebug => "Debug context"
    | Err _ => name MkInline key
    end%string;
|}.

Inductive FacebookCategorizer := MkFacebook.
Definition categorize_facebook (key : Key) : KVCategory :=
  if decide (key = "hostname"%string) then Ignore else categorize MkError key.

#[export] Instance facebook_categorizer : KVCategorizer FacebookCategorizer := {|
  categorize _ := categorize_facebook;
  ignore _ key := ignore_default (categorize_facebook key);
  name _ key := name MkError key;
|}.

(** * Collecting *)

(** A call of the serializer: [emit_none], [emit_unit], or a value with its [Display] text. *)
Inductive Emit := EmitNone | EmitUnit | EmitDisplay (text : string).

Section collect.
Context {C : Type} {CC : KVCategorizer C}.

Record CollectorSerializer := { collected : list (Key * string); by_ : C }.

Definition collector_new (categorizer : C) : CollectorSerializer := {| collected := []; by_ := categorizer |}.
Definition into_inner (s : CollectorSerializer) : list (Key * string) := collected s.

Definition emit_text (v : Emit) : string :=
  match v with EmitNone => "None" | EmitUnit => "()" | EmitDisplay text => text end.

(** [impl_emit_body!]. *)
Definition emit (s : CollectorSerializer) (key : Key) (v : Emit) : CollectorSerializer :=
  if ignore (by_ s) key then s else {| collected := collected s ++ [(key, emit_text v)]; by_ := by_ s |}.

(** It never fails. *)
#[export] Instance collector_serializer {E} : Serializer CollectorSerializer E := λ key v s, (Ok (), emit s key (EmitDisplay v)).

(** The pairs of a [KV], one after the other; a [KV] may fail on its own. *)
Definition serialize_kv {E} (kv : list (Key * Emit) * option E) (s : CollectorSerializer) : result () E * CollectorSerializer :=
  let s := foldl (λ s p, emit s p.1 p.2) s kv.1 in
  (match kv.2 with Some e => Err e | None => Ok () end, s).
End collect.
Arguments CollectorSerializer : clear implicits.

(** ** [FacebookKV] *)

Record FacebookKV := { hostname : string; key : Key }.
Definition FacebookKV_new {E} (host : result string E) : result FacebookKV E :=
  match host with Ok h => Ok {| hostname := h; key := "hostname" |} | Err e => Err e end.
Definition FacebookKV_with_key {E} (host : result string E) (k : Key) : result FacebookKV E :=
  match host with Ok h => Ok {| hostname := h; key := k |} | Err e => Err e end.
Definition serialize_facebook {S E} {SE : Serializer S E} (kv : FacebookKV) (s : S) : result () E * S :=
  emit_str (key kv) (hostname kv) s.

(** * Writing *)

(** The parts of a line a decorator is told about. *)
Inductive Part := PartLevel | PartTimestamp | PartWhitespace | PartMsg | PartComma | PartKey | PartSeparator | PartValue.

Inductive Action := Start (part : Part) | Write (text : string) | Flush.

(** [RecordDecorator]. *)
Class Decorator (D E : Type) := act : Action → D → result () E * D.

(** Actions up to the first failure: each is followed by [?]. *)
Fixpoint act_all {D E} `{Decorator D E} (actions : list Action) (d : D) : result () E * D :=
  match actions with
  | [] => (Ok (), d)
  | a :: actions => match act a d with (Err e, d) => (Err e, d) | (Ok _, d) => act_all actions d end
  end.

#[local] Open Scope string_scope.
Record Record_ := { level : Level; msg : string; file : string; line : Z }.
Record OnelineMetadata := { now : string; tid : Z; md_file : string; md_line : Z; tname : string }.

Definition OnelineMetadata_new (record : Record_) (now : string) (tid : Z) (thread_name : option string) : OnelineMetadata :=
  {| now := now; tid := tid; md_file := file record; md_line := line record;
     tname := match thread_name with Some s => "[" +:+ s +:+ "]" | None => EmptyString end |}.

Definition level_char (l : Level) : string :=
  match l with Critical => "C" | LError => "E" | Warning => "W" | Info => "I" | Debug => "V" | Trace => "V" end.

(** [{tid:>5}]. *)
Fixpoint spaces (n : nat) : string := match n with 0 => EmptyString | S n => String (Ascii.ascii_of_nat 32) (spaces n) end.
Definition pad_left (width : nat) (s : string) : string := spaces (width - String.length s)%nat +:+ s.

Definition write_logline (level : Level) (md : OnelineMetadata) : list Action :=
  [Start PartLevel; Write (level_char level);
   Start PartTimestamp; Write (now md);
   Start PartWhitespace; Write " ";
   Start PartMsg;
   Write (pad_left 5 (RustStr.to_string (tid md)) +:+ " " +:+ tname md +:+ " " +:+ md_file md +:+ ":" +:+ RustStr.to_string (md_line md) +:+ "] ")].

#[local] Close Scope string_scope.

Section format.
Context {C : Type} {CC : KVCategorizer C} (c : C).

Definition print_inline_kv (kv : list (Key * string)) : list Action :=
  kv ≫= λ p, [Start PartComma; Write ", "%string; Start PartKey; Write (name c p.1); Start PartSeparator; Write ": "%string; Start PartValue; Write p.2].

Definition finish_logline : list Action := [Start PartWhitespace; Write newline; Flush].

(** [filter_map] and [partition_map]. *)
Fixpoint partition (kv : list (Key * string)) : list (Key * string) * list (Level * Key * string) :=
  match kv with
  | [] => ([], [])
  | (k, v) :: kv =>
      let '(inline_kv, level_kv) := partition kv in
      match categorize c k with
      | Ignore => (inline_kv, level_kv)
      | Inline => ((k, v) :: inline_kv, level_kv)
      | LevelLog level => (inline_kv, (level, k, v) :: level_kv)
      end
  end.

(** [Drain::log]: the pairs of the logger, then those of the record. *)
Definition log {D E} {DD : Decorator D E} (record : Record_) (now : string) (tid : Z) (thread_name : option string)
    (values kv : list (Key * Emit) * option E) (d : D) : result () E * D :=
  match serialize_kv values (collector_new c) with
  | (Err e, _) => (Err e, d)
  | (Ok _, serializer) =>
      match serialize_kv kv serializer with
      | (Err e, _) => (Err e, d)
      | (Ok _, serializer) =>
          let '(inline_kv, level_kv) := partition (into_inner serializer) in
          let metadata := OnelineMetadata_new record now tid thread_name in
          act_all
            (write_logline (level record) metadata ++ [Write (msg record)] ++ print_inline_kv inline_kv ++ finish_logline ++
             (level_kv ≫= λ '(level, k, v), write_logline level metadata ++ [Write (name c k +:+ ": "%string +:+ v)] ++ finish_logline)) d
      end
  end.
End format.

(** * What is printed *)

(** Writing stops at the first action that fails. *)
Lemma act_all_app {D E} {DD : Decorator D E} k m (d : D) :
  act_all (k ++ m) d = match act_all k d with (Ok _, d) => act_all m d | (Err e, d) => (Err e, d) end.
Proof. revert d. induction k as [|a k IH]; intros d; simpl; [done|]. destruct (act a d) as [[[]|e] d']; [apply IH|done]. Qed.

Lemma act_all_err {D E} {DD : Decorator D E} l (d : D) e d' :
  act_all l d = (Err e, d') →
  ∃ before a after d1, l = before ++ a :: after ∧ act_all before d = (Ok (), d1) ∧ act a d1 = (Err e, d').
Proof.
  revert d. induction l as [|a l IH]; intros d; simpl; [done|]. destruct (act a d) as [[[]|e'] d1] eqn:Ha; intros Hl.
  - destruct (IH d1 Hl) as (before&b&after&d2&->&Hb&Hf). exists (a :: before), b, after, d2. simpl. by rewrite Ha.
  - simplify_eq. by exists [], a, l, d.
Qed.

Definition action_text (a : Action) : string := match a with Write t => t | _ => EmptyString end.
Definition text (l : list Action) : string := foldr (λ a s, action_text a +:+ s) EmptyString l.
Definition concat_text (l : list string) : string := foldr String.append EmptyString l.

(** A decorator that writes text and nothing else, and does not fail. *)
Class PlainDecorator (D E : Type) {DD : Decorator D E} := {
  written : D → string;
  act_plain a d : ∃ d', act a d = (Ok (), d') ∧ written d' = written d +:+ action_text a;
}.

Lemma text_app k m : text (k ++ m) = text k +:+ text m.
Proof. induction k as [|a k IH]; simpl; [done|]. by rewrite IH, string_app_assoc. Qed.

Lemma act_all_plain {D E} {DD : Decorator D E} {PD : PlainDecorator D E} l (d : D) :
  ∃ d', act_all l d = (Ok (), d') ∧ written d' = written d +:+ text l.
Proof.
  revert d. induction l as [|a l IH]; intros d; simpl; [exists d; by rewrite string_app_nil|].
  destruct (act_plain a d) as (d1&->&Hd1). destruct (IH d1) as (d2&->&Hd2). exists d2. split; [done|].
  by rewrite Hd2, Hd1, string_app_assoc.
Qed.

(** A line of the log: [L0102 03:04:05.678901    12 [thread] file.rs:34] body]. *)
Definition line_text (l : Level) (md : OnelineMetadata) (body : string) : string :=
  level_char l +:+ now md +:+ " "%string +:+ pad_left 5 (RustStr.to_string (tid md)) +:+ " "%string +:+ tname md +:+ " "%string
  +:+ md_file md +:+ ":"%string +:+ RustStr.to_string (md_line md) +:+ "] "%string +:+ body +:+ newline.

Section theory.
Context {C : Type} {CC : KVCategorizer C} (c : C).

(** The pairs the collector keeps. *)
Definition kept (kv : list (Key * Emit)) : list (Key * string) :=
  (λ p, (p.1, emit_text p.2)) <$> filter (λ p, ignore c p.1 = false) kv.

Lemma serialize_kept {E} kv l :
  serialize_kv (E:=E) (kv, None) {| collected := l; by_ := c |} = (Ok (), {| collected := l ++ kept kv; by_ := c |}).
Proof.
  unfold serialize_kv, kept. simpl. f_equal. revert l. induction kv as [|[k v] kv IH]; intros l; simpl; [by rewrite app_nil_r|].
  rewrite filter_cons. simpl. unfold emit at 2. simpl. destruct (ignore c k); simpl; rewrite IH; [done|].
  by rewrite <-app_assoc.
Qed.

Definition inlined (l : list (Key * string)) : list (Key * string) := filter (λ p, categorize c p.1 = Inline) l.
Definition levelled (l : list (Key * string)) : list (Level * Key * string) :=
  l ≫= λ p, match categorize c p.1 with LevelLog lv => [(lv, p.1, p.2)] | _ => [] end.

Lemma partition_spec l : partition c l = (inlined l, levelled l).
Proof.
  induction l as [|[k v] l IH]; simpl; [done|]. rewrite IH. unfold inlined. rewrite filter_cons. simpl.
  destruct (categorize c k) eqn:Hk; case_decide; done.
Qed.

(** What a pair is printed as: [name: value]. *)
Definition kv_text (p : Key * string) : string := name c p.1 +:+ ": "%string +:+ p.2.

Lemma text_inline l : text (print_inline_kv c l) = concat_text ((λ p, ", "%string +:+ kv_text p) <$> l).
Proof.
  induction l as [|[k v] l IH]; [done|]. unfold print_inline_kv in *. rewrite bind_cons, text_app, IH, fmap_cons.
  unfold kv_text. simpl. rewrite ?string_app_nil, <-!string_app_assoc. reflexivity.
Qed.

Lemma text_line l md body k : text (write_logline l md ++ [Write body] ++ k ++ finish_logline) = line_text l md (body +:+ text k).
Proof. unfold line_text. rewrite !text_app. simpl. by rewrite ?string_app_nil, <-!string_app_assoc. Qed.

Lemma text_lines l md :
  text (l ≫= λ '(level, k, v), write_logline level md ++ [Write (kv_text (k, v))] ++ finish_logline) =
  concat_text ((λ '(level, k, v), line_text level md (kv_text (k, v))) <$> l).
Proof.
  induction l as [|[[lv k] v] l IH]; [done|]. rewrite bind_cons, text_app, IH, fmap_cons.
  pose proof (text_line lv md (kv_text (k, v)) []) as Hl. change (text []) with EmptyString in Hl.
  rewrite string_app_nil in Hl. cbv beta iota. rewrite <-Hl. reflexivity.
Qed.

Definition log_text (record : Record_) (md : OnelineMetadata) (values kv : list (Key * Emit)) : string :=
  let kvs := kept values ++ kept kv in
  line_text (level record) md (msg record +:+ concat_text ((λ p, ", "%string +:+ kv_text p) <$> inlined kvs)) +:+
  concat_text ((λ '(lv, k, v), line_text lv md (kv_text (k, v))) <$> levelled kvs).

(** A log record comes out as one line with its message and, in order, the pairs of the logger and
    of the record that are inlined, and then one line for each pair that has a level of its own, in
    order; ignored pairs are not printed, and no other pair is lost. *)
Theorem log_prints {D E} {DD : Decorator D E} {PD : PlainDecorator D E} record now tid thread values kv (d : D) :
  ∃ d', log c record now tid thread (values, None) (kv, None) d = (Ok (), d') ∧
    written d' = written d +:+ log_text record (OnelineMetadata_new record now tid thread) values kv.
Proof.
  unfold log, log_text, collector_new. rewrite serialize_kept, serialize_kept. simpl. rewrite partition_spec.
  set (md := OnelineMetadata_new record now tid thread). destruct (act_all_plain
    (write_logline (level record) md ++ [Write (msg record)] ++ print_inline_kv c (inlined (kept values ++ kept kv)) ++ finish_logline ++
      (levelled (kept values ++ kept kv) ≫= λ '(level, k, v), write_logline level md ++ [Write (kv_text (k, v))] ++ finish_logline)) d)
    as (d'&Hd&Hw).
  exists d'. split; [exact Hd|]. rewrite Hw. f_equal. rewrite !app_assoc, text_app, <-!app_assoc, text_line, text_inline, text_lines.
  reflexivity.
Qed.

(** If a [KV] fails nothing is written. *)
Lemma log_kv_fails {D E} {DD : Decorator D E} record now tid thread values kv (d : D) (e : E) :
  kv.2 = Some e ∨ values.2 = Some e ∧ kv.2 = None →
  ∃ e', log c record now tid thread values kv d = (Err e', d).
Proof.
  destruct values as [values ve], kv as [kv ke]. simpl. unfold log, serialize_kv. simpl.
  destruct ve as [e'|]; [by eexists|]. destruct ke; [by eexists|]. by intros [?|[??]].
Qed.
End theory.

(** ** An error *)

(** [SlogKVError] as a [KV]. *)
Definition error_kv (e : StdError) (causes : list StdError) : list (Key * Emit) :=
  (λ p, (p.1, EmitDisplay p.2)) <$> kvs_of_error e causes.

(** Serialized into a collector, it is what [serialize] emits. *)
Lemma error_kv_collected {C} {CC : KVCategorizer C} {E} (e : StdError) causes fuel (s : CollectorSerializer C) :
  chain e causes → (size e ≤ fuel)%nat →
  serialize (E:=E) fuel e s = ret (serialize_kv (error_kv e causes, None) s).
Proof.
  intros Hc Hle. rewrite (serialize_error e causes) by done. f_equal. unfold serialize_kv, error_kv.
  generalize (kvs_of_error e causes). intros l. revert s. induction l as [|[k v] l IH]; intros s; [done|]. csimpl. apply IH.
Qed.

Lemma kept_error e causes : kept MkFacebook (error_kv e causes) = kvs_of_error e causes.
Proof.
  assert (Forall (λ p, ignore MkFacebook p.1 = false) (kvs_of_error e causes)) as Hf.
  { unfold kvs_of_error. rewrite !Forall_app, Forall_fmap. split; [by repeat constructor|]. split; [|by repeat constructor].
    by apply Forall_true. }
  unfold error_kv. revert Hf. generalize (kvs_of_error e causes). induction 1 as [|[k v] l Hk _ IH]; [done|].
  unfold kept in *. rewrite fmap_cons, filter_cons_True by done. rewrite fmap_cons, IH. done.
Qed.

Lemma error_log_text record md e causes :
  log_text MkFacebook record md [] (error_kv e causes) =
    line_text (level record) md (msg record +:+ ", Root cause: "%string +:+ display (default e (last causes))) +:+
    line_text LError md ("Error: "%string +:+ display e) +:+
    line_text Debug md ("Debug context: "%string +:+ debug e) +:+
    concat_text ((λ c, line_text Debug md ("Caused by: "%string +:+ display c)) <$> causes).
Proof.
  unfold log_text. rewrite kept_error. change (kept MkFacebook []) with (@nil (Key * string)). rewrite app_nil_l.
  set (root := display _). assert (inlined MkFacebook (kvs_of_error e causes) = [("root_cause"%string, root)]) as ->.
  { unfold kvs_of_error, inlined. rewrite !filter_app.
    replace (filter _ (_ <$> causes)) with (@nil (Key * string)); [reflexivity|].
    induction causes as [|c l IH]; [done|]. rewrite fmap_cons, filter_cons_False by done. exact IH. }
  assert (levelled MkFacebook (kvs_of_error e causes) =
    (LError, "error"%string, display e) :: (Debug, "error_debug"%string, debug e) ::
    ((λ c, (Debug, "cause"%string, display c)) <$> causes)) as ->.
  { unfold kvs_of_error, levelled. csimpl. rewrite bind_app. csimpl. rewrite app_nil_r. do 2 f_equal.
    induction causes as [|c l IH]; [done|]. csimpl. f_equal. exact IH. }
  csimpl. rewrite string_app_nil. f_equal. f_equal. f_equal. f_equal. rewrite <-list_fmap_compose. reflexivity.
Qed.

(** An error that is logged has its root cause inline; the error, its debug text and each of its
    causes are on lines of their own. *)
Theorem log_error {D E} {DD : Decorator D E} {PD : PlainDecorator D E} record now tid thread e causes (d : D) :
  let md := OnelineMetadata_new record now tid thread in
  ∃ d', log MkFacebook record now tid thread ([], None) (error_kv e causes, None) d = (Ok (), d') ∧
    written d' = written d +:+
      line_text (level record) md (msg record +:+ ", Root cause: "%string +:+ display (default e (last causes))) +:+
      line_text LError md ("Error: "%string +:+ display e) +:+
      line_text Debug md ("Debug context: "%string +:+ debug e) +:+
      concat_text ((λ c, line_text Debug md ("Caused by: "%string +:+ display c)) <$> causes).
Proof.
  simpl. set (md := OnelineMetadata_new record now tid thread).
  destruct (log_prints MkFacebook record now tid thread [] (error_kv e causes) d) as (d'&Hd&Hw). exists d'. split; [done|].
  rewrite Hw. by rewrite error_log_text.
Qed.

(** ** A buffer *)

Section buffer.
#[local] Instance buffer_decorator : Decorator string () := λ a d, (Ok (), d +:+ action_text a).
#[local] Program Instance buffer_plain : PlainDecorator string () := {| written d := d |}.
Next Obligation. intros a d. eexists. split; reflexivity. Qed.

#[local] Open Scope string_scope.

(** An error with one cause, on a logger with a mode and a host name. *)
Definition sample_error : StdError := Failure.MkError "outer" "Outer" None (Some (Failure.MkError "inner" "Inner" None None)).

Example log_witness : ∃ d', log (E:=()) MkFacebook {| level := Info; msg := "hello"; file := "a.rs"; line := 7 |} "0102 03:04:05.678901"
    12 (Some "main") ([("mode", EmitDisplay "test"); ("hostname", EmitDisplay "h")], None) (error_kv sample_error [Failure.MkError "inner" "Inner" None None], None)
    EmptyString = (Ok (), d') ∧
  d' = "I0102 03:04:05.678901    12 [main] a.rs:7] hello, mode: test, Root cause: inner" +:+ newline +:+
       "E0102 03:04:05.678901    12 [main] a.rs:7] Error: outer" +:+ newline +:+
       "V0102 03:04:05.678901    12 [main] a.rs:7] Debug context: Outer" +:+ newline +:+
       "V0102 03:04:05.678901    12 [main] a.rs:7] Caused by: inner" +:+ newline.
Proof. exact (log_prints MkFacebook _ _ _ _ _ _ EmptyString). Defined.
End buffer.
End Glog.
