(* ===== verification/ThriftCompiler.v ===== *)
(** [thrift_compiler] (src/shed/thrift_compiler/src/{lib,main}.rs): how a build script runs the thrift
    compiler and arranges what it generated into a crate.

    Paths are their components, as [Path] compares them.  The file system holds files and
    directories, without links and permissions; a path is resolved against the current directory.
    The thrift compiler and the search of the executable in PATH are parameters. *)
From stdpp Require Import gmap strings.
From Stdlib Require Import Ascii.
From S2P Require Import Prelude RustStd RustStr.

Module ThriftCompiler.
#[local] Abbreviation length := List.length.
#[local] Open Scope string_scope.
#[local] Open Scope nat_scope.
#[local] Open Scope list_scope.

(** * Paths *)

Inductive Component := RootDir | CurDir | ParentDir | Normal (name : string).

#[export] Instance component_eq_dec : EqDecision Component.
Proof. solve_decision. Defined.

Definition Path := list Component.
#[export] Instance path_eq_dec : EqDecision Path := list_eq_dec.

(** [Path::join]: an absolute path replaces; a leading [.] does not count after something. *)
Definition join (p q : Path) : Path :=
  match q with
  | RootDir :: _ => q
  | CurDir :: q' => match p with [] => q | _ => p ++ q' end
  | _ => p ++ q
  end.

Definition name_of (s : string) : Path := [Normal s].

Fixpoint strip_prefix (prefix p : Path) : option Path :=
  match prefix, p with
  | [], p => Some p
  | a :: prefix, b :: p => if decide (a = b) then strip_prefix prefix p else None
  | _ :: _, [] => None
  end.

Definition parent (p : Path) : option Path :=
  match last p with Some RootDir | None => None | Some _ => Some (removelast p) end.

(** Before the last dot, unless that begins the name. *)
Fixpoint before_last_dot (s : string) : option string :=
  match s with
  | EmptyString => None
  | String a s =>
      match before_last_dot s with
      | Some t => Some (String a t)
      | None => if Ascii.eqb a "."%char then Some EmptyString else None
      end
  end.

Definition file_stem (p : Path) : option string :=
  match last p with
  | Some (Normal name) => match before_last_dot name with None | Some EmptyString => Some name | Some stem => Some stem end
  | _ => None
  end.

Definition component_text (c : Component) : string :=
  match c with RootDir => EmptyString | CurDir => "." | ParentDir => ".." | Normal name => name end.

Fixpoint join_text (sep : string) (l : list string) : string :=
  match l with [] => EmptyString | [s] => s | s :: l => s +:+ sep +:+ join_text sep l end.

Definition path_text (p : Path) : string := if decide (p = [RootDir]) then "/" else join_text "/" (component_text <$> p).

(** * The file system *)

Inductive Error := Io | NoStem (file : Path) | NotFound (bin : Path) | CompilerFailed.

(** A file or directory is known by the names on the way to it from the root. *)
Abbreviation Key := (list string).
Record Fs := { cwd : Key; files : gmap Key string; dirs : gset Key; stdout : list string }.

Definition set_files (fs : Fs) (m : gmap Key string) : Fs := {| cwd := cwd fs; files := m; dirs := dirs fs; stdout := stdout fs |}.
Definition set_dirs (fs : Fs) (d : gset Key) : Fs := {| cwd := cwd fs; files := files fs; dirs := d; stdout := stdout fs |}.

Definition step (k : Key) (c : Component) : Key :=
  match c with RootDir => [] | CurDir => k | ParentDir => removelast k | Normal name => k ++ [name] end.
Definition resolve (at_ : Key) (p : Path) : Key := foldl step at_ p.
Definition key_path (k : Key) : Path := RootDir :: (Normal <$> k).

Definition is_dir (fs : Fs) (k : Key) : Prop := k = [] ∨ k ∈ dirs fs.
#[export] Instance is_dir_dec fs k : Decision (is_dir fs k).
Proof. unfold is_dir. apply _. Defined.

(** Calls that may fail, and may panic. *)
Definition io (A : Type) : Type := Fs → exec (result A Error * Fs).

#[export] Instance io_ret : MRet io := λ A a fs, ret (Ok a, fs).
#[export] Instance io_bind : MBind io := λ A B f m fs,
  let! '(r, fs) := m fs in match r with Ok a => f a fs | Err e => ret (Err e, fs) end.

Definition fail {A} (e : Error) : io A := λ fs, ret (Err e, fs).
Definition may_panic {A} (m : exec A) : io A := λ fs, let! a := m in ret (Ok a, fs).
Definition lift {A} (f : Fs → result A Error) : io A := λ fs, ret (f fs, fs).

Definition println (line : string) : io () := λ fs,
  ret (Ok (), {| cwd := cwd fs; files := files fs; dirs := dirs fs; stdout := stdout fs ++ [line] |}).

Definition prefixes (k : Key) : list Key := (λ n, take n k) <$> seq 1 (length k).

Definition create_dir_all (p : Path) : io () := λ fs,
  let k := resolve (cwd fs) p in
  if decide (Exists (λ k, is_Some (files fs !! k)) (prefixes k)) then ret (Err Io, fs)
  else ret (Ok (), set_dirs fs (dirs fs ∪ list_to_set (prefixes k))).

(** A file can be made in a directory, where there is none of its name. *)
Definition writable (fs : Fs) (k : Key) : bool := bool_decide (is_dir fs (removelast k)) && negb (bool_decide (is_dir fs k)).

Definition write (p : Path) (content : string) : io () := λ fs,
  let k := resolve (cwd fs) p in
  if writable fs k then ret (Ok (), set_files fs (<[k := content]> (files fs))) else ret (Err Io, fs).

Definition copy (from to : Path) : io () := λ fs,
  match files fs !! resolve (cwd fs) from with
  | Some content => write to content fs
  | None => ret (Err Io, fs)
  end.

Definition remove_file (p : Path) : io () := λ fs,
  let k := resolve (cwd fs) p in
  match files fs !! k with Some _ => ret (Ok (), set_files fs (delete k (files fs))) | None => ret (Err Io, fs) end.

Definition rename (from to : Path) : io () := λ fs,
  let f := resolve (cwd fs) from in
  let t := resolve (cwd fs) to in
  match files fs !! f with
  | Some content => if writable fs t then ret (Ok (), set_files fs (<[t := content]> (delete f (files fs)))) else ret (Err Io, fs)
  | None => ret (Err Io, fs)
  end.

Definition is_file (fs : Fs) (p : Path) : bool := bool_decide (is_Some (files fs !! resolve (cwd fs) p)).
Definition path_exists (fs : Fs) (p : Path) : bool := is_file fs p || bool_decide (is_dir fs (resolve (cwd fs) p)).

(** [dunce::canonicalize], which is [fs::canonicalize] here. *)
Definition canonicalize (p : Path) : io Path :=
  lift (λ fs, if path_exists fs p then Ok (key_path (resolve (cwd fs) p)) else Err Io).

Fixpoint for_each {A} (l : list A) (f : A → io ()) : io () :=
  match l with [] => mret () | a :: l => f a;; for_each l f end.

(** * The configuration *)

Inductive GenContext := Types | Clients | Services | Mocks.

Definition context_text (c : GenContext) : string :=
  match c with Types => "types" | Clients => "clients" | Services => "services" | Mocks => "mocks" end.

Record Config := {
  thrift_bin : option Path;
  out_dir : Path;
  gen_context : GenContext;
  base_path : option Path;
  crate_map : option Path;
  types_crate : option string;
  clients_crate : option string;
  options : option string;
  include_srcs : list Path;
  extra_srcs : list Path;
}.

Definition new (context : GenContext) (bin : option Path) (out : Path) : Config :=
  {| thrift_bin := bin; out_dir := out; gen_context := context; base_path := None; crate_map := None;
     types_crate := None; clients_crate := None; options := None; include_srcs := []; extra_srcs := [] |}.

Definition with_base_path (c : Config) (v : Path) : Config :=
  {| thrift_bin := thrift_bin c; out_dir := out_dir c; gen_context := gen_context c; base_path := Some v; crate_map := crate_map c;
     types_crate := types_crate c; clients_crate := clients_crate c; options := options c; include_srcs := include_srcs c; extra_srcs := extra_srcs c |}.
Definition with_crate_map (c : Config) (v : Path) : Config :=
  {| thrift_bin := thrift_bin c; out_dir := out_dir c; gen_context := gen_context c; base_path := base_path c; crate_map := Some v;
     types_crate := types_crate c; clients_crate := clients_crate c; options := options c; include_srcs := include_srcs c; extra_srcs := extra_srcs c |}.
Definition with_types_crate (c : Config) (v : string) : Config :=
  {| thrift_bin := thrift_bin c; out_dir := out_dir c; gen_context := gen_context c; base_path := base_path c; crate_map := crate_map c;
     types_crate := Some v; clients_crate := clients_crate c; options := options c; include_srcs := include_srcs c; extra_srcs := extra_srcs c |}.
Definition with_clients_crate (c : Config) (v : string) : Config :=
  {| thrift_bin := thrift_bin c; out_dir := out_dir c; gen_context := gen_context c; base_path := base_path c; crate_map := crate_map c;
     types_crate := types_crate c; clients_crate := Some v; options := options c; include_srcs := include_srcs c; extra_srcs := extra_srcs c |}.
Definition with_options (c : Config) (v : string) : Config :=
  {| thrift_bin := thrift_bin c; out_dir := out_dir c; gen_context := gen_context c; base_path := base_path c; crate_map := crate_map c;
     types_crate := types_crate c; clients_crate := clients_crate c; options := Some v; include_srcs := include_srcs c; extra_srcs := extra_srcs c |}.
Definition with_include_srcs (c : Config) (v : list Path) : Config :=
  {| thrift_bin := thrift_bin c; out_dir := out_dir c; gen_context := gen_context c; base_path := base_path c; crate_map := crate_map c;
     types_crate := types_crate c; clients_crate := clients_crate c; options := options c; include_srcs := include_srcs c ++ v; extra_srcs := extra_srcs c |}.
Definition with_extra_srcs (c : Config) (v : list Path) : Config :=
  {| thrift_bin := thrift_bin c; out_dir := out_dir c; gen_context := gen_context c; base_path := base_path c; crate_map := crate_map c;
     types_crate := types_crate c; clients_crate := clients_crate c; options := options c; include_srcs := include_srcs c; extra_srcs := extra_srcs c ++ v |}.

(** The environment: THRIFT and OUT_DIR. *)
Definition from_env (context : GenContext) (thrift out : option Path) : io Config :=
  println "cargo:rerun-if-env-changed=THRIFT";;
  match out with
  | None => fail Io
  | Some out =>
      let map := join out (name_of "cratemap") in
      let conf := new context thrift out in
      lift (λ fs, Ok (if is_file fs map then with_crate_map conf map else conf))
  end.

(** * Running the compiler *)

Inductive Arg := Str (s : string) | PathArg (p : Path).
Record Command := { program : Path; args : list Arg; current_dir : option Path }.

Fixpoint remap_parents (p : Path) : Path * Path :=
  match strip_prefix [ParentDir] p, p with
  | Some _, _ :: rem => let '(parts, rem) := remap_parents rem in (Normal "_t" :: parts, rem)
  | _, _ => ([], p)
  end.
Definition remap_to_out_dir (p : Path) : Path := let '(parts, rem) := remap_parents p in join parts rem.

(** The text so far, and the separator that comes next. *)
Definition push_option (s : string * string) (o : option string) : string * string :=
  match o with None => s | Some o => (s.1 +:+ s.2 +:+ o, ",") end.

Definition include_srcs_arg_name (c : Config) : option string :=
  match include_srcs c, gen_context c with
  | [], _ => None
  | _, Types => Some "types_include_srcs="
  | _, Clients => Some "clients_include_srcs="
  | _, Services => Some "services_include_srcs="
  | _, Mocks => None
  end.

Definition mstch_rust_options (c : Config) (crate_map : option Path) : list (option string) :=
  [(λ p, "cratemap=" +:+ path_text p) <$> crate_map;
   (λ s, "types_crate=" +:+ s) <$> types_crate c;
   (λ s, "clients_crate=" +:+ s) <$> clients_crate c;
   (λ s, s +:+ join_text ":" (path_text ∘ remap_to_out_dir <$> include_srcs c)) <$> include_srcs_arg_name c;
   options c].

Definition canonical_crate_map (c : Config) : io (option Path) :=
  match crate_map c with None => mret None | Some p => p ← canonicalize p; mret (Some p) end.

Definition mstch_rust_args (c : Config) (crate_map : option Path) : string :=
  (foldl push_option ("mstch_rust", ":") (mstch_rust_options c crate_map)).1.

(** The loop goes up from the base until it is above the destination. *)
Fixpoint relative_loop (fuel : nat) (upward common_prefix destination : Path) : exec Path :=
  match fuel with
  | 0 => panic
  | S fuel =>
      match strip_prefix common_prefix destination with
      | Some relative => ret (join upward relative)
      | None => let! common_prefix := expect (parent common_prefix) in relative_loop fuel (join upward [ParentDir]) common_prefix destination
      end
  end.

Definition relative_path (base destination : Path) : io Path :=
  base ← canonicalize base;
  destination ← canonicalize destination;
  may_panic (relative_loop (S (length base)) [] base destination).

Section compiler.
(** [which], and running a command: whether it succeeded. *)
Context (which : Path → Fs → result Path Error) (run_command : Command → Fs → result bool Error * Fs).

Definition output (cmd : Command) : io bool := λ fs, ret (run_command cmd fs).

Definition infer_thrift_binary (c : Config) (fs : Fs) : Path :=
  match base_path c with
  | Some base =>
      let candidate := join base [Normal "thrift"; Normal "facebook"; Normal "rpm"; Normal "thrift1"] in
      if path_exists fs candidate then candidate else name_of "thrift1"
  | None => name_of "thrift1"
  end.

Definition resolve_thrift_bin (c : Config) : io Path :=
  bin ← match thrift_bin c with Some bin => mret bin | None => lift (λ fs, Ok (infer_thrift_binary c fs)) end;
  bin ← (if length bin =? 1 then println "cargo:rerun-if-env-changed=PATH";; lift (which bin) else mret bin)%nat;
  println ("cargo:rerun-if-changed=" +:+ path_text bin);;
  match base_path c with Some _ => canonicalize bin | None => mret bin end.

Definition run_compiler (c : Config) (thrift_bin out input : Path) : io () :=
  crate_map ← canonical_crate_map c;
  let gen := mstch_rust_args c crate_map in
  out ← canonicalize out;
  let arguments := [Str "--gen"; Str gen; Str "--out"; PathArg out] in
  cmd ← match base_path c with
        | Some base =>
            input ← relative_path base input;
            mret {| program := thrift_bin; args := arguments ++ [Str "-I"; Str "."; PathArg input]; current_dir := Some base |}
        | None => mret {| program := thrift_bin; args := arguments ++ [PathArg input]; current_dir := None |}
        end;
  success ← output cmd;
  if success : bool then mret () else fail CompilerFailed.

Fixpoint name_and_path_from_input (input_files : list Path) : io (list (string * Path)) :=
  match input_files with
  | [] => mret []
  | file :: input_files =>
      match file_stem file with
      | None => fail (NoStem file)
      | Some stem => l ← name_and_path_from_input input_files; mret ((stem, file) :: l)
      end
  end.

(** What of the generated files a crate of its own does without, and the one that becomes lib.rs. *)
Definition unwanted_single (context : GenContext) : list string :=
  match context with
  | Types => ["client.rs"; "errors.rs"; "mock.rs"; "server.rs"]
  | Clients => ["consts.rs"; "mock.rs"; "server.rs"; "services.rs"; "types.rs"]
  | Services => ["client.rs"; "consts.rs"; "errors.rs"; "mock.rs"; "services.rs"; "types.rs"]
  | Mocks => ["client.rs"; "consts.rs"; "errors.rs"; "server.rs"; "services.rs"; "types.rs"]
  end.

(** The same for a module of a crate. *)
Definition unwanted_multi (context : GenContext) : list string :=
  match context with
  | Types => ["client.rs"; "mock.rs"; "server.rs"]
  | Clients => ["consts.rs"; "errors.rs"; "mock.rs"; "server.rs"; "services.rs"; "types.rs"]
  | Services => ["client.rs"; "consts.rs"; "errors.rs"; "mock.rs"; "services.rs"; "types.rs"]
  | Mocks => ["client.rs"; "consts.rs"; "errors.rs"; "server.rs"; "services.rs"; "types.rs"]
  end.

Definition main_file (context : GenContext) : string :=
  match context with Types => "types.rs" | Clients => "client.rs" | Services => "server.rs" | Mocks => "mock.rs" end.

(** Generates into a directory and keeps what is wanted, the main file under a new name. *)
Definition generate (c : Config) (thrift_bin dir file : Path) (unwanted : list string) (root : string) : io () :=
  run_compiler c thrift_bin dir file;;
  for_each unwanted (λ f, remove_file (join dir (name_of f)));;
  rename (join dir (name_of (main_file (gen_context c)))) (join dir (name_of root)).

Definition lib_text (names : list string) : string :=
  join_text (String (Ascii.ascii_of_nat 10) EmptyString) ((λ name, "pub mod " +:+ name +:+ ";") <$> names)
  +:+ String (Ascii.ascii_of_nat 10) EmptyString.

Definition copy_src (c : Config) (src : Path) : io () :=
  println ("cargo:rerun-if-changed=" +:+ path_text src);;
  match gen_context c with
  | Types =>
      let out_path := remap_to_out_dir src in
      up ← may_panic (expect (parent out_path));
      create_dir_all (join (out_dir c) up);;
      copy src (join (out_dir c) out_path)
  | _ => mret ()
  end.

Definition run_multi (c : Config) (thrift_bin : Path) (input : list (string * Path)) : io () :=
  for_each input (λ '(name, file),
    let submod := join (out_dir c) (name_of name) in
    create_dir_all submod;;
    generate c thrift_bin submod file (unwanted_multi (gen_context c)) "mod.rs");;
  write (join (out_dir c) (name_of "lib.rs")) (lib_text input.*1).

Definition run (c : Config) (input_files : list Path) : io () :=
  thrift_bin ← resolve_thrift_bin c;
  input ← name_and_path_from_input input_files;
  create_dir_all (out_dir c);;
  for_each input (λ i, println ("cargo:rerun-if-changed=" +:+ path_text i.2));;
  for_each (include_srcs c) (copy_src c);;
  for_each (extra_srcs c) (copy_src c);;
  match input with
  | [(_, file)] => generate c thrift_bin (out_dir c) file (unwanted_single (gen_context c)) "lib.rs"
  | _ => run_multi c thrift_bin input
  end.

(** main.rs: the options of the command line. *)
Definition main (out : option Path) (use_environment : bool) (context : GenContext) (input : list Path) (env_thrift env_out : option Path) : io () :=
  out ← match out with Some out => mret out | None => lift (λ fs, Ok (key_path (cwd fs))) end;
  compiler ← (if use_environment then from_env context env_thrift env_out else mret (new context None out));
  run compiler input.
End compiler.

(** * Paths relative to another *)

Lemma io_bind_ok {A B} (m : io A) (f : A → io B) fs a fs' : m fs = ret (Ok a, fs') → (m ≫= f) fs = f a fs'.
Proof. intros Hm. unfold mbind, io_bind. by rewrite Hm. Qed.

Lemma io_bind_err {A B} (m : io A) (f : A → io B) fs e fs' : m fs = ret (Err e, fs') → (m ≫= f) fs = ret (Err e, fs').
Proof. intros Hm. unfold mbind, io_bind. by rewrite Hm. Qed.

(** What is above the first difference, and down from there. *)
Fixpoint relative_key (base destination : Key) : Path :=
  match base, destination with
  | a :: base', b :: destination' =>
      if decide (a = b) then relative_key base' destination' else replicate (length base) ParentDir ++ (Normal <$> destination)
  | _, _ => replicate (length base) ParentDir ++ (Normal <$> destination)
  end.

Lemma strip_prefix_app p q : strip_prefix p (p ++ q) = Some q.
Proof. induction p as [|a p IH]; simpl; [done|]. by rewrite decide_True. Qed.

Lemma strip_prefix_key b d r :
  strip_prefix (key_path b) (key_path d) = Some r → ∃ y, d = b ++ y ∧ r = Normal <$> y.
Proof.
  unfold key_path. simpl. rewrite ?decide_True by done. revert d. induction b as [|a b IH]; intros d; simpl; [intros [= <-]; by exists d|].
  destruct d as [|a' d]; simpl; [done|]. case_decide; [|done]. simplify_eq. intros (y&->&->)%IH. by exists y.
Qed.

Lemma key_path_app b y : key_path (b ++ y) = key_path b ++ (Normal <$> y).
Proof. unfold key_path. by rewrite fmap_app. Qed.

Lemma key_path_snoc b s : key_path (b ++ [s]) = key_path b ++ [Normal s].
Proof. unfold key_path. by rewrite fmap_app. Qed.

Lemma parent_key b s : parent (key_path (b ++ [s])) = Some (key_path b).
Proof. unfold parent. rewrite key_path_snoc, last_snoc. by rewrite removelast_last. Qed.

Lemma relative_key_prefix b y : relative_key b (b ++ y) = Normal <$> y.
Proof. induction b as [|a b IH]; simpl; [done|]. by rewrite decide_True. Qed.

(** Above a directory that is not on the way. *)
Lemma relative_key_snoc b s d :
  (∀ y, d ≠ b ++ s :: y) → relative_key (b ++ [s]) d = ParentDir :: relative_key b d.
Proof.
  revert d. induction b as [|a b IH]; intros [|a' d] Hd; csimpl; [done| | |].
  - rewrite decide_False; [done|]. intros ->. by apply (Hd d).
  - by rewrite length_app, Nat.add_comm.
  - case_decide as Ha; [|by rewrite length_app, Nat.add_comm]. subst. apply IH. intros y ->. by apply (Hd y).
Qed.

Lemma join_parents n y : join (replicate n ParentDir) (Normal <$> y) = replicate n ParentDir ++ (Normal <$> y).
Proof. by destruct y. Qed.

Lemma relative_loop_ok fuel n b d :
  length b < fuel → relative_loop fuel (replicate n ParentDir) (key_path b) (key_path d) = ret (replicate n ParentDir ++ relative_key b d).
Proof.
  revert fuel n. induction b as [|s b IH] using rev_ind; intros [|fuel] n Hlt; try lia; simpl.
  { unfold key_path. simpl. rewrite ?decide_True by done. rewrite join_parents. by destruct d. }
  rewrite length_app in Hlt. simpl in Hlt. destruct (strip_prefix _ _) as [r|] eqn:Hs.
  - apply strip_prefix_key in Hs as (y&->&->). by rewrite join_parents, relative_key_prefix.
  - rewrite parent_key. simpl. change (join (replicate n ParentDir) [ParentDir]) with (replicate n ParentDir ++ [ParentDir]).
    rewrite <-replicate_S_end, IH by lia. rewrite relative_key_snoc.
    + rewrite replicate_S_end, <-app_assoc. done.
    + intros y ->. replace (b ++ s :: y) with ((b ++ [s]) ++ y) in Hs by (by rewrite <-app_assoc).
      by rewrite (fmap_app Normal (b ++ [s])), strip_prefix_app in Hs.
Qed.

Lemma resolve_app k p q : resolve k (p ++ q) = resolve (resolve k p) q.
Proof. apply foldl_app. Qed.
Lemma resolve_names k y : resolve k (Normal <$> y) = k ++ y.
Proof. revert k. induction y as [|s y IH]; intros k; csimpl; [by rewrite app_nil_r|]. unfold resolve in *. simpl. by rewrite IH, <-app_assoc. Qed.
Lemma resolve_key k b : resolve k (key_path b) = b.
Proof. unfold key_path. unfold resolve. simpl. apply resolve_names. Qed.

Lemma resolve_parents k x : resolve (k ++ x) (replicate (length x) ParentDir) = k.
Proof.
  induction x as [|s x IH] using rev_ind; [by rewrite app_nil_r|]. rewrite length_app, Nat.add_comm. simpl.
  unfold resolve in *. simpl. by rewrite app_assoc, removelast_last.
Qed.

(** It leads from one to the other. *)
Lemma relative_key_resolves b d : resolve b (relative_key b d) = d.
Proof.
  enough (∀ k, resolve (k ++ b) (relative_key b d) = k ++ d) as H by exact (H []). revert d. induction b as [|a b IH]; intros d k.
  { rewrite app_nil_r. destruct d; exact (resolve_names k _). }
  assert (resolve (k ++ a :: b) (replicate (length (a :: b)) ParentDir ++ (Normal <$> d)) = k ++ d) as Hup.
  { by rewrite resolve_app, resolve_parents, resolve_names. }
  destruct d as [|a' d]; [exact Hup|]. simpl relative_key. case_decide; [|exact Hup]. subst. specialize (IH d (k ++ [a'])). by rewrite <-!app_assoc in IH.
Qed.

Lemma canonicalize_ok p fs : path_exists fs p = true → canonicalize p fs = ret (Ok (key_path (resolve (cwd fs) p)), fs).
Proof. intros Hp. unfold canonicalize, lift. by rewrite Hp. Qed.

Lemma resolve_join k p q : resolve k (join p q) = resolve (resolve k p) q.
Proof. destruct q as [|[| | |s] q]; simpl; try apply resolve_app; [done|]. destruct p; [done|]. by rewrite resolve_app. Qed.

Lemma relative_path_ok base file fs :
  path_exists fs base = true → path_exists fs file = true →
  relative_path base file fs = ret (Ok (relative_key (resolve (cwd fs) base) (resolve (cwd fs) file)), fs).
Proof.
  intros Hb Hd. unfold relative_path. rewrite (io_bind_ok _ _ _ _ _ (canonicalize_ok _ _ Hb)), (io_bind_ok _ _ _ _ _ (canonicalize_ok _ _ Hd)).
  unfold may_panic. rewrite (relative_loop_ok _ 0); [done|]. unfold key_path. simpl. rewrite length_fmap. lia.
Qed.

(** For two paths that exist, the relative path leads from the first to the second, the loop that
    finds it ends without a panic, and it goes up only above the first difference. *)
Theorem relative_path_resolves (base destination : Path) fs :
  path_exists fs base = true → path_exists fs destination = true →
  let p := relative_key (resolve (cwd fs) base) (resolve (cwd fs) destination) in
  relative_path base destination fs = ret (Ok p, fs) ∧
  resolve (resolve (cwd fs) base) p = resolve (cwd fs) destination.
Proof.
  intros Hb Hd p. split; [by apply relative_path_ok|apply relative_key_resolves].
Qed.

(** * Options and sources *)

(** The first option follows a colon, the others commas. *)
Lemma push_options_text acc l :
  (foldl push_option (acc, ":") l).1 =
    match omap id l with [] => acc | os => (acc +:+ ":" +:+ join_text "," os)%string end.
Proof.
  assert (∀ l acc, (foldl push_option (acc, ",") l).1 = (acc +:+ foldr (λ s t, "," +:+ s +:+ t) EmptyString (omap id l))%string) as Hc.
  { clear. induction l as [|[o|] l IH]; intros acc; csimpl; [by rewrite string_app_nil| |apply IH].
    unfold push_option in IH |- *. simpl in *. rewrite IH. by rewrite !string_app_assoc. }
  induction l as [|[o|] l IH]; csimpl; [done| |exact IH]. rewrite Hc.
  rewrite <-!string_app_assoc. f_equal. f_equal. generalize (omap id l). clear. intros l. revert o. induction l as [|s l IH]; intros o; simpl.
  - by rewrite string_app_nil.
  - by rewrite <-IH.
Qed.

Lemma mstch_rust_args_text c map :
  mstch_rust_args c map =
    match omap id (mstch_rust_options c map) with [] => "mstch_rust" | os => ("mstch_rust:" +:+ join_text "," os)%string end.
Proof. unfold mstch_rust_args. rewrite push_options_text. by destruct (omap id _). Qed.

(** Each leading [..] becomes a directory, and the path stays below the one it is joined to if there
    are no others. *)
Lemma remap_leading n rem :
  Forall (λ c, ∃ s, c = Normal s) rem → remap_to_out_dir (replicate n ParentDir ++ rem) = replicate n (Normal "_t") ++ rem.
Proof.
  intros Hr. unfold remap_to_out_dir. replace (remap_parents (replicate n ParentDir ++ rem)) with (replicate n (Normal "_t"), rem).
  - destruct Hr as [|? ? [s ->]]; done.
  - induction n as [|n IH]; simpl; [by destruct Hr as [|? ? [s ->]]|]. by rewrite <-IH.
Qed.

Lemma remap_below k n names :
  resolve k (remap_to_out_dir (replicate n ParentDir ++ (Normal <$> names))) = k ++ replicate n "_t" ++ names.
Proof.
  rewrite remap_leading by (apply Forall_fmap, Forall_true; intros s; by exists s).
  replace (replicate n (Normal "_t")) with (Normal <$> replicate n "_t") by apply fmap_replicate. by rewrite <-fmap_app, resolve_names.
Qed.

(** A [..] that is not the first component is kept, and so leaves the directory of the crate. *)
Theorem remap_escapes k : resolve (k ++ ["out"]) (remap_to_out_dir [CurDir; ParentDir; Normal "a.rs"]) = k ++ ["a.rs"].
Proof. unfold resolve. simpl. by rewrite removelast_last. Qed.

(** * What is generated *)

Definition generated : list string := ["client.rs"; "consts.rs"; "errors.rs"; "mock.rs"; "server.rs"; "services.rs"; "types.rs"].

Lemma unwanted_lists context unwanted :
  unwanted = unwanted_single context ∨ unwanted = unwanted_multi context →
  NoDup unwanted ∧ unwanted ⊆ generated ∧ main_file context ∉ unwanted ∧ main_file context ∈ generated.
Proof. intros [->| ->]; destruct context; (split; [by apply (bool_decide_unpack _)|]); split_and?; by apply (bool_decide_unpack _). Qed.

(** One file or several, errors.rs is kept in different contexts. *)
Lemma errors_kept :
  ("errors.rs" ∈ unwanted_single Types ∧ "errors.rs" ∉ unwanted_multi Types) ∧
  ("errors.rs" ∉ unwanted_single Clients ∧ "errors.rs" ∈ unwanted_multi Clients).
Proof. split; split; by apply (bool_decide_unpack _). Qed.

(** What becomes of a file of a directory that is generated into. *)
Definition arranged (text : string → string) (unwanted : list string) (main root f : string) (old : option string) : option string :=
  if decide (f = root) then Some (text main)
  else if decide (f = main ∨ f ∈ unwanted) then None
  else if decide (f ∈ generated) then Some (text f)
  else old.


Definition write_all (d : Key) (text : string → string) (fs : list string) (m : gmap Key string) : gmap Key string :=
  foldr (λ f m, <[d ++ [f] := text f]> m) m fs.
Definition delete_all (d : Key) (fs : list string) (m : gmap Key string) : gmap Key string :=
  foldl (λ m f, delete (d ++ [f]) m) m fs.

Lemma lookup_write_all d text fs m k :
  write_all d text fs m !! k =
    match last k with
    | Some f => if decide (k = d ++ [f] ∧ f ∈ fs) then Some (text f) else m !! k
    | None => m !! k
    end.
Proof.
  destruct (last k) as [f|] eqn:Hl.
  - apply last_Some in Hl as [k' ->]. induction fs as [|g fs IH]; simpl; [by case_decide as Hd; [set_solver|]|].
    destruct (decide (k' ++ [f] = d ++ [g])) as [Heq|Hne].
    + apply app_inj_2 in Heq as [-> [= ->]]; [|done]. rewrite lookup_insert_eq. rewrite decide_True; [done|]. set_solver.
    + rewrite lookup_insert_ne by done. rewrite IH. repeat case_decide; naive_solver set_solver.
  - apply last_None in Hl as ->. induction fs as [|g fs IH]; simpl; [done|]. rewrite lookup_insert_ne; [done|]. by destruct d.
Qed.

Lemma lookup_delete_all d fs m k :
  delete_all d fs m !! k =
    match last k with Some f => if decide (k = d ++ [f] ∧ f ∈ fs) then None else m !! k | None => m !! k end.
Proof.
  destruct (last k) as [f|] eqn:Hl.
  - apply last_Some in Hl as [k' ->]. revert m. induction fs as [|g fs IH]; intros m; simpl; [by case_decide as Hd; [set_solver|]|].
    rewrite IH. destruct (decide (k' ++ [f] = d ++ [g])) as [Heq|Hne].
    + apply app_inj_2 in Heq as [-> [= ->]]; [|done]. rewrite lookup_delete_eq. repeat case_decide; done || set_solver.
    + rewrite lookup_delete_ne by done. repeat case_decide; naive_solver set_solver.
  - apply last_None in Hl as ->. revert m. induction fs as [|g fs IH]; intros m; simpl; [done|]. rewrite IH, lookup_delete_ne; [done|]. by destruct d.
Qed.

Lemma set_files_files fs : set_files fs (files fs) = fs.
Proof. by destruct fs. Qed.

Lemma resolve_file at_ p f : resolve at_ (join p (name_of f)) = resolve at_ p ++ [f].
Proof. by rewrite resolve_join. Qed.

#[local] Arguments join : simpl never.
#[local] Arguments resolve : simpl never.
#[local] Arguments write_all : simpl never.
#[local] Arguments delete_all : simpl never.

(** Files that are there are removed. *)
Lemma remove_all dir l fs :
  NoDup l → Forall (λ f, is_Some (files fs !! (resolve (cwd fs) dir ++ [f]))) l →
  for_each l (λ f, remove_file (join dir (name_of f))) fs =
    ret (Ok (), set_files fs (delete_all (resolve (cwd fs) dir) l (files fs))).
Proof.
  intros Hnd. revert fs. induction Hnd as [|f l Hf Hnd IH]; intros fs Hl; simpl; [by rewrite set_files_files|].
  apply Forall_cons in Hl as [[c Hc] Hl]. erewrite io_bind_ok.
  2:{ unfold remove_file. rewrite resolve_file, Hc. done. }
  rewrite IH; [done|]. simpl. rewrite Forall_forall in *. intros g Hg. rewrite lookup_delete_ne; [by apply Hl|].
  intros [_ [= ->]]%app_inj_2; done.
Qed.


Section theory.
Context (which : Path → Fs → result Path Error) (run_command : Command → Fs → result bool Error * Fs).
(** The thrift compiler: whatever else it finds, it writes files of the names it generates into the
    directory after --out, and nothing else; when it succeeds it has written all of them. *)
Context (text : Command → Fs → string → string).
Hypothesis compiler : ∀ bin gen d rest cur fs,
  is_dir fs d → Forall (λ f, ¬ is_dir fs (d ++ [f])) generated →
  let cmd := {| program := bin; args := [Str "--gen"; Str gen; Str "--out"; PathArg (key_path d)] ++ rest; current_dir := cur |} in
  ∃ r m, run_command cmd fs = (r, set_files fs m) ∧
    (∀ k, (∀ f, f ∈ generated → k ≠ d ++ [f]) → m !! k = files fs !! k) ∧
    (r = Ok true → m = write_all d (text cmd fs) generated (files fs)).

(** The error of a command that fails, or cannot be run. *)
Definition failure (r : result bool Error) : option Error :=
  match r with Ok true => None | Ok false => Some CompilerFailed | Err e => Some e end.

(** The command for an input file. *)
Definition command_of (c : Config) (bin : Path) (at_ d : Key) (file : Path) : Command := {|
  program := bin;
  args := [Str "--gen"; Str (mstch_rust_args c ((λ p, key_path (resolve at_ p)) <$> crate_map c)); Str "--out"; PathArg (key_path d)] ++
    match base_path c with
    | Some base => [Str "-I"; Str "."; PathArg (relative_key (resolve at_ base) (resolve at_ file))]
    | None => [PathArg file]
    end;
  current_dir := base_path c;
|}.

(** The paths the command needs. *)
Definition needed (c : Config) (file : Path) : list Path :=
  option_list (crate_map c) ++ match base_path c with Some base => [base; file] | None => [] end.
Definition ready (c : Config) (fs : Fs) (file : Path) : Prop := Forall (λ p, path_exists fs p = true) (needed c file).

Lemma path_exists_dir fs p : is_dir fs (resolve (cwd fs) p) → path_exists fs p = true.
Proof. intros Hd. unfold path_exists. rewrite (bool_decide_eq_true_2 _ Hd). by rewrite orb_true_r. Qed.

Lemma run_compiler_ends c bin dir file fs :
  let d := resolve (cwd fs) dir in
  let cmd := command_of c bin (cwd fs) d file in
  is_dir fs d → Forall (λ f, ¬ is_dir fs (d ++ [f])) generated → ready c fs file →
  ∃ m, run_compiler run_command c bin dir file fs =
      ret (match failure (run_command cmd fs).1 with None => Ok () | Some e => Err e end, set_files fs m) ∧
    (∀ k, (∀ f, f ∈ generated → k ≠ d ++ [f]) → m !! k = files fs !! k) ∧
    (failure (run_command cmd fs).1 = None → m = write_all d (text cmd fs) generated (files fs)).
Proof.
  intros d cmd Hd Hg [Hm Hb]%Forall_app. unfold run_compiler.
  rewrite (io_bind_ok _ _ fs ((λ p, key_path (resolve (cwd fs) p)) <$> crate_map c) fs).
  2:{ unfold canonical_crate_map. destruct (crate_map c) as [p|]; [|done]. apply Forall_cons in Hm as [Hm _].
      by rewrite (io_bind_ok _ _ _ _ _ (canonicalize_ok _ _ Hm)). }
  rewrite (io_bind_ok _ _ _ _ _ (canonicalize_ok _ _ (path_exists_dir _ _ Hd))).
  rewrite (io_bind_ok _ _ fs cmd fs).
  2:{ unfold cmd, command_of. destruct (base_path c) as [base|]; [|done]. apply Forall_cons in Hb as [H1 [H2 _]%Forall_cons].
      by rewrite (io_bind_ok _ _ _ _ _ (relative_path_ok _ _ _ H1 H2)). }
  assert (∃ r m, run_command cmd fs = (r, set_files fs m) ∧ (∀ k, (∀ f, f ∈ generated → k ≠ d ++ [f]) → m !! k = files fs !! k) ∧
    (r = Ok true → m = write_all d (text cmd fs) generated (files fs))) as (r&m&Hrun&Hframe&Hok) by (by apply compiler).
  exists m. unfold output, mbind, io_bind. rewrite Hrun. simpl. destruct r as [[]|e]; (split; [done|split; [done|]]); naive_solver.
Qed.

Lemma generate_ends c bin dir file unwanted root fs :
  let d := resolve (cwd fs) dir in
  let cmd := command_of c bin (cwd fs) d file in
  is_dir fs d → Forall (λ f, ¬ is_dir fs (d ++ [f])) (root :: generated) → ready c fs file →
  unwanted = unwanted_single (gen_context c) ∨ unwanted = unwanted_multi (gen_context c) → root ∉ generated →
  ∃ r m, generate run_command c bin dir file unwanted root fs = ret (r, set_files fs m) ∧
    match r with
    | Ok _ => failure (run_command cmd fs).1 = None ∧
        ∀ f, m !! (d ++ [f]) = arranged (text cmd fs) unwanted (main_file (gen_context c)) root f (files fs !! (d ++ [f]))
    | Err e => failure (run_command cmd fs).1 = Some e ∧ ∀ f, f ∉ generated → m !! (d ++ [f]) = files fs !! (d ++ [f])
    end ∧
    (∀ k, (∀ f, k ≠ d ++ [f]) → m !! k = files fs !! k).
Proof.
  intros d cmd Hd [Hroot Hg]%Forall_cons Hr Hu Hrg. destruct (run_compiler_ends c bin dir file fs Hd Hg Hr) as (m&Hrun&Hframe&Hok).
  fold d cmd in Hrun, Hframe, Hok. unfold generate. destruct (failure (run_command cmd fs).1) as [e|].
  { exists (Err e), m. rewrite (io_bind_err _ _ _ _ _ Hrun). split; [done|]. split; [split; [done|]|].
    - intros f Hf. apply Hframe. by intros f' Hf' [_ [= ->]]%app_inj_2.
    - intros k Hk. apply Hframe. auto. }
  rewrite (Hok eq_refl) in Hrun. clear m Hframe Hok. set (t := text cmd fs) in *.
  apply unwanted_lists in Hu as (Hnd&Hsub&Hmu&Hmg). set (main := main_file (gen_context c)) in *.
  exists (Ok ()), (<[d ++ [root] := t main]> (delete (d ++ [main]) (delete_all d unwanted (write_all d t generated (files fs))))).
  split_and!; [|done| |].
  - rewrite (io_bind_ok _ _ _ _ _ Hrun). set (fs1 := set_files fs (write_all d t generated (files fs))).
    assert (Forall (λ f, is_Some (files fs1 !! (resolve (cwd fs1) dir ++ [f]))) unwanted) as Hall.
    { apply Forall_forall. intros f Hf. cbn [files fs1 set_files cwd]. fold d. rewrite lookup_write_all, last_snoc, decide_True by (split; [done|by apply Hsub]).
      by eexists. }
    rewrite (io_bind_ok _ _ _ _ _ (remove_all dir unwanted fs1 Hnd Hall)).
    unfold rename. rewrite !resolve_file. simpl. fold d t main.
    assert (delete_all d unwanted (write_all d t generated (files fs)) !! (d ++ [main]) = Some (t main)) as ->.
    { rewrite lookup_delete_all, last_snoc, decide_False by naive_solver. by rewrite lookup_write_all, last_snoc, decide_True. }
    replace (writable _ (d ++ [root])) with true; [done|]. unfold writable. rewrite removelast_last. simpl.
    rewrite bool_decide_eq_true_2 by done. by rewrite bool_decide_eq_false_2 by done.
  - intros f. unfold arranged. destruct (decide (f = root)) as [->|Hfr]; [by rewrite lookup_insert_eq|].
    rewrite lookup_insert_ne by (intros [_ [= ->]]%app_inj_2; done). destruct (decide (f = main)) as [->|Hfm].
    + rewrite lookup_delete_eq. rewrite decide_True; [done|by left].
    + rewrite lookup_delete_ne by (intros [_ [= ->]]%app_inj_2; done). rewrite lookup_delete_all, lookup_write_all, last_snoc.
      repeat case_decide; naive_solver.
  - intros k Hk. rewrite lookup_insert_ne by (intros <-; by eapply Hk). rewrite lookup_delete_ne by (intros <-; by eapply Hk).
    rewrite lookup_delete_all, lookup_write_all. destruct (last k) as [f|]; [|done]. rewrite !decide_False; [done| |]; intros [-> _]; by eapply Hk.
Qed.

(** ** The whole run *)

(** The same files and directories; something may have been printed. *)
Definition same_tree (fs fs' : Fs) : Prop := cwd fs' = cwd fs ∧ files fs' = files fs ∧ dirs fs' = dirs fs.

Lemma same_tree_trans fs1 fs2 fs3 : same_tree fs1 fs2 → same_tree fs2 fs3 → same_tree fs1 fs3.
Proof. unfold same_tree. naive_solver congruence. Qed.

Lemma println_ok line fs : ∃ fs', println line fs = ret (Ok (), fs') ∧ same_tree fs fs'.
Proof. by eexists. Qed.

Lemma println_all {A} (f : A → string) l fs : ∃ fs', for_each l (λ i, println (f i)) fs = ret (Ok (), fs') ∧ same_tree fs fs'.
Proof.
  revert fs. induction l as [|a l IH]; intros fs; simpl; [by eexists|].
  destruct (println_ok (f a) fs) as (fs1&Hp&Ht). destruct (IH fs1) as (fs2&Hf&Ht').
  exists fs2. rewrite (io_bind_ok _ _ _ _ _ Hp). split; [done|]. by eapply same_tree_trans.
Qed.

(** Looking for the compiler only prints. *)
Lemma resolve_thrift_bin_prints c fs : ∃ r fs', resolve_thrift_bin which c fs = ret (r, fs') ∧ same_tree fs fs'.
Proof.
  unfold resolve_thrift_bin.
  assert (∃ bin, (match thrift_bin c with Some bin => mret bin | None => lift (λ fs, Ok (infer_thrift_binary c fs)) end) fs =
    ret (Ok bin, fs)) as [bin Hbin] by (destruct (thrift_bin c); by eexists).
  rewrite (io_bind_ok _ _ _ _ _ Hbin). clear Hbin.
  assert (∃ r fs1, (if length bin =? 1 then println "cargo:rerun-if-env-changed=PATH";; lift (which bin) else mret bin) fs = ret (r, fs1) ∧
    same_tree fs fs1) as (r&fs1&Hr&Ht).
  { destruct (length bin =? 1); [|by eexists _, _]. destruct (println_ok "cargo:rerun-if-env-changed=PATH" fs) as (fs1&Hp&Ht).
    eexists _, fs1. rewrite (io_bind_ok _ _ _ _ _ Hp). by split. }
  destruct r as [bin1|e]; [|eexists _, fs1; by rewrite (io_bind_err _ _ _ _ _ Hr)]. rewrite (io_bind_ok _ _ _ _ _ Hr).
  destruct (println_ok ("cargo:rerun-if-changed=" +:+ path_text bin1) fs1) as (fs2&Hp&Ht2). rewrite (io_bind_ok _ _ _ _ _ Hp).
  pose proof (same_tree_trans _ _ _ Ht Ht2). destruct (base_path c); by eexists _, fs2.
Qed.

Lemma names_of_input l fs names :
  mapM file_stem l = Some names → name_and_path_from_input l fs = ret (Ok (zip names l), fs).
Proof.
  revert names. induction l as [|file l IH]; intros names; simpl; [by intros [= <-]|]. destruct (file_stem file) as [stem|]; [|done].
  simpl. destruct (mapM file_stem l) as [ns|] eqn:Hm; [|done]. intros [= <-]. by rewrite (io_bind_ok _ _ _ _ _ (IH _ eq_refl)).
Qed.

(** A path without a file name is refused before anything is made. *)
Lemma names_of_input_err l fs :
  mapM file_stem l = None → ∃ file, name_and_path_from_input l fs = ret (Err (NoStem file), fs).
Proof.
  induction l as [|file l IH]; simpl; [done|]. destruct (file_stem file) as [stem|]; [|by eexists].
  simpl. destruct (mapM file_stem l) as [ns|] eqn:Hm; [done|]. intros _. destruct (IH eq_refl) as [f Hf]. exists f.
  by rewrite (io_bind_err _ _ _ _ _ Hf).
Qed.

(** No file is on the way to a directory. *)
Definition clear_way (fs : Fs) (d : Key) : Prop := ∀ k, k ∈ prefixes d → files fs !! k = None.

Definition make_dirs (fs : Fs) (d : Key) : Fs := set_dirs fs (dirs fs ∪ list_to_set (prefixes d)).

Lemma create_dir_all_ok p fs :
  clear_way fs (resolve (cwd fs) p) → create_dir_all p fs = ret (Ok (), make_dirs fs (resolve (cwd fs) p)).
Proof.
  intros Hc. unfold create_dir_all. rewrite decide_False; [done|]. intros (k&Hk&[c Hf])%Exists_exists. by rewrite (Hc k Hk) in Hf.
Qed.

Lemma made_is_dir fs d k : is_dir (make_dirs fs d) k ↔ is_dir fs k ∨ k ∈ prefixes d.
Proof. unfold is_dir, make_dirs. simpl. set_solver. Qed.

Lemma prefixes_self d : d ≠ [] → d ∈ prefixes d.
Proof.
  intros Hd. apply list_elem_of_fmap. exists (length d). split; [by rewrite take_ge|]. apply elem_of_seq. destruct d; simpl; [done|lia].
Qed.

Lemma prefixes_snoc d s : prefixes (d ++ [s]) = prefixes d ++ [d ++ [s]].
Proof.
  unfold prefixes. rewrite length_app. simpl. rewrite seq_app, fmap_app. simpl. f_equal.
  - apply list_fmap_ext. intros i n Hn. apply lookup_seq in Hn as [-> Hi]. by rewrite take_app_le by lia.
  - by rewrite take_ge by (rewrite length_app; simpl; lia).
Qed.


Lemma prefixes_short d k x : k ∈ prefixes d → k ≠ d ++ x ∨ x = [].
Proof.
  intros (n&->&Hn%elem_of_seq)%list_elem_of_fmap. destruct x as [|s x]; [by right|left]. intros Heq%(f_equal length).
  rewrite length_take, length_app in Heq. simpl in Heq. lia.
Qed.

Lemma not_dir_below fs d x s : ¬ is_dir fs (d ++ s :: x) → ¬ is_dir (make_dirs fs d) (d ++ s :: x).
Proof. rewrite made_is_dir. intros Hd [?|Hp]; [done|]. by destruct (prefixes_short _ _ (s :: x) Hp). Qed.

Lemma made_self fs d : is_dir (make_dirs fs d) d.
Proof. apply made_is_dir. destruct d as [|s d]; [by left; left|]. right. by apply prefixes_self. Qed.

(** A path stays where it is if no file is taken away from it. *)
Lemma path_exists_mono fs fs' p :
  cwd fs' = cwd fs → (∀ k, is_dir fs k → is_dir fs' k) → files fs' !! resolve (cwd fs) p = files fs !! resolve (cwd fs) p →
  path_exists fs p = true → path_exists fs' p = true.
Proof.
  intros Hc Hd Hf. unfold path_exists, is_file. rewrite Hc, Hf. rewrite !orb_true_iff, !bool_decide_eq_true. naive_solver.
Qed.

Lemma ready_mono c fs fs' file : cwd fs' = cwd fs → files fs' = files fs → (∀ k, is_dir fs k → is_dir fs' k) → ready c fs file → ready c fs' file.
Proof. intros Hc Hf Hd Hr. eapply Forall_impl; [exact Hr|]. intros p. apply path_exists_mono; [done|done|by rewrite Hf]. Qed.

(** *** The sources that are copied *)

Definition srcs (c : Config) : list Path := include_srcs c ++ extra_srcs c.

(** What copying leaves alone, whether it succeeds or not: the directories, and that they are none. *)
Definition copy_frame (fs fs' : Fs) : Prop :=
  cwd fs' = cwd fs ∧ (∀ k, is_dir fs k → is_dir fs' k) ∧ (∀ k, is_dir fs k → files fs' !! k = files fs !! k).

Lemma copy_frame_trans fs1 fs2 fs3 : copy_frame fs1 fs2 → copy_frame fs2 fs3 → copy_frame fs1 fs3.
Proof. intros (C1&D1&F1) (C2&D2&F2). split; [congruence|]. split; [auto|]. intros k Hk. rewrite F2 by auto. auto. Qed.

Lemma io_bind_frame {A B} (m : io A) (f : A → io B) fs r fs' :
  (m ≫= f) fs = ret (r, fs') → (∀ r1 fs1, m fs = ret (r1, fs1) → copy_frame fs fs1) →
  (∀ a fs1, m fs = ret (Ok a, fs1) → f a fs1 = ret (r, fs') → copy_frame fs1 fs') → copy_frame fs fs'.
Proof.
  intros Hr Hm Hf. unfold mbind, io_bind in Hr. destruct (m fs) as [[[a|e] fs1]|] eqn:Hfs; simplify_eq/=; [|by eapply Hm].
  eapply copy_frame_trans; [by eapply Hm|by eapply Hf].
Qed.

Lemma copy_src_frame c src fs r fs' : copy_src c src fs = ret (r, fs') → copy_frame fs fs'.
Proof.
  intros Hr. eapply io_bind_frame; [exact Hr|intros r1 fs1 [= <- <-]; done|]. clear Hr. intros [] fs1 _ Hr.
  destruct (gen_context c); [|by injection Hr as <- <-..].
  eapply io_bind_frame; [exact Hr| |]; clear Hr.
  { unfold may_panic. intros r2 fs2. destruct (expect _); simpl; [|done]. by intros [= <- <-]. }
  intros up fs2 _ Hr. eapply io_bind_frame; [exact Hr| |]; clear Hr.
  { unfold create_dir_all. intros r3 fs3. case_decide; intros [= <- <-]; [done|]. split; [done|]. split; [|done].
    intros k [->|Hk]; [by left|right]. simpl. set_solver. }
  intros [] fs3 _. unfold copy, write. destruct (files fs3 !! _); [|by intros [= <- <-]].
  destruct (writable fs3 _) eqn:Hw; intros [= <- <-]; [|done]. split; [done|]. split; [done|]. intros k Hk. simpl.
  apply lookup_insert_ne. intros <-. unfold writable in Hw. apply andb_true_iff in Hw as [_ Hw].
  by rewrite bool_decide_eq_true_2 in Hw.
Qed.

Lemma copy_srcs_frame c l fs r fs' : for_each l (copy_src c) fs = ret (r, fs') → copy_frame fs fs'.
Proof.
  revert fs. induction l as [|src l IH]; intros fs; simpl; [by intros [= <- <-]|]. intros Hr.
  eapply io_bind_frame; [exact Hr|intros r1 fs1; apply copy_src_frame|]. intros [] fs1 _. apply IH.
Qed.

(** Only the crate of types copies sources. *)
Lemma copy_srcs_others c l fs :
  gen_context c ≠ Types → ∃ fs', for_each l (copy_src c) fs = ret (Ok (), fs') ∧ same_tree fs fs'.
Proof.
  intros Hc. revert fs. induction l as [|src l IH]; intros fs; simpl; [by eexists|].
  destruct (println_ok ("cargo:rerun-if-changed=" +:+ path_text src) fs) as (fs1&Hp&Ht). destruct (IH fs1) as (fs2&Hf&Ht').
  exists fs2. split; [|by eapply same_tree_trans].
  rewrite (io_bind_ok _ _ _ () fs1); [done|]. unfold copy_src. rewrite (io_bind_ok _ _ _ _ _ Hp). by destruct (gen_context c).
Qed.

(** There, a source is copied to where its remapped path leads from the directory of the crate. *)
Lemma copy_src_types c src fs fs' :
  gen_context c = Types → copy_src c src fs = ret (Ok (), fs') →
  ∃ content, files fs !! resolve (cwd fs) src = Some content ∧
    files fs' = <[resolve (resolve (cwd fs) (out_dir c)) (remap_to_out_dir src) := content]> (files fs).
Proof.
  intros Hc. unfold copy_src. rewrite Hc. unfold mbind, io_bind, println, may_panic. simpl.
  destruct (parent (remap_to_out_dir src)) as [up|]; [|done]. simpl. unfold create_dir_all. simpl. case_decide; [done|]. simpl.
  unfold copy. simpl. destruct (files fs !! resolve (cwd fs) src) as [content|]; [|done]. unfold write. simpl.
  destruct (writable _ _); [|done]. intros [= <-]. exists content. simpl. by rewrite resolve_join.
Qed.

Lemma for_each_app {A} (f : A → io ()) l1 l2 (g : io ()) fs :
  (for_each l1 f;; for_each l2 f;; g) fs = (for_each (l1 ++ l2) f;; g) fs.
Proof.
  revert fs. induction l1 as [|a l1 IH]; intros fs; simpl; [by unfold mbind, io_bind; simpl|].
  unfold mbind, io_bind in *. destruct (f a fs) as [[[u|e] fs1]|]; simpl; [apply IH|done|done].
Qed.

(** The state in which the sources are copied. *)
Definition prepared (c : Config) (input_files : list Path) (fs : Fs) : Fs := {|
  cwd := cwd fs; files := files fs; dirs := dirs fs ∪ list_to_set (prefixes (resolve (cwd fs) (out_dir c)));
  stdout := stdout fs ++ ((λ file, "cargo:rerun-if-changed=" +:+ path_text file) <$> input_files) |}.

Lemma println_each {A} (f : A → string) l fs :
  for_each l (λ i, println (f i)) fs = ret (Ok (), {| cwd := cwd fs; files := files fs; dirs := dirs fs; stdout := stdout fs ++ (f <$> l) |}).
Proof.
  revert fs. induction l as [|a l IH]; intros fs; csimpl; [rewrite app_nil_r; by destruct fs|].
  rewrite (io_bind_ok _ _ _ _ _ (eq_refl : println (f a) fs = ret (Ok (), _))), IH. simpl. by rewrite <-app_assoc.
Qed.

(** The steps before anything is generated. *)
Lemma run_prepare c bin input_files names fs fs1 :
  resolve_thrift_bin which c fs = ret (Ok bin, fs1) → mapM file_stem input_files = Some names →
  clear_way fs (resolve (cwd fs) (out_dir c)) →
  run which run_command c input_files fs =
    (for_each (srcs c) (copy_src c);;
     match zip names input_files with
     | [(_, file)] => generate run_command c bin (out_dir c) file (unwanted_single (gen_context c)) "lib.rs"
     | _ => run_multi run_command c bin (zip names input_files)
     end) (prepared c input_files fs1) ∧ same_tree fs fs1.
Proof.
  intros Hbin Hstem Hw. unfold run. rewrite (io_bind_ok _ _ _ _ _ Hbin).
  destruct (resolve_thrift_bin_prints c fs) as (r&fs1'&Hp&Ht). rewrite Hbin in Hp. injection Hp as <- <-. split; [|done].
  destruct Ht as (Hc1&Hf1&Hd1). rewrite (io_bind_ok _ _ _ _ _ (names_of_input input_files fs1 names Hstem)).
  assert (clear_way fs1 (resolve (cwd fs1) (out_dir c))) as Hw1 by (rewrite Hc1; unfold clear_way; rewrite Hf1; exact Hw).
  rewrite (io_bind_ok _ _ _ _ _ (create_dir_all_ok _ _ Hw1)).
  rewrite (io_bind_ok _ _ _ _ _ (println_each (λ i : string * Path, "cargo:rerun-if-changed=" +:+ path_text i.2) _ _)).
  rewrite for_each_app. f_equal. unfold prepared, make_dirs. simpl. f_equal. f_equal.
  assert (input_files = (zip names input_files).*2) as Heq by (symmetry; apply snd_zip; apply length_mapM in Hstem; lia).
  rewrite Heq at 2. by rewrite <-list_fmap_compose.
Qed.

(** What the directory of the crate is like when the copies are made. *)
Lemma copied_ready c input_files fs fs1 fs2 :
  same_tree fs fs1 → clear_way fs (resolve (cwd fs) (out_dir c)) →
  for_each (srcs c) (copy_src c) (prepared c input_files fs1) = ret (Ok (), fs2) →
  let d := resolve (cwd fs) (out_dir c) in
  cwd fs2 = cwd fs ∧ is_dir fs2 d ∧ clear_way fs2 d ∧ ∀ k, is_dir fs k → is_dir fs2 k.
Proof.
  intros (Hc1&Hf1&Hd1) Hw (Hc&Hd&Hf)%copy_srcs_frame d. simpl in Hc, Hf. rewrite Hc1 in *.
  assert (∀ k, is_dir (prepared c input_files fs1) k ↔ is_dir (make_dirs fs d) k) as Hdirs.
  { intros k. unfold is_dir, prepared, make_dirs. simpl. by rewrite Hc1, Hd1. }
  split; [done|]. split; [apply Hd, Hdirs, made_self|]. split.
  - intros k Hk. rewrite Hf by (apply Hdirs, made_is_dir; by right). rewrite Hf1. by apply Hw.
  - intros k Hk. apply Hd, Hdirs, made_is_dir. by left.
Qed.

(** A run ends with the error of a copy that fails. *)
Lemma run_copy_fails c bin input_files names fs fs1 e fs2 :
  resolve_thrift_bin which c fs = ret (Ok bin, fs1) → mapM file_stem input_files = Some names →
  clear_way fs (resolve (cwd fs) (out_dir c)) → for_each (srcs c) (copy_src c) (prepared c input_files fs1) = ret (Err e, fs2) →
  run which run_command c input_files fs = ret (Err e, fs2).
Proof.
  intros Hbin Hstem Hw Hcopy. destruct (run_prepare c bin input_files names fs fs1 Hbin Hstem Hw) as [-> _].
  by rewrite (io_bind_err _ _ _ _ _ Hcopy).
Qed.

(** A run on one file, in any context: the directory holds what was generated, without the files
    that belong to the other crates and with the main file as lib.rs; nothing else changes.  If the
    compiler fails, so does the run, and only files of names it generates may have changed. *)
Lemma run_single c bin file stem fs fs1 fs2 :
  resolve_thrift_bin which c fs = ret (Ok bin, fs1) → file_stem file = Some stem →
  let d := resolve (cwd fs) (out_dir c) in
  clear_way fs d → for_each (srcs c) (copy_src c) (prepared c [file] fs1) = ret (Ok (), fs2) →
  ready c fs2 file → Forall (λ f, ¬ is_dir fs2 (d ++ [f])) ("lib.rs" :: generated) →
  let cmd := command_of c bin (cwd fs) d file in
  ∃ r fs', run which run_command c [file] fs = ret (r, fs') ∧
    match r with
    | Ok _ => failure (run_command cmd fs2).1 = None ∧ ∀ f, files fs' !! (d ++ [f]) =
        arranged (text cmd fs2) (unwanted_single (gen_context c)) (main_file (gen_context c)) "lib.rs" f (files fs2 !! (d ++ [f]))
    | Err e => failure (run_command cmd fs2).1 = Some e ∧ ∀ f, f ∉ generated → files fs' !! (d ++ [f]) = files fs2 !! (d ++ [f])
    end ∧
    (∀ k, (∀ f, k ≠ d ++ [f]) → files fs' !! k = files fs2 !! k).
Proof.
  intros Hbin Hstem d Hw Hcopy Hr Hf cmd.
  destruct (run_prepare c bin [file] [stem] fs fs1 Hbin ltac:(by simpl; rewrite Hstem) Hw) as [-> Ht]. rewrite (io_bind_ok _ _ _ _ _ Hcopy).
  destruct (copied_ready c [file] fs fs1 fs2 Ht Hw Hcopy) as (Hc2&Hd2&_).
  destruct (generate_ends c bin (out_dir c) file (unwanted_single (gen_context c)) "lib.rs" fs2) as (r&m&Hg&Hm&Hk); rewrite ?Hc2; fold d; try done.
  - by left.
  - by apply (bool_decide_unpack _).
  - rewrite Hc2 in *. fold d cmd in Hm, Hk. by exists r, (set_files fs2 m).
Qed.

(** *** Several files *)

(** The paths a file needs are there, and not among those the run rewrites. *)
Definition safe (c : Config) (fs : Fs) (d : Key) (names : list string) (file : Path) : Prop :=
  Forall (λ p, path_exists fs p = true ∧ ∀ name f, name ∈ names → resolve (cwd fs) p ≠ (d ++ [name]) ++ [f]) (needed c file).

(** Nothing is in the way of the modules. *)
Definition room (fs : Fs) (d : Key) (names : list string) : Prop :=
  ∀ name, name ∈ names → files fs !! (d ++ [name]) = None ∧ ∀ f, f ∈ "mod.rs" :: generated → ¬ is_dir fs ((d ++ [name]) ++ [f]).

Definition multi_step (c : Config) (bin : Path) '(name, file) : io () :=
  let submod := join (out_dir c) (name_of name) in
  create_dir_all submod;;
  generate run_command c bin submod file (unwanted_multi (gen_context c)) "mod.rs".

(** The same files but in the modules of [names]. *)
Definition same_but (d : Key) (names : list string) (fs fs' : Fs) : Prop :=
  ∀ k, (∀ name f, name ∈ names → k ≠ (d ++ [name]) ++ [f]) → files fs' !! k = files fs !! k.

(** The compiler is run for [file] in a state in which only the modules [before] it may have changed,
    and with this outcome. *)
Definition compiled (c : Config) (bin : Path) (d : Key) (fs : Fs) (before : list string) (name : string) (file : Path)
    (outcome : option Error) (fsi : Fs) : Prop :=
  same_but d before fs fsi ∧ failure (run_command (command_of c bin (cwd fs) (d ++ [name]) file) fsi).1 = outcome.
Definition module_text (c : Config) (bin : Path) (d : Key) (fs : Fs) (name : string) (file : Path) (fsi : Fs) : string → string :=
  text (command_of c bin (cwd fs) (d ++ [name]) file) fsi.

Lemma app_two_inj {A} (d : list A) a b a' b' : (d ++ [a]) ++ [b] = (d ++ [a']) ++ [b'] → a = a' ∧ b = b'.
Proof. rewrite <-!app_assoc. intros [= -> ->]%app_inv_head. done. Qed.

Lemma app_depth {A} (d : list A) a b c : (d ++ [a]) ++ [b] ≠ d ++ [c].
Proof. rewrite <-app_assoc. by intros [=]%app_inv_head. Qed.

(** What is said of the module of a file that was compiled, and of one that was not. *)
Definition module_made (c : Config) (bin : Path) (d : Key) (fs fs' : Fs) (before : list string) (name : string) (file : Path) : Prop :=
  ∃ fsi, compiled c bin d fs before name file None fsi ∧
    ∀ f, files fs' !! ((d ++ [name]) ++ [f]) =
      arranged (module_text c bin d fs name file fsi) (unwanted_multi (gen_context c)) (main_file (gen_context c)) "mod.rs" f
        (files fs !! ((d ++ [name]) ++ [f])).
Definition module_failed (c : Config) (bin : Path) (d : Key) (fs fs' : Fs) (before : list string) (name : string) (file : Path) (e : Error) : Prop :=
  ∃ fsi, compiled c bin d fs before name file (Some e) fsi ∧
    ∀ f, f ∉ generated → files fs' !! ((d ++ [name]) ++ [f]) = files fs !! ((d ++ [name]) ++ [f]).

(** One module. *)
Lemma multi_step_ends c bin name file fs :
  let d := resolve (cwd fs) (out_dir c) in
  clear_way fs d → room fs d [name] → ready c fs file →
  ∃ r fs', multi_step c bin (name, file) fs = ret (r, fs') ∧ cwd fs' = cwd fs ∧
    (∀ k, is_dir fs' k ↔ is_dir fs k ∨ k ∈ prefixes (d ++ [name])) ∧
    match r with Ok _ => module_made c bin d fs fs' [] name file | Err e => module_failed c bin d fs fs' [] name file e end ∧
    same_but d [name] fs fs'.
Proof.
  intros d Hw Hroom Hr. destruct (Hroom name) as [Hname Hdirs]; [by left|].
  assert (resolve (cwd fs) (join (out_dir c) (name_of name)) = d ++ [name]) as Hd by apply resolve_file.
  assert (clear_way fs (d ++ [name])) as Hw'.
  { intros k. rewrite prefixes_snoc, elem_of_app, list_elem_of_singleton. intros [Hk| ->]; [by apply Hw|done]. }
  unfold multi_step. rewrite <-Hd in Hw'. rewrite (io_bind_ok _ _ _ _ _ (create_dir_all_ok _ _ Hw')). rewrite Hd.
  set (fs1 := make_dirs fs (d ++ [name])).
  destruct (generate_ends c bin (join (out_dir c) (name_of name)) file (unwanted_multi (gen_context c)) "mod.rs" fs1) as (r&m&Hg&Hm&Hk).
  - simpl. rewrite Hd. apply made_self.
  - simpl cwd. rewrite Hd. apply Forall_forall. intros f Hf. apply not_dir_below. by apply Hdirs.
  - apply (ready_mono _ fs); [done|done| |done]. intros k Hdir. apply made_is_dir. by left.
  - by right.
  - by apply (bool_decide_unpack _).
  - exists r, (set_files fs1 m). simpl cwd in *. rewrite Hd in *. split_and!; try done.
    + intros k. apply made_is_dir.
    + destruct r as [[]|e]; exists fs1; (split; [split; [done|by apply Hm]|]); apply Hm.
    + intros k Hne. apply Hk. intros f. apply Hne. by left.
Qed.

Lemma same_but_trans d names1 names2 fs1 fs2 fs3 :
  same_but d names1 fs1 fs2 → same_but d names2 fs2 fs3 → same_but d (names1 ++ names2) fs1 fs3.
Proof. intros H1 H2 k Hk. rewrite H2, H1; [done| |]; intros name f Hn; apply Hk, elem_of_app; auto. Qed.

(** The state in which the compiler runs for a later module, from that before the first. *)
Lemma compiled_later c bin d fs fs1 first before name file o fsi :
  cwd fs1 = cwd fs → same_but d [first] fs fs1 → compiled c bin d fs1 before name file o fsi →
  compiled c bin d fs (first :: before) name file o fsi.
Proof. intros Hc Hs [Hb Hf]. rewrite Hc in Hf. split; [by apply (same_but_trans d [first] before fs fs1)|done]. Qed.

(** All of them, up to the first that fails. *)
Lemma multi_ends c bin input fs :
  let d := resolve (cwd fs) (out_dir c) in
  NoDup input.*1 → clear_way fs d → room fs d input.*1 → Forall (safe c fs d input.*1) input.*2 →
  ∃ n r fs', for_each input (multi_step c bin) fs = ret (r, fs') ∧ cwd fs' = cwd fs ∧ n ≤ length input ∧
    (∀ k, is_dir fs k → is_dir fs' k) ∧
    (∀ k, is_dir fs' k → is_dir fs k ∨ ∃ name, name ∈ input.*1 ∧ k ∈ prefixes (d ++ [name])) ∧
    (∀ i name file, i < n → input !! i = Some (name, file) → module_made c bin d fs fs' (take i input.*1) name file) ∧
    match r with
    | Ok _ => n = length input
    | Err e => ∃ name file, input !! n = Some (name, file) ∧ module_failed c bin d fs fs' (take n input.*1) name file e
    end ∧
    same_but d (take (S n) input.*1) fs fs'.
Proof.
  intros d. revert fs d. induction input as [|[name file] input IH]; intros fs d.
  { intros _ _ _ _. exists 0, (Ok ()), fs. csimpl. by split_and!; auto. }
  csimpl. intros [Hnew Hnd]%NoDup_cons Hw Hroom [Hsafe Hall]%Forall_cons.
  destruct (multi_step_ends c bin name file fs) as (r&fs1&Hs&Hc1&Hd1&Hm1&Hk1); [done| | |].
  { intros n Hn%list_elem_of_singleton. subst. apply Hroom. by left. }
  { eapply Forall_impl; [exact Hsafe|]. by intros p [? _]. }
  assert (∀ n f, n ∈ input.*1 → files fs1 !! ((d ++ [n]) ++ [f]) = files fs !! ((d ++ [n]) ++ [f])) as Hother.
  { intros n f Hn. apply Hk1. intros n' f' ->%list_elem_of_singleton [-> _]%app_two_inj. done. }
  destruct r as [[]|e]; cycle 1.
  { exists 0, (Err e), fs1. rewrite (io_bind_err _ _ _ _ _ Hs). split_and!; try done; [lia| | | |].
    - intros k Hk. apply Hd1. by left.
    - intros k [?|Hk]%Hd1; [by left|right]. exists name. split; [by left|done].
    - intros i n f Hi. lia.
    - exists name, file. by split. }
  destruct (IH fs1) as (n&r&fs2&Hf&Hc2&Hle&Hd2&Hd2'&Hm2&Hr2&Hk2); rewrite ?Hc1; fold d; [done| | | |].
  - intros k Hk. rewrite Hk1; [by apply Hw|]. intros n f _. rewrite <-app_assoc. by destruct (prefixes_short _ _ ([n] ++ [f]) Hk).
  - intros n Hn. destruct (Hroom n) as [Hno Hnd']; [by right|]. split.
    + rewrite Hk1; [done|]. intros n' f _. apply not_eq_sym, app_depth.
    + intros f Hf' [Hdir|Hp]%Hd1; [by eapply Hnd'|]. fold d in Hp. rewrite prefixes_snoc in Hp.
      apply elem_of_app in Hp as [Hp|Hp%list_elem_of_singleton].
      * rewrite <-app_assoc in Hp. by destruct (prefixes_short _ _ ([n] ++ [f]) Hp).
      * by apply app_depth in Hp.
  - eapply Forall_impl; [exact Hall|]. intros p' Hp'. eapply Forall_impl; [exact Hp'|]. intros p [Hex Hne]. rewrite Hc1. split.
    + apply (path_exists_mono fs); [done| | |done]; [intros k Hk; apply Hd1; by left|]. apply Hk1.
      intros n f ->%list_elem_of_singleton. apply Hne. by left.
    + intros n f Hn. apply Hne. by right.
  - rewrite Hc1 in *. fold d in Hd2', Hm2, Hr2, Hk2. exists (S n), r, fs2. rewrite (io_bind_ok _ _ _ _ _ Hs).
    split_and!; [done|done|lia| | | | |by apply (same_but_trans d [name] _ fs fs1)].
    + intros k Hk. apply Hd2, Hd1. by left.
    + intros k [[?|Hk]%Hd1|(n'&Hn'&Hk)]%Hd2'; [by left|right; exists name; split; [by left|done]|right; exists n'; split; [by right|done]].
    + intros [|i] n' f' Hi Hin; simpl in Hin.
      * simplify_eq. destruct Hm1 as (fsi&Hfsi&Hm1). exists fsi. split; [done|]. intros f. rewrite Hk2; [apply Hm1|].
        intros n2 f2 Hn2 [-> _]%app_two_inj. apply Hnew. apply elem_of_take in Hn2 as (?&Hi2&_). by eapply list_elem_of_lookup_2.
      * destruct (Hm2 i n' f' ltac:(lia) Hin) as (fsi&Hfsi&Hm). exists fsi. split; [exact (compiled_later _ _ _ _ _ _ _ _ _ _ _ Hc1 Hk1 Hfsi)|]. intros f. rewrite Hm.
        unfold module_text. rewrite Hc1, Hother; [done|]. apply list_elem_of_fmap. exists (n', f'). split; [done|]. by eapply list_elem_of_lookup_2.
    + destruct r as [[]|e]; [simpl; lia|]. destruct Hr2 as (n'&f'&Hin&fsi&Hfsi&Hm). exists n', f'. split; [done|].
      exists fsi. split; [exact (compiled_later _ _ _ _ _ _ _ _ _ _ _ Hc1 Hk1 Hfsi)|]. intros f Hf'. rewrite (Hm f Hf'). apply Hother.
      apply list_elem_of_fmap. exists (n', f'). split; [done|]. by eapply list_elem_of_lookup_2.
Qed.

(** C38: a run on any number of files but one, with names of their own, in any context, from the
    state [fs2] that copying the included and extra sources leaves.  The compiler is run for the
    files in order, up to the first for which it fails or cannot be run.  Each file before that has
    a module with what was generated for it, the main file as mod.rs and the files that belong to
    the other crates removed.  If none fails, lib.rs declares the modules in order; if one does, the
    run ends with its error, without writing lib.rs, and of its module only files of names that are
    generated may have changed.  No other file changes.  Of the compiler it is assumed that it writes
    only files that it generates, into its output directory, and all of them if it succeeds; of the
    file system, that nothing is in the way of the files to be made, and that the crate map and,
    with a base path, the base and the inputs exist and are not overwritten by the run. *)
Theorem run_multi_files c bin input_files names fs fs1 fs2 :
  resolve_thrift_bin which c fs = ret (Ok bin, fs1) → mapM file_stem input_files = Some names → length input_files ≠ 1 →
  let d := resolve (cwd fs) (out_dir c) in
  clear_way fs d → for_each (srcs c) (copy_src c) (prepared c input_files fs1) = ret (Ok (), fs2) →
  NoDup names → room fs2 d names → "lib.rs" ∉ names → ¬ is_dir fs2 (d ++ ["lib.rs"]) →
  Forall (safe c fs2 d names) input_files →
  ∃ n r fs', run which run_command c input_files fs = ret (r, fs') ∧ n ≤ length names ∧
    (∀ i name file, i < n → names !! i = Some name → input_files !! i = Some file →
       module_made c bin d fs2 fs' (take i names) name file) ∧
    match r with
    | Ok _ => n = length names ∧ files fs' !! (d ++ ["lib.rs"]) = Some (lib_text names)
    | Err e => files fs' !! (d ++ ["lib.rs"]) = files fs2 !! (d ++ ["lib.rs"]) ∧
        ∃ name file, names !! n = Some name ∧ input_files !! n = Some file ∧ module_failed c bin d fs2 fs' (take n names) name file e
    end ∧
    (∀ k, k ≠ d ++ ["lib.rs"] → (∀ name f, name ∈ take (S n) names → k ≠ (d ++ [name]) ++ [f]) → files fs' !! k = files fs2 !! k).
Proof.
  intros Hbin Hstem Hlen d Hw Hcopy Hnd Hroom Hlib Hlibd Hsafe.
  destruct (run_prepare c bin input_files names fs fs1 Hbin Hstem Hw) as [-> Ht]. rewrite (io_bind_ok _ _ _ _ _ Hcopy).
  destruct (copied_ready c input_files fs fs1 fs2 Ht Hw Hcopy) as (Hc2&Hd2&Hw2&_). fold d in Hd2, Hw2.
  assert (length names = length input_files) as Hl by (symmetry; by apply length_mapM in Hstem).
  assert ((zip names input_files).*1 = names) as Hfst by (apply fst_zip; lia).
  assert ((zip names input_files).*2 = input_files) as Hsnd by (apply snd_zip; lia).
  assert (length (zip names input_files) = length names) as Hzl by (rewrite <-Hfst at 2; by rewrite length_fmap).
  replace (match zip names input_files with [(_, file)] => _ | _ => _ end)
    with (run_multi run_command c bin (zip names input_files)).
  2:{ destruct input_files as [|? [|? ?]], names as [|? [|? ?]]; done. }
  destruct (multi_ends c bin (zip names input_files) fs2) as (n&r&fs4&Hm&Hc4&Hle&Hd4&Hd4'&Hm4&Hr4&Hk4); rewrite ?Hfst, ?Hsnd, ?Hc2; fold d; try done.
  rewrite Hfst, Hc2 in *. fold d in Hd4', Hm4, Hr4, Hk4.
  assert (∀ i name file, names !! i = Some name → input_files !! i = Some file → zip names input_files !! i = Some (name, file)) as Hzip.
  { intros i name file Hn Hi. by apply lookup_zip_Some. }
  unfold run_multi. exists n. destruct r as [[]|e].
  - rewrite (io_bind_ok _ _ _ _ _ Hm), Hfst. unfold write. rewrite resolve_file, Hc4. fold d. replace (writable fs4 (d ++ ["lib.rs"])) with true.
    2:{ unfold writable. rewrite removelast_last, bool_decide_eq_true_2 by (by apply Hd4).
        rewrite bool_decide_eq_false_2; [done|]. intros [?|(n'&Hn&Hp)]%Hd4'; [done|].
        rewrite prefixes_snoc in Hp. apply elem_of_app in Hp as [Hp|Hp%list_elem_of_singleton]; [by destruct (prefixes_short _ _ ["lib.rs"] Hp)|].
        apply app_inv_head in Hp as [= <-]. done. }
    eexists _, _. split; [done|]. simpl. split_and!; [lia| |lia|apply lookup_insert_eq|].
    + intros i name file Hi Hn Hf. destruct (Hm4 i name file Hi (Hzip _ _ _ Hn Hf)) as (fsi&Hfsi&Hmod). exists fsi. split; [done|]. intros f. simpl.
      rewrite lookup_insert_ne by (intros Heq; symmetry in Heq; by apply app_depth in Heq). apply Hmod.
    + intros k Hk1 Hk2. rewrite lookup_insert_ne by done. by apply Hk4.
  - rewrite (io_bind_err _ _ _ _ _ Hm). eexists _, _. split; [done|]. split_and!; [lia| | | |].
    + intros i name file Hi Hn Hf. apply (Hm4 i name file Hi). by apply Hzip.
    + apply Hk4. intros name f _ Heq. symmetry in Heq. by apply app_depth in Heq.
    + destruct Hr4 as (name&file&[? ?]%lookup_zip_Some&?). by exists name, file.
    + intros k _. apply Hk4.
Qed.

(** A path that names no file is refused before anything is made. *)
Lemma run_refused c bin input_files fs fs1 :
  resolve_thrift_bin which c fs = ret (Ok bin, fs1) → mapM file_stem input_files = None →
  ∃ file, run which run_command c input_files fs = ret (Err (NoStem file), fs1) ∧ same_tree fs fs1.
Proof.
  intros Hbin Hstem. destruct (resolve_thrift_bin_prints c fs) as (r&fs1'&Hp&Ht). rewrite Hbin in Hp. injection Hp as <- <-.
  destruct (names_of_input_err input_files fs1 Hstem) as [file Hf]. exists file. unfold run. rewrite (io_bind_ok _ _ _ _ _ Hbin).
  by rewrite (io_bind_err _ _ _ _ _ Hf).
Qed.
End theory.

(** * Runs *)

Section sample.
Definition sample_which (p : Path) (fs : Fs) : result Path Error := Ok ([RootDir; Normal "bin"] ++ p).

(** The input of a command, its last argument, from the directory it runs in. *)
Definition sample_source (cmd : Command) (fs : Fs) : option string :=
  match last (args cmd) with
  | Some (PathArg p) => files fs !! resolve (from_option (resolve (cwd fs)) (cwd fs) (current_dir cmd)) p
  | _ => None
  end.

(** The text of a generated file: the text of its source, and its name. *)
Definition sample_text (cmd : Command) (fs : Fs) (f : string) : string := (default EmptyString (sample_source cmd fs) +:+ ":" +:+ f)%string.

(** It fails if its input is missing. *)
Definition sample_run_command (cmd : Command) (fs : Fs) : result bool Error * Fs :=
  match args cmd, sample_source cmd fs with
  | _ :: _ :: _ :: PathArg out :: _, Some _ => (Ok true, set_files fs (write_all (resolve [] out) (sample_text cmd fs) generated (files fs)))
  | _, _ => (Ok false, fs)
  end.

Lemma sample_compiler bin gen d rest cur fs :
  is_dir fs d → Forall (λ f, ¬ is_dir fs (d ++ [f])) generated →
  let cmd := {| program := bin; args := [Str "--gen"; Str gen; Str "--out"; PathArg (key_path d)] ++ rest; current_dir := cur |} in
  ∃ r m, sample_run_command cmd fs = (r, set_files fs m) ∧
    (∀ k, (∀ f, f ∈ generated → k ≠ d ++ [f]) → m !! k = files fs !! k) ∧
    (r = Ok true → m = write_all d (sample_text cmd fs) generated (files fs)).
Proof.
  intros _ _ cmd. unfold sample_run_command. cbn [args cmd app]. destruct (sample_source cmd fs).
  - rewrite resolve_key. eexists _, _. split; [done|]. split; [|done]. intros k Hk. rewrite lookup_write_all.
    destruct (last k) as [f|]; [|done]. rewrite decide_False; [done|]. intros [-> Hf]. by apply (Hk f).
  - exists (Ok false), (files fs). by rewrite set_files_files.
Qed.

Definition sample_fs : Fs :=
  {| cwd := ["w"]; files := {[ ["w"; "a.thrift"] := "a"; ["w"; "sub"; "b.thrift"] := "b" ]}; dirs := {[ ["w"]; ["w"; "sub"] ]}; stdout := [] |}.
Definition sample_config : Config := with_base_path (new Clients (Some [RootDir; Normal "w"; Normal "a.thrift"]) [Normal "out"]) [Normal "sub"].
Definition sample_input : list Path := [[Normal "a.thrift"]; [Normal "sub"; Normal "b.thrift"]].
Definition printed (fs : Fs) (lines : list string) : Fs := {| cwd := cwd fs; files := files fs; dirs := dirs fs; stdout := lines |}.

(** In a base directory, with the thrift file outside it. *)
Lemma relative_path_witness :
  path_exists sample_fs [Normal "sub"] = true ∧ path_exists sample_fs [Normal "a.thrift"] = true ∧
  relative_path [Normal "sub"] [Normal "a.thrift"] sample_fs = ret (Ok [ParentDir; Normal "a.thrift"], sample_fs).
Proof.
  split_and!; [by vm_compute..|]. exact (proj1 (relative_path_resolves [Normal "sub"] [Normal "a.thrift"] sample_fs eq_refl eq_refl)).
Defined.

(** With a source to copy, before the modules are made. *)
Definition sample_copying : Config :=
  with_include_srcs (with_base_path (new Types (Some [RootDir; Normal "w"; Normal "a.thrift"]) [Normal "out"]) [Normal "sub"]) [[Normal "a.thrift"]].
Definition sample_copied : Fs :=
  match for_each (srcs sample_copying) (copy_src sample_copying)
    (prepared sample_copying sample_input (printed sample_fs ["cargo:rerun-if-changed=/w/a.thrift"])) with
  | ret (_, fs) => fs
  | panic => sample_fs
  end.

Lemma run_multi_files_witness :
  ∃ n r fs', run sample_which sample_run_command sample_copying sample_input sample_fs = ret (r, fs') ∧ n ≤ 2 ∧
    match r with
    | Ok _ => n = 2 ∧ files fs' !! ["w"; "out"; "lib.rs"] = Some (lib_text ["a"; "b"])
    | Err _ => files fs' !! ["w"; "out"; "lib.rs"] = None
    end ∧ files fs' !! ["w"; "out"; "a.thrift"] = Some "a".
Proof.
  destruct (run_multi_files sample_which sample_run_command sample_text sample_compiler sample_copying
    [RootDir; Normal "w"; Normal "a.thrift"] sample_input ["a"; "b"] sample_fs
    (printed sample_fs ["cargo:rerun-if-changed=/w/a.thrift"]) sample_copied) as (n&r&fs'&Hrun&Hn&_&Hr&Hk).
  - vm_compute. reflexivity.
  - reflexivity.
  - done.
  - intros k Hk. destruct (decide (k = ["w"])) as [->|]; [by vm_compute|]. destruct (decide (k = ["w"; "out"])) as [->|]; [by vm_compute|].
    vm_compute in Hk. exfalso. set_solver.
  - vm_compute. reflexivity.
  - by apply (bool_decide_unpack _).
  - intros name Hname. assert (name = "a" ∨ name = "b") as [-> | ->] by set_solver; (split; [by vm_compute|]);
      apply Forall_forall; by apply (bool_decide_unpack _).
  - by apply (bool_decide_unpack _).
  - by apply (bool_decide_unpack _).
  - repeat constructor; try (by vm_compute); intros name f _; done.
  - exists n, r, fs'. split; [exact Hrun|]. split; [exact Hn|]. split; [destruct r as [[]|e]; [exact Hr|exact (proj1 Hr)]|].
    rewrite Hk; [by vm_compute|done|done].
Defined.

(** Two modules. *)
Example two_modules :
  match run sample_which sample_run_command sample_config sample_input sample_fs with
  | ret (Ok _, fs) =>
      files fs !! ["w"; "out"; "lib.rs"] = Some (lib_text ["a"; "b"]) ∧ files fs !! ["w"; "out"; "a"; "mod.rs"] = Some "a:client.rs" ∧
      files fs !! ["w"; "out"; "b"; "mod.rs"] = Some "b:client.rs" ∧ files fs !! ["w"; "out"; "b"; "types.rs"] = None
  | _ => False
  end.
Proof. vm_compute. split_and!; reflexivity. Qed.

(** An input that is missing: the compiler fails, and so does the run, after the first module. *)
Example missing_input :
  match run sample_which sample_run_command (new Types (Some [RootDir; Normal "t"]) [Normal "out"])
    [[Normal "a.thrift"]; [Normal "no.thrift"]; [Normal "sub"; Normal "b.thrift"]] sample_fs with
  | ret (Err e, fs) =>
      e = CompilerFailed ∧ files fs !! ["w"; "out"; "a"; "mod.rs"] = Some "a:types.rs" ∧
      files fs !! ["w"; "out"; "b"; "mod.rs"] = None ∧ files fs !! ["w"; "out"; "lib.rs"] = None
  | _ => False
  end.
Proof. vm_compute. split_and!; reflexivity. Qed.

(** In the context of types a source goes along, below the directory of the crate. *)
Example copied_source :
  match run sample_which sample_run_command
    (with_include_srcs (new Types (Some [RootDir; Normal "t"]) [Normal "out"]) [[ParentDir; Normal "w"; Normal "a.thrift"]]) sample_input sample_fs with
  | ret (Ok _, fs) => files fs !! ["w"; "out"; "_t"; "w"; "a.thrift"] = Some "a" ∧ files fs !! ["w"; "out"; "b"; "mod.rs"] = Some "b:types.rs"
  | _ => False
  end.
Proof. vm_compute. split; reflexivity. Qed.

Definition twice : list Path := [[Normal "a"; Normal "x.thrift"]; [Normal "b"; Normal "x.thrift"]].

Definition twice_fs : Fs := set_files sample_fs (<[["w"; "a"; "x.thrift"] := "ax"]> (<[["w"; "b"; "x.thrift"] := "bx"]> (files sample_fs))).

(** Two files of the same name: the run succeeds, lib.rs declares one module twice, and what was
    generated for the first file is lost. *)
Lemma same_stem :
  match run sample_which sample_run_command (new Types (Some [RootDir; Normal "t"]) [Normal "out"]) twice twice_fs with
  | ret (Ok _, fs) => files fs !! ["w"; "out"; "lib.rs"] = Some (lib_text ["x"; "x"]) ∧ files fs !! ["w"; "out"; "x"; "mod.rs"] = Some "bx:types.rs"
  | _ => False
  end.
Proof. vm_compute. split; reflexivity. Qed.
End sample.

End ThriftCompiler.
