(* ===== verification/Detectors.v ===== *)
(** [tokio-detectors] (src/shed/tokio-detectors/src/detectors.rs): a thread that probes a runtime and
    reports its workers when a probe is late.

    The detector, its monitoring threads and the worker threads are one state, and an event is what
    one thread does next.  What the runtime does with a probe, the random pause between probes and
    the clock are the environment's. *)
From stdpp Require Import gmap strings.
From S2P Require Import Prelude RustStd RustStr Duration.

Module Detectors.
#[local] Abbreviation length := List.length.
#[local] Open Scope Z_scope.

(** [get_panic_worker_block_duration]: the variable, in seconds, or the default. *)
Definition PANIC_WORKER_BLOCK_DURATION_DEFAULT : Z := 60.
Definition get_panic_worker_block_duration (var : option string) : Z :=
  let duration_str := default "60"%string var in
  match parse_int U64 duration_str with Some secs => secs | None => PANIC_WORKER_BLOCK_DURATION_DEFAULT end.

(** * Threads *)

Record ThreadInfo := { id : positive; pthread_id : N }.

#[export] Instance thread_info_eq_dec : EqDecision ThreadInfo.
Proof. solve_decision. Defined.
#[export] Program Instance thread_info_countable : Countable ThreadInfo :=
  inj_countable' (λ t, (id t, pthread_id t)) (λ p, {| id := p.1; pthread_id := p.2 |}) _.
Next Obligation. by intros []. Qed.

(** [WorkerSet]: a set behind a lock, each method taking the lock for the whole of its body. *)
Record WorkerSet := { inner : gset ThreadInfo }.

Definition worker_set_new : WorkerSet := {| inner := ∅ |}.
Definition add (t : ThreadInfo) (w : WorkerSet) : WorkerSet := {| inner := {[t]} ∪ inner w |}.
Definition remove (t : ThreadInfo) (w : WorkerSet) : WorkerSet := {| inner := inner w ∖ {[t]} |}.
Definition get_all (w : WorkerSet) : list ThreadInfo := elements (inner w).

(** Where a monitoring thread is. *)
Inductive Monitor := Checking | Probing | Late | Pausing (micros : Z) | Finished | Panicked.

#[export] Instance monitor_eq_dec : EqDecision Monitor.
Proof. solve_decision. Defined.

(** * The detector *)

Record LongRunningTaskDetector := {
  interval : Duration;
  stop_flag : bool;
  workers : WorkerSet;
  monitors : list Monitor;
  reports : list (list ThreadInfo);
}.
Abbreviation State := LongRunningTaskDetector.

Definition new (period : Duration) (workers : WorkerSet) : State :=
  {| interval := period; stop_flag := true; workers := workers; monitors := []; reports := [] |}.
Definition new_current_threaded (period : Duration) (current : ThreadInfo) : State := new period (add current worker_set_new).
Definition new_multi_threaded (period : Duration) : State := new period worker_set_new.

Definition set_flag (s : State) (b : bool) : State :=
  {| interval := interval s; stop_flag := b; workers := workers s; monitors := monitors s; reports := reports s |}.
Definition set_workers (s : State) (w : WorkerSet) : State :=
  {| interval := interval s; stop_flag := stop_flag s; workers := w; monitors := monitors s; reports := reports s |}.
Definition set_monitor (s : State) (i : nat) (m : Monitor) : State :=
  {| interval := interval s; stop_flag := stop_flag s; workers := workers s; monitors := <[i := m]> (monitors s); reports := reports s |}.
Definition blocking_detected (s : State) (targets : list ThreadInfo) : State :=
  {| interval := interval s; stop_flag := stop_flag s; workers := workers s; monitors := monitors s; reports := reports s ++ [targets] |}.

Definition start (s : State) : State :=
  {| interval := interval s; stop_flag := false; workers := workers s; monitors := monitors s ++ [Checking]; reports := reports s |}.
Definition stop (s : State) : State := if negb (stop_flag s) then set_flag s true else s.

(** The random pause: [gen_range] of an empty range panics, as does an interval that is no u64. *)
Definition pause (s : State) (micros : Z) : option Monitor :=
  let max := as_micros (interval s) in
  if ((max <=? 2 ^ 64 - 1) && (10 <=? max))%bool
  then if ((10 <=? micros) && (micros <=? max))%bool then Some (Pausing micros) else None
  else Some Panicked.

(** What happens next.  A probe is [Answered], after which the thread draws its pause, or not, within
    the detection time first and the time for giving up then. *)
Inductive Event :=
| Start | Stop
| ThreadStart (t : ThreadInfo) | ThreadStop (t : ThreadInfo)
| Check (i : nat)
| Answered (i : nat) (micros : Z)
| TimedOut (i : nat)
| Woken (i : nat).

Definition step (s : State) (e : Event) : option State :=
  match e with
  | Start => Some (start s)
  | Stop => Some (stop s)
  | ThreadStart t => Some (set_workers s (add t (workers s)))
  | ThreadStop t => Some (set_workers s (remove t (workers s)))
  | Check i =>
      match monitors s !! i with
      | Some Checking => Some (set_monitor s i (if stop_flag s then Finished else Probing))
      | _ => None
      end
  | Answered i micros =>
      match monitors s !! i with
      | Some (Probing | Late) => set_monitor s i <$> pause s micros
      | _ => None
      end
  | TimedOut i =>
      match monitors s !! i with
      | Some Probing => Some (set_monitor (blocking_detected s (get_all (workers s))) i Late)
      | Some Late => Some (set_monitor s i Panicked)
      | _ => None
      end
  | Woken i => match monitors s !! i with Some (Pausing _) => Some (set_monitor s i Checking) | _ => None end
  end.

Fixpoint run (s : State) (l : list Event) : option State :=
  match l with [] => Some s | e :: l => s ← step s e; run s l end.

Definition done (m : Monitor) : bool := match m with Finished | Panicked => true | _ => false end.

(** * Stopping *)

(** Events of monitoring threads. *)
Definition of_monitor (e : Event) : bool := match e with Check _ | Answered _ _ | TimedOut _ | Woken _ => true | _ => false end.

(** How far a monitoring thread is from its end once the flag is set. *)
Definition left (m : Monitor) : nat := match m with Finished | Panicked => 0 | Checking => 1 | Pausing _ => 2 | Late => 3 | Probing => 4 end.

Lemma sum_left_insert (l : list Monitor) i m m' :
  l !! i = Some m → (sum_list_with left (<[i := m']> l) + left m = sum_list_with left l + left m')%nat.
Proof.
  intros Hm. rewrite (insert_take_drop _ _ _ (lookup_lt_Some _ _ _ Hm)). rewrite <-(take_drop_middle _ _ _ Hm) at 3.
  rewrite !sum_list_with_app. simpl. lia.
Qed.

(** A step after the flag is set, without a new start, takes a monitoring thread nearer to its end. *)
Lemma stopped_step s e s' :
  stop_flag s = true → e ≠ Start → step s e = Some s' →
  stop_flag s' = true ∧
  (sum_list_with left (monitors s') + (if of_monitor e then 1 else 0) ≤ sum_list_with left (monitors s))%nat ∧
  length (monitors s') = length (monitors s).
Proof.
  intros Hs He. destruct e as [| |t|t|i|i us|i|i]; simpl; intros Hst; try done; try congruence.
  1-3: (unfold stop in Hst; rewrite ?Hs in Hst; simpl in Hst; simplify_eq; simpl; rewrite ?Hs; split_and!; [done|lia|done]).
  all: destruct (monitors s !! i) as [m|] eqn:Hm; [|done]; destruct m; try done; simpl in Hst; simplify_eq; try rewrite Hs in *.
  all: try (destruct (pause s us) as [m|] eqn:Hp; [|done]; simpl in Hst; simplify_eq;
    assert (left m ≤ 2)%nat by (unfold pause in Hp; repeat case_match; simplify_eq; simpl; lia)).
  all: simpl; rewrite ?length_insert; split_and!; try done.
  all: match goal with H : monitors ?x !! ?j = Some _ |- context[sum_list_with left (<[?j := ?m']> (monitors ?x))] => pose proof (sum_left_insert _ _ _ m' H) end; simpl in *; lia.
Qed.

(** A monitoring thread that is not done can go on, whatever the state. *)
Lemma monitor_moves s i m : monitors s !! i = Some m → done m = false → ∃ e, of_monitor e = true ∧ is_Some (step s e).
Proof.
  intros Hm Hd. destruct m; try done.
  - exists (Check i). split; [done|]. simpl. rewrite Hm. by eexists.
  - exists (TimedOut i). split; [done|]. simpl. rewrite Hm. by eexists.
  - exists (TimedOut i). split; [done|]. simpl. rewrite Hm. by eexists.
  - exists (Woken i). split; [done|]. simpl. rewrite Hm. by eexists.
Qed.

Lemma left_bound l : (sum_list_with left l ≤ 4 * length l)%nat.
Proof. induction l as [|m l IH]; simpl; [lia|]. destruct m; simpl; lia. Qed.

(** After a stop that no start follows, the monitoring threads take at most four steps each, and
    until each of them has ended one can go on: all of them end. *)
Theorem stopped_ends s l s' :
  stop_flag s = true → Start ∉ l → run s l = Some s' →
  (length (filter of_monitor l) ≤ 4 * length (monitors s))%nat ∧
  ((∀ e, of_monitor e = true → step s' e = None) → Forall (λ m, done m = true) (monitors s')).
Proof.
  intros Hs Hl Hr. split.
  - enough (length (filter of_monitor l) ≤ sum_list_with left (monitors s))%nat by (pose proof (left_bound (monitors s)); lia).
    revert s Hs Hl Hr. induction l as [|e l IH]; intros s Hs Hl Hr; simpl; [lia|]. apply not_elem_of_cons in Hl as [He Hl]. simpl in Hr.
    destruct (step s e) as [s1|] eqn:Hst; [|done]. simpl in Hr.
    destruct (stopped_step _ _ _ Hs (not_eq_sym He) Hst) as (Hs1&Hle&_). specialize (IH s1 Hs1 Hl Hr).
    rewrite filter_cons. destruct (of_monitor e); simpl in *; lia.
  - intros Hno. apply Forall_forall. intros m [i Hm]%list_elem_of_lookup. destruct (done m) eqn:Hd; [done|].
    destruct (monitor_moves _ _ _ Hm Hd) as (e&He&[? Hst]). by rewrite Hno in Hst.
Qed.

(** * Reports *)

(** The threads that have started and not stopped. *)
Definition alive (l : list Event) (t : ThreadInfo) : Prop := ∃ l1 l2, l = l1 ++ ThreadStart t :: l2 ∧ ThreadStop t ∉ l2.

Lemma alive_snoc l e t :
  alive (l ++ [e]) t ↔ e = ThreadStart t ∨ (e ≠ ThreadStop t ∧ alive l t).
Proof.
  split.
  - intros (l1&l2&Heq&Hno). destruct l2 as [|e' l2 _] using rev_ind.
    + apply app_inj_tail in Heq as [_ ->]. by left.
    + rewrite app_comm_cons, app_assoc in Heq. apply app_inj_tail in Heq as [-> ->]. right. split; [set_solver|]. exists l1, l2. set_solver.
  - intros [->|[Hne (l1&l2&->&Hno)]].
    + exists l, []. split; [done|]. set_solver.
    + exists l1, (l2 ++ [e]). split; [by rewrite <-app_assoc|]. set_solver.
Qed.

Lemma run_snoc s l e s' : run s (l ++ [e]) = Some s' ↔ ∃ s1, run s l = Some s1 ∧ step s1 e = Some s'.
Proof.
  revert s. induction l as [|e' l IH]; intros s; simpl.
  - split; [|by intros (?&[= ->]&->)]. intros H. exists s. split; [done|]. by destruct (step s e).
  - destruct (step s e') as [s1|]; simpl; [apply IH|]. split; [done|]. by intros (?&?&?).
Qed.

(** A report: a probe was not answered in time, and these are the threads alive then. *)
Definition reported (l : list Event) (targets : list ThreadInfo) : Prop :=
  ∃ l1 i l2, l = l1 ++ TimedOut i :: l2 ∧ NoDup targets ∧ ∀ t, t ∈ targets ↔ alive l1 t.

Lemma reported_snoc l e r : reported l r → reported (l ++ [e]) r.
Proof. intros (l1&i&l2&->&Hr). exists l1, i, (l2 ++ [e]). split; [by rewrite <-app_assoc|done]. Qed.

(** The set of workers is that of the threads that have started and not stopped, and each report
    of a late probe lists just the threads that were running then, each of them once. *)
Theorem reports_list_workers period l s :
  run (new_multi_threaded period) l = Some s →
  (∀ t, t ∈ inner (workers s) ↔ alive l t) ∧ Forall (reported l) (reports s).
Proof.
  revert s. induction l as [|e l IH] using rev_ind; intros s.
  { intros [= <-]. split; [|constructor]. intros t. split; [set_solver|]. intros (l1&l2&Heq&_). by destruct l1. }
  intros (s1&Hr&Hst)%run_snoc. destruct (IH s1 Hr) as [Hw Hrep].
  assert (Forall (reported (l ++ [e])) (reports s1)) as Hrep' by (eapply Forall_impl; [exact Hrep|]; intros; by apply reported_snoc).
  assert (∀ t, alive (l ++ [e]) t ↔ e = ThreadStart t ∨ (e ≠ ThreadStop t ∧ t ∈ inner (workers s1))) as Ha by (intros t; rewrite alive_snoc, Hw; done).
  destruct e as [| |t0|t0|i|i us|i|i]; simpl in Hst.
  - simplify_eq. split; [|done]. intros t. rewrite Ha. simpl. naive_solver.
  - unfold stop in Hst. simplify_eq. split; [|by destruct (negb _)]. intros t. rewrite Ha. destruct (negb _); simpl; naive_solver.
  - simplify_eq. split; [|done]. intros t. rewrite Ha. simpl. unfold add. set_solver.
  - simplify_eq. split; [|done]. intros t. rewrite Ha. simpl. unfold remove. set_solver.
  - destruct (monitors s1 !! i) as [[]|]; simplify_eq. split; [|done]. intros t. rewrite Ha. simpl. naive_solver.
  - destruct (monitors s1 !! i) as [m|]; [|done]. destruct (pause s1 us); destruct m; try done; simpl in Hst; simplify_eq;
      (split; [intros t; rewrite Ha; simpl; naive_solver|done]).
  - destruct (monitors s1 !! i) as [m|]; [|done]. destruct m; try done; simplify_eq; (split; [intros t; rewrite Ha; simpl; naive_solver|]); simpl.
    + apply Forall_app. split; [done|]. apply Forall_cons. split; [|done]. exists l, i, []. split; [done|]. unfold get_all.
      split; [apply NoDup_elements|]. intros t. by rewrite elem_of_elements, Hw.
    + done.
  - destruct (monitors s1 !! i) as [[]|]; simplify_eq. split; [|done]. intros t. rewrite Ha. simpl. naive_solver.
Qed.

(** * Intervals and restarts *)

(** With a sensible interval a monitoring thread panics only if the runtime answers neither in the
    detection time nor in the time that is then given. *)
Lemma panics_only_blocked s e s' i :
  10 ≤ as_micros (interval s) ≤ 2 ^ 64 - 1 → step s e = Some s' → monitors s' !! i = Some Panicked →
  monitors s !! i = Some Panicked ∨ e = TimedOut i ∧ monitors s !! i = Some Late.
Proof.
  intros [Hlo Hhi] Hst Hm. destruct e as [| |t0|t0|j|j us|j|j]; simpl in Hst.
  - simplify_eq. simpl in Hm. apply lookup_app_Some in Hm as [?|[_ Hm]]; [by left|]. by apply list_lookup_singleton_Some in Hm as [_ ?].
  - unfold stop in Hst. simplify_eq. left. by destruct (negb _).
  - simplify_eq. by left.
  - simplify_eq. by left.
  - destruct (monitors s !! j) as [[]|]; simplify_eq. simpl in Hm. apply list_lookup_insert_Some in Hm as [(->&Hm&_)|[_ ?]]; [|by left].
    by destruct (stop_flag s).
  - destruct (monitors s !! j) as [m|]; [|done]. assert (∃ m', pause s us = Some m' ∧ s' = set_monitor s j m') as (m'&Hp&->).
    { destruct (pause s us) as [m'|]; destruct m; simpl in Hst; simplify_eq; by eexists. }
    simpl in Hm. apply list_lookup_insert_Some in Hm as [(->&->&_)|[_ ?]]; [|by left].
    unfold pause in Hp. cbv zeta in Hp. rewrite (proj2 (Z.leb_le _ _) Hhi), (proj2 (Z.leb_le _ _) Hlo) in Hp. cbn [andb] in Hp.
    by destruct (_ && _)%bool.
  - destruct (monitors s !! j) as [m|] eqn:Hj; [|done]. destruct m; try done; simplify_eq; simpl in Hm;
      apply list_lookup_insert_Some in Hm as [(->&?&_)|[_ ?]]; try by left. by right.
  - destruct (monitors s !! j) as [[]|]; simplify_eq. simpl in Hm. apply list_lookup_insert_Some in Hm as [(->&?&_)|[_ ?]]; [done|by left].
Qed.

(** With an interval below ten microseconds, the first probe that is answered ends monitoring with a
    panic of its thread. *)
Theorem short_interval_panics s i us s' :
  as_micros (interval s) < 10 → step s (Answered i us) = Some s' → monitors s' !! i = Some Panicked.
Proof.
  intros Hi. simpl. destruct (monitors s !! i) as [m|] eqn:Hm; [|done].
  assert (pause s us = Some Panicked) as ->.
  { unfold pause. replace (10 <=? as_micros (interval s)) with false by lia. by rewrite andb_false_r. }
  destruct m; try done; intros [= <-]; simpl; apply list_lookup_insert_eq; by eapply lookup_lt_Some.
Qed.

(** A start soon after a stop leaves the old thread running: two threads probe, and each reports. *)
Theorem restart_doubles t :
  ∃ s, run (new_multi_threaded 1000000) [ThreadStart t; Start; Check 0; Answered 0 100; Stop; Start; Woken 0; Check 0; Check 1; TimedOut 0; TimedOut 1] = Some s ∧
    monitors s = [Late; Late] ∧ reports s = [[t]; [t]].
Proof.
  eexists. split; [reflexivity|]. simpl. split; [done|]. unfold get_all, add, worker_set_new, inner. by rewrite right_id_L, elements_singleton by apply _.
Qed.

(** ** Witnesses *)

Definition sample_thread : ThreadInfo := {| id := 1; pthread_id := 7 |}.
Definition sample_events : list Event := [ThreadStart sample_thread; Start; Check 0; TimedOut 0; Answered 0 500; Stop].

Lemma reports_witness : ∃ s, run (new_multi_threaded 1000000) sample_events = Some s ∧
  (∀ t, t ∈ inner (workers s) ↔ alive sample_events t) ∧ Forall (reported sample_events) (reports s).
Proof. eexists. split; [reflexivity|]. apply (reports_list_workers 1000000). reflexivity. Defined.

Definition sample_state : State := default (new_multi_threaded 0) (run (new_multi_threaded 1000000) sample_events).
Definition sample_end : State := default (new_multi_threaded 0) (run sample_state [Woken 0; Check 0]).

Lemma stopped_witness : stop_flag sample_state = true ∧ Start ∉ [Woken 0; Check 0] ∧ run sample_state [Woken 0; Check 0] = Some sample_end ∧
  Forall (λ m, done m = true) (monitors sample_end).
Proof.
  split; [reflexivity|]. split; [set_solver|]. split; [reflexivity|].
  apply (stopped_ends sample_state [Woken 0; Check 0] sample_end); [reflexivity|set_solver|reflexivity|].
  by intros [| | | |[|[|]]|[|[|]] ?|[|[|]]|[|[|]]].
Defined.
End Detectors.
