(* ===== verification/Processes.v ===== *)
(** The mocks of [async_process_traits] (src/shed/async_process_traits/src/mocks.rs): commands that record
    how they were configured, and children whose exit a test controls through a handle.

    Handles are shared: a child, its clones of the handle and the test see one store.  What a future
    does between two awaits is one step, and anything may happen to the store in between.  The status
    is a [watch] channel of tokio, which is its value and the number of times it was sent. *)
From stdpp Require Import gmap strings.
From S2P Require Import Prelude RustStd.

Module Processes.
#[local] Abbreviation length := List.length.

(** * Commands *)

Record MockCommand := {
  program : string;
  args : list string;
  env : gmap string string;
  current_dir : option string;
  uid : option Z;
  gid : option Z;
  kill_on_drop : bool;
}.

Definition command_new (program : string) : MockCommand :=
  {| program := program; args := []; env := ∅; current_dir := None; uid := None; gid := None; kill_on_drop := false |}.
Definition set_args (c : MockCommand) (l : list string) : MockCommand :=
  {| program := program c; args := l; env := env c; current_dir := current_dir c; uid := uid c; gid := gid c; kill_on_drop := kill_on_drop c |}.
Definition arg (c : MockCommand) (a : string) : MockCommand := set_args c (args c ++ [a]).
Definition args_ (c : MockCommand) (l : list string) : MockCommand := set_args c (args c ++ l).
Definition set_env (c : MockCommand) (m : gmap string string) : MockCommand :=
  {| program := program c; args := args c; env := m; current_dir := current_dir c; uid := uid c; gid := gid c; kill_on_drop := kill_on_drop c |}.
Definition env_ (c : MockCommand) (key value : string) : MockCommand := set_env c (<[key := value]> (env c)).
Definition env_clear (c : MockCommand) : MockCommand := set_env c ∅.
Definition env_remove (c : MockCommand) (key : string) : MockCommand := set_env c (delete key (env c)).
Definition envs (c : MockCommand) (vars : list (string * string)) : MockCommand := foldl (λ c kv, env_ c kv.1 kv.2) c vars.
Definition current_dir_ (c : MockCommand) (dir : string) : MockCommand :=
  {| program := program c; args := args c; env := env c; current_dir := Some dir; uid := uid c; gid := gid c; kill_on_drop := kill_on_drop c |}.
Definition uid_ (c : MockCommand) (id : Z) : MockCommand :=
  {| program := program c; args := args c; env := env c; current_dir := current_dir c; uid := Some id; gid := gid c; kill_on_drop := kill_on_drop c |}.
Definition gid_ (c : MockCommand) (id : Z) : MockCommand :=
  {| program := program c; args := args c; env := env c; current_dir := current_dir c; uid := uid c; gid := Some id; kill_on_drop := kill_on_drop c |}.
Definition kill_on_drop_ (c : MockCommand) (b : bool) : MockCommand :=
  {| program := program c; args := args c; env := env c; current_dir := current_dir c; uid := uid c; gid := gid c; kill_on_drop := b |}.

(** The last of several values for a key counts, and the keys that are not named keep theirs. *)
Lemma envs_lookup c vars key :
  env (envs c vars) !! key = match list_find (λ kv, kv.1 = key) (reverse vars) with Some (_, kv) => Some kv.2 | None => env c !! key end.
Proof.
  unfold envs. induction vars as [|[k v] vars IH] using rev_ind; [done|]. rewrite foldl_app, reverse_snoc.
  cbn [foldl list_find env env_ set_env fst snd]. case_decide as Hk.
  - subst. apply lookup_insert_eq.
  - rewrite lookup_insert_ne, IH by done. by destruct (list_find _ _) as [[? []]|].
Qed.

(** * Handles *)

(** [io::ErrorKind]; only [InvalidInput] is made here. *)
Inductive ErrorKind := InvalidInput | OtherKind (n : nat).
#[export] Instance error_kind_eq_dec : EqDecision ErrorKind.
Proof. solve_decision. Defined.

Record MockExitStatus := { code : option Z }.
Definition success (s : MockExitStatus) : bool := bool_decide (code s = Some 0%Z).

Abbreviation Status := (result (option MockExitStatus) ErrorKind).

(** The callbacks are what their futures resolve to the next time. *)
Record MockChildHandleInner := {
  was_killed : bool;
  was_terminated : bool;
  status : Status;
  version : nat;
  on_terminate : result () ErrorKind;
  on_kill : result () ErrorKind;
}.

Abbreviation Handle := positive.
Abbreviation Store := (gmap Handle MockChildHandleInner).

Definition handle_new : MockChildHandleInner :=
  {| was_killed := false; was_terminated := false; status := Ok None; version := 0; on_terminate := Ok (); on_kill := Ok () |}.

Definition send (i : MockChildHandleInner) (s : Status) : MockChildHandleInner :=
  {| was_killed := was_killed i; was_terminated := was_terminated i; status := s; version := S (version i);
     on_terminate := on_terminate i; on_kill := on_kill i |}.
Definition set_status (h : Handle) (s : Status) (w : Store) : Store := alter (λ i, send i s) h w.
Definition set_killed (i : MockChildHandleInner) : MockChildHandleInner :=
  {| was_killed := true; was_terminated := was_terminated i; status := status i; version := version i;
     on_terminate := on_terminate i; on_kill := on_kill i |}.
Definition set_terminated (i : MockChildHandleInner) : MockChildHandleInner :=
  {| was_killed := was_killed i; was_terminated := true; status := status i; version := version i;
     on_terminate := on_terminate i; on_kill := on_kill i |}.
Definition mock_kill (h : Handle) (r : result () ErrorKind) (w : Store) : Store :=
  alter (λ i, {| was_killed := was_killed i; was_terminated := was_terminated i; status := status i; version := version i;
                 on_terminate := on_terminate i; on_kill := r |}) h w.
Definition mock_terminate (h : Handle) (r : result () ErrorKind) (w : Store) : Store :=
  alter (λ i, {| was_killed := was_killed i; was_terminated := was_terminated i; status := status i; version := version i;
                 on_terminate := r; on_kill := on_kill i |}) h w.
Definition killed (h : Handle) (w : Store) : exec bool := let! i := expect (w !! h) in ret (was_killed i).
Definition terminated (h : Handle) (w : Store) : exec bool := let! i := expect (w !! h) in ret (was_terminated i).

(** * Children *)

(** What reading a pipe to its end gives. *)
Definition Pipe : Type := result (list nat) ErrorKind.

(** [seen]: the last status its receiver has been told of. *)
Record MockChild := { stdout : option Pipe; stderr : option Pipe; seen : nat; handle : Handle }.

(** The receiver has seen what was sent before it subscribed. *)
Definition with_stdio (h : Handle) (out err : option Pipe) (w : Store) : exec MockChild :=
  let! i := expect (w !! h) in ret {| stdout := out; stderr := err; seen := version i; handle := h |}.
Definition child_new (h : Handle) (w : Store) : exec MockChild := with_stdio h (Some (Ok [])) (Some (Ok [])) w.

Definition try_wait (c : MockChild) (w : Store) : exec Status := let! i := expect (w !! handle c) in ret (status i).

(** [kill] and [terminate]: up to the call of the callback, and from its result on. *)
Inductive Signal := Kill | Terminate.
Definition callback (s : Signal) (i : MockChildHandleInner) : result () ErrorKind := match s with Kill => on_kill i | Terminate => on_terminate i end.
Definition mark (s : Signal) (i : MockChildHandleInner) : MockChildHandleInner := match s with Kill => set_killed i | Terminate => set_terminated i end.

Definition signal_begin (sig : Signal) (c : MockChild) (w : Store) : exec (result (result () ErrorKind) ErrorKind) :=
  let! s := try_wait c w in
  match s with
  | Err e => ret (Err e)
  | Ok (Some _) => ret (Err InvalidInput)
  | Ok None => let! i := expect (w !! handle c) in ret (Ok (callback sig i))
  end.

Definition signal_end (sig : Signal) (c : MockChild) (r : result () ErrorKind) (w : Store) : result () ErrorKind * Store :=
  match r with
  | Err e => (Err e, w)
  | Ok _ => (Ok (), set_status (handle c) (Ok (Some {| code := None |})) (alter (mark sig) (handle c) w))
  end.

(** A poll of [wait]: [changed] resolves if something was sent since the receiver was last told,
    and the loop goes round. *)
Fixpoint wait_poll (fuel : nat) (c : MockChild) (w : Store) : exec (option (result MockExitStatus ErrorKind) * MockChild) :=
  match fuel with
  | 0 => panic
  | S fuel =>
      let! s := try_wait c w in
      match s with
      | Ok (Some status) => ret (Some (Ok status), c)
      | Err e => ret (Some (Err e), c)
      | Ok None =>
          let! i := expect (w !! handle c) in
          if version i =? seen c then ret (None, c)
          else wait_poll fuel {| stdout := stdout c; stderr := stderr c; seen := version i; handle := handle c |} w
      end
  end.

(** ** [wait_with_output] *)

Record MockOutput := { out_status : MockExitStatus; out_stdout : list nat; out_stderr : list nat }.

Definition handle_pipe (p : option Pipe) : result (list nat) ErrorKind := match p with Some p => p | None => Ok [] end.

(** [try_join!] of the three: they finish in some order, and the first error ends it. *)
Inductive Part := PartStatus (r : result MockExitStatus ErrorKind) | PartStdout | PartStderr.
Record Joined := { j_status : option MockExitStatus; j_stdout : option (list nat); j_stderr : option (list nat) }.

Definition join_part (c : MockChild) (p : Part) (j : Joined) : result Joined ErrorKind :=
  match p with
  | PartStatus (Ok s) => Ok {| j_status := Some s; j_stdout := j_stdout j; j_stderr := j_stderr j |}
  | PartStatus (Err e) => Err e
  | PartStdout => match handle_pipe (stdout c) with
                  | Ok b => Ok {| j_status := j_status j; j_stdout := Some b; j_stderr := j_stderr j |} | Err e => Err e end
  | PartStderr => match handle_pipe (stderr c) with
                  | Ok b => Ok {| j_status := j_status j; j_stdout := j_stdout j; j_stderr := Some b |} | Err e => Err e end
  end.

(** [None] if a part is missing. *)
Fixpoint wait_with_output (c : MockChild) (parts : list Part) (j : Joined) : option (result MockOutput ErrorKind) :=
  match parts with
  | [] =>
      match j_status j, j_stdout j, j_stderr j with
      | Some s, Some o, Some e => Some (Ok {| out_status := s; out_stdout := o; out_stderr := e |})
      | _, _, _ => None
      end
  | p :: parts => match join_part c p j with Ok j => wait_with_output c parts j | Err e => Some (Err e) end
  end.
Definition joined_none : Joined := {| j_status := None; j_stdout := None; j_stderr := None |}.

(** * Spawning *)

(** [MockCommandSpawner]: a callback on the command, which it may change, behind a lock. *)
Definition MockCommandSpawner (W : Type) : Type := MockCommand → W → exec (result MockChild ErrorKind * MockCommand * W).
Definition with_callback {W} (f : MockCommand → W → exec (result MockChild ErrorKind * MockCommand * W)) : MockCommandSpawner W := f.
Definition with_handle (h : Handle) : MockCommandSpawner Store := λ cmd w, let! c := child_new h w in ret (Ok c, cmd, w).
Definition spawner_new : MockCommandSpawner Store := λ cmd w,
  let h := fresh (dom w) in
  let w := <[h := handle_new]> w in
  let! c := child_new h w in ret (Ok c, cmd, w).
Definition spawn {W} (s : MockCommandSpawner W) (cmd : MockCommand) (w : W) : exec (result MockChild ErrorKind * MockCommand * W) := s cmd w.

(** * What may happen between two polls *)

(** A handle stays, and its status changes only by being sent. *)
Definition evolves (w w' : Store) : Prop :=
  ∀ h i, w !! h = Some i → ∃ i', w' !! h = Some i' ∧ (version i ≤ version i')%nat ∧ (version i = version i' → status i = status i').

#[export] Instance evolves_preorder : PreOrder evolves.
Proof.
  split.
  - intros w h i Hi. by exists i.
  - intros w1 w2 w3 H12 H23 h i Hi. destruct (H12 _ _ Hi) as (i2&H2&Hv2&Hs2). destruct (H23 _ _ H2) as (i3&H3&Hv3&Hs3).
    exists i3. split; [done|]. split; [lia|]. intros Hv. rewrite Hs2, Hs3 by lia. done.
Qed.

Lemma evolves_alter f h w :
  (∀ i, (version i ≤ version (f i))%nat ∧ (version i = version (f i) → status i = status (f i))) → evolves w (alter f h w).
Proof.
  intros Hf h' i Hi. destruct (decide (h' = h)) as [->|Hne].
  - exists (f i). by rewrite lookup_alter_eq, Hi.
  - exists i. by rewrite lookup_alter_ne.
Qed.

Lemma set_status_evolves h s w : evolves w (set_status h s w).
Proof. apply evolves_alter. intros i. simpl. lia. Qed.

Lemma mock_evolves h r w : evolves w (mock_kill h r w) ∧ evolves w (mock_terminate h r w).
Proof. split; by apply evolves_alter. Qed.

Lemma signal_end_evolves sig c r w : evolves w (signal_end sig c r w).2.
Proof. destruct r; [|done]. simpl. etrans; [|apply set_status_evolves]. apply evolves_alter. by destruct sig. Qed.

Lemma spawner_new_evolves cmd w r cmd' w' : spawner_new cmd w = ret (r, cmd', w') → evolves w w'.
Proof.
  unfold spawner_new, child_new, with_stdio. rewrite lookup_insert_eq. intros [= <- <- <-] h i Hi. exists i.
  rewrite lookup_insert_ne; [done|]. intros <-. apply (is_fresh (dom w)). by apply elem_of_dom.
Qed.

(** * Waiting *)

(** What a status is to somebody who waits. *)
Definition outcome (s : Status) : option (result MockExitStatus ErrorKind) :=
  match s with Ok (Some st) => Some (Ok st) | Err e => Some (Err e) | Ok None => None end.

(** The receiver of a child was told of something that was sent. *)
Definition valid (c : MockChild) (w : Store) : Prop := ∃ i, w !! handle c = Some i ∧ (seen c ≤ version i)%nat.

(** A poll of [wait] ends, with the status as it is; if the child is still running it has been told of
    all that was sent. *)
Lemma wait_poll_now fuel c w i :
  w !! handle c = Some i → (2 ≤ fuel)%nat →
  ∃ c', wait_poll fuel c w = ret (outcome (status i), c') ∧ handle c' = handle c ∧ stdout c' = stdout c ∧ stderr c' = stderr c ∧
    (outcome (status i) = None → seen c' = version i).
Proof.
  intros Hi. destruct fuel as [|[|fuel]]; try lia. intros _. simpl. unfold try_wait. rewrite Hi. simpl.
  destruct (status i) as [[st|]|e] eqn:Hs; simpl; [by eexists| |by eexists].
  destruct (Nat.eqb_spec (version i) (seen c)); [by exists c|]. rewrite Hi. simpl. rewrite Hs, Nat.eqb_refl. by eexists.
Qed.

(** No wake-up is lost: once a poll of [wait] has found the child running, whatever other tasks do
    with the handles, if the child then has a status there is something new for its receiver, and
    the next poll of [wait] returns that status. *)
Theorem wait_resolves fuel c c' w w' :
  (2 ≤ fuel)%nat → wait_poll fuel c w = ret (None, c') → evolves w w' →
  ∃ i', w' !! handle c = Some i' ∧ valid c' w' ∧
    match outcome (status i') with
    | None => True
    | Some r => (seen c' < version i')%nat ∧ ∃ c'', wait_poll fuel c' w' = ret (Some r, c'')
    end.
Proof.
  intros Hf Hp Hev. destruct (w !! handle c) as [i|] eqn:Hi.
  2:{ destruct fuel; [done|]. simpl in Hp. unfold try_wait in Hp. by rewrite Hi in Hp. }
  destruct (wait_poll_now fuel c w i Hi Hf) as (c1&Hp'&Hh&_&_&Hseen). rewrite Hp in Hp'. injection Hp' as Hnone <-.
  destruct (Hev _ _ Hi) as (i'&Hi'&Hle&Hsame). exists i'. split; [done|]. unfold valid. rewrite Hseen, Hh by done.
  split; [by exists i'|]. destruct (outcome (status i')) as [r|] eqn:Hr; [|done]. split.
  - destruct (decide (version i = version i')) as [Hv|]; [|lia]. rewrite <-(Hsame Hv) in Hr. congruence.
  - destruct (wait_poll_now fuel c' w' i') as (c''&Hp'&_); [by rewrite Hh|done|]. exists c''. by rewrite Hp', Hr.
Qed.

(** * Killing *)

(** A child that has exited cannot be killed, and nothing happens. *)
Lemma signal_exited sig c w i st : w !! handle c = Some i → status i = Ok (Some st) → signal_begin sig c w = ret (Err InvalidInput).
Proof. intros Hi Hs. unfold signal_begin, try_wait. by rewrite Hi; simpl; rewrite Hs. Qed.

(** Otherwise the callback is called; if it succeeds, however late, the child is marked and has exited
    without a code: it cannot be killed again through any child of the handle, and waiting for it
    ends.  If it fails, nothing changes.  Other handles are not touched. *)
Theorem signal_sound sig c w i w1 :
  w !! handle c = Some i → status i = Ok None → evolves w w1 →
  signal_begin sig c w = ret (Ok (callback sig i)) ∧
  match callback sig i with
  | Err e => signal_end sig c (callback sig i) w1 = (Err e, w1)
  | Ok _ => ∃ w2, signal_end sig c (callback sig i) w1 = (Ok (), w2) ∧
      match sig with Kill => killed | Terminate => terminated end (handle c) w2 = ret true ∧
      (∀ c', handle c' = handle c → try_wait c' w2 = ret (Ok (Some {| code := None |})) ∧
         ∀ sig', signal_begin sig' c' w2 = ret (Err InvalidInput)) ∧
      (∀ h, h ≠ handle c → w2 !! h = w1 !! h)
  end.
Proof.
  intros Hi Hs Hev. split; [unfold signal_begin, try_wait; by rewrite Hi; simpl; rewrite Hs|].
  destruct (callback sig i) as [[]|e]; [|done]. destruct (Hev _ _ Hi) as (i1&Hi1&_). eexists. split; [done|].
  assert (set_status (handle c) (Ok (Some {| code := None |})) (alter (mark sig) (handle c) w1) !! handle c =
    Some (send (mark sig i1) (Ok (Some {| code := None |})))) as Hl by (unfold set_status; by rewrite !lookup_alter_eq, Hi1).
  split_and!.
  - destruct sig; unfold killed, terminated; by rewrite Hl.
  - intros c' Hc'. split; [unfold try_wait; by rewrite Hc', Hl|]. intros sig'. eapply signal_exited; [by rewrite Hc', Hl|done].
  - intros h Hh. unfold set_status. by rewrite !lookup_alter_ne.
Qed.

(** * Output *)

Definition part_error (c : MockChild) (p : Part) : option ErrorKind :=
  match p with
  | PartStatus (Err e) => Some e
  | PartStatus (Ok _) => None
  | PartStdout => match handle_pipe (stdout c) with Err e => Some e | Ok _ => None end
  | PartStderr => match handle_pipe (stderr c) with Err e => Some e | Ok _ => None end
  end.

Lemma output_first_error c parts j :
  match omap (part_error c) parts with
  | e :: _ => wait_with_output c parts j = Some (Err e)
  | [] => wait_with_output c parts j =
      wait_with_output c [] (foldl (λ j p, match join_part c p j with Ok j => j | Err _ => j end) j parts)
  end.
Proof.
  revert j. induction parts as [|p parts IH]; intros j; [done|]. csimpl.
  destruct p as [[s|e]| |]; simpl; [apply IH|done| |]; (destruct (handle_pipe _) as [b|e]; simpl; [apply IH|done]).
Qed.

(** In whatever order the three parts finish, the output is the status and both pipes, or the first
    error there is. *)
Theorem output_sound c r parts :
  parts ≡ₚ [PartStatus r; PartStdout; PartStderr] →
  wait_with_output c parts joined_none = Some
    match omap (part_error c) parts with
    | e :: _ => Err e
    | [] => match r, handle_pipe (stdout c), handle_pipe (stderr c) with
            | Ok s, Ok o, Ok e => Ok {| out_status := s; out_stdout := o; out_stderr := e |}
            | _, _, _ => Err InvalidInput
            end
    end.
Proof.
  intros Hp. pose proof (output_first_error c parts joined_none) as Ho. destruct (omap (part_error c) parts) as [|e l] eqn:He; [|done].
  rewrite Ho. clear Ho. assert (∀ p, p ∈ parts → part_error c p = None) as Hno.
  { intros p Hin. destruct (part_error c p) as [e|] eqn:Hpe; [|done]. assert (e ∈ omap (part_error c) parts) as Hx by (apply list_elem_of_omap; by exists p).
    rewrite He in Hx. set_solver. }
  assert (part_error c (PartStatus r) = None ∧ part_error c PartStdout = None ∧ part_error c PartStderr = None) as (H1&H2&H3).
  { split_and!; apply Hno; rewrite Hp; set_solver. }
  simpl in H1, H2, H3. destruct r as [s|]; [|done]. destruct (handle_pipe (stdout c)) as [o|] eqn:Ho; [|done].
  destruct (handle_pipe (stderr c)) as [e|] eqn:Hee; [|done]. clear He Hno.
  apply Permutation_sym in Hp. apply Permutation_cons_inv_l in Hp as (l1&l2&->&Hp).
  assert (l1 ++ l2 = [PartStdout; PartStderr] ∨ l1 ++ l2 = [PartStderr; PartStdout]) as Hl.
  { apply Permutation_length_2_inv in Hp. naive_solver. }
  destruct l1 as [|x [|y [|z l1]]]; simpl in Hl; destruct Hl as [Hl|Hl]; simplify_eq/=; rewrite ?Ho, ?Hee; simpl; rewrite ?Ho, ?Hee; done.
Qed.

(** ** A witness *)

Definition sample_store : Store := {[ 1%positive := handle_new ]}.
Definition sample_child : MockChild := {| stdout := None; stderr := None; seen := 0; handle := 1%positive |}.
Definition sample_exited : Store := set_status 1 (Ok (Some {| code := Some 0%Z |})) sample_store.

Lemma wait_witness :
  wait_poll 2 sample_child sample_store = ret (None, sample_child) ∧
  ∃ i', sample_exited !! 1%positive = Some i' ∧ valid sample_child sample_exited ∧
    match outcome (status i') with
    | None => True
    | Some r => (seen sample_child < version i')%nat ∧ ∃ c'', wait_poll 2 sample_child sample_exited = ret (Some r, c'')
    end.
Proof.
  split; [reflexivity|].
  exact (wait_resolves 2 sample_child sample_child sample_store sample_exited (le_n 2) eq_refl (set_status_evolves 1 _ sample_store)).
Defined.
End Processes.
