(* ===== verification/SqlExec.v ===== *)
(** What the functions of a query run (src/shed/sql/src/lib.rs, [queries!] and the macros it uses;
    src/shed/sql/common/{lib,mysql}.rs and mysql/{ossmysql_wrapper,mysql_stub}.rs): on a connection or in
    a transaction, for SQLite, for the internal client of MySQL, of which this repository has a stub,
    and for mysql_async; the transactions of the latter two; and sets of connections.

    The statements are those of [SqlQuery].  The databases are classes; a row is the list of its
    values, and a type of a column is its [FromValue]. *)
From stdpp Require Import strings.
From S2P Require Import Prelude RustStd RustStr SqlQuery.
Import SqlQuery.Query.

Module Exec.
#[local] Abbreviation length := List.length.
#[local] Open Scope string_scope.
#[local] Open Scope nat_scope.
#[local] Open Scope list_scope.

Section exec.
Context {V Er : Type}.

(** What is read: rows, and the error that ends them early, if one does. *)
Record Rows := { rows : list (list V); broken : option Er }.

(** [rusqlite]: a statement is prepared, and queried or executed with named parameters. *)
Class SqliteDb (C : Type) := {
  prepare : list (token V) → C → result () Er;
  query_map : list (token V) → list (string * V) → C → result Rows Er * C;
  execute : list (token V) → list (string * V) → C → result nat Er * C;
  last_insert_rowid : C → Z;
}.

(** What [mysql_async] answers: the rows, the last id if there is one, the rows affected. *)
Record QueryResult := { result_rows : Rows; last_id : option Z; affected : Z }.
Class OssDb (M : Type) := {
  get_conn : M → result () Er * M;
  query_iter : string → M → result QueryResult Er * M;
}.

(** The internal client; in this repository, a stub. *)
Class MysqlClient (F : Type) := {
  client_read : string → F → exec (result (list (list V)) Er * F);
  client_write : string → F → exec (result (Z * Z) Er * F);
}.

Definition mysql_stub : MysqlClient () := {| client_read _ _ := panic; client_write _ _ := panic |}.

Context {C M F : Type} {SD : SqliteDb C} {OD : OssDb M} {MC : MysqlClient F} (as_sql : V → string).
Context {A : Type}.

(** What goes wrong: a database's error, a column that is not there, and the context added last. *)
Inductive Error := Db (e : Er) | MissingColumn (idx : nat) | NoConnection (e : Er) | Context_ (name : string) (e : Error).

Inductive Connection := Sqlite (query_start : result () Er) (c : C) | Mysql (f : F) | OssMysql (m : M).
Inductive Transaction := TxSqlite (con : option C) | TxMysql (tr : option F) | TxOssMysql (tr : option M).

Record WriteResult := { last_insert_id : option Z; affected_rows : Z }.

(** [$rtype]s: [FromValue] of each column. *)
Implicit Types (rtypes : list (V → option A)) (params : list (string * V)) (lists : list (string * list V)) (t : list piece) (q : qtype).

(** ** Rows *)

(** [sqlite_row_to_tuple] and [mysql_async_row_to_tuple]: column by column. *)
Fixpoint row_to_tuple (idx : nat) rtypes (row : list V) : exec (result (list A) Error) :=
  match rtypes with
  | [] => ret (Ok [])
  | from_value_opt :: rtypes =>
      match row !! idx with
      | None => ret (Err (MissingColumn idx))
      | Some res =>
          let! a := expect (from_value_opt res) in
          let! r := row_to_tuple (S idx) rtypes row in
          ret (match r with Ok l => Ok (a :: l) | Err e => Err e end)
      end
  end.

(** [collect]: up to the first row that fails, or cannot be read. *)
Fixpoint collect_rows rtypes (rs : list (list V)) (broken : option Er) : exec (result (list (list A)) Error) :=
  match rs with
  | [] => ret (match broken with Some e => Err (Db e) | None => Ok [] end)
  | row :: rs =>
      let! r := row_to_tuple 0 rtypes row in
      match r with
      | Err e => ret (Err e)
      | Ok a =>
          let! l := collect_rows rtypes rs broken in
          ret (match l with Ok l => Ok (a :: l) | Err e => Err e end)
      end
  end.

(** mysql_async converts all rows before any is looked at for an error. *)
Fixpoint map_rows rtypes (rs : list (list V)) : exec (list (result (list A) Error)) :=
  match rs with
  | [] => ret []
  | row :: rs => let! r := row_to_tuple 0 rtypes row in let! l := map_rows rtypes rs in ret (r :: l)
  end.
Fixpoint collect_results {B} (l : list (result B Error)) : result (list B) Error :=
  match l with
  | [] => Ok []
  | Ok b :: l => match collect_results l with Ok l => Ok (b :: l) | Err e => Err e end
  | Err e :: _ => Err e
  end.

Definition insert_comment (comment : option string) (query : string) : string :=
  match comment with Some c => ("/* " +:+ c +:+ " */" +:+ query)%string | None => query end.

Definition mysql_text (toks : list (token V)) : string := Query.text as_sql toks.

(** ** Reading *)

Section read.
Context (rtypes : list (V → option A)) (mysql_q sqlite_q : list piece) (params : list (string * V)) (lists : list (string * list V)).

Definition read_mysql_query : string := mysql_text (mysql_query None_ mysql_q params lists).
Definition read_sqlite_statement : list (token V) := sqlite_statement None_ sqlite_q params lists.

Definition sqlite_query_with (c : C) : exec (result (list (list A)) Error * C) :=
  match prepare read_sqlite_statement c with
  | Err e => ret (Err (Db e), c)
  | Ok _ =>
      match query_map read_sqlite_statement (prepare_sqlite_params params lists) c with
      | (Err e, c) => ret (Err (Db e), c)
      | (Ok rs, c) => let! r := collect_rows rtypes (rows rs) (broken rs) in ret (r, c)
      end
  end.

Definition sqlite_query (query_start : result () Er) (c : C) : exec (result (list (list A)) Error * C) :=
  match query_start with
  | Err e => ret (Err (NoConnection e), c)
  | Ok _ => sqlite_query_with c
  end.

Definition oss_rows (r : result QueryResult Er) : exec (result (list (list A)) Error) :=
  match r with
  | Err e => ret (Err (Db e))
  | Ok res =>
      let! l := map_rows rtypes (rows (result_rows res)) in
      ret (match broken (result_rows res) with Some e => Err (Db e) | None => collect_results l end)
  end.

(** The columns of the internal client are converted by itself; here by the same types. *)
Definition client_rows (r : result (list (list V)) Er) : exec (result (list (list A)) Error) :=
  match r with Err e => ret (Err (Db e)) | Ok rs => collect_rows rtypes rs None end.

Definition read_query_internal (connection : Connection) (comment : option string) : exec (result (list (list A)) Error * Connection) :=
  match connection with
  | Sqlite query_start c => let! '(r, c) := sqlite_query query_start c in ret (r, Sqlite query_start c)
  | Mysql f =>
      let! '(res, f) := client_read (insert_comment comment read_mysql_query) f in
      let! r := client_rows res in ret (r, Mysql f)
  | OssMysql m =>
      match get_conn m with
      | (Err e, m) => ret (Err (NoConnection e), OssMysql m)
      | (Ok _, m) => let '(res, m) := query_iter read_mysql_query m in let! r := oss_rows res in ret (r, OssMysql m)
      end
  end.

(** An error drops what was taken out of the transaction, which is lost. *)
Definition read_query_internal_with_transaction (transaction : Transaction) (comment : option string) :
    exec (result (Transaction * list (list A)) Error) :=
  match transaction with
  | TxSqlite con =>
      let! c := expect con in
      let! '(r, c) := sqlite_query_with c in
      ret (match r with Ok res => Ok (TxSqlite (Some c), res) | Err e => Err e end)
  | TxMysql tr =>
      let! tr := expect tr in
      let! '(res, tr) := client_read (insert_comment comment read_mysql_query) tr in
      let! r := client_rows res in
      ret (match r with Ok res => Ok (TxMysql (Some tr), res) | Err e => Err e end)
  | TxOssMysql tr =>
      let! tr := expect tr in
      let '(res, tr) := query_iter read_mysql_query tr in
      let! r := oss_rows res in
      ret (match r with Ok res => Ok (TxOssMysql (Some tr), res) | Err e => Err e end)
  end.
End read.

(** ** Writing *)

Definition add_context {B} (name : string) (r : result B Error) : result B Error :=
  match r with Ok b => Ok b | Err e => Err (Context_ name e) end.

(** [WriteResult::from] of the result of the MySQL clients. *)
Definition from_mysql (last_insert_id rows_affected : Z) : WriteResult := {| last_insert_id := Some last_insert_id; affected_rows := rows_affected |}.

(** [OssConnection::write_query]. *)
Definition oss_write (query : string) (m : M) : result WriteResult Error * M :=
  match get_conn m with
  | (Err e, m) => (Err (NoConnection e), m)
  | (Ok _, m) =>
      match query_iter query m with
      | (Err e, m) => (Err (Db e), m)
      | (Ok res, m) => (Ok (from_mysql (default 0%Z (last_id res)) (affected res)), m)
      end
  end.

(** On every kind of connection: what SQLite runs, and the text for MySQL. *)
Section write.
Context (sqlite_exec : C → result nat Error * C) (mysql : string).

Definition sqlite_write (c : C) : result WriteResult Error * C :=
  match sqlite_exec c with
  | (Err e, c) => (Err e, c)
  | (Ok n, c) => (Ok {| last_insert_id := Some (cast U64 (last_insert_rowid c)); affected_rows := Z.of_nat n |}, c)
  end.

Definition write_query_internal (connection : Connection) (comment : option string) : exec (result WriteResult Error * Connection) :=
  match connection with
  | Sqlite query_start c =>
      match query_start with
      | Err e => ret (Err (NoConnection e), connection)
      | Ok _ => let '(r, c) := sqlite_write c in ret (r, Sqlite query_start c)
      end
  | Mysql f =>
      let! '(res, f) := client_write (insert_comment comment mysql) f in
      ret (match res with Ok (id, n) => Ok (from_mysql id n) | Err e => Err (Db e) end, Mysql f)
  | OssMysql m => let '(r, m) := oss_write mysql m in ret (r, OssMysql m)
  end.

Definition write_query_internal_with_transaction (transaction : Transaction) (comment : option string) : exec (result (Transaction * WriteResult) Error) :=
  match transaction with
  | TxSqlite con =>
      let! c := expect con in
      let '(r, c) := sqlite_write c in
      ret (match r with Ok res => Ok (TxSqlite (Some c), res) | Err e => Err e end)
  | TxMysql tr =>
      let! tr := expect tr in
      let! '(res, tr) := client_write (insert_comment comment mysql) tr in
      ret (match res with Ok (id, n) => Ok (TxMysql (Some tr), from_mysql id n) | Err e => Err (Db e) end)
  | TxOssMysql tr =>
      let! tr := expect tr in
      match query_iter mysql tr with
      | (Err e, _) => ret (Err (Db e))
      | (Ok res, tr) => ret (Ok (TxOssMysql (Some tr), {| last_insert_id := last_id res; affected_rows := affected res |}))
      end
  end.
End write.

(** A write with parameters and lists. *)
Definition sqlite_exec_params q sqlite_q params lists (c : C) : result nat Error * C :=
  let stmt := sqlite_statement q sqlite_q params lists in
  match prepare stmt c with
  | Err e => (Err (Db e), c)
  | Ok _ => match execute stmt (prepare_sqlite_params params lists) c with (Err e, c) => (Err (Db e), c) | (Ok n, c) => (Ok n, c) end
  end.

Definition write_query q mysql_q sqlite_q params lists (connection : Connection) (comment : option string) :=
  write_query_internal (sqlite_exec_params q sqlite_q params lists) (mysql_text (mysql_query q mysql_q params lists)) connection comment.
Definition write_query_with_transaction q mysql_q sqlite_q params lists (transaction : Transaction) (comment : option string) :=
  write_query_internal_with_transaction (sqlite_exec_params q sqlite_q params lists) (mysql_text (mysql_query q mysql_q params lists)) transaction comment.

(** An insertion of rows: the statement is prepared once and executed for each row. *)
Definition sqlite_exec_values q sqlite_q (columns : list string) (values : list (list V)) params (c : C) : result nat Error * C :=
  let stmt := sqlite_insert q sqlite_q columns params in
  match prepare stmt c with
  | Err e => (Err (Db e), c)
  | Ok _ =>
      match exec_rows (λ row, execute stmt (sqlite_named_params columns row params)) values c [] with
      | (Err e, c) => (Err (Db e), c)
      | (Ok res, c) => (Ok (sum_list res), c)
      end
  end.

Definition no_rows : WriteResult := {| last_insert_id := None; affected_rows := 0 |}.

Definition insert_query q mysql_q sqlite_q columns (values : list (list V)) params (connection : Connection) (comment : option string) :
    exec (result WriteResult Error * Connection) :=
  match values with
  | [] => ret (Ok no_rows, connection)
  | _ => write_query_internal (sqlite_exec_values q sqlite_q columns values params) (mysql_text (mysql_insert q mysql_q values params)) connection comment
  end.
Definition insert_query_with_transaction q mysql_q sqlite_q columns (values : list (list V)) params (transaction : Transaction) (comment : option string) :
    exec (result (Transaction * WriteResult) Error) :=
  match values with
  | [] => ret (Ok (transaction, no_rows))
  | _ => write_query_internal_with_transaction (sqlite_exec_values q sqlite_q columns values params) (mysql_text (mysql_insert q mysql_q values params)) transaction comment
  end.

(** ** The functions of a query's module: [query], [commented_query], and the same in a transaction *)

Definition with_context {B S} (name : string) (m : exec (result B Error * S)) : exec (result B Error * S) :=
  let! '(r, s) := m in ret (add_context name r, s).
Definition tx_with_context {B} (name : string) (m : exec (result B Error)) : exec (result B Error) := let! r := m in ret (add_context name r).

Section module.
Context {B : Type} (name : string) (internal : Connection → option string → exec (result B Error * Connection))
  (internal_with_transaction : Transaction → option string → exec (result (Transaction * B) Error)).

Definition query (connection : Connection) := with_context name (internal connection None).
Definition commented_query (connection : Connection) (comment : option string) := with_context name (internal connection comment).
Definition query_with_transaction (transaction : Transaction) := tx_with_context name (internal_with_transaction transaction None).
Definition commented_query_with_transaction (transaction : Transaction) (comment : option string) :=
  tx_with_context name (internal_with_transaction transaction comment).
End module.

(** * Rows *)

(** What rows come to, column by column, if every value of theirs converts. *)
Definition convert_row rtypes (row : list V) : option (list A) := mapM (λ p : (V → option A) * V, p.1 p.2) (zip rtypes row).
Definition table rtypes (rs : list (list V)) : option (list (list A)) := mapM (convert_row rtypes) rs.
Definition wide rtypes (rs : list (list V)) : Prop := Forall (λ row, length rtypes ≤ length row) rs.

Lemma row_to_tuple_wide idx rtypes row :
  idx + length rtypes ≤ length row →
  row_to_tuple idx rtypes row = match convert_row rtypes (drop idx row) with Some l => ret (Ok l) | None => panic end.
Proof.
  revert idx. induction rtypes as [|f rtypes IH]; intros idx Hl; simpl in *; [done|].
  destruct (row !! idx) as [v|] eqn:Hv; [|apply lookup_ge_None in Hv; lia].
  rewrite (drop_S _ _ _ Hv). unfold convert_row in *. csimpl. destruct (f v) as [a|]; simpl; [|done].
  rewrite IH by lia. by destruct (mapM _ _).
Qed.

Lemma row_to_tuple_long idx rtypes row l : row_to_tuple idx rtypes row = ret (Ok l) → rtypes = [] ∨ idx + length rtypes ≤ length row.
Proof.
  revert idx l. induction rtypes as [|f rtypes IH]; intros idx l; simpl; [by left|]. intros Hr. right.
  destruct (row !! idx) as [v|] eqn:Hv; [|done]. destruct (f v); simpl in Hr; [|done].
  destruct (row_to_tuple (S idx) rtypes row) as [[l'|e]|] eqn:Hrest; simplify_eq/=.
  apply lookup_lt_Some in Hv. destruct (IH _ _ Hrest) as [->|?]; simpl; lia.
Qed.

(** The rows of an answer give this result: where no row is too short, the table, unless a value does
    not convert, which panics, or an error ends the rows; where one is, there is no result. *)
Definition read_as rtypes (rs : Rows) (x : exec (result (list (list A)) Error)) : Prop :=
  (wide rtypes (rows rs) →
     x = match table rtypes (rows rs) with Some l => ret (match broken rs with Some e => Err (Db e) | None => Ok l end) | None => panic end) ∧
  (∀ l, x = ret (Ok l) → wide rtypes (rows rs)).

(** Row by row, up to the first that fails. *)
Lemma collect_rows_read rtypes rs : read_as rtypes rs (collect_rows rtypes (rows rs) (broken rs)).
Proof.
  destruct rs as [rs br]. unfold read_as, wide, table. simpl. split.
  - induction 1 as [|row rs Hrow _ IH]; csimpl; [done|]. rewrite (row_to_tuple_wide 0) by done. rewrite drop_0.
    destruct (convert_row rtypes row); simpl; [|done]. rewrite IH. destruct (mapM _ rs); simpl; [|done]. by destruct br.
  - induction rs as [|row rs IH]; intros l; simpl; [constructor|]. destruct (row_to_tuple 0 rtypes row) as [[a|e]|] eqn:Hr; simpl; [|done..].
    destruct (collect_rows rtypes rs br) as [[l'|e]|] eqn:Hc; simpl; intros Hl; simplify_eq. constructor; [|by eapply IH].
    destruct (row_to_tuple_long _ _ _ _ Hr) as [->|?]; simpl; lia.
Qed.

(** All rows, and then the first that failed. *)
Lemma map_rows_read rtypes rs :
  read_as rtypes rs (let! l := map_rows rtypes (rows rs) in ret (match broken rs with Some e => Err (Db e) | None => collect_results l end)).
Proof.
  destruct rs as [rs br]. unfold read_as, wide, table. simpl. split.
  - intros Hw. assert (map_rows rtypes rs = match mapM (convert_row rtypes) rs with Some l => ret (Ok <$> l) | None => panic end) as ->.
    { induction Hw as [|row rs Hrow _ IH]; csimpl; [done|]. rewrite (row_to_tuple_wide 0) by done. rewrite drop_0.
      destruct (convert_row rtypes row); simpl; [|done]. rewrite IH. by destruct (mapM _ rs). }
    destruct (mapM _ rs) as [l|]; simpl; [|done]. destruct br; [done|]. f_equal. induction l as [|a l IH]; csimpl; [done|]. by rewrite IH.
  - destruct (map_rows rtypes rs) as [x|] eqn:Hm; simpl; [|done]. destruct br; [done|]. revert x Hm.
    induction rs as [|row rs IH]; intros x Hm l; simpl in *; [constructor|]. destruct (row_to_tuple 0 rtypes row) as [r|] eqn:Hr; simpl in Hm; [|done].
    destruct (map_rows rtypes rs) as [x'|]; simplify_eq/=. destruct r as [a|e]; [|done].
    simpl. destruct (collect_results x') as [l'|e] eqn:Hc; [|done]. intros _. constructor; [|exact (IH _ eq_refl l' ltac:(by rewrite Hc))].
    destruct (row_to_tuple_long _ _ _ _ Hr) as [->|?]; simpl; lia.
Qed.

(** * The two databases *)

(** A value of MySQL, which is text for most types, says the same as a value of SQLite when the
    types of the columns cannot tell them apart. *)
Section same.
Context (same : V → V → Prop).

Lemma table_same rtypes rs rs' :
  Forall (λ f, ∀ v w, same v w → f v = f w) rtypes → Forall2 (Forall2 same) rs rs' → table rtypes rs = table rtypes rs'.
Proof.
  intros Hf. unfold table. induction 1 as [|row row' rs rs' Hrow _ IH]; simpl; [done|]. rewrite IH.
  replace (convert_row rtypes row') with (convert_row rtypes row); [done|]. unfold convert_row. clear IH. revert row row' Hrow.
  induction Hf as [|f rtypes Hf _ IH]; intros row row' Hrow; [done|]. destruct Hrow as [|v w row row' Hv Hrow]; simpl; [done|].
  by rewrite (Hf v w Hv), (IH _ _ Hrow).
Qed.

Definition same_rows (r r' : Rows) : Prop := Forall2 (Forall2 same) (rows r) (rows r') ∧ broken r = broken r'.

Lemma read_as_same rtypes r r' x y :
  Forall (λ f, ∀ v w, same v w → f v = f w) rtypes → same_rows r r' → wide rtypes (rows r) → read_as rtypes r x → read_as rtypes r' y → x = y.
Proof.
  intros Hf [Hr Hb] Hw [Hx _] [Hy _]. rewrite Hx by done. rewrite Hy.
  - by rewrite (table_same _ _ _ Hf Hr), Hb.
  - unfold wide in *. clear Hx Hy. induction Hr as [|row row' rs rs' Hrow _ IH]; [done|]. apply Forall_cons in Hw as [Hw1 Hw]. constructor; [|by apply IH].
    by rewrite <-(Forall2_length _ _ _ Hrow).
Qed.

(** What a database says to a statement with these values bound, or to a text. *)
Definition sqlite_answer (query_start : result () Er) (c : C) (stmt : list (token V)) (given : list (string * V)) : result Rows Error :=
  match query_start, prepare stmt c with
  | Err e, _ => Err (NoConnection e)
  | _, Err e => Err (Db e)
  | _, _ => match (query_map stmt given c).1 with Ok rs => Ok rs | Err e => Err (Db e) end
  end.
Definition oss_answer (m : M) (query : string) : result Rows Error :=
  match get_conn m with
  | (Err e, _) => Err (NoConnection e)
  | (Ok _, m) => match (query_iter query m).1 with Ok res => Ok (result_rows res) | Err e => Err (Db e) end
  end.

End same.

(** * Insertions *)

(** What one row does. *)
Definition row_statement q t (row : list V) params : list (token V) :=
  format (sqlite_word q ++ [("values", mysql_rows [row])] ++ mysql_params params) t.

Fixpoint insert_all {D} (eval : list (token V) → D → result nat Er * D) (stmts : list (list (token V))) (d : D) (n : nat) : result nat Er * D :=
  match stmts with
  | [] => (Ok n, d)
  | s :: stmts => match eval s d with (Err e, d) => (Err e, d) | (Ok k, d) => insert_all eval stmts d (n + k) end
  end.

(** An insertion into SQLite is one statement for each row, up to the first that fails: what the
    earlier rows did stays done, and the rows affected are counted over all of them. *)
Theorem insert_row_by_row {D} (eval : list (token V) → D → result nat Er * D) (data : C → D) q t columns values params c :
  (∀ stmt given toks c, bind given stmt = Some toks → (execute stmt given c).1 = (eval toks (data c)).1 ∧ data (execute stmt given c).2 = (eval toks (data c)).2) →
  prepare (sqlite_insert q t columns params) c = Ok () →
  Forall (λ row, length columns = length row) values → Forall (λ row, NoDup (sqlite_named_params columns row params).*1) values →
  let '(r, c') := sqlite_exec_values q t columns values params c in
  let '(r', d') := insert_all eval ((λ row, row_statement q t row params) <$> values) (data c) 0 in
  data c' = d' ∧ r = match r' with Ok n => Ok n | Err e => Err (Db e) end.
Proof.
  intros Hex Hprep Hlen Hnd. unfold sqlite_exec_values. rewrite Hprep. clear Hprep.
  enough (∀ res, let '(r, c') := exec_rows (λ row, execute (sqlite_insert q t columns params) (sqlite_named_params columns row params)) values c res in
    let '(r', d') := insert_all eval ((λ row, row_statement q t row params) <$> values) (data c) (sum_list res) in
    data c' = d' ∧ match r, r' with Ok l, Ok n => sum_list l = n | Err e, Err e' => e = e' | _, _ => False end) as Hall.
  { specialize (Hall []). destruct (exec_rows _ _ _ _) as [[l|e] c'], (insert_all _ _ _ _) as [[n|e'] d']; naive_solver. }
  revert c Hnd. induction Hlen as [|row values Hrow Hlen IH]; intros c Hnd res; [done|]. apply Forall_cons in Hnd as [Hr Hnd].
  assert (∃ pq, NoDup (prepare_sqlite_params (V:=V) pq []).*1 ∧ pq = params) as (?&Hp&->).
  { exists params. split; [|done]. unfold prepare_sqlite_params, sqlite_named_params in *. simpl. rewrite app_nil_r, fmap_app in *.
    by apply NoDup_app in Hr as (_&_&?). }
  destruct (same_query q t params [] Hp) as (_&_&Hins). specialize (Hins columns row Hrow Hr).
  destruct (Hex _ _ _ c Hins) as [Hres Hdata]. fold (row_statement q t row params) in Hres, Hdata. csimpl.
  destruct (execute _ _ c) as [[k|e] c1]; simpl in *; destruct (eval _ (data c)) as [r1 d1]; simpl in *; subst; [|done].
  specialize (IH c1 Hnd (res ++ [k])). rewrite sum_list_with_app in IH. simpl in IH. by rewrite Nat.add_0_r in IH.
Qed.

(** Nothing is asked of the database for no rows. *)
Lemma insert_nothing q mysql_q sqlite_q columns params connection transaction comment :
  insert_query q mysql_q sqlite_q columns [] params connection comment = ret (Ok no_rows, connection) ∧
  insert_query_with_transaction q mysql_q sqlite_q columns [] params transaction comment = ret (Ok (transaction, no_rows)).
Proof. done. Qed.

(** * Transactions and comments *)

(** A transaction that was ended cannot be used: the query panics. *)
Lemma ended_panics rtypes mysql_q sqlite_q params lists comment :
  Forall (λ tx, read_query_internal_with_transaction rtypes mysql_q sqlite_q params lists tx comment = panic)
    [TxSqlite None; TxMysql None; TxOssMysql None].
Proof. by repeat constructor. Qed.

(** A comment is only written for the internal client. *)
Theorem comment_lost rtypes mysql_q sqlite_q params lists m comment :
  read_query_internal rtypes mysql_q sqlite_q params lists (OssMysql m) comment =
  read_query_internal rtypes mysql_q sqlite_q params lists (OssMysql m) None.
Proof. done. Qed.

(** And there as it is, so that its end may be that of the comment. *)
Example comment_escapes :
  insert_comment (Some "*/ DELETE FROM t; /*") "SELECT 1" = "/* */ DELETE FROM t; /* */SELECT 1".
Proof. done. Qed.

(** A write that makes no id: on a connection to MySQL the id is 0, in a transaction there is none. *)
Theorem no_id_differs (mysql : string) (sqlite_exec : C → result nat Error * C) m m1 m2 res :
  get_conn m = (Ok (), m1) → query_iter mysql m1 = (Ok res, m2) → last_id res = None →
  write_query_internal sqlite_exec mysql (OssMysql m) None = ret (Ok {| last_insert_id := Some 0%Z; affected_rows := affected res |}, OssMysql m2) ∧
  write_query_internal_with_transaction sqlite_exec mysql (TxOssMysql (Some m1)) None =
    ret (Ok (TxOssMysql (Some m2), {| last_insert_id := None; affected_rows := affected res |})).
Proof. intros Hc Hq Hl. simpl. unfold oss_write. rewrite Hc, Hq. simpl. by rewrite Hl. Qed.
End exec.

(** * Transactions of MySQL (src/shed/sql/common/transaction.rs) *)

Section mysql_transaction.
Context {V Er C : Type}.

(** A transaction of mysql_async, on a pool [M]; one that is dropped is rolled back.  The internal
    client has the same calls. *)
Class MysqlTransactions (M T : Type) := {
  start_transaction : M → exec (result T Er * M);
  tx_query : string → T → exec (result (QueryResult (V:=V) (Er:=Er)) Er * T);
  tx_commit : T → exec (result () Er * M);
  tx_rollback : T → exec (result () Er * M);
  tx_drop : T → M;
}.

(** Those of the stub. *)
Definition stub_transactions : MysqlTransactions () () :=
  {| start_transaction _ := panic; tx_query _ _ := panic; tx_commit _ := panic; tx_rollback _ := panic; tx_drop _ := () |}.

Context {M T : Type} {MT : MysqlTransactions M T}.

(** [Transaction::new], [commit] and [rollback] for either of the two; an ended transaction panics. *)
Definition mysql_new (pool : M) : exec (result (option T) Er * M) :=
  let! '(r, pool) := start_transaction pool in
  ret (match r with Ok t => Ok (Some t) | Err e => Err e end, pool).
Definition mysql_commit (self : option T) : exec (result () Er * M) := let! tr := expect self in tx_commit tr.
Definition mysql_rollback (self : option T) : exec (result () Er * M) := let! tr := expect self in tx_rollback tr.
(** [Drop] has nothing to do but what dropping the client's transaction does. *)
Definition mysql_drop (self : option T) (pool : M) : M := match self with Some tr => tx_drop tr | None => pool end.

(** Queries one after the other, each on the transaction the one before gave back; one that fails
    drops it. *)
Fixpoint mysql_queries (queries : list string) (self : option T) : exec (result (option T) (Er * M)) :=
  match queries with
  | [] => ret (Ok self)
  | q :: queries =>
      let! tr := expect self in
      let! '(r, tr) := tx_query q tr in
      match r with Ok _ => mysql_queries queries (Some tr) | Err e => ret (Err (e, mysql_drop (Some tr) (tx_drop tr))) end
  end.

(** All of a transaction. *)
Definition mysql_transaction (queries : list string) (pool : M) : exec (result () Er * M) :=
  let! '(t, pool) := mysql_new pool in
  match t with
  | Err e => ret (Err e, pool)
  | Ok t =>
      let! r := mysql_queries queries t in
      match r with Ok t => mysql_commit t | Err (e, pool) => ret (Err e, pool) end
  end.

(** What MySQL promises of a transaction, with the data of the database seen from a pool, and the
    data before and seen from a transaction. *)
Class MysqlLaws (D : Type) (run : string → D → option D) (data : M → D) (before inside : T → D) := {
  start_law pool : ∃ r pool', start_transaction pool = ret (r, pool') ∧
    match r with Ok t => before t = data pool ∧ inside t = data pool | Err _ => data pool' = data pool end;
  query_law q t : ∃ r t', tx_query q t = ret (r, t') ∧ before t' = before t ∧
    match r with Ok _ => run q (inside t) = Some (inside t') | Err _ => True end;
  commit_law t : ∃ r pool, tx_commit t = ret (r, pool) ∧
    match r with Ok _ => data pool = inside t | Err _ => data pool = before t ∨ data pool = inside t end;
  drop_law t : data (tx_drop t) = before t;
}.

(** Queries that all run, from the data before to the data after. *)
Fixpoint run_all {D} (run : string → D → option D) (queries : list string) (d : D) : option D :=
  match queries with [] => Some d | q :: queries => d ← run q d; run_all run queries d end.

Lemma mysql_queries_atomic {D} run data before inside `{MysqlLaws D run data before inside} queries t :
  ∃ r, mysql_queries queries (Some t) = ret r ∧
    match r with
    | Ok o => ∃ t', o = Some t' ∧ before t' = before t ∧ run_all run queries (inside t) = Some (inside t')
    | Err (_, pool) => data pool = before t
    end.
Proof.
  revert t. induction queries as [|q queries IH]; intros t; simpl; [by exists (Ok (Some t)); split; [|exists t]|].
  destruct (query_law q t) as (r&t1&->&Hb&Hr). simpl. destruct r as [res|e].
  - destruct (IH t1) as (r&->&Hq). exists r. split; [done|]. rewrite Hr. simpl. by rewrite <-Hb.
  - eexists. split; [done|]. simpl. by rewrite drop_law.
Qed.

(** A transaction of MySQL does not panic, and does all of its queries or none: all if it succeeds, and
    unless it was the commit that failed, none if it does not. *)
Theorem mysql_transaction_atomic {D} run data before inside `{MysqlLaws D run data before inside} queries pool :
  ∃ r pool', mysql_transaction queries pool = ret (r, pool') ∧
    match r with
    | Ok _ => run_all run queries (data pool) = Some (data pool')
    | Err _ => data pool' = data pool ∨ run_all run queries (data pool) = Some (data pool')
    end.
Proof.
  unfold mysql_transaction, mysql_new. destruct (start_law pool) as (r&pool1&->&Hs). simpl. destruct r as [t|e]; [|by exists (Err e), pool1; split; [|left]].
  destruct Hs as [Hb Hi]. destruct (mysql_queries_atomic run data before inside queries t) as (r&->&Hq). simpl.
  destruct r as [o|[e pool2]]; [|by exists (Err e), pool2; split; [|left; rewrite Hq]].
  destruct Hq as (t'&->&Hb'&Hrun). unfold mysql_commit. simpl. destruct (commit_law t') as (r&pool2&->&Hc). eexists _, _. split; [done|].
  rewrite Hi in Hrun. destruct r as [u|e]; [by rewrite Hc|]. destruct Hc as [Hc|Hc]; [left; congruence|right; by rewrite Hc].
Qed.

(** What was ended cannot be ended again. *)
Lemma mysql_ended_twice : mysql_commit None = panic ∧ mysql_rollback None = panic.
Proof. done. Qed.
End mysql_transaction.

(** A database that is the list of what was run on it. *)
#[local] Instance log_transactions : MysqlTransactions (V:=()) (Er:=string) (list string) (list string * list string) := {|
  start_transaction m := ret (Ok (m, m), m);
  tx_query q t :=
    ret (if decide (q = "bad") then (Err "syntax error", t)
         else (Ok {| result_rows := {| rows := []; broken := None |}; last_id := None; affected := 1 |}, (t.1, t.2 ++ [q])));
  tx_commit t := ret (Ok (), t.2);
  tx_rollback t := ret (Ok (), t.1);
  tx_drop t := t.1;
|}.
#[local] Instance log_laws : MysqlLaws (list string) (λ q d, if decide (q = "bad") then None else Some (d ++ [q])) id fst snd.
Proof.
  split.
  - intros pool. by exists (Ok (pool, pool)), pool.
  - intros q t. simpl. destruct (decide (q = "bad")); [by exists (Err "syntax error"), t|]. by eexists _, _.
  - intros t. by exists (Ok ()), t.2.
  - done.
Qed.

Example log_transaction_runs :
  mysql_transaction ["a"; "b"] ["z"] = ret (Ok (), ["z"; "a"; "b"]) ∧ mysql_transaction ["a"; "bad"; "b"] ["z"] = ret (Err "syntax error", ["z"]).
Proof. done. Qed.

(** * Sets of connections (src/shed/sql/common/lib.rs) *)

Section connections.
Context {Conn : Type}.

Record SqlConnections := { write_connection : Conn; read_connection : Conn; read_master_connection : Conn }.
Definition new_single (connection : Conn) : SqlConnections :=
  {| write_connection := connection; read_connection := connection; read_master_connection := connection |}.

(** [Vec1]: some, and a last. *)
Record Vec1 (A : Type) := { init : list A; final : A }.
Arguments init {_}. Arguments final {_}.
Definition items {A} (v : Vec1 A) : list A := init v ++ [final v].

Record SqlShardedConnections := {
  write_connections : Vec1 Conn; read_connections : Vec1 Conn; read_master_connections : Vec1 Conn }.

(** [itertools::multiunzip] of triples. *)
Fixpoint multiunzip {A B D} (l : list (A * B * D)) : list A * list B * list D :=
  match l with
  | [] => ([], [], [])
  | (a, b, d) :: l => let '(x, y, z) := multiunzip l in (a :: x, b :: y, d :: z)
  end.

Definition from_shards (shard_connections : Vec1 SqlConnections) : SqlShardedConnections :=
  let '(w, r, m) := multiunzip ((λ c, (write_connection c, read_connection c, read_master_connection c)) <$> init shard_connections) in
  let last := final shard_connections in
  {| write_connections := {| init := w; final := write_connection last |};
     read_connections := {| init := r; final := read_connection last |};
     read_master_connections := {| init := m; final := read_master_connection last |} |}.

(** Each kind of connection is that of every shard, in the order of the shards. *)
Theorem from_shards_columns v :
  items (write_connections (from_shards v)) = write_connection <$> items v ∧
  items (read_connections (from_shards v)) = read_connection <$> items v ∧
  items (read_master_connections (from_shards v)) = read_master_connection <$> items v.
Proof.
  assert (∀ l, multiunzip ((λ c, (write_connection c, read_connection c, read_master_connection c)) <$> l) =
    (write_connection <$> l, read_connection <$> l, read_master_connection <$> l)) as Hun.
  { induction l as [|c l IH]; csimpl; [done|]. by rewrite IH. }
  unfold from_shards, items. rewrite Hun. simpl. by rewrite !fmap_app.
Qed.
End connections.

(** A database of numbers that knows one query, as text; on one side it gives them as numbers, on
    the other as strokes. *)
Definition from_value (v : nat + string) : option nat := Some (match v with inl n => n | inr s => String.length s end).
Fixpoint strokes (n : nat) : string := match n with 0 => EmptyString | S n => ("|" +:+ strokes n)%string end.
Definition written (v : nat + string) : string := match v with inl n => to_string (Z.of_nat n) | inr s => s end.
Definition found (f : nat → nat + string) (s : string) (d : list nat) : result (Rows (V:=nat + string) (Er:=string)) string :=
  if decide (s = "SELECT x FROM t WHERE x IN (5, 6)")
  then Ok {| rows := (λ x, [f x]) <$> filter (λ x, x = 5 ∨ x = 6) d; broken := None |} else Err "syntax error".
Definition eval_toks (toks : list (token (nat + string))) : list nat → result Rows string := found inl (Query.text written toks).
#[local] Instance numbers_sqlite : SqliteDb (V:=nat + string) (Er:=string) (list nat) := {|
  prepare _ _ := Ok ();
  query_map stmt given c := (match bind given stmt with Some toks => eval_toks toks c | None => Err "not bound" end, c);
  execute _ _ c := (Err "read only", c);
  last_insert_rowid _ := 0%Z;
|}.
#[local] Instance numbers_mysql : OssDb (V:=nat + string) (Er:=string) (list nat) := {|
  get_conn m := (Ok (), m);
  query_iter s m :=
    (match found (λ n, inr (strokes n)) s m with Ok r => Ok {| result_rows := r; last_id := None; affected := 0 |} | Err e => Err e end, m);
|}.

Lemma length_strokes n : String.length (strokes n) = n.
Proof. induction n as [|n IH]; [done|]. change (S (String.length (strokes n)) = S n). by rewrite IH. Qed.

End Exec.
