(* ===== verification/Abomonable.v ===== *)
(** [abomonable_string] (src/shed/abomonable_string/src/lib.rs): strings that are written into a buffer
    with padding to a multiple of their alignment, and read back in place, without a copy.

    A string is a pointer into memory with a length and a capacity.  Memory is a map from addresses
    to bytes; a slice is an address and a length.  The writer is a class. *)
From Stdlib Require Import Strings.Byte.
From stdpp Require Import gmap.
From S2P Require Import Prelude RustStd Netstring.

Module Abomonable.
#[local] Open Scope Z_scope.
#[local] Abbreviation byte := Byte.byte.

Definition Mem := gmap Z byte.

(** [String], and so [AbomonableString]. *)
Record AbomonableString := { ptr : Z; len : Z; capacity : Z }.
Record slice := { addr : Z; size : Z }.

(** The bytes at an address: those that are there. *)
Definition bytes_at (m : Mem) (a n : Z) : list byte := omap (λ i, m !! i) (seqZ a n).
Definition as_bytes (m : Mem) (s : AbomonableString) : list byte := bytes_at m (ptr s) (len s).

(** [io::Write]. *)
Class Write (W Er : Type) := write_all : list byte → W → result () Er * W.

(** [Vec<u8>]. *)
#[export] Instance vec_write {Er} : Write (list byte) Er := λ b w, (Ok (), w ++ b).

Section string.
Context `{BuildMode} (ALIGN : Z).

(** [ALIGN - ((size - 1) % ALIGN) - 1]; a remainder by zero panics. *)
Definition remainder (size : Z) : exec Z :=
  if size =? 0 then ret 0
  else
    let! s := usize_sub size 1 in
    let! r := if ALIGN =? 0 then panic else ret (s mod ALIGN) in
    let! d := usize_sub ALIGN r in
    usize_sub d 1.

Definition extent (s : AbomonableString) : exec Z :=
  let! r := remainder (len s) in usize_add (len s) r.

Definition entomb {W Er} `{Write W Er} (m : Mem) (s : AbomonableString) (write : W) : exec (result () Er * W) :=
  let! pad_len := remainder (len s) in
  match write_all (as_bytes m s) write with
  | (Err e, write) => ret (Err e, write)
  | (Ok _, write) =>
      let! pad := vec_slice (replicate (Z.to_nat ALIGN) x00) 0 (Z.to_nat pad_len) in
      ret (write_all pad write)
  end.

(** [None], or the slice after the string; the string then points into the slice. *)
Definition exhume (self : AbomonableString) (bytes : slice) : exec (option slice * AbomonableString) :=
  let! r := remainder (len self) in
  let! padded_len := usize_add (len self) r in
  if size bytes <? padded_len then ret (None, self)
  else
    ret (Some {| addr := addr bytes + padded_len; size := size bytes - padded_len |},
         {| ptr := addr bytes; len := len self; capacity := len self |}).

(** ** Several strings, as [abomonation] does the fields of a struct and the elements of a vector *)

Fixpoint entomb_all {W Er} `{Write W Er} (m : Mem) (l : list AbomonableString) (write : W) : exec (result () Er * W) :=
  match l with
  | [] => ret (Ok (), write)
  | s :: l =>
      let! '(r, write) := entomb m s write in
      match r with Err e => ret (Err e, write) | Ok _ => entomb_all m l write end
  end.

Fixpoint exhume_all (l : list AbomonableString) (bytes : slice) : exec (option slice * list AbomonableString) :=
  match l with
  | [] => ret (Some bytes, [])
  | s :: l =>
      let! '(r, s) := exhume s bytes in
      match r with
      | None => ret (None, s :: l)
      | Some bytes => let! '(r, l) := exhume_all l bytes in ret (r, s :: l)
      end
  end.

(** * Padding *)

(** The next multiple of the alignment. *)
Definition padded (n : Z) : Z := (n + ALIGN - 1) / ALIGN * ALIGN.

Lemma remainder_spec n : 0 < ALIGN ≤ usize_max → 0 ≤ n ≤ usize_max → remainder n = ret (padded n - n) ∧ 0 ≤ padded n - n < ALIGN.
Proof.
  intros Ha Hn. unfold remainder, padded. destruct (Z.eqb_spec n 0) as [->|Hn0].
  - replace (0 + ALIGN - 1) with (ALIGN - 1) by lia. rewrite (Z.div_small (ALIGN - 1)) by lia. split; [by f_equal|lia].
  - pose proof (Z.div_mod (n - 1) ALIGN ltac:(lia)) as Hd. pose proof (Z.mod_pos_bound (n - 1) ALIGN ltac:(lia)) as Hm.
    replace (n + ALIGN - 1) with (n - 1 + 1 * ALIGN) by lia. rewrite Z.div_add by lia.
    unfold usize_sub, usize_wrap. rewrite bool_decide_true by lia. simpl.
    destruct (Z.eqb_spec ALIGN 0); [lia|]. simpl. rewrite bool_decide_true by lia. simpl. rewrite bool_decide_true by lia.
    split; [f_equal; nia | nia].
Qed.

Lemma padded_divides n : (ALIGN | padded n).
Proof. exists ((n + ALIGN - 1) / ALIGN). by unfold padded. Qed.

(** * Writing and reading back *)

(** The bytes are at the address. *)
Definition placed (m : Mem) (a : Z) (bs : list byte) : Prop := ∀ i b, bs !! i = Some b → m !! (a + Z.of_nat i) = Some b.
Definition valid (m : Mem) (s : AbomonableString) : Prop := 0 ≤ len s ≤ usize_max ∧ Z.of_nat (length (as_bytes m s)) = len s.
Definition encoded (m : Mem) (s : AbomonableString) : list byte := as_bytes m s ++ replicate (Z.to_nat (padded (len s) - len s)) x00.
Definition total (l : list AbomonableString) : Z := foldr (λ s, Z.add (padded (len s))) 0 l.

Lemma placed_app m a bs bs' : placed m a (bs ++ bs') ↔ placed m a bs ∧ placed m (a + Z.of_nat (length bs)) bs'.
Proof.
  split.
  - intros Hp. split; intros i b Hb; [by apply Hp, lookup_app_l_Some|].
    specialize (Hp (length bs + i)%nat b). rewrite lookup_app_r, Nat.add_comm, Nat.add_sub in Hp by lia.
    rewrite Nat2Z.inj_add in Hp. replace (a + Z.of_nat (length bs) + Z.of_nat i) with (a + (Z.of_nat i + Z.of_nat (length bs))) by lia. by apply Hp.
  - intros [H1 H2] i b [Hb|[Hl Hb]]%lookup_app_Some; [by apply H1|]. apply H2 in Hb.
    by replace (a + Z.of_nat (length bs) + Z.of_nat (i - length bs)) with (a + Z.of_nat i) in Hb by lia.
Qed.

Lemma bytes_at_placed m a bs : placed m a bs → bytes_at m a (Z.of_nat (length bs)) = bs.
Proof.
  unfold bytes_at. revert a. induction bs as [|b bs IH]; intros a Hp; [done|].
  cbn [length]. rewrite seqZ_cons by lia. pose proof (Hp 0%nat b eq_refl) as Hb. rewrite Z.add_0_r in Hb. simpl. rewrite Hb. f_equal.
  replace (Z.pred (Z.of_nat (S (length bs)))) with (Z.of_nat (length bs)) by lia. apply IH.
  apply (placed_app m a [b] bs) in Hp as [_ Hp]. by replace (Z.succ a) with (a + Z.of_nat (length [b])) by (simpl; lia).
Qed.

Context (Ha : 0 < ALIGN ≤ usize_max).

Lemma length_encoded m s : valid m s → Z.of_nat (length (encoded m s)) = padded (len s).
Proof.
  intros [Hl Hlen]. destruct (remainder_spec (len s) Ha Hl) as [_ Hr]. unfold encoded.
  rewrite length_app, length_replicate. lia.
Qed.

Lemma entomb_vec {Er} m s (w : list byte) : valid m s → entomb (Er:=Er) m s w = ret (Ok (), w ++ encoded m s).
Proof.
  intros [Hl Hlen]. destruct (remainder_spec (len s) Ha Hl) as [Hrem Hr]. unfold entomb. rewrite Hrem. simpl.
  unfold vec_slice. rewrite decide_True by (rewrite length_replicate; lia). simpl.
  unfold encoded. rewrite app_assoc. rewrite drop_0, Nat.sub_0_r, take_replicate. by rewrite Nat.min_l by lia.
Qed.

Lemma entomb_all_vec {Er} m l (w : list byte) :
  Forall (valid m) l → entomb_all (Er:=Er) m l w = ret (Ok (), w ++ (l ≫= encoded m)).
Proof.
  intros Hl. revert w. induction Hl as [|s l Hs _ IH]; intros w; simpl; [by rewrite app_nil_r|].
  rewrite entomb_vec by done. simpl. by rewrite IH, <-app_assoc.
Qed.

Lemma total_encoded m l : Forall (valid m) l → Z.of_nat (length (l ≫= encoded m)) = total l.
Proof. induction 1 as [|s l Hs _ IH]; csimpl; [done|]. rewrite length_app, Nat2Z.inj_add, length_encoded by done. lia. Qed.

Lemma total_nonneg m l : Forall (valid m) l → 0 ≤ total l.
Proof. intros Hl. rewrite <-(total_encoded m) by done. lia. Qed.

Lemma total_divides l : (ALIGN | total l).
Proof. induction l as [|s l IH]; simpl; [by exists 0|]. apply Z.divide_add_r; [apply padded_divides|done]. Qed.

(** Read back from a slice that is long enough, or not at all. *)
Lemma exhume_spec m s a n :
  valid m s → padded (len s) ≤ usize_max →
  exhume s {| addr := a; size := n |} =
  ret (if n <? padded (len s) then (None, s)
       else (Some {| addr := a + padded (len s); size := n - padded (len s) |}, {| ptr := a; len := len s; capacity := len s |})).
Proof.
  intros [Hl _] Hp. destruct (remainder_spec (len s) Ha Hl) as [Hrem Hr]. unfold exhume. rewrite Hrem. simpl.
  unfold usize_add, usize_wrap. replace (len s + (padded (len s) - len s)) with (padded (len s)) by lia.
  rewrite bool_decide_true by lia. simpl. by destruct (n <? padded (len s)).
Qed.

Lemma exhume_all_spec m l m' b a rest :
  Forall (valid m) l → total l ≤ usize_max → (ALIGN | a - b) → placed m' a ((l ≫= encoded m) ++ rest) →
  ∃ l', exhume_all l {| addr := a; size := total l + Z.of_nat (length rest) |} =
          ret (Some {| addr := a + total l; size := Z.of_nat (length rest) |}, l') ∧
    Forall2 (λ s s', as_bytes m' s' = as_bytes m s ∧ (ALIGN | ptr s' - b) ∧ a ≤ ptr s' ∧ ptr s' + len s' ≤ a + total l) l l'.
Proof.
  intros Hl. revert a. induction Hl as [|s l Hs Hl IH]; intros a Ht Hb Hp; simpl in *.
  { exists []. split; [|constructor]. by rewrite Z.add_0_r, Z.add_0_l. }
  pose proof (total_nonneg m l Hl) as Hn. pose proof (length_encoded m s Hs) as He. rewrite <-app_assoc in Hp. apply placed_app in Hp as [Hp Hp'].
  rewrite He in Hp'. rewrite (exhume_spec m) by (done || lia). simpl. rewrite (proj2 (Z.ltb_ge _ _)) by lia.
  replace (padded (len s) + total l + Z.of_nat (length rest) - padded (len s)) with (total l + Z.of_nat (length rest)) by lia. simpl.
  destruct (IH (a + padded (len s))) as (l'&->&Hl'); [lia| |done|].
  { replace (a + padded (len s) - b) with (a - b + padded (len s)) by lia. apply Z.divide_add_r; [done|apply padded_divides]. }
  simpl. eexists. split; [by rewrite Z.add_assoc|]. destruct Hs as [Hs Hlen]. destruct (remainder_spec (len s) Ha Hs) as [_ Hr]. constructor.
  - cbn [ptr len]. split; [|split; [done|lia]]. apply placed_app in Hp as [Hp _]. unfold as_bytes at 1. simpl.
    rewrite <-Hlen at 1. by apply bytes_at_placed.
  - eapply Forall2_impl; [exact Hl'|]. simpl. intros s1 s2 (?&?&?&?). repeat split; [done..|lia|lia].
Qed.

(** [extent] is what [entomb] writes. *)
Lemma extent_encoded m s : valid m s → padded (len s) ≤ usize_max → extent s = ret (Z.of_nat (length (encoded m s))).
Proof.
  intros Hv Hp. rewrite length_encoded by done. destruct Hv as [Hl _]. destruct (remainder_spec (len s) Ha Hl) as [Hrem Hr].
  unfold extent. rewrite Hrem. simpl. unfold usize_add, usize_wrap. rewrite bool_decide_true by lia. f_equal. lia.
Qed.

(** C40: Strings written one after the other into a buffer are read back in place: wherever the
    buffer is moved to, each string has its bytes, lies in the buffer at a multiple of the
    alignment from its start, and what followed in the buffer is left, at such a multiple too. *)
Theorem abomonate_round_trip {Er} m l :
  Forall (valid m) l → total l ≤ usize_max →
  ∃ bytes, entomb_all (Er:=Er) m l [] = ret (Ok (), bytes) ∧ (ALIGN | Z.of_nat (length bytes)) ∧
    ∀ m' b rest, placed m' b (bytes ++ rest) →
      ∃ l', exhume_all l {| addr := b; size := Z.of_nat (length (bytes ++ rest)) |} =
              ret (Some {| addr := b + Z.of_nat (length bytes); size := Z.of_nat (length rest) |}, l') ∧
        Forall2 (λ s s', as_bytes m' s' = as_bytes m s ∧ (ALIGN | ptr s' - b) ∧
                         b ≤ ptr s' ∧ ptr s' + len s' ≤ b + Z.of_nat (length bytes)) l l'.
Proof.
  intros Hl Ht. exists (l ≫= encoded m). rewrite entomb_all_vec by done. split; [done|]. rewrite total_encoded by done.
  split; [apply total_divides|]. intros m' b rest Hp. rewrite length_app, Nat2Z.inj_add, total_encoded by done.
  apply (exhume_all_spec m l m' b b rest); [done..| |done]. rewrite Z.sub_diag. apply Z.divide_0_r.
Qed.
End string.

(** Strings of no, three and four bytes with alignment 4, read at another place. *)
Lemma abomonate_witness :
  let m := list_to_map (imap (λ i b, (100 + Z.of_nat i, b)) [x61; x62; x63; x64; x65; x66; x67]) : Mem in
  let l := [ {| ptr := 1; len := 0; capacity := 0 |}; {| ptr := 100; len := 3; capacity := 3 |}; {| ptr := 103; len := 4; capacity := 8 |}] in
  let bytes := [x61; x62; x63; x00; x64; x65; x66; x67] in
  Forall (valid m) l ∧ entomb_all (H:=debug_build) 4 (Er:=()) m l [] = ret (Ok (), bytes) ∧
  ∃ bytes, entomb_all (H:=debug_build) 4 (Er:=()) m l [] = ret (Ok (), bytes) ∧ (4 | Z.of_nat (length bytes)) ∧
    ∀ m' b rest, placed m' b (bytes ++ rest) →
      ∃ l', exhume_all (H:=debug_build) 4 l {| addr := b; size := Z.of_nat (length (bytes ++ rest)) |} =
              ret (Some {| addr := b + Z.of_nat (length bytes); size := Z.of_nat (length rest) |}, l') ∧
        Forall2 (λ s s', as_bytes m' s' = as_bytes m s ∧ (4 | ptr s' - b) ∧
                         b ≤ ptr s' ∧ ptr s' + len s' ≤ b + Z.of_nat (length bytes)) l l'.
Proof.
  intros m l bytes. assert (Forall (valid m) l) as Hv.
  { repeat constructor; vm_compute; congruence. }
  split; [exact Hv|]. split; [vm_compute; reflexivity|].
  apply (abomonate_round_trip (H:=debug_build) 4); [split; [reflexivity | vm_compute; congruence] | exact Hv | vm_compute; congruence].
Defined.

(** Without overflow checks, a length near the end of [usize], which only a damaged buffer has, wraps
    around and is accepted: the string reaches outside the slice. *)
Lemma exhume_wraps :
  exhume (H:=release_build) 8 {| ptr := 0; len := usize_max; capacity := usize_max |} {| addr := 64; size := 0 |} =
  ret (Some {| addr := 64; size := 0 |}, {| ptr := 64; len := usize_max; capacity := usize_max |}).
Proof. vm_compute. reflexivity. Qed.

(** No string can be written with alignment 0, but the empty one. *)
Lemma align_zero `{BuildMode} n : 0 < n ≤ usize_max → remainder 0 n = panic.
Proof.
  intros Hn. unfold remainder. destruct (Z.eqb_spec n 0); [lia|]. unfold usize_sub, usize_wrap. by rewrite bool_decide_true by lia.
Qed.
End Abomonable.
