(* ===== verification/AsciiExt.v ===== *)
(** [ascii_ext] (src/shed/ascii_ext/src/lib.rs): random ASCII characters and strings for quickcheck, and
    how they are shrunk.

    The generator of quickcheck and its shrinking of integers and vectors are classes.  A character
    is its code; one of 128 or more is undefined behaviour. *)
From S2P Require Import Prelude RustStd RustStr.

Module AsciiExt.
#[local] Open Scope Z_scope.

(** [quickcheck::Gen]. *)
Class Gen (G : Type) := {
  arbitrary_u32 : G → Z * G;
  choose : ∀ {A}, list A → G → option A * G;
  size : G → nat;
}.
Class GenLaws (G : Type) `{Gen G} := {
  arbitrary_u32_range g : 0 ≤ (arbitrary_u32 g).1 ≤ int_max U32;
  choose_elem {A} (l : list A) g : l ≠ [] → ∃ x, (choose l g).1 = Some x ∧ x ∈ l;
}.

(** What quickcheck gives for [u8] and for vectors. *)
Class Shrink := {
  shrink_u8 : Z → list Z;
  shrink_vec : ∀ {A}, (A → list A) → list A → list (list A);
}.
Class ShrinkLaws `{Shrink} := {
  shrink_vec_elem {A} (shrink : A → list A) l l' x : l' ∈ shrink_vec shrink l → x ∈ l' → ∃ y, y ∈ l ∧ (x = y ∨ x ∈ shrink y);
}.

Definition AsciiChar := Z.
Definition AsciiString := list AsciiChar.
Definition valid (c : AsciiChar) : Prop := 0 ≤ c < 128.
Definition from_ascii_unchecked (b : Z) : AsciiChar := b.
Definition from_ascii (b : Z) : option AsciiChar := if b <? 128 then Some b else None.

Definition programming : list AsciiChar :=
  [32; 9; 10; 126; 96; 33; 64; 35; 36; 37; 38; 42; 40; 41; 95; 45; 61; 43; 91; 93; 123; 125; 58; 59; 39; 34; 92; 124; 94; 44; 60; 62; 46; 47; 63;
   48; 49; 50; 51; 51; 52; 54; 55; 56; 57].

Section gen.
Context `{Gen G}.

Definition gen_ascii_in_range (g : G) (left right : Z) : exec (Z * G) :=
  let! _ := rust_assert (left <? right) in
  let '(n, g) := arbitrary_u32 g in
  let dice := n mod (right - left) in
  ret (left + cast U8 dice, g).

Definition arbitrary_char (g : G) : exec (AsciiChar * G) :=
  let '(n, g) := arbitrary_u32 g in
  let mode := n mod 100 in
  if mode <=? 14 then
    let! '(b, g) := gen_ascii_in_range g 0 0x1F in ret (from_ascii_unchecked b, g)
  else if mode <=? 39 then
    let '(c, g) := choose programming g in let! c := expect c in ret (c, g)
  else if mode <=? 99 then
    let! '(b, g) := gen_ascii_in_range g 0 0x80 in ret (from_ascii_unchecked b, g)
  else panic.

(** [iter::repeat(()).map(..).take(size).collect()]. *)
Fixpoint arbitrary_chars (n : nat) (g : G) : exec (AsciiString * G) :=
  match n with
  | O => ret ([], g)
  | S n => let! '(c, g) := arbitrary_char g in let! '(s, g) := arbitrary_chars n g in ret (c :: s, g)
  end.
Definition arbitrary_string (g : G) : exec (AsciiString * G) := arbitrary_chars (size g) g.

Context `{!GenLaws G}.

Lemma gen_in_range g left right :
  0 ≤ left → left < right → right ≤ 256 → ∃ b g', gen_ascii_in_range g left right = ret (b, g') ∧ left ≤ b < right.
Proof.
  intros Hl Hr Hm. unfold gen_ascii_in_range. rewrite (proj2 (Z.ltb_lt _ _)) by done. simpl.
  destruct (arbitrary_u32 g) as [n g']. pose proof (Z.mod_pos_bound n (right - left) ltac:(lia)).
  rewrite cast_id by (unfold in_type, int_min, int_max; simpl; lia). eexists _, _. split; [done|lia].
Qed.

(** A character is generated without a panic, and it is one of ASCII, as [from_ascii_unchecked] needs. *)
Theorem arbitrary_char_valid g : ∃ c g', arbitrary_char g = ret (c, g') ∧ valid c.
Proof.
  unfold arbitrary_char. destruct (arbitrary_u32 g) as [n g1]. pose proof (Z.mod_pos_bound n 100 ltac:(lia)) as Hm.
  destruct (Z.leb_spec (n mod 100) 14).
  { destruct (gen_in_range g1 0 0x1F ltac:(lia) ltac:(lia) ltac:(lia)) as (b&g'&->&Hb). simpl. eexists _, _. split; [done|]. unfold valid. unfold from_ascii_unchecked. lia. }
  destruct (Z.leb_spec (n mod 100) 39).
  { destruct (choose_elem programming g1 ltac:(done)) as (c&Hc&Hin). destruct (choose programming g1) as [o g']. simpl in Hc. subst o. simpl.
    eexists _, _. split; [done|]. revert c Hin. apply Forall_forall. unfold programming. repeat constructor; unfold valid; lia. }
  rewrite (proj2 (Z.leb_le _ _)) by lia.
  destruct (gen_in_range g1 0 0x80 ltac:(lia) ltac:(lia) ltac:(lia)) as (b&g'&->&Hb). simpl. eexists _, _. split; [done|]. unfold valid, from_ascii_unchecked. lia.
Qed.

(** A string has as many characters as the size of the generator. *)
Theorem arbitrary_string_valid g : ∃ s g', arbitrary_string g = ret (s, g') ∧ length s = size g ∧ Forall valid s.
Proof.
  unfold arbitrary_string. generalize (size g) as n. intros n. revert g. induction n as [|n IH]; intros g; simpl; [by eexists _, _|].
  destruct (arbitrary_char_valid g) as (c&g1&->&Hc). simpl. destruct (IH g1) as (s&g2&->&Hl&Hs). simpl. eexists _, _. split; [done|].
  simpl. split; [by rewrite Hl|by constructor].
Qed.
End gen.

Section shrink.
Context `{Shrink}.

Definition shrink_char (c : AsciiChar) : list AsciiChar := omap from_ascii (shrink_u8 c).
Definition shrink_string (s : AsciiString) : list AsciiString := shrink_vec shrink_char s.

(** What a string of ASCII shrinks to is of ASCII. *)
Theorem shrink_valid `{!ShrinkLaws} s :
  (∀ c b, b ∈ shrink_u8 c → 0 ≤ b) → Forall valid s → Forall (Forall valid) (shrink_string s).
Proof.
  intros Hpos Hs. apply Forall_forall. intros s' Hs'. apply Forall_forall. intros x Hx.
  destruct (shrink_vec_elem _ _ _ _ Hs' Hx) as (y&Hy&[->|Hin]); [by eapply Forall_forall|].
  unfold shrink_char in Hin. apply list_elem_of_omap in Hin as (b&Hb&Hf). unfold from_ascii in Hf.
  destruct (Z.ltb_spec b 128); [|done]. injection Hf as <-. split; [by eapply Hpos|done].
Qed.
End shrink.

(** A generator that takes its numbers from a list. *)
#[local] Instance script : Gen (list Z) := {|
  arbitrary_u32 l := match l with n :: l => (n, l) | [] => (0, []) end;
  choose _ c l := match l with n :: l => (c !! Z.to_nat (n mod Z.of_nat (length c)), l) | [] => (head c, []) end;
  size := length;
|}.

(** Each character of ASCII can be generated, but the draw for control characters never gives the
    last of them, 0x1F, and the one for characters of programs never gives the digit 5. *)
Theorem characters_generated :
  Forall (λ c, arbitrary_char [99; c] = ret (c, [])) (seqZ 0 128) ∧
  (∀ (l : list Z) c l', gen_ascii_in_range l 0 0x1F = ret (c, l') → c ≠ 0x1F) ∧ 0x35 ∉ programming.
Proof.
  split; [|split].
  - apply Forall_forall. intros c Hc%elem_of_seqZ.
    assert (forallb (λ c, match arbitrary_char [99; c] with ret (d, []) => d =? c | _ => false end) (seqZ 0 128) = true) as Hall by (vm_compute; reflexivity).
    apply (range_check _ _ _ c) in Hall; [|lia]. cbv beta in Hall.
    destruct (arbitrary_char [99; c]) as [[d [|x l]]|]; [|discriminate..]. by apply Z.eqb_eq in Hall as ->.
  - intros l c l'. unfold gen_ascii_in_range. simpl. destruct (match l with [] => _ | _ => _ end) as [n l1]. intros [= <- _].
    pose proof (Z.mod_pos_bound n 31 ltac:(lia)). rewrite ?Z.sub_0_r. rewrite cast_id by (unfold in_type, int_min, int_max; simpl; lia). lia.
  - apply (bool_decide_unpack _). vm_compute. exact I.
Qed.
End AsciiExt.
