(* ===== verification/LetMacros.v ===== *)
(** The macros [borrowed!] and [cloned!] (src/shed/borrowed/src/lib.rs, src/shed/cloned/src/lib.rs): lists of
    variables and fields, expanded by [macro_rules!] to a [let] for each.

    The first part is [macro_rules!] itself, as far as the two macros use it: the first arm whose
    pattern matches is transcribed, and calls in it are expanded in turn.  A type in the input is
    one token, as it is when one macro hands it to the next. *)
From stdpp Require Import strings.
From S2P Require Import Prelude RustStd.

Module LetMacros.
#[local] Open Scope list_scope.

(** * [macro_rules!] *)

Inductive token := Id (s : string) | Mut | As | Dot | Colon | Comma | Type_ (t : string).

(** The fragment [ident] is an identifier or a keyword. *)
Definition is_ident (t : token) : bool := match t with Id _ | Mut | As => true | _ => false end.
Definition is_type (t : token) : bool := match t with Type_ _ => true | _ => false end.
Definition token_eqb (t u : token) : bool :=
  match t, u with
  | Mut, Mut | As, As | Dot, Dot | Colon, Colon | Comma, Comma => true
  | Id s, Id s' | Type_ s, Type_ s' => bool_decide (s = s')
  | _, _ => false
  end.

(** The variables of the arms. *)
Inductive var := i | alias | this | borrow | tt.
Inductive pattern := Tok (t : token) | Ident (v : var) | Ty (v : var) | Tts (v : var).
Definition binding := var → list token.
Definition bind (v : var) (l : list token) (b : binding) : binding :=
  λ w, match v, w with i, i | alias, alias | this, this | borrow, borrow | tt, tt => l | _, _ => b w end.

Fixpoint match_arm (p : list pattern) (l : list token) (b : binding) : option binding :=
  match p, l with
  | [], [] => Some b
  | Tts v :: [], l => Some (bind v l b)
  | Tok t :: p, u :: l => if token_eqb t u then match_arm p l b else None
  | Ident v :: p, u :: l => if is_ident u then match_arm p l (bind v [u] b) else None
  | Ty v :: p, u :: l => if is_type u then match_arm p l (bind v [u] b) else None
  | _, _ => None
  end.

(** [let mut? alias (: ty)? = path...;], or a call of the macro; what a template has of tokens is
    tokens and variables. *)
Record Let := { mutable : bool; name : list token; annotation : option (list token); path : list token }.
Inductive template := TTok (t : token) | TVar (v : var).
Inductive stmt :=
  | TLet (mutable : bool) (name : var) (annotation : option var) (path : list template)
  | TCall (args : list template).

Definition transcribe (b : binding) (l : list template) : list token := l ≫= λ t, match t with TTok t => [t] | TVar v => b v end.

Definition macro := list (list pattern * list stmt).

(** The first arm that matches. *)
Fixpoint select (m : macro) (l : list token) : option (binding * list stmt) :=
  match m with
  | [] => None
  | (p, out) :: m => match match_arm p l (λ _, []) with Some b => Some (b, out) | None => select m l end
  end.

(** What the statements of an arm expand to, in order; [call] expands a call.  [None]: out of fuel,
    [Err]: no rule matches. *)
Fixpoint run_stmts (call : list token → option (result (list Let) ())) (b : binding) (out : list stmt) : option (result (list Let) ()) :=
  match out with
  | [] => Some (Ok [])
  | s :: out =>
      match
        match s with
        | TLet mu n a p => Some (Ok [ {| mutable := mu; name := b n; annotation := b <$> a; path := transcribe b p |} ])
        | TCall args => call (transcribe b args)
        end
      with
      | Some (Ok lets) => match run_stmts call b out with Some (Ok lets') => Some (Ok (lets ++ lets')) | r => r end
      | r => r
      end
  end.

Fixpoint expand (m : macro) (fuel : nat) (l : list token) : option (result (list Let) ()) :=
  match fuel with
  | O => None
  | S fuel => match select m l with None => Some (Err ()) | Some (b, out) => run_stmts (expand m fuel) b out end
  end.

(** * The two macros *)

Definition this_i : list template := [TVar this; TTok Dot; TVar i].
Definition rest : list stmt := [TCall [TVar tt]].

(** The arms of [borrowed!], in their order. *)
Definition borrowed : macro := [
  ([Ident i; Tok As; Ident alias; Tok Colon; Ty borrow], [TLet false alias (Some borrow) [TVar i]]);
  ([Ident i; Tok As; Ident alias], [TLet false alias None [TVar i]]);
  ([Tok Mut; Ident i; Tok As; Ident alias; Tok Colon; Ty borrow], [TLet true alias (Some borrow) [TVar i]]);
  ([Tok Mut; Ident i; Tok As; Ident alias], [TLet true alias None [TVar i]]);
  ([Ident i; Tok As; Ident alias; Tok Colon; Ty borrow; Tok Comma; Tts tt],
   TCall [TVar i; TTok As; TVar alias; TTok Colon; TVar borrow] :: rest);
  ([Ident i; Tok As; Ident alias; Tok Comma; Tts tt], TCall [TVar i; TTok As; TVar alias] :: rest);
  ([Tok Mut; Ident i; Tok As; Ident alias; Tok Colon; Ty borrow; Tok Comma; Tts tt],
   TCall [TTok Mut; TVar i; TTok As; TVar alias; TTok Colon; TVar borrow] :: rest);
  ([Tok Mut; Ident i; Tok As; Ident alias; Tok Comma; Tts tt], TCall [TTok Mut; TVar i; TTok As; TVar alias] :: rest);
  ([Ident this; Tok Dot; Ident i; Tok As; Ident alias], [TLet false alias None this_i]);
  ([Ident this; Tok Dot; Ident i; Tok As; Ident alias; Tok Colon; Ty borrow], [TLet false alias (Some borrow) this_i]);
  ([Tok Mut; Ident this; Tok Dot; Ident i; Tok As; Ident alias; Tok Colon; Ty borrow], [TLet true alias (Some borrow) this_i]);
  ([Tok Mut; Ident this; Tok Dot; Ident i; Tok As; Ident alias], [TLet true alias None this_i]);
  ([Ident this; Tok Dot; Ident i; Tok As; Ident alias; Tok Colon; Ty borrow; Tok Comma; Tts tt],
   TCall (this_i ++ [TTok As; TVar alias; TTok Colon; TVar borrow]) :: rest);
  ([Ident this; Tok Dot; Ident i; Tok As; Ident alias; Tok Comma; Tts tt], TCall (this_i ++ [TTok As; TVar alias]) :: rest);
  ([Tok Mut; Ident this; Tok Dot; Ident i; Tok As; Ident alias; Tok Colon; Ty borrow; Tok Comma; Tts tt],
   TCall (TTok Mut :: this_i ++ [TTok As; TVar alias; TTok Colon; TVar borrow]) :: rest);
  ([Tok Mut; Ident this; Tok Dot; Ident i; Tok As; Ident alias; Tok Comma; Tts tt], TCall (TTok Mut :: this_i ++ [TTok As; TVar alias]) :: rest);

  ([Ident i; Tok Colon; Ty borrow], [TCall [TVar i; TTok As; TVar i; TTok Colon; TVar borrow]]);
  ([Ident i], [TCall [TVar i; TTok As; TVar i]]);
  ([Tok Mut; Ident i; Tok Colon; Ty borrow], [TCall [TTok Mut; TVar i; TTok As; TVar i; TTok Colon; TVar borrow]]);
  ([Tok Mut; Ident i], [TCall [TTok Mut; TVar i; TTok As; TVar i]]);
  ([Ident i; Tok Colon; Ty borrow; Tok Comma; Tts tt], TCall [TVar i; TTok As; TVar i; TTok Colon; TVar borrow] :: rest);
  ([Ident i; Tok Comma; Tts tt], TCall [TVar i; TTok As; TVar i] :: rest);
  ([Tok Mut; Ident i; Tok Comma; Tts tt], TCall [TTok Mut; TVar i] :: rest);

  ([Ident this; Tok Dot; Ident i; Tok Colon; Ty borrow], [TCall (this_i ++ [TTok As; TVar i; TTok Colon; TVar borrow])]);
  ([Ident this; Tok Dot; Ident i], [TCall (this_i ++ [TTok As; TVar i])]);
  ([Tok Mut; Ident this; Tok Dot; Ident i; Tok Colon; Ty borrow], [TLet true i (Some borrow) this_i]);
  ([Tok Mut; Ident this; Tok Dot; Ident i], [TLet true i None this_i]);
  ([Ident this; Tok Dot; Ident i; Tok Colon; Ty borrow; Tok Comma; Tts tt], TCall (this_i ++ [TTok As; TVar i; TTok Colon; TVar borrow]) :: rest);
  ([Ident this; Tok Dot; Ident i; Tok Comma; Tts tt], TCall (this_i ++ [TTok As; TVar i]) :: rest);
  ([Tok Mut; Ident this; Tok Dot; Ident i; Tok Colon; Ty borrow; Tok Comma; Tts tt], TCall (TTok Mut :: this_i ++ [TTok Colon; TVar borrow]) :: rest);
  ([Tok Mut; Ident this; Tok Dot; Ident i; Tok Comma; Tts tt], TCall (TTok Mut :: this_i) :: rest);

  ([], [])
].

(** And those of [cloned!]. *)
Definition cloned : macro := [
  ([Ident i; Tok As; Ident alias], [TLet false alias None [TVar i]]);
  ([Tok Mut; Ident i; Tok As; Ident alias], [TLet true alias None [TVar i]]);
  ([Ident i; Tok As; Ident alias; Tok Comma; Tts tt], TCall [TVar i; TTok As; TVar alias] :: rest);
  ([Tok Mut; Ident i; Tok As; Ident alias; Tok Comma; Tts tt], TCall [TTok Mut; TVar i; TTok As; TVar alias] :: rest);
  ([Ident this; Tok Dot; Ident i; Tok As; Ident alias], [TLet false alias None this_i]);
  ([Tok Mut; Ident this; Tok Dot; Ident i; Tok As; Ident alias], [TLet true alias None this_i]);
  ([Ident this; Tok Dot; Ident i; Tok As; Ident alias; Tok Comma; Tts tt], TCall (this_i ++ [TTok As; TVar alias]) :: rest);
  ([Tok Mut; Ident this; Tok Dot; Ident i; Tok As; Ident alias; Tok Comma; Tts tt], TCall (TTok Mut :: this_i ++ [TTok As; TVar alias]) :: rest);

  ([Ident i], [TCall [TVar i; TTok As; TVar i]]);
  ([Tok Mut; Ident i], [TCall [TTok Mut; TVar i; TTok As; TVar i]]);
  ([Ident i; Tok Comma; Tts tt], TCall [TVar i; TTok As; TVar i] :: rest);
  ([Tok Mut; Ident i; Tok Comma; Tts tt], TCall [TTok Mut; TVar i] :: rest);

  ([Ident this; Tok Dot; Ident i], [TCall (this_i ++ [TTok As; TVar i])]);
  ([Tok Mut; Ident this; Tok Dot; Ident i], [TLet true i None this_i]);
  ([Ident this; Tok Dot; Ident i; Tok Comma; Tts tt], TCall (this_i ++ [TTok As; TVar i]) :: rest);
  ([Tok Mut; Ident this; Tok Dot; Ident i; Tok Comma; Tts tt], TCall (TTok Mut :: this_i) :: rest);

  ([], [])
].

(** * What one writes and what it means *)

(** [mut? (this .)? ident (as alias)? (: ty)?]. *)
Record item := { item_mut : bool; item_this : option string; item_ident : string; item_alias : option string; item_ty : option string }.

Definition item_path (x : item) : list token := (match item_this x with Some s => [Id s; Dot] | None => [] end) ++ [Id (item_ident x)].
Definition print_item (x : item) : list token :=
  (if item_mut x then [Mut] else []) ++ item_path x ++
  (match item_alias x with Some a => [As; Id a] | None => [] end) ++ (match item_ty x with Some t => [Colon; Type_ t] | None => [] end).
Fixpoint print_items (l : list item) (trailing : bool) : list token :=
  match l with
  | [] => []
  | [x] => print_item x ++ (if trailing then [Comma] else [])
  | x :: l => print_item x ++ Comma :: print_items l trailing
  end.

Definition let_of (x : item) : Let :=
  {| mutable := item_mut x; name := [Id (default (item_ident x) (item_alias x))]; annotation := (λ t, [Type_ t]) <$> item_ty x; path := item_path x |}.

(** What [borrowed!] has no arm for, when a comma follows: a mutable variable with a type and
    without an alias. *)
Definition no_arm (x : item) : bool :=
  match x with {| item_mut := true; item_this := None; item_alias := None; item_ty := Some _ |} => true | _ => false end.

(** * Fuel *)

Lemma run_stmts_mono (f g : list token → option (result (list Let) ())) b out r :
  (∀ l r, f l = Some r → g l = Some r) → run_stmts f b out = Some r → run_stmts g b out = Some r.
Proof.
  intros Hfg. revert r. induction out as [|s out IH]; intros r; simpl; [done|].
  destruct s as [mu n a p|args]; [|destruct (f _) as [r1|] eqn:Hf; [|done]; rewrite (Hfg _ _ Hf); destruct r1; [|done]].
  - destruct (run_stmts f b out) as [r2|]; [|done]. by rewrite (IH _ eq_refl).
  - destruct (run_stmts f b out) as [r2|]; [|done]. by rewrite (IH _ eq_refl).
Qed.

Lemma expand_mono m n k l r : n ≤ k → expand m n l = Some r → expand m k l = Some r.
Proof.
  revert k l r. induction n as [|n IH]; intros [|k] l r Hk; simpl; [done|done|lia|].
  destruct (select m l) as [[b out]|]; [|done]. apply run_stmts_mono. intros l' r'. apply IH. lia.
Qed.

(** * The expansion *)

(** One item on its own. *)
Lemma expand_item x : expand borrowed 2 (print_item x) = Some (Ok [let_of x]).
Proof. by destruct x as [[] [] ? [] []]. Qed.

(** An item and a comma: the item, and then the rest. *)
Lemma expand_comma n x l r :
  no_arm x = false → expand borrowed (3 + n) l = Some r →
  expand borrowed (4 + n) (print_item x ++ Comma :: l) = Some (match r with Ok lets => Ok (let_of x :: lets) | Err e => Err e end).
Proof.
  intros Hx Hr. change (4 + n) with (S (3 + n)). remember (3 + n) as k eqn:Hk.
  assert (∀ l lets, expand borrowed 2 l = Some (Ok lets) → expand borrowed k l = Some (Ok lets)) as Hm by (intros; eapply expand_mono; [|done]; lia).
  destruct x as [[] [] ? [] []]; try done; simpl; (erewrite Hm by reflexivity); rewrite app_nil_r, Hr; destruct r; by simpl; rewrite ?app_nil_r.
Qed.

(** An item that has no arm, with a comma after it. *)
Lemma expand_no_arm n x l : no_arm x = true → expand borrowed (S n) (print_item x ++ Comma :: l) = Some (Err ()).
Proof. by destruct x as [[] [] ? [] []]. Qed.

(** Whether an item that has no arm has a comma after it. *)
Definition accepted (l : list item) (trailing : bool) : bool := forallb (λ x, negb (no_arm x)) (if trailing then l else removelast l).

Lemma borrowed_fuel l trailing :
  expand borrowed (3 + length l) (print_items l trailing) = Some (if accepted l trailing then Ok (let_of <$> l) else Err ()).
Proof.
  induction l as [|x l IH]; [by destruct trailing|]. change (3 + length (x :: l)) with (4 + length l).
  assert (∀ l' r (b : bool), expand borrowed (3 + length l) l' = Some r → r = (if b then Ok (let_of <$> l) else Err ()) →
    expand borrowed (4 + length l) (print_item x ++ Comma :: l') = Some (if negb (no_arm x) && b then Ok (let_of <$> x :: l) else Err ())) as Hcomma.
  { intros l' r b He ->. destruct (no_arm x) eqn:Hx; [by apply (expand_no_arm (3 + length l))|]. rewrite (expand_comma _ _ _ _ Hx He). by destruct b. }
  destruct l as [|y l].
  - unfold accepted. destruct trailing; simpl print_items.
    + rewrite (Hcomma [] _ true eq_refl eq_refl). simpl. by rewrite andb_true_r.
    + rewrite app_nil_r. by eapply expand_mono; [|apply expand_item]; lia.
  - change (print_items (x :: y :: l) trailing) with (print_item x ++ Comma :: print_items (y :: l) trailing).
    rewrite (Hcomma _ _ _ IH eq_refl). unfold accepted. destruct trailing; done.
Qed.

(** [borrowed!] of a list of items, with or without a comma at the end, is a [let] for each, in
    order, unless a mutable variable with a type and no alias has a comma after it, for which there
    is no rule; and its expansion ends, with fuel for the number of items. *)
Theorem borrowed_expands l trailing n :
  3 + length l ≤ n → expand borrowed n (print_items l trailing) = Some (if accepted l trailing then Ok (let_of <$> l) else Err ()).
Proof. intros Hn. eapply expand_mono; [done|apply borrowed_fuel]. Qed.

(** [cloned!] takes the same without types, and has an arm for each. *)
Lemma cloned_item x : item_ty x = None → expand cloned 2 (print_item x) = Some (Ok [let_of x]).
Proof. destruct x as [[] [] ? [] []]; done. Qed.

Lemma cloned_comma n x l r :
  item_ty x = None → expand cloned (3 + n) l = Some r →
  expand cloned (4 + n) (print_item x ++ Comma :: l) = Some (match r with Ok lets => Ok (let_of x :: lets) | Err e => Err e end).
Proof.
  intros Hx Hr. change (4 + n) with (S (3 + n)). remember (3 + n) as k eqn:Hk.
  assert (∀ l lets, expand cloned 2 l = Some (Ok lets) → expand cloned k l = Some (Ok lets)) as Hm by (intros; eapply expand_mono; [|done]; lia).
  destruct x as [[] [] ? [] []]; try done; simpl; (erewrite Hm by reflexivity); rewrite app_nil_r, Hr; destruct r; by simpl; rewrite ?app_nil_r.
Qed.

Theorem cloned_expands l trailing n :
  Forall (λ x, item_ty x = None) l → 3 + length l ≤ n → expand cloned n (print_items l trailing) = Some (Ok (let_of <$> l)).
Proof.
  intros Hl Hn. eapply expand_mono; [done|]. clear n Hn. induction Hl as [|x l Hx Hl IH]; [by destruct trailing|].
  change (3 + length (x :: l)) with (4 + length l). destruct l as [|y l].
  - destruct trailing; simpl print_items; [by apply (cloned_comma 0 x [] (Ok []) Hx eq_refl)|].
    rewrite app_nil_r. by eapply expand_mono; [|apply cloned_item]; [lia|].
  - change (print_items (x :: y :: l) trailing) with (print_item x ++ Comma :: print_items (y :: l) trailing).
    by rewrite (cloned_comma _ _ _ _ Hx IH).
Qed.

(** [borrowed!(a.x: &str, y, mut z: &str)], as in the tests of the crate, and with a comma after it. *)
Lemma borrowed_witness :
  let l := [ {| item_mut := false; item_this := Some "a"; item_ident := "x"; item_alias := None; item_ty := Some "&str" |};
             {| item_mut := false; item_this := None; item_ident := "y"; item_alias := None; item_ty := None |};
             {| item_mut := true; item_this := None; item_ident := "z"; item_alias := None; item_ty := Some "&str" |} ] in
  3 + length l ≤ 6 ∧ accepted l false = true ∧ expand borrowed 6 (print_items l false) = Some (if accepted l false then Ok (let_of <$> l) else Err ()).
Proof. split; [simpl; lia|]. split; [reflexivity|]. apply borrowed_expands. simpl. lia. Defined.

Example typed_mut_comma : expand borrowed 6 [Mut; Id "z"; Colon; Type_ "&str"; Comma] = Some (Err ()).
Proof. done. Qed.
End LetMacros.
