(* ===== verification/SharedHandles.v ===== *)
(** Futures behind shared handles: [LazyShared] (src/shed/futures_lazy_shared/src/lib.rs), [TryShared]
    (src/shed/futures_ext/src/future/try_shared.rs) and tasks that end with their last handle
    (src/shed/futures_ext/src/future/abort_handle_ref.rs).

    Tasks are polled, or dropped, in any order.  [Shared], [OnceLock], [Abortable] and tokio's [spawn]
    are as documented: the clones of a shared future poll one future and give its output, a cell is
    initialised by one of those that ask, and an aborted future is not polled again. *)
From S2P Require Import Prelude RustStd Streams Failure.

(** * Shared futures *)

Section shared.
Context {F T W : Type} {FF : Future F T W}.

(** [futures::future::Shared]: what all its clones point to. *)
Inductive Shared := Running (f : F) | Output (t : T).

Definition shared_poll (s : Shared) (w : W) : Poll T * Shared * W :=
  match s with
  | Output t => (Ready t, s, w)
  | Running f => match fpoll f w with (Ready t, _, w) => (Ready t, Output t, w) | (Pending, f, w) => (Pending, Running f, w) end
  end.
End shared.
Arguments Shared : clear implicits.

Module LazyShared.
Section lazy_shared.
Context {F T W : Type} {FF : Future F T W}.

(** [LazyShared]; the cell is what the [Arc] points to, for all clones. *)
Inductive LazyShared := ReadyValue (t : T) | Lazy (cell : option (Shared F T)).

Definition new_ready (value : T) : LazyShared := ReadyValue value.
Definition new_empty : LazyShared := Lazy None.
Definition new_future (f : F) : LazyShared := Lazy (Some (Running f)).

(** A call of [get_or_init]: not polled yet, awaiting the shared future, at its end, or dropped. *)
Inductive call := Call (init : F) | Awaiting | Returned (t : T) | Dropped.

Record state := { lazy : LazyShared; calls : list call; inits : nat }.

(** [cell.get_or_init(move || init().boxed().shared())]; whether [init] was called. *)
Definition cell_get_or_init (cell : option (Shared F T)) (init : F) : Shared F T * nat :=
  match cell with Some s => (s, 0) | None => (Running init, 1) end.

Definition await_shared (s : Shared F T) (w : W) : LazyShared * call * W :=
  let '(p, s, w) := shared_poll s w in (Lazy (Some s), match p with Ready t => Returned t | Pending => Awaiting end, w).

(** A poll of the future of [get_or_init]. *)
Definition get_or_init_poll (l : LazyShared) (c : call) (w : W) : LazyShared * call * nat * W :=
  match c, l with
  | Call init, ReadyValue t => (l, Returned t, 0, w)
  | Call init, Lazy cell =>
      let '(s, n) := cell_get_or_init cell init in
      let '(l, c, w) := await_shared s w in (l, c, n, w)
  | Awaiting, Lazy (Some s) => let '(l, c, w) := await_shared s w in (l, c, 0, w)
  | _, _ => (l, c, 0, w)
  end.

Inductive step : relation state :=
  | Step_poll s i c l c' n w w' :
      calls s !! i = Some c → get_or_init_poll (lazy s) c w = (l, c', n, w') →
      step s {| lazy := l; calls := <[i := c']> (calls s); inits := inits s + n |}
  | Step_drop s i : step s {| lazy := lazy s; calls := <[i := Dropped]> (calls s); inits := inits s |}.

Definition start (l : LazyShared) (fs : list F) : state := {| lazy := l; calls := Call <$> fs; inits := 0 |}.

(** ** What is shared *)

(** The values that a [LazyShared] can have, and how often an initialiser has then been called. *)
Definition gives (l : LazyShared) (fs : list F) (n : nat) (t : T) : Prop :=
  match l with
  | ReadyValue u | Lazy (Some (Output u)) => n = 0 ∧ t = u
  | Lazy (Some (Running f)) => n = 0 ∧ resolves f t
  | Lazy None => n = 1 ∧ ∃ f, f ∈ fs ∧ resolves f t
  end.

Definition lazy_ok (l0 : LazyShared) (fs : list F) (n : nat) (l : LazyShared) : Prop :=
  match l with
  | ReadyValue t => l0 = ReadyValue t ∧ n = 0
  | Lazy None => l0 = Lazy None ∧ n = 0
  | Lazy (Some (Running f)) => ∃ f0, evolves f0 f ∧ (l0 = Lazy (Some (Running f0)) ∧ n = 0 ∨ l0 = Lazy None ∧ n = 1 ∧ f0 ∈ fs)
  | Lazy (Some (Output t)) => gives l0 fs n t
  end.

Definition call_ok (fs : list F) (l : LazyShared) (c : call) : Prop :=
  match c with Call f => f ∈ fs | Returned t => l = ReadyValue t ∨ l = Lazy (Some (Output t)) | _ => True end.

Definition invariant (l0 : LazyShared) (fs : list F) (s : state) : Prop :=
  lazy_ok l0 fs (inits s) (lazy s) ∧ Forall (call_ok fs (lazy s)) (calls s).

(** Awaiting keeps what was returned. *)
Lemma await_ok l0 fs n s l c w w' :
  lazy_ok l0 fs n (Lazy (Some s)) → await_shared s w = (l, c, w') →
  lazy_ok l0 fs n l ∧ call_ok fs l c ∧ (∀ d, call_ok fs (Lazy (Some s)) d → call_ok fs l d).
Proof.
  intros Hl. unfold await_shared. destruct s as [f|t]; simpl.
  - destruct Hl as (f0&He&Hor). destruct (fpoll f w) as [[[t|] f'] w1] eqn:Hp; intros [= <- <- <-]; simpl.
    + split; [|split; [by right|]].
      * assert (resolves f0 t) by eauto with shed. destruct Hor as [[-> ->]|(->&->&?)]; simpl; [done|]. split; [done|]. by exists f0.
      * intros [?| |u|]; simpl; [done..| |done]. by intros [?|?].
    + split; [|split; [done|]].
      * exists f0. split; [|done]. transitivity f; [done|]. by eapply evolves_step.
      * intros [?| |u|]; simpl; [done..| |done]. by intros [?|?].
  - intros [= <- <- <-]. simpl. split; [done|]. split; [by right|done].
Qed.

Lemma lazy_step_ok l0 fs s s' : invariant l0 fs s → step s s' → invariant l0 fs s'.
Proof.
  intros [Hl Hc] Hstep. destruct Hstep as [s i c l c' n w w' Hi Hp|s i]; unfold invariant; simpl.
  2:{ split; [done|]. by apply Forall_insert. }
  pose proof (Forall_lookup_1 _ _ _ _ Hc Hi) as Hci. unfold get_or_init_poll, cell_get_or_init in Hp.
  destruct c as [f| |t|]; simpl in *.
  - destruct (lazy s) as [t|[sh|]] eqn:Hlazy.
    + injection Hp as <- <- <- <-. rewrite Nat.add_0_r. split; [done|]. apply Forall_insert; [done|]. by left.
    + destruct (await_shared sh w) as [[l1 c1] w1] eqn:Ha. injection Hp as <- <- <- <-. rewrite Nat.add_0_r.
      destruct (await_ok _ _ _ _ _ _ _ _ Hl Ha) as (?&?&Hk). split; [done|]. apply Forall_insert; [|done]. by eapply Forall_impl.
    + destruct (await_shared (Running f) w) as [[l1 c1] w1] eqn:Ha. injection Hp as <- <- <- <-. simpl in Hl. destruct Hl as [-> Hn]. rewrite Hn.
      assert (lazy_ok (Lazy None) fs 1 (Lazy (Some (Running f)))) as Hr by (exists f; split; [reflexivity|by right]).
      destruct (await_ok _ _ _ _ _ _ _ _ Hr Ha) as (?&?&Hk).
      split; [done|]. apply Forall_insert; [|done]. eapply Forall_impl; [exact Hc|]. intros [?| |?|]; simpl; [done..| |done]. by intros [?|?].
  - destruct (lazy s) as [t|[sh|]] eqn:Hlazy.
    + injection Hp as <- <- <- <-. rewrite Nat.add_0_r. split; [done|]. by apply Forall_insert.
    + destruct (await_shared sh w) as [[l1 c1] w1] eqn:Ha. injection Hp as <- <- <- <-. rewrite Nat.add_0_r.
      destruct (await_ok _ _ _ _ _ _ _ _ Hl Ha) as (?&?&Hk). split; [done|]. apply Forall_insert; [|done]. by eapply Forall_impl.
    + injection Hp as <- <- <- <-. rewrite Nat.add_0_r. split; [done|]. by apply Forall_insert.
  - injection Hp as <- <- <- <-. rewrite Nat.add_0_r. split; [done|]. by apply Forall_insert.
  - injection Hp as <- <- <- <-. rewrite Nat.add_0_r. split; [done|]. by apply Forall_insert.
Qed.

Lemma lazy_reachable_ok l0 fs s : rtc step (start l0 fs) s → invariant l0 fs s.
Proof.
  intros Hs. assert (invariant l0 fs (start l0 fs)) as Hinv.
  { split.
    - destruct l0 as [t|[[f|t]|]]; simpl; [done| |done|done]. exists f. split; [reflexivity|by left].
    - apply Forall_fmap, Forall_forall. by intros. }
  induction Hs; [done|]. by eauto using lazy_step_ok.
Qed.

(** Whatever the order in which calls of [get_or_init] are polled or dropped, all that return
    return the same value: the one the [LazyShared] had, or that of its future, or, when it was
    empty, that of the future of one of the calls, and then only that call's initialiser has been
    called. *)
Theorem lazy_shared_agrees l fs s :
  rtc step (start l fs) s →
  inits s ≤ 1 ∧
  (∀ i t, calls s !! i = Some (Returned t) → gives l fs (inits s) t) ∧
  (∀ i j t u, calls s !! i = Some (Returned t) → calls s !! j = Some (Returned u) → t = u).
Proof.
  intros Hs. destruct (lazy_reachable_ok l fs s Hs) as [Hl Hc].
  assert (∀ i t, calls s !! i = Some (Returned t) → lazy s = ReadyValue t ∨ lazy s = Lazy (Some (Output t))) as Hret.
  { intros i t Hi. exact (Forall_lookup_1 _ _ _ _ Hc Hi). }
  split; [|split].
  - destruct (lazy s) as [t|[[f|t]|]]; simpl in Hl; [lia| | |lia].
    + destruct Hl as (?&_&[[_ ->]|(_&->&_)]); lia.
    + destruct l as [?|[[?|?]|]]; simpl in Hl; lia.
  - intros i t [Hlz|Hlz]%Hret; rewrite Hlz in Hl; simpl in Hl; [|done]. destruct Hl as [-> ->]. by split.
  - intros i j t u [Ht|Ht]%Hret [Hu|Hu]%Hret; congruence.
Qed.
End lazy_shared.
Arguments LazyShared : clear implicits.
Arguments state : clear implicits.

(** A future that is pending a number of times. *)
#[local] Instance countdown : Future (nat * nat) nat () := λ f w,
  match f with (0, v) => (Ready v, f, w) | (S n, v) => (Pending, (n, v), w) end.

(** Of two calls on an empty cell, the second is polled first and dropped; the first then returns
    what the second's initialiser gave. *)
Lemma lazy_shared_witness :
  let s := {| lazy := Lazy (Some (Output 8)); calls := [Returned 8; Dropped]; inits := 1 |} : state (nat * nat) nat in
  rtc step (start new_empty [(0, 7); (1, 8)]) s ∧
  inits s ≤ 1 ∧
  (∀ i t, calls s !! i = Some (Returned t) → gives new_empty [(0, 7); (1, 8)] (inits s) t) ∧
  (∀ i j t u, calls s !! i = Some (Returned t) → calls s !! j = Some (Returned u) → t = u).
Proof.
  intros s.
  assert (rtc step (start new_empty [(0, 7); (1, 8)]) s) as Hs.
  { eapply rtc_l; [by eapply (Step_poll _ 1 (Call (1, 8)) _ _ _ () ())|]. simpl.
    eapply rtc_l; [by eapply (Step_drop _ 1)|]. simpl.
    eapply rtc_l; [by eapply (Step_poll _ 0 (Call (0, 7)) _ _ _ () ())|]. apply rtc_refl. }
  split; [exact Hs|]. exact (lazy_shared_agrees _ _ _ Hs).
Defined.
End LazyShared.

(** * [try_shared] *)

Module TryShared.
Section try_shared.
Context {F T E Er W : Type} {FF : Future F (result T E) W} (into : E → Er).

(** [map_err(IntoSharedError::shared_error)]. *)
#[export] Instance map_err_shared : Future F (result T (Failure.SharedError (Error:=Er))) W := λ f w,
  match fpoll f w with
  | (Ready r, f, w) => (Ready (Failure.result_shared_error into r), f, w)
  | (Pending, f, w) => (Pending, f, w)
  end.

Definition try_shared (fut : F) : Shared F (result T (Failure.SharedError (Error:=Er))) := Running fut.

(** A clone is polled: what all clones then have. *)
Inductive polled : relation (Shared F (result T (Failure.SharedError (Error:=Er)))) :=
  | Polled s s' w p w' : shared_poll s w = (p, s', w') → polled s s'.

(** Once a handle has resolved, every later poll of every handle gives the same: the value of
    the future, or its error, shared. *)
Theorem try_shared_agrees fut s w r s1 w1 :
  rtc polled (try_shared fut) s → shared_poll s w = (Ready r, s1, w1) →
  (∃ o, resolves (FF:=FF) fut o ∧ r = Failure.result_shared_error into o) ∧
  ∀ s2 w2, rtc polled s1 s2 → shared_poll s2 w2 = (Ready r, s2, w2).
Proof.
  intros Hs Hp.
  assert (∀ s, rtc polled (try_shared fut) s →
    match s with Running f => evolves (FF:=FF) fut f | Output r => ∃ o, resolves (FF:=FF) fut o ∧ r = Failure.result_shared_error into o end) as Hinv.
  { intros s'. apply (rtc_ind_r (λ s, match s with Running f => evolves (FF:=FF) fut f | Output r => ∃ o, resolves (FF:=FF) fut o ∧ r = Failure.result_shared_error into o end)); [apply rtc_refl|].
    intros y z _ [s0 s0' w0 p w0' Hp0] Hy. destruct s0 as [f|o]; simpl in Hp0; [|by injection Hp0 as <- <- <-].
    unfold fpoll, map_err_shared in Hp0. destruct (fpoll f w0) as [[[o|] f'] w2] eqn:Hf; simpl in Hp0; injection Hp0 as <- <- <-.
    - exists o. split; [by eauto with shed|done].
    - transitivity f; [done|]. by eapply evolves_step. }
  assert (s1 = Output r) as ->.
  { destruct s as [f|o]; simpl in Hp; [|by injection Hp as -> <- <-]. unfold fpoll, map_err_shared in Hp.
    destruct (fpoll f w) as [[[o|] f'] w2]; simpl in Hp; [|done]. by injection Hp as <- <- <-. }
  split.
  - apply (Hinv (Output r)). eapply rtc_r; [exact Hs|]. by eapply Polled.
  - intros s2 w2 H2. clear Hp. assert (s2 = Output r) as ->; [|done]. remember (Output r) as s1 eqn:H1.
    induction H2 as [|x y z Hxy _ IH]; [done|]. destruct Hxy as [a b w3 p w4 Hab]. subst a. simpl in Hab. injection Hab as <- <- <-. by apply IH.
Qed.
End try_shared.
End TryShared.

(** * [spawn_controlled] *)

Module Controlled.
Section controlled.
Context {F T W : Type} {FF : Future F T W}.

(** The spawned task: waiting for its next poll, between the poll of its future and the end of its
    own, or at its end, with the output of the future or aborted. *)
Inductive task := Idle (f : F) | Polled (f : F) | Ended (o : result T ()).

(** [Abortable]'s flag, the handles in the [Arc], and how often the future has been polled. *)
Record state := { spawned : task; is_aborted : bool; handles : nat; polls : nat }.

Definition spawn_controlled (t : F) : state := {| spawned := Idle t; is_aborted := false; handles := 1; polls := 0 |}.

(** [ControlledHandle::clone]. *)
Definition clone (s : state) : state := {| spawned := spawned s; is_aborted := is_aborted s; handles := S (handles s); polls := polls s |}.

(** Dropping a handle, and [Inner::drop] with the last. *)
Definition drop_handle (s : state) : state :=
  let n := handles s - 1 in
  {| spawned := spawned s; is_aborted := is_aborted s || (n =? 0); handles := n; polls := polls s |}.

(** [Abortable::poll], which looks at the flag before and after it polls the future. *)
Definition poll_begin (f : F) (s : state) (w : W) : state * W :=
  if is_aborted s then ({| spawned := Ended (Err ()); is_aborted := true; handles := handles s; polls := polls s |}, w)
  else
    match fpoll f w with
    | (Ready t, _, w) => ({| spawned := Ended (Ok t); is_aborted := is_aborted s; handles := handles s; polls := S (polls s) |}, w)
    | (Pending, f, w) => ({| spawned := Polled f; is_aborted := is_aborted s; handles := handles s; polls := S (polls s) |}, w)
    end.
Definition poll_end (f : F) (s : state) : state :=
  {| spawned := if is_aborted s then Ended (Err ()) else Idle f; is_aborted := is_aborted s; handles := handles s; polls := polls s |}.

Inductive step : relation state :=
  | Step_clone s : handles s ≠ 0 → step s (clone s)
  | Step_drop_handle s : handles s ≠ 0 → step s (drop_handle s)
  | Step_begin s f w : spawned s = Idle f → step s (poll_begin f s w).1
  | Step_end s f : spawned s = Polled f → step s (poll_end f s).

Definition sound (s : state) : Prop :=
  is_aborted s = (handles s =? 0) ∧ (spawned s = Ended (Err ()) → is_aborted s = true).

Lemma step_sound s s' : sound s → step s s' → sound s'.
Proof.
  intros Hinv Hstep. revert Hinv. destruct Hstep as [s1 Hh|s1 Hh|s1 f w Hs|s1 f Hs]; intros [Ha He]; split; simpl; try done.
  - rewrite Ha. by destruct (handles s1).
  - rewrite Ha. destruct (handles s1) as [|n]; [done|]. simpl. by rewrite Nat.sub_0_r.
  - intros Hs. by rewrite (He Hs).
  - unfold poll_begin. destruct (is_aborted s1) eqn:Hab; simpl; [by rewrite <-Ha|]. by destruct (fpoll f w) as [[[]]].
  - unfold poll_begin. destruct (is_aborted s1) eqn:Hab; simpl; [done|]. by destruct (fpoll f w) as [[[]]].
  - by destruct (is_aborted s1).
Qed.

(** A task is aborted just when its last handle is dropped: while there is one it only ends with
    the output of its future, and once there is none the future is never polled again and the
    task ends in the next step of its own. *)
Theorem controlled_sound t s :
  rtc step (spawn_controlled t) s →
  (handles s ≠ 0 → spawned s ≠ Ended (Err ())) ∧
  (handles s = 0 →
     (∀ s', rtc step s s' → polls s' = polls s ∧ handles s' = 0) ∧
     (∀ f w, spawned s = Idle f → spawned (poll_begin f s w).1 = Ended (Err ())) ∧
     (∀ f, spawned s = Polled f → spawned (poll_end f s) = Ended (Err ()))).
Proof.
  intros Hs. assert (sound s) as [Ha He].
  { assert (sound (spawn_controlled t)) as H0 by (by split). clear -Hs H0. induction Hs; [done|]. by eauto using step_sound. }
  split.
  - intros Hh Hend. apply He in Hend. rewrite Ha in Hend. by apply Nat.eqb_eq in Hend.
  - intros Hh. rewrite Hh in Ha. simpl in Ha. split; [|split].
    + intros s' Hs'. assert (is_aborted s' = true ∧ polls s' = polls s ∧ handles s' = 0) as (_&?&?); [|done].
      clear He Hs. induction Hs' as [|s1 s2 s3 [x ?|x ?|x f w ?|x f ?] _ IH]; [done|done|done| |].
      * unfold poll_begin in IH. rewrite Ha in IH. by apply IH.
      * by apply IH.
    + intros f w _. unfold poll_begin. by rewrite Ha.
    + intros f _. unfold poll_end. simpl. by rewrite Ha.
Qed.
End controlled.
End Controlled.
