(* ===== verification/SlogCompat.v ===== *)
(** [tracing_slog_compat] (src/shed/tracing_slog_compat/src/lib.rs): loggers that are slog's or stand for
    tracing, and the macros that log to either.

    slog and tracing are a class.  An expression in the input of a macro is one token; a macro whose
    input has no rule is [None]. *)
From stdpp Require Import strings.
From S2P Require Import Prelude RustStd.

Module SlogCompat.
#[local] Open Scope list_scope.

(** [slog::Level] and [tracing::Level]. *)
Inductive Level := Critical | Error | Warning | Info | Debug | Trace.
Inductive TracingLevel := ERROR | WARN | INFO | DEBUG | TRACE.

(** A key with a value as it is, displayed ([%]) or debugged ([?]). *)
Inductive how := Plain | Display | DebugFmt.
Inductive token := Expr (e : string) | FatArrow | Percent | Question | Comma | Eq_.

(** What the crates do: slog's [log!] and methods, and tracing's [enabled!] and [event!]. *)
Class Backend (L R KV W : Type) := {
  slog_root : KV → L;
  slog_new : L → KV → L;
  slog_log : L → R → W → W;
  slog_is_enabled : L → Level → W → bool;
  slog_log_macro : L → Level → string → list string → list token → W → W;
  tracing_enabled : TracingLevel → W → bool;
  tracing_event : TracingLevel → list token → list string → W → W;
}.

Section compat.
Context {L R KV W : Type} {BE : Backend L R KV W}.

Inductive Logger := Slog (l : L) | Tracing.

Definition root (values : KV) : Logger := Slog (slog_root values).
Definition new (self : Logger) (values : KV) : Logger := match self with Slog l => Slog (slog_new l values) | Tracing => Tracing end.
Definition log (self : Logger) (record : R) (w : W) : W := match self with Slog l => slog_log l record w | Tracing => w end.
Definition is_enabled (self : Logger) (slog_level : Level) (w : W) : bool :=
  match self with
  | Slog l => slog_is_enabled l slog_level w
  | Tracing =>
      match slog_level with
      | Critical => false
      | Error => tracing_enabled ERROR w
      | Warning => tracing_enabled WARN w
      | Info => tracing_enabled INFO w
      | Debug => tracing_enabled DEBUG w
      | Trace => tracing_enabled TRACE w
      end
  end.

(** [IntoSlogLogger] of a [Logger], of references to it and of an [Arc]; of slog's own logger; and
    [From]. *)
Definition into_slog_logger (self : Logger) : option L := match self with Slog l => Some l | Tracing => None end.
Definition slog_into_slog_logger (self : L) : option L := Some self.
Definition from_slog (logger : L) : Logger := Slog logger.

(** [compat_tracing_event!]: the keys and values are taken one by one, to those of tracing, each
    with a comma; then the event. *)
Fixpoint compat_kv (tracing_kv kv : list token) : option (list token) :=
  match kv with
  | [] => Some tracing_kv
  | Expr key :: FatArrow :: Percent :: Expr value :: [] => Some (tracing_kv ++ [Expr key; Eq_; Percent; Expr value; Comma])
  | Expr key :: FatArrow :: Question :: Expr value :: [] => Some (tracing_kv ++ [Expr key; Eq_; Question; Expr value; Comma])
  | Expr key :: FatArrow :: Expr value :: [] => Some (tracing_kv ++ [Expr key; Eq_; Expr value; Comma])
  | Expr key :: FatArrow :: Percent :: Expr value :: Comma :: kv => compat_kv (tracing_kv ++ [Expr key; Eq_; Percent; Expr value; Comma]) kv
  | Expr key :: FatArrow :: Question :: Expr value :: Comma :: kv => compat_kv (tracing_kv ++ [Expr key; Eq_; Question; Expr value; Comma]) kv
  | Expr key :: FatArrow :: Expr value :: Comma :: kv => compat_kv (tracing_kv ++ [Expr key; Eq_; Expr value; Comma]) kv
  | _ => None
  end.
Definition compat_tracing_event (tracing_level : TracingLevel) (msg : list string) (kv : list token) : option (W → W) :=
  kvs ← compat_kv [] kv; Some (tracing_event tracing_level kvs msg).

(** [event!]: both branches are compiled, one is run. *)
Definition event (logger : option L) (slog_level : Level) (tracing_level : TracingLevel) (slog_tag : string) (msg : list string) (kv : list token) : option (W → W) :=
  e ← compat_tracing_event tracing_level msg kv;
  Some (match logger with Some l => slog_log_macro l slog_level slog_tag msg kv | None => e end).

(** [error!] and its like: with a tag, or with the empty one. *)
Definition error (logger : Logger) (slog_tag : option string) := event (into_slog_logger logger) Error ERROR (default EmptyString slog_tag).
Definition warn (logger : Logger) (slog_tag : option string) := event (into_slog_logger logger) Warning WARN (default EmptyString slog_tag).
Definition info (logger : Logger) (slog_tag : option string) := event (into_slog_logger logger) Info INFO (default EmptyString slog_tag).
Definition debug (logger : Logger) (slog_tag : option string) := event (into_slog_logger logger) Debug DEBUG (default EmptyString slog_tag).
Definition trace (logger : Logger) (slog_tag : option string) := event (into_slog_logger logger) Trace TRACE (default EmptyString slog_tag).

(** * Keys and values *)

Definition sign (h : how) : list token := match h with Plain => [] | Display => [Percent] | DebugFmt => [Question] end.
Definition print_kv (x : string * how * string) : list token := [Expr x.1.1; FatArrow] ++ sign x.1.2 ++ [Expr x.2].
Definition tracing_kv_of (x : string * how * string) : list token := [Expr x.1.1; Eq_] ++ sign x.1.2 ++ [Expr x.2; Comma].
Fixpoint print_kvs (l : list (string * how * string)) (trailing : bool) : list token :=
  match l with
  | [] => []
  | [x] => print_kv x ++ (if trailing then [Comma] else [])
  | x :: l => print_kv x ++ Comma :: print_kvs l trailing
  end.

Lemma compat_kv_spec acc l trailing : compat_kv acc (print_kvs l trailing) = Some (acc ++ (l ≫= tracing_kv_of)).
Proof.
  revert acc. induction l as [|[[k h] v] l IH]; intros acc; [by rewrite app_nil_r|]. destruct l as [|y l].
  - destruct h, trailing; done.
  - change (print_kvs ((k, h, v) :: y :: l) trailing) with (print_kv (k, h, v) ++ Comma :: print_kvs (y :: l) trailing).
    transitivity (compat_kv (acc ++ tracing_kv_of (k, h, v)) (print_kvs (y :: l) trailing)); [by destruct h|].
    by rewrite IH, <-app_assoc.
Qed.

(** An event of a well-formed input: with slog's logger it is slog's event; else it is tracing's, with
    the same message, the keys and values in order, and the level that [is_enabled] asks for. *)
Theorem event_logged (m : Logger → option string → list string → list token → option (W → W)) slog_level tracing_level logger tag msg kvs trailing :
  (m, slog_level, tracing_level) ∈ [(error, Error, ERROR); (warn, Warning, WARN); (info, Info, INFO); (debug, Debug, DEBUG); (trace, Trace, TRACE)] →
  m logger tag msg (print_kvs kvs trailing) =
  Some (match logger with
        | Slog l => slog_log_macro l slog_level (default EmptyString tag) msg (print_kvs kvs trailing)
        | Tracing => tracing_event tracing_level (kvs ≫= tracing_kv_of) msg
        end) ∧
  ∀ w, is_enabled Tracing slog_level w = tracing_enabled tracing_level w.
Proof.
  intros Hm. repeat (apply elem_of_cons in Hm as [[= -> -> ->]|Hm]); [..|by apply not_elem_of_nil in Hm].
  all: split; [|done]; unfold error, warn, info, debug, trace, event, compat_tracing_event; rewrite compat_kv_spec; by destruct logger.
Qed.

(** A logger that stands for tracing drops the records it is given, and says of nothing that it is
    enabled at the most severe level, whatever tracing says of errors. *)
Lemma tracing_drops record w : log Tracing record w = w.
Proof. done. Qed.
Lemma critical_disabled w : is_enabled Tracing Critical w = false.
Proof. done. Qed.

(** The tag is for slog only. *)
Lemma tag_lost tag msg kv : error Tracing (Some tag) msg kv = error Tracing None msg kv.
Proof. done. Qed.
End compat.
End SlogCompat.
