(* ===== verification/Derives.v ===== *)
(** Procedural macros: [Arbitrary] (src/shed/quickcheck_arbitrary_derive/src/lib.rs) and the attributes of
    [fbinit] (src/shed/fbinit/fbinit_macros/{lib,args,expand}.rs, with src/shed/fbinit/fbinit-tokio/lib.rs), from
    the syntax they are given to the code they make and what that code does.

    What the parser syn reads is data here; the spans of errors are left out. *)
From stdpp Require Import strings.
From Stdlib Require Import Ascii.
From S2P Require Import Prelude RustStd RustStr.

(** * [#[derive(Arbitrary)]] *)

Module DeriveArbitrary.
#[local] Abbreviation length := List.length.
#[local] Open Scope list_scope.

Section derive.
Context {Ty V G : Type}.

(** The syntax of a type: its fields by name, or by place, or none. *)
Inductive Fields := Named (named : list (string * Ty)) | Unnamed (unnamed : list Ty) | UnitFields.
Inductive Data := Struct (fields : Fields) | Enum (variants : list (string * Fields)) | Union.

(** What is generated: fields that are initialised by [Arbitrary::arbitrary(g)], the type of which the
    compiler infers; and an expression for [Self], or a choice of one. *)
Inductive Inits := Braces (named : list (string * Ty)) | Parens (unnamed : list Ty) | NoInits.
Record Expr := { expr_variant : option string; expr_inits : Inits }.
Inductive Body := SelfExpr (e : Expr) | Choose (num_variants : nat) (arms : list (nat * Expr)).
Inductive Disallowed := EmptyEnum | UntaggedUnion.

Definition generate_arbitrary_fields (fields : Fields) : Inits :=
  match fields with
  | Named named => Braces named
  | Unnamed unnamed => Parens unnamed
  | UnitFields => NoInits
  end.

Definition derive_arbitrary (data : Data) : result Body Disallowed :=
  match data with
  | Struct fields => Ok (SelfExpr {| expr_variant := None; expr_inits := generate_arbitrary_fields fields |})
  | Enum variants =>
      if is_nil variants then Err EmptyEnum
      else
        let arbitraries := (λ v, {| expr_variant := Some v.1; expr_inits := generate_arbitrary_fields v.2 |}) <$> variants in
        Ok (Choose (length arbitraries) (zip (seq 0 (length arbitraries)) arbitraries))
  | Union => Err UntaggedUnion
  end.

(** ** What the code does *)

(** A value: its variant, and its fields. *)
Inductive Contents := NamedContents (l : list (string * V)) | UnnamedContents (l : list V) | NoContents.
Record Value := { variant : option string; contents : Contents }.

(** [Arbitrary] of the types of fields, and [Gen::choose]. *)
Context (arbitrary : Ty → G → exec (V * G)) (choose : list nat → G → option nat * G).

Fixpoint run_named (l : list (string * Ty)) (g : G) : exec (list (string * V) * G) :=
  match l with
  | [] => ret ([], g)
  | (n, t) :: l => let! '(v, g) := arbitrary t g in let! '(vs, g) := run_named l g in ret ((n, v) :: vs, g)
  end.
Fixpoint run_unnamed (l : list Ty) (g : G) : exec (list V * G) :=
  match l with
  | [] => ret ([], g)
  | t :: l => let! '(v, g) := arbitrary t g in let! '(vs, g) := run_unnamed l g in ret (v :: vs, g)
  end.
Definition run_expr (e : Expr) (g : G) : exec (Value * G) :=
  match expr_inits e with
  | Braces l => let! '(vs, g) := run_named l g in ret ({| variant := expr_variant e; contents := NamedContents vs |}, g)
  | Parens l => let! '(vs, g) := run_unnamed l g in ret ({| variant := expr_variant e; contents := UnnamedContents vs |}, g)
  | NoInits => ret ({| variant := expr_variant e; contents := NoContents |}, g)
  end.
(** The arms of the match are looked at in order; there is none for other indices. *)
Fixpoint run_arms (arms : list (nat * Expr)) (idx : option nat) (g : G) : exec (Value * G) :=
  match arms with
  | [] => panic
  | (n, e) :: arms => if bool_decide (idx = Some n) then run_expr e g else run_arms arms idx g
  end.
Definition run (b : Body) (g : G) : exec (Value * G) :=
  match b with
  | SelfExpr e => run_expr e g
  | Choose num_variants arms => let '(idx, g) := choose (seq 0 num_variants) g in run_arms arms idx g
  end.

(** ** Typing *)

Context (has_type : V → Ty → Prop).

Definition contents_typed (c : Contents) (f : Fields) : Prop :=
  match c, f with
  | NamedContents l, Named named => Forall2 (λ x y, x.1 = y.1 ∧ has_type x.2 y.2) l named
  | UnnamedContents l, Unnamed unnamed => Forall2 has_type l unnamed
  | NoContents, UnitFields => True
  | _, _ => False
  end.
Definition value_typed (v : Value) (d : Data) : Prop :=
  match d, variant v with
  | Struct fields, None => contents_typed (contents v) fields
  | Enum variants, Some n => ∃ fields, (n, fields) ∈ variants ∧ contents_typed (contents v) fields
  | _, _ => False
  end.

Context (arbitrary_typed : ∀ t g, ∃ v g', arbitrary t g = ret (v, g') ∧ has_type v t).
Context (choose_elem : ∀ l g, l ≠ [] → ∃ x, (choose l g).1 = Some x ∧ x ∈ l).

Lemma run_expr_typed n f g :
  ∃ v g', run_expr {| expr_variant := n; expr_inits := generate_arbitrary_fields f |} g = ret (v, g') ∧ variant v = n ∧ contents_typed (contents v) f.
Proof.
  unfold run_expr. destruct f as [named|unnamed|]; simpl.
  - assert (∃ vs g', run_named named g = ret (vs, g') ∧ Forall2 (λ x y, x.1 = y.1 ∧ has_type x.2 y.2) vs named) as (vs&g'&->&Hvs).
    { revert g. induction named as [|[m t] named IH]; intros g; simpl; [by eexists _, _|].
      destruct (arbitrary_typed t g) as (v&g1&->&Hv). simpl. destruct (IH g1) as (vs&g2&->&Hvs). simpl. eexists _, _. split; [done|]. by constructor. }
    simpl. by eexists _, _.
  - assert (∃ vs g', run_unnamed unnamed g = ret (vs, g') ∧ Forall2 has_type vs unnamed) as (vs&g'&->&Hvs).
    { revert g. induction unnamed as [|t unnamed IH]; intros g; simpl; [by eexists _, _|].
      destruct (arbitrary_typed t g) as (v&g1&->&Hv). simpl. destruct (IH g1) as (vs&g2&->&Hvs). simpl. eexists _, _. split; [done|]. by constructor. }
    simpl. by eexists _, _.
  - by eexists _, _.
Qed.

(** The arm of an index below the number of variants is there, and no other has it. *)
Lemma run_arms_lookup (es : list Expr) k idx e g :
  es !! idx = Some e → run_arms (zip (seq k (length es)) es) (Some (k + idx)) g = run_expr e g.
Proof.
  revert k idx. induction es as [|e' es IH]; intros k idx; [done|]. destruct idx as [|idx]; intros Hi; simpl in *.
  - injection Hi as ->. rewrite Nat.add_0_r. by rewrite bool_decide_true.
  - rewrite bool_decide_false by (intros [=]; lia). rewrite <-Nat.add_succ_comm. by apply IH.
Qed.

(** The derived code gives a value of the type, and never runs into its [unreachable!]; there is code
    for all but unions and enums without variants, and each variant is chosen by its index. *)
Theorem derive_typed d :
  match derive_arbitrary d with
  | Ok b =>
      (∀ g, ∃ v g', run b g = ret (v, g') ∧ value_typed v d) ∧
      (∀ variants idx n f g g1, d = Enum variants → variants !! idx = Some (n, f) → choose (seq 0 (length variants)) g = (Some idx, g1) →
         ∃ v g', run b g = ret (v, g') ∧ variant v = Some n)
  | Err UntaggedUnion => d = Union
  | Err EmptyEnum => d = Enum []
  end.
Proof.
  destruct d as [f|variants|]; simpl; [| |done].
  - split; [|done]. intros g. destruct (run_expr_typed None f g) as (v&g'&Hr&Hn&Hc). exists v, g'. split; [done|]. unfold value_typed. by rewrite Hn.
  - destruct (is_nil variants) eqn:Hnil; [by destruct variants|]. set (es := _ <$> variants).
    assert (∀ idx g, idx < length variants → ∃ n f, variants !! idx = Some (n, f) ∧
      run_arms (zip (seq 0 (length es)) es) (Some idx) g = run_expr {| expr_variant := Some n; expr_inits := generate_arbitrary_fields f |} g) as Harm.
    { intros idx g [[n f] Hi]%lookup_lt_is_Some. exists n, f. split; [done|]. apply (run_arms_lookup es 0). unfold es. by rewrite list_lookup_fmap, Hi. }
    assert (length es = length variants) as Hlen by (unfold es; by rewrite length_fmap). split.
    + intros g. unfold run. destruct (choose_elem (seq 0 (length es)) g ltac:(rewrite Hlen; by destruct variants)) as (idx&Hc&Hidx). destruct (choose _ g) as [o g1]. simpl in Hc. subst o.
      apply elem_of_seq in Hidx. destruct (Harm idx g1 ltac:(lia)) as (n&f&Hi&->). destruct (run_expr_typed (Some n) f g1) as (v&g'&Hr&Hn&Hct).
      exists v, g'. split; [done|]. unfold value_typed. rewrite Hn. exists f. split; [|done]. by eapply list_elem_of_lookup_2.
    + intros variants' idx n f g g1 [= <-] Hi Hch. unfold run. rewrite Hlen, Hch.
      destruct (Harm idx g1 ltac:(by eapply lookup_lt_Some)) as (n'&f'&Hi'&Hr). rewrite Hlen in Hr. rewrite Hr. rewrite Hi in Hi'. injection Hi' as <- <-.
      destruct (run_expr_typed (Some n) f g1) as (v&g'&->&Hn&_). by exists v, g'.
Qed.
End derive.
End DeriveArbitrary.

(** * The attributes of [fbinit] *)

Module Fbinit.
#[local] Abbreviation length := List.length.
#[local] Open Scope list_scope.

(** ** Arguments *)

Inductive DisableFatalSignals := Default | None_ | SigtermOnly | All.
Record Args := { disable_fatal_signals : DisableFatalSignals; tokio_workers : option Z; vars : list (string * string) }.
Definition default_args : Args := {| disable_fatal_signals := Default; tokio_workers := None; vars := [] |}.

(** [name = value] in the attribute; the value as syn reads it. *)
Inductive Lit := Ident (s : string) | LitInt (z : Z) | LitStr (s : string).
Record Meta := { meta_path : string; meta_value : option Lit }.
Inductive ArgsError := Syntax | UnknownSignals | OutOfRange | NotKeyValue | Unrecognized.

(** [str::split_once('=')]. *)
Fixpoint split_equals (s : string) : option (string * string) :=
  match s with
  | EmptyString => None
  | String c s => if bool_decide (c = "="%char) then Some (EmptyString, s) else p ← split_equals s; Some (String c p.1, p.2)
  end.

Definition parse (self : Args) (meta : Meta) : result Args ArgsError :=
  if bool_decide (meta_path meta = "disable_fatal_signals"%string) then
    match meta_value meta with
    | Some (Ident ident) =>
        let signals :=
          if bool_decide (ident = "none"%string) then Some None_
          else if bool_decide (ident = "default"%string) then Some Default
          else if bool_decide (ident = "sigterm_only"%string) then Some SigtermOnly
          else if bool_decide (ident = "all"%string) then Some All
          else None in
        match signals with
        | Some signals => Ok {| disable_fatal_signals := signals; tokio_workers := tokio_workers self; vars := vars self |}
        | None => Err UnknownSignals
        end
    | _ => Err Syntax
    end
  else if bool_decide (meta_path meta = "worker_threads"%string) then
    match meta_value meta with
    | Some (LitInt z) =>
        if bool_decide (in_type Usize z)
        then Ok {| disable_fatal_signals := disable_fatal_signals self; tokio_workers := Some z; vars := vars self |}
        else Err OutOfRange
    | _ => Err Syntax
    end
  else if bool_decide (meta_path meta = "set_var"%string) then
    match meta_value meta with
    | Some (LitStr lit) =>
        match split_equals lit with
        | Some (key, value) =>
            Ok {| disable_fatal_signals := disable_fatal_signals self; tokio_workers := tokio_workers self; vars := vars self ++ [(key, value)] |}
        | None => Err NotKeyValue
        end
    | _ => Err Syntax
    end
  else Err Unrecognized.

(** [do_expand]: the arguments one after the other, up to the first that is wrong. *)
Fixpoint parse_args (self : Args) (metas : list Meta) : result Args ArgsError :=
  match metas with
  | [] => Ok self
  | meta :: metas => match parse self meta with Ok self => parse_args self metas | Err e => Err e end
  end.

(** ** Expansion *)

Section expand.
Context {Attr Param Block : Type} (test_attr : Attr).

Inductive Mode := Main | Test | NestedTest.
Record ItemFn := { attrs : list Attr; asyncness : bool; ident : string; inputs : list Param; block : Block }.

Inductive Body :=
  | Sync (b : Block)
  | TokioTest (workers : option Z) (b : Block)
  | TokioMain (workers : option Z) (b : Block).

(** The statements of the new function, which is not async. *)
Inductive Stmt :=
  | Guard
  | SetVar (key var : string)
  | PerformInit (assignment : option Param) (disable : option Z)
  | LetDestroyGuard
  | BodyStmt (b : Body).
Record Expanded := { out_attrs : list Attr; out_ident : string; out_inputs : list Param; out_block : list Stmt }.
Inductive ExpandError := TooManyInputs | NotMain.

Definition mode_eqb (m n : Mode) : bool := match m, n with Main, Main | Test, Test | NestedTest, NestedTest => true | _, _ => false end.

Definition body_of (mode : Mode) (args : Args) (function : ItemFn) : Body :=
  match asyncness function, mode with
  | true, (Test | NestedTest) => TokioTest (tokio_workers args) (block function)
  | true, Main => TokioMain (tokio_workers args) (block function)
  | false, _ => Sync (block function)
  end.

Definition signal_mask (d : DisableFatalSignals) : option Z :=
  match d with Default => Some 0x8002 | All => Some 0xffff | SigtermOnly => Some 0x8000 | None_ => None end%Z.

Definition expand (mode : Mode) (args : Args) (function : ItemFn) : result Expanded ExpandError :=
  if negb (mode_eqb mode NestedTest) && (1 <? length (inputs function)) then Err TooManyInputs
  else if mode_eqb mode Main && negb (bool_decide (ident function = "main"%string)) then Err NotMain
  else
    let guard := match mode with Main => [Guard] | _ => [] end in
    let set_vars := (λ v, SetVar v.1 v.2) <$> vars args in
    let assignment := head (inputs function) in
    Ok {| out_attrs := attrs function ++ (match mode with Test => [test_attr] | _ => [] end);
          out_ident := ident function;
          out_inputs := match mode with NestedTest => tail (inputs function) | _ => [] end;
          out_block := guard ++ set_vars ++ [PerformInit assignment (signal_mask (disable_fatal_signals args)); LetDestroyGuard; BodyStmt (body_of mode args function)] |}.

(** ** What the function does *)

(** A runtime of tokio with so many workers, or as many as it likes; or the current thread. *)
Inductive Runtime := CurrentThread | MultiThread (workers : option Z).
Inductive Event := VarSet (key var : string) | Initialised (disable : option Z) | Ran (on : option Runtime) (b : Block) | Destroyed.

(** [std::env::set_var] panics for an empty key, and for NUL in the key or the value. *)
Fixpoint has_nul (s : string) : bool := match s with EmptyString => false | String c s => bool_decide (c = "000"%char) || has_nul s end.
Definition set_var_ok (key var : string) : bool := negb (is_empty_string key) && negb (has_nul key) && negb (has_nul var).

(** [fbinit_tokio]; a runtime with no workers cannot be made. *)
Definition tokio_test (tokio_workers : option Z) : exec Runtime :=
  match tokio_workers with Some w => if (w =? 0)%Z then panic else ret (MultiThread (Some w)) | None => ret CurrentThread end.
Definition tokio_main (tokio_workers : option Z) : exec Runtime :=
  match tokio_workers with Some w => if (w =? 0)%Z then panic else ret (MultiThread (Some w)) | None => ret (MultiThread None) end.

Definition run_body (b : Body) : exec Event :=
  match b with
  | Sync b => ret (Ran None b)
  | TokioTest w b => let! r := tokio_test w in ret (Ran (Some r) b)
  | TokioMain w b => let! r := tokio_main w in ret (Ran (Some r) b)
  end.

(** The events, and whether there was no panic; the guard is dropped at the end of the block, or
    when a panic unwinds it.  [in_module] is whether the function is not in the crate root, and
    [finishes] whether a body does without a panic. *)
Fixpoint run_stmts (in_module : bool) (finishes : Block → bool) (stmts : list Stmt) (guarded : bool) : list Event * bool :=
  match stmts with
  | [] => ((if guarded then [Destroyed] else []), true)
  | s :: stmts =>
      let unwind := ((if guarded then [Destroyed] else []), false) in
      match s with
      | Guard => if in_module then unwind else run_stmts in_module finishes stmts guarded
      | SetVar k v =>
          if set_var_ok k v then let '(es, ok) := run_stmts in_module finishes stmts guarded in (VarSet k v :: es, ok) else unwind
      | PerformInit _ d => let '(es, ok) := run_stmts in_module finishes stmts guarded in (Initialised d :: es, ok)
      | LetDestroyGuard => run_stmts in_module finishes stmts true
      | BodyStmt b =>
          match run_body b with
          | panic => unwind
          | ret e =>
              let done := match e with Ran _ b => finishes b | _ => true end in
              let '(es, ok) := if done then run_stmts in_module finishes stmts guarded else unwind in (e :: es, ok)
          end
      end
  end.

Lemma run_vars in_module finishes l stmts g :
  Forall (λ v, set_var_ok v.1 v.2 = true) l →
  run_stmts in_module finishes (((λ v, SetVar v.1 v.2) <$> l) ++ stmts) g =
  (((λ v, VarSet v.1 v.2) <$> l) ++ (run_stmts in_module finishes stmts g).1, (run_stmts in_module finishes stmts g).2).
Proof.
  induction 1 as [|v l Hv _ IH]; csimpl; [by destruct (run_stmts _ _ _ _)|]. by rewrite Hv, IH.
Qed.

(** A function that is expanded takes no argument, or the rest of them in a nested test.  Run in the
    crate root, it sets the variables in order, initialises with the signals that were asked for,
    runs its body on the runtime that was asked for, and destroys last, even after a panic. *)
Theorem expand_runs mode args function out e in_module finishes :
  expand mode args function = Ok out →
  Forall (λ v, set_var_ok v.1 v.2 = true) (vars args) → run_body (body_of mode args function) = ret e →
  out_inputs out = (match mode with NestedTest => tail (inputs function) | _ => [] end) ∧
  run_stmts in_module finishes (out_block out) false =
    if mode_eqb mode Main && in_module then ([], false)
    else (((λ v, VarSet v.1 v.2) <$> vars args) ++ [Initialised (signal_mask (disable_fatal_signals args)); e; Destroyed], finishes (block function)).
Proof.
  unfold expand. destruct (_ && _); [done|]. destruct (_ && negb _); [done|]. intros [= <-] Hv Hb. simpl. split; [done|].
  assert (∃ r, e = Ran r (block function)) as [r He].
  { unfold body_of in Hb. destruct (asyncness function), mode; simpl in Hb; unfold tokio_test, tokio_main in Hb;
      repeat (case_match; simpl in Hb; try done); injection Hb as <-; by eexists. }
  assert (run_stmts in_module finishes (((λ v, SetVar v.1 v.2) <$> vars args) ++ [PerformInit (head (inputs function)) (signal_mask (disable_fatal_signals args)); LetDestroyGuard; BodyStmt (body_of mode args function)]) false =
    (((λ v, VarSet v.1 v.2) <$> vars args) ++ [Initialised (signal_mask (disable_fatal_signals args)); e; Destroyed], finishes (block function))) as Hrun.
  { rewrite run_vars by done. simpl. rewrite Hb, He. by destruct (finishes (block function)). }
  destruct mode; simpl; [|exact Hrun..]. destruct in_module; [done|]. exact Hrun.
Qed.

(** With no worker threads the code compiles, and panics after it has initialised. *)
Lemma no_workers_panics mode args function finishes out :
  expand mode args function = Ok out → asyncness function = true → tokio_workers args = Some 0%Z → vars args = [] →
  run_stmts false finishes (out_block out) false = ([Initialised (signal_mask (disable_fatal_signals args)); Destroyed], false).
Proof.
  unfold expand. destruct (_ && _); [done|]. destruct (_ && negb _); [done|]. intros [= <-] Ha Hw Hv. simpl. rewrite Hv. unfold body_of. rewrite Ha, Hw.
  by destruct mode.
Qed.
End expand.

(** ** Signals *)

(** A mask with the bit of each signal. *)
Definition disables (mask : option Z) (signal : Z) : bool := match mask with Some m => Z.testbit m signal | None => false end.
Definition SIGHUP : Z := 1.
Definition SIGINT : Z := 2.
Definition SIGTERM : Z := 15.

(** The default mask is of SIGTERM and SIGHUP, not of SIGINT. *)
Theorem default_signals s : (0 ≤ s)%Z → disables (signal_mask Default) s = true ↔ s = SIGHUP ∨ s = SIGTERM.
Proof.
  intros Hs. unfold disables, signal_mask. destruct (decide (s < 16)%Z) as [Hlt|].
  - assert (Z.testbit 0x8002 s = (s =? SIGHUP)%Z || (s =? SIGTERM)%Z) as ->; [|by rewrite orb_true_iff, !Z.eqb_eq].
    apply eqb_prop. by apply (range_check (λ s, eqb (Z.testbit 0x8002 s) ((s =? SIGHUP) || (s =? SIGTERM)))%Z 0 16).
  - rewrite Z.bits_above_log2 by (simpl; lia). split; [done|]. unfold SIGHUP, SIGTERM. lia.
Qed.

(** The number in the example of the docs of [test] is not an argument. *)
Example number_refused : parse default_args {| meta_path := "disable_fatal_signals"; meta_value := Some (LitInt 0x8000) |} = Err Syntax.
Proof. done. Qed.

(** ** The crate itself, without the initialisation it stands for (src/shed/fbinit/src/oss.rs) *)

Inductive FacebookInit := Token.
Definition perform_init : FacebookInit := Token.
Definition perform_init_with_disable_signals (_ : Z) : FacebookInit := Token.
Definition was_performed : bool := false.
Definition try_get : result FacebookInit string := Err "this is not an fbcode build !"%string.
Definition get : option FacebookInit := None.
Definition hacks_expect : exec FacebookInit := expect (ok try_get).
End Fbinit.
