(* ===== verification/Caches.v ===== *)
(** The caches that open source builds get: [memcache_stub] (src/shed/memcache_stub/common/{client,keygen,lib}.rs)
    and [cachelib_stub] (src/shed/cachelib_stub/src/oss/{lrucache,dummy_cache}.rs).

    [KeyGen] is as it is inside Meta, and makes a key from which its parts can be read back.  The
    caches never keep anything; they are shown to do what a cache may do that evicts whatever it
    likes, where their documentation leaves them a choice. *)
From stdpp Require Import strings gmap.
From Stdlib Require Import Ascii Strings.Byte.
From S2P Require Import Prelude RustStd RustStr.

(** * Keys *)

Module KeyGen.
#[local] Open Scope string_scope.

Record KeyGen := { category : string; codever : Z; sitever : Z }.

Fixpoint all_chars (f : ascii → bool) (s : string) : bool := match s with EmptyString => true | String c s => f c && all_chars f s end.
(** [str::is_ascii], of the bytes. *)
Definition is_ascii (s : string) : bool := all_chars (λ c, bool_decide (N_of_ascii c < 128)%N) s.

Definition new (category : string) (codever sitever : Z) : exec KeyGen :=
  let! _ := rust_assert (is_ascii category) in
  let! _ := rust_assert (all_chars (λ c, negb (Ascii.eqb c " ") && negb (Ascii.eqb c ":")) category) in
  ret {| category := category; codever := codever; sitever := sitever |}.

Definition key_text (self : KeyGen) (id : string) : string :=
  category self +:+ ":" +:+ (id +:+ ":" +:+ ("c" +:+ to_string (codever self) +:+ ":" +:+ ("s" +:+ to_string (sitever self)))).
Definition key (self : KeyGen) (id : string) : exec string :=
  let! _ := rust_assert (is_ascii id) in
  let! _ := rust_assert (all_chars (λ c, negb (Ascii.eqb c " ")) id) in
  ret (key_text self id).

(** ** Reading a key *)

(** What is before and after the last colon. *)
Fixpoint rsplit_colon (s : string) : option (string * string) :=
  match s with
  | EmptyString => None
  | String c s =>
      match rsplit_colon s with
      | Some (k, v) => Some (String c k, v)
      | None => if Ascii.eqb c ":" then Some (EmptyString, s) else None
      end
  end.

Lemma rsplit_none s : has_colon s = false → rsplit_colon s = None.
Proof. induction s as [|c s IH]; simpl; [done|]. intros [Hc Hs]%orb_false_iff. by rewrite (IH Hs), Hc. Qed.

Lemma rsplit_colon_app k v : has_colon v = false → rsplit_colon (k +:+ ":" +:+ v) = Some (k, v).
Proof.
  intros Hv. induction k as [|c k IH].
  - change (rsplit_colon (String ":" v) = Some (EmptyString, v)). simpl. by rewrite rsplit_none.
  - change (rsplit_colon (String c (k +:+ ":" +:+ v)) = Some (String c k, v)). simpl. by rewrite IH.
Qed.

Lemma dec_loop_colon fuel n acc : (0 ≤ n)%Z → has_colon (dec_loop fuel n acc) = has_colon acc.
Proof.
  assert (∀ d, (0 ≤ d < 10)%Z → (digit d =? ":")%char = false) as Hd.
  { by intros d [->|[->|[->|[->|[->|[->|[->|[->|[->| ->]]]]]]]]]%digit_cases. }
  revert n acc. induction fuel as [|fuel IH]; intros n acc Hn; simpl; [done|]. destruct (Z.ltb_spec n 10).
  - simpl. by rewrite Hd by lia.
  - rewrite IH by (apply Z.div_pos; lia). simpl. by rewrite Hd by (apply Z.mod_pos_bound; lia).
Qed.

Lemma to_string_colon z : (0 ≤ z)%Z → has_colon (to_string z) = false.
Proof. intros Hz. unfold to_string. rewrite (proj2 (Z.ltb_ge _ _)) by done. by rewrite dec_loop_colon. Qed.

Definition strip (c : ascii) (s : string) : option string := match s with String d s => if Ascii.eqb c d then Some s else None | _ => None end.
Definition read_key (s : string) : option (KeyGen * string) :=
  x ← split_colon s; y ← rsplit_colon x.2; z ← rsplit_colon y.1;
  c ← strip "c" z.2; c ← parse_int U32 c; s ← strip "s" y.2; s ← parse_int U32 s;
  Some ({| category := x.1; codever := c; sitever := s |}, z.1).

Lemma no_colon_category s : all_chars (λ c, negb (Ascii.eqb c " ") && negb (Ascii.eqb c ":")) s = true → has_colon s = false.
Proof. induction s as [|c s IH]; simpl; [done|]. intros [[_ Hc]%andb_true_iff Hs]%andb_true_iff. rewrite (IH Hs). by rewrite (proj1 (negb_true_iff _) Hc). Qed.

Lemma all_chars_app f s s' : all_chars f (s +:+ s') = all_chars f s && all_chars f s'.
Proof. induction s as [|c s IH]; [done|]. change (f c && all_chars f (s +:+ s') = (f c && all_chars f s) && all_chars f s'). by rewrite IH, andb_assoc. Qed.

(** A key says all that it was made of: category, id and both versions can be read from it, even
    if the id has colons, so that keys are the same only if everything is. *)
Theorem key_read c cv sv kg id k :
  in_type U32 cv → in_type U32 sv → new c cv sv = ret kg → key kg id = ret k →
  kg = {| category := c; codever := cv; sitever := sv |} ∧ read_key k = Some (kg, id).
Proof.
  intros Hcv Hsv Hn Hk. unfold new in Hn. destruct (is_ascii c); [|done]. simpl in Hn.
  destruct (all_chars _ c) eqn:Hc; [|done]. simpl in Hn. injection Hn as <-. split; [done|].
  unfold key in Hk. destruct (is_ascii id); [|done]. simpl in Hk. destruct (all_chars _ id); [|done]. simpl in Hk. injection Hk as <-.
  apply no_colon_category in Hc. unfold read_key, key_text. cbn [category codever sitever].
  assert (∀ z c, in_type U32 z → Ascii.eqb c ":" = false → has_colon (String c EmptyString +:+ to_string z) = false) as Hcol.
  { intros z a Hz Ha. change ((a =? ":")%char || has_colon (to_string z) = false). rewrite Ha. apply to_string_colon. unfold in_type in Hz. by destruct Hz. }
  rewrite split_colon_app by done. cbn [mbind option_bind snd fst].
  replace (id +:+ ":" +:+ ("c" +:+ to_string cv +:+ ":" +:+ ("s" +:+ to_string sv)))
    with ((id +:+ ":" +:+ ("c" +:+ to_string cv)) +:+ ":" +:+ ("s" +:+ to_string sv)) by (by rewrite !string_app_assoc).
  rewrite rsplit_colon_app by (by apply Hcol). cbn [mbind option_bind snd fst].
  rewrite rsplit_colon_app by (by apply Hcol). cbn [mbind option_bind snd fst].
  change (strip "c" ("c" +:+ to_string cv)) with (Some (to_string cv)). change (strip "s" ("s" +:+ to_string sv)) with (Some (to_string sv)).
  cbn [mbind option_bind]. by rewrite !parse_to_string.
Qed.

(** An id with colons. *)
Lemma key_witness :
  let kg := {| category := "test.prefix"; codever := 1; sitever := 2 |} in
  new "test.prefix" 1 2 = ret kg ∧ key kg "a:c7:s9" = ret "test.prefix:a:c7:s9:c1:s2" ∧
  kg = {| category := "test.prefix"; codever := 1; sitever := 2 |} ∧ read_key "test.prefix:a:c7:s9:c1:s2" = Some (kg, "a:c7:s9").
Proof.
  intros kg. split; [reflexivity|]. split; [reflexivity|].
  apply (key_read "test.prefix" 1 2); [split; vm_compute; congruence | split; vm_compute; congruence | reflexivity | reflexivity].
Defined.

(** Keys are refused for a space, but not for a line break. *)
Example line_break_allowed :
  new "a b" 1 1 = panic ∧ new "a:b" 1 1 = panic ∧
  ∃ k, key {| category := "a"; codever := 1; sitever := 1 |} (String "013" (String "010" EmptyString)) = ret k.
Proof. split; [done|]. split; [done|]. by eexists. Qed.
End KeyGen.

(** * A cache that may lose anything *)

Section lossy.
Context {K V : Type} `{Countable K}.

(** What a call asks, and what it is told. *)
Inductive Request := Get (k : K) | Set_ (k : K) (v : V) | Add (k : K) (v : V) | Del (k : K).
Inductive Answer := Got (v : option V) | Done | Added (b : bool).

(** The cache forgets entries at any time. *)
Inductive lossy : gmap K V → Request → Answer → gmap K V → Prop :=
  | Lossy_get m k : lossy m (Get k) (Got (m !! k)) m
  | Lossy_set m k v : lossy m (Set_ k v) Done (<[k := v]> m)
  | Lossy_add m k v : m !! k = None → lossy m (Add k v) (Added true) (<[k := v]> m)
  | Lossy_present m k v u : m !! k = Some u → lossy m (Add k v) (Added false) m
  | Lossy_full m k v : m !! k = None → lossy m (Add k v) (Added false) m
  | Lossy_del m k : lossy m (Del k) Done (delete k m)
  | Lossy_evict m m' r a m1 : m' ⊆ m → lossy m' r a m1 → lossy m r a m1
  | Lossy_evict_after m r a m1 m2 : m2 ⊆ m1 → lossy m r a m1 → lossy m r a m2.

Inductive lossy_run : gmap K V → list (Request * Answer) → gmap K V → Prop :=
  | Run_nil m : lossy_run m [] m
  | Run_cons m r a m1 l m2 : lossy m r a m1 → lossy_run m1 l m2 → lossy_run m ((r, a) :: l) m2.

(** A cache that answers each request as an empty one, and is empty afterwards. *)
Lemma empty_cache_run (answer : Request → Answer) (l : list Request) :
  (∀ r, lossy ∅ r (answer r) ∅) → lossy_run ∅ ((λ r, (r, answer r)) <$> l) ∅.
Proof. intros Ha. induction l as [|r l IH]; csimpl; econstructor; eauto. Qed.
End lossy.

(** * The client for Memcache *)

Module MemcacheClient.
Section client.
Context {K V : Type} `{Countable K}.

Definition get (_ : K) : result (option V) () := Ok None.
Definition set (_ : K) (_ : V) : result () () := Ok ().
Definition set_with_ttl (_ : K) (_ : V) (_ : Z) : result () () := Ok ().
Definition add (_ : K) (_ : V) : result bool () := Ok true.
Definition add_with_ttl (_ : K) (_ : V) (_ : Z) : result bool () := Ok true.
Definition del (_ : K) : result () () := Ok ().

(** [set_proxy_threads_count] and [set_max_outstanding_requests]. *)
Definition set_proxy_threads_count (_ : Z) : result () () := Ok ().
Definition set_max_outstanding_requests (_ : Z) : result () () := Ok ().

Definition answer (r : Request) : Answer :=
  match r with
  | Get k => match get k with Ok v => Got v | Err _ => Done end
  | Set_ _ _ => Done
  | Add k v => match add k v with Ok b => Added b | Err _ => Done end
  | Del _ => Done
  end.

(** Any calls are answered as by a Memcache that evicts each entry at once. *)
Theorem client_lossy (l : list (Request (K:=K) (V:=V))) : lossy_run ∅ ((λ r, (r, answer r)) <$> l) ∅.
Proof.
  apply empty_cache_run. intros [k|k v|k v|k]; simpl.
  - rewrite <-(lookup_empty (M:=gmap K) (A:=V) k). constructor.
  - eapply (Lossy_evict_after _ _ _ (<[k := v]> ∅)); [apply map_empty_subseteq|constructor].
  - eapply (Lossy_evict_after _ _ _ (<[k := v]> ∅)); [apply map_empty_subseteq|]. constructor. apply lookup_empty.
  - rewrite <-(delete_empty (M:=gmap K) (A:=V) k) at 2. constructor.
Qed.
End client.
End MemcacheClient.

(** * The pools of cachelib *)

Module LruCache.
#[local] Open Scope Z_scope.

Section pools.
Context {K V : Type} `{Countable K}.

Record LruCachePool := { pool_name : string }.
Record VolatileLruCachePool := { inner : LruCachePool }.

(** A handle has no data, in any mode. *)
Inductive LruCacheHandle := Handle.

Definition init_cacheadmin : result () () := Ok ().
Definition get_available_space : result Z () := Ok 0.
Definition get_or_create_pool (pool_name : string) (_ : Z) : result LruCachePool () := Ok {| pool_name := pool_name |}.
Definition get_or_create_volatile_pool (pool_name : string) (_ : Z) : result VolatileLruCachePool () := Ok {| inner := {| pool_name := pool_name |} |}.
Definition get_pool (_ : string) : option LruCachePool := None.
Definition get_volatile_pool (_ : string) : result (option VolatileLruCachePool) () := Ok None.

(** [LruCachePool]. *)
Definition allocate (_ : K) (_ : Z) : result (option LruCacheHandle) () := Ok None.
Definition insert_handle (_ : LruCacheHandle) : result bool () := Ok false.
Definition set (_ : K) (_ : V) : result bool () := Ok false.
Definition set_or_replace (_ : K) (_ : V) : result bool () := Ok false.
Definition get_handle (_ : K) : result (option LruCacheHandle) () := Ok None.
Definition get (_ : K) : result (option V) () := Ok None.
Definition get_size : result Z () := Ok 0.
Definition grow_pool (_ : Z) : result bool () := Ok false.
Definition shrink_pool (_ : Z) : result bool () := Ok true.
Definition transfer_capacity_to (_ : LruCachePool) (_ : Z) : result bool () := Ok false.

(** [VolatileLruCachePool]. *)
Definition volatile_allocate (_ : K) (_ : Z) : result (option LruCacheHandle) () := Ok None.
Definition volatile_insert_handle (_ : LruCacheHandle) : result bool () := Ok false.
Definition volatile_set (_ : K) (_ : V) : result bool () := Ok false.
Definition volatile_set_or_replace (_ : K) (_ : V) : result bool () := Ok false.
Definition volatile_get_handle (_ : K) : result (option LruCacheHandle) () := Ok None.
Definition volatile_get (_ : K) : result (option V) () := Ok None.
Definition volatile_get_size : result Z () := Ok 0.
Definition volatile_grow_pool (_ : Z) : result bool () := Ok false.
Definition volatile_shrink_pool (_ : Z) : result bool () := Ok true.
Definition volatile_transfer_capacity_to (_ : VolatileLruCachePool) (_ : Z) : result bool () := Ok false.

(** [dummy_cache]. *)
Definition get_cached (_ : VolatileLruCachePool) (_ : K) : result (option V) () := Ok None.
Definition set_cached (_ : VolatileLruCachePool) (_ : K) (_ : V) (_ : option Z) : result bool () := Ok false.
Definition set_or_replace_cached (_ : VolatileLruCachePool) (_ : K) (_ : V) (_ : option Z) : result () () := Ok ().

(** [set] does not overwrite; deleting is not offered. *)
Definition answer (r : Request (K:=K) (V:=V)) : Answer :=
  match r with
  | Get k => match get k with Ok v => Got v | Err _ => Done end
  | Set_ _ _ => Done
  | Add k v => match set k v with Ok b => Added b | Err _ => Done end
  | Del _ => Done
  end.

(** Any calls are answered as by a cache without room. *)
Theorem pool_lossy (l : list (Request (K:=K) (V:=V))) : lossy_run ∅ ((λ r, (r, answer r)) <$> l) ∅.
Proof.
  apply empty_cache_run. intros [k|k v|k v|k]; simpl.
  - rewrite <-(lookup_empty (M:=gmap K) (A:=V) k). constructor.
  - eapply (Lossy_evict_after _ _ _ (<[k := v]> ∅)); [apply map_empty_subseteq|constructor].
  - constructor. apply lookup_empty.
  - rewrite <-(delete_empty (M:=gmap K) (A:=V) k) at 2. constructor.
Qed.

(** The size of a pool is 0, and still every request to make it smaller is granted. *)
Lemma shrink_granted size : 0 < size → get_size = Ok 0 ∧ shrink_pool size = Ok true ∧ volatile_shrink_pool size = Ok true.
Proof. done. Qed.
End pools.

(** ** Readers and writers *)

Section cursor.
Context `{BuildMode}.
#[local] Abbreviation byte := Byte.byte.

(** [Cursor<Vec<u8>>]. *)
Record Cursor := { buffer : list byte; position : Z }.
Definition len (c : Cursor) : Z := Z.of_nat (length (buffer c)).

Definition get_reader (_ : LruCacheHandle) : result Cursor () := Ok {| buffer := []; position := 0 |}.
Definition get_writer (_ : LruCacheHandle) : result Cursor () := Ok {| buffer := []; position := 0 |}.

(** [Buf], and [Read], for the reader. *)
Definition remaining (c : Cursor) : Z := Z.max 0 (len c - position c).
Definition chunk (c : Cursor) : list byte := drop (Z.to_nat (position c)) (buffer c).
Definition advance (cnt : Z) (c : Cursor) : exec Cursor :=
  let! _ := rust_assert (cnt <=? remaining c) in ret {| buffer := buffer c; position := position c + cnt |}.
Definition read (n : Z) (c : Cursor) : list byte * Cursor :=
  let got := take (Z.to_nat n) (chunk c) in (got, {| buffer := buffer c; position := position c + Z.of_nat (length got) |}).

(** [BufMut], and [Write], for the writer. *)
Definition remaining_mut (c : Cursor) : Z := Z.max 0 (len c - position c).
Definition advance_mut (cnt : Z) (c : Cursor) : exec Cursor :=
  let! p := usize_add (position c) cnt in ret {| buffer := buffer c; position := p |}.
Definition chunk_mut (c : Cursor) : list byte :=
  if position c <=? len c then drop (Z.to_nat (position c)) (buffer c) else [].
Definition write (buf : list byte) (c : Cursor) : Z * Cursor :=
  let p := Z.to_nat (position c) in
  let padded := buffer c ++ replicate (p - length (buffer c)) x00 in
  (Z.of_nat (length buf), {| buffer := take p padded ++ buf ++ drop (p + length buf) padded; position := position c + Z.of_nat (length buf) |}).

(** [remaining_mut] is the room in [chunk_mut], as callers of [BufMut] rely on, wherever the position
    is. *)
Lemma chunk_mut_len c : 0 ≤ position c → Z.of_nat (length (chunk_mut c)) = remaining_mut c.
Proof.
  intros Hp. unfold chunk_mut, remaining_mut, len. destruct (Z.leb_spec (position c) (Z.of_nat (length (buffer c)))).
  - rewrite length_drop. lia.
  - simpl. lia.
Qed.

(** What is written goes into the buffer and leaves no room: nothing can ever be put through
    [BufMut] into a writer that one gets, and a reader has nothing. *)
Theorem writer_has_no_room h c (bufs : list (list byte)) :
  get_writer h = Ok c →
  let c' := foldl (λ c buf, (write buf c).2) c bufs in
  buffer c' = concat bufs ∧ remaining_mut c' = 0 ∧ chunk_mut c' = [].
Proof.
  intros [= <-]. cbv zeta. set (c := {| buffer := []; position := 0 |}).
  assert (∀ c, position c = len c → let c' := foldl (λ c buf, (write buf c).2) c bufs in buffer c' = buffer c ++ concat bufs ∧ position c' = len c') as Hall.
  { induction bufs as [|b bufs IH]; intros d Hd; [split; [by rewrite app_nil_r|done]|]. cbn [foldl concat]. cbv zeta.
    assert (buffer (write b d).2 = buffer d ++ b) as Hb.
    { unfold write, len in *. simpl. rewrite Hd, Nat2Z.id, Nat.sub_diag. simpl. rewrite app_nil_r, take_ge by lia. rewrite drop_ge by lia. by rewrite app_nil_r. }
    destruct (IH (write b d).2) as [H1 H2].
    { change (position (write b d).2) with (position d + Z.of_nat (length b)). unfold len in *. rewrite Hb, length_app. lia. }
    rewrite H1, Hb, <-app_assoc. by rewrite H2. }
  destruct (Hall c eq_refl) as [H1 H2]. cbv zeta in H1, H2. split; [done|]. split.
  - unfold remaining_mut. lia.
  - unfold chunk_mut. rewrite H2, Z.leb_refl. apply drop_ge. unfold len. lia.
Qed.

Lemma reader_is_empty h c n : get_reader h = Ok c → remaining c = 0 ∧ read n c = ([], c) ∧ (0 < n → advance n c = panic).
Proof.
  intros [= <-]. split; [done|]. split.
  - unfold read, chunk. simpl. by rewrite take_nil.
  - intros Hn. unfold advance. by rewrite (proj2 (Z.leb_gt _ _)).
Qed.
End cursor.
End LruCache.
