(* ===== verification/LockExt.v ===== *)
(** [lock_ext] (src/shed/lock_ext/src/lib.rs): running a closure under a lock, for the locks of the
    standard library, which are poisoned by a panic, and for those of parking_lot, which are not.

    Closures run one at a time; a closure is what it leaves in the lock and what it returns, nothing
    if it panics. *)
From S2P Require Import Prelude RustStd.

Module LockExt.
Section lock.
Context {V Out : Type}.

(** [std::sync::Mutex] and [std::sync::RwLock]; that of parking_lot is its value. *)
Record Lock := { value : V; poisoned : bool }.

(** [self.lock().expect("lock poisoned")], and then the scope. *)
Definition with_mutex (self : Lock) (scope : V → V * option Out) : Lock * option Out :=
  if poisoned self then (self, None)
  else let '(v, out) := scope (value self) in ({| value := v; poisoned := is_none out |}, out).

Definition with_parking_lot (self : V) (scope : V → V * option Out) : V * option Out := scope self.

Definition with_read (self : Lock) (scope : V → option Out) : Lock * option Out :=
  if poisoned self then (self, None) else (self, scope (value self)).

Definition with_write (self : Lock) (scope : V → V * option Out) : Lock * option Out :=
  if poisoned self then (self, None)
  else let '(v, out) := scope (value self) in ({| value := v; poisoned := is_none out |}, out).

(** One call after the other. *)
Fixpoint calls {L S} (with_ : L → S → L * option Out) (l : L) (scopes : list S) : L * list (option Out) :=
  match scopes with
  | [] => (l, [])
  | s :: scopes => let '(l, out) := with_ l s in let '(l, outs) := calls with_ l scopes in (l, out :: outs)
  end.

(** What the scopes do on the value itself, up to the first that panics. *)
Fixpoint until_panic (v : V) (scopes : list (V → V * option Out)) : V * list Out * bool :=
  match scopes with
  | [] => (v, [], false)
  | s :: scopes =>
      match s v with
      | (v, None) => (v, [], true)
      | (v, Some out) => let '(v, outs, p) := until_panic v scopes in (v, out :: outs, p)
      end
  end.

Lemma poisoned_refuses {S} (with_ : Lock → S → Lock * option Out) l scopes :
  (∀ s, with_ l s = (l, None)) → calls with_ l scopes = (l, replicate (length scopes) None).
Proof. intros Hw. induction scopes as [|s scopes IH]; simpl; [done|]. by rewrite Hw, IH. Qed.

(** Calls on a mutex of the standard library run their scopes in order on the value, until one panics;
    that one leaves the value as it was then, and every later call panics without running. *)
Theorem mutex_until_panic v scopes :
  let '(v', outs, p) := until_panic v scopes in
  calls with_mutex {| value := v; poisoned := false |} scopes =
    ({| value := v'; poisoned := p |}, (Some <$> outs) ++ replicate (length scopes - length outs) None).
Proof.
  revert v. induction scopes as [|s scopes IH]; intros v; simpl; [done|]. unfold with_mutex at 1. simpl. destruct (s v) as [v1 [out|]]; simpl.
  - specialize (IH v1). destruct (until_panic v1 scopes) as [[v' outs] p]. by rewrite IH.
  - rewrite poisoned_refuses by done. done.
Qed.

(** A mutex of parking_lot runs all of them, each on what the one before it left, panics included. *)
Theorem parking_lot_runs_all v scopes :
  calls with_parking_lot v scopes = (foldl (λ v s, (s v).1) v scopes, imap (λ i s, (s (foldl (λ v s, (s v).1) v (take i scopes))).2) scopes).
Proof.
  revert v. induction scopes as [|s scopes IH]; intros v; simpl; [done|]. unfold with_parking_lot at 1. destruct (s v) as [v1 out] eqn:Hs; simpl.
  rewrite IH. f_equal. f_equal. apply imap_ext. intros i s' Hi. simpl. by rewrite Hs.
Qed.

(** A panic while reading leaves a [RwLock] as it is; one while writing poisons it for readers too. *)
Theorem read_never_poisons l scopes : (calls with_read l scopes).1 = l.
Proof.
  induction scopes as [|s scopes IH]; simpl; [done|]. unfold with_read at 1. destruct (poisoned l); simpl; by destruct (calls _ _ _).
Qed.

Lemma write_poisons l scope v : poisoned l = false → scope (value l) = (v, None) →
  ∀ read, with_read (with_write l scope).1 read = ({| value := v; poisoned := true |}, None).
Proof. intros Hp Hs read. unfold with_write. by rewrite Hp, Hs. Qed.
End lock.
End LockExt.
