(* ===== verification/PanicHandler.v ===== *)
(** [panichandler] (src/shed/panichandler/src/lib.rs): the hook that reports a panic and decides the fate
    of the process.

    The report is its lines; that they may fail to be written is ignored by the code.  The texts of
    locations and of demangled names, and the frames, are what other crates make. *)
From stdpp Require Import strings.
From Stdlib Require Import Ascii.
From S2P Require Import Prelude RustStd RustStr.

Module PanicHandler.
#[local] Abbreviation length := List.length.
#[local] Open Scope string_scope.
#[local] Open Scope nat_scope.
#[local] Open Scope list_scope.

Definition MAX_FRAMES : nat := 1000.

Inductive Fate := Continue | Exit (code : Z) | Abort.

(** The payload of a panic: a literal, a [String], or something else. *)
Inductive Payload := Str (s : string) | Owned (s : string) | Other.
Record Symbol := { sym_name : option string; sym_addr : option Z; sym_filename : option string; sym_lineno : option Z }.
Record PanicHookInfo := { payload : Payload; location : option string }.

Definition message (p : Payload) : string := match p with Str s | Owned s => s | Other => "(about something)" end.

(** [{:width}] of a text, [{:016x}] of an address. *)
Fixpoint spaces (n : nat) : string := match n with O => EmptyString | S n => " " +:+ spaces n end.
Definition hex_digit (d : Z) : string := String (ascii_of_N (Z.to_N (if (d <? 10)%Z then 48 + d else 87 + d))) EmptyString.
Fixpoint hex (digits : nat) (z : Z) : string :=
  match digits with O => EmptyString | S n => hex_digit ((z / 16 ^ Z.of_nat n) mod 16) +:+ hex n z end.

Definition loc_of (s : Symbol) : option (string * Z) := f ← sym_filename s; l ← sym_lineno s; Some (f, l).
Definition loc_text (l : string * Z) : string := l.1 +:+ ":" +:+ to_string l.2.

(** The first symbol of a frame has a line, and one for its location; the others, which were inlined,
    only their location. *)
Definition symbol_lines (i : nat) (s : Symbol) : list string :=
  if i =? 0 then
    (spaces 4 +:+ "@ " +:+ hex 16 (default 0%Z (sym_addr s)) +:+ " " +:+ default "<???>" (sym_name s)) ::
    (match loc_of s with Some l => [spaces 22 +:+ " " +:+ loc_text l] | None => [] end)
  else match loc_of s with Some l => [spaces 22 +:+ " -> " +:+ loc_text l] | None => [] end.
Definition frame_lines (symbols : list Symbol) : list string := concat (imap symbol_lines symbols).

Definition report (panic : PanicHookInfo) (frames : list (list Symbol)) : list string :=
  let limited := MAX_FRAMES <? length frames in
  [("PANIC: " +:+ message (payload panic))] ++
  (match location panic with Some loc => ["from " +:+ loc] | None => [] end) ++
  (if limited then ["(limiting " +:+ to_string (Z.of_nat (length frames)) +:+ " frames to " +:+ to_string (Z.of_nat MAX_FRAMES) +:+ ")"] else []) ++
  concat (frame_lines <$> (if limited then take MAX_FRAMES frames else frames)).

(** What becomes of the process after the report. *)
Inductive Outcome := Unwinds | Exits (code : Z) | Aborts (handler_reset : bool).
Definition handler (panic : PanicHookInfo) (frames : list (list Symbol)) (fate : Fate) : list string * Outcome :=
  (report panic frames, match fate with Continue => Unwinds | Exit code => Exits code | Abort => Aborts true end).

(** * The report *)

Lemma imap_concat_bound {A B} (f : nat → A → list B) k l :
  (∀ i x, length (f i x) ≤ if i =? 0 then 2 else 1) → length (concat (imap (λ i, f (i + k)) l)) ≤ (if k =? 0 then 1 else 0) + length l.
Proof.
  intros Hf. revert k. induction l as [|x l IH]; intros k; simpl; [lia|]. rewrite length_app.
  specialize (IH (S k)). simpl in IH. rewrite (imap_ext _ (λ i, f (i + S k))) by (intros i y _; simpl; by rewrite Nat.add_succ_r).
  pose proof (Hf k x) as Hx. destruct (Nat.eqb_spec k 0); lia.
Qed.

Lemma frame_lines_bound symbols : length (frame_lines symbols) ≤ 1 + length symbols.
Proof.
  pose proof (imap_concat_bound symbol_lines 0 symbols) as Hb. simpl in Hb. unfold frame_lines.
  rewrite (imap_ext _ (λ i, symbol_lines (i + 0))) by (intros i y _; by rewrite Nat.add_0_r). apply Hb.
  intros i x. unfold symbol_lines. destruct (i =? 0); destruct (loc_of x); simpl; lia.
Qed.

(** Whatever the panic and the frames, the report says what it was about, and is of the first thousand
    frames at most: it has at most a line more than the symbols of each of them, and three. *)
Theorem report_bounded panic frames :
  head (report panic frames) = Some ("PANIC: " +:+ message (payload panic))%string ∧
  length (report panic frames) ≤ 3 + sum_list_with (λ f, 1 + length f) (take MAX_FRAMES frames) ∧
  (length frames ≤ MAX_FRAMES → ∃ l, report panic frames = l ++ concat (frame_lines <$> frames)) ∧
  ∀ more, length frames = MAX_FRAMES → ∃ l, report panic (frames ++ more) = l ++ concat (frame_lines <$> frames).
Proof.
  assert (∀ l, length (concat (frame_lines <$> l)) ≤ sum_list_with (λ f, 1 + length f) l) as Hlen.
  { induction l as [|f l IH]; [done|]. rewrite fmap_cons. cbn [concat sum_list_with]. rewrite length_app. pose proof (frame_lines_bound f). lia. }
  assert ((if MAX_FRAMES <? length frames then take MAX_FRAMES frames else frames) = take MAX_FRAMES frames) as Htake.
  { destruct (Nat.ltb_spec MAX_FRAMES (length frames)); [done|]. by rewrite take_ge. }
  split; [done|]. split; [|split].
  - unfold report. rewrite Htake, !length_app. specialize (Hlen (take MAX_FRAMES frames)).
    set (total := sum_list_with _ _) in *. set (lines := length (concat _)) in *. destruct (location panic), (_ <? _); simpl; lia.
  - intros Hl. unfold report. rewrite Htake, take_ge by done. eexists. by rewrite !app_assoc.
  - intros more Hl. unfold report. destruct (Nat.ltb_spec MAX_FRAMES (length (frames ++ more))) as [_|Hge].
    + rewrite take_app_le, take_ge by lia. eexists. by rewrite !app_assoc.
    + assert (more = []) as ->. { destruct more; [done|]. rewrite length_app in Hge. simpl in Hge. lia. } rewrite app_nil_r. eexists. by rewrite !app_assoc.
Qed.

(** ** Addresses *)

Definition read_digit (c : ascii) : Z := let n := Z.of_N (N_of_ascii c) in (if n <? 58 then n - 48 else n - 87)%Z.
Fixpoint read_hex (s : string) (acc : Z) : Z := match s with EmptyString => acc | String c s => read_hex s (acc * 16 + read_digit c)%Z end.

Lemma read_hex_digit d : (0 ≤ d < 16)%Z → ∃ c, hex_digit d = String c EmptyString ∧ read_digit c = d.
Proof.
  intros Hd. eexists. split; [done|]. apply Z.eqb_eq.
  by apply (range_check (λ d, read_digit (ascii_of_N (Z.to_N (if d <? 10 then 48 + d else 87 + d))) =? d)%Z 0 16).
Qed.

(** An address of 64 bits is printed with 16 digits, from which it can be read. *)
Theorem hex_read n z acc : (0 ≤ z < 16 ^ Z.of_nat n)%Z → String.length (hex n z) = n ∧ read_hex (hex n z) acc = (acc * 16 ^ Z.of_nat n + z)%Z.
Proof.
  assert (∀ n z acc, (0 ≤ z)%Z → String.length (hex n z) = n ∧ read_hex (hex n z) acc = (acc * 16 ^ Z.of_nat n + z mod 16 ^ Z.of_nat n)%Z) as Hgen.
  { clear. induction n as [|n IH]; intros z acc Hz; [split; [done|]; simpl; rewrite Z.mod_1_r; lia|]. simpl hex.
    destruct (read_hex_digit ((z / 16 ^ Z.of_nat n) mod 16)) as (c&->&Hc); [by apply Z.mod_pos_bound|]. destruct (IH z (acc * 16 + read_digit c)%Z Hz) as [H1 H2].
    change (S (String.length (hex n z)) = S n ∧ read_hex (hex n z) (acc * 16 + read_digit c) = (acc * 16 ^ Z.of_nat (S n) + z mod 16 ^ Z.of_nat (S n))%Z).
    split; [by rewrite H1|]. rewrite H2, Hc, Nat2Z.inj_succ, Z.pow_succ_r by lia.
    rewrite (Z.mul_comm 16), Z.rem_mul_r by (try (apply Z.pow_nonzero; lia); lia). lia. }
  intros Hz. destruct (Hgen n z acc ltac:(lia)) as [H1 H2]. split; [done|]. by rewrite H2, Z.mod_small.
Qed.
End PanicHandler.
